(* ===== verification/_CoqProject ===== *)
-Q . S2P
Prelude.v
Utf8.v
Ordered.v
Decimal.v
TextSplit.v
UnixPath.v
Int64.v
CompactionBudget.v
CompactionResults.v
CompactionSummary.v
CompactionHistory.v
CompactionReplay.v
CompactionFrozen.v
CompactionCanonical.v
CompactionProjection.v
CompactionRunner.v
PatchDocument.v
PatchMatcher.v
PatchParser.v
PatchGuards.v
PatchPlanner.v
TargetLocks.v
OrderedIngress.v
Json.v
ProgressCoalescer.v
DurableLane.v
SnapshotLane.v
WriterAdmission.v
ToolFingerprint.v
ToolRetry.v
ToolNoProgress.v
ToolLoopGuard.v
CronSchedule.v
TaskTrigger.v
TaskScheduler.v
SkillPaths.v
SkillScan.v
SkillResolver.v
NetworkPolicy.v
ToolPermissions.v
ProcessPolicy.v
DelegatedSecurity.v
FileSystem.v
FileTarget.v
FilePolicy.v
ProcessSpawn.v
TextSnapshot.v
PatchHistory.v
SystemCalls.v
SecureFs.v
FileMutation.v
FileEngine.v
PatchExecutor.v
PatchExecution.v
PatchPrepare.v
TaskReview.v
