(* ===== verification/Prelude.v ===== *)
(** * Verification of the Pioneer runtime core

    Pioneer is a desktop and server runtime for language-model agents, written
    in Rust as a workspace of some forty crates under [src/crates/]. Most of
    them are input and output: user interfaces, a database layer, transports
    and provider clients. This development verifies the pure decision logic
    that the rest relies on, in eight groups, and the sequences of system calls
    that carry a patch out.

    ** 1. Keeping a conversation within the model's context
       ([src/crates/compaction/])

    - [CompactionBudget.v] models [estimator.rs] (Module [Estimator]: the
      streaming token estimate), [budget.rs] (Module [Budget]: what fits a
      model's window, its output reserve, the calibration of an estimate by a
      provider's measurement) and [selection.rs] (Module [Selection]: which
      summarizer a configuration selects).
    - [CompactionResults.v] models [results.rs]: excerpts of a long tool result
      and its pages under a token and a byte budget.
    - [CompactionSummary.v] models [summary.rs]: when the answer of a summarizer
      is accepted.
    - [CompactionHistory.v] models [history.rs]: which units of a history are
      compacted and which are kept, and the union of source snapshots.
    - [CompactionReplay.v] and [CompactionFrozen.v] model [frozen.rs]: the graph
      of aliases between replayed messages, and the validation and publication
      of frozen message references that feeds it.
    - [CompactionCanonical.v] models [canonical.rs]: transcript records grouped
      into rounds.
    - [CompactionProjection.v] models [projection.rs]: the history without what
      later observations supersede.
    - [CompactionRunner.v] models [runner.rs], the durable state machine of one
      compaction (attempts, retries, deadlines, candidates, commit), and the
      events its driver in [src/crates/gateway/src/compaction.rs] feeds to it.

    Canonical rounds and the projection produce the units of the history; the
    planner splits them, the frozen references name what was compacted and the
    alias graph keeps it from being replayed twice; the runner asks the budget
    what fits, works on the plan and publishes an accepted summary. Shown:
    admission by the estimate is sound, and the estimator's sink is the
    estimate; pages of a result reconstruct it and excerpts keep both its ends;
    an answer is accepted exactly when it has the required shape; a plan is the
    cheapest admissible cut, compacts only complete and eligible units, and
    every error means what it says; the alias graph suppresses exactly the
    uncontested copies, whatever the order of the edges, and validated messages
    justify each of them; the paged check of targets is the check of all; the
    rounds are exactly what the records read as, a partition of them; the
    projection keeps exactly what nothing supersedes; the runner publishes a
    checkpoint only after the whole protocol, does bounded work between two
    accepted candidates, never panics, keeps its counters and time windows in
    bounds, never takes progress back and shrinks its input after an overflow.

    ** 2. Applying a patch ([src/crates/tools/src/apply_patch/])

    - [PatchDocument.v]: the documents, operations and hunks of [parser.rs] and
      the limits of [file_mutation/mod.rs].
    - [PatchParser.v] models [parser.rs]: text to document, with recovery,
      diagnostics and limits.
    - [PatchGuards.v] models [guards.rs] and the version tokens of
      [file_mutation/mod.rs]: directives to guards.
    - [PatchMatcher.v] models [matcher.rs]: lines, the bounded search for a hunk
      and the application of an update.
    - [PatchPlanner.v] models [planner.rs]: the operations run on a virtual
      workspace; it calls the matcher and consults the guards.
    - [TargetLocks.v] models [locks.rs]: the registry that locks the targets of
      a patch, with its queue of waiters, as a step relation of tasks that
      request, are granted, give up and release.
    - [TextSnapshot.v] models the text snapshots of [file_mutation/snapshot.rs]: the
      streaming check of a file's encoding and its line endings, read in blocks.
    - [PatchHistory.v]: the data of the history and of the executor's report.
    - [SystemCalls.v]: programs as finite trees of system calls, each answered by
      anything the kernel may answer, with a predicate transformer [wp] over every
      run; logs of calls, and what a log tells of a name. [SecureFs.v] models the
      openers of [snapshot.rs] as such programs, [FileMutation.v] the engine of
      [file_mutation/mod.rs] (locks, staging, publication, rollback, every operation),
      [PatchExecutor.v] all of [executor.rs]: revalidation and replanning, stages, the
      commit of each operation, admission and the report.
    - [FileEngine.v] and [PatchExecution.v] prove what the engine and the executor
      tell about what they did.
    - [PatchPrepare.v] models [prepare.rs] and [authorize.rs], which stand between the
      planner and the executor: names become targets with their manifest, the files
      are read and the plan is made, and the whole is shown to the sandbox and to
      whoever approves it.

    A text is parsed, its guards validated, prepared with a plan, authorized and executed
    under its locks. Shown: the parser answers every
    input, and a document it accepts is well formed and within every limit;
    tokens and their texts are in bijection; guard validation succeeds exactly
    when every guard denotes something applicable; the search is the naive
    search, hunks apply only where they can be meant, an update is the declared
    patch, splitting a file loses nothing; a plan is a replayable and reversible
    log of its effect, respects the guards, always answers, refuses exactly the
    moves that lead back, and replacements keep a file's framing; live locks share no key, a request is granted
    exactly when nobody holds or earlier awaits one of its keys, and everybody
    who waits is reached; a snapshot depends on the bytes and not on the blocks they
    came in, and is refused exactly when they are no text it may hold. Whatever the
    kernel answers, an operation of the engine that says a file is created, replaced,
    moved or deleted has done just that, one that says nothing changed has changed no
    name, and one that cannot tell says so ([engine_operations_told]); an execution
    reports every operation of its plan once, in order, with what became of it, touches
    only names of the plan and its own private files, and leaves none of them without
    accounting for it ([patch_execution_told]). What is prepared is the patch as written
    with a plan for the bytes read, its manifest covers every name, up to slashes and
    backslashes, and the directories above it, and it meets what the executor asks of a patch ([patch_prepared]); an
    approval counts for exactly the patch it was given for ([authorize_exact]). Two defects of
    the matcher are recorded; one is a theorem ([disjoint_hunks_refused]). Of the
    executor and of the preparation some are findings: an uncertain state may be reported
    as a failure, a directory may be left behind without a report, and of two names with a
    backslash and a slash one loses its target.

    ** 3. Delivering events ([src/crates/runtime-events/])

    - [OrderedIngress.v] models [ordered_ingress.rs]: the queue operations under
      the mutex, and a step relation that interleaves producers, the closer, the
      clock and the worker between their suspension points. Shown: what is sent
      and queued is a coalesced linearization of what was accepted, a graceful
      end loses nothing, the queue is bounded, and nothing waits in front of a
      durable event or longer than the flush interval.
    - [ProgressCoalescer.v] models [progress.rs]: updates merged per stream, and
      a step relation of producers, timers, flushes and the threads that send
      what they drained. Shown: what was drained and is pending merges the
      accepted updates in consecutive groups, a merged text abridges their
      concatenation, keys and bytes are bounded and the byte counter is exact,
      pending progress always has a flush scheduled, a durable event flushes
      exactly what it concerns. One defect is a theorem ([sends_may_overtake]).
    - [DurableLane.v] models the durable lane of [hub.rs]: publishers that reserve,
      send and wait for a commit, and listeners that lease the receiver,
      acknowledge and are replaced, interleaved. Shown: nothing is lost or
      repeated and every waiting publisher gets the answer to its own event, the
      lane is bounded, and a consumer can always answer everyone.
    - [SnapshotLane.v] models [snapshot.rs], interleaved at every atomic operation.
      Shown: the last accepted value of an item is pending or was delivered last,
      and the receiver never sleeps past something to do. A defect is a theorem
      ([accepted_snapshot_lost]).

    ** 4. Bounding the agent loop ([src/crates/tools/src/])

    - [ToolFingerprint.v] models the fingerprints of tool arguments in
      [retry_controller.rs], [ToolRetry.v] the controller itself: episodes of
      retries and their budgets. Shown: fingerprints identify arguments up to
      the order of object members; a batch is retried exactly when every failure
      has room; runs of retries are bounded; the order in a batch is irrelevant.
    - [ToolNoProgress.v] models [no_progress_guard.rs]: timeouts counted per
      strategy and invocations blocked. Shown: repeated timeouts are blocked,
      nothing is blocked without evidence, and the checkpoint is bounded.
    - [ToolLoopGuard.v] models [loop_guard.rs]: budgets of windows and turns.
      Shown: over any sequence of calls the grants stay within the normalized
      budget, the decision before a round is exact, and windows open
      consecutively up to the limit.

    ** 5. Running scheduled tasks ([src/crates/tasks/src/])

    - [CronSchedule.v] models the cron expressions of [trigger.rs] and the
      searches for the next and the latest fire.
    - [TaskTrigger.v] models the calculator of [trigger.rs]: which fires an
      observation of a trigger is due, and how missed ones are caught up.
    - [TaskScheduler.v] models how [scheduler.rs] turns such a plan into Runs,
      the transactions of [src/crates/crud/src/] that commit, claim, start, change
      and resume Runs, and what users do to a trigger in [service.rs]; a step
      relation interleaves all of them with Runs made by others and changes of the
      policy.
    - [TaskReview.v] models [review.rs], the operations of [service.rs] that record,
      resolve, revise and cancel reviews of a task's result, and how
      [src/crates/crud/src/repositories/] commits them, interleaved between their
      queries and their transactions.

    The scheduler asks the calculator for a plan, which asks the cron searches
    for fires. Shown: an expression accepts the wall clocks it means; the
    searches end with the first and the last fire, and looking back agrees with
    following the schedule; a plan is what the catch-up policy says; under any
    interleaving no fire runs twice since the last time a user wrote the trigger,
    when missed fires are to be run only those are passed over for which a queued
    Run of the trigger already stood, and the limit of parallel Runs is exceeded only
    by Runs started without a claim and by a limit that was lowered. A defect is a theorem: catching
    up as many fires as the default limit allows can never be committed
    ([full_catch_up_refused]). A review resolves a candidate exactly when the policy
    gives the decision to its author on the last advice of every reviewer, and however
    the operations interleave, each final review was allowed, means the status of the
    candidate and supersedes the one before unless it keeps the status. Two findings:
    of two acceptances that race the second replaces the first without superseding it,
    and reviewers of little weight never reach a quorum.

    ** 6. Choosing skills ([src/crates/skills/])

    - [SkillPaths.v] models [path_match.rs], [SkillScan.v] the scan of a directory
      in [security.rs] and [SkillResolver.v] the resolution in [resolver.rs] with
      the policies and dependencies it consults. The resolver matches touched
      paths and scans the directories of skills. Shown: a pattern matches exactly
      what it spells; the scan ends with what the tree of entries determines,
      however it is cut into steps; a skill is active exactly when it is invoked
      and passes every gate, every skill and reference is accounted for once, and
      the order of the input does not matter.

    ** 7. What a turn may do ([src/crates/tools/src/], [src/crates/protocol/src/],
       [src/crates/gateway/src/turn_security.rs])

    - [NetworkPolicy.v] models [network_policy.rs] and the grants of
      [orchestrator.rs]; [ToolPermissions.v] the profiles of [turn_permissions.rs]
      and the evaluator of [permissions/mod.rs]; [ProcessPolicy.v] the rules of
      [process_policy.rs] on commands and environments and, with the files and
      the network consulted, [ProcessSpawn.v] its plan of a process;
      [DelegatedSecurity.v] how
      [turn_security.rs] derives the authority of the child of a task from these.
      Shown: a URL is reachable exactly when the policy says so, grants add exactly
      what was granted; decisions under intersected profiles are the stricter of
      both, for the use of a file where the scopes of both are settled; an accepted
      plan shows its process exactly the variables its policy lets through, with the
      private directory for the temporary ones of an isolated turn; a
      delegated turn gets no more than its parent and its cap, where lists mean
      what the intersection reads; without a sandbox it may access every file, whatever
      the entries of its cap. Defects are theorems: lists that are empty
      after an intersection reopen access ([empty_lists_reopen]), and full network
      access forgets denials ([enabled_grant_forgets_denials]).
    - [FileSystem.v] is a Unix file system as the openers of
      [apply_patch/file_mutation/snapshot.rs] use it: walking a path through links,
      [canonicalize], [symlink_metadata] and [openat], and the openers themselves,
      which refuse links at every component. [FileTarget.v] models
      [file_mutation/target.rs]: how a name becomes a target with its
      manifest identity. [FilePolicy.v] models [file_policy.rs]: whether a tool may
      read or write the target. The policy resolves a name as the target does and
      then consults its roots and entries. Shown: a target stays below its root and
      crosses no link, and its errors say why; a manifest lists every key once, in
      order; a read or a write is granted exactly when the entries and roots say so, what is
      granted lies in a granted root, and a denial names what denies. Defects are
      findings: names with a backslash collide, and an entry that forbids access is
      reported as an escape through a link.

    ** 8. Writing to the database ([src/crates/sqlite/src/writer.rs])

    - [WriterAdmission.v] models the admission of writers: two classes of waiters, the
      turns of each and the phases of the lifecycle, as a step relation of requests,
      cancellations, releases and shutdown. Shown: one writer at a time, the writer is
      never idle while somebody waits, each class is served in order, nobody is passed
      over more often than the bound, and everybody who waits is reached.

    ** Conventions

    This file holds what the components share: results with [Ok] and [Err],
    machine integers as [N] with their saturation or overflow check written out
    (a [usize] is 64 bits wide), record update [s <| field := v |>], texts,
    list lemmas, reachability and the tactics [simplify_result], [case_goal] and
    [word]. [Utf8.v] holds the standard library's conversions between texts and
    bytes, [Decimal.v] the numerals, [Ordered.v] derived orders (a class with
    its laws), stable sorting on a key and ordered iteration, [TextSplit.v]
    the splitting and trimming of texts, [UnixPath.v] the components of Unix paths
    and their lexical normalization, [Int64.v] signed 64-bit integers as [Z], [Json.v]
    the values of serde_json. A Rust text whose characters matter is the list of its
    scalar values; a map is a [gmap]; an identifier that is only compared is a
    [string]. A function that may fail returns a [result]; one that may run out
    of fuel an [option], whose [None] the theorems exclude. A method that mutates
    [self] returns the new state. Where a map is iterated in an unspecified
    order, the order is an argument.

    Fuel: the compaction planner shrinks at most once per unit
    ([plan_compaction_errors] shows that suffices); a page makes progress, so a
    result has at most as many pages as characters ([pages_reconstruct]); the
    paged check gets one page per target ([target_pages_exact]) and the search
    along supersession links one step per reference ([project_history_exact]);
    the parser's loops get the number of lines ([parse_always_answers]); the
    failure table and the fall back of the search get twice the pattern and the
    matched length ([find_candidates_is_naive_search] shows the result is the
    full one); a number is printed with the 20 digits a 64-bit integer can have;
    the walk along the moves gets one step more than there are moves
    ([plan_always_answers]); flushing everything gets one round more than there
    are pending values ([durable_flush_exact]); the cron searches get two minutes
    more than 366 days have ([next_cron_fire_exact]), and the loop over missed
    fires its scan limit ([due_plan_exact]);
    the scan of a directory gets a step per entry of the tree and per directory
    ([scan_exact]).

    Parameters, for code outside the repository: SHA-256 (the digest of a plan,
    of a patch and of a file, each an argument), the hex codec ([HexCodec] with
    its laws [HexLaws], instantiated by [SampleHex]), the semaphore of tokio
    ([SemaphoreOps] and [SemaphoreLaws], instantiated by a counter),
    chrono, the wall clocks of a zone ([Chrono], [ChronoLaws], instantiated by
    [SampleCalendar]), and serde_json: the JSON frame of a page ([PageJson], [PageJsonLaws]), the values
    of a transcript ([JsonValue]), the text of values ([JsonText],
    [JsonTextLaws], instantiated by [SampleText]), the text of a trigger
    specification ([SpecJson]). The no-progress guard takes
    its hash, Unicode tables and the length of its serialized state as
    parameters ([GuardEnvironment], [GuardEnvironmentLaws], instantiated by
    [SampleGuard]). The url crate is the class [UrlApi], the JSON of an approval scope and its hash
    [ScopeCodec]; what the file system, the
    environment and the search path of the host answer to skills are records and
    trees. For targets and the file policy the file system is one that does not change during a
    check, an inode is identified by its location, the host is Linux, and the lower
    case of Unicode texts is a parameter. In the programs of system calls nothing is
    assumed of the answers, so other processes may interleave with them; a descriptor
    is the identity of what it was opened on, closing one has no effect on files and is
    left out, and the names of private files come from an oracle of fresh texts. The
    witnesses run the programs against an oracle of answers by computation. The weights
    of reviewers are the standard library's [spec_float] of 64 bits; the meaning of a
    quorum without weights is computed for up to 64 reviewers. The channels of tokio are queues with permits, a [Notify] a stored permit
    and a generation. A notification may wake the worker of the ingress at any
    time, so nothing about its wake-ups is assumed or shown.

    ** Not modelled

    Serialization derives, [Display] texts of errors and telemetry, which decide
    nothing; the diagnostics' wording and the observer's journal of a patch, the
    recovery facts it stores with an admission, and staging relative to an anchored
    directory, which other tools use and patches do not; the database, transport, provider
    and interface crates. The manifest names each part with its reason.

    What would come next: the reconciliation rules of the tasks crate, archives and installation of skills, and the intents of tools. *)
From Stdlib Require Export ZArith Lia.
From stdpp Require Export base tactics option list numbers strings gmap fin_maps fin_sets sorting relations.

#[export] Set Warnings "-clear-no-such-hyp".

(** ** Fallible code

    A Rust [Result] is a [result]; [anyhow] errors and panics are told apart by
    [failure], so that "never panics" is a statement about the model. *)
Inductive failure :=
  | Bail (msg : string)
  | Panic (msg : string).

#[export] Instance failure_eq_dec : EqDecision failure.
Proof. solve_decision. Defined.

Inductive result (E A : Type) :=
  | Ok (a : A)
  | Err (e : E).
Arguments Ok {E A} a.
Arguments Err {E A} e.

#[export] Instance result_eq_dec `{EqDecision E, EqDecision A} : EqDecision (result E A).
Proof. solve_decision. Defined.

#[export] Instance result_ret E : MRet (result E) := λ A a, Ok a.
#[export] Instance result_bind E : MBind (result E) := λ A B f m,
  match m with Ok a => f a | Err e => Err e end.
#[export] Instance result_fmap E : FMap (result E) := λ A B f m,
  match m with Ok a => Ok (f a) | Err e => Err e end.

(** [anyhow::ensure!] and its typed variants. *)
Definition ensure {E} (b : bool) (e : E) : result E () :=
  if b then Ok () else Err e.

(** [Option::ok_or] / [ok_or_else]. *)
Definition ok_or {E A} (o : option A) (e : E) : result E A :=
  match o with Some a => Ok a | None => Err e end.

(** [Result::map_err]. *)
Definition map_err {E F A} (f : E → F) (r : result E A) : result F A :=
  match r with Ok a => Ok a | Err e => Err (f e) end.

(** A fold that stops at the first error: the [for] loop whose body uses [?]. *)
Fixpoint foldlM {E A S} (f : S → A → result E S) (s : S) (l : list A) : result E S :=
  match l with
  | [] => Ok s
  | a :: l => s' ← f s a; foldlM f s' l
  end.

Section result_lemmas.
Context {E A B : Type}.
Implicit Types (m : result E A) (f : A → result E B) (e : E).

Lemma bind_Ok m f b : m ≫= f = Ok b ↔ ∃ a, m = Ok a ∧ f a = Ok b.
Proof. destruct m; simpl; split; [eauto|by intros (? & [= ->] & ?)|done|by intros (? & ? & _)]. Qed.

Lemma ensure_Ok b e u : ensure b e = Ok u ↔ b = true.
Proof. by destruct b, u. Qed.

Lemma ensure_Err b e e' : ensure b e = Err e' ↔ b = false ∧ e' = e.
Proof. destruct b; simpl; split; [done|by intros [? _]|by intros [= <-]|by intros [_ ->]]. Qed.

Lemma ok_or_Ok (o : option A) e a : ok_or o e = Ok a ↔ o = Some a.
Proof. destruct o; simpl; split; congruence. Qed.

Lemma map_err_Ok {F} (f : E → F) m a : map_err f m = Ok a ↔ m = Ok a.
Proof. destruct m; simpl; split; congruence. Qed.
End result_lemmas.

Lemma foldlM_app {E A S} (f : S → A → result E S) s l1 l2 :
  foldlM f s (l1 ++ l2) = s' ← foldlM f s l1; foldlM f s' l2.
Proof. revert s; induction l1 as [|a l1 IH]; intros s; simpl; [done|]. destruct (f s a); simpl; [apply IH|done]. Qed.

(** An invariant of the body is an invariant of the loop. *)
Lemma foldlM_ind {E A S} (P : S → Prop) (f : S → A → result E S) l :
  (∀ s a s', a ∈ l → P s → f s a = Ok s' → P s') →
  ∀ s s', P s → foldlM f s l = Ok s' → P s'.
Proof.
  induction l as [|a l IH]; intros Hstep s s' Hs; simpl; [by intros [= <-]|].
  intros (s1 & Hf & Hl)%bind_Ok.
  eapply IH; [|eapply Hstep; [apply list_elem_of_here|done..]|done].
  intros t b t' Hb; apply Hstep, list_elem_of_further, Hb.
Qed.

(** The same for a property of the processed prefix and the state. *)
Lemma foldlM_trace_ind {E A S} (P : list A → S → Prop) (f : S → A → result E S) s0 :
  P [] s0 → (∀ l s a s', P l s → f s a = Ok s' → P (l ++ [a]) s') →
  ∀ l s, foldlM f s0 l = Ok s → P l s.
Proof.
  intros H0 Hstep l. induction l as [|a l IH] using rev_ind; intros s; simpl.
  - by intros [= <-].
  - rewrite foldlM_app. intros (s1 & Hl & H)%bind_Ok. apply (Hstep l s1); [by apply IH|].
    simpl in H. by apply bind_Ok in H as (s2 & Hf & [= <-]).
Qed.

(** ** Machine integers

    An unsigned [w]-bit integer is an [N]; every operation of the source that
    can leave the width is written with its saturation or overflow check. *)
Definition U8_MAX : N := 255.
Definition U16_MAX : N := 65535.
Definition U32_MAX : N := 4294967295.
Definition U64_MAX : N := 18446744073709551615.

Definition saturating_add (max a b : N) : N := N.min (a + b) max.
Definition checked_add (max a b : N) : option N :=
  if decide (a + b ≤ max)%N then Some (a + b)%N else None.
(** [u32::try_from(x).unwrap_or(u32::MAX)] and its siblings. *)
Definition clamp (max a : N) : N := N.min a max.

Declare Scope word_scope.
Delimit Scope word_scope with word.
Notation "a +₈ b" := (saturating_add U8_MAX a b) (at level 50, left associativity) : word_scope.
Notation "a +₃₂ b" := (saturating_add U32_MAX a b) (at level 50, left associativity) : word_scope.
Notation "a +₆₄ b" := (saturating_add U64_MAX a b) (at level 50, left associativity) : word_scope.
Open Scope word_scope.

(** [lia] decides division and remainder by constants. *)
Ltac Zify.zify_post_hook ::= Z.to_euclidean_division_equations.

Create HintDb word discriminated.
Ltac word :=
  unfold saturating_add, checked_add, clamp in *;
  repeat case_decide; simplify_eq; try lia.

Section word_lemmas.
Local Open Scope N_scope.
Implicit Types a b m : N.

Lemma saturating_add_le_max m a b : saturating_add m a b ≤ m.
Proof. word. Qed.
Lemma saturating_add_ge_l m a b : a ≤ m → a ≤ saturating_add m a b.
Proof. word. Qed.
Lemma saturating_add_mono m a a' b b' :
  a ≤ a' → b ≤ b' → saturating_add m a b ≤ saturating_add m a' b'.
Proof. word. Qed.
Lemma saturating_add_exact m a b : saturating_add m a b < m → saturating_add m a b = a + b.
Proof. word. Qed.
Lemma saturating_add_assoc m a b c :
  saturating_add m (saturating_add m a b) c = saturating_add m a (saturating_add m b c).
Proof. word. Qed.
Lemma saturating_add_comm m a b : saturating_add m a b = saturating_add m b a.
Proof. word. Qed.
Lemma checked_add_Some m a b c : checked_add m a b = Some c ↔ c = a + b ∧ a + b ≤ m.
Proof. unfold checked_add; case_decide; split; [by intros [= <-]|by intros [-> ?]|done|lia]. Qed.
End word_lemmas.
#[export] Hint Resolve saturating_add_le_max saturating_add_ge_l saturating_add_mono : word.

(** ** Tactics *)

(** Turn every equation [computation = Ok _] of the context into the equations
    of its steps. *)
Ltac simplify_result :=
  repeat match goal with
  | H : _ ≫= _ = Ok _ |- _ =>
      let x := fresh "r" in let H1 := fresh "Hr" in
      apply bind_Ok in H as (x & H1 & H); simpl in H
  | H : ensure _ _ = Ok _ |- _ => apply ensure_Ok in H
  | H : ok_or _ _ = Ok _ |- _ => apply ok_or_Ok in H
  | H : checked_add _ _ _ = Some _ |- _ => apply checked_add_Some in H as [-> H]
  | H : mret _ = Ok _ |- _ => injection H as H
  | H : Ok _ = Ok _ |- _ => injection H as H
  | H : Err _ = Ok _ |- _ => discriminate H
  | H : Ok _ = Err _ |- _ => discriminate H
  | H : Err _ = Err _ |- _ => injection H as H
  | u : () |- _ => destruct u
  | H : _ && _ = true |- _ => apply andb_true_iff in H as [H ?]
  | H : bool_decide _ = true |- _ => apply bool_decide_eq_true in H
  | H : bool_decide _ = false |- _ => apply bool_decide_eq_false in H
  | H : negb _ = true |- _ => apply negb_true_iff in H
  | _ => progress simplify_eq
  end.

(** Case analysis on the scrutinee of some [match] of the goal / a hypothesis. *)
Ltac case_goal :=
  match goal with |- context [match ?x with _ => _ end] => destruct x eqn:? end.
Ltac case_in H :=
  match type of H with context [match ?x with _ => _ end] => destruct x eqn:? end.

(** ** Reachability *)
Section invariants.
Context {S : Type} (step : relation S).

(** An inductive invariant holds in every reachable state. *)
Lemma invariant_rtc (P : S → Prop) :
  (∀ s s', P s → step s s' → P s') → ∀ s s', rtc step s s' → P s → P s'.
Proof. intros Hstep s s'; induction 1; eauto. Qed.

(** A preorder respected by every step relates the ends of every run. *)
Lemma monotone_rtc (R : relation S) `{!PreOrder R} :
  (∀ s s', step s s' → R s s') → ∀ s s', rtc step s s' → R s s'.
Proof. intros Hstep s s'; induction 1; [reflexivity|]. etrans; eauto. Qed.
End invariants.

(** ** Field assignment

    [s <| field := v |>] is the copy of the record [s] in which one field is
    assigned, the model of [next.field = v] on an owned copy. A record gets it
    by giving its expansion [Fields]; the update of a field is then found by
    replacing the field in the expansion. *)
Class Fields (R : Type) := fields : R → R.
Class Update {R T : Type} (field : R → T) := update : T → R → R.
Arguments update {R T} field {_} v s /.

Ltac solve_update :=
  match goal with
  | |- @Update ?R ?T ?field =>
      let inst := constr:(_ : Fields R) in
      let v := fresh "v" in let s := fresh "s" in
      intros v s;
      let expansion := eval hnf in inst in
      let whole := eval cbv beta in (expansion s) in
      match eval pattern (field s) in whole with
      | ?abstracted _ => let result := eval cbv beta in (abstracted v) in exact result
      end
  end.
#[export] Hint Extern 1 (Update _) => solve_update : typeclass_instances.
Notation "s <| field := v |>" := (update field v s)
  (at level 1, left associativity, v at level 200).

(** ** Text

    A Rust [String]/[&str] whose characters matter is the list of its Unicode
    scalar values; identifiers that are only compared are [string]s. *)
Abbreviation text := (list N).

(** The text of an ASCII literal. *)
Definition lit (s : string) : text := Ascii.N_of_ascii <$> String.list_ascii_of_string s.

(** [str::strip_prefix], [starts_with] on texts. *)
Fixpoint strip_prefix (p s : text) : option text :=
  match p, s with
  | [], _ => Some s
  | a :: p, b :: s => if decide (a = b) then strip_prefix p s else None
  | _ :: _, [] => None
  end.
Definition starts_with (p s : text) : bool := bool_decide (is_Some (strip_prefix p s)).

Lemma strip_prefix_Some p s r : strip_prefix p s = Some r ↔ s = p ++ r.
Proof.
  revert s; induction p as [|a p IH]; intros [|b s]; simpl; try (split; congruence).
  case_decide; subst; [rewrite IH|]; split; congruence.
Qed.

(** [char::is_whitespace]: the Unicode property White_Space. *)
Definition is_whitespace (c : N) : bool :=
  bool_decide ((9 ≤ c ∧ c ≤ 13) ∨ c = 32 ∨ c = 133 ∨ c = 160 ∨ c = 5760 ∨
    (8192 ≤ c ∧ c ≤ 8202) ∨ c = 8232 ∨ c = 8233 ∨ c = 8239 ∨ c = 8287 ∨ c = 12288)%N.

Fixpoint trim_start (s : text) : text :=
  match s with
  | [] => []
  | c :: r => if is_whitespace c then trim_start r else s
  end.
Definition trim_end (s : text) : text := reverse (trim_start (reverse s)).
Definition trim (s : text) : text := trim_end (trim_start s).

(** UTF-8 and UTF-16 lengths of a scalar value ([char::len_utf8]/[len_utf16]). *)
Definition len_utf8 (c : N) : N :=
  if decide (c < 128)%N then 1 else if decide (c < 2048)%N then 2
  else if decide (c < 65536)%N then 3 else 4.
Definition len_utf16 (c : N) : N := if decide (c < 65536)%N then 1 else 2.

(** [str::len]: the number of UTF-8 bytes. *)
Definition byte_len (s : text) : N := foldr (λ c n, (len_utf8 c + n)%N) 0%N s.

Lemma byte_len_app s1 s2 : byte_len (s1 ++ s2) = (byte_len s1 + byte_len s2)%N.
Proof. induction s1 as [|c s1 IH]; simpl; lia. Qed.
Lemma len_utf8_bounds c : (1 ≤ len_utf8 c ≤ 4)%N.
Proof. unfold len_utf8. repeat case_decide; lia. Qed.
Lemma byte_len_nil t : byte_len t = 0%N ↔ t = [].
Proof. destruct t as [|c t]; [done|]. simpl. pose proof (len_utf8_bounds c). split; [lia|done]. Qed.

(** ** Lists *)

(** Filters with predicates that agree on the list. *)
Lemma filter_ext {A} (P Q : A → Prop) `{!∀ x, Decision (P x), !∀ x, Decision (Q x)} (l : list A) :
  (∀ x, x ∈ l → P x ↔ Q x) → filter P l = filter Q l.
Proof.
  induction l as [|a l IH]; intros HPQ; [done|].
  rewrite !filter_cons, IH by (intros x Hx; apply HPQ, list_elem_of_further, Hx).
  pose proof (HPQ a (list_elem_of_here a l)). repeat case_decide; tauto.
Qed.

(** A filter that keeps everything. *)
Lemma filter_all {A} (P : A → Prop) `{!∀ x, Decision (P x)} (l : list A) : (∀ x, x ∈ l → P x) → filter P l = l.
Proof.
  induction l as [|x l IH]; intros HP; [done|]. rewrite filter_cons, decide_True by (apply HP; left).
  f_equal. apply IH. intros y Hy. apply HP. by right.
Qed.

Lemma head_filter_Some {A} (P : A → Prop) `{!∀ x, Decision (P x)} (l : list A) x :
  head (filter P l) = Some x →
  ∃ l1 l2, l = l1 ++ x :: l2 ∧ P x ∧ ∀ y, y ∈ l1 → ¬ P y.
Proof.
  induction l as [|a l IH]; [done|]. rewrite filter_cons. case_decide as Ha; simpl.
  - intros [= <-]. exists [], l. split; [done|]. split; [done|]. by intros y ?%elem_of_nil.
  - intros (l1 & l2 & -> & Hx & Hl1)%IH. exists (a :: l1), l2.
    split; [done|]. split; [done|]. intros y [->|Hy]%elem_of_cons; [done|by apply Hl1].
Qed.

Lemma head_filter_None {A} (P : A → Prop) `{!∀ x, Decision (P x)} (l : list A) :
  head (filter P l) = None → ∀ y, y ∈ l → ¬ P y.
Proof.
  intros Hnone y Hy HP.
  assert (y ∈ filter P l) as Hin by (by apply list_elem_of_filter).
  destruct (filter P l); [by apply elem_of_nil in Hin|done].
Qed.

Lemma existsb_elem {A} (f : A → bool) (l : list A) : existsb f l = true ↔ ∃ x, x ∈ l ∧ f x = true.
Proof. rewrite existsb_exists. by setoid_rewrite list_elem_of_In. Qed.

(** Saturating sums. *)
Definition sum_N (l : list N) : N := foldr N.add 0%N l.

Lemma foldl_saturating_add m l a :
  (a ≤ m)%N → foldl (saturating_add m) a l = N.min (a + sum_N l) m.
Proof.
  revert a; induction l as [|x l IH]; intros a Ha; simpl; [unfold sum_N; simpl; lia|].
  rewrite IH by word. unfold sum_N; simpl. fold (sum_N l). word.
Qed.

Lemma sum_N_cons x l : sum_N (x :: l) = (x + sum_N l)%N.
Proof. done. Qed.

Lemma sum_N_app l1 l2 : sum_N (l1 ++ l2) = (sum_N l1 + sum_N l2)%N.
Proof. unfold sum_N. induction l1 as [|x l1 IH]; simpl; lia. Qed.

Lemma sum_N_perm l1 l2 : l1 ≡ₚ l2 → sum_N l1 = sum_N l2.
Proof. unfold sum_N. induction 1; simpl; lia. Qed.

Lemma sum_N_filter_mono {A} (P Q : A → Prop) `{!∀ x, Decision (P x), !∀ x, Decision (Q x)}
    (f : A → N) (l : list A) :
  (∀ x, x ∈ l → P x → Q x) → (sum_N (f <$> filter P l) ≤ sum_N (f <$> filter Q l))%N.
Proof.
  unfold sum_N. induction l as [|a l IH]; intros HPQ; [done|]. rewrite !filter_cons.
  specialize (IH (λ x Hx, HPQ x (list_elem_of_further x a l Hx))).
  pose proof (HPQ a (list_elem_of_here a l)). repeat case_decide; csimpl; try lia; tauto.
Qed.

Lemma foldl_fmap_sat {A} m (f : A → N) (l : list A) a :
  (a ≤ m)%N → foldl (λ total x, saturating_add m total (f x)) a l = N.min (a + sum_N (f <$> l)) m.
Proof.
  intros Ha. rewrite <-(foldl_saturating_add m (f <$> l) a Ha).
  clear Ha; revert a; induction l as [|x l IH]; intros a; csimpl; [done|apply IH].
Qed.

(** Index ranges and their filters are strictly increasing. *)
Lemma Sorted_filter_seq (P : nat → Prop) `{!∀ x, Decision (P x)} a n :
  StronglySorted lt (filter P (seq a n)).
Proof.
  revert a; induction n as [|n IH]; intros a; simpl; [constructor|].
  rewrite filter_cons; case_decide; [|apply IH]. constructor; [apply IH|].
  apply Forall_forall. intros x [_ ?%elem_of_seq]%list_elem_of_filter. lia.
Qed.

Lemma Sorted_app_cons_lt l1 x l2 y :
  StronglySorted lt (l1 ++ x :: l2) → y ∈ l2 → (x < y)%nat.
Proof.
  induction l1 as [|a l1 IH]; simpl; inversion_clear 1 as [|?? Hs Hf]; [|by auto].
  rewrite Forall_forall in Hf. by apply Hf.
Qed.

Lemma list_filter_False {A} (l : list A) : filter (λ _, False) l = [].
Proof. by induction l. Qed.

Lemma filter_length_complement {A} (P : A → Prop) `{!∀ x, Decision (P x)} (l : list A) :
  length (filter P l) + length (filter (λ x, ¬ P x) l) = length l.
Proof.
  induction l as [|a l IH]; [done|]. rewrite !filter_cons.
  destruct (decide (P a)); [rewrite (decide_False (P:=¬ P a)) by tauto|
    rewrite (decide_True (P:=¬ P a)) by done]; simpl; lia.
Qed.

Lemma filter_eq_seq o a n : (a ≤ o < a + n)%nat → filter (λ i, i = o) (seq a n) = [o].
Proof.
  revert a; induction n as [|n IH]; intros a Ho; [lia|]. simpl. rewrite filter_cons.
  case_decide as Heq; [subst|apply IH; lia]. f_equal.
  rewrite (filter_ext _ (λ _, False)); [apply list_filter_False|].
  intros i ?%elem_of_seq. split; [lia|done].
Qed.

(** [sort_by_key] on a numeric key: a stable sort. *)
Section sort_by_key.
Context {A : Type} (key : A → N).

Fixpoint insert_by_key (e : A) (l : list A) : list A :=
  match l with
  | [] => [e]
  | d :: l => if decide (key e ≤ key d)%N then e :: d :: l else d :: insert_by_key e l
  end.
Definition sort_by_key (l : list A) : list A := foldr insert_by_key [] l.
Definition key_le (d e : A) : Prop := (key d ≤ key e)%N.

Lemma insert_by_key_perm e l : insert_by_key e l ≡ₚ e :: l.
Proof.
  induction l as [|d l IH]; simpl; [done|]. case_decide; [done|]. rewrite IH. apply Permutation_swap.
Qed.
Lemma sort_by_key_perm l : sort_by_key l ≡ₚ l.
Proof. induction l as [|e l IH]; simpl; [done|]. by rewrite insert_by_key_perm, IH. Qed.
Lemma sort_by_key_length l : length (sort_by_key l) = length l.
Proof. apply Permutation_length, sort_by_key_perm. Qed.
Lemma sort_by_key_nil l : sort_by_key l = [] ↔ l = [].
Proof. rewrite <-!length_zero_iff_nil, sort_by_key_length. done. Qed.

Lemma sort_by_key_sorted l : StronglySorted key_le (sort_by_key l).
Proof.
  induction l as [|e l IH]; simpl; [constructor|].
  induction IH as [|d l' Hs IH Hd]; simpl; [repeat constructor|]. case_decide as Hle.
  - constructor; [by constructor|]. constructor; [done|]. eapply Forall_impl; [exact Hd|].
    unfold key_le. intros; lia.
  - constructor; [done|]. rewrite insert_by_key_perm. constructor; [unfold key_le; lia|done].
Qed.
End sort_by_key.
