(* ===== verification/Utf8.v ===== *)
(** * UTF-8

    The standard library's conversions between strings and bytes:
    [char::encode_utf8], [String::into_bytes] and the strict
    [String::from_utf8], with their round trips. *)
From S2P Require Import Prelude.
Local Open Scope N_scope.

(** A Unicode scalar value: no surrogate. *)
Definition is_scalar (c : N) : Prop := c < 55296 ∨ (57343 < c ∧ c < 1114112).
#[export] Instance is_scalar_dec c : Decision (is_scalar c).
Proof. unfold is_scalar; apply _. Defined.

Definition encode_utf8 (c : N) : list N :=
  if decide (c < 128) then [c]
  else if decide (c < 2048) then [192 + c `div` 64; 128 + c `mod` 64]
  else if decide (c < 65536)
  then [224 + c `div` 4096; 128 + (c `div` 64) `mod` 64; 128 + c `mod` 64]
  else [240 + c `div` 262144; 128 + (c `div` 4096) `mod` 64; 128 + (c `div` 64) `mod` 64;
        128 + c `mod` 64].
Definition into_bytes (t : text) : list N := t ≫= encode_utf8.

Definition continuation (b : N) : bool := bool_decide (128 ≤ b ∧ b < 192).

(** [String::from_utf8]: no overlong forms, no surrogates, nothing above the
    last scalar value, no truncated sequence. *)
Fixpoint from_utf8 (bytes : list N) : option text :=
  match bytes with
  | [] => Some []
  | b :: r =>
      if decide (b < 128) then cons b <$> from_utf8 r
      else if decide (194 ≤ b ∧ b < 224) then
        match r with
        | b1 :: r =>
            if continuation b1 then cons ((b - 192) * 64 + (b1 - 128)) <$> from_utf8 r else None
        | _ => None
        end
      else if decide (224 ≤ b ∧ b < 240) then
        match r with
        | b1 :: b2 :: r =>
            let c := (b - 224) * 4096 + (b1 - 128) * 64 + (b2 - 128) in
            if continuation b1 && continuation b2 && bool_decide (2048 ≤ c) && bool_decide (is_scalar c)
            then cons c <$> from_utf8 r else None
        | _ => None
        end
      else if decide (240 ≤ b ∧ b < 245) then
        match r with
        | b1 :: b2 :: b3 :: r =>
            let c := (b - 240) * 262144 + (b1 - 128) * 4096 + (b2 - 128) * 64 + (b3 - 128) in
            if continuation b1 && continuation b2 && continuation b3 &&
               bool_decide (65536 ≤ c) && bool_decide (is_scalar c)
            then cons c <$> from_utf8 r else None
        | _ => None
        end
      else None
  end.

Lemma continuation_mod a : continuation (128 + a `mod` 64) = true.
Proof. apply bool_decide_eq_true. lia. Qed.

Lemma into_bytes_cons c t : into_bytes (c :: t) = encode_utf8 c ++ into_bytes t.
Proof. done. Qed.

(** Encoding is undone by decoding. *)
Lemma from_utf8_into_bytes t : Forall is_scalar t → from_utf8 (into_bytes t) = Some t.
Proof.
  induction 1 as [|c t Hc _ IH]; [done|]. rewrite into_bytes_cons. unfold encode_utf8.
  destruct (decide (c < 128)) as [H1|H1]; [simpl; by rewrite decide_True, IH by done|].
  destruct (decide (c < 2048)) as [H2|H2]; [|destruct (decide (c < 65536)) as [H3|H3]];
    cbn [app from_utf8].
  - rewrite decide_False, decide_True, continuation_mod, IH by lia. simpl. do 2 f_equal. lia.
  - rewrite !decide_False, decide_True, !continuation_mod by lia.
    replace ((224 + c `div` 4096 - 224) * 4096 + (128 + (c `div` 64) `mod` 64 - 128) * 64 +
      (128 + c `mod` 64 - 128)) with c by lia.
    rewrite (bool_decide_true (2048 ≤ c)), (bool_decide_true (is_scalar c)) by (lia || done).
    by rewrite IH.
  - assert (c < 1114112) by (destruct Hc; lia).
    rewrite !decide_False, decide_True, !continuation_mod by lia.
    replace ((240 + c `div` 262144 - 240) * 262144 + (128 + (c `div` 4096) `mod` 64 - 128) * 4096 +
      (128 + (c `div` 64) `mod` 64 - 128) * 64 + (128 + c `mod` 64 - 128)) with c by lia.
    rewrite (bool_decide_true (65536 ≤ c)), (bool_decide_true (is_scalar c)) by (lia || done).
    by rewrite IH.
Qed.

Lemma continuation_bounds b : continuation b = true → 128 ≤ b < 192.
Proof. intros ?%bool_decide_eq_true. lia. Qed.

(** Decoding is undone by encoding: there is one encoding of each text. *)
Lemma into_bytes_from_utf8 n : ∀ bytes t,
  (length bytes ≤ n)%nat → from_utf8 bytes = Some t → into_bytes t = bytes ∧ Forall is_scalar t.
Proof.
  induction n as [|n IH]; intros bytes t Hlen Ht; destruct bytes as [|b r]; simpl in Hlen; try lia;
    cbn [from_utf8] in Ht; [by simplify_eq..|].
  repeat case_decide.
  - destruct (from_utf8 r) as [t'|] eqn:Hr; [|done]. injection Ht as <-.
    destruct (IH r t' ltac:(lia) Hr) as [<- ?]. rewrite into_bytes_cons. unfold encode_utf8.
    rewrite decide_True by done. split; [done|]. constructor; [left; lia|done].
  - destruct r as [|b1 r]; [done|]. destruct (continuation b1) eqn:Hk1; [|done].
    apply continuation_bounds in Hk1. destruct (from_utf8 r) as [t'|] eqn:Hr; [|done]. simpl in *. injection Ht as <-.
    destruct (IH r t' ltac:(lia) Hr) as [<- ?]. rewrite into_bytes_cons. unfold encode_utf8.
    rewrite decide_False, decide_True by lia. simpl. split; [|constructor; [left; lia|done]].
    f_equal; [|f_equal]; lia.
  - destruct r as [|b1 [|b2 r]]; [done..|]. cbv zeta in Ht. destruct (_ && _) eqn:Hb; [|done].
    rewrite !andb_true_iff, !bool_decide_eq_true in Hb. destruct Hb as [[[Hk1 Hk2] Hlo] Hsc].
    apply continuation_bounds in Hk1, Hk2. destruct (from_utf8 r) as [t'|] eqn:Hr; [|done]. simpl in *. injection Ht as <-.
    destruct (IH r t' ltac:(lia) Hr) as [<- ?]. rewrite into_bytes_cons. unfold encode_utf8.
    rewrite !decide_False, decide_True by lia. simpl. split; [|by constructor].
    f_equal; [lia|f_equal; [lia|f_equal; lia]].
  - destruct r as [|b1 [|b2 [|b3 r]]]; [done..|]. cbv zeta in Ht. destruct (_ && _) eqn:Hb; [|done].
    rewrite !andb_true_iff, !bool_decide_eq_true in Hb. destruct Hb as [[[[Hk1 Hk2] Hk3] Hlo] Hsc].
    apply continuation_bounds in Hk1, Hk2, Hk3. destruct (from_utf8 r) as [t'|] eqn:Hr; [|done]. simpl in *. injection Ht as <-.
    destruct (IH r t' ltac:(lia) Hr) as [<- ?]. rewrite into_bytes_cons. unfold encode_utf8.
    rewrite !decide_False by lia. simpl. split; [|by constructor].
    f_equal; [lia|f_equal; [lia|f_equal; [lia|f_equal; lia]]].
  - done.
Qed.

Lemma into_bytes_app s t : into_bytes (s ++ t) = into_bytes s ++ into_bytes t.
Proof. apply bind_app. Qed.

Lemma encode_utf8_length c : N.of_nat (length (encode_utf8 c)) = len_utf8 c.
Proof. unfold encode_utf8, len_utf8; by repeat case_decide. Qed.

Lemma into_bytes_length t : N.of_nat (length (into_bytes t)) = byte_len t.
Proof.
  induction t as [|c t IH]; [done|]. rewrite into_bytes_cons, length_app, Nat2N.inj_add.
  by rewrite encode_utf8_length, IH.
Qed.
