(* ===== verification/Ordered.v ===== *)
(** * Derived orders and ordered iteration

    [#[derive(PartialOrd, Ord)]] compares the fields one after the other, and
    tuples and sequences are compared the same way. Rust compares strings by
    their bytes, as [String.compare] does, which on a text is the order of its
    scalar values. [sort_on] is the stable [sort_by] of a slice; iterating a
    [BTreeSet] visits its elements in order. *)
From S2P Require Import Prelude.

Class Ordered (A : Type) := cmp : A → A → comparison.
Class OrderedLaws (A : Type) `{Ordered A} := {
  cmp_eq (x y : A) : cmp x y = Eq ↔ x = y;
  cmp_antisym (x y : A) : cmp x y = CompOpp (cmp y x);
  cmp_trans (x y z : A) : cmp x y = Lt → cmp y z = Lt → cmp x z = Lt;
}.

(** ** Instances *)
#[export] Instance ordered_N : Ordered N := N.compare.
#[export] Instance ordered_string : Ordered string := String.compare.
#[export] Instance ordered_prod `{Ordered A, Ordered B} : Ordered (A * B) := λ x y,
  match cmp (fst x) (fst y) with Eq => cmp (snd x) (snd y) | c => c end.
Fixpoint compare_list `{Ordered A} (k1 k2 : list A) : comparison :=
  match k1, k2 with
  | [], [] => Eq
  | [], _ => Lt
  | _, [] => Gt
  | a :: k1, b :: k2 => match cmp a b with Eq => compare_list k1 k2 | c => c end
  end.
#[export] Instance ordered_list `{Ordered A} : Ordered (list A) := compare_list.

#[export] Instance laws_N : OrderedLaws N.
Proof.
  unfold cmp, ordered_N. split; intros *; unfold cmp.
  - apply N.compare_eq_iff.
  - apply N.compare_antisym.
  - rewrite !N.compare_lt_iff. lia.
Qed.
Lemma string_compare_refl s : String.compare s s = Eq.
Proof. pose proof (String.compare_antisym s s) as H. by destruct (String.compare s s). Qed.
#[export] Instance laws_string : OrderedLaws string.
Proof.
  split; unfold cmp, ordered_string; intros *.
  - split; [apply String.compare_eq_iff|intros ->; apply string_compare_refl].
  - apply String.compare_antisym.
  - intros H12 H23. assert (String.le x z) as Hle.
    { trans y; unfold String.le, String.leb; [by rewrite H12|by rewrite H23]. }
    unfold String.le, String.leb in Hle. destruct (String.compare x z) eqn:H13; [|done..].
    apply String.compare_eq_iff in H13 as ->. rewrite String.compare_antisym, H23 in H12. done.
Qed.

Lemma cmp_refl `{OrderedLaws A} (x : A) : cmp x x = Eq.
Proof. by apply cmp_eq. Qed.

#[export] Instance laws_prod `{OrderedLaws A, OrderedLaws B} : OrderedLaws (A * B).
Proof.
  split; unfold cmp, ordered_prod.
  - intros [a b] [c d]; cbn [fst snd]. destruct (cmp a c) eqn:Hac.
    + apply cmp_eq in Hac as ->. rewrite cmp_eq. split; congruence.
    + split; [done|]. intros [= -> ->]. by rewrite cmp_refl in Hac.
    + split; [done|]. intros [= -> ->]. by rewrite cmp_refl in Hac.
  - intros [a b] [c d]; cbn [fst snd]. rewrite (cmp_antisym a c). destruct (cmp c a); simpl; [apply cmp_antisym|done..].
  - intros [a b] [c d] [e f]; cbn [fst snd]. destruct (cmp a c) eqn:Hac; [apply cmp_eq in Hac as ->| |done].
    + destruct (cmp c e); [apply cmp_trans|done..].
    + intros _. destruct (cmp c e) eqn:Hce; [apply cmp_eq in Hce as ->; by rewrite Hac| |done].
      by rewrite (cmp_trans _ _ _ Hac Hce).
Qed.
#[export] Instance laws_list `{OrderedLaws A} : OrderedLaws (list A).
Proof.
  split; unfold cmp, ordered_list.
  - intros k1. induction k1 as [|a k1 IH]; intros [|b k2]; cbn [compare_list]; try done.
    destruct (cmp a b) eqn:Hab.
    + apply cmp_eq in Hab as ->. rewrite IH. split; congruence.
    + split; [done|]. intros [= -> ->]. by rewrite cmp_refl in Hab.
    + split; [done|]. intros [= -> ->]. by rewrite cmp_refl in Hab.
  - intros k1. induction k1 as [|a k1 IH]; intros [|b k2]; cbn [compare_list]; [done..|].
    rewrite (cmp_antisym a b). destruct (cmp b a); simpl; [apply IH|done..].
  - intros k1. induction k1 as [|a k1 IH]; intros [|b k2] [|c k3]; cbn [compare_list]; try done.
    destruct (cmp a b) eqn:Hab; [apply cmp_eq in Hab as ->| |done].
    + destruct (cmp b c); [apply IH|done..].
    + intros _. destruct (cmp b c) eqn:Hbc; [apply cmp_eq in Hbc as ->; by rewrite Hab| |done].
      by rewrite (cmp_trans _ _ _ Hab Hbc).
Qed.

(** ** Sorting on a key *)
Definition key_lt `{Ordered K} {A} (key : A → K) (x y : A) : Prop := cmp (key x) (key y) = Lt.
Definition key_leq `{Ordered K} {A} (key : A → K) (x y : A) : Prop := cmp (key x) (key y) ≠ Gt.
#[export] Instance key_lt_dec `{Ordered K} {A} (key : A → K) : RelDecision (key_lt key).
Proof. intros x y. unfold key_lt. solve_decision. Defined.
#[export] Instance key_leq_dec `{Ordered K} {A} (key : A → K) : RelDecision (key_leq key).
Proof. intros x y. unfold key_leq. solve_decision. Defined.

Fixpoint insert_on `{Ordered K} {A} (key : A → K) (e : A) (l : list A) : list A :=
  match l with
  | [] => [e]
  | d :: l => if decide (key_leq key e d) then e :: d :: l else d :: insert_on key e l
  end.
Definition sort_on `{Ordered K} {A} (key : A → K) (l : list A) : list A := foldr (insert_on key) [] l.

(** The elements of a [BTreeSet] in order, and those behind a bound
    ([range((Excluded(after), Unbounded))]). *)
Definition ordered_elements `{Ordered K, Countable A} (key : A → K) (s : gset A) : list A :=
  sort_on key (elements s).
Definition behind `{Ordered K} {A} (key : A → K) (after : option A) (x : A) : bool :=
  match after with Some a => bool_decide (key_lt key a x) | None => true end.
Definition range_after `{Ordered K} {A} (key : A → K) (after : option A) (l : list A) : list A :=
  filter (λ x, behind key after x = true) l.

Section sort.
Context {K A : Type} `{OrderedLaws K} (key : A → K).

Lemma insert_on_perm e l : insert_on key e l ≡ₚ e :: l.
Proof.
  induction l as [|d l IH]; simpl; [done|]. case_decide; [done|]. rewrite IH. apply Permutation_swap.
Qed.
Lemma sort_on_perm l : sort_on key l ≡ₚ l.
Proof. induction l as [|e l IH]; simpl; [done|]. by rewrite insert_on_perm, IH. Qed.

Lemma key_lt_irrefl x : ¬ key_lt key x x.
Proof. unfold key_lt. by rewrite cmp_refl. Qed.
Lemma key_lt_trans x y z : key_lt key x y → key_lt key y z → key_lt key x z.
Proof. apply cmp_trans. Qed.
Lemma key_leq_spec x y : key_leq key x y ↔ key_lt key x y ∨ key x = key y.
Proof.
  unfold key_leq, key_lt. rewrite <-cmp_eq. destruct (cmp (key x) (key y)); naive_solver.
Qed.
Lemma key_leq_total x y : ¬ key_leq key x y → key_leq key y x.
Proof. unfold key_leq. rewrite (cmp_antisym (key x)). destruct (cmp (key y) (key x)); simpl; naive_solver. Qed.
Lemma key_leq_trans x y z : key_leq key x y → key_leq key y z → key_leq key x z.
Proof.
  rewrite !key_leq_spec. unfold key_lt. intros [Hxy|Hxy] [Hyz|Hyz].
  - left. by eapply cmp_trans.
  - left. by rewrite <-Hyz.
  - left. by rewrite Hxy.
  - right. congruence.
Qed.

Lemma sort_on_sorted l : StronglySorted (key_leq key) (sort_on key l).
Proof.
  induction l as [|e l IH]; simpl; [constructor|].
  induction IH as [|d l' Hs IH Hd]; simpl; [repeat constructor|]. case_decide as Hle.
  - constructor; [by constructor|]. constructor; [done|]. eapply Forall_impl; [exact Hd|].
    intros x Hx. by eapply key_leq_trans.
  - constructor; [done|]. rewrite insert_on_perm. constructor; [by apply key_leq_total|done].
Qed.

(** With different keys the order is strict. *)
Lemma sort_on_strict l : NoDup (key <$> l) → StronglySorted (key_lt key) (sort_on key l).
Proof.
  intros Hnd. assert (NoDup (key <$> sort_on key l)) as Hnd' by (by rewrite (sort_on_perm l)).
  induction (sort_on_sorted l) as [|x k Hs IH Hx]; [constructor|]. cbn in Hnd'. apply NoDup_cons in Hnd' as [Hn Hnd'].
  constructor; [by apply IH|]. rewrite Forall_forall in Hx |- *. intros y Hy.
  destruct (proj1 (key_leq_spec x y) (Hx y Hy)) as [?|Heq]; [done|]. destruct Hn. rewrite Heq. by apply list_elem_of_fmap_2.
Qed.

(** Elements with different keys are sorted in one way only. *)
Lemma sort_on_unique l l' : NoDup (key <$> l) → l ≡ₚ l' → sort_on key l = sort_on key l'.
Proof.
  intros Hnd Hperm. pose proof (sort_on_sorted l) as Hs. pose proof (sort_on_sorted l') as Hs'.
  assert (sort_on key l ≡ₚ sort_on key l') as Hp by (by rewrite !sort_on_perm).
  assert (NoDup (key <$> sort_on key l)) as Hnd' by (by rewrite (sort_on_perm l)).
  revert Hs Hs' Hp Hnd'. generalize (sort_on key l) as k, (sort_on key l') as k'. clear - H H0.
  induction k as [|x k IH]; intros k' Hs Hs' Hp Hnd; [by apply Permutation_nil_l in Hp|].
  destruct k' as [|y k']; [by apply Permutation_nil_r in Hp|].
  inversion Hs as [|? ? Hk Hx]; inversion Hs' as [|? ? Hk' Hy]; subst. rewrite Forall_forall in Hx, Hy.
  assert (x = y) as ->; [|f_equal; apply IH; [done|done|by apply Permutation_cons_inv in Hp|by inversion Hnd]].
  assert (x ∈ y :: k') as [->|Hin]%elem_of_cons by (rewrite <-Hp; left); [done|].
  assert (y ∈ x :: k) as [->|Hin']%elem_of_cons by (rewrite Hp; left); [done|].
  pose proof (proj1 (key_leq_spec _ _) (Hx _ Hin')) as Hxy. pose proof (proj1 (key_leq_spec _ _) (Hy _ Hin)) as Hyx.
  exfalso. cbn in Hnd. apply NoDup_cons in Hnd as [Hnotin _]. apply Hnotin.
  assert (key x = key y) as ->; [|by apply list_elem_of_fmap_2].
  destruct Hxy as [Hxy|]; [|done]. destruct Hyx as [Hyx|]; [|done].
  exfalso. apply (key_lt_irrefl x). by apply (key_lt_trans x y x).
Qed.

(** What is behind an element of an ordered list is its tail. *)
Lemma range_after_cut l1 x l2 :
  StronglySorted (key_lt key) (l1 ++ x :: l2) → range_after key (Some x) (l1 ++ x :: l2) = l2.
Proof.
  intros Hs. unfold range_after. rewrite filter_app, filter_cons.
  rewrite (decide_False (P:=behind key (Some x) x = true)).
  2: { cbn [behind]. rewrite bool_decide_eq_true. apply key_lt_irrefl. }
  assert (∀ l : list A, (∀ y, y ∈ l → key_lt key x y) → filter (λ y, behind key (Some x) y = true) l = l) as Hall.
  { intros l Hl. induction l as [|y l IHl]; [done|]. rewrite filter_cons, decide_True.
    - f_equal. apply IHl. intros z Hz. by apply Hl, list_elem_of_further.
    - cbn [behind]. apply bool_decide_eq_true, Hl, list_elem_of_here. }
  induction l1 as [|y l1 IH]; cbn [app] in Hs.
  - rewrite (Hall l2); [done|]. inversion_clear Hs as [|?? _ Hf]. by rewrite Forall_forall in Hf.
  - inversion_clear Hs as [|?? Hs' Hf]. rewrite filter_cons, decide_False; [by apply IH|].
    cbn [behind]. rewrite bool_decide_eq_true. intros Hxy. rewrite Forall_forall in Hf.
    assert (key_lt key y x) as Hyx by (apply Hf, elem_of_app; right; left).
    apply (key_lt_irrefl x). by eapply key_lt_trans.
Qed.
Context `{!Inj (=) (=) key, !EqDecision A, !Countable A}.

Lemma elem_ordered_elements (s : gset A) x : x ∈ ordered_elements key s ↔ x ∈ s.
Proof using Type. unfold ordered_elements. by rewrite sort_on_perm, elem_of_elements. Qed.

Lemma ordered_elements_sorted (s : gset A) : StronglySorted (key_lt key) (ordered_elements key s).
Proof using All.
  unfold ordered_elements. pose proof (sort_on_sorted (elements s)) as Hs.
  assert (NoDup (sort_on key (elements s))) as Hd by (rewrite sort_on_perm; apply NoDup_elements).
  induction Hs as [|x l Hs IH Hx]; [constructor|]. apply NoDup_cons in Hd as [Hn Hd].
  constructor; [by apply IH|]. rewrite Forall_forall in Hx |- *. intros y Hy.
  destruct (proj1 (key_leq_spec x y) (Hx y Hy)) as [?|Heq]; [done|]. apply (inj key) in Heq as ->. done.
Qed.

End sort.
