(* ===== verification/Decimal.v ===== *)
(** * Decimal numerals

    [Display] and [str::parse] of unsigned integers: printing, the value of a
    text of digits, and their round trips on canonical numerals. *)
From S2P Require Import Prelude.
Local Open Scope N_scope.

Definition is_digit (c : N) : bool := bool_decide (48 ≤ c ∧ c ≤ 57).
(** [str::parse::<u64>] on ASCII digits; the number is refused when it does not fit. *)
Definition decimal_value (s : text) : N := foldl (λ n c, 10 * n + (c - 48)) 0 s.
Definition parse_u64 (s : text) : option N :=
  if decide (decimal_value s ≤ U64_MAX) then Some (decimal_value s) else None.

(** [Display] of an integer. *)
Fixpoint digits_rev (fuel : nat) (n : N) : text :=
  match fuel with
  | O => []
  | S fuel => (48 + n `mod` 10) :: (if decide (n < 10) then [] else digits_rev fuel (n `div` 10))
  end.
Definition display_u64 (n : N) : text := reverse (digits_rev 20 n).

Definition leading_zero (s : text) : bool :=
  bool_decide (1 < length s)%nat && bool_decide (head s = Some 48).

(** ** Decimal round trips *)
Lemma decimal_value_snoc s c : decimal_value (s ++ [c]) = 10 * decimal_value s + (c - 48).
Proof. unfold decimal_value. by rewrite foldl_app. Qed.

Lemma digits_rev_spec fuel n :
  n < 10 ^ N.of_nat fuel → (0 < fuel)%nat →
  decimal_value (reverse (digits_rev fuel n)) = n ∧
  Forall (λ c, is_digit c = true) (digits_rev fuel n) ∧ digits_rev fuel n ≠ [] ∧
  (last (digits_rev fuel n) = Some 48 → digits_rev fuel n = [48]).
Proof.
  revert n; induction fuel as [|fuel IH]; intros n Hn Hf; [lia|].
  cbn [digits_rev]. rewrite reverse_cons, decimal_value_snoc.
  assert (is_digit (48 + n `mod` 10) = true) as Hd by (apply bool_decide_eq_true; lia).
  case_decide as Hlt.
  - unfold decimal_value. simpl. split; [lia|]. split; [by repeat constructor|]. split; [done|].
    intros [= Hz]. f_equal. lia.
  - rewrite Nat2N.inj_succ, N.pow_succ_r' in Hn.
    destruct fuel as [|fuel]; [simpl in Hn; lia|].
    destruct (IH (n `div` 10)) as (Hv & Hds & Hne & Hlast); [lia|lia|].
    rewrite Hv. split; [lia|]. split; [by constructor|]. split; [done|].
    destruct (digits_rev (S fuel) (n `div` 10)) as [|d ds] eqn:Hds'; [done|].
    intros Hl. assert (d :: ds = [48]) as Heq by (by apply Hlast).
    rewrite Heq in Hv. unfold decimal_value in Hv. simpl in Hv. lia.
Qed.

Lemma display_u64_spec n :
  n ≤ U64_MAX →
  decimal_value (display_u64 n) = n ∧ Forall (λ c, is_digit c = true) (display_u64 n) ∧
  display_u64 n ≠ [] ∧ leading_zero (display_u64 n) = false.
Proof.
  intros Hn. destruct (digits_rev_spec 20 n) as (Hv & Hd & Hne & Hlast); [|lia|].
  { change (10 ^ N.of_nat 20) with 100000000000000000000. unfold U64_MAX in Hn. lia. }
  unfold display_u64. split; [done|]. split; [by apply Forall_reverse|].
  split; [intros Hr; apply Hne; by rewrite <-(reverse_involutive (digits_rev 20 n)), Hr|]. unfold leading_zero.
  apply andb_false_iff. rewrite !bool_decide_eq_false, length_reverse, head_reverse.
  destruct (decide (last (digits_rev 20 n) = Some 48)) as [Hz|]; [left|by right].
  rewrite (Hlast Hz). simpl. lia.
Qed.

(** A canonical numeral: digits without a leading zero. *)
Definition numeral (s : text) : Prop :=
  Forall (λ c, is_digit c = true) s ∧ s ≠ [] ∧ leading_zero s = false.

Lemma numeral_snoc s c : numeral (s ++ [c]) → s = [] ∨ (numeral s ∧ head s ≠ Some 48).
Proof.
  intros (Hd & _ & Hz). destruct s as [|a s]; [by left|right].
  apply Forall_app in Hd as [Hd _]. unfold leading_zero in Hz.
  rewrite bool_decide_true in Hz by (rewrite length_app; simpl; lia). simpl in Hz.
  apply bool_decide_eq_false in Hz. split; [|done]. split; [done|]. split; [done|].
  unfold leading_zero. apply andb_false_iff. right. by apply bool_decide_eq_false.
Qed.

Lemma digit_bounds c : is_digit c = true → 48 ≤ c ≤ 57.
Proof. intros ?%bool_decide_eq_true. lia. Qed.

Lemma numeral_value s :
  numeral s → (head s ≠ Some 48 → 10 ^ N.of_nat (pred (length s)) ≤ decimal_value s) ∧
  ∀ fuel, (length s ≤ fuel)%nat → digits_rev fuel (decimal_value s) = reverse s.
Proof.
  induction s as [|c s IH] using rev_ind; intros Hn; [by destruct Hn as (_ & [] & _)|].
  assert (48 ≤ c ≤ 57) as Hc.
  { destruct Hn as (Hd & _). apply Forall_app in Hd as [_ Hd]. inversion_clear Hd. by apply digit_bounds. }
  rewrite decimal_value_snoc, reverse_app, length_app. simpl.
  destruct (numeral_snoc _ _ Hn) as [->|[Hs Hhead]].
  - unfold decimal_value. simpl. split; [intros Hne|].
    + assert (c ≠ 48) by congruence. lia.
    + intros [|fuel] Hf; [lia|]. cbn [digits_rev]. rewrite decide_True by lia. f_equal. lia.
  - destruct (IH Hs) as [Hlow Hrev]. specialize (Hlow Hhead).
    assert (1 ≤ decimal_value s) as Hpos.
    { etrans; [|exact Hlow]. pose proof (N.pow_nonzero 10 (N.of_nat (pred (length s)))). lia. }
    replace (pred (length s + 1)) with (S (pred (length s))) by (destruct Hs as (_ & ? & _); destruct s; simpl; [done|lia]).
    split; [intros _; rewrite Nat2N.inj_succ, N.pow_succ_r'; lia|].
    intros [|fuel] Hf; [lia|]. cbn [digits_rev]. rewrite decide_False by lia.
    replace ((10 * decimal_value s + (c - 48)) `div` 10) with (decimal_value s) by lia.
    rewrite Hrev by lia. replace (48 + (10 * decimal_value s + (c - 48)) `mod` 10) with c by lia. done.
Qed.

Lemma display_decimal_value s : numeral s → decimal_value s ≤ U64_MAX → display_u64 (decimal_value s) = s.
Proof.
  intros Hn Hmax. destruct (numeral_value s Hn) as [Hlow Hrev]. unfold display_u64.
  rewrite Hrev; [apply reverse_involutive|].
  destruct (decide (length s ≤ 20)%nat) as [|Hlong]; [done|]. exfalso.
  assert (head s ≠ Some 48) as Hhead.
  { destruct Hn as (_ & _ & Hz). unfold leading_zero in Hz.
    rewrite bool_decide_true in Hz by lia. by apply bool_decide_eq_false in Hz. }
  specialize (Hlow Hhead).
  assert (10 ^ 20 ≤ 10 ^ N.of_nat (pred (length s))) by (apply N.pow_le_mono_r; lia).
  change (10 ^ 20) with 100000000000000000000 in *. unfold U64_MAX in Hmax. lia.
Qed.
