(* ===== verification/TextSplit.v ===== *)
(** * Splitting texts

    [str::split_once], [str::split] on a character and
    [str::split_whitespace], with the texts they put together again. *)
From S2P Require Import Prelude.
Local Open Scope N_scope.

(** [str::split_once(sep)]. *)
Fixpoint split_once (sep : N) (s : text) : option (text * text) :=
  match s with
  | [] => None
  | c :: s => if decide (c = sep) then Some ([], s)
              else '(a, b) ← split_once sep s; Some (c :: a, b)
  end.

(** [str::split(sep)]: the pieces between the separators, one more than there
    are separators. *)
Fixpoint split_on (sep : N) (s : text) : list text :=
  match s with
  | [] => [[]]
  | c :: s =>
      if decide (c = sep) then [] :: split_on sep s
      else match split_on sep s with [] => [[c]] | p :: ps => (c :: p) :: ps end
  end.

(** [str::split_whitespace]: the maximal runs without whitespace. *)
Fixpoint words_from (word : text) (s : text) : list text :=
  match s with
  | [] => if decide (word = []) then [] else [reverse word]
  | c :: s =>
      if is_whitespace c then
        if decide (word = []) then words_from [] s else reverse word :: words_from [] s
      else words_from (c :: word) s
  end.
Definition split_whitespace (s : text) : list text := words_from [] s.

(** [str::ends_with] and [str::to_ascii_lowercase]. *)
Definition ends_with (suffix s : text) : bool := starts_with (reverse suffix) (reverse s).
Definition to_ascii_lowercase (s : text) : text :=
  (λ c, if decide (65 ≤ c ∧ c ≤ 90) then c + 32 else c) <$> s.

Fixpoint join_with (sep : N) (l : list text) : text :=
  match l with
  | [] => []
  | [p] => p
  | p :: l => p ++ sep :: join_with sep l
  end.

Lemma split_once_app sep a b : sep ∉ a → split_once sep (a ++ sep :: b) = Some (a, b).
Proof.
  induction a as [|c a IH]; intros Ha; simpl; [by rewrite decide_True|].
  apply not_elem_of_cons in Ha as [? ?]. by rewrite decide_False, IH by done.
Qed.
Lemma split_once_Some sep s a b : split_once sep s = Some (a, b) → s = a ++ sep :: b ∧ sep ∉ a.
Proof.
  revert a; induction s as [|c s IH]; intros a; simpl; [done|]. case_decide as Hc.
  - intros [= <- <-]. subst. split; [done|]. apply not_elem_of_nil.
  - destruct (split_once sep s) as [[a' b']|]; [|done]. intros [= <- <-].
    destruct (IH a' eq_refl) as [-> ?]. split; [done|]. by apply not_elem_of_cons.
Qed.

Lemma split_once_None sep s : split_once sep s = None ↔ sep ∉ s.
Proof.
  induction s as [|c s IH]; simpl; [split; [intros _; apply not_elem_of_nil|done]|].
  rewrite not_elem_of_cons. case_decide as Hc; [naive_solver|].
  destruct (split_once sep s) as [[a b]|]; simpl; naive_solver.
Qed.

Lemma split_on_single sep p : sep ∉ p → split_on sep p = [p].
Proof.
  induction p as [|c p IH]; simpl; [done|]. intros [Hc Hp]%not_elem_of_cons.
  rewrite decide_False by done. by rewrite IH.
Qed.
Lemma split_on_app sep p s : sep ∉ p → split_on sep (p ++ sep :: s) = p :: split_on sep s.
Proof.
  induction p as [|c p IH]; simpl; [by rewrite decide_True|]. intros [Hc Hp]%not_elem_of_cons.
  rewrite decide_False by done. by rewrite IH.
Qed.
Lemma split_on_join sep l :
  l ≠ [] → Forall (λ p, sep ∉ p) l → split_on sep (join_with sep l) = l.
Proof.
  intros Hne Hl. induction Hl as [|p l Hp Hl IH]; [done|]. destruct l as [|q l]; simpl; [by apply split_on_single|].
  rewrite split_on_app by done. f_equal. by apply IH.
Qed.
Lemma split_on_pieces sep s : Forall (λ p, sep ∉ p) (split_on sep s) ∧ join_with sep (split_on sep s) = s.
Proof.
  induction s as [|c s [IHp IHj]]; simpl; [split; [repeat constructor; apply not_elem_of_nil|done]|].
  case_decide as Hc.
  - subst. split; [constructor; [apply not_elem_of_nil|done]|].
    destruct (split_on sep s) as [|p ps] eqn:Hs; [|simpl in *; by rewrite IHj].
    destruct s as [|d s]; simpl in Hs; [done|]. repeat case_match; done.
  - destruct (split_on sep s) as [|p ps].
    + split; [repeat constructor|by rewrite <-IHj]. intros [->|?%elem_of_nil]%elem_of_cons; done.
    + apply Forall_cons in IHp as [Hp Hps]. split; [constructor; [|done]; by apply not_elem_of_cons|].
      rewrite <-IHj. by destruct ps.
Qed.

(** Words without whitespace joined by blanks are split again. *)
Lemma words_from_word w p s :
  Forall (λ c, is_whitespace c = false) p → words_from w (p ++ s) = words_from (reverse p ++ w) s.
Proof.
  revert w; induction p as [|c p IH]; intros w Hp; [done|]. apply Forall_cons in Hp as [Hc Hp]. simpl.
  rewrite Hc, IH by done. by rewrite reverse_cons, <-(assoc_L (++)).
Qed.
Lemma split_whitespace_join l :
  Forall (λ p, p ≠ [] ∧ Forall (λ c, is_whitespace c = false) p) l →
  split_whitespace (join_with 32 l) = l.
Proof.
  unfold split_whitespace. induction 1 as [|p l [Hne Hp] Hl IH]; [done|].
  assert (reverse p ++ [] ≠ []) as Hr.
  { rewrite app_nil_r. intros Hr. apply Hne. by rewrite <-(reverse_involutive p), Hr. }
  destruct l as [|q l]; cbn [join_with].
  - rewrite <-(app_nil_r p) at 1. rewrite words_from_word by done. simpl.
    rewrite decide_False by done. by rewrite app_nil_r, reverse_involutive.
  - rewrite words_from_word by done. simpl. change (is_whitespace 32) with true. cbn iota.
    rewrite decide_False by done. rewrite app_nil_r, reverse_involutive. f_equal. apply IH.
Qed.

Lemma strip_prefix_app p s : strip_prefix p (p ++ s) = Some s.
Proof. by apply strip_prefix_Some. Qed.
Lemma starts_with_spec p s : starts_with p s = true ↔ ∃ r, s = p ++ r.
Proof.
  unfold starts_with. rewrite bool_decide_eq_true. unfold is_Some.
  by setoid_rewrite strip_prefix_Some.
Qed.
Lemma ends_with_spec p s : ends_with p s = true ↔ ∃ u, s = u ++ p.
Proof.
  unfold ends_with. rewrite starts_with_spec. split.
  - intros [r Hr]. exists (reverse r). apply (inj reverse). by rewrite Hr, reverse_app, reverse_involutive.
  - intros [u ->]. exists (reverse u). apply reverse_app.
Qed.

Lemma split_on_cons sep s : ∃ part parts, split_on sep s = part :: parts.
Proof. destruct s as [|c s]; simpl; [eauto|]. repeat case_match; eauto. Qed.
(** The pieces of a text that ends with a separator and another text. *)
Lemma split_on_app_sep sep u s : split_on sep (u ++ sep :: s) = split_on sep u ++ split_on sep s.
Proof.
  induction u as [|c u IH]; simpl; [by rewrite decide_True|]. case_decide; [by rewrite IH|].
  rewrite IH. destruct (split_on_cons sep u) as (part & parts & ->). done.
Qed.
Lemma split_on_inj sep s t : split_on sep s = split_on sep t → s = t.
Proof. intros Hst. rewrite <-(proj2 (split_on_pieces sep s)), Hst. apply split_on_pieces. Qed.
Lemma join_with_app sep l k : l ≠ [] → k ≠ [] → join_with sep (l ++ k) = join_with sep l ++ sep :: join_with sep k.
Proof.
  intros Hl Hk. induction l as [|p l IH]; [done|]. destruct l as [|q l].
  - cbn. by destruct k.
  - cbn [app join_with] in *. rewrite IH by done. by rewrite <-(assoc_L (++)).
Qed.

(** Trimming removes the whitespace at both ends once and for all. *)
Lemma trim_start_app s : ∃ w, s = w ++ trim_start s ∧ Forall (λ c, is_whitespace c = true) w.
Proof.
  induction s as [|c s (w & Hs & Hw)]; cbn; [by exists []|].
  destruct (is_whitespace c) eqn:Hc; [|by exists []]. exists (c :: w). cbn. split; [by f_equal|by constructor].
Qed.
Lemma trim_start_idemp s : trim_start (trim_start s) = trim_start s.
Proof. induction s as [|c s IH]; cbn; [done|]. destruct (is_whitespace c) eqn:Hc; [done|]. cbn. by rewrite Hc. Qed.
Lemma trim_end_start s : trim_start (trim_end (trim_start s)) = trim_end (trim_start s).
Proof.
  assert (trim_start s = [] ∨ ∃ c r, trim_start s = c :: r ∧ is_whitespace c = false) as [->|(c & r & -> & Hc)].
  { induction s as [|c s IH]; cbn; [by left|]. destruct (is_whitespace c) eqn:Hc; [done|eauto]. }
  { done. }
  unfold trim_end. destruct (trim_start_app (reverse (c :: r))) as (w & Hw & Hall).
  destruct (trim_start (reverse (c :: r))) as [|d t _] using rev_ind; [done|].
  rewrite reverse_snoc. rewrite reverse_cons in Hw. rewrite app_assoc in Hw. apply app_inj_tail in Hw as [_ <-].
  cbn. by rewrite Hc.
Qed.
Lemma trim_idemp s : trim (trim s) = trim s.
Proof. unfold trim. rewrite trim_end_start. unfold trim_end. by rewrite reverse_involutive, trim_start_idemp. Qed.
