(* ===== verification/UnixPath.v ===== *)
(** * Paths of Unix

    [std::path] on Unix for paths of Unicode characters. A path is used through
    its components, which is also how Rust compares paths: a [PathBuf] built by
    pushing components is their list, the root being the component [/]. *)
From S2P Require Import Prelude TextSplit.
Local Open Scope N_scope.

Definition ROOT : text := [47].
Definition CURRENT : text := lit ".".
Definition PARENT : text := lit "..".

(** [Path::components]: a leading slash is the root, a leading point is kept in a
    relative path, other points and repeated slashes say nothing. *)
Definition components (p : text) : list text :=
  let pieces := split_on 47 p in
  (if starts_with ROOT p then [ROOT]
   else if decide (head pieces = Some CURRENT) then [CURRENT] else []) ++
  filter (λ piece, piece ≠ [] ∧ piece ≠ CURRENT) pieces.
Definition is_absolute (p : text) : bool := starts_with ROOT p.

(** [Path::file_name] and [Path::extension]. *)
Definition file_name (p : text) : option text :=
  match last (components p) with
  | Some name => if decide (name = ROOT ∨ name = CURRENT ∨ name = PARENT) then None else Some name
  | None => None
  end.
Definition extension (p : text) : option text :=
  name ← file_name p;
  '(after, before) ← split_once 46 (reverse name);
  if decide (before = []) then None else Some (reverse after).

(** [Path::starts_with]. *)
Definition path_starts_with (path base : list text) : bool := bool_decide (base `prefix_of` path).

(** [Path::join], on texts. *)
Definition join (base p : text) : text :=
  if is_absolute p then p
  else if decide (base = []) then p
  else if ends_with ROOT base then base ++ p
  else base ++ 47 :: p.

(** The loop that resolves [.] and [..] without the file system, as several
    files of the program have it. [PathBuf::pop] drops the last component. *)
Definition pop (path : list text) : list text := take (length path - 1) path.
(** [Path::parent], and [Path::strip_prefix]. *)
Definition parent (path : list text) : option (list text) :=
  if decide (last path = None ∨ last path = Some ROOT) then None else Some (pop path).
Definition path_strip_prefix (base path : list text) : option (list text) :=
  if path_starts_with path base then Some (drop (length base) path) else None.
Definition normalize_component (normalized : list text) (component : text) : list text :=
  if decide (component = CURRENT) then normalized
  else if decide (component = PARENT) then
    if decide (last normalized = Some ROOT) then normalized else pop normalized
  else if decide (component = ROOT) then [ROOT]
  else normalized ++ [component].
Definition normalize_lexically (p : text) : list text := foldl normalize_component [] (components p).

(** The text of a path of components. *)
Definition display (path : list text) : text :=
  match path with
  | [47] :: rest => 47 :: join_with 47 rest
  | _ => join_with 47 path
  end.

(** A component between slashes that says something. *)
Definition plain (c : text) : Prop := c ≠ [] ∧ c ≠ CURRENT ∧ c ≠ PARENT ∧ 47 ∉ c.
(** A path of plain components, from the root or relative. *)
Definition normal (path : list text) : Prop :=
  ∃ rest, (path = ROOT :: rest ∨ path = rest) ∧ Forall plain rest.

Lemma pop_snoc l c : pop (l ++ [c]) = l.
Proof. unfold pop. rewrite length_app. cbn. rewrite Nat.add_sub. by apply take_app_length. Qed.
Lemma path_starts_with_spec path base : path_starts_with path base = true ↔ base `prefix_of` path.
Proof. apply bool_decide_eq_true. Qed.
Lemma path_strip_prefix_Some base path rest : path_strip_prefix base path = Some rest ↔ path = base ++ rest.
Proof.
  unfold path_strip_prefix. split.
  - destruct (path_starts_with path base) eqn:Hp; [|done]. apply path_starts_with_spec in Hp as [r ->]. intros [= <-]. by rewrite drop_app_length.
  - intros ->. rewrite (proj2 (path_starts_with_spec _ _)) by (by exists rest). by rewrite drop_app_length.
Qed.
Lemma parent_snoc path c : c ≠ ROOT → parent (path ++ [c]) = Some path.
Proof. intros Hc. unfold parent. rewrite last_snoc, decide_False by naive_solver. by rewrite pop_snoc. Qed.
Lemma components_pieces p : Forall (λ c, c = ROOT ∨ c = CURRENT ∨ c ≠ [] ∧ c ≠ CURRENT ∧ 47 ∉ c) (components p).
Proof.
  unfold components. rewrite Forall_app. split.
  - case_match; [|case_match]; repeat apply Forall_cons_2; auto.
  - rewrite Forall_forall. intros c [[? ?] Hin]%list_elem_of_filter.
    destruct (split_on_pieces 47 p) as [Hp _]. rewrite Forall_forall in Hp. auto 6.
Qed.
Lemma plain_root : ¬ plain ROOT.
Proof. intros (_ & _ & _ & Hn). apply Hn. by left. Qed.
Lemma normalize_component_normal path c :
  normal path → (c = ROOT ∨ c = CURRENT ∨ c ≠ [] ∧ c ≠ CURRENT ∧ 47 ∉ c) → normal (normalize_component path c).
Proof.
  intros (rest & Hpath & Hrest) Hc. unfold normalize_component.
  case_decide as Hcur; [by exists rest|]. case_decide as Hpar.
  - case_decide as Hlast; [by exists rest|].
    destruct rest as [|x rest _] using rev_ind.
    + destruct Hpath as [->| ->]; [done|]. exists []. auto.
    + apply Forall_app in Hrest as [Hrest _]. exists rest. split; [|done].
      destruct Hpath as [->| ->]; [left|right]; [change (ROOT :: rest ++ [x]) with ((ROOT :: rest) ++ [x])|]; apply pop_snoc.
  - case_decide as Hroot; [exists []; auto|]. exists (rest ++ [c]). split.
    + destruct Hpath as [->| ->]; auto.
    + apply Forall_app. split; [done|]. constructor; [|done]. unfold plain. naive_solver.
Qed.
Lemma normalize_lexically_normal p : normal (normalize_lexically p).
Proof.
  unfold normalize_lexically. assert (normal []) as Hn by (exists []; auto). revert Hn. generalize (@nil text).
  induction (components_pieces p) as [|c l Hc Hl IH]; intros acc Hacc; cbn; [done|].
  by apply IH, normalize_component_normal.
Qed.
Lemma filter_plain rest : Forall plain rest → filter (λ piece, piece ≠ [] ∧ piece ≠ CURRENT) rest = rest.
Proof.
  induction 1 as [|c l (? & ? & ? & ?) Hl IH]; [done|]. rewrite filter_cons, decide_True by done. by rewrite IH.
Qed.
(** The text of a normal path reads as the path. *)
Lemma components_display path : normal path → components (display path) = path.
Proof.
  intros (rest & Hpath & Hrest).
  assert (Forall (λ c, 47 ∉ c) rest) as Hslash by (eapply Forall_impl; [exact Hrest|]; by intros c (? & ? & ? & ?)).
  assert (rest ≠ [] → split_on 47 (join_with 47 rest) = rest) as Hsplit by (intros; by apply split_on_join).
  destruct Hpath as [->| ->].
  - change (display (ROOT :: rest)) with (47 :: join_with 47 rest). unfold components.
    assert (starts_with ROOT (47 :: join_with 47 rest) = true) as -> by (apply starts_with_spec; by exists (join_with 47 rest)).
    cbn [split_on]. rewrite decide_True by done. rewrite filter_cons, decide_False by naive_solver. cbn [app]. f_equal.
    destruct rest as [|c rest]; [done|]. rewrite Hsplit by done. by apply filter_plain.
  - destruct rest as [|c rest]; [done|]. apply Forall_cons in Hrest as [Hc Hrest'].
    assert (display (c :: rest) = join_with 47 (c :: rest)) as ->.
    { unfold display. destruct c as [|d c]; [done|]. destruct (decide (d :: c = [47])) as [Heq|Hne].
      - rewrite Heq in Hc. by apply plain_root in Hc.
      - repeat case_match; simplify_eq; done. }
    unfold components. rewrite Hsplit by done.
    assert (starts_with ROOT (join_with 47 (c :: rest)) = false) as ->.
    { apply not_true_iff_false. rewrite starts_with_spec. intros [r Hr]. destruct Hc as (Hne & _ & _ & Hn).
      destruct c as [|d c]; [done|]. destruct rest; injection Hr as -> _; apply Hn; left. }
    cbn [head]. destruct Hc as (? & ? & ? & ?). rewrite decide_False by congruence. cbn [app].
    apply filter_plain. by constructor.
Qed.
Lemma normalize_plain acc rest : Forall plain rest → foldl normalize_component acc rest = acc ++ rest.
Proof.
  intros Hall. revert acc. induction Hall as [|c l Hc Hl IH]; intros acc; cbn; [by rewrite app_nil_r|].
  rewrite IH. unfold normalize_component. assert (c ≠ ROOT) by (intros ->; by apply plain_root in Hc).
  destruct Hc as (? & ? & ? & ?). rewrite !decide_False by done. by rewrite <-app_assoc.
Qed.
Lemma normalize_lexically_display path : normal path → normalize_lexically (display path) = path.
Proof.
  intros Hn. unfold normalize_lexically. rewrite components_display by done.
  destruct Hn as (rest & [->| ->] & Hrest); [|by apply normalize_plain].
  cbn [foldl]. change (normalize_component [] ROOT) with [ROOT]. by apply normalize_plain.
Qed.
Lemma display_nil path : normal path → display path = [] → path = [].
Proof. intros Hn Hd. by rewrite <-(normalize_lexically_display path Hn), Hd. Qed.
