(* ===== verification/Int64.v ===== *)
(** * 64-bit signed integers

    An [i64] is a [Z] within the bounds; saturating operations clamp to them,
    and [/] panics on a zero divisor and on overflow. [str::parse::<i64>]
    accepts one sign and decimal digits. *)
From S2P Require Import Prelude Decimal.
Local Open Scope Z_scope.

Definition I64_MIN : Z := -9223372036854775808.
Definition I64_MAX : Z := 9223372036854775807.
Definition i64 (x : Z) : Prop := I64_MIN ≤ x ≤ I64_MAX.
#[export] Instance i64_dec x : Decision (i64 x).
Proof. unfold i64. apply _. Defined.

Definition clamp_i64 (x : Z) : Z := Z.max I64_MIN (Z.min x I64_MAX).
Definition sat_add (a b : Z) : Z := clamp_i64 (a + b).
Definition sat_sub (a b : Z) : Z := clamp_i64 (a - b).
Definition sat_mul (a b : Z) : Z := clamp_i64 (a * b).
(** [a + b] with overflow checks. *)
Definition add_i64 (a b : Z) : result failure Z :=
  if decide (i64 (a + b)) then Ok (a + b) else Err (Panic "attempt to add with overflow").
(** [a / b], truncated towards zero. *)
Definition div_i64 (a b : Z) : result failure Z :=
  if decide (b = 0) then Err (Panic "attempt to divide by zero")
  else if decide (a = I64_MIN ∧ b = -1) then Err (Panic "attempt to divide with overflow")
  else Ok (Z.quot a b).

(** [str::parse::<i64>]. *)
Definition sign_and_digits (s : text) : bool * text :=
  match s with 45%N :: ds => (true, ds) | 43%N :: ds => (false, ds) | _ => (false, s) end.
Definition parse_i64 (s : text) : option Z :=
  let (negative, ds) := sign_and_digits s in
  if bool_decide (ds ≠ []) && forallb is_digit ds then
    let v := if negative then - Z.of_N (decimal_value ds) else Z.of_N (decimal_value ds) in
    if decide (i64 v) then Some v else None
  else None.

Ltac int64 := unfold sat_add, sat_sub, sat_mul, clamp_i64, i64, I64_MIN, I64_MAX in *; lia.

Lemma clamp_i64_id x : i64 x → clamp_i64 x = x.
Proof. int64. Qed.
Lemma clamp_i64_bounds x : i64 (clamp_i64 x).
Proof. int64. Qed.
Lemma sat_add_id a b : i64 (a + b) → sat_add a b = a + b.
Proof. apply clamp_i64_id. Qed.
Lemma sat_sub_id a b : i64 (a - b) → sat_sub a b = a - b.
Proof. apply clamp_i64_id. Qed.

(** Division of a non-negative number by a positive one. *)
Lemma div_i64_pos a b : 0 ≤ a → 0 < b → div_i64 a b = Ok (a `div` b).
Proof.
  intros Ha Hb. unfold div_i64. rewrite decide_False by lia. rewrite decide_False by (unfold I64_MIN; lia).
  by rewrite Z.quot_div_nonneg by lia.
Qed.

Lemma parse_i64_Some s v : parse_i64 s = Some v → i64 v.
Proof. unfold parse_i64. destruct (sign_and_digits s). case_match; [|done]. case_decide; [|done]. by intros [= <-]. Qed.

(** The decimal numeral of a natural number is read back. *)
Lemma parse_i64_display n : (Z.of_N n ≤ I64_MAX) → parse_i64 (display_u64 n) = Some (Z.of_N n).
Proof.
  intros Hn. destruct (display_u64_spec n) as (Hv & Hd & Hne & _); [unfold I64_MAX, U64_MAX in *; lia|].
  unfold parse_i64. assert (sign_and_digits (display_u64 n) = (false, display_u64 n)) as ->.
  { destruct (display_u64 n) as [|d ds]; [done|]. inversion_clear Hd as [|?? Hd' _].
    apply digit_bounds in Hd'. unfold sign_and_digits. repeat (case_match; try lia; try done). }
  rewrite bool_decide_true by done. rewrite (proj2 (forallb_forall is_digit (display_u64 n))).
  2:{ intros d Hin. rewrite Forall_forall in Hd. apply Hd. by apply list_elem_of_In. }
  cbn [andb]. rewrite Hv. rewrite decide_True; [done|]. unfold i64, I64_MIN, I64_MAX in *. lia.
Qed.
