(* ===== verification/CompactionBudget.v ===== *)
(** * Token estimates, model budgets and summarizer selection

    Models [crates/compaction/src/estimator.rs] (Module [Estimator]),
    [budget.rs] (Module [Budget]) and [selection.rs] (Module [Selection]). *)
From S2P Require Import Prelude Utf8.
Local Open Scope N_scope.

(** ** Text estimator *)
Module Estimator.
Definition utf16_units (text : text) : N :=
  foldl (λ units ch, units +₆₄ len_utf16 ch) 0 text.

Definition tokens_from_utf16 (units : N) : N :=
  units `div` 4 + (if decide (2 ≤ units `mod` 4) then 1 else 0).

Record TextSize := { utf16 : N; bytes : N }.

#[export] Instance TextSize_eq_dec : EqDecision TextSize.
Proof. solve_decision. Defined.

Definition default_size : TextSize := {| utf16 := 0; bytes := 0 |}.

Definition size_of (t : text) : TextSize :=
  {| utf16 := utf16_units t; bytes := byte_len t |}.

Definition tokens (s : TextSize) : N := tokens_from_utf16 (utf16 s).

Definition size_add (a b : TextSize) : TextSize :=
  {| utf16 := utf16 a +₆₄ utf16 b; bytes := bytes a +₆₄ bytes b |}.

(** Quote, backslash and the short escapes take two characters, the other
    controls six. *)
Definition json_char_size (ch : N) : TextSize :=
  if bool_decide (ch = 34 ∨ ch = 92 ∨ ch = 10 ∨ ch = 13 ∨ ch = 9 ∨ ch = 8 ∨ ch = 12)
  then {| utf16 := 2; bytes := 2 |}
  else if bool_decide (ch ≤ 31) then {| utf16 := 6; bytes := 6 |}
  else {| utf16 := len_utf16 ch; bytes := len_utf8 ch |}.

Definition json_string_content_size (t : text) : TextSize :=
  foldl (λ size ch, size_add size (json_char_size ch)) default_size t.

(** [Sink::write] of [json_size]: one chunk of UTF-8 bytes. *)
Definition sink_units (byte : N) : N :=
  if decide (byte < 128) then 1
  else if decide (240 ≤ byte) then 2
  else if decide (192 ≤ byte) then 1 else 0.

Definition sink_write (sink : TextSize) (chunk : list N) : TextSize :=
  foldl (λ s byte, {| utf16 := utf16 s +₆₄ sink_units byte; bytes := bytes s |})
    {| utf16 := utf16 sink; bytes := bytes sink +₆₄ N.of_nat (length chunk) |} chunk.

(** The unsaturated count. *)
Definition units_total (t : text) : N := foldr (λ c n, len_utf16 c + n) 0 t.

Lemma utf16_units_total t : utf16_units t = N.min (units_total t) U64_MAX.
Proof.
  unfold utf16_units.
  assert (∀ a, a ≤ U64_MAX →
    foldl (λ units ch, units +₆₄ len_utf16 ch) a t = N.min (a + units_total t) U64_MAX) as H.
  { induction t as [|c t IH]; intros a Ha; cbn [foldl units_total foldr]; [lia|].
    rewrite IH by word. fold (units_total t). word. }
  rewrite H by done. f_equal.
Qed.

(** A continuation byte adds nothing, so the lead byte alone decides. *)
Lemma sink_units_continuation x : sink_units (128 + x `mod` 64) = 0.
Proof.
  pose proof (N.mod_lt x 64 ltac:(done)).
  unfold sink_units; repeat case_decide; lia.
Qed.

Lemma sink_units_encode c :
  c < 1114112 → foldr (λ b n, sink_units b + n) 0 (encode_utf8 c) = len_utf16 c.
Proof.
  intros Hc. unfold encode_utf8, len_utf16.
  repeat (case_decide; try lia); cbn [foldr]; rewrite ?sink_units_continuation;
    unfold sink_units; repeat case_decide; try lia;
    exfalso; lia.
Qed.

Lemma sink_write_total sink chunk :
  utf16 sink ≤ U64_MAX →
  sink_write sink chunk =
    {| utf16 := N.min (utf16 sink + foldr (λ b n, sink_units b + n) 0 chunk) U64_MAX;
       bytes := bytes sink +₆₄ N.of_nat (length chunk) |}.
Proof.
  intros Hs. unfold sink_write. generalize (bytes sink +₆₄ N.of_nat (length chunk)) as n.
  revert Hs. generalize (utf16 sink) as u. clear sink.
  induction chunk as [|b chunk IH]; intros u Hu n; cbn [foldl foldr utf16 bytes].
  { f_equal; lia. }
  rewrite IH by word. f_equal. word.
Qed.

Lemma foldr_sink_app l1 l2 :
  foldr (λ b n, sink_units b + n) 0 (l1 ++ l2) =
    foldr (λ b n, sink_units b + n) 0 l1 + foldr (λ b n, sink_units b + n) 0 l2.
Proof. induction l1 as [|b l1 IH]; cbn [foldr app]; lia. Qed.

Lemma sink_encode_total t :
  Forall is_scalar t →
  foldr (λ b n, sink_units b + n) 0 (t ≫= encode_utf8) = units_total t ∧
  N.of_nat (length (t ≫= encode_utf8)) = byte_len t.
Proof.
  induction 1 as [|c t Hc Ht [IH1 IH2]]; [done|]. cbn [mbind list_bind].
  change (list_bind N N encode_utf8 t) with (t ≫= encode_utf8).
  rewrite foldr_sink_app, length_app, Nat2N.inj_add, encode_utf8_length.
  rewrite sink_units_encode by (unfold is_scalar in Hc; lia).
  rewrite IH1, IH2. done.
Qed.

(** the streaming size sink is the estimator. Writing the UTF-8 encoding of
    a text to [Sink::write] in any two chunks — even one that splits a
    character — gives the size [TextSize::of] computes from the text. *)
Theorem sink_write_is_size_of (t : text) (chunk1 chunk2 : list N) :
  Forall is_scalar t → chunk1 ++ chunk2 = t ≫= encode_utf8 → byte_len t ≤ U64_MAX →
  sink_write (sink_write default_size chunk1) chunk2 = size_of t.
Proof.
  intros Ht Hchunks Hlen. destruct (sink_encode_total t Ht) as [Hu Hb].
  rewrite <-Hchunks, ?foldr_sink_app, ?length_app in *.
  rewrite (sink_write_total default_size), sink_write_total by (cbn [utf16 default_size]; lia).
  unfold size_of.
  rewrite utf16_units_total. cbn [utf16 bytes default_size]. f_equal; word.
Qed.

(** [tokens_from_utf16] is rounding to the nearest quarter with ties up,
    never overflows, and is monotone. *)
Theorem tokens_from_utf16_rounds (u v : N) :
  u ≤ v → v ≤ U64_MAX →
  4 * tokens_from_utf16 u ≤ u + 2 ∧ u + 2 < 4 * tokens_from_utf16 u + 4 ∧
  tokens_from_utf16 u ≤ tokens_from_utf16 v ∧ tokens_from_utf16 v ≤ U64_MAX `div` 4 + 1.
Proof.
  unfold tokens_from_utf16, U64_MAX. repeat case_decide; intros; lia.
Qed.
End Estimator.

(** ** Input estimates and model budgets *)
Module Budget.
Record InputEstimate := { measured : N; estimated : N }.

Definition local (estimated : N) : InputEstimate :=
  {| measured := 0; estimated := estimated |}.

Definition total (e : InputEstimate) : N := measured e +₆₄ estimated e.

(** [((input as u128 * 115).div_ceil(100)).min(u64::MAX)]. *)
Definition padded_input (input : N) : N := N.min ((input * 115 + 99) `div` 100) U64_MAX.

Definition padded (e : InputEstimate) : N := measured e +₆₄ padded_input (estimated e).

Record ModelBudget := {
  context : N;
  input_limit : option N;
  max_output : option N;
  separate_reasoning : N;
}.

#[export] Instance ModelBudget_eq_dec : EqDecision ModelBudget.
Proof. solve_decision. Defined.

Definition new_budget (context input_limit max_output : option N) : ModelBudget :=
  {| context := match context with Some v => if decide (0 < v) then v else 128000 | None => 128000 end;
     input_limit := input_limit;
     max_output := max_output;
     separate_reasoning := 0 |}.

Definition none_or (P : N → bool) (o : option N) : bool :=
  match o with Some v => P v | None => true end.

Definition output_reserve (m : ModelBudget) (explicit : option N) : result failure N :=
  match explicit with
  | Some cap =>
      ensure (bool_decide (0 < cap) && none_or (λ max, bool_decide (cap ≤ max)) (max_output m))
        (Bail "explicit output limit is not supported by the selected model");;
      Ok cap
  | None =>
      let cap := N.min (N.min 16384 (context m `div` 4)) (default U64_MAX (max_output m)) in
      ensure (bool_decide (0 < cap)) (Bail "model has no output capacity");;
      Ok cap
  end.

(** [output_reserve(None)? * 4 / 5] is unchecked [u64] arithmetic: an overflow
    is a panic (debug) or a wrap (release); the model reports it. *)
Definition summarizer_cap (m : ModelBudget) (available : N) : result failure N :=
  reserve ← output_reserve m None;
  scaled ← ok_or (if decide (reserve * 4 ≤ U64_MAX) then Some (reserve * 4) else None)
             (Panic "attempt to multiply with overflow");
  Ok (N.min (N.min (scaled `div` 5) 13107) available).

Definition compaction_reserve (m : ModelBudget) : N :=
  N.max ((context m * 15) `div` 100) (if decide (32000 ≤ context m) then 16000 else 0).

Definition fits_estimate (m : ModelBudget) (input : InputEstimate) (reserve : N) (recovery : bool) : bool :=
  let input := padded input in
  let window := (context m * 99) `div` 100 in
  let reserve := if recovery then N.max reserve (compaction_reserve m) else reserve in
  none_or (λ limit, bool_decide (input ≤ limit)) (input_limit m)
    && bool_decide (input + reserve + separate_reasoning m ≤ window).

Definition fits (m : ModelBudget) (input reserve : N) (recovery : bool) : bool :=
  fits_estimate m (local input) reserve recovery.

(** Every field of a [ModelBudget] is a [u64]. *)
Definition budget_wf (m : ModelBudget) : Prop :=
  context m ≤ U64_MAX ∧ (∀ v, input_limit m = Some v → v ≤ U64_MAX) ∧
  (∀ v, max_output m = Some v → v ≤ U64_MAX) ∧ separate_reasoning m ≤ U64_MAX.

Lemma none_or_true P o : none_or P o = true ↔ ∀ v, o = Some v → P v = true.
Proof. destruct o; simpl; naive_solver. Qed.

Lemma padded_input_mono a b : a ≤ b → padded_input a ≤ padded_input b.
Proof. unfold padded_input; lia. Qed.

Lemma padded_input_ge a : a ≤ U64_MAX → a ≤ padded_input a.
Proof. unfold padded_input; lia. Qed.

Lemma fits_estimate_spec m e reserve recovery :
  fits_estimate m e reserve recovery = true ↔
    (∀ limit, input_limit m = Some limit → padded e ≤ limit) ∧
    padded e + (if recovery then N.max reserve (compaction_reserve m) else reserve)
      + separate_reasoning m ≤ (context m * 99) `div` 100.
Proof.
  unfold fits_estimate. rewrite andb_true_iff, none_or_true, bool_decide_eq_true.
  by setoid_rewrite bool_decide_eq_true.
Qed.

(** Smaller input, smaller reserve, no recovery: still fits. *)
Lemma fits_estimate_antitone m e e' r r' b b' :
  padded e' ≤ padded e → r' ≤ r → (b' = true → b = true) →
  fits_estimate m e r b = true → fits_estimate m e' r' b' = true.
Proof.
  rewrite !fits_estimate_spec. intros He Hr Hb [Hlim Hwin]. split.
  { intros l Hl; specialize (Hlim l Hl); lia. }
  destruct b, b'; lia.
Qed.

Lemma fits_mono m a b reserve recovery :
  a ≤ b → fits m b reserve recovery = true → fits m a reserve recovery = true.
Proof.
  intros Hab. apply fits_estimate_antitone; [|done|done].
  unfold padded, local, saturating_add; simpl. pose proof (padded_input_mono a b Hab); lia.
Qed.

(** admission by [fits_estimate] is sound for the real request. The submitted
    input (measured plus estimated tokens, unpadded), the output reserve and
    the separate reasoning together stay inside the context window with its
    1% framing headroom, and the input stays inside the provider's input
    limit; in recovery the compaction reserve is covered too. *)
Theorem fits_estimate_sound (m : ModelBudget) (e : InputEstimate) (reserve : N) (recovery : bool) :
  budget_wf m → measured e ≤ U64_MAX → estimated e ≤ U64_MAX →
  fits_estimate m e reserve recovery = true →
  measured e + estimated e + reserve + separate_reasoning m ≤ (context m * 99) `div` 100 ∧
  (∀ limit, input_limit m = Some limit → measured e + estimated e ≤ limit) ∧
  (recovery = true →
    measured e + estimated e + compaction_reserve m + separate_reasoning m ≤ context m).
Proof.
  intros (Hc & Hl & _ & _) Hm He [Hlim Hwin]%fits_estimate_spec.
  pose proof (padded_input_ge (estimated e) He) as Hge.
  unfold padded, saturating_add in *.
  assert (measured e + padded_input (estimated e) ≤ U64_MAX) by (destruct recovery; unfold U64_MAX in *; lia).
  split; [destruct recovery; lia|]. split.
  - intros limit Hlimit. specialize (Hlim limit Hlimit). specialize (Hl limit Hlimit). lia.
  - intros ->; lia.
Qed.

(** the output reserve is positive and within the model's own cap; the
    default one is at most a quarter of the context and 16384 tokens. The
    summarizer cap takes four fifths of it, never more than what is
    available, and its multiplication never overflows [u64]. *)
Theorem output_reserve_bounds (m : ModelBudget) (explicit : option N) (available cap scap : N) :
  output_reserve m explicit = Ok cap → summarizer_cap m available = Ok scap →
  0 < cap ∧ (∀ v, max_output m = Some v → cap ≤ v) ∧
  (explicit = None → cap ≤ context m `div` 4 ∧ cap ≤ 16384) ∧
  scap ≤ available ∧ scap ≤ 13107 ∧ scap * 5 ≤ context m.
Proof.
  unfold summarizer_cap. intros Hcap Hs.
  assert (∀ o c, output_reserve m o = Ok c → 0 < c ∧ (∀ v, max_output m = Some v → c ≤ v) ∧
    (o = None → c ≤ context m `div` 4 ∧ c ≤ 16384)) as Hres.
  { clear. intros [c|] r; unfold output_reserve; intros; simplify_result.
    - split; [done|]. split; [|done]. intros v Hv.
      by match goal with H : none_or _ _ = true |- _ =>
        apply none_or_true with (v:=v) in H; [simplify_result|] end.
    - split; [done|]. split; [intros v ->; simpl; lia|]. lia. }
  destruct (Hres _ _ Hcap) as (? & ? & ?). simplify_result.
  destruct (Hres _ _ Hr) as (? & ? & Hd). destruct (Hd eq_refl).
  case_decide; simplify_eq. do 3 (split; [done|]). lia.
Qed.

(** The multiplication in [summarizer_cap] never overflows. *)
Lemma summarizer_cap_no_panic m available s : summarizer_cap m available ≠ Err (Panic s).
Proof.
  unfold summarizer_cap, output_reserve, ensure.
  case_match eqn:E; simpl; [|done]. rewrite decide_True; [done|]. unfold U64_MAX. lia.
Qed.

(** ** Calibration by a provider measurement *)
Record RequestIdentity := {
  provider_instance : string; model : string; api_format : string;
  instructions_hash : string; tools_hash : string;
  projection_version : N; checkpoint : option string;
}.
#[export] Instance RequestIdentity_eq_dec : EqDecision RequestIdentity.
Proof. solve_decision. Defined.

Section measurement.
(** [SourceRef] is declared in [history.rs]; only its equality is used here. *)
Context {SourceRef : Type} `{!EqDecision SourceRef}.

Record InputMeasurement := {
  identity : RequestIdentity; prefix : list SourceRef; input_tokens : N;
}.

(** [sources.starts_with(&m.prefix)]. *)
Definition sources_start_with (prefix sources : list SourceRef) : bool :=
  bool_decide (take (length prefix) sources = prefix).

Definition estimate_input_parts (local_complete : N) (id : RequestIdentity)
    (sources : list SourceRef) (m : option InputMeasurement) (appended_local : N) : InputEstimate :=
  match m with
  | Some m =>
      if bool_decide (identity m = id) && sources_start_with (prefix m) sources
      then {| measured := input_tokens m; estimated := appended_local |}
      else local local_complete
  | None => local local_complete
  end.

Definition estimate_input (local_complete : N) (id : RequestIdentity)
    (sources : list SourceRef) (m : option InputMeasurement) (appended_local : N) : N :=
  total (estimate_input_parts local_complete id sources m appended_local).

Lemma sources_start_with_spec p l :
  sources_start_with p l = true ↔ ∃ rest, l = p ++ rest.
Proof.
  unfold sources_start_with. rewrite bool_decide_eq_true. split.
  - intros H. exists (drop (length p) l). by rewrite <-H at 1; rewrite take_drop.
  - intros [r ->]. apply take_app_length.
Qed.

(** a provider measurement calibrates the estimate exactly when it was
    taken for the same request identity and its sources are an unchanged
    prefix of the submitted ones; otherwise the local estimate is used and
    nothing of the measurement leaks into it. *)
Theorem estimate_input_parts_calibrated (local_complete appended : N) (id : RequestIdentity)
    (sources : list SourceRef) (m : InputMeasurement) :
  (identity m = id ∧ (∃ rest, sources = prefix m ++ rest) ∧
     estimate_input_parts local_complete id sources (Some m) appended =
       {| measured := input_tokens m; estimated := appended |}) ∨
  (¬ (identity m = id ∧ ∃ rest, sources = prefix m ++ rest) ∧
     estimate_input_parts local_complete id sources (Some m) appended =
       estimate_input_parts local_complete id sources None appended).
Proof.
  unfold estimate_input_parts. rewrite <-sources_start_with_spec.
  destruct (decide (identity m = id)) as [Hid|Hid].
  - rewrite (bool_decide_true _ Hid); simpl.
    destruct (sources_start_with _ _); [left; eauto|right; split; [by intros [_ ?]|done]].
  - rewrite (bool_decide_false _ Hid); simpl. right. split; [by intros [? _]|done].
Qed.
End measurement.

Inductive CacheAccounting := Included | Separate.

Definition normalized_input (input cache_read cache_write : option N)
    (accounting : CacheAccounting) : option N :=
  input ← input;
  match accounting with
  | Included => Some input
  | Separate =>
      cache_read ← cache_read;
      sum ← checked_add U64_MAX input cache_read;
      cache_write ← cache_write;
      checked_add U64_MAX sum cache_write
  end.

(** normalised input never invents a measurement and never double counts.
    It is the input itself when cache tokens are included in it, the exact
    sum when they are separate, and missing as soon as a part is missing or
    the sum leaves [u64]. *)
Theorem normalized_input_exact (input cache_read cache_write : option N) (v : N) :
  (normalized_input input cache_read cache_write Included = input) ∧
  (normalized_input input cache_read cache_write Separate = Some v ↔
    ∃ i r w, input = Some i ∧ cache_read = Some r ∧ cache_write = Some w ∧
      v = i + r + w ∧ i + r + w ≤ U64_MAX).
Proof.
  split; [by destruct input|].
  unfold normalized_input, checked_add.
  destruct input as [i|], cache_read as [r|], cache_write as [w|]; simpl;
    repeat (case_decide; simpl); split; try done; try naive_solver lia.
Qed.
End Budget.

(** ** Selection of the summarizer *)
Module Selection.
Inductive Transport := Api | Codex | Claude | OpenCode.
#[export] Instance Transport_eq_dec : EqDecision Transport.
Proof. solve_decision. Defined.

Record ModelSelection := {
  transport : Transport; instance : string; model_name : string; effort : option string;
}.
#[export] Instance ModelSelection_eq_dec : EqDecision ModelSelection.
Proof. solve_decision. Defined.

Record CompactionSettings := { selection : option ModelSelection }.

Definition effective_selection (current : ModelSelection)
    (general cli_override : option ModelSelection) : ModelSelection :=
  match transport current with
  | Api => default current general
  | _ => default current (match cli_override with Some o => Some o | None => general end)
  end.

Definition OPERATION_MILLIS : N := 60 * 60 * 1000.
Definition ATTEMPT_MILLIS : N := 5 * 60 * 1000.

Record OperationAdmission := {
  admitted : ModelSelection; admitted_at_ms : N; deadline_ms : N;
}.

Definition admit_operation (settings : CompactionSettings) (current : ModelSelection)
    (cli_override : option ModelSelection) (now_ms : N) : result failure OperationAdmission :=
  let sel := effective_selection current (selection settings) cli_override in
  ensure (negb (bool_decide (instance sel = "")) && negb (bool_decide (model_name sel = "")))
    (Bail "invalid explicit compaction selection");;
  Ok {| admitted := sel; admitted_at_ms := now_ms; deadline_ms := now_ms +₆₄ OPERATION_MILLIS |}.

(** the summarizer is one of the three configured selections taken whole
    (its transport, instance, model and effort are never mixed), an API turn
    never takes the CLI override, and an admitted operation names its
    instance and model and gets one hour unless the clock saturates. *)
Theorem admit_selects_whole (settings : CompactionSettings) (current : ModelSelection)
    (cli : option ModelSelection) (now : N) (a : OperationAdmission) :
  admit_operation settings current cli now = Ok a →
  (admitted a = current ∨ Some (admitted a) = selection settings ∨
     (Some (admitted a) = cli ∧ transport current ≠ Api)) ∧
  instance (admitted a) ≠ "" ∧ model_name (admitted a) ≠ "" ∧
  admitted_at_ms a = now ∧ (now + OPERATION_MILLIS ≤ U64_MAX → deadline_ms a = now + OPERATION_MILLIS).
Proof.
  unfold admit_operation, effective_selection. intros; simplify_result; simpl.
  split; [|split; [done|]]; [|split; [done|split; [done|word]]].
  destruct (transport current) eqn:Ht; destruct (selection settings), cli; simpl; auto.
Qed.
End Selection.

(** ** Witnesses: each property at a concrete input *)
Lemma sink_write_is_size_of_witness :
  Estimator.sink_write (Estimator.sink_write Estimator.default_size [104; 226]) [130; 172]
    = Estimator.size_of [104; 8364].
Proof.
  apply Estimator.sink_write_is_size_of; [|reflexivity|discriminate].
  repeat constructor; unfold is_scalar; lia.
Defined.

Lemma tokens_from_utf16_rounds_witness :
  4 * Estimator.tokens_from_utf16 6 ≤ 8 ∧ 8 < 4 * Estimator.tokens_from_utf16 6 + 4 ∧
  Estimator.tokens_from_utf16 6 ≤ Estimator.tokens_from_utf16 U64_MAX ∧
  Estimator.tokens_from_utf16 U64_MAX ≤ U64_MAX `div` 4 + 1.
Proof. apply (Estimator.tokens_from_utf16_rounds 6 U64_MAX); discriminate. Defined.

Definition small_budget : Budget.ModelBudget :=
  Budget.new_budget (Some 8000) (Some 7800) (Some 2000).

Lemma fits_estimate_sound_witness :
  7000 + 100 + 500 + 0 ≤ (8000 * 99) `div` 100 ∧
  (∀ limit, Budget.input_limit small_budget = Some limit → 7000 + 100 ≤ limit) ∧
  (false = true → 7000 + 100 + Budget.compaction_reserve small_budget + 0 ≤ 8000).
Proof.
  apply (Budget.fits_estimate_sound small_budget
           {| Budget.measured := 7000; Budget.estimated := 100 |} 500 false);
    [|discriminate..|reflexivity].
  split; [discriminate|]. split; [|split; [|discriminate]];
    intros v [= <-]; discriminate.
Defined.

Lemma output_reserve_bounds_witness :
  0 < 2000 ∧ (∀ v, Budget.max_output small_budget = Some v → 2000 ≤ v) ∧
  (@None N = None → 2000 ≤ 8000 `div` 4 ∧ 2000 ≤ 16384) ∧
  1600 ≤ 5000 ∧ 1600 ≤ 13107 ∧ 1600 * 5 ≤ 8000.
Proof. apply (Budget.output_reserve_bounds small_budget None 5000); reflexivity. Defined.

Lemma admit_selects_whole_witness :
  let cli := {| Selection.transport := Selection.Codex; Selection.instance := "cli";
                Selection.model_name := "m"; Selection.effort := None |} in
  let a := {| Selection.admitted := cli; Selection.admitted_at_ms := 5;
              Selection.deadline_ms := 3600005 |} in
  (Selection.admitted a = cli ∨ Some (Selection.admitted a) = None ∨
     (Some (Selection.admitted a) = None ∧ Selection.transport cli ≠ Selection.Api)) ∧
  Selection.instance cli ≠ "" ∧ Selection.model_name cli ≠ "" ∧ 5 = 5 ∧
  (5 + Selection.OPERATION_MILLIS ≤ U64_MAX → 3600005 = 5 + Selection.OPERATION_MILLIS).
Proof.
  intros cli a.
  apply (Selection.admit_selects_whole {| Selection.selection := None |} cli None 5 a).
  reflexivity.
Defined.
