(* ===== verification/CompactionResults.v ===== *)
(** * Excerpts and pages of tool results

    Models [crates/compaction/src/results.rs]: a shortened representation of a
    long result that keeps both of its ends, and its lossless division into
    pages. Both keep a budget of estimated tokens and serialized bytes. A byte
    offset into a text is resolved by walking its characters; the JSON framing
    of a page comes from serde_json and is an interface. *)
From S2P Require Import Prelude Utf8 CompactionBudget.
Import Estimator.
Local Open Scope N_scope.

Definition RESULT_TOKENS : N := 8192.
Definition RESULT_BYTES : N := 64 * 1024.
Definition PAGE_TOKENS : N := 4096.
Definition PAGE_BYTES : N := 32 * 1024.

Record ResultCursor := { cursor_version : text; offset : N }.
Record ResultPage := { page_text : text; next : option ResultCursor; eof : bool }.

(** [|size| size.bytes <= bytes && size.tokens() <= tokens]. *)
Definition fits_in (max_tokens max_bytes : N) (s : TextSize) : bool :=
  bool_decide (bytes s ≤ max_bytes) && bool_decide (tokens s ≤ max_tokens).

(** ** Excerpts *)
Definition excerpt_marker (reference : text) : text :=
  10 :: lit "[Result shortened. Full source: " ++ reference ++
  lit "; use threads_tools_result_read.]" ++ [10].

(** One step of the double-ended iterator over the characters not yet taken. *)
Definition next_char (from_head : bool) (mid : text) : option (N * text) :=
  if from_head then match mid with c :: mid => Some (c, mid) | [] => None end
  else match last mid with Some c => Some (c, removelast mid) | None => None end.

(** The loop over both ends; every round takes a character, so [fuel] is their number. *)
Fixpoint take_ends (fuel : nat) (fits : TextSize → bool) (size_of : text → TextSize) (mid : text)
    (from_head : bool) (size : TextSize) (head tail : text) : text * text :=
  match fuel with
  | O => (head, tail)
  | S fuel =>
      match next_char from_head mid with
      | None => (head, tail)
      | Some (c, mid) =>
          let next_size := size_add size (size_of [c]) in
          if fits next_size
          then if from_head
               then take_ends fuel fits size_of mid false next_size (head ++ [c]) tail
               else take_ends fuel fits size_of mid true next_size head (c :: tail)
          else (head, tail)
      end
  end.

Definition excerpt_in_budget (t reference : text) (max_tokens max_bytes : N) (frame : TextSize)
    (size_of : text → TextSize) : result failure text :=
  let fits := fits_in max_tokens max_bytes in
  if bool_decide (byte_len t ≤ max_bytes) && fits (size_add frame (size_of t)) then Ok t
  else
    let marker := excerpt_marker reference in
    let size := size_add frame (size_of marker) in
    ensure (fits size) (Bail "result reference does not fit; context preparation required");;
    let '(head, tail) := take_ends (length t) fits size_of t true size [] [] in
    Ok (head ++ marker ++ tail).

Definition result_excerpt (t reference : text) (available_tokens available_bytes : N)
    : result failure text :=
  excerpt_in_budget t reference (N.min available_tokens RESULT_TOKENS)
    (N.min available_bytes RESULT_BYTES) default_size size_of.
Definition result_excerpt_in_json (t reference : text) (available_tokens available_bytes : N)
    (empty_envelope : TextSize) : result failure text :=
  excerpt_in_budget t reference (N.min available_tokens RESULT_TOKENS)
    (N.min available_bytes RESULT_BYTES) empty_envelope json_string_content_size.

(** ** Pages *)
(** [text[n..]] and [text[..n]] at a character boundary. *)
Fixpoint suffix_at (n : N) (t : text) : option text :=
  if decide (n = 0) then Some t
  else match t with
       | c :: t => if decide (len_utf8 c ≤ n) then suffix_at (n - len_utf8 c) t else None
       | [] => None
       end.
Fixpoint prefix_at (n : N) (t : text) : option text :=
  if decide (n = 0) then Some []
  else match t with
       | c :: t => if decide (len_utf8 c ≤ n) then cons c <$> prefix_at (n - len_utf8 c) t else None
       | [] => None
       end.

(** [usize::ilog10] of a positive 64-bit number. *)
Definition ilog10 (n : N) : N :=
  N.of_nat (length (filter (λ k, 10 ^ N.of_nat k ≤ n) (seq 1 19))).
Definition digit_extra (n : N) : TextSize := {| utf16 := ilog10 n; bytes := ilog10 n |}.

(** [json_size] of a page. *)
Class PageJson := page_size : ResultPage → result failure TextSize.

Definition empty_page (version : text) (o : N) : ResultPage :=
  {| page_text := []; next := Some {| cursor_version := version; offset := o |}; eof := false |}.
Definition empty_last_page : ResultPage := {| page_text := []; next := None; eof := true |}.

(** The greedy scan over [text[start..]]; the end of the text was considered before. *)
Fixpoint scan_page (fits : TextSize → bool) (framing content : TextSize) (total end_ : N) (rest : text)
    (best : option N) : option N :=
  match rest with
  | [] => best
  | ch :: rest =>
      let end_ := end_ + len_utf8 ch in
      if decide (end_ = total) then best
      else
        let content := size_add content (json_string_content_size [ch]) in
        if fits (size_add (size_add framing content) (digit_extra end_))
        then scan_page fits framing content total end_ rest (Some end_)
        else best
  end.

(** [make]: the page from [start] to [end]; slicing panics off a boundary. *)
Definition make_page (t version rest : text) (start end_ : N) : result failure ResultPage :=
  taken ← ok_or (prefix_at (end_ - start) rest) (Panic "byte index is not a char boundary");
  Ok {| page_text := taken;
        next := if decide (end_ < byte_len t)
                then Some {| cursor_version := version; offset := end_ |} else None;
        eof := bool_decide (end_ = byte_len t) |}.

Section pages.
Context `{PageJson}.

Definition start_of (version : text) (cursor : option ResultCursor) : result failure N :=
  match cursor with
  | Some cursor =>
      ensure (bool_decide (cursor_version cursor = version)) (Bail "stale result cursor");;
      Ok (offset cursor)
  | None => Ok 0
  end.

Definition result_page_in_budget (t version : text) (cursor : option ResultCursor)
    (max_tokens max_bytes : N) : result failure ResultPage :=
  let fits := fits_in max_tokens max_bytes in
  start ← start_of version cursor;
  rest ← ok_or (suffix_at start t) (Bail "invalid result cursor");
  whole ← (if decide (byte_len t - start ≤ max_bytes)
           then eof_frame ← page_size empty_last_page;
                Ok (fits (size_add eof_frame (json_string_content_size rest)))
           else Ok false);
  if (whole : bool) then make_page t version rest start (byte_len t)
  else
    framing ← page_size (empty_page version 0);
    best ← ok_or (scan_page fits framing default_size (byte_len t) start rest None)
             (Bail "result page framing does not fit");
    page ← make_page t version rest start best;
    ensure (eof page || negb (bool_decide (page_text page = [])))
      (Bail "result page cannot make progress within budget");;
    Ok page.

Definition result_page (t version : text) (cursor : option ResultCursor)
    (available_tokens available_bytes : N) : result failure ResultPage :=
  result_page_in_budget t version cursor (N.min available_tokens PAGE_TOKENS)
    (N.min available_bytes PAGE_BYTES).

(** A reader that follows the cursors to the end. *)
Fixpoint read_pages (fuel : nat) (t version : text) (cursor : option ResultCursor)
    (max_tokens max_bytes : N) : option (result failure (list ResultPage)) :=
  match fuel with
  | O => None
  | S fuel =>
      match result_page_in_budget t version cursor max_tokens max_bytes with
      | Err e => Some (Err e)
      | Ok page =>
          match next page with
          | None => Some (Ok [page])
          | Some cursor =>
              rest ← read_pages fuel t version (Some cursor) max_tokens max_bytes;
              Some (pages ← rest; Ok (page :: pages))
          end
      end
  end.
End pages.

(** ** Sizes add up *)
Definition measure (char_size : N → TextSize) (t : text) : TextSize :=
  foldl (λ s c, size_add s (char_size c)) default_size t.
Definition bounded (s : TextSize) : Prop := utf16 s ≤ U64_MAX ∧ bytes s ≤ U64_MAX.

(** What the estimators of texts have in common. *)
Class TextMeasure (size_of : text → TextSize) := {
  char_size : N → TextSize;
  measure_spec t : byte_len t ≤ U64_MAX → size_of t = measure char_size t;
  char_bytes c : len_utf8 c ≤ bytes (char_size c);
}.

Lemma size_eq s s' : utf16 s = utf16 s' → bytes s = bytes s' → s = s'.
Proof. destruct s, s'. simpl. by intros -> ->. Qed.
Lemma size_add_assoc a b c : size_add (size_add a b) c = size_add a (size_add b c).
Proof. apply size_eq; simpl; word. Qed.
Lemma size_add_comm a b : size_add a b = size_add b a.
Proof. apply size_eq; simpl; word. Qed.
Lemma size_add_default s : bounded s → size_add s default_size = s.
Proof. intros [??]. apply size_eq; simpl; word. Qed.
Lemma size_add_bounded a b : bounded (size_add a b).
Proof. split; simpl; word. Qed.
Lemma default_bounded : bounded default_size.
Proof. split; simpl; done. Qed.
#[local] Hint Resolve size_add_bounded default_bounded : core.

Lemma measure_bounded f t : bounded (measure f t).
Proof. unfold measure. destruct t as [|c t _] using rev_ind; [auto|]. rewrite foldl_app. simpl. auto. Qed.
#[local] Hint Resolve measure_bounded : core.

Lemma measure_from f t s : bounded s → foldl (λ s c, size_add s (f c)) s t = size_add s (measure f t).
Proof.
  induction t as [|c t IH] using rev_ind; intros Hs; [symmetry; by apply size_add_default|].
  unfold measure. rewrite !foldl_app. simpl. rewrite IH by done. by rewrite size_add_assoc.
Qed.
Lemma measure_app f a b : measure f (a ++ b) = size_add (measure f a) (measure f b).
Proof.
  unfold measure at 1. rewrite foldl_app. fold (measure f a).
  by rewrite (measure_from f b (measure f a)) by apply measure_bounded.
Qed.

Lemma tokens_mono a b : a ≤ b → tokens_from_utf16 a ≤ tokens_from_utf16 b.
Proof. unfold tokens_from_utf16. intros. repeat case_decide; lia. Qed.
Lemma fits_in_mono k n a b :
  utf16 a ≤ utf16 b → bytes a ≤ bytes b → fits_in k n b = true → fits_in k n a = true.
Proof.
  unfold fits_in, tokens. rewrite !andb_true_iff, !bool_decide_eq_true. intros Hu Hb [??].
  pose proof (tokens_mono _ _ Hu). lia.
Qed.
Lemma fits_in_add_l k n a b : bounded a → fits_in k n (size_add a b) = true → fits_in k n a = true.
Proof. intros [??]. apply fits_in_mono; simpl; word. Qed.

Lemma len_utf16_bounds c : 1 ≤ len_utf16 c ≤ 2.
Proof. unfold len_utf16. repeat case_decide; lia. Qed.

Lemma foldl_size_of t : ∀ u b, u ≤ U64_MAX → b + byte_len t ≤ U64_MAX →
  foldl (λ s c, size_add s {| utf16 := len_utf16 c; bytes := len_utf8 c |}) {| utf16 := u; bytes := b |} t =
  {| utf16 := foldl (λ units ch, units +₆₄ len_utf16 ch) u t; bytes := b + byte_len t |}.
Proof.
  induction t as [|c t IH]; intros u b Hu Hb; simpl; [f_equal; lia|].
  simpl in Hb. unfold size_add at 2. simpl.
  rewrite IH; [apply size_eq; simpl; [done|]|..]; word.
Qed.

#[export] Instance size_of_measure : TextMeasure size_of.
Proof.
  refine {| char_size := λ c, {| utf16 := len_utf16 c; bytes := len_utf8 c |} |}; [|done].
  intros t Ht. unfold measure, default_size. rewrite foldl_size_of by lia.
  unfold size_of, utf16_units. by rewrite N.add_0_l.
Defined.
#[export] Instance json_measure : TextMeasure json_string_content_size.
Proof.
  refine {| char_size := json_char_size |}; [done|].
  intros c. unfold json_char_size. pose proof (len_utf8_bounds c).
  case_bool_decide as Hc; simpl; [unfold len_utf8; case_decide; naive_solver lia|].
  case_bool_decide; simpl; [unfold len_utf8; case_decide; lia|]. lia.
Defined.

Lemma measure_bytes (f : text → TextSize) `{!TextMeasure f} t :
  byte_len t ≤ bytes (measure (char_size (size_of:=f)) t) ∨ U64_MAX = bytes (measure (char_size (size_of:=f)) t).
Proof.
  induction t as [|c t IH] using rev_ind; [left; done|].
  rewrite measure_app, byte_len_app. pose proof (char_bytes (size_of:=f) c).
  change (measure (char_size (size_of:=f)) [c]) with (size_add default_size (char_size (size_of:=f) c)).
  destruct (measure_bounded (char_size (size_of:=f)) t). simpl. word.
Qed.

(** ** Excerpts *)
Section excerpt.
Context (size_of : text → TextSize) `{!TextMeasure size_of}.
Abbreviation csize := (char_size (size_of:=size_of)).

Lemma next_char_Some from_head mid c mid' :
  next_char from_head mid = Some (c, mid') →
  mid = if from_head then c :: mid' else mid' ++ [c].
Proof.
  unfold next_char. destruct from_head; [destruct mid; by intros [= -> ->]|].
  destruct (last mid) as [x|] eqn:Hl; [|done]. intros [= -> <-].
  apply last_Some in Hl as [l ->]. by rewrite removelast_last.
Qed.

Lemma size_of_char c : size_of [c] = measure csize [c].
Proof.
  apply measure_spec. simpl. pose proof (len_utf8_bounds c). unfold U64_MAX. lia.
Qed.

(** The ends grow in turn while they fit; [base] is the frame and the marker. *)
Lemma take_ends_spec fits base : ∀ fuel (mid : text) (from_head : bool) (head tail h t : text),
  (length mid ≤ fuel)%nat →
  let sized (h t : text) := size_add base (measure csize (h ++ t)) in
  length head = (length tail + if from_head then 0 else 1)%nat →
  fits (sized head tail) = true →
  take_ends fuel fits size_of mid from_head (sized head tail) head tail = (h, t) →
  ∃ mid', head ++ mid ++ tail = h ++ mid' ++ t ∧ fits (sized h t) = true ∧
    (length t ≤ length h ≤ length t + 1)%nat.
Proof.
  intros fuel. cbv zeta. induction fuel as [|fuel IH]; intros mid from_head head tail h t Hfuel Hbal Hfit; cbn [take_ends].
  { intros [= <- <-]. exists mid. split; [done|]. split; [done|]. destruct from_head; lia. }
  destruct (next_char from_head mid) as [[c mid']|] eqn:Hn.
  2: { intros [= <- <-]. exists mid. split; [done|]. split; [done|]. destruct from_head; lia. }
  apply next_char_Some in Hn. rewrite size_of_char, size_add_assoc, <-measure_app.
  destruct (fits (size_add base (measure csize ((head ++ tail) ++ [c])))) eqn:Hf.
  2: { intros [= <- <-]. exists mid. split; [done|]. split; [done|]. destruct from_head; lia. }
  destruct from_head; subst mid.
  - intros Ht. replace (measure csize ((head ++ tail) ++ [c])) with
      (measure csize ((head ++ [c]) ++ tail)) in Hf, Ht
      by (rewrite !measure_app, !size_add_assoc; f_equal; apply size_add_comm).
    apply IH in Ht as (mid & Heq & Hrest);
      [|simpl in Hfuel; lia|rewrite length_app; simpl; lia|done].
    exists mid. split; [|done]. by rewrite <-Heq, <-app_assoc.
  - intros Ht. replace (measure csize ((head ++ tail) ++ [c])) with
      (measure csize (head ++ c :: tail)) in Hf, Ht.
    2: { change (c :: tail) with ([c] ++ tail). rewrite !measure_app, !size_add_assoc. f_equal. apply size_add_comm. }
    rewrite length_app in Hfuel. simpl in Hfuel.
    apply IH in Ht as (mid & Heq & Hrest); [|lia|simpl; lia|done].
    exists mid. split; [|done]. by rewrite <-Heq, <-!app_assoc.
Qed.
End excerpt.

(** an excerpt keeps its budget and both ends. A result that fits is given
    unchanged; otherwise the excerpt is a beginning of the result, the marker
    with the reference, and an end of it, of nearly equal numbers of characters
    and with something left out; either way its size in its frame is within both
    limits. It is refused only when the marker alone does not fit. *)
Theorem excerpt_keeps_both_ends (size_of : text → TextSize) (M : TextMeasure size_of)
    (t reference : text) (max_tokens max_bytes : N) (frame : TextSize) :
  bounded frame → byte_len t + byte_len (excerpt_marker reference) ≤ U64_MAX →
  match excerpt_in_budget t reference max_tokens max_bytes frame size_of with
  | Ok r =>
      fits_in max_tokens max_bytes (size_add frame (size_of r)) = true ∧
      (r = t ∨ ∃ head mid tail, t = head ++ mid ++ tail ∧ mid ≠ [] ∧
         r = head ++ excerpt_marker reference ++ tail ∧
         (length tail ≤ length head ≤ length tail + 1)%nat)
  | Err _ => fits_in max_tokens max_bytes (size_add frame (size_of (excerpt_marker reference))) = false
  end.
Proof.
  intros Hframe Hlen. unfold excerpt_in_budget.
  destruct (bool_decide (byte_len t ≤ max_bytes) && _) eqn:Hall.
  { apply andb_true_iff in Hall as [_ ?]. split; [done|by left]. }
  set (marker := excerpt_marker reference) in *.
  destruct (fits_in _ _ (size_add frame (size_of marker))) eqn:Hm; cbn [ensure mbind result_bind]; [|done].
  destruct (take_ends _ _ _ _ _ _ _ _) as [h tl] eqn:Ht.
  set (base := size_add frame (size_of marker)) in *.
  assert (bounded base) as Hbase by apply size_add_bounded.
  rewrite <-(size_add_default base Hbase) in Ht at 1. change default_size with (measure (char_size (size_of:=size_of)) ([] ++ [])) in Ht.
  apply take_ends_spec in Ht as (mid & Heq & Hfit & Hbal); [|done|done|].
  2: { simpl. rewrite size_add_default by done. done. }
  rewrite app_nil_r in Heq. simpl in Heq.
  assert (byte_len (h ++ marker ++ tl) ≤ U64_MAX) as Hbl.
  { rewrite Heq, !byte_len_app in Hlen. rewrite !byte_len_app. lia. }
  assert (size_add frame (size_of (h ++ marker ++ tl)) = size_add base (measure (char_size (size_of:=size_of)) (h ++ tl))) as Hsize.
  { unfold base. rewrite (measure_spec (size_of:=size_of) (h ++ marker ++ tl)), (measure_spec (size_of:=size_of) marker) by lia.
    rewrite !measure_app, !size_add_assoc. f_equal. rewrite <-!size_add_assoc. f_equal. apply size_add_comm. }
  rewrite Hsize. split; [done|]. right. exists h, mid, tl. split; [done|]. split; [|done].
  intros ->. simpl in Heq. rewrite <-Heq in Hfit. apply andb_false_iff in Hall.
  assert (byte_len t ≤ U64_MAX) as Ht by lia.
  assert (fits_in max_tokens max_bytes (size_add frame (size_of t)) = true) as Hft.
  { rewrite (measure_spec (size_of:=size_of) t Ht). eapply fits_in_mono; [| |exact Hfit]; unfold base; simpl; word. }
  destruct Hall as [Hb|Hb]; [|congruence]. apply bool_decide_eq_false in Hb. apply Hb.
  unfold fits_in in Hft. apply andb_true_iff in Hft as [Hb'%bool_decide_eq_true _].
  rewrite (measure_spec (size_of:=size_of) t Ht) in Hb'. pose proof (measure_bytes size_of t) as Hm'.
  simpl in Hb'. word.
Qed.

(** ** Byte offsets *)

Lemma suffix_at_app a b : suffix_at (byte_len a) (a ++ b) = Some b.
Proof.
  induction a as [|c a IH]; [by destruct b|]. simpl. pose proof (len_utf8_bounds c).
  rewrite decide_False, decide_True by lia. by replace (len_utf8 c + byte_len a - len_utf8 c) with (byte_len a) by lia.
Qed.
Lemma suffix_at_Some n t b : suffix_at n t = Some b → ∃ a, t = a ++ b ∧ byte_len a = n.
Proof.
  revert n; induction t as [|c t IH]; intros n; simpl; case_decide as Hn.
  - intros [= <-]. by exists [].
  - done.
  - intros [= <-]. by exists [].
  - case_decide as Hc; [|done]. intros (a & -> & Ha)%IH. exists (c :: a). split; [done|]. simpl. lia.
Qed.
Lemma prefix_at_app p q : prefix_at (byte_len p) (p ++ q) = Some p.
Proof.
  induction p as [|c p IH]; [by destruct q|]. simpl. pose proof (len_utf8_bounds c).
  rewrite decide_False, decide_True by lia.
  replace (len_utf8 c + byte_len p - len_utf8 c) with (byte_len p) by lia. by rewrite IH.
Qed.

(** The page of [p] between [a] and [q]. *)
Definition page_between (version a p q : text) : ResultPage :=
  {| page_text := p;
     next := if decide (q = []) then None
             else Some {| cursor_version := version; offset := byte_len (a ++ p) |};
     eof := bool_decide (q = []) |}.
Lemma make_page_between version a p q :
  make_page (a ++ p ++ q) version (p ++ q) (byte_len a) (byte_len (a ++ p)) = Ok (page_between version a p q).
Proof.
  unfold make_page, page_between. rewrite !byte_len_app.
  replace (byte_len a + byte_len p - byte_len a) with (byte_len p) by lia.
  rewrite prefix_at_app. simpl. pose proof (byte_len_nil q) as Hq.
  destruct (decide (q = [])) as [->|Hne].
  - simpl. rewrite decide_False, !bool_decide_true by (done || lia). done.
  - assert (byte_len q ≠ 0) by tauto. rewrite decide_True, !bool_decide_false by (done || lia). done.
Qed.

(** ** Pages *)
Class PageJsonLaws (J : PageJson) := {
  page_total p : ∃ s, page_size p = Ok s;
  page_text_size t n e s :
    page_size {| page_text := []; next := n; eof := e |} = Ok s →
    page_size {| page_text := t; next := n; eof := e |} = Ok (size_add s (json_string_content_size t));
  page_offset_size v o s :
    0 < o → o ≤ U64_MAX → page_size (empty_page v 0) = Ok s →
    page_size (empty_page v o) = Ok (size_add s (digit_extra o));
}.

Section page_proofs.
Context `{Laws : PageJsonLaws}.
Implicit Types (t version a p q rest : text).

(** The size the scan computes for a page of [p] that ends at [e]. *)
Definition scanned (framing : TextSize) p (e : N) : TextSize :=
  size_add (size_add framing (json_string_content_size p)) (digit_extra e).

Lemma content_snoc p c :
  size_add (json_string_content_size p) (json_string_content_size [c]) = json_string_content_size (p ++ [c]).
Proof. symmetry. apply (measure_app json_char_size). Qed.

Lemma scan_page_spec fits framing start total rest : ∀ p0,
  let e0 := start + byte_len p0 in
  total = e0 + byte_len rest → rest ≠ [] → (p0 ≠ [] → fits (scanned framing p0 e0) = true) →
  match scan_page fits framing (json_string_content_size p0) total e0 rest
          (if decide (p0 = []) then None else Some e0) with
  | Some e => ∃ p q, p0 ++ rest = p ++ q ∧ p ≠ [] ∧ q ≠ [] ∧ e = start + byte_len p ∧
      fits (scanned framing p e) = true
  | None => p0 = [] ∧ ((length rest = 1)%nat ∨
      ∃ c r, rest = c :: r ∧ r ≠ [] ∧ fits (scanned framing [c] (start + len_utf8 c)) = false)
  end.
Proof.
  induction rest as [|c rest IH]; intros p0; cbv zeta; intros Htotal Hne Hfit; [done|].
  cbn [scan_page]. rewrite content_snoc.
  assert (start + byte_len p0 + len_utf8 c = start + byte_len (p0 ++ [c])) as Hend
    by (rewrite byte_len_app; simpl; lia).
  assert (match (if decide (p0 = []) then None else Some (start + byte_len p0)) with
    | Some e => ∃ p q, p0 ++ c :: rest = p ++ q ∧ p ≠ [] ∧ q ≠ [] ∧ e = start + byte_len p ∧
        fits (scanned framing p e) = true
    | None => p0 = []
    end) as Hbest.
  { destruct (decide (p0 = [])); [done|]. exists p0, (c :: rest). split; [done|]. split; [done|]. split; [done|]. auto. }
  change (byte_len (c :: rest)) with (len_utf8 c + byte_len rest) in Htotal.
  destruct (decide (start + byte_len p0 + len_utf8 c = total)) as [Hlast|Hlast].
  - assert (rest = []) as -> by (apply byte_len_nil; lia).
    destruct (decide (p0 = [])); [|done]. split; [done|by left].
  - assert (rest ≠ []) as Hrest by (intros ->; simpl in Htotal; lia).
    rewrite Hend. fold (scanned framing (p0 ++ [c]) (start + byte_len (p0 ++ [c]))).
    destruct (fits (scanned framing (p0 ++ [c]) _)) eqn:Hf.
    + specialize (IH (p0 ++ [c])). cbv zeta in IH.
      rewrite decide_False in IH by (by destruct p0). rewrite <-app_assoc in IH.
      specialize (IH ltac:(lia) Hrest (λ _, Hf)).
      destruct (scan_page _ _ _ _ _ _ _); [done|]. destruct IH as [He _]. by destruct p0.
    + destruct (decide (p0 = [])) as [->|]; [|done]. split; [done|right].
      exists c, rest. split; [done|]. split; [done|]. rewrite <-Hend, N.add_0_r in Hf. exact Hf.
Qed.

(** a page is an exact piece of the result and keeps its budget. Whatever
    page is given, the cursor named this version of the result and a character
    boundary; the page's text is what follows there, it is the last page exactly
    when nothing follows it, otherwise it is not empty and its cursor points
    behind it; and its serialization is within both limits. *)
Theorem page_within_budget t version (cursor : option ResultCursor) (max_tokens max_bytes : N)
    (page : ResultPage) :
  byte_len t ≤ U64_MAX →
  result_page_in_budget t version cursor max_tokens max_bytes = Ok page →
  ∃ a q, t = a ++ page_text page ++ q ∧
    match cursor with
    | Some c => cursor_version c = version ∧ offset c = byte_len a
    | None => a = []
    end ∧
    page = page_between version a (page_text page) q ∧ (q ≠ [] → page_text page ≠ []) ∧
    ∃ s, page_size page = Ok s ∧ fits_in max_tokens max_bytes s = true.
Proof.
  intros Ht H. unfold result_page_in_budget in H.
  apply bind_Ok in H as (start & Hstart & H). apply bind_Ok in H as (rest & Hrest & H).
  apply ok_or_Ok, suffix_at_Some in Hrest as (a & -> & <-).
  assert (match cursor with
    | Some c => cursor_version c = version ∧ offset c = byte_len a | None => a = [] end) as Hcursor.
  { unfold start_of in Hstart. destruct cursor as [c|]; simplify_result; [done|].
    symmetry in Hstart. by apply byte_len_nil. }
  apply bind_Ok in H as (whole & Hwhole & H). destruct whole.
  - rewrite byte_len_app in H. pose proof (make_page_between version a rest []) as Hm.
    rewrite !app_nil_r, byte_len_app in Hm. rewrite Hm in H. injection H as <-.
    exists a, []. rewrite app_nil_r. split; [done|]. split; [done|]. split; [done|]. split; [done|].
    destruct (decide _); [|done]. apply bind_Ok in Hwhole as (s & Hs & [= Hfit]).
    eexists. split; [by apply page_text_size|done].
  - apply bind_Ok in H as (framing & Hframing & H). apply bind_Ok in H as (best & Hbest & H).
    apply ok_or_Ok in Hbest. apply bind_Ok in H as (page' & Hpage & H). simplify_result.
    destruct (decide (rest = [])) as [->|Hne]; [done|].
    pose proof (scan_page_spec (fits_in max_tokens max_bytes) framing (byte_len a) (byte_len (a ++ rest)) rest [])
      as Hscan. cbv zeta in Hscan. rewrite decide_True in Hscan by done.
    rewrite N.add_0_r in Hscan. change (json_string_content_size []) with default_size in Hscan.
    rewrite Hbest in Hscan. destruct Hscan as (p & q & Heq & Hp & Hq & -> & Hfit);
      [by rewrite byte_len_app|done|done|].
    simpl in Heq. subst rest. rewrite <-byte_len_app, make_page_between in Hpage. injection Hpage as <-.
    exists a, q. split; [done|]. split; [done|]. split; [done|]. split; [done|].
    unfold page_between. rewrite decide_False, bool_decide_false by done. cbn [page_text].
    assert (0 < byte_len (a ++ p)) as Hpos.
    { pose proof (byte_len_nil p). rewrite byte_len_app. assert (byte_len p ≠ 0) by tauto. lia. }
    eexists. split.
    + apply page_text_size, (page_offset_size version (byte_len (a ++ p))); [done| |exact Hframing].
      rewrite !byte_len_app in *. lia.
    + unfold scanned in Hfit. rewrite <-byte_len_app in Hfit. rewrite size_add_assoc in Hfit |- *.
      by rewrite (size_add_comm (digit_extra _)).
Qed.

(** *** Following the cursors *)
Lemma ilog10_mono m n : m ≤ n → ilog10 m ≤ ilog10 n.
Proof.
  intros Hmn. unfold ilog10. generalize (seq 1 19) as l.
  induction l as [|k l IH]; [done|]. rewrite !filter_cons. repeat case_decide; simpl; lia.
Qed.

(** The budget has room for the framing with any one character. *)
Definition roomy t version (max_tokens max_bytes : N) : Prop :=
  ∃ last_frame frame,
    page_size empty_last_page = Ok last_frame ∧ page_size (empty_page version 0) = Ok frame ∧
    fits_in max_tokens max_bytes (size_add last_frame default_size) = true ∧
    ∀ c, c ∈ t →
      fits_in max_tokens max_bytes (size_add last_frame (json_string_content_size [c])) = true ∧
      fits_in max_tokens max_bytes (scanned frame [c] (byte_len t)) = true.

Definition points_at version (cursor : option ResultCursor) a : Prop :=
  match cursor with
  | Some c => cursor_version c = version ∧ offset c = byte_len a
  | None => a = []
  end.

Lemma start_of_points version cursor a : points_at version cursor a → start_of version cursor = Ok (byte_len a).
Proof.
  unfold points_at, start_of. destruct cursor as [c|]; [|by intros ->].
  intros [Hv ->]. by rewrite bool_decide_true by done.
Qed.

Lemma char_fits_bytes k n s c :
  fits_in k n (size_add s (json_string_content_size [c])) = true → len_utf8 c ≤ U64_MAX → len_utf8 c ≤ n.
Proof.
  unfold fits_in. intros [Hb%bool_decide_eq_true _]%andb_true_iff Hc.
  pose proof (char_bytes (size_of:=json_string_content_size) c) as Hle. simpl in Hb, Hle. word.
Qed.

(** With two characters ahead the scan takes at least the first. *)
Lemma scan_takes k n frame a rest :
  rest ≠ [] → length rest ≠ 1%nat →
  (∀ c, c ∈ rest → fits_in k n (scanned frame [c] (byte_len (a ++ rest))) = true) →
  ∃ p q, rest = p ++ q ∧ p ≠ [] ∧
    scan_page (fits_in k n) frame default_size (byte_len (a ++ rest)) (byte_len a) rest None =
      Some (byte_len (a ++ p)).
Proof.
  intros Hne Hlen Hroom.
  pose proof (scan_page_spec (fits_in k n) frame (byte_len a) (byte_len (a ++ rest)) rest []) as Hscan.
  cbv zeta in Hscan. rewrite decide_True, N.add_0_r in Hscan by done.
  change (json_string_content_size []) with default_size in Hscan.
  specialize (Hscan ltac:(by rewrite byte_len_app) Hne ltac:(done)).
  destruct (scan_page _ _ _ _ _ _ _) as [best|].
  - destruct Hscan as (p & q & Heq & Hp & _ & -> & _). exists p, q. by rewrite byte_len_app.
  - destruct Hscan as (_ & [?|(c & r & -> & _ & Hf)]); [done|exfalso].
    specialize (Hroom c (list_elem_of_here _ _)).
    enough (fits_in k n (scanned frame [c] (byte_len a + len_utf8 c)) = true) by congruence.
    pose proof (ilog10_mono (byte_len a + len_utf8 c) (byte_len (a ++ c :: r))) as Hmono.
    rewrite byte_len_app in Hmono at 1. simpl in Hmono. specialize (Hmono ltac:(lia)).
    eapply fits_in_mono; [| |exact Hroom]; unfold scanned, digit_extra; simpl; unfold saturating_add; lia.
Qed.

Lemma page_exists t version cursor (max_tokens max_bytes : N) a rest :
  roomy t version max_tokens max_bytes → t = a ++ rest → points_at version cursor a →
  ∃ page, result_page_in_budget t version cursor max_tokens max_bytes = Ok page.
Proof.
  intros (last_frame & frame & Hlast & Hframe & Hempty & Hroom) -> Hcursor.
  unfold result_page_in_budget. rewrite (start_of_points _ _ _ Hcursor). cbn [mbind result_bind].
  rewrite suffix_at_app, Hlast, Hframe. cbn [ok_or mbind result_bind].
  pose proof (make_page_between version a rest []) as Hwhole. rewrite !app_nil_r in Hwhole.
  set (whole := fits_in max_tokens max_bytes (size_add last_frame (json_string_content_size rest))).
  assert ((byte_len (a ++ rest) - byte_len a ≤ max_bytes ∧ whole = true) ∨
          (rest ≠ [] ∧ length rest ≠ 1%nat)) as Hcases.
  { rewrite byte_len_app. replace (byte_len a + byte_len rest - byte_len a) with (byte_len rest) by lia.
    destruct rest as [|c [|d rest]]; [left; split; [simpl; lia|exact Hempty]| |by right].
    left. destruct (Hroom c) as [Hc _]; [apply elem_of_app; right; left|]. split; [|exact Hc].
    apply char_fits_bytes in Hc; pose proof (len_utf8_bounds c); simpl; unfold U64_MAX; lia. }
  assert (∀ b : bool, b = true ∨ (rest ≠ [] ∧ length rest ≠ 1%nat) → ∃ page,
    (if b then make_page (a ++ rest) version rest (byte_len a) (byte_len (a ++ rest))
     else
      best ← ok_or (scan_page (fits_in max_tokens max_bytes) frame default_size (byte_len (a ++ rest))
                      (byte_len a) rest None) (Bail "result page framing does not fit");
      page ← make_page (a ++ rest) version rest (byte_len a) best;
      ensure (eof page || negb (bool_decide (page_text page = [])))
        (Bail "result page cannot make progress within budget");;
      Ok page) = Ok page) as Hfinal.
  { intros [|] Hb; [rewrite Hwhole; by eexists|]. destruct Hb as [?|[Hne Hlen]]; [done|].
    destruct (scan_takes max_tokens max_bytes frame a rest Hne Hlen) as (p & q & -> & Hp & ->).
    { intros c Hc. apply Hroom, elem_of_app. by right. }
    cbn [ok_or mbind result_bind]. rewrite make_page_between. cbn [mbind result_bind].
    unfold page_between. cbn [eof page_text]. rewrite (bool_decide_false (p = [])) by done.
    rewrite orb_true_r. by eexists. }
  destruct (decide _) as [Hb|Hb]; cbn [mbind result_bind];
    [apply Hfinal|apply (Hfinal false); right; tauto].
  destruct Hcases as [[_ ?]|?]; [by left|by right].
Qed.

(** the pages of a result are the result. With a budget that has room for
    the framing and any one of its characters, a reader that follows the cursors
    gets a page every time, reaches the last one, and has then read exactly the
    result, each page within both limits. *)
Theorem pages_reconstruct t version (max_tokens max_bytes : N) :
  byte_len t ≤ U64_MAX → roomy t version max_tokens max_bytes →
  ∃ pages, read_pages (S (length t)) t version None max_tokens max_bytes = Some (Ok pages) ∧
    concat (page_text <$> pages) = t ∧
    Forall (λ page, ∃ s, page_size page = Ok s ∧ fits_in max_tokens max_bytes s = true) pages.
Proof.
  intros Ht Hroomy.
  cut (∀ fuel a rest cursor, t = a ++ rest → points_at version cursor a → (length rest < fuel)%nat →
    ∃ pages, read_pages fuel t version cursor max_tokens max_bytes = Some (Ok pages) ∧
      concat (page_text <$> pages) = rest ∧
      Forall (λ page, ∃ s, page_size page = Ok s ∧ fits_in max_tokens max_bytes s = true) pages).
  { intros Hcut. apply (Hcut _ [] t None); [done|done|lia]. }
  induction fuel as [|fuel IH]; intros a rest cursor Heq Hcursor Hfuel; [lia|]. cbn [read_pages].
  destruct (page_exists t version cursor max_tokens max_bytes a rest Hroomy Heq Hcursor) as [page Hpage].
  rewrite Hpage.
  destruct (page_within_budget t version cursor max_tokens max_bytes page Ht Hpage)
    as (a' & q & Heq' & Hcursor' & Hbetween & Hprogress & Hfit).
  assert (byte_len a' = byte_len a) as Hlen.
  { pose proof (start_of_points _ _ _ Hcursor) as H1. pose proof (start_of_points _ cursor a' Hcursor'). congruence. }
  assert (rest = page_text page ++ q) as Hrest.
  { pose proof (suffix_at_app a rest) as H1. pose proof (suffix_at_app a' (page_text page ++ q)) as H2.
    rewrite <-Heq in H1. rewrite <-Heq', Hlen in H2. congruence. }
  assert (a' = a) as -> by (rewrite Heq, Hrest in Heq'; by apply app_inv_tail in Heq').
  assert (next page = next (page_between version a (page_text page) q)) as Hnext by (by rewrite <-Hbetween).
  rewrite Hnext. cbn [page_between next]. destruct (decide (q = [])) as [->|Hq].
  - exists [page]. split; [done|]. split; [|by repeat constructor]. simpl. by rewrite Hrest, !app_nil_r.
  - assert (0 < length (page_text page))%nat as Hpos.
    { specialize (Hprogress Hq). destruct (page_text page); [done|simpl; lia]. }
    destruct (IH (a ++ page_text page) q
      (Some {| cursor_version := version; offset := byte_len (a ++ page_text page) |}))
      as (pages & -> & Hconcat & Hall).
    + by rewrite <-app_assoc.
    + done.
    + rewrite Hrest, length_app in Hfuel. lia.
    + exists (page :: pages). split; [done|]. split; [|by constructor].
      rewrite fmap_cons. cbn [concat]. by rewrite Hconcat, Hrest.
Qed.
End page_proofs.

(** ** A concrete serializer

    The frames of the two shapes of a page and the digits of the offset. *)
Module SampleJson.
Definition frame_of (n : option ResultCursor) : TextSize :=
  match n with
  | None => {| utf16 := 34; bytes := 34 |}
  | Some c => size_add (size_add {| utf16 := 56; bytes := 56 |} (json_string_content_size (cursor_version c)))
                (if decide (offset c = 0) then default_size else digit_extra (offset c))
  end.
#[export] Instance json : PageJson := λ p,
  Ok (size_add (frame_of (next p)) (json_string_content_size (page_text p))).
#[export] Instance laws : PageJsonLaws json.
Proof.
  split.
  - intros p. by eexists.
  - intros t n e s [= <-]. unfold page_size, json. simpl. f_equal. f_equal.
    change (json_string_content_size []) with default_size. symmetry. apply size_add_default.
    destruct n; simpl; [apply size_add_bounded|]. by split.
  - intros v o s Hpos _ [= <-]. unfold page_size, json, empty_page. simpl.
    rewrite (decide_False (P:=o = 0)) by lia. f_equal.
    change (json_string_content_size []) with default_size.
    rewrite !(size_add_default (size_add _ _)) by apply size_add_bounded. done.
Qed.
End SampleJson.
Import SampleJson.

Definition sample_result : text := lit "The tool printed a rather long result, and then it printed some more".
Definition sample_pages : option (result failure (list ResultPage)) :=
  read_pages 69 sample_result (lit "v1") None 100 80.
Example sample_pages_texts :
  match sample_pages with Some (Ok pages) => page_text <$> pages | _ => [] end =
  [lit "The tool printed a ra"; lit "ther long result, and"; lit " then it printed some more"].
Proof. by vm_compute. Qed.

Lemma page_within_budget_witness :
  match result_page_in_budget sample_result (lit "v1") None 100 80 with
  | Ok page => ∃ s, page_size page = Ok s ∧ fits_in 100 80 s = true
  | Err _ => False
  end.
Proof.
  destruct (result_page_in_budget sample_result (lit "v1") None 100 80) as [page|e] eqn:Hp;
    [|vm_compute in Hp; discriminate].
  assert (byte_len sample_result ≤ U64_MAX) as Hlen by (vm_compute; discriminate).
  destruct (page_within_budget sample_result (lit "v1") None 100 80 page Hlen Hp) as (a & q & _ & _ & _ & _ & H).
  exact H.
Defined.

Lemma pages_reconstruct_witness :
  ∃ pages, read_pages 69 sample_result (lit "v1") None 100 80 = Some (Ok pages) ∧
    concat (page_text <$> pages) = sample_result.
Proof.
  destruct (pages_reconstruct sample_result (lit "v1") 100 80) as (pages & Hread & Hconcat & _).
  - vm_compute. discriminate.
  - eexists _, _. split; [reflexivity|]. split; [reflexivity|]. split; [reflexivity|].
    apply Forall_forall. apply (bool_decide_unpack _). vm_compute. exact I.
  - exists pages. split; [exact Hread|exact Hconcat].
Defined.

Definition sample_excerpt : result failure text :=
  excerpt_in_budget (sample_result ++ sample_result) (lit "r") 30 100 default_size json_string_content_size.
Example sample_excerpt_text :
  sample_excerpt = Ok (lit "The tool printe" ++ excerpt_marker (lit "r") ++ lit "inted some more").
Proof. by vm_compute. Qed.
Lemma excerpt_keeps_both_ends_witness :
  match sample_excerpt with
  | Ok r => fits_in 30 100 (size_add default_size (json_string_content_size r)) = true
  | Err _ => False
  end.
Proof.
  pose proof (excerpt_keeps_both_ends json_string_content_size json_measure (sample_result ++ sample_result)
    (lit "r") 30 100 default_size) as H.
  unfold sample_excerpt.
  destruct (excerpt_in_budget _ _ _ _ _ _) as [r|e] eqn:Hr.
  - destruct H as [H _]; [by split|vm_compute; discriminate|exact H].
  - vm_compute in Hr. discriminate Hr.
Defined.
