(* ===== verification/CompactionSummary.v ===== *)
(** * Acceptance of a summary

    Models [crates/compaction/src/summary.rs]: what a summarizer's answer must
    look like before the runner takes it ([validate_summary_classified]), as a
    fold over its lines, and the declarative structure it decides. *)
From S2P Require Import Prelude CompactionBudget.
Import Estimator.

Definition HEADINGS : list text :=
  [lit "## Goal and constraints"; lit "## Decisions and rationale"; lit "## Completed work and results";
   lit "## Failed attempts and unknowns"; lit "## Current work and next step"; lit "## Source references"].

Inductive CompletionKind := Complete | Limit | Refused | Interrupted | ToolCall | Unknown.
#[export] Instance CompletionKind_eq_dec : EqDecision CompletionKind.
Proof. solve_decision. Defined.
Record SummaryCompletion := {
  completion_text : text; kind : CompletionKind;
  completion_input_tokens : option N; completion_output_tokens : option N;
}.
Inductive SummaryValidationError :=
  | IncompleteResponse | EmptyText | OutputCapExceeded | InvalidSections | EmptySection | IncompleteMarkdown.
#[export] Instance SummaryValidationError_eq_dec : EqDecision SummaryValidationError.
Proof. solve_decision. Defined.
Definition explanation (e : SummaryValidationError) : string :=
  match e with
  | IncompleteResponse => "Summary response did not complete"
  | EmptyText => "Summary text is empty"
  | OutputCapExceeded => "Summary exceeds the estimated output cap"
  | InvalidSections => "Summary sections are missing, duplicated or out of order"
  | EmptySection => "Summary section is empty"
  | IncompleteMarkdown => "Summary Markdown fence is not closed"
  end.

(** ** Text *)

(** [replace("\r\n", "\n")], [strip_suffix] and [lines]. *)
Fixpoint replace_crlf (s : text) : text :=
  match s with
  | [] => []
  | c :: r =>
      match r with
      | d :: r' => if bool_decide (c = 13%N ∧ d = 10%N) then 10%N :: replace_crlf r' else c :: replace_crlf r
      | [] => [c]
      end
  end.
Definition strip_suffix (p s : text) : option text := reverse <$> strip_prefix (reverse p) (reverse s).
Fixpoint lines_from (line s : text) : list text :=
  match s with
  | [] => if decide (line = []) then [] else [line]
  | c :: s =>
      if decide (c = 10%N) then default line (strip_suffix [13%N] line) :: lines_from [] s
      else lines_from (line ++ [c]) s
  end.
Definition lines (s : text) : list text := lines_from [] s.

(** An answer wrapped in one Markdown fence is taken out of it. *)
Definition wrappers : list text := [lit "```markdown" ++ [10%N]; lit "```md" ++ [10%N]; lit "```" ++ [10%N]].
Fixpoint unwrap (prefixes : list text) (s : text) : text :=
  match prefixes with
  | [] => s
  | p :: prefixes =>
      match strip_prefix p s ≫= strip_suffix (10%N :: lit "```") with
      | Some inner => trim inner
      | None => unwrap prefixes s
      end
  end.
Definition summary_text (t : text) : text := unwrap wrappers (trim (replace_crlf t)).

(** ** The lines *)

(** The number of leading markers, and a fence line: its marker, its width and
    whether nothing follows. *)
Fixpoint leading (c : N) (line : text) : nat :=
  match line with
  | d :: line => if decide (d = c) then S (leading c line) else 0
  | [] => 0
  end.
Definition fence_line (line : text) : option (N * nat * bool) :=
  match line with
  | c :: _ =>
      if bool_decide (c = 96%N ∨ c = 126%N) && bool_decide (3 ≤ leading c line)
      then Some (c, leading c line, bool_decide (trim (drop (leading c line) line) = []))
      else None
  | [] => None
  end.
Abbreviation fence := (option (N * nat)).
Definition toggle (f : fence) (mark : N * nat * bool) : fence :=
  let '(marker, width, bare) := mark in
  match f with
  | None => Some (marker, width)
  | Some (open, count) =>
      if bool_decide (open = marker) && bool_decide (count ≤ width) && bare then None else f
  end.
Definition is_heading (line : text) : bool := bool_decide (line ∈ HEADINGS).

Record SummaryScan := { section : nat; has_body : bool; open_fence : fence }.
Definition scan_line (st : SummaryScan) (line : text) : result SummaryValidationError SummaryScan :=
  match fence_line line with
  | Some mark =>
      Ok {| section := section st; has_body := has_body st || bool_decide (0 < section st);
            open_fence := toggle (open_fence st) mark |}
  | None =>
      if bool_decide (open_fence st = None) && is_heading line then
        ensure (bool_decide (HEADINGS !! section st = Some line)) InvalidSections;;
        ensure (bool_decide (section st = 0) || has_body st) EmptySection;;
        Ok {| section := section st + 1; has_body := false; open_fence := open_fence st |}
      else if negb (bool_decide (line = [])) then
        ensure (negb (bool_decide (section st = 0))) InvalidSections;;
        Ok {| section := section st; has_body := true; open_fence := open_fence st |}
      else Ok st
  end.

Definition summary_line (st : SummaryScan) (line : text) : result SummaryValidationError SummaryScan :=
  scan_line st (trim line).

Definition validate_summary_classified (r : SummaryCompletion) (cap : N) : result SummaryValidationError text :=
  ensure (bool_decide (kind r = Complete)) IncompleteResponse;;
  let t := summary_text (completion_text r) in
  ensure (negb (bool_decide (t = []))) EmptyText;;
  ensure (bool_decide (tokens_from_utf16 (utf16_units t) ≤ cap)%N) OutputCapExceeded;;
  st ← foldlM summary_line {| section := 0; has_body := false; open_fence := None |} (lines t);
  ensure (bool_decide (open_fence st = None)) IncompleteMarkdown;;
  ensure (bool_decide (section st = length HEADINGS)) InvalidSections;;
  ensure (has_body st) EmptySection;;
  Ok t.

(** ** The structure it decides *)

(** The fence after some lines, none of which is a heading outside a fence. *)
Fixpoint fences (f : fence) (ls : list text) : option fence :=
  match ls with
  | [] => Some f
  | line :: ls =>
      match fence_line line with
      | Some mark => fences (toggle f mark) ls
      | None => if bool_decide (f = None) && is_heading line then None else fences f ls
      end
  end.
Definition body_ok (body : list text) : Prop := fences None body = Some None ∧ ∃ line, line ∈ body ∧ line ≠ [].
Definition preamble_ok (pre : list text) : Prop :=
  fences None pre = Some None ∧ Forall (λ line, line = [] ∨ is_Some (fence_line line)) pre.
Fixpoint sections (headings : list text) (ls : list text) : Prop :=
  match headings with
  | [] => ls = []
  | h :: headings => ∃ body rest, ls = h :: body ++ rest ∧ body_ok body ∧ sections headings rest
  end.
Definition structured (ls : list text) : Prop :=
  ∃ pre rest, ls = pre ++ rest ∧ preamble_ok pre ∧ sections HEADINGS rest.

(** ** The fold decides it *)
Lemma fence_line_heading line mark : fence_line line = Some mark → is_heading line = false.
Proof.
  intros Hf. apply bool_decide_eq_false. intros Hin. unfold HEADINGS in Hin.
  repeat (apply elem_of_cons in Hin as [->|Hin]; [vm_compute in Hf; discriminate Hf|]).
  by apply elem_of_nil in Hin.
Qed.
Lemma fence_line_nonempty line mark : fence_line line = Some mark → line ≠ [].
Proof. by destruct line. Qed.
Lemma heading_at k line : HEADINGS !! k = Some line → is_heading line = true ∧ line ≠ [] ∧ fence_line line = None.
Proof.
  intros Hk. assert (is_heading line = true) as Hh by (apply bool_decide_eq_true; by eapply list_elem_of_lookup_2).
  split; [done|]. split.
  - intros ->. by vm_compute in Hh.
  - destruct (fence_line line) eqn:Hf; [|done]. apply fence_line_heading in Hf. congruence.
Qed.

Definition accepts (st : SummaryScan) (ls : list text) : Prop :=
  ∃ st', foldlM scan_line st ls = Ok st' ∧ open_fence st' = None ∧ section st' = length HEADINGS ∧ has_body st' = true.

Lemma accepts_cons st line ls :
  accepts st (line :: ls) ↔ ∃ st', scan_line st line = Ok st' ∧ accepts st' ls.
Proof. unfold accepts. cbn [foldlM]. destruct (scan_line st line); cbn [mbind result_bind]; naive_solver. Qed.

Section bodies.
Local Abbreviation inside k b f := {| section := k; has_body := b; open_fence := f |}.

(** The three readings of a line. *)
Lemma scan_fence k b f line mark :
  fence_line line = Some mark →
  scan_line (inside k b f) line = Ok (inside k (b || bool_decide (0 < k)) (toggle f mark)).
Proof. intros Hf. unfold scan_line. by rewrite Hf. Qed.
Lemma scan_heading k b line :
  fence_line line = None → is_heading line = true →
  (∃ st', scan_line (inside k b None) line = Ok st') →
  HEADINGS !! k = Some line ∧ (k = 0 ∨ b = true) ∧ scan_line (inside k b None) line = Ok (inside (k + 1) false None).
Proof.
  intros Hf Hh (st' & Hst). unfold scan_line in *. rewrite Hf, Hh in *. cbn [section has_body open_fence] in *.
  rewrite bool_decide_true in * by done. cbn [andb] in *.
  apply bind_Ok in Hst as ([] & H1%ensure_Ok & Hst). apply bind_Ok in Hst as ([] & H2%ensure_Ok & _).
  rewrite H1, H2. split; [by apply bool_decide_eq_true in H1|]. split; [|done].
  apply orb_true_iff in H2 as [H2%bool_decide_eq_true|]; auto.
Qed.
Lemma scan_heading_ok k b line :
  HEADINGS !! k = Some line → k = 0 ∨ b = true → scan_line (inside k b None) line = Ok (inside (k + 1) false None).
Proof.
  intros Hk Hb. destruct (heading_at k line Hk) as (Hh & _ & Hf). unfold scan_line. rewrite Hf, Hh.
  cbn [section has_body open_fence]. rewrite !(bool_decide_true (_ !! _ = _)), (bool_decide_true (None = None)) by done.
  cbn [andb ensure mbind result_bind]. destruct Hb as [-> | ->]; [done|by rewrite orb_true_r].
Qed.
Lemma scan_other k b f line :
  fence_line line = None → bool_decide (f = None) && is_heading line = false →
  scan_line (inside k b f) line =
    (if decide (line = []) then Ok (inside k b f)
     else if decide (k = 0) then Err InvalidSections else Ok (inside k true f)).
Proof.
  intros Hf Hh. unfold scan_line. rewrite Hf. cbn [section has_body open_fence]. rewrite Hh.
  destruct (decide (line = [])) as [->|Hne]; [by rewrite bool_decide_true|].
  rewrite (bool_decide_false (line = [])) by done. cbn [negb]. destruct (decide (k = 0)) as [->|Hk]; [done|].
  by rewrite (bool_decide_false (k = 0)) by done.
Qed.

(** Inside section [k] the rest of the lines is the rest of its body, which must
    not stay empty, and the remaining sections. *)
Definition reading k (b : bool) f (ls : list text) : Prop :=
  ∃ body rest, ls = body ++ rest ∧ fences f body = Some None ∧
    (b = true ∨ ∃ line, line ∈ body ∧ line ≠ []) ∧ k ≤ length HEADINGS ∧ sections (drop k HEADINGS) rest.

Lemma sections_heading k line rest :
  sections (drop k HEADINGS) (line :: rest) →
  HEADINGS !! k = Some line ∧ is_heading line = true ∧ fence_line line = None ∧
  ∃ body rest', rest = body ++ rest' ∧ body_ok body ∧ sections (drop (S k) HEADINGS) rest'.
Proof.
  destruct (drop k HEADINGS) as [|h hs] eqn:Hd; [by intros ?|].
  intros (body & rest' & [= <- ->] & Hbody & Hs).
  assert (HEADINGS !! k = Some line) as Hat by (rewrite <-(Nat.add_0_r k), <-lookup_drop, Hd; done).
  destruct (heading_at k line Hat) as (Hh & _ & Hf). rewrite (drop_S HEADINGS line k Hat) in Hd.
  assert (hs = drop (S k) HEADINGS) as -> by congruence.
  repeat split; try done. by exists body, rest'.
Qed.

(** A line that is no heading outside a fence belongs to the body. *)
Lemma reading_body k b f f' line ls :
  (∀ body, fences f (line :: body) = fences f' body) →
  (f = None → is_heading line = false) →
  reading k b f (line :: ls) ↔ reading k (b || negb (bool_decide (line = []))) f' ls.
Proof.
  intros Hf' Hh. split.
  - intros (body & rest & Heq & Hf & Hb & Hk & Hs). destruct body as [|line' body]; cbn [app] in Heq.
    + subst rest. injection Hf as ->. apply sections_heading in Hs as (_ & Hline & _). by rewrite Hh in Hline.
    + injection Heq as <- ->. rewrite Hf' in Hf. exists body, rest. do 2 (split; [done|]). split; [|done].
      rewrite orb_true_iff, negb_true_iff, bool_decide_eq_false.
      destruct Hb as [?|(d & [->|?]%elem_of_cons & ?)]; [by left; left|by left; right|right; by exists d].
  - intros (body & rest & -> & Hf & Hb & Hk & Hs). exists (line :: body), rest. rewrite Hf'.
    do 2 (split; [done|]). split; [|done]. rewrite orb_true_iff, negb_true_iff, bool_decide_eq_false in Hb.
    destruct Hb as [[?|?]|(d & ? & ?)]; [by left|right; exists line; split; [left|done]|right; exists d; split; [by right|done]].
Qed.

Lemma reading_heading k b line ls :
  fence_line line = None → is_heading line = true →
  reading k b None (line :: ls) ↔ HEADINGS !! k = Some line ∧ b = true ∧ reading (k + 1) false None ls.
Proof.
  intros Hfl Hh. unfold reading. rewrite Nat.add_1_r. split.
  - intros (body & rest & Heq & Hf & Hb & Hk & Hs). destruct body as [|line' body]; cbn [app] in Heq.
    2: { injection Heq as <- _. cbn [fences] in Hf. rewrite Hfl, Hh in Hf. discriminate Hf. }
    subst rest. apply sections_heading in Hs as (Hat & _ & _ & body & rest & -> & [Hbody Hline] & Hs).
    split; [done|]. split; [destruct Hb as [?|(? & ?%elem_of_nil & _)]; done|].
    exists body, rest. pose proof (lookup_lt_Some _ _ _ Hat). auto.
  - intros (Hat & -> & body & rest & -> & Hf & Hb & Hk & Hs). exists [], (line :: body ++ rest).
    do 2 (split; [done|]). split; [by left|]. split; [lia|]. rewrite (drop_S HEADINGS line k Hat). exists body, rest.
    split; [done|]. split; [|done]. split; [done|]. by destruct Hb.
Qed.

Lemma reading_nil k b f :
  reading k b f [] ↔ f = None ∧ k = length HEADINGS ∧ b = true.
Proof.
  split.
  - intros (body & rest & Heq & Hf & Hb & Hk & Hs). symmetry in Heq. apply app_eq_nil in Heq as [-> ->].
    injection Hf as ->. split; [done|]. split; [|destruct Hb as [?|(? & ?%elem_of_nil & _)]; done].
    destruct (drop k HEADINGS) as [|h hs] eqn:Hd; [|by destruct Hs as (? & ? & ? & _)].
    apply (f_equal length) in Hd. rewrite length_drop in Hd. cbn [length] in *. lia.
  - intros (-> & -> & ->). exists [], []. repeat split; by left.
Qed.

Lemma accepts_sections ls : ∀ k b f, 0 < k → accepts (inside k b f) ls ↔ reading k b f ls.
Proof.
  induction ls as [|line ls IH]; intros k b f Hk.
  - rewrite reading_nil. unfold accepts. cbn [foldlM]. split; [by intros (? & [= <-] & ?)|intros ?; by eexists].
  - rewrite accepts_cons. destruct (fence_line line) as [mark|] eqn:Hfl.
    + rewrite (scan_fence _ _ _ _ _ Hfl), (reading_body k b f (toggle f mark)); cycle 1.
      { intros body. cbn [fences]. by rewrite Hfl. } { by erewrite fence_line_heading. }
      rewrite (bool_decide_true (0 < k)), (bool_decide_false (line = [])) by (done || by eapply fence_line_nonempty).
      rewrite <-IH by done. naive_solver.
    + destruct (bool_decide (f = None) && is_heading line) eqn:Hhead.
      * apply andb_true_iff in Hhead as [->%bool_decide_eq_true Hh]. rewrite reading_heading, <-IH by (done || lia). split.
        -- intros (st' & Hst & Hacc). destruct (scan_heading k b line Hfl Hh (ex_intro _ _ Hst)) as (Hat & Hb & Hst').
           rewrite Hst' in Hst. injection Hst as <-. destruct Hb; [lia|done].
        -- intros (Hat & -> & Hacc). eexists. split; [apply scan_heading_ok; auto|done].
      * rewrite (scan_other _ _ _ _ Hfl Hhead), (reading_body k b f f); cycle 1.
        { intros body. cbn [fences]. by rewrite Hfl, Hhead. }
        { intros ->. by rewrite bool_decide_true in Hhead. }
        rewrite <-IH, (decide_False (P:=k = 0)) by lia. destruct (decide (line = [])) as [->|Hne].
        -- rewrite bool_decide_true, orb_false_r by done. naive_solver.
        -- rewrite bool_decide_false, orb_true_r by done. naive_solver.
Qed.

(** Before the first section there are blank lines and fences only. *)
Definition opening f (ls : list text) : Prop :=
  ∃ pre rest, ls = pre ++ rest ∧ fences f pre = Some None ∧
    Forall (λ line, line = [] ∨ is_Some (fence_line line)) pre ∧ sections HEADINGS rest.

Lemma opening_pre f f' line ls :
  (∀ pre, fences f (line :: pre) = fences f' pre) → (f = None → is_heading line = false) →
  line = [] ∨ is_Some (fence_line line) →
  opening f (line :: ls) ↔ opening f' ls.
Proof.
  intros Hf' Hh Hline. split.
  - intros (pre & rest & Heq & Hf & Hpre & Hs). destruct pre as [|line' pre]; cbn [app] in Heq.
    + subst rest. injection Hf as ->. apply (sections_heading 0) in Hs as (_ & Hl & _). by rewrite Hh in Hl.
    + injection Heq as <- ->. rewrite Hf' in Hf. apply Forall_cons in Hpre as [_ Hpre]. by exists pre, rest.
  - intros (pre & rest & -> & Hf & Hpre & Hs). exists (line :: pre), rest. rewrite Hf'.
    do 2 (split; [done|]). split; [by constructor|done].
Qed.
Lemma opening_heading line ls :
  fence_line line = None → is_heading line = true →
  opening None (line :: ls) ↔ HEADINGS !! 0 = Some line ∧ reading 1 false None ls.
Proof.
  intros Hfl Hh. split.
  - intros (pre & rest & Heq & Hf & _ & Hs). destruct pre as [|line' pre]; cbn [app] in Heq.
    2: { injection Heq as <- _. cbn [fences] in Hf. rewrite Hfl, Hh in Hf. discriminate Hf. }
    subst rest. apply (sections_heading 0) in Hs as (Hat & _ & _ & body & rest & -> & [Hbody Hline] & Hs).
    split; [done|]. exists body, rest. repeat split; auto. cbn. lia.
  - intros (Hat & body & rest & -> & Hf & Hb & Hk & Hs). exists [], (line :: body ++ rest).
    do 2 (split; [done|]). split; [constructor|]. change HEADINGS with (drop 0 HEADINGS).
    rewrite (drop_S HEADINGS line 0 Hat). exists body, rest. split; [done|]. split; [|done]. split; [done|]. by destruct Hb.
Qed.

Lemma accepts_opening ls : ∀ b f, accepts (inside 0 b f) ls ↔ opening f ls.
Proof.
  induction ls as [|line ls IH]; intros b f.
  - split; [by intros (? & [= <-] & _ & ? & _)|]. intros (pre & rest & Heq & _ & _ & Hs).
    symmetry in Heq. apply app_eq_nil in Heq as [-> ->]. by destruct Hs as (? & ? & ? & _).
  - rewrite accepts_cons. destruct (fence_line line) as [mark|] eqn:Hfl.
    + rewrite (scan_fence _ _ _ _ _ Hfl), (opening_pre f (toggle f mark)); cycle 1.
      { intros body. cbn [fences]. by rewrite Hfl. } { by erewrite fence_line_heading. } { rewrite Hfl. by right. }
      rewrite <-(IH (b || bool_decide (0 < 0))). naive_solver.
    + destruct (bool_decide (f = None) && is_heading line) eqn:Hhead.
      * apply andb_true_iff in Hhead as [->%bool_decide_eq_true Hh].
        rewrite opening_heading, <-accepts_sections by (done || lia). split.
        -- intros (st' & Hst & Hacc). destruct (scan_heading 0 b line Hfl Hh (ex_intro _ _ Hst)) as (Hat & _ & Hst').
           rewrite Hst' in Hst. by injection Hst as <-.
        -- intros (Hat & Hacc). eexists. split; [apply scan_heading_ok; auto|done].
      * rewrite (scan_other _ _ _ _ Hfl Hhead), (decide_True (P:=0 = 0)) by done. destruct (decide (line = [])) as [->|Hne].
        -- rewrite (opening_pre f f); [rewrite <-(IH b); naive_solver| | |by left].
           { intros body. cbn [fences]. by rewrite Hfl, Hhead. }
           { intros ->. by rewrite bool_decide_true in Hhead. }
        -- split; [by intros (? & ? & _)|]. intros (pre & rest & Heq & Hf & Hpre & Hs). exfalso.
           destruct pre as [|line' pre]; cbn [app] in Heq.
           ++ subst rest. injection Hf as ->. apply (sections_heading 0) in Hs as (_ & Hl & _).
              by rewrite Hl in Hhead.
           ++ injection Heq as <- _. apply Forall_cons in Hpre as [[?|[? ?]] _]; congruence.
Qed.
End bodies.

Lemma foldlM_scan st ls : foldlM summary_line st ls = foldlM scan_line st (trim <$> ls).
Proof.
  revert st; induction ls as [|line ls IH]; intros st; [done|]. cbn [foldlM fmap list_fmap].
  change (summary_line st line) with (scan_line st (trim line)). destruct (scan_line st (trim line)); [apply IH|done].
Qed.

(** a summary is accepted exactly when it is complete and structured. The
    validation returns a text exactly when the answer is complete, the text is
    its content without line ending variants, surrounding blanks and wrapping
    fence, it is not empty, its estimate is within the cap, and its trimmed
    lines are the six sections in order, each with a body that is not blank,
    contains no heading outside a fence and closes its fences, behind nothing
    but blank lines and closed fences. *)
Theorem summary_accepted_exactly (r : SummaryCompletion) (cap : N) (t : text) :
  validate_summary_classified r cap = Ok t ↔
    kind r = Complete ∧ t = summary_text (completion_text r) ∧ t ≠ [] ∧
    (tokens_from_utf16 (utf16_units t) ≤ cap)%N ∧ structured (trim <$> lines t).
Proof.
  assert (∀ ls, structured ls ↔ accepts {| section := 0; has_body := false; open_fence := None |} ls) as Hstruct.
  { intros ls. rewrite accepts_opening. unfold structured, opening, preamble_ok. naive_solver. }
  rewrite Hstruct. unfold validate_summary_classified, accepts. split.
  - intros H. apply bind_Ok in H as ([] & Hk%ensure_Ok & H). apply bind_Ok in H as ([] & He%ensure_Ok & H).
    apply bind_Ok in H as ([] & Hc%ensure_Ok & H). apply bind_Ok in H as (st & Hst & H).
    apply bind_Ok in H as ([] & Hf%ensure_Ok & H). apply bind_Ok in H as ([] & Hs%ensure_Ok & H).
    apply bind_Ok in H as ([] & Hb & [= <-]). apply ensure_Ok in Hb. rewrite foldlM_scan in Hst.
    apply negb_true_iff in He. rewrite bool_decide_eq_true in Hk, Hc, Hf, Hs. rewrite bool_decide_eq_false in He.
    do 4 (split; [done|]). by exists st.
  - intros (Hk & -> & He & Hc & st & Hst & Hf & Hs & Hb).
    rewrite (bool_decide_true _ Hk), (bool_decide_false _ He), (bool_decide_true _ Hc), foldlM_scan, Hst.
    cbn [negb ensure mbind result_bind]. by rewrite Hf, Hs, Hb, !bool_decide_true by done.
Qed.

(** ** Concrete answers *)
Definition newline (s : string) : text := lit s ++ [10%N].
Definition sample_summary : text := HEADINGS ≫= λ h, h ++ newline "" ++ newline "No information available.".
Definition answer_with (k : CompletionKind) (t : text) : SummaryCompletion :=
  {| completion_text := t; kind := k; completion_input_tokens := None; completion_output_tokens := None |}.

Example sample_validations :
  (λ t, validate_summary_classified (answer_with Complete t) 1000) <$>
    [newline "```markdown" ++ sample_summary ++ lit "```"; [32; 13; 10]%N; sample_summary ++ newline "```private";
     mjoin (newline "" :: HEADINGS); HEADINGS ≫= λ h, h ++ newline ""; newline "text" ++ sample_summary] =
    [Ok (trim sample_summary); Err EmptyText; Err IncompleteMarkdown; Err InvalidSections; Err EmptySection;
     Err InvalidSections] ∧
  validate_summary_classified (answer_with Complete sample_summary) 1 = Err OutputCapExceeded ∧
  validate_summary_classified (answer_with Limit sample_summary) 1000 = Err IncompleteResponse.
Proof. by vm_compute. Qed.
