(* ===== verification/CompactionHistory.v ===== *)
(** * The compaction planner and source unions

    Models [crates/compaction/src/history.rs]: the selection of a compactable
    prefix of whole history units and the union of delivery snapshots. *)
From S2P Require Import Prelude CompactionBudget.
Import Budget.
Local Open Scope N_scope.

Record SourceRef := mk_source { scope : string; id : string; version : string }.

#[export] Instance SourceRef_eq_dec : EqDecision SourceRef.
Proof. solve_decision. Defined.
#[export] Instance SourceRef_countable : Countable SourceRef.
Proof.
  refine (inj_countable' (λ s, (scope s, id s, version s))
            (λ '(a, b, c), mk_source a b c) _); by intros [].
Defined.

Inductive SourceRole := Own | Inherited | ReferenceOnly.
#[export] Instance SourceRole_eq_dec : EqDecision SourceRole.
Proof. solve_decision. Defined.

Inductive CoverageDomain := OwnContribution | WorkingContext.
#[export] Instance CoverageDomain_eq_dec : EqDecision CoverageDomain.
Proof. solve_decision. Defined.

Record HistoryUnit := {
  sources : list SourceRef;
  role : SourceRole;
  unit_tokens : N;
  complete : bool;
  protected_input : bool;
}.

Inductive CompactionMode := Normal | Emergency.
#[export] Instance CompactionMode_eq_dec : EqDecision CompactionMode.
Proof. solve_decision. Defined.

Record CompactionPlan := {
  plan_mode : CompactionMode;
  plan_coverage_domain : CoverageDomain;
  compact : list nat;
  retain : list nat;
  coverage : list SourceRef;
  fingerprint : string;
}.

Inductive PlanError :=
  NoEligibleWork | ProtectedInputTooLarge | PendingRoundTooLarge | InvalidHistory.
#[export] Instance PlanError_eq_dec : EqDecision PlanError.
Proof. solve_decision. Defined.

Definition TAIL_TOKENS : N := 20000.

(** The identity under which a source may occur once in a history. *)
Definition identity_of (s : SourceRef) : string * string := (scope s, id s).

(** The validity scan of [plan_compaction]: [seen] grows source by source. *)
Fixpoint insert_all (seen : gset (string * string)) (l : list SourceRef)
    : option (gset (string * string)) :=
  match l with
  | [] => Some seen
  | s :: l => if decide (identity_of s ∈ seen) then None
              else insert_all ({[identity_of s]} ∪ seen) l
  end.

Fixpoint valid_history (seen : gset (string * string)) (units : list HistoryUnit) : bool :=
  match units with
  | [] => true
  | u :: units =>
      match sources u with
      | [] => false
      | _ => match insert_all seen (sources u) with
             | Some seen => valid_history seen units
             | None => false
             end
      end
  end.

Definition eligible (coverage_domain : CoverageDomain) (mode : CompactionMode)
    (u : HistoryUnit) : bool :=
  complete u
  && (bool_decide (role u = Own)
      || (bool_decide (coverage_domain = WorkingContext) && bool_decide (role u = Inherited)))
  && (negb (protected_input u) || bool_decide (mode = Emergency)).

(** Recompute the semantic boundary of a set of compacted units. The source indexes
    [units] and panics out of range; every caller passes indices of [units]. *)
Definition coverage_domain_for (units : list HistoryUnit) (compact : list nat) : CoverageDomain :=
  if existsb (λ i, match units !! i with
                   | Some u => bool_decide (role u = Inherited)
                   | None => false end) compact
  then WorkingContext else OwnContribution.

(** ** The planner *)
Section planner.
Context (units : list HistoryUnit) (model : ModelBudget) (reserve fixed_input summary_goal : N)
  (mode : CompactionMode) (domain : CoverageDomain) (recovery : bool) (basis : string).
(** SHA-256 over the serialized arguments: third-party code. *)
Context (digest : string → list HistoryUnit → ModelBudget → N → N → N → CompactionMode →
                  CoverageDomain → bool → string).

Definition tokens_at (i : nat) : N :=
  match units !! i with Some u => unit_tokens u | None => 0 end.
Definition eligible_at (i : nat) : bool :=
  match units !! i with Some u => eligible domain mode u | None => false end.

(** A [BTreeSet<usize>] of unit indices, iterated in ascending order. *)
Definition ascending (s : gset nat) : list nat :=
  filter (λ i, i ∈ s) (seq 0 (length units)).

Definition ineligible_set : gset nat :=
  list_to_set (filter (λ i, eligible_at i = false) (seq 0 (length units))).

(** The tail loop, over the unit indices in descending order. *)
Fixpoint retain_tail (descending : list nat) (retained : gset nat) (tail : N) : gset nat :=
  match descending with
  | [] => retained
  | i :: rest =>
      if negb (eligible_at i) then retain_tail rest retained tail
      else if decide (TAIL_TOKENS ≤ tail) then retained
      else retain_tail rest ({[i]} ∪ retained) (tail +₆₄ tokens_at i)
  end.

Definition retained_input (retained : gset nat) : N :=
  foldl (λ total i, total +₆₄ tokens_at i) (fixed_input +₆₄ summary_goal) (ascending retained).

Definition retained_fits (retained : gset nat) : bool :=
  fits model (retained_input retained) reserve recovery.

Definition oldest_eligible (retained : gset nat) : option nat :=
  head (filter (λ i, eligible_at i = true) (ascending retained)).

(** [while !fits(&retained)]; [None] is out of fuel. *)
Fixpoint shrink (fuel : nat) (retained : gset nat) : option (result PlanError (gset nat)) :=
  if retained_fits retained then Some (Ok retained)
  else match oldest_eligible retained with
       | Some oldest =>
           match fuel with
           | O => None
           | S fuel => shrink fuel (retained ∖ {[oldest]})
           end
       | None =>
           Some (Err (if existsb (λ u, negb (complete u)) units
                      then PendingRoundTooLarge else ProtectedInputTooLarge))
       end.

(** A provider overflow must change eligible input before the retry. *)
Definition force_progress (retained : gset nat) : gset nat :=
  if recovery && bool_decide (size retained = length units)
  then match oldest_eligible retained with
       | Some oldest => retained ∖ {[oldest]}
       | None => retained
       end
  else retained.

Definition finish_plan (retained : gset nat) : result PlanError CompactionPlan :=
  let retained := force_progress retained in
  let compact := filter (λ i, i ∉ retained) (seq 0 (length units)) in
  ensure (negb (bool_decide (compact = []))) NoEligibleWork;;
  Ok {| plan_mode := mode;
        plan_coverage_domain := coverage_domain_for units compact;
        compact := compact;
        retain := ascending retained;
        coverage := compact ≫= λ i, match units !! i with Some u => sources u | None => [] end;
        fingerprint := digest basis units model reserve fixed_input summary_goal mode domain recovery |}.

Definition initial_retained : gset nat :=
  retain_tail (reverse (seq 0 (length units))) ineligible_set 0.

Definition plan_compaction : option (result PlanError CompactionPlan) :=
  if valid_history ∅ units then
    match shrink (length units) initial_retained with
    | Some (Ok retained) => Some (finish_plan retained)
    | Some (Err e) => Some (Err e)
    | None => None
    end
  else Some (Err InvalidHistory).

(** ** The planner's specification

    Every set the planner builds is determined by a cut: the units kept are the
    ineligible ones and the eligible ones from the cut on. *)
Definition kept (k i : nat) : Prop := eligible_at i = false ∨ (k ≤ i)%nat.
#[local] Instance kept_dec k i : Decision (kept k i).
Proof. unfold kept; apply _. Defined.

Definition kept_from (k : nat) : list nat := filter (kept k) (seq 0 (length units)).
Definition dropped_before (k : nat) : list nat :=
  filter (λ i, ¬ kept k i) (seq 0 (length units)).

(** What the model has to accept when the units of a cut are kept. *)
Definition input_from (k : nat) : N :=
  foldl (λ total i, total +₆₄ tokens_at i) (fixed_input +₆₄ summary_goal) (kept_from k).
Definition fits_from (k : nat) : bool := fits model (input_from k) reserve recovery.

(** Tokens of the eligible units from [k] on. *)
Definition tail_from (k : nat) : N :=
  sum_N (tokens_at <$> filter (λ j, eligible_at j = true ∧ (k ≤ j)%nat) (seq 0 (length units))).

Definition is_cut (k : nat) (R : gset nat) : Prop :=
  ∀ i, i ∈ R ↔ (i < length units)%nat ∧ kept k i.

Lemma elem_of_indices i : i ∈ seq 0 (length units) ↔ (i < length units)%nat.
Proof. rewrite elem_of_seq; lia. Qed.

Lemma eligible_at_lt i : eligible_at i = true → (i < length units)%nat.
Proof. unfold eligible_at. intros H. case_match eqn:E; [by apply lookup_lt_Some in E|done]. Qed.

Lemma eligible_at_inv i :
  eligible_at i = true → ∃ u, units !! i = Some u ∧ complete u = true ∧
    (role u = Own ∨ (domain = WorkingContext ∧ role u = Inherited)) ∧
    (protected_input u = false ∨ mode = Emergency).
Proof.
  unfold eligible_at, eligible. intros Hel. destruct (units !! i) as [u|]; [|done]. exists u.
  split; [done|]. repeat rewrite ?andb_true_iff, ?orb_true_iff, ?bool_decide_eq_true, ?negb_true_iff in Hel.
  tauto.
Qed.

(** The sources of an ascending selection of units, as the source collects them. *)
Lemma selected_sources_sublist (P : nat → Prop) `{!∀ i, Decision (P i)} :
  sublist (filter P (seq 0 (length units)) ≫= λ i, match units !! i with Some u => sources u | None => [] end)
    (units ≫= sources).
Proof.
  assert (∀ (l : list HistoryUnit) off,
    (∀ i u, l !! i = Some u → units !! (off + i)%nat = Some u) →
    sublist (filter P (seq off (length l)) ≫=
      λ i, match units !! i with Some u => sources u | None => [] end) (l ≫= sources)) as Hgen.
  { induction l as [|u l IH]; intros off Hl; [constructor|]. cbn [length seq].
    rewrite filter_cons. pose proof (Hl 0%nat u eq_refl) as Hu. rewrite Nat.add_0_r in Hu.
    assert (sublist (filter P (seq (S off) (length l)) ≫=
      λ i, match units !! i with Some u => sources u | None => [] end) (l ≫= sources)) as Hs.
    { apply IH. intros i v Hi. rewrite <-(Hl (S i) v Hi). f_equal. lia. }
    case_decide; csimpl; [rewrite Hu; by apply sublist_app|].
    by apply sublist_inserts_l. }
  apply Hgen. done.
Qed.

Lemma elem_of_kept_from k i : i ∈ kept_from k ↔ (i < length units)%nat ∧ kept k i.
Proof. unfold kept_from. rewrite list_elem_of_filter, elem_of_indices. tauto. Qed.

Lemma elem_of_dropped_before k i : i ∈ dropped_before k ↔ eligible_at i = true ∧ (i < k)%nat.
Proof.
  unfold dropped_before. rewrite list_elem_of_filter, elem_of_indices. unfold kept. split.
  - intros [H ?]. destruct (eligible_at i); [split; [done|lia]|tauto].
  - intros [H ?]. pose proof (eligible_at_lt i H). split; [|done]. rewrite H; intros [|]; [done|lia].
Qed.

Lemma is_cut_ascending k R : is_cut k R → ascending R = kept_from k.
Proof.
  intros HR. apply filter_ext. intros i Hi%elem_of_indices. rewrite (HR i). tauto.
Qed.

Lemma is_cut_compact k R :
  is_cut k R → filter (λ i, i ∉ R) (seq 0 (length units)) = dropped_before k.
Proof.
  intros HR. apply filter_ext. intros i Hi%elem_of_indices. rewrite (HR i). tauto.
Qed.

Lemma is_cut_fits k R : is_cut k R → retained_fits R = fits_from k.
Proof. intros HR. unfold retained_fits, retained_input. by rewrite (is_cut_ascending k R HR). Qed.

(** Keeping fewer units never makes the input larger. *)
Lemma fits_from_mono k k' : (k ≤ k')%nat → fits_from k = true → fits_from k' = true.
Proof.
  intros Hk. apply fits_mono. unfold input_from.
  rewrite !(foldl_fmap_sat U64_MAX tokens_at) by word.
  enough (sum_N (tokens_at <$> kept_from k') ≤ sum_N (tokens_at <$> kept_from k)) by lia.
  apply sum_N_filter_mono. unfold kept; intros i _ [|]; [by left|right; lia].
Qed.

Lemma is_cut_extend k R : (k < length units)%nat → is_cut (S k) R → is_cut k ({[k]} ∪ R).
Proof.
  intros Hk HR i. rewrite elem_of_union, elem_of_singleton, (HR i). unfold kept. split.
  - intros [->|[? [?|?]]]; (split; [done|]); [right; lia|by left|right; lia].
  - intros [? [?|?]]; [by eauto|]. destruct (decide (i = k)); [by left|right; split; [done|right; lia]].
Qed.

Lemma is_cut_skip k R : eligible_at k = false → is_cut (S k) R → is_cut k R.
Proof.
  intros Hk HR i. rewrite (HR i). unfold kept. split.
  - intros [? [?|?]]; (split; [done|]); [by left|right; lia].
  - intros [? [?|?]]; (split; [done|]); [by left|]. destruct (decide (i = k)) as [->|]; [by left|right; lia].
Qed.

(** *** The oldest eligible unit of a cut *)
Lemma oldest_eligible_Some k R o :
  is_cut k R → oldest_eligible R = Some o →
  eligible_at o = true ∧ (k ≤ o)%nat ∧ is_cut (S o) (R ∖ {[o]}) ∧
  (∀ i, (k ≤ i < o)%nat → eligible_at i = false).
Proof.
  intros HR. unfold oldest_eligible. rewrite (is_cut_ascending k R HR).
  intros (l1 & l2 & Hl & Ho & Hl1)%head_filter_Some.
  assert (o ∈ kept_from k) as [Hlt [?|Hle]]%elem_of_kept_from by (rewrite Hl; set_solver); [congruence|].
  assert (∀ i, (k ≤ i < o)%nat → eligible_at i = false) as Hold.
  { intros i Hi. apply not_true_is_false. intros Hel. apply (Hl1 i); [|done].
    assert (i ∈ kept_from k) as Hin by (rewrite elem_of_kept_from; unfold kept; split; [lia|right; lia]).
    rewrite Hl, elem_of_app, elem_of_cons in Hin. destruct Hin as [?|[->|Hin]]; [done|lia|].
    assert (StronglySorted lt (kept_from k)) as Hs by apply Sorted_filter_seq.
    rewrite Hl in Hs. pose proof (Sorted_app_cons_lt _ _ _ _ Hs Hin). lia. }
  do 2 (split; [done|]). split; [|done].
  intros i. rewrite elem_of_difference, elem_of_singleton, (HR i). unfold kept. split.
  - intros [[? [?|?]] ?]; [by eauto|]. split; [done|].
    destruct (decide (o < i)%nat); [right; lia|]. left. apply Hold. lia.
  - intros [? [?|?]]; [split; [by eauto|congruence]|]. split; [split; [done|right; lia]|lia].
Qed.

Lemma oldest_eligible_None k R :
  is_cut k R → oldest_eligible R = None → ∀ i, eligible_at i = true → (i < k)%nat.
Proof.
  intros HR Hn i Hi. unfold oldest_eligible in Hn. rewrite (is_cut_ascending k R HR) in Hn.
  destruct (decide (i < k)%nat); [done|]. exfalso.
  apply (head_filter_None _ _ Hn i); [|done].
  apply elem_of_kept_from. unfold kept. split; [by apply eligible_at_lt|right; lia].
Qed.

Lemma kept_from_eq k o :
  (k ≤ o)%nat → (∀ i, (k ≤ i < o)%nat → eligible_at i = false) → kept_from k = kept_from o.
Proof.
  intros Hko Hold. apply filter_ext. intros i _. unfold kept. split; [|intros [|]; [by left|right; lia]].
  intros [|Hk]; [by left|]. destruct (decide (o ≤ i)%nat); [by right|left; apply Hold; lia].
Qed.

Lemma no_eligible_fits k R :
  is_cut k R → oldest_eligible R = None → fits_from k = fits_from (length units).
Proof.
  intros HR Ho. unfold fits_from, input_from.
  rewrite (kept_from_eq k (Nat.max k (length units))); [|lia|].
  - rewrite <-(kept_from_eq (length units) (Nat.max k (length units))); [done|lia|].
    intros i [Hi _]. apply not_true_is_false. intros ?%eligible_at_lt; lia.
  - intros i Hi. apply not_true_is_false. intros Hel.
    pose proof (oldest_eligible_None k R HR Ho i Hel). lia.
Qed.

(** *** The shrinking loop *)
Definition shrink_error : PlanError :=
  if existsb (λ u, negb (complete u)) units then PendingRoundTooLarge else ProtectedInputTooLarge.

Lemma shrink_spec fuel k R :
  is_cut k R → (length units ≤ k + fuel)%nat →
  match shrink fuel R with
  | Some (Ok R') => ∃ k', (k ≤ k')%nat ∧ is_cut k' R' ∧ fits_from k' = true ∧
      ∀ i, eligible_at i = true → (k ≤ i < k')%nat → fits_from i = false
  | Some (Err e) => fits_from (length units) = false ∧ e = shrink_error
  | None => False
  end.
Proof.
  revert k R; induction fuel as [|fuel IH]; intros k R HR Hfuel; simpl;
    rewrite (is_cut_fits k R HR); destruct (fits_from k) eqn:Hfit;
    try (exists k; do 3 (split; [done|]); lia);
    destruct (oldest_eligible R) as [o|] eqn:Ho.
  - apply (oldest_eligible_Some k) in Ho as (?%eligible_at_lt & ? & _); [lia|done].
  - split; [|done]. by rewrite <-(no_eligible_fits k R HR Ho).
  - apply (oldest_eligible_Some k) in Ho as (Hel & Hko & HR' & Hold); [|done].
    specialize (IH (S o) (R ∖ {[o]}) HR' ltac:(lia)). case_match; [|done]. case_match; [|done].
    destruct IH as (k' & ? & ? & ? & Hmax). exists k'. split; [lia|]. do 2 (split; [done|]).
    intros i Hi Hk. destruct (decide (i ≤ o)%nat) as [Hio|]; [|apply Hmax; [done|lia]].
    assert (i = o) as -> by (destruct (decide (i < o)%nat); [rewrite Hold in Hi by lia; done|lia]).
    rewrite <-Hfit. unfold fits_from, input_from. by rewrite <-(kept_from_eq k o).
  - split; [|done]. by rewrite <-(no_eligible_fits k R HR Ho).
Qed.

(** *** The tail loop *)
Lemma tail_from_mono k k' : (k ≤ k')%nat → tail_from k' ≤ tail_from k.
Proof. intros Hk. apply sum_N_filter_mono. intros i _ [? ?]; split; [done|lia]. Qed.

Lemma tail_from_S k :
  (k < length units)%nat →
  tail_from k = (if eligible_at k then tokens_at k else 0) + tail_from (S k).
Proof.
  intros Hk. unfold tail_from.
  replace (seq 0 (length units)) with (seq 0 k ++ k :: seq (S k) (length units - S k)).
  2:{ change (k :: seq (S k) (length units - S k)) with (seq k (S (length units - S k))).
      rewrite <-(seq_app k _ 0). f_equal; lia. }
  rewrite !filter_app, !filter_cons.
  rewrite (filter_ext (λ j, eligible_at j = true ∧ (k ≤ j)%nat)
             (λ j, eligible_at j = true ∧ (S k ≤ j)%nat) (seq (S k) _))
    by (intros j ?%elem_of_seq; intuition lia).
  rewrite (filter_ext (λ j, eligible_at j = true ∧ (k ≤ j)%nat)
             (λ j, eligible_at j = true ∧ (S k ≤ j)%nat) (seq 0 k))
    by (intros j ?%elem_of_seq; intuition lia).
  rewrite !fmap_app, !sum_N_app. rewrite (decide_False (P:=_ ∧ (S k ≤ k)%nat)) by lia.
  destruct (eligible_at k) eqn:He.
  - rewrite decide_True by done. rewrite fmap_cons, sum_N_cons. lia.
  - rewrite decide_False by (intros [? _]; done). lia.
Qed.

Lemma retain_tail_spec k R tail :
  (k ≤ length units)%nat → is_cut k R → tail = N.min (tail_from k) U64_MAX →
  ∃ k', (k' ≤ k)%nat ∧ is_cut k' (retain_tail (reverse (seq 0 k)) R tail) ∧
    (∀ i, eligible_at i = true → (k' ≤ i < k)%nat → tail_from (S i) < TAIL_TOKENS) ∧
    (∀ i, eligible_at i = true → (i < k')%nat → TAIL_TOKENS ≤ tail_from (S i)).
Proof.
  revert R tail; induction k as [|k IH]; intros R tail Hk HR Htail.
  { exists 0%nat. split; [done|]. split; [done|]. split; lia. }
  rewrite seq_S, reverse_snoc. simpl. pose proof (tail_from_S k Hk) as HS.
  destruct (eligible_at k) eqn:He; simpl; [case_decide as Hstop|].
  - exists (S k). split; [lia|]. split; [done|]. split; [lia|].
    intros i _ Hi. pose proof (tail_from_mono (S i) (S k) ltac:(lia)). lia.
  - destruct (IH ({[k]} ∪ R) (tail +₆₄ tokens_at k)) as (k' & ? & ? & Hin & Hout);
      [lia|apply is_cut_extend; [lia|done]|subst tail; word|].
    exists k'. split; [lia|]. split; [done|]. split; [|done].
    intros i Hi Hlt. destruct (decide (i = k)) as [->|]; [subst tail; unfold TAIL_TOKENS, U64_MAX in *; lia|apply Hin; [done|lia]].
  - destruct (IH R tail) as (k' & ? & ? & Hin & Hout);
      [lia|by apply is_cut_skip|subst tail; f_equal; lia|].
    exists k'. split; [lia|]. split; [done|]. split; [|done].
    intros i Hi Hlt. destruct (decide (i = k)) as [->|]; [congruence|apply Hin; [done|lia]].
Qed.

(** *** The history check *)
Lemma insert_all_spec seen l :
  match insert_all seen l with
  | Some seen' => NoDup (identity_of <$> l) ∧ (∀ s, s ∈ l → identity_of s ∉ seen) ∧
      seen' = list_to_set (identity_of <$> l) ∪ seen
  | None => ¬ (NoDup (identity_of <$> l) ∧ ∀ s, s ∈ l → identity_of s ∉ seen)
  end.
Proof.
  revert seen; induction l as [|s l IH]; intros seen; csimpl.
  { split; [constructor|]. split; [by intros s ?%elem_of_nil|]. set_solver. }
  case_decide as Hin; [intros [_ H]; by apply (H s); [left|]|].
  specialize (IH ({[identity_of s]} ∪ seen)).
  destruct (insert_all _ l) as [seen'|]; rewrite NoDup_cons, list_elem_of_fmap.
  - destruct IH as (Hnd & Hfresh & ->). split; [|split; [|set_solver]].
    + split; [|done]. intros (s' & Heq & Hs').
      by apply (Hfresh s' Hs'), elem_of_union_l, elem_of_singleton.
    + intros s' [->|Hs']%elem_of_cons; [done|]. intros ?.
      by apply (Hfresh s' Hs'), elem_of_union_r.
  - contradict IH. destruct IH as [[Hs Hnd] Hfresh]. split; [done|].
    intros s' Hs' [Heq%elem_of_singleton|Hin']%elem_of_union; [by apply Hs; eauto|].
    apply (Hfresh s'); [by right|done].
Qed.

Lemma valid_history_spec seen us :
  valid_history seen us = true ↔
    Forall (λ u, sources u ≠ []) us ∧ NoDup (identity_of <$> (us ≫= sources)) ∧
    ∀ s, s ∈ us ≫= sources → identity_of s ∉ seen.
Proof.
  revert seen; induction us as [|u us IH]; intros seen; csimpl.
  { split; [|done]. intros _. split; [constructor|]. split; [constructor|]. by intros s ?%elem_of_nil. }
  rewrite Forall_cons, fmap_app, NoDup_app.
  destruct (sources u) as [|s0 l] eqn:Hs; [split; [done|by intros [[] _]]|].
  pose proof (insert_all_spec seen (s0 :: l)) as Hins. rewrite <-Hs in *.
  setoid_rewrite elem_of_app. setoid_rewrite list_elem_of_fmap.
  destruct (insert_all seen (sources u)) as [seen'|]; [rewrite IH|]; [|split; [done|naive_solver]].
  destruct Hins as (Hnd & Hfresh & ->). split.
  - intros (Hne & Hnd' & Hrest). split; [split; [by rewrite Hs|done]|].
    split; [split; [done|split; [|done]]|].
    + intros x (s & -> & Hin) (s' & Heq & Hin'). apply (Hrest s' Hin'), elem_of_union_l.
      rewrite <-Heq. by apply elem_of_list_to_set, list_elem_of_fmap_2.
    + intros s [Hin|Hin]; [by apply Hfresh|]. intros ?. by apply (Hrest s Hin), elem_of_union_r.
  - intros ([_ Hne] & (_ & Hdisj & Hnd') & Hall). do 2 (split; [done|]).
    intros s Hin. rewrite elem_of_union, elem_of_list_to_set, list_elem_of_fmap.
    intros [(s' & Heq & Hin')|Hin']; [|by apply (Hall s); [right|]].
    apply (Hdisj (identity_of s)); eauto.
Qed.

(** *** The plan *)

(** The cut the planner takes: the retained tail fits, holds fewer than
    [TAIL_TOKENS] besides its oldest eligible unit, and no eligible unit is
    dropped without need. *)
Definition best_cut (k : nat) : Prop :=
  fits_from k = true ∧
  (∀ i, eligible_at i = true → (k ≤ i)%nat → tail_from (S i) < TAIL_TOKENS) ∧
  (∀ i, eligible_at i = true → (i < k)%nat →
     TAIL_TOKENS ≤ tail_from (S i) ∨ fits_from i = false).

Lemma ineligible_cut : is_cut (length units) ineligible_set.
Proof.
  intros i. unfold ineligible_set, kept.
  rewrite elem_of_list_to_set, list_elem_of_filter, elem_of_indices.
  split; [intros [? ?]; by eauto|]. intros [? [?|?]]; [done|lia].
Qed.

Lemma tail_from_end k : (length units ≤ k)%nat → tail_from k = 0.
Proof.
  intros Hk. unfold tail_from.
  rewrite (filter_ext _ (λ _, False)); [by rewrite list_filter_False|].
  intros i Hi%elem_of_indices. split; [lia|done].
Qed.

(** The planner's loops always finish, with a best cut or the protected-input
    error. *)
Lemma planner_loops :
  (∃ R k, shrink (length units) initial_retained = Some (Ok R) ∧ is_cut k R ∧ best_cut k) ∨
  (shrink (length units) initial_retained = Some (Err shrink_error) ∧
     fits_from (length units) = false).
Proof.
  destruct (retain_tail_spec (length units) ineligible_set 0) as (k0 & _ & HR0 & Hin & Hout);
    [done|apply ineligible_cut|rewrite tail_from_end by done; done|].
  fold initial_retained in *.
  pose proof (shrink_spec (length units) k0 _ HR0 ltac:(lia)) as Hs.
  destruct (shrink _ _) as [[R|e]|]; [left|right|done].
  - destruct Hs as (k & Hk & HR & Hfit & Hmax). exists R, k. do 2 (split; [done|]).
    split; [done|]. split.
    + intros i Hi Hki. apply Hin; [done|]. pose proof (eligible_at_lt i Hi). lia.
    + intros i Hi Hki. destruct (decide (i < k0)%nat); [left; by apply Hout|].
      right. apply Hmax; [done|lia].
  - destruct Hs as [? ->]. done.
Qed.

Lemma is_cut_full k R : is_cut k R → size R = length units ↔ dropped_before k = [].
Proof.
  intros HR. assert (R = list_to_set (kept_from k)) as ->.
  { apply set_eq. intros i. rewrite elem_of_list_to_set, elem_of_kept_from. apply HR. }
  rewrite size_list_to_set by apply NoDup_filter, NoDup_seq.
  pose proof (filter_length_complement (kept k) (seq 0 (length units))) as Hlen.
  rewrite length_seq in Hlen. fold (kept_from k) (dropped_before k) in Hlen.
  rewrite <-length_zero_iff_nil. lia.
Qed.

(** The cut after [force_progress]. *)
Lemma force_progress_cut k R :
  is_cut k R →
  ∃ k', is_cut k' (force_progress R) ∧ (k ≤ k')%nat ∧
    (k' = k ∨ (recovery = true ∧ dropped_before k = [] ∧ ∃ o, dropped_before k' = [o])) ∧
    (recovery = true → dropped_before k' = [] → ∀ i, eligible_at i = false).
Proof.
  intros HR. unfold force_progress. destruct recovery; simpl; [|exists k; naive_solver].
  case_bool_decide as Hfull; rewrite (is_cut_full k R HR) in Hfull; [|exists k; naive_solver].
  destruct (oldest_eligible R) as [o|] eqn:Ho.
  2:{ exists k. do 3 (split; [by auto|]). intros _ _ i. apply not_true_is_false. intros Hel.
      pose proof (oldest_eligible_None k R HR Ho i Hel).
      apply (not_elem_of_nil (A:=nat) i). rewrite <-Hfull. by apply elem_of_dropped_before. }
  apply (oldest_eligible_Some k) in Ho as (Hel & Hko & HR' & Hold); [|done].
  exists (S o). split; [done|]. split; [lia|].
  enough (dropped_before (S o) = [o]) as Hd by (split; [right; eauto|by rewrite Hd]).
  assert (∀ i, eligible_at i = true → (k ≤ i)%nat) as Hge.
  { intros i Hi. destruct (decide (k ≤ i)%nat); [done|]. exfalso.
    apply (not_elem_of_nil (A:=nat) i). rewrite <-Hfull.
    apply elem_of_dropped_before. split; [done|lia]. }
  unfold dropped_before. rewrite (filter_ext _ (λ i, i = o)).
  - apply filter_eq_seq. pose proof (eligible_at_lt o Hel). lia.
  - intros i _. unfold kept. split; [|intros ->; rewrite Hel; intros [|]; [done|lia]].
    intros Hi. destruct (eligible_at i) eqn:He; [|tauto].
    destruct (decide (i = o)); [done|]. exfalso. specialize (Hge i He).
    destruct (decide (i < o)%nat); [rewrite Hold in He by lia; done|]. apply Hi. right; lia.
Qed.

Lemma finish_plan_spec k R :
  is_cut k R →
  ∃ k', (k ≤ k')%nat ∧
    (k' = k ∨ (recovery = true ∧ dropped_before k = [] ∧ ∃ o, dropped_before k' = [o])) ∧
    match finish_plan R with
    | Ok p => compact p = dropped_before k' ∧ dropped_before k' ≠ [] ∧ retain p = kept_from k' ∧
        plan_coverage_domain p = coverage_domain_for units (dropped_before k') ∧
        coverage p = (dropped_before k' ≫= λ i, match units !! i with Some u => sources u | None => [] end)
    | Err e => e = NoEligibleWork ∧ dropped_before k' = [] ∧
        (recovery = true → ∀ i, eligible_at i = false)
    end.
Proof.
  intros HR. destruct (force_progress_cut k R HR) as (k' & HR' & Hk & Hor & Hnone).
  exists k'. do 2 (split; [done|]). unfold finish_plan.
  rewrite (is_cut_compact k' _ HR'), (is_cut_ascending k' _ HR').
  case_bool_decide; simpl; [by eauto|done].
Qed.

(** C26: the plan is the cheapest cut. A successful plan compacts exactly the
    eligible units older than a cut and retains everything else; the cut
    retains a tail that fits the model, stays below [TAIL_TOKENS] apart from
    its oldest unit, and no eligible unit is given up unless the tail budget
    is spent or keeping it would not fit. In overflow recovery, when that cut
    would drop nothing, exactly one eligible unit is dropped. *)
Theorem plan_compaction_best_cut (p : CompactionPlan) :
  plan_compaction = Some (Ok p) →
  ∃ k k', best_cut k ∧ compact p = dropped_before k' ∧ compact p ≠ [] ∧
    retain p = kept_from k' ∧
    (k' = k ∨ (recovery = true ∧ dropped_before k = [] ∧ ∃ o, compact p = [o])).
Proof.
  unfold plan_compaction. destruct (valid_history _ _); [|done].
  destruct planner_loops as [(R & k & -> & HR & Hbest)|[-> _]]; [|done].
  intros [= Hp]. destruct (finish_plan_spec k R HR) as (k' & _ & Hor & Hf). rewrite Hp in Hf.
  destruct Hf as (Hc & Hne & Hret & _). exists k, k'. rewrite Hc. done.
Qed.

(** what a plan may stand for. Every compacted unit is a complete round of
    the owner (or an inherited one for a working-context checkpoint), and not
    a protected input outside emergency mode; each unit is either compacted or
    retained, never both; the retained input plus the summary goal fits the
    model; the coverage lists the sources of the compacted units, no source
    identity twice, and the plan is an own contribution exactly when nothing
    inherited was compacted. *)
Theorem plan_compaction_safe (p : CompactionPlan) :
  plan_compaction = Some (Ok p) →
  (∀ i, i ∈ compact p → ∃ u, units !! i = Some u ∧ complete u = true ∧
     (role u = Own ∨ (domain = WorkingContext ∧ role u = Inherited)) ∧
     (protected_input u = false ∨ mode = Emergency)) ∧
  (∀ i, (i < length units)%nat → i ∈ compact p ↔ i ∉ retain p) ∧
  fits model (foldl (λ total i, total +₆₄ tokens_at i) (fixed_input +₆₄ summary_goal) (retain p))
    reserve recovery = true ∧
  coverage p = (compact p ≫= λ i, match units !! i with Some u => sources u | None => [] end) ∧
  NoDup (identity_of <$> coverage p) ∧
  (plan_coverage_domain p = WorkingContext ↔
     ∃ i u, i ∈ compact p ∧ units !! i = Some u ∧ role u = Inherited).
Proof.
  unfold plan_compaction. destruct (valid_history _ _) eqn:Hvalid; [|done].
  apply valid_history_spec in Hvalid as (_ & Hnd & _).
  destruct planner_loops as [(R & k & -> & HR & Hfit & _)|[-> _]]; [|done].
  intros [= Hp]. destruct (finish_plan_spec k R HR) as (k' & Hk & _ & Hf). rewrite Hp in Hf.
  destruct Hf as (-> & _ & -> & -> & ->). split; [|split; [|split; [|split; [done|split]]]].
  - intros i [Hel _]%elem_of_dropped_before. by apply eligible_at_inv.
  - intros i Hi. rewrite elem_of_dropped_before, elem_of_kept_from. unfold kept. split.
    + intros [Hel Hlt] [_ [?|?]]; [congruence|lia].
    + intros Hn. destruct (eligible_at i); [|tauto]. split; [done|].
      destruct (decide (i < k')%nat); [done|]. exfalso. apply Hn. split; [done|right; lia].
  - by apply (fits_from_mono k k').
  - eapply sublist_NoDup; [exact Hnd|]. apply fmap_sublist, selected_sources_sublist.
  - unfold coverage_domain_for. destruct (existsb _ _) eqn:Hex.
    + split; [|done]. intros _. apply existsb_elem in Hex as (i & Hi & Hr).
      destruct (units !! i) as [u|] eqn:Hu; [|done]. exists i, u. by simplify_result.
    + split; [done|]. intros (i & u & Hi & Hu & Hr). apply not_true_iff_false in Hex.
      exfalso. apply Hex, existsb_elem. exists i. rewrite Hu. by rewrite bool_decide_true.
Qed.

(** the planner always answers, and each error means what it says: an
    invalid history has an empty unit or a repeated source identity; the
    too-large errors are returned when the protected units alone do not fit,
    and blame a pending round exactly when a unit is incomplete; no eligible
    work means the retained tail covers every eligible unit, and in recovery
    that there is none. *)
Theorem plan_compaction_errors :
  ∃ r, plan_compaction = Some r ∧
  match r with
  | Ok _ => True
  | Err InvalidHistory =>
      ¬ (Forall (λ u, sources u ≠ []) units ∧ NoDup (identity_of <$> (units ≫= sources)))
  | Err PendingRoundTooLarge =>
      fits_from (length units) = false ∧ ∃ u, u ∈ units ∧ complete u = false
  | Err ProtectedInputTooLarge =>
      fits_from (length units) = false ∧ ∀ u, u ∈ units → complete u = true
  | Err NoEligibleWork =>
      ∃ k, best_cut k ∧ dropped_before k = [] ∧ (recovery = true → ∀ i, eligible_at i = false)
  end.
Proof.
  unfold plan_compaction. destruct (valid_history _ _) eqn:Hvalid; cycle 1.
  { exists (Err InvalidHistory). split; [done|]. intros [? ?].
    apply not_true_iff_false in Hvalid. apply Hvalid, valid_history_spec. set_solver. }
  destruct planner_loops as [(R & k & -> & HR & Hbest)|[-> Hfit]].
  - exists (finish_plan R). split; [done|].
    destruct (finish_plan_spec k R HR) as (k' & Hk & Hor & Hf).
    destruct (finish_plan R) as [|e]; [done|]. destruct Hf as (-> & Hd & Hnone).
    exists k. split; [done|]. destruct Hor as [->|(_ & _ & o & Ho)]; [done|congruence].
  - exists (Err shrink_error). split; [done|]. unfold shrink_error.
    destruct (existsb _ _) eqn:Hex; (split; [done|]).
    + apply existsb_elem in Hex as (u & Hu & Hc). exists u. by simplify_result.
    + intros u Hu. apply not_true_iff_false in Hex. destruct (complete u) eqn:Hc; [done|].
      exfalso. apply Hex, existsb_elem. exists u. by rewrite Hc.
Qed.
End planner.

(** [union_sources]: delivery snapshots are merged by identity, a conflicting
    version of an identity is an error. *)
Definition union_step (st : gmap (string * string) string * list SourceRef) (s : SourceRef)
    : result failure (gmap (string * string) string * list SourceRef) :=
  match fst st !! identity_of s with
  | Some previous =>
      ensure (bool_decide (previous = version s)) (Bail "conflicting source revisions");;
      Ok st
  | None => Ok (<[identity_of s := version s]> (fst st), snd st ++ [s])
  end.

Definition union_sources (groups : list (list SourceRef)) : result failure (list SourceRef) :=
  st ← foldlM union_step (∅, []) (concat groups);
  Ok (snd st).

(** ** Source unions *)
Lemma source_eq s s' : identity_of s = identity_of s' → version s = version s' → s = s'.
Proof. destruct s, s'; unfold identity_of; simpl; congruence. Qed.

(** After a prefix [done] the state holds each of its sources once. *)
Definition union_inv (done : list SourceRef) (st : gmap (string * string) string * list SourceRef) :=
  (∀ k v, fst st !! k = Some v ↔ ∃ s, s ∈ snd st ∧ identity_of s = k ∧ version s = v) ∧
  NoDup (identity_of <$> snd st) ∧
  (∀ s, s ∈ snd st ↔ s ∈ done) ∧
  sublist (snd st) done.

Lemma union_step_inv prefix st s :
  union_inv prefix st →
  match union_step st s with
  | Ok st' => union_inv (prefix ++ [s]) st'
  | Err _ => ∃ s', s' ∈ prefix ∧ identity_of s' = identity_of s ∧ version s' ≠ version s
  end.
Proof.
  destruct st as [m acc]. intros (Hm & Hnd & Hin & Hsub); simpl in *. unfold union_step; simpl.
  destruct (m !! identity_of s) as [v|] eqn:Hs.
  - apply Hm in Hs as (s' & Hs' & Hid & <-). case_bool_decide as Hv; simpl; cycle 1.
    { exists s'. split; [by apply Hin|done]. }
    split; [done|]. split; [done|]. pose proof (source_eq _ _ Hid Hv); subst s'. split; simpl.
    + intros x. rewrite elem_of_app, list_elem_of_singleton, <-Hin. naive_solver.
    + by apply sublist_inserts_r.
  - assert (∀ s', s' ∈ acc → identity_of s' ≠ identity_of s) as Hfresh.
    { intros s' Hs' Hid. assert (m !! identity_of s = Some (version s')) by (apply Hm; eauto). congruence. }
    split; [|split; [|split]]; simpl.
    + intros k v. setoid_rewrite elem_of_app. setoid_rewrite list_elem_of_singleton.
      destruct (decide (k = identity_of s)) as [->|].
      * rewrite lookup_insert_eq. split.
        -- intros [= <-]. exists s. by auto.
        -- intros (s' & [Hs'| ->] & Hid & <-); [by apply Hfresh in Hs'|done].
      * rewrite lookup_insert_ne, Hm by done. split.
        -- intros (s' & ? & ? & ?). exists s'. by auto.
        -- intros (s' & [?| ->] & ? & ?); [by eauto|congruence].
    + rewrite fmap_app. apply NoDup_app. split; [done|]. split; [|apply NoDup_singleton].
      intros k (s' & -> & Hs')%list_elem_of_fmap ?%list_elem_of_singleton. by apply (Hfresh s').
    + intros x. rewrite !elem_of_app, Hin. done.
    + by apply sublist_app.
Qed.

Lemma union_loop prefix st l :
  union_inv prefix st →
  match foldlM union_step st l with
  | Ok st' => union_inv (prefix ++ l) st'
  | Err _ => ∃ s s', s ∈ prefix ++ l ∧ s' ∈ prefix ++ l ∧ identity_of s = identity_of s' ∧ version s ≠ version s'
  end.
Proof.
  revert prefix st; induction l as [|s l IH]; intros prefix st Hinv; simpl.
  { by rewrite app_nil_r. }
  pose proof (union_step_inv prefix st s Hinv) as Hstep.
  destruct (union_step st s) as [st'|]; simpl.
  - specialize (IH (prefix ++ [s]) st' Hstep). by rewrite <-app_assoc in IH.
  - destruct Hstep as (s' & ? & ? & ?). exists s', s. rewrite !elem_of_app, !elem_of_cons. by auto 8.
Qed.

Definition conflicting (l : list SourceRef) : Prop :=
  ∃ s s', s ∈ l ∧ s' ∈ l ∧ identity_of s = identity_of s' ∧ version s ≠ version s'.

(** overlapping delivery snapshots are merged by identity alone. The union
    fails exactly when two snapshots disagree on the version of a source;
    otherwise it contains every source of every snapshot once, in the order of
    first delivery. *)
Theorem union_sources_by_identity (groups : list (list SourceRef)) :
  match union_sources groups with
  | Ok l => ¬ conflicting (concat groups) ∧ NoDup (identity_of <$> l) ∧
      (∀ s, s ∈ l ↔ s ∈ concat groups) ∧ sublist l (concat groups)
  | Err _ => conflicting (concat groups)
  end.
Proof.
  unfold union_sources.
  assert (union_inv [] (∅, [])) as H0.
  { split; [|split; [constructor|done]]. intros k v; simpl. rewrite lookup_empty.
    split; [done|]. by intros (s & ?%elem_of_nil & _). }
  pose proof (union_loop [] (∅, []) (concat groups) H0) as Hl.
  destruct (foldlM _ _ _) as [[m l]|]; simpl in *; [|done].
  destruct Hl as (Hm & Hnd & Hin & Hsub); simpl in *. split; [|done].
  intros (s & s' & Hs%Hin & Hs'%Hin & Hid & Hv). apply Hv.
  assert (m !! identity_of s = Some (version s)) by (apply Hm; eauto).
  assert (m !! identity_of s = Some (version s')) by (rewrite Hid; apply Hm; eauto).
  congruence.
Qed.

(** ** Witnesses *)
Definition sample_unit (i : string) (t : N) : HistoryUnit :=
  {| sources := [mk_source "t" i "1"]; role := Own; unit_tokens := t;
     complete := true; protected_input := false |}.
Definition sample_units : list HistoryUnit :=
  [sample_unit "old" 50000; sample_unit "7" 7000; sample_unit "9" 9000; sample_unit "8" 8000].
Definition sample_digest (basis : string) (_ : list HistoryUnit) (_ : ModelBudget) (_ _ _ : N)
  (_ : CompactionMode) (_ : CoverageDomain) (_ : bool) : string := basis.
Definition tight : ModelBudget := new_budget (Some 32000) None None.
Definition sample_plan : CompactionPlan :=
  {| plan_mode := Normal; plan_coverage_domain := OwnContribution;
     compact := [0; 1]%nat; retain := [2; 3]%nat;
     coverage := [mk_source "t" "old" "1"; mk_source "t" "7" "1"]; fingerprint := "b" |}.

Lemma plan_compaction_best_cut_witness :
  ∃ k k', best_cut sample_units tight 10000 0 1000 Normal OwnContribution false k ∧
    [0; 1]%nat = dropped_before sample_units Normal OwnContribution k' ∧ [0; 1]%nat ≠ [] ∧
    [2; 3]%nat = kept_from sample_units Normal OwnContribution k' ∧
    (k' = k ∨ (false = true ∧ dropped_before sample_units Normal OwnContribution k = [] ∧
       ∃ o, [0; 1]%nat = [o])).
Proof.
  apply (plan_compaction_best_cut sample_units tight 10000 0 1000 Normal OwnContribution false "b"
           sample_digest sample_plan). vm_compute. reflexivity.
Defined.

Lemma plan_compaction_safe_witness :
  (∀ i, i ∈ [0; 1]%nat → ∃ u, sample_units !! i = Some u ∧ complete u = true ∧
     (role u = Own ∨ (OwnContribution = WorkingContext ∧ role u = Inherited)) ∧
     (protected_input u = false ∨ Normal = Emergency)) ∧
  NoDup (identity_of <$> coverage sample_plan).
Proof.
  pose proof (plan_compaction_safe sample_units tight 10000 0 1000 Normal OwnContribution false "b"
    sample_digest sample_plan ltac:(vm_compute; reflexivity)) as (H & _ & _ & _ & Hnd & _).
  split; [exact H|exact Hnd].
Defined.
