(* ===== verification/CompactionReplay.v ===== *)
(** * Replay aliases of frozen history

    Models [ReplayAliasGraph] of [crates/compaction/src/frozen.rs]: the policy
    that decides which historical copies of a source are suppressed. Edges are
    inserted one by one; a caller abandons the graph at the first error. A
    [BTreeMap] is a [gmap], a [BTreeSet] a [gset]. *)
From S2P Require Import Prelude Ordered CompactionHistory.

Record ScopedReplaySource := { thread : string; source : SourceRef }.
#[export] Instance ScopedReplaySource_eq_dec : EqDecision ScopedReplaySource.
Proof. solve_decision. Defined.
#[export] Instance ScopedReplaySource_countable : Countable ScopedReplaySource.
Proof.
  refine (inj_countable' (λ s, (thread s, source s)) (λ p, {| thread := p.1; source := p.2 |}) _).
  by intros [].
Defined.

(** The fields in the order of the derived comparison. *)
Definition replay_key (s : ScopedReplaySource) : list string :=
  [thread s; scope (source s); id (source s); version (source s)].
#[export] Instance replay_key_inj : Inj (=) (=) replay_key.
Proof. intros [? []] [? []]. unfold replay_key. simpl. congruence. Qed.

Record FrozenReplayEdge := {
  covered : ScopedReplaySource;
  replay : ScopedReplaySource;
  tool_item_id : option string;
}.

Record ReplayAliasGraph := {
  resolved : gmap ScopedReplaySource ScopedReplaySource;
  ambiguous_inputs : gset ScopedReplaySource;
  targets : gset ScopedReplaySource;
  kinds : gmap ScopedReplaySource bool;
}.
Definition empty_graph : ReplayAliasGraph :=
  {| resolved := ∅; ambiguous_inputs := ∅; targets := ∅; kinds := ∅ |}.

Definition is_input (s : ScopedReplaySource) : bool := String.prefix "input:" (scope (source s)).
Definition input_copy (e : FrozenReplayEdge) : bool :=
  bool_decide (tool_item_id e = None) && is_input (replay e) && is_input (covered e).

Definition mixes : failure := Bail "checkpoint replay alias mixes input and tool replay".
Definition is_ambiguous : failure := Bail "checkpoint replay alias is ambiguous".

Definition same_kind (g : ReplayAliasGraph) (e : FrozenReplayEdge) : result failure () :=
  match kinds g !! replay e with
  | Some previous_kind => ensure (bool_decide (previous_kind = input_copy e)) mixes
  | None => Ok ()
  end.

(** The two checks of the kind are the same: nothing changes it in between. *)
Definition insert_edge (g : ReplayAliasGraph) (e : FrozenReplayEdge) : result failure ReplayAliasGraph :=
  same_kind g e;;
  if input_copy e && bool_decide (replay e = covered e) then
    Ok {| resolved := delete (replay e) (resolved g);
          ambiguous_inputs := {[replay e]} ∪ ambiguous_inputs g;
          targets := targets g; kinds := <[replay e := true]> (kinds g) |}
  else
    same_kind g e;;
    let targets := {[covered e]} ∪ targets g in
    let kinds := <[replay e := input_copy e]> (kinds g) in
    if decide (replay e ∈ ambiguous_inputs g) then
      ensure (input_copy e) is_ambiguous;;
      Ok {| resolved := resolved g; ambiguous_inputs := ambiguous_inputs g;
            targets := targets; kinds := kinds |}
    else
      match resolved g !! replay e with
      | Some previous =>
          if decide (previous = covered e)
          then Ok {| resolved := resolved g; ambiguous_inputs := ambiguous_inputs g;
                     targets := targets; kinds := kinds |}
          else
            ensure (input_copy e) is_ambiguous;;
            Ok {| resolved := delete (replay e) (resolved g);
                  ambiguous_inputs := {[replay e]} ∪ ambiguous_inputs g;
                  targets := targets; kinds := kinds |}
      | None => Ok {| resolved := <[replay e := covered e]> (resolved g);
                      ambiguous_inputs := ambiguous_inputs g;
                      targets := targets; kinds := kinds |}
      end.

Definition insert_edges (es : list FrozenReplayEdge) : result failure ReplayAliasGraph :=
  foldlM insert_edge empty_graph es.

Definition outside : failure := Bail "checkpoint replay alias is outside historical coverage".
Definition validate_targets (g : ReplayAliasGraph) (leaves : gset ScopedReplaySource)
    : result failure () :=
  ensure (bool_decide (targets g ⊆ leaves)) outside.

Definition page_target (leaves : gset ScopedReplaySource) (st : option ScopedReplaySource * nat)
    (target : ScopedReplaySource) : result failure (option ScopedReplaySource * nat) :=
  ensure (bool_decide (target ∈ leaves)) outside;;
  Ok (Some target, st.2 + 1).
Definition validate_targets_page (g : ReplayAliasGraph) (leaves : gset ScopedReplaySource)
    (after : option ScopedReplaySource) : result failure (option ScopedReplaySource * bool) :=
  st ← foldlM (page_target leaves) (after, 0)
         (take 128 (range_after replay_key after (ordered_elements replay_key (targets g))));
  Ok (st.1, bool_decide (st.2 < 128)).

(** The last phase of [CachedGraphValidation::step], repeated until finished. *)
Fixpoint validate_pages (fuel : nat) (g : ReplayAliasGraph) (leaves : gset ScopedReplaySource)
    (target_after : option ScopedReplaySource) : option (result failure ()) :=
  match fuel with
  | O => None
  | Datatypes.S fuel =>
      match validate_targets_page g leaves target_after with
      | Err e => Some (Err e)
      | Ok (after, finished) =>
          if finished : bool then Some (Ok ()) else validate_pages fuel g leaves after
      end
  end.

Definition into_parts (g : ReplayAliasGraph)
    : gmap ScopedReplaySource ScopedReplaySource * gset ScopedReplaySource * gset ScopedReplaySource :=
  (resolved g, ambiguous_inputs g,
   dom (filter (λ k, snd k = true ∧ is_Some (resolved g !! fst k)) (kinds g))).

(** ** What a set of edges means *)
Section meaning.
Context (es : list FrozenReplayEdge).

(** No replay is both an input and a tool replay, and a tool replay has one source. *)
Definition consistent : Prop :=
  ∀ d e, d ∈ es → e ∈ es → replay d = replay e →
    input_copy d = input_copy e ∧ (input_copy d = false → covered d = covered e).

(** A replay with no claim or a conflicting one is visible; [claims r c] is a
    claim, and an input that claims itself withdraws every claim. *)
Definition claims (r c : ScopedReplaySource) : Prop := ∃ e, e ∈ es ∧ replay e = r ∧ covered e = c.
Definition self_input (r : ScopedReplaySource) : Prop :=
  ∃ e, e ∈ es ∧ replay e = r ∧ covered e = r ∧ input_copy e = true.
Definition contested (r : ScopedReplaySource) : Prop :=
  self_input r ∨ ∃ c c', claims r c ∧ claims r c' ∧ c ≠ c'.

Record represents (g : ReplayAliasGraph) : Prop := {
  rep_resolved r c : resolved g !! r = Some c ↔ claims r c ∧ ¬ contested r;
  rep_ambiguous r : r ∈ ambiguous_inputs g ↔ contested r;
  rep_targets c : c ∈ targets g ↔
    ∃ e, e ∈ es ∧ covered e = c ∧ ¬ (input_copy e = true ∧ replay e = covered e);
  rep_kinds r b : kinds g !! r = Some b ↔ ∃ e, e ∈ es ∧ replay e = r ∧ input_copy e = b;
}.
End meaning.

(** ** One more edge *)
Section snoc.
Context (es : list FrozenReplayEdge) (e : FrozenReplayEdge).

Lemma elem_snoc d : d ∈ es ++ [e] ↔ d ∈ es ∨ d = e.
Proof. by rewrite elem_of_app, list_elem_of_singleton. Qed.

Lemma claims_snoc r c : claims (es ++ [e]) r c ↔ claims es r c ∨ (replay e = r ∧ covered e = c).
Proof. unfold claims. setoid_rewrite elem_snoc. naive_solver. Qed.

Definition self_edge : Prop := input_copy e = true ∧ replay e = covered e.

Lemma contested_snoc r :
  contested (es ++ [e]) r ↔ contested es r ∨
    (r = replay e ∧ (self_edge ∨ ∃ c, claims es r c ∧ c ≠ covered e)).
Proof.
  unfold contested. setoid_rewrite claims_snoc. split.
  - intros [(d & [Hd| ->]%elem_snoc & Hr & Hc & Hi)|(c & c' & [Hc|[Hr Hc]] & [Hc'|[Hr' Hc']] & Hne)].
    + left. left. by exists d.
    + right. split; [done|]. left. split; [done|]. congruence.
    + left. right. by exists c, c'.
    + right. split; [done|]. right. exists c. split; [done|congruence].
    + right. split; [done|]. right. exists c'. split; [done|congruence].
    + congruence.
  - intros [[(d & Hd & Hr & Hc & Hi)|(c & c' & Hc & Hc' & Hne)]|[-> [[Hi Hs]|(c & Hc & Hne)]]].
    + left. exists d. rewrite elem_snoc. auto.
    + right. exists c, c'. auto.
    + left. exists e. rewrite elem_snoc. auto.
    + right. exists c, (covered e). auto.
Qed.

Lemma consistent_snoc :
  consistent (es ++ [e]) ↔ consistent es ∧
    ∀ d, d ∈ es → replay d = replay e →
      input_copy d = input_copy e ∧ (input_copy e = false → covered d = covered e).
Proof.
  unfold consistent. setoid_rewrite elem_snoc. split.
  - intros H. split; [intros; apply H; auto|]. intros d Hd Hr.
    destruct (H d e (or_introl Hd) (or_intror eq_refl) Hr) as [Hk Hc]. split; [done|]. by rewrite <-Hk.
  - intros [H He] d d' [Hd| ->] [Hd'| ->] Hr; [by apply H| | |done].
    + destruct (He d Hd Hr) as [Hk Hc]. split; [done|]. by rewrite Hk.
    + symmetry in Hr. destruct (He d' Hd' Hr) as [Hk Hc]. split; [done|]. intros Hi. symmetry. by apply Hc.
Qed.

Context (g : ReplayAliasGraph) (Hc : consistent es) (Hg : represents es g).

Lemma same_kind_spec :
  match same_kind g e with
  | Ok _ => ∀ d, d ∈ es → replay d = replay e → input_copy d = input_copy e
  | Err _ => ¬ consistent (es ++ [e])
  end.
Proof using Hg.
  unfold same_kind. destruct (kinds g !! replay e) as [b|] eqn:Hk.
  - destruct (bool_decide (b = input_copy e)) eqn:Hb; simpl.
    + apply bool_decide_eq_true in Hb as ->. intros d Hd Hr.
      assert (kinds g !! replay e = Some (input_copy d)) as Hkd by (apply (rep_kinds _ _ Hg); by exists d).
      congruence.
    + apply bool_decide_eq_false in Hb. apply (rep_kinds _ _ Hg) in Hk as (d & Hd & Hr & <-).
      intros [_ He]%consistent_snoc. by destruct (He d Hd Hr).
  - intros d Hd Hr. assert (kinds g !! replay e = Some (input_copy d)) by (apply (rep_kinds _ _ Hg); by exists d).
    congruence.
Qed.

Lemma no_claims r c : resolved g !! r = None → r ∉ ambiguous_inputs g → ¬ claims es r c.
Proof using Hg.
  intros Hr Ha Hcl. rewrite (rep_ambiguous _ _ Hg) in Ha.
  assert (resolved g !! r = Some c) by (by apply (rep_resolved _ _ Hg)). congruence.
Qed.

(** The kinds and the targets after the edge, whatever happens to its replay. *)
Lemma kinds_snoc r b :
  (∀ d, d ∈ es → replay d = replay e → input_copy d = input_copy e) →
  <[replay e := input_copy e]> (kinds g) !! r = Some b ↔
    ∃ d, d ∈ es ++ [e] ∧ replay d = r ∧ input_copy d = b.
Proof using Hg.
  intros Hk. rewrite lookup_insert_Some, (rep_kinds _ _ Hg). setoid_rewrite elem_snoc. split.
  - intros [[<- <-]|[_ (d & ? & ? & ?)]]; [by exists e; auto|exists d; auto].
  - intros (d & [Hd| ->] & Hr & Hb); [|by left].
    destruct (decide (replay e = r)) as [Heq|]; [left|right; split; [done|by exists d]].
    split; [done|]. rewrite <-Hb. symmetry. apply Hk; congruence.
Qed.
Lemma targets_snoc c :
  ¬ self_edge →
  c ∈ {[covered e]} ∪ targets g ↔
    ∃ d, d ∈ es ++ [e] ∧ covered d = c ∧ ¬ (input_copy d = true ∧ replay d = covered d).
Proof using Hg.
  intros Hs. rewrite elem_of_union, elem_of_singleton, (rep_targets _ _ Hg). setoid_rewrite elem_snoc. split.
  - intros [->|(d & ? & ? & ?)]; [exists e; auto|exists d; auto].
  - intros (d & [Hd| ->] & Hcd & Hn); [right; by exists d|by left].
Qed.

(** The state after a changed claim: the kinds and the targets follow from the
    edge, the two maps of claims are each case's own. *)
Context (Hkind : ∀ d, d ∈ es → replay d = replay e → input_copy d = input_copy e).

Lemma represents_step res amb :
  ¬ self_edge →
  (∀ r c, res !! r = Some c ↔ claims (es ++ [e]) r c ∧ ¬ contested (es ++ [e]) r) →
  (∀ r, r ∈ amb ↔ contested (es ++ [e]) r) →
  represents (es ++ [e])
    {| resolved := res; ambiguous_inputs := amb; targets := {[covered e]} ∪ targets g;
       kinds := <[replay e := input_copy e]> (kinds g) |}.
Proof using Hg Hkind.
  intros Hs Hres Hamb. split; cbn [resolved ambiguous_inputs targets kinds]; [done..| |].
  - intros c. by apply targets_snoc.
  - intros r b. by apply kinds_snoc.
Qed.

Lemma consistent_input : input_copy e = true → consistent (es ++ [e]).
Proof using Hc Hkind.
  intros Hi. apply consistent_snoc. split; [done|]. intros d Hd Hr. split; [by apply Hkind|by rewrite Hi].
Qed.
Lemma consistent_claims :
  (∀ c, claims es (replay e) c → c = covered e) → consistent (es ++ [e]).
Proof using Hc Hkind.
  intros Hcl. apply consistent_snoc. split; [done|]. intros d Hd Hr. split; [by apply Hkind|]. intros _.
  apply Hcl. by exists d.
Qed.
Lemma tool_contested : input_copy e = false → contested es (replay e) → ¬ consistent (es ++ [e]).
Proof using Hkind.
  intros Hi Hamb [_ He]%consistent_snoc.
  destruct Hamb as [(d & Hd & Hr & _ & Hid)|(c & c' & (d & Hd & Hr & <-) & (d' & Hd' & Hr' & <-) & Hne)].
  - specialize (Hkind d Hd Hr). congruence.
  - apply Hne. destruct (He d Hd Hr) as [_ ->]; [|done]. by destruct (He d' Hd' Hr') as [_ ->].
Qed.

(** An edge that agrees with every earlier claim contests nothing. *)
Lemma contested_agreeing r :
  ¬ self_edge → (∀ c, claims es (replay e) c → c = covered e) →
  contested (es ++ [e]) r ↔ contested es r.
Proof using.
  intros Hs Hcl. rewrite contested_snoc. split; [|by left].
  intros [?|[-> [?|(c & Hc' & Hne)]]]; [done..|]. by apply Hcl in Hc'.
Qed.

Lemma step_self :
  self_edge →
  represents (es ++ [e])
    {| resolved := delete (replay e) (resolved g); ambiguous_inputs := {[replay e]} ∪ ambiguous_inputs g;
       targets := targets g; kinds := <[replay e := true]> (kinds g) |}.
Proof using Hg Hkind.
  intros Hse. pose proof Hse as [Hi Hs]. split; simpl.
  - intros r c. rewrite lookup_delete_Some, (rep_resolved _ _ Hg), claims_snoc, contested_snoc.
    split; [intros [Hne [Hcl Hn]]; split; [by left|]; naive_solver|].
    intros [Hcl Hn]. assert (replay e ≠ r) as Hne by (intros <-; tauto). split; [done|]. tauto.
  - intros r. rewrite elem_of_union, elem_of_singleton, (rep_ambiguous _ _ Hg), contested_snoc. tauto.
  - intros c. rewrite (rep_targets _ _ Hg). setoid_rewrite elem_snoc. split; [naive_solver|].
    intros (d & [Hd| ->] & Hcd & Hn); [by exists d|by destruct Hn].
  - intros r b. rewrite <-Hi. by apply kinds_snoc.
Qed.

Lemma step_ambiguous :
  ¬ self_edge → contested es (replay e) →
  represents (es ++ [e])
    {| resolved := resolved g; ambiguous_inputs := ambiguous_inputs g;
       targets := {[covered e]} ∪ targets g; kinds := <[replay e := input_copy e]> (kinds g) |}.
Proof using Hg Hkind.
  intros Hs Hamb. apply represents_step; [done|..].
  - intros r c. rewrite (rep_resolved _ _ Hg), claims_snoc, contested_snoc. split; [|naive_solver].
    intros [Hcl Hn]. split; [by left|]. intros [?|[-> _]]; tauto.
  - intros r. rewrite (rep_ambiguous _ _ Hg), contested_snoc. split; [by left|]. by intros [?|[-> _]].
Qed.

Lemma step_repeated :
  ¬ self_edge → claims es (replay e) (covered e) → ¬ contested es (replay e) →
  (∀ c, claims es (replay e) c → c = covered e) →
  represents (es ++ [e])
    {| resolved := resolved g; ambiguous_inputs := ambiguous_inputs g;
       targets := {[covered e]} ∪ targets g; kinds := <[replay e := input_copy e]> (kinds g) |}.
Proof using Hg Hkind.
  intros Hs Hcl Hnc Huniq. apply represents_step; [done|..].
  - intros r c. rewrite (rep_resolved _ _ Hg), claims_snoc, contested_agreeing by done. split; [tauto|].
    by intros [[?|[<- <-]] ?].
  - intros r. by rewrite contested_agreeing, (rep_ambiguous _ _ Hg).
Qed.

Lemma step_conflict previous :
  ¬ self_edge → claims es (replay e) previous → previous ≠ covered e → ¬ contested es (replay e) →
  represents (es ++ [e])
    {| resolved := delete (replay e) (resolved g); ambiguous_inputs := {[replay e]} ∪ ambiguous_inputs g;
       targets := {[covered e]} ∪ targets g; kinds := <[replay e := input_copy e]> (kinds g) |}.
Proof using Hg Hkind.
  intros Hs Hcl Hne Hnc.
  assert (∀ r, contested (es ++ [e]) r ↔ contested es r ∨ r = replay e) as Hcont.
  { intros r. rewrite contested_snoc. split; [naive_solver|]. intros [?| ->]; [by left|right].
    split; [done|]. right. by exists previous. }
  apply represents_step; [done|..].
  - intros r c. rewrite lookup_delete_Some, (rep_resolved _ _ Hg), claims_snoc, Hcont.
    split; [intros [? [? ?]]; split; [by left|]; naive_solver|].
    intros [[?|[<- _]] Hn]; [|naive_solver]. split; [|tauto]. intros <-. tauto.
  - intros r. rewrite elem_of_union, elem_of_singleton, (rep_ambiguous _ _ Hg), Hcont. tauto.
Qed.

Lemma step_fresh :
  ¬ self_edge → (∀ c, ¬ claims es (replay e) c) → ¬ contested es (replay e) →
  represents (es ++ [e])
    {| resolved := <[replay e := covered e]> (resolved g); ambiguous_inputs := ambiguous_inputs g;
       targets := {[covered e]} ∪ targets g; kinds := <[replay e := input_copy e]> (kinds g) |}.
Proof using Hg Hkind.
  intros Hs Hnone Hnc. apply represents_step; [done|..].
  - intros r c. rewrite lookup_insert_Some, (rep_resolved _ _ Hg), claims_snoc, contested_agreeing by naive_solver.
    split.
    + intros [[<- <-]|[? [? ?]]]; [split; [by right|done]|split; [by left|done]].
    + intros [[Hcl|[<- <-]] Hn]; [|by left]. right. split; [|done]. intros <-. by apply Hnone in Hcl.
  - intros r. rewrite contested_agreeing by naive_solver. apply (rep_ambiguous _ _ Hg).
Qed.
End snoc.

Lemma insert_edge_spec es e g :
  consistent es → represents es g →
  match insert_edge g e with
  | Ok g' => consistent (es ++ [e]) ∧ represents (es ++ [e]) g'
  | Err _ => ¬ consistent (es ++ [e])
  end.
Proof.
  intros Hc Hg. unfold insert_edge. pose proof (same_kind_spec es e g Hg) as Hkind.
  destruct (same_kind g e) as [[]|]; cbn [mbind result_bind]; [|done].
  pose proof (consistent_input es e Hc Hkind) as Hinput.
  destruct (input_copy e && bool_decide (replay e = covered e)) eqn:Hself.
  { apply andb_true_iff in Hself as [Hi Hs%bool_decide_eq_true].
    split; [by apply Hinput|by apply step_self]. }
  assert (¬ self_edge e) as Hns.
  { intros [Hi Hs]. by rewrite Hi, bool_decide_eq_true_2 in Hself. }
  destruct (decide (replay e ∈ ambiguous_inputs g)) as [Hamb|Hamb]; rewrite (rep_ambiguous _ _ Hg) in Hamb.
  { destruct (input_copy e) eqn:Hi in |- *; cbn [ensure mbind result_bind]; [|by apply tool_contested].
    split; [by apply Hinput|]. rewrite <-Hi. by apply step_ambiguous. }
  destruct (resolved g !! replay e) as [previous|] eqn:Hres;
    [apply (rep_resolved _ _ Hg) in Hres as [Hcl _]; destruct (decide (previous = covered e)) as [->|Hprev]|].
  - assert (∀ c, claims es (replay e) c → c = covered e) as Huniq.
    { intros c Hc'. destruct (decide (c = covered e)); [done|]. exfalso. apply Hamb. right. by exists c, (covered e). }
    split; [by apply consistent_claims|by apply step_repeated].
  - destruct (input_copy e) eqn:Hi in |- *; cbn [ensure mbind result_bind].
    + split; [by apply Hinput|]. rewrite <-Hi. by apply (step_conflict es e g Hg) with previous.
    + intros [_ He]%consistent_snoc. destruct Hcl as (d & Hd & Hr & Hcd).
      destruct (He d Hd Hr) as [_ Heq]. rewrite Heq in Hcd by done. done.
  - assert (∀ c, ¬ claims es (replay e) c) as Hnone.
    { intros c. apply (no_claims es g Hg); [done|]. by rewrite (rep_ambiguous _ _ Hg). }
    split; [apply consistent_claims; naive_solver|by apply step_fresh].
Qed.

(** ** The whole graph *)
Lemma represents_empty : consistent [] ∧ represents [] empty_graph.
Proof.
  split; [by intros ? ? ?%elem_of_nil|]. unfold empty_graph.
  split; cbn [resolved ambiguous_inputs targets kinds]; intros;
    rewrite ?lookup_empty; unfold contested, claims, self_input; set_solver.
Qed.

Lemma insert_edges_spec es :
  match insert_edges es with
  | Ok g => consistent es ∧ represents es g
  | Err _ => ¬ consistent es
  end.
Proof.
  induction es as [|e es IH] using rev_ind; [apply represents_empty|].
  unfold insert_edges. rewrite foldlM_app. fold (insert_edges es).
  destruct (insert_edges es) as [g|] eqn:Hes; cbn [foldlM mbind result_bind].
  - destruct IH as [Hc Hg]. pose proof (insert_edge_spec es e g Hc Hg) as H.
    by destruct (insert_edge g e).
  - by intros [Hc _]%consistent_snoc.
Qed.

(** The meaning of a list of edges depends on its elements only. *)
Lemma consistent_same es es' : (∀ e, e ∈ es ↔ e ∈ es') → consistent es → consistent es'.
Proof. unfold consistent. intros H Hc d e. rewrite <-!H. apply Hc. Qed.
Lemma contested_same es es' r : (∀ e, e ∈ es ↔ e ∈ es') → contested es r ↔ contested es' r.
Proof. unfold contested, self_input, claims. intros H. by setoid_rewrite H. Qed.

Lemma represents_unique es es' g g' :
  (∀ e, e ∈ es ↔ e ∈ es') → represents es g → represents es' g' → g = g'.
Proof.
  intros H [R A T K] [R' A' T' K'].
  destruct g as [r a t k], g' as [r' a' t' k']; cbn [resolved ambiguous_inputs targets kinds] in *.
  assert (r = r') as ->.
  { apply map_eq_iff. intros i. apply option_eq. intros c. rewrite R, R', (contested_same _ _ _ H).
    unfold claims. by setoid_rewrite H. }
  assert (k = k') as ->.
  { apply map_eq_iff. intros i. apply option_eq. intros c. rewrite K, K'. by setoid_rewrite H. }
  assert (a = a') as ->.
  { apply set_eq. intros x. by rewrite A, A', (contested_same _ _ _ H). }
  assert (t = t') as -> by (apply set_eq; intros x; rewrite T, T'; by setoid_rewrite H).
  done.
Qed.

(** C32: The alias graph is decided by the set of its edges. Inserting them
    succeeds exactly when no replay is claimed both as an input copy and as a
    tool replay and no tool replay is claimed by two sources; the graph then
    suppresses exactly the copies with a single uncontested claim, under that
    claim, leaves visible the contested ones, and lists as input replays the
    suppressed ones whose edge is an input copy. In whatever order, and however
    often, the edges arrive, the graph is the same. *)
Theorem alias_graph_exact (es : list FrozenReplayEdge) :
  match insert_edges es with
  | Ok g =>
      consistent es ∧ represents es g ∧
      (∀ r, r ∈ (into_parts g).2 ↔
         (∃ c, resolved g !! r = Some c) ∧ ∃ e, e ∈ es ∧ replay e = r ∧ input_copy e = true) ∧
      ∀ es', (∀ e, e ∈ es ↔ e ∈ es') → insert_edges es' = Ok g
  | Err _ => ¬ consistent es
  end.
Proof.
  pose proof (insert_edges_spec es) as H. destruct (insert_edges es) as [g|]; [|done].
  destruct H as [Hc Hg]. split; [done|]. split; [done|]. split.
  - intros r. unfold into_parts. cbn [snd]. rewrite elem_of_dom. unfold is_Some at 1.
    setoid_rewrite map_lookup_filter_Some. cbn [fst snd]. setoid_rewrite (rep_kinds _ _ Hg).
    unfold is_Some. naive_solver.
  - intros es' Hs. pose proof (insert_edges_spec es') as H'. destruct (insert_edges es') as [g'|].
    + f_equal. symmetry. by apply (represents_unique es es' g g' Hs Hg (proj2 H')).
    + destruct H'. by apply (consistent_same es es' Hs Hc).
Qed.

(** ** Paging *)
Section pages.
Context (g : ReplayAliasGraph) (leaves : gset ScopedReplaySource).
Definition covered_by (l : list ScopedReplaySource) : Prop := Forall (.∈ leaves) l.

Lemma page_targets_spec l st :
  foldlM (page_target leaves) st l =
    if bool_decide (covered_by l) then
      Ok (from_option Some st.1 (last l), st.2 + length l)
    else Err outside.
Proof.
  unfold covered_by. revert st. induction l as [|x l IH] using rev_ind; intros [after n].
  { cbn. do 2 f_equal. lia. }
  rewrite foldlM_app, IH, last_snoc, length_app. cbn [foldlM length]. unfold page_target.
  destruct (decide (Forall (.∈ leaves) l)) as [Hl|Hl].
  - rewrite (bool_decide_true _ Hl). cbn [mbind result_bind fst snd]. destruct (decide (x ∈ leaves)) as [Hx|Hx].
    + rewrite !bool_decide_true by (done || (apply Forall_app; auto)). cbn. do 2 f_equal. lia.
    + by rewrite !bool_decide_false by (rewrite ?Forall_app, ?Forall_singleton; tauto).
  - rewrite (bool_decide_false _ Hl), (bool_decide_false (Forall _ (l ++ [x]))); [done|].
    rewrite Forall_app. tauto.
Qed.

Lemma pages_spec fuel : ∀ seen rest after,
  ordered_elements replay_key (targets g) = seen ++ rest →
  range_after replay_key after (ordered_elements replay_key (targets g)) = rest → (length rest < fuel)%nat →
  validate_pages fuel g leaves after = Some (ensure (bool_decide (covered_by rest)) outside).
Proof.
  induction fuel as [|fuel IH]; intros seen rest after Hseen Hrange Hfuel; [lia|].
  cbn [validate_pages]. unfold validate_targets_page. rewrite Hrange, page_targets_spec.
  assert (covered_by rest ↔ covered_by (take 128 rest) ∧ covered_by (drop 128 rest)) as Hsplit.
  { unfold covered_by. by rewrite <-Forall_app, take_drop. }
  destruct (decide (covered_by (take 128 rest))) as [Htake|Htake].
  2: { rewrite !bool_decide_false by tauto. done. }
  rewrite (bool_decide_true _ Htake). cbn [mbind result_bind fst snd]. rewrite length_take.
  destruct (decide (length rest < 128)) as [Hlast|Hmore].
  { rewrite (bool_decide_true (_ < 128)) by lia. rewrite (bool_decide_true (covered_by rest)); [done|].
    rewrite take_ge in Htake by lia. done. }
  rewrite (bool_decide_false (_ < 128)) by lia.
  destruct (last (take 128 rest)) as [x|] eqn:Hx; cbn [from_option].
  2: { apply last_None in Hx. apply (f_equal length) in Hx. rewrite length_take in Hx. cbn [length] in Hx. lia. }
  apply last_Some in Hx as [page Hpage].
  assert (length (drop 128 rest) < fuel)%nat as Hless by (rewrite length_drop; lia).
  assert (rest = page ++ x :: drop 128 rest) as Hrest.
  { rewrite <-(take_drop 128 rest) at 1. by rewrite Hpage, <-app_assoc. }
  remember (drop 128 rest) as more eqn:E. clear E.
  assert (ordered_elements replay_key (targets g) = (seen ++ page) ++ x :: more) as Hall by (by rewrite Hseen, Hrest, app_assoc).
  rewrite (IH ((seen ++ page) ++ [x]) more).
  - do 2 f_equal. apply bool_decide_ext. tauto.
  - by rewrite Hall, <-(app_assoc (seen ++ page)).
  - rewrite Hall. apply (range_after_cut replay_key). rewrite <-Hall.
    apply (ordered_elements_sorted replay_key).
  - done.
Qed.
End pages.

(** checking the targets in pages of 128 is checking them all. From the
    empty cursor, the loop over [validate_targets_page] ends within one page
    more than there are targets, and answers what [validate_targets] answers:
    each page continues exactly behind the last, skips no target and repeats
    none. *)
Theorem target_pages_exact (g : ReplayAliasGraph) (leaves : gset ScopedReplaySource) :
  validate_pages (size (targets g) + 1) g leaves None = Some (validate_targets g leaves).
Proof.
  rewrite (pages_spec g leaves _ [] (ordered_elements replay_key (targets g))).
  - unfold validate_targets, covered_by. do 2 f_equal. apply bool_decide_ext.
    rewrite Forall_forall. setoid_rewrite elem_ordered_elements. done.
  - done.
  - unfold range_after. generalize (ordered_elements replay_key (targets g)) as l. induction l as [|x l IH]; [done|].
    rewrite filter_cons, decide_True by done. by rewrite IH.
  - unfold ordered_elements. rewrite sort_on_perm.
    change (size (targets g)) with (length (elements (targets g))). lia.
Qed.
