(* ===== verification/CompactionFrozen.v ===== *)
(** * Frozen message references

    Models [FrozenMessageRef] of [crates/compaction/src/frozen.rs]: what a
    reference to a historical message must satisfy ([validate]) and the replay
    edges it publishes ([publication_edges_for]), which [CompactionReplay]
    resolves. A field whose name the model already uses carries the name of its
    record. *)
From Stdlib Require Import Ascii.
From S2P Require Import Prelude Ordered CompactionHistory CompactionReplay.

Record FrozenSourceAlias := {
  represented_thread : string; represented_source : SourceRef;
  alias_thread : string; alias_source : SourceRef;
}.
#[export] Instance FrozenSourceAlias_eq_dec : EqDecision FrozenSourceAlias.
Proof. solve_decision. Defined.

Record FrozenInputAliasConflict := { conflict_thread : string; conflict_source : SourceRef }.
#[export] Instance FrozenInputAliasConflict_eq_dec : EqDecision FrozenInputAliasConflict.
Proof. solve_decision. Defined.

Record FrozenPublicationAliases := {
  published_aliases : list FrozenSourceAlias;
  published_conflicts : list FrozenInputAliasConflict;
}.

Inductive FrozenEventInputRole := Authoritative | Deleted | InputCopy.

Record FrozenMessageRef := {
  logical_turn_id : option string;
  source_thread : string;
  context_thread : option string;
  unit_id : string;
  message_sources : list SourceRef;
  event_input_role : option FrozenEventInputRole;
  source_aliases : list FrozenSourceAlias;
  ambiguous_input_aliases : list FrozenInputAliasConflict;
  publication_aliases : option FrozenPublicationAliases;
  message_inherited : bool;
  message_complete : bool;
  message_protected_input : bool;
  wire_sha256 : string;
  replay_source : option SourceRef;
  message_tool_item_id : option string;
  tool_call_id : option string;
  tool_name : option string;
}.

(** ** Scopes *)
Definition has_scope (kind : string) (s : SourceRef) : bool := String.prefix kind (scope s).
Definition is_empty (s : string) : bool := bool_decide (s = "").

(** [str::strip_prefix] and [str::split_once(':')]. *)
Fixpoint strip_string (p s : string) : option string :=
  match p, s with
  | EmptyString, _ => Some s
  | String a p, String b s => if decide (a = b) then strip_string p s else None
  | String _ _, EmptyString => None
  end.
Fixpoint split_once (c : Ascii.ascii) (s : string) : option (string * string) :=
  match s with
  | EmptyString => None
  | String a s =>
      if decide (a = c) then Some ("", s)
      else '(kind, owner) ← split_once c s; Some (String a kind, owner)
  end.

Definition is_hexdigit (c : Ascii.ascii) : bool :=
  let n := Ascii.N_of_ascii c in
  bool_decide ((48 ≤ n ∧ n ≤ 57) ∨ (65 ≤ n ∧ n ≤ 70) ∨ (97 ≤ n ∧ n ≤ 102))%N.
Definition source_kinds : list string :=
  ["input"; "event"; "context"; "item"; "checkpoint"; "task-basis"].
Definition canonical_source (s : SourceRef) : bool :=
  negb (is_empty (id s)) && negb (is_empty (version s)) &&
  match split_once ":"%char (scope s) with
  | Some (kind, owner) => negb (is_empty owner) && bool_decide (kind ∈ source_kinds)
  | None => false
  end.

(** ** Publication *)
Section message.
Context (m : FrozenMessageRef).

Definition checkpoint_carrier : bool :=
  match message_sources m with [s] => has_scope "checkpoint:" s | _ => false end.
Definition published : list FrozenSourceAlias * list FrozenInputAliasConflict :=
  match publication_aliases m with
  | Some publication => (published_aliases publication, published_conflicts publication)
  | None => (source_aliases m, ambiguous_input_aliases m)
  end.

Definition alias_concerns (source : SourceRef) (a : FrozenSourceAlias) : bool :=
  (bool_decide (represented_thread a = source_thread m) && bool_decide (represented_source a = source))
  || (has_scope "checkpoint:" source
      && (has_scope "input:" (represented_source a) || has_scope "context:" (represented_source a))).

Definition scoped (t : string) (s : SourceRef) : ScopedReplaySource := {| thread := t; source := s |}.
Definition alias_edge (a : FrozenSourceAlias) : FrozenReplayEdge :=
  {| covered := scoped (represented_thread a) (represented_source a);
     replay := scoped (alias_thread a) (alias_source a); tool_item_id := None |}.
Definition conflict_edge (c : FrozenInputAliasConflict) : FrozenReplayEdge :=
  {| covered := scoped (conflict_thread c) (conflict_source c);
     replay := scoped (conflict_thread c) (conflict_source c); tool_item_id := None |}.
Definition replay_edge (source replay : SourceRef) : FrozenReplayEdge :=
  {| covered := scoped (source_thread m) source;
     replay := scoped (source_thread m) replay; tool_item_id := message_tool_item_id m |}.

Definition publication_edges_for (source : SourceRef) : list FrozenReplayEdge :=
  match replay_source m with Some r => [replay_edge source r] | None => [] end
  ++ (alias_edge <$> filter (λ a, alias_concerns source a = true) (fst published))
  ++ (conflict_edge <$> snd published).

(** ** Validation *)
Definition all_sources : list SourceRef :=
  message_sources m ++ (represented_source <$> source_aliases m) ++ (alias_source <$> source_aliases m)
  ++ (conflict_source <$> ambiguous_input_aliases m) ++ option_list (replay_source m).

Definition named (o : option string) : bool :=
  match o with Some s => negb (is_empty s) | None => true end.

(** An alias belongs to the message, is a copy it may stand for, and is not itself. *)
Definition alias_owned (a : FrozenSourceAlias) : bool :=
  (bool_decide (represented_thread a = source_thread m)
     && bool_decide (represented_source a ∈ message_sources m))
  || (checkpoint_carrier
      && (has_scope "input:" (represented_source a) || has_scope "context:" (represented_source a))).
Definition alias_copies (a : FrozenSourceAlias) : bool :=
  (has_scope "input:" (represented_source a) && has_scope "input:" (alias_source a))
  || (bool_decide (represented_thread a = alias_thread a)
      && match strip_string "context:" (scope (represented_source a)) with
         | Some turn => negb (is_empty turn)
                        && bool_decide (strip_string "event:" (scope (alias_source a)) = Some turn)
         | None => false
         end
      && negb (is_empty (version (alias_source a))) && negb (is_empty (version (represented_source a)))).
Definition valid_alias (a : FrozenSourceAlias) : bool :=
  negb (is_empty (represented_thread a)) && negb (is_empty (alias_thread a))
  && alias_owned a && alias_copies a
  && negb (bool_decide (represented_thread a = alias_thread a)
           && bool_decide (represented_source a = alias_source a)).
Definition valid_conflict (c : FrozenInputAliasConflict) : bool :=
  negb (is_empty (conflict_thread c)) && has_scope "input:" (conflict_source c).

Definition bail_unless (b : bool) (msg : string) : result failure () := ensure b (Bail msg).

Definition validate_publication (p : FrozenPublicationAliases) : result failure () :=
  bail_unless checkpoint_carrier "incremental replay publication requires a checkpoint carrier";;
  bail_unless
    (forallb (λ a, bool_decide (a ∈ source_aliases m)) (published_aliases p)
     && forallb (λ c, bool_decide (c ∈ ambiguous_input_aliases m)) (published_conflicts p))
    "incremental replay publication is not a subset of frozen evidence".

Definition validate : result failure () :=
  bail_unless (named (logical_turn_id m)) "frozen logical turn identity is empty";;
  bail_unless (negb (is_empty (source_thread m)) && negb (is_empty (unit_id m))
               && negb (bool_decide (message_sources m = [])))
    "frozen message identity is missing";;
  bail_unless
    (match event_input_role m with
     | None => true
     | Some _ => match message_sources m with [s] => has_scope "event:" s | _ => false end
     end)
    "frozen event-input evidence does not name one event source";;
  bail_unless (bool_decide (String.length (wire_sha256 m) = 64)
               && forallb is_hexdigit (String.list_ascii_of_string (wire_sha256 m)))
    "frozen wire digest is invalid";;
  bail_unless (named (context_thread m)) "frozen context owner is missing";;
  bail_unless (named (message_tool_item_id m)) "frozen tool item identity is empty";;
  foldlM (λ _ s, bail_unless (canonical_source s) "frozen source is not canonical") () all_sources;;
  bail_unless (forallb valid_alias (source_aliases m)) "frozen input alias identity is invalid";;
  bail_unless (forallb valid_conflict (ambiguous_input_aliases m)) "frozen ambiguous input identity is invalid";;
  match publication_aliases m with Some p => validate_publication p | None => Ok () end.
End message.

Record FrozenHistoryRef := {
  format : N; manifest_id : string; messages : N; identity_sha256 : string;
}.

(** The edges of the selected sources of some messages. *)
Definition selected_edges (selected : list (FrozenMessageRef * SourceRef)) : list FrozenReplayEdge :=
  '(m, s) ← selected; publication_edges_for m s.

(** ** What validation gives *)
Lemma strip_string_Some p s r : strip_string p s = Some r ↔ s = (p +:+ r)%string.
Proof.
  revert s; induction p as [|a p IH]; intros s.
  - change ("" +:+ r)%string with r. simpl. split; congruence.
  - change (String a p +:+ r)%string with (String a (p +:+ r)). destruct s as [|b s]; simpl; [split; congruence|].
    case_decide; subst; [rewrite IH|]; split; congruence.
Qed.

(** [c] may stand for its copy [r]. *)
Definition stands_for (c r : ScopedReplaySource) : Prop :=
  (is_input c = true ∧ is_input r = true) ∨
  (thread c = thread r ∧ ∃ turn, turn ≠ "" ∧
     scope (source c) = ("context:" +:+ turn)%string ∧ scope (source r) = ("event:" +:+ turn)%string).

Lemma valid_alias_edge m a :
  valid_alias m a = true →
  covered (alias_edge a) ≠ replay (alias_edge a) ∧ stands_for (covered (alias_edge a)) (replay (alias_edge a)).
Proof.
  unfold valid_alias. rewrite !andb_true_iff, negb_true_iff. intros [[_ Hcopies] Hself]. split.
  - intros [= H1 H2]. by rewrite !bool_decide_true in Hself.
  - unfold alias_copies in Hcopies. apply orb_true_iff in Hcopies as [Hin|Hctx]; [left; by apply andb_true_iff in Hin|].
    right. simplify_result. split; [done|].
    destruct (strip_string "context:" _) as [turn|] eqn:Hturn; [|done]. simplify_result.
    exists turn. unfold is_empty in *. split; [by simplify_result|]. simpl. by rewrite <-!strip_string_Some.
Qed.

Lemma valid_conflict_edge c :
  valid_conflict c = true → self_edge (conflict_edge c) ∧ input_copy (conflict_edge c) = true.
Proof.
  unfold valid_conflict. rewrite andb_true_iff. intros [_ Hi].
  assert (input_copy (conflict_edge c) = true) as Hcopy.
  { unfold input_copy, is_input. simpl. unfold has_scope in Hi. by rewrite Hi. }
  by repeat split.
Qed.

(** The published evidence is part of the frozen evidence, all of it valid. *)
Lemma validate_evidence m :
  validate m = Ok () →
  (∀ a, a ∈ fst (published m) → a ∈ source_aliases m ∧ valid_alias m a = true) ∧
  (∀ c, c ∈ snd (published m) → c ∈ ambiguous_input_aliases m ∧ valid_conflict c = true).
Proof.
  unfold validate, bail_unless. intros Hv. do 7 (apply bind_Ok in Hv as (? & _ & Hv)).
  apply bind_Ok in Hv as ([] & Ha%ensure_Ok & Hv). apply bind_Ok in Hv as ([] & Hc%ensure_Ok & Hv).
  rewrite forallb_forall in Ha, Hc. setoid_rewrite <-list_elem_of_In in Ha. setoid_rewrite <-list_elem_of_In in Hc.
  unfold published. destruct (publication_aliases m) as [p|]; cbn [fst snd]; [|by auto].
  unfold validate_publication, bail_unless in Hv. simplify_result.
  match goal with H1 : forallb _ (published_aliases p) = true, H2 : forallb _ (published_conflicts p) = true |- _ =>
    rewrite forallb_forall in H1, H2; setoid_rewrite <-list_elem_of_In in H1; setoid_rewrite <-list_elem_of_In in H2;
    split; intros x Hx; [apply H1 in Hx|apply H2 in Hx] end; apply bool_decide_eq_true in Hx; auto.
Qed.

(** Why a copy may be suppressed under [c]: it is the message's own replay of
    the source, or an alias of its frozen evidence. *)
Definition justifies (m : FrozenMessageRef) (s : SourceRef) (r c : ScopedReplaySource) : Prop :=
  (∃ rep, replay_source m = Some rep ∧ r = scoped (source_thread m) rep ∧ c = scoped (source_thread m) s) ∨
  (∃ a, a ∈ source_aliases m ∧ r = replay (alias_edge a) ∧ c = covered (alias_edge a) ∧
     c ≠ r ∧ stands_for c r).

Lemma elem_publication_edges m s e :
  e ∈ publication_edges_for m s ↔
    (∃ rep, replay_source m = Some rep ∧ e = replay_edge m s rep) ∨
    (∃ a, a ∈ fst (published m) ∧ alias_concerns m s a = true ∧ e = alias_edge a) ∨
    (∃ c, c ∈ snd (published m) ∧ e = conflict_edge c).
Proof.
  unfold publication_edges_for. rewrite !elem_of_app, !list_elem_of_fmap.
  setoid_rewrite list_elem_of_filter. destruct (replay_source m); rewrite ?list_elem_of_singleton, ?elem_of_nil; naive_solver.
Qed.
Lemma elem_selected_edges selected e :
  e ∈ selected_edges selected ↔ ∃ m s, (m, s) ∈ selected ∧ e ∈ publication_edges_for m s.
Proof.
  unfold selected_edges. rewrite list_elem_of_bind. split.
  - intros ([m s] & ? & ?). by exists m, s.
  - intros (m & s & ? & ?). by exists (m, s).
Qed.

(** validated messages publish only justified suppressions. When the edges of
    selected sources of valid messages form an alias graph, every copy it
    suppresses is the replay of a selected source by its own message or a copy
    an alias of the message's frozen evidence names, never itself, and either
    both are inputs or the copy is the event of the same turn in the same
    thread; and every published input conflict stays visible. *)
Theorem publication_justified (selected : list (FrozenMessageRef * SourceRef)) (g : ReplayAliasGraph) :
  (∀ m s, (m, s) ∈ selected → validate m = Ok ()) →
  insert_edges (selected_edges selected) = Ok g →
  (∀ r c, resolved g !! r = Some c → ∃ m s, (m, s) ∈ selected ∧ justifies m s r c) ∧
  (∀ m s conflict, (m, s) ∈ selected → conflict ∈ snd (published m) →
     let r := scoped (conflict_thread conflict) (conflict_source conflict) in
     r ∈ ambiguous_inputs g ∧ resolved g !! r = None).
Proof.
  intros Hvalid Hg. pose proof (insert_edges_spec (selected_edges selected)) as H.
  rewrite Hg in H. destruct H as [_ [Hres Hamb _ _]]. split.
  - intros r c Hrc. apply Hres in Hrc as [(e & He & <- & <-) Hnc].
    apply elem_selected_edges in He as (m & s & Hms & He). exists m, s. split; [done|].
    destruct (validate_evidence m (Hvalid m s Hms)) as [Haliases Hconflicts].
    apply elem_publication_edges in He as [(rep & Hrep & ->)|[(a & Ha & _ & ->)|(k & Hk & ->)]].
    + left. by exists rep.
    + right. destruct (Haliases a Ha) as [Hin Hval]. destruct (valid_alias_edge m a Hval) as [Hne Hst].
      exists a. done.
    + destruct (Hconflicts k Hk) as [_ [_ Hself]%valid_conflict_edge]. destruct Hnc. left.
      exists (conflict_edge k). split; [|by repeat split]. apply elem_selected_edges. exists m, s.
      split; [done|]. apply elem_publication_edges. right. right. by exists k.
  - intros m s k Hms Hk r. destruct (validate_evidence m (Hvalid m s Hms)) as [_ Hconflicts].
    destruct (Hconflicts k Hk) as [_ [_ Hself]%valid_conflict_edge].
    assert (contested (selected_edges selected) r) as Hc.
    { left. exists (conflict_edge k). split; [|by repeat split]. apply elem_selected_edges. exists m, s.
      split; [done|]. apply elem_publication_edges. right. right. by exists k. }
    split; [by apply Hamb|]. apply eq_None_not_Some. intros [c Hrc]. by apply Hres in Hrc as [_ ?].
Qed.

(** ** A task input, its transport copy and a withdrawn copy *)
Definition sample_source (s i : string) : SourceRef := mk_source s i "1".
Definition sample_message : FrozenMessageRef := {|
  logical_turn_id := None; source_thread := "parent"; context_thread := None; unit_id := "unit";
  message_sources := [sample_source "input:parent" "A"]; event_input_role := None;
  source_aliases := [
    {| represented_thread := "parent"; represented_source := sample_source "input:parent" "A";
       alias_thread := "child"; alias_source := sample_source "input:child" "B" |}];
  ambiguous_input_aliases := [
    {| conflict_thread := "child"; conflict_source := sample_source "input:child" "C" |}];
  publication_aliases := None; message_inherited := false; message_complete := true;
  message_protected_input := false;
  wire_sha256 := "00000000000000000000000000000000000000000000000000000000000000fF";
  replay_source := None; message_tool_item_id := None; tool_call_id := None; tool_name := None |}.
Definition sample_selected : list (FrozenMessageRef * SourceRef) :=
  [(sample_message, sample_source "input:parent" "A")].
Definition sample_copy : ScopedReplaySource := scoped "child" (sample_source "input:child" "B").
Definition sample_original : ScopedReplaySource := scoped "parent" (sample_source "input:parent" "A").

Example sample_graph :
  match insert_edges (selected_edges sample_selected) with
  | Ok g => resolved g !! sample_copy = Some sample_original ∧
            elements (ambiguous_inputs g) = [scoped "child" (sample_source "input:child" "C")] ∧
            validate_targets g {[sample_original]} = Ok () ∧
            validate_pages 2 g ∅ None = Some (Err outside)
  | Err _ => False
  end.
Proof. by vm_compute. Qed.

(** A second claim of the same input makes it visible; of a tool replay it is an error. *)
Example sample_conflict :
  let other := scoped "other" (sample_source "input:other" "D") in
  let claim item c := {| covered := c; replay := sample_copy; tool_item_id := item |} in
  match insert_edges [claim None sample_original; claim None other] with
  | Ok g => resolved g !! sample_copy = None ∧ sample_copy ∈ ambiguous_inputs g
  | Err _ => False
  end ∧
  insert_edges [claim (Some "t") sample_original; claim (Some "t") other] = Err is_ambiguous ∧
  insert_edges [claim (Some "t") sample_original; claim None sample_original] = Err mixes.
Proof. split; [|by vm_compute]. split; [by vm_compute|]. apply (bool_decide_unpack _). by vm_compute. Qed.

Lemma publication_justified_witness :
  ∃ m s, (m, s) ∈ sample_selected ∧ justifies m s sample_copy sample_original.
Proof.
  assert (match insert_edges (selected_edges sample_selected) with
          | Ok g => resolved g !! sample_copy | Err _ => None end = Some sample_original) as Hl by (by vm_compute).
  destruct (insert_edges (selected_edges sample_selected)) as [g|] eqn:Hg; [|discriminate Hl].
  destruct (publication_justified sample_selected g) as [H _].
  - intros m s [= -> ->]%list_elem_of_singleton. vm_compute. reflexivity.
  - exact Hg.
  - exact (H sample_copy sample_original Hl).
Defined.
