(* ===== verification/CompactionCanonical.v ===== *)
(** * Canonical rounds

    Models [canonical_rounds] of [crates/compaction/src/canonical.rs]: provider
    transcript records grouped into rounds of an assistant message and the tool
    results it asked for. A payload is a [serde_json::Value], whose type and
    accessors are the interface [JsonValue]; nothing is assumed about it but
    decidable equality. *)
From S2P Require Import Prelude CompactionHistory.

Class JsonValue (V : Type) := {
  json_eq_dec :: EqDecision V;
  get : V → string → option V;
  as_array : V → option (list V);
  as_str : V → option string;
  as_u64 : V → option N;
  as_bool : V → option bool;
  null : V;
  is_null : V → bool;
  from_u64 : N → V;
}.
(** [value[key]]. *)
Definition field `{JsonValue V} (v : V) (key : string) : V := default null (get v key).
(** [value == "text"] and [value == false]. *)
Definition is_str `{JsonValue V} (v : V) (s : string) : bool := bool_decide (as_str v = Some s).
Definition is_bool `{JsonValue V} (v : V) (b : bool) : bool := bool_decide (as_bool v = Some b).

Section canonical.
Context `{JsonValue Value}.

Record CanonicalRecord := {
  reference : SourceRef; source_type : string; item_id : option string; payload : Value;
}.
Record CanonicalRound := {
  round_sources : list SourceRef; round_messages : list Value; round_complete : bool;
}.

(** Item, provider and tool name of a call. *)
Record Call := { call_item : string; call_provider : string; call_name : string }.
Record Pending := {
  pending_source : SourceRef;
  pending_message : Value;
  calls : list Call;
  results : gmap string (SourceRef * Value);
}.

Definition answer (results : gmap string (SourceRef * Value)) (round : CanonicalRound) (c : Call) : CanonicalRound :=
  match results !! call_item c with
  | Some (source, value) =>
      {| round_sources := round_sources round ++ [source];
         round_messages := round_messages round ++ [value]; round_complete := round_complete round |}
  | None => {| round_sources := round_sources round;
               round_messages := round_messages round; round_complete := false |}
  end.
Definition finish (p : Pending) : CanonicalRound :=
  foldl (answer (results p))
    {| round_sources := [pending_source p]; round_messages := [pending_message p]; round_complete := true |}
    (calls p).

Definition bail {A} (msg : string) : result failure A := Err (Bail msg).
Definition check (b : bool) (msg : string) : result failure () := ensure b (Bail msg).
Definition required {A} (o : option A) (msg : string) : result failure A := ok_or o (Bail msg).

(** The call identities of an assistant message. *)
Record CallScan := { ordinal : N; items : gset string; providers : gset string; scanned_calls : list Call }.
Definition scan_call (st : CallScan) (p : Value * Value) : result failure CallScan :=
  let '(tool, identity) := p in
  item ← required (as_str (field identity "turn_item_id")) "missing item identity";
  provider ← required (as_str (field identity "provider_call_id")) "missing call identity";
  name ← required (as_str (field tool "name")) "missing tool name";
  check (negb (bool_decide (item = "")) && negb (bool_decide (provider = "")) && negb (bool_decide (name = ""))
         && bool_decide (item ∉ items st) && bool_decide (provider ∉ providers st)
         && bool_decide (as_u64 (field identity "ordinal") = Some (ordinal st))
         && is_str (field tool "id") provider)
    "invalid canonical call mapping";;
  Ok {| ordinal := ordinal st + 1; items := {[item]} ∪ items st; providers := {[provider]} ∪ providers st;
        scanned_calls := scanned_calls st ++ [{| call_item := item; call_provider := provider; call_name := name |}] |}.
Definition scan_calls (tools ids : list Value) : result failure (list Call) :=
  st ← foldlM scan_call {| ordinal := 0; items := ∅; providers := ∅; scanned_calls := [] |} (zip tools ids);
  Ok (scanned_calls st).

(** [tool_calls] is absent, null or an empty array. *)
Definition no_tools (message : Value) : bool :=
  match get message "tool_calls" with
  | None => true
  | Some tools => is_null tools || match as_array tools with Some [] => true | _ => false end
  end.

(** An assistant record opens a round, or is one. *)
Definition assistant_round (row : CanonicalRecord) : result failure (CanonicalRound + Pending) :=
  message ← required (get (payload row) "message") "missing canonical assistant";
  check (is_str (field message "role") "assistant") "invalid canonical assistant role";;
  if no_tools message then
    check (is_str (field (field (payload row) "termination") "kind") "complete"
           && match as_array (field (payload row) "calls") with Some [] => true | _ => false end)
      "invalid canonical assistant response";;
    Ok (inl {| round_sources := [reference row]; round_messages := [message]; round_complete := true |})
  else
    tools ← required (as_array (field message "tool_calls")) "missing canonical tool calls";
    ids ← required (as_array (field (payload row) "calls")) "missing canonical call identities";
    check (bool_decide (length tools = length ids) && negb (bool_decide (tools = []))) "incomplete call identities";;
    cs ← scan_calls tools ids;
    Ok (inr {| pending_source := reference row; pending_message := message; calls := cs; results := ∅ |}).

Definition tool_result (p : Pending) (row : CanonicalRecord) : result failure Pending :=
  item ← required (item_id row) "tool result has no item identity";
  call ← required (list_find (λ c, call_item c = item) (calls p)) "tool result belongs to another round";
  check (is_bool (field (payload row) "truncated") false) "truncated canonical result";;
  let message := field (payload row) "value" in
  check (is_str (field message "role") "tool" && is_str (field message "tool_call_id") (call_provider call.2)
         && is_str (field message "name") (call_name call.2))
    "canonical tool result identity mismatch";;
  check (bool_decide (results p !! item = None)) "conflicting terminal tool results";;
  Ok {| pending_source := pending_source p; pending_message := pending_message p; calls := calls p;
        results := <[item := (reference row, message)]> (results p) |}.

Inductive RowKind := AssistantRow | ToolResultRow | OtherRow.
Definition kind_of (row : CanonicalRecord) : RowKind :=
  if bool_decide (source_type row = "assistant_round")
     && bool_decide (get (payload row) "version" = Some (from_u64 1)) then AssistantRow
  else if bool_decide (source_type row = "tool_result_v2") then ToolResultRow
  else OtherRow.

Definition observation_round (row : CanonicalRecord) : CanonicalRound :=
  {| round_sources := [reference row]; round_messages := [payload row]; round_complete := false |}.

Record RoundState := {
  rounds : list CanonicalRound; pending : option Pending; seen : gmap SourceRef Value;
}.
Definition initial_rounds : RoundState := {| rounds := []; pending := None; seen := ∅ |}.
(** [if let Some(round) = pending.take() { rounds.push(round.finish()) }]. *)
Definition flush (st : list CanonicalRound * option Pending) : list CanonicalRound :=
  st.1 ++ match st.2 with Some p => [finish p] | None => [] end.

Definition next_row (st : list CanonicalRound * option Pending) (row : CanonicalRecord)
    : result failure (list CanonicalRound * option Pending) :=
  match kind_of row with
  | AssistantRow =>
      r ← assistant_round row;
      match r with
      | inl round => Ok (flush st ++ [round], None)
      | inr p => Ok (flush st, Some p)
      end
  | ToolResultRow =>
      p ← required st.2 "tool result has no canonical round";
      p ← tool_result p row;
      Ok (st.1, Some p)
  | OtherRow => Ok (flush st ++ [observation_round row], None)
  end.

Definition round_step (st : RoundState) (row : CanonicalRecord) : result failure RoundState :=
  let now_seen := <[reference row := payload row]> (seen st) in
  match seen st !! reference row with
  | Some previous =>
      check (bool_decide (previous = payload row)) "conflicting canonical source revision";;
      Ok {| rounds := rounds st; pending := pending st; seen := now_seen |}
  | None =>
      next ← next_row (rounds st, pending st) row;
      Ok {| rounds := next.1; pending := next.2; seen := now_seen |}
  end.

Definition canonical_rounds (records : list CanonicalRecord) : result failure (list CanonicalRound) :=
  st ← foldlM round_step initial_rounds records;
  Ok (flush (rounds st, pending st)).

(** ** What a round is *)

(** The record answers the call. *)
Definition answers_call (c : Call) (row : CanonicalRecord) : Prop :=
  kind_of row = ToolResultRow ∧ item_id row = Some (call_item c) ∧
  is_bool (field (payload row) "truncated") false = true ∧
  let message := field (payload row) "value" in
  is_str (field message "role") "tool" = true ∧
  is_str (field message "tool_call_id") (call_provider c) = true ∧
  is_str (field message "name") (call_name c) = true.
Definition answer_of (answers : list CanonicalRecord) (c : Call) : option CanonicalRecord :=
  head (filter (λ row, item_id row = Some (call_item c)) answers).
Definition answers_round (p : Pending) (answers : list CanonicalRecord) : Prop :=
  NoDup (item_id <$> answers) ∧ ∀ row, row ∈ answers → ∃ c, c ∈ calls p ∧ answers_call c row.
Definition message_of (row : CanonicalRecord) : Value := field (payload row) "value".

(** The assistant, then the answers in the order of the calls. *)
Definition answered_round (p : Pending) (answers : list CanonicalRecord) : CanonicalRound :=
  {| round_sources := pending_source p :: (reference <$> omap (answer_of answers) (calls p));
     round_messages := pending_message p :: (message_of <$> omap (answer_of answers) (calls p));
     round_complete := bool_decide (Forall (λ c, is_Some (answer_of answers c)) (calls p)) |}.

Inductive segment : list CanonicalRecord → CanonicalRound → Prop :=
  | segment_observation row :
      kind_of row = OtherRow → segment [row] (observation_round row)
  | segment_final row round :
      kind_of row = AssistantRow → assistant_round row = Ok (inl round) → segment [row] round
  | segment_round row p answers :
      kind_of row = AssistantRow → assistant_round row = Ok (inr p) → answers_round p answers →
      segment (row :: answers) (answered_round p answers).

(** The first record of every reference. *)
Fixpoint fresh_rows (known : gset SourceRef) (l : list CanonicalRecord) : list CanonicalRecord :=
  match l with
  | [] => []
  | row :: l =>
      if decide (reference row ∈ known) then fresh_rows known l
      else row :: fresh_rows ({[reference row]} ∪ known) l
  end.
Definition same_revisions (l : list CanonicalRecord) : Prop :=
  ∀ r r', r ∈ l → r' ∈ l → reference r = reference r' → payload r = payload r'.

(** ** Calls *)
Lemma scan_calls_distinct tools ids cs :
  scan_calls tools ids = Ok cs → NoDup (call_item <$> cs).
Proof.
  unfold scan_calls. intros (st & Hst & [= <-])%bind_Ok.
  cut (NoDup (call_item <$> scanned_calls st) ∧ ∀ i, i ∈ call_item <$> scanned_calls st → i ∈ items st); [tauto|].
  refine (foldlM_ind (λ st, NoDup (call_item <$> scanned_calls st) ∧
    ∀ i, i ∈ call_item <$> scanned_calls st → i ∈ items st) scan_call (zip tools ids) _ _ _ _ Hst).
  - clear st Hst. intros st [tool identity] st' _ [Hnd Hin] Hstep. unfold scan_call, check, required in Hstep.
    simplify_result. cbn [scanned_calls items]. rewrite fmap_app. cbn. split.
    + apply NoDup_app. split; [done|]. split; [|apply NoDup_singleton].
      intros i Hi%Hin ->%list_elem_of_singleton. done.
    + intros i [Hi| ->%list_elem_of_singleton]%elem_of_app; set_solver.
  - split; [constructor|]. by intros i ?%elem_of_nil.
Qed.

Lemma assistant_calls row p :
  assistant_round row = Ok (inr p) → NoDup (call_item <$> calls p) ∧ results p = ∅.
Proof.
  unfold assistant_round, check, required. intros H1. simplify_result. case_in H1; simplify_result.
  split; [by eapply scan_calls_distinct|done].
Qed.

(** ** A pending round and its answers *)
Lemma finish_spec p :
  finish p =
    {| round_sources := pending_source p :: omap (λ c, fst <$> results p !! call_item c) (calls p);
       round_messages := pending_message p :: omap (λ c, snd <$> results p !! call_item c) (calls p);
       round_complete := bool_decide (Forall (λ c, is_Some (results p !! call_item c)) (calls p)) |}.
Proof.
  unfold finish.
  assert (∀ round, foldl (answer (results p)) round (calls p) =
    {| round_sources := round_sources round ++ omap (λ c, fst <$> results p !! call_item c) (calls p);
       round_messages := round_messages round ++ omap (λ c, snd <$> results p !! call_item c) (calls p);
       round_complete := round_complete round &&
         bool_decide (Forall (λ c, is_Some (results p !! call_item c)) (calls p)) |}) as Hfold; [|by rewrite Hfold].
  induction (calls p) as [|c cs IH]; intros round; cbn [foldl].
  - cbn. rewrite !app_nil_r. rewrite andb_true_r. by destruct round.
  - rewrite IH. unfold answer. cbn [omap list_omap].
    destruct (results p !! call_item c) as [[source value]|] eqn:Hc; cbn.
    + rewrite <-!app_assoc. f_equal. f_equal. apply bool_decide_ext.
      rewrite Forall_cons, Hc. split; [|by intros [_ ?]]. intros ?. split; [by eexists|done].
    + f_equal. rewrite bool_decide_false; [by rewrite andb_false_r|].
      rewrite Forall_cons, Hc. by intros [[? [=]] _].
Qed.

Lemma answer_of_snoc answers row c :
  answer_of (answers ++ [row]) c =
    match answer_of answers c with
    | Some a => Some a
    | None => if decide (item_id row = Some (call_item c)) then Some row else None
    end.
Proof.
  unfold answer_of. rewrite filter_app, filter_cons.
  destruct (filter _ answers) as [|a l]; [|done]. simpl. by case_decide.
Qed.
Lemma answer_of_None answers c :
  answer_of answers c = None ↔ Some (call_item c) ∉ item_id <$> answers.
Proof.
  unfold answer_of. split.
  - intros Hn (row & Heq & Hin)%list_elem_of_fmap. by apply (head_filter_None _ _ Hn row Hin).
  - intros Hn. destruct (head _) as [row|] eqn:Hrow; [|done]. destruct Hn.
    apply head_filter_Some in Hrow as (l1 & l2 & -> & Hid & _). rewrite <-Hid.
    apply (list_elem_of_fmap_2 item_id). set_solver.
Qed.
Lemma answer_of_Some answers c row : answer_of answers c = Some row → row ∈ answers ∧ item_id row = Some (call_item c).
Proof. intros (l1 & l2 & -> & Hid & _)%head_filter_Some. split; [set_solver|done]. Qed.

Record holds (p0 : Pending) (answers : list CanonicalRecord) (p : Pending) : Prop := {
  holds_source : pending_source p = pending_source p0;
  holds_message : pending_message p = pending_message p0;
  holds_calls : calls p = calls p0;
  holds_results c : results p !! call_item c = (λ row, (reference row, message_of row)) <$> answer_of answers c;
}.

Lemma finish_holds p0 answers p : holds p0 answers p → finish p = answered_round p0 answers.
Proof.
  intros [Hs Hm Hc Hr]. rewrite finish_spec. unfold answered_round. rewrite Hs, Hm, Hc, !list_fmap_omap.
  assert (∀ {B} (f : SourceRef * Value → B) (cs : list Call),
    omap (λ c, f <$> results p !! call_item c) cs =
    omap (λ c, (λ row, f (reference row, message_of row)) <$> answer_of answers c) cs) as Homap.
  { intros B f cs. induction cs as [|c cs IH]; [done|]. cbn [omap list_omap].
    rewrite Hr. destruct (answer_of answers c); cbn; by rewrite IH. }
  rewrite !Homap. f_equal. apply bool_decide_ext. apply Forall_iff. intros c. rewrite Hr. apply fmap_is_Some.
Qed.

Lemma holds_fresh p : results p = ∅ → holds p [] p.
Proof. intros Hr. split; [done..|]. intros c. by rewrite Hr, lookup_empty. Qed.

Lemma call_of (cs : list Call) c :
  NoDup (call_item <$> cs) → c ∈ cs → ∃ i, list_find (λ d, call_item d = call_item c) cs = Some (i, c).
Proof.
  intros Hnd Hc. destruct (list_find_elem_of (λ d, call_item d = call_item c) cs c Hc eq_refl) as [[i d] Hd].
  exists i. rewrite Hd. apply list_find_Some in Hd as (Hd & Hid & _). do 2 f_equal.
  apply list_elem_of_lookup in Hc as [j Hj].
  assert (i = j) as ->.
  { apply (NoDup_lookup _ i j (call_item c) Hnd); rewrite list_lookup_fmap; [by rewrite Hd, <-Hid|by rewrite Hj]. }
  congruence.
Qed.

(** The next tool result is taken exactly when it answers a call not answered yet. *)
Lemma tool_result_spec p0 answers p row :
  NoDup (call_item <$> calls p0) → holds p0 answers p → answers_round p0 answers → kind_of row = ToolResultRow →
  match tool_result p row with
  | Ok p' => holds p0 (answers ++ [row]) p' ∧ answers_round p0 (answers ++ [row])
  | Err _ => ¬ answers_round p0 (answers ++ [row])
  end.
Proof.
  intros Hnd Hp [Hids Hans] Hkind. destruct (tool_result p row) as [p'|e] eqn:Hres.
  - unfold tool_result, check, required in Hres. simplify_result.
    match goal with H1 : item_id row = Some ?x, H2 : list_find _ _ = Some ?c |- _ => rename x into item, c into found, H1 into Hitem, H2 into Hfind end.
    destruct found as [i c]. apply list_find_Some in Hfind as (Hc & <- & _). cbn [snd] in *.
    match goal with H1 : results p !! call_item c = None |- _ => rename H1 into Hnone end.
    assert (answer_of answers c = None) as Hfresh.
    { rewrite (holds_results _ _ _ Hp) in Hnone. by destruct (answer_of answers c). }
    split; [split; cbn [pending_source pending_message calls results]; try apply Hp|split].
    + intros d. rewrite answer_of_snoc, Hitem. destruct (decide (call_item c = call_item d)) as [Heq|Hne].
      * rewrite Heq, lookup_insert, (decide_True (P:=call_item d = call_item d)) by done.
        assert (answer_of answers d = None) as -> by (unfold answer_of in *; by rewrite <-Heq).
        by rewrite (decide_True (P:=Some (call_item d) = Some (call_item d))).
      * rewrite lookup_insert_ne, (holds_results _ _ _ Hp) by done.
        destruct (answer_of answers d); [done|]. by rewrite decide_False by congruence.
    + rewrite fmap_app. apply NoDup_app. split; [done|]. split; [|apply NoDup_singleton].
      intros x Hx ->%list_elem_of_singleton. apply answer_of_None in Hfresh. by rewrite Hitem in Hx.
    + intros r [Hr| ->%list_elem_of_singleton]%elem_of_app; [by apply Hans|].
      exists c. split; [rewrite <-(holds_calls _ _ _ Hp); by apply list_elem_of_lookup_2 in Hc|].
      by repeat split.
  - intros [Hids' Hans']. destruct (Hans' row) as (c & Hc & _ & Hitem & Htr & Hrole & Hcall & Hname); [set_solver|].
    destruct (call_of _ _ Hnd Hc) as [i Hi].
    assert (results p !! call_item c = None) as Hnone.
    { rewrite (holds_results _ _ _ Hp). rewrite fmap_app in Hids'. apply NoDup_app in Hids' as (_ & Hd & _).
      assert (answer_of answers c = None) as ->; [|done]. apply answer_of_None. intros Hin.
      apply (Hd _ Hin). rewrite <-Hitem. set_solver. }
    unfold tool_result, check, required in Hres. rewrite Hitem in Hres. cbn [ok_or mbind result_bind] in Hres.
    rewrite (holds_calls _ _ _ Hp), Hi in Hres. cbn [ok_or mbind result_bind snd] in Hres.
    rewrite Htr, Hrole, Hcall, Hname in Hres. cbn [andb ensure mbind result_bind] in Hres.
    by rewrite Hnone in Hres.
Qed.

(** ** Grouping *)
Definition segmented (rows : list CanonicalRecord) (rs : list CanonicalRound) : Prop :=
  ∃ segs, concat segs = rows ∧ Forall2 segment segs rs.

Lemma segmented_snoc rows rs seg round :
  segmented rows rs → segment seg round → segmented (rows ++ seg) (rs ++ [round]).
Proof.
  intros (segs & <- & Hsegs) Hseg. exists (segs ++ [seg]). split; [by rewrite concat_app; simpl; rewrite app_nil_r|].
  apply Forall2_app; [done|by constructor].
Qed.

(** The open round of a state, and the rows behind the closed ones. *)
Definition grouped (rows : list CanonicalRecord) (st : list CanonicalRound * option Pending) : Prop :=
  match st.2 with
  | None => segmented rows st.1
  | Some p => ∃ before row p0 answers, rows = before ++ row :: answers ∧ segmented before st.1 ∧
      kind_of row = AssistantRow ∧ assistant_round row = Ok (inr p0) ∧ answers_round p0 answers ∧ holds p0 answers p
  end.

Lemma flush_grouped rows st : grouped rows st → segmented rows (flush st).
Proof.
  destruct st as [rs [p|]]; unfold grouped, flush; cbn [fst snd]; [|by rewrite app_nil_r].
  intros (before & row & p0 & answers & -> & Hseg & Hkind & Hrow & Hans & Hp).
  apply segmented_snoc; [done|]. rewrite (finish_holds _ _ _ Hp). by apply segment_round.
Qed.

Lemma next_row_grouped rows st row st' :
  grouped rows st → next_row st row = Ok st' → grouped (rows ++ [row]) st'.
Proof.
  intros Hg. unfold next_row. destruct (kind_of row) eqn:Hkind.
  - intros (r & Hr & Hst')%bind_Ok. destruct r as [round|p]; injection Hst' as <-.
    + apply segmented_snoc; [by apply flush_grouped|by apply segment_final].
    + exists rows, row, p, []. apply assistant_calls in Hr as Hcalls. destruct Hcalls as [_ Hempty].
      split; [done|]. split; [by apply flush_grouped|]. repeat split; try done.
      * constructor.
      * by intros ? ?%elem_of_nil.
      * intros c. by rewrite Hempty, lookup_empty.
  - intros (p & Hp%ok_or_Ok & Hst')%bind_Ok. apply bind_Ok in Hst' as (p' & Hres & [= <-]).
    unfold grouped in Hg. rewrite Hp in Hg. destruct Hg as (before & first & p0 & answers & -> & Hseg & Hfirst & Hrow & Hans & Hholds).
    pose proof (tool_result_spec p0 answers p row (proj1 (assistant_calls _ _ Hrow)) Hholds Hans Hkind) as H1.
    rewrite Hres in H1. destruct H1 as [Hholds' Hans'].
    exists before, first, p0, (answers ++ [row]). by rewrite <-app_assoc.
  - intros [= <-]. apply segmented_snoc; [by apply flush_grouped|by apply segment_observation].
Qed.

Lemma answers_round_prefix p answers row : answers_round p (answers ++ [row]) → answers_round p answers.
Proof.
  intros [Hnd Hans]. split; [|intros r Hr; apply Hans; set_solver].
  rewrite fmap_app in Hnd. by apply NoDup_app in Hnd as (? & _ & _).
Qed.

(** The answers of a round are taken one after the other. *)
Lemma answers_run rs p answers :
  NoDup (call_item <$> calls p) → results p = ∅ → answers_round p answers →
  ∃ p', foldlM next_row (rs, Some p) answers = Ok (rs, Some p') ∧ holds p answers p'.
Proof.
  intros Hnd Hempty. induction answers as [|row answers IH] using rev_ind; intros Hans.
  - exists p. split; [done|by apply holds_fresh].
  - pose proof (answers_round_prefix _ _ _ Hans) as Hpre. destruct (IH Hpre) as (p1 & Hrun & Hp1).
    rewrite foldlM_app, Hrun. cbn [mbind result_bind foldlM].
    destruct (proj2 Hans row) as (c & Hc & Hkind & Hrest); [set_solver|].
    pose proof (tool_result_spec p answers p1 row Hnd Hp1 Hpre Hkind) as H1.
    unfold next_row. rewrite Hkind. cbn [snd fst required ok_or mbind result_bind].
    destruct (tool_result p1 row) as [p2|]; [|done]. exists p2. by destruct H1.
Qed.

Lemma segment_run st seg round :
  segment seg round → ∃ st', foldlM next_row st seg = Ok st' ∧ flush st' = flush st ++ [round].
Proof.
  assert (∀ rows round', flush (rows, None) = rows ∧ flush (rows ++ [round'], None) = rows ++ [round']) as Hclosed.
  { intros. unfold flush. cbn [fst snd]. by rewrite !app_nil_r. }
  intros [row Hkind|row r Hkind Hrow|row p answers Hkind Hrow Hans]; cbn [foldlM].
  - exists (flush st ++ [observation_round row], None). split; [|apply Hclosed; done].
    unfold next_row. by rewrite Hkind.
  - exists (flush st ++ [r], None). split; [|apply Hclosed; done]. unfold next_row. by rewrite Hkind, Hrow.
  - assert (next_row st row = Ok (flush st, Some p)) as -> by (unfold next_row; by rewrite Hkind, Hrow).
    cbn [mbind result_bind]. destruct (assistant_calls _ _ Hrow) as [Hnd Hempty].
    destruct (answers_run (flush st) p answers Hnd Hempty Hans) as (p' & -> & Hp').
    eexists. split; [done|]. unfold flush at 1. cbn [fst snd]. by rewrite (finish_holds _ _ _ Hp').
Qed.

Lemma segments_run st segs rs :
  Forall2 segment segs rs → ∃ st', foldlM next_row st (concat segs) = Ok st' ∧ flush st' = flush st ++ rs.
Proof.
  intros Hsegs. revert st; induction Hsegs as [|seg round segs rs Hseg Hsegs IH]; intros st; cbn [concat].
  - exists st. by rewrite app_nil_r.
  - destruct (segment_run st seg round Hseg) as (st1 & Hrun & Hflush).
    rewrite foldlM_app, Hrun. cbn [mbind result_bind]. destruct (IH st1) as (st2 & Hrun2 & Hflush2).
    exists st2. split; [done|]. by rewrite Hflush2, Hflush, <-app_assoc.
Qed.

Lemma group_exact rows rs :
  (∃ st, foldlM next_row ([], None) rows = Ok st ∧ flush st = rs) ↔ segmented rows rs.
Proof.
  split.
  - intros (st & Hrun & <-). apply flush_grouped.
    refine (foldlM_trace_ind grouped next_row ([], None) _ _ rows st Hrun).
    + by exists [].
    + intros l s a s' Hl Hs. by apply (next_row_grouped l s).
  - intros (segs & <- & Hsegs). destruct (segments_run ([], None) segs rs Hsegs) as (st & Hrun & Hflush). by exists st.
Qed.

(** ** Repeated records *)
Definition agrees (known : gmap SourceRef Value) (l : list CanonicalRecord) : Prop :=
  ∀ row v, row ∈ l → known !! reference row = Some v → payload row = v.

Lemma agrees_cons known row l :
  same_revisions (row :: l) ∧ agrees known (row :: l) ↔
    (match known !! reference row with Some v => v = payload row | None => True end) ∧
    same_revisions l ∧ agrees (<[reference row := payload row]> known) l.
Proof.
  unfold same_revisions, agrees. split.
  - intros [Hs Ha]. split; [|split].
    + destruct (known !! reference row) as [v|] eqn:Hv; [|done]. symmetry. apply (Ha row); [left|done].
    + intros r r' Hr Hr'. apply Hs; by right.
    + intros r v Hr [[Href <-]|[_ Hv]]%lookup_insert_Some; [|by apply (Ha r); [right|]].
      apply Hs; [by right|left|done].
  - intros (Hrow & Hs & Ha). assert (∀ r, r ∈ l → reference r = reference row → payload r = payload row) as Hsame.
    { intros r Hr Href. apply (Ha r); [done|]. by rewrite Href, lookup_insert, decide_True. }
    split.
    + intros r r' [->|Hr]%elem_of_cons [->|Hr']%elem_of_cons Href; [done| | |by apply Hs].
      * symmetry. by apply Hsame.
      * by apply Hsame.
    + intros r v [->|Hr]%elem_of_cons Hv; [by rewrite Hv in Hrow|].
      destruct (decide (reference row = reference r)) as [Heq|Hne].
      * rewrite (Hsame r Hr) by done. rewrite <-Heq in Hv. by rewrite Hv in Hrow.
      * apply (Ha r); [done|]. by rewrite lookup_insert_ne.
Qed.

(** Skipping the repeated records first gives the same rounds. *)
Lemma round_steps_fresh records st next :
  (∃ st', foldlM round_step st records = Ok st' ∧ (rounds st', pending st') = next) ↔
  same_revisions records ∧ agrees (seen st) records ∧
  foldlM next_row (rounds st, pending st) (fresh_rows (dom (seen st)) records) = Ok next.
Proof.
  revert st; induction records as [|row records IH]; intros st; cbn [foldlM fresh_rows].
  - split.
    + intros (st' & [= <-] & Heq). split; [by intros ? ? ?%elem_of_nil|]. split; [by intros ? ? ?%elem_of_nil|by rewrite Heq].
    + intros (_ & _ & [= <-]). by exists st.
  - rewrite (and_assoc (same_revisions _)), agrees_cons.
    assert (∀ r, round_step st row = r → (∃ st', (s ← round_step st row; foldlM round_step s records) = Ok st' ∧ (rounds st', pending st') = next) ↔
      ∃ s st', r = Ok s ∧ foldlM round_step s records = Ok st' ∧ (rounds st', pending st') = next) as Hstep.
    { intros r ->. destruct r; simpl; naive_solver. }
    rewrite (Hstep _ eq_refl). unfold round_step at 1, check.
    destruct (seen st !! reference row) as [v|] eqn:Hv.
    + rewrite decide_True by (by apply elem_of_dom; eexists).
      destruct (decide (v = payload row)) as [->|Hne].
      * rewrite bool_decide_true by done. cbn [ensure mbind result_bind].
        transitivity (∃ st', foldlM round_step {| rounds := rounds st; pending := pending st; seen := <[reference row:=payload row]> (seen st) |}
          records = Ok st' ∧ (rounds st', pending st') = next); [naive_solver|]. rewrite IH. cbn [seen rounds pending].
        rewrite (insert_id (seen st) (reference row)) by done. tauto.
      * rewrite bool_decide_false by done. cbn [ensure mbind result_bind]. split; [by intros (? & ? & ? & _)|tauto].
    + rewrite decide_False by (by rewrite elem_of_dom, Hv; intros [? ?]).
      cbn [foldlM]. destruct (next_row (rounds st, pending st) row) as [[rs p]|e]; cbn [mbind result_bind fst snd].
      * transitivity (∃ st', foldlM round_step {| rounds := rs; pending := p; seen := <[reference row:=payload row]> (seen st) |}
          records = Ok st' ∧ (rounds st', pending st') = next); [naive_solver|].
        rewrite IH. cbn [seen rounds pending]. rewrite dom_insert_L. tauto.
      * split; [by intros (? & ? & ? & _)|by intros (_ & ?)].
Qed.

Lemma canonical_rounds_spec (records : list CanonicalRecord) (rs : list CanonicalRound) :
  canonical_rounds records = Ok rs ↔
    same_revisions records ∧ segmented (fresh_rows ∅ records) rs.
Proof.
  rewrite <-group_exact. transitivity (∃ next,
    (∃ st', foldlM round_step initial_rounds records = Ok st' ∧ (rounds st', pending st') = next) ∧ flush next = rs).
  - unfold canonical_rounds. rewrite bind_Ok. split.
    + intros (st & Hst & [= <-]). eexists. split; [by exists st|done].
    + intros (next & (st & Hst & <-) & <-). by exists st.
  - setoid_rewrite round_steps_fresh. cbn [initial_rounds seen rounds pending]. rewrite dom_empty_L. split.
    + intros (next & (Hs & _ & Hrun) & Hflush). split; [done|by exists next].
    + intros (Hs & next & Hrun & Hflush). exists next. split; [|done]. split; [done|]. split; [|done].
      intros row v _. by rewrite lookup_empty.
Qed.

(** C29: the canonical rounds are the only reading of the records. The projection
    succeeds with some rounds exactly when records of one reference agree on
    their payload and the first record of each reference splits, in order, into
    these rounds: an observation, a final assistant message, or an assistant
    message followed by the results of its calls, each named at most once; a
    round's messages follow the order of the calls, and it is complete when
    every call is answered. *)
Theorem canonical_rounds_exact (records : list CanonicalRecord) (rs : list CanonicalRound) :
  canonical_rounds records = Ok rs ↔
    same_revisions records ∧ segmented (fresh_rows ∅ records) rs.
Proof. apply canonical_rounds_spec. Qed.

(** ** Nothing is lost or invented *)
Lemma fresh_rows_elem known l r :
  r ∈ l → reference r ∈ known ∨ reference r ∈ reference <$> fresh_rows known l.
Proof.
  revert known; induction l as [|row l IH]; intros known; [by intros ?%elem_of_nil|].
  cbn [fresh_rows]. intros [->|Hr]%elem_of_cons; case_decide as Hk; cbn; try rewrite elem_of_cons; auto.
  destruct (IH ({[reference row]} ∪ known) Hr) as [[->%elem_of_singleton|?]%elem_of_union|?]; auto.
Qed.
Lemma fresh_rows_new known l r : r ∈ fresh_rows known l → r ∈ l ∧ reference r ∉ known.
Proof.
  revert known; induction l as [|row l IH]; intros known; [by intros ?%elem_of_nil|].
  cbn [fresh_rows]. case_decide as Hk.
  - intros [? ?]%IH. split; [by right|done].
  - intros [->|[Hr Hn]%IH]%elem_of_cons; [split; [left|done]|]. split; [by right|set_solver].
Qed.
Lemma fresh_rows_NoDup known l : NoDup (reference <$> fresh_rows known l).
Proof.
  revert known; induction l as [|row l IH]; intros known; [constructor|].
  cbn [fresh_rows]. case_decide; [apply IH|]. cbn. constructor; [|apply IH].
  intros (r & Href & Hr)%list_elem_of_fmap. apply fresh_rows_new in Hr as [_ Hn]. set_solver.
Qed.

(** The answers of a round are, up to order, those its calls find. *)
Lemma answers_perm p answers :
  NoDup (call_item <$> calls p) → answers_round p answers → omap (answer_of answers) (calls p) ≡ₚ answers.
Proof.
  intros Hnd [Hids Hans]. assert (NoDup answers) as Hanswers by (by apply NoDup_fmap_1 in Hids).
  apply NoDup_Permutation; [|done|].
  - clear Hans. induction (calls p) as [|c cs IH]; [constructor|]. cbn in Hnd. apply NoDup_cons in Hnd as [Hc Hnd].
    cbn [omap list_omap]. destruct (answer_of answers c) as [row|] eqn:Hrow; [|by apply IH].
    constructor; [|by apply IH]. intros (d & Hd & Hdrow)%list_elem_of_omap.
    apply answer_of_Some in Hrow as [_ H1], Hdrow as [_ H2]. apply Hc.
    assert (call_item c = call_item d) as -> by congruence. by apply list_elem_of_fmap_2.
  - intros row. rewrite list_elem_of_omap. split.
    + by intros (c & _ & [? _]%answer_of_Some).
    + intros Hrow. destruct (Hans row Hrow) as (c & Hc & _ & Hid & _). exists c. split; [done|].
      destruct (answer_of answers c) as [row'|] eqn:Hrow'.
      * apply answer_of_Some in Hrow' as [Hin Hid']. f_equal.
        apply list_elem_of_lookup in Hin as [i Hi], Hrow as [j Hj].
        assert (i = j) as ->; [|congruence].
        apply (NoDup_lookup _ i j (item_id row) Hids); rewrite list_lookup_fmap; [by rewrite Hi; cbn; rewrite Hid', Hid|by rewrite Hj].
      * apply answer_of_None in Hrow' as []. rewrite <-Hid. by apply list_elem_of_fmap_2.
Qed.

Lemma segment_sources seg round :
  segment seg round → round_sources round ≡ₚ reference <$> seg ∧ length (round_messages round) = length (round_sources round).
Proof.
  intros [row _|row r _ Hrow|row p answers _ Hrow Hans].
  - done.
  - unfold assistant_round, required, check in Hrow. simplify_result. case_in Hrow; simplify_result. done.
  - unfold answered_round; cbn [round_sources round_messages length]. rewrite !length_fmap. split; [|done].
    destruct (assistant_calls _ _ Hrow) as [Hnd _]. rewrite (answers_perm p answers Hnd Hans), fmap_cons.
    assert (pending_source p = reference row) as ->; [|done].
    unfold assistant_round, required, check in Hrow. simplify_result. case_in Hrow; simplify_result. done.
Qed.

(** canonical rounds partition their sources. When the projection succeeds,
    every record's reference is a source of exactly one round, at one position,
    no other source appears, and every source has its message. *)
Theorem canonical_rounds_partition (records : list CanonicalRecord) (rs : list CanonicalRound) :
  canonical_rounds records = Ok rs →
  NoDup (concat (round_sources <$> rs)) ∧
  (∀ s, s ∈ concat (round_sources <$> rs) ↔ ∃ row, row ∈ records ∧ reference row = s) ∧
  Forall (λ round, length (round_messages round) = length (round_sources round)) rs.
Proof.
  intros Hrun. apply canonical_rounds_spec in Hrun as (_ & segs & Hsegs & Hall).
  assert (concat (round_sources <$> rs) ≡ₚ reference <$> fresh_rows ∅ records) as Hperm.
  { rewrite <-Hsegs. clear Hsegs. induction Hall as [|seg round segs rs Hseg _ IH]; [done|].
    cbn [concat fmap list_fmap]. rewrite fmap_app, IH. by rewrite (proj1 (segment_sources _ _ Hseg)). }
  rewrite Hperm. split; [apply fresh_rows_NoDup|]. split.
  - intros s. rewrite Hperm. split.
    + intros (row & -> & [Hrow _]%fresh_rows_new)%list_elem_of_fmap. by exists row.
    + intros (row & Hrow & <-). by destruct (fresh_rows_elem ∅ _ _ Hrow) as [?%elem_of_empty|?].
  - apply Forall_forall. intros round Hround. apply list_elem_of_lookup in Hround as [i Hi].
    destruct (Forall2_lookup_r _ _ _ _ _ Hall Hi) as (seg & _ & Hseg). by destruct (segment_sources _ _ Hseg).
Qed.
End canonical.
Arguments CanonicalRecord : clear implicits.
Arguments CanonicalRound : clear implicits.
Arguments Pending : clear implicits.

(** ** A concrete JSON value *)
Module SampleValue.
#[local] Set Warnings "-register-all".
Inductive json :=
  | JNull | JBool (b : bool) | JNumber (n : N) | JString (s : string)
  | JArray (l : list json) | JObject (l : list (string * json)).

Fixpoint json_eqb (x y : json) {struct x} : bool :=
  let fix all (l k : list json) : bool :=
    match l, k with
    | [], [] => true
    | a :: l, b :: k => json_eqb a b && all l k
    | _, _ => false
    end in
  let fix members (l k : list (string * json)) : bool :=
    match l, k with
    | [], [] => true
    | (i, a) :: l, (j, b) :: k => bool_decide (i = j) && json_eqb a b && members l k
    | _, _ => false
    end in
  match x, y with
  | JNull, JNull => true
  | JBool a, JBool b => bool_decide (a = b)
  | JNumber a, JNumber b => bool_decide (a = b)
  | JString a, JString b => bool_decide (a = b)
  | JArray l, JArray k => all l k
  | JObject l, JObject k => members l k
  | _, _ => false
  end.
Lemma json_eqb_eq : ∀ x y, json_eqb x y = true ↔ x = y.
Proof.
  fix IH 1. intros [|a|a|a|l|l] [|b|b|b|k|k]; cbn [json_eqb];
    try (split; [discriminate|congruence]); try (rewrite bool_decide_eq_true; split; congruence); [done|..].
  - transitivity (l = k); [|split; congruence]. revert k. induction l as [|x l IHl]; intros [|y k]; try (split; done).
    rewrite andb_true_iff, IH, IHl. split; [by intros [-> ->]|by intros [= -> ->]].
  - transitivity (l = k); [|split; congruence]. revert k. induction l as [|[i x] l IHl]; intros [|[j y] k]; try (split; done).
    rewrite !andb_true_iff, bool_decide_eq_true, IH, IHl. split; [by intros [[-> ->] ->]|by intros [= -> -> ->]].
Qed.
#[export] Instance json_eq_decision : EqDecision json.
Proof.
  intros x y. destruct (json_eqb x y) eqn:E; [left; by apply json_eqb_eq|right].
  intros Heq%json_eqb_eq. congruence.
Defined.

#[export] Instance value : JsonValue json := {
  json_eq_dec := json_eq_decision;
  get v key := match v with
    | JObject l => snd <$> head (filter (λ p, fst p = key) l) | _ => None end;
  as_array v := match v with JArray l => Some l | _ => None end;
  as_str v := match v with JString s => Some s | _ => None end;
  as_u64 v := match v with JNumber n => Some n | _ => None end;
  as_bool v := match v with JBool b => Some b | _ => None end;
  null := JNull;
  is_null v := match v with JNull => true | _ => false end;
  from_u64 n := JNumber n;
}.
End SampleValue.
Import SampleValue.

Definition sample_record (i kind : string) (payload : json) : CanonicalRecord json :=
  {| reference := mk_source "t" i "1"; source_type := kind; item_id := Some "item"; payload := payload |}.
Definition sample_assistant : CanonicalRecord json :=
  sample_record "assistant" "assistant_round" (JObject [
    ("version", JNumber 1);
    ("message", JObject [("role", JString "assistant");
       ("tool_calls", JArray [JObject [("id", JString "call"); ("name", JString "read")]])]);
    ("calls", JArray [JObject [("provider_call_id", JString "call"); ("turn_item_id", JString "item");
                               ("ordinal", JNumber 0)]])]).
Definition sample_answer : CanonicalRecord json :=
  sample_record "result" "tool_result_v2" (JObject [
    ("truncated", JBool false);
    ("value", JObject [("role", JString "tool"); ("tool_call_id", JString "call"); ("name", JString "read")])]).
Definition sample_records : list (CanonicalRecord json) :=
  [sample_assistant; sample_answer; sample_answer; sample_record "a" "cli" (JString "equal")].

Example sample_rounds :
  match canonical_rounds sample_records with
  | Ok rs => (λ r, (id <$> round_sources r, round_complete r)) <$> rs =
      [(["assistant"; "result"], true); (["a"], false)]
  | Err _ => False
  end ∧
  canonical_rounds [sample_answer] = Err (Bail "tool result has no canonical round").
Proof. by vm_compute. Qed.

Lemma canonical_rounds_partition_witness :
  match canonical_rounds sample_records with
  | Ok rs => mk_source "t" "result" "1" ∈ concat (round_sources <$> rs)
  | Err _ => False
  end.
Proof.
  destruct (canonical_rounds sample_records) as [rs|e] eqn:Hrun; [|vm_compute in Hrun; discriminate Hrun].
  destruct (canonical_rounds_partition sample_records rs Hrun) as (_ & H & _).
  apply H. exists sample_answer. split; [right; left|reflexivity].
Defined.
