(* ===== verification/CompactionProjection.v ===== *)
(** * Projection of a history

    Models [project_history] of [crates/compaction/src/projection.rs]:
    observations that others supersede are removed, following only the recorded
    links, and a cycle of links is an error. The worklist of the cycle search is
    a stack whose head is its top. *)
From S2P Require Import Prelude CompactionHistory.

Record HistoryObservation := { source : SourceRef; supersedes : list SourceRef; content : string }.
#[export] Instance HistoryObservation_eq_dec : EqDecision HistoryObservation.
Proof. solve_decision. Defined.
Record HistoryProjection := {
  observations : list HistoryObservation;
  conflicts : list (SourceRef * SourceRef);
}.

Abbreviation index := (gmap SourceRef HistoryObservation).
Definition cyclic : failure := Bail "cyclic source supersession".

Definition index_step (by_ref : index) (o : HistoryObservation) : result failure index :=
  match by_ref !! source o with
  | Some previous =>
      ensure (bool_decide (content previous = content o) && bool_decide (supersedes previous = supersedes o))
        (Bail "same source revision has conflicting content")
  | None => Ok ()
  end;;
  ensure (bool_decide (source o ∉ supersedes o)) (Bail "source cannot supersede itself");;
  Ok (<[source o := o]> by_ref).

(** The links reachable from a queue, unless [origin] is one of them. *)
Fixpoint follow (fuel : nat) (by_ref : index) (origin : SourceRef) (queue : list SourceRef)
    (visited : gset SourceRef) : option (result failure (gset SourceRef)) :=
  match fuel with
  | O => None
  | S fuel =>
      match queue with
      | [] => Some (Ok visited)
      | current :: queue =>
          if decide (current = origin) then Some (Err cyclic)
          else if decide (current ∈ visited) then follow fuel by_ref origin queue visited
          else
            let queue := match by_ref !! current with
                         | Some o => reverse (supersedes o) ++ queue | None => queue end in
            follow fuel by_ref origin queue ({[current]} ∪ visited)
      end
  end.

Definition link_count (l : list HistoryObservation) : nat := sum_list_with (λ o, length (supersedes o)) l.

Fixpoint check_links (fuel : nat) (by_ref : index) (links : list (SourceRef * SourceRef))
    (removed : gset SourceRef) : option (result failure (gset SourceRef)) :=
  match links with
  | [] => Some (Ok removed)
  | (origin, reference) :: links =>
      match follow fuel by_ref origin [reference] ∅ with
      | None => None
      | Some (Err e) => Some (Err e)
      | Some (Ok _) => check_links fuel by_ref links ({[reference]} ∪ removed)
      end
  end.
Definition links_of (l : list HistoryObservation) : list (SourceRef * SourceRef) :=
  o ← l; (source o,.) <$> supersedes o.

(** [filter(|o| !removed.contains(&o.source) && seen.insert(o.source.clone()))]. *)
Fixpoint keep (removed seen : gset SourceRef) (l : list HistoryObservation) : list HistoryObservation :=
  match l with
  | [] => []
  | o :: l =>
      if decide (source o ∈ removed) then keep removed seen l
      else if decide (source o ∈ seen) then keep removed seen l
      else o :: keep removed ({[source o]} ∪ seen) l
  end.

Fixpoint find_conflicts (identities : gmap (string * string) SourceRef) (l : list HistoryObservation)
    : list (SourceRef * SourceRef) :=
  match l with
  | [] => []
  | o :: l =>
      let rest := find_conflicts (<[identity_of (source o) := source o]> identities) l in
      match identities !! identity_of (source o) with
      | Some previous => (previous, source o) :: rest
      | None => rest
      end
  end.

(** Enough for the search of one link: every pop is the start or a link of a
    source visited for the first time. *)
Definition search_fuel (l : list HistoryObservation) : nat := S (S (link_count l)).

Definition project_history (l : list HistoryObservation) : option (result failure HistoryProjection) :=
  match foldlM index_step ∅ l with
  | Err e => Some (Err e)
  | Ok by_ref =>
      match check_links (search_fuel l) by_ref (links_of l) ∅ with
      | None => None
      | Some (Err e) => Some (Err e)
      | Some (Ok removed) =>
          let kept := keep removed ∅ l in
          Some (Ok {| observations := kept; conflicts := find_conflicts ∅ kept |})
      end
  end.

(** ** What it means *)
Section history.
Context (l : list HistoryObservation).

Definition supersedes_link (a b : SourceRef) : Prop := ∃ o, o ∈ l ∧ source o = a ∧ b ∈ supersedes o.
Definition one_revision : Prop :=
  ∀ o o', o ∈ l → o' ∈ l → source o = source o' → content o = content o' ∧ supersedes o = supersedes o'.
Definition acyclic : Prop := ∀ o, o ∈ l → ¬ tc supersedes_link (source o) (source o).
Definition superseded (s : SourceRef) : Prop := ∃ a, supersedes_link a s.
End history.

(** ** The index *)
Definition indexes (l : list HistoryObservation) (by_ref : index) : Prop :=
  (∀ s o, by_ref !! s = Some o → o ∈ l ∧ source o = s) ∧
  (∀ o, o ∈ l → ∃ o', by_ref !! source o = Some o').

Lemma one_revision_snoc l o :
  one_revision (l ++ [o]) ↔ one_revision l ∧
    ∀ d, d ∈ l → source d = source o → content d = content o ∧ supersedes d = supersedes o.
Proof.
  unfold one_revision. setoid_rewrite elem_of_app. setoid_rewrite list_elem_of_singleton. split; [naive_solver|].
  intros [H Ho] d d' [Hd| ->] [Hd'| ->] Heq; [by apply H|by apply Ho| |done].
  destruct (Ho d' Hd') as [-> ->]; done.
Qed.

Lemma index_spec l :
  match foldlM index_step ∅ l with
  | Ok by_ref => indexes l by_ref ∧ one_revision l ∧ ∀ o, o ∈ l → source o ∉ supersedes o
  | Err _ => ¬ (one_revision l ∧ ∀ o, o ∈ l → source o ∉ supersedes o)
  end.
Proof.
  induction l as [|o l IH] using rev_ind; [cbn; repeat split; intros; set_solver|].
  rewrite foldlM_app. destruct (foldlM index_step ∅ l) as [by_ref|]; cbn [mbind result_bind foldlM].
  2: { rewrite one_revision_snoc. intros [[? _] Hself]. apply IH. split; [done|]. set_solver. }
  destruct IH as ([Hsound Hdom] & Hrev & Hself). unfold index_step.
  assert (∀ d, d ∈ l → source d = source o → ∃ p, by_ref !! source o = Some p ∧
    content p = content d ∧ supersedes p = supersedes d) as Hfound.
  { intros d Hd Heq. destruct (Hdom d Hd) as [p Hp]. exists p. rewrite <-Heq. split; [done|].
    destruct (Hsound _ _ Hp) as [Hin Hsrc]. by apply Hrev. }
  assert ((match by_ref !! source o with
     | Some p => ensure (bool_decide (content p = content o) && bool_decide (supersedes p = supersedes o))
                   (Bail "same source revision has conflicting content")
     | None => Ok () end = Ok ()) ↔
     ∀ d, d ∈ l → source d = source o → content d = content o ∧ supersedes d = supersedes o) as Hcheck.
  { destruct (by_ref !! source o) as [p|] eqn:Hp.
    - rewrite ensure_Ok, andb_true_iff, !bool_decide_eq_true. split.
      + intros [? ?] d Hd Heq. destruct (Hfound d Hd Heq) as (p' & ? & ? & ?). split; congruence.
      + intros H. destruct (Hsound _ _ Hp) as [Hin Hsrc]. by apply H.
    - split; [|done]. intros _ d Hd Heq. destruct (Hfound d Hd Heq) as (p' & ? & _). congruence. }
  assert (one_revision (l ++ [o]) ∧ (∀ d, d ∈ l ++ [o] → source d ∉ supersedes d) ↔
    (∀ d, d ∈ l → source d = source o → content d = content o ∧ supersedes d = supersedes o) ∧
    source o ∉ supersedes o) as Hsnoc.
  { rewrite one_revision_snoc. setoid_rewrite elem_of_app. setoid_rewrite list_elem_of_singleton. naive_solver. }
  destruct (match by_ref !! source o with Some _ => _ | None => _ end) as [[]|e]; cbn [mbind result_bind].
  2: { rewrite Hsnoc. intros [H _]. apply Hcheck in H. discriminate H. }
  destruct (decide (source o ∈ supersedes o)) as [Hin|Hin].
  { rewrite bool_decide_false by tauto. cbn. tauto. }
  rewrite bool_decide_true by done. cbn. split; [|rewrite Hsnoc; tauto]. split.
  - intros s d [[<- <-]|[_ Hd]]%lookup_insert_Some; [set_solver|]. apply Hsound in Hd. set_solver.
  - intros d Hd. destruct (decide (source o = source d)) as [Heq|Hne].
    + rewrite Heq, lookup_insert, decide_True by done. by eexists.
    + rewrite lookup_insert_ne by done. apply Hdom. set_solver.
Qed.

(** ** The search along the links *)
Section search.
Context (l : list HistoryObservation) (by_ref : index).
Context (Hindex : indexes l by_ref) (Hrev : one_revision l).
Abbreviation link := (supersedes_link l).

Lemma link_index a b :
  link a b ↔ ∃ o, by_ref !! a = Some o ∧ b ∈ supersedes o.
Proof using Hindex Hrev.
  destruct Hindex as [Hsound Hdom]. split.
  - intros (o & Ho & <- & Hb). destruct (Hdom o Ho) as [p Hp]. exists p. split; [done|].
    destruct (Hsound _ _ Hp) as [Hin Hsrc]. by destruct (Hrev p o Hin Ho Hsrc) as [_ ->].
  - intros (o & Ho & Hb). destruct (Hsound _ _ Ho) as [Hin Hsrc]. by exists o.
Qed.

(** The links of the sources not yet visited. *)
Definition unseen (visited : gset SourceRef) : nat :=
  sum_list_with (λ o, if decide (source o ∈ visited) then 0 else length (supersedes o)) l.

Lemma unseen_visit visited a o :
  by_ref !! a = Some o → a ∉ visited → unseen ({[a]} ∪ visited) + length (supersedes o) ≤ unseen visited.
Proof using Hindex.
  intros Ho Ha. destruct (proj1 Hindex _ _ Ho) as [Hin Hsrc]. unfold unseen. clear Hindex Hrev Ho.
  assert (∀ k, sum_list_with (λ o, if decide (source o ∈ {[a]} ∪ visited) then 0 else length (supersedes o)) k ≤
    sum_list_with (λ o, if decide (source o ∈ visited) then 0 else length (supersedes o)) k) as Hmono.
  { induction k as [|d k IH]; [done|]. cbn [sum_list_with].
    destruct (decide (source d ∈ visited)) as [Hd|Hd]; [rewrite decide_True by set_solver; lia|].
    destruct (decide (source d ∈ {[a]} ∪ visited)); lia. }
  induction l as [|d k IH]; [by apply elem_of_nil in Hin|]. cbn [sum_list_with]. specialize (Hmono k).
  apply elem_of_cons in Hin as [<-|Hin].
  - rewrite decide_True by set_solver. rewrite decide_False by (by rewrite Hsrc). lia.
  - specialize (IH Hin). destruct (decide (source d ∈ visited)) as [Hd|Hd]; [rewrite decide_True by set_solver; lia|].
    destruct (decide (source d ∈ {[a]} ∪ visited)); lia.
Qed.

Definition closed (visited : gset SourceRef) (queue : list SourceRef) : Prop :=
  ∀ v w, v ∈ visited → link v w → w ∈ visited ∨ w ∈ queue.

Lemma closed_reach visited a b : closed visited [] → a ∈ visited → rtc link a b → b ∈ visited.
Proof using.
  intros Hc Ha Hab. revert Ha. induction Hab as [|a c b Hac Hcb IH]; [done|].
  intros Ha. destruct (Hc a c Ha Hac) as [?|?%elem_of_nil]; [by apply IH|done].
Qed.

Lemma follow_spec start origin fuel : ∀ queue visited,
  (length queue + unseen visited < fuel)%nat →
  (∀ x, x ∈ queue → rtc link start x) → (∀ x, x ∈ visited → rtc link start x) →
  closed visited queue → start ∈ visited ∨ start ∈ queue → origin ∉ visited →
  match follow fuel by_ref origin queue visited with
  | Some (Ok _) => ¬ rtc link start origin
  | Some (Err e) => e = cyclic ∧ rtc link start origin
  | None => False
  end.
Proof using Hindex Hrev.
  induction fuel as [|fuel IH]; intros queue visited Hfuel Hq Hv Hc Hstart Horigin; [lia|].
  destruct queue as [|current queue]; cbn [follow].
  { destruct Hstart as [Hstart|?%elem_of_nil]; [|done]. intros Hr. apply Horigin. by eapply closed_reach. }
  destruct (decide (current = origin)) as [->|Hne]; [split; [done|]; apply Hq; left|].
  destruct (decide (current ∈ visited)) as [Hseen|Hnew].
  { apply IH; [simpl in Hfuel; lia|set_solver|done| |set_solver|done].
    intros v w Hvw Hl. destruct (Hc v w Hvw Hl) as [?|[->|?]%elem_of_cons]; auto. }
  assert (∀ x, x ∈ {[current]} ∪ visited → rtc link start x) as Hv'.
  { intros x [->%elem_of_singleton|Hx]%elem_of_union; [apply Hq; left|by apply Hv]. }
  assert (origin ∉ {[current]} ∪ visited) as Horigin' by set_solver.
  destruct (by_ref !! current) as [o|] eqn:Ho.
  - pose proof (unseen_visit visited current o Ho Hnew) as Hpot.
    apply IH; [rewrite length_app, length_reverse; simpl in Hfuel; lia| |done| |set_solver|done].
    + intros x [Hx|Hx]%elem_of_app; [rewrite elem_of_reverse in Hx|apply Hq; by right].
      eapply rtc_r; [apply Hq; left|]. apply link_index. by exists o.
    + intros v w [->%elem_of_singleton|Hvv]%elem_of_union Hl.
      * apply link_index in Hl as (o' & Ho' & Hw). right. rewrite elem_of_app, elem_of_reverse. left. congruence.
      * destruct (Hc v w Hvv Hl) as [?|[->|?]%elem_of_cons]; set_solver.
  - assert (unseen ({[current]} ∪ visited) ≤ unseen visited) as Hpot.
    { unfold unseen. clear. induction l as [|d k IH]; [done|]. cbn [sum_list_with].
      destruct (decide (source d ∈ visited)) as [Hd|Hd]; [rewrite decide_True by set_solver; lia|].
      destruct (decide (source d ∈ {[current]} ∪ visited)); lia. }
    apply IH; [simpl in Hfuel; lia|set_solver|done| |set_solver|done].
    intros v w [->%elem_of_singleton|Hvv]%elem_of_union Hl.
    + apply link_index in Hl as (o' & Ho' & Hw). congruence.
    + destruct (Hc v w Hvv Hl) as [?|[->|?]%elem_of_cons]; set_solver.
Qed.

Lemma unseen_bound visited : unseen visited ≤ link_count l.
Proof using.
  clear. unfold unseen, link_count. induction l as [|d k IH]; [done|]. cbn [sum_list_with]. destruct (decide _); lia.
Qed.

Lemma check_links_spec links : ∀ removed,
  match check_links (search_fuel l) by_ref links removed with
  | Some (Ok removed') => (∀ a b, (a, b) ∈ links → ¬ rtc link b a) ∧
      ∀ s, s ∈ removed' ↔ s ∈ removed ∨ ∃ a, (a, s) ∈ links
  | Some (Err e) => e = cyclic ∧ ∃ a b, (a, b) ∈ links ∧ rtc link b a
  | None => False
  end.
Proof using Hindex Hrev.
  induction links as [|[origin reference] links IH]; intros removed; cbn [check_links].
  { split; [by intros ?? ?%elem_of_nil|]. intros s. split; [by left|]. by intros [?|[? ?%elem_of_nil]]. }
  pose proof (follow_spec reference origin (search_fuel l) [reference] ∅) as Hf.
  assert (length [reference] + unseen ∅ < search_fuel l)%nat as Hfuel
    by (unfold search_fuel; pose proof (unseen_bound ∅); simpl; lia).
  specialize (Hf Hfuel). clear Hfuel.
  assert (∀ x, x ∈ [reference] → rtc link reference x) as Hq by (intros x ->%list_elem_of_singleton; constructor).
  specialize (Hf Hq ltac:(set_solver) ltac:(intros v w; set_solver) ltac:(right; left) ltac:(set_solver)). clear Hq.
  destruct (follow _ _ _ _ _) as [[visited|e]|]; [|destruct Hf as [-> Hf]|done].
  - specialize (IH ({[reference]} ∪ removed)). destruct (check_links _ _ _ _) as [[removed'|e]|]; [..|done].
    + destruct IH as [Hacyclic Hin]. split.
      * intros a b [[= -> ->]|Hab]%elem_of_cons; [done|by apply Hacyclic].
      * intros s. rewrite Hin, elem_of_union, elem_of_singleton. setoid_rewrite elem_of_cons. naive_solver.
    + destruct IH as (-> & a & b & Hab & Hr). split; [done|]. exists a, b. split; [by right|done].
  - split; [done|]. exists origin, reference. split; [left|done].
Qed.
End search.

Lemma elem_links_of l a b : (a, b) ∈ links_of l ↔ supersedes_link l a b.
Proof.
  unfold links_of, supersedes_link. rewrite list_elem_of_bind. split.
  - intros (o & (b' & [= -> ->] & Hb)%list_elem_of_fmap & Ho). by exists o.
  - intros (o & Ho & <- & Hb). exists o. split; [by apply (list_elem_of_fmap_2 (source o,.))|done].
Qed.

(** ** What is kept *)
Lemma keep_elem removed seen l o :
  o ∈ keep removed seen l → o ∈ l ∧ source o ∉ removed ∧ source o ∉ seen.
Proof.
  revert seen; induction l as [|d l IH]; intros seen; [by intros ?%elem_of_nil|]. cbn [keep].
  destruct (decide (source d ∈ removed)) as [|Hr]; [set_solver|].
  destruct (decide (source d ∈ seen)) as [|Hs]; [set_solver|].
  intros [->|(? & ? & ?)%IH]%elem_of_cons; set_solver.
Qed.
Lemma keep_complete removed seen l o :
  o ∈ l → source o ∉ removed → source o ∈ seen ∨ ∃ k, k ∈ keep removed seen l ∧ source k = source o.
Proof.
  revert seen; induction l as [|d l IH]; intros seen; [by intros ?%elem_of_nil|]. cbn [keep].
  intros [<-|Ho]%elem_of_cons Hr.
  - rewrite decide_False by done. case_decide; [by left|]. right. exists o. split; [left|done].
  - destruct (decide (source d ∈ removed)); [by apply IH|]. destruct (decide (source d ∈ seen)); [by apply IH|].
    destruct (IH ({[source d]} ∪ seen) Ho Hr) as [[Heq%elem_of_singleton|?]%elem_of_union|(k & Hk & Heq)]; [|by left|].
    + right. exists d. split; [left|done].
    + right. exists k. split; [by right|done].
Qed.
Lemma keep_NoDup removed seen l : NoDup (source <$> keep removed seen l).
Proof.
  revert seen; induction l as [|d l IH]; intros seen; [constructor|]. cbn [keep].
  repeat case_decide; [apply IH..|]. cbn. constructor; [|apply IH].
  intros (k & Heq & Hk)%list_elem_of_fmap. apply keep_elem in Hk. set_solver.
Qed.
Lemma keep_sublist removed seen l : (keep removed seen l) `sublist_of` l.
Proof.
  revert seen; induction l as [|d l IH]; intros seen; cbn [keep]; [constructor|].
  repeat case_decide; by constructor.
Qed.

(** ** Conflicts *)
Definition identities_of (l : list HistoryObservation) : list (string * string) := (λ o, identity_of (source o)) <$> l.

Lemma find_conflicts_nil ids l :
  find_conflicts ids l = [] ↔ NoDup (identities_of l) ∧ ∀ i, i ∈ identities_of l → ids !! i = None.
Proof.
  revert ids; induction l as [|o l IH]; intros ids; cbn [find_conflicts identities_of fmap list_fmap].
  { split; [|done]. intros _. split; [constructor|]. by intros ? ?%elem_of_nil. }
  fold (identities_of l). rewrite NoDup_cons. setoid_rewrite elem_of_cons.
  destruct (ids !! identity_of (source o)) as [previous|] eqn:Hp.
  - split; [done|]. intros [_ H]. rewrite H in Hp by auto. done.
  - rewrite IH. setoid_rewrite lookup_insert_None. naive_solver.
Qed.
Lemma find_conflicts_elem ids l a b :
  (∀ i s, ids !! i = Some s → identity_of s = i ∧ s ∉ source <$> l) → NoDup (source <$> l) →
  (a, b) ∈ find_conflicts ids l →
  identity_of a = identity_of b ∧ a ≠ b ∧ b ∈ source <$> l ∧ (a ∈ source <$> l ∨ ∃ i, ids !! i = Some a).
Proof.
  revert ids; induction l as [|o l IH]; intros ids Hids Hnd; [by intros ?%elem_of_nil|].
  cbn [find_conflicts]. rewrite fmap_cons in Hnd |- *. apply NoDup_cons in Hnd as [Ho Hnd].
  assert ((a, b) ∈ find_conflicts (<[identity_of (source o) := source o]> ids) l →
    identity_of a = identity_of b ∧ a ≠ b ∧ b ∈ source o :: (source <$> l) ∧
      (a ∈ source o :: (source <$> l) ∨ ∃ i, ids !! i = Some a)) as Hrest.
  { intros Hin. apply IH in Hin as (Hid & Hne & Hb & Ha); [| |done].
    - split; [done|]. split; [done|]. split; [by right|].
      destruct Ha as [?|(i & [[_ <-]|[_ ?]]%lookup_insert_Some)]; [left; by right|left; left|right; by exists i].
    - intros i s [[<- <-]|[_ Hs]]%lookup_insert_Some; [done|]. apply Hids in Hs. set_solver. }
  destruct (ids !! identity_of (source o)) as [previous|] eqn:Hp; [|done].
  intros [[= -> ->]|?]%elem_of_cons; [|by apply Hrest].
  destruct (Hids _ _ Hp) as [Hid Hne]. split; [done|]. split; [intros ->; apply Hne; left|].
  split; [left|right; by eexists].
Qed.

(** ** Every superseded observation has a surviving successor *)
Section survivors.
Context (l : list HistoryObservation) (Hacyclic : acyclic l).

Lemma survivor_exists s :
  (∃ o, o ∈ l ∧ source o = s) →
  ∃ o, o ∈ l ∧ ¬ superseded l (source o) ∧ rtc (supersedes_link l) (source o) s.
Proof using Hacyclic.
  assert (sn (flip (supersedes_link l)) s) as Hsn.
  { assert (∀ a b, tc (flip (supersedes_link l)) a b → tc (supersedes_link l) b a) as Hflip.
    { intros a b. induction 1 as [a b Hab|a b c Hab _ IH]; [by constructor|]. eapply tc_r; [exact IH|exact Hab]. }
    apply tc_finite_sn.
    - intros x Hx%Hflip. inversion Hx as [? ? (o & Ho & Hs & _)|? ? ? (o & Ho & Hs & _) _]; subst;
        by apply (Hacyclic o Ho).
    - exists (source <$> l). intros x Hx%Hflip. apply list_elem_of_fmap.
      inversion Hx as [? ? (o & Ho & Hs & _)|? ? ? (o & Ho & Hs & _) _]; subst; by exists o. }
  induction Hsn as [s _ IH]. intros (o & Ho & <-).
  destruct (decide (source o ∈ mjoin (supersedes <$> l))) as [Hin|Hout].
  - apply list_elem_of_join in Hin as (ss & Hs & (d & -> & Hd)%list_elem_of_fmap).
    assert (supersedes_link l (source d) (source o)) as Hlink by (by exists d).
    destruct (IH (source d) Hlink (ex_intro _ d (conj Hd eq_refl))) as (k & Hk & Hn & Hr).
    exists k. split; [done|]. split; [done|]. by eapply rtc_r.
  - exists o. split; [done|]. split; [|constructor]. intros (a & d & Hd & _ & Hs). apply Hout.
    apply list_elem_of_join. exists (supersedes d). split; [done|]. by apply list_elem_of_fmap_2.
Qed.
End survivors.

(** C30: the projection of a history is exact. It always ends, and succeeds
    exactly when one source revision has one content and no source supersedes
    itself through any chain of links. The observations kept are then, in order
    and once per source, those that nothing supersedes, every observation is
    reached by links from a kept one, and the conflicts are pairs of different
    kept revisions of one identity, none exactly when identities are unique. *)
Theorem project_history_exact (l : list HistoryObservation) :
  match project_history l with
  | Some (Ok p) =>
      one_revision l ∧ acyclic l ∧
      observations p `sublist_of` l ∧ NoDup (source <$> observations p) ∧
      (∀ s, s ∈ source <$> observations p ↔ s ∈ source <$> l ∧ ¬ superseded l s) ∧
      (∀ o, o ∈ l → ∃ k, k ∈ observations p ∧ rtc (supersedes_link l) (source k) (source o)) ∧
      (∀ a b, (a, b) ∈ conflicts p → identity_of a = identity_of b ∧ a ≠ b ∧
         a ∈ source <$> observations p ∧ b ∈ source <$> observations p) ∧
      (conflicts p = [] ↔ NoDup (identities_of (observations p)))
  | Some (Err _) => ¬ (one_revision l ∧ acyclic l)
  | None => False
  end.
Proof.
  unfold project_history. pose proof (index_spec l) as Hidx.
  destruct (foldlM index_step ∅ l) as [by_ref|e].
  2: { intros [Hrev Hac]. apply Hidx. split; [done|]. intros o Ho Hs. apply (Hac o Ho). constructor. by exists o. }
  destruct Hidx as (Hindex & Hrev & _).
  pose proof (check_links_spec l by_ref Hindex Hrev (links_of l) ∅) as Hlinks.
  destruct (check_links _ _ _ _) as [[removed|e]|]; [| |done].
  2: { destruct Hlinks as (_ & a & b & Hab%elem_links_of & Hr). intros [_ Hac].
    pose proof Hab as (o & Ho & <- & Hb). apply (Hac o Ho). by eapply tc_rtc_r; [apply tc_once|]. }
  destruct Hlinks as [Hac Hremoved].
  assert (acyclic l) as Hacyclic.
  { intros o Ho Htc. inversion Htc as [? ? Hl|? b ? Hl Hr]; subst; apply elem_links_of in Hl; apply (Hac _ _ Hl); [constructor|by apply tc_rtc]. }
  assert (∀ s, s ∈ removed ↔ superseded l s) as Hsuperseded.
  { intros s. rewrite Hremoved, elem_of_empty. unfold superseded. setoid_rewrite elem_links_of. naive_solver. }
  cbn [observations conflicts]. set (kept := keep removed ∅ l).
  assert (∀ o, o ∈ l → ¬ superseded l (source o) → ∃ k, k ∈ kept ∧ source k = source o) as Hkept.
  { intros o Ho Hn. rewrite <-Hsuperseded in Hn. by destruct (keep_complete removed ∅ l o Ho Hn) as [?%elem_of_empty|]. }
  do 2 (split; [done|]). split; [apply keep_sublist|]. split; [apply keep_NoDup|]. split; [|split; [|split]].
  - intros s. rewrite !list_elem_of_fmap. split.
    + intros (o & -> & (Ho & Hn & _)%keep_elem). rewrite <-Hsuperseded. split; [by exists o|done].
    + intros [(o & -> & Ho) Hn]. destruct (Hkept o Ho Hn) as (k & Hk & Heq). by exists k.
  - intros o Ho. destruct (survivor_exists l Hacyclic (source o) (ex_intro _ o (conj Ho eq_refl))) as (d & Hd & Hn & Hr).
    destruct (Hkept d Hd Hn) as (k & Hk & Heq). exists k. by rewrite Heq.
  - intros a b Hab. apply find_conflicts_elem in Hab as (Hid & Hne & Hb & [Ha|[i Hi]]); [done|..].
    + by rewrite lookup_empty in Hi.
    + intros i s. by rewrite lookup_empty.
    + apply keep_NoDup.
  - rewrite find_conflicts_nil. setoid_rewrite lookup_empty. naive_solver.
Qed.

Example sample_projection :
  let s i v := mk_source "turn" i v in
  let o i v l := {| source := s i v; supersedes := l; content := "same text" |} in
  project_history [o "ui" "1" []; o "canonical" "1" [s "ui" "1"]; o "canonical" "1" [s "ui" "1"]; o "other" "1" []; o "other" "2" []] =
    Some (Ok {| observations := [o "canonical" "1" [s "ui" "1"]; o "other" "1" []; o "other" "2" []];
                conflicts := [(s "other" "1", s "other" "2")] |}) ∧
  project_history [o "a" "1" [s "b" "1"]; o "b" "1" [s "a" "1"]] = Some (Err cyclic).
Proof. by vm_compute. Qed.
