(* ===== verification/CompactionRunner.v ===== *)
(** * The durable compaction runner

    Models [crates/compaction/src/runner.rs], the state machine of one
    compaction operation, and the transitions its driver makes of it in
    [crates/gateway/src/compaction.rs]. *)
From S2P Require Import Prelude CompactionBudget.
Import Budget.
Local Open Scope N_scope.

Definition COMMENTARY_SOURCE_TEXT_PROJECTION_VERSION : N := 4.

Record SourceCursor := mk_cursor { unit_index : N; source_index : N; character : N }.
#[export] Instance SourceCursor_eq_dec : EqDecision SourceCursor.
Proof. solve_decision. Defined.
Definition default_cursor : SourceCursor := mk_cursor 0 0 0.

(** The derived [Ord]: lexicographic in declaration order. *)
Definition cursor_lt (a b : SourceCursor) : Prop :=
  unit_index a < unit_index b ∨
  (unit_index a = unit_index b ∧ (source_index a < source_index b ∨
    (source_index a = source_index b ∧ character a < character b))).
#[export] Instance cursor_lt_dec a b : Decision (cursor_lt a b).
Proof. unfold cursor_lt. apply _. Defined.

Inductive AttemptPurpose := Portion | Correction.
#[export] Instance AttemptPurpose_eq_dec : EqDecision AttemptPurpose.
Proof. solve_decision. Defined.

Inductive FailureKind :=
  | InputOverflow | Transient | Permanent | InvalidCompletion
  | InsufficientEffect | Deadline | Cancelled.
#[export] Instance FailureKind_eq_dec : EqDecision FailureKind.
Proof. solve_decision. Defined.

Inductive RunnerPhase :=
  | Ready (purpose : AttemptPurpose)
  | Attempt (number : N) (purpose : AttemptPurpose) (deadline : N)
  | Backoff (purpose : AttemptPurpose) (not_before : N)
  | Candidate (checkpoint : string) (final_portion : bool)
  | Commit (checkpoint : string)
  | Applied (checkpoint : string)
  | Failed (kind : FailureKind).
#[export] Instance RunnerPhase_eq_dec : EqDecision RunnerPhase.
Proof. solve_decision. Defined.

Record FailureDiagnostic := {
  stage : string; code : string; explanation : string; rpc_code : option Z;
}.

Inductive CompletionKind := Complete | Limit | Refused | Interrupted | ToolCall | Unknown.

Record AttemptObservation := {
  obs_number : N;
  started_ms : N;
  finished_ms : option N;
  estimated_input_tokens : N;
  output_cap : N;
  input_tokens : option N;
  output_tokens : option N;
  completion : option CompletionKind;
  failure_kind : option FailureKind;
  obs_diagnostic : option FailureDiagnostic;
}.
#[export] Instance AttemptObservation_fields : Fields AttemptObservation := λ o,
  {| obs_number := obs_number o; started_ms := started_ms o; finished_ms := finished_ms o;
     estimated_input_tokens := estimated_input_tokens o; output_cap := output_cap o;
     input_tokens := input_tokens o; output_tokens := output_tokens o;
     completion := completion o; failure_kind := failure_kind o;
     obs_diagnostic := obs_diagnostic o |}.

Record RunnerState := {
  generation : N;
  deadline_ms : N;
  attempts : N;
  retries : N;
  portion_attempts : N;
  corrections : N;
  overflow_rejections : N;
  overflow_input_ceiling : option N;
  target_tokens : N;
  source_text_projection_version : N;
  cursor : SourceCursor;
  previous_checkpoint : option string;
  phase : RunnerPhase;
  resume_phase : option RunnerPhase;
  observation : option AttemptObservation;
  diagnostic : option FailureDiagnostic;
}.
#[export] Instance RunnerState_fields : Fields RunnerState := λ s,
  {| generation := generation s; deadline_ms := deadline_ms s; attempts := attempts s;
     retries := retries s; portion_attempts := portion_attempts s; corrections := corrections s;
     overflow_rejections := overflow_rejections s;
     overflow_input_ceiling := overflow_input_ceiling s; target_tokens := target_tokens s;
     source_text_projection_version := source_text_projection_version s; cursor := cursor s;
     previous_checkpoint := previous_checkpoint s; phase := phase s;
     resume_phase := resume_phase s; observation := observation s;
     diagnostic := diagnostic s |}.

Inductive RunnerAction :=
  | Prepare (purpose : AttemptPurpose)
  | WaitUntil (not_before : N)
  | RecoverInterruptedAttempt
  | ValidateCandidate (checkpoint : string) (final_portion : bool)
  | CommitAction (checkpoint : string)
  | Terminal
  | Expired.

Definition is_failed (k : FailureKind) (p : RunnerPhase) : bool := bool_decide (p = Failed k).
Definition is_terminal (p : RunnerPhase) : bool :=
  match p with Applied _ | Failed _ => true | _ => false end.
Definition is_backoff (p : RunnerPhase) : bool :=
  match p with Backoff _ _ => true | _ => false end.

(** [RunnerState::new]. *)
Definition new_runner (deadline : N) (model : ModelBudget) (goal : N)
    (previous : option string) : result failure RunnerState :=
  target ← summarizer_cap model goal;
  ensure (bool_decide (0 < target)) (Bail "summarizer has no output capacity");;
  Ok {| generation := 0; deadline_ms := deadline; attempts := 0; retries := 0;
        portion_attempts := 0; corrections := 0; overflow_rejections := 0;
        overflow_input_ceiling := None; target_tokens := target;
        source_text_projection_version := COMMENTARY_SOURCE_TEXT_PROJECTION_VERSION;
        cursor := default_cursor; previous_checkpoint := previous; phase := Ready Portion;
        resume_phase := None; observation := None; diagnostic := None |}.

Definition input_ceiling (s : RunnerState) : option N := overflow_input_ceiling s.

Definition action (s : RunnerState) (now_ms : N) : RunnerAction :=
  if is_terminal (phase s) then Terminal
  else if decide (deadline_ms s ≤ now_ms) then Expired
  else match phase s with
  | Ready purpose => Prepare purpose
  | Backoff purpose not_before =>
      if decide (not_before ≤ now_ms) then Prepare purpose else WaitUntil not_before
  | Attempt _ _ _ => RecoverInterruptedAttempt
  | Candidate checkpoint final_portion => ValidateCandidate checkpoint final_portion
  | Commit checkpoint => CommitAction checkpoint
  | Applied _ | Failed _ => Terminal
  end.

(** The private [next]: a copy with the following generation. *)
Definition next (s : RunnerState) : result failure RunnerState :=
  g ← ok_or (checked_add U64_MAX (generation s) 1) (Bail "state generation overflow");
  Ok (s <| generation := g |>).

Definition claim (s : RunnerState) (now_ms : N) : result failure RunnerState :=
  match action s now_ms with
  | Prepare purpose =>
      let consumed := if bool_decide (portion_attempts s = 0) && is_backoff (phase s)
                      then retries s else portion_attempts s in
      ensure (bool_decide (overflow_rejections s ≤ 4) &&
              bool_decide (overflow_rejections s ≤ consumed))
        (Bail "invalid persisted overflow retry counters");;
      ensure (bool_decide (consumed - overflow_rejections s < 3))
        (Bail "portion attempt limit exhausted");;
      n ← next s;
      portion ← ok_or (checked_add U8_MAX consumed 1) (Bail "portion attempt counter overflow");
      count ← ok_or (checked_add U64_MAX (attempts n) 1) (Bail "attempt counter overflow");
      Ok (n <| portion_attempts := portion |> <| attempts := count |> <| observation := None |>
            <| diagnostic := None |>
            <| phase := Attempt count purpose
                 (N.min (deadline_ms s) (now_ms +₆₄ CompactionBudget.Selection.ATTEMPT_MILLIS)) |>)
  | _ => Err (Bail "attempt is not admitted")
  end.

(** The next input ceiling after a confirmed overflow: a share of the size of
    the rejected request, if the persisted observation is that request. *)
Definition rejected_size (s : RunnerState) : option N :=
  o ← observation s;
  if bool_decide (obs_number o = attempts s) &&
     match input_ceiling s with
     | Some ceiling => bool_decide (estimated_input_tokens o ≤ ceiling)
     | None => true
     end
  then Some (estimated_input_tokens o) else None.
Definition overflow_shares : list N := [85; 70; 50; 35].
Definition overflow_ceiling (s : RunnerState) : option N :=
  size ← rejected_size s;
  share ← overflow_shares !! N.to_nat (overflow_rejections s);
  let smaller := (size * share) `div` 100 in
  if bool_decide (0 < smaller) && bool_decide (smaller < size) then Some smaller else None.

(** The delay table, indexed as an array: out of range is a panic. *)
Definition retry_delay (retry : N) : result failure N :=
  ok_or ([2000; 8000] !! N.to_nat retry) (Panic "index out of bounds").

(** The call count the failure is charged with; legacy records carry none. *)
Definition charged (s : RunnerState) : N :=
  if decide (portion_attempts s = 0) then retries s +₈ 1 else portion_attempts s.

(** [if let Some(observation) = &mut next.observation]. *)
Definition record_failure (n : RunnerState) (kind : FailureKind) (now_ms : N) : RunnerState :=
  match observation n with
  | Some o => n <| observation := Some (o <| finished_ms := Some now_ms |>
                                          <| failure_kind := Some kind |>) |>
  | None => n
  end.

(** The branches that choose the following phase; [s] is [self], [n] the copy. *)
Definition overflow_phase (s n : RunnerState) (purpose : AttemptPurpose)
    : result failure RunnerState :=
  match overflow_ceiling s with
  | Some ceiling =>
      rejections ← ok_or (checked_add U8_MAX (overflow_rejections s) 1)
                     (Panic "attempt to add with overflow");
      Ok (n <| overflow_rejections := rejections |>
            <| overflow_input_ceiling :=
                 Some (match overflow_input_ceiling s with
                       | Some old => N.min old ceiling
                       | None => ceiling
                       end) |>
            <| phase := Ready purpose |>)
  | None => Ok (n <| phase := Failed InputOverflow |>)
  end.

Definition retry_phase (s n : RunnerState) (purpose : AttemptPurpose) (kind : FailureKind)
    (now_ms : N) (retry_after_ms : option N) : result failure RunnerState :=
  let ordinary := portion_attempts n - overflow_rejections s in
  let retry := if decide (kind = Transient) then retries s else ordinary - 1 in
  base ← retry_delay retry;
  let not_before := now_ms +₆₄ N.max base (default 0 retry_after_ms) in
  if decide (deadline_ms s ≤ not_before) then Ok (n <| phase := Failed Deadline |>)
  else
    r ← (if decide (kind = Transient)
         then ok_or (checked_add U8_MAX (retries n) 1) (Panic "attempt to add with overflow")
         else Ok (retries n));
    Ok (n <| retries := r |> <| phase := Backoff purpose not_before |>).

Definition failure_phase (s n : RunnerState) (purpose : AttemptPurpose) (kind : FailureKind)
    (now_ms : N) (retry_after_ms : option N) : result failure RunnerState :=
  if decide (deadline_ms s ≤ now_ms) then Ok (n <| phase := Failed Deadline |>)
  else if decide (kind = InputOverflow) then overflow_phase s n purpose
  else if bool_decide (portion_attempts n - overflow_rejections s < 3) &&
          (bool_decide (kind = InvalidCompletion) ||
           bool_decide (kind = Transient) && bool_decide (retries s < 2))
  then retry_phase s n purpose kind now_ms retry_after_ms
  else Ok (n <| phase := Failed kind |>).

Definition attempt_failed (s : RunnerState) (kind : FailureKind) (now_ms : N)
    (retry_after_ms : option N) : result failure RunnerState :=
  match phase s with
  | Attempt _ purpose _ =>
      n ← next s;
      let n := (record_failure n kind now_ms) <| portion_attempts := charged s |> in
      n ← failure_phase s n purpose kind now_ms retry_after_ms;
      Ok (if is_failed InvalidCompletion (phase n)
          then n <| resume_phase := Some (Ready purpose) |> else n)
  | _ => Err (Bail "no current attempt")
  end.

Definition candidate (s : RunnerState) (attempt : N) (checkpoint : string) (to : SourceCursor)
    (final_portion : bool) (now_ms : N) : result failure RunnerState :=
  match phase s with
  | Attempt number purpose deadline =>
      ensure (bool_decide (attempt = number) && bool_decide (now_ms < deadline) &&
              bool_decide (now_ms < deadline_ms s)) (Bail "late or superseded completion");;
      ensure (bool_decide (purpose = Correction) || bool_decide (cursor_lt (cursor s) to))
        (Bail "portion made no source progress");;
      ensure (negb (bool_decide (purpose = Correction)) ||
              bool_decide (to = cursor s) && final_portion)
        (Bail "correction changed source coverage");;
      n ← next s;
      Ok (n <| portion_attempts := 0 |> <| overflow_rejections := 0 |>
            <| overflow_input_ceiling := None |> <| cursor := to |>
            <| previous_checkpoint := Some checkpoint |>
            <| phase := Candidate checkpoint final_portion |>)
  | _ => Err (Bail "no current attempt")
  end.

Definition candidate_checked (s : RunnerState) (target_fits : bool) : result failure RunnerState :=
  match phase s with
  | Candidate checkpoint final_portion =>
      n ← next s;
      Ok (if negb final_portion then n <| phase := Ready Portion |>
          else if target_fits then n <| phase := Commit checkpoint |>
          else if bool_decide (corrections s = 0) && bool_decide (1 < target_tokens s)
          then n <| corrections := 1 |> <| target_tokens := N.max (target_tokens s `div` 2) 1 |>
                 <| phase := Ready Correction |>
          else n <| phase := Failed InsufficientEffect |>)
  | _ => Err (Bail "no candidate to validate")
  end.

Definition applied (s : RunnerState) (checkpoint : string) : result failure RunnerState :=
  ensure (bool_decide (phase s = Commit checkpoint)) (Bail "checkpoint is not admitted for commit");;
  n ← next s;
  Ok (n <| phase := Applied checkpoint |>).

Definition terminate (s : RunnerState) (kind : FailureKind) : result failure RunnerState :=
  if is_terminal (phase s) then Ok s
  else
    n ← next s;
    let n := if decide (kind = Deadline)
             then n <| resume_phase := Some (match phase s with
                                             | Attempt _ purpose _ => Ready purpose
                                             | p => p
                                             end) |>
             else n in
    Ok (n <| phase := Failed kind |>).

(** [Option::is_none_or]. *)
Definition is_none_or {A} (f : A → bool) (o : option A) : bool :=
  match o with Some a => f a | None => true end.

Definition can_resume_invalid_completion (s : RunnerState) : bool :=
  is_failed InvalidCompletion (phase s) && bool_decide (cursor_lt default_cursor (cursor s)) &&
  bool_decide (is_Some (previous_checkpoint s)) &&
  match resume_phase s with
  | Some (Ready Portion) | None => bool_decide (corrections s = 0)
  | Some (Ready Correction) => bool_decide (corrections s = 1)
  | _ => false
  end &&
  is_none_or (λ o, bool_decide (obs_number o = attempts s) &&
                   bool_decide (failure_kind o = Some InvalidCompletion)) (observation s).

Definition resume_invalid_completion (s : RunnerState) (deadline : N) : result failure RunnerState :=
  ensure (can_resume_invalid_completion s) (Bail "compaction resume phase is unsafe");;
  n ← next s;
  Ok (n <| deadline_ms := deadline |> <| portion_attempts := overflow_rejections n |>
        <| phase := default (Ready Portion) (resume_phase n) |> <| resume_phase := None |>
        <| observation := None |> <| diagnostic := None |>).

Definition can_resume_deadline (s : RunnerState) : bool :=
  is_failed Deadline (phase s) && bool_decide (cursor_lt default_cursor (cursor s)) &&
  bool_decide (is_Some (previous_checkpoint s)) &&
  (bool_decide (is_Some (resume_phase s)) || bool_decide (corrections s = 0)) &&
  is_none_or (λ o, bool_decide (failure_kind o = None) ||
                   bool_decide (failure_kind o = Some InputOverflow)) (observation s).

Definition resume_deadline (s : RunnerState) (deadline : N) (legacy_final : bool)
    : result failure RunnerState :=
  ensure (can_resume_deadline s && bool_decide (deadline_ms s < deadline))
    (Bail "no resumable deadline progress");;
  n ← next s;
  p ← match resume_phase n with
      | Some p => Ok p
      | None =>
          if legacy_final then
            checkpoint ← ok_or (previous_checkpoint s) (Panic "unwrap on a None value");
            Ok (Candidate checkpoint true)
          else Ok (Ready Portion)
      end;
  Ok (n <| deadline_ms := deadline |> <| portion_attempts := overflow_rejections n |>
        <| phase := p |> <| resume_phase := None |>
        <| observation := None |> <| diagnostic := None |>).

(** ** The transitions the driver makes

    [ExecutionRunner] of [gateway/src/compaction.rs] persists the result of each
    of these before it goes on; [event] names the transition and carries the
    values the environment supplies (the clock, sizes, the summarizer's answer). *)
Module Driver.

(** The stable per-operation jitter of [attempt_failed]. *)
Definition WRAP : N := U64_MAX + 1.
Definition id_hash (seed : N) (id : string) : N :=
  foldl (λ acc c, (((acc * 131) `mod` WRAP) + Ascii.N_of_ascii c) `mod` WRAP) seed
    (String.list_ascii_of_string id).

Definition attempt_failed (id : string) (s : RunnerState) (kind : FailureKind) (now_ms : N)
    (retry_after_ms : option N) : result failure RunnerState :=
  delay ← (if bool_decide (kind = Transient) && bool_decide (retries s < 2) then
             base ← retry_delay (retries s);
             Ok (Some (N.max (base + id_hash (retries s) id `mod` (base `div` 8 + 1))
                         (default 0 retry_after_ms)))
           else Ok retry_after_ms);
  CompactionRunner.attempt_failed s kind now_ms delay.

Definition diagnose (s : RunnerState) (d : FailureDiagnostic) : RunnerState :=
  let s := match observation s with
           | Some o => if bool_decide (is_Some (failure_kind o))
                       then s <| observation := Some (o <| obs_diagnostic := Some d |>) |>
                       else s
           | None => s
           end in
  s <| diagnostic := Some d |>.

Inductive event :=
  | Claimed (now_ms started input cap : N)
  | Received (now_ms : N) (kind : CompletionKind) (input output : option N)
  | AttemptFailed (kind : FailureKind) (now_ms : N) (retry_after : option N)
      (d : option FailureDiagnostic)
  | Accepted (checkpoint : string) (to : SourceCursor) (final_portion : bool)
      (projection now_ms : N)
  | Checked (target_fits : bool)
  | HeadApplied (checkpoint : string)
  | Terminated (kind : FailureKind) (d : option FailureDiagnostic)
  | ResumedInvalid (deadline : N)
  | ResumedDeadline (deadline : N) (legacy_final : bool).

(** [claimed.observation = Some(AttemptObservation { .. })]. *)
Definition observe (s : RunnerState) (started input cap : N) : RunnerState :=
  s <| observation := Some {| obs_number := attempts s; started_ms := started;
         finished_ms := None; estimated_input_tokens := input; output_cap := cap;
         input_tokens := None; output_tokens := None; completion := None;
         failure_kind := None; obs_diagnostic := None |} |>.

(** The in-memory update of the observation when a completion arrives. *)
Definition received (s : RunnerState) (now_ms : N) (kind : CompletionKind)
    (input output : option N) : RunnerState :=
  match observation s with
  | Some o => s <| observation := Some (o <| finished_ms := Some now_ms |>
                     <| completion := Some kind |> <| input_tokens := input |>
                     <| output_tokens := output |>) |>
  | None => s
  end.

Definition diagnosed (d : option FailureDiagnostic) (s : RunnerState) : RunnerState :=
  match d with Some d => diagnose s d | None => s end.

Definition handle (id : string) (s : RunnerState) (e : event) : result failure RunnerState :=
  match e with
  | Claimed now_ms started input cap => c ← claim s now_ms; Ok (observe c started input cap)
  | Received now_ms kind input output => Ok (received s now_ms kind input output)
  | AttemptFailed kind now_ms retry_after d =>
      n ← attempt_failed id s kind now_ms retry_after; Ok (diagnosed d n)
  | Accepted checkpoint to final_portion projection now_ms =>
      n ← candidate s (attempts s) checkpoint to final_portion now_ms;
      Ok (n <| source_text_projection_version := projection |>)
  | Checked target_fits => candidate_checked s target_fits
  | HeadApplied checkpoint => applied s checkpoint
  | Terminated kind d => n ← terminate s kind; Ok (diagnosed d n)
  | ResumedInvalid deadline => resume_invalid_completion s deadline
  | ResumedDeadline deadline legacy_final => resume_deadline s deadline legacy_final
  end.

Definition run (id : string) (s : RunnerState) (es : list event) : result failure RunnerState :=
  foldlM (handle id) s es.

End Driver.
Import Driver.

(** ** Inversions of the transitions *)
Lemma next_inv s n : next s = Ok n → n = s <| generation := generation s + 1 |>.
Proof. unfold next. intros. by simplify_result. Qed.

(** What the bookkeeping of observations and diagnostics leaves alone. *)
Definition same_core (s t : RunnerState) : Prop :=
  generation s = generation t ∧ deadline_ms s = deadline_ms t ∧ attempts s = attempts t ∧
  retries s = retries t ∧ portion_attempts s = portion_attempts t ∧
  corrections s = corrections t ∧ overflow_rejections s = overflow_rejections t ∧
  overflow_input_ceiling s = overflow_input_ceiling t ∧ target_tokens s = target_tokens t ∧
  cursor s = cursor t ∧ previous_checkpoint s = previous_checkpoint t ∧
  phase s = phase t ∧ resume_phase s = resume_phase t.

Lemma diagnosed_core d s : same_core (diagnosed d s) s.
Proof. unfold diagnosed, diagnose. repeat case_match; repeat split. Qed.
Lemma diagnosed_number d s : obs_number <$> observation (diagnosed d s) = obs_number <$> observation s.
Proof.
  unfold diagnosed, diagnose. destruct d; [|done]. destruct (observation s) eqn:Ho; simpl; [|by rewrite Ho].
  case_match; simpl; by rewrite ?Ho.
Qed.
Lemma received_core s now k i o : same_core (received s now k i o) s.
Proof. unfold received. case_match; repeat split. Qed.

Inductive failure_outcome (s : RunnerState) (purpose : AttemptPurpose) (kind : FailureKind)
    (now_ms : N) (retry_after : option N) (s' : RunnerState) : Prop :=
  | failed_outcome k :
      (k = kind ∨ k = Deadline) → phase s' = Failed k →
      resume_phase s' = (if decide (k = InvalidCompletion) then Some (Ready purpose)
                         else resume_phase s) →
      retries s' = retries s → overflow_rejections s' = overflow_rejections s →
      overflow_input_ceiling s' = overflow_input_ceiling s →
      failure_outcome s purpose kind now_ms retry_after s'
  | shrink_outcome ceiling :
      kind = InputOverflow → now_ms < deadline_ms s → overflow_ceiling s = Some ceiling →
      phase s' = Ready purpose → resume_phase s' = resume_phase s → retries s' = retries s →
      overflow_rejections s' = overflow_rejections s + 1 →
      overflow_input_ceiling s' =
        Some (match overflow_input_ceiling s with
              | Some old => N.min old ceiling | None => ceiling end) →
      failure_outcome s purpose kind now_ms retry_after s'
  | retry_outcome base not_before :
      (kind = InvalidCompletion ∨ (kind = Transient ∧ retries s < 2)) →
      charged s - overflow_rejections s < 3 → 2000 ≤ base →
      not_before = now_ms +₆₄ N.max base (default 0 retry_after) → not_before < deadline_ms s →
      phase s' = Backoff purpose not_before → resume_phase s' = resume_phase s →
      retries s' = (if decide (kind = Transient) then retries s + 1 else retries s) →
      overflow_rejections s' = overflow_rejections s →
      overflow_input_ceiling s' = overflow_input_ceiling s →
      failure_outcome s purpose kind now_ms retry_after s'.

Lemma retry_delay_bounds r base : retry_delay r = Ok base → r < 2 ∧ 2000 ≤ base.
Proof.
  unfold retry_delay. intros Hb%ok_or_Ok. pose proof (lookup_lt_Some _ _ _ Hb). simpl in *.
  split; [lia|]. destruct (N.to_nat r) as [|[|n]]; simpl in *; simplify_eq; lia.
Qed.

Lemma record_failure_core n kind now :
  same_core (record_failure n kind now) n ∧
  obs_number <$> observation (record_failure n kind now) = obs_number <$> observation n.
Proof. unfold record_failure. destruct (observation n) eqn:Ho; simpl; rewrite ?Ho; repeat split. Qed.

(** The chosen phase: everything but the phase, the counters of the failed kind
    and the ceiling is that of the copy. *)
Lemma failure_phase_inv s n purpose kind now ra n' :
  failure_phase s n purpose kind now ra = Ok n' →
  portion_attempts n = charged s → retries n = retries s →
  overflow_rejections n = overflow_rejections s →
  overflow_input_ceiling n = overflow_input_ceiling s → resume_phase n = resume_phase s →
  n' = n <| phase := phase n' |> <| retries := retries n' |>
         <| overflow_rejections := overflow_rejections n' |>
         <| overflow_input_ceiling := overflow_input_ceiling n' |> ∧
  failure_outcome s purpose kind now ra
    (if is_failed InvalidCompletion (phase n')
     then n' <| resume_phase := Some (Ready purpose) |> else n').
Proof.
  unfold failure_phase. intros H Hpa Hr Hov Hce Hre. case_decide as Hdl.
  { simplify_result. split; [by destruct n|].
    eapply (failed_outcome _ _ _ _ _ _ Deadline); simpl; auto. }
  case_decide as Hk; [unfold overflow_phase in H; destruct (overflow_ceiling s) eqn:Hc; simplify_result|].
  - split; [by destruct n|]. eapply shrink_outcome; simpl; eauto. lia.
  - split; [by destruct n|]. eapply (failed_outcome _ _ _ _ _ _ InputOverflow); simpl; auto.
  - destruct (bool_decide _ && _) eqn:Hb; cycle 1.
    { simplify_result. clear Hb. split; [by destruct n|]. unfold is_failed; simpl.
      destruct (decide (kind = InvalidCompletion)) as [->|Hne]; simpl.
      - eapply (failed_outcome _ _ _ _ _ _ InvalidCompletion); simpl; auto.
      - rewrite bool_decide_false by congruence.
        eapply (failed_outcome _ _ _ _ _ _ kind); simpl; auto. by rewrite decide_False. }
    unfold retry_phase in H. apply andb_true_iff in Hb as [Hlt Hkind]. simplify_result.
    apply retry_delay_bounds in Hr0 as [Hrt Hbase]. case_decide as Hnb; simplify_result.
    + split; [by destruct n|]. eapply (failed_outcome _ _ _ _ _ _ Deadline); simpl; auto.
    + split; [by destruct n|].
      eapply (retry_outcome _ _ _ _ _ _ r); simpl; eauto; try congruence; try lia.
      * apply orb_true_iff in Hkind as [Hki|Hki]; simplify_result; auto.
      * case_decide; simplify_result; congruence.
Qed.

Lemma attempt_failed_inv s kind now ra s' :
  CompactionRunner.attempt_failed s kind now ra = Ok s' →
  ∃ number purpose d, phase s = Attempt number purpose d ∧
    generation s' = generation s + 1 ∧ deadline_ms s' = deadline_ms s ∧
    attempts s' = attempts s ∧ corrections s' = corrections s ∧
    target_tokens s' = target_tokens s ∧ cursor s' = cursor s ∧
    previous_checkpoint s' = previous_checkpoint s ∧ portion_attempts s' = charged s ∧
    obs_number <$> observation s' = obs_number <$> observation s ∧
    failure_outcome s purpose kind now ra s'.
Proof.
  unfold CompactionRunner.attempt_failed. destruct (phase s) as [|number purpose d| | | | |] eqn:Hp;
    try done. intros (n & ->%next_inv & H)%bind_Ok. apply bind_Ok in H as (n' & H & [= <-]).
  exists number, purpose, d. split; [done|].
  destruct (record_failure_core (s <| generation := generation s + 1 |>) kind now) as [Hc Ho].
  set (r := record_failure _ kind now) in *. clearbody r.
  destruct Hc as (?&?&?&?&?&?&?&?&?&?&?&?&?).
  apply failure_phase_inv in H as [Heq Hout]; [|simpl in *; congruence..].
  assert (generation n' = generation r ∧ deadline_ms n' = deadline_ms r ∧ attempts n' = attempts r ∧
    corrections n' = corrections r ∧ target_tokens n' = target_tokens r ∧ cursor n' = cursor r ∧
    previous_checkpoint n' = previous_checkpoint r ∧ portion_attempts n' = charged s ∧
    observation n' = observation r) as (?&?&?&?&?&?&?&?&Hn) by (by rewrite Heq).
  clear Heq. do 8 (split; [case_match; simpl in *; congruence|]).
  split; [case_match; simpl in *; congruence|exact Hout].
Qed.

Lemma claim_inv s now s' :
  claim s now = Ok s' →
  ∃ purpose consumed,
    (phase s = Ready purpose ∨ ∃ not_before, phase s = Backoff purpose not_before ∧ not_before ≤ now) ∧
    now < deadline_ms s ∧
    consumed = (if bool_decide (portion_attempts s = 0) && is_backoff (phase s)
                then retries s else portion_attempts s) ∧
    overflow_rejections s ≤ 4 ∧ overflow_rejections s ≤ consumed < overflow_rejections s + 3 ∧
    s' = s <| generation := generation s + 1 |> <| portion_attempts := consumed + 1 |>
           <| attempts := attempts s + 1 |> <| observation := None |> <| diagnostic := None |>
           <| phase := Attempt (attempts s + 1) purpose
                (N.min (deadline_ms s) (now +₆₄ CompactionBudget.Selection.ATTEMPT_MILLIS)) |>.
Proof.
  unfold claim, action. destruct (is_terminal (phase s)) eqn:Ht; [done|]. case_decide as Hd; [done|].
  intros H. assert (∃ purpose, (phase s = Ready purpose ∨
    ∃ nb, phase s = Backoff purpose nb ∧ nb ≤ now) ∧
    match phase s with Ready p => Prepare p
    | Backoff p nb => if decide (nb ≤ now) then Prepare p else WaitUntil nb
    | _ => Terminal end = Prepare purpose) as (purpose & Hp & Hact).
  { destruct (phase s); simplify_eq; eauto. case_decide; simplify_eq; eauto 6. }
  exists purpose. destruct (phase s) eqn:Hphase; simplify_eq;
    [|rewrite Hact in H]; rewrite ?Hphase in H; simpl in H; cbn [is_backoff] in *;
    repeat match goal with H : _ ≫= _ = Ok _ |- _ => let H1 := fresh "Hs" in
      apply bind_Ok in H as (? & H1 & H) end; simplify_result;
    match goal with H : next s = Ok _ |- _ => apply next_inv in H; subst end; simpl in *;
    eexists; (split; [exact Hp|]); (split; [lia|]); (split; [reflexivity|]);
    (split; [done|]); (split; [lia|done]).
Qed.

Lemma driver_attempt_failed_inv id s kind now ra s' :
  attempt_failed id s kind now ra = Ok s' →
  ∃ delay, CompactionRunner.attempt_failed s kind now delay = Ok s' ∧
           default 0 ra ≤ default 0 delay.
Proof.
  unfold attempt_failed. intros (delay & Hd & H)%bind_Ok. exists delay. split; [done|].
  destruct (_ && _); simplify_result; simpl; lia.
Qed.

(** ** The invariant of reachable states *)
Definition phase_purpose (p : RunnerPhase) : option AttemptPurpose :=
  match p with Ready p | Attempt _ p _ | Backoff p _ => Some p | _ => None end.
Definition resumable (p : RunnerPhase) : bool :=
  match p with Ready _ | Backoff _ _ | Candidate _ _ | Commit _ => true | _ => false end.

Record runner_inv (s : RunnerState) : Prop := {
  inv_overflow : overflow_rejections s ≤ 4;
  inv_retries : retries s ≤ 2;
  inv_corrections : corrections s ≤ 1;
  inv_portion : overflow_rejections s ≤ portion_attempts s ≤ overflow_rejections s + 3;
  inv_ceiling :
    match overflow_input_ceiling s with
    | Some c => 0 < c ∧ 0 < overflow_rejections s
    | None => overflow_rejections s = 0
    end;
  inv_target : 0 < target_tokens s;
  inv_attempt : ∀ n p d, phase s = Attempt n p d →
    n = attempts s ∧ d ≤ deadline_ms s ∧ overflow_rejections s < portion_attempts s ∧
    obs_number <$> observation s = Some n;
  inv_correction : phase_purpose (phase s) = Some Correction → corrections s = 1;
  inv_resume : ∀ p, resume_phase s = Some p →
    (∃ k, phase s = Failed k) ∧ resumable p = true ∧
    (phase_purpose p = Some Correction → corrections s = 1);
}.

Lemma runner_inv_core s t :
  same_core s t → obs_number <$> observation s = obs_number <$> observation t →
  runner_inv t → runner_inv s.
Proof.
  destruct s, t. unfold same_core; simpl.
  intros (->&->&->&->&->&->&->&->&->&->&->&->&->) Ho []. by constructor; simpl in *; rewrite ?Ho.
Qed.

Lemma new_runner_inv deadline m goal prev s :
  new_runner deadline m goal prev = Ok s → runner_inv s.
Proof. unfold new_runner. intros. simplify_result. by constructor; simpl; try lia. Qed.

Lemma overflow_ceiling_inv s c :
  overflow_ceiling s = Some c →
  overflow_rejections s < 4 ∧
  ∃ o, observation s = Some o ∧ obs_number o = attempts s ∧ 0 < c < estimated_input_tokens o ∧
    ∀ old, overflow_input_ceiling s = Some old → estimated_input_tokens o ≤ old.
Proof.
  unfold overflow_ceiling, rejected_size, input_ceiling. destruct (observation s) as [o|]; [|done].
  simpl. destruct (_ && _) eqn:Hb; [|done]. simpl. apply andb_true_iff in Hb as [Hn Hc].
  destruct (overflow_shares !! _) as [share|] eqn:Hs; [|done]. simpl.
  apply lookup_lt_Some in Hs. simpl in Hs. destruct (bool_decide _ && _) eqn:Hb; [|done].
  intros [= <-]. simplify_result. split; [lia|]. exists o. repeat split; try done.
  intros old Hold. rewrite Hold in Hc. by simplify_result.
Qed.

Lemma attempt_failed_inv_preserved s kind now delay s' :
  CompactionRunner.attempt_failed s kind now delay = Ok s' → runner_inv s → runner_inv s'.
Proof.
  intros (n & p & d & Hp & Hg & Hdl & Ha & Hc & Ht & Hcu & Hpr & Hpo & Ho & Hout)%attempt_failed_inv
    [Hov Hre Hco Hpa Hce Hta Hat Hpu Hrs].
  destruct (Hat _ _ _ Hp) as (-> & _ & Hlt & _).
  assert (charged s = portion_attempts s) as Hch by (unfold charged; case_decide; [lia|done]).
  assert (resume_phase s = None) as Hnone.
  { destruct (resume_phase s) as [q|] eqn:Hq; [|done]. destruct (Hrs q eq_refl) as [[? ?] _]. congruence. }
  rewrite Hp in Hpu. simpl in Hpu.
  destruct Hout as [k _ Hk Hr1 Hr2 Hr3 Hr4|c _ _ Hc1 Hk Hr1 Hr2 Hr3 Hr4|base nb Hkind Hlt3 _ _ _ Hk Hr1 Hr2 Hr3 Hr4];
    constructor; rewrite ?Hk, ?Hr1, ?Hr2, ?Hr3, ?Hr4, ?Hpo, ?Hc, ?Ht, ?Hch, ?Hnone; try done; try lia.
  - intros q. case_decide; [|done]. intros [= <-]. split; [by eauto|]. by split.
  - apply overflow_ceiling_inv in Hc1 as [? _]. lia.
  - apply overflow_ceiling_inv in Hc1 as (_ & o & _ & _ & ? & _).
    destruct (overflow_input_ceiling s); lia.
  - destruct Hkind as [->|[-> ?]]; simpl; lia.
Qed.

Lemma handle_inv id s e s' : handle id s e = Ok s' → runner_inv s → runner_inv s'.
Proof.
  destruct e; simpl; intros H Hinv.
  - apply bind_Ok in H as (c & H & [= <-]).
    apply claim_inv in H as (p & k & Hp & ? & -> & ? & ? & ->).
    set (consumed := if _ : bool then _ else _) in *. clearbody consumed.
    destruct Hinv as [Hov Hre Hco Hpa Hce Hta Hat Hpu Hrs]. constructor; simpl; try done; try lia.
    + intros n q d [= <- <- <-]. simpl. repeat split; [|lia]. lia.
    + intros [= ->]. apply Hpu. destruct Hp as [->|(? & -> & _)]; done.
    + intros q Hq. destruct (Hrs q Hq) as [[k Hk] _]. destruct Hp as [Hp|(? & Hp & _)]; congruence.
  - injection H as <-. eapply runner_inv_core; [apply received_core| |done].
    unfold received. destruct (observation s) eqn:Ho; simpl; by rewrite ?Ho.
  - apply bind_Ok in H as (n & H & [= <-]). apply driver_attempt_failed_inv in H as (delay & H & _).
    eapply runner_inv_core; [apply diagnosed_core|apply diagnosed_number|].
    by eapply attempt_failed_inv_preserved.
  - apply bind_Ok in H as (n & H & [= <-]). unfold candidate in H.
    destruct (phase s) eqn:Hp; try done. simplify_result. apply next_inv in Hr2 as ->.
    destruct Hinv as [Hov Hre Hco Hpa Hce Hta Hat Hpu Hrs]. constructor; simpl; try done; try lia.
    intros q Hq. destruct (Hrs q Hq) as [[k Hk] _]. congruence.
  - unfold candidate_checked in H. destruct (phase s) eqn:Hp; try done. simplify_result.
    apply next_inv in Hr as ->. destruct Hinv as [Hov Hre Hco Hpa Hce Hta Hat Hpu Hrs].
    assert (resume_phase s = None) as Hnone.
    { destruct (resume_phase s) as [q|]; [|done]. destruct (Hrs q eq_refl) as [[? ?] _]. congruence. }
    repeat case_goal; constructor; simpl; rewrite ?Hnone; try done; lia.
  - unfold applied in H. simplify_result. apply next_inv in Hr0 as ->.
    destruct Hinv as [Hov Hre Hco Hpa Hce Hta Hat Hpu Hrs]. constructor; simpl; try done; try lia.
    intros q Hq. destruct (Hrs q Hq) as [[k Hk] _]. congruence.
  - apply bind_Ok in H as (n & H & [= <-]). unfold terminate in H.
    eapply runner_inv_core; [apply diagnosed_core|apply diagnosed_number|].
    destruct (is_terminal (phase s)) eqn:Ht; [by simplify_result|]. simplify_result.
    apply next_inv in Hr as ->. destruct Hinv as [Hov Hre Hco Hpa Hce Hta Hat Hpu Hrs].
    assert (resume_phase s = None) as Hnone.
    { destruct (resume_phase s) as [q|]; [|done]. destruct (Hrs q eq_refl) as [[? Hk] _].
      by rewrite Hk in Ht. }
    case_decide; constructor; simpl; rewrite ?Hnone; try done; try lia.
    intros q [= <-]. split; [by eauto|]. by destruct (phase s).
  - unfold resume_invalid_completion in H. simplify_result. apply next_inv in Hr0 as ->.
    destruct Hinv as [Hov Hre Hco Hpa Hce Hta Hat Hpu Hrs]. simpl.
    constructor; simpl; try done; try lia.
    + intros n p d Hq. destruct (resume_phase s) as [q|]; simpl in Hq; [subst q|done].
      destruct (Hrs _ eq_refl) as (_ & [=] & _).
    + destruct (resume_phase s) as [q|]; simpl; [|done]. by destruct (Hrs _ eq_refl) as (_ & _ & ?).
  - unfold resume_deadline in H. simplify_result. apply next_inv in Hr0 as ->. simpl in *.
    destruct Hinv as [Hov Hre Hco Hpa Hce Hta Hat Hpu Hrs].
    assert (resumable r1 = true ∧ (phase_purpose r1 = Some Correction → corrections s = 1)) as [Hq1 Hq2].
    { destruct (resume_phase s) as [q|]; simplify_result.
      - by destruct (Hrs _ eq_refl) as (_ & ? & ?).
      - destruct legacy_final; by simplify_result. }
    constructor; simpl; try done; try lia. by intros n p d ->.
Qed.

(** The states of a run of a fresh operation. *)
Definition reachable (s : RunnerState) : Prop :=
  ∃ deadline m goal prev s0 id es,
    new_runner deadline m goal prev = Ok s0 ∧ run id s0 es = Ok s.

Lemma reachable_inv s : reachable s → runner_inv s.
Proof.
  intros (deadline & m & goal & prev & s0 & id & es & Hnew & Hrun).
  eapply (foldlM_ind runner_inv); [|by eapply new_runner_inv|exact Hrun].
  intros. by eapply handle_inv.
Qed.

(** ** Properties *)

(** in every state a fresh operation can reach, whatever the summarizer,
    the clock and the resumptions did: at most four overflow rejections and
    three ordinary calls are charged to a portion, at most two transient
    retries and one correction to the operation, an input ceiling exists
    exactly after a rejection and is positive, the target stays positive, and a
    running attempt is the last one counted, lies within the operation's
    deadline and is described by the persisted observation. *)
Theorem runner_reachable_bounds (s : RunnerState) (H : reachable s) :
  overflow_rejections s ≤ 4 ∧ retries s ≤ 2 ∧ corrections s ≤ 1 ∧
  overflow_rejections s ≤ portion_attempts s ≤ overflow_rejections s + 3 ∧
  (is_Some (overflow_input_ceiling s) ↔ 0 < overflow_rejections s) ∧
  (∀ c, overflow_input_ceiling s = Some c → 0 < c) ∧ 0 < target_tokens s ∧
  (∀ n p d, phase s = Attempt n p d →
     n = attempts s ∧ d ≤ deadline_ms s ∧ obs_number <$> observation s = Some n).
Proof.
  destruct (reachable_inv s H) as [Hov Hre Hco Hpa Hce Hta Hat _ _]. repeat (split; [done|]).
  split; [|split; [|split; [done|]]].
  - destruct (overflow_input_ceiling s) as [c|]; split; intros; [lia|eauto|by destruct H0|lia].
  - intros c Hc. rewrite Hc in Hce. lia.
  - intros n p d Hp. destruct (Hat n p d Hp) as (? & ? & _ & ?). done.
Qed.

Definition panics {A} (r : result failure A) : Prop := ∃ m, r = Err (Panic m).

Lemma next_no_panic s : ¬ panics (next s).
Proof. unfold next, checked_add. intros [m H]. case_decide; done. Qed.

Lemma bind_panics {A B} (m : result failure A) (f : A → result failure B) :
  ¬ panics m → (∀ a, m = Ok a → ¬ panics (f a)) → ¬ panics (m ≫= f).
Proof. intros Hm Hf [x H]. destruct m; simpl in *; [by apply (Hf a); eexists|apply Hm; exists x; congruence]. Qed.

Lemma ensure_panics b m : ¬ panics (ensure b (Bail m)).
Proof. intros [x H]. by destruct b. Qed.
Lemma Ok_panics {A} (a : A) : ¬ panics (Ok a).
Proof. by intros [x H]. Qed.
Lemma Bail_panics {A} m : ¬ panics (A:=A) (Err (Bail m)).
Proof. by intros [x H]. Qed.
Lemma ok_or_panics {A} (o : option A) e :
  (is_Some o ∨ ∃ m, e = Bail m) → ¬ panics (ok_or o e).
Proof. intros [[a ->]|[m ->]] [x H]; [done|by destruct o]. Qed.

Create HintDb no_panic discriminated.
#[local] Hint Resolve next_no_panic ensure_panics Ok_panics Bail_panics : no_panic.
#[local] Hint Extern 2 (¬ panics (_ ≫= _)) => apply bind_panics; [|intros] : no_panic.
#[local] Hint Extern 2 (¬ panics (match _ with _ => _ end)) => case_match : no_panic.
#[local] Hint Extern 2 (¬ panics (ok_or _ _)) => apply ok_or_panics; by eauto : no_panic.

Lemma retry_delay_no_panic r : r < 2 → ¬ panics (retry_delay r).
Proof.
  intros Hr. apply ok_or_panics. left. apply lookup_lt_is_Some. simpl. lia.
Qed.

Lemma checked_add_is_Some m a b : a + b ≤ m → is_Some (checked_add m a b).
Proof. unfold checked_add. case_decide; [by eexists|done]. Qed.

Lemma failure_phase_no_panic s n p kind now ra :
  retries n = retries s → ¬ panics (failure_phase s n p kind now ra).
Proof.
  intros Hr. unfold failure_phase, overflow_phase, retry_phase. case_decide; [auto with no_panic|].
  case_decide.
  - destruct (overflow_ceiling s) eqn:Hc; [|auto with no_panic].
    apply overflow_ceiling_inv in Hc as [Hlt _]. apply bind_panics; [|auto with no_panic].
    apply ok_or_panics. left. apply checked_add_is_Some. unfold U8_MAX. lia.
  - destruct (_ && _) eqn:Hb; [|auto with no_panic]. apply andb_true_iff in Hb as [Hlt Hk].
    apply bool_decide_eq_true in Hlt. apply bind_panics.
    + apply retry_delay_no_panic. destruct (decide (kind = Transient)) as [->|]; [|lia].
      simpl in Hk. by apply bool_decide_eq_true in Hk.
    + intros base _. destruct (decide (deadline_ms s ≤ _)); [auto with no_panic|]. apply bind_panics; [|auto with no_panic].
      destruct (decide (kind = Transient)) as [->|]; [|auto with no_panic]. simpl in Hk.
      apply bool_decide_eq_true in Hk. apply ok_or_panics. left.
      apply checked_add_is_Some. rewrite Hr. unfold U8_MAX. lia.
Qed.

Lemma record_failure_retries n kind now : retries (record_failure n kind now) = retries n.
Proof. unfold record_failure. by case_match. Qed.

Lemma attempt_failed_no_panic s kind now ra :
  ¬ panics (CompactionRunner.attempt_failed s kind now ra).
Proof.
  unfold CompactionRunner.attempt_failed. destruct (phase s); auto with no_panic.
  apply bind_panics; [apply next_no_panic|]. intros n ->%next_inv. apply bind_panics; [|auto with no_panic].
  apply failure_phase_no_panic. simpl. by rewrite record_failure_retries.
Qed.

(** no transition of the runner or its driver can panic, from any state at
    all, reachable or read back corrupted from the store: the delay tables are
    indexed in range, the eight-bit counters cannot wrap, the checkpoint
    unwrapped on resumption exists. Every refusal is an ordinary error. *)
Theorem runner_never_panics (id : string) (s : RunnerState) (e : event) :
  ¬ panics (handle id s e).
Proof.
  destruct e; simpl; auto with no_panic.
  - apply bind_panics; [|auto with no_panic]. unfold claim. case_match; auto with no_panic.
    repeat (apply bind_panics; [auto with no_panic|intros]). auto with no_panic.
  - apply bind_panics; [|auto with no_panic]. unfold attempt_failed.
    apply bind_panics; [|intros; apply attempt_failed_no_panic].
    case_match eqn:Hb; [|auto with no_panic]. apply bind_panics; [|auto with no_panic].
    apply retry_delay_no_panic. apply andb_true_iff in Hb as [_ Hb]. by apply bool_decide_eq_true in Hb.
  - apply bind_panics; [|auto with no_panic]. unfold candidate. case_match; auto with no_panic.
  - unfold candidate_checked. case_match; auto with no_panic.
  - unfold applied. auto with no_panic.
  - unfold terminate. apply bind_panics; [|auto with no_panic]. case_match; auto with no_panic.
  - unfold resume_invalid_completion. auto with no_panic.
  - unfold resume_deadline. apply bind_panics; [auto with no_panic|]. intros [] Hg%ensure_Ok.
    apply bind_panics; [apply next_no_panic|]. intros n ->%next_inv. apply bind_panics; [|auto with no_panic].
    simpl. case_match; [auto with no_panic|]. case_match; [|auto with no_panic].
    apply bind_panics; [|auto with no_panic]. apply ok_or_panics. left.
    unfold can_resume_deadline in Hg. by simplify_result.
Qed.

(** ** Bounded work per portion *)

(** The events after which the portion's budget starts again. *)
Definition renews (e : event) : bool :=
  match e with Accepted _ _ _ _ _ | ResumedInvalid _ | ResumedDeadline _ _ => true | _ => false end.
Definition is_claim (e : event) : bool := match e with Claimed _ _ _ _ => true | _ => false end.

(** Every persisted transition but a renewal raises [weight]. *)
Definition phase_rank (p : RunnerPhase) : N :=
  match p with
  | Candidate _ _ | Attempt _ _ _ => 0
  | Ready _ | Backoff _ _ | Commit _ => 1
  | Applied _ | Failed _ => 2
  end.
Definition weight (s : RunnerState) : N := 2 * portion_attempts s + phase_rank (phase s).

Record quiet (calls : N) (s s' : RunnerState) : Prop := {
  quiet_inv : runner_inv s';
  quiet_attempts : attempts s' = attempts s + calls;
  quiet_portion : portion_attempts s + calls ≤ portion_attempts s';
  quiet_generation : generation s ≤ generation s' ∧ generation s' + weight s ≤ generation s + weight s';
  quiet_cursor : cursor s' = cursor s ∧ previous_checkpoint s' = previous_checkpoint s;
  quiet_deadline : deadline_ms s' = deadline_ms s;
}.

Lemma failure_outcome_phase s p kind now ra s' :
  failure_outcome s p kind now ra s' → 0 < phase_rank (phase s').
Proof. destruct 1 as [? _ Hp| ? _ _ _ Hp|? ? _ _ _ _ _ Hp]; rewrite Hp; simpl; lia. Qed.

Lemma handle_quiet id s e s' :
  handle id s e = Ok s' → renews e = false → runner_inv s →
  quiet (if is_claim e then 1 else 0) s s'.
Proof.
  intros H Hq Hinv. pose proof (handle_inv _ _ _ _ H Hinv) as Hinv'.
  destruct e; simpl in *; try done; clear Hq.
  - apply bind_Ok in H as (c & H & [= <-]).
    apply claim_inv in H as (p & k & Hp & ? & -> & ? & ? & ->).
    assert (1 = phase_rank (phase s)) by (destruct Hp as [->|(? & -> & _)]; done).
    destruct (bool_decide (portion_attempts s = 0) && is_backoff (phase s)) eqn:Hb;
      constructor; unfold weight; simpl in *; try done; simplify_result; lia.
  - injection H as <-. pose proof (received_core s now_ms kind input output)
      as (Hg & Hd & Ha & _ & Hpo & _ & _ & _ & _ & Hcu & Hpr & Hph & _).
    constructor; unfold weight; rewrite ?Hg, ?Ha, ?Hpo, ?Hph; try done; try lia.
  - apply bind_Ok in H as (n & H & [= <-]). apply driver_attempt_failed_inv in H as (delay & H & _).
    pose proof (diagnosed_core d n) as (Hg & Hd & Ha & _ & Hpo & _ & _ & _ & _ & Hcu & Hpr & Hph & _).
    apply attempt_failed_inv in H
      as (k & p & dl & Hp & Hg' & Hdl & Ha' & _ & _ & Hcu' & Hpr' & Hpo' & _ & Hout).
    apply failure_outcome_phase in Hout.
    destruct (inv_attempt s Hinv _ _ _ Hp) as (_ & _ & Hlt & _).
    assert (charged s = portion_attempts s) as Hch by (unfold charged; case_decide; [lia|done]).
    constructor; unfold weight; rewrite ?Hg, ?Ha, ?Hpo, ?Hph, ?Hg', ?Ha', ?Hpo', ?Hch, ?Hp;
      simpl; try done; try lia; try (split; congruence); congruence.
  - unfold candidate_checked in H. destruct (phase s) eqn:Hp; try done. simplify_result.
    apply next_inv in Hr as ->.
    repeat case_goal; constructor; unfold weight; simpl; rewrite ?Hp; simpl; try done; try lia.
  - unfold applied in H. simplify_result. apply next_inv in Hr0 as ->.
    constructor; unfold weight; simpl; rewrite ?Hr; simpl; try done; try lia.
  - apply bind_Ok in H as (n & H & [= <-]). unfold terminate in H.
    pose proof (diagnosed_core d n) as (Hg & Hd & Ha & _ & Hpo & _ & _ & _ & _ & Hcu & Hpr & Hph & _).
    destruct (is_terminal (phase s)) eqn:Ht.
    { simplify_result. constructor; unfold weight; rewrite ?Hg, ?Ha, ?Hpo, ?Hph; try done; try lia. }
    simplify_result. apply next_inv in Hr as ->.
    assert (phase_rank (phase s) ≤ 1) by (destruct (phase s); simpl in *; try done; lia).
    case_decide; constructor; unfold weight; rewrite ?Hg, ?Ha, ?Hpo, ?Hph; simpl in *; try done; try lia.
Qed.

Lemma run_quiet id es : ∀ s s',
  run id s es = Ok s' → Forall (λ e, renews e = false) es → runner_inv s →
  quiet (N.of_nat (length (filter is_claim es))) s s'.
Proof.
  induction es as [|e es IH]; intros s s' H Hq Hinv; simpl in *.
  { injection H as <-. constructor; try done; lia. }
  apply bind_Ok in H as (t & He & H). inversion_clear Hq as [|?? Hr Hrs].
  pose proof (handle_quiet _ _ _ _ He Hr Hinv) as Ht. destruct (IH t s' H Hrs (quiet_inv _ _ _ Ht)).
  destruct Ht. rewrite filter_cons.
  destruct (is_claim e); simpl in *; constructor; rewrite ?length_cons in *; try done; try lia;
    destruct_and?; try split; congruence.
Qed.

(** between two accepted candidates a portion is bounded work. A run of a
    reachable state without an acceptance or an admitted resumption makes at
    most seven calls (three ordinary ones and one after each overflow
    rejection), persists at most sixteen transitions, and moves neither the
    source cursor, the last accepted checkpoint nor the deadline. *)
Theorem portion_work_is_bounded (id : string) (s s' : RunnerState) (es : list event)
    (Hs : reachable s) (Hrun : run id s es = Ok s')
    (Hquiet : Forall (λ e, renews e = false) es) :
  attempts s' = attempts s + N.of_nat (length (filter is_claim es)) ∧
  N.of_nat (length (filter is_claim es)) ≤ 7 ∧
  generation s ≤ generation s' ≤ generation s + 16 ∧
  cursor s' = cursor s ∧ previous_checkpoint s' = previous_checkpoint s ∧
  deadline_ms s' = deadline_ms s.
Proof.
  destruct (run_quiet id es s s' Hrun Hquiet (reachable_inv s Hs)) as [Hinv Ha Hp [Hg Hw] [Hc Hpr] Hd].
  pose proof (inv_portion _ Hinv). pose proof (inv_overflow _ Hinv).
  assert (phase_rank (phase s') ≤ 2) by (destruct (phase s'); simpl; lia).
  unfold weight in Hw. repeat split; try done; lia.
Qed.

(** ** Publication *)
Definition is_acceptance (e : event) : bool :=
  match e with Accepted _ _ _ _ _ => true | _ => false end.

(** [checkpoint] is the last accepted candidate and covers the final portion. *)
Definition accepted_last (es : list event) (checkpoint : string) : Prop :=
  ∃ before to projection now after,
    es = before ++ Accepted checkpoint to true projection now :: after ∧
    Forall (λ e, is_acceptance e = false) after.
Definition confirmed (es : list event) (checkpoint : string) : Prop :=
  ∃ before after, es = before ++ Checked true :: after ∧ accepted_last before checkpoint.
Definition published (es : list event) (checkpoint : string) : Prop :=
  ∃ before after, es = before ++ HeadApplied checkpoint :: after ∧ confirmed before checkpoint.

(** What each phase, current or saved for resumption, owes to the past. *)
Definition earned (es : list event) (p : RunnerPhase) : Prop :=
  match p with
  | Candidate checkpoint true => accepted_last es checkpoint
  | Commit checkpoint => confirmed es checkpoint
  | Applied checkpoint => published es checkpoint
  | _ => True
  end.

Lemma accepted_last_app es e cp :
  is_acceptance e = false → accepted_last es cp → accepted_last (es ++ [e]) cp.
Proof.
  intros He (b & to & pr & now & a & -> & Ha). exists b, to, pr, now, (a ++ [e]).
  split; [by rewrite <-app_assoc|]. apply Forall_app; auto.
Qed.
Lemma confirmed_app es e cp : confirmed es cp → confirmed (es ++ [e]) cp.
Proof. intros (b & a & -> & Ha). exists b, (a ++ [e]). by rewrite <-app_assoc. Qed.
Lemma published_app es e cp : published es cp → published (es ++ [e]) cp.
Proof. intros (b & a & -> & Ha). exists b, (a ++ [e]). by rewrite <-app_assoc. Qed.

Lemma earned_app es e p : is_acceptance e = false → earned es p → earned (es ++ [e]) p.
Proof.
  intros He. destruct p as [| | |cp []| | |]; simpl; auto using accepted_last_app, confirmed_app, published_app.
Qed.

Definition trace_inv (es : list event) (s : RunnerState) : Prop :=
  (∀ d, ResumedDeadline d true ∉ es) →
  runner_inv s ∧ earned es (phase s) ∧ ∀ p, resume_phase s = Some p → earned es p.

Lemma not_failed_no_resume s : runner_inv s → (∀ k, phase s ≠ Failed k) → resume_phase s = None.
Proof.
  intros Hi Hk. destruct (resume_phase s) eqn:Hr; [|done].
  destruct (inv_resume s Hi _ Hr) as [[k ?] _]. by destruct (Hk k).
Qed.

Lemma failure_outcome_earned s p kind now ra s' es q :
  failure_outcome s p kind now ra s' → resume_phase s = None →
  earned es (phase s') ∧ (resume_phase s' = Some q → earned es q).
Proof.
  destruct 1 as [k _ Hp Hr| ? _ _ _ Hp Hr|? ? _ _ _ _ _ Hp Hr]; rewrite Hp, Hr; intros ->; simpl; try done.
  split; [done|]. case_decide; [by intros [= <-]|done].
Qed.

Lemma handle_earned id es s e s' :
  trace_inv es s → handle id s e = Ok s' → trace_inv (es ++ [e]) s'.
Proof.
  intros Htr H Hleg. destruct Htr as (Hinv & Hph & Hre).
  { intros d Hd. apply (Hleg d), elem_of_app; by left. }
  split; [by eapply handle_inv|]. pose proof (not_failed_no_resume s Hinv) as Hnone.
  destruct e; simpl in H.
  - apply bind_Ok in H as (c & H & [= <-]). apply claim_inv in H as (p & k & Hp & _ & _ & _ & _ & ->).
    simpl. split; [done|]. rewrite Hnone; [done|]. intros q. destruct Hp as [->|(? & -> & _)]; done.
  - injection H as <-. pose proof (received_core s now_ms kind input output)
      as (_&_&_&_&_&_&_&_&_&_&_&->&->). split; [by apply earned_app|]. intros. by apply earned_app; auto.
  - apply bind_Ok in H as (n & H & [= <-]). apply driver_attempt_failed_inv in H as (delay & H & _).
    pose proof (diagnosed_core d n) as (_&_&_&_&_&_&_&_&_&_&_&->&->).
    apply attempt_failed_inv in H as (k & p & dl & Hp & _&_&_&_&_&_&_&_&_& Hout).
    assert (resume_phase s = None) as Hr by (apply Hnone; by rewrite Hp).
    split; [|intros q; by eapply (failure_outcome_earned _ _ _ _ _ _ _ q Hout)].
    by apply (failure_outcome_earned _ _ _ _ _ _ _ (phase s) Hout).
  - apply bind_Ok in H as (n & H & [= <-]). unfold candidate in H.
    destruct (phase s) eqn:Hp; try done. simplify_result. apply next_inv in Hr2 as ->. simpl.
    rewrite Hnone by done. split; [|done]. destruct final_portion; [|done].
    exists es, to, projection, now_ms, []. by split.
  - unfold candidate_checked in H. destruct (phase s) as [| | |cp f| | |] eqn:Hp; try done. simplify_result.
    apply next_inv in Hr as ->. destruct f; simpl; [|split; [done|by rewrite Hnone]].
    destruct target_fits; simpl.
    + rewrite Hnone by done. split; [|done]. by exists es, [].
    + by case_goal; simpl; rewrite Hnone.
  - unfold applied in H. simplify_result. apply next_inv in Hr0 as ->. simpl.
    rewrite Hnone by (by rewrite Hr). split; [|done]. rewrite Hr in Hph. by exists es, [].
  - apply bind_Ok in H as (n & H & [= <-]). unfold terminate in H.
    pose proof (diagnosed_core d n) as (_&_&_&_&_&_&_&_&_&_&_&->&->).
    destruct (is_terminal (phase s)) eqn:Ht.
    { simplify_result. split; [by apply earned_app|]. intros. by apply earned_app; auto. }
    simplify_result. apply next_inv in Hr as ->.
    case_decide; simpl; (split; [done|]); intros q.
    + intros [= <-]. apply earned_app; [done|]. by destruct (phase s).
    + rewrite Hnone; [done|]. intros k Hk. by rewrite Hk in Ht.
  - unfold resume_invalid_completion in H. simplify_result. apply next_inv in Hr0 as ->. simpl.
    split; [|done]. destruct (resume_phase s) as [q|]; [|done]. apply earned_app; simpl; auto.
  - unfold resume_deadline in H. simplify_result. apply next_inv in Hr0 as ->. simpl in *.
    split; [|done]. destruct (resume_phase s) as [q|]; simplify_result; [by apply earned_app; auto|].
    destruct legacy_final; [|by simplify_result]. destruct (Hleg deadline).
    apply elem_of_app; right. apply list_elem_of_here.
Qed.

(** C12: a checkpoint is published only after the whole protocol. If a run of a
    fresh operation (whose resumptions use the recorded phase) ends applied,
    then this very checkpoint was accepted as the candidate of the final
    portion, no other candidate was accepted before it was checked against the
    target and found to fit, and its head update happened after that, whatever
    failures, deadlines and resumptions came in between. *)
Theorem applied_only_after_checked_final_candidate (deadline goal : N) (m : ModelBudget)
    (prev : option string) (id : string) (s0 s : RunnerState) (es : list event) (cp : string)
    (Hnew : new_runner deadline m goal prev = Ok s0) (Hrun : run id s0 es = Ok s)
    (Hlegacy : ∀ d, ResumedDeadline d true ∉ es) (Happlied : phase s = Applied cp) :
  ∃ before to projection now mid between after,
    es = before ++ Accepted cp to true projection now :: mid ++ Checked true ::
           between ++ HeadApplied cp :: after ∧
    Forall (λ e, is_acceptance e = false) mid.
Proof.
  assert (trace_inv es s) as (_ & He & _); [|done|].
  { eapply (foldlM_trace_ind trace_inv); [|intros; by eapply handle_earned|exact Hrun].
    intros _. pose proof (new_runner_inv _ _ _ _ _ Hnew) as Hi. unfold new_runner in Hnew.
    simplify_result. done. }
  rewrite Happlied in He. destruct He as (b1 & after & -> & b2 & between & -> & Hacc).
  destruct Hacc as (before & to & pr & now & mid & -> & Hmid).
  exists before, to, pr, now, mid, between, after. split; [|done].
  by repeat (rewrite <-app_assoc; simpl).
Qed.

(** ** Overflow, progress and time *)

(** a confirmed input overflow either ends the operation or retries the same
    work under a strictly smaller positive ceiling, below the size of the
    rejected request, which is the persisted one of the current attempt, and
    below the previous ceiling; this happens at most four times per portion. *)
Theorem overflow_retry_shrinks (s s' : RunnerState) (now : N) (ra : option N)
    (H : CompactionRunner.attempt_failed s InputOverflow now ra = Ok s') :
  phase s' = Failed InputOverflow ∨ phase s' = Failed Deadline ∨
  ∃ number p d c o, phase s = Attempt number p d ∧ phase s' = Ready p ∧
    observation s = Some o ∧ obs_number o = attempts s ∧
    input_ceiling s' = Some c ∧ 0 < c < estimated_input_tokens o ∧
    (∀ old, input_ceiling s = Some old → c < old) ∧
    overflow_rejections s' = overflow_rejections s + 1 ∧ overflow_rejections s' ≤ 4 ∧
    cursor s' = cursor s ∧ target_tokens s' = target_tokens s.
Proof.
  apply attempt_failed_inv in H as (k & p & d & Hp & _ & _ & _ & _ & Ht & Hcu & _ & _ & _ & Hout).
  destruct Hout as [? [->| ->] Hk|c _ _ Hc Hk _ _ Hov Hce|? ? [[=]|[[=] _]]]; [by auto..|].
  right; right. apply overflow_ceiling_inv in Hc as (Hlt & o & Ho & Hn & Hb & Hold).
  unfold input_ceiling in *. eexists k, p, d, _, o. repeat (split; [by eauto|]).
  destruct (overflow_input_ceiling s) as [old|]; [pose proof (Hold old eq_refl)|];
    (split; [lia|]); (split; [intros ? [= <-]; lia|]); repeat split; done || lia.
Qed.

Definition cursor_le (a b : SourceCursor) : Prop := a = b ∨ cursor_lt a b.
#[export] Instance cursor_le_preorder : PreOrder cursor_le.
Proof.
  split; [by left|]. intros a b c [->|Hab] [->|Hbc]; [by left|by right|by right|right].
  unfold cursor_lt in *. lia.
Qed.

(** What no transition undoes; equal generations mean that nothing was persisted. *)
Record advances (s s' : RunnerState) : Prop := {
  adv_generation : generation s ≤ generation s' ≤ generation s + 1;
  adv_attempts : attempts s ≤ attempts s';
  adv_retries : retries s ≤ retries s';
  adv_cursor : cursor_le (cursor s) (cursor s');
  adv_applied : ∀ cp, phase s = Applied cp → phase s' = Applied cp ∧ cursor s' = cursor s;
}.

Lemma same_core_advances s t u : same_core u t → advances s t → advances s u.
Proof.
  destruct u, t; unfold same_core; simpl. intros (->&->&->&->&->&->&->&->&->&->&->&->&->) [].
  by constructor.
Qed.
Lemma advances_refl s : advances s s.
Proof. constructor; try lia; [by left|done]. Qed.

Lemma handle_advances id s e s' : handle id s e = Ok s' → advances s s'.
Proof.
  destruct e; simpl; intros H.
  - apply bind_Ok in H as (c & H & [= <-]). apply claim_inv in H as (p & k & Hp & _ & _ & _ & _ & ->).
    constructor; simpl; try lia; [by left|]. intros cp Hcp. destruct Hp as [?|(? & ? & _)]; congruence.
  - injection H as <-. eapply same_core_advances; [apply received_core|apply advances_refl].
  - apply bind_Ok in H as (n & H & [= <-]). apply driver_attempt_failed_inv in H as (delay & H & _).
    eapply same_core_advances; [apply diagnosed_core|].
    apply attempt_failed_inv in H as (k & p & dl & Hp & Hg & _ & Ha & _ & Ht & Hcu & _ & _ & _ & Hout).
    constructor; rewrite ?Hg, ?Ha, ?Hcu; try lia; [|by left|intros; congruence].
    destruct Hout as [? _ _ _ Hr|? _ _ _ _ _ Hr|? ? _ _ _ _ _ _ _ Hr]; rewrite Hr; [lia..|].
    destruct (decide _); lia.
  - apply bind_Ok in H as (n & H & [= <-]). unfold candidate in H.
    destruct (phase s) eqn:Hp; try done. simplify_result. apply next_inv in Hr2 as ->.
    constructor; simpl; try lia; [|by rewrite Hp].
    apply orb_true_iff in Hr0 as [?|?]; simplify_result; [|by right].
    rewrite bool_decide_true in Hr1 by done. simpl in Hr1. simplify_result. by left.
  - unfold candidate_checked in H. destruct (phase s) eqn:Hp; try done. simplify_result.
    apply next_inv in Hr as ->.
    repeat case_goal; constructor; simpl; rewrite ?Hp; try done; try lia; by left.
  - unfold applied in H. simplify_result. apply next_inv in Hr0 as ->.
    constructor; simpl; rewrite ?Hr; try done; try lia; by left.
  - apply bind_Ok in H as (n & H & [= <-]). eapply same_core_advances; [apply diagnosed_core|].
    unfold terminate in H. destruct (is_terminal (phase s)) eqn:Ht.
    { simplify_result. apply advances_refl. }
    simplify_result. apply next_inv in Hr as ->.
    case_decide; constructor; simpl; try lia; try (by left); intros cp Hcp; by rewrite Hcp in Ht.
  - unfold resume_invalid_completion, can_resume_invalid_completion, is_failed in H. simplify_result.
    apply next_inv in Hr0 as ->. constructor; simpl; try lia; [by left|congruence].
  - unfold resume_deadline, can_resume_deadline, is_failed in H. simplify_result.
    apply next_inv in Hr0 as ->. constructor; simpl; try lia; [by left|congruence].
Qed.

(** progress is never taken back. Along any run, failures and resumptions
    included, generations, calls and spent retries only grow and the source
    cursor never moves backwards; an applied operation stays applied with the
    same checkpoint; and accepting a candidate moves the cursor strictly
    forward, except for a correction, which rewrites the final summary of the
    same coverage. *)
Theorem runner_progress (id : string) (s s' : RunnerState) (es : list event)
    (Hrun : run id s es = Ok s') :
  generation s ≤ generation s' ∧ attempts s ≤ attempts s' ∧ retries s ≤ retries s' ∧
  cursor_le (cursor s) (cursor s') ∧
  (∀ cp, phase s = Applied cp → phase s' = Applied cp ∧ cursor s' = cursor s) ∧
  ∀ cp to final projection now t, handle id s' (Accepted cp to final projection now) = Ok t →
    (cursor t = to ∧ cursor_lt (cursor s') to) ∨
    (cursor t = cursor s' ∧ final = true ∧ ∃ d, phase s' = Attempt (attempts s') Correction d).
Proof.
  enough (generation s ≤ generation s' ∧ attempts s ≤ attempts s' ∧ retries s ≤ retries s' ∧
    cursor_le (cursor s) (cursor s') ∧
    (∀ cp, phase s = Applied cp → phase s' = Applied cp ∧ cursor s' = cursor s))
    as (? & ? & ? & ? & ?).
  { do 5 (split; [done|]). intros cp to final pr now t H'. simpl in H'.
    apply bind_Ok in H' as (n & H' & [= <-]). unfold candidate in H'.
    destruct (phase s') as [|k p d| | | | |] eqn:Hp; try done. simplify_result. simpl.
    destruct p; [left; rewrite bool_decide_false in Hr0 by done|
                 right; rewrite bool_decide_true in Hr1 by done]; simpl in *; simplify_result; eauto. }
  revert s Hrun. induction es as [|e es IH]; intros s Hrun; simpl in Hrun.
  { injection Hrun as <-. by repeat split. }
  apply bind_Ok in Hrun as (t & He & Hrun). apply handle_advances in He as [].
  destruct (IH t Hrun) as (? & ? & ? & Hc & Ha). repeat (split; [lia|]).
  split; [by transitivity (cursor t)|]. intros cp Hcp. destruct (adv_applied0 cp Hcp) as [Ht ?].
  destruct (Ha cp Ht). split; congruence.
Qed.

(** the runner keeps its deadlines. With a deadline that fits the clock's
    64 bits, an admitted call starts before the operation's deadline and its
    own deadline lies in the future, at most five minutes ahead and never after
    the operation's; a retry waits at least two seconds and the provider's
    Retry-After, is scheduled before the operation's deadline, and no call is
    admitted earlier, neither before that time nor after the deadline. *)
Theorem runner_time_windows (id : string) (s s' : RunnerState) (now : N)
    (Hclock : deadline_ms s ≤ U64_MAX) :
  (claim s now = Ok s' → ∃ p d, phase s' = Attempt (attempts s + 1) p d ∧
     now < deadline_ms s ∧ now < d ≤ deadline_ms s ∧ d ≤ now + 300000) ∧
  (∀ kind ra, attempt_failed id s kind now ra = Ok s' →
     (∃ k, phase s' = Failed k) ∨ (kind = InputOverflow ∧ ∃ p, phase s' = Ready p) ∨
     ∃ p t, phase s' = Backoff p t ∧ now + 2000 ≤ t ∧ now + default 0 ra ≤ t ∧ t < deadline_ms s' ∧
       ∀ early c, early < t ∨ deadline_ms s' ≤ early → claim s' early ≠ Ok c).
Proof.
  split.
  - intros (p & k & _ & Hnow & _ & _ & _ & ->)%claim_inv. eexists p, _. simpl.
    split; [done|]. split; [done|]. unfold CompactionBudget.Selection.ATTEMPT_MILLIS. word.
  - intros kind ra (delay & H & Hra)%driver_attempt_failed_inv.
    apply attempt_failed_inv in H as (k & p & d & Hp & _ & Hdl & _ & _ & _ & _ & _ & _ & _ & Hout).
    destruct Hout as [j _ Hk|c -> _ _ Hk|base nb _ _ Hb Hnb Hlt Hk]; [by eauto|by eauto|].
    right; right. exists p, nb. rewrite Hdl. split; [done|]. subst nb.
    split; [word|]. split; [word|]. split; [done|]. intros early c Hearly Hc.
    apply claim_inv in Hc as (q & kk & Hq & ? & _). rewrite Hdl in *.
    destruct Hq as [Hq|(t & Hq & Ht)]; rewrite Hk in Hq; [done|]. injection Hq as <- <-. lia.
Qed.

(** ** Concrete runs *)
Definition sample_model : ModelBudget := new_budget (Some 32000) None None.
Definition first_portion : event := Accepted "a" (mk_cursor 1 0 0) false 4 1.
Definition claim_at (now : N) : event := Claimed now now 100000 1000.
Definition sample_start : result failure RunnerState := new_runner 900000 sample_model 1000 None.
Definition sample_state (es : list event) : RunnerState :=
  match s ← sample_start; run "op" s es with
  | Ok s => s
  | Err _ => {| generation := 0; deadline_ms := 0; attempts := 0; retries := 0;
      portion_attempts := 0; corrections := 0; overflow_rejections := 0;
      overflow_input_ceiling := None; target_tokens := 0; source_text_projection_version := 0;
      cursor := default_cursor; previous_checkpoint := None; phase := Ready Portion;
      resume_phase := None; observation := None; diagnostic := None |}
  end.
Definition publishing : list event :=
  [claim_at 0; first_portion; Checked false; claim_at 2; AttemptFailed Transient 3 None None;
   claim_at 9000; Received 9001 Complete None None;
   Accepted "b" (mk_cursor 2 0 0) true 4 9001; Checked false; claim_at 9002;
   Accepted "c" (mk_cursor 2 0 0) true 4 9003; Terminated Deadline None;
   ResumedDeadline 1800000 false; Checked true; HeadApplied "c"].

Lemma sample_reachable es s :
  (s0 ← sample_start; run "op" s0 es) = Ok s → reachable s.
Proof.
  intros (s0 & Hn & Hr)%bind_Ok. exists 900000, sample_model, 1000, None, s0, "op", es. done.
Qed.

Lemma runner_reachable_bounds_witness :
  overflow_rejections (sample_state [claim_at 0; AttemptFailed InputOverflow 1 None None]) ≤ 4 ∧
  overflow_input_ceiling (sample_state [claim_at 0; AttemptFailed InputOverflow 1 None None])
    = Some 85000.
Proof.
  split; [|vm_compute; reflexivity].
  apply (runner_reachable_bounds _ (sample_reachable
    [claim_at 0; AttemptFailed InputOverflow 1 None None] _ ltac:(vm_compute; reflexivity))).
Defined.

Definition overflow_story : list event :=
  [claim_at 10; AttemptFailed InputOverflow 11 None None;
   Claimed 12 12 85000 1000; AttemptFailed InvalidCompletion 13 None None].
Lemma portion_work_is_bounded_witness :
  attempts (sample_state (claim_at 0 :: first_portion :: Checked false :: overflow_story)) =
    attempts (sample_state [claim_at 0; first_portion; Checked false]) + 2.
Proof.
  apply (portion_work_is_bounded "op" _ _ overflow_story
    (sample_reachable [claim_at 0; first_portion; Checked false] _ ltac:(vm_compute; reflexivity))
    ltac:(vm_compute; reflexivity) ltac:(repeat constructor)).
Defined.

Lemma applied_witness :
  ∃ before to projection now mid between after,
    publishing = before ++ Accepted "c" to true projection now :: mid ++ Checked true ::
           between ++ HeadApplied "c" :: after ∧
    Forall (λ e, is_acceptance e = false) mid.
Proof.
  eapply (applied_only_after_checked_final_candidate 900000 1000 sample_model None "op" _
    (sample_state publishing) publishing "c").
  - vm_compute. reflexivity.
  - vm_compute. reflexivity.
  - intros d Hd. apply (bool_decide_unpack _) in Hd || (repeat (apply elem_of_cons in Hd as [Hd|Hd];
      [discriminate Hd|])); by apply elem_of_nil in Hd.
  - vm_compute. reflexivity.
Defined.

Lemma overflow_retry_shrinks_witness :
  input_ceiling (sample_state [claim_at 0; AttemptFailed InputOverflow 1 None None]) = Some 85000 ∧
  (phase (sample_state [claim_at 0; AttemptFailed InputOverflow 1 None None]) = Failed InputOverflow ∨
   phase (sample_state [claim_at 0; AttemptFailed InputOverflow 1 None None]) = Failed Deadline ∨
   ∃ number p d c o, phase (sample_state [claim_at 0]) = Attempt number p d ∧
     phase (sample_state [claim_at 0; AttemptFailed InputOverflow 1 None None]) = Ready p ∧
     observation (sample_state [claim_at 0]) = Some o ∧ obs_number o = attempts (sample_state [claim_at 0]) ∧
     input_ceiling (sample_state [claim_at 0; AttemptFailed InputOverflow 1 None None]) = Some c ∧
     0 < c < estimated_input_tokens o).
Proof.
  split; [vm_compute; reflexivity|].
  destruct (overflow_retry_shrinks (sample_state [claim_at 0])
    (sample_state [claim_at 0; AttemptFailed InputOverflow 1 None None]) 1 None
    ltac:(vm_compute; reflexivity)) as [?|[?|(n & p & d & c & o & ? & ? & ? & ? & ? & ? & _)]];
    [by auto|by auto|]. right; right. by exists n, p, d, c, o.
Defined.

Lemma runner_progress_witness :
  cursor_le (cursor (sample_state [])) (cursor (sample_state publishing)).
Proof.
  apply (runner_progress "op" (sample_state []) (sample_state publishing) publishing).
  vm_compute. reflexivity.
Defined.

Definition claimed : RunnerState :=
  match claim (sample_state []) 0 with Ok s => s | Err _ => sample_state [] end.
Lemma runner_time_windows_witness :
  ∃ p d, phase claimed = Attempt 1 p d ∧ 0 < d ≤ 900000.
Proof.
  destruct (runner_time_windows "op" (sample_state []) claimed 0
    ltac:(vm_compute; discriminate)) as [H _].
  destruct (H ltac:(vm_compute; reflexivity)) as (p & d & Hp & _ & Hd & _).
  exists p, d. split; [exact Hp|exact Hd].
Defined.
