(* ===== verification/PatchDocument.v ===== *)
(** * Patch documents

    The data types of [crates/tools/src/apply_patch/parser.rs] that the parser
    produces and the planner and the matcher consume, and the limits of
    [file_mutation/mod.rs]. File contents and lines are texts (lists of scalar
    values), as the code trims, splits and compares them. *)
From S2P Require Import Prelude.
Local Open Scope N_scope.

Definition PARSER_SCHEMA_VERSION : N := 1.

Inductive OperationKind := OpAdd | OpReplace | OpUpdate | OpDelete.
#[export] Instance OperationKind_eq_dec : EqDecision OperationKind.
Proof. solve_decision. Defined.

(** [[Vec<String>]::join("\n")]. *)
Fixpoint join_lines (lines : list text) : text :=
  match lines with
  | [] => []
  | [l] => l
  | l :: rest => l ++ 10 :: join_lines rest
  end.

Inductive HunkLine :=
  | HContext (line : text)
  | HRemove (line : text)
  | HAdd (line : text).
#[export] Instance HunkLine_eq_dec : EqDecision HunkLine.
Proof. solve_decision. Defined.

Record Hunk := {
  hunk_context : option text;
  hunk_lines : list HunkLine;
  end_of_file : bool;
  hunk_header_line : N;
}.
#[export] Instance Hunk_eq_dec : EqDecision Hunk.
Proof. solve_decision. Defined.

Definition old_lines (h : Hunk) : list text :=
  omap (λ l, match l with HContext v | HRemove v => Some v | HAdd _ => None end) (hunk_lines h).
Definition new_lines (h : Hunk) : list text :=
  omap (λ l, match l with HContext v | HAdd v => Some v | HRemove _ => None end) (hunk_lines h).

Record UpdateFile := { hunks : list Hunk }.
#[export] Instance UpdateFile_eq_dec : EqDecision UpdateFile.
Proof. solve_decision. Defined.

Record AddFile := { add_lines : list text }.
#[export] Instance AddFile_eq_dec : EqDecision AddFile.
Proof. solve_decision. Defined.
Definition add_content (f : AddFile) : text := join_lines (add_lines f).
Record ReplaceFile := { replace_lines : list text }.
#[export] Instance ReplaceFile_eq_dec : EqDecision ReplaceFile.
Proof. solve_decision. Defined.
Definition replace_content (f : ReplaceFile) : text := join_lines (replace_lines f).

Inductive OperationBody :=
  | BAdd (f : AddFile)
  | BReplace (f : ReplaceFile)
  | BUpdate (f : UpdateFile)
  | BDelete.
#[export] Instance OperationBody_eq_dec : EqDecision OperationBody.
Proof. solve_decision. Defined.

Inductive GuardSyntax :=
  | IfMatch (token : text)
  | IfDestinationAbsent
  | IfDestinationVersion (token : text).
#[export] Instance GuardSyntax_eq_dec : EqDecision GuardSyntax.
Proof. solve_decision. Defined.

Record Operation := {
  op_kind : OperationKind;
  op_path : text;
  source_guard : option GuardSyntax;
  destination_guard : option GuardSyntax;
  source_guard_line : option N;
  destination_guard_line : option N;
  move_to : option text;
  op_body : OperationBody;
  op_header_line : N;
}.
#[export] Instance Operation_eq_dec : EqDecision Operation.
Proof. solve_decision. Defined.

(** [PatchDocument]; the payload hash is SHA-256, third-party code, and is kept
    as an opaque byte string. *)
Record PatchDocument := {
  schema_version : N;
  input_bytes : N;
  operations : list Operation;
  payload_hash : list N;
}.

(** [PatchLimits] and its defaults. *)
Record PatchLimits := {
  limits_schema_version : N;
  max_patch_bytes : N;
  max_file_bytes : N;
  max_total_output_bytes : N;
  max_total_snapshot_bytes : N;
  max_operations : N;
  max_chunks_per_update : N;
  max_total_hunks : N;
  max_target_files : N;
  max_path_bytes : N;
  max_parent_targets : N;
  max_candidate_matches : N;
}.
#[export] Instance PatchLimits_fields : Fields PatchLimits := λ l,
  {| limits_schema_version := limits_schema_version l; max_patch_bytes := max_patch_bytes l;
     max_file_bytes := max_file_bytes l; max_total_output_bytes := max_total_output_bytes l;
     max_total_snapshot_bytes := max_total_snapshot_bytes l; max_operations := max_operations l;
     max_chunks_per_update := max_chunks_per_update l; max_total_hunks := max_total_hunks l;
     max_target_files := max_target_files l; max_path_bytes := max_path_bytes l;
     max_parent_targets := max_parent_targets l;
     max_candidate_matches := max_candidate_matches l |}.
Definition default_limits : PatchLimits :=
  {| limits_schema_version := 1; max_patch_bytes := 4 * 1024 * 1024;
     max_file_bytes := 16 * 1024 * 1024; max_total_output_bytes := 64 * 1024 * 1024;
     max_total_snapshot_bytes := 128 * 1024 * 1024; max_operations := 256;
     max_chunks_per_update := 128; max_total_hunks := 1024; max_target_files := 768;
     max_path_bytes := 4096; max_parent_targets := 1024; max_candidate_matches := 128 |}.

(** The length of a joined content: its lines and one separator between them. *)
Lemma byte_len_join_lines lines :
  byte_len (join_lines lines) = sum_N (byte_len <$> lines) + N.of_nat (pred (length lines)).
Proof.
  induction lines as [|l [|l' rest] IH]; [done|csimpl; unfold sum_N; simpl; lia|].
  change (join_lines (l :: l' :: rest)) with (l ++ 10 :: join_lines (l' :: rest)).
  rewrite byte_len_app, fmap_cons, sum_N_cons.
  change (byte_len (10 :: ?x)) with (1 + byte_len x). rewrite IH. simpl length. lia.
Qed.
