(* ===== verification/PatchMatcher.v ===== *)
(** * Matching the hunks of an update

    Models [crates/tools/src/apply_patch/matcher.rs]: the split of a file into
    logical lines, the bounded Knuth-Morris-Pratt search for a hunk on three
    levels of whitespace normalization, and the application of the hunks. *)
From S2P Require Import Prelude PatchDocument.

Record MatchedReplacement := {
  rep_hunk_line : N;
  start_line : nat;
  removed_lines : nat;
  inserted_lines : nat;
}.
Record MatchResult := { content : text; replacements : list MatchedReplacement }.

Inductive MatchErrorCode :=
  ContextNotFound | AmbiguousContext | OverlappingHunks | InvalidUtf8 | InvalidHunk.
#[export] Instance MatchErrorCode_eq_dec : EqDecision MatchErrorCode.
Proof. solve_decision. Defined.

Record MatchError := {
  match_code : MatchErrorCode;
  match_hunk_line : N;
  candidates : list nat;
  message : string;
}.
Definition match_error (code : MatchErrorCode) (line : N) (message : string) : MatchError :=
  {| match_code := code; match_hunk_line := line; candidates := []; message := message |}.

Record LogicalLine := { value : text; ending : text }.

Definition LF : N := 10.
Definition CR : N := 13.
Definition BOM : N := 65279.

(** ** Splitting *)
(** The scan of [split_lines]; [start] is the text since the last line ending.
    Line endings are ASCII, so scanning bytes and scalar values is the same. *)
Fixpoint split_from (start s : text) : list LogicalLine :=
  match s with
  | [] => match start with [] => [] | _ => [{| value := start; ending := [] |}] end
  | c :: rest =>
      if decide (c = LF) then {| value := start; ending := [LF] |} :: split_from [] rest
      else if decide (c = CR) then
        match rest with
        | d :: rest' =>
            if decide (d = LF) then {| value := start; ending := [CR; LF] |} :: split_from [] rest'
            else {| value := start; ending := [CR] |} :: split_from [] rest
        | [] => [{| value := start; ending := [CR] |}]
        end
      else split_from (start ++ [c]) rest
  end.

Definition split_lines (source : text) : result MatchError (bool * list LogicalLine) :=
  let bom := starts_with [BOM] source in
  let source := default source (strip_prefix [BOM] source) in
  if decide (0%N ∈ source) then Err (match_error InvalidUtf8 0 "text contains binary NUL")
  else Ok (bom, split_from [] source).

Definition line_text (l : LogicalLine) : text := value l ++ ending l.
Definition lines_text (lines : list LogicalLine) : text := lines ≫= line_text.
Definition render (bom : bool) (lines : list LogicalLine) : text :=
  (if bom then [BOM] else []) ++ lines_text lines.

Definition preferred_ending (lines : list LogicalLine) : text :=
  match head (filter (λ l, ending l ≠ []) lines) with
  | Some l => ending l
  | None => [LF]
  end.

(** ** Comparison levels *)
Definition compare (actual expected : text) (mode : nat) : bool :=
  match mode with
  | 0 => bool_decide (actual = expected)
  | 1 => bool_decide (trim_end actual = trim_end expected)
  | 2 => bool_decide (trim actual = trim expected)
  | _ => false
  end.

(** ** The search *)
(** The failure table. [fuel] bounds the loop, [index] and [prefix_len] are its
    variables. *)
Fixpoint lps_loop (fuel : nat) (pattern : list text) (mode : nat) (lps : list nat)
    (prefix_len index : nat) : list nat :=
  match fuel with
  | 0 => lps
  | S fuel =>
      match pattern !! index, pattern !! prefix_len with
      | Some a, Some b =>
          if compare a b mode
          then lps_loop fuel pattern mode (<[index := S prefix_len]> lps) (S prefix_len) (S index)
          else if decide (0 < prefix_len)
          then lps_loop fuel pattern mode lps (lps !!! (prefix_len - 1)) index
          else lps_loop fuel pattern mode lps prefix_len (S index)
      | _, _ => lps
      end
  end.
Definition longest_prefix_suffix (pattern : list text) (mode : nat) : list nat :=
  lps_loop (2 * length pattern) pattern mode (replicate (length pattern) 0) 0 1.

(** [while matched > 0 && !compare(..) { matched = lps[matched - 1]; }]. *)
Fixpoint fall_back (fuel : nat) (pattern : list text) (mode : nat) (lps : list nat) (line : text)
    (matched : nat) : nat :=
  match fuel with
  | 0 => matched
  | S fuel =>
      if decide (0 < matched) then
        if compare line (pattern !!! matched) mode then matched
        else fall_back fuel pattern mode lps line (lps !!! (matched - 1))
      else matched
  end.

(** The scan of one level, from [offset]; it stops at the diagnostic limit. *)
Fixpoint scan (pattern : list text) (mode : nat) (lps : list nat) (last_offset limit : nat)
    (rest : list LogicalLine) (offset matched : nat) (found : list nat) : list nat :=
  match rest with
  | [] => found
  | l :: rest =>
      let matched := fall_back matched pattern mode lps (value l) matched in
      let matched := if compare (value l) (pattern !!! matched) mode then S matched else matched in
      if decide (matched = length pattern) then
        let candidate := offset + 1 - length pattern in
        let found' := if decide (candidate ≤ last_offset) then found ++ [candidate] else found in
        if decide (candidate ≤ last_offset ∧ limit ≤ length found') then found'
        else scan pattern mode lps last_offset limit rest (S offset) (lps !!! (matched - 1)) found'
      else scan pattern mode lps last_offset limit rest (S offset) matched found
  end.

Fixpoint first_level (pattern : list text) (last_offset limit first_offset : nat)
    (lines : list LogicalLine) (modes : list nat) : list nat :=
  match modes with
  | [] => []
  | mode :: modes =>
      match scan pattern mode (longest_prefix_suffix pattern mode) last_offset limit
              (drop first_offset lines) first_offset 0 [] with
      | [] => first_level pattern last_offset limit first_offset lines modes
      | found => found
      end
  end.

Definition find_candidates (lines : list LogicalLine) (pattern : list text) (start : nat)
    (eof : bool) (max_candidate_matches : N) : list nat :=
  match pattern with
  | [] => [length lines]
  | _ =>
      let last_offset := length lines - length pattern in
      let first_offset := if eof then last_offset else start in
      if decide (length lines < length pattern ∨ last_offset < first_offset) then []
      else first_level pattern last_offset (N.to_nat max_candidate_matches `max` 2)
             first_offset lines [0; 1; 2]
  end.

Definition match_candidates (hunk_line : N) (found : list nat) (message : string) : MatchError :=
  {| match_code := match found with [] => ContextNotFound | _ => AmbiguousContext end;
     match_hunk_line := hunk_line; candidates := take 128 found; message := message |}.

Definition find_hunk (lines : list LogicalLine) (h : Hunk) (old : list text) (cursor : nat)
    (max_candidate_matches : N) : result MatchError nat :=
  start ← match hunk_context h with
          | Some context =>
              match find_candidates lines [context] cursor false max_candidate_matches with
              | [only] => Ok (S only)
              | found => Err (match_candidates (hunk_header_line h) found
                                "context marker is missing or ambiguous")
              end
          | None => Ok cursor
          end;
  match old with
  | [] => Ok (match hunk_context h with Some _ => start `min` length lines | None => length lines end)
  | _ =>
      match find_candidates lines old start (end_of_file h) max_candidate_matches with
      | [only] => Ok only
      | [] => Err (match_candidates (hunk_header_line h) [] "expected lines not found")
      | found => Err (match_candidates (hunk_header_line h) found "expected lines are ambiguous")
      end
  end.

(** ** Application *)
Definition unterminated (lines : list LogicalLine) : bool :=
  match last lines with Some l => bool_decide (ending l = []) | None => false end.

(** [if let Some(last) = lines.last_mut() { last.ending = .. }]. *)
Definition set_last_ending (e : text) (lines : list LogicalLine) : list LogicalLine :=
  match last lines with
  | Some l => removelast lines ++ [{| value := value l; ending := e |}]
  | None => lines
  end.

Record progress := { cur_lines : list LogicalLine; cursor : nat; done_rev : list MatchedReplacement }.

(** The body of the loop over the hunks. *)
Definition apply_hunk (preferred : text) (max_candidate_matches : N) (st : progress) (h : Hunk)
    : result MatchError progress :=
  let lines := cur_lines st in
  let old := old_lines h in
  let new := new_lines h in
  start ← find_hunk lines h old (cursor st) max_candidate_matches;
  let stop := start + length old in
  ensure (bool_decide (stop ≤ length lines))
    (match_error ContextNotFound (hunk_header_line h) "hunk extends beyond the current text");;
  ensure (match head (done_rev st) with
          | Some previous => bool_decide (start_line previous + removed_lines previous ≤ start)
          | None => true
          end) (match_error OverlappingHunks (hunk_header_line h) "hunks overlap");;
  let preserve := bool_decide (stop = length lines) && unterminated lines &&
                  negb (bool_decide (new = [])) in
  let lines := if bool_decide (old = []) && bool_decide (start = length lines) &&
                  negb (bool_decide (lines = [])) && unterminated lines
               then set_last_ending preferred lines else lines in
  let inserted := (λ v, {| value := v; ending := preferred |}) <$> new in
  let inserted := if preserve then set_last_ending [] inserted else inserted in
  let inserted := if bool_decide (old = []) && bool_decide (lines = [])
                  then set_last_ending [] inserted else inserted in
  Ok {| cur_lines := take start lines ++ inserted ++ drop stop lines;
        cursor := start + length new;
        done_rev := {| rep_hunk_line := hunk_header_line h; start_line := start;
                       removed_lines := length old; inserted_lines := length new |} :: done_rev st |}.

Definition apply_update_with_candidate_limit (source : text) (update : UpdateFile)
    (max_candidate_matches : N) : result MatchError MatchResult :=
  '(bom, lines) ← split_lines source;
  st ← foldlM (apply_hunk (preferred_ending lines) max_candidate_matches)
         {| cur_lines := lines; cursor := 0; done_rev := [] |} (hunks update);
  Ok {| content := render bom (cur_lines st); replacements := reverse (done_rev st) |}.

Definition apply_update (source : text) (update : UpdateFile) : result MatchError MatchResult :=
  apply_update_with_candidate_limit source update 128.

(** ** The search finds exactly the matching offsets *)

(** The text on which a level compares. *)
Definition norm (mode : nat) (t : text) : text :=
  match mode with 0 => t | 1 => trim_end t | _ => trim t end.

Lemma compare_norm a b mode : mode ≤ 2 → compare a b mode = bool_decide (norm mode a = norm mode b).
Proof. destruct mode as [|[|[|]]]; [done..|lia]. Qed.

(** *** Borders *)
Section borders.
Context {K : Type}.
Implicit Types (p T : list K) (k m : nat).

(** The prefix of [p] of length [k] ends [T]. *)
Definition ends_with p T k : Prop := k ≤ length p ∧ take k p `suffix_of` T.

Lemma ends_with_0 p T : ends_with p T 0.
Proof. split; [lia|]. exists T. by rewrite take_0, app_nil_r. Qed.

Lemma ends_with_length p T k : ends_with p T k → k ≤ length T.
Proof. intros [Hk Hs]. apply suffix_length in Hs. rewrite length_take in Hs. lia. Qed.

Lemma suffix_shorter (l1 l2 T : list K) :
  l1 `suffix_of` T → l2 `suffix_of` T → length l1 ≤ length l2 → l1 `suffix_of` l2.
Proof.
  intros [a ->] [b Hb] Hlen. apply app_eq_inv in Hb as [(k & -> & ->)|(k & -> & ->)]; [by exists k|].
  rewrite length_app in Hlen. destruct k; [by exists []|simpl in Hlen; lia].
Qed.

Lemma ends_with_border p T k m :
  ends_with p T k → ends_with p T m → k ≤ m → ends_with p (take m p) k.
Proof.
  intros [Hk Hks] [Hm Hms] Hkm. split; [done|]. eapply suffix_shorter; [done..|].
  rewrite !length_take. lia.
Qed.
Lemma border_ends_with p T k m :
  ends_with p (take m p) k → ends_with p T m → ends_with p T k.
Proof. intros [Hk ?] [Hm ?]. split; [done|]. by etrans. Qed.

Lemma ends_with_snoc p T c k :
  ends_with p (T ++ [c]) (S k) ↔ ends_with p T k ∧ p !! k = Some c.
Proof.
  unfold ends_with. split.
  - intros [Hk [u Hu]]. destruct (lookup_lt_is_Some_2 p k) as [x Hx]; [lia|].
    rewrite (take_S_r p k x Hx), app_assoc in Hu. apply app_inj_tail in Hu as [-> ->].
    repeat split; [lia|by eexists|done].
  - intros [[Hk [u ->]] Hc]. pose proof (lookup_lt_Some _ _ _ Hc). split; [lia|].
    rewrite (take_S_r p k c Hc). exists u. by rewrite app_assoc.
Qed.
End borders.

(** *** The failure table and the automaton of one pattern and level *)
Section kmp.
Context (pattern : list text) (mode : nat) (Hmode : mode ≤ 2).
Let p : list text := norm mode <$> pattern.

Lemma length_p : length p = length pattern.
Proof. apply length_fmap. Qed.

Lemma compare_lookup line k x :
  p !! k = Some x → compare line (pattern !!! k) mode = bool_decide (p !! k = Some (norm mode line)).
Proof.
  unfold p. intros Hx. rewrite list_lookup_fmap in *. destruct (pattern !! k) as [y|] eqn:Hy; [|done].
  rewrite (list_lookup_total_correct _ _ _ Hy), compare_norm by done. simpl in *.
  apply bool_decide_ext. split; congruence.
Qed.

(** [lps !! (m - 1)] is the longest proper border of the prefix of length [m]. *)
Definition is_border (m k : nat) : Prop := k < m ∧ ends_with p (take m p) k.
Definition lps_ok (lps : list nat) (m : nat) : Prop :=
  is_border m (lps !!! (m - 1)) ∧ ∀ k, is_border m k → k ≤ lps !!! (m - 1).

(** Falling back visits the prefixes that end the text, longest first. *)
Lemma fall_back_spec lps T line fuel m :
  (∀ j, 0 < j ≤ m → lps_ok lps j) → m ≤ fuel → m < length p → ends_with p T m →
  (∀ k, ends_with p (T ++ [norm mode line]) (S k) → k ≤ m) →
  let m' := fall_back fuel pattern mode lps line m in
  m' ≤ m ∧ ends_with p T m' ∧
  (∀ k, ends_with p (T ++ [norm mode line]) (S k) → k ≤ m') ∧
  (p !! m' = Some (norm mode line) ∨ m' = 0).
Proof.
  revert m; induction fuel as [|fuel IH]; intros m Hlps Hfuel Hm HT Hmax; simpl.
  { replace m with 0 in * by lia. auto. }
  destruct (decide (0 < m)) as [Hpos|]; [|replace m with 0 in * by lia; by auto].
  destruct (lookup_lt_is_Some_2 p m Hm) as [x Hx]. rewrite (compare_lookup line m x Hx).
  case_bool_decide as Hc; [by auto|].
  destruct (Hlps m) as [[Hlt Hb] Hbest]; [lia|].
  destruct (IH (lps !!! (m - 1))) as (Hle & HT' & Hmax' & Hor); try lia.
  - intros j Hj. apply Hlps. lia.
  - by eapply border_ends_with.
  - intros k Hk. apply Hbest. pose proof Hk as [Hk1 Hk2]%ends_with_snoc.
    assert (k ≠ m) by (intros ->; congruence). pose proof (Hmax k Hk).
    split; [lia|]. by eapply ends_with_border.
  - split; [lia|]. done.
Qed.

(** One line of the scan keeps the longest matched prefix. *)
Lemma advance_spec lps T line m :
  (∀ j, 0 < j ≤ m → lps_ok lps j) → m < length p → ends_with p T m →
  (∀ k, k < length p → ends_with p T k → k ≤ m) →
  let m' := fall_back m pattern mode lps line m in
  let m'' := if compare line (pattern !!! m') mode then S m' else m' in
  m'' ≤ S m ∧ ends_with p (T ++ [norm mode line]) m'' ∧
  ∀ k, ends_with p (T ++ [norm mode line]) k → k ≤ m''.
Proof.
  intros Hlps Hm HT Hmax. destruct (fall_back_spec lps T line m m) as (Hle & HT' & Hmax' & Hor); try done.
  { intros k [Hk Hc]%ends_with_snoc. apply Hmax; [|done]. apply lookup_lt_Some in Hc. lia. }
  cbv zeta. set (m' := fall_back m pattern mode lps line m) in *.
  destruct (lookup_lt_is_Some_2 p m') as [x Hx]; [lia|].
  rewrite (compare_lookup line m' x Hx). case_bool_decide as Hc.
  - split; [lia|]. split; [by apply ends_with_snoc|]. intros [|k] Hk; [lia|]. apply Hmax' in Hk. lia.
  - destruct Hor as [?| ->]; [done|]. split; [lia|]. split; [apply ends_with_0|].
    intros [|k] Hk; [lia|]. pose proof (Hmax' k Hk). replace k with 0 in Hk by lia.
    apply ends_with_snoc in Hk as [_ ?]. done.
Qed.

Lemma border_snoc i c k :
  p !! i = Some c → is_border (S i) k ↔ k = 0 ∨ ∃ k', k = S k' ∧ is_border i k' ∧ p !! k' = Some c.
Proof.
  intros Hc. unfold is_border. rewrite (take_S_r p i c Hc). split.
  - intros [Hk Hb]. destruct k as [|k]; [by left|right]. apply ends_with_snoc in Hb as [? ?].
    exists k. split; [done|]. split; [split; [lia|done]|done].
  - intros [->|(k' & -> & [Hk Hb] & Hk')]; [split; [lia|apply ends_with_0]|].
    split; [lia|]. by apply ends_with_snoc.
Qed.

Lemma lps_loop_ok fuel : ∀ lps q i,
  2 * (length p - i) + q ≤ fuel → length lps = length p → 0 < i → is_border i q →
  (∀ j, 0 < j ≤ i → j ≤ length p → lps_ok lps j) → (∀ j, i ≤ j < length p → lps !! j = Some 0) →
  (∀ k, is_border i k → p !! k = p !! i → k ≤ q) →
  let lps' := lps_loop fuel pattern mode lps q i in
  length lps' = length p ∧ ∀ j, 0 < j ≤ length p → lps_ok lps' j.
Proof.
  induction fuel as [|fuel IH]; intros lps q i Hf Hlen Hi [Hq Hqb] Hok Hzero Hmax; simpl.
  { split; [done|]. intros j Hj. apply Hok; lia. }
  destruct (decide (i < length p)) as [Hin|Hout]; cycle 1.
  { rewrite (lookup_ge_None_2 pattern i) by (rewrite <-length_p; lia).
    split; [done|]. intros j Hj. apply Hok; lia. }
  destruct (lookup_lt_is_Some_2 p i Hin) as [c Hc].
  destruct (lookup_lt_is_Some_2 p q) as [x Hx]; [lia|].
  destruct (lookup_lt_is_Some_2 pattern i) as [a Ha]; [by rewrite <-length_p|].
  destruct (lookup_lt_is_Some_2 pattern q) as [b Hb]; [rewrite <-length_p; lia|].
  rewrite Ha, Hb, compare_norm by done.
  assert (c = norm mode a ∧ x = norm mode b) as [-> ->].
  { unfold p in Hc, Hx. rewrite list_lookup_fmap, Ha in Hc. rewrite list_lookup_fmap, Hb in Hx.
    by injection Hc; injection Hx. }
  case_bool_decide as Hab.
  - assert (is_border (S i) (S q) ∧ ∀ k, is_border (S i) k → k ≤ S q) as [Hbest Hmax'].
    { split; [apply (border_snoc i _ _ Hc); right; exists q; by rewrite Hx, Hab|].
      intros k [->|(k' & -> & Hk' & Hpk)]%(border_snoc i _ _ Hc); [lia|].
      apply le_n_S, Hmax; [done|congruence]. }
    apply IH; rewrite ?length_insert; try done; try lia.
    + intros j Hj Hjp. destruct (decide (j = S i)) as [->|].
      * unfold lps_ok. replace (S i - 1) with i by lia.
        by rewrite list_lookup_total_insert_eq by lia.
      * unfold lps_ok. rewrite list_lookup_total_insert_ne by lia. apply Hok; lia.
    + intros j Hj. rewrite list_lookup_insert_ne by lia. apply Hzero. lia.
    + intros k Hk _. by apply Hmax'.
  - destruct (decide (0 < q)) as [Hqp|].
    + destruct (Hok q) as [[Hlt Hbq] Hbest]; [lia..|].
      apply IH; try done; try lia.
      * split; [lia|]. by eapply border_ends_with.
      * intros k Hk Hpk. apply Hbest. pose proof (Hmax k Hk Hpk).
        assert (k ≠ q) by (intros ->; congruence). split; [lia|].
        eapply ends_with_border; [apply Hk|done|lia].
    + replace q with 0 in * by lia.
      assert (∀ k, is_border (S i) k → k ≤ 0) as Hmax'.
      { intros k [->|(k' & -> & Hk' & Hpk)]%(border_snoc i _ _ Hc); [lia|].
        assert (k' ≤ 0) by (apply Hmax; [done|congruence]). replace k' with 0 in * by lia. congruence. }
      apply IH; try done; try lia.
      * split; [lia|apply ends_with_0].
      * intros j Hj Hjp. destruct (decide (j = S i)) as [->|]; [|apply Hok; lia].
        unfold lps_ok. replace (S i - 1) with i by lia.
        rewrite (list_lookup_total_correct lps i 0) by (apply Hzero; lia).
        split; [|done]. split; [lia|apply ends_with_0].
      * intros j Hj. apply Hzero. lia.
      * intros k Hk _. by apply Hmax'.
Qed.

Lemma longest_prefix_suffix_ok :
  let lps := longest_prefix_suffix pattern mode in ∀ j, 0 < j ≤ length p → lps_ok lps j.
Proof.
  unfold longest_prefix_suffix. rewrite <-length_p.
  destruct (decide (length p = 0)) as [H0|H0]; [intros; lia|].
  apply lps_loop_ok; rewrite ?length_replicate; try lia.
  - split; [lia|apply ends_with_0].
  - intros j Hj Hjp. replace j with 1 by lia. unfold lps_ok. simpl.
    rewrite lookup_total_replicate_2 by lia. split; [split; [lia|apply ends_with_0]|].
    intros k [Hk _]. lia.
  - intros j Hj. rewrite lookup_replicate_2; [done|lia].
  - intros k [Hk _] _. lia.
Qed.

(** The offset at which an occurrence ending the scanned prefix begins. *)
Definition occurs_at (lines : list LogicalLine) (c : nat) : Prop :=
  ∀ j x, p !! j = Some x → norm mode ∘ value <$> lines !! (c + j) = Some x.

Lemma ends_with_occurs lines T n first :
  T = norm mode ∘ value <$> take n (drop first lines) → first + n ≤ length lines →
  ends_with p T (length p) ↔ length p ≤ n ∧ occurs_at lines (first + n - length p).
Proof.
  intros -> Hn. unfold ends_with, occurs_at. rewrite firstn_all. split.
  - intros [_ Hs]. pose proof (suffix_length _ _ Hs) as Hl.
    rewrite length_fmap, length_take, length_drop in Hl. split; [lia|].
    destruct Hs as [u Hu]. intros j x Hx. pose proof (lookup_lt_Some _ _ _ Hx).
    assert (length u + length p = n) as Hlu.
    { apply (f_equal length) in Hu. rewrite length_fmap, length_app, length_take, length_drop in Hu. lia. }
    apply (f_equal (.!! (length u + j))) in Hu. rewrite lookup_app_r in Hu by lia.
    replace (length u + j - length u) with j in Hu by lia. rewrite Hx in Hu.
    rewrite list_lookup_fmap, lookup_take_lt, lookup_drop in Hu by lia.
    rewrite <-Hu. do 2 f_equal. lia.
  - intros [Hle Ho]. split; [done|]. exists (take (n - length p) (norm mode ∘ value <$> take n (drop first lines))).
    apply list_eq. intros i. rewrite list_lookup_fmap.
    destruct (decide (i < n - length p)).
    + rewrite lookup_app_l by (rewrite length_take, length_fmap, length_take, length_drop; lia).
      by rewrite (lookup_take_lt _ (n - length p)), list_lookup_fmap by lia.
    + rewrite lookup_app_r by (rewrite length_take, length_fmap, length_take, length_drop; lia).
      rewrite length_take, length_fmap, length_take, length_drop.
      replace (i - _) with (i - (n - length p)) by lia.
      destruct (decide (i < n)).
      * rewrite lookup_take_lt, lookup_drop by lia.
        destruct (lookup_lt_is_Some_2 p (i - (n - length p))) as [x Hx]; [lia|].
        rewrite Hx, <-(Ho _ _ Hx). do 2 f_equal. lia.
      * rewrite lookup_take_ge by lia. simpl. symmetry. apply lookup_ge_None. lia.
Qed.

(** The slice of the file at an offset equals the pattern on this level. *)
Definition matches_at (lines : list LogicalLine) (c : nat) : Prop :=
  (norm mode ∘ value) <$> take (length p) (drop c lines) = p.
#[global] Instance matches_at_dec lines c : Decision (matches_at lines c).
Proof. unfold matches_at. apply _. Defined.

Lemma occurs_matches lines c : occurs_at lines c ↔ matches_at lines c.
Proof.
  unfold occurs_at, matches_at. split.
  - intros Ho. apply list_eq. intros i. rewrite list_lookup_fmap.
    destruct (decide (i < length p)) as [Hi|Hi].
    + destruct (lookup_lt_is_Some_2 p i Hi) as [x Hx].
      by rewrite lookup_take_lt, lookup_drop, (Ho _ _ Hx), Hx by done.
    + rewrite lookup_take_ge by lia. symmetry. apply lookup_ge_None. lia.
  - intros Hm j x Hx. rewrite <-Hm, list_lookup_fmap in Hx.
    destruct (decide (j < length p)) as [Hj|Hj].
    + by rewrite lookup_take_lt, lookup_drop in Hx by done.
    + by rewrite lookup_take_ge in Hx by lia.
Qed.

Section scan.
Context (lines : list LogicalLine) (first limit : nat).
Context (Hp : 0 < length p) (Hfit : length p ≤ length lines) (Hlimit : 0 < limit).

(** The occurrences that end within the first [n] scanned lines. *)
Definition hits (n : nat) : list nat :=
  filter (matches_at lines) (seq first (n + 1 - length p)).

Lemma hits_S n :
  hits (S n) = hits n ++
    (if decide (length p ≤ S n ∧ matches_at lines (first + S n - length p))
     then [first + S n - length p] else []).
Proof.
  unfold hits. destruct (decide (length p ≤ S n)) as [Hle|Hle].
  - replace (S n + 1 - length p) with (S (n + 1 - length p)) by lia.
    rewrite seq_S, filter_app. f_equal. replace (first + (n + 1 - length p)) with (first + S n - length p) by lia.
    rewrite filter_cons, filter_nil. apply decide_ext. tauto.
  - rewrite (decide_False (P:=_ ∧ _)) by tauto.
    replace (S n + 1 - length p) with 0 by lia. replace (n + 1 - length p) with 0 by lia. done.
Qed.

Lemma hits_prefix n m : n ≤ m → hits n `prefix_of` hits m.
Proof.
  intros Hnm. induction Hnm as [|m Hnm IH]; [done|]. rewrite hits_S. by apply prefix_app_r.
Qed.

Lemma scan_spec rest : ∀ n m,
  rest = drop (first + n) lines → first + n ≤ length lines → m < length p →
  ends_with p (norm mode ∘ value <$> take n (drop first lines)) m →
  (∀ k, k < length p → ends_with p (norm mode ∘ value <$> take n (drop first lines)) k → k ≤ m) →
  length (hits n) < limit →
  scan pattern mode (longest_prefix_suffix pattern mode) (length lines - length pattern) limit
    rest (first + n) m (hits n) = take limit (hits (length lines - first)).
Proof.
  rewrite <-length_p. pose proof longest_prefix_suffix_ok as Hok. cbv zeta in Hok.
  set (lps := longest_prefix_suffix pattern mode) in *. clearbody lps.
  induction rest as [|l rest IH]; intros n m Hrest Hn Hm HT Hmax Hlen; simpl.
  { assert (length lines = first + n) as Hend.
    { apply (f_equal length) in Hrest. rewrite length_drop in Hrest. simpl in Hrest. lia. }
    replace (length lines - first) with n by lia. by rewrite take_ge by lia. }
  assert (lines !! (first + n) = Some l) as Hl.
  { rewrite <-(Nat.add_0_r (first + n)), <-lookup_drop, <-Hrest. done. }
  pose proof (lookup_lt_Some _ _ _ Hl).
  assert (norm mode ∘ value <$> take (S n) (drop first lines) =
    (norm mode ∘ value <$> take n (drop first lines)) ++ [norm mode (value l)]) as HS.
  { rewrite (take_S_r _ n l) by (by rewrite lookup_drop). by rewrite fmap_app. }
  destruct (advance_spec lps _ (value l) m (λ j Hj, Hok j ltac:(lia)) Hm HT Hmax) as (Hle & HT' & Hmax').
  cbv zeta in *. set (m' := fall_back m pattern mode lps (value l) m) in *.
  set (m'' := if compare (value l) (pattern !!! m') mode then S m' else m') in *. clearbody m''.
  rewrite <-HS in HT', Hmax'.
  pose proof (ends_with_occurs lines _ (S n) first eq_refl ltac:(lia)) as Hocc.
  rewrite occurs_matches in Hocc. rewrite <-length_p.
  destruct (decide (m'' = length p)) as [->|Hne].
  - apply Hocc in HT' as HT''. destruct HT'' as [Hpn Hat].
    replace (first + n + 1 - length p) with (first + S n - length p) by lia.
    rewrite (decide_True (P:=first + S n - length p ≤ _)) by lia.
    assert (hits n ++ [first + S n - length p] = hits (S n)) as Hh.
    { rewrite hits_S, decide_True by done. done. }
    rewrite Hh. destruct (decide (_ ∧ _)) as [[_ Hlim]|Hlim].
    + assert (length (hits (S n)) = limit) as Heq.
      { rewrite <-Hh in *. rewrite length_app in *. simpl in *. lia. }
      destruct (hits_prefix (S n) (length lines - first)) as [u ->]; [lia|].
      by rewrite take_app_length'.
    + replace (S (first + n)) with (first + S n) by lia.
      destruct (Hok (length p)) as [[Hb1 Hb2] Hb3]; [lia|].
      apply IH; try lia.
      * rewrite (drop_S lines l (first + n) Hl) in Hrest. injection Hrest as ->. f_equal. lia.
      * by eapply border_ends_with.
      * intros k Hk HTk. apply Hb3. split; [done|]. eapply ends_with_border; [done|done|lia].
  - assert (¬ (length p ≤ S n ∧ matches_at lines (first + S n - length p))) as Hno.
    { intros Ho%Hocc. apply Hmax' in Ho. destruct HT' as [? _]. lia. }
    replace (hits n) with (hits (S n)) by (by rewrite hits_S, decide_False, app_nil_r by done).
    replace (S (first + n)) with (first + S n) by lia.
    assert (m'' < length p) by (destruct HT'; lia).
    apply IH; try done; try lia.
    + rewrite (drop_S lines l (first + n) Hl) in Hrest. injection Hrest as ->. f_equal. lia.
    + intros k _ Hk. by apply Hmax'.
    + rewrite hits_S, decide_False, app_nil_r by done. done.
Qed.

Lemma scan_hits :
  first ≤ length lines →
  scan pattern mode (longest_prefix_suffix pattern mode) (length lines - length pattern) limit
    (drop first lines) first 0 [] = take limit (hits (length lines - first)).
Proof.
  intros Hf. pose proof (scan_spec (drop first lines) 0 0) as Hs.
  rewrite Nat.add_0_r in Hs. replace (hits 0) with (@nil nat) in Hs
    by (unfold hits; by replace (0 + 1 - length p) with 0 by lia).
  apply Hs; try done; [apply ends_with_0|]. intros k _ Hk. by apply ends_with_length in Hk.
Qed.
End scan.
End kmp.

(** *** The reference: all occurrences on the first level that has one *)
Definition occurrences (lines : list LogicalLine) (pattern : list text) (first mode : nat) : list nat :=
  filter (matches_at pattern mode lines) (seq first (length lines + 1 - length pattern - first)).

Fixpoint first_nonempty {A B} (f : A → list B) (l : list A) : list B :=
  match l with
  | [] => []
  | a :: l => match f a with [] => first_nonempty f l | found => found end
  end.

Definition level (lines : list LogicalLine) (pattern : list text) (first : nat) : list nat :=
  first_nonempty (occurrences lines pattern first) [0; 1; 2].

#[local] Arguments find_candidates : simpl never.
#[local] Arguments level : simpl never.
#[local] Arguments match_candidates : simpl never.

(** Where the search for a pattern begins. *)
Definition search_from (lines : list LogicalLine) (pattern : list text) (start : nat) (eof : bool) : nat :=
  if eof then length lines - length pattern else start.

Lemma first_nonempty_nil {A B} (f : A → list B) l : (∀ a, a ∈ l → f a = []) → first_nonempty f l = [].
Proof.
  induction l as [|a l IH]; intros Hf; simpl; [done|].
  rewrite (Hf a (list_elem_of_here a l)). apply IH. intros x Hx. apply Hf. by right.
Qed.

Lemma first_level_reference lines pattern first limit modes :
  Forall (λ mode, mode ≤ 2) modes → 0 < length pattern ≤ length lines → 0 < limit →
  first ≤ length lines - length pattern →
  first_level pattern (length lines - length pattern) limit first lines modes =
  take limit (first_nonempty (occurrences lines pattern first) modes).
Proof.
  intros Hmodes Hp Hlim Hfirst. induction Hmodes as [|mode modes Hmode _ IH]; simpl; [by rewrite take_nil|].
  pose proof (length_fmap (norm mode) pattern) as Hlen.
  rewrite (scan_hits pattern mode Hmode lines first limit) by (rewrite ?Hlen; lia). rewrite IH.
  replace (hits pattern mode lines first (length lines - first)) with (occurrences lines pattern first mode).
  - destruct (occurrences _ _ _ _); [by rewrite take_nil|]. by destruct limit; [lia|].
  - unfold occurrences, hits. do 2 f_equal. rewrite Hlen. lia.
Qed.

(** C25: the bounded Knuth-Morris-Pratt search is the naive one. For every file,
    pattern, start, end-of-file flag and diagnostic bound it returns the offsets
    from the start at which the pattern occurs, on the first of the three
    comparison levels (exact, trailing whitespace, surrounding whitespace) that
    has any, in increasing order and cut off at the bound, which is never below
    two, so that a unique answer is a unique occurrence. *)
Theorem find_candidates_is_naive_search (lines : list LogicalLine) (pattern : list text)
    (start : nat) (eof : bool) (max : N) :
  find_candidates lines pattern start eof max =
    if decide (pattern = []) then [length lines]
    else take (N.to_nat max `max` 2) (level lines pattern (search_from lines pattern start eof)).
Proof.
  destruct pattern as [|t pattern]; [done|]. rewrite decide_False by done.
  unfold find_candidates, search_from. set (p := t :: pattern).
  assert (0 < length p) as Hp by (simpl; lia). clearbody p. cbv zeta.
  set (first := if eof then length lines - length p else start).
  destruct (decide (length lines < length p ∨ length lines - length p < first)) as [Hout|Hin].
  - unfold level. rewrite first_nonempty_nil; [by rewrite take_nil|]. intros mode _. unfold occurrences.
    by replace (length lines + 1 - length p - first) with 0 by lia.
  - apply first_level_reference; [repeat constructor|..]; lia.
Qed.

Lemma find_candidates_cases lines pattern start eof max :
  pattern ≠ [] →
  let l := level lines pattern (search_from lines pattern start eof) in
  match find_candidates lines pattern start eof max with
  | [] => l = []
  | [only] => l = [only]
  | found => 2 ≤ length l ∧ found `prefix_of` l
  end.
Proof.
  intros Hp l. rewrite find_candidates_is_naive_search, decide_False by done. fold l.
  remember (N.to_nat max `max` 2) as limit. destruct limit as [|[|limit]]; [lia..|].
  destruct l as [|a [|b l]]; simpl; [done|done|].
  split; [lia|]. exists (drop limit l). simpl. by rewrite take_drop.
Qed.

(** ** Hunks *)
Lemma match_candidates_none line msg l :
  l = [] →
  let e := match_candidates line [] msg in
  length l ≠ 1 ∧ candidates e `prefix_of` l ∧ (match_code e = ContextNotFound ↔ l = []).
Proof. intros ->. split; [simpl; lia|]. by split; [exists []|]. Qed.
Lemma match_candidates_many line msg x found l :
  2 ≤ length l ∧ x :: found `prefix_of` l →
  let e := match_candidates line (x :: found) msg in
  length l ≠ 1 ∧ candidates e `prefix_of` l ∧ (match_code e = ContextNotFound ↔ l = []).
Proof.
  intros [Hl Hp]. split; [lia|]. split; [|split; [done|intros ->; simpl in Hl; lia]].
  unfold match_candidates. cbn [candidates]. etrans; [|exact Hp].
  exists (drop 128 (x :: found)). by rewrite take_drop.
Qed.

(** a hunk is applied only where it can be meant. A context marker must
    occur exactly once from the cursor on, and the search starts on the line
    after it; lines to replace must then occur exactly once from there (at the
    end of the file when the hunk says so), counting only the first comparison
    level with an occurrence. Several occurrences are reported as ambiguous,
    with genuine occurrences as candidates, and none as missing. An insertion
    goes behind its context line or to the end of the file. *)
Theorem find_hunk_unique (lines : list LogicalLine) (h : Hunk) (cursor : nat) (max : N) :
  let old := old_lines h in
  let contexts := match hunk_context h with
                  | Some c => level lines [c] cursor
                  | None => [] end in
  let from := match hunk_context h, contexts with
              | Some _, only :: _ => S only
              | _, _ => cursor end in
  let found := level lines old (search_from lines old from (end_of_file h)) in
  match find_hunk lines h old cursor max with
  | Ok start =>
      (hunk_context h = None ∨ contexts = [pred from]) ∧
      (old = [] → start = match hunk_context h with
                            | Some _ => from `min` length lines | None => length lines end) ∧
      (old ≠ [] → found = [start])
  | Err e =>
      (hunk_context h ≠ None ∧ length contexts ≠ 1 ∧ candidates e `prefix_of` contexts ∧
        (match_code e = ContextNotFound ↔ contexts = [])) ∨
      (old ≠ [] ∧ length found ≠ 1 ∧ candidates e `prefix_of` found ∧
        (match_code e = ContextNotFound ↔ found = []))
  end.
Proof.
  cbv zeta. unfold find_hunk. destruct (hunk_context h) as [c|] eqn:Hc; cbn [mbind result_bind].
  - pose proof (find_candidates_cases lines [c] cursor false max ltac:(done)) as Hctx.
    cbv zeta in Hctx. simpl search_from in Hctx.
    destruct (find_candidates lines [c] cursor false max) as [|only [|b l]];
      cbn [mbind result_bind].
    + left. split; [done|]. by eapply match_candidates_none.
    + rewrite Hctx. cbn [pred]. destruct (old_lines h) as [|o old] eqn:Hold.
      { split; [by right|]. by split. }
      pose proof (find_candidates_cases lines (o :: old) (S only) (end_of_file h) max ltac:(done)) as Hf.
      cbv zeta in Hf. destruct (find_candidates _ _ _ _ _) as [|s [|b l]].
      * right. split; [done|]. by eapply match_candidates_none.
      * split; [by right|]. by split.
      * right. split; [done|]. by eapply match_candidates_many.
    + left. split; [done|]. by eapply match_candidates_many.
  - destruct (old_lines h) as [|o old] eqn:Hold.
    { split; [by left|]. by split. }
    pose proof (find_candidates_cases lines (o :: old) cursor (end_of_file h) max ltac:(done)) as Hf.
    cbv zeta in Hf. destruct (find_candidates _ _ _ _ _) as [|s [|b l]].
    + right. split; [done|]. by eapply match_candidates_none.
    + split; [by left|]. by split.
    + right. split; [done|]. by eapply match_candidates_many.
Qed.

(** ** Round trip of the split *)
Definition plain (t : text) : Prop := (LF ∉ t) ∧ (CR ∉ t).
Definition terminator (e : text) : Prop := e = [LF] ∨ e = [CR; LF] ∨ e = [CR].

(** Lines as [split_lines] produces them: only the last may be unterminated,
    and then it is not empty. *)
Fixpoint well_split (lines : list LogicalLine) : Prop :=
  match lines with
  | [] => True
  | [l] => plain (value l) ∧ (terminator (ending l) ∨ (ending l = [] ∧ value l ≠ []))
  | l :: rest => plain (value l) ∧ terminator (ending l) ∧ well_split rest
  end.

Lemma well_split_cons l rest :
  plain (value l) → terminator (ending l) → well_split rest → well_split (l :: rest).
Proof. destruct rest; simpl; auto. Qed.

Lemma plain_snoc t c : plain t → c ≠ LF → c ≠ CR → plain (t ++ [c]).
Proof. intros [? ?] ? ?. split; rewrite elem_of_app, list_elem_of_singleton; naive_solver. Qed.

Lemma split_from_spec n : ∀ s start,
  length s ≤ n → plain start →
  lines_text (split_from start s) = start ++ s ∧ well_split (split_from start s).
Proof.
  assert (plain []) as Hnil by (split; apply not_elem_of_nil).
  induction n as [|n IH]; intros s start Hlen Hstart; destruct s as [|c rest]; simpl in Hlen; try lia; simpl.
  1, 2: destruct start as [|a start]; [done|]; unfold lines_text, line_text; simpl; rewrite !app_nil_r;
      split; [done|]; split; [done|]; by right.
  unfold lines_text in *. case_decide as Hc; [subst c|case_decide as Hr; [subst c|]].
  - destruct (IH rest [] ltac:(lia) Hnil) as [Ht Hw]. rewrite bind_cons, Ht. split.
    + unfold line_text. simpl. by rewrite <-app_assoc.
    + apply well_split_cons; [done|by left|done].
  - destruct rest as [|d rest]; [split; [unfold line_text; simpl; by rewrite app_nil_r|]|].
    { split; [done|]. left. by right; right. }
    simpl in Hlen. case_decide as Hd; [subst d|].
    + destruct (IH rest [] ltac:(lia) Hnil) as [Ht Hw].
      rewrite bind_cons, Ht. split; [unfold line_text; simpl; by rewrite <-app_assoc|].
      apply well_split_cons; [done|by right; left|done].
    + destruct (IH (d :: rest) [] ltac:(simpl; lia) Hnil) as [Ht Hw].
      rewrite bind_cons, Ht. split; [unfold line_text; simpl; by rewrite <-app_assoc|].
      apply well_split_cons; [done|by right; right|done].
  - destruct (IH rest (start ++ [c]) ltac:(lia)) as [Ht Hw]; [by apply plain_snoc|].
    rewrite Ht. by rewrite <-app_assoc.
Qed.

(** splitting a file loses nothing. The lines of every accepted source
    render to the source, byte order mark and line endings of every style
    included; values hold no line ending, only the last line can be
    unterminated, and the only refusal is of a NUL character. *)
Theorem split_lines_roundtrip (source : text) :
  match split_lines source with
  | Ok (bom, lines) => render bom lines = source ∧ well_split lines
  | Err e => match_code e = InvalidUtf8 ∧ 0%N ∈ source
  end.
Proof.
  unfold split_lines, starts_with. set (body := default source (strip_prefix [BOM] source)).
  assert (source = (if bool_decide (is_Some (strip_prefix [BOM] source)) then [BOM] else []) ++ body)
    as Hbody.
  { unfold body. destruct (strip_prefix [BOM] source) as [r|] eqn:Hs.
    - apply strip_prefix_Some in Hs. by rewrite bool_decide_true by done.
    - rewrite bool_decide_false; [done|]. by intros [? ?]. }
  case_decide as Hnul; simpl.
  - split; [done|]. rewrite Hbody. apply elem_of_app. by right.
  - destruct (split_from_spec (length body) body [] (Nat.le_refl _)) as [Ht Hw].
    { split; apply not_elem_of_nil. }
    split; [|done]. unfold render. rewrite Ht. symmetry. exact Hbody.
Qed.

(** ** What an update does to a file *)
Section patched.
Context (preferred : text).

(** A line the update keeps; an unterminated one may gain its separator. *)
Definition kept (l l' : LogicalLine) : Prop :=
  value l' = value l ∧ (ending l' = ending l ∨ (ending l = [] ∧ ending l' = preferred)).
(** A line the update writes: its ending is the file's, or none at its end. *)
Definition written (v : text) (l : LogicalLine) : Prop :=
  value l = v ∧ (ending l = preferred ∨ ending l = []).
(** The replaced lines are the hunk's on one of the comparison levels. *)
Definition replaced (old : list text) (mid : list LogicalLine) : Prop :=
  ∃ mode, mode ≤ 2 ∧ norm mode ∘ value <$> mid = norm mode <$> old.

(** The specification of an update: hunks apply in order to consecutive
    pieces of the source, and what lies between them is kept. *)
Inductive patched : list Hunk → list LogicalLine → list LogicalLine → Prop :=
  | patched_end rest rest' : Forall2 kept rest rest' → patched [] rest rest'
  | patched_hunk h hs skip skip' mid ins rest out :
      Forall2 kept skip skip' → replaced (old_lines h) mid →
      Forall2 written (new_lines h) ins → patched hs rest out →
      patched (h :: hs) (skip ++ mid ++ rest) (skip' ++ ins ++ out).

Lemma kept_refl l : kept l l.
Proof. split; auto. Qed.
Lemma Forall2_kept_refl ls : Forall2 kept ls ls.
Proof. induction ls; constructor; auto using kept_refl. Qed.
Lemma Forall2_kept_trans a b c : Forall2 kept a b → Forall2 kept b c → Forall2 kept a c.
Proof.
  intros Hab. revert c. induction Hab as [|x y a b [Hv He] _ IH]; intros c Hbc;
    inversion_clear Hbc as [|?? ? ? [Hv' He']]; constructor; auto. split; [congruence|].
  destruct He as [?|[? ?]], He' as [?|[? ?]]; (left; congruence) || right; split; congruence.
Qed.
Lemma written_kept vs a b : Forall2 written vs a → Forall2 kept a b → Forall2 written vs b.
Proof.
  intros Hab. revert b. induction Hab as [|v y a b [Hv He] _ IH]; intros c Hbc;
    inversion_clear Hbc as [|?? ? ? [Hv' He']]; constructor; auto. split; [congruence|].
  destruct He as [?|?], He' as [?|[? ?]]; (left; congruence) || right; congruence.
Qed.
Lemma patched_kept hs src out out' : patched hs src out → Forall2 kept out out' → patched hs src out'.
Proof.
  intros Hp. revert out'. induction Hp as [rest rest' Hk|h hs skip skip' mid ins rest out Hs Hm Hi Hp IH];
    intros out' Ho; [constructor; by eapply Forall2_kept_trans|].
  apply Forall2_app_inv_l in Ho as (skip2 & o2 & Hs2 & Ho & ->).
  apply Forall2_app_inv_l in Ho as (ins2 & out2 & Hi2 & Ho & ->).
  constructor; eauto using Forall2_kept_trans, written_kept.
Qed.

Lemma set_last_ending_kept ls :
  unterminated ls = true → Forall2 kept ls (set_last_ending preferred ls).
Proof.
  unfold unterminated, set_last_ending. destruct (last ls) as [l|] eqn:Hl; [|done].
  intros He%bool_decide_eq_true. apply last_Some in Hl as [ls' ->].
  rewrite removelast_last. apply Forall2_app; [apply Forall2_kept_refl|].
  constructor; [|constructor]. split; [done|by right].
Qed.
Lemma set_last_ending_written vs ls :
  Forall2 written vs ls → Forall2 written vs (set_last_ending [] ls).
Proof.
  unfold set_last_ending. destruct (last ls) as [l|] eqn:Hl; [|done].
  apply last_Some in Hl as [ls' ->]. rewrite removelast_last.
  intros (vs1 & vs2 & H1 & H2 & ->)%Forall2_app_inv_r. apply Forall2_app; [done|].
  inversion_clear H2 as [|v ? ? ? [Hv _] H3]. inversion_clear H3. constructor; [|constructor].
  split; [done|by right].
Qed.
Lemma written_inserted vs : Forall2 written vs ((λ v, {| value := v; ending := preferred |}) <$> vs).
Proof. induction vs; csimpl; constructor; [split; auto|done]. Qed.

Lemma level_replaced lines old first c rest :
  level lines old first = c :: rest → old ≠ [] →
  first ≤ c ∧ replaced old (take (length old) (drop c lines)).
Proof.
  intros Hl Hold. assert (∃ mode, mode ≤ 2 ∧ c ∈ occurrences lines old first mode) as (mode & Hm & Hc).
  { unfold level in Hl. simpl in Hl.
    destruct (occurrences lines old first 0) eqn:H0; [|exists 0; split; [lia|rewrite H0; simplify_eq; left]].
    destruct (occurrences lines old first 1) eqn:H1; [|exists 1; split; [lia|rewrite H1; simplify_eq; left]].
    destruct (occurrences lines old first 2) eqn:H2; [done|].
    exists 2; split; [lia|rewrite H2; simplify_eq; left]. }
  apply list_elem_of_filter in Hc as [Hc Hseq%elem_of_seq]. split; [lia|].
  exists mode. split; [done|]. unfold matches_at in Hc. by rewrite length_fmap in Hc.
Qed.

Lemma find_hunk_after lines h cursor max start :
  find_hunk lines h (old_lines h) cursor max = Ok start → end_of_file h = false →
  cursor ≤ length lines →
  cursor ≤ start ∧ replaced (old_lines h) (take (length (old_lines h)) (drop start lines)).
Proof.
  intros Hf Heof Hcur. unfold find_hunk in Hf. apply bind_Ok in Hf as (from & Hfrom & Hf).
  assert (cursor ≤ from) as Hle.
  { destruct (hunk_context h) as [c|]; [|by simplify_result].
    pose proof (find_candidates_cases lines [c] cursor false max ltac:(done)) as Hc. cbv zeta in Hc.
    destruct (find_candidates _ _ _ _ _) as [|k [|]]; simplify_result.
    apply (level_replaced _ _ _ k []) in Hc as [? _]; [|done]. simpl in *. lia. }
  destruct (old_lines h) as [|o old] eqn:Hold.
  - assert (cursor ≤ start) by (destruct (hunk_context h); simplify_result; lia).
    split; [done|]. exists 0. split; [lia|]. done.
  - pose proof (find_candidates_cases lines (o :: old) from (end_of_file h) max ltac:(done)) as Hc.
    cbv zeta in Hc. rewrite Heof in *. simpl search_from in Hc.
    destruct (find_candidates _ _ _ _ _) as [|k [|]]; simplify_result.
    apply level_replaced in Hc as [? ?]; [|done]. split; [lia|done].
Qed.

(** One hunk replaces a later piece of what the previous ones left. *)
Lemma apply_hunk_patches max st st' h before rest :
  apply_hunk preferred max st h = Ok st' → end_of_file h = false →
  cur_lines st = before ++ rest → cursor st = length before →
  ∃ skip mid rest' before' skip' ins, rest = skip ++ mid ++ rest' ∧
    cur_lines st' = (before' ++ skip' ++ ins) ++ rest' ∧
    cursor st' = length (before' ++ skip' ++ ins) ∧
    Forall2 kept before before' ∧ Forall2 kept skip skip' ∧
    replaced (old_lines h) mid ∧ Forall2 written (new_lines h) ins.
Proof.
  intros H Heof Hlines Hcur. unfold apply_hunk in H. apply bind_Ok in H as (start & Hf & H).
  simplify_result. clear Hr0. rewrite Hcur, Hlines in *.
  apply find_hunk_after in Hf as [Hle Hrep]; [|done|rewrite length_app; lia].
  set (lines := before ++ rest) in *. set (old := old_lines h) in *. set (new := new_lines h) in *.
  set (k := start - length before).
  set (lines' := if _ && unterminated lines then set_last_ending preferred lines else lines).
  match goal with |- context [take start ?l ++ ?i ++ _] => set (ins := i) end.
  assert (Forall2 written new ins) as Hins.
  { unfold ins. repeat case_goal; auto using set_last_ending_written, written_inserted. }
  assert (take start lines = before ++ take k rest) as Hpre.
  { unfold lines, k. by rewrite take_app_ge by lia. }
  assert (Forall2 kept (take start lines) (take start lines') ∧
          drop (start + length old) lines' = drop (start + length old) lines) as [Hkept Hdrop].
  { unfold lines'. destruct (_ && unterminated lines) eqn:Hb; [|split; [apply Forall2_kept_refl|done]].
    apply andb_true_iff in Hb as [Hb Hun]. apply andb_true_iff in Hb as [Hb _].
    apply andb_true_iff in Hb as [_ Hs%bool_decide_eq_true]. rewrite Hs.
    pose proof (set_last_ending_kept _ Hun) as Hk. pose proof (Forall2_length _ _ _ Hk).
    rewrite !take_ge by lia. rewrite !drop_ge by lia. done. }
  rewrite Hpre in Hkept. apply Forall2_app_inv_l in Hkept as (before' & skip' & Hb' & Hs' & Htake).
  exists (take k rest), (take (length old) (drop k rest)), (drop (length old) (drop k rest)).
  exists before', skip', ins. rewrite !take_drop. split; [done|].
  assert (drop start lines = drop k rest) as Hds.
  { unfold lines, k. by rewrite drop_app_ge by lia. }
  simpl. fold lines' ins. rewrite Htake, Hdrop, <-drop_drop, Hds. split; [by rewrite <-!app_assoc|].
  split; [|by rewrite <-Hds]. rewrite !length_app.
  rewrite <-(Forall2_length _ _ _ Hb'), <-(Forall2_length _ _ _ Hs'), <-(Forall2_length _ _ _ Hins).
  rewrite length_take. assert (start + length old ≤ length before + length rest).
  { rewrite <-length_app. fold lines. assumption. }
  lia.
Qed.

Lemma apply_hunks_patch max hs : ∀ st st' before rest,
  foldlM (apply_hunk preferred max) st hs = Ok st' → Forall (λ h, end_of_file h = false) hs →
  cur_lines st = before ++ rest → cursor st = length before →
  ∃ before' out, cur_lines st' = before' ++ out ∧ Forall2 kept before before' ∧ patched hs rest out.
Proof.
  induction hs as [|h hs IH]; intros st st' before rest H Heof Hl Hc; simpl in H.
  - injection H as <-. exists before, rest. split; [done|].
    split; [apply Forall2_kept_refl|constructor; apply Forall2_kept_refl].
  - apply bind_Ok in H as (st1 & H1 & H). inversion_clear Heof.
    destruct (apply_hunk_patches _ _ _ _ _ _ H1 ltac:(done) Hl Hc)
      as (skip & mid & rest' & b' & skip' & ins & -> & Hl1 & Hc1 & Hkb & Hks & Hrep & Hins).
    destruct (IH _ _ _ _ H ltac:(done) Hl1 Hc1) as (b2 & out & Hl2 & Hk2 & Hp).
    apply Forall2_app_inv_l in Hk2 as (bb & x & Hkb2 & Hk2 & ->).
    apply Forall2_app_inv_l in Hk2 as (ss & ii & Hks2 & Hki2 & ->).
    exists bb, (ss ++ ii ++ out). rewrite Hl2, <-!app_assoc. split; [done|].
    split; [by eapply Forall2_kept_trans|].
    constructor; eauto using Forall2_kept_trans, written_kept.
Qed.
End patched.

(** C33: an update changes a file only where its hunks say. When an update
    without end-of-file hunks applies, the source is a sequence of kept pieces
    and pieces that match the hunks' old lines, in the order of the hunks; the
    result is the same sequence with every matched piece replaced by the hunk's
    new lines. Kept lines keep their text and their ending (the last one can
    only gain its missing separator), written lines carry the file's first line
    ending or none, and a byte order mark stays. *)
Theorem apply_update_patches (source : text) (u : UpdateFile) (max : N) (r : MatchResult)
    (Happly : apply_update_with_candidate_limit source u max = Ok r)
    (Heof : Forall (λ h, end_of_file h = false) (hunks u)) :
  ∃ bom lines out, split_lines source = Ok (bom, lines) ∧ content r = render bom out ∧
    patched (preferred_ending lines) (hunks u) lines out.
Proof.
  unfold apply_update_with_candidate_limit in Happly.
  apply bind_Ok in Happly as ([bom lines] & Hs & H). apply bind_Ok in H as (st & Hf & H).
  injection H as <-. simpl.
  destruct (apply_hunks_patch _ _ _ _ _ [] lines Hf Heof eq_refl eq_refl) as (b & out & Hl & Hb & Hp).
  apply Forall2_nil_inv_l in Hb as ->. exists bom, lines, (cur_lines st). rewrite Hl. by simpl.
Qed.

(** ** Concrete updates *)
Definition hunk_of (lines : list HunkLine) (eof : bool) (context : option text) : Hunk :=
  {| hunk_context := context; hunk_lines := lines; end_of_file := eof; hunk_header_line := 3 |}.
Definition nl : text := [LF].
Definition crlf : text := [CR; LF].
Definition content_of (r : result MatchError MatchResult) : option text :=
  match r with Ok r => Some (content r) | Err _ => None end.
Definition code_of (r : result MatchError MatchResult) : option MatchErrorCode :=
  match r with Ok _ => None | Err e => Some (match_code e) end.

Definition old_new : UpdateFile :=
  {| hunks := [hunk_of [HRemove (lit "old"); HAdd (lit "new")] false None] |}.

(** The cases of the source's tests. *)
Example preserves_exact_text :
  content_of (apply_update (lit "external" ++ nl ++ lit "old" ++ nl ++ lit "other" ++ nl) old_new) =
    Some (lit "external" ++ nl ++ lit "new" ++ nl ++ lit "other" ++ nl) ∧
  content_of (apply_update (BOM :: lit "old" ++ crlf ++ lit "keep" ++ crlf) old_new) =
    Some (BOM :: lit "new" ++ crlf ++ lit "keep" ++ crlf) ∧
  content_of (apply_update (lit "old" ++ [CR] ++ lit "keep" ++ [CR]) old_new) =
    Some (lit "new" ++ [CR] ++ lit "keep" ++ [CR]) ∧
  code_of (apply_update (lit "old" ++ nl ++ lit "old" ++ nl) old_new) = Some AmbiguousContext ∧
  content_of (apply_update (lit "last") {| hunks := [hunk_of [HAdd (lit "inserted")] false None] |}) =
    Some (lit "last" ++ nl ++ lit "inserted").
Proof. by vm_compute. Qed.

Lemma apply_update_patches_witness :
  ∃ bom lines out,
    split_lines (lit "external" ++ nl ++ lit "old") = Ok (bom, lines) ∧
    lit "external" ++ nl ++ lit "new" = render bom out ∧
    patched (preferred_ending lines) (hunks old_new) lines out.
Proof.
  apply (apply_update_patches (lit "external" ++ nl ++ lit "old") old_new 128
    {| content := lit "external" ++ nl ++ lit "new";
       replacements := [{| rep_hunk_line := 3; start_line := 1; removed_lines := 1; inserted_lines := 1 |}] |});
    [vm_compute; reflexivity|repeat constructor].
Defined.

Definition abc : text := lit "a" ++ nl ++ lit "b" ++ nl ++ lit "c" ++ nl ++ lit "e" ++ nl.
Definition shrink_then_edit : UpdateFile :=
  {| hunks := [hunk_of [HRemove (lit "a"); HRemove (lit "b"); HRemove (lit "c"); HAdd (lit "x")] false None;
               hunk_of [HRemove (lit "e"); HAdd (lit "f")] false None] |}.
(** the overlap check compares the position of a hunk in the edited text
    with the extent of the previous hunk in the text before it, so two disjoint
    hunks are refused as overlapping when the first one removes more lines than
    it adds, although applying them one after the other succeeds. *)
Lemma disjoint_hunks_refused :
  code_of (apply_update abc shrink_then_edit) = Some OverlappingHunks ∧
  content_of (apply_update abc {| hunks := take 1 (hunks shrink_then_edit) |}) =
    Some (lit "x" ++ nl ++ lit "e" ++ nl) ∧
  content_of (apply_update (lit "x" ++ nl ++ lit "e" ++ nl) {| hunks := drop 1 (hunks shrink_then_edit) |}) =
    Some (lit "x" ++ nl ++ lit "f" ++ nl).
Proof. by vm_compute. Qed.

(** And an end-of-file hunk may rewrite lines an earlier hunk has just added. *)
Lemma eof_hunk_rewrites_added_lines :
  content_of (apply_update (lit "a" ++ nl)
    {| hunks := [hunk_of [HRemove (lit "a"); HAdd (lit "x"); HAdd (lit "y")] false None;
                 hunk_of [HRemove (lit "y"); HAdd (lit "z")] true None] |}) =
    Some (lit "x" ++ nl ++ lit "z" ++ nl).
Proof. by vm_compute. Qed.
