(* ===== verification/PatchParser.v ===== *)
(** * Parsing a patch

    Models [crates/tools/src/apply_patch/parser.rs]: the recovering scan of the
    patch text, its diagnostics and limits. [lines[index..body_end]] is the list
    of the remaining lines, [ix] is [index]. *)
From S2P Require Import Prelude PatchDocument.
Local Open Scope N_scope.

(** ** Diagnostics *)
Inductive ParseErrorCode :=
  | EmptyInput | MissingBegin | MissingEnd | TrailingContent | UnknownDirective | MissingPath
  | InvalidPath | InvalidOperationBody | MissingAddPrefix | MissingReplacePrefix | DeleteHasBody
  | DuplicateDirective | InvalidMoveDirective | MissingHunk | InvalidHunkLine | EmptyAdd
  | EmptyReplace | TooManyOperations | TooManyChunks | TooManyHunks | PathTooLong | InputTooLarge.
#[export] Instance ParseErrorCode_eq_dec : EqDecision ParseErrorCode.
Proof. solve_decision. Defined.

Inductive ParseStopReason := AmbiguousStructure | ResourceLimit.

Record ParseError := {
  err_code : ParseErrorCode;
  err_line : N;
  err_column : N;
  err_message : string;
  operation_index : option N;
  err_operation : option OperationKind;
  err_path : option text;
}.
Definition parse_error (code : ParseErrorCode) (line : N) (message : string) : ParseError :=
  {| err_code := code; err_line := line; err_column := 1; err_message := message;
     operation_index := None; err_operation := None; err_path := None |}.

(** The index, kind and path of the operation being read. *)
Record context := { ctx_index : N; ctx_kind : OperationKind; ctx_path : option text }.
Definition in_operation (e : ParseError) (c : context) : ParseError :=
  {| err_code := err_code e; err_line := err_line e; err_column := err_column e;
     err_message := err_message e; operation_index := Some (clamp U32_MAX (ctx_index c));
     err_operation := Some (ctx_kind c); err_path := ctx_path c |}.

Record GuardDirectiveCandidate := { cand_syntax : GuardSyntax; cand_line : N }.
Record GuardCandidate := {
  gc_operation_index : N;
  gc_kind : OperationKind;
  gc_path : option text;
  gc_header_line : N;
  gc_source_guard : option GuardSyntax;
  gc_source_guard_line : option N;
  gc_destination_guard : option GuardSyntax;
  gc_destination_guard_line : option N;
  move_present : bool;
  move_presence_known : bool;
  repeated_guards : list GuardDirectiveCandidate;
}.
Record UnverifiedRange := { range_start : N; range_end : N }.

Record ParseFailure := {
  diagnostics : list ParseError;
  unchecked_from_line : option N;
  unverified_ranges : list UnverifiedRange;
  stop_reason : option ParseStopReason;
  guard_candidates : list GuardCandidate;
}.

(** ** The scan state *)
Record SyntaxScan := {
  scan_diagnostics : list ParseError;
  scan_unchecked : option N;
  scan_ranges : list UnverifiedRange;
  scan_stop_reason : option ParseStopReason;
  scan_candidates : list GuardCandidate;
  max_diagnostics : N;
}.
#[export] Instance SyntaxScan_fields : Fields SyntaxScan := λ s,
  {| scan_diagnostics := scan_diagnostics s; scan_unchecked := scan_unchecked s;
     scan_ranges := scan_ranges s; scan_stop_reason := scan_stop_reason s;
     scan_candidates := scan_candidates s; max_diagnostics := max_diagnostics s |}.

Definition new_scan (limits : PatchLimits) : SyntaxScan :=
  {| scan_diagnostics := []; scan_unchecked := None; scan_ranges := []; scan_stop_reason := None;
     scan_candidates := []; max_diagnostics := N.max (max_total_hunks limits) 1 |}.

Definition stopped (s : SyntaxScan) : bool := bool_decide (is_Some (scan_unchecked s)).
Definition full (s : SyntaxScan) : bool :=
  bool_decide (max_diagnostics s ≤ N.of_nat (length (scan_diagnostics s))).

Definition add (s : SyntaxScan) (e : ParseError) : SyntaxScan :=
  if stopped s then s
  else if full s
  then s <| scan_unchecked := Some (err_line e) |> <| scan_stop_reason := Some ResourceLimit |>
  else s <| scan_diagnostics := scan_diagnostics s ++ [e] |>.

Definition stop (s : SyntaxScan) (e : ParseError) (from_line : N) : SyntaxScan :=
  let reason := match err_code e with
                | InputTooLarge | TooManyOperations | TooManyChunks | TooManyHunks => ResourceLimit
                | _ => AmbiguousStructure
                end in
  let at_limit := full s in
  (add s e) <| scan_unchecked := Some from_line |>
    <| scan_stop_reason := Some (if at_limit then ResourceLimit else reason) |>.

Definition scan_failure (s : SyntaxScan) : ParseFailure :=
  {| diagnostics := sort_by_key err_line (scan_diagnostics s); unchecked_from_line := scan_unchecked s;
     unverified_ranges := scan_ranges s; stop_reason := scan_stop_reason s;
     guard_candidates := scan_candidates s |}.

(** ** Lines *)
Fixpoint split_lf (line s : text) : list text :=
  match s with
  | [] => [line]
  | c :: s => if decide (c = 10) then line :: split_lf [] s else split_lf (line ++ [c]) s
  end.
Definition strip_cr (line : text) : text :=
  match last line with
  | Some 13 => removelast line
  | _ => line
  end.
Definition blank (line : text) : bool := bool_decide (trim line = []).

Definition begin_marker : text := lit "*** Begin Patch".
Definition end_marker : text := lit "*** End Patch".
Definition eof_marker : text := lit "*** End of File".
Definition directive_prefix : text := lit "*** ".
Definition hunk_prefix : text := lit "@@".
Definition add_file : text := lit "*** Add File:".
Definition replace_file : text := lit "*** Replace File:".
Definition update_file : text := lit "*** Update File:".
Definition delete_file : text := lit "*** Delete File:".
Definition if_match : text := lit "*** If-Match:".
Definition if_destination : text := lit "*** If-Destination:".
Definition move_to_directive : text := lit "*** Move to:".

Definition is_directive (line : text) : bool := starts_with directive_prefix line.
Definition is_hunk_header (line : text) : bool := starts_with hunk_prefix line.
Definition is_file_directive (line : text) : bool :=
  starts_with add_file line || starts_with replace_file line ||
  starts_with update_file line || starts_with delete_file line.

(** Neither an unknown directive nor an unclosed input establishes emptiness. *)
Definition known_file_boundary_or_end (rest : list text) (end_marker_present : bool) : bool :=
  match rest with
  | line :: _ => is_file_directive line
  | [] => end_marker_present
  end.

Definition parse_path (value : text) (line max_bytes : N) : result ParseError text :=
  let path := trim value in
  ensure (negb (bool_decide (path = []))) (parse_error MissingPath line "file operation path is missing");;
  ensure (negb (bool_decide (0 ∈ path))) (parse_error InvalidPath line "path contains NUL");;
  ensure (bool_decide (byte_len path ≤ max_bytes))
    (parse_error PathTooLong line "path exceeds configured byte limit");;
  Ok path.

(** ** Directives of one operation *)
Record directives := {
  dir_source_guard : option GuardSyntax;
  dir_source_line : option N;
  dir_destination_guard : option GuardSyntax;
  dir_destination_line : option N;
  dir_move_to : option text;
  dir_move_present : bool;
  dir_repeated : list GuardDirectiveCandidate;
}.
#[export] Instance directives_fields : Fields directives := λ d,
  {| dir_source_guard := dir_source_guard d; dir_source_line := dir_source_line d;
     dir_destination_guard := dir_destination_guard d;
     dir_destination_line := dir_destination_line d; dir_move_to := dir_move_to d;
     dir_move_present := dir_move_present d; dir_repeated := dir_repeated d |}.
Definition no_directives : directives :=
  {| dir_source_guard := None; dir_source_line := None; dir_destination_guard := None;
     dir_destination_line := None; dir_move_to := None; dir_move_present := false;
     dir_repeated := [] |}.

(** A second guard of a kind is diagnosed and remembered, not used. *)
Definition repeat_guard (c : context) (s : SyntaxScan) (d : directives) (syntax : GuardSyntax)
    (line : N) (message : string) : SyntaxScan * directives :=
  let s := add s (in_operation (parse_error DuplicateDirective line message) c) in
  (s, if stopped s then d
      else d <| dir_repeated := dir_repeated d ++ [{| cand_syntax := syntax; cand_line := line |}] |>).

Definition if_match_directive (c : context) (s : SyntaxScan) (d : directives) (token : text)
    (line : N) : SyntaxScan * directives :=
  let syntax := IfMatch (trim token) in
  match dir_source_guard d with
  | Some _ => repeat_guard c s d syntax line "duplicate *** If-Match directive"
  | None => (s, d <| dir_source_guard := Some syntax |> <| dir_source_line := Some line |>)
  end.

Definition if_destination_directive (c : context) (s : SyntaxScan) (d : directives) (value : text)
    (line : N) : SyntaxScan * directives :=
  let value := trim value in
  let syntax := if decide (value = lit "absent") then IfDestinationAbsent
                else IfDestinationVersion value in
  match dir_destination_guard d with
  | Some _ => repeat_guard c s d syntax line "duplicate *** If-Destination directive"
  | None => (s, d <| dir_destination_guard := Some syntax |> <| dir_destination_line := Some line |>)
  end.

Definition move_directive (limits : PatchLimits) (c : context) (s : SyntaxScan) (d : directives)
    (value : text) (line : N) : SyntaxScan * directives :=
  let usable := negb (dir_move_present d) && bool_decide (ctx_kind c = OpUpdate) in
  let s := if usable then s
           else add s (in_operation (parse_error InvalidMoveDirective line
                  "*** Move to is valid only once on Update File") c) in
  let d := if usable then d <| dir_move_present := true |> else d in
  if stopped s then (s, d)
  else match parse_path value line (max_path_bytes limits) with
       | Ok destination => (s, if usable then d <| dir_move_to := Some destination |> else d)
       | Err e => (add s (in_operation e c), d)
       end.

(** The body of the loop; [None] is its [break]. *)
Definition directive (limits : PatchLimits) (c : context) (s : SyntaxScan) (d : directives)
    (line : text) (ix : N) : option (SyntaxScan * directives) :=
  match strip_prefix if_match line with
  | Some token => Some (if_match_directive c s d token (ix + 1))
  | None =>
      match strip_prefix if_destination line with
      | Some value => Some (if_destination_directive c s d value (ix + 1))
      | None =>
          match strip_prefix move_to_directive line with
          | Some value => Some (move_directive limits c s d value (ix + 1))
          | None => None
          end
      end
  end.

Fixpoint parse_directives (limits : PatchLimits) (c : context) (rest : list text) (ix : N)
    (s : SyntaxScan) (d : directives) : list text * N * SyntaxScan * directives :=
  match rest with
  | line :: tl =>
      if stopped s then (rest, ix, s, d)
      else match directive limits c s d line ix with
           | Some (s, d) => parse_directives limits c tl (ix + 1) s d
           | None => (rest, ix, s, d)
           end
  | [] => (rest, ix, s, d)
  end.

(** ** Bodies *)
Definition missing_prefix (kind : OperationKind) (line : N) : ParseError :=
  if decide (kind = OpAdd)
  then parse_error MissingAddPrefix line "Add File lines must start with +"
  else parse_error MissingReplacePrefix line "Replace File lines must start with +".

(** The content lines of Add and Replace. *)
Fixpoint parse_content (c : context) (rest : list text) (ix : N) (s : SyntaxScan)
    (values : list text) : list text * N * SyntaxScan * list text :=
  match rest with
  | line :: tl =>
      if is_directive line then (rest, ix, s, values)
      else
        let '(s, values) := match strip_prefix (lit "+") line with
                            | Some value => (s, values ++ [value])
                            | None => (add s (in_operation (missing_prefix (ctx_kind c) (ix + 1)) c), values)
                            end in
        if stopped s then (tl, ix + 1, s, values) else parse_content c tl (ix + 1) s values
  | [] => (rest, ix, s, values)
  end.

Definition empty_content (kind : OperationKind) (line : N) : ParseError :=
  if decide (kind = OpAdd) then parse_error EmptyAdd line "Add File has no content"
  else parse_error EmptyReplace line "Replace File has no content".

Definition parse_file_body (c : context) (rest : list text) (ix : N) (end_present : bool)
    (s : SyntaxScan) : list text * N * SyntaxScan * OperationBody :=
  let start := ix in
  let '(rest, ix, s, values) := parse_content c rest ix s [] in
  let s := if bool_decide (ix = start) && known_file_boundary_or_end rest end_present && negb (stopped s)
           then add s (in_operation (empty_content (ctx_kind c) (start + 1)) c) else s in
  (rest, ix, s,
   if decide (ctx_kind c = OpAdd) then BAdd {| add_lines := values |}
   else BReplace {| replace_lines := values |}).

(** Skipping to the next line that satisfies [p]. *)
Fixpoint skip_until (p : text → bool) (rest : list text) (ix : N) : list text * N :=
  match rest with
  | line :: tl => if p line then (rest, ix) else skip_until p tl (ix + 1)
  | [] => (rest, ix)
  end.

Definition parse_delete_body (c : context) (rest : list text) (ix : N) (s : SyntaxScan)
    : list text * N * SyntaxScan * OperationBody :=
  match rest with
  | line :: _ =>
      if is_directive line then (rest, ix, s, BDelete)
      else
        let s := add s (in_operation (parse_error DeleteHasBody (ix + 1) "Delete File cannot have a body") c) in
        let '(rest, ix) := skip_until is_directive rest ix in
        (rest, ix, s, BDelete)
  | [] => (rest, ix, s, BDelete)
  end.

(** The lines of one hunk. *)
Definition hunk_line (line : text) : option HunkLine :=
  match line with
  | 32 :: value => Some (HContext value)
  | 45 :: value => Some (HRemove value)
  | 43 :: value => Some (HAdd value)
  | _ => None
  end.
Definition ends_hunk (line : text) : bool := is_hunk_header line || is_directive line.

Fixpoint parse_hunk_lines (c : context) (rest : list text) (ix : N) (s : SyntaxScan)
    (lines : list HunkLine) (invalid : bool) : list text * N * SyntaxScan * list HunkLine * bool :=
  match rest with
  | line :: tl =>
      if ends_hunk line then (rest, ix, s, lines, invalid)
      else
        let '(s, lines, invalid) :=
          match hunk_line line with
          | Some l => (s, lines ++ [l], invalid)
          | None => (add s (in_operation (parse_error InvalidHunkLine (ix + 1)
                              "hunk lines must start with space, - or +") c), lines, true)
          end in
        if stopped s then (tl, ix + 1, s, lines, invalid)
        else parse_hunk_lines c tl (ix + 1) s lines invalid
  | [] => (rest, ix, s, lines, invalid)
  end.

(** The optional end-of-file marker of a hunk. *)
Definition take_eof_marker (rest : list text) (ix : N) : list text * N * bool :=
  match rest with
  | line :: tl => if decide (line = eof_marker) then (tl, ix + 1, true) else (rest, ix, false)
  | [] => (rest, ix, false)
  end.

(** One hunk, from the line after its header. *)
Definition parse_hunk (c : context) (header : text) (hunk_header : N) (rest : list text) (ix : N)
    (end_present : bool) (s : SyntaxScan) : list text * N * SyntaxScan * Hunk :=
  let context_text := trim (drop 2 header) in
  let '(rest, ix, s, lines, invalid) := parse_hunk_lines c rest ix s [] false in
  let '(rest, ix, eof) := take_eof_marker rest ix in
  let boundary := known_file_boundary_or_end rest end_present ||
                  match rest with line :: _ => is_hunk_header line | [] => false end in
  let s := if bool_decide (lines = []) && negb eof && negb invalid && negb (stopped s) && boundary
           then add s (in_operation (parse_error InvalidHunkLine hunk_header "empty hunk") c) else s in
  (rest, ix, s,
   {| hunk_context := if bool_decide (context_text = []) then None else Some context_text;
      hunk_lines := lines; end_of_file := eof; hunk_header_line := hunk_header |}).

(** The hunks of an update; [None] is out of fuel. The results are the position,
    the scan, the hunks, whether a header was missing, and the total count. *)
Fixpoint parse_hunks (fuel : nat) (limits : PatchLimits) (c : context) (rest : list text) (ix : N)
    (end_present : bool) (s : SyntaxScan) (hunks : list Hunk) (missing : bool) (total : N)
    : option (list text * N * SyntaxScan * list Hunk * bool * N) :=
  match rest with
  | [] => Some (rest, ix, s, hunks, missing, total)
  | line :: tl =>
      if is_directive line || stopped s then Some (rest, ix, s, hunks, missing, total)
      else match fuel with
      | O => None
      | S fuel =>
          if negb (is_hunk_header line) then
            let s := add s (in_operation (parse_error MissingHunk (ix + 1)
                              "Update File expects an @@ hunk header") c) in
            let '(rest, ix) := skip_until ends_hunk rest ix in
            parse_hunks fuel limits c rest ix end_present s hunks true total
          else if bool_decide (max_chunks_per_update limits ≤ N.of_nat (length hunks)) ||
                  bool_decide (max_total_hunks limits ≤ total) then
            let '(code, message) :=
              if decide (max_chunks_per_update limits ≤ N.of_nat (length hunks))
              then (TooManyChunks, "update hunk limit exceeded"%string)
              else (TooManyHunks, "total hunk limit exceeded"%string) in
            Some (rest, ix, stop s (in_operation (parse_error code (ix + 1) message) c) (ix + 1),
                  hunks, missing, total)
          else
            let '(rest, ix, s, h) := parse_hunk c line (ix + 1) tl (ix + 1) end_present s in
            parse_hunks fuel limits c rest ix end_present s (hunks ++ [h]) missing (total + 1)
      end
  end.

Definition parse_update_body (limits : PatchLimits) (c : context) (rest : list text) (ix : N)
    (end_present : bool) (s : SyntaxScan) (moves move_known : bool) (total : N)
    : option (list text * N * SyntaxScan * OperationBody * N) :=
  '(rest, ix, s, hunks, missing, total) ←
    parse_hunks (length rest) limits c rest ix end_present s [] false total;
  let s := if bool_decide (hunks = []) && negb moves && move_known && negb missing && negb (stopped s)
           then add s (in_operation (parse_error MissingHunk (ix + 1)
                  "Update File needs an @@ hunk unless it is a pure Move to operation") c)
           else s in
  Some (rest, ix, s, BUpdate {| hunks := hunks |}, total).

(** ** Operations *)
Definition file_directive (line : text) : option (OperationKind * text) :=
  match strip_prefix add_file line with
  | Some path => Some (OpAdd, path)
  | None =>
      match strip_prefix replace_file line with
      | Some path => Some (OpReplace, path)
      | None =>
          match strip_prefix update_file line with
          | Some path => Some (OpUpdate, path)
          | None =>
              match strip_prefix delete_file line with
              | Some path => Some (OpDelete, path)
              | None => None
              end
          end
      end
  end.

Definition parse_body (limits : PatchLimits) (c : context) (rest : list text) (ix : N)
    (end_present : bool) (s : SyntaxScan) (moves move_known : bool) (total : N)
    : option (list text * N * SyntaxScan * OperationBody * N) :=
  match ctx_kind c with
  | OpAdd | OpReplace =>
      let '(rest, ix, s, body) := parse_file_body c rest ix end_present s in
      Some (rest, ix, s, body, total)
  | OpDelete =>
      let '(rest, ix, s, body) := parse_delete_body c rest ix s in Some (rest, ix, s, body, total)
  | OpUpdate => parse_update_body limits c rest ix end_present s moves move_known total
  end.

(** The state of the loop over the operations. *)
Record parser := {
  at_rest : list text;
  at_index : N;
  syntax : SyntaxScan;
  parsed : list Operation;
  candidates_seen : list GuardCandidate;
  operations_seen : N;
  hunks_seen : N;
}.

(** One iteration; the second component is its [break]. *)
Definition parse_operation (limits : PatchLimits) (end_present : bool) (line : text) (tl : list text)
    (p : parser) : option (parser * bool) :=
  let ix := at_index p in
  let s := syntax p in
  let break s rest ix seen :=
    Some ({| at_rest := rest; at_index := ix; syntax := s; parsed := parsed p;
             candidates_seen := candidates_seen p; operations_seen := seen;
             hunks_seen := hunks_seen p |}, true) in
  if bool_decide (max_operations limits ≤ operations_seen p)
  then break (stop s (parse_error TooManyOperations (ix + 1) "operation limit exceeded") (ix + 1))
         (line :: tl) ix (operations_seen p)
  else match file_directive line with
  | None =>
      break (stop s (parse_error UnknownDirective (ix + 1)
               "expected a file operation directive; later operation boundaries are unknown") (ix + 1))
        (line :: tl) ix (operations_seen p)
  | Some (kind, raw_path) =>
      let this := operations_seen p in
      let parsed_path := parse_path raw_path (ix + 1) (max_path_bytes limits) in
      let path := match parsed_path with Ok path => Some path | Err _ => None end in
      let s := match parsed_path with
               | Ok _ => s
               | Err e => add s (in_operation e {| ctx_index := this; ctx_kind := kind; ctx_path := None |})
               end in
      let c := {| ctx_index := this; ctx_kind := kind; ctx_path := path |} in
      let '(rest, i, s, d) := parse_directives limits c tl (ix + 1) s no_directives in
      if stopped s then break s rest i (this + 1)
      else
        let known := known_file_boundary_or_end rest end_present ||
                     match rest with line :: _ => negb (is_directive line) | [] => false end in
        let candidate :=
          {| gc_operation_index := this; gc_kind := kind; gc_path := path; gc_header_line := ix + 1;
             gc_source_guard := dir_source_guard d; gc_source_guard_line := dir_source_line d;
             gc_destination_guard := dir_destination_guard d;
             gc_destination_guard_line := dir_destination_line d;
             move_present := dir_move_present d; move_presence_known := known;
             repeated_guards := dir_repeated d |} in
        '(rest, i, s, body, total) ←
          parse_body limits c rest i end_present s (dir_move_present d) known (hunks_seen p);
        let operations :=
          match path with
          | Some path =>
              [{| op_kind := kind; op_path := path; source_guard := dir_source_guard d;
                  destination_guard := dir_destination_guard d; source_guard_line := dir_source_line d;
                  destination_guard_line := dir_destination_line d; move_to := dir_move_to d;
                  op_body := body; op_header_line := ix + 1 |}]
          | None => []
          end in
        Some ({| at_rest := rest; at_index := i; syntax := s; parsed := parsed p ++ operations;
                 candidates_seen := candidates_seen p ++ [candidate]; operations_seen := this + 1;
                 hunks_seen := total |}, false)
  end.

Fixpoint parse_operations (fuel : nat) (limits : PatchLimits) (end_present : bool) (p : parser)
    : option parser :=
  match at_rest p with
  | [] => Some p
  | line :: tl =>
      if stopped (syntax p) then Some p
      else match fuel with
      | O => None
      | S fuel =>
          '(p, break) ← parse_operation limits end_present line tl p;
          if (break : bool) then Some p else parse_operations fuel limits end_present p
      end
  end.

(** ** The whole patch *)
Section parse.
Context (sha256 : text → list N).

Fixpoint position (p : text → bool) (l : list text) : option nat :=
  match l with
  | [] => None
  | x :: l => if p x then Some 0%nat else S <$> position p l
  end.

(** Where the operations end, and the diagnostics of the envelope. *)
Definition body_end (patch : text) (lines : list text) (end_at : option nat) : nat :=
  match end_at with
  | Some e => e
  | None => if bool_decide (last patch = Some 10) then pred (length lines) else length lines
  end.
Definition envelope (lines : list text) (end_at : option nat) (stop_at : nat) (s : SyntaxScan)
    : SyntaxScan :=
  let s := match end_at with
           | Some e =>
               match position (λ line, negb (blank line)) (drop (S e) lines) with
               | Some offset =>
                   add s (parse_error TrailingContent (N.of_nat (e + 2 + offset))
                            "non-whitespace content follows *** End Patch")
               | None => s
               end
           | None => add s (parse_error MissingEnd (N.of_nat (length lines)) "missing *** End Patch")
           end in
  if decide (stop_at = 1%nat)
  then add s (parse_error EmptyInput 2 "patch contains no operations") else s.

(** An input without an end marker leaves its tail unchecked. *)
Definition close_scan (lines : list text) (end_at : option nat) (s : SyntaxScan) : SyntaxScan :=
  if bool_decide (end_at = None) && negb (stopped s)
  then s <| scan_unchecked := Some (N.of_nat (length lines) + 1) |>
         <| scan_stop_reason := Some AmbiguousStructure |>
  else s.

Definition parse_validated (patch : text) (limits : PatchLimits)
    : option (result ParseFailure PatchDocument) :=
  let s := new_scan limits in
  if decide (max_patch_bytes limits < byte_len patch) then
    Some (Err (scan_failure (stop s (parse_error InputTooLarge 1 "patch exceeds configured input limit") 1)))
  else if blank patch then
    Some (Err (scan_failure (add s (parse_error EmptyInput 1 "patch is empty"))))
  else
    let lines := strip_cr <$> split_lf [] patch in
    if negb (bool_decide (head lines = Some begin_marker)) then
      Some (Err (scan_failure (stop s (parse_error MissingBegin 1 "first line must be *** Begin Patch") 1)))
    else
      let end_at := position (λ line, bool_decide (line = end_marker)) lines in
      let stop_at := body_end patch lines end_at in
      p ← parse_operations (length lines) limits (bool_decide (is_Some end_at))
            {| at_rest := drop 1 (take stop_at lines); at_index := 1;
               syntax := envelope lines end_at stop_at s; parsed := [];
               candidates_seen := []; operations_seen := 0; hunks_seen := 0 |};
      let s := close_scan lines end_at (syntax p) in
      if decide (scan_diagnostics s = []) then
        Some (Ok {| schema_version := PARSER_SCHEMA_VERSION; input_bytes := byte_len patch;
                    operations := parsed p; payload_hash := sha256 patch |})
      else Some (Err (scan_failure (s <| scan_candidates := candidates_seen p |>))).
End parse.

#[local] Arguments strip_prefix : simpl never.
#[local] Arguments starts_with : simpl never.
#[local] Arguments lit : simpl never.
#[local] Arguments add : simpl never.
#[local] Arguments stop : simpl never.

(** ** The scan only accumulates *)
Record scan_inv (s : SyntaxScan) : Prop := {
  inv_limit : 1 ≤ max_diagnostics s;
  inv_bounded : N.of_nat (length (scan_diagnostics s)) ≤ max_diagnostics s;
  inv_silent : scan_diagnostics s = [] → scan_unchecked s = None;
  inv_reason : is_Some (scan_unchecked s) ↔ is_Some (scan_stop_reason s);
}.
Definition grows (s s' : SyntaxScan) : Prop :=
  max_diagnostics s' = max_diagnostics s ∧ scan_diagnostics s `prefix_of` scan_diagnostics s'.
#[export] Instance grows_preorder : PreOrder grows.
Proof.
  split; [by intros s|]. intros s1 s2 s3 [H1 H2] [H3 H4]. split; [congruence|by etrans].
Qed.

Lemma stopped_spec s : stopped s = false ↔ scan_unchecked s = None.
Proof.
  unfold stopped. rewrite bool_decide_eq_false, <-not_eq_None_Some. destruct (scan_unchecked s); naive_solver.
Qed.

Lemma add_grows s e : grows s (add s e).
Proof. unfold add. repeat case_goal; split; simpl; try done. by apply prefix_app_r. Qed.

Lemma add_inv s e : scan_inv s → scan_inv (add s e).
Proof.
  intros [H1 H2 H3 H4]. unfold add. destruct (stopped s) eqn:Hs; [done|].
  apply stopped_spec in Hs. destruct (full s) eqn:Hf; unfold full in Hf.
  - apply bool_decide_eq_true in Hf. constructor; simpl; try done.
    intros H0. rewrite H0 in *. simpl in *. lia.
  - apply bool_decide_eq_false in Hf. constructor; simpl; [done|rewrite length_app; simpl; lia| |done].
    by intros []%app_nil.
Qed.

Lemma add_speaks s e : scan_inv s → scan_diagnostics (add s e) ≠ [].
Proof.
  intros [H1 H2 H3 H4]. unfold add. destruct (stopped s) eqn:Hs.
  - intros H0. apply H3, stopped_spec in H0. congruence.
  - destruct (full s) eqn:Hf; unfold full in Hf; simpl.
    + apply bool_decide_eq_true in Hf. intros H0. rewrite H0 in *. simpl in *. lia.
    + by intros []%app_nil.
Qed.

Lemma stop_grows s e n : grows s (stop s e n).
Proof. destruct (add_grows s e) as [? ?]. by split. Qed.
Lemma stop_inv s e n : scan_inv s → scan_inv (stop s e n).
Proof.
  intros Hs. pose proof (add_speaks s e Hs) as Hne. destruct (add_inv s e Hs).
  constructor; simpl; try done.
Qed.
Lemma stop_speaks s e n : scan_inv s → scan_diagnostics (stop s e n) ≠ [].
Proof. apply add_speaks. Qed.

(** A scan that is silent at the end was silent throughout. *)
Lemma grows_silent s s' : grows s s' → scan_diagnostics s' = [] → scan_diagnostics s = [].
Proof. intros [_ [l Hl]] H0. rewrite H0 in Hl. symmetry in Hl. by apply app_nil in Hl as [? _]. Qed.

Lemma silent_running s : scan_inv s → scan_diagnostics s = [] → stopped s = false.
Proof. intros Hs H0. apply stopped_spec. by apply inv_silent. Qed.

Create HintDb scan discriminated.
#[export] Hint Resolve add_grows add_inv stop_grows stop_inv : scan.

(** What every reader of lines guarantees: it leaves a suffix of its lines,
    only accumulates diagnostics and keeps the scan well formed. *)
Definition reads (rest : list text) (s : SyntaxScan) (rest' : list text) (s' : SyntaxScan) : Prop :=
  rest' `suffix_of` rest ∧ grows s s' ∧ (scan_inv s → scan_inv s').
Lemma reads_refl rest s : reads rest s rest s.
Proof. by split. Qed.
Lemma reads_trans r1 s1 r2 s2 r3 s3 : reads r1 s1 r2 s2 → reads r2 s2 r3 s3 → reads r1 s1 r3 s3.
Proof. intros (? & ? & ?) (? & ? & ?). split; [by etrans|]. split; [by etrans|auto]. Qed.
Lemma reads_add rest s e : reads rest s rest (add s e).
Proof. split; [done|]. split; eauto with scan. Qed.
Lemma reads_stop rest s e n : reads rest s rest (stop s e n).
Proof. split; [done|]. split; eauto with scan. Qed.
Lemma reads_tail line tl s : reads (line :: tl) s tl s.
Proof. split; [by exists [line]|]. by split. Qed.
Lemma reads_cons line tl s rest' s' : reads tl s rest' s' → reads (line :: tl) s rest' s'.
Proof. apply reads_trans, reads_tail. Qed.
Lemma reads_length rest s rest' s' : reads rest s rest' s' → (length rest' ≤ length rest)%nat.
Proof. intros [? _]. by apply suffix_length. Qed.
#[export] Hint Resolve reads_refl reads_add reads_stop reads_tail reads_cons : scan.

Lemma skip_until_suffix p rest ix : fst (skip_until p rest ix) `suffix_of` rest.
Proof.
  revert ix; induction rest as [|l rest IH]; intros ix; simpl; [done|].
  destruct (p l); [done|]. etrans; [apply IH|by exists [l]].
Qed.

(** The next line, if any, is an unknown directive, or the input is cut off:
    the cases in which emptiness is not diagnosed on the spot. *)
Definition pending (rest : list text) (end_present : bool) : Prop :=
  match rest with
  | line :: _ => is_directive line = true ∧ is_file_directive line = false
  | [] => end_present = false
  end.

(** ** The readers *)
Lemma directive_reads limits c s d line ix s' d' :
  directive limits c s d line ix = Some (s', d') → grows s s' ∧ (scan_inv s → scan_inv s').
Proof.
  unfold directive, if_match_directive, if_destination_directive, move_directive, repeat_guard.
  intros H. repeat case_match; simplify_eq; (split; [|eauto with scan]); try done;
    try apply add_grows; etrans; apply add_grows.
Qed.

Lemma parse_directives_reads limits c rest : ∀ ix s d,
  let '(rest', _, s', _) := parse_directives limits c rest ix s d in reads rest s rest' s'.
Proof.
  induction rest as [|line tl IH]; intros ix s d; simpl; [apply reads_refl|].
  destruct (stopped s); [apply reads_refl|].
  destruct (directive limits c s d line ix) as [[s1 d1]|] eqn:Hd; [|apply reads_refl].
  apply directive_reads in Hd as [Hg Hi]. specialize (IH (ix + 1) s1 d1).
  destruct (parse_directives limits c tl (ix + 1) s1 d1) as [[[r i] s'] d'].
  destruct IH as (Hr & Hg' & Hi'). split; [etrans; [exact Hr|by exists [line]]|].
  split; [by etrans|auto].
Qed.

Lemma parse_content_reads c rest : ∀ ix s values,
  let '(rest', _, s', _) := parse_content c rest ix s values in reads rest s rest' s'.
Proof.
  induction rest as [|line tl IH]; intros ix s values; simpl; [apply reads_refl|].
  destruct (is_directive line); [apply reads_refl|].
  destruct (strip_prefix (lit "+") line) as [v|].
  - destruct (stopped s); [eauto with scan|]. specialize (IH (ix + 1) s (values ++ [v])).
    destruct (parse_content _ _ _ _ _) as [[[r i] s'] v']. eauto with scan.
  - set (s1 := add s _). destruct (stopped s1).
    + eapply reads_trans; [apply reads_add|apply reads_tail].
    + specialize (IH (ix + 1) s1 values). destruct (parse_content _ _ _ _ _) as [[[r i] s'] v'].
      eapply reads_trans; [apply reads_add|]. by apply reads_cons.
Qed.

Lemma parse_hunk_lines_reads c rest : ∀ ix s lines invalid,
  let '(rest', _, s', _, _) := parse_hunk_lines c rest ix s lines invalid in reads rest s rest' s'.
Proof.
  induction rest as [|line tl IH]; intros ix s lines invalid; simpl; [apply reads_refl|].
  destruct (ends_hunk line); [apply reads_refl|].
  destruct (hunk_line line) as [l|].
  - destruct (stopped s); [eauto with scan|]. specialize (IH (ix + 1) s (lines ++ [l]) invalid).
    destruct (parse_hunk_lines _ _ _ _ _ _) as [[[[r i] s'] v'] b]. eauto with scan.
  - set (s1 := add s _). destruct (stopped s1).
    + eapply reads_trans; [apply reads_add|apply reads_tail].
    + specialize (IH (ix + 1) s1 lines true). destruct (parse_hunk_lines _ _ _ _ _ _) as [[[[r i] s'] v'] b].
      eapply reads_trans; [apply reads_add|]. by apply reads_cons.
Qed.

Lemma take_eof_marker_spec rest ix :
  let '(rest', _, eof) := take_eof_marker rest ix in
  rest' `suffix_of` rest ∧ (eof = true ∨ (eof = false ∧ rest' = rest)).
Proof.
  unfold take_eof_marker. destruct rest as [|line tl]; [by auto|].
  destruct (decide _); [|by auto]. split; [by exists [line]|by left].
Qed.

Lemma parse_hunk_reads c header n rest ix e s :
  let '(rest', _, s', _) := parse_hunk c header n rest ix e s in reads rest s rest' s'.
Proof.
  unfold parse_hunk. pose proof (parse_hunk_lines_reads c rest ix s [] false) as Hr.
  destruct (parse_hunk_lines _ _ _ _ _ _) as [[[[r i] s'] v'] b].
  pose proof (take_eof_marker_spec r i) as Hm. destruct (take_eof_marker r i) as [[r' i'] eof].
  destruct Hm as [Hm _]. eapply reads_trans; [exact Hr|]. eapply reads_trans; [by split|].
  case_goal; eauto with scan.
Qed.

(** The hunk loop has fuel enough: every round consumes a line. *)
Lemma parse_hunks_reads limits c fuel : ∀ rest ix e s hs missing total,
  (length rest ≤ fuel)%nat →
  ∃ rest' ix' s' hs' missing' total',
    parse_hunks fuel limits c rest ix e s hs missing total =
      Some (rest', ix', s', hs', missing', total') ∧ reads rest s rest' s'.
Proof.
  induction fuel as [|fuel IH]; intros rest ix e s hs missing total Hf.
  { destruct rest; [|simpl in Hf; lia]. simpl. eauto 10 with scan. }
  destruct rest as [|line tl]; simpl; [eauto 10 with scan|].
  destruct (is_directive line || stopped s) eqn:Hstop; [eauto 10 with scan|].
  apply orb_false_iff in Hstop as [Hd _]. simpl in Hf.
  destruct (is_hunk_header line) eqn:Hh; simpl.
  - destruct (_ || _).
    + case_decide; eauto 10 with scan.
    + pose proof (parse_hunk_reads c line (ix + 1) tl (ix + 1) e s) as Hr.
      destruct (parse_hunk _ _ _ _ _ _ _) as [[[r i] s'] h]. pose proof (reads_length _ _ _ _ Hr).
      destruct (IH r i e s' (hs ++ [h]) missing (total + 1) ltac:(lia))
        as (r' & i' & s'' & hs' & m' & t' & -> & Hr'). do 6 eexists. split; [done|].
      eapply reads_trans; [apply reads_cons, Hr|exact Hr'].
  - unfold ends_hunk at 1. rewrite Hh, Hd. simpl.
    pose proof (skip_until_suffix ends_hunk tl (ix + 1)) as Hs.
    destruct (skip_until ends_hunk tl (ix + 1)) as [r i]. simpl in Hs.
    pose proof (suffix_length _ _ Hs). set (s1 := add s _).
    destruct (IH r i e s1 hs true total ltac:(lia)) as (r' & i' & s'' & hs' & m' & t' & -> & Hr').
    do 6 eexists. split; [done|]. eapply reads_trans; [|exact Hr'].
    split; [etrans; [exact Hs|by exists [line]]|]. split; [apply add_grows|apply add_inv].
Qed.

Lemma parse_body_reads limits c rest ix e s moves known total :
  ∃ rest' ix' s' body total',
    parse_body limits c rest ix e s moves known total = Some (rest', ix', s', body, total') ∧
    reads rest s rest' s'.
Proof.
  unfold parse_body. destruct (ctx_kind c) eqn:Hk.
  1, 2: unfold parse_file_body; pose proof (parse_content_reads c rest ix s []) as Hr;
    destruct (parse_content _ _ _ _ _) as [[[r i] s'] v]; do 5 eexists; (split; [done|]);
    (case_goal; [|done]); eapply reads_trans; [exact Hr|apply reads_add].
  - unfold parse_update_body.
    destruct (parse_hunks_reads limits c (length rest) rest ix e s [] false total)
      as (r & i & s' & hs & m & t & -> & Hr); [done|].
    simpl. do 5 eexists. split; [done|]. case_goal; [|done].
    eapply reads_trans; [exact Hr|apply reads_add].
  - unfold parse_delete_body. destruct rest as [|line tl]; [eauto 10 with scan|].
    destruct (is_directive line); [eauto 10 with scan|].
    pose proof (skip_until_suffix is_directive (line :: tl) ix) as Hs.
    destruct (skip_until is_directive (line :: tl) ix) as [r i]. simpl in Hs.
    do 5 eexists. split; [done|]. split; [done|]. eauto with scan.
Qed.

Lemma parse_operation_reads limits e line tl p :
  ∃ p' b, parse_operation limits e line tl p = Some (p', b) ∧
    reads (line :: tl) (syntax p) (at_rest p') (syntax p') ∧
    (b = false → (length (at_rest p') ≤ length tl)%nat).
Proof.
  unfold parse_operation. destruct (bool_decide (max_operations _ ≤ _)).
  { do 2 eexists. split; [done|]. split; [apply reads_stop|done]. }
  destruct (file_directive line) as [[kind raw]|].
  2: { do 2 eexists. split; [done|]. split; [apply reads_stop|done]. }
  cbv beta iota zeta.  set (path := parse_path raw (at_index p + 1) (max_path_bytes limits)).
  match goal with |- context [parse_directives _ ?x tl _ ?y _] => set (s1 := y); set (c := x) end.
  assert (reads tl (syntax p) tl s1) as H1 by (unfold s1; destruct path; eauto with scan).
  clearbody s1 c.
  pose proof (parse_directives_reads limits c tl (at_index p + 1) s1 no_directives) as H2.
  destruct (parse_directives _ _ _ _ _ _) as [[[r i] s2] d].
  pose proof (reads_trans _ _ _ _ _ _ H1 H2) as H3.
  destruct (stopped s2).
  { do 2 eexists. split; [done|]. split; [by apply reads_cons|done]. }
  set (known := _ || _). clearbody known.
  destruct (parse_body_reads limits c r i e s2 (dir_move_present d) known (hunks_seen p))
    as (r' & i' & s' & body & total & -> & H4). simpl.
  pose proof (reads_trans _ _ _ _ _ _ H3 H4) as H5. do 2 eexists. split; [done|].
  split; [by apply reads_cons|]. intros _. by eapply reads_length.
Qed.

Lemma parse_operations_reads limits e fuel : ∀ p,
  (length (at_rest p) ≤ fuel)%nat →
  ∃ p', parse_operations fuel limits e p = Some p' ∧
    reads (at_rest p) (syntax p) (at_rest p') (syntax p').
Proof.
  induction fuel as [|fuel IH]; intros p Hf; destruct (at_rest p) as [|line tl] eqn:Hr;
    simpl in Hf; try lia; simpl; rewrite Hr; [by exists p; rewrite Hr; eauto with scan..|].
  destruct (stopped (syntax p)); [exists p; rewrite Hr; eauto with scan|].
  destruct (parse_operation_reads limits e line tl p) as (p' & b & -> & Hrd & Hlen). simpl.
  destruct b; [eauto|]. destruct (IH p') as (p'' & -> & Hrd').
  { specialize (Hlen eq_refl). lia. }
  exists p''. split; [done|]. by eapply reads_trans.
Qed.

Lemma new_scan_inv limits : scan_inv (new_scan limits).
Proof. constructor; simpl; [lia|lia|done|]. split; by intros [? ?]. Qed.

(** What a failure says of itself. *)
Definition failure_ok (limits : PatchLimits) (f : ParseFailure) : Prop :=
  1 ≤ N.of_nat (length (diagnostics f)) ≤ N.max (max_total_hunks limits) 1 ∧
  StronglySorted (key_le err_line) (diagnostics f) ∧
  (is_Some (unchecked_from_line f) ↔ is_Some (stop_reason f)).

Lemma scan_failure_ok limits s :
  grows (new_scan limits) s → scan_inv s → scan_diagnostics s ≠ [] → failure_ok limits (scan_failure s).
Proof.
  intros [Hmax _] [_ Hb _ Hr] Hne. simpl in Hmax. rewrite Hmax in Hb.
  split; simpl; [rewrite sort_by_key_length; destruct (scan_diagnostics s); [done|simpl in *; lia]|].
  split; [apply sort_by_key_sorted|done].
Qed.

(** The scan before the first operation. *)
Definition before_operations (limits : PatchLimits) (s : SyntaxScan) : Prop :=
  grows (new_scan limits) s ∧ scan_inv s.

Lemma before_add limits s e : before_operations limits s → before_operations limits (add s e).
Proof. intros [H1 H2]. split; [etrans; [exact H1|apply add_grows]|by apply add_inv]. Qed.

Lemma envelope_before limits lines end_at stop_at s :
  before_operations limits s → before_operations limits (envelope lines end_at stop_at s).
Proof. intros Hb. unfold envelope. repeat case_goal; auto using before_add. Qed.

Lemma close_scan_core lines end_at s :
  scan_diagnostics (close_scan lines end_at s) = scan_diagnostics s ∧
  max_diagnostics (close_scan lines end_at s) = max_diagnostics s.
Proof. unfold close_scan. by case_goal. Qed.

Lemma close_scan_inv lines end_at s :
  scan_inv s → scan_diagnostics s ≠ [] → scan_inv (close_scan lines end_at s).
Proof.
  intros [I1 I2 I3 I4] Hne. unfold close_scan. case_goal; [|done].
  constructor; simpl; try done.
Qed.

(** C40: the parser answers every input, within the fuel of its line count, and
    a refusal is usable: it carries at least one diagnostic, so that the first
    one always exists, never more than the configured bound, in the order of
    their lines, and it names the reason exactly when it left lines unchecked. *)
Theorem parse_always_answers (sha256 : text → list N) (patch : text) (limits : PatchLimits) :
  ∃ r, parse_validated sha256 patch limits = Some r ∧
    match r with Ok _ => True | Err f => failure_ok limits f end.
Proof.
  unfold parse_validated. pose proof (new_scan_inv limits) as H0.
  case_decide; [|destruct (blank patch); [|destruct (negb _)]].
  1-3: eexists; split; [done|]; apply scan_failure_ok;
    [first [apply stop_grows|apply add_grows]|auto with scan|by apply stop_speaks || by apply add_speaks].
  cbv zeta. set (lines := strip_cr <$> _). set (end_at := position _ lines).
  set (stop_at := body_end patch lines end_at).
  assert (before_operations limits (new_scan limits)) as [Hg0 Hi0]%(envelope_before _ lines end_at stop_at)
    by (split; [reflexivity|done]).
  match goal with |- context [parse_operations _ _ ?e ?p] =>
    destruct (parse_operations_reads limits e (length lines) p) as (p' & -> & _ & Hg & Hi) end.
  { simpl. rewrite length_drop, length_take. lia. }
  simpl in Hg, Hi. specialize (Hi Hi0). simpl.
  destruct (close_scan_core lines end_at (syntax p')) as [Hd Hm].
  destruct (decide _) as [|Hne]; [by eexists|]. eexists. split; [done|].
  apply scan_failure_ok; simpl; [| |done].
  - destruct (transitivity Hg0 Hg) as [Hgm ?]. split; simpl; [by rewrite Hm, Hgm|by rewrite Hd].
  - rewrite Hd in Hne. destruct (close_scan_inv lines end_at (syntax p') Hi Hne). by constructor.
Qed.

(** ** What an accepted document guarantees *)
Definition path_ok (max_bytes : N) (path : text) : Prop :=
  path ≠ [] ∧ (0 ∉ path) ∧ byte_len path ≤ max_bytes.

Lemma parse_path_ok v line m path : parse_path v line m = Ok path → path_ok m path.
Proof. unfold parse_path. intros. simplify_result. split; [done|]. split; [done|lia]. Qed.

Definition moves_ok (limits : PatchLimits) (c : context) (d : directives) : Prop :=
  (dir_move_present d = true → ctx_kind c = OpUpdate ∧ is_Some (dir_move_to d)) ∧
  (∀ t, dir_move_to d = Some t → path_ok (max_path_bytes limits) t ∧ dir_move_present d = true).

Lemma repeat_guard_speaks c s d g n m s' d' :
  repeat_guard c s d g n m = (s', d') → scan_inv s → scan_diagnostics s' ≠ [].
Proof. unfold repeat_guard. intros [= <- _] Hi. by apply add_speaks. Qed.

Lemma directive_silent limits c s d line ix s' d' :
  directive limits c s d line ix = Some (s', d') → scan_inv s → scan_diagnostics s' = [] →
  moves_ok limits c d → moves_ok limits c d'.
Proof.
  unfold directive. intros H Hi H0 [Hm1 Hm2].
  destruct (strip_prefix if_match line); [|destruct (strip_prefix if_destination line);
    [|destruct (strip_prefix move_to_directive line) as [v|]; [|done]]]; simplify_eq.
  - unfold if_match_directive in H. destruct (dir_source_guard d); [|by simplify_eq].
    by apply repeat_guard_speaks in H.
  - unfold if_destination_directive in H. destruct (dir_destination_guard d); [|by simplify_eq].
    by apply repeat_guard_speaks in H.
  - unfold move_directive in H. destruct (negb (dir_move_present d) && _) eqn:Hu; cycle 1.
    { assert (scan_diagnostics (add s (in_operation (parse_error InvalidMoveDirective (ix + 1)
        "*** Move to is valid only once on Update File") c)) ≠ []) as Hne by (by apply add_speaks).
      destruct (stopped (add s _)); [by simplify_eq|].
      destruct (parse_path v _ _); simplify_eq; try by apply (grows_silent _ _ (add_grows _ _)) in H0. }
    apply andb_true_iff in Hu as [Hp Hk%bool_decide_eq_true].
    destruct (stopped s) eqn:Hs.
    { simplify_eq. by rewrite silent_running in Hs. }
    destruct (parse_path v (ix + 1) (max_path_bytes limits)) as [q|] eqn:Hq; simplify_eq.
    + apply parse_path_ok in Hq. split; simpl; [by eauto|]. by intros ? [= <-].
    + by apply add_speaks in H0.
Qed.

Lemma parse_directives_silent limits c rest : ∀ ix s d,
  let '(rest', _, s', d') := parse_directives limits c rest ix s d in
  scan_inv s → scan_diagnostics s' = [] → moves_ok limits c d → moves_ok limits c d'.
Proof.
  induction rest as [|line tl IH]; intros ix s d; simpl; [done|].
  destruct (stopped s); [done|].
  destruct (directive limits c s d line ix) as [[s1 d1]|] eqn:Hd; [|done].
  specialize (IH (ix + 1) s1 d1). pose proof (parse_directives_reads limits c tl (ix + 1) s1 d1) as Hr.
  destruct (parse_directives limits c tl (ix + 1) s1 d1) as [[[r i] s'] d'].
  intros Hi H0 Hm. destruct Hr as (_ & Hg & _). pose proof (directive_reads _ _ _ _ _ _ _ _ Hd) as [_ Hi1].
  apply IH; [auto|done|]. eapply directive_silent; [exact Hd|done|by eapply grows_silent|done].
Qed.

Lemma parse_content_silent c rest : ∀ ix s values,
  let '(rest', ix', s', values') := parse_content c rest ix s values in
  scan_inv s → scan_diagnostics s' = [] →
  (rest' = [] ∨ ∃ l tl, rest' = l :: tl ∧ is_directive l = true) ∧
  N.of_nat (length values') + ix = N.of_nat (length values) + ix'.
Proof.
  induction rest as [|line tl IH]; intros ix s values; simpl.
  { intros _ _. split; [by left|lia]. }
  destruct (is_directive line) eqn:Hd.
  { intros _ _. split; [right; by exists line, tl|lia]. }
  destruct (strip_prefix (lit "+") line) as [v|].
  - destruct (stopped s) eqn:Hs; [intros; by rewrite silent_running in Hs|].
    specialize (IH (ix + 1) s (values ++ [v])). destruct (parse_content _ _ _ _ _) as [[[r i] s'] v'].
    intros Hi H0. destruct (IH Hi H0) as [? Hl]. split; [done|].
    rewrite length_app in Hl. simpl in Hl. lia.
  - set (s1 := add s _). pose proof (parse_content_reads c tl (ix + 1) s1 values) as Hr.
    destruct (stopped s1); [intros Hi H0; by apply add_speaks in H0|].
    destruct (parse_content _ _ _ _ _) as [[[r i] s'] v']. intros Hi H0.
    destruct Hr as (_ & Hg & _). apply (grows_silent _ _ Hg) in H0. by apply add_speaks in H0.
Qed.

Lemma file_boundary_pending rest e :
  (rest = [] ∨ ∃ l tl, rest = l :: tl ∧ is_directive l = true) →
  known_file_boundary_or_end rest e = false → pending rest e.
Proof. intros [->|(l & tl & -> & Hd)] Hk; simpl in *; done. Qed.

Lemma parse_file_body_silent c rest ix e s :
  let '(rest', _, s', body) := parse_file_body c rest ix e s in
  scan_inv s → scan_diagnostics s' = [] →
  ∃ lines, body = (if decide (ctx_kind c = OpAdd) then BAdd {| add_lines := lines |}
                   else BReplace {| replace_lines := lines |}) ∧
    (lines ≠ [] ∨ pending rest' e).
Proof.
  unfold parse_file_body. pose proof (parse_content_silent c rest ix s []) as Hc.
  pose proof (parse_content_reads c rest ix s []) as Hr.
  destruct (parse_content c rest ix s []) as [[[r i] s1] values]. intros Hs H0.
  destruct Hr as (_ & Hg & Hi).
  exists values. split; [done|]. destruct (bool_decide (i = ix) && _ && _) eqn:Hb.
  { by apply add_speaks in H0; [|auto]. }
  destruct (Hc Hs H0) as [Hhead Hlen]. simpl in Hlen.
  rewrite (silent_running s1), andb_true_r in Hb by auto.
  apply andb_false_iff in Hb as [Hb|Hb].
  - apply bool_decide_eq_false in Hb. left. intros ->. simpl in Hlen. lia.
  - right. by apply file_boundary_pending.
Qed.

Lemma parse_hunk_lines_silent c rest : ∀ ix s lines,
  let '(rest', _, s', lines', invalid) := parse_hunk_lines c rest ix s lines false in
  scan_inv s → scan_diagnostics s' = [] →
  (rest' = [] ∨ ∃ l tl, rest' = l :: tl ∧ ends_hunk l = true) ∧ invalid = false.
Proof.
  induction rest as [|line tl IH]; intros ix s lines; simpl; [by auto|].
  destruct (ends_hunk line) eqn:Hd; [by eauto 8|].
  destruct (hunk_line line) as [v|].
  - destruct (stopped s) eqn:Hs; [intros; by rewrite silent_running in Hs|].
    specialize (IH (ix + 1) s (lines ++ [v])). by destruct (parse_hunk_lines _ _ _ _ _ _) as [[[[r i] s'] v'] b].
  - set (s1 := add s _). pose proof (parse_hunk_lines_reads c tl (ix + 1) s1 lines true) as Hr.
    destruct (stopped s1); [intros Hi H0; by apply add_speaks in H0|].
    destruct (parse_hunk_lines _ _ _ _ _ _) as [[[[r i] s'] v'] b]. intros Hi H0.
    destruct Hr as (_ & Hg & _). apply (grows_silent _ _ Hg) in H0. by apply add_speaks in H0.
Qed.

Definition hunk_ok (h : Hunk) : Prop := hunk_lines h ≠ [] ∨ end_of_file h = true.

Lemma parse_hunk_silent c header n rest ix e s :
  let '(rest', _, s', h) := parse_hunk c header n rest ix e s in
  scan_inv s → scan_diagnostics s' = [] → hunk_ok h ∨ pending rest' e.
Proof.
  unfold parse_hunk, hunk_ok. pose proof (parse_hunk_lines_silent c rest ix s []) as Hc.
  pose proof (parse_hunk_lines_reads c rest ix s [] false) as Hr.
  destruct (parse_hunk_lines _ _ _ _ _ _) as [[[[r i] s1] lines] invalid].
  destruct Hr as (_ & Hg & Hi). pose proof (take_eof_marker_spec r i) as Hm.
  destruct (take_eof_marker r i) as [[r' i'] eof]. intros Hs H0. simpl.
  destruct Hm as [_ [->|[-> ->]]]; [by left; right|].
  destruct (decide (lines = [])) as [->|]; [|by left; left]. right.
  destruct (bool_decide _ && _ && _ && _ && _) eqn:Hb; [by apply add_speaks in H0; [|auto]|].
  destruct (Hc Hs H0) as [Hhead ->]. rewrite (silent_running s1), bool_decide_true in Hb by auto.
  simpl in Hb. apply orb_false_iff in Hb as [Hf Hh]. apply file_boundary_pending; [|done].
  destruct Hhead as [->|(l & tl & -> & Hd)]; [by left|]. right. exists l, tl. split; [done|].
  unfold ends_hunk in Hd. by rewrite Hh in Hd.
Qed.

(** The counts a hunk loop keeps within the limits. *)
Definition hunk_limits (limits : PatchLimits) (hs : list Hunk) (total : N) : Prop :=
  N.of_nat (length hs) ≤ max_chunks_per_update limits ∧ total ≤ max_total_hunks limits.

Lemma parse_hunks_silent limits c fuel : ∀ rest ix e s hs total,
  (length rest ≤ fuel)%nat → scan_inv s → hunk_limits limits hs total →
  (Forall hunk_ok hs ∨ pending rest e) →
  match parse_hunks fuel limits c rest ix e s hs false total with
  | Some (rest', _, s', hs', missing', total') =>
      scan_diagnostics s' = [] →
      hunk_limits limits hs' total' ∧ (Forall hunk_ok hs' ∨ pending rest' e) ∧ missing' = false ∧
      total' + N.of_nat (length hs) = total + N.of_nat (length hs') ∧
      (length hs ≤ length hs')%nat ∧ (rest' = rest ∨ hs' ≠ [])
  | None => False
  end.
Proof.
  induction fuel as [|fuel IH]; intros rest ix e s hs total Hf Hi Hl Hok.
  { destruct rest; [|simpl in Hf; lia]. simpl. by auto 8. }
  destruct rest as [|line tl]; simpl; [by auto 8|].
  destruct (is_directive line || stopped s) eqn:Hstop; [by auto 8|].
  apply orb_false_iff in Hstop as [Hd Hrun]. simpl in Hf.
  destruct (is_hunk_header line) eqn:Hh; simpl; cycle 1.
  { unfold ends_hunk at 1. rewrite Hh, Hd. simpl.
    pose proof (skip_until_suffix ends_hunk tl (ix + 1)) as Hs%suffix_length.
    destruct (skip_until ends_hunk tl (ix + 1)) as [r i]. simpl in Hs. set (s1 := add s _).
    destruct (parse_hunks_reads limits c fuel r i e s1 hs true total) as (?&?&?&?&?&?&->&_&Hg&_); [lia|].
    intros H0. apply (grows_silent _ _ Hg) in H0. by apply add_speaks in H0. }
  assert (Forall hunk_ok hs) as Hhs.
  { destruct Hok as [?|[? _]]; [done|]. congruence. }
  destruct (_ || _) eqn:Hlim.
  { case_decide; intros H0; by apply stop_speaks in H0. }
  apply orb_false_iff in Hlim as [Hc%bool_decide_eq_false Ht%bool_decide_eq_false].
  pose proof (parse_hunk_reads c line (ix + 1) tl (ix + 1) e s) as Hr.
  pose proof (parse_hunk_silent c line (ix + 1) tl (ix + 1) e s) as Hsil.
  destruct (parse_hunk _ _ _ _ _ _ _) as [[[r i] s1] h]. pose proof (reads_length _ _ _ _ Hr) as Hlr.
  destruct Hr as (_ & Hg & Hi1). assert (length r ≤ fuel)%nat as Hfr by lia. clear Hlr.
  destruct (decide (scan_diagnostics s1 = [])) as [H1|H1]; cycle 1.
  { destruct (parse_hunks_reads limits c fuel r i e s1 (hs ++ [h]) false (total + 1))
      as (?&?&?&?&?&?&->&_&Hg1&_); [done|]. intros H0. by apply (grows_silent _ _ Hg1) in H0. }
  specialize (IH r i e s1 (hs ++ [h]) (total + 1)).
  assert (hunk_limits limits (hs ++ [h]) (total + 1)) as Hl1.
  { unfold hunk_limits in *. rewrite length_app. simpl. lia. }
  assert (Forall hunk_ok (hs ++ [h]) ∨ pending r e) as Hok1.
  { destruct (Hsil Hi H1); [left; apply Forall_app; by auto|by right]. }
  destruct (parse_hunks _ _ _ _ _ _ _ _ _ _) as [[[[[[r' i'] s'] hs'] m'] t']|]; [|by apply IH; auto].
  intros H0. destruct (IH ltac:(done) ltac:(auto) Hl1 Hok1 H0) as (? & ? & ? & Hlen & Hle & _).
  rewrite length_app in Hlen, Hle. simpl in Hlen, Hle. repeat (split; [done || lia|]). right.
  intros ->. simpl in Hle. lia.
Qed.

Definition body_hunks (b : OperationBody) : N :=
  match b with BUpdate u => N.of_nat (length (hunks u)) | _ => 0 end.
Definition body_ok (limits : PatchLimits) (kind : OperationKind) (moved : Prop) (b : OperationBody) : Prop :=
  match kind, b with
  | OpAdd, BAdd f => add_lines f ≠ []
  | OpReplace, BReplace f => replace_lines f ≠ []
  | OpDelete, BDelete => True
  | OpUpdate, BUpdate u =>
      N.of_nat (length (hunks u)) ≤ max_chunks_per_update limits ∧ Forall hunk_ok (hunks u) ∧
      (hunks u ≠ [] ∨ moved)
  | _, _ => False
  end.

Lemma parse_body_silent limits c rest ix e s moves total :
  scan_inv s → total ≤ max_total_hunks limits →
  let known := known_file_boundary_or_end rest e ||
               match rest with line :: _ => negb (is_directive line) | [] => false end in
  match parse_body limits c rest ix e s moves known total with
  | Some (rest', _, s', body, total') =>
      scan_diagnostics s' = [] →
      (body_ok limits (ctx_kind c) (moves = true) body ∨ pending rest' e) ∧
      total' = total + body_hunks body ∧ total' ≤ max_total_hunks limits
  | None => False
  end.
Proof.
  intros Hi Ht known. unfold parse_body. destruct (ctx_kind c) eqn:Hk.
  1, 2: pose proof (parse_file_body_silent c rest ix e s) as Hs;
    destruct (parse_file_body _ _ _ _ _) as [[[r i] s'] body]; intros H0;
    destruct (Hs Hi H0) as (lines & -> & Hor); rewrite Hk; simpl;
    (split; [|lia]); destruct Hor; auto.
  - unfold parse_update_body.
    pose proof (parse_hunks_silent limits c (length rest) rest ix e s [] total) as Hs.
    pose proof (parse_hunks_reads limits c (length rest) rest ix e s [] false total) as Hr.
    destruct Hr as (r & i & s' & hs & m & t & Heq & (_ & _ & Hi')); [done|]. rewrite Heq in *. simpl.
    specialize (Hs ltac:(done) Hi ltac:(unfold hunk_limits; simpl; lia) ltac:(left; constructor)).
    destruct (bool_decide (hs = []) && _ && _ && _ && _) eqn:Hb.
    { intros H0. by apply add_speaks in H0; [|auto]. }
    intros H0. destruct (Hs H0) as ([Hl1 Hl2] & Hok & -> & Hlen & _ & Hsame). simpl in Hlen.
    split; [|split; [lia|done]]. destruct Hok as [Hok|?]; [|by right].
    destruct (decide (hs = [])) as [->|Hne]; [|left; split; [done|split; [done|by left]]].
    rewrite (silent_running s'), bool_decide_true in Hb by auto. simpl in Hb.
    destruct moves; [left; split; [done|split; [done|by right]]|]. simpl in Hb.
    right. destruct Hsame as [->|]; [|done]. rewrite !andb_true_r in Hb. unfold known in Hb.
    apply orb_false_iff in Hb as [Hk1 Hk2]. apply file_boundary_pending; [|done].
    destruct rest as [|l tl]; [by left|right; exists l, tl]. split; [done|]. by destruct (is_directive l).
  - unfold parse_delete_body. destruct rest as [|line tl]; [intros _; simpl; split; [by left|lia]|].
    destruct (is_directive line); [intros _; simpl; split; [by left|lia]|].
    destruct (skip_until _ _ _) as [r i]. intros _. simpl. split; [by left|lia].
Qed.

(** A well-formed operation. *)
Definition op_wf (limits : PatchLimits) (op : Operation) : Prop :=
  path_ok (max_path_bytes limits) (op_path op) ∧
  body_ok limits (op_kind op) (is_Some (move_to op)) (op_body op) ∧
  ∀ t, move_to op = Some t → op_kind op = OpUpdate ∧ path_ok (max_path_bytes limits) t.

Lemma body_ok_mono limits kind (m1 m2 : Prop) b : (m1 → m2) → body_ok limits kind m1 b → body_ok limits kind m2 b.
Proof. intros Hm. destruct kind, b; simpl; tauto. Qed.

Lemma parse_operation_silent limits e line tl p p' b :
  parse_operation limits e line tl p = Some (p', b) →
  scan_inv (syntax p) → scan_diagnostics (syntax p') = [] → hunks_seen p ≤ max_total_hunks limits →
  ¬ pending (line :: tl) e ∧ b = false ∧ operations_seen p < max_operations limits ∧
  operations_seen p' = operations_seen p + 1 ∧ hunks_seen p' ≤ max_total_hunks limits ∧
  ∃ op, parsed p' = parsed p ++ [op] ∧ (op_wf limits op ∨ pending (at_rest p') e) ∧
    hunks_seen p' = hunks_seen p + body_hunks (op_body op).
Proof.
  intros H Hi H0 Ht. unfold parse_operation in H. cbv zeta in H.
  destruct (bool_decide (max_operations _ ≤ _)) eqn:Hmax.
  { simplify_eq. by apply stop_speaks in H0. }
  apply bool_decide_eq_false in Hmax.
  destruct (file_directive line) as [[kind raw]|] eqn:Hdir; cycle 1.
  { simplify_eq. by apply stop_speaks in H0. }
  assert (¬ pending (line :: tl) e) as Hnp.
  { intros [_ Hf]. unfold is_file_directive, starts_with in Hf. unfold file_directive in Hdir.
    rewrite !orb_false_iff, !bool_decide_eq_false, <-!eq_None_not_Some in Hf.
    destruct Hf as [[[Hf1 Hf2] Hf3] Hf4]. by rewrite Hf1, Hf2, Hf3, Hf4 in Hdir. }
  destruct (parse_path raw _ _) as [path|err] eqn:Hpath; cycle 1.
  - set (s1 := add (syntax p) _) in H. set (c := {| ctx_index := _ |}) in H.
    pose proof (parse_directives_reads limits c tl (at_index p + 1) s1 no_directives) as Hr.
    destruct (parse_directives _ _ _ _ _ _) as [[[r i] s2] d]. destruct Hr as (_ & Hg & _).
    assert (scan_diagnostics s2 ≠ []) as H2.
    { intros H2. apply (grows_silent _ _ Hg) in H2. by apply add_speaks in H2. }
    destruct (stopped s2); [by simplify_eq|].
    match type of H with context [parse_body ?l ?c ?r ?i ?e ?s ?m ?k ?t] =>
      destruct (parse_body_reads l c r i e s m k t) as (r' & i' & s' & body & total & Heq & _ & Hg' & _) end.
    rewrite Heq in H. simpl in H. simplify_eq. by apply (grows_silent _ _ Hg') in H0.
  - set (c := {| ctx_index := _ |}) in H.
    pose proof (parse_directives_reads limits c tl (at_index p + 1) (syntax p) no_directives) as Hr.
    pose proof (parse_directives_silent limits c tl (at_index p + 1) (syntax p) no_directives) as Hsil.
    destruct (parse_directives _ _ _ _ _ _) as [[[r i] s2] d]. destruct Hr as (_ & _ & Hi2).
    specialize (Hi2 Hi). destruct (stopped s2) eqn:Hstop.
    { simplify_eq. simpl in H0. by rewrite silent_running in Hstop. }
    pose proof (parse_body_silent limits c r i e s2 (dir_move_present d) (hunks_seen p) Hi2 Ht) as Hb.
    cbv zeta in Hb.
    match type of H with context [parse_body ?l ?c ?r ?i ?e ?s ?m ?k ?t] =>
      destruct (parse_body_reads l c r i e s m k t) as (r' & i' & s' & body & total & Heq & _ & Hg' & _) end.
    rewrite Heq in *. simpl in H. simplify_eq. simpl in *.
    destruct (Hb H0) as (Hbody & Htot & Hle).
    pose proof (grows_silent _ _ Hg' H0) as H2.
    destruct (Hsil Hi H2) as [Hm1 Hm2]; [by split|].
    split; [done|]. split; [done|]. split; [lia|]. split; [done|]. split; [done|].
    eexists. split; [done|]. split; [|done]. destruct Hbody as [Hbody|?]; [left|by right].
    split; [by eapply parse_path_ok|]. simpl. split.
    + eapply body_ok_mono; [|exact Hbody]. intros Hm. by apply Hm1.
    + intros t Hmv. destruct (Hm2 t Hmv) as [? Hpr]. split; [by apply Hm1|done].
Qed.

Definition hunk_count (ops : list Operation) : N := sum_N (body_hunks ∘ op_body <$> ops).

Record parser_ok (limits : PatchLimits) (e : bool) (p : parser) : Prop := {
  ok_operations : operations_seen p = N.of_nat (length (parsed p));
  ok_operation_limit : operations_seen p ≤ max_operations limits;
  ok_hunks : hunks_seen p = hunk_count (parsed p);
  ok_hunk_limit : hunks_seen p ≤ max_total_hunks limits;
  ok_wf : Forall (op_wf limits) (parsed p) ∨ pending (at_rest p) e;
}.

Lemma parse_operations_silent limits e fuel : ∀ p p',
  parse_operations fuel limits e p = Some p' → (length (at_rest p) ≤ fuel)%nat →
  scan_inv (syntax p) → scan_diagnostics (syntax p') = [] → parser_ok limits e p →
  parser_ok limits e p' ∧ at_rest p' = [] ∧
  (length (parsed p) + (if at_rest p is [] then 0 else 1) ≤ length (parsed p'))%nat.
Proof.
  induction fuel as [|fuel IH]; intros p p' H Hf Hi H0 Hok; destruct (at_rest p) as [|line tl] eqn:Hr;
    simpl in Hf; try lia; simpl in H; rewrite Hr in H.
  1, 2: simplify_eq; split; [done|]; split; [done|lia].
  pose proof (parse_operation_reads limits e line tl p) as (p1 & b & Heq & (_ & Hg & Hi1) & Hlen).
  destruct (stopped (syntax p)) eqn:Hs.
  { simplify_eq. by rewrite silent_running in Hs. }
  rewrite Heq in H. simpl in H. destruct Hok as [O1 O2 O3 O4 O5].
  assert (scan_diagnostics (syntax p1) = []) as H1.
  { destruct b; [by simplify_eq|]. destruct (parse_operations_reads limits e fuel p1) as (p2 & Hp2 & _ & Hg2 & _).
    { specialize (Hlen eq_refl). lia. }
    rewrite Hp2 in H. simplify_eq. by eapply grows_silent. }
  destruct (parse_operation_silent _ _ _ _ _ _ _ Heq Hi H1 O4)
    as (Hnp & -> & Hlim & Hseen & Hle & op & Hparsed & Hop & Hcount).
  destruct O5 as [O5|O5]; [|by rewrite Hr in O5].
  destruct (IH p1 p' H) as (Hok' & Hrest & Hmore); try done; [|by auto| |].
  - specialize (Hlen eq_refl). lia.
  - constructor; rewrite ?Hparsed, ?Hseen, ?Hcount.
    + rewrite length_app, O1. simpl. lia.
    + lia.
    + unfold hunk_count in *. rewrite fmap_app, sum_N_app, O3. simpl. unfold sum_N. simpl. lia.
    + by rewrite <-Hcount.
    + destruct Hop; [left; apply Forall_app; by auto|by right].
  - split; [done|]. split; [done|]. rewrite Hparsed, length_app in Hmore. simpl in Hmore.
    destruct (at_rest p1); lia.
Qed.

Lemma position_Some p l n : position p l = Some n → ∃ x, l !! n = Some x ∧ p x = true.
Proof.
  revert n; induction l as [|x l IH]; intros n; simpl; [done|]. destruct (p x) eqn:Hp.
  - intros [= <-]. by exists x.
  - destruct (position p l) as [m|]; [|done]. intros [= <-]. by apply IH.
Qed.

(** C39: an accepted document is well formed and within every limit. It has at
    least one operation and at most the allowed number; every path is non-empty,
    free of NUL and within the byte limit; every Add and Replace has content,
    every Update a hunk or a move, every hunk a line or the end-of-file marker,
    a move only an Update, and bodies are of their operation's kind; hunks are
    within the per-update and total limits and the text within its size, which
    with its hash is recorded in the document. *)
Theorem accepted_document_wf (sha256 : text → list N) (patch : text) (limits : PatchLimits)
    (doc : PatchDocument) (H : parse_validated sha256 patch limits = Some (Ok doc)) :
  Forall (op_wf limits) (operations doc) ∧ operations doc ≠ [] ∧
  N.of_nat (length (operations doc)) ≤ max_operations limits ∧
  hunk_count (operations doc) ≤ max_total_hunks limits ∧
  byte_len patch ≤ max_patch_bytes limits ∧ input_bytes doc = byte_len patch ∧
  payload_hash doc = sha256 patch.
Proof.
  unfold parse_validated in H. case_decide as Hsize; [done|].
  destruct (blank patch); [done|]. destruct (bool_decide (head _ = _)) eqn:Hbegin; [|done]. simpl in H.
  apply bool_decide_eq_true in Hbegin.
  set (lines := strip_cr <$> _) in *. set (end_at := position _ lines) in *.
  set (stop_at := body_end patch lines end_at) in *.
  assert (before_operations limits (new_scan limits)) as Hb0 by (split; [reflexivity|apply new_scan_inv]).
  destruct (envelope_before limits lines end_at stop_at _ Hb0) as [_ Hi].
  set (s1 := envelope lines end_at stop_at (new_scan limits)) in *.
  match type of H with context [parse_operations _ _ ?e ?p] =>
    pose proof (parse_operations_reads limits e (length lines) p) as (p' & Heq & _ & Hg & _);
      [simpl; rewrite length_drop, length_take; lia|];
    pose proof (parse_operations_silent limits e (length lines) p p' Heq) as Hsil end.
  rewrite Heq in H. simpl in H, Hg, Hsil.
  destruct (close_scan_core lines end_at (syntax p')) as [Hd _]. rewrite Hd in H.
  destruct (decide _) as [H0|]; [|done]. injection H as <-. simpl.
  pose proof (grows_silent _ _ Hg H0) as H1. unfold s1, envelope in H1.
  destruct end_at as [n|] eqn:Hend; cycle 1.
  { destruct (decide (stop_at = 1%nat)); [apply (grows_silent _ _ (add_grows _ _)) in H1|];
      by apply add_speaks in H1; [|apply new_scan_inv]. }
  destruct (decide (stop_at = 1%nat)) as [|Hone].
  { case_match; by apply add_speaks in H1; [|eauto using new_scan_inv, add_inv]. }
  unfold end_at in Hend. apply position_Some in Hend as (x & Hx & Hxe%bool_decide_eq_true).
  pose proof (lookup_lt_Some _ _ _ Hx) as Hn.
  assert (stop_at = n) as Hstop by done.
  destruct Hsil as ([O1 O2 O3 O4 O5] & Hrest & Hlen); try done.
  - rewrite length_drop, length_take. lia.
  - constructor; simpl; try done; try lia. left. constructor.
  - rewrite Hrest in O5. destruct O5 as [O5|O5]; [|by unfold pending in O5].
    split; [done|]. split; [|split; [lia|split; [lia|split; [lia|done]]]].
    intros Hnil. rewrite Hnil in Hlen. simpl in Hlen.
    destruct (drop 1 (take stop_at lines)) eqn:Hdrop; [|lia].
    apply (f_equal length) in Hdrop. rewrite length_drop, length_take in Hdrop. simpl in Hdrop.
    assert (n = 0%nat) as -> by lia. destruct lines as [|l ls]; [done|]. simpl in *. by simplify_eq.
Qed.

(** ** Concrete patches *)
Definition patch_of (lines : list string) : text := join_lines (lit <$> lines).
Definition no_hash (_ : text) : list N := [].
Definition parse_with (limits : PatchLimits) (lines : list string) : option (result ParseFailure PatchDocument) :=
  parse_validated no_hash (patch_of lines) limits.
Definition codes (r : option (result ParseFailure PatchDocument)) : list (ParseErrorCode * N) :=
  match r with
  | Some (Err f) => (λ e, (err_code e, err_line e)) <$> diagnostics f
  | _ => []
  end.

Definition sample_lines : list string :=
  ["*** Begin Patch"; "*** Add File: new.txt"; "+hello"; "*** Update File: old.txt";
   "*** If-Match: sha256:00"; "*** Move to: moved.txt"; "@@ fn main"; "-a"; "+b"; " c";
   "*** End of File"; "*** Delete File: gone.txt"; "*** End Patch"].
Definition sample_document : PatchDocument :=
  {| schema_version := 1; input_bytes := byte_len (patch_of sample_lines);
     operations :=
       [{| op_kind := OpAdd; op_path := lit "new.txt"; source_guard := None; destination_guard := None;
           source_guard_line := None; destination_guard_line := None; move_to := None;
           op_body := BAdd {| add_lines := [lit "hello"] |}; op_header_line := 2 |};
        {| op_kind := OpUpdate; op_path := lit "old.txt"; source_guard := Some (IfMatch (lit "sha256:00"));
           destination_guard := None; source_guard_line := Some 5; destination_guard_line := None;
           move_to := Some (lit "moved.txt");
           op_body := BUpdate {| hunks := [{| hunk_context := Some (lit "fn main");
             hunk_lines := [HRemove (lit "a"); HAdd (lit "b"); HContext (lit "c")];
             end_of_file := true; hunk_header_line := 7 |}] |}; op_header_line := 4 |};
        {| op_kind := OpDelete; op_path := lit "gone.txt"; source_guard := None;
           destination_guard := None; source_guard_line := None; destination_guard_line := None;
           move_to := None; op_body := BDelete; op_header_line := 12 |}];
     payload_hash := [] |}.

Lemma accepted_document_wf_witness :
  Forall (op_wf default_limits) (operations sample_document) ∧
  N.of_nat (length (operations sample_document)) = 3.
Proof.
  split; [|reflexivity].
  apply (accepted_document_wf no_hash (patch_of sample_lines) default_limits sample_document).
  vm_compute. reflexivity.
Defined.

(** Cases of the source's tests. *)
Example recovers_independent_errors :
  codes (parse_with default_limits
    ["*** Begin Patch"; "*** Add File: a"; "x"; "+ok"; "*** Delete File: b"; "body";
     "*** Update File: c"; "-x"; "*** End Patch"]) =
    [(MissingAddPrefix, 3); (DeleteHasBody, 6); (MissingHunk, 8)] ∧
  codes (parse_with default_limits
    ["*** Begin Patch"; "*** Update File: a"; "@@"; "bad"; "*** Surprise"; "*** End Patch"]) =
    [(InvalidHunkLine, 4); (UnknownDirective, 5)] ∧
  codes (parse_with default_limits ["*** Begin Patch"; "*** End Patch"; "tail"]) =
    [(EmptyInput, 2); (TrailingContent, 3)].
Proof. by vm_compute. Qed.
