(* ===== verification/PatchGuards.v ===== *)
(** * Version tokens and guards

    Models the version tokens of
    [crates/tools/src/apply_patch/file_mutation/mod.rs] and the validation of
    guard directives in [crates/tools/src/apply_patch/guards.rs]. The hex codec
    is a third-party crate: a class of two functions and their documented laws. *)
From S2P Require Import Prelude Decimal TextSplit PatchDocument PatchParser.
Local Open Scope N_scope.

(** ** Characters *)
Definition is_lower_hex (c : N) : bool := is_digit c || bool_decide (97 ≤ c ∧ c ≤ 102).
(** [u8::is_ascii_hexdigit] and [u8::is_ascii_uppercase]. *)
Definition is_hexdigit (c : N) : bool := is_lower_hex c || bool_decide (65 ≤ c ∧ c ≤ 70).
Definition is_uppercase (c : N) : bool := bool_decide (65 ≤ c ∧ c ≤ 90).


(** ** The hex codec *)
Class HexCodec := {
  hex_encode : list N → text;
  hex_decode : text → option (list N);
}.
Class HexLaws (H : HexCodec) := {
  hex_encode_length d : length (hex_encode d) = (2 * length d)%nat;
  hex_encode_lower d : Forall (λ c, is_lower_hex c = true) (hex_encode d);
  hex_decode_encode d : Forall (λ b, b < 256) d → hex_decode (hex_encode d) = Some d;
  hex_encode_decode s d :
    Forall (λ c, is_lower_hex c = true) s → hex_decode s = Some d →
    hex_encode d = s ∧ Forall (λ b, b < 256) d;
  hex_decode_total s :
    Forall (λ c, is_lower_hex c = true) s → Nat.even (length s) = true → is_Some (hex_decode s);
}.

(** ** Version tokens *)
Record FileVersionToken := { token_digest : list N; token_byte_len : N }.
#[export] Instance FileVersionToken_eq_dec : EqDecision FileVersionToken.
Proof. solve_decision. Defined.

Definition FILE_VERSION_TOKEN_PREFIX : text := lit "sha256:".
Inductive TokenError :=
  | TokenPrefix | TokenSplit | TokenNotCanonical | TokenDigest | TokenDigestLength | TokenLength.



(** [[u8]::len] of the ASCII pieces is the number of their characters. *)
Definition canonical_parts (digest_text length_text : text) : bool :=
  bool_decide (byte_len digest_text = 64) && forallb is_hexdigit digest_text &&
  negb (existsb is_uppercase digest_text) && negb (bool_decide (length_text = [])) &&
  negb (leading_zero length_text) && forallb is_digit length_text.

Section tokens.
Context `{H : HexCodec}.

Definition parse_token (value : text) : result TokenError FileVersionToken :=
  rest ← ok_or (strip_prefix FILE_VERSION_TOKEN_PREFIX value) TokenPrefix;
  '(digest_text, length_text) ← ok_or (split_once 58 rest) TokenSplit;
  ensure (canonical_parts digest_text length_text) TokenNotCanonical;;
  digest ← ok_or (hex_decode digest_text) TokenDigest;
  ensure (bool_decide (length digest = 32%nat)) TokenDigestLength;;
  len ← ok_or (parse_u64 length_text) TokenLength;
  Ok {| token_digest := digest; token_byte_len := len |}.

Definition display_token (t : FileVersionToken) : text :=
  FILE_VERSION_TOKEN_PREFIX ++ hex_encode (token_digest t) ++ 58 :: display_u64 (token_byte_len t).

End tokens.

(** ** Tokens are canonical *)
Lemma forallb_Forall {A} (f : A → bool) l : forallb f l = true ↔ Forall (λ x, f x = true) l.
Proof. rewrite forallb_forall, Forall_forall. by setoid_rewrite list_elem_of_In. Qed.
Lemma existsb_Forall {A} (f : A → bool) l : existsb f l = false ↔ Forall (λ x, f x = false) l.
Proof.
  induction l as [|x l IH]; simpl; [by split|]. rewrite orb_false_iff, Forall_cons, IH. done.
Qed.

Lemma lower_hex_chars s :
  Forall (λ c, is_lower_hex c = true) s ↔
  forallb is_hexdigit s = true ∧ existsb is_uppercase s = false.
Proof.
  rewrite forallb_Forall, existsb_Forall, <-Forall_and. apply Forall_iff. intros c.
  unfold is_hexdigit, is_lower_hex, is_digit, is_uppercase.
  repeat case_bool_decide; simpl; naive_solver lia.
Qed.

Lemma ascii_byte_len s : Forall (λ c, c < 128) s → byte_len s = N.of_nat (length s).
Proof.
  induction 1 as [|c s Hc _ IH]; [done|]. simpl. rewrite IH. unfold len_utf8.
  rewrite decide_True by done. lia.
Qed.
Lemma hexdigit_ascii s : forallb is_hexdigit s = true → Forall (λ c, c < 128) s.
Proof.
  rewrite forallb_Forall. intros Hs. eapply Forall_impl; [exact Hs|]. intros c.
  unfold is_hexdigit, is_lower_hex, is_digit. repeat case_bool_decide; simpl; lia || done.
Qed.

Definition token_ok (t : FileVersionToken) : Prop :=
  length (token_digest t) = 32%nat ∧ Forall (λ b, b < 256) (token_digest t) ∧
  token_byte_len t ≤ U64_MAX.

Lemma canonical_parts_spec a b :
  canonical_parts a b = true ↔
  length a = 64%nat ∧ Forall (λ c, is_lower_hex c = true) a ∧ numeral b.
Proof.
  unfold canonical_parts, numeral. rewrite !andb_true_iff, !negb_true_iff, bool_decide_eq_true,
    bool_decide_eq_false, lower_hex_chars, !forallb_Forall.
  split.
  - intros (((((Hl & Hh) & Hu) & Hne) & Hz) & Hd). rewrite ascii_byte_len in Hl by (by apply hexdigit_ascii, forallb_Forall).
    repeat split; try done. lia.
  - intros (Hl & [Hh Hu] & Hd & Hne & Hz). rewrite ascii_byte_len by (by apply hexdigit_ascii, forallb_Forall).
    repeat split; try done. lia.
Qed.

(** version tokens are canonical. The parser accepts exactly the texts the
    formatter writes, and gives back the token they were written for: a 32-byte
    digest in lower-case hex and a length that fits 64 bits, without leading
    zeros, so that two different texts never denote the same version. *)
Theorem token_parse_display (H : HexCodec) (Hlaws : HexLaws H) (value : text) (t : FileVersionToken) :
  parse_token value = Ok t ↔ token_ok t ∧ value = display_token t.
Proof.
  unfold parse_token, display_token, token_ok. split.
  - intros Hp. simplify_result. destruct r0 as [digest_text length_text]. simplify_result.
    apply strip_prefix_Some in Hr as ->. apply split_once_Some in Hr0 as [-> _].
    apply canonical_parts_spec in Hr1 as (Hl & Hhex & Hnum).
    unfold parse_u64 in Hr4. case_decide as Hmax; [|done]. injection Hr4 as <-. simpl.
    destruct (hex_encode_decode _ _ Hhex Hr2) as [-> Hb].
    by rewrite display_decimal_value.
  - intros [(Hl & Hb & Hmax) ->]. destruct t as [d n]. cbn [token_digest token_byte_len] in *.
    rewrite (proj2 (strip_prefix_Some FILE_VERSION_TOKEN_PREFIX _ _) eq_refl).
    cbn [ok_or mbind result_bind].
    pose proof (hex_encode_lower d) as Hlow. pose proof (hex_encode_length d) as Hlen.
    rewrite split_once_app; cycle 1.
    { intros Hin. rewrite Forall_forall in Hlow. specialize (Hlow _ Hin). done. }
    simpl. destruct (display_u64_spec n Hmax) as (Hv & Hd & Hne & Hz).
    rewrite (proj2 (canonical_parts_spec _ _)) by (split; [lia|]; split; [done|]; by split). simpl.
    rewrite hex_decode_encode by done. simpl. rewrite bool_decide_true by done. simpl.
    unfold parse_u64. rewrite Hv, decide_True by done. done.
Qed.

(** ** A codec with the documented laws *)
Module SampleHex.
Definition hex_char (n : N) : N := if decide (n < 10) then 48 + n else 87 + n.
Definition hex_value (c : N) : N := if decide (c ≤ 57) then c - 48 else c - 87.
Definition encode (d : list N) : text :=
  d ≫= λ b, [hex_char ((b `div` 16) `mod` 16); hex_char (b `mod` 16)].
Fixpoint decode (s : text) : option (list N) :=
  match s with
  | [] => Some []
  | a :: b :: s =>
      if is_lower_hex a && is_lower_hex b
      then cons (16 * hex_value a + hex_value b) <$> decode s else None
  | _ => None
  end.
#[export] Instance codec : HexCodec := {| hex_encode := encode; hex_decode := decode |}.

Lemma hex_char_lower n : n < 16 → is_lower_hex (hex_char n) = true.
Proof.
  intros Hn. unfold is_lower_hex, is_digit, hex_char. apply orb_true_iff.
  rewrite !bool_decide_eq_true. case_decide; lia.
Qed.
Lemma hex_value_char n : n < 16 → hex_value (hex_char n) = n.
Proof. intros Hn. unfold hex_value, hex_char. repeat case_decide; lia. Qed.
Lemma hex_char_value c : is_lower_hex c = true → hex_char (hex_value c) = c ∧ hex_value c < 16.
Proof.
  unfold is_lower_hex, is_digit, hex_char, hex_value. rewrite orb_true_iff, !bool_decide_eq_true.
  intros. repeat case_decide; lia.
Qed.

#[export] Instance laws : HexLaws codec.
Proof.
  split; simpl.
  - intros d. induction d as [|b d IH]; [done|]. simpl. fold (encode d). lia.
  - intros d. induction d as [|b d IH]; [constructor|]. simpl.
    repeat constructor; [apply hex_char_lower; lia..|exact IH].
  - intros d. induction 1 as [|b d Hb _ IH]; [done|]. cbn [encode mbind list_bind app decode].
    fold (encode d). simpl. fold (encode d).
    rewrite !hex_char_lower, IH, !hex_value_char by lia. simpl. do 2 f_equal. lia.
  - intros s. induction s as [s IH] using (induction_ltof1 _ length). intros d Hs.
    destruct s as [|a [|b s]]; simpl; [by intros [= <-]; split|done|].
    inversion_clear Hs as [|?? Ha Hs']. inversion_clear Hs' as [|?? Hb Hs].
    rewrite Ha, Hb. simpl. destruct (decode s) as [d'|] eqn:Hd; [|done]. intros [= <-].
    destruct (IH s ltac:(unfold ltof; simpl; lia) d' Hs Hd) as [He Hf].
    destruct (hex_char_value a Ha), (hex_char_value b Hb). split; [|constructor; [lia|done]].
    unfold encode in *. rewrite bind_cons, He. simpl.
    replace (((16 * hex_value a + hex_value b) `div` 16) `mod` 16) with (hex_value a) by lia.
    replace ((16 * hex_value a + hex_value b) `mod` 16) with (hex_value b) by lia. congruence.
  - intros s. induction s as [s IH] using (induction_ltof1 _ length). intros Hs He.
    destruct s as [|a [|b s]]; simpl; [by eexists|done|].
    inversion_clear Hs as [|?? Ha Hs']. inversion_clear Hs' as [|?? Hb Hs]. rewrite Ha, Hb. simpl.
    destruct (IH s ltac:(unfold ltof; simpl; lia) Hs He) as [d ->]. by eexists.
Qed.
End SampleHex.

Definition sample_token : FileVersionToken :=
  {| token_digest := replicate 32 171; token_byte_len := 1024 |}.
Lemma token_parse_display_witness :
  @parse_token SampleHex.codec (@display_token SampleHex.codec sample_token) = Ok sample_token.
Proof.
  apply (token_parse_display SampleHex.codec SampleHex.laws). split; [|reflexivity].
  split; [reflexivity|]. split; [|vm_compute; discriminate].
  repeat constructor.
Defined.

(** ** Guards of validated operations *)
Inductive DestinationGuard := MustNotExist | Exact (version : FileVersionToken).
#[export] Instance DestinationGuard_eq_dec : EqDecision DestinationGuard.
Proof. solve_decision. Defined.

Record ValidatedOperation := {
  operation : Operation;
  v_source_guard : option FileVersionToken;
  v_destination_guard : option DestinationGuard;
}.
Definition kind (v : ValidatedOperation) : OperationKind := op_kind (operation v).
Definition path (v : ValidatedOperation) : text := op_path (operation v).

Record ValidatedPatchDocument := {
  v_schema_version : N;
  v_input_bytes : N;
  v_payload_hash : list N;
  v_operations : list ValidatedOperation;
}.

Inductive GuardErrorCode :=
  | MissingRequiredSourceGuard | InvalidSourceGuard | InvalidDestinationGuard
  | InapplicableGuard | DuplicateGuard.
Record GuardError := {
  guard_code : GuardErrorCode;
  guard_operation_index : N;
  guard_line : N;
  guard_operation : OperationKind;
  guard_path : option text;
  guard_message : string;
}.
Definition guard_error (code : GuardErrorCode) (c : GuardCandidate) (line : N) (message : string)
    : GuardError :=
  {| guard_code := code; guard_operation_index := gc_operation_index c; guard_line := line;
     guard_operation := gc_kind c; guard_path := gc_path c; guard_message := message |}.

Section validation.
Context `{H : HexCodec}.

(** The checks push to the list of diagnostics they are given. *)
Definition check_source_guard (syntax : GuardSyntax) (c : GuardCandidate) (line : N)
    (diagnostics : list GuardError) : option FileVersionToken * list GuardError :=
  match syntax with
  | IfMatch token =>
      match parse_token token with
      | Ok token => (Some token, diagnostics)
      | Err _ => (None, diagnostics ++
          [guard_error InvalidSourceGuard c line "If-Match is not a canonical version token"])
      end
  | IfDestinationAbsent | IfDestinationVersion _ =>
      (None, diagnostics ++
        [guard_error InvalidSourceGuard c line "destination guard cannot occupy If-Match"])
  end.

Definition check_destination_guard (syntax : GuardSyntax) (c : GuardCandidate) (line : N)
    (diagnostics : list GuardError) : option DestinationGuard * list GuardError :=
  match syntax with
  | IfDestinationAbsent => (Some MustNotExist, diagnostics)
  | IfDestinationVersion token =>
      match parse_token token with
      | Ok token => (Some (Exact token), diagnostics)
      | Err _ => (None, diagnostics ++ [guard_error InvalidDestinationGuard c line
                          "If-Destination is not absent or a canonical version token"])
      end
  | IfMatch _ =>
      (None, diagnostics ++
        [guard_error InvalidDestinationGuard c line "If-Match cannot occupy If-Destination"])
  end.

Definition check_repeated (c : GuardCandidate) (diagnostics : list GuardError)
    (r : GuardDirectiveCandidate) : list GuardError :=
  match cand_syntax r with
  | IfMatch _ => snd (check_source_guard (cand_syntax r) c (cand_line r) diagnostics)
  | _ => snd (check_destination_guard (cand_syntax r) c (cand_line r) diagnostics)
  end.

Definition inapplicable (c : GuardCandidate) : bool :=
  let has {A} (o : option A) := bool_decide (is_Some o) in
  match gc_kind c with
  | OpAdd => has (gc_source_guard c) || has (gc_destination_guard c) || move_present c
  | OpReplace | OpDelete => has (gc_destination_guard c) || move_present c
  | OpUpdate => move_presence_known c && negb (move_present c) && has (gc_destination_guard c)
  end.

Definition inapplicable_message (k : OperationKind) : string :=
  match k with
  | OpAdd => "Add File accepts no guards or move destination"
  | OpReplace | OpDelete => "operation cannot carry a destination guard"
  | OpUpdate => "If-Destination requires Move to"
  end.

Definition validate_candidate (c : GuardCandidate) (diagnostics : list GuardError)
    : option FileVersionToken * option DestinationGuard * list GuardError :=
  let source_line := default (gc_header_line c) (gc_source_guard_line c) in
  let destination_line := default (gc_header_line c) (gc_destination_guard_line c) in
  let '(source, diagnostics) :=
    match gc_source_guard c with
    | Some syntax => check_source_guard syntax c source_line diagnostics
    | None => (None, diagnostics)
    end in
  let '(destination, diagnostics) :=
    match gc_destination_guard c with
    | Some syntax => check_destination_guard syntax c destination_line diagnostics
    | None => (None, diagnostics)
    end in
  let diagnostics := foldl (check_repeated c) diagnostics (repeated_guards c) in
  let diagnostics :=
    if inapplicable c
    then diagnostics ++
      [guard_error InapplicableGuard c
         (if decide (gc_kind c = OpAdd ∧ is_Some (gc_source_guard c)) then source_line
          else destination_line) (inapplicable_message (gc_kind c))]
    else diagnostics in
  (source, destination, diagnostics).

Definition candidate_of (index : N) (op : Operation) : GuardCandidate :=
  {| gc_operation_index := index; gc_kind := op_kind op; gc_path := Some (op_path op);
     gc_header_line := op_header_line op; gc_source_guard := source_guard op;
     gc_source_guard_line := source_guard_line op; gc_destination_guard := destination_guard op;
     gc_destination_guard_line := destination_guard_line op;
     move_present := bool_decide (is_Some (move_to op)); move_presence_known := true;
     repeated_guards := [] |}.

Fixpoint validate_operations (index : N) (ops : list Operation) (diagnostics : list GuardError)
    : list ValidatedOperation * list GuardError :=
  match ops with
  | [] => ([], diagnostics)
  | op :: ops =>
      let '(source, destination, diagnostics) := validate_candidate (candidate_of index op) diagnostics in
      let '(rest, diagnostics) := validate_operations (index + 1) ops diagnostics in
      ({| operation := op; v_source_guard := source; v_destination_guard := destination |} :: rest,
       diagnostics)
  end.

(** [validate_guards_all]; a failure is its list of diagnostics. *)
Definition validate_guards_all (doc : PatchDocument) : result (list GuardError) ValidatedPatchDocument :=
  let '(ops, diagnostics) := validate_operations 0 (operations doc) [] in
  let diagnostics := sort_by_key guard_line diagnostics in
  if decide (diagnostics = [])
  then Ok {| v_schema_version := schema_version doc; v_input_bytes := input_bytes doc;
             v_payload_hash := payload_hash doc; v_operations := ops |}
  else Err diagnostics.

Definition validate_guard_candidates (candidates : list GuardCandidate) : list GuardError :=
  sort_by_key guard_line (foldl (λ ds c, snd (validate_candidate c ds)) [] candidates).

(** *** The specification of guards *)
Definition source_denotes (g : option GuardSyntax) (t : option FileVersionToken) : Prop :=
  match g, t with
  | None, None => True
  | Some (IfMatch s), Some t => parse_token s = Ok t
  | _, _ => False
  end.
Definition destination_denotes (g : option GuardSyntax) (d : option DestinationGuard) : Prop :=
  match g, d with
  | None, None | Some IfDestinationAbsent, Some MustNotExist => True
  | Some (IfDestinationVersion s), Some (Exact t) => parse_token s = Ok t
  | _, _ => False
  end.
(** Which operations may carry which directives. *)
Definition applicable (op : Operation) : Prop :=
  match op_kind op with
  | OpAdd => source_guard op = None ∧ destination_guard op = None ∧ move_to op = None
  | OpReplace | OpDelete => destination_guard op = None ∧ move_to op = None
  | OpUpdate => destination_guard op = None ∨ is_Some (move_to op)
  end.
Definition denotes (op : Operation) (v : ValidatedOperation) : Prop :=
  operation v = op ∧ source_denotes (source_guard op) (v_source_guard v) ∧
  destination_denotes (destination_guard op) (v_destination_guard v) ∧ applicable op.

Lemma inapplicable_spec index op : inapplicable (candidate_of index op) = false ↔ applicable op.
Proof.
  unfold inapplicable, applicable, candidate_of; simpl.
  destruct (op_kind op); rewrite ?orb_false_iff, ?bool_decide_eq_false, <-?eq_None_not_Some; [naive_solver..| |naive_solver].
  case_bool_decide as Hm; simpl; [naive_solver|].
  rewrite bool_decide_eq_false, <-eq_None_not_Some. naive_solver.
Qed.

(** A check either passes with what the guard denotes or adds a diagnostic. *)
Local Ltac passes := eexists _, []; split; [f_equal; symmetry; apply app_nil_r|
  split; [by split|intros [[]|]; simpl; congruence || done]].
Local Ltac diagnoses := eexists _, [_]; split; [reflexivity|
  split; [by split|intros [[]|]; simpl; congruence || done]].

(** Validating one operation adds no diagnostic exactly when its guards denote
    something and are applicable, and the result is what they denote. *)
Lemma validate_candidate_spec index op ds :
  let '(s, d, ds') := validate_candidate (candidate_of index op) ds in
  ∃ extra, ds' = ds ++ extra ∧
    (extra = [] ↔ source_denotes (source_guard op) s ∧ destination_denotes (destination_guard op) d ∧
                  applicable op) ∧
    (∀ s', source_denotes (source_guard op) s' → s' = s) ∧
    (∀ d', destination_denotes (destination_guard op) d' → d' = d).
Proof.
  unfold validate_candidate. cbv zeta. pose proof (inapplicable_spec index op) as Hna.
  set (c := candidate_of index op) in *.
  change (gc_source_guard c) with (source_guard op).
  change (gc_destination_guard c) with (destination_guard op).
  change (repeated_guards c) with (@nil GuardDirectiveCandidate). cbn [foldl].
  revert Hna. generalize (inapplicable c) as na. intros na Hna.
  set (sl := default _ (gc_source_guard_line c)). set (dl := default _ (gc_destination_guard_line c)).
  assert (∃ s e1, match source_guard op with
      | Some syntax => check_source_guard syntax c sl ds | None => (None, ds) end = (s, ds ++ e1) ∧
      (e1 = [] ↔ source_denotes (source_guard op) s) ∧
      (∀ s', source_denotes (source_guard op) s' → s' = s)) as (s & e1 & -> & H1 & Hs).
  { destruct (source_guard op) as [[t| |t]|]; simpl.
    - destruct (parse_token t) eqn:Ht; [passes|diagnoses].
    - diagnoses.
    - diagnoses.
    - passes. }
  assert (∃ d e2, match destination_guard op with
      | Some syntax => check_destination_guard syntax c dl (ds ++ e1) | None => (None, ds ++ e1) end
      = (d, (ds ++ e1) ++ e2) ∧ (e2 = [] ↔ destination_denotes (destination_guard op) d) ∧
      (∀ d', destination_denotes (destination_guard op) d' → d' = d))
    as (d & e2 & -> & H2 & Hd).
  { destruct (destination_guard op) as [[t| |t]|]; simpl.
    - diagnoses.
    - passes.
    - destruct (parse_token t) eqn:Ht; [passes|diagnoses].
    - passes. }
  destruct na.
  - eexists (e1 ++ e2 ++ [_]). rewrite <-!app_assoc. split; [done|]. split; [|done].
    split; [by intros [_ [_ ?]%app_nil]%app_nil|by intros (_ & _ & ?%Hna)].
  - exists (e1 ++ e2). rewrite <-app_assoc. split; [done|]. split; [|done]. rewrite <-H1, <-H2, <-Hna. split.
    + by intros [-> ->]%app_nil.
    + by intros (-> & -> & _).
Qed.

Lemma validate_operations_spec ops : ∀ index ds,
  let '(vs, ds') := validate_operations index ops ds in
  ∃ extra, ds' = ds ++ extra ∧ (extra = [] → Forall2 denotes ops vs) ∧
    (extra ≠ [] → ¬ ∃ vs', Forall2 denotes ops vs').
Proof.
  induction ops as [|op ops IH]; intros index ds; simpl.
  { exists []. rewrite app_nil_r. by split. }
  pose proof (validate_candidate_spec index op ds) as Hc.
  destruct (validate_candidate _ ds) as [[s d] ds1]. destruct Hc as (e1 & -> & Hc & Hs & Hd).
  specialize (IH (index + 1) (ds ++ e1)). destruct (validate_operations _ ops _) as [vs ds2].
  destruct IH as (e2 & -> & Hok & Hbad). exists (e1 ++ e2). rewrite <-app_assoc. split; [done|]. split.
  - intros [-> ->]%app_nil. constructor; [|by apply Hok]. split; [done|]. by apply Hc.
  - intros Hne [vs' Hall]. inversion_clear Hall as [|? v ? vs1 (Hop & Hvs & Hvd & Ha) Hrest].
    rewrite (Hs _ Hvs) in Hvs. rewrite (Hd _ Hvd) in Hvd.
    assert (e1 = []) as -> by (by apply Hc).
    apply Hbad; [by intros ->|by exists vs1].
Qed.

(** guard validation is exact. It succeeds precisely when every guard of
    every operation denotes something (a canonical version token, an absent or
    an exact destination) and is applicable to its operation, and then yields
    what the guards denote, operation by operation; otherwise it reports at
    least one diagnostic, in the order of the lines, so that the first one that
    [validate_guards] indexes exists. *)
Theorem validate_guards_exact (doc : PatchDocument) :
  match validate_guards_all doc with
  | Ok v => Forall2 denotes (operations doc) (v_operations v) ∧
      v_schema_version v = schema_version doc ∧ v_input_bytes v = input_bytes doc ∧
      v_payload_hash v = payload_hash doc
  | Err ds => ds ≠ [] ∧ StronglySorted (key_le guard_line) ds ∧
      ¬ ∃ vs, Forall2 denotes (operations doc) vs
  end.
Proof.
  unfold validate_guards_all. pose proof (validate_operations_spec (operations doc) 0 []) as Hv.
  destruct (validate_operations _ _ _) as [vs ds]. destruct Hv as (extra & -> & Hok & Hbad).
  simpl. case_decide as Hn; rewrite sort_by_key_nil in Hn; simpl.
  - split; [by apply Hok|done].
  - split; [by rewrite sort_by_key_nil|]. split; [apply sort_by_key_sorted|by apply Hbad].
Qed.
End validation.

(** Cases of guards on a parsed document. *)
Definition add_with_guard : PatchDocument :=
  {| schema_version := 1; input_bytes := 0; payload_hash := [];
     operations := [{| op_kind := OpAdd; op_path := lit "a"; source_guard := Some (IfMatch (lit "sha256:00"));
       destination_guard := None; source_guard_line := Some 3; destination_guard_line := None;
       move_to := None; op_body := BAdd {| add_lines := [lit "x"] |}; op_header_line := 2 |}] |}.
Example guards_report_every_fault :
  match @validate_guards_all SampleHex.codec add_with_guard with
  | Ok _ => []
  | Err ds => (λ d, (guard_code d, guard_line d)) <$> ds
  end = [(InvalidSourceGuard, 3); (InapplicableGuard, 3)].
Proof. by vm_compute. Qed.
