(* ===== verification/PatchPlanner.v ===== *)
(** * Planning a patch

    Models [crates/tools/src/apply_patch/planner.rs]: the pure planner that runs
    validated operations against a virtual workspace. Version tokens are
    computed with SHA-256, third-party code and a parameter. A [BTreeMap] is a
    [gmap]; a path is a text, file contents are bytes. *)
From S2P Require Import Prelude Utf8 PatchDocument PatchMatcher PatchGuards.
Local Open Scope N_scope.

Inductive VirtualFileOrigin :=
  | Real
  | Virtual (operation_index : N) (previous_path : option text).

Record VirtualFile := {
  file_bytes : list N;
  file_version : FileVersionToken;
  origin : VirtualFileOrigin;
}.

(** [VirtualWorkspace]. *)
Abbreviation VirtualWorkspace := (gmap text VirtualFile).

Record PlannedSnapshot := { snap_bytes : list N; snap_version : FileVersionToken }.
Definition snapshot (f : VirtualFile) : PlannedSnapshot :=
  {| snap_bytes := file_bytes f; snap_version := file_version f |}.

Record PlannedChange := {
  change_index : N;
  change_kind : OperationKind;
  change_source : text;
  change_destination : option text;
  before : option PlannedSnapshot;
  after : option PlannedSnapshot;
  overwritten_destination : option PlannedSnapshot;
}.

Record PlannedPatch := {
  planned_schema_version : N;
  planned_input_bytes : N;
  planned_payload_hash : list N;
  planned_operations : list PlannedChange;
  workspace : VirtualWorkspace;
}.

Inductive PlanErrorCode :=
  | SourceMissing | DestinationExists | DestinationMissing | MissingSourceGuard | StaleSource
  | StaleDestination | VirtualGuardOverride | SamePathMove | MoveCycle | PlanContextNotFound
  | PlanAmbiguousContext | PlanOverlappingHunks | UnsupportedContent | PathCollision | OutputTooLarge.
#[export] Instance PlanErrorCode_eq_dec : EqDecision PlanErrorCode.
Proof. solve_decision. Defined.
Record PlanError := {
  plan_code : PlanErrorCode;
  plan_index : N;
  plan_path : text;
  plan_message : string;
}.
Definition plan_error (code : PlanErrorCode) (index : N) (path : text) (message : string) : PlanError :=
  {| plan_code := code; plan_index := index; plan_path := path; plan_message := message |}.

Definition invalid_body (index : N) (path : text) : PlanError :=
  plan_error PathCollision index path "operation body does not match its operation kind".
Definition match_error_code (c : MatchErrorCode) : PlanErrorCode :=
  match c with
  | ContextNotFound => PlanContextNotFound
  | AmbiguousContext => PlanAmbiguousContext
  | OverlappingHunks => PlanOverlappingHunks
  | InvalidUtf8 | InvalidHunk => UnsupportedContent
  end.
Definition plan_match_error (index : N) (path : text) (e : MatchError) : PlanError :=
  plan_error (match_error_code (match_code e)) index path (message e).

(** ** Move edges *)
(** The walk of [would_cycle]; [None] is out of fuel. *)
Fixpoint cycle_walk (fuel : nat) (edges : gmap text text) (source current : text)
    (visited : gset text) : option bool :=
  match edges !! current with
  | None => Some false
  | Some next =>
      match fuel with
      | O => None
      | S fuel =>
          if decide (current ∈ visited) then Some true
          else if decide (next = source) then Some true
          else cycle_walk fuel edges source next ({[current]} ∪ visited)
      end
  end.
(** One visit of each edge and one more decide the walk. *)
Definition would_cycle (edges : gmap text text) (source destination : text) : option bool :=
  cycle_walk (S (size edges)) edges source destination ∅.

Definition invalidate_move_path (edges : gmap text text) (path : text) : gmap text text :=
  filter (λ e, fst e ≠ path ∧ snd e ≠ path) edges.

(** ** Framing of a complete replacement *)
Fixpoint count_endings (raw : list N) (lf crlf lone_cr : N) : N * N * N :=
  match raw with
  | [] => (lf, crlf, lone_cr)
  | c :: rest =>
      if decide (c = CR) then
        match rest with
        | d :: rest' =>
            if decide (d = LF) then count_endings rest' lf (crlf +₆₄ 1) lone_cr
            else count_endings rest lf crlf (lone_cr +₆₄ 1)
        | [] => (lf, crlf, lone_cr +₆₄ 1)
        end
      else if decide (c = LF) then count_endings rest (lf +₆₄ 1) crlf lone_cr
      else count_endings rest lf crlf lone_cr
  end.

Definition dominant_ending (raw : list N) : text :=
  let '(lf, crlf, lone_cr) := count_endings raw 0 0 0 in
  if bool_decide (lf ≤ crlf) && bool_decide (lone_cr ≤ crlf) && bool_decide (0 < crlf) then [CR; LF]
  else if bool_decide (lone_cr ≤ lf) && bool_decide (0 < lf) then [LF]
  else if bool_decide (0 < lone_cr) then [CR]
  else [LF].

Fixpoint join_with (sep : text) (lines : list text) : text :=
  match lines with
  | [] => []
  | [l] => l
  | l :: rest => l ++ sep ++ join_with sep rest
  end.

Definition bom_bytes : list N := [239; 187; 191].
Definition has_bom (source : list N) : bool := bool_decide (is_Some (strip_prefix bom_bytes source)).

Definition render_replacement (lines : list text) (source : list N) : list N :=
  let raw := if has_bom source then drop 3 source else source in
  let ending := dominant_ending raw in
  into_bytes ((if has_bom source then [BOM] else []) ++ join_with ending lines ++
              (if bool_decide (last raw = Some LF) || bool_decide (last raw = Some CR)
               then ending else [])).

(** ** Operations *)
Section planner.
Context (from_bytes : list N → FileVersionToken).

Definition real_file (bytes : list N) : VirtualFile :=
  {| file_bytes := bytes; file_version := from_bytes bytes; origin := Real |}.
Definition virtual_file (bytes : list N) (index : N) (previous : option text) : VirtualFile :=
  {| file_bytes := bytes; file_version := from_bytes bytes; origin := Virtual index previous |}.

Definition is_virtual (f : VirtualFile) : bool :=
  match origin f with Virtual _ _ => true | Real => false end.

(** Guards concern the first real consumption of a file only. *)
Definition consume_source (ws : VirtualWorkspace) (index : N) (op : ValidatedOperation) (p : text)
    : result PlanError VirtualFile :=
  source ← ok_or (ws !! p)
    (plan_error SourceMissing index p "source file does not exist in the virtual workspace");
  match origin source with
  | Real =>
      ensure (match v_source_guard op with
              | Some expected => bool_decide (expected = file_version source)
              | None => true
              end) (plan_error StaleSource index p "source version does not match")
  | Virtual _ _ =>
      ensure (bool_decide (v_source_guard op = None))
        (plan_error VirtualGuardOverride index p
           "a virtual predecessor is guarded by the planner-derived version")
  end;;
  Ok source.

(** The state a plan threads through its operations. *)
Record plan_state := { ws : VirtualWorkspace; edges : gmap text text }.

Definition plan_add (st : plan_state) (index : N) (op : ValidatedOperation) (p : text)
    : result PlanError (plan_state * PlannedChange) :=
  ensure (bool_decide (ws st !! p = None))
    (plan_error DestinationExists index p "Add File destination already exists");;
  match op_body (operation op) with
  | BAdd file =>
      let f := virtual_file (into_bytes (join_lines (add_lines file))) index None in
      Ok ({| ws := <[p := f]> (ws st); edges := invalidate_move_path (edges st) p |},
          {| change_index := index; change_kind := OpAdd; change_source := p;
             change_destination := None; before := None; after := Some (snapshot f);
             overwritten_destination := None |})
  | _ => Err (invalid_body index p)
  end.

Definition plan_replace (st : plan_state) (index : N) (op : ValidatedOperation) (p : text)
    : result PlanError (plan_state * PlannedChange) :=
  old ← consume_source (ws st) index op p;
  match op_body (operation op) with
  | BReplace file =>
      let f := virtual_file (render_replacement (replace_lines file) (file_bytes old)) index None in
      Ok ({| ws := <[p := f]> (ws st); edges := edges st |},
          {| change_index := index; change_kind := OpReplace; change_source := p;
             change_destination := None; before := Some (snapshot old); after := Some (snapshot f);
             overwritten_destination := None |})
  | _ => Err (invalid_body index p)
  end.

Definition plan_delete (st : plan_state) (index : N) (op : ValidatedOperation) (p : text)
    : result PlanError (plan_state * PlannedChange) :=
  old ← consume_source (ws st) index op p;
  match op_body (operation op) with
  | BDelete =>
      Ok ({| ws := delete p (ws st); edges := invalidate_move_path (edges st) p |},
          {| change_index := index; change_kind := OpDelete; change_source := p;
             change_destination := None; before := Some (snapshot old); after := None;
             overwritten_destination := None |})
  | _ => Err (invalid_body index p)
  end.

(** The destination of a move: what it overwrites, if the guards allow it. *)
Definition check_destination (st : plan_state) (index : N) (op : ValidatedOperation) (dest : text)
    : result PlanError (option PlannedSnapshot) :=
  match ws st !! dest with
  | Some existing =>
      ensure (negb (is_virtual existing &&
                    match v_destination_guard op with Some (Exact _) => true | _ => false end))
        (plan_error VirtualGuardOverride index dest
           "a virtual predecessor is guarded by the planner-derived version");;
      match default MustNotExist (v_destination_guard op) with
      | MustNotExist =>
          Err (plan_error DestinationExists index dest
                 "move destination already exists; choose a different destination or delete the existing file explicitly before moving")
      | Exact expected =>
          ensure (bool_decide (expected = file_version existing))
            (plan_error StaleDestination index dest "move destination version does not match");;
          Ok (Some (snapshot existing))
      end
  | None =>
      match v_destination_guard op with
      | Some (Exact _) =>
          Err (plan_error DestinationMissing index dest
                 "exact destination guard requires an existing destination")
      | _ => Ok None
      end
  end.

(** Out of fuel in [would_cycle] is [None]; the theorems show it never happens. *)
Definition check_move (st : plan_state) (index : N) (p : text) (dest : option text)
    : option (result PlanError ()) :=
  match dest with
  | None => Some (Ok ())
  | Some dest =>
      if decide (dest = p)
      then Some (Err (plan_error SamePathMove index p "Move destination must differ from source"))
      else cycle ← would_cycle (edges st) p dest;
           Some (ensure (negb cycle)
                   (plan_error MoveCycle index dest "move chain would create a cycle"))
  end.

Definition plan_update (st : plan_state) (index : N) (op : ValidatedOperation) (p : text)
    (max_candidate_matches : N) : option (result PlanError (plan_state * PlannedChange)) :=
  match consume_source (ws st) index op p, op_body (operation op) with
  | Err e, _ => Some (Err e)
  | Ok old, BUpdate update =>
      let dest := move_to (operation op) in
      checked ← check_move st index p dest;
      Some (
        checked;;
        source ← ok_or (from_utf8 (file_bytes old))
          (plan_error UnsupportedContent index p "Update File requires UTF-8 text");
        match apply_update_with_candidate_limit source update max_candidate_matches with
        | Err e => Err (plan_match_error index p e)
        | Ok matched =>
            let f := virtual_file (into_bytes (content matched)) index
                       (match dest with Some _ => Some p | None => None end) in
            match dest with
            | Some dest =>
                overwritten ← check_destination st index op dest;
                Ok ({| ws := <[dest := f]> (delete p (ws st));
                       edges := <[p := dest]> (invalidate_move_path (edges st) dest) |},
                    {| change_index := index; change_kind := OpUpdate; change_source := p;
                       change_destination := Some dest; before := Some (snapshot old);
                       after := Some (snapshot f); overwritten_destination := overwritten |})
            | None =>
                Ok ({| ws := <[p := f]> (ws st); edges := edges st |},
                    {| change_index := index; change_kind := OpUpdate; change_source := p;
                       change_destination := None; before := Some (snapshot old);
                       after := Some (snapshot f); overwritten_destination := None |})
            end
        end)
  | Ok _, _ => Some (Err (invalid_body index p))
  end.

Definition plan_operation (st : plan_state) (index : N) (op : ValidatedOperation)
    (max_candidate_matches : N) : option (result PlanError (plan_state * PlannedChange)) :=
  let p := path op in
  match kind op with
  | OpAdd => Some (plan_add st index op p)
  | OpReplace => Some (plan_replace st index op p)
  | OpUpdate => plan_update st index op p max_candidate_matches
  | OpDelete => Some (plan_delete st index op p)
  end.

(** The loop of [plan_with_limits], with the running output total. *)
Definition output_bytes (c : PlannedChange) : N :=
  match after c with Some s => N.of_nat (length (snap_bytes s)) | None => 0 end.

Fixpoint plan_operations (st : plan_state) (index : N) (ops : list ValidatedOperation)
    (max_candidate_matches max_total_output_bytes total : N)
    : option (result PlanError (plan_state * list PlannedChange)) :=
  match ops with
  | [] => Some (Ok (st, []))
  | op :: ops =>
      r ← plan_operation st index op max_candidate_matches;
      match r with
      | Err e => Some (Err e)
      | Ok (st, change) =>
          match checked_add U64_MAX total (output_bytes change) with
          | None => Some (Err (plan_error OutputTooLarge index (change_source change)
                                 "output byte count overflow"))
          | Some next =>
              if decide (max_total_output_bytes < next)
              then Some (Err (plan_error OutputTooLarge index (change_source change)
                                "total output limit exceeded"))
              else
                rest ← plan_operations st (index + 1) ops max_candidate_matches
                         max_total_output_bytes next;
                Some ('(st, changes) ← rest; Ok (st, change :: changes))
          end
      end
  end.

Definition plan_with_limits (doc : ValidatedPatchDocument) (initial : gmap text (list N))
    (max_candidate_matches max_total_output_bytes : N) : option (result PlanError PlannedPatch) :=
  r ← plan_operations {| ws := real_file <$> initial; edges := ∅ |} 0 (v_operations doc)
        max_candidate_matches max_total_output_bytes 0;
  Some ('(st, changes) ← r;
        Ok {| planned_schema_version := v_schema_version doc;
              planned_input_bytes := v_input_bytes doc;
              planned_payload_hash := v_payload_hash doc;
              planned_operations := changes; workspace := ws st |}).

Definition plan_with_candidate_limit (doc : ValidatedPatchDocument) (initial : gmap text (list N))
    (max_candidate_matches : N) : option (result PlanError PlannedPatch) :=
  plan_with_limits doc initial max_candidate_matches (max_total_output_bytes default_limits).

(** [plan]. *)
Definition plan_patch (doc : ValidatedPatchDocument) (initial : gmap text (list N))
    : option (result PlanError PlannedPatch) :=
  plan_with_limits doc initial (max_candidate_matches default_limits)
    (max_total_output_bytes default_limits).
End planner.

(** ** The effect of a planned change

    What the rest of the system relies on: a change says which bytes it expects
    where, and what it leaves. [apply_change] replays it on plain files and
    refuses a change that does not describe them; [undo_change] takes it back. *)
Definition set_file (p : text) (contents : option (list N)) (files : gmap text (list N))
    : gmap text (list N) := partial_alter (λ _, contents) p files.

Definition apply_change (files : gmap text (list N)) (c : PlannedChange)
    : option (gmap text (list N)) :=
  if decide (files !! change_source c = snap_bytes <$> before c) then
    match change_destination c with
    | None => Some (set_file (change_source c) (snap_bytes <$> after c) files)
    | Some d =>
        if decide (d ≠ change_source c ∧ files !! d = snap_bytes <$> overwritten_destination c)
        then Some (set_file d (snap_bytes <$> after c) (delete (change_source c) files))
        else None
    end
  else None.

Definition undo_change (files : gmap text (list N)) (c : PlannedChange)
    : option (gmap text (list N)) :=
  let target := default (change_source c) (change_destination c) in
  if decide (files !! target = snap_bytes <$> after c) then
    match change_destination c with
    | None => Some (set_file (change_source c) (snap_bytes <$> before c) files)
    | Some d => Some (set_file (change_source c) (snap_bytes <$> before c)
                        (set_file d (snap_bytes <$> overwritten_destination c) files))
    end
  else None.

Fixpoint replay (files : gmap text (list N)) (cs : list PlannedChange) : option (gmap text (list N)) :=
  match cs with
  | [] => Some files
  | c :: cs => files ← apply_change files c; replay files cs
  end.
Fixpoint undo_all (files : gmap text (list N)) (cs : list PlannedChange) : option (gmap text (list N)) :=
  match cs with
  | [] => Some files
  | c :: cs => files ← undo_all files cs; undo_change files c
  end.

Lemma undo_apply files c files' : apply_change files c = Some files' → undo_change files' c = Some files.
Proof.
  unfold apply_change, undo_change, set_file. intros H.
  destruct (decide (files !! change_source c = _)) as [Hsrc|]; [|done].
  destruct (change_destination c) as [d|]; simpl.
  - destruct (decide (d ≠ _ ∧ _)) as [[Hd Hdst]|]; [|done]. injection H as <-.
    rewrite lookup_partial_alter_eq, decide_True by done. f_equal. apply map_eq. intros p.
    destruct (decide (p = change_source c)) as [->|]; [by rewrite lookup_partial_alter_eq|].
    rewrite lookup_partial_alter_ne by done.
    destruct (decide (p = d)) as [->|]; [by rewrite lookup_partial_alter_eq|].
    by rewrite !lookup_partial_alter_ne, lookup_delete_ne by done.
  - injection H as <-. rewrite lookup_partial_alter_eq, decide_True by done. f_equal. apply map_eq. intros p.
    destruct (decide (p = change_source c)) as [->|]; [by rewrite lookup_partial_alter_eq|].
    by rewrite !lookup_partial_alter_ne by done.
Qed.

Lemma undo_replay cs : ∀ files files', replay files cs = Some files' → undo_all files' cs = Some files.
Proof.
  induction cs as [|c cs IH]; intros files files'; simpl; [by intros [= ->]|].
  destruct (apply_change files c) as [files1|] eqn:Hc; [|done]. simpl.
  intros ->%IH. by apply undo_apply.
Qed.

(** A replay leaves the paths its changes do not name alone. *)
Definition touches (c : PlannedChange) (p : text) : Prop :=
  p = change_source c ∨ change_destination c = Some p.
Lemma replay_frame cs p : ∀ files files',
  (∀ c, c ∈ cs → ¬ touches c p) → replay files cs = Some files' → files' !! p = files !! p.
Proof.
  induction cs as [|c cs IH]; intros files files' Hp; simpl; [by intros [= ->]|].
  destruct (apply_change files c) as [files1|] eqn:Hc; [|done]. simpl. intros Hr.
  rewrite (IH files1 files') by (try done; intros d Hd; apply Hp; by right).
  assert (p ≠ change_source c ∧ change_destination c ≠ Some p) as [Hs Hd].
  { specialize (Hp c (list_elem_of_here _ _)). unfold touches in Hp. tauto. }
  unfold apply_change, set_file in Hc. destruct (decide _); [|done].
  destruct (change_destination c) as [d|]; [destruct (decide _); [|done]|]; injection Hc as <-.
  - rewrite lookup_partial_alter_ne, lookup_delete_ne by congruence. done.
  - by rewrite lookup_partial_alter_ne by congruence.
Qed.

(** ** Plans are sound *)
Section sound.
Context (from_bytes : list N → FileVersionToken).
Abbreviation vfile := (virtual_file from_bytes).

(** The four shapes of a planned operation. *)
Inductive planned (index : N) (op : ValidatedOperation) (st : plan_state)
    : plan_state → PlannedChange → Prop :=
  | planned_add file :
      kind op = OpAdd → op_body (operation op) = BAdd file → ws st !! path op = None →
      let f := vfile (into_bytes (join_lines (add_lines file))) index None in
      planned index op st
        {| ws := <[path op := f]> (ws st); edges := invalidate_move_path (edges st) (path op) |}
        {| change_index := index; change_kind := OpAdd; change_source := path op;
           change_destination := None; before := None; after := Some (snapshot f);
           overwritten_destination := None |}
  | planned_edit k old bytes :
      kind op = k → k = OpReplace ∨ (k = OpUpdate ∧ move_to (operation op) = None) →
      consume_source (ws st) index op (path op) = Ok old →
      let f := vfile bytes index None in
      planned index op st {| ws := <[path op := f]> (ws st); edges := edges st |}
        {| change_index := index; change_kind := k; change_source := path op;
           change_destination := None; before := Some (snapshot old); after := Some (snapshot f);
           overwritten_destination := None |}
  | planned_delete old :
      kind op = OpDelete → consume_source (ws st) index op (path op) = Ok old →
      planned index op st
        {| ws := delete (path op) (ws st); edges := invalidate_move_path (edges st) (path op) |}
        {| change_index := index; change_kind := OpDelete; change_source := path op;
           change_destination := None; before := Some (snapshot old); after := None;
           overwritten_destination := None |}
  | planned_move old bytes dest overwritten :
      kind op = OpUpdate → move_to (operation op) = Some dest →
      consume_source (ws st) index op (path op) = Ok old →
      dest ≠ path op → would_cycle (edges st) (path op) dest = Some false →
      check_destination st index op dest = Ok overwritten →
      let f := vfile bytes index (Some (path op)) in
      planned index op st
        {| ws := <[dest := f]> (delete (path op) (ws st));
           edges := <[path op := dest]> (invalidate_move_path (edges st) dest) |}
        {| change_index := index; change_kind := OpUpdate; change_source := path op;
           change_destination := Some dest; before := Some (snapshot old);
           after := Some (snapshot f); overwritten_destination := overwritten |}.

Lemma plan_operation_planned st index op m st' c :
  plan_operation from_bytes st index op m = Some (Ok (st', c)) → planned index op st st' c.
Proof.
  unfold plan_operation. cbv zeta. destruct (kind op) eqn:Hk.
  - intros [= H]. unfold plan_add in H. simplify_result.
    destruct (op_body (operation op)) as [file| | |] eqn:Hb; simplify_result.
    by apply (planned_add index op st file).
  - intros [= H]. unfold plan_replace in H. simplify_result.
    destruct (op_body (operation op)); simplify_result. eapply (planned_edit index op st); eauto.
  - unfold plan_update. destruct (consume_source _ _ _ _) as [old|] eqn:Hc; [|done].
    destruct (op_body (operation op)) as [| |update|]; try done. cbv zeta.
    destruct (check_move _ _ _ _) as [checked|] eqn:Hm; [|done]. cbn [mbind option_bind].
    intros [= H]. apply bind_Ok in H as ([] & -> & H). apply bind_Ok in H as (source & _ & H).
    destruct (apply_update_with_candidate_limit _ _ _) as [matched|]; [|done].
    unfold check_move in Hm. destruct (move_to (operation op)) as [dest|] eqn:Hd.
    + apply bind_Ok in H as (overwritten & Hch & [= <- <-]).
      case_decide as Hne; [done|]. destruct (would_cycle _ _ _) as [[]|] eqn:Hcy; [done| |done].
      by eapply (planned_move index op st).
    + injection H as <- <-. eapply (planned_edit index op st); eauto.
  - intros [= H]. unfold plan_delete in H. simplify_result.
    destruct (op_body (operation op)); simplify_result. by eapply (planned_delete index op st).
Qed.

Lemma consume_source_lookup ws0 index op p old :
  consume_source ws0 index op p = Ok old → ws0 !! p = Some old.
Proof. unfold consume_source. intros H. by simplify_result. Qed.

Lemma check_destination_lookup st index op dest o :
  check_destination st index op dest = Ok o → o = snapshot <$> ws st !! dest.
Proof.
  unfold check_destination. intros H. destruct (ws st !! dest); [|repeat case_match; by simplify_result].
  simplify_result. case_match; by simplify_result.
Qed.

Lemma set_file_insert p f ws0 :
  set_file p (Some (file_bytes f)) (file_bytes <$> ws0) = file_bytes <$> <[p := f]> ws0.
Proof. by rewrite fmap_insert. Qed.

(** Every planned operation records exactly what it does to the files. *)
Lemma planned_applies index op st st' c :
  planned index op st st' c →
  apply_change (file_bytes <$> ws st) c = Some (file_bytes <$> ws st').
Proof.
  unfold apply_change.
  destruct 1 as [file Hk Hb Hnone f|k old bytes Hk Hor Hc f|old Hk Hc|old bytes dest o Hk Hd Hc Hne Hcy Hch f];
    cbn [ws change_source change_destination before after overwritten_destination];
    rewrite lookup_fmap;
    [rewrite Hnone|rewrite (consume_source_lookup _ _ _ _ _ Hc)..]; rewrite decide_True by done.
  - f_equal. apply set_file_insert.
  - f_equal. apply set_file_insert.
  - f_equal. by rewrite fmap_delete.
  - rewrite (check_destination_lookup _ _ _ _ _ Hch), lookup_fmap, decide_True.
    + f_equal. rewrite <-fmap_delete. apply set_file_insert.
    + split; [done|]. by destruct (ws st !! dest).
Qed.

(** A run of the planner over a list of operations. *)
Inductive planned_run : N → plan_state → list ValidatedOperation → plan_state →
    list PlannedChange → Prop :=
  | run_nil index st : planned_run index st [] st []
  | run_cons index st op st1 c ops st2 cs :
      planned index op st st1 c → planned_run (index + 1) st1 ops st2 cs →
      planned_run index st (op :: ops) st2 (c :: cs).

Lemma plan_operations_run ops m maxo : ∀ index st total st' cs,
  plan_operations from_bytes st index ops m maxo total = Some (Ok (st', cs)) →
  planned_run index st ops st' cs ∧ (total ≤ maxo → total + sum_N (output_bytes <$> cs) ≤ maxo).
Proof.
  induction ops as [|op ops IH]; intros index st total st' cs; cbn [plan_operations].
  { intros [= <- <-]. split; [constructor|]. unfold sum_N; simpl. lia. }
  destruct (plan_operation _ _ _ _ _) as [[[st1 c]|e]|] eqn:Hop; cbn [mbind option_bind]; [|done..].
  destruct (checked_add _ _ _) as [next|] eqn:Hadd; [|done]. case_decide as Hmax; [done|].
  destruct (plan_operations _ _ _ _ _ _ _) as [[[st2 cs2]|e]|] eqn:Hrest; simpl; [|done..].
  intros [= <- <-]. apply checked_add_Some in Hadd as [-> _].
  destruct (IH _ _ _ _ _ Hrest) as [Hrun Hsum]. split.
  - econstructor; [by eapply plan_operation_planned|done].
  - intros _. rewrite fmap_cons, sum_N_cons. lia.
Qed.

(** An invariant of single operations holds along a run. *)
Lemma planned_run_ind_inv (P : plan_state → Prop) (Q : ValidatedOperation → PlannedChange → Prop) :
  (∀ index op st st' c, P st → planned index op st st' c → P st' ∧ Q op c) →
  ∀ index st ops st' cs, planned_run index st ops st' cs → P st → P st' ∧ Forall2 Q ops cs.
Proof.
  intros Hstep. induction 1 as [|index st op st1 c ops st2 cs Hop _ IH]; intros HP; [by split|].
  destruct (Hstep _ _ _ _ _ HP Hop) as [HP1 HQ]. destruct (IH HP1). split; [done|by constructor].
Qed.

Lemma planned_run_replay index st ops st' cs :
  planned_run index st ops st' cs →
  replay (file_bytes <$> ws st) cs = Some (file_bytes <$> ws st').
Proof.
  induction 1 as [|index st op st1 c ops st2 cs Hop _ IH]; simpl; [done|].
  by rewrite (planned_applies _ _ _ _ _ Hop).
Qed.

(** What a change records of its operation. *)
Definition labelled (index : N) (op : ValidatedOperation) (c : PlannedChange) : Prop :=
  change_index c = index ∧ change_kind c = kind op ∧ change_source c = path op ∧
  change_destination c = (if decide (kind op = OpUpdate) then move_to (operation op) else None).

Lemma planned_labelled index op st st' c : planned index op st st' c → labelled index op c.
Proof.
  destruct 1 as [file Hk Hb Hnone f|k old bytes Hk Hor Hc f|old Hk Hc|old bytes dest o Hk Hd Hc Hne Hcy Hch f];
    repeat split; simpl; try congruence; rewrite Hk; try done.
  destruct Hor as [->|[-> ->]]; done.
Qed.

Lemma planned_run_labelled index st ops st' cs :
  planned_run index st ops st' cs →
  length cs = length ops ∧
  ∀ i op c, ops !! i = Some op → cs !! i = Some c → labelled (index + N.of_nat i) op c.
Proof.
  induction 1 as [|index st op st1 c ops st2 cs Hop _ [IHl IH]]; [done|]. simpl. split; [lia|].
  intros [|i] op' c'; simpl.
  - intros [= <-] [= <-]. rewrite N.add_0_r. by eapply planned_labelled.
  - intros Ho Hc. specialize (IH i op' c' Ho Hc). by replace (index + N.of_nat (S i)) with (index + 1 + N.of_nat i) by lia.
Qed.

Lemma planned_run_touches index st ops st' cs c p :
  planned_run index st ops st' cs → c ∈ cs → touches c p →
  ∃ op, op ∈ ops ∧ (path op = p ∨ move_to (operation op) = Some p).
Proof.
  intros Hrun (i & Hi)%list_elem_of_lookup Ht.
  destruct (planned_run_labelled _ _ _ _ _ Hrun) as [Hlen Hl].
  destruct (lookup_lt_is_Some_2 ops i) as [op Hop].
  { rewrite <-Hlen. by eapply lookup_lt_Some. }
  exists op. split; [by eapply list_elem_of_lookup_2|].
  destruct (Hl i op c Hop Hi) as (_ & _ & Hs & Hd). destruct Ht as [->|Ht]; [by left|right].
  rewrite Hd in Ht. by destruct (decide _).
Qed.

(** *** The files a plan still knows to be the real ones *)
Definition versions_ok (initial : gmap text (list N)) (w : VirtualWorkspace) : Prop :=
  map_Forall (λ p f, file_version f = from_bytes (file_bytes f) ∧
                     (origin f = Real → initial !! p = Some (file_bytes f))) w.

Lemma initial_versions_ok initial : versions_ok initial (real_file from_bytes <$> initial).
Proof.
  intros p f. simpl. rewrite lookup_fmap. intros (b & Hb & ->)%fmap_Some_1. by split.
Qed.

(** A guard pins the real, untouched file it was written for. The operation is
    planned for [files], what the earlier ones leave of the [initial] ones. *)
Definition guards_respected (initial files : gmap text (list N)) (op : ValidatedOperation)
    (c : PlannedChange) : Prop :=
  (∀ token, v_source_guard op = Some token → kind op ≠ OpAdd →
     ∃ bytes, initial !! path op = Some bytes ∧ files !! path op = Some bytes ∧ from_bytes bytes = token ∧
       snap_bytes <$> before c = Some bytes) ∧
  (∀ s, overwritten_destination c = Some s →
     v_destination_guard op = Some (Exact (snap_version s)) ∧
     snap_version s = from_bytes (snap_bytes s) ∧
     ∃ d, change_destination c = Some d ∧ initial !! d = Some (snap_bytes s)) ∧
  (∀ d, change_destination c = Some d → d ≠ path op ∧ files !! d = snap_bytes <$> overwritten_destination c) ∧
  (kind op = OpAdd → files !! path op = None ∧ before c = None).

Lemma consume_source_guard initial st index op p old token :
  versions_ok initial (ws st) → consume_source (ws st) index op p = Ok old →
  v_source_guard op = Some token →
  initial !! p = Some (file_bytes old) ∧ from_bytes (file_bytes old) = token.
Proof.
  unfold consume_source. intros Hv H Hg. simplify_result.
  destruct (Hv _ _ Hr) as [Hver Hreal]. rewrite Hg in Hr0. destruct (origin old); simplify_result.
  split; [by apply Hreal|congruence].
Qed.

Lemma check_destination_guard_real initial st index op dest s :
  versions_ok initial (ws st) → check_destination st index op dest = Ok (Some s) →
  v_destination_guard op = Some (Exact (snap_version s)) ∧
  snap_version s = from_bytes (snap_bytes s) ∧ initial !! dest = Some (snap_bytes s).
Proof.
  unfold check_destination. intros Hv H. destruct (ws st !! dest) as [f|] eqn:Hd.
  - destruct (Hv _ _ Hd) as [Hver Hreal]. unfold is_virtual in H.
    destruct (v_destination_guard op) as [[|token]|]; simpl in H; simplify_result.
    destruct (origin f); [|done]. split; [done|]. split; [done|]. by apply Hreal.
  - repeat case_match; simplify_result.
Qed.

Lemma versions_ok_insert initial w p bytes index prev :
  versions_ok initial w → versions_ok initial (<[p := vfile bytes index prev]> w).
Proof. intros Hv. apply map_Forall_insert_2; done. Qed.
Lemma versions_ok_delete initial w p : versions_ok initial w → versions_ok initial (delete p w).
Proof. apply map_Forall_delete. Qed.

Lemma planned_guards initial index op st st' c :
  versions_ok initial (ws st) → planned index op st st' c →
  versions_ok initial (ws st') ∧ guards_respected initial (file_bytes <$> ws st) op c.
Proof.
  intros Hv Hp. destruct st as [w e].
  destruct Hp as [file Hk Hb Hnone f|k old bytes Hk Hor Hc f|old Hk Hc|old bytes dest o Hk Hd Hc Hne Hcy Hch f];
    (split; [eauto using versions_ok_insert, versions_ok_delete|]); (split; [|split; [|split]]); simpl;
    try done; try (intros token Hg Ha; destruct (consume_source_guard _ _ _ _ _ _ _ Hv Hc Hg);
                   exists (file_bytes old); apply consume_source_lookup in Hc; cbn in Hc; by rewrite lookup_fmap, Hc).
  - intros _. cbn in Hnone. by rewrite lookup_fmap, Hnone.
  - intros Ha. exfalso. destruct Hor as [->|[-> _]]; congruence.
  - congruence.
  - intros s ->. destruct (check_destination_guard_real _ _ _ _ _ _ Hv Hch) as (? & ? & ?). eauto.
  - intros d [= <-]. split; [done|]. rewrite (check_destination_lookup _ _ _ _ _ Hch), lookup_fmap. simpl. by destruct (w !! dest).
  - congruence.
Qed.
(** Along a run each operation is planned for what the earlier changes leave. *)
Lemma planned_run_guards initial index st ops st' cs :
  planned_run index st ops st' cs → versions_ok initial (ws st) →
  ∀ i op c, ops !! i = Some op → cs !! i = Some c →
    ∃ files, replay (file_bytes <$> ws st) (take i cs) = Some files ∧ guards_respected initial files op c.
Proof.
  induction 1 as [|index st op st1 c ops st2 cs Hop _ IH]; intros Hv i op' c' Ho Hc; [done|].
  destruct (planned_guards _ _ _ _ _ _ Hv Hop) as [Hv1 Hg]. destruct i as [|i]; simpl in *.
  - injection Ho as <-. injection Hc as <-. eauto.
  - rewrite (planned_applies _ _ _ _ _ Hop). simpl. by apply IH.
Qed.

(** *** Move edges *)
Definition moved (edges : gmap text text) (p q : text) : Prop := edges !! p = Some q.
Definition acyclic (edges : gmap text text) : Prop := ∀ p, ¬ tc (moved edges) p p.

Lemma acyclic_empty : acyclic ∅.
Proof. intros p H. inversion H as [?? Hm|?? ? Hm]; unfold moved in Hm; by rewrite lookup_empty in Hm. Qed.

Lemma acyclic_invalidate e p : acyclic e → acyclic (invalidate_move_path e p).
Proof.
  intros Ha q Hq. apply (Ha q). revert Hq. generalize q at 1 3. generalize q. intros a b.
  assert (∀ x y, moved (invalidate_move_path e p) x y → moved e x y) as Hsub.
  { unfold moved, invalidate_move_path. intros x y. rewrite map_lookup_filter_Some. tauto. }
  induction 1; [by apply tc_once, Hsub|by eapply tc_l; [apply Hsub|]].
Qed.

Lemma invalidate_source e p : invalidate_move_path e p !! p = None.
Proof. apply map_lookup_filter_None. right. simpl. intros x _ [? _]. done. Qed.
Lemma invalidate_lookup e p a b :
  invalidate_move_path e p !! a = Some b → e !! a = Some b ∧ a ≠ p ∧ b ≠ p.
Proof. unfold invalidate_move_path. rewrite map_lookup_filter_Some. done. Qed.

(** An edge to a path without an edge of its own closes no cycle. *)
Lemma acyclic_insert e p d : acyclic e → d ≠ p → e !! d = None → acyclic (<[p := d]> e).
Proof.
  intros Ha Hne Hd.
  assert (∀ y, ¬ tc (moved (<[p := d]> e)) d y) as Hout.
  { intros y H. inversion H as [?? Hm|?? ? Hm]; unfold moved in Hm;
      rewrite lookup_insert_ne in Hm by done; congruence. }
  assert (∀ x y, tc (moved (<[p := d]> e)) x y → y ≠ d → tc (moved e) x y) as Hsub.
  { assert (∀ x y, moved (<[p := d]> e) x y → y ≠ d → moved e x y) as Hstep.
    { unfold moved. intros x y [[-> ->]|[_ ?]]%lookup_insert_Some; done. }
    induction 1 as [x y Hm|x z y Hm Ht IH]; intros Hy; [by apply tc_once, Hstep|].
    destruct (decide (z = d)) as [->|]; [by apply Hout in Ht|].
    eapply tc_l; [by apply Hstep|by apply IH]. }
  intros q Hq. destruct (decide (q = d)) as [->|]; [by apply Hout in Hq|by eapply Ha, Hsub].
Qed.

(** The walk decides reachability along the recorded moves. *)
Lemma cycle_walk_spec e source : acyclic e →
  ∀ fuel current visited,
    visited ⊆ dom e → (size visited + fuel = S (size e))%nat →
    (∀ v, v ∈ visited → tc (moved e) v current) →
    ∃ b, cycle_walk fuel e source current visited = Some b ∧
      (b = true ↔ tc (moved e) current source).
Proof.
  intros Ha. induction fuel as [|fuel IH]; intros current visited Hsub Hsize Hvis; simpl.
  - exfalso. pose proof (subseteq_size _ _ Hsub) as Hle. rewrite size_dom in Hle. lia.
  - destruct (e !! current) as [next|] eqn:Hn; cycle 1.
    { exists false. split; [done|]. split; [done|]. intros H.
      inversion H as [?? Hm|?? ? Hm]; unfold moved in Hm; congruence. }
    rewrite decide_False by (intros Hin; by apply (Ha current), Hvis). case_decide as Hs.
    { exists true. split; [done|]. split; [intros _|done]. apply tc_once. unfold moved. congruence. }
    destruct (IH next ({[current]} ∪ visited)) as (b & Hb & Hspec).
    + apply union_subseteq. split; [|done]. apply singleton_subseteq_l, elem_of_dom. by exists next.
    + rewrite size_union, size_singleton; [lia|]. apply disjoint_singleton_l.
      intros Hin. by apply (Ha current), Hvis.
    + intros v [->%elem_of_singleton|Hv]%elem_of_union; [by apply tc_once|].
      eapply tc_r; [by apply Hvis|done].
    + exists b. split; [done|]. rewrite Hspec. split; [intros; by eapply tc_l|].
      intros H. inversion H as [?? Hm|? z ? Hm]; unfold moved in Hm; [congruence|].
      replace next with z by congruence. done.
Qed.

Lemma would_cycle_spec e source destination :
  acyclic e → ∃ b, would_cycle e source destination = Some b ∧
    (b = true ↔ tc (moved e) destination source).
Proof.
  intros Ha. apply cycle_walk_spec; [done| |rewrite size_empty; lia|]; set_solver.
Qed.

(** A recorded move leaves no file at its source. *)
Definition edges_ok (st : plan_state) : Prop :=
  acyclic (edges st) ∧ ∀ p q, edges st !! p = Some q → ws st !! p = None.

Lemma planned_edges_ok index op st st' c : edges_ok st → planned index op st st' c → edges_ok st'.
Proof.
  intros [Ha He].
  assert (∀ p, ∀ a b, invalidate_move_path (edges st) p !! a = Some b → ws st !! a = None ∧ a ≠ p) as Hinv.
  { intros p a b (Hab & ? & _)%invalidate_lookup. split; [by eapply He|done]. }
  destruct 1 as [file Hk Hb Hnone f|k old bytes Hk Hor Hc f|old Hk Hc|old bytes dest o Hk Hd Hc Hne Hcy Hch f];
    split; cbn [edges ws].
  - by apply acyclic_invalidate.
  - intros a b [??]%Hinv. by rewrite lookup_insert_ne.
  - done.
  - intros a b Hab%He. rewrite lookup_insert_ne; [done|]. intros <-.
    apply consume_source_lookup in Hc. congruence.
  - by apply acyclic_invalidate.
  - intros a b [??]%Hinv. by rewrite lookup_delete_ne.
  - apply acyclic_insert; [by apply acyclic_invalidate|done|apply invalidate_source].
  - intros a b [[<- <-]|[Hpa [Ha' ?]%Hinv]]%lookup_insert_Some;
      rewrite lookup_insert_ne by done; [apply lookup_delete_eq|by rewrite lookup_delete_ne].
Qed.

Lemma plan_operation_answers st index op m :
  edges_ok st → ∃ r, plan_operation from_bytes st index op m = Some r ∧
    (∀ e, r = Err e → plan_index e = index ∧
       (plan_path e = path op ∨ move_to (operation op) = Some (plan_path e))).
Proof.
  intros [Ha _].
  assert (∀ e, consume_source (ws st) index op (path op) = Err e →
    plan_index e = index ∧ plan_path e = path op) as Hsrc.
  { unfold consume_source. intros e. destruct (ws st !! path op) as [f|]; simpl; [|by intros [= <-]].
    destruct (origin f); destruct (ensure _ _) eqn:Hen; simpl; try done;
      apply ensure_Err in Hen as [_ ->]; by intros [= <-]. }
  unfold plan_operation, plan_add, plan_replace, plan_delete. cbv zeta.
  destruct (kind op); [..|].
  1,2,4: eexists; split; [reflexivity|]; intros e.
  - destruct (ensure _ _) eqn:Hen; simpl; [case_match; intros [= <-]|]; eauto.
    apply ensure_Err in Hen as [_ ->]. intros [= <-]; eauto.
  - destruct (consume_source _ _ _ _) eqn:Hc; simpl; [case_match; intros [= <-]; eauto|].
    intros [= <-]. destruct (Hsrc _ eq_refl); eauto.
  - destruct (consume_source _ _ _ _) eqn:Hc; simpl; [case_match; intros [= <-]; eauto|].
    intros [= <-]. destruct (Hsrc _ eq_refl); eauto.
  - unfold plan_update. destruct (consume_source _ _ _ _) as [old|e] eqn:Hc; cycle 1.
    { eexists. split; [done|]. intros e' [= <-]. destruct (Hsrc _ eq_refl); eauto. }
    destruct (op_body (operation op)) as [| |update|];
      try (eexists; split; [done|]; intros e [= <-]; by eauto).
    cbv zeta. unfold check_move. destruct (move_to (operation op)) as [dest|] eqn:Hd.
    + case_decide as Hsame; [eexists; split; [done|]; simpl; intros e [= <-]; by eauto|].
      destruct (would_cycle_spec (edges st) (path op) dest Ha) as (b & -> & _).
      eexists; split; [done|]. intros e. destruct b; simpl; [intros [= <-]; simpl; by eauto|].
      destruct (from_utf8 _); simpl; [|intros [= <-]; simpl; by eauto].
      destruct (apply_update_with_candidate_limit _ _ _); [|intros [= <-]; simpl; by eauto].
      destruct (check_destination _ _ _ _) as [?|e'] eqn:Hch; simpl; [done|]. intros [= <-].
      enough (plan_index e' = index ∧ plan_path e' = dest) as [? ->] by eauto.
      unfold check_destination in Hch. destruct (ws st !! dest).
      * destruct (ensure _ _) eqn:Hen in Hch; simpl in Hch; [|apply ensure_Err in Hen as [_ ->]; by injection Hch as <-].
        case_match; [by injection Hch as <-|].
        destruct (ensure _ _) eqn:Hen' in Hch; simpl in Hch; [done|].
        apply ensure_Err in Hen' as [_ ->]. by injection Hch as <-.
      * destruct (v_destination_guard op) as [[|]|]; simpl in Hch; try done; by injection Hch as <-.
    + eexists; split; [done|]. intros e. simpl.
      destruct (from_utf8 _); simpl; [|intros [= <-]; simpl; by eauto].
      destruct (apply_update_with_candidate_limit _ _ _); [done|intros [= <-]; simpl; by eauto].
Qed.

Lemma initial_edges_ok w : edges_ok {| ws := w; edges := ∅ |}.
Proof. split; [apply acyclic_empty|]. intros p q. simpl. by rewrite lookup_empty. Qed.

(** A successful plan is a run from the real files. *)
Lemma plan_with_limits_run doc initial m maxo plan :
  plan_with_limits from_bytes doc initial m maxo = Some (Ok plan) →
  ∃ st, workspace plan = ws st ∧
    planned_run 0 {| ws := real_file from_bytes <$> initial; edges := ∅ |} (v_operations doc) st
      (planned_operations plan) ∧
    sum_N (output_bytes <$> planned_operations plan) ≤ maxo.
Proof.
  unfold plan_with_limits. destruct (plan_operations _ _ _ _ _ _ _) as [[[st cs]|e]|] eqn:Hp; simpl; [|done..].
  intros [= <-]. simpl. apply plan_operations_run in Hp as [Hrun Hsum].
  exists st. split; [done|]. split; [done|]. specialize (Hsum ltac:(lia)). lia.
Qed.

Lemma real_files_bytes (initial : gmap text (list N)) : file_bytes <$> (real_file from_bytes <$> initial) = initial.
Proof. rewrite <-map_fmap_compose. apply map_fmap_id. Qed.

(** C9: a plan is a faithful, reversible log of what it does. The changes
    recorded for the operations, replayed in order on the plain files, are all
    applicable and lead exactly to the planned workspace; undone in reverse
    order they lead from there back to the files the plan started from. There is
    one change per operation, labelled with its index, kind, path and move
    destination, the outputs fit the limit, and every path that no operation
    names keeps its file as it was. *)
Theorem plan_is_faithful_log (doc : ValidatedPatchDocument) (initial : gmap text (list N))
    (max_candidates max_output : N) (plan : PlannedPatch) :
  plan_with_limits from_bytes doc initial max_candidates max_output = Some (Ok plan) →
  let cs := planned_operations plan in
  replay initial cs = Some (file_bytes <$> workspace plan) ∧
  undo_all (file_bytes <$> workspace plan) cs = Some initial ∧
  length cs = length (v_operations doc) ∧
  (∀ i op c, v_operations doc !! i = Some op → cs !! i = Some c → labelled (N.of_nat i) op c) ∧
  sum_N (output_bytes <$> cs) ≤ max_output ∧
  (∀ p, (∀ op, op ∈ v_operations doc → path op ≠ p ∧ move_to (operation op) ≠ Some p) →
     file_bytes <$> (workspace plan !! p) = initial !! p).
Proof.
  intros (st & Hws & Hrun & Hsum)%plan_with_limits_run. cbv zeta.
  pose proof (planned_run_replay _ _ _ _ _ Hrun) as Hreplay.
  cbn [ws] in Hreplay. rewrite real_files_bytes, <-Hws in Hreplay.
  destruct (planned_run_labelled _ _ _ _ _ Hrun) as [Hlen Hlab].
  split; [done|]. split; [by apply undo_replay|]. split; [done|].
  split; [intros i op c Ho Hc; by apply (Hlab i op c)|]. split; [done|].
  intros p Hp. rewrite <-lookup_fmap. eapply replay_frame; [|done]. intros c Hc Ht.
  destruct (planned_run_touches _ _ _ _ _ _ _ Hrun Hc Ht) as (op & Hop & Hor).
  destruct (Hp op Hop) as [??]. by destruct Hor.
Qed.

(** C36: a plan respects its guards. Every operation is planned for the files that
    the changes before it leave. One whose source guard names a version consumes
    the file that was there before the patch, unchanged, and that file has the
    version named; a move replaces nothing, unless its destination guard names
    exactly the version of the file it overwrites and that too is the untouched
    file from before the patch; an added file replaces nothing. *)
Theorem plan_respects_guards (doc : ValidatedPatchDocument) (initial : gmap text (list N))
    (max_candidates max_output : N) (plan : PlannedPatch) :
  plan_with_limits from_bytes doc initial max_candidates max_output = Some (Ok plan) →
  let cs := planned_operations plan in
  length cs = length (v_operations doc) ∧
  ∀ i op c, v_operations doc !! i = Some op → cs !! i = Some c →
    ∃ files, replay initial (take i cs) = Some files ∧ guards_respected initial files op c.
Proof.
  intros (st & _ & Hrun & _)%plan_with_limits_run. cbv zeta.
  split; [by destruct (planned_run_labelled _ _ _ _ _ Hrun)|]. intros i op c Ho Hc.
  destruct (planned_run_guards initial _ _ _ _ _ Hrun (initial_versions_ok initial) i op c Ho Hc) as (files & Hr & Hg).
  cbn [ws] in Hr. rewrite real_files_bytes in Hr. by exists files.
Qed.

Lemma plan_operations_answers ops m maxo : ∀ index st total, edges_ok st →
  ∃ r, plan_operations from_bytes st index ops m maxo total = Some r ∧
    (∀ e, r = Err e → ∃ i op, ops !! i = Some op ∧ plan_index e = index + N.of_nat i ∧
       (plan_path e = path op ∨ move_to (operation op) = Some (plan_path e))).
Proof.
  induction ops as [|op ops IH]; intros index st total Hst; cbn [plan_operations]; [by eexists|].
  destruct (plan_operation_answers st index op m Hst) as (r & Hr & Herr). rewrite Hr.
  cbn [mbind option_bind]. destruct r as [[st1 c]|e]; cycle 1.
  { eexists; split; [done|]. intros e' [= <-]. exists 0%nat, op. destruct (Herr _ eq_refl).
    by rewrite N.add_0_r. }
  pose proof (plan_operation_planned _ _ _ _ _ _ Hr) as Hp.
  destruct (planned_labelled _ _ _ _ _ Hp) as (Hidx & _ & Hsrc & _).
  assert (∀ msg, ∃ i op', (op :: ops) !! i = Some op' ∧
    plan_index (plan_error OutputTooLarge index (change_source c) msg) = index + N.of_nat i ∧
    (plan_path (plan_error OutputTooLarge index (change_source c) msg) = path op' ∨
     move_to (operation op') = Some (change_source c))) as Hbig.
  { intros msg. exists 0%nat, op. simpl. split; [done|]. split; [lia|by left]. }
  destruct (checked_add _ _ _) as [next|]; [|eexists; split; [done|]; intros e [= <-]; apply Hbig].
  case_decide; [eexists; split; [done|]; intros e [= <-]; apply Hbig|].
  destruct (IH (index + 1) st1 next) as (r & -> & Hrest); [by eapply planned_edges_ok|].
  eexists; split; [done|]. destruct r as [[st2 cs]|e]; simpl; [done|]. intros e' [= <-].
  destruct (Hrest _ eq_refl) as (i & op' & Hop & Hi & Hpath). exists (S i), op'.
  split; [done|]. split; [lia|done].
Qed.

(** planning always answers: the walk along the recorded moves ends within
    its fuel in every plan, and a refusal names the index of an operation of the
    document and that operation's path or move destination. *)
Theorem plan_always_answers (doc : ValidatedPatchDocument) (initial : gmap text (list N))
    (max_candidates max_output : N) :
  match plan_with_limits from_bytes doc initial max_candidates max_output with
  | None => False
  | Some (Ok _) => True
  | Some (Err e) => ∃ i op, v_operations doc !! i = Some op ∧ plan_index e = N.of_nat i ∧
      (plan_path e = path op ∨ move_to (operation op) = Some (plan_path e))
  end.
Proof.
  unfold plan_with_limits.
  destruct (plan_operations_answers (v_operations doc) max_candidates max_output 0 _ 0
    (initial_edges_ok (real_file from_bytes <$> initial))) as (r & -> & Herr).
  simpl. destruct r as [[st cs]|e]; simpl; [done|]. by apply Herr.
Qed.

(** a move is refused as a cycle exactly when its destination is an earlier
    name of the file: whatever was planned before, moving to another path is
    refused just when the recorded moves lead from that path to the source; they
    never form a cycle, and a path they lead away from holds no file, so a
    refused destination is always a vacated path. *)
Theorem move_cycles_refused_exactly (ops : list ValidatedOperation) (initial : gmap text (list N))
    (max_candidates max_output : N) (st : plan_state) (cs : list PlannedChange)
    (index : N) (p d : text) :
  plan_operations from_bytes {| ws := real_file from_bytes <$> initial; edges := ∅ |} 0 ops
    max_candidates max_output 0 = Some (Ok (st, cs)) →
  p ≠ d →
  (∃ r, check_move st index p (Some d) = Some r ∧
     (r = Ok () ↔ ¬ tc (moved (edges st)) d p) ∧
     (r ≠ Ok () → r = Err (plan_error MoveCycle index d "move chain would create a cycle"))) ∧
  (∀ q, ¬ tc (moved (edges st)) q q) ∧
  (∀ q r, tc (moved (edges st)) q r → ws st !! q = None).
Proof.
  intros Hp Hne. apply plan_operations_run in Hp as [Hrun _].
  assert (edges_ok st) as [Ha He].
  { eapply (planned_run_ind_inv edges_ok (λ _ _, True)); [|done|apply initial_edges_ok].
    intros; split; [by eapply planned_edges_ok|done]. }
  split; [|split; [done|]].
  - unfold check_move. rewrite decide_False by done.
    destruct (would_cycle_spec (edges st) p d Ha) as (b & -> & Hb). cbn [mbind option_bind].
    eexists; split; [done|]. destruct b; simpl.
    + split; [|done]. split; [done|]. intros []. by apply Hb.
    + split; [|done]. split; [|done]. intros _ Ht. by apply Hb in Ht.
  - intros q r Ht. inversion Ht as [?? Hm|?? ? Hm]; by eapply He.
Qed.
End sound.

(** ** Replacements keep the framing of the file *)
(** How many lines of a text end in [e]. *)
Definition occurrences (e : text) (ls : list LogicalLine) : N :=
  N.of_nat (length (filter (λ l, ending l = e) ls)).

Lemma occurrences_cons e l ls :
  occurrences e (l :: ls) = (if decide (ending l = e) then 1 else 0) + occurrences e ls.
Proof. unfold occurrences. rewrite filter_cons. case_decide; simpl; lia. Qed.

Lemma occurrences_nil e : occurrences e [] = 0.
Proof. done. Qed.
Local Ltac tally :=
  rewrite ?occurrences_cons, ?occurrences_nil; cbn [ending]; repeat case_decide; try done;
  apply (f_equal2 pair); [apply (f_equal2 pair)|]; lia.

Lemma count_endings_spec n : ∀ raw start a b c,
  (length raw ≤ n)%nat → a + b + c + N.of_nat (length raw) ≤ U64_MAX →
  count_endings raw a b c =
    (a + occurrences [LF] (split_from start raw), b + occurrences [CR; LF] (split_from start raw),
     c + occurrences [CR] (split_from start raw)).
Proof.
  assert (∀ m x, x + 1 ≤ m → saturating_add m x 1 = x + 1) as Hsat by (intros; unfold saturating_add; lia).
  induction n as [|n IH]; intros raw start a b c Hn Hmax; destruct raw as [|x raw]; cbn [length] in *; try lia.
  1,2: destruct start; cbn [split_from count_endings]; tally.
  cbn [count_endings split_from]. destruct (decide (x = CR)) as [->|Hcr].
  - rewrite decide_False by done. destruct raw as [|d raw].
    + rewrite Hsat by lia. tally.
    + cbn [length] in *. destruct (decide (d = LF)) as [->|]; rewrite Hsat by lia.
      * rewrite (IH raw [] a (b + 1) c) by lia. tally.
      * rewrite (IH (d :: raw) [] a b (c + 1)) by (cbn [length]; lia).
        tally.
  - destruct (decide (x = LF)) as [->|].
    + rewrite Hsat by lia. rewrite (IH raw [] (a + 1) b c) by lia. tally.
    + apply IH; lia.
Qed.

(** The ending chosen is a most frequent one of the file. *)
Lemma dominant_ending_spec raw :
  N.of_nat (length raw) ≤ U64_MAX →
  terminator (dominant_ending raw) ∧
  ∀ e, terminator e →
    occurrences e (split_from [] raw) ≤ occurrences (dominant_ending raw) (split_from [] raw).
Proof.
  intros Hmax. unfold dominant_ending, terminator.
  rewrite (count_endings_spec _ raw [] 0 0 0 (Nat.le_refl _)) by lia. rewrite !N.add_0_l.
  repeat case_bool_decide; simpl; (split; [by auto|]); intros e [->|[->| ->]]; lia.
Qed.

(** *** Splitting what was joined *)
Lemma split_from_plain v : ∀ start rest, plain v → split_from start (v ++ rest) = split_from (start ++ v) rest.
Proof.
  induction v as [|c v IH]; intros start rest [Hlf Hcr]; [by rewrite app_nil_r|].
  apply not_elem_of_cons in Hlf as [? Hlf], Hcr as [? Hcr].
  simpl. rewrite !decide_False by congruence. rewrite IH by done. by rewrite <-app_assoc.
Qed.

Lemma split_from_terminated v e rest :
  plain v → terminator e → (e = [CR] → head rest ≠ Some LF) →
  split_from [] (v ++ e ++ rest) = {| value := v; ending := e |} :: split_from [] rest.
Proof.
  intros Hv He Hhead. rewrite split_from_plain by done. simpl.
  destruct He as [->|[->| ->]]; simpl; [done..|].
  destruct rest as [|d rest]; simpl; [done|]. rewrite decide_False; [done|].
  intros ->. by apply Hhead.
Qed.

Lemma set_last_ending_cons e l ls :
  ls ≠ [] → set_last_ending e (l :: ls) = l :: set_last_ending e ls.
Proof.
  unfold set_last_ending. destruct ls as [|l' ls]; [done|]. intros _.
  change (last (l :: l' :: ls)) with (last (l' :: ls)). by destruct (last (l' :: ls)).
Qed.

Lemma split_joined e final lines :
  terminator e → Forall plain lines → lines ≠ [] → final = true ∨ last lines ≠ Some [] →
  split_from [] (join_with e lines ++ if final then e else []) =
    set_last_ending (if (final : bool) then e else []) ((λ v, {| value := v; ending := e |}) <$> lines).
Proof.
  intros He Hp. induction Hp as [|v lines Hv Hp IH]; intros Hne Hlast; [done|].
  destruct lines as [|v' lines].
  - simpl. destruct final.
    + rewrite <-(app_nil_r e) at 1. by rewrite split_from_terminated.
    + rewrite split_from_plain by done. simpl. destruct v; [|done].
      destruct Hlast as [|[]]; done.
  - cbn [join_with]. rewrite <-!app_assoc, fmap_cons, set_last_ending_cons by done.
    rewrite split_from_terminated; [f_equal; apply IH; [done|]; by destruct Hlast; [left|right]|done..|].
    intros ->. inversion_clear Hp as [|?? [Hlf _] _]. destruct v' as [|c v'].
    + destruct lines; simpl; [destruct final|]; done.
    + apply not_elem_of_cons in Hlf as [? _]. destruct lines; simpl; congruence.
Qed.

Lemma not_elem_join x e lines : x ∉ e → Forall (λ l, x ∉ l) lines → x ∉ join_with e lines.
Proof.
  intros He. induction 1 as [|l lines Hl Hls IH]; [apply not_elem_of_nil|].
  destruct lines; [done|]. cbn [join_with]. rewrite !elem_of_app. tauto.
Qed.

Lemma not_elem_terminator x e : x ≠ CR → x ≠ LF → terminator e → x ∉ e.
Proof.
  intros Hcr Hlf [->|[->| ->]]; rewrite ?elem_of_cons, ?elem_of_nil; tauto.
Qed.

Definition text_line (l : text) : Prop := plain l ∧ (0 ∉ l) ∧ (BOM ∉ l).
Definition ends_with_newline (raw : list N) : bool :=
  bool_decide (last raw = Some LF) || bool_decide (last raw = Some CR).

(** a replacement keeps the framing of the file it replaces. The text it
    writes splits into exactly the lines given; it has a byte order mark just
    when the old file had one, every line ends in the same ending, one that no
    other ending outnumbers in the old file, and the last line is terminated
    just when the old file's last line was. *)
Theorem replacement_keeps_framing (lines : list text) (source : list N) :
  N.of_nat (length source) ≤ U64_MAX →
  Forall text_line lines → lines ≠ [] →
  let raw := if has_bom source then drop 3 source else source in
  let e := dominant_ending raw in
  let final := ends_with_newline raw in
  final = true ∨ last lines ≠ Some [] →
  (∃ t, render_replacement lines source = into_bytes t ∧
     split_lines t = Ok (has_bom source,
       set_last_ending (if final then e else []) ((λ v, {| value := v; ending := e |}) <$> lines))) ∧
  terminator e ∧
  (∀ e', terminator e' →
     occurrences e' (split_from [] raw) ≤ occurrences e (split_from [] raw)).
Proof.
  intros Hmax Hlines Hne raw e final Hlast.
  assert (N.of_nat (length raw) ≤ U64_MAX) as Hraw.
  { unfold raw. destruct (has_bom source); [rewrite length_drop|]; lia. }
  destruct (dominant_ending_spec raw Hraw) as [He Hdom]. fold e in He, Hdom.
  split; [|by split].
  set (body := join_with e lines ++ if final then e else []).
  exists ((if has_bom source then [BOM] else []) ++ body). split.
  { unfold render_replacement. fold raw. fold e. unfold body, final, ends_with_newline. done. }
  assert (∀ x, x ≠ CR → x ≠ LF → Forall (λ l, x ∉ l) lines → x ∉ body) as Hbody.
  { intros x ?? Hx. unfold body. rewrite elem_of_app. pose proof (not_elem_terminator x e).
    pose proof (not_elem_join x e lines). destruct final; [tauto|]. rewrite elem_of_nil. tauto. }
  assert (0 ∉ body) as Hnul by (apply Hbody; [done..|]; eapply Forall_impl; [exact Hlines|]; by intros ? (_ & ? & _)).
  assert (BOM ∉ body) as Hbom by (apply Hbody; [done..|]; eapply Forall_impl; [exact Hlines|]; by intros ? (_ & _ & ?)).
  assert (split_lines ((if has_bom source then [BOM] else []) ++ body) = Ok (has_bom source, split_from [] body)) as ->.
  { unfold split_lines, starts_with. destruct (has_bom source).
    - rewrite (proj2 (strip_prefix_Some [BOM] _ _) eq_refl). simpl. by rewrite decide_False.
    - assert (strip_prefix [BOM] ([] ++ body) = None) as ->.
      { destruct (strip_prefix [BOM] _) eqn:Hs; [|done]. apply strip_prefix_Some in Hs.
        exfalso. apply Hbom. simpl in Hs. rewrite Hs. left. }
      simpl. by rewrite decide_False. }
  unfold body. rewrite split_joined; [done..| |done|done].
  eapply Forall_impl; [exact Hlines|]. by intros ? (? & _).
Qed.

(** ** A concrete plan

    A version here is the length and the bytes' sum; the document moves a file
    over another one, deletes a third and adds a fourth at the vacated path. *)
Definition sample_version (bytes : list N) : FileVersionToken :=
  {| token_digest := [sum_N bytes]; token_byte_len := N.of_nat (length bytes) |}.
Definition bytes_of (s : string) : list N := into_bytes (lit s).
Definition sample_op (k : OperationKind) (p : string) (to : option string) (body : OperationBody)
    (s : option FileVersionToken) (d : option DestinationGuard) : ValidatedOperation :=
  {| operation := {| op_kind := k; op_path := lit p; source_guard := None; destination_guard := None;
       source_guard_line := None; destination_guard_line := None; move_to := lit <$> to;
       op_body := body; op_header_line := 2 |};
     v_source_guard := s; v_destination_guard := d |}.
Definition sample_hunk : Hunk :=
  {| hunk_context := None; hunk_lines := [HRemove (lit "old"); HAdd (lit "new")];
     end_of_file := false; hunk_header_line := 4 |}.
Definition sample_doc : ValidatedPatchDocument :=
  {| v_schema_version := 1; v_input_bytes := 0; v_payload_hash := [];
     v_operations :=
       [sample_op OpUpdate "a" (Some "b"%string) (BUpdate {| hunks := [sample_hunk] |})
          (Some (sample_version (bytes_of "old"))) (Some (Exact (sample_version (bytes_of "goal"))));
        sample_op OpDelete "c" None BDelete None None;
        sample_op OpAdd "a" None (BAdd {| add_lines := [lit "x"; lit "y"] |}) None None] |}.
Definition sample_files : gmap text (list N) :=
  {[ lit "a" := bytes_of "old"; lit "b" := bytes_of "goal"; lit "c" := bytes_of "c";
     lit "d" := bytes_of "kept" ]}.
Definition sample_plan : option (result PlanError PlannedPatch) :=
  plan_with_limits sample_version sample_doc sample_files 128 100.

Example sample_plan_files :
  match sample_plan with
  | Some (Ok plan) => (λ p, file_bytes <$> (workspace plan !! lit p)) <$> ["a"; "b"; "c"; "d"; "e"]%string
  | _ => []
  end = [Some (bytes_of "x" ++ LF :: bytes_of "y"); Some (bytes_of "new"); None; Some (bytes_of "kept"); None].
Proof. by vm_compute. Qed.

Lemma plan_is_faithful_log_witness :
  match sample_plan with
  | Some (Ok plan) => replay sample_files (planned_operations plan) = Some (file_bytes <$> workspace plan) ∧
      length (planned_operations plan) = 3%nat
  | _ => False
  end.
Proof.
  destruct sample_plan as [[plan|e]|] eqn:Hp; [|vm_compute in Hp; discriminate..].
  destruct (plan_is_faithful_log sample_version sample_doc sample_files 128 100 plan Hp)
    as (Hreplay & _ & Hlen & _).
  split; [exact Hreplay|exact Hlen].
Defined.

Lemma plan_respects_guards_witness :
  match sample_plan with
  | Some (Ok plan) =>
      let cs := planned_operations plan in
      length cs = length (v_operations sample_doc) ∧
      ∀ i op c, v_operations sample_doc !! i = Some op → cs !! i = Some c →
        ∃ files, replay sample_files (take i cs) = Some files ∧ guards_respected sample_version sample_files files op c
  | _ => False
  end.
Proof.
  destruct sample_plan as [[plan|e]|] eqn:Hp; [|vm_compute in Hp; discriminate..].
  exact (plan_respects_guards sample_version sample_doc sample_files 128 100 plan Hp).
Defined.

(** A move back to the vacated path is a cycle. *)
Definition move_there : list ValidatedOperation :=
  [sample_op OpUpdate "a" (Some "e"%string) (BUpdate {| hunks := [sample_hunk] |}) None None].
Definition after_move : option (result PlanError (plan_state * list PlannedChange)) :=
  plan_operations sample_version {| ws := real_file sample_version <$> sample_files; edges := ∅ |} 0
    move_there 128 100 0.
Lemma move_cycles_refused_exactly_witness :
  match after_move with
  | Some (Ok (st, _)) => ∃ r, check_move st 1 (lit "e") (Some (lit "a")) = Some r ∧
      (r = Ok () ↔ ¬ tc (moved (edges st)) (lit "a") (lit "e"))
  | _ => False
  end.
Proof.
  destruct after_move as [[[st cs]|e]|] eqn:Hp; [|vm_compute in Hp; discriminate..].
  destruct (move_cycles_refused_exactly sample_version move_there sample_files 128 100 st cs 1
    (lit "e") (lit "a") Hp ltac:(discriminate)) as [(r & Hr & Hiff & _) _].
  exists r. split; [exact Hr|exact Hiff].
Defined.

Lemma replacement_keeps_framing_witness :
  ∃ t, render_replacement [lit "final"] (bom_bytes ++ bytes_of "old" ++ [CR; LF]) = into_bytes t ∧
    split_lines t = Ok (true, [{| value := lit "final"; ending := [CR; LF] |}]).
Proof.
  destruct (replacement_keeps_framing [lit "final"] (bom_bytes ++ bytes_of "old" ++ [CR; LF])) as [H _].
  - vm_compute. discriminate.
  - constructor; [|constructor]. split; [split|split]; apply (bool_decide_unpack _); vm_compute; exact I.
  - discriminate.
  - left. vm_compute. reflexivity.
  - exact H.
Defined.
