(* ===== verification/TargetLocks.v ===== *)
(** * Locks on the targets of file mutations

    Models [crates/tools/src/apply_patch/file_mutation/locks.rs]: a registry of
    locks on identities of files, all of which a request takes at once, in the
    order of their tickets where they conflict. The critical sections under the
    mutex are functions; a step relation interleaves them with the threads that wait
    on the condition variable, wake for any reason and give up at their deadline,
    and with the guards that are dropped.

    The mutex is never poisoned: nothing under it panics, as is shown. [Instant]s
    are readings of one monotone clock, an overflow of the deadline is left out. *)
From S2P Require Import Prelude Ordered.
Local Open Scope N_scope.

Record LockEntry := { held : bool; queue : list N }.
#[export] Instance LockEntry_fields : Fields LockEntry := λ e, {| held := held e; queue := queue e |}.
#[export] Instance LockEntry_eq_dec : EqDecision LockEntry.
Proof. solve_decision. Defined.
Record RegistryState := { next_ticket : N; entries : gmap text LockEntry }.
#[export] Instance RegistryState_fields : Fields RegistryState := λ s, {| next_ticket := next_ticket s; entries := entries s |}.
Definition empty_registry : RegistryState := {| next_ticket := 0; entries := ∅ |}.
Inductive LockErrorCode := EmptyTargetSet | Timeout | Poisoned.
#[export] Instance LockErrorCode_eq_dec : EqDecision LockErrorCode.
Proof. solve_decision. Defined.

(** ** Critical sections *)

(** [Vec::dedup]: equal neighbours once. *)
Fixpoint dedup (l : list text) : list text :=
  match l with
  | x :: l =>
      match dedup l with
      | y :: rest => if decide (x = y) then y :: rest else x :: y :: rest
      | [] => [x]
      end
  | [] => []
  end.
Definition lock_keys (identities : list text) : list text := dedup (sort_on id identities).

(** [for key in keys]: the entry of each key is changed. *)
Definition for_keys (change : option LockEntry → option LockEntry) (keys : list text) (m : gmap text LockEntry)
    : gmap text LockEntry := foldl (λ m key, partial_alter change key m) m keys.
Definition enqueue (keys : list text) (s : RegistryState) : N * RegistryState :=
  let ticket := next_ticket s in
  (ticket,
   (s <| next_ticket := (next_ticket s + 1) `mod` (U64_MAX + 1) |>)
     <| entries := for_keys (λ entry,
          let entry := default {| held := false; queue := [] |} entry in
          Some (entry <| queue := queue entry ++ [ticket] |>)) keys (entries s) |>).
Definition can_acquire (keys : list text) (ticket : N) (s : RegistryState) : bool :=
  forallb (λ key,
    match entries s !! key with
    | Some entry => negb (held entry) && bool_decide (head (queue entry) = Some ticket)
    | None => false
    end) keys.
Definition take_locks (keys : list text) (s : RegistryState) : result failure RegistryState :=
  foldlM (λ s key,
    match entries s !! key with
    | Some entry => Ok (s <| entries := <[key := {| held := true; queue := tail (queue entry) |}]> (entries s) |>)
    | None => Err (Panic "queued lock entry")
    end) s keys.
Definition retain_used (s : RegistryState) : RegistryState :=
  s <| entries := filter (λ '(_, entry), held entry = true ∨ queue entry ≠ []) (entries s) |>.
Definition remove_ticket (keys : list text) (ticket : N) (s : RegistryState) : RegistryState :=
  retain_used (s <| entries := for_keys (fmap (λ entry,
    entry <| queue := filter (λ queued, queued ≠ ticket) (queue entry) |>)) keys (entries s) |>).
Definition release (keys : list text) (s : RegistryState) : RegistryState :=
  retain_used (s <| entries := for_keys (fmap (λ entry, entry <| held := false |>)) keys (entries s) |>).

(** The body of the loop of [acquire_keys] up to its wait. *)
Inductive turn := Granted | GaveUp | Waits.
Definition try_acquire (now deadline : N) (keys : list text) (ticket : N) (s : RegistryState)
    : result failure (RegistryState * turn) :=
  if can_acquire keys ticket s then (s' ← take_locks keys s; Ok (s', Granted))
  else if decide (deadline ≤ now) then Ok (remove_ticket keys ticket s, GaveUp)
  else Ok (s, Waits).

(** ** Threads *)

(** A call inside [acquire_keys], waiting on the condition variable; [notified]
    when a notification it has not consumed was meant for it. *)
Record thread := { ticket : N; keys : list text; deadline : N; notified : bool }.
#[export] Instance thread_fields : Fields thread := λ t,
  {| ticket := ticket t; keys := keys t; deadline := deadline t; notified := notified t |}.
#[export] Instance thread_eq_dec : EqDecision thread.
Proof. solve_decision. Defined.
Record system := {
  registry : RegistryState;
  clock : N;
  threads : list thread;              (* in the order in which they entered *)
  guards : list (N * list text);      (* live guards, by ticket *)
  answers : list (N * result LockErrorCode ());
  tickets : N;                        (* how many were given *)
}.
#[export] Instance system_fields : Fields system := λ s,
  {| registry := registry s; clock := clock s; threads := threads s; guards := guards s; answers := answers s; tickets := tickets s |}.
Definition new : system :=
  {| registry := empty_registry; clock := 0; threads := []; guards := []; answers := []; tickets := 0 |}.

Definition notify_all (ts : list thread) : list thread := (λ t, t <| notified := true |>) <$> ts.
Definition without (n : N) (ts : list thread) : list thread := filter (λ t, ticket t ≠ n) ts.
Definition park (n : N) (ts : list thread) : list thread :=
  (λ t, if decide (ticket t = n) then t <| notified := false |> else t) <$> ts.
Definition find_thread (n : N) (s : system) : option thread := find (λ t, bool_decide (ticket t = n)) (threads s).

(** One thread runs the loop of [acquire_keys] until it returns or waits. *)
Definition take_turn (t : thread) (s : system) : result failure system :=
  '(registry', turn) ← try_acquire (clock s) (deadline t) (keys t) (ticket t) (registry s);
  let s := s <| registry := registry' |> in
  Ok match turn with
     | Granted =>
         ((s <| threads := without (ticket t) (threads s) |>) <| guards := guards s ++ [(ticket t, keys t)] |>)
           <| answers := answers s ++ [(ticket t, Ok ())] |>
     | GaveUp =>
         (s <| threads := notify_all (without (ticket t) (threads s)) |>)
           <| answers := answers s ++ [(ticket t, Err Timeout)] |>
     | Waits => s <| threads := park (ticket t) (threads s) |>
     end.

(** [None]: the operation is not possible. A request without targets is refused
    before it takes a ticket. *)
Definition acquire (identities : list text) (deadline : N) (s : system) : option (result failure (result LockErrorCode system)) :=
  let keys := lock_keys identities in
  if decide (keys = []) then Some (Ok (Err EmptyTargetSet))
  else
    let '(n, registry') := enqueue keys (registry s) in
    let t := {| ticket := n; keys := keys; deadline := deadline; notified := false |} in
    Some (s' ← take_turn t (((s <| registry := registry' |>) <| threads := threads s ++ [t] |>) <| tickets := tickets s + 1 |>);
          Ok (Ok s')).
(** A wait that did not time out: notified or not, the loop runs again. *)
Definition resume (n : N) (s : system) : option (result failure system) :=
  t ← find_thread n s; Some (take_turn t s).
(** A wait that timed out. *)
Definition expire (n : N) (s : system) : option (result failure system) :=
  t ← find_thread n s;
  if decide (deadline t ≤ clock s) then
    Some (Ok (((s <| registry := remove_ticket (keys t) n (registry s) |>)
                 <| threads := notify_all (without n (threads s)) |>)
                <| answers := answers s ++ [(n, Err Timeout)] |>))
  else None.
(** [Drop for TargetLockGuard]. *)
Definition drop_guard (n : N) (s : system) : option (result failure system) :=
  '(_, ks) ← find (λ guard, bool_decide (guard.1 = n)) (guards s);
  Some (Ok (((s <| registry := release ks (registry s) |>)
               <| guards := filter (λ guard, guard.1 ≠ n) (guards s) |>)
              <| threads := notify_all (threads s) |>)).

Inductive action :=
  | Acquire (identities : list text) (deadline : N)
  | Resume (n : N) | Expire (n : N) | DropGuard (n : N) | Tick (elapsed : N).
Definition act (s : system) (a : action) : option (result failure system) :=
  match a with
  | Acquire identities deadline =>
      match acquire identities deadline s with
      | Some (Ok (Ok s')) => Some (Ok s')
      | Some (Ok (Err _)) => Some (Ok s)
      | Some (Err e) => Some (Err e)
      | None => None
      end
  | Resume n => resume n s
  | Expire n => expire n s
  | DropGuard n => drop_guard n s
  | Tick elapsed => Some (Ok (s <| clock := clock s + elapsed |>))
  end.
Definition step (s s' : system) : Prop := ∃ a, act s a = Some (Ok s').
Definition reachable (s : system) : Prop := rtc step new s.
(** The steps that need neither a new request nor the clock. *)
Definition owner_step (s s' : system) : Prop :=
  (∃ n, act s (DropGuard n) = Some (Ok s')) ∨
  (∃ t, t ∈ threads s ∧ notified t = true ∧ act s (Resume (ticket t)) = Some (Ok s')).
Fixpoint run (actions : list action) (s : system) : option (result failure system) :=
  match actions with
  | [] => Some (Ok s)
  | a :: rest => match act s a with Some (Ok s') => run rest s' | other => other end
  end.

(** ** The contract

    What the registry implements: a request holds or waits for a set of keys; it
    may go on exactly when nobody holds and nobody before it awaits one of them. *)
Definition conflicts (ks ks' : list text) : Prop := ∃ k, k ∈ ks ∧ k ∈ ks'.
Definition may_go (n : N) (ks : list text) (s : system) : Prop :=
  (∀ g, g ∈ guards s → ¬ conflicts g.2 ks) ∧ (∀ t, t ∈ threads s → ticket t < n → ¬ conflicts (keys t) ks).
(** What the entry of a key says. *)
Definition queue_of (k : text) (ts : list thread) : list N := ticket <$> filter (λ t, k ∈ keys t) ts.
Definition held_by (k : text) (gs : list (N * list text)) : bool := existsb (λ g, bool_decide (k ∈ g.2)) gs.
Definition entry_of (k : text) (ts : list thread) (gs : list (N * list text)) : option LockEntry :=
  if decide (held_by k gs = true ∨ queue_of k ts ≠ []) then Some {| held := held_by k gs; queue := queue_of k ts |} else None.

(** ** Lemmas *)

Section dedup_lemmas.
Lemma elem_dedup l x : x ∈ dedup l ↔ x ∈ l.
Proof.
  induction l as [|y l IH]; [done|]. cbn. destruct (dedup l) as [|z rest].
  - rewrite !elem_of_cons, <-IH. set_solver.
  - case_decide; subst; rewrite !elem_of_cons, <-IH; set_solver.
Qed.
Lemma lock_dedup_sorted l : StronglySorted (key_leq id) l → StronglySorted (key_lt id) (dedup l).
Proof.
  induction 1 as [|x l Hl IH Hx]; [constructor|]. cbn.
  assert (Forall (key_leq id x) (dedup l)) as Hd.
  { rewrite Forall_forall in Hx |- *. intros y Hy. rewrite elem_dedup in Hy. exact (Hx y Hy). }
  destruct (dedup l) as [|y rest]; [by repeat constructor|]. case_decide as Hxy; [done|].
  constructor; [done|]. apply StronglySorted_inv in IH as [IH Hy]. apply Forall_cons in Hd as [[Hlt|Heq]%key_leq_spec Hd]; [|done].
  constructor; [done|]. eapply Forall_impl; [exact Hy|]. intros z Hz. by eapply key_lt_trans.
Qed.
(** The keys of a request are its identities, each once. *)
Lemma lock_keys_spec l : NoDup (lock_keys l) ∧ ∀ k, k ∈ lock_keys l ↔ k ∈ l.
Proof.
  split.
  - pose proof (lock_dedup_sorted _ (sort_on_sorted id l)) as H. fold (lock_keys l) in H.
    induction H as [|x l' Hl' IH Hx]; constructor; [|done]. intros Hin. rewrite Forall_forall in Hx.
    by apply (key_lt_irrefl id x), Hx.
  - intros k. unfold lock_keys. by rewrite elem_dedup, (sort_on_perm id l).
Qed.
End dedup_lemmas.

Lemma for_keys_lookup f ks m k :
  NoDup ks → for_keys f ks m !! k = if decide (k ∈ ks) then f (m !! k) else m !! k.
Proof.
  intros Hnd. revert m. induction Hnd as [|x ks Hx Hnd IH]; intros m; [done|]. cbn. unfold for_keys in IH. rewrite IH.
  destruct (decide (k = x)) as [->|Hne].
  - rewrite decide_False by done. rewrite decide_True by left. by rewrite lookup_partial_alter_eq.
  - rewrite lookup_partial_alter_ne by done. destruct (decide (k ∈ ks)) as [Hin|Hin].
    + by rewrite decide_True by (by right).
    + rewrite decide_False; [done|]. by apply not_elem_of_cons.
Qed.
Lemma take_locks_spec ks s :
  NoDup ks → (∀ k, k ∈ ks → is_Some (entries s !! k)) →
  take_locks ks s = Ok (s <| entries := for_keys (fmap (λ e, {| held := true; queue := tail (queue e) |})) ks (entries s) |>).
Proof.
  intros Hnd. revert s. induction Hnd as [|x ks Hx Hnd IH]; intros s Hs; [by destruct s|].
  destruct (Hs x) as [e He]; [left|]. unfold take_locks in *. cbn [foldlM]. rewrite He. cbn [mbind result_bind]. rewrite IH.
  - unfold update. cbn. do 2 f_equal. unfold for_keys. cbn. f_equal.
    apply map_eq. intros k. destruct (decide (k = x)) as [->|Hne].
    + by rewrite lookup_insert_eq, lookup_partial_alter_eq, He.
    + by rewrite lookup_insert_ne, lookup_partial_alter_ne.
  - intros k Hk. cbn. rewrite lookup_insert_ne by (by intros <-). apply Hs. by right.
Qed.
Lemma retain_used_lookup s k :
  entries (retain_used s) !! k =
  match entries s !! k with Some e => if decide (held e = true ∨ queue e ≠ []) then Some e else None | None => None end.
Proof.
  cbn. rewrite map_lookup_filter. destruct (entries s !! k) as [e|]; cbn; [|done]. unfold guard. repeat case_decide; done || tauto.
Qed.

Section queues.
Implicit Types (ts : list thread) (k : text).

Lemma elem_queue_of k ts n : n ∈ queue_of k ts ↔ ∃ t, t ∈ ts ∧ ticket t = n ∧ k ∈ keys t.
Proof. unfold queue_of. rewrite list_elem_of_fmap. setoid_rewrite list_elem_of_filter. naive_solver. Qed.
Lemma queue_of_snoc k ts t : queue_of k (ts ++ [t]) = queue_of k ts ++ if decide (k ∈ keys t) then [ticket t] else [].
Proof. unfold queue_of. rewrite filter_app, fmap_app, filter_cons, filter_nil. f_equal. by case_decide. Qed.
Lemma queue_of_without k n ts : queue_of k (without n ts) = filter (λ queued, queued ≠ n) (queue_of k ts).
Proof.
  unfold queue_of, without. induction ts as [|t ts IH]; [done|]. rewrite !filter_cons.
  destruct (decide (ticket t ≠ n)), (decide (k ∈ keys t)); rewrite ?filter_cons, ?fmap_cons, ?filter_cons;
    repeat (first [rewrite decide_True by done|rewrite decide_False by done]); cbn [fmap list_fmap]; by rewrite ?IH.
Qed.
Lemma queue_of_map k (f : thread → thread) ts :
  (∀ t, ticket (f t) = ticket t ∧ keys (f t) = keys t) → queue_of k (f <$> ts) = queue_of k ts.
Proof.
  intros Hf. unfold queue_of. induction ts as [|t ts IH]; [done|]. rewrite fmap_cons, !filter_cons. destruct (Hf t) as [Ht Hk].
  rewrite Hk. case_decide; rewrite ?fmap_cons, ?IH, ?Ht; done.
Qed.
Lemma queue_of_notify k ts : queue_of k (notify_all ts) = queue_of k ts.
Proof. by apply queue_of_map. Qed.
Lemma queue_of_park k n ts : queue_of k (park n ts) = queue_of k ts.
Proof. apply queue_of_map. intros t. by case_decide. Qed.
Lemma held_by_spec k gs : held_by k gs = true ↔ ∃ g, g ∈ gs ∧ k ∈ g.2.
Proof. unfold held_by. rewrite existsb_elem. by setoid_rewrite bool_decide_eq_true. Qed.
Lemma held_by_snoc k gs g : held_by k (gs ++ [g]) = held_by k gs || bool_decide (k ∈ g.2).
Proof. unfold held_by. rewrite existsb_app. cbn. by rewrite orb_false_r. Qed.
Lemma held_by_false k gs : held_by k gs = false ↔ ∀ g, g ∈ gs → k ∉ g.2.
Proof. rewrite <-not_true_iff_false, held_by_spec. naive_solver. Qed.

Lemma head_sorted (l : list N) n : StronglySorted N.lt l → n ∈ l → head l = Some n ↔ ∀ m, m ∈ l → ¬ m < n.
Proof.
  intros Hl Hn. destruct Hl as [|x l Hl Hx]; [by apply elem_of_nil in Hn|]. cbn. rewrite Forall_forall in Hx. split.
  - intros [= ->] m [->|Hm]%elem_of_cons; [lia|]. specialize (Hx m Hm). lia.
  - intros H. apply elem_of_cons in Hn as [->|Hn]; [done|]. specialize (Hx n Hn). destruct (H x); [left|lia].
Qed.
Lemma queue_of_sorted k ts : StronglySorted N.lt (ticket <$> ts) → StronglySorted N.lt (queue_of k ts).
Proof.
  unfold queue_of. induction ts as [|t ts IH]; intros H; [constructor|]. rewrite fmap_cons in H.
  apply StronglySorted_inv in H as [Hts Ht]. rewrite filter_cons. case_decide; [|by apply IH]. rewrite fmap_cons.
  constructor; [by apply IH|]. rewrite Forall_forall in Ht |- *. intros n (t' & -> & [_ Hin]%list_elem_of_filter)%list_elem_of_fmap.
  apply Ht. by apply list_elem_of_fmap_2.
Qed.
End queues.

(** ** The invariant *)

(** What holds whenever the mutex is taken or given back. *)
Record locks_core (s : system) : Prop := {
  ok_next : next_ticket (registry s) = tickets s `mod` (U64_MAX + 1);
  ok_order : StronglySorted N.lt (ticket <$> threads s);
  ok_given : Forall (λ n, n < tickets s) ((ticket <$> threads s) ++ (guards s).*1);
  ok_fresh : ∀ t, t ∈ threads s → ticket t ∉ (guards s).*1;
  ok_guard_ids : NoDup (guards s).*1;
  ok_keys : ∀ t, t ∈ threads s → NoDup (keys t) ∧ keys t ≠ [];
  ok_guard_keys : ∀ g, g ∈ guards s → NoDup g.2;
  ok_disjoint : ∀ g g', g ∈ guards s → g' ∈ guards s → conflicts g.2 g'.2 → g = g';
  ok_entries : ∀ k, entries (registry s) !! k = entry_of k (threads s) (guards s);
}.
(** Whoever may go has been told. *)
Definition told (s : system) (t : thread) : Prop := may_go (ticket t) (keys t) s → notified t = true.
Definition locks_ok (s : system) : Prop := locks_core s ∧ ∀ t, t ∈ threads s → told s t.

Lemma sorted_unique (ts : list thread) t t' :
  StronglySorted N.lt (ticket <$> ts) → t ∈ ts → t' ∈ ts → ticket t = ticket t' → t = t'.
Proof.
  induction ts as [|x ts IH]; intros Hs Ht Ht' Heq; [by apply elem_of_nil in Ht|].
  apply StronglySorted_inv in Hs as [Hs Hx]. rewrite Forall_forall in Hx.
  apply elem_of_cons in Ht as [->|Ht], Ht' as [->|Ht']; [done|..|by apply IH].
  - specialize (Hx (ticket t')). rewrite Heq in Hx. destruct (N.lt_irrefl (ticket t')). apply Hx. by apply list_elem_of_fmap_2.
  - specialize (Hx (ticket t)). rewrite <-Heq in Hx. destruct (N.lt_irrefl (ticket t)). apply Hx. by apply list_elem_of_fmap_2.
Qed.
Lemma elem_without n ts t : t ∈ without n ts ↔ t ∈ ts ∧ ticket t ≠ n.
Proof. unfold without. rewrite list_elem_of_filter. tauto. Qed.
Lemma sorted_filter (P : thread → Prop) `{!∀ t, Decision (P t)} ts :
  StronglySorted N.lt (ticket <$> ts) → StronglySorted N.lt (ticket <$> filter P ts).
Proof.
  induction ts as [|t ts IH]; intros Hall; [constructor|]. rewrite fmap_cons in Hall. apply StronglySorted_inv in Hall as [Hs Ht].
  rewrite filter_cons. case_decide; [|by apply IH]. rewrite fmap_cons. constructor; [by apply IH|].
  rewrite Forall_forall in Ht |- *. intros n (t' & -> & [_ Hin]%list_elem_of_filter)%list_elem_of_fmap. apply Ht. by apply list_elem_of_fmap_2.
Qed.

(** The registry lets a thread go exactly when the contract does. *)
Lemma can_acquire_spec s t :
  locks_core s → t ∈ threads s → can_acquire (keys t) (ticket t) (registry s) = true ↔ may_go (ticket t) (keys t) s.
Proof.
  intros Hok Ht. unfold can_acquire, may_go, conflicts. rewrite forallb_forall. setoid_rewrite <-list_elem_of_In.
  assert (∀ k, k ∈ keys t → ticket t ∈ queue_of k (threads s)) as Hin by (intros k Hk; apply elem_queue_of; by exists t).
  assert (∀ k, k ∈ keys t →
    match entries (registry s) !! k with
    | Some e => negb (held e) && bool_decide (head (queue e) = Some (ticket t)) | None => false end = true ↔
    (∀ g, g ∈ guards s → k ∉ g.2) ∧ ∀ t', t' ∈ threads s → ticket t' < ticket t → k ∉ keys t') as Hkey.
  { intros k Hk. rewrite (ok_entries s Hok). unfold entry_of. specialize (Hin k Hk).
    rewrite decide_True by (right; intros Hnil; rewrite Hnil in Hin; by apply elem_of_nil in Hin). cbn.
    rewrite andb_true_iff, negb_true_iff, bool_decide_eq_true, held_by_false, head_sorted;
      [|apply queue_of_sorted, (ok_order s Hok)|done].
    setoid_rewrite elem_queue_of. naive_solver. }
  split.
  - intros H. split.
    + intros g Hg (k & Hkg & Hk). destruct (Hkey k Hk) as [Hk1 _]. destruct (Hk1 (H k Hk)) as [Hk2 _]. by apply (Hk2 g).
    + intros t' Ht' Hlt (k & Hk' & Hk). destruct (Hkey k Hk) as [Hk1 _]. destruct (Hk1 (H k Hk)) as [_ Hk2]. by apply (Hk2 t').
  - intros [Hg Ht'] k Hk. apply (Hkey k Hk). split.
    + intros g Hin' Hkg. apply (Hg g Hin'). by exists k.
    + intros t' Hin' Hlt Hkt. apply (Ht' t' Hin' Hlt). by exists k.
Qed.

(** What [entry_of] says of a request that enters, goes, leaves, and of a guard. *)
Section entry_lemmas.
Implicit Types (ts : list thread) (gs : list (N * list text)) (k : text).

Lemma entry_of_enter k ts gs t :
  entry_of k (ts ++ [t]) gs =
  if decide (k ∈ keys t) then
    Some (let e := default {| held := false; queue := [] |} (entry_of k ts gs) in e <| queue := queue e ++ [ticket t] |>)
  else entry_of k ts gs.
Proof.
  unfold entry_of. rewrite queue_of_snoc. destruct (decide (k ∈ keys t)) as [Hk|Hk]; [|by rewrite app_nil_r].
  rewrite decide_True by (right; by destruct (queue_of k ts)). destruct (decide (held_by k gs = true ∨ queue_of k ts ≠ [])) as [H|H]; [done|].
  assert (held_by k gs = false ∧ queue_of k ts = []) as [-> ->].
  { destruct (held_by k gs), (queue_of k ts); try done; destruct H; auto. }
  done.
Qed.
Lemma filter_ne_head n (l : list N) : StronglySorted N.lt (n :: l) → filter (λ m, m ≠ n) (n :: l) = l.
Proof.
  intros [_ Hn]%StronglySorted_inv. rewrite filter_cons, decide_False by tauto. rewrite Forall_forall in Hn.
  clear -Hn. induction l as [|m l IH]; [done|]. rewrite filter_cons, decide_True.
  - f_equal. apply IH. intros x Hx. apply Hn. by right.
  - intros ->. specialize (Hn n). assert (n < n) by (apply Hn; left). lia.
Qed.
End entry_lemmas.

(** ** Every step keeps it *)

Lemma told_mono s s' t :
  told s t → (may_go (ticket t) (keys t) s' → may_go (ticket t) (keys t) s) → told s' t.
Proof. unfold told. auto. Qed.
Lemma conflicts_sym ks ks' : conflicts ks ks' → conflicts ks' ks.
Proof. intros (k & ? & ?). by exists k. Qed.

(** The locks are taken: the thread becomes a guard. *)
Lemma take_ok s t :
  locks_core s → t ∈ threads s → may_go (ticket t) (keys t) s →
  ∃ registry', take_locks (keys t) (registry s) = Ok registry' ∧
    ∀ answers', locks_core {| registry := registry'; clock := clock s; threads := without (ticket t) (threads s);
      guards := guards s ++ [(ticket t, keys t)]; answers := answers'; tickets := tickets s |}.
Proof.
  intros Hok Ht Hgo. destruct (ok_keys s Hok t Ht) as [Hnd Hne].
  assert (∀ k, k ∈ keys t → entries (registry s) !! k = Some {| held := false; queue := queue_of k (threads s) |} ∧
    ∃ rest, queue_of k (threads s) = ticket t :: rest ∧ StronglySorted N.lt (ticket t :: rest)) as Hk.
  { intros k Hk. assert (ticket t ∈ queue_of k (threads s)) as Hin by (apply elem_queue_of; by exists t).
    pose proof (queue_of_sorted k _ (ok_order s Hok)) as Hs. destruct Hgo as [Hg Hb].
    assert (held_by k (guards s) = false) as Hheld by (apply held_by_false; intros g Hg' Hkg; apply (Hg g Hg'); by exists k).
    assert (head (queue_of k (threads s)) = Some (ticket t)) as Hhead.
    { apply head_sorted; [done..|]. intros m (t' & Ht' & <- & Hk')%elem_queue_of Hlt. apply (Hb t' Ht' Hlt). by exists k. }
    rewrite (ok_entries s Hok). unfold entry_of. destruct (queue_of k (threads s)) as [|x rest]; [done|]. injection Hhead as ->.
    rewrite decide_True by (by right). rewrite Hheld. eauto. }
  eexists. split; [apply take_locks_spec; [done|]; intros k [-> _]%Hk; done|]. intros answers'.
  split; cbn.
  - apply (ok_next s Hok).
  - apply sorted_filter, (ok_order s Hok).
  - pose proof (ok_given s Hok) as H. rewrite Forall_forall in H |- *. intros n Hn. apply H. rewrite fmap_app, !elem_of_app in *.
    destruct Hn as [(t' & -> & [Hin _]%elem_without)%list_elem_of_fmap|[Hn|Hn]]; [left; by apply list_elem_of_fmap_2|by right|].
    apply list_elem_of_singleton in Hn as ->. left. cbn. by apply list_elem_of_fmap_2.
  - intros t' [Hin Hne']%elem_without. rewrite fmap_app. apply not_elem_of_app. split; [by apply (ok_fresh s Hok)|by intros ?%list_elem_of_singleton].
  - rewrite fmap_app. apply NoDup_app. split; [apply (ok_guard_ids s Hok)|]. split; [|apply NoDup_singleton].
    intros n Hn Hn'%list_elem_of_singleton. subst n. by apply (ok_fresh s Hok t Ht).
  - intros t' [Hin _]%elem_without. by apply (ok_keys s Hok).
  - intros g [Hg| ->%list_elem_of_singleton]%elem_of_app; [by apply (ok_guard_keys s Hok)|done].
  - intros g g' [Hg| ->%list_elem_of_singleton]%elem_of_app [Hg'| ->%list_elem_of_singleton]%elem_of_app Hc; [by apply (ok_disjoint s Hok)|..|done].
    + by apply (proj1 Hgo g Hg) in Hc.
    + apply conflicts_sym in Hc. by apply (proj1 Hgo g' Hg') in Hc.
  - intros k. rewrite for_keys_lookup by done. unfold entry_of. rewrite held_by_snoc, queue_of_without. cbn.
    destruct (decide (k ∈ keys t)) as [Hin|Hin].
    + destruct (Hk k Hin) as [-> (rest & -> & Hs)]. rewrite filter_ne_head by done. rewrite bool_decide_true, orb_true_r by done.
      rewrite decide_True by (by left). done.
    + rewrite bool_decide_false, orb_false_r by done. rewrite (ok_entries s Hok). unfold entry_of.
      rewrite (filter_all (λ queued, queued ≠ ticket t)); [done|]. intros n (t' & Ht' & <- & Hk')%elem_queue_of Heq.
      rewrite (sorted_unique _ _ _ (ok_order s Hok) Ht' Ht Heq) in Hk'. done.
Qed.
(** The core does not see the clock, the answers and the notifications. *)
Lemma core_map f s clock' answers' :
  (∀ t, ticket (f t) = ticket t ∧ keys (f t) = keys t) → locks_core s →
  locks_core {| registry := registry s; clock := clock'; threads := f <$> threads s; guards := guards s;
                answers := answers'; tickets := tickets s |}.
Proof.
  intros Hf Hok. assert (ticket <$> (f <$> threads s) = ticket <$> threads s) as Ht.
  { rewrite <-list_fmap_compose. apply list_fmap_ext. intros i x _. apply Hf. }
  destruct Hok. split; cbn; rewrite ?Ht; try done.
  - intros t' (t & -> & Hin)%list_elem_of_fmap. destruct (Hf t) as [-> _]. auto.
  - intros t' (t & -> & Hin)%list_elem_of_fmap. destruct (Hf t) as [_ ->]. auto.
  - intros k. rewrite ok_entries0. unfold entry_of. by rewrite queue_of_map.
Qed.
Lemma notify_keeps t : ticket (t <| notified := true |>) = ticket t ∧ keys (t <| notified := true |>) = keys t.
Proof. done. Qed.
Lemma elem_notify t ts : t ∈ notify_all ts → notified t = true.
Proof. unfold notify_all. by intros (t' & -> & _)%list_elem_of_fmap. Qed.

Arguments retain_used : simpl never.
(** A thread leaves without its locks. *)
Lemma leave_ok s t clock' answers' :
  locks_core s → t ∈ threads s →
  locks_ok {| registry := remove_ticket (keys t) (ticket t) (registry s); clock := clock';
              threads := notify_all (without (ticket t) (threads s)); guards := guards s; answers := answers'; tickets := tickets s |}.
Proof.
  intros Hok Ht. destruct (ok_keys s Hok t Ht) as [Hnd _]. split; [|intros t' Ht' _; by apply elem_notify in Ht'].
  apply (core_map _ {| registry := remove_ticket (keys t) (ticket t) (registry s); clock := clock'; threads := without (ticket t) (threads s); guards := guards s;
    answers := answers'; tickets := tickets s |}); [apply notify_keeps|]. split; cbn [registry threads guards tickets].
  - apply (ok_next s Hok).
  - apply sorted_filter, (ok_order s Hok).
  - pose proof (ok_given s Hok) as H. rewrite Forall_forall in H |- *. intros n Hn. apply H. rewrite !elem_of_app in *.
    destruct Hn as [(t' & -> & [Hin _]%elem_without)%list_elem_of_fmap|Hn]; [left; by apply list_elem_of_fmap_2|by right].
  - intros t' [Hin _]%elem_without. by apply (ok_fresh s Hok).
  - apply (ok_guard_ids s Hok).
  - intros t' [Hin _]%elem_without. by apply (ok_keys s Hok).
  - apply (ok_guard_keys s Hok).
  - apply (ok_disjoint s Hok).
  - intros k. unfold remove_ticket. rewrite retain_used_lookup. cbn. rewrite for_keys_lookup by done.
    rewrite (ok_entries s Hok). unfold entry_of. rewrite queue_of_without.
    destruct (decide (k ∈ keys t)) as [Hin|Hin].
    + destruct (decide (held_by k (guards s) = true ∨ queue_of k (threads s) ≠ [])) as [H|H]; cbn; [done|].
      rewrite decide_False; [done|]. intros [Hh|Hq]; [tauto|]. apply Hq.
      destruct (queue_of k (threads s)) as [|m rest]; [done|]. exfalso. apply H. by right.
    + rewrite (filter_all (λ queued, queued ≠ ticket t)).
      * by destruct (decide (held_by k (guards s) = true ∨ queue_of k (threads s) ≠ [])); [rewrite decide_True|].
      * intros n (t' & Ht' & <- & Hk')%elem_queue_of Heq. by rewrite (sorted_unique _ _ _ (ok_order s Hok) Ht' Ht Heq) in Hk'.
Qed.

Lemma NoDup_fst_eq {A B} (l : list (A * B)) a b b' : NoDup l.*1 → (a, b) ∈ l → (a, b') ∈ l → b = b'.
Proof.
  induction l as [|[x y] l IH]; intros Hnd Hb Hb'; [by apply elem_of_nil in Hb|].
  rewrite fmap_cons in Hnd. apply NoDup_cons in Hnd as [Hx Hnd]. apply elem_of_cons in Hb as [[= -> ->]|Hb], Hb' as [[= ?]|Hb'].
  - done.
  - by apply (list_elem_of_fmap_2 fst) in Hb'.
  - subst. by apply (list_elem_of_fmap_2 fst) in Hb.
  - by apply IH.
Qed.

(** A guard is dropped. *)
Lemma drop_ok s n ks gs' clock' answers' :
  locks_core s → (n, ks) ∈ guards s → gs' = filter (λ guard, guard.1 ≠ n) (guards s) →
  locks_ok {| registry := release ks (registry s); clock := clock'; threads := notify_all (threads s);
              guards := gs'; answers := answers'; tickets := tickets s |}.
Proof.
  intros Hok Hg Hgs. pose proof (ok_guard_keys s Hok _ Hg) as Hnd. split; [|intros t' Ht' _; by apply elem_notify in Ht'].
  apply (core_map _ {| registry := release ks (registry s); clock := clock'; threads := threads s; guards := gs';
    answers := answers'; tickets := tickets s |}); [apply notify_keeps|].
  assert (∀ g, g ∈ gs' ↔ g.1 ≠ n ∧ g ∈ guards s) as Helem by (intros g; by rewrite Hgs, list_elem_of_filter).
  assert (∀ g, g ∈ gs' → g ∈ guards s) as Hsub by (intros g; rewrite Helem; tauto).
  assert (∀ m, m ∈ gs'.*1 → m ∈ (guards s).*1) as Hsub1.
  { intros m (g & -> & Hin)%list_elem_of_fmap. by apply list_elem_of_fmap_2, Hsub. }
  assert (∀ g, g ∈ guards s → g.1 = n → g = (n, ks)) as Hsame.
  { intros g Hin <-. pose proof (ok_guard_ids s Hok) as Hids. destruct g as [m ks']. by rewrite (NoDup_fst_eq _ m ks' ks Hids Hin Hg). }
  split; cbn [registry threads guards tickets].
  - apply (ok_next s Hok).
  - apply (ok_order s Hok).
  - pose proof (ok_given s Hok) as H. rewrite Forall_forall in H |- *. intros m Hm. apply H. rewrite !elem_of_app in *. naive_solver.
  - intros t Ht Hin. by apply (ok_fresh s Hok t Ht), Hsub1.
  - pose proof (ok_guard_ids s Hok) as Hids. eapply sublist_NoDup; [exact Hids|]. rewrite Hgs. apply fmap_sublist, sublist_filter.
  - apply (ok_keys s Hok).
  - intros g Hin. by apply (ok_guard_keys s Hok), Hsub.
  - intros g g' Hin Hin'. apply (ok_disjoint s Hok); auto.
  - intros k. unfold release. rewrite retain_used_lookup. cbn. rewrite for_keys_lookup by done.
    rewrite (ok_entries s Hok). unfold entry_of. destruct (decide (k ∈ ks)) as [Hin|Hin].
    + assert (held_by k gs' = false) as ->.
      { apply held_by_false. intros g Hg' Hkg. apply Helem in Hg' as [Hne Hin']. apply Hne.
        assert (g = (n, ks)) as -> by (apply (ok_disjoint s Hok); [done..|by exists k]). done. }
      assert (held_by k (guards s) = true) as -> by (apply held_by_spec; eauto). rewrite decide_True by (by left). cbn. done.
    + assert (held_by k gs' = held_by k (guards s)) as ->.
      { apply eq_iff_eq_true. rewrite !held_by_spec. split; [naive_solver|]. intros (g & Hin' & Hkg). exists g. split; [|done].
        apply Helem. split; [|done]. intros Heq. apply Hin. by rewrite (Hsame g Hin' Heq) in Hkg. }
      by destruct (decide (held_by k (guards s) = true ∨ queue_of k (threads s) ≠ [])); [rewrite decide_True|].
Qed.
(** A turn of a thread when all others that may go have been told. *)
Lemma take_turn_ok s t :
  locks_core s → t ∈ threads s → (∀ t', t' ∈ threads s → t' ≠ t → told s t') →
  ∃ s', take_turn t s = Ok s' ∧ locks_ok s' ∧ tickets s' = tickets s ∧
    (may_go (ticket t) (keys t) s →
       threads s' = without (ticket t) (threads s) ∧ guards s' = guards s ++ [(ticket t, keys t)] ∧
       answers s' = answers s ++ [(ticket t, Ok ())]).
Proof.
  intros Hok Ht Htold. pose proof (can_acquire_spec s t Hok Ht) as Hcan. unfold take_turn, try_acquire.
  destruct (can_acquire (keys t) (ticket t) (registry s)).
  - destruct (take_ok s t Hok Ht (proj1 Hcan eq_refl)) as (registry' & Htake & Hcore). rewrite Htake.
    eexists. split; [reflexivity|]. split_and!; [split; [apply Hcore|]|done|done].
    intros t' [Hin Hne]%elem_without. eapply told_mono; [apply Htold; [done|congruence]|]. cbn. intros [Hg Hb]. split.
    + intros g Hin'. apply Hg. apply elem_of_app. by left.
    + intros t'' Hin'' Hlt. destruct (decide (ticket t'' = ticket t)) as [Heq|Hne'].
      * rewrite (sorted_unique _ _ _ (ok_order s Hok) Hin'' Ht Heq). apply (Hg (ticket t, keys t)). apply elem_of_app. right. left.
      * apply Hb; [|done]. by apply elem_without.
  - assert (¬ may_go (ticket t) (keys t) s) as Hnot by (intros H; by apply Hcan in H). cbn [mbind result_bind].
    case_decide.
    + eexists. split; [reflexivity|]. split_and!; [by apply (leave_ok s t (clock s) (answers s ++ [(ticket t, Err Timeout)]))|done|tauto].
    + eexists. split; [reflexivity|]. split_and!; [|done|tauto]. split.
      * apply (core_map (λ t', if decide (ticket t' = ticket t) then t' <| notified := false |> else t')
          s (clock s) (answers s)); [|done]. intros t'. by case_decide.
      * cbn. intros t' (t0 & -> & Hin)%list_elem_of_fmap.
        assert (∀ n ks, may_go n ks {| registry := registry s; clock := clock s; threads := park (ticket t) (threads s);
          guards := guards s; answers := answers s; tickets := tickets s |} → may_go n ks s) as Hback.
        { intros n ks [Hg Hb]. split; [done|]. intros t' Ht' Hlt. cbn in Hb.
          set (f := λ t', if decide (ticket t' = ticket t) then t' <| notified := false |> else t').
          assert (ticket (f t') = ticket t' ∧ keys (f t') = keys t') as [Hft Hfk] by (unfold f; by case_decide).
          rewrite <-Hfk. apply Hb; [by apply (list_elem_of_fmap_2 f)|by rewrite Hft]. }
        case_decide as Heq.
        -- intros Hgo%Hback. cbn in Hgo. rewrite (sorted_unique _ _ _ (ok_order s Hok) Hin Ht Heq) in Hgo. done.
        -- intros Hgo%Hback. apply (Htold t0); [done|congruence|done].
Qed.

(** A request enters with the next ticket. *)
Lemma enter_ok s ks n registry' deadline :
  locks_ok s → tickets s ≤ U64_MAX → NoDup ks → ks ≠ [] → enqueue ks (registry s) = (n, registry') →
  let t := {| ticket := n; keys := ks; deadline := deadline; notified := false |} in
  let s' := ((s <| registry := registry' |>) <| threads := threads s ++ [t] |>) <| tickets := tickets s + 1 |> in
  n = tickets s ∧ locks_core s' ∧ ∀ t', t' ∈ threads s' → t' ≠ t → told s' t'.
Proof.
  intros [Hok Htold] Hmax Hnd Hne [= <- <-]. rewrite (ok_next s Hok), N.mod_small by (unfold U64_MAX in *; lia).
  split; [done|]. pose proof (ok_given s Hok) as Hgiven. rewrite Forall_forall in Hgiven. split; [split|]; cbn.
  - done.
  - rewrite fmap_app. cbn. assert (∀ n, n ∈ ticket <$> threads s → n < tickets s) as Hlt.
    { intros n Hn. apply Hgiven, elem_of_app. by left. }
    pose proof (ok_order s Hok) as Hs. revert Hs Hlt. generalize (ticket <$> threads s). clear.
    intros l Hs Hlt. induction Hs as [|x l Hs IH Hx]; [by repeat constructor|]. cbn. constructor.
    + apply IH. intros n Hn. apply Hlt. by right.
    + apply Forall_app. split; [done|]. constructor; [|done]. apply Hlt. left.
  - rewrite Forall_forall. intros m Hm. rewrite fmap_app, !elem_of_app in Hm.
    assert (m = tickets s ∨ m ∈ (ticket <$> threads s) ++ (guards s).*1) as [->|Hin]; [|lia|specialize (Hgiven m Hin); lia].
    rewrite elem_of_app. destruct Hm as [[Hm|Hm%list_elem_of_singleton]|Hm]; auto.
  - intros t [Hin| ->%list_elem_of_singleton]%elem_of_app; [by apply (ok_fresh s Hok)|]. cbn. intros Hin.
    assert (tickets s < tickets s); [|lia]. apply Hgiven, elem_of_app. by right.
  - apply (ok_guard_ids s Hok).
  - intros t [Hin| ->%list_elem_of_singleton]%elem_of_app; [by apply (ok_keys s Hok)|done].
  - apply (ok_guard_keys s Hok).
  - apply (ok_disjoint s Hok).
  - intros k. rewrite for_keys_lookup, entry_of_enter, (ok_entries s Hok) by done. done.
  - intros t' [Hin| ->%list_elem_of_singleton]%elem_of_app Hne'; [|done]. eapply told_mono; [by apply Htold|].
    intros [Hg Hb]. split; [done|]. intros t'' Hin'' Hlt. apply Hb; [|done]. apply elem_of_app. by left.
Qed.

Lemma find_thread_spec n s t : locks_core s → find_thread n s = Some t ↔ t ∈ threads s ∧ ticket t = n.
Proof.
  intros Hok. unfold find_thread. split.
  - intros [Hin Heq%bool_decide_eq_true]%find_some. by rewrite list_elem_of_In.
  - intros [Hin <-]. destruct (find _ _) as [t'|] eqn:Hf.
    + apply find_some in Hf as [Hin' Heq%bool_decide_eq_true]. rewrite <-list_elem_of_In in Hin'.
      by rewrite (sorted_unique _ _ _ (ok_order s Hok) Hin' Hin Heq).
    + rewrite list_elem_of_In in Hin. apply (find_none _ _ Hf) in Hin. by apply bool_decide_eq_false in Hin.
Qed.
Lemma find_guard_spec n s ks :
  find (λ guard : N * list text, bool_decide (guard.1 = n)) (guards s) = Some ks → ks ∈ guards s ∧ ks.1 = n.
Proof. intros [Hin Heq%bool_decide_eq_true]%find_some. by rewrite list_elem_of_In. Qed.

Lemma lock_act_ok s a o :
  locks_ok s → tickets s ≤ U64_MAX → act s a = Some o → ∃ s', o = Ok s' ∧ locks_ok s'.
Proof.
  intros Hok Hmax Hact. destruct Hok as [Hcore Htold]. destruct a as [identities dl|n|n|n|elapsed]; cbn in Hact.
  - unfold acquire in Hact. destruct (lock_keys_spec identities) as [Hnd _]. destruct (decide (lock_keys identities = [])) as [Hnil|Hnil].
    + injection Hact as <-. exists s. by split.
    + destruct (enqueue (lock_keys identities) (registry s)) as [n registry'] eqn:He.
      destruct (enter_ok s _ n registry' dl (conj Hcore Htold) Hmax Hnd Hnil He) as (_ & Hcore' & Htold').
      destruct (take_turn_ok _ {| ticket := n; keys := lock_keys identities; deadline := dl; notified := false |} Hcore')
        as (s' & Hturn & Hok' & _); [cbn; apply elem_of_app; right; left|done|].
      rewrite Hturn in Hact. injection Hact as <-. by exists s'.
  - unfold resume in Hact. destruct (find_thread n s) as [t|] eqn:Hf; [|done]. apply find_thread_spec in Hf as [Ht _]; [|done].
    destruct (take_turn_ok s t Hcore Ht) as (s' & Hturn & Hok' & _); [by intros t' Ht' _; apply Htold|].
    cbn in Hact. rewrite Hturn in Hact. injection Hact as <-. by exists s'.
  - unfold expire in Hact. destruct (find_thread n s) as [t|] eqn:Hf; [|done]. apply find_thread_spec in Hf as [Ht <-]; [|done].
    cbn in Hact. case_decide; [|done]. injection Hact as <-. eexists. split; [reflexivity|].
    by apply (leave_ok s t (clock s) (answers s ++ [(ticket t, Err Timeout)])).
  - unfold drop_guard in Hact. destruct (find _ _) as [[m ks]|] eqn:Hf; [|done]. apply find_guard_spec in Hf as [Hg Heq]. cbn in Heq. subst m.
    injection Hact as <-. eexists. split; [reflexivity|]. by apply (drop_ok s n ks _ (clock s) (answers s)).
  - injection Hact as <-. eexists. split; [reflexivity|]. split; [|exact Htold]. by destruct Hcore.
Qed.
Lemma take_turn_tickets t s s' : take_turn t s = Ok s' → tickets s' = tickets s.
Proof.
  unfold take_turn. intros ([registry' turn] & _ & H)%bind_Ok. destruct turn; injection H as <-; done.
Qed.
Lemma step_tickets s s' : step s s' → tickets s ≤ tickets s'.
Proof.
  intros [a Hact]. destruct a as [identities dl|n|n|n|elapsed]; cbn in Hact.
  - unfold acquire in Hact. case_decide; [by simplify_eq|]. destruct (enqueue _ _) as [n registry'].
    destruct (take_turn _ _) as [s1|] eqn:Ht; cbn in Hact; [|done]. apply take_turn_tickets in Ht. simplify_eq. rewrite Ht. cbn. lia.
  - unfold resume in Hact. destruct (find_thread n s) as [t|]; cbn in Hact; [|done]. injection Hact as Hact.
    apply take_turn_tickets in Hact. lia.
  - unfold expire in Hact. destruct (find_thread n s) as [t|]; cbn in Hact; [|done]. case_decide; by simplify_eq.
  - unfold drop_guard in Hact. destruct (find _ _) as [[m ks]|]; [|done]. by simplify_eq/=.
  - by simplify_eq/=.
Qed.
Lemma new_ok : locks_ok new.
Proof.
  split; [|by intros t Ht%elem_of_nil]. split; cbn; try by constructor.
  - by intros t Ht%elem_of_nil.
  - by intros t Ht%elem_of_nil.
  - by intros t Ht%elem_of_nil.
  - by intros g g' Hg%elem_of_nil.
Qed.
Lemma reachable_locks_ok s : reachable s → tickets s ≤ U64_MAX → locks_ok s.
Proof.
  revert s. refine (rtc_ind_r _ new _ _); [intros _; apply new_ok|].
  intros s s' Hrun Hstep IH Hmax. pose proof (step_tickets s s' Hstep) as Hle. destruct Hstep as [a Hact].
  destruct (lock_act_ok s a (Ok s')) as (s1 & [= ->] & Hok); [apply IH; lia|lia|done|done].
Qed.
Lemma lock_run_steps actions s s' : run actions s = Some (Ok s') → rtc step s s'.
Proof.
  revert s. induction actions as [|a actions IH]; intros s; cbn; [by intros [= ->]|].
  destruct (act s a) as [[s1|e]|] eqn:Ha; [|done..]. intros H. eapply rtc_l; [by exists a|by apply IH].
Qed.

(** ** Everybody is served *)

(** A thread may go when nothing is held and it is the first. *)
Lemma first_may_go s t ts :
  locks_core s → guards s = [] → threads s = t :: ts → may_go (ticket t) (keys t) s.
Proof.
  intros Hok Hg Ht. split; [intros g Hin; rewrite Hg in Hin; by apply elem_of_nil in Hin|]. intros t' Hin Hlt. exfalso.
  pose proof (ok_order s Hok) as Hs. rewrite Ht in Hs, Hin. apply StronglySorted_inv in Hs as [_ Hs]. rewrite Forall_forall in Hs.
  apply elem_of_cons in Hin as [->|Hin]; [lia|]. specialize (Hs (ticket t')). assert (ticket t < ticket t'); [|lia].
  apply Hs. by apply list_elem_of_fmap_2.
Qed.
Lemma notify_tickets ts : ticket <$> notify_all ts = ticket <$> ts.
Proof. unfold notify_all. rewrite <-list_fmap_compose. by apply list_fmap_ext. Qed.
(** Dropping every guard is possible, and nobody leaves the queues. *)
Lemma drop_all s :
  locks_ok s → tickets s ≤ U64_MAX →
  ∃ s', rtc owner_step s s' ∧ locks_ok s' ∧ guards s' = [] ∧ ticket <$> threads s' = ticket <$> threads s ∧
    answers s' = answers s ∧ tickets s' = tickets s.
Proof.
  remember (length (guards s)) as n eqn:Hn. revert s Hn. induction n as [n IH] using lt_wf_ind. intros s -> Hok Hmax.
  destruct (guards s) as [|[m ks] gs] eqn:Hg; [by exists s|].
  assert (find (λ guard : N * list text, bool_decide (guard.1 = m)) (guards s) = Some (m, ks)) as Hf.
  { rewrite Hg. cbn. by rewrite bool_decide_true. }
  destruct (act s (DropGuard m)) as [o|] eqn:Hact; [|by cbn in Hact; unfold drop_guard in Hact; rewrite Hf in Hact].
  destruct (lock_act_ok s (DropGuard m) o Hok Hmax Hact) as (s1 & -> & Hok1). pose proof Hact as Hact'.
  cbn in Hact'. unfold drop_guard in Hact'. rewrite Hf in Hact'. injection Hact' as Hs1.
  destruct (IH (length (guards s1))) with s1 as (s' & Hrun & Hok' & Hg' & Ht & Ha & Hti); [|done|done|by rewrite <-Hs1|].
  - rewrite <-Hs1. cbn. rewrite Hg, filter_cons, decide_False by (cbn; tauto). cbn. pose proof (length_filter (λ guard, guard.1 ≠ m) gs). lia.
  - exists s'. split; [eapply rtc_l; [left; by exists m|done]|]. rewrite Ht, Ha, Hti, <-Hs1. cbn. by rewrite notify_tickets.
Qed.

(** ** Properties *)

(** C8: the locks exclude each other and none leaks. Whatever the interleaving of
    requests, wake-ups, time-outs and guards, two live guards share no key, the
    registry has exactly the entries that somebody holds or awaits, each with its
    holder and its queue in the order of arrival, and no operation panics. *)
Theorem locks_exclusive s :
  reachable s → tickets s ≤ U64_MAX →
  (∀ g g' k, g ∈ guards s → g' ∈ guards s → k ∈ g.2 → k ∈ g'.2 → g = g') ∧
  (∀ k, entries (registry s) !! k = entry_of k (threads s) (guards s)) ∧
  (∀ a outcome, act s a = Some outcome → ∃ s', outcome = Ok s').
Proof.
  intros Hr Hmax. pose proof (reachable_locks_ok s Hr Hmax) as Hok. split_and!.
  - intros g g' k Hg Hg' Hk Hk'. apply (ok_disjoint s (proj1 Hok)); [done..|]. by exists k.
  - apply (ok_entries s (proj1 Hok)).
  - intros a o Ha. destruct (lock_act_ok s a o Hok Hmax Ha) as (s' & -> & _). by exists s'.
Qed.

(** a waiting request goes exactly when the contract lets it, and is told.
    The registry admits it when no guard holds one of its keys and no request
    before it awaits one; it then has a notification to wake on, and on waking it
    gets its locks, before any later request it conflicts with. *)
Theorem locks_fair s t :
  reachable s → tickets s ≤ U64_MAX → t ∈ threads s →
  (can_acquire (keys t) (ticket t) (registry s) = true ↔ may_go (ticket t) (keys t) s) ∧
  (may_go (ticket t) (keys t) s → notified t = true ∧
     ∃ s', act s (Resume (ticket t)) = Some (Ok s') ∧ guards s' = guards s ++ [(ticket t, keys t)]) ∧
  (∀ t', t' ∈ threads s → ticket t < ticket t' → conflicts (keys t) (keys t') → ¬ may_go (ticket t') (keys t') s).
Proof.
  intros Hr Hmax Ht. destruct (reachable_locks_ok s Hr Hmax) as [Hok Htold]. split; [by apply can_acquire_spec|]. split.
  - intros Hgo. split; [by apply Htold|]. destruct (take_turn_ok s t Hok Ht) as (s' & Hturn & _ & _ & Hgone); [by intros t' Ht' _; apply Htold|].
    exists s'. cbn. unfold resume. rewrite (proj2 (find_thread_spec (ticket t) s t Hok) (conj Ht eq_refl)). cbn.
    rewrite Hturn. split; [done|]. by apply Hgone.
  - intros t' Ht' Hlt Hc [_ Hb]. by apply (Hb t Ht Hlt).
Qed.

(** C24: there is no deadlock. From every reachable state the guards being dropped
    and the threads that have been notified, without the help of the clock or a
    time-out, reach a state in which a given waiting request was answered with its
    locks. *)
Theorem locks_reach_everyone s n :
  reachable s → tickets s ≤ U64_MAX → n ∈ ticket <$> threads s → ∃ s', rtc owner_step s s' ∧ (n, Ok ()) ∈ answers s'.
Proof.
  intros Hr Hmax. pose proof (reachable_locks_ok s Hr Hmax) as Hok. clear Hr.
  remember (length (ticket <$> threads s)) as m eqn:Hm. revert s Hm Hok Hmax. induction m as [m IH] using lt_wf_ind. intros s -> Hok Hmax Hn.
  destruct (drop_all s Hok Hmax) as (s1 & Hrun & Hok1 & Hg & Ht & _ & Hti). rewrite <-Ht in Hn. destruct (threads s1) as [|t ts] eqn:Hts.
  { by apply elem_of_nil in Hn. }
  assert (t ∈ threads s1) as Hin by (rewrite Hts; left). pose proof (first_may_go s1 t ts (proj1 Hok1) Hg Hts) as Hgo.
  destruct (take_turn_ok s1 t (proj1 Hok1) Hin) as (s2 & Hturn & Hok2 & Hti2 & Hgone); [by intros t' Ht' _; apply Hok1|].
  destruct (Hgone Hgo) as (Hts2 & _ & Ha2).
  assert (owner_step s1 s2) as Hstep.
  { right. exists t. split; [done|]. split; [by apply Hok1|]. cbn. unfold resume.
    by rewrite (proj2 (find_thread_spec (ticket t) s1 t (proj1 Hok1)) (conj Hin eq_refl)), <-Hturn. }
  assert (rtc owner_step s s2) as Hrun2 by (eapply rtc_r; done).
  destruct (decide (ticket t = n)) as [<-|Hne].
  - exists s2. split; [done|]. rewrite Ha2. apply elem_of_app. right. left.
  - destruct (IH (length (ticket <$> threads s2))) with s2 as (s' & Hrun' & Hans); [|done|done|lia|..].
    + rewrite <-Ht, Hts2, Hts. unfold without. rewrite filter_cons, decide_False by tauto. rewrite !length_fmap. cbn.
      pose proof (length_filter (λ t', ticket t' ≠ ticket t) ts). lia.
    + rewrite Hts2, Hts. apply list_elem_of_fmap in Hn as (t' & -> & Hin'). apply list_elem_of_fmap_2, elem_without. split; [done|congruence].
    + exists s'. split; [by etrans|done].
Qed.

Module SampleLocks.
Definition a : text := lit "a".
Definition b : text := lit "b".
Definition c : text := lit "c".
(** Two requests name the same files in opposite orders, a third one another. *)
Definition busy : system :=
  match run [Acquire [a; b] 10; Acquire [b; a; b] 20; Acquire [c] 5; Acquire [b; c] 30] new with Some (Ok s) => s | _ => new end.
Lemma busy_reachable : reachable busy.
Proof. apply (lock_run_steps [Acquire [a; b] 10; Acquire [b; a; b] 20; Acquire [c] 5; Acquire [b; c] 30]). vm_compute. reflexivity. Defined.
Definition second : thread := {| ticket := 1; keys := [a; b]; deadline := 20; notified := false |}.
Example held_and_waiting : (guards busy, ticket <$> threads busy) = ([(0, [a; b]); (2, [c])], [1; 3]).
Proof. vm_compute. reflexivity. Qed.
(** The second request times out, the last one is then the next. *)
Example time_out_passes_on :
  match run [DropGuard 2; Tick 20; Expire 1; DropGuard 0; Resume 3] busy with
  | Some (Ok s) => (answers s, guards s) | _ => ([], []) end =
  ([(0, Ok ()); (2, Ok ()); (1, Err Timeout); (3, Ok ())], [(3, [b; c])]).
Proof. vm_compute. reflexivity. Qed.
Example all_returned :
  match run [DropGuard 0; Resume 1; DropGuard 2; DropGuard 1; Resume 3; DropGuard 3] busy with
  | Some (Ok s) => bool_decide (entries (registry s) = ∅) | _ => false end = true.
Proof. vm_compute. reflexivity. Qed.

Lemma locks_exclusive_witness :
  (∀ g g' k, g ∈ guards busy → g' ∈ guards busy → k ∈ g.2 → k ∈ g'.2 → g = g') ∧
  (∀ k, entries (registry busy) !! k = entry_of k (threads busy) (guards busy)) ∧
  (∀ a outcome, act busy a = Some outcome → ∃ s', outcome = Ok s').
Proof. apply locks_exclusive; [apply busy_reachable|vm_compute; discriminate]. Defined.
Lemma locks_fair_witness :
  (can_acquire (keys second) (ticket second) (registry busy) = true ↔ may_go (ticket second) (keys second) busy) ∧
  (may_go (ticket second) (keys second) busy → notified second = true ∧
     ∃ s', act busy (Resume (ticket second)) = Some (Ok s') ∧ guards s' = guards busy ++ [(ticket second, keys second)]) ∧
  (∀ t', t' ∈ threads busy → ticket second < ticket t' → conflicts (keys second) (keys t') → ¬ may_go (ticket t') (keys t') busy).
Proof.
  apply locks_fair; [apply busy_reachable|vm_compute; discriminate|].
  apply (bool_decide_unpack _). vm_compute. exact I.
Defined.
Lemma locks_reach_everyone_witness : ∃ s', rtc owner_step busy s' ∧ (3, Ok ()) ∈ answers s'.
Proof.
  apply locks_reach_everyone; [apply busy_reachable|vm_compute; discriminate|].
  apply (bool_decide_unpack _). vm_compute. exact I.
Defined.
End SampleLocks.
