(* ===== verification/OrderedIngress.v ===== *)
(** * The ordered event ingress

    Models [crates/runtime-events/src/ordered_ingress.rs]: producers offer
    durable events and coalescible updates; one worker delivers them in order.
    The queue operations are functions on the state the mutex protects; the
    interleaving of producers, the closer, the clock and the worker is a step
    relation whose steps are the code between two suspension points. The
    capacity semaphore of tokio is an interface; a notification may wake the
    worker at any time, so waiting is a step back to the head of its loop. *)
From S2P Require Import Prelude.
Local Open Scope N_scope.

(** ** Events *)
(** [OrderedIngressClass] and the trait [OrderedIngressEvent]. *)
Inductive IngressClass (K : Type) :=
  | Durable
  | Coalesced (key : K).
Arguments Durable {K}.
Arguments Coalesced {K} key.
#[export] Instance IngressClass_eq_dec {K} `{EqDecision K} : EqDecision (IngressClass K).
Proof. solve_decision. Defined.

Class OrderedIngressEvent (K T : Type) := {
  ingress_class : T → IngressClass K;
  coalesce : T → T → T;
}.

(** [tokio::sync::Semaphore] as the ingress uses it. *)
Class SemaphoreOps (S : Type) := {
  sem_new : N → S;
  sem_acquire : S → option S;
  sem_release : S → S;
  sem_close : S → S;
}.
Class SemaphoreLaws (S : Type) `{SemaphoreOps S} := {
  permits : S → N;
  permits_new n : permits (sem_new n) = n;
  permits_acquire s s' : sem_acquire s = Some s' → permits s = permits s' + 1;
  permits_release s : permits (sem_release s) = permits s + 1;
  permits_close s : permits (sem_close s) = permits s;
}.

Record OrderedIngressConfig := {
  flush_interval : N;
  max_pending_coalesced_keys : N;
  max_pending_durable_events : N;
}.
Definition default_config : OrderedIngressConfig :=
  {| flush_interval := 25; max_pending_coalesced_keys := 4096; max_pending_durable_events := 1024 |}.
Definition key_limit (c : OrderedIngressConfig) : N := N.max (max_pending_coalesced_keys c) 1.
Definition durable_limit (c : OrderedIngressConfig) : N := N.max (max_pending_durable_events c) 1.

Section ingress.
Context {K T : Type} `{Countable K} `{!OrderedIngressEvent K T}.

Inductive OrderedIngressOffer :=
  | Accepted
  | CoalescedKeyLimit (event : T)
  | Closed (event : T).

(** ** Segments *)
Record OrderedCoalescedSegment := {
  order : list K;
  by_key : gmap K T;
  ready_at : N;
  force_ready : bool;
}.
#[local] Instance segment_fields : Fields OrderedCoalescedSegment := λ s,
  {| order := order s; by_key := by_key s; ready_at := ready_at s; force_ready := force_ready s |}.

Definition new_segment (c : OrderedIngressConfig) (now : N) : OrderedCoalescedSegment :=
  {| order := []; by_key := ∅; ready_at := now + flush_interval c; force_ready := false |}.

(** [OrderedCoalescedSegment::pop_front]: skips keys without an event. *)
Fixpoint pop_keys (order : list K) (by_key : gmap K T) : option T * (list K * gmap K T) :=
  match order with
  | [] => (None, ([], by_key))
  | key :: order =>
      match by_key !! key with
      | Some event => (Some event, (order, delete key by_key))
      | None => pop_keys order by_key
      end
  end.
Definition pop_front (s : OrderedCoalescedSegment) : option T * OrderedCoalescedSegment :=
  let '(event, (order, by_key)) := pop_keys (order s) (by_key s) in
  (event, {| order := order; by_key := by_key; ready_at := ready_at s; force_ready := force_ready s |}).

Inductive OrderedIngressSegment :=
  | SCoalesced (segment : OrderedCoalescedSegment)
  | SDurable (event : T).

Record OrderedIngressState := {
  pending : list OrderedIngressSegment;
  pending_coalesced_keys : N;
  closed : bool;
}.
#[local] Instance state_fields : Fields OrderedIngressState := λ s,
  {| pending := pending s; pending_coalesced_keys := pending_coalesced_keys s; closed := closed s |}.
Definition initial_state : OrderedIngressState :=
  {| pending := []; pending_coalesced_keys := 0; closed := false |}.

(** [if let Some(..) = pending.back_mut() { .. }]. *)
Definition update_back (f : OrderedIngressSegment → OrderedIngressSegment)
    (pending : list OrderedIngressSegment) : list OrderedIngressSegment :=
  match last pending with
  | Some s => removelast pending ++ [f s]
  | None => pending
  end.
Definition set_force_ready (s : OrderedIngressSegment) : OrderedIngressSegment :=
  match s with
  | SCoalesced segment => SCoalesced (segment <| force_ready := true |>)
  | SDurable _ => s
  end.

(** ** The locked part of [offer] *)
Definition back_segment (st : OrderedIngressState) : option OrderedCoalescedSegment :=
  match last (pending st) with
  | Some (SCoalesced segment) => Some segment
  | _ => None
  end.

Definition push_key (segment : OrderedCoalescedSegment) (key : K) (event : T)
    : OrderedCoalescedSegment :=
  {| order := order segment ++ [key]; by_key := <[key := event]> (by_key segment);
     ready_at := ready_at segment; force_ready := force_ready segment |}.

Definition offer_durable (st : OrderedIngressState) (event : T) : OrderedIngressState :=
  st <| pending := update_back set_force_ready (pending st) ++ [SDurable event] |>.

Definition offer_coalesced (c : OrderedIngressConfig) (st : OrderedIngressState) (now : N) (key : K)
    (event : T) : OrderedIngressOffer * OrderedIngressState :=
  match segment ← back_segment st; existing ← by_key segment !! key; Some (segment, existing) with
  | Some (segment, existing) =>
      let merged := segment <| by_key := <[key := coalesce existing event]> (by_key segment) |> in
      (Accepted, st <| pending := update_back (λ _, SCoalesced merged) (pending st) |>)
  | None =>
      if decide (key_limit c ≤ pending_coalesced_keys st) then (CoalescedKeyLimit event, st)
      else
        let pending :=
          match back_segment st with
          | Some segment => update_back (λ _, SCoalesced (push_key segment key event)) (pending st)
          | None => pending st ++ [SCoalesced (push_key (new_segment c now) key event)]
          end in
        (Accepted, {| pending := pending;
                      pending_coalesced_keys := pending_coalesced_keys st +₆₄ 1;
                      closed := closed st |})
  end.

Definition offer_locked (c : OrderedIngressConfig) (st : OrderedIngressState) (now : N) (event : T)
    : OrderedIngressOffer * OrderedIngressState :=
  if closed st then (Closed event, st)
  else match ingress_class event with
       | Durable => (Accepted, offer_durable st event)
       | Coalesced key => offer_coalesced c st now key event
       end.

(** ** The worker *)
(** When the front may be delivered, read under the lock. *)
Definition front_ready (st : OrderedIngressState) (now : N) : option N :=
  match pending st with
  | SDurable _ :: _ => Some now
  | SCoalesced segment :: _ =>
      Some (if force_ready segment || bool_decide (ready_at segment ≤ now) then now
            else ready_at segment)
  | [] => None
  end.

Inductive WorkerDecision := Return | WaitForItem | SleepUntil (t : N) | Proceed.
Definition worker_decide (closed : bool) (ready : option N) (now : N) : WorkerDecision :=
  match ready with
  | None => if closed then Return else WaitForItem
  | Some t => if decide (now < t) then SleepUntil t else Proceed
  end.

(** Taking the front; whether a durable permit is freed comes with the event. *)
Definition take_front (st : OrderedIngressState) : option T * bool * OrderedIngressState :=
  match pending st with
  | SDurable event :: rest => (Some event, true, st <| pending := rest |>)
  | SCoalesced segment :: rest =>
      let '(event, segment) := pop_front segment in
      (event, false,
       {| pending := if decide (by_key segment = ∅) then rest else SCoalesced segment :: rest;
          pending_coalesced_keys := pending_coalesced_keys st - (if event is Some _ then 1 else 0);
          closed := closed st |})
  | [] => (None, false, st)
  end.

(** ** The system *)
Inductive WorkerPc :=
  | Inspect                                (** the head of the loop *)
  | Decide (closed : bool) (ready : option N)  (** after the first lock *)
  | Reserve                                (** waiting for channel capacity *)
  | Take                                   (** with a permit of the channel *)
  | Returned (output_closed : bool).

Context {S : Type} `{!SemaphoreOps S}.

Record system := {
  st : OrderedIngressState;
  sem : S;
  holding : N;       (** offers between [acquire_owned] and the lock *)
  clock : N;
  pc : WorkerPc;
  output : list T;   (** what the worker has sent *)
  history : list T;  (** the accepted events, in the order of acceptance *)
}.
#[local] Instance system_fields : Fields system := λ s,
  {| st := st s; sem := sem s; holding := holding s; clock := clock s; pc := pc s;
     output := output s; history := history s |}.

Definition spawn (c : OrderedIngressConfig) (now : N) : system :=
  {| st := initial_state; sem := sem_new (durable_limit c); holding := 0; clock := now;
     pc := Inspect; output := []; history := [] |}.

(** The end of an offer: the accepted event is recorded, a refused durable
    event drops its permit. *)
Definition finish_offer (s : system) (event : T) (r : OrderedIngressOffer * OrderedIngressState)
    : system :=
  let durable := bool_decide (ingress_class event = Durable) in
  let s := s <| st := snd r |> in
  let s := s <| holding := holding s - (if durable then 1 else 0) |> in
  match fst r with
  | Accepted => s <| history := history s ++ [event] |>
  | _ => if durable then s <| sem := sem_release (sem s) |> else s
  end.

Inductive step (c : OrderedIngressConfig) (s : system) : system → Prop :=
  | step_tick now : clock s ≤ now → step c s (s <| clock := now |>)
  | step_acquire sem' :
      sem_acquire (sem s) = Some sem' →
      step c s (s <| sem := sem' |> <| holding := holding s + 1 |>)
  | step_offer event :
      (ingress_class event = Durable → 0 < holding s) →
      step c s (finish_offer s event (offer_locked c (st s) (clock s) event))
  | step_close_flag : step c s (s <| st := (st s) <| closed := true |> |>)
  | step_close_semaphore : closed (st s) = true → step c s (s <| sem := sem_close (sem s) |>)
  | step_inspect :
      pc s = Inspect →
      step c s (s <| pc := Decide (closed (st s)) (front_ready (st s) (clock s)) |>)
  | step_decide was_closed ready :
      pc s = Decide was_closed ready →
      step c s (s <| pc := match worker_decide was_closed ready (clock s) with
                           | Return => Returned false
                           | WaitForItem | SleepUntil _ => Inspect
                           | Proceed => Reserve
                           end |>)
  | step_reserve : pc s = Reserve → step c s (s <| pc := Take |>)
  | step_reserve_closed :
      pc s = Reserve →
      step c s (s <| st := (st s) <| closed := true |> |> <| pc := Returned true |>)
  | step_take event permit st' :
      pc s = Take → take_front (st s) = (event, permit, st') →
      step c s {| st := st'; sem := if (permit : bool) then sem_release (sem s) else sem s;
                  holding := holding s; clock := clock s; pc := Inspect;
                  output := output s ++ match event with Some e => [e] | None => [] end;
                  history := history s |}.

Definition reachable (c : OrderedIngressConfig) (s : system) : Prop :=
  ∃ now, rtc (step c) (spawn c now) s.

(** A schedule run by evaluation. *)
Inductive event_label := LTick (now : N) | LAcquire | LOffer (event : T) | LClose | LWorker.
Definition run_worker (s : system) : option system :=
  match pc s with
  | Inspect => Some (s <| pc := Decide (closed (st s)) (front_ready (st s) (clock s)) |>)
  | Decide was_closed ready =>
      Some (s <| pc := match worker_decide was_closed ready (clock s) with
                       | Return => Returned false
                       | WaitForItem | SleepUntil _ => Inspect
                       | Proceed => Reserve
                       end |>)
  | Reserve => Some (s <| pc := Take |>)
  | Take =>
      let '(event, permit, st') := take_front (st s) in
      Some {| st := st'; sem := if (permit : bool) then sem_release (sem s) else sem s;
              holding := holding s; clock := clock s; pc := Inspect;
              output := output s ++ match event with Some e => [e] | None => [] end;
              history := history s |}
  | Returned _ => None
  end.
Definition run_label (c : OrderedIngressConfig) (s : system) (l : event_label) : option system :=
  match l with
  | LTick now => if decide (clock s ≤ now) then Some (s <| clock := now |>) else None
  | LAcquire => sem' ← sem_acquire (sem s);
                Some (s <| sem := sem' |> <| holding := holding s + 1 |>)
  | LOffer event =>
      if decide (ingress_class event = Durable ∧ holding s = 0) then None
      else Some (finish_offer s event (offer_locked c (st s) (clock s) event))
  | LClose => Some (s <| st := (st s) <| closed := true |> |>)
  | LWorker => run_worker s
  end.
Fixpoint run_schedule (c : OrderedIngressConfig) (s : system) (ls : list event_label) : option system :=
  match ls with
  | [] => Some s
  | l :: ls => s' ← run_label c s l; run_schedule c s' ls
  end.

(** ** What the ingress promises

    An item is what the worker delivers at once: the accepted events it merges,
    with their positions in the order of acceptance. *)
Record item := { item_class : IngressClass K; item_first : nat * T; item_newer : list (nat * T) }.
Definition members (it : item) : list (nat * T) := item_first it :: item_newer it.
Definition item_value (it : item) : T := foldl (λ v p, coalesce v (snd p)) (snd (item_first it)) (item_newer it).

Definition item_ok (it : item) : Prop :=
  Forall (λ p, ingress_class (snd p) = item_class it) (members it) ∧
  (item_class it = Durable → item_newer it = []) ∧
  StronglySorted (λ p q, fst p < fst q)%nat (members it).

(** Durable events order everything; updates order the updates of their key. *)
Definition conflict (c c' : IngressClass K) : Prop := c = Durable ∨ c' = Durable ∨ c = c'.
Definition before (i j : item) : Prop :=
  conflict (item_class i) (item_class j) →
  ∀ p q, p ∈ members i → q ∈ members j → (fst p < fst q)%nat.

Definition indexed (h : list T) : list (nat * T) := zip (seq 0 (length h)) h.
Definition explains (items : list item) (h : list T) : Prop :=
  Forall item_ok items ∧ StronglySorted before items ∧ items ≫= members ≡ₚ indexed h.

(** Every event of the history is in exactly one value, values merge events of
    one key in order, and conflicting events keep their order. *)
Definition linearizes (h values : list T) : Prop :=
  ∃ items, item_value <$> items = values ∧ explains items h.

Lemma indexed_snoc h e : indexed (h ++ [e]) = indexed h ++ [(length h, e)].
Proof.
  unfold indexed. rewrite length_app, seq_app. simpl. rewrite zip_with_app by (by rewrite length_seq). done.
Qed.
Lemma indexed_lt h p : p ∈ indexed h → (fst p < length h)%nat.
Proof. destruct p as [i e]. intros Hi%elem_of_zip_l. apply elem_of_seq in Hi. simpl. lia. Qed.

Lemma explains_lt items h it p :
  explains items h → it ∈ items → p ∈ members it → (fst p < length h)%nat.
Proof.
  intros (_ & _ & Hperm) Hit Hp. apply indexed_lt. rewrite <-Hperm.
  apply list_elem_of_bind. by exists it.
Qed.

Lemma explains_nil : explains [] [].
Proof. split; [constructor|]. split; [constructor|]. done. Qed.

Lemma explains_snoc items h e :
  explains items h →
  explains (items ++ [{| item_class := ingress_class e; item_first := (length h, e); item_newer := [] |}])
    (h ++ [e]).
Proof.
  intros Hex. pose proof Hex as (Hok & Hss & Hperm). split; [|split].
  - apply Forall_app. split; [done|]. constructor; [|done]. split; [by repeat constructor|].
    split; [done|]. repeat constructor.
  - apply StronglySorted_app. split; [|split; [done|by repeat constructor]].
    intros i j Hi ->%list_elem_of_singleton _ p q Hp ->%list_elem_of_singleton.
    by eapply explains_lt.
  - by rewrite bind_app, indexed_snoc, Hperm.
Qed.

Definition extend (it : item) (p : nat * T) : item :=
  {| item_class := item_class it; item_first := item_first it; item_newer := item_newer it ++ [p] |}.
Lemma extend_value it p : item_value (extend it p) = coalesce (item_value it) (snd p).
Proof. unfold item_value. simpl. by rewrite foldl_app. Qed.
Lemma extend_members it p : members (extend it p) = members it ++ [p].
Proof. done. Qed.

Lemma explains_merge l1 it l2 h key e :
  explains (l1 ++ it :: l2) h → item_class it = Coalesced key → ingress_class e = Coalesced key →
  Forall (λ j, ¬ conflict (Coalesced key) (item_class j)) l2 →
  explains (l1 ++ extend it (length h, e) :: l2) (h ++ [e]).
Proof.
  intros Hex Hc He Hl2. pose proof Hex as (Hok & Hss & Hperm).
  apply Forall_app in Hok as [Hok1 Hok]. inversion_clear Hok as [|?? (Hcl & Hd & Hmem) Hok2].
  apply StronglySorted_app in Hss as (H12 & Hs1 & Hs). inversion_clear Hs as [|?? Hs2 Hit2].
  split; [|split].
  - apply Forall_app. split; [done|]. constructor; [|done]. split; [|split].
    + rewrite extend_members. apply Forall_app. split; [done|]. constructor; [|done]. simpl. congruence.
    + simpl. congruence.
    + rewrite extend_members. apply StronglySorted_app. split; [|split; [done|by repeat constructor]].
      intros p q Hp ->%list_elem_of_singleton. eapply explains_lt; [done| |done].
      apply elem_of_app. right. left.
  - apply StronglySorted_app. split; [|split; [done|]].
    + intros i j Hi [->|Hj]%elem_of_cons Hconf p q Hp Hq.
      * rewrite extend_members in Hq. apply elem_of_app in Hq as [Hq| ->%list_elem_of_singleton].
        -- eapply (H12 i it); [done|left|done..].
        -- eapply explains_lt; [done| |done]. apply elem_of_app. by left.
      * eapply (H12 i j); [done|by right|done..].
    + constructor; [done|]. rewrite Forall_forall in Hl2, Hit2 |- *. intros j Hj Hconf.
      simpl in Hconf. rewrite Hc in Hconf. by apply Hl2 in Hj.
  - rewrite indexed_snoc, <-Hperm, !bind_app, !bind_cons, extend_members.
    rewrite <-!app_assoc. apply Permutation_app_head.
    apply Permutation_app_head, Permutation_app_comm.
Qed.

(** ** The queue as a list of tagged values *)
Definition segment_items (s : OrderedIngressSegment) : list (IngressClass K * T) :=
  match s with
  | SDurable e => [(Durable, e)]
  | SCoalesced seg => omap (λ k, pair (Coalesced k) <$> by_key seg !! k) (order seg)
  end.
Definition queued (pending : list OrderedIngressSegment) : list (IngressClass K * T) :=
  pending ≫= segment_items.

Definition durable_count (pending : list OrderedIngressSegment) : N :=
  sum_N ((λ s, match s with SDurable _ => 1 | SCoalesced _ => 0 end) <$> pending).
Definition key_count (pending : list OrderedIngressSegment) : N :=
  sum_N ((λ s, match s with SDurable _ => 0 | SCoalesced seg => N.of_nat (length (order seg)) end)
           <$> pending).

(** Keys and events agree, no segment is empty or due too late, and only the
    last segment may still wait. *)
Definition segment_ok (c : OrderedIngressConfig) (now : N) (s : OrderedIngressSegment) : Prop :=
  match s with
  | SDurable _ => True
  | SCoalesced seg => order seg ≠ [] ∧ NoDup (order seg) ∧
      (∀ k, is_Some (by_key seg !! k) ↔ k ∈ order seg) ∧ ready_at seg ≤ now + flush_interval c
  end.
Definition forced (s : OrderedIngressSegment) : Prop :=
  match s with SDurable _ => True | SCoalesced seg => force_ready seg = true end.
Definition state_ok (c : OrderedIngressConfig) (now : N) (st : OrderedIngressState) : Prop :=
  Forall (segment_ok c now) (pending st) ∧
  Forall forced (removelast (pending st)) ∧
  pending_coalesced_keys st = key_count (pending st) ∧ key_count (pending st) ≤ key_limit c.

Lemma update_back_snoc f l x : update_back f (l ++ [x]) = l ++ [f x].
Proof. unfold update_back. by rewrite last_snoc, removelast_last. Qed.
Lemma queued_app l1 l2 : queued (l1 ++ l2) = queued l1 ++ queued l2.
Proof. apply bind_app. Qed.
Lemma key_count_app l1 l2 : key_count (l1 ++ l2) = key_count l1 + key_count l2.
Proof. unfold key_count. by rewrite fmap_app, sum_N_app. Qed.
Lemma durable_count_app l1 l2 : durable_count (l1 ++ l2) = durable_count l1 + durable_count l2.
Proof. unfold durable_count. by rewrite fmap_app, sum_N_app. Qed.
Lemma key_count_one s :
  key_count [s] = match s with SDurable _ => 0 | SCoalesced seg => N.of_nat (length (order seg)) end.
Proof. unfold key_count, sum_N. simpl. lia. Qed.
Lemma durable_count_one s : durable_count [s] = match s with SDurable _ => 1 | SCoalesced _ => 0 end.
Proof. unfold durable_count, sum_N. simpl. lia. Qed.

Lemma back_segment_Some st seg :
  back_segment st = Some seg ↔ ∃ l, pending st = l ++ [SCoalesced seg].
Proof.
  unfold back_segment. split.
  - destruct (last (pending st)) as [[seg'|]|] eqn:Hl; [|done..]. intros [= ->]. by apply last_Some.
  - intros [l ->]. by rewrite last_snoc.
Qed.

Lemma set_force_ready_items s : segment_items (set_force_ready s) = segment_items s.
Proof. by destruct s. Qed.

(** Storing a key leaves the entries of the others alone. *)
Lemma omap_insert_fresh (m : gmap K T) (k : K) v (l : list K) :
  k ∉ l → omap (λ j, pair (Coalesced j) <$> <[k := v]> m !! j) l =
          omap (λ j, pair (Coalesced j) <$> m !! j) l.
Proof.
  intros Hk. apply list_omap_ext, Forall_Forall2_diag, Forall_forall. intros j Hj.
  rewrite lookup_insert_ne; [done|]. by intros ->.
Qed.
Lemma omap_delete_fresh (m : gmap K T) (k : K) (l : list K) :
  k ∉ l → omap (λ j, pair (Coalesced j) <$> delete k m !! j) l =
          omap (λ j, pair (Coalesced j) <$> m !! j) l.
Proof.
  intros Hk. apply list_omap_ext, Forall_Forall2_diag, Forall_forall. intros j Hj.
  rewrite lookup_delete_ne; [done|]. by intros ->.
Qed.

Lemma push_key_length seg key e : length (order (push_key seg key e)) = (length (order seg) + 1)%nat.
Proof. cbn [push_key order]. by rewrite length_app. Qed.
Lemma push_key_items seg key e :
  key ∉ order seg →
  segment_items (SCoalesced (push_key seg key e)) = segment_items (SCoalesced seg) ++ [(Coalesced key, e)].
Proof.
  intros Hk. simpl. rewrite omap_app, omap_insert_fresh by done. simpl.
  by rewrite lookup_insert_eq.
Qed.

(** An update of a queued key replaces its entry, after which no entry of the
    segment conflicts with it. *)
Lemma merge_items seg key x y :
  NoDup (order seg) → key ∈ order seg → by_key seg !! key = Some x →
  ∃ q1 q2, segment_items (SCoalesced seg) = q1 ++ (Coalesced key, x) :: q2 ∧
    segment_items (SCoalesced (seg <| by_key := <[key := y]> (by_key seg) |>)) =
      q1 ++ (Coalesced key, y) :: q2 ∧
    Forall (λ p, ¬ conflict (Coalesced key) (fst p)) q2.
Proof.
  intros Hnd (o1 & o2 & Ho)%list_elem_of_split Hx. simpl. rewrite Ho in Hnd |- *.
  apply NoDup_app in Hnd as (_ & Hd1 & Hnd2). apply NoDup_cons in Hnd2 as [Hk2 _].
  assert (key ∉ o1) as Hk1 by (intros Hin; eapply Hd1; [done|left]).
  set (f := λ m : gmap K T, λ k, pair (Coalesced k) <$> m !! k).
  exists (omap (f (by_key seg)) o1), (omap (f (by_key seg)) o2).
  rewrite !omap_app. simpl. rewrite Hx, lookup_insert_eq. simpl.
  rewrite !omap_insert_fresh by done. split; [done|]. split; [done|].
  apply Forall_forall. intros [c v] (k & Hk & Hfk)%list_elem_of_omap. unfold f in Hfk.
  destruct (by_key seg !! k); [|done]. injection Hfk as <- <-. simpl.
  intros [?|[?|[= ->]]]; done.
Qed.

(** Taking the front of a segment whose keys and events agree. *)
Lemma pop_front_items c now seg :
  segment_ok c now (SCoalesced seg) →
  ∃ k e o seg', pop_front seg = (Some e, seg') ∧ order seg = k :: o ∧ order seg' = o ∧
    segment_items (SCoalesced seg) = (Coalesced k, e) :: segment_items (SCoalesced seg') ∧
    (by_key seg' = ∅ ↔ o = []) ∧ force_ready seg' = force_ready seg ∧
    (o ≠ [] → segment_ok c now (SCoalesced seg')).
Proof.
  intros (Hne & Hnd & Hdom & Hready). unfold pop_front.
  destruct (order seg) as [|k o] eqn:Ho; [done|]. apply NoDup_cons in Hnd as [Hk Hnd].
  destruct (proj2 (Hdom k)) as [e He]; [left|]. cbn [pop_keys]. rewrite He.
  assert (∀ k', is_Some (delete k (by_key seg) !! k') ↔ k' ∈ o) as Hdom'.
  { intros k'. rewrite lookup_delete_is_Some, Hdom, elem_of_cons. split; [naive_solver|].
    intros Hk'. split; [by intros ->|by right]. }
  eexists k, e, o, _. split; [reflexivity|]. split; [done|]. split; [done|]. cbn [by_key order force_ready].
  split; [|split; [|split; [done|]]].
  - simpl. rewrite Ho. simpl. rewrite He. simpl. by rewrite omap_delete_fresh.
  - split.
    + intros Hemp. destruct o as [|k' o]; [done|]. exfalso.
      destruct (proj2 (Hdom' k')) as [e' He']; [left|]. by rewrite Hemp, lookup_empty in He'.
    + intros ->. apply map_empty. intros k'. apply eq_None_not_Some. intros Hin.
      apply Hdom' in Hin. by apply elem_of_nil in Hin.
  - intros Ho'. split; [done|]. split; [done|]. split; [exact Hdom'|done].
Qed.

Lemma take_front_ok c now st :
  state_ok c now st → pending st ≠ [] →
  ∃ cl e permit st', take_front st = (Some e, permit, st') ∧
    queued (pending st) = (cl, e) :: queued (pending st') ∧ closed st' = closed st ∧
    state_ok c now st' ∧
    durable_count (pending st) = durable_count (pending st') + (if (permit : bool) then 1 else 0).
Proof.
  intros (Hseg & Hforced & Hcount & Hmax) Hne. unfold take_front, state_ok.
  destruct (pending st) as [|[seg|e] rest] eqn:Hp; [done|..]; apply Forall_cons in Hseg as [Hs Hrest].
  - destruct (pop_front_items _ _ _ Hs) as (k & e & o & seg' & -> & Ho & Ho' & Hitems & Hemp & Hf & Hok).
    eexists (Coalesced k), e, false, _. split; [reflexivity|]. cbn [pending closed pending_coalesced_keys].
    change (SCoalesced seg :: rest) with ([SCoalesced seg] ++ rest) in *.
    rewrite key_count_app, key_count_one, Ho in Hcount, Hmax. cbn [length] in *.
    destruct (decide (by_key seg' = ∅)) as [He|He].
    + apply Hemp in He. subst o.
      assert (segment_items (SCoalesced seg') = []) as Hnil by (simpl; by rewrite He).
      split; [rewrite queued_app; cbn [queued mbind list_bind]; by rewrite app_nil_r, Hitems, Hnil|].
      split; [done|]. split; [|rewrite durable_count_app, durable_count_one; lia].
      rewrite He in *. cbn [length] in *. split; [done|]. split; [|split; lia].
      destruct rest as [|r rest]; [constructor|]. simpl in Hforced. by apply Forall_cons in Hforced as [_ ?].
    + assert (o ≠ []) as Hone by (by rewrite <-Hemp).
      change (SCoalesced seg' :: rest) with ([SCoalesced seg'] ++ rest).
      rewrite !queued_app, key_count_app, key_count_one, !durable_count_app, !durable_count_one.
      rewrite Ho'. cbn [queued mbind list_bind]. rewrite Hitems. split; [done|]. split; [done|].
      split; [|lia]. split; [constructor; [by apply Hok|done]|]. split; [|split; lia].
      destruct rest as [|r rest]; [constructor|]. simpl in Hforced |- *.
      apply Forall_cons in Hforced as [Hfs ?]. constructor; [simpl in *; congruence|done].
  - eexists Durable, e, true, _. split; [reflexivity|]. cbn [pending closed pending_coalesced_keys update].
    change (SDurable e :: rest) with ([SDurable e] ++ rest) in *.
    rewrite key_count_app, key_count_one in Hcount, Hmax. rewrite durable_count_app, durable_count_one.
    split; [done|]. split; [done|]. split; [|lia]. split; [done|]. split; [|split; [rewrite Hcount|]; lia].
    destruct rest as [|r rest]; [constructor|]. simpl in Hforced. by apply Forall_cons in Hforced as [_ ?].
Qed.

(** ** Offers *)
Lemma forced_set s : forced (set_force_ready s).
Proof. by destruct s. Qed.
Lemma key_count_set s : key_count [set_force_ready s] = key_count [s].
Proof. by destruct s. Qed.
Lemma durable_count_set s : durable_count [set_force_ready s] = durable_count [s].
Proof. by destruct s. Qed.

Lemma update_back_cases (f : OrderedIngressSegment → OrderedIngressSegment) l :
  (l = [] ∧ update_back f l = []) ∨ ∃ l' x, l = l' ++ [x] ∧ update_back f l = l' ++ [f x].
Proof.
  destruct l as [|x l' _] using rev_ind; [by left|right].
  exists l', x. split; [done|apply update_back_snoc].
Qed.

Lemma offer_durable_ok c now st e :
  state_ok c now st →
  let st' := offer_durable st e in
  state_ok c now st' ∧ queued (pending st') = queued (pending st) ++ [(Durable, e)] ∧
  durable_count (pending st') = durable_count (pending st) + 1 ∧ closed st' = closed st ∧
  pending st' ≠ [].
Proof.
  intros (Hseg & Hforced & Hcount & Hmax). unfold state_ok. cbn [offer_durable pending closed update pending_coalesced_keys].
  destruct (update_back_cases set_force_ready (pending st)) as [[Hp Hu]|(l & x & Hp & Hu)];
    rewrite Hu; rewrite Hp in *.
  - repeat split; try done. by repeat constructor.
  - rewrite removelast_last in Hforced |- *.
    rewrite !queued_app, !key_count_app, !durable_count_app, key_count_set, durable_count_set in *.
    rewrite !key_count_one, !durable_count_one in *. apply Forall_app in Hseg as [Hl Hx].
    split; [|split; [|split; [lia|split; [done|by destruct l]]]].
    + split; [|split; [|lia]].
      * rewrite !Forall_app. split; [split; [done|]|by constructor].
        rewrite Forall_singleton in Hx |- *. by destruct x.
      * apply Forall_app. split; [done|]. constructor; [apply forced_set|done].
    + cbn [queued mbind list_bind]. by rewrite set_force_ready_items.
Qed.

Definition merges (q q' : list (IngressClass K * T)) (key : K) (e : T) : Prop :=
  ∃ q1 q2 x, q = q1 ++ (Coalesced key, x) :: q2 ∧ q' = q1 ++ (Coalesced key, coalesce x e) :: q2 ∧
    Forall (λ p, ¬ conflict (Coalesced key) (fst p)) q2.

Lemma offer_coalesced_ok c now st key e :
  key_limit c ≤ U64_MAX → state_ok c now st →
  match offer_coalesced c st now key e with
  | (Accepted, st') =>
      state_ok c now st' ∧ durable_count (pending st') = durable_count (pending st) ∧
      closed st' = closed st ∧ pending st' ≠ [] ∧
      (queued (pending st') = queued (pending st) ++ [(Coalesced key, e)] ∨
       merges (queued (pending st)) (queued (pending st')) key e)
  | (CoalescedKeyLimit e', st') => e' = e ∧ st' = st ∧ key_count (pending st) = key_limit c
  | (Closed _, _) => False
  end.
Proof.
  intros Hc Hst. pose proof Hst as (Hseg & Hforced & Hcount & Hmax).
  unfold offer_coalesced. destruct (back_segment st) as [seg|] eqn:Hb; simpl.
  - apply back_segment_Some in Hb as (l & Hp). rewrite Hp in *.
    apply Forall_app in Hseg as [Hl Hs]. rewrite Forall_singleton in Hs. destruct Hs as (Hne & Hnd & Hdom & Hready).
    rewrite removelast_last in Hforced. rewrite key_count_app, key_count_one in *.
    destruct (by_key seg !! key) as [x|] eqn:Hx; simpl.
    + rewrite update_back_snoc. unfold state_ok. cbn [pending closed pending_coalesced_keys].
      assert (key ∈ order seg) as Hin by (apply Hdom; by exists x).
      rewrite !queued_app, key_count_app, !durable_count_app, !durable_count_one, key_count_one, removelast_last.
      cbn [order]. split; [|split; [lia|split; [done|split; [by destruct l|right]]]].
      * split; [|by split]. apply Forall_app. split; [done|]. apply Forall_singleton.
        split; [done|]. split; [done|]. split; [|done]. intros k. cbn [by_key order].
        rewrite lookup_insert_is_Some, Hdom. split; [by intros [->|[_ ?]]|].
        intros Hk. destruct (decide (key = k)); [by left|by right].
      * destruct (merge_items seg key x (coalesce x e) Hnd Hin Hx) as (q1 & q2 & Hq & Hq' & Hf).
        exists (queued l ++ q1), q2, x. cbn [queued mbind list_bind]. rewrite !app_nil_r.
        rewrite <-!app_assoc. simpl app. rewrite <-Hq, <-Hq'. done.
    + case_decide as Hlim; [split; [done|]; split; [done|]; lia|].
      assert (key ∉ order seg) as Hout by (rewrite <-Hdom, Hx; by intros [? ?]).
      rewrite update_back_snoc. unfold state_ok. cbn [pending closed pending_coalesced_keys].
      rewrite !queued_app, key_count_app, !durable_count_app, !durable_count_one, key_count_one, removelast_last.
      rewrite !push_key_length.
      split; [|split; [lia|split; [done|split; [by destruct l|left]]]].
      * split; [|split; [done|]; split; [unfold saturating_add|]; lia].
        apply Forall_app. split; [done|]. apply Forall_singleton.
        split; [cbn [push_key order]; by destruct (order seg)|]. split; [cbn [push_key order]|split; [|done]].
        -- apply NoDup_app. split; [done|]. split; [|apply NoDup_singleton].
           by intros k Hk ->%list_elem_of_singleton.
        -- intros k. cbn [push_key by_key order].
           rewrite lookup_insert_is_Some, Hdom, elem_of_app, list_elem_of_singleton.
           destruct (decide (key = k)); naive_solver.
      * cbn [queued mbind list_bind]. rewrite push_key_items by done. by rewrite !app_nil_r, app_assoc.
  - case_decide as Hlim; [split; [done|]; split; [done|]; lia|]. unfold state_ok.
    cbn [pending closed pending_coalesced_keys].
    rewrite !queued_app, key_count_app, !durable_count_app, !durable_count_one, key_count_one, removelast_last.
    rewrite !push_key_length. cbn [new_segment order length].
    split; [|split; [lia|split; [done|split; [by destruct (pending st)|left]]]].
    + split; [|split; [|split; [unfold saturating_add|]; lia]].
      * apply Forall_app. split; [done|]. apply Forall_singleton. split; [done|].
        split; [apply NoDup_singleton|]. split; [|simpl; lia]. intros k. cbn [push_key new_segment by_key order app].
        rewrite lookup_insert_is_Some, lookup_empty, list_elem_of_singleton. split; [|by left].
        intros [?|[_ [? ?]]]; done.
      * unfold back_segment in Hb. destruct (update_back_cases id (pending st)) as [[-> _]|(l & x & Hp & _)];
          [constructor|]. rewrite Hp in Hb, Hforced |- *. rewrite last_snoc in Hb.
        rewrite removelast_last in Hforced. apply Forall_app. split; [done|]. by destruct x; repeat constructor.
    + cbn [queued mbind list_bind]. rewrite push_key_items by (apply not_elem_of_nil). done.
Qed.

(** ** The invariant of the system *)
Context `{!SemaphoreLaws S}.

Definition pc_ok (s : system) : Prop :=
  match pc s with
  | Inspect => True
  | Decide was_closed ready =>
      (was_closed = true → closed (st s) = true) ∧
      match ready with
      | Some _ => pending (st s) ≠ []
      | None => was_closed = true → pending (st s) = []
      end
  | Reserve | Take => pending (st s) ≠ []
  | Returned false => closed (st s) = true ∧ pending (st s) = []
  | Returned true => closed (st s) = true
  end.

Definition explained (output : list T) (q : list (IngressClass K * T)) (h : list T) : Prop :=
  ∃ sent todo, item_value <$> sent = output ∧ (λ it, (item_class it, item_value it)) <$> todo = q ∧
    explains (sent ++ todo) h.

Record system_ok (c : OrderedIngressConfig) (s : system) : Prop := {
  ok_state : state_ok c (clock s) (st s);
  ok_permits : permits (sem s) + holding s + durable_count (pending (st s)) = durable_limit c;
  ok_pc : pc_ok s;
  ok_items : explained (output s) (queued (pending (st s))) (history s);
}.

Lemma state_ok_later c now now' st0 : now ≤ now' → state_ok c now st0 → state_ok c now' st0.
Proof.
  intros Hle (Hseg & Hrest). split; [|done]. eapply Forall_impl; [exact Hseg|].
  intros [seg|]; [|done]. intros (? & ? & ? & ?). split; [done|]. split; [done|]. split; [done|lia].
Qed.

Lemma explained_snoc out q h e :
  explained out q h → explained out (q ++ [(ingress_class e, e)]) (h ++ [e]).
Proof.
  intros (sent & todo & Hs & Ht & Hex). eexists sent, (todo ++ [_]). split; [done|].
  rewrite fmap_app, Ht, app_assoc. split; [|by apply explains_snoc]. done.
Qed.

Lemma explained_merge out q q' h key e :
  ingress_class e = Coalesced key → merges q q' key e →
  explained out q h → explained out q' (h ++ [e]).
Proof.
  intros He (q1 & q2 & x & -> & -> & Hfree) (sent & todo & Hs & Ht & Hex).
  apply fmap_app_inv in Ht as (t1 & t2 & -> & Ht2 & ->).
  symmetry in Ht2. apply fmap_cons_inv in Ht2 as (it & t3 & [= Hc ->] & -> & ->).
  symmetry in Hc.
  exists sent, (t1 ++ extend it (length h, e) :: t3). split; [done|]. split.
  - rewrite fmap_app, fmap_cons, extend_value. simpl. by rewrite Hc.
  - rewrite app_assoc in Hex |- *. eapply explains_merge; [done|done|done|].
    by rewrite Forall_fmap in Hfree.
Qed.

Lemma explained_take out cl e q h : explained out ((cl, e) :: q) h → explained (out ++ [e]) q h.
Proof.
  intros (sent & todo & Hs & Ht & Hex).
  apply fmap_cons_inv in Ht as (it & todo' & [= -> ->] & -> & ->).
  exists (sent ++ [it]), todo'. rewrite fmap_app, Hs, <-app_assoc. done.
Qed.

Lemma spawn_ok c now : system_ok c (spawn c now).
Proof.
  split; simpl.
  - split; [constructor|]. split; [constructor|]. split; [done|]. unfold key_limit, key_count, sum_N. simpl. lia.
  - rewrite permits_new. unfold durable_count, sum_N. simpl. lia.
  - done.
  - exists [], []. split; [done|]. split; [done|]. apply explains_nil.
Qed.

Definition queue_grows (c : OrderedIngressConfig) (s : system) (event : T)
    (st' : OrderedIngressState) : Prop :=
  state_ok c (clock s) st' ∧ closed st' = closed (st s) ∧ pending st' ≠ [] ∧
  durable_count (pending st') =
    durable_count (pending (st s)) + (if decide (ingress_class event = Durable) then 1 else 0) ∧
  explained (output s) (queued (pending st')) (history s ++ [event]).

(** The outcome of the locked part of an offer. *)
Lemma offer_locked_ok c s event :
  key_limit c ≤ U64_MAX → system_ok c s →
  match offer_locked c (st s) (clock s) event with
  | (Accepted, st') => closed (st s) = false ∧ queue_grows c s event st'
  | (CoalescedKeyLimit e, st') =>
      e = event ∧ st' = st s ∧ ingress_class event ≠ Durable ∧
      key_count (pending (st s)) = key_limit c
  | (Closed e, st') => e = event ∧ st' = st s ∧ closed (st s) = true
  end.
Proof.
  intros Hc [Hst Hper Hpc Hit]. unfold offer_locked. destruct (closed (st s)) eqn:Hcl; [done|].
  destruct (ingress_class event) as [|key] eqn:He.
  - destruct (offer_durable_ok c (clock s) (st s) event Hst) as (Hst' & Hq & Hd & Hcl' & Hne).
    split; [done|]. split; [done|]. split; [congruence|]. split; [done|].
    rewrite decide_True by done. split; [done|]. rewrite Hq, <-He. by apply explained_snoc.
  - pose proof (offer_coalesced_ok c (clock s) (st s) key event Hc Hst) as Hoff.
    destruct (offer_coalesced _ _ _ _ _) as [[|e|e] st'].
    + destruct Hoff as (Hst' & Hd & Hcl' & Hne & Hq). split; [done|]. split; [done|].
      split; [congruence|]. split; [done|]. rewrite He, decide_False by done.
      split; [lia|]. destruct Hq as [->|Hq]; [rewrite <-He; by apply explained_snoc|by eapply explained_merge].
    + destruct Hoff as (-> & -> & ?). done.
    + done.
Qed.

Lemma pc_ok_grows s st' :
  pc_ok s → closed (st s) = false → closed st' = false → pending st' ≠ [] →
  ∀ s', st s' = st' → pc s' = pc s → pc_ok s'.
Proof.
  unfold pc_ok. intros Hpc Hcl Hcl' Hne s' Hst Hpc'. rewrite Hst, Hpc'.
  destruct (pc s) as [|w [r|]| | |[]]; try done.
  - destruct Hpc as [Hw _]. split; [|done]. intros Hw'. specialize (Hw Hw'). congruence.
  - destruct Hpc as [Hw _]. split; intros Hw'; specialize (Hw Hw'); congruence.
  - congruence.
  - destruct Hpc; congruence.
Qed.

Lemma finish_offer_ok c s event :
  key_limit c ≤ U64_MAX → (ingress_class event = Durable → 0 < holding s) → system_ok c s →
  system_ok c (finish_offer s event (offer_locked c (st s) (clock s) event)).
Proof.
  intros Hc Hhold Hs. pose proof (offer_locked_ok c s event Hc Hs) as Hoff.
  destruct Hs as [Hst Hper Hpc Hit]. unfold finish_offer.
  destruct (offer_locked _ _ _ _) as [[|e|e] st']; cbn [fst snd].
  - destruct Hoff as (Hcl & Hst' & Hcl' & Hne & Hd & Hex). split; simpl; [done| | |done].
    + rewrite Hd. destruct (decide (ingress_class event = Durable)) as [Hdur|];
        [rewrite bool_decide_true by done; specialize (Hhold Hdur)|rewrite bool_decide_false by done]; lia.
    + eapply pc_ok_grows; [exact Hpc|exact Hcl|by rewrite Hcl'|exact Hne|done..].
  - destruct Hoff as (-> & -> & Hnd & _). rewrite bool_decide_false by done.
    split; simpl; [done| |done..]. lia.
  - destruct Hoff as (-> & -> & _). case_bool_decide as Hdur; split; simpl; try done.
    + specialize (Hhold Hdur). rewrite permits_release. lia.
    + lia.
Qed.

Lemma step_ok c s s' : key_limit c ≤ U64_MAX → step c s s' → system_ok c s → system_ok c s'.
Proof.
  intros Hc Hstep Hs. pose proof Hs as [Hst Hper Hpc Hit].
  destruct Hstep as [now Hnow|sem' Hacq|event Hhold| |Hcl|Hpcs|w r Hpcs|Hpcs|Hpcs|event permit st' Hpcs Htake].
  - split; simpl; [by eapply state_ok_later|done..].
  - split; simpl; [done| |done..]. apply permits_acquire in Hacq. lia.
  - by apply finish_offer_ok.
  - split; simpl; [done|done| |done]. unfold pc_ok in *. simpl.
    destruct (pc s) as [|w r| | |[]]; try done; [|by destruct Hpc]. by destruct Hpc.
  - split; simpl; [done| |done..]. by rewrite permits_close.
  - split; simpl; [done|done| |done]. unfold pc_ok. simpl. split; [done|].
    unfold front_ready. destruct (pending (st s)) as [|[]]; done.
  - split; simpl; [done|done| |done]. unfold pc_ok in *. rewrite Hpcs in Hpc. simpl.
    unfold worker_decide. destruct r as [r|]; [case_decide; [done|]; by destruct Hpc|].
    destruct w; [|done]. destruct Hpc as [Hw Hp]. auto.
  - split; simpl; [done|done| |done]. unfold pc_ok in *. rewrite Hpcs in Hpc. done.
  - split; simpl; [done|done|done|done].
  - unfold pc_ok in Hpc. rewrite Hpcs in Hpc.
    destruct (take_front_ok c (clock s) (st s) Hst Hpc) as (cl & e & permit' & st0 & Ht & Hq & Hcl & Hst' & Hd).
    rewrite Ht in Htake. injection Htake as <- <- <-. split; simpl; [done| |done|].
    + destruct permit'; [rewrite permits_release|]; lia.
    + rewrite Hq in Hit. by eapply explained_take.
Qed.

Lemma reachable_ok c s : key_limit c ≤ U64_MAX → reachable c s → system_ok c s.
Proof.
  intros Hc (now & Hrun). eapply (invariant_rtc (step c)); [|done|apply spawn_ok].
  intros ????. by eapply step_ok.
Qed.

Lemma run_label_step c s l s' : run_label c s l = Some s' → step c s s'.
Proof.
  destruct l as [now| |event| |]; simpl.
  - case_decide; [|done]. intros [= <-]. by apply step_tick.
  - destruct (sem_acquire (sem s)) as [sem'|] eqn:Ha; [|done]. intros [= <-]. by apply step_acquire.
  - case_decide as Hd; [done|]. intros [= <-]. apply step_offer. intros He.
    destruct (decide (holding s = 0)); [|lia]. by destruct Hd.
  - intros [= <-]. apply step_close_flag.
  - unfold run_worker. destruct (pc s) eqn:Hpc; [..|done].
    + intros [= <-]. by apply step_inspect.
    + intros [= <-]. by apply step_decide.
    + intros [= <-]. by apply step_reserve.
    + destruct (take_front (st s)) as [[event permit] st'] eqn:Ht. intros [= <-]. by apply step_take.
Qed.
Lemma run_schedule_reachable c now ls s : run_schedule c (spawn c now) ls = Some s → reachable c s.
Proof.
  intros Hrun. exists now. revert Hrun. generalize (spawn c now). induction ls as [|l ls IH]; intros s0; simpl.
  - by intros [= ->].
  - destruct (run_label c s0 l) as [s1|] eqn:Hl; [|done]. intros Hrun.
    eapply rtc_l; [by eapply run_label_step|by apply IH].
Qed.

(** C2: the ingress loses, duplicates and reorders nothing that matters. In
    every reachable state what the worker has sent followed by what is still
    queued merges the accepted events: every accepted event is in exactly one
    value; a value is one durable event or the coalescing, in order, of updates
    of one key; no update is moved across a durable event, and updates of the
    same key and durable events keep the order of their acceptance. When the
    worker ends because the ingress was closed, it has sent all of it. *)
Theorem ingress_linearizes (c : OrderedIngressConfig) (s : system) :
  key_limit c ≤ U64_MAX → reachable c s →
  linearizes (history s) (output s ++ (snd <$> queued (pending (st s)))) ∧
  (pc s = Returned false → closed (st s) = true ∧ linearizes (history s) (output s)).
Proof.
  intros Hc Hr. destruct (reachable_ok c s Hc Hr) as [_ _ Hpc (sent & todo & Hs & Ht & Hex)].
  assert (linearizes (history s) (output s ++ (snd <$> queued (pending (st s))))) as Hlin.
  { exists (sent ++ todo). split; [|done]. rewrite fmap_app, Hs, <-Ht, <-list_fmap_compose. done. }
  split; [done|]. intros Hret. unfold pc_ok in Hpc. rewrite Hret in Hpc. destruct Hpc as [Hcl Hnil].
  split; [done|]. rewrite Hnil in Hlin. simpl in Hlin. by rewrite app_nil_r in Hlin.
Qed.

(** the ingress is bounded. The counter of pending updates is exact and
    within the configured number of keys; queued durable events, offers that
    hold a permit and free permits always add up to the capacity; an offer is
    refused only when the ingress is closed or the keys are used up, and then
    nothing changes and the event is handed back. *)
Theorem ingress_bounded (c : OrderedIngressConfig) (s : system) (event : T) :
  key_limit c ≤ U64_MAX → reachable c s →
  pending_coalesced_keys (st s) = key_count (pending (st s)) ∧
  key_count (pending (st s)) ≤ key_limit c ∧
  permits (sem s) + holding s + durable_count (pending (st s)) = durable_limit c ∧
  match offer_locked c (st s) (clock s) event with
  | (Accepted, st') => closed (st s) = false
  | (CoalescedKeyLimit e, st') => e = event ∧ st' = st s ∧ ingress_class event ≠ Durable ∧
      key_count (pending (st s)) = key_limit c
  | (Closed e, st') => e = event ∧ st' = st s ∧ closed (st s) = true
  end.
Proof.
  intros Hc Hr. pose proof (reachable_ok c s Hc Hr) as Hok.
  pose proof (offer_locked_ok c s event Hc Hok) as Hoff. destruct Hok as [(_ & _ & Hcount & Hmax) Hper _ _].
  split; [done|]. split; [done|]. split; [done|].
  by destruct (offer_locked _ _ _ _) as [[|e|e] st']; [destruct Hoff|..].
Qed.

(** nothing queued waits longer than the flush interval, and nothing waits
    in front of a durable event. Whenever something is queued, the worker's
    inspection tells it to proceed at once or to sleep until a time at most one
    flush interval away, and it proceeds at once when a durable event is queued
    anywhere; with a channel permit in hand it always has a value to send. *)
Theorem ingress_prompt (c : OrderedIngressConfig) (s : system) :
  key_limit c ≤ U64_MAX → reachable c s → pending (st s) ≠ [] →
  (∃ t, front_ready (st s) (clock s) = Some t ∧ t ≤ clock s + flush_interval c ∧
     ((∃ e, SDurable e ∈ pending (st s)) →
      worker_decide (closed (st s)) (Some t) (clock s) = Proceed)) ∧
  ∃ e permit st', take_front (st s) = (Some e, permit, st').
Proof.
  intros Hc Hr Hne. destruct (reachable_ok c s Hc Hr) as [Hst _ _ _].
  pose proof (take_front_ok _ _ _ Hst Hne) as (cl & e & permit & st' & Htake & _).
  split; [|eauto]. destruct Hst as (Hseg & Hforced & _). unfold front_ready.
  destruct (pending (st s)) as [|[seg|d] rest]; [done|..].
  - eexists; split; [done|]. apply Forall_cons in Hseg as [(_ & _ & _ & Hready) _]. split.
    + destruct (force_ready seg || _); lia.
    + intros [d [?|Hd]%elem_of_cons]; [done|]. destruct rest as [|r rest]; [by apply elem_of_nil in Hd|].
      simpl in Hforced. apply Forall_cons in Hforced as [Hf _]. simpl in Hf. rewrite Hf. simpl.
      by rewrite decide_False by lia.
  - eexists; split; [done|]. split; [lia|]. intros _. simpl. by rewrite decide_False by lia.
Qed.
End ingress.

(** ** A concrete ingress

    Updates of a number are coalesced by addition; the semaphore counts. *)
Module Sample.
Inductive event := Update (key : N) (amount : N) | Barrier (n : N).
Definition class_of (e : event) : IngressClass N :=
  match e with Update key _ => Coalesced key | Barrier _ => Durable end.
Definition coalesce_events (old new : event) : event :=
  match old, new with
  | Update key a, Update _ b => Update key (a + b)
  | _, _ => old
  end.
#[export] Instance events : OrderedIngressEvent N event :=
  {| ingress_class := class_of; coalesce := coalesce_events |}.

#[export] Instance counting : SemaphoreOps (N * bool) := {|
  sem_new n := (n, false);
  sem_acquire s := if snd s || bool_decide (fst s = 0) then None else Some (fst s - 1, snd s);
  sem_release s := (fst s + 1, snd s);
  sem_close s := (fst s, true);
|}.
#[export] Instance counting_laws : SemaphoreLaws (N * bool).
Proof.
  refine {| permits := fst |}; simpl; try done.
  intros s s'. destruct (snd s); simpl; [done|]. case_bool_decide; [done|]. intros [= <-]. simpl. lia.
Defined.

(** Two updates of key 1 merge around one of key 2, a durable event forces them
    out, a later update of key 1 stays behind it until it is due. *)
Definition schedule : list event_label :=
  [LOffer (Update 1 10); LWorker; LOffer (Update 2 5); LWorker; LOffer (Update 1 3); LAcquire;
   LOffer (Barrier 7); LOffer (Update 1 100)] ++ replicate 12 LWorker.
Definition after_schedule : option (@system N event _ _ (N * bool)) :=
  run_schedule default_config (spawn default_config 0) schedule.
Definition drained : option (@system N event _ _ (N * bool)) :=
  run_schedule default_config (spawn default_config 0)
    (schedule ++ [LClose; LTick 25] ++ replicate 6 LWorker).

Example after_schedule_output :
  (output <$> after_schedule, output <$> drained, pc <$> drained) =
  (Some [Update 1 13; Update 2 5; Barrier 7],
   Some [Update 1 13; Update 2 5; Barrier 7; Update 1 100], Some (Returned false)).
Proof. by vm_compute. Qed.
End Sample.
Import Sample.

Lemma ingress_linearizes_witness :
  match Sample.drained with
  | Some s => linearizes (history s) (output s)
  | None => False
  end.
Proof.
  destruct Sample.drained as [s|] eqn:Hs; [|vm_compute in Hs; discriminate].
  pose proof Hs as Hr. apply run_schedule_reachable in Hr.
  assert (pc s = Returned false) as Hpc.
  { vm_compute in Hs. injection Hs as <-. reflexivity. }
  assert (key_limit default_config ≤ U64_MAX) as Hc by (vm_compute; discriminate).
  exact (proj2 (proj2 (ingress_linearizes default_config s Hc Hr) Hpc)).
Defined.

Lemma ingress_bounded_witness :
  match Sample.after_schedule with
  | Some s => key_count (pending (st s)) = 1 ∧ key_count (pending (st s)) ≤ key_limit default_config
  | None => False
  end.
Proof.
  destruct Sample.after_schedule as [s|] eqn:Hs; [|vm_compute in Hs; discriminate].
  pose proof Hs as Hr. apply run_schedule_reachable in Hr.
  assert (key_limit default_config ≤ U64_MAX) as Hc by (vm_compute; discriminate).
  split; [vm_compute in Hs; injection Hs as <-; reflexivity|].
  exact (proj1 (proj2 (ingress_bounded default_config s (Sample.Update 1 1) Hc Hr))).
Defined.

Lemma ingress_prompt_witness :
  match Sample.after_schedule with
  | Some s => ∃ t, front_ready (st s) (clock s) = Some t ∧ t ≤ 25
  | None => False
  end.
Proof.
  destruct Sample.after_schedule as [s|] eqn:Hs; [|vm_compute in Hs; discriminate].
  pose proof Hs as Hr. apply run_schedule_reachable in Hr.
  assert (key_limit default_config ≤ U64_MAX) as Hc by (vm_compute; discriminate).
  assert (pending (st s) ≠ [] ∧ clock s = 0) as [Hne Hclock].
  { vm_compute in Hs. injection Hs as <-. split; [discriminate|reflexivity]. }
  destruct (ingress_prompt default_config s Hc Hr Hne) as [(t & Ht & Hle & _) _].
  exists t. split; [exact Ht|]. rewrite Hclock in Hle. exact Hle.
Defined.
