(* ===== verification/Json.v ===== *)
(** * JSON values

    The data of [serde_json::Value] as the tools use it: the members of an
    object are listed in the map's iteration order, with unique keys, and
    numbers are a parameter. *)
From S2P Require Import Prelude Ordered.
#[local] Set Warnings "-register-all".

Section json.
Context {Number : Type}.

Inductive Json :=
  | JNull
  | JBool (b : bool)
  | JNumber (n : Number)
  | JString (s : text)
  | JArray (items : list Json)
  | JObject (members : list (text * Json)).

Section induction.
Context (P : Json → Prop).
Context (Hnull : P JNull) (Hbool : ∀ b, P (JBool b)) (Hnumber : ∀ n, P (JNumber n)) (Hstring : ∀ s, P (JString s)).
Context (Harray : ∀ items, Forall P items → P (JArray items)).
Context (Hobject : ∀ members, Forall (λ m, P (snd m)) members → P (JObject members)).
Fixpoint json_induction (v : Json) : P v :=
  match v with
  | JNull => Hnull | JBool b => Hbool b | JNumber n => Hnumber n | JString s => Hstring s
  | JArray items =>
      Harray items ((fix go l : Forall P l :=
        match l with [] => List.Forall_nil _ | v :: l => @List.Forall_cons _ P v l (json_induction v) (go l) end) items)
  | JObject members =>
      Hobject members ((fix go l : Forall (λ m, P (snd m)) l :=
        match l with
        | [] => List.Forall_nil _ | m :: l => @List.Forall_cons _ (λ m, P (snd m)) m l (json_induction (snd m)) (go l)
        end) members)
  end.
End induction.

(** [value.get(key)], and no object has the same key twice. *)
Definition json_get (v : Json) (key : text) : option Json :=
  match v with
  | JObject members => snd <$> head (filter (λ m, fst m = key) members)
  | _ => None
  end.
Definition json_str (v : Json) : option text := match v with JString s => Some s | _ => None end.

Fixpoint unique_keys (v : Json) : Prop :=
  match v with
  | JArray items => foldr (λ v P, unique_keys v ∧ P) True items
  | JObject members => NoDup (fst <$> members) ∧ foldr (λ m P, unique_keys (snd m) ∧ P) True members
  | _ => True
  end.
End json.
Arguments Json : clear implicits.
