(* ===== verification/ProgressCoalescer.v ===== *)
(** * The progress coalescer

    Models [crates/runtime-events/src/progress.rs]: updates of an item's streams
    are merged per key until a timer, an explicit flush or a durable event sends
    them. The operations under the mutex are functions on its state; a step
    relation interleaves them with the timers and with the threads that send
    what they drained after releasing the mutex. A [HashMap] may be iterated in
    any order, so an operation that iterates takes the order as an argument.
    The broadcast channel is the sequence of values sent to it; what the
    observability crate records has no effect on the state and is left out. *)
From S2P Require Import Prelude Ordered Json.
Local Open Scope N_scope.

Record ProgressCoalescerConfig := {
  flush_interval : N;
  max_pending_keys : N;
  max_append_bytes_per_key : N;
  max_snapshot_bytes_per_key : N;
  max_flush_batch_size : N;
}.
Definition default_config : ProgressCoalescerConfig :=
  {| flush_interval := 150; max_pending_keys := 4096; max_append_bytes_per_key := 65536;
     max_snapshot_bytes_per_key := 16384; max_flush_batch_size := 256 |}.

Inductive ItemDeltaStream := AgentMessage | Stdout | Stderr | ToolProgress | FileChange | Generic.
#[export] Instance ItemDeltaStream_eq_dec : EqDecision ItemDeltaStream.
Proof. solve_decision. Defined.
#[export] Instance ItemDeltaStream_countable : Countable ItemDeltaStream.
Proof.
  refine (inj_countable
    (λ s, match s with AgentMessage => 0 | Stdout => 1 | Stderr => 2 | ToolProgress => 3 | FileChange => 4 | Generic => 5 end)
    (λ n, [AgentMessage; Stdout; Stderr; ToolProgress; FileChange; Generic] !! N.to_nat n) _). by intros [].
Defined.
Inductive ItemHeartbeatSource := OwnerLease | ConfirmedExternalActivity.
#[export] Instance ItemHeartbeatSource_eq_dec : EqDecision ItemHeartbeatSource.
Proof. solve_decision. Defined.
Inductive ProgressMergeBehavior := Append | Snapshot.
#[export] Instance ProgressMergeBehavior_eq_dec : EqDecision ProgressMergeBehavior.
Proof. solve_decision. Defined.
Definition for_stream (stream : ItemDeltaStream) : ProgressMergeBehavior :=
  match stream with
  | AgentMessage | Generic | Stdout | Stderr | FileChange => Append
  | ToolProgress => Snapshot
  end.

Record ProgressCoalescingKey := {
  k_workspace : string; k_thread : string; k_turn : string; k_item : string; k_stream : ItemDeltaStream;
}.
#[export] Instance ProgressCoalescingKey_eq_dec : EqDecision ProgressCoalescingKey.
Proof. solve_decision. Defined.
#[export] Instance ProgressCoalescingKey_countable : Countable ProgressCoalescingKey.
Proof.
  refine (inj_countable' (λ k, (k_workspace k, k_thread k, k_turn k, k_item k, k_stream k))
    (λ '(w, t, u, i, s), Build_ProgressCoalescingKey w t u i s) _). by intros [].
Defined.
Record HeartbeatKey := { h_thread : string; h_turn : string; h_item : string }.
#[export] Instance HeartbeatKey_eq_dec : EqDecision HeartbeatKey.
Proof. solve_decision. Defined.
#[export] Instance HeartbeatKey_countable : Countable HeartbeatKey.
Proof.
  refine (inj_countable' (λ k, (h_thread k, h_turn k, h_item k)) (λ '(t, u, i), Build_HeartbeatKey t u i) _). by intros [].
Defined.

(** ** Bounded text *)

(** The prefix up to the last character boundary that is at most [n]: the loop
    that moves the boundary down, then [String::truncate]. *)
Fixpoint truncate_at (n : N) (s : text) : text :=
  match s with
  | [] => []
  | c :: s => if decide (len_utf8 c ≤ n) then c :: truncate_at (n - len_utf8 c) s else []
  end.
Definition SUFFIX : text := 10 :: lit "[progress truncated]".
Definition bound_delta (delta : text) (max_bytes : N) : text * bool :=
  if decide (byte_len delta ≤ max_bytes) then (delta, false)
  else if decide (max_bytes = 0) then ([], true)
  else
    let target := max_bytes - byte_len SUFFIX in
    match truncate_at target delta with
    | [] => (truncate_at max_bytes delta, true)
    | kept => (kept ++ SUFFIX, true)
    end.

Section coalescer.
Context {Number Markdown ItemType : Type}.

(** ** Events *)
Record ItemDeltaNotification := {
  workspace_id : string; thread_id : string; turn_id : string; item_id : string;
  delta : text; stream : option ItemDeltaStream; payload : option (Json Number);
  markdown : option Markdown; markdown_version : option N;
}.
#[local] Instance notification_fields : Fields ItemDeltaNotification := λ n,
  {| workspace_id := workspace_id n; thread_id := thread_id n; turn_id := turn_id n; item_id := item_id n;
     delta := delta n; stream := stream n; payload := payload n; markdown := markdown n;
     markdown_version := markdown_version n |}.

Record PendingHeartbeat := {
  b_workspace : string; b_thread : string; b_turn : string; b_item : string;
  b_type : ItemType; b_source : ItemHeartbeatSource;
}.
#[local] Instance heartbeat_fields : Fields PendingHeartbeat := λ h,
  {| b_workspace := b_workspace h; b_thread := b_thread h; b_turn := b_turn h; b_item := b_item h;
     b_type := b_type h; b_source := b_source h |}.

Inductive AgentProgressEvent :=
  | ItemDelta (notification : ItemDeltaNotification)
  | ItemHeartbeat (heartbeat : PendingHeartbeat)
  | ToolOutputDelta (workspace thread turn item : string) (stream : ItemDeltaStream) (delta : text)
      (payload : option (Json Number))
  | TaskProgress (workspace thread turn item : string) (task_id : text) (run_id : option text) (summary : text).

Definition progress_event_to_item_delta (event : AgentProgressEvent) : option ItemDeltaNotification :=
  match event with
  | ItemDelta notification => Some notification
  | ItemHeartbeat _ => None
  | ToolOutputDelta workspace thread turn item stream delta payload => Some
      {| workspace_id := workspace; thread_id := thread; turn_id := turn; item_id := item; delta := delta;
         stream := Some stream; payload := payload; markdown := None; markdown_version := None |}
  | TaskProgress workspace thread turn item task_id run_id summary => Some
      {| workspace_id := workspace; thread_id := thread; turn_id := turn; item_id := item; delta := summary;
         stream := Some ToolProgress;
         payload := Some (JObject
           [(lit "kind", JString (lit "task_progress")); (lit "task_id", JString task_id);
            (lit "run_id", match run_id with Some id => JString id | None => JNull end)]);
         markdown := None; markdown_version := None |}
  end.

Definition progress_key_from_notification (n : ItemDeltaNotification) : ProgressCoalescingKey :=
  {| k_workspace := workspace_id n; k_thread := thread_id n; k_turn := turn_id n; k_item := item_id n;
     k_stream := default Generic (stream n) |}.
Definition heartbeat_key (h : PendingHeartbeat) : HeartbeatKey :=
  {| h_thread := b_thread h; h_turn := b_turn h; h_item := b_item h |}.

(** [Map::insert]: replaces in place or appends. *)
Fixpoint json_insert (key : text) (value : Json Number) (members : list (text * Json Number))
    : list (text * Json Number) :=
  match members with
  | [] => [(key, value)]
  | m :: members => if decide (m.1 = key) then (key, value) :: members else m :: json_insert key value members
  end.
Definition annotate_progress_payload (n : ItemDeltaNotification) (coalesced truncated : bool) : ItemDeltaNotification :=
  let members := match payload n with
    | Some (JObject members) => members
    | Some value => [(lit "value", value)]
    | None => []
    end in
  let members := json_insert (lit "coalesced") (JBool coalesced) members in
  let members := if truncated then json_insert (lit "truncated") (JBool true) members else members in
  n <| payload := Some (JObject members) |>.

(** ** Pending updates *)
Record PendingProgress := { notification : ItemDeltaNotification; behavior : ProgressMergeBehavior }.

Definition or_else {A} (next previous : option A) : option A :=
  match next with Some _ => next | None => previous end.

Definition merge (c : ProgressCoalescerConfig) (p : PendingProgress) (next : ItemDeltaNotification) : PendingProgress :=
  match behavior p with
  | Append =>
      let n := notification p in
      let '(bounded, truncated) := bound_delta (delta n ++ delta next) (max_append_bytes_per_key c) in
      let n := n <| delta := bounded |> <| markdown := or_else (markdown next) (markdown n) |>
                 <| markdown_version := or_else (markdown_version next) (markdown_version n) |>
                 <| payload := or_else (payload next) (payload n) |> in
      {| notification := annotate_progress_payload n true truncated; behavior := Append |}
  | Snapshot =>
      let '(bounded, truncated) := bound_delta (delta next) (max_snapshot_bytes_per_key c) in
      {| notification := annotate_progress_payload (next <| delta := bounded |>) true truncated; behavior := Snapshot |}
  end.
Definition key_bytes (c : ProgressCoalescerConfig) (b : ProgressMergeBehavior) : N :=
  match b with Append => max_append_bytes_per_key c | Snapshot => max_snapshot_bytes_per_key c end.
Definition new_pending (c : ProgressCoalescerConfig) (n : ItemDeltaNotification) : PendingProgress :=
  let behavior := for_stream (k_stream (progress_key_from_notification n)) in
  let '(bounded, truncated) := bound_delta (delta n) (key_bytes c behavior) in
  {| notification := annotate_progress_payload (n <| delta := bounded |>) true truncated; behavior := behavior |}.

Record ProgressCoalescerState := {
  pending : gmap ProgressCoalescingKey PendingProgress;
  pending_delta_bytes : N;
  heartbeats : gmap HeartbeatKey PendingHeartbeat;
  flush_scheduled : bool;
}.
#[local] Instance state_fields : Fields ProgressCoalescerState := λ s,
  {| pending := pending s; pending_delta_bytes := pending_delta_bytes s; heartbeats := heartbeats s;
     flush_scheduled := flush_scheduled s |}.
Definition initial_state : ProgressCoalescerState :=
  {| pending := ∅; pending_delta_bytes := 0; heartbeats := ∅; flush_scheduled := false |}.

Definition total_pending_keys (st : ProgressCoalescerState) : N :=
  N.of_nat (size (pending st)) +₆₄ N.of_nat (size (heartbeats st)).
Definition pending_bytes (p : PendingProgress) : N := byte_len (delta (notification p)).

(** Whether a flush has to be scheduled, and the state that remembers it. *)
Definition request_flush (st : ProgressCoalescerState) : ProgressCoalescerState * bool :=
  (st <| flush_scheduled := true |>, negb (flush_scheduled st)).

(** [offer_notification]: [None] when the update is dropped. *)
Definition offer_notification (c : ProgressCoalescerConfig) (st : ProgressCoalescerState) (n : ItemDeltaNotification)
    : option (ProgressCoalescerState * bool) :=
  let key := progress_key_from_notification n in
  match pending st !! key with
  | Some p =>
      let p' := merge c p n in
      Some (request_flush
        (st <| pending := <[key := p']> (pending st) |>
            <| pending_delta_bytes := (pending_delta_bytes st - pending_bytes p) +₆₄ pending_bytes p' |>))
  | None =>
      if decide (max_pending_keys c ≤ total_pending_keys st) then None
      else
        let p := new_pending c n in
        Some (request_flush
          (st <| pending := <[key := p]> (pending st) |>
              <| pending_delta_bytes := pending_delta_bytes st +₆₄ pending_bytes p |>))
  end.
Definition offer (c : ProgressCoalescerConfig) (st : ProgressCoalescerState) (event : AgentProgressEvent)
    : option (ProgressCoalescerState * bool) :=
  n ← progress_event_to_item_delta event; offer_notification c st n.

Definition merge_heartbeat (previous : option PendingHeartbeat) (h : PendingHeartbeat) : PendingHeartbeat :=
  let confirmed := bool_decide (b_source h = ConfirmedExternalActivity)
    || match previous with Some p => bool_decide (b_source p = ConfirmedExternalActivity) | None => false end in
  h <| b_source := if confirmed then ConfirmedExternalActivity else OwnerLease |>.
Definition offer_heartbeat_with_source (c : ProgressCoalescerConfig) (st : ProgressCoalescerState) (h : PendingHeartbeat)
    : option (ProgressCoalescerState * bool) :=
  let key := heartbeat_key h in
  if bool_decide (heartbeats st !! key = None) && bool_decide (max_pending_keys c ≤ total_pending_keys st) then None
  else Some (request_flush (st <| heartbeats := <[key := merge_heartbeat (heartbeats st !! key) h]> (heartbeats st) |>)).
Definition offer_heartbeat (c : ProgressCoalescerConfig) (st : ProgressCoalescerState) (h : PendingHeartbeat)
    : option (ProgressCoalescerState * bool) :=
  offer_heartbeat_with_source c st (h <| b_source := OwnerLease |>).
Definition offer_confirmed_activity (c : ProgressCoalescerConfig) (st : ProgressCoalescerState) (h : PendingHeartbeat)
    : option (ProgressCoalescerState * bool) :=
  offer_heartbeat_with_source c st (h <| b_source := ConfirmedExternalActivity |>).

(** ** Flushing *)
Definition remove_progress (st : ProgressCoalescerState) (key : ProgressCoalescingKey)
    : option (PendingProgress * ProgressCoalescerState) :=
  p ← pending st !! key;
  Some (p, st <| pending := delete key (pending st) |>
              <| pending_delta_bytes := pending_delta_bytes st - pending_bytes p |>).
Definition remove_heartbeat (st : ProgressCoalescerState) (key : HeartbeatKey)
    : option (PendingHeartbeat * ProgressCoalescerState) :=
  h ← heartbeats st !! key; Some (h, st <| heartbeats := delete key (heartbeats st) |>).

(** [for key in keys { if let Some(value) = remove(..) { events.push(..) } }]. *)
Fixpoint take_all {K V} (remove : ProgressCoalescerState → K → option (V * ProgressCoalescerState))
    (event : V → AgentProgressEvent) (st : ProgressCoalescerState) (keys : list K)
    : list AgentProgressEvent * ProgressCoalescerState :=
  match keys with
  | [] => ([], st)
  | key :: keys =>
      match remove st key with
      | Some (v, st) => let '(events, st) := take_all remove event st keys in (event v :: events, st)
      | None => take_all remove event st keys
      end
  end.
Definition progress_event (p : PendingProgress) : AgentProgressEvent := ItemDelta (notification p).
Definition take_keys (st : ProgressCoalescerState) (keys : list ProgressCoalescingKey) (heartbeat_keys : list HeartbeatKey)
    : list AgentProgressEvent * ProgressCoalescerState :=
  let '(events, st) := take_all remove_progress progress_event st keys in
  let '(more, st) := take_all remove_heartbeat ItemHeartbeat st heartbeat_keys in
  (events ++ more, st).

Definition idle (st : ProgressCoalescerState) : bool :=
  bool_decide (pending st = ∅) && bool_decide (heartbeats st = ∅).
Definition update_flush_scheduled (st : ProgressCoalescerState) : ProgressCoalescerState :=
  if idle st then st <| flush_scheduled := false |> else st.

(** The orders in which the two maps are iterated. *)
Definition orders : Type := list ProgressCoalescingKey * list HeartbeatKey.

Definition flush_key (st : ProgressCoalescerState) (key : ProgressCoalescingKey)
    : list AgentProgressEvent * ProgressCoalescerState :=
  match remove_progress st key with Some (p, st) => ([progress_event p], st) | None => ([], st) end.
Definition of_item (w t u i : string) (k : ProgressCoalescingKey) : Prop :=
  k_workspace k = w ∧ k_thread k = t ∧ k_turn k = u ∧ k_item k = i.
Definition of_turn (t u : string) (k : ProgressCoalescingKey) : Prop := k_thread k = t ∧ k_turn k = u.
Definition heartbeat_of_item (t u i : string) (k : HeartbeatKey) : Prop := h_thread k = t ∧ h_turn k = u ∧ h_item k = i.
Definition heartbeat_of_turn (t u : string) (k : HeartbeatKey) : Prop := h_thread k = t ∧ h_turn k = u.
#[local] Instance of_item_dec w t u i k : Decision (of_item w t u i k).
Proof. unfold of_item. apply _. Defined.
#[local] Instance of_turn_dec t u k : Decision (of_turn t u k).
Proof. unfold of_turn. apply _. Defined.
#[local] Instance heartbeat_of_item_dec t u i k : Decision (heartbeat_of_item t u i k).
Proof. unfold heartbeat_of_item. apply _. Defined.
#[local] Instance heartbeat_of_turn_dec t u k : Decision (heartbeat_of_turn t u k).
Proof. unfold heartbeat_of_turn. apply _. Defined.

Definition flush_item (st : ProgressCoalescerState) (o : orders) (workspace thread turn item : string)
    : list AgentProgressEvent * ProgressCoalescerState :=
  let '(events, st) := take_keys st (filter (of_item workspace thread turn item) o.1)
                         (filter (heartbeat_of_item thread turn item) o.2) in
  (events, update_flush_scheduled st).
Definition flush_turn (st : ProgressCoalescerState) (o : orders) (thread turn : string)
    : list AgentProgressEvent * ProgressCoalescerState :=
  let '(events, st) := take_keys st (filter (of_turn thread turn) o.1) (filter (heartbeat_of_turn thread turn) o.2) in
  (events, update_flush_scheduled st).

Definition drain_batch (c : ProgressCoalescerConfig) (st : ProgressCoalescerState) (o : orders)
    : list AgentProgressEvent * bool * ProgressCoalescerState :=
  let max := N.to_nat (N.max (max_flush_batch_size c) 1) in
  let '(events, st) := take_all remove_progress progress_event st (take max o.1) in
  let '(more, st) :=
    if decide (length events < max)%nat
    then take_all remove_heartbeat ItemHeartbeat st (take (max - length events) o.2) else ([], st) in
  let has_more := negb (idle st) in
  (events ++ more, has_more, st <| flush_scheduled := has_more |>).

(** [flush_all]: [None] when the fuel does not suffice. *)
Fixpoint flush_all (fuel : nat) (c : ProgressCoalescerConfig) (order : ProgressCoalescerState → orders)
    (st : ProgressCoalescerState) : option (list AgentProgressEvent * ProgressCoalescerState) :=
  match fuel with
  | O => None
  | S fuel =>
      let '(events, has_more, st) := drain_batch c st (order st) in
      if has_more then '(more, st) ← flush_all fuel c order st; Some (events ++ more, st)
      else Some (events, st)
  end.

Definition pending_targets_for_item (st : ProgressCoalescerState) (o : orders) (workspace item : string)
    : list (string * string) :=
  let push (targets : list (string * string)) target :=
    if decide (target ∈ targets) then targets else targets ++ [target] in
  let targets := foldl (λ ts k, push ts (k_thread k, k_turn k)) []
    (filter (λ k, k_workspace k = workspace ∧ k_item k = item) o.1) in
  foldl (λ ts h, push ts (b_thread h, b_turn h)) targets
    (filter (λ h, b_workspace h = workspace ∧ b_item h = item) (omap (λ k, heartbeats st !! k) o.2)).

(** The durable events that flush something, with the fields that say what. *)
Inductive AgentDurableEvent :=
  | ItemCompleted (workspace thread turn item : string)
  | TurnFinalizationPrepared (workspace thread turn item : string)
  | TurnCompleted (thread turn : string)
  | TurnFailed (thread turn : string)
  | TurnBlocked (thread turn : string)
  | TurnInterrupted (thread turn : string)
  | TaskEvent (thread turn : option string) (terminal : bool)
  | OtherDurable.
Inductive FlushScope :=
  | FlushItem (workspace thread turn item : string)
  | FlushTurn (thread turn : string)
  | FlushAll
  | FlushNothing.
Definition durable_scope (event : AgentDurableEvent) : FlushScope :=
  match event with
  | ItemCompleted w t u i | TurnFinalizationPrepared w t u i => FlushItem w t u i
  | TurnCompleted t u | TurnFailed t u | TurnBlocked t u | TurnInterrupted t u => FlushTurn t u
  | TaskEvent thread turn true =>
      match thread, turn with Some t, Some u => FlushTurn t u | _, _ => FlushAll end
  | TaskEvent _ _ false | OtherDurable => FlushNothing
  end.
Definition flush_for_durable (fuel : nat) (c : ProgressCoalescerConfig) (order : ProgressCoalescerState → orders)
    (st : ProgressCoalescerState) (event : AgentDurableEvent)
    : option (list AgentProgressEvent * ProgressCoalescerState) :=
  match durable_scope event with
  | FlushItem w t u i => Some (flush_item st (order st) w t u i)
  | FlushTurn t u => Some (flush_turn st (order st) t u)
  | FlushAll => flush_all fuel c order st
  | FlushNothing => Some ([], st)
  end.

(** ** Threads and timers

    A thread first sends what it drained and then does what is next: nothing,
    [schedule_flush], or the next round of [flush_all]. *)
Inductive Next := Finish | ScheduleFlush | DrainAgain.
Record thread := { outbox : list AgentProgressEvent; next : Next }.

(** The coalescer with its timers and threads, and what was accepted and
    drained under the mutex so far. *)
Record system := {
  state : ProgressCoalescerState;
  now : N;
  timers : list N;
  threads : list thread;
  sent : list AgentProgressEvent;
  accepted : list (ItemDeltaNotification + PendingHeartbeat);
  drained : list AgentProgressEvent;
}.
#[local] Instance system_fields : Fields system := λ s,
  {| state := state s; now := now s; timers := timers s; threads := threads s; sent := sent s;
     accepted := accepted s; drained := drained s |}.
Definition initial_system : system :=
  {| state := initial_state; now := 0; timers := []; threads := []; sent := []; accepted := []; drained := [] |}.

(** The orders list the keys of the maps. *)
Definition iterates (o : orders) (st : ProgressCoalescerState) : Prop :=
  NoDup o.1 ∧ list_to_set o.1 = dom (pending st) ∧ NoDup o.2 ∧ list_to_set o.2 = dom (heartbeats st).
#[local] Instance iterates_dec o st : Decision (iterates o st).
Proof. unfold iterates. apply _. Defined.

Inductive label :=
  | LOffer (event : AgentProgressEvent)
  | LHeartbeat (h : PendingHeartbeat)
  | LFlushKey (key : ProgressCoalescingKey)
  | LDurable (event : AgentDurableEvent) (o : orders)
  | LFlushAll
  | LFire (i : nat) (o : orders)
  | LSend (i : nat)
  | LNext (i : nat) (in_runtime : bool) (o : orders)
  | LTick (d : N).

Definition spawn (t : thread) (s : system) : system := s <| threads := threads s ++ [t] |>.
Definition accept (u : ItemDeltaNotification + PendingHeartbeat) (r : ProgressCoalescerState * bool) (s : system) : system :=
  let s := s <| state := r.1 |> <| accepted := accepted s ++ [u] |> in
  if r.2 then spawn {| outbox := []; next := ScheduleFlush |} s else s.
(** Drained events enter the outbox of their thread. *)
Definition drain (events : list AgentProgressEvent) (st : ProgressCoalescerState) (n : Next) (s : system) : system :=
  spawn {| outbox := events; next := n |} (s <| state := st |> <| drained := drained s ++ events |>).
Definition drain_round (c : ProgressCoalescerConfig) (o : orders) (again : Next) (s : system) : system :=
  let '(events, has_more, st) := drain_batch c (state s) o in
  drain events st (if has_more then again else Finish) s.

Definition run_label (c : ProgressCoalescerConfig) (l : label) (s : system) : option system :=
  match l with
  | LOffer event =>
      n ← progress_event_to_item_delta event;
      match offer_notification c (state s) n with Some r => Some (accept (inl n) r s) | None => Some s end
  | LHeartbeat h =>
      match offer_heartbeat_with_source c (state s) h with Some r => Some (accept (inr h) r s) | None => Some s end
  | LFlushKey key => let '(events, st) := flush_key (state s) key in Some (drain events st Finish s)
  | LDurable event o =>
      guard (iterates o (state s));;
      match durable_scope event with
      | FlushItem w t u i => let '(events, st) := flush_item (state s) o w t u i in Some (drain events st Finish s)
      | FlushTurn t u => let '(events, st) := flush_turn (state s) o t u in Some (drain events st Finish s)
      | FlushAll => Some (drain_round c o DrainAgain s)
      | FlushNothing => Some s
      end
  | LFlushAll => Some (spawn {| outbox := []; next := DrainAgain |} s)
  | LFire i o =>
      due ← timers s !! i; guard (due ≤ now s ∧ iterates o (state s));;
      Some (drain_round c o ScheduleFlush (s <| timers := delete i (timers s) |>))
  | LSend i =>
      t ← threads s !! i;
      match outbox t with
      | event :: events =>
          Some (s <| sent := sent s ++ [event] |>
                  <| threads := <[i := {| outbox := events; next := next t |}]> (threads s) |>)
      | [] => None
      end
  | LNext i in_runtime o =>
      t ← threads s !! i;
      guard (outbox t = []);;
      let s := s <| threads := delete i (threads s) |> in
      match next t with
      | Finish => Some s
      | ScheduleFlush =>
          if in_runtime then Some (s <| timers := timers s ++ [now s + flush_interval c] |>)
          else Some (s <| state := (state s) <| flush_scheduled := false |> |>)
      | DrainAgain => guard (iterates o (state s));; Some (drain_round c o DrainAgain s)
      end
  | LTick d => Some (s <| now := now s + d |>)
  end.
(** [schedule_flush] runs inside a tokio runtime. *)
Definition in_runtime (l : label) : Prop := match l with LNext _ b _ => b = true | _ => True end.
Definition step (allowed : label → Prop) (c : ProgressCoalescerConfig) (s s' : system) : Prop :=
  ∃ l, allowed l ∧ run_label c l s = Some s'.
Definition reachable (allowed : label → Prop) (c : ProgressCoalescerConfig) (s : system) : Prop :=
  rtc (step allowed c) initial_system s.
Fixpoint run_labels (c : ProgressCoalescerConfig) (ls : list label) (s : system) : option system :=
  match ls with [] => Some s | l :: ls => s ← run_label c l s; run_labels c ls s end.
End coalescer.

(** ** Truncation *)
Lemma truncate_at_spec n s :
  ∃ r, s = truncate_at n s ++ r ∧ byte_len (truncate_at n s) ≤ n ∧ (r = [] ∨ n < byte_len (truncate_at n s) + 4).
Proof.
  revert n; induction s as [|c s IH]; intros n; [exists []; cbn; split; [done|]; split; [lia|by left]|].
  cbn [truncate_at]. pose proof (len_utf8_bounds c) as Hc. destruct (decide (len_utf8 c ≤ n)) as [Hle|Hgt].
  - destruct (IH (n - len_utf8 c)) as (r & Hs & Hb & Hr). exists r. cbn [byte_len foldr app]. fold (byte_len (truncate_at (n - len_utf8 c) s)).
    split; [by rewrite <-Hs|]. split; [lia|]. destruct Hr; [by left|right; lia].
  - exists (c :: s). split; [done|]. cbn. split; [lia|right; lia].
Qed.
Lemma truncate_at_app n p r :
  byte_len p ≤ n → truncate_at n (p ++ r) = p ++ truncate_at (n - byte_len p) r.
Proof.
  revert n; induction p as [|c p IH]; intros n; cbn [byte_len foldr app truncate_at]; [by rewrite N.sub_0_r|].
  fold (byte_len p). intros Hle. rewrite decide_True by lia. f_equal. rewrite IH by lia. do 2 f_equal. lia.
Qed.
Lemma truncate_at_nil n p r : p ≠ [] → truncate_at n p = [] → truncate_at n (p ++ r) = [].
Proof. destruct p as [|c p]; [done|]. intros _. cbn. by case_decide. Qed.

(** A prefix that no further truncation removes. *)
Definition survives (limit : N) (p : text) : Prop :=
  p = [] ∨ byte_len p ≤ limit - byte_len SUFFIX ∨ (byte_len p ≤ limit ∧ truncate_at (limit - byte_len SUFFIX) p = []).
(** What a bounded delta keeps of the whole text. *)
Definition keeps (limit : N) (full bounded : text) : Prop :=
  byte_len bounded ≤ limit ∧
  (byte_len full ≤ limit → bounded = full) ∧
  (limit < byte_len full → ∃ p r r', full = p ++ r ∧ bounded = p ++ r' ∧ limit ≤ byte_len p + 24 ∧ survives limit p).

Lemma bound_delta_within d limit :
  byte_len (bound_delta d limit).1 ≤ limit ∧ ((bound_delta d limit).2 = false ↔ byte_len d ≤ limit).
Proof.
  unfold bound_delta. assert (byte_len SUFFIX = 21) as Hsuf by done.
  destruct (decide (byte_len d ≤ limit)) as [Hle|Hgt]; [done|].
  destruct (decide (limit = 0)) as [->|H0]; [by split; [cbn; lia|split]|].
  rewrite Hsuf. destruct (truncate_at_spec (limit - 21) d) as (r & _ & Hb & _).
  destruct (truncate_at (limit - 21) d) as [|c p] eqn:Hp.
  - destruct (truncate_at_spec limit d) as (r' & _ & Hb' & _). by split.
  - split; [|by split]. cbn [fst]. rewrite byte_len_app, Hsuf.
    assert (0 < byte_len (c :: p)) by (cbn; pose proof (len_utf8_bounds c); lia). lia.
Qed.

(** A surviving prefix stays. *)
Lemma bound_delta_survives limit p r : survives limit p → ∃ r', (bound_delta (p ++ r) limit).1 = p ++ r'.
Proof.
  intros [->|Hp]; [by eexists|]. unfold bound_delta.
  destruct (decide (byte_len (p ++ r) ≤ limit)) as [Hle|Hgt]; [by eexists|].
  destruct (decide (limit = 0)) as [->|H0].
  { assert (p = []) as -> by (apply byte_len_nil; destruct Hp as [Hp|[Hp _]]; lia). by eexists. }
  destruct (decide (p = [])) as [->|Hne]; [by eexists|].
  destruct Hp as [Hp|[Hp Hcut]].
  - rewrite truncate_at_app by done. destruct p as [|c p]; [done|]. cbn [app fst]. eexists. by rewrite <-app_assoc.
  - rewrite truncate_at_nil by done. rewrite truncate_at_app by done. by eexists.
Qed.
(** What a single truncation keeps. *)
Lemma bound_delta_keeps limit d : keeps limit d (bound_delta d limit).1.
Proof.
  pose proof (bound_delta_within d limit) as [Hb _]. split; [done|]. assert (byte_len SUFFIX = 21) as Hsuf by done.
  unfold bound_delta. split; [intros Hle; by rewrite decide_True|].
  intros Hgt. rewrite decide_False by lia.
  destruct (decide (limit = 0)) as [->|H0]; [exists [], d, []; split; [done|]; split; [done|]; split; [lia|by left]|].
  rewrite Hsuf. destruct (truncate_at_spec (limit - 21) d) as (r & Hd & Hp & Hr).
  destruct (truncate_at (limit - 21) d) as [|c p] eqn:Hcut.
  - destruct (truncate_at_spec limit d) as (r' & Hd' & Hp' & Hr'). exists (truncate_at limit d), r', [].
    split; [done|]. split; [by rewrite app_nil_r|]. destruct Hr' as [->|Hr']; [rewrite app_nil_r in Hd'; rewrite <-Hd' in Hp'; lia|].
    split; [lia|]. destruct (truncate_at limit d) as [|c p] eqn:Hfull; [by left|right; right]. split; [done|].
    rewrite Hsuf. rewrite Hd' in Hcut. cbn [app truncate_at] in Hcut |- *. by case_decide.
  - exists (c :: p), r, SUFFIX. split; [done|]. split; [done|]. destruct Hr as [->|Hr]; [rewrite app_nil_r in Hd; subst d; lia|].
    split; [lia|]. right; left. by rewrite Hsuf.
Qed.
(** Appending to a bounded delta and bounding again. *)
Lemma keeps_append limit full bounded next :
  keeps limit full bounded → keeps limit (full ++ next) (bound_delta (bounded ++ next) limit).1.
Proof.
  intros (Hb & Hfit & Hcut). destruct (decide (byte_len full ≤ limit)) as [Hle|Hgt].
  { rewrite Hfit by done. apply bound_delta_keeps. }
  destruct Hcut as (p & r & r' & -> & -> & Hp & Hs); [lia|]. rewrite <-!app_assoc.
  split; [apply (proj1 (bound_delta_within _ _))|]. rewrite byte_len_app in Hgt. split; [rewrite !byte_len_app; lia|]. intros _.
  destruct (bound_delta_survives limit p (r' ++ next) Hs) as (r'' & ->). by exists p, (r ++ next), r''.
Qed.

(** ** Accumulated groups

    [outs] are the values of consecutive groups of the updates [us], and
    [current] is the value of the updates after the last group. *)
Section groups.
Context {U V : Type} (start : U → V) (add : V → U → V).

Definition merged (us : list U) : option V := match us with [] => None | u :: us => Some (foldl add (start u) us) end.
Definition grouped (us : list U) (outs : list V) (current : option V) : Prop :=
  ∃ groups rest, us = concat groups ++ rest ∧ Forall2 (λ g o, merged g = Some o) groups outs ∧ merged rest = current.

Lemma grouped_nil : grouped [] [] None.
Proof. by exists [], []. Qed.
Lemma merged_snoc us u :
  merged (us ++ [u]) = Some (match merged us with Some v => add v u | None => start u end).
Proof. destruct us as [|u' us]; [done|]. cbn. by rewrite foldl_app. Qed.
Lemma grouped_add us outs current u :
  grouped us outs current → grouped (us ++ [u]) outs (Some (match current with Some v => add v u | None => start u end)).
Proof.
  intros (gs & rest & -> & Hg & <-). exists gs, (rest ++ [u]). by rewrite app_assoc, merged_snoc.
Qed.
Lemma grouped_take us outs v : grouped us outs (Some v) → grouped us (outs ++ [v]) None.
Proof.
  intros (gs & rest & -> & Hg & Hr). exists (gs ++ [rest]), []. split; [by rewrite concat_app; cbn; rewrite !app_nil_r|].
  split; [|done]. apply Forall2_app; [done|by repeat constructor].
Qed.
End groups.

Section proofs.
Context {Number Markdown ItemType : Type}.
#[local] Existing Instances notification_fields heartbeat_fields state_fields system_fields iterates_dec.
Abbreviation notification_t := (@ItemDeltaNotification Number Markdown).
Abbreviation progress_t := (@PendingProgress Number Markdown).
Abbreviation state_t := (@ProgressCoalescerState Number Markdown ItemType).
Abbreviation event_t := (@AgentProgressEvent Number Markdown ItemType).
Abbreviation update_t := (notification_t + @PendingHeartbeat ItemType)%type.
Implicit Types (n : notification_t) (p : progress_t) (st : state_t) (c : ProgressCoalescerConfig).

(** ** Bytes *)
Definition total_bytes (m : gmap ProgressCoalescingKey progress_t) : N :=
  sum_N ((λ kp, pending_bytes kp.2) <$> map_to_list m).
Lemma total_bytes_delete m k p : m !! k = Some p → total_bytes m = pending_bytes p + total_bytes (delete k m).
Proof.
  intros Hk. unfold total_bytes. by rewrite <-(sum_N_perm _ _ (fmap_Permutation _ _ _ (map_to_list_delete _ _ _ Hk))).
Qed.
Lemma total_bytes_insert m k p : total_bytes (<[k := p]> m) = pending_bytes p + total_bytes (delete k m).
Proof.
  rewrite (total_bytes_delete _ k p) by apply lookup_insert_eq. by rewrite delete_insert_eq.
Qed.
Lemma total_bytes_bound (limit : N) m :
  map_Forall (λ _ p, pending_bytes p ≤ limit) m → total_bytes m ≤ N.of_nat (size m) * limit.
Proof.
  induction m as [|k p m Hk IH] using map_ind; [intros _; unfold total_bytes; rewrite map_to_list_empty; cbn; lia|]. intros HF.
  rewrite total_bytes_insert, delete_id by done. rewrite map_size_insert_None by done.
  apply map_Forall_insert in HF as [Hp HF]; [|done]. specialize (IH HF). lia.
Qed.

(** ** The state under the mutex *)
Definition largest_limit c : N := N.max (max_append_bytes_per_key c) (max_snapshot_bytes_per_key c).
(** All keys full fit the counter. *)
Definition counter_suffices c : Prop :=
  max_pending_keys c * largest_limit c ≤ U64_MAX ∧ max_pending_keys c < U64_MAX.

Record progress_ok c (k : ProgressCoalescingKey) p : Prop := {
  progress_key : progress_key_from_notification (notification p) = k;
  progress_behavior : behavior p = for_stream (k_stream k);
  progress_limit : pending_bytes p ≤ key_bytes c (behavior p);
}.
Record state_ok c st : Prop := {
  ok_progress k p : pending st !! k = Some p → progress_ok c k p;
  ok_heartbeat k h : heartbeats st !! k = Some h → heartbeat_key h = k;
  ok_size : N.of_nat (size (pending st)) + N.of_nat (size (heartbeats st)) ≤ max_pending_keys c;
  ok_bytes : pending_delta_bytes st = total_bytes (pending st);
}.

Lemma annotate_fields n a b :
  let n' := annotate_progress_payload n a b in
  progress_key_from_notification n' = progress_key_from_notification n ∧ delta n' = delta n.
Proof. done. Qed.
Lemma new_pending_ok c n : progress_ok c (progress_key_from_notification n) (new_pending c n).
Proof.
  unfold new_pending. pose proof (bound_delta_within (delta n) (key_bytes c (for_stream (k_stream (progress_key_from_notification n))))) as [Hb _].
  destruct (bound_delta _ _) as [b t]. by split.
Qed.
Lemma merge_ok c k p n :
  progress_ok c k p → progress_key_from_notification n = k → progress_ok c k (merge c p n).
Proof.
  intros [Hk Hb Hl] Hn. unfold merge. destruct (behavior p) eqn:Hp.
  - pose proof (bound_delta_within (delta (notification p) ++ delta n) (max_append_bytes_per_key c)) as [Hw _].
    destruct (bound_delta _ _) as [b t]. by split.
  - pose proof (bound_delta_within (delta n) (max_snapshot_bytes_per_key c)) as [Hw _].
    destruct (bound_delta _ _) as [b t]. by split.
Qed.
Lemma heartbeat_key_merge prev (h : @PendingHeartbeat ItemType) : heartbeat_key (merge_heartbeat prev h) = heartbeat_key h.
Proof. done. Qed.

Lemma bytes_fit c m :
  counter_suffices c → N.of_nat (size m) ≤ max_pending_keys c → (∀ k p, m !! k = Some p → progress_ok c k p) →
  total_bytes m ≤ U64_MAX.
Proof.
  intros [Hc _] Hsize Hok. etrans; [|exact Hc]. etrans; [apply (total_bytes_bound (largest_limit c))|by apply N.mul_le_mono_r].
  intros k p Hk. destruct (Hok k p Hk) as [_ _ Hl]. etrans; [exact Hl|]. unfold key_bytes, largest_limit. destruct (behavior p); lia.
Qed.
Lemma total_keys_exact c st :
  counter_suffices c → state_ok c st → total_pending_keys st = N.of_nat (size (pending st)) + N.of_nat (size (heartbeats st)).
Proof. intros [_ Hc] [_ _ Hs _]. unfold total_pending_keys. word. Qed.

(** Storing an update under its key. *)
Lemma store_ok c st k p b :
  counter_suffices c → state_ok c st → progress_ok c k p →
  (pending st !! k = None → total_pending_keys st < max_pending_keys c) →
  b = total_bytes (delete k (pending st)) +₆₄ pending_bytes p →
  state_ok c (st <| pending := <[k := p]> (pending st) |> <| pending_delta_bytes := b |>).
Proof.
  intros Hc Hst Hp Hnew ->. rewrite (total_keys_exact c st Hc Hst) in Hnew. destruct Hst as [Hprog Hheart Hsize Hbytes].
  assert (∀ k' p', <[k := p]> (pending st) !! k' = Some p' → progress_ok c k' p') as Hprog'.
  { intros k' p' [[<- <-]|[_ Hk']]%lookup_insert_Some; [done|by apply Hprog]. }
  assert (N.of_nat (size (<[k := p]> (pending st))) + N.of_nat (size (heartbeats st)) ≤ max_pending_keys c) as Hsize'.
  { rewrite map_size_insert. destruct (pending st !! k); simpl in *; [lia|]. specialize (Hnew eq_refl). lia. }
  split; [exact Hprog'|exact Hheart|exact Hsize'|]. cbn.
  assert (total_bytes (<[k := p]> (pending st)) ≤ U64_MAX) as Hfit by (apply (bytes_fit c); [done|lia|done]).
  rewrite total_bytes_insert in Hfit |- *. word.
Qed.

(** ** What was accepted and what was drained *)
Definition updates_of (k : ProgressCoalescingKey) (acc : list update_t) : list notification_t :=
  omap (λ u, match u with inl n => if decide (progress_key_from_notification n = k) then Some n else None | inr _ => None end) acc.
Definition outputs_of (k : ProgressCoalescingKey) (events : list event_t) : list progress_t :=
  omap (λ e, match e with
    | ItemDelta n => if decide (progress_key_from_notification n = k)
        then Some {| notification := n; behavior := for_stream (k_stream k) |} else None
    | _ => None end) events.
Definition beats_of (k : HeartbeatKey) (acc : list update_t) : list (@PendingHeartbeat ItemType) :=
  omap (λ u, match u with inr h => if decide (heartbeat_key h = k) then Some h else None | inl _ => None end) acc.
Definition beat_outputs_of (k : HeartbeatKey) (events : list event_t) : list (@PendingHeartbeat ItemType) :=
  omap (λ e, match e with ItemHeartbeat h => if decide (heartbeat_key h = k) then Some h else None | _ => None end) events.
Definition add_heartbeat (p h : @PendingHeartbeat ItemType) : PendingHeartbeat := merge_heartbeat (Some p) h.

(** Everything drained or pending under a key merges consecutive groups of the
    updates accepted under it. *)
Record explained c st (acc : list update_t) (events : list event_t) : Prop := {
  explained_ok : state_ok c st;
  explained_progress k : grouped (new_pending c) (merge c) (updates_of k acc) (outputs_of k events) (pending st !! k);
  explained_beats k : grouped (merge_heartbeat None) add_heartbeat (beats_of k acc) (beat_outputs_of k events) (heartbeats st !! k);
}.

Lemma explained_same c st st' acc events :
  explained c st acc events → pending st' = pending st → pending_delta_bytes st' = pending_delta_bytes st →
  heartbeats st' = heartbeats st → explained c st' acc events.
Proof.
  intros [[H1 H2 H3 H4] Hp Hb] E1 E2 E3. split; [split|..]; rewrite ?E1, ?E2, ?E3; done || (intros k; rewrite ?E1, ?E3; done).
Qed.

Lemma updates_snoc_l k acc n :
  updates_of k (acc ++ [inl n]) = updates_of k acc ++ if decide (progress_key_from_notification n = k) then [n] else [].
Proof. unfold updates_of. rewrite omap_app. cbn. by case_decide. Qed.
Lemma updates_snoc_r k acc h : updates_of k (acc ++ [inr h]) = updates_of k acc.
Proof. unfold updates_of. rewrite omap_app. apply app_nil_r. Qed.
Lemma beats_snoc_l k acc n : beats_of k (acc ++ [inl n]) = beats_of k acc.
Proof. unfold beats_of. rewrite omap_app. apply app_nil_r. Qed.
Lemma beats_snoc_r k acc h :
  beats_of k (acc ++ [inr h]) = beats_of k acc ++ if decide (heartbeat_key h = k) then [h] else [].
Proof. unfold beats_of. rewrite omap_app. cbn. by case_decide. Qed.

Lemma offer_explained c st acc events n st' sched :
  counter_suffices c → explained c st acc events → offer_notification c st n = Some (st', sched) →
  explained c st' (acc ++ [inl n]) events ∧ (sched = true ↔ flush_scheduled st = false) ∧ flush_scheduled st' = true.
Proof.
  intros Hc [Hst Hp Hb] Hoffer. set (key := progress_key_from_notification n).
  assert (∀ p b, progress_ok c key p → p = match pending st !! key with Some v => merge c v n | None => new_pending c n end →
    b = total_bytes (delete key (pending st)) +₆₄ pending_bytes p →
    (pending st !! key = None → total_pending_keys st < max_pending_keys c) →
    explained c (st <| pending := <[key := p]> (pending st) |> <| pending_delta_bytes := b |>) (acc ++ [inl n]) events) as Hstore.
  { intros p b Hok Heq Hbytes Hnew. split.
    - by apply store_ok.
    - intros k. rewrite updates_snoc_l. cbn. fold key. destruct (decide (key = k)) as [<-|Hne].
      + rewrite lookup_insert_eq, Heq. by apply grouped_add.
      + rewrite lookup_insert_ne, app_nil_r by done. apply Hp.
    - intros k. rewrite beats_snoc_l. apply Hb. }
  unfold offer_notification in Hoffer. fold key in Hoffer. pose proof (ok_bytes _ _ Hst) as Hbytes.
  destruct (pending st !! key) as [p|] eqn:Hk.
  - injection Hoffer as <- <-. split; [|split; [by destruct (flush_scheduled st)|done]].
    eapply (explained_same c); [apply (Hstore (merge c p n) (pending_delta_bytes st - pending_bytes p +₆₄ pending_bytes (merge c p n)) )|..]; try reflexivity; [| |done].
    + apply merge_ok; [|done]. by apply (ok_progress _ _ Hst).
    + rewrite Hbytes, (total_bytes_delete _ _ _ Hk). f_equal. lia.
  - case_decide as Hfull; [done|]. injection Hoffer as <- <-.
    split; [|split; [by destruct (flush_scheduled st)|done]].
    eapply (explained_same c); [apply (Hstore (new_pending c n) (pending_delta_bytes st +₆₄ pending_bytes (new_pending c n)))|..]; try reflexivity; [| |lia].
    + apply new_pending_ok.
    + by rewrite Hbytes, delete_id.
Qed.

Lemma heartbeat_explained c st acc events h st' sched :
  counter_suffices c → explained c st acc events → offer_heartbeat_with_source c st h = Some (st', sched) →
  explained c st' (acc ++ [inr h]) events ∧ (sched = true ↔ flush_scheduled st = false) ∧ flush_scheduled st' = true.
Proof.
  intros Hc [Hst Hp Hb] Hoffer. unfold offer_heartbeat_with_source in Hoffer. set (key := heartbeat_key h) in *.
  destruct (bool_decide (heartbeats st !! key = None) && bool_decide (max_pending_keys c ≤ total_pending_keys st)) eqn:Hfull; [done|].
  injection Hoffer as <- <-. split; [|split; [by destruct (flush_scheduled st)|done]]. split.
  - rewrite (total_keys_exact c st Hc Hst) in Hfull. destruct Hst as [Hprog Hheart Hsize Hbytes]. split; [exact Hprog| | |exact Hbytes].
    + intros k h'. cbn. intros [[<- <-]|[_ Hk']]%lookup_insert_Some; [apply heartbeat_key_merge|by apply Hheart].
    + cbn. rewrite map_size_insert. destruct (heartbeats st !! key) eqn:Hk; simpl in *; [done|].
      rewrite bool_decide_eq_false in Hfull. lia.
  - intros k. rewrite updates_snoc_r. apply Hp.
  - intros k. rewrite beats_snoc_r. fold key. cbn. destruct (decide (key = k)) as [<-|Hne].
    + rewrite lookup_insert_eq. assert (merge_heartbeat (heartbeats st !! key) h =
        match heartbeats st !! key with Some v => add_heartbeat v h | None => merge_heartbeat None h end) as ->
        by (by destruct (heartbeats st !! key)). by apply grouped_add.
    + rewrite lookup_insert_ne, app_nil_r by done. apply Hb.
Qed.

(** ** Removal *)
Lemma outputs_snoc k events p :
  outputs_of k (events ++ [progress_event p]) =
  outputs_of k events ++ if decide (progress_key_from_notification (notification p) = k)
    then [{| notification := notification p; behavior := for_stream (k_stream k) |}] else [].
Proof. unfold outputs_of. rewrite omap_app. cbn. by case_decide. Qed.
Lemma outputs_snoc_beat k events h : outputs_of k (events ++ [ItemHeartbeat h]) = outputs_of k events.
Proof. unfold outputs_of. rewrite omap_app. apply app_nil_r. Qed.
Lemma beat_outputs_snoc k events h :
  beat_outputs_of k (events ++ [ItemHeartbeat h]) =
  beat_outputs_of k events ++ if decide (heartbeat_key h = k) then [h] else [].
Proof. unfold beat_outputs_of. rewrite omap_app. cbn. by case_decide. Qed.
Lemma beat_outputs_snoc_progress k events p : beat_outputs_of k (events ++ [progress_event p]) = beat_outputs_of k events.
Proof. unfold beat_outputs_of. rewrite omap_app. apply app_nil_r. Qed.

Lemma remove_progress_explained c st acc events k p st' :
  explained c st acc events → remove_progress st k = Some (p, st') →
  explained c st' acc (events ++ [progress_event p]).
Proof.
  intros [[Hprog Hheart Hsize Hbytes] Hp Hb] Hremove. unfold remove_progress in Hremove.
  destruct (pending st !! k) as [p'|] eqn:Hk; [|done]. injection Hremove as -> <-.
  destruct (Hprog k p Hk) as [Hkey Hbeh _]. split; [split|..]; cbn.
  - intros k' p' [_ Hk']%lookup_delete_Some. by apply Hprog.
  - exact Hheart.
  - pose proof (map_size_delete_Some k (pending st)) as Hs. rewrite Hs by (by eexists). lia.
  - rewrite Hbytes, (total_bytes_delete _ _ _ Hk). lia.
  - intros k'. rewrite outputs_snoc, Hkey. destruct (decide (k = k')) as [<-|Hne].
    + rewrite lookup_delete_eq. apply grouped_take. rewrite <-Hbeh.
      specialize (Hp k). rewrite Hk in Hp. by destruct p.
    + rewrite lookup_delete_ne, app_nil_r by done. apply Hp.
  - intros k'. rewrite beat_outputs_snoc_progress. apply Hb.
Qed.
Lemma remove_heartbeat_explained c st acc events k h st' :
  explained c st acc events → remove_heartbeat st k = Some (h, st') →
  explained c st' acc (events ++ [ItemHeartbeat h]).
Proof.
  intros [[Hprog Hheart Hsize Hbytes] Hp Hb] Hremove. unfold remove_heartbeat in Hremove.
  destruct (heartbeats st !! k) as [h'|] eqn:Hk; [|done]. injection Hremove as -> <-.
  pose proof (Hheart k h Hk) as Hkey. split; [split|..]; cbn.
  - exact Hprog.
  - intros k' h' [_ Hk']%lookup_delete_Some. by apply Hheart.
  - pose proof (map_size_delete_Some k (heartbeats st)) as Hs. rewrite Hs by (by eexists). lia.
  - exact Hbytes.
  - intros k'. rewrite outputs_snoc_beat. apply Hp.
  - intros k'. rewrite beat_outputs_snoc, Hkey. destruct (decide (k = k')) as [<-|Hne].
    + rewrite lookup_delete_eq. apply grouped_take. specialize (Hb k). by rewrite Hk in Hb.
    + rewrite lookup_delete_ne, app_nil_r by done. apply Hb.
Qed.

Lemma take_all_explained {K V} (remove : state_t → K → option (V * state_t)) (event : V → event_t) c acc :
  (∀ st events k v st', explained c st acc events → remove st k = Some (v, st') → explained c st' acc (events ++ [event v])) →
  ∀ keys st events, explained c st acc events →
    explained c (take_all remove event st keys).2 acc (events ++ (take_all remove event st keys).1).
Proof.
  intros Hone keys. induction keys as [|k keys IH]; intros st events He; cbn [take_all]; [by rewrite app_nil_r|].
  destruct (remove st k) as [[v st']|] eqn:Hk; [|by apply IH].
  specialize (IH st' (events ++ [event v]) (Hone _ _ _ _ _ He Hk)). rewrite <-app_assoc in IH.
  by destruct (take_all remove event st' keys).
Qed.
Lemma take_keys_explained c acc events st keys beats :
  explained c st acc events → explained c (take_keys st keys beats).2 acc (events ++ (take_keys st keys beats).1).
Proof.
  intros He. unfold take_keys.
  pose proof (take_all_explained remove_progress progress_event c acc (λ _ _ _ _ _, remove_progress_explained _ _ _ _ _ _ _) keys st events He) as H1.
  destruct (take_all remove_progress progress_event st keys) as [evs st1]. cbn [fst snd] in H1.
  pose proof (take_all_explained remove_heartbeat ItemHeartbeat c acc (λ _ _ _ _ _, remove_heartbeat_explained _ _ _ _ _ _ _) beats st1 _ H1) as H2.
  destruct (take_all remove_heartbeat ItemHeartbeat st1 beats) as [evs' st2]. cbn [fst snd] in *. by rewrite app_assoc.
Qed.

(** What is taken is removed, in the order of the keys, and nothing else. *)
Lemma omap_ext_in {A B} (f g : A → option B) (l : list A) : (∀ x, x ∈ l → f x = g x) → omap f l = omap g l.
Proof.
  induction l as [|x l IH]; intros Hfg; [done|]. cbn. rewrite (Hfg x) by left. rewrite IH; [done|]. intros y Hy. apply Hfg. by right.
Qed.
Lemma take_all_taken {K V} `{Countable K} (get : state_t → gmap K V) (remove : state_t → K → option (V * state_t))
    (event : V → event_t) keys st :
  (∀ st k, match get st !! k with
     | Some v => ∃ st', remove st k = Some (v, st') ∧ get st' = delete k (get st) | None => remove st k = None end) →
  NoDup keys →
  get (take_all remove event st keys).2 = filter (λ kv, kv.1 ∉ keys) (get st) ∧
  (take_all remove event st keys).1 = event <$> omap (λ k, get st !! k) keys.
Proof.
  intros Hremove Hk. revert st. induction Hk as [|k keys Hnotin Hk IH]; intros st; cbn [take_all].
  { split; [|done]. symmetry. apply map_filter_id. intros i v _. by apply not_elem_of_nil. }
  cbn [omap list_omap]. specialize (Hremove st k). destruct (get st !! k) as [v|] eqn:Hv.
  - destruct Hremove as (st' & -> & Hst'). specialize (IH st').
    destruct (take_all remove event st' keys) as [evs st'']. cbn [fst snd] in *. destruct IH as [-> ->]. rewrite Hst'. split.
    + apply map_eq. intros i. apply option_eq. intros x. rewrite !map_lookup_filter_Some, lookup_delete_Some. set_solver.
    + cbn. do 2 f_equal. apply omap_ext_in. intros i Hi. apply lookup_delete_ne. by intros ->.
  - rewrite Hremove. destruct (IH st) as [-> ->]. split; [|done].
    apply map_eq. intros i. apply option_eq. intros x. rewrite !map_lookup_filter_Some. cbn. rewrite not_elem_of_cons. naive_solver.
Qed.
Lemma take_all_frame {K V X} (f : state_t → X) (remove : state_t → K → option (V * state_t)) (event : V → event_t) keys st :
  (∀ st k v st', remove st k = Some (v, st') → f st' = f st) → f (take_all remove event st keys).2 = f st.
Proof.
  intros Hf. revert st; induction keys as [|k keys IH]; intros st; cbn [take_all]; [done|].
  destruct (remove st k) as [[v st']|] eqn:Hk; [|done]. specialize (IH st').
  destruct (take_all remove event st' keys). cbn in *. rewrite IH. by eapply Hf.
Qed.
Lemma remove_progress_spec st k :
  match pending st !! k with
  | Some p => ∃ st', remove_progress st k = Some (p, st') ∧ pending st' = delete k (pending st)
  | None => remove_progress st k = None
  end.
Proof. unfold remove_progress. destruct (pending st !! k); [by eexists|done]. Qed.
Lemma remove_heartbeat_spec st k :
  match heartbeats st !! k with
  | Some h => ∃ st', remove_heartbeat st k = Some (h, st') ∧ heartbeats st' = delete k (heartbeats st)
  | None => remove_heartbeat st k = None
  end.
Proof. unfold remove_heartbeat. destruct (heartbeats st !! k); [by eexists|done]. Qed.
Lemma remove_progress_frame st k p st' :
  remove_progress st k = Some (p, st') → heartbeats st' = heartbeats st ∧ flush_scheduled st' = flush_scheduled st.
Proof. unfold remove_progress. destruct (pending st !! k); [|done]. by intros [= _ <-]. Qed.
Lemma remove_heartbeat_frame st k h st' :
  remove_heartbeat st k = Some (h, st') → pending st' = pending st ∧ flush_scheduled st' = flush_scheduled st.
Proof. unfold remove_heartbeat. destruct (heartbeats st !! k); [|done]. by intros [= _ <-]. Qed.

Lemma take_keys_spec st keys beats :
  let r := take_keys st keys beats in
  NoDup keys → NoDup beats →
  pending r.2 = filter (λ kp, kp.1 ∉ keys) (pending st) ∧
  heartbeats r.2 = filter (λ kh, kh.1 ∉ beats) (heartbeats st) ∧
  flush_scheduled r.2 = flush_scheduled st ∧
  r.1 = (progress_event <$> omap (λ k, pending st !! k) keys) ++ (ItemHeartbeat <$> omap (λ k, heartbeats st !! k) beats).
Proof.
  intros r Hk Hb. subst r. unfold take_keys.
  pose proof (take_all_taken pending remove_progress progress_event keys st remove_progress_spec Hk) as [H1 H2].
  pose proof (take_all_frame (λ st, (heartbeats st, flush_scheduled st)) remove_progress progress_event keys st) as H3.
  destruct (take_all remove_progress progress_event st keys) as [evs st1]. cbn [fst snd] in *.
  pose proof (take_all_taken heartbeats remove_heartbeat ItemHeartbeat beats st1 remove_heartbeat_spec Hb) as [H4 H5].
  pose proof (take_all_frame (λ st, (pending st, flush_scheduled st)) remove_heartbeat ItemHeartbeat beats st1) as H6.
  destruct (take_all remove_heartbeat ItemHeartbeat st1 beats) as [evs' st2]. cbn [fst snd] in *.
  assert ((heartbeats st1, flush_scheduled st1) = (heartbeats st, flush_scheduled st)) as [= E3 E3'].
  { apply H3. intros ? ? ? ? Hr%remove_progress_frame. by destruct Hr as [-> ->]. }
  assert ((pending st2, flush_scheduled st2) = (pending st1, flush_scheduled st1)) as [= E6 E6'].
  { apply H6. intros ? ? ? ? Hr%remove_heartbeat_frame. by destruct Hr as [-> ->]. }
  by rewrite E6, H1, H4, E3, E6', E3', H2, H5, E3.
Qed.

(** ** One batch *)
Definition batch_size c : nat := N.to_nat (N.max (max_flush_batch_size c) 1).
Lemma drain_batch_take c st (o : orders) :
  ∃ beats, beats = take (batch_size c - length (take_all remove_progress progress_event st (take (batch_size c) o.1)).1) o.2 ∧
  let r := take_keys st (take (batch_size c) o.1) beats in
  drain_batch c st o = (r.1, negb (idle r.2), r.2 <| flush_scheduled := negb (idle r.2) |>).
Proof.
  eexists. split; [done|]. unfold drain_batch, take_keys. fold (batch_size c).
  destruct (take_all remove_progress progress_event st (take (batch_size c) o.1)) as [evs st1]. cbn [fst snd].
  destruct (decide (length evs < batch_size c)%nat) as [Hlt|Hge].
  - by destruct (take_all remove_heartbeat _ _ _).
  - by replace (batch_size c - length evs)%nat with 0%nat by lia.
Qed.
Lemma drain_batch_explained c st o acc events :
  explained c st acc events →
  let '(evs, has_more, st') := drain_batch c st o in
  explained c st' acc (events ++ evs) ∧ flush_scheduled st' = has_more ∧ has_more = negb (idle st').
Proof.
  intros He. destruct (drain_batch_take c st o) as (beats & _ & ->). cbn zeta.
  pose proof (take_keys_explained c acc events st (take (batch_size c) o.1) beats He) as Ht.
  split; [by eapply explained_same|]. done.
Qed.

Definition pending_total st : nat := size (pending st) + size (heartbeats st).
Lemma idle_total st : idle st = true ↔ pending_total st = 0%nat.
Proof.
  unfold idle, pending_total. rewrite andb_true_iff, !bool_decide_eq_true, <-!map_size_empty_iff. lia.
Qed.
Lemma size_filter_out {K V} `{Countable K} (m : gmap K V) keys :
  NoDup keys → list_to_set keys ⊆ dom m → (size (filter (λ kv, kv.1 ∉ keys) m) + length keys)%nat = size m.
Proof.
  revert m; induction keys as [|k keys IH]; intros m Hk Hdom.
  { rewrite map_filter_id; [cbn; lia|]. intros i x _. by apply not_elem_of_nil. }
  apply NoDup_cons in Hk as [Hnotin Hk]. cbn in Hdom.
  assert (is_Some (m !! k)) as [v Hv] by (apply elem_of_dom; set_solver).
  assert (filter (λ kv, kv.1 ∉ k :: keys) m = filter (λ kv, kv.1 ∉ keys) (delete k m)) as ->.
  { apply map_eq. intros i. apply option_eq. intros x. rewrite !map_lookup_filter_Some, lookup_delete_Some. cbn.
    rewrite not_elem_of_cons. naive_solver. }
  assert (list_to_set keys ⊆ dom (delete k m)) as Hdom' by (rewrite dom_delete_L; set_solver).
  specialize (IH (delete k m) Hk Hdom'). rewrite map_size_delete_Some in IH by done.
  assert (size m ≠ 0%nat) by (rewrite map_size_empty_iff; intros ->; by rewrite lookup_empty in Hv). cbn. lia.
Qed.
Lemma iterates_length o st :
  iterates o st → length o.1 = size (pending st) ∧ length o.2 = size (heartbeats st).
Proof.
  intros (H1 & H2 & H3 & H4). by rewrite <-!size_dom, <-H2, <-H4, !size_list_to_set.
Qed.
Lemma take_subset {A} `{Countable A} i (l : list A) (X : gset A) : list_to_set l = X → list_to_set (take i l) ⊆ X.
Proof. intros <-. rewrite <-(take_drop i l) at 2. rewrite list_to_set_app_L. set_solver. Qed.
Lemma omap_length {A B} (f : A → option B) (l : list A) : (∀ x, x ∈ l → is_Some (f x)) → length (omap f l) = length l.
Proof.
  induction l as [|x l IH]; intros Hf; [done|]. cbn. destruct (Hf x) as [y ->]; [left|]. cbn. rewrite IH; [done|].
  intros z Hz. apply Hf. by right.
Qed.

Lemma drain_batch_size c st o :
  iterates o st →
  let '(evs, has_more, st') := drain_batch c st o in
  length evs = Nat.min (batch_size c) (pending_total st) ∧ (pending_total st' + length evs)%nat = pending_total st ∧
  has_more = negb (idle st').
Proof.
  intros Hit. pose proof (iterates_length o st Hit) as [Hl1 Hl2]. destruct Hit as (Hnd1 & Hdom1 & Hnd2 & Hdom2).
  destruct (drain_batch_take c st o) as (beats & Hbeats & ->). cbn zeta. set (b := batch_size c) in *.
  pose proof (take_all_taken pending remove_progress progress_event (take b o.1) st remove_progress_spec) as [_ Hevs];
    [by eapply sublist_NoDup, sublist_take|].
  assert (∀ {K V} `{Countable K} (m : gmap K V) ks i, list_to_set ks = dom m → length (omap (λ k, m !! k) (take i ks)) = length (take i ks)) as Hfound.
  { intros K V ? ? m ks i Hd. apply omap_length. intros k Hk. apply elem_of_dom. apply (take_subset i ks _ Hd).
    by apply elem_of_list_to_set. }
  rewrite Hevs, length_fmap, (Hfound _ _ _ _ _ _ _ Hdom1), length_take, Hl1 in Hbeats.
  pose proof (take_keys_spec st (take b o.1) beats) as Hspec.
  assert (NoDup (take b o.1)) as Hn1 by (by eapply sublist_NoDup, sublist_take).
  assert (NoDup beats) as Hn2 by (rewrite Hbeats; by eapply sublist_NoDup, sublist_take).
  destruct (Hspec Hn1 Hn2) as (Hp & Hh & _ & Hev).
  assert (length (take_keys st (take b o.1) beats).1 = (length (take b o.1) + length beats)%nat) as Hlen.
  { rewrite Hev, length_app, !length_fmap, (Hfound _ _ _ _ _ _ _ Hdom1). f_equal. rewrite Hbeats. apply (Hfound _ _ _ _ _ _ _ Hdom2). }
  pose proof (size_filter_out (pending st) (take b o.1) Hn1 (take_subset b _ _ Hdom1)) as Hs1.
  assert (list_to_set beats ⊆ dom (heartbeats st)) as Hsub by (rewrite Hbeats; by apply take_subset).
  pose proof (size_filter_out (heartbeats st) beats Hn2 Hsub) as Hs2.
  assert (length beats = Nat.min (b - Nat.min b (size (pending st))) (size (heartbeats st))) as Hlb
    by (by rewrite Hbeats, length_take, Hl2).
  rewrite length_take, Hl1 in *. rewrite Hlen.
  assert (pending_total ((take_keys st (take b o.1) beats).2 <| flush_scheduled := negb (idle (take_keys st (take b o.1) beats).2) |>)
    = (size (pending (take_keys st (take b o.1) beats).2) + size (heartbeats (take_keys st (take b o.1) beats).2))%nat) as -> by done.
  rewrite Hp, Hh. unfold pending_total. split; [lia|]. split; [lia|]. done.
Qed.

(** ** Reachable states *)
Abbreviation system_t := (@system Number Markdown ItemType).
Implicit Types (s : system_t).

Record system_ok c s : Prop := {
  sys_explained : explained c (state s) (accepted s) (drained s);
  sys_sent : sent s ++ (threads s ≫= outbox) ≡ₚ drained s;
}.
(** Some timer is armed or some thread will arm one or drain. *)
Definition obliged s : Prop := timers s ≠ [] ∨ ∃ t, t ∈ threads s ∧ next t ≠ Finish.
Record flush_ok c s : Prop := {
  flush_busy : idle (state s) = false → flush_scheduled (state s) = true;
  flush_served : flush_scheduled (state s) = true → obliged s;
  flush_due : Forall (λ due, due ≤ now s + flush_interval c) (timers s);
}.

Lemma spawn_flush_ok c t s : outbox t = [] → system_ok c s → system_ok c (spawn t s).
Proof.
  intros Ht [He Hs]. split; [done|]. cbn. by rewrite bind_app, bind_cons, Ht, app_nil_r.
Qed.
Lemma drain_ok c events st nx s :
  system_ok c s → explained c st (accepted s) (drained s ++ events) → system_ok c (drain events st nx s).
Proof.
  intros [_ Hs] He. split; [exact He|]. cbn. rewrite bind_app, bind_cons, app_nil_r, app_assoc. by rewrite Hs.
Qed.
Lemma drain_round_ok c o again s : system_ok c s → system_ok c (drain_round c o again s).
Proof.
  intros Hs. unfold drain_round. pose proof (drain_batch_explained c (state s) o _ _ (sys_explained _ _ Hs)) as Hb.
  destruct (drain_batch c (state s) o) as [[evs more] st']. destruct Hb as (He & _ & _). by apply drain_ok.
Qed.
Lemma threads_middle s i (t : @thread Number Markdown ItemType) :
  threads s !! i = Some t →
  ∃ before after, threads s = before ++ t :: after ∧ delete i (threads s) = before ++ after ∧
    ∀ t', <[i := t']> (threads s) = before ++ t' :: after.
Proof.
  intros Hi. exists (take i (threads s)), (drop (S i) (threads s)). split; [by rewrite take_drop_middle|].
  split; [apply delete_take_drop|]. intros t'. apply insert_take_drop. by eapply lookup_lt_Some.
Qed.
Lemma flush_item_explained c st o acc events w t u i :
  explained c st acc events →
  explained c (flush_item st o w t u i).2 acc (events ++ (flush_item st o w t u i).1).
Proof.
  intros He. unfold flush_item. pose proof (take_keys_explained c acc events st
    (filter (of_item w t u i) o.1) (filter (heartbeat_of_item t u i) o.2) He) as Ht.
  destruct (take_keys _ _ _) as [evs st']. cbn [fst snd] in *. unfold update_flush_scheduled.
  destruct (idle st'); [by eapply explained_same|done].
Qed.
Lemma flush_turn_explained c st o acc events t u :
  explained c st acc events → explained c (flush_turn st o t u).2 acc (events ++ (flush_turn st o t u).1).
Proof.
  intros He. unfold flush_turn. pose proof (take_keys_explained c acc events st
    (filter (of_turn t u) o.1) (filter (heartbeat_of_turn t u) o.2) He) as Ht.
  destruct (take_keys _ _ _) as [evs st']. cbn [fst snd] in *. unfold update_flush_scheduled.
  destruct (idle st'); [by eapply explained_same|done].
Qed.
Lemma flush_key_explained c st acc events k :
  explained c st acc events → explained c (flush_key st k).2 acc (events ++ (flush_key st k).1).
Proof.
  intros He. unfold flush_key. destruct (remove_progress st k) as [[p st']|] eqn:Hk; cbn [fst snd].
  - by eapply remove_progress_explained.
  - by rewrite app_nil_r.
Qed.

Lemma accept_ok c u (r : state_t * bool) s :
  system_ok c s → explained c r.1 (accepted s ++ [u]) (drained s) → system_ok c (accept u r s).
Proof.
  intros [_ Hs] He. unfold accept. destruct r.2; [apply spawn_flush_ok; [done|]|]; by split.
Qed.

Lemma run_label_ok c l s s' : counter_suffices c → system_ok c s → run_label c l s = Some s' → system_ok c s'.
Proof.
  intros Hc Hs Hrun. pose proof (sys_explained _ _ Hs) as He. destruct l as [event|h|k|event o| |i o|i|i b o|d]; cbn in Hrun.
  - destruct (progress_event_to_item_delta event) as [n|]; [|done]. cbn in Hrun.
    destruct (offer_notification c (state s) n) as [[st sched]|] eqn:Ho; injection Hrun as <-; [|done].
    apply accept_ok; [done|]. by eapply offer_explained.
  - destruct (offer_heartbeat_with_source c (state s) h) as [[st sched]|] eqn:Ho; injection Hrun as <-; [|done].
    apply accept_ok; [done|]. by eapply heartbeat_explained.
  - pose proof (flush_key_explained c _ _ _ k He) as Hf. destruct (flush_key (state s) k). injection Hrun as <-. by apply drain_ok.
  - case_guard as Hit; [|done]. cbn in Hrun. destruct (durable_scope event) as [w t u i|t u| |].
    + pose proof (flush_item_explained c _ o _ _ w t u i He) as Hf. destruct (flush_item _ _ _ _ _ _). injection Hrun as <-. by apply drain_ok.
    + pose proof (flush_turn_explained c _ o _ _ t u He) as Hf. destruct (flush_turn _ _ _ _). injection Hrun as <-. by apply drain_ok.
    + injection Hrun as <-. by apply drain_round_ok.
    + by injection Hrun as <-.
  - injection Hrun as <-. by apply spawn_flush_ok.
  - destruct (timers s !! i); [|done]. cbn in Hrun. case_guard; [|done]. injection Hrun as <-. apply drain_round_ok. by destruct Hs.
  - destruct (threads s !! i) as [t|] eqn:Hi; [|done]. cbn in Hrun. destruct (threads_middle s i t Hi) as (bef & aft & Hth & _ & Hins).
    destruct (outbox t) as [|e events] eqn:Hout; [done|]. injection Hrun as <-. destruct Hs as [_ Hsent]. split; [exact He|].
    cbn. rewrite Hins, <-Hsent, Hth, !bind_app, !bind_cons, Hout. cbn. solve_Permutation.
  - destruct (threads s !! i) as [t|] eqn:Hi; [|done]. cbn in Hrun. destruct (threads_middle s i t Hi) as (bef & aft & Hth & Hdel & _).
    destruct (guard (outbox t = [])) as [Hout|]; [|done]. cbn in Hrun.
    assert (system_ok c (s <| threads := delete i (threads s) |>)) as Hs'.
    { destruct Hs as [_ Hsent]. split; [exact He|]. cbn. rewrite Hdel, <-Hsent, Hth, !bind_app, bind_cons, Hout. done. }
    destruct (next t); [by injection Hrun as <-| |].
    + destruct Hs' as [He' Hs']. destruct b; injection Hrun as <-; (split; [by eapply explained_same|done]).
    + case_guard; [|done]. injection Hrun as <-. by apply drain_round_ok.
  - injection Hrun as <-. by destruct Hs.
Qed.

(** ** Scheduling *)
Lemma idle_spec st : idle st = true ↔ pending st = ∅ ∧ heartbeats st = ∅.
Proof. unfold idle. by rewrite andb_true_iff, !bool_decide_eq_true. Qed.
Lemma idle_shrink st st' :
  (pending st = ∅ → pending st' = ∅) → (heartbeats st = ∅ → heartbeats st' = ∅) → idle st' = false → idle st = false.
Proof.
  intros H1 H2 H3. apply not_true_iff_false. intros [Hp Hh]%idle_spec. apply not_true_iff_false in H3. apply H3, idle_spec. auto.
Qed.
Lemma obliged_spawn t s : obliged s → obliged (spawn t s).
Proof. intros [?|(t' & Ht & ?)]; [by left|right]. exists t'. split; [|done]. apply elem_of_app. by left. Qed.
Lemma obliged_new t s : next t ≠ Finish → obliged (spawn t s).
Proof. intros Ht. right. exists t. split; [|done]. apply elem_of_app. right. by apply list_elem_of_singleton. Qed.

Lemma accept_flush c u (r : state_t * bool) s :
  flush_ok c s → (r.2 = true ↔ flush_scheduled (state s) = false) → flush_scheduled r.1 = true → flush_ok c (accept u r s).
Proof.
  intros [Hb Hs Hd] Hr Hf. unfold accept. destruct r.2.
  - split; [done| |done]. intros _. by apply obliged_new.
  - split; [done| |done]. intros _. apply Hs. destruct (flush_scheduled (state s)); [done|]. by destruct Hr as [_ Hr]; specialize (Hr eq_refl).
Qed.
Lemma drain_flush c events st nx s :
  flush_ok c s → (idle st = false → idle (state s) = false) →
  (flush_scheduled st = flush_scheduled (state s) ∨ idle st = true ∧ flush_scheduled st = false) →
  flush_ok c (drain events st nx s).
Proof.
  intros [Hb Hs Hd] Hidle Hflag. split; [| |done]; cbn.
  - intros Hi. destruct Hflag as [->|[Hi' _]]; [by auto|congruence].
  - intros Hf. apply obliged_spawn. destruct Hflag as [Hflag|[_ Hflag]]; [|congruence].
    destruct Hs as [Ht|Ht]; [congruence|by left|by right].
Qed.
Lemma drain_round_flush c o again s :
  again ≠ Finish → Forall (λ due, due ≤ now s + flush_interval c) (timers s) → flush_ok c (drain_round c o again s).
Proof.
  intros Hagain Hd. unfold drain_round. destruct (drain_batch_take c (state s) o) as (beats & _ & ->).
  set (r := take_keys _ _ _). cbn zeta. split; [| |done].
  - cbn. intros Hi. assert (idle r.2 = false) as -> by exact Hi. done.
  - cbn. intros ->. by apply obliged_new.
Qed.
Lemma take_keys_idle st keys beats :
  NoDup keys → NoDup beats →
  (idle (take_keys st keys beats).2 = false → idle st = false) ∧
  flush_scheduled (take_keys st keys beats).2 = flush_scheduled st.
Proof.
  intros Hk Hb. destruct (take_keys_spec st keys beats Hk Hb) as (H1 & H2 & H3 & _). split; [|done].
  apply idle_shrink; intros He; rewrite ?H1, ?H2, He; apply map_filter_empty.
Qed.
Lemma update_flush_idle st :
  (idle (update_flush_scheduled st) = idle st) ∧
  (flush_scheduled (update_flush_scheduled st) = flush_scheduled st ∨ idle st = true ∧ flush_scheduled (update_flush_scheduled st) = false).
Proof. unfold update_flush_scheduled. destruct (idle st) eqn:Hi; [split; [exact Hi|by right]|split; [done|by left]]. Qed.

Lemma run_label_flush c l s s' :
  counter_suffices c → in_runtime l → system_ok c s → flush_ok c s → run_label c l s = Some s' → flush_ok c s'.
Proof.
  intros Hc Hin Hok Hs Hrun. pose proof (sys_explained _ _ Hok) as He.
  destruct l as [event|h|k|event o| |i o|i|i b o|d]; cbn in Hrun.
  - destruct (progress_event_to_item_delta event) as [n|]; [|done]. cbn in Hrun.
    destruct (offer_notification c (state s) n) as [[st sched]|] eqn:Ho; injection Hrun as <-; [|done].
    destruct (offer_explained c _ _ _ _ _ _ Hc He Ho) as (_ & ? & ?). by apply accept_flush.
  - destruct (offer_heartbeat_with_source c (state s) h) as [[st sched]|] eqn:Ho; injection Hrun as <-; [|done].
    destruct (heartbeat_explained c _ _ _ _ _ _ Hc He Ho) as (_ & ? & ?). by apply accept_flush.
  - unfold flush_key, remove_progress in Hrun. destruct (pending (state s) !! k) as [p|] eqn:Hk; injection Hrun as <-; [|by apply drain_flush; auto].
    apply drain_flush; [done| |by left]. apply idle_shrink; [|done]. intros Hempty. cbn. by rewrite Hempty, delete_empty.
  - case_guard as Hit; [|done]. cbn in Hrun. destruct Hit as (Hn1 & _ & Hn2 & _). destruct (durable_scope event) as [w t u i|t u| |].
    + unfold flush_item in Hrun. destruct (take_keys_idle (state s) (filter (of_item w t u i) o.1) (filter (heartbeat_of_item t u i) o.2)) as [Hi Hf];
        [by apply NoDup_filter..|]. destruct (take_keys _ _ _) as [evs st']. injection Hrun as <-. cbn [fst snd] in *.
      destruct (update_flush_idle st') as [Hi' Hf']. apply drain_flush; [done|by rewrite Hi'|by rewrite Hi', <-Hf].
    + unfold flush_turn in Hrun. destruct (take_keys_idle (state s) (filter (of_turn t u) o.1) (filter (heartbeat_of_turn t u) o.2)) as [Hi Hf];
        [by apply NoDup_filter..|]. destruct (take_keys _ _ _) as [evs st']. injection Hrun as <-. cbn [fst snd] in *.
      destruct (update_flush_idle st') as [Hi' Hf']. apply drain_flush; [done|by rewrite Hi'|by rewrite Hi', <-Hf].
    + injection Hrun as <-. apply drain_round_flush; [done|by destruct Hs].
    + by injection Hrun as <-.
  - injection Hrun as <-. destruct Hs as [Hb Hs Hd]. split; [done| |done]. intros _. by apply obliged_new.
  - destruct (timers s !! i); [|done]. cbn in Hrun. case_guard; [|done]. injection Hrun as <-. apply drain_round_flush; [done|].
    destruct Hs as [_ _ Hd]. cbn. rewrite Forall_forall in Hd |- *. intros x Hx. apply Hd. by eapply elem_of_sublist, sublist_delete.
  - destruct (threads s !! i) as [t|] eqn:Hi; [|done]. cbn in Hrun. destruct (threads_middle s i t Hi) as (bef & aft & Hth & _ & Hins).
    destruct (outbox t) as [|e events]; [done|]. injection Hrun as <-. destruct Hs as [Hb Hs Hd]. split; [done| |done].
    intros Hf. destruct (Hs Hf) as [?|(t' & Ht' & Hn)]; [by left|right]. cbn. rewrite Hins. rewrite Hth in Ht'.
    apply elem_of_app in Ht' as [Ht'|[->|Ht']%elem_of_cons].
    + exists t'. split; [|done]. set_solver.
    + exists {| outbox := events; next := next t |}. split; [|done]. set_solver.
    + exists t'. split; [|done]. set_solver.
  - destruct (threads s !! i) as [t|] eqn:Hi; [|done]. cbn in Hrun. destruct (threads_middle s i t Hi) as (bef & aft & Hth & Hdel & _).
    destruct (guard (outbox t = [])) as [Hout|]; [|done]. cbn in Hrun. destruct Hs as [Hb Hs Hd]. destruct (next t) eqn:Hnext.
    + injection Hrun as <-. split; [done| |done]. intros Hf. destruct (Hs Hf) as [?|(t' & Ht' & Hn)]; [by left|right].
      exists t'. cbn. rewrite Hdel. rewrite Hth in Ht'. split; [|done]. assert (t' ≠ t) by congruence. set_solver.
    + cbn in Hin. subst b. injection Hrun as <-. split; [done| |].
      * intros _. left. cbn. by destruct (timers s).
      * cbn. apply Forall_app. split; [done|]. repeat constructor. lia.
    + case_guard; [|done]. injection Hrun as <-. by apply drain_round_flush.
  - injection Hrun as <-. destruct Hs as [Hb Hs Hd]. split; [done|done|]. cbn. eapply Forall_impl; [exact Hd|]. cbn. intros. lia.
Qed.

Lemma initial_ok c : system_ok c initial_system ∧ flush_ok c initial_system.
Proof.
  split; [|by split].
  split; [|done]. split; [|intros k; apply grouped_nil..].
  split; cbn; [intros k p Hk; by rewrite lookup_empty in Hk|intros k h Hk; by rewrite lookup_empty in Hk| |done].
  rewrite !map_size_empty. lia.
Qed.
Lemma reachable_coalescer_ok allowed c s : counter_suffices c → reachable allowed c s → system_ok c s.
Proof.
  intros Hc Hr. eapply invariant_rtc; [|exact Hr|apply initial_ok]. intros s1 s2 Hok (l & _ & Hl). by eapply run_label_ok.
Qed.
Lemma reachable_flush c s : counter_suffices c → reachable in_runtime c s → flush_ok c s.
Proof.
  intros Hc Hr. apply (invariant_rtc (step in_runtime c) (λ s, system_ok c s ∧ flush_ok c s)) with (s := initial_system);
    [|exact Hr|apply initial_ok].
  intros s1 s2 [Hok Hf] (l & Hin & Hl). split; [by eapply run_label_ok|by eapply run_label_flush].
Qed.

(** C18: progress is neither lost nor duplicated. In every reachable state the
    values drained and pending under a key merge, in order, consecutive groups
    of the updates accepted under it, each update in exactly one group; the same
    holds for heartbeats; and what was sent together with what the threads are
    about to send is what was drained. *)
Theorem progress_conserved (allowed : label → Prop) c s :
  counter_suffices c → reachable allowed c s →
  (∀ k, grouped (new_pending c) (merge c) (updates_of k (accepted s)) (outputs_of k (drained s)) (pending (state s) !! k)) ∧
  (∀ k, grouped (merge_heartbeat None) add_heartbeat (beats_of k (accepted s)) (beat_outputs_of k (drained s))
          (heartbeats (state s) !! k)) ∧
  sent s ++ (threads s ≫= outbox) ≡ₚ drained s.
Proof.
  intros Hc Hr. destruct (reachable_coalescer_ok allowed c s Hc Hr) as [[_ Hp Hb] Hs]. done.
Qed.

(** the coalescer is bounded. In every reachable state progress and
    heartbeats together hold at most the configured number of keys, every pending
    delta is within the byte limit of its kind and stored under its own key, and
    the byte counter is exact. *)
Theorem progress_bounded (allowed : label → Prop) c s :
  counter_suffices c → reachable allowed c s →
  N.of_nat (size (pending (state s))) + N.of_nat (size (heartbeats (state s))) ≤ max_pending_keys c ∧
  (∀ k p, pending (state s) !! k = Some p →
     progress_key_from_notification (notification p) = k ∧ behavior p = for_stream (k_stream k) ∧
     pending_bytes p ≤ key_bytes c (behavior p)) ∧
  pending_delta_bytes (state s) = total_bytes (pending (state s)) ∧
  pending_delta_bytes (state s) ≤ max_pending_keys c * largest_limit c.
Proof.
  intros Hc Hr. destruct (reachable_coalescer_ok allowed c s Hc Hr) as [[[Hp _ Hs Hb] _ _] _]. split; [done|]. split.
  { intros k p Hk. by destruct (Hp k p Hk). }
  split; [done|]. rewrite Hb. etrans; [apply (total_bytes_bound (largest_limit c))|apply N.mul_le_mono_r; lia].
  intros k p Hk. destruct (Hp k p Hk) as [_ _ Hl]. etrans; [exact Hl|]. unfold key_bytes, largest_limit. destruct (behavior p); lia.
Qed.

(** pending progress is always about to be flushed. While threads run in
    the runtime, whenever something is pending a flush is scheduled: a timer is
    armed that is due within one flush interval, or a thread is about to arm one
    or to drain. A timer that is due can fire and then drains a full batch or
    everything. *)
Theorem progress_flush_scheduled c s :
  counter_suffices c → reachable in_runtime c s →
  (idle (state s) = false →
     flush_scheduled (state s) = true ∧
     ((∃ due, due ∈ timers s ∧ due ≤ now s + flush_interval c) ∨ ∃ t, t ∈ threads s ∧ next t ≠ Finish)) ∧
  (∀ i due o, timers s !! i = Some due → due ≤ now s → iterates o (state s) →
     ∃ s', run_label c (LFire i o) s = Some s' ∧
       (pending_total (state s') + Nat.min (batch_size c) (pending_total (state s)))%nat = pending_total (state s)).
Proof.
  intros Hc Hr. destruct (reachable_flush c s Hc Hr) as [Hb Hs Hd]. split.
  - intros Hi. pose proof (Hb Hi) as Hf. split; [done|]. destruct (Hs Hf) as [Ht|Ht]; [left|by right].
    destruct (timers s) as [|due ts]; [done|]. apply Forall_cons in Hd as [Hd _]. exists due. split; [left|done].
  - intros i due o Hi Hdue Hit. cbn. rewrite Hi. cbn. rewrite option_guard_True by done. eexists. split; [done|].
    unfold drain_round. cbn [state]. pose proof (drain_batch_size c (state s) o Hit) as Hsize.
    change (state (s <| timers := delete i (timers s) |>)) with (state s).
    destruct (drain_batch c (state s) o) as [[evs more] st']. cbn. destruct Hsize as (Hl & Ht & _). lia.
Qed.

(** ** What a merged value shows *)

(** A text or, when it is longer than the limit, something within the limit
    that shares all but at most 24 bytes of the room with it. *)
Definition abridges (limit : N) (full d : text) : Prop :=
  byte_len d ≤ limit ∧
  (byte_len full ≤ limit → d = full) ∧
  (limit < byte_len full → ∃ kept r r', full = kept ++ r ∧ d = kept ++ r' ∧ limit ≤ byte_len kept + 24).
Lemma keeps_abridges limit full d : keeps limit full d → abridges limit full d.
Proof.
  intros (H1 & H2 & H3). split; [done|]. split; [done|]. intros Hlt. destruct (H3 Hlt) as (p & r & r' & ? & ? & ? & _). by exists p, r, r'.
Qed.

Lemma json_get_insert (key key' : text) (v : Json Number) members :
  json_get (JObject (json_insert key v members)) key' =
  if decide (key = key') then Some v else json_get (JObject members) key'.
Proof.
  cbn [json_get]. induction members as [|m members IH]; cbn [json_insert].
  - rewrite filter_cons. cbn. by case_decide.
  - destruct (decide (m.1 = key)) as [Hm|Hm]; rewrite !filter_cons; cbn.
    + subst key. destruct (decide (m.1 = key')) as [Hk|Hk]; [done|done].
    + destruct (decide (m.1 = key')) as [Hk|Hk]; [|exact IH]. subst key'. by rewrite (decide_False (P:=key = m.1)).
Qed.
Lemma annotate_coalesced n a b :
  (payload (annotate_progress_payload n a b) ≫= λ v, json_get v (lit "coalesced")) = Some (JBool a).
Proof.
  set (ms := json_insert (lit "coalesced") (JBool a)
    (match payload n with Some (JObject m) => m | Some v => [(lit "value", v)] | None => [] end)).
  change (json_get (JObject (if b then json_insert (lit "truncated") (JBool true) ms else ms)) (lit "coalesced") = Some (JBool a)).
  assert (json_get (JObject ms) (lit "coalesced") = Some (JBool a)) as Hms by (unfold ms; by rewrite json_get_insert, decide_True).
  destruct b; [|done]. by rewrite json_get_insert, decide_False.
Qed.

Lemma append_keeps c k n ns :
  for_stream (k_stream k) = Append → progress_key_from_notification n = k → Forall (λ n, progress_key_from_notification n = k) ns →
  let p := foldl (merge c) (new_pending c n) ns in
  behavior p = Append ∧
  keeps (max_append_bytes_per_key c) (concat (delta <$> n :: ns)) (delta (notification p)) ∧
  (payload (notification p) ≫= λ v, json_get v (lit "coalesced")) = Some (JBool true).
Proof.
  intros Hk Hn HF. cbn zeta. induction ns as [|m ns IH] using rev_ind.
  - cbn [foldl fmap list_fmap concat]. rewrite app_nil_r. unfold new_pending. rewrite Hn, Hk. cbn [key_bytes].
    pose proof (bound_delta_keeps (max_append_bytes_per_key c) (delta n)) as Hkeep.
    destruct (bound_delta (delta n) _) as [b t]. split; [done|]. split; [exact Hkeep|apply annotate_coalesced].
  - apply Forall_app in HF as [HF Hm]. destruct (IH HF) as (Hb & Hkeep & _). rewrite foldl_app. cbn [foldl].
    set (p := foldl (merge c) (new_pending c n) ns) in *. clearbody p. unfold merge. rewrite Hb.
    pose proof (keeps_append _ _ _ (delta m) Hkeep) as Hnext.
    rewrite app_comm_cons, fmap_app, concat_app. cbn [fmap list_fmap concat]. rewrite app_nil_r.
    destruct (bound_delta (delta (notification p) ++ delta m) _) as [b t]. split; [done|].
    split; [exact Hnext|apply annotate_coalesced].
Qed.
Lemma snapshot_keeps c k n ns :
  for_stream (k_stream k) = Snapshot → progress_key_from_notification n = k → Forall (λ n, progress_key_from_notification n = k) ns →
  let p := foldl (merge c) (new_pending c n) ns in
  behavior p = Snapshot ∧
  (∃ m, last (n :: ns) = Some m ∧ keeps (max_snapshot_bytes_per_key c) (delta m) (delta (notification p))) ∧
  (payload (notification p) ≫= λ v, json_get v (lit "coalesced")) = Some (JBool true).
Proof.
  intros Hk Hn HF. cbn zeta. induction ns as [|m ns IH] using rev_ind.
  - cbn [foldl]. unfold new_pending. rewrite Hn, Hk. cbn [key_bytes].
    pose proof (bound_delta_keeps (max_snapshot_bytes_per_key c) (delta n)) as Hkeep.
    destruct (bound_delta (delta n) _) as [b t]. split; [done|]. split; [by exists n|apply annotate_coalesced].
  - apply Forall_app in HF as [HF _]. destruct (IH HF) as (Hb & _ & _). rewrite foldl_app. cbn [foldl].
    set (p := foldl (merge c) (new_pending c n) ns) in *. clearbody p. unfold merge. rewrite Hb.
    pose proof (bound_delta_keeps (max_snapshot_bytes_per_key c) (delta m)) as Hkeep.
    destruct (bound_delta (delta m) _) as [b t]. split; [done|].
    split; [exists m; split; [by rewrite app_comm_cons, last_snoc|exact Hkeep]|apply annotate_coalesced].
Qed.

(** a merged update tells what it merges. The value of a group of updates
    of a stream of text is their concatenation or, when that is longer than the
    limit, a text within the limit that starts with all of it but at most the
    last 24 bytes that the limit leaves room for; the value of a group of tool
    progress is the last update alone, bounded likewise. Both say in their
    payload that they were coalesced. *)
Theorem merged_update_abridges c k n ns p :
  progress_key_from_notification n = k → Forall (λ n, progress_key_from_notification n = k) ns →
  merged (new_pending c) (merge c) (n :: ns) = Some p →
  match for_stream (k_stream k) with
  | Append => abridges (max_append_bytes_per_key c) (concat (delta <$> n :: ns)) (delta (notification p))
  | Snapshot => ∃ m, last (n :: ns) = Some m ∧ abridges (max_snapshot_bytes_per_key c) (delta m) (delta (notification p))
  end ∧
  (payload (notification p) ≫= λ v, json_get v (lit "coalesced")) = Some (JBool true).
Proof.
  intros Hn HF [= <-]. destruct (for_stream (k_stream k)) eqn:Hk.
  - destruct (append_keeps c k n ns Hk Hn HF) as (_ & ? & ?). split; [by apply keeps_abridges|done].
  - destruct (snapshot_keeps c k n ns Hk Hn HF) as (_ & (m & ? & ?) & ?). split; [|done].
    exists m. split; [done|by apply keeps_abridges].
Qed.

(** ** What a durable event flushes *)
Definition values {K V} `{Countable K} (m : gmap K V) : list V := (map_to_list m).*2.
Definition contents st : list event_t := (progress_event <$> values (pending st)) ++ (ItemHeartbeat <$> values (heartbeats st)).
Lemma values_taken {K V} `{Countable K} (m : gmap K V) keys :
  NoDup keys → values m ≡ₚ omap (λ k, m !! k) keys ++ values (filter (λ kv, kv.1 ∉ keys) m).
Proof.
  intros Hk. revert m. induction Hk as [|k keys Hnotin Hk IH]; intros m.
  { rewrite map_filter_id; [done|]. intros i x _. by apply not_elem_of_nil. }
  cbn [omap list_omap]. destruct (m !! k) as [v|] eqn:Hv.
  - unfold values at 1. rewrite <-(map_to_list_delete _ _ _ Hv). cbn. apply Permutation_skip.
    fold (values (delete k m)). rewrite (IH (delete k m)).
    rewrite (omap_ext_in (λ k', delete k m !! k') (λ k', m !! k')) by (intros i Hi; apply lookup_delete_ne; by intros ->).
    apply Permutation_app_head, reflexive_eq. f_equal.
    apply map_eq. intros i. apply option_eq. intros x. rewrite !map_lookup_filter_Some, lookup_delete_Some. cbn.
    rewrite not_elem_of_cons. naive_solver.
  - rewrite (IH m). apply Permutation_app_head, reflexive_eq. f_equal.
    apply map_eq. intros i. apply option_eq. intros x. rewrite !map_lookup_filter_Some. cbn. rewrite not_elem_of_cons. naive_solver.
Qed.
Lemma take_keys_contents st keys beats :
  NoDup keys → NoDup beats → contents st ≡ₚ (take_keys st keys beats).1 ++ contents (take_keys st keys beats).2.
Proof.
  intros Hk Hb. destruct (take_keys_spec st keys beats Hk Hb) as (H1 & H2 & _ & H4). unfold contents. rewrite H1, H2, H4.
  rewrite (values_taken (pending st) keys Hk) at 1. rewrite (values_taken (heartbeats st) beats Hb) at 1.
  rewrite !fmap_app. solve_Permutation.
Qed.

(** The keys an event concerns. *)
Definition concerns (scope : FlushScope) (k : ProgressCoalescingKey) : Prop :=
  match scope with
  | FlushItem w t u i => of_item w t u i k | FlushTurn t u => of_turn t u k | FlushAll => True | FlushNothing => False
  end.
Definition concerns_heartbeat (scope : FlushScope) (k : HeartbeatKey) : Prop :=
  match scope with
  | FlushItem _ t u i => heartbeat_of_item t u i k | FlushTurn t u => heartbeat_of_turn t u k | FlushAll => True | FlushNothing => False
  end.
#[local] Instance concerns_dec scope k : Decision (concerns scope k).
Proof. destruct scope; apply _. Defined.
#[local] Instance concerns_heartbeat_dec scope k : Decision (concerns_heartbeat scope k).
Proof. destruct scope; apply _. Defined.

(** A flush sends the concerned part and keeps the rest. *)
Definition flushed (scope : FlushScope) st (events : list event_t) st' : Prop :=
  pending st' = filter (λ kp, ¬ concerns scope kp.1) (pending st) ∧
  heartbeats st' = filter (λ kh, ¬ concerns_heartbeat scope kh.1) (heartbeats st) ∧
  contents st ≡ₚ events ++ contents st'.

Lemma filter_not_listed {K V} `{Countable K} (m : gmap K V) (P : K → Prop) `{!∀ k, Decision (P k)} keys :
  list_to_set keys = dom m → filter (λ kv, kv.1 ∉ filter P keys) m = filter (λ kv, ¬ P kv.1) m.
Proof.
  intros Hdom. apply map_filter_ext. intros i x Hi. cbn. rewrite list_elem_of_filter.
  assert (i ∈ keys) by (apply (elem_of_list_to_set (C:=gset K)); rewrite Hdom; by eapply elem_of_dom_2). tauto.
Qed.
Lemma take_filtered_flushed scope st (o : orders) :
  iterates o st →
  let r := take_keys st (filter (concerns scope) o.1) (filter (concerns_heartbeat scope) o.2) in
  flushed scope st r.1 r.2.
Proof.
  intros (Hn1 & Hd1 & Hn2 & Hd2) r. subst r. unfold flushed.
  destruct (take_keys_spec st (filter (concerns scope) o.1) (filter (concerns_heartbeat scope) o.2)) as (-> & -> & _ & _);
    [by apply NoDup_filter..|]. rewrite !filter_not_listed by done. split; [done|]. split; [done|].
  apply take_keys_contents; by apply NoDup_filter.
Qed.
Lemma flushed_update scope st events st' : flushed scope st events st' → flushed scope st events (update_flush_scheduled st').
Proof. intros Hf. unfold update_flush_scheduled. by destruct (idle st'). Qed.

Lemma idle_flushed_all st events st' : idle st' = true → contents st ≡ₚ events ++ contents st' → flushed FlushAll st events st'.
Proof.
  intros [Hp Hh]%idle_spec Hc. unfold flushed. split; [|split; [|done]].
  - rewrite Hp. symmetry. apply map_empty. intros i. apply map_lookup_filter_None. right. intros x _. cbn. tauto.
  - rewrite Hh. symmetry. apply map_empty. intros i. apply map_lookup_filter_None. right. intros x _. cbn. tauto.
Qed.
Lemma drain_batch_contents c st o :
  iterates o st → let '(evs, _, st') := drain_batch c st o in contents st ≡ₚ evs ++ contents st'.
Proof.
  intros (Hn1 & _ & Hn2 & _). destruct (drain_batch_take c st o) as (beats & -> & ->). cbn zeta.
  apply take_keys_contents; by eapply sublist_NoDup, sublist_take.
Qed.
Lemma flush_all_flushes c order st fuel :
  (∀ st, iterates (order st) st) → (pending_total st < fuel)%nat →
  ∃ events st', flush_all fuel c order st = Some (events, st') ∧ idle st' = true ∧ contents st ≡ₚ events ++ contents st'.
Proof.
  intros Horder. revert st; induction fuel as [|fuel IH]; intros st Hfuel; [lia|]. cbn [flush_all].
  pose proof (drain_batch_size c st (order st) (Horder st)) as Hsize. pose proof (drain_batch_contents c st (order st) (Horder st)) as Hcont.
  destruct (drain_batch c st (order st)) as [[evs more] st1]. destruct Hsize as (Hl & Ht & ->).
  destruct (idle st1) eqn:Hidle; cbn [negb]; [by exists evs, st1|].
  assert (pending_total st1 ≠ 0%nat) as Hne by (intros H0%idle_total; congruence).
  assert (1 ≤ batch_size c)%nat by (unfold batch_size; lia).
  destruct (IH st1) as (evs' & st' & -> & Hi & Hc); [lia|]. exists (evs ++ evs'), st'. split; [done|]. split; [done|].
  by rewrite Hcont, Hc, app_assoc.
Qed.

(** a durable event flushes exactly what it concerns. Whatever the order in
    which the maps are iterated, the flush ends, sends every pending value of
    the item, of the turn or of everything, as the event says, once each, keeps
    the other values as they are, and an event that concerns nothing changes
    nothing. *)
Theorem durable_flush_exact c (order : state_t → orders) st (event : AgentDurableEvent) :
  (∀ st, iterates (order st) st) →
  ∃ events st', flush_for_durable (S (pending_total st)) c order st event = Some (events, st') ∧
    flushed (durable_scope event) st events st' ∧
    (durable_scope event = FlushNothing → events = [] ∧ st' = st).
Proof.
  intros Horder. unfold flush_for_durable. destruct (durable_scope event) as [w t u i|t u| |] eqn:Hscope.
  - pose proof (take_filtered_flushed (FlushItem w t u i) st _ (Horder st)) as Hf. unfold flush_item. cbn in Hf.
    destruct (take_keys _ _ _) as [evs st']. eexists _, _. split; [done|]. split; [by apply flushed_update|done].
  - pose proof (take_filtered_flushed (FlushTurn t u) st _ (Horder st)) as Hf. unfold flush_turn. cbn in Hf.
    destruct (take_keys _ _ _) as [evs st']. eexists _, _. split; [done|]. split; [by apply flushed_update|done].
  - destruct (flush_all_flushes c order st (S (pending_total st)) Horder) as (evs & st' & Hfl & Hi & Hc); [lia|].
    exists evs, st'. split; [done|]. split; [by apply idle_flushed_all|done].
  - exists [], st. split; [done|]. split; [|done]. split; [|split; [|done]]; symmetry; apply map_filter_id; intros; cbn; tauto.
Qed.
End proofs.

(** ** A concrete run *)
Module ProgressSample.
#[export] Existing Instances iterates_dec system_fields state_fields.
Abbreviation sample_event := (@AgentProgressEvent N () ()).
Definition output (text : string) : ItemDeltaNotification (Number := N) (Markdown := ()) :=
  {| workspace_id := "w"; thread_id := "t"; turn_id := "u"; item_id := "i"; delta := lit text;
     stream := Some Stdout; payload := None; markdown := None; markdown_version := None |}.
Definition key : ProgressCoalescingKey :=
  {| k_workspace := "w"; k_thread := "t"; k_turn := "u"; k_item := "i"; k_stream := Stdout |}.
Definition listed : orders := ([key], []).
Definition small : ProgressCoalescerConfig :=
  {| flush_interval := 150; max_pending_keys := 4; max_append_bytes_per_key := 24;
     max_snapshot_bytes_per_key := 24; max_flush_batch_size := 1 |}.
Definition offered (text : string) : label (Number := N) (Markdown := ()) (ItemType := ()) := LOffer (ItemDelta (output text)).

Definition schedule : list (label (Number := N) (Markdown := ()) (ItemType := ())) :=
  [offered "hello "; offered "world"; LNext 0 true listed; LTick 150; LFire 0 listed; offered "next"].
Definition after_schedule : option system := run_labels default_config schedule initial_system.
Definition texts_of (events : list sample_event) : list text :=
  omap (λ e, match e with ItemDelta n => Some (delta n) | _ => None end) events.

(** The timer and a durable event drain the same stream one after the other;
    their threads then send in the opposite order. *)
Definition overtaking : list (label (Number := N) (Markdown := ()) (ItemType := ())) :=
  [offered "first"; LNext 0 true listed; LTick 150; LFire 0 listed; offered "second";
   LDurable (ItemCompleted "w" "t" "u" "i") listed; LSend 2; LSend 0].
End ProgressSample.
Import ProgressSample.

Lemma run_labels_reachable {Number Markdown ItemType} (allowed : label → Prop) c (ls : list (@label Number Markdown ItemType)) s :
  Forall allowed ls → run_labels c ls initial_system = Some s → reachable allowed c s.
Proof.
  unfold reachable. generalize (@initial_system Number Markdown ItemType). intros s0 HF. revert s0.
  induction HF as [|l ls Hl HF IH]; intros s0; cbn; [by intros [= ->]|].
  destruct (run_label c l s0) as [s1|] eqn:Hrun; [|done]. intros Hls. eapply rtc_l; [by exists l|by apply IH].
Qed.
Lemma default_suffices : counter_suffices default_config.
Proof. by split. Qed.

(** Deltas of one stream can be broadcast in the opposite order of their
    acceptance: what was drained is sent after the mutex is released. *)
Theorem sends_may_overtake :
  match run_labels default_config overtaking initial_system with
  | Some s => texts_of (drained s) = [lit "first"; lit "second"] ∧ texts_of (sent s) = [lit "second"; lit "first"]
  | None => False
  end.
Proof. vm_compute. done. Qed.

Example sample_texts :
  (match after_schedule with Some s => (texts_of (drained s), size (pending (state s))) | None => ([], 0%nat) end)
    = ([lit "hello world"], 1%nat) ∧
  (bound_delta (lit "a long line of output") 24).1 = lit "a long line of output" ∧
  (bound_delta (lit "a longer line of any output") 24).1 = lit "a l" ++ SUFFIX ∧
  (bound_delta [97; 233; 233; 233] 5).1 = [97; 233; 233] ∧ (bound_delta (lit "x") 0).1 = [].
Proof. by vm_compute. Qed.

Lemma progress_conserved_witness :
  match after_schedule with
  | Some s => grouped (new_pending default_config) (merge default_config) (updates_of key (accepted s))
      (outputs_of key (drained s)) (pending (state s) !! key)
  | None => False
  end.
Proof.
  destruct after_schedule as [s|] eqn:Hs; [|vm_compute in Hs; discriminate Hs].
  pose proof (run_labels_reachable (λ _, True) default_config schedule s) as Hr.
  destruct (progress_conserved (λ _, True) default_config s) as (H & _ & _).
  - exact default_suffices.
  - apply Hr; [repeat constructor|exact Hs].
  - apply H.
Defined.

Lemma progress_bounded_witness :
  match after_schedule with
  | Some s => pending_delta_bytes (state s) = total_bytes (pending (state s)) ∧ pending_delta_bytes (state s) = 4
  | None => False
  end.
Proof.
  destruct after_schedule as [s|] eqn:Hs; [|vm_compute in Hs; discriminate Hs].
  pose proof (run_labels_reachable (λ _, True) default_config schedule s) as Hr.
  destruct (progress_bounded (λ _, True) default_config s) as (_ & _ & H & _).
  - exact default_suffices.
  - apply Hr; [repeat constructor|exact Hs].
  - split; [exact H|]. vm_compute in Hs. injection Hs as <-. reflexivity.
Defined.

Lemma progress_flush_scheduled_witness :
  match after_schedule with
  | Some s => flush_scheduled (state s) = true ∧ ∃ t, t ∈ threads s ∧ next t ≠ Finish
  | None => False
  end.
Proof.
  destruct after_schedule as [s|] eqn:Hs; [|vm_compute in Hs; discriminate Hs].
  pose proof (run_labels_reachable in_runtime default_config schedule s) as Hr.
  destruct (progress_flush_scheduled default_config s) as [H _].
  - exact default_suffices.
  - apply Hr; [repeat constructor|exact Hs].
  - destruct H as [Hf Ho]; [vm_compute in Hs; injection Hs as <-; reflexivity|]. split; [exact Hf|].
    destruct Ho as [(due & Hdue & _)|Ho]; [|exact Ho].
    vm_compute in Hs. injection Hs as <-. cbn in Hdue. by apply elem_of_nil in Hdue.
Defined.

Lemma merged_update_abridges_witness :
  abridges 24 (lit "line one line two and three") (delta (notification (foldl (merge small) (new_pending small (output "line one "))
    [output "line two "; output "and three"]))).
Proof.
  destruct (merged_update_abridges small key (output "line one ") [output "line two "; output "and three"]
    (foldl (merge small) (new_pending small (output "line one ")) [output "line two "; output "and three"])) as [H _].
  - reflexivity.
  - repeat constructor.
  - reflexivity.
  - exact H.
Defined.

Lemma durable_flush_exact_witness :
  match after_schedule with
  | Some s => ∃ events st', flush_for_durable (S (pending_total (state s))) default_config
      (λ st, (elements (dom (pending st)), elements (dom (heartbeats st)))) (state s) (TurnFailed "t" "u") = Some (events, st')
      ∧ flushed (FlushTurn "t" "u") (state s) events st'
  | None => False
  end.
Proof.
  destruct after_schedule as [s|] eqn:Hs; [|vm_compute in Hs; discriminate Hs].
  destruct (durable_flush_exact default_config (λ st, (elements (dom (pending st)), elements (dom (heartbeats st))))
    (state s) (TurnFailed "t" "u")) as (events & st' & H1 & H2 & _).
  - intros st. split; [apply NoDup_elements|]. split; [apply list_to_set_elements_L|].
    split; [apply NoDup_elements|apply list_to_set_elements_L].
  - exists events, st'. split; [exact H1|exact H2].
Defined.
