(* ===== verification/DurableLane.v ===== *)
(** * The durable lane of the event hub

    Models [crates/runtime-events/src/hub.rs]: publishers reserve a place in a
    bounded queue, send an envelope and may wait for its commit; one listener at a
    time leases the receiver, acknowledges what it received and can be replaced.
    Every operation is a function on the state of the lane, and a step relation
    interleaves publishers and listeners between their suspension points.

    The channels are those of tokio: an [mpsc] channel is a queue with permits,
    closed only when its receiver is dropped, which the lane owns, and a [oneshot]
    channel carries the answer of a commit, so that a publisher is named by the
    number of its commit. The flush of progress before a durable event, the guard of
    a blocked turn, which an envelope carries like its transition, and the counters
    of observation are left out. *)
From S2P Require Import Prelude.
Local Open Scope N_scope.

Inductive DurableCommitRejectionKind := Retryable | Permanent | SupersededByDurableInterruption.
#[export] Instance DurableCommitRejectionKind_eq_dec : EqDecision DurableCommitRejectionKind.
Proof. solve_decision. Defined.
Record DurableCommitRejection := { rejection_kind : DurableCommitRejectionKind; code : string; message : string }.
#[export] Instance DurableCommitRejection_eq_dec : EqDecision DurableCommitRejection.
Proof. solve_decision. Defined.
Definition retryable (code message : string) : DurableCommitRejection :=
  {| rejection_kind := Retryable; code := code; message := message |}.
Definition permanent (code message : string) : DurableCommitRejection :=
  {| rejection_kind := Permanent; code := code; message := message |}.
Definition superseded_by_durable_interruption : DurableCommitRejection :=
  {| rejection_kind := SupersededByDurableInterruption; code := "durable_interruption_accepted";
     message := "execution was superseded by confirmed durable interruption" |}.
Definition is_retryable (r : DurableCommitRejection) : bool := bool_decide (rejection_kind r = Retryable).
Inductive ExecutionEventHubError :=
  | DurableLaneClosed
  | CommitAcknowledgementDropped
  | CommitRejected (r : DurableCommitRejection).
Abbreviation commit := (result DurableCommitRejection ()).

Section lane.
(** An event, and what guards the transition of its turn while it is handled. *)
Context {Event Guard : Type}.

Record DurableEventEnvelope := {
  event : Event;
  committed_tx : option N;                 (* the commit its publisher waits for *)
  turn_transition : option Guard;
}.

(** A publisher between its suspension points. *)
Inductive publisher :=
  | Reserving (e : DurableEventEnvelope)   (* waits for a place *)
  | Reserved (e : DurableEventEnvelope)    (* holds a permit *)
  | AwaitingCommit                         (* sent, waits for the answer *)
  | Returned (r : result ExecutionEventHubError ()).
(** A lease of the receiver, with what was received and not acknowledged. *)
Inductive listener :=
  | Handling (pending : option DurableEventEnvelope)
  | Receiving                              (* inside [recv], after the implied acknowledgement *)
  | Dropping.                              (* inside [drop], before the lease is released *)

Record lane := {
  queue : list DurableEventEnvelope;
  available : N;                           (* permits of the channel *)
  depth : N;
  receiver_claimed : bool;
  listeners : gmap N listener;
  publishers : gmap N publisher;
  answers : gmap N commit;                 (* what was sent on the commit channels *)
  (* the history: what was sent, received, and how each received envelope ended *)
  sent : list DurableEventEnvelope;
  received : list DurableEventEnvelope;
  outcomes : list (DurableEventEnvelope * commit);
}.
#[export] Instance lane_fields : Fields lane := λ s,
  {| queue := queue s; available := available s; depth := depth s; receiver_claimed := receiver_claimed s;
     listeners := listeners s; publishers := publishers s; answers := answers s; sent := sent s; received := received s;
     outcomes := outcomes s |}.

Definition with_capacity (durable_capacity : N) : lane :=
  {| queue := []; available := durable_capacity `max` 1; depth := 0; receiver_claimed := false; listeners := ∅;
     publishers := ∅; answers := ∅; sent := []; received := []; outcomes := [] |}.

(** ** Publishing *)

(** [publish_durable_and_wait] waits for the commit, [publish_durable] does not. *)
Definition publish (p : N) (e : Event) (wait : bool) (transition : option Guard) (s : lane) : lane :=
  s <| publishers := <[p := Reserving {| event := e; committed_tx := if wait then Some p else None;
                                         turn_transition := transition |}]> (publishers s) |>.
(** [Sender::reserve]: a permit, once there is one. *)
Definition reserve (p : N) (s : lane) : option lane :=
  match publishers s !! p with
  | Some (Reserving e) =>
      if decide (available s = 0) then None
      else Some ((s <| available := available s - 1 |>) <| publishers := <[p := Reserved e]> (publishers s) |>)
  | _ => None
  end.
Definition send (p : N) (s : lane) : option lane :=
  match publishers s !! p with
  | Some (Reserved e) =>
      Some ((((s <| depth := depth s + 1 |>) <| queue := queue s ++ [e] |>) <| sent := sent s ++ [e] |>)
              <| publishers := <[p := match committed_tx e with Some _ => AwaitingCommit | None => Returned (Ok ()) end]> (publishers s) |>)
  | _ => None
  end.
Definition commit_result (answer : commit) : result ExecutionEventHubError () :=
  match answer with Ok u => Ok u | Err r => Err (CommitRejected r) end.
Definition resume (p : N) (s : lane) : option lane :=
  match publishers s !! p, answers s !! p with
  | Some AwaitingCommit, Some answer => Some (s <| publishers := <[p := Returned (commit_result answer)]> (publishers s) |>)
  | _, _ => None
  end.
(** The future of a publisher dropped at a suspension point; a commit it waits
    for stays where it is. *)
Definition cancel (p : N) (s : lane) : option lane :=
  match publishers s !! p with
  | Some (Reserving _) | Some AwaitingCommit => Some (s <| publishers := delete p (publishers s) |>)
  | _ => None
  end.

(** ** Receiving *)

Definition take_durable_receiver (l : N) (s : lane) : option lane :=
  if receiver_claimed s then None
  else Some ((s <| receiver_claimed := true |>) <| listeners := <[l := Handling None]> (listeners s) |>).
(** [acknowledge_last] for what the listener has pending: the answer goes to the
    publisher, if one waits, and the transition of the turn is released. *)
Definition acknowledge_last (pending : option DurableEventEnvelope) (result : commit) (s : lane) : lane :=
  match pending with
  | None => s
  | Some e =>
      let s := match committed_tx e with Some p => s <| answers := <[p := result]> (answers s) |> | None => s end in
      s <| outcomes := outcomes s ++ [(e, result)] |>
  end.
Definition missing_ack : commit :=
  Err (retryable "consumer_missing_ack"
    "durable event consumer requested the next event without acknowledging the previous commit").
Definition consumer_dropped : commit :=
  Err (retryable "consumer_dropped" "durable event consumer was dropped before acknowledging the commit").
Definition acknowledge (l : N) (result : commit) (s : lane) : option lane :=
  match listeners s !! l with
  | Some (Handling pending) =>
      Some ((acknowledge_last pending result s) <| listeners := <[l := Handling None]> (listeners s) |>)
  | _ => None
  end.
Definition recv (l : N) (s : lane) : option lane :=
  match listeners s !! l with
  | Some (Handling pending) =>
      Some ((acknowledge_last pending missing_ack s) <| listeners := <[l := Receiving]> (listeners s) |>)
  | _ => None
  end.
(** [poll_recv] under the lock of the depth, and the envelope made pending. *)
Definition pop (l : N) (s : lane) : option lane :=
  match listeners s !! l, queue s with
  | Some Receiving, e :: rest =>
      Some (((((s <| depth := depth s - 1 |>) <| queue := rest |>) <| available := available s + 1 |>)
               <| received := received s ++ [e] |>)
              <| listeners := <[l := Handling (Some e)]> (listeners s) |>)
  | _, _ => None
  end.
(** The future of [recv] dropped while it waits. *)
Definition cancel_recv (l : N) (s : lane) : option lane :=
  match listeners s !! l with
  | Some Receiving => Some (s <| listeners := <[l := Handling None]> (listeners s) |>)
  | _ => None
  end.
(** [Drop for DurableEventReceiver]. *)
Definition drop_begin (l : N) (s : lane) : option lane :=
  match listeners s !! l with
  | Some (Handling pending) =>
      Some ((acknowledge_last pending consumer_dropped s) <| listeners := <[l := Dropping]> (listeners s) |>)
  | _ => None
  end.
Definition drop_end (l : N) (s : lane) : option lane :=
  match listeners s !! l with
  | Some Dropping => Some ((s <| receiver_claimed := false |>) <| listeners := delete l (listeners s) |>)
  | _ => None
  end.

(** ** Steps: publishers and listeners have fresh names *)
Inductive consumer_step : relation lane :=
  | step_take s s' l : listeners s !! l = None → take_durable_receiver l s = Some s' → consumer_step s s'
  | step_acknowledge s s' l r : acknowledge l r s = Some s' → consumer_step s s'
  | step_recv s s' l : recv l s = Some s' → consumer_step s s'
  | step_pop s s' l : pop l s = Some s' → consumer_step s s'
  | step_cancel_recv s s' l : cancel_recv l s = Some s' → consumer_step s s'
  | step_drop_begin s s' l : drop_begin l s = Some s' → consumer_step s s'
  | step_drop_end s s' l : drop_end l s = Some s' → consumer_step s s'.
Inductive step : relation lane :=
  | step_publish s p e wait transition :
      publishers s !! p = None → (∀ e', e' ∈ sent s → committed_tx e' ≠ Some p) → step s (publish p e wait transition s)
  | step_reserve s s' p : reserve p s = Some s' → step s s'
  | step_send s s' p : send p s = Some s' → step s s'
  | step_resume s s' p : resume p s = Some s' → step s s'
  | step_cancel s s' p : cancel p s = Some s' → step s s'
  | step_consumer s s' : consumer_step s s' → step s s'.
Definition reachable (capacity : N) (s : lane) : Prop := rtc step (with_capacity capacity) s.

(** ** The invariant *)

Definition commits (l : list DurableEventEnvelope) : list N := omap committed_tx l.
Definition pending_of (st : listener) : list DurableEventEnvelope :=
  match st with Handling (Some e) => [e] | _ => [] end.
(** The receiver is leased to one listener or to none; what it has pending. *)
Definition leased (s : lane) (pending : list DurableEventEnvelope) : Prop :=
  receiver_claimed s = false ∧ listeners s = ∅ ∧ pending = [] ∨
  receiver_claimed s = true ∧ ∃ l st, listeners s = {[l := st]} ∧ pending = pending_of st.
Definition holds_permit (x : publisher) : bool := match x with Reserved _ => true | _ => false end.
Definition permits_held (s : lane) : nat := size (filter (λ '(_, x), holds_permit x = true) (publishers s)).
(** What a publisher knows of its envelope. *)
Definition publisher_ok (s : lane) (p : N) (x : publisher) : Prop :=
  match x with
  | Reserving e | Reserved e => p ∉ commits (sent s) ∧ ∀ q, committed_tx e = Some q → q = p
  | AwaitingCommit => p ∈ commits (sent s)
  | Returned r => p ∈ commits (sent s) ∧ (∃ answer, answers s !! p = Some answer ∧ r = commit_result answer) ∨
                  p ∉ commits (sent s) ∧ r = Ok ()
  end.
Record lane_ok (capacity : N) (s : lane) : Prop := {
  ok_fifo : sent s = received s ++ queue s;
  ok_lease : ∃ pending, leased s pending ∧ received s = (outcomes s).*1 ++ pending;
  ok_capacity : available s + N.of_nat (permits_held s) + N.of_nat (length (queue s)) = capacity `max` 1;
  ok_depth : depth s = N.of_nat (length (queue s));
  ok_commits : NoDup (commits (sent s));
  ok_answers : ∀ p answer, answers s !! p = Some answer ↔ ∃ e, (e, answer) ∈ outcomes s ∧ committed_tx e = Some p;
  ok_publishers : ∀ p x, publishers s !! p = Some x → publisher_ok s p x;
}.

Lemma commits_app l1 l2 : commits (l1 ++ l2) = commits l1 ++ commits l2.
Proof. apply omap_app. Qed.
Lemma elem_commits l p : p ∈ commits l ↔ ∃ e, e ∈ l ∧ committed_tx e = Some p.
Proof. apply list_elem_of_omap. Qed.
Lemma permits_insert s p x : publishers s !! p = None ∨ (∃ y, publishers s !! p = Some y ∧ holds_permit y = false) →
  size (filter (λ '(_, x), holds_permit x = true) (<[p := x]> (publishers s))) =
  ((if holds_permit x then 1 else 0) + permits_held s)%nat.
Proof.
  intros Hp. unfold permits_held.
  assert (filter (λ '(_, x), holds_permit x = true) (publishers s) !! p = None) as Hnone.
  { apply map_lookup_filter_None. destruct Hp as [Hp|(y & Hp & Hy)]; [by left|right]. intros z Hz. cbn. congruence. }
  destruct (holds_permit x) eqn:Hx.
  - rewrite map_filter_insert_True by done. by rewrite map_size_insert_None.
  - rewrite map_filter_insert_False by (by rewrite Hx). rewrite map_filter_delete, delete_id; done.
Qed.
Lemma permits_release s p x e : publishers s !! p = Some (Reserved e) → holds_permit x = false →
  permits_held s = S (size (filter (λ '(_, x), holds_permit x = true) (<[p := x]> (publishers s)))).
Proof.
  intros Hp Hx. unfold permits_held. rewrite map_filter_insert_False by (by rewrite Hx). rewrite map_filter_delete.
  rewrite map_size_delete. rewrite (proj2 (map_lookup_filter_Some _ _ p (Reserved e))) by done.
  enough (size (filter (λ '(_, x), holds_permit x = true) (publishers s)) ≠ 0)%nat by lia.
  rewrite map_size_ne_0_lookup. exists p, (Reserved e). by apply map_lookup_filter_Some.
Qed.
Lemma permits_delete s p y : publishers s !! p = Some y → holds_permit y = false →
  size (filter (λ '(_, x), holds_permit x = true) (delete p (publishers s))) = permits_held s.
Proof.
  intros Hp Hy. unfold permits_held. rewrite map_filter_delete, delete_id; [done|].
  apply map_lookup_filter_None. right. intros z Hz. cbn. congruence.
Qed.

Lemma leased_lookup s pending l st :
  leased s pending → listeners s !! l = Some st → receiver_claimed s = true ∧ listeners s = {[l := st]} ∧ pending = pending_of st.
Proof.
  intros [(_ & Hl & _)|(Hc & l' & st' & Hl & ->)]; rewrite Hl; intros Hs; [by rewrite lookup_empty in Hs|].
  apply lookup_singleton_Some in Hs as [-> ->]. done.
Qed.
Lemma lane_initial_ok capacity : lane_ok capacity (with_capacity capacity).
Proof.
  assert (permits_held (with_capacity capacity) = 0%nat) as Hperm by (unfold permits_held; cbn; by rewrite map_filter_empty, map_size_empty).
  split; [done| |rewrite Hperm; cbn; lia|done|constructor| |]; cbn.
  - exists []. split; [by left|done].
  - intros p r. rewrite lookup_empty. split; [done|]. intros (e & He & _). by apply not_elem_of_nil in He.
  - intros p x. by rewrite lookup_empty.
Qed.

Lemma publish_ok capacity s p e wait transition :
  lane_ok capacity s → publishers s !! p = None → (∀ e', e' ∈ sent s → committed_tx e' ≠ Some p) →
  lane_ok capacity (publish p e wait transition s).
Proof.
  intros [] Hp Hfresh. split; cbn; try done.
  - unfold permits_held. cbn. rewrite permits_insert by auto. done.
  - intros p' x. rewrite lookup_insert_Some. intros [[<- <-]|[Hne Hx]]; [|by apply ok_publishers0].
    cbn. split; [|by destruct wait; intros q [=]].
    intros (e' & He' & Ht)%elem_commits. by apply (Hfresh e').
Qed.
Lemma reserve_ok capacity s s' p : lane_ok capacity s → reserve p s = Some s' → lane_ok capacity s'.
Proof.
  intros [] Hr. unfold reserve in Hr. destruct (publishers s !! p) as [[e| | |]|] eqn:Hp; try done.
  case_decide as Ha; [done|]. injection Hr as <-. split; cbn; try done.
  - unfold permits_held. cbn. rewrite permits_insert by eauto. cbn [holds_permit]. lia.
  - intros p' x. rewrite lookup_insert_Some. intros [[<- <-]|[Hne Hx]]; [|by apply ok_publishers0].
    by apply (ok_publishers0 p (Reserving e)).
Qed.
Lemma resume_ok capacity s s' p : lane_ok capacity s → resume p s = Some s' → lane_ok capacity s'.
Proof.
  intros [] Hr. unfold resume in Hr. destruct (publishers s !! p) as [[| | |]|] eqn:Hp; try done.
  destruct (answers s !! p) as [answer|] eqn:Ha; [|done]. injection Hr as <-. split; cbn; try done.
  - unfold permits_held. cbn. rewrite permits_insert by eauto. done.
  - intros p' x. rewrite lookup_insert_Some. intros [[<- <-]|[Hne Hx]]; [|by apply ok_publishers0].
    left. split; [by apply (ok_publishers0 p AwaitingCommit)|]. eauto.
Qed.
Lemma cancel_ok capacity s s' p : lane_ok capacity s → cancel p s = Some s' → lane_ok capacity s'.
Proof.
  intros [] Hr. unfold cancel in Hr. destruct (publishers s !! p) as [[| | |]|] eqn:Hp; try done;
    injection Hr as <-; (split; cbn; try done; [unfold permits_held; cbn; by erewrite permits_delete|]);
    intros p' x [_ Hx]%lookup_delete_Some; by apply ok_publishers0.
Qed.
Lemma send_ok capacity s s' p : lane_ok capacity s → send p s = Some s' → lane_ok capacity s'.
Proof.
  intros [] Hr. unfold send in Hr. destruct (publishers s !! p) as [[|e| |]|] eqn:Hp; try done. injection Hr as <-.
  destruct (ok_publishers0 p _ Hp) as [Hfresh Hq].
  assert (∀ p', p' ∈ commits (sent s ++ [e]) ↔ p' ∈ commits (sent s) ∨ committed_tx e = Some p') as Hcommits.
  { intros p'. rewrite commits_app, elem_of_app, (elem_commits [e]). setoid_rewrite list_elem_of_singleton. naive_solver. }
  split; cbn; try done.
  - rewrite ok_fifo0. by rewrite app_assoc.
  - pose proof (permits_release s p (match committed_tx e with Some _ => AwaitingCommit | None => Returned (Ok ()) end) e Hp
      ltac:(by destruct (committed_tx e))) as Hperm.
    unfold permits_held at 1. cbn [publishers]. rewrite length_app. cbn [length]. lia.
  - rewrite length_app. cbn [length]. lia.
  - rewrite commits_app. apply NoDup_app. split_and!; [done| |].
    + intros p' Hin (e' & ->%list_elem_of_singleton & Ht)%elem_commits. apply Hq in Ht as ->. done.
    + cbn. destruct (committed_tx e); cbn; [apply NoDup_singleton|constructor].
  - intros p' x. rewrite lookup_insert_Some. intros [[<- <-]|[Hne Hx]].
    + destruct (committed_tx e) as [q|] eqn:Ht; cbn; rewrite Hcommits; [right; f_equal; by apply Hq|].
      right. split; [|done]. naive_solver.
    + apply ok_publishers0 in Hx. assert (committed_tx e ≠ Some p') as Hne' by (intros Ht%Hq; congruence).
      destruct x; cbn in *; rewrite Hcommits; naive_solver.
Qed.

(** Ending what a listener has pending, whatever the answer. *)
Lemma acknowledge_ok capacity s l pending answer st :
  lane_ok capacity s → listeners s !! l = Some (Handling pending) → pending_of st = [] →
  lane_ok capacity ((acknowledge_last pending answer s) <| listeners := <[l := st]> (listeners s) |>).
Proof.
  intros [] Hl Hst. destruct ok_lease0 as (held & Hlease & Hrec).
  destruct (leased_lookup _ _ _ _ Hlease Hl) as (Hclaimed & Hlisteners & ->).
  assert (∀ s', receiver_claimed s' = true → listeners s' = <[l := st]> (listeners s) → leased s' []) as Hleased.
  { intros s' Hc Hls. right. split; [done|]. exists l, st. by rewrite Hls, Hlisteners, insert_singleton_eq, Hst. }
  destruct pending as [e|]; cbn.
  2: { cbn in Hrec. split; cbn; try done. exists []. auto. }
  assert (∀ p, committed_tx e = Some p → p ∈ commits (sent s) ∧ answers s !! p = None) as Hopen.
  { intros p Ht. rewrite ok_fifo0, Hrec in ok_commits0 |- *. rewrite <-app_assoc in ok_commits0 |- *. rewrite commits_app in ok_commits0 |- *.
    assert (p ∈ commits (pending_of (Handling (Some e)) ++ queue s)) as Hin.
    { apply elem_commits. exists e. split; [left|done]. }
    split; [apply elem_of_app; by right|]. destruct (answers s !! p) as [r|] eqn:Ha; [|done].
    apply ok_answers0 in Ha as (e' & He' & Ht'). apply NoDup_app in ok_commits0 as (_ & Hdis & _).
    destruct (Hdis p); [|done]. apply elem_commits. exists e'. split; [|done]. apply list_elem_of_fmap. by exists (e', r). }
  destruct (committed_tx e) as [p|] eqn:Ht; cbn.
  - destruct (Hopen p eq_refl) as [Hin Hnone]. split; cbn; try done.
    + exists []. split; [by apply Hleased|]. by rewrite fmap_app, app_nil_r.
    + intros p' r. rewrite lookup_insert_Some. setoid_rewrite elem_of_app. setoid_rewrite list_elem_of_singleton. split.
      * intros [[<- <-]|[Hne Hr]]; [exists e; auto|]. apply ok_answers0 in Hr as (e' & ? & ?). eauto.
      * intros (e' & [He'|[= -> ->]] & Ht'); [|left; split; congruence]. right.
        assert (answers s !! p' = Some r) by (apply ok_answers0; eauto). split; congruence.
    + intros p' x Hx. apply ok_publishers0 in Hx. destruct x as [| | |r]; cbn in *; try done.
      destruct Hx as [[? (r' & Hr' & ->)]|?]; [left|by right]. split; [done|]. exists r'. split; [|done].
      rewrite lookup_insert_ne; congruence.
  - split; cbn; try done.
    + exists []. split; [by apply Hleased|]. by rewrite fmap_app, app_nil_r.
    + intros p' r. rewrite ok_answers0. setoid_rewrite elem_of_app. setoid_rewrite list_elem_of_singleton. naive_solver.
Qed.
Lemma consumer_step_ok capacity s s' : lane_ok capacity s → consumer_step s s' → lane_ok capacity s'.
Proof.
  intros Hok Hstep. destruct Hstep as [s s' l Hl Hs|s s' l r Hs|s s' l Hs|s s' l Hs|s s' l Hs|s s' l Hs|s s' l Hs].
  - unfold take_durable_receiver in Hs. destruct (receiver_claimed s) eqn:Hc; [done|]. injection Hs as <-.
    destruct Hok. split; cbn; try done. destruct ok_lease0 as (held & [(_ & Hls & ->)|[? _]] & Hrec); [|congruence].
    exists []. split; [|done]. right. split; [done|]. exists l, (Handling None). by rewrite Hls.
  - unfold acknowledge in Hs. destruct (listeners s !! l) as [[pending| |]|] eqn:Hl; try done. injection Hs as <-. by apply acknowledge_ok.
  - unfold recv in Hs. destruct (listeners s !! l) as [[pending| |]|] eqn:Hl; try done. injection Hs as <-. by apply acknowledge_ok.
  - unfold pop in Hs. destruct (listeners s !! l) as [[| |]|] eqn:Hl; try done. destruct (queue s) as [|e rest] eqn:Hq; [done|].
    injection Hs as <-. destruct Hok. destruct ok_lease0 as (held & Hlease & Hrec).
    destruct (leased_lookup _ _ _ _ Hlease Hl) as (Hclaimed & Hlisteners & ->). rewrite Hq in *. split; cbn; try done.
    + rewrite ok_fifo0. by rewrite <-app_assoc.
    + exists [e]. split; [|by rewrite Hrec, app_nil_r]. right. split; [done|]. exists l, (Handling (Some e)). by rewrite Hlisteners, insert_singleton_eq.
    + unfold permits_held in *. cbn [length] in *. cbn [publishers]. lia.
    + cbn [length] in *. lia.
  - unfold cancel_recv in Hs. destruct (listeners s !! l) as [[| |]|] eqn:Hl; try done. injection Hs as <-.
    destruct Hok. destruct ok_lease0 as (held & Hlease & Hrec). destruct (leased_lookup _ _ _ _ Hlease Hl) as (Hclaimed & Hlisteners & ->).
    split; cbn; try done. exists []. split; [|done]. right. split; [done|]. exists l, (Handling None). by rewrite Hlisteners, insert_singleton_eq.
  - unfold drop_begin in Hs. destruct (listeners s !! l) as [[pending| |]|] eqn:Hl; try done. injection Hs as <-. by apply acknowledge_ok.
  - unfold drop_end in Hs. destruct (listeners s !! l) as [[| |]|] eqn:Hl; try done. injection Hs as <-.
    destruct Hok. destruct ok_lease0 as (held & Hlease & Hrec). destruct (leased_lookup _ _ _ _ Hlease Hl) as (Hclaimed & Hlisteners & ->).
    split; cbn; try done. exists []. split; [|done]. left. split_and!; [done| |done]. by rewrite Hlisteners, delete_singleton_eq.
Qed.
Lemma lane_reachable_ok capacity s : reachable capacity s → lane_ok capacity s.
Proof.
  intros Hr. eapply invariant_rtc; [|exact Hr|apply lane_initial_ok].
  clear s Hr. intros s s' Hok Hstep. destruct Hstep;
    [by apply publish_ok|by eapply reserve_ok|by eapply send_ok|by eapply resume_ok|by eapply cancel_ok|by eapply consumer_step_ok].
Qed.

(** ** Theorems *)

(** C4: the durable lane loses and repeats nothing, whoever publishes, gives up,
    listens, stops listening without an acknowledgement or is replaced. In every
    reachable state what was sent is, in this order, what ended with an outcome,
    what the one listener that may hold the lease has pending, and the queue. A
    publisher that waited got the outcome of its own envelope, which has one. *)
Theorem durable_lane_exactly_once capacity s :
  reachable capacity s →
  ∃ pending, leased s pending ∧ sent s = (outcomes s).*1 ++ pending ++ queue s ∧
    (∀ p r, publishers s !! p = Some (Returned r) → p ∈ commits (sent s) →
       ∃ e answer, (e, answer) ∈ outcomes s ∧ committed_tx e = Some p ∧ r = commit_result answer) ∧
    (∀ p e1 e2 a1 a2, (e1, a1) ∈ outcomes s → (e2, a2) ∈ outcomes s →
       committed_tx e1 = Some p → committed_tx e2 = Some p → a1 = a2) ∧
    (∀ p, publishers s !! p = Some AwaitingCommit → p ∈ commits (sent s)) ∧
    NoDup (commits (sent s)).
Proof.
  intros []%lane_reachable_ok. destruct ok_lease0 as (pending & Hlease & Hrec). exists pending. split_and!; try done.
  - by rewrite ok_fifo0, Hrec, app_assoc.
  - intros p r Hp Hin. apply ok_publishers0 in Hp as [(_ & answer & (e & He & Ht)%ok_answers0 & ->)|[? _]]; [eauto|done].
  - intros p e1 e2 a1 a2 H1 H2 Ht1 Ht2.
    assert (answers s !! p = Some a1) by (apply ok_answers0; eauto). assert (answers s !! p = Some a2) by (apply ok_answers0; eauto). congruence.
  - intros p Hp. by apply (ok_publishers0 p AwaitingCommit).
Qed.

(** the lane is bounded: the free permits, those held by publishers and the
    queued envelopes are always the capacity, at least one, and the depth that is
    reported is the length of the queue, so counting down at a receive is safe. *)
Theorem durable_lane_bounded capacity s :
  reachable capacity s →
  available s + N.of_nat (permits_held s) + N.of_nat (length (queue s)) = capacity `max` 1 ∧
  depth s = N.of_nat (length (queue s)) ∧
  (∀ l s', pop l s = Some s' → 0 < depth s).
Proof.
  intros []%lane_reachable_ok. split_and!; [done|done|]. intros l s' Hpop. unfold pop in Hpop.
  destruct (listeners s !! l) as [[| |]|]; try done. destruct (queue s); [done|]. rewrite ok_depth0. cbn. lia.
Qed.

Abbreviation ended answer envelopes := ((λ e, (e, answer)) <$> envelopes).
(** From every state a listener gets to wait for the next envelope, ending what is
    pending with the given answer. *)
Lemma consumer_ready capacity s answer :
  lane_ok capacity s →
  ∃ s' l pending, leased s pending ∧ rtc consumer_step s s' ∧ listeners s' !! l = Some Receiving ∧
    queue s' = queue s ∧ publishers s' = publishers s ∧ sent s' = sent s ∧ outcomes s' = outcomes s ++ ended answer pending.
Proof.
  intros []. destruct ok_lease0 as (pending & Hlease & _).
  assert (∀ t, receiver_claimed t = false → listeners t = ∅ → ∃ t', rtc consumer_step t t' ∧ listeners t' !! 0 = Some Receiving ∧
    queue t' = queue t ∧ publishers t' = publishers t ∧ sent t' = sent t ∧ outcomes t' = outcomes t) as Hfresh.
  { intros t Hc Hl. eexists. split.
    - eapply rtc_l; [eapply (step_take _ _ 0); [by rewrite Hl|unfold take_durable_receiver; by rewrite Hc]|].
      eapply rtc_once, (step_recv _ _ 0). unfold recv. cbn. by rewrite lookup_insert_eq.
    - cbn. by rewrite lookup_insert_eq. }
  destruct Hlease as [(Hc & Hl & ->)|(Hc & l & st & Hl & ->)].
  - destruct (Hfresh s Hc Hl) as (s' & ? & ? & ? & ? & ? & Ho). exists s', 0, []. split_and!; try done; [by left|].
    by rewrite Ho, app_nil_r.
  - assert (listeners s !! l = Some st) as Hst by (by rewrite Hl, lookup_singleton_eq).
    assert (leased s (pending_of st)) as Hlease by (right; split; [done|]; by exists l, st). destruct st as [pending| |].
    + eexists _, l, _. split; [done|]. split.
      * eapply rtc_l; [eapply (step_acknowledge _ _ l answer); unfold acknowledge; by rewrite Hst|].
        eapply rtc_once, (step_recv _ _ l). unfold recv. cbn. by rewrite lookup_insert_eq.
      * cbn. rewrite lookup_insert_eq. split; [done|]. destruct pending as [e|]; cbn; [|by rewrite app_nil_r].
        by destruct (committed_tx e).
    + exists s, l, []. split_and!; try done; [by rewrite app_nil_r].
    + destruct (Hfresh ((s <| receiver_claimed := false |>) <| listeners := delete l (listeners s) |>)) as (s' & Hs' & ? & ? & ? & ? & Ho);
        [done|cbn; by rewrite Hl, delete_singleton_eq|].
      exists s', 0, []. split_and!; try done; [|by rewrite Ho, app_nil_r].
      eapply rtc_l; [|exact Hs']. apply (step_drop_end _ _ l). unfold drop_end. by rewrite Hst.
Qed.

(** no publisher waits for ever for want of someone to answer: whatever state
    the lane is in, and whatever became of earlier listeners, a listener alone can
    end everything that was sent, with the answer it chooses for all that has no
    outcome yet; every publisher that waits is then answered. *)
Theorem durable_lane_drains capacity s answer :
  reachable capacity s →
  ∃ s' rest, rtc consumer_step s s' ∧ publishers s' = publishers s ∧ sent s' = sent s ∧
    outcomes s' = outcomes s ++ ended answer rest ∧ sent s' = (outcomes s').*1 ∧
    (∀ p, publishers s !! p = Some AwaitingCommit → is_Some (answers s' !! p)).
Proof.
  intros Hok%lane_reachable_ok.
  assert (∃ s' rest, lane_ok capacity s' ∧ rtc consumer_step s s' ∧ publishers s' = publishers s ∧ sent s' = sent s ∧
    outcomes s' = outcomes s ++ ended answer rest ∧ leased s' [] ∧ queue s' = []) as
    (s' & rest & Hok' & Hsteps & Hpub & Hsent & Hout & Hlease & Hqueue).
  { remember (length (queue s)) as n eqn:Hn. revert s Hok Hn. induction n as [|n IH]; intros s Hok Hn;
      destruct (consumer_ready capacity s answer Hok) as (s1 & l & pending & Hlease & Hs1 & Hl & Hq & Hp & Hsent & Ho);
      (assert (lane_ok capacity s1) as Hok1 by (eapply invariant_rtc; [|exact Hs1|exact Hok]; intros; by eapply consumer_step_ok)).
    - exists s1, pending. split_and!; try done; [|rewrite Hq; by apply nil_length_inv].
      destruct Hok1 as [_ (held & Hl1 & _) _ _ _ _ _]. by destruct (leased_lookup _ _ _ _ Hl1 Hl) as (_ & _ & ->).
    - destruct (queue s) as [|e rest] eqn:Hqs; [done|]. injection Hn as Hn.
      assert (∃ s2, pop l s1 = Some s2 ∧ queue s2 = rest ∧ publishers s2 = publishers s1 ∧ sent s2 = sent s1 ∧ outcomes s2 = outcomes s1)
        as (s2 & Hpop & Hq2 & Hp2 & Hsent2 & Ho2) by (unfold pop; rewrite Hl, Hq; by eexists).
      assert (lane_ok capacity s2) as Hok2 by (eapply consumer_step_ok; [exact Hok1|by eapply step_pop]).
      destruct (IH s2 Hok2) as (s' & rest' & Hok' & Hsteps & Hpub' & Hsent' & Hout' & Hlease' & Hq'); [by rewrite Hq2|].
      exists s', (pending ++ rest'). split_and!; try done; [|congruence|congruence|].
      + etrans; [exact Hs1|]. eapply rtc_l; [by eapply step_pop|done].
      + rewrite Hout', Ho2, Ho, fmap_app. by rewrite app_assoc. }
  exists s', rest. split_and!; try done.
  - destruct Hok' as [Hfifo (held & Hl & Hrec) _ _ _ _ _]. rewrite Hfifo, Hrec, Hqueue, app_nil_r.
    assert (held = []) as ->; [|by rewrite app_nil_r].
    destruct Hl as [(_ & _ & ->)|(Hc & l & st & Hl & ->)]; [done|]. destruct Hlease as [(Hc' & _)|(_ & l' & st' & Hl' & Hst')]; [congruence|].
    rewrite Hl in Hl'. assert (({[l := st]} : gmap N listener) !! l = Some st) as Hlook by by rewrite lookup_singleton_eq.
    rewrite Hl' in Hlook. apply lookup_singleton_Some in Hlook as [-> ->]. done.
  - intros p Hp. destruct Hok' as [Hfifo (held & Hl & Hrec) _ _ _ Hans Hpubs]. rewrite <-Hpub in Hp. apply Hpubs in Hp. cbn in Hp.
    assert (held = []) as ->.
    { destruct Hl as [(_ & _ & ->)|(Hc & l & st & Hl & ->)]; [done|]. destruct Hlease as [(Hc' & _)|(_ & l' & st' & Hl' & Hst')]; [congruence|].
      rewrite Hl in Hl'. assert (({[l := st]} : gmap N listener) !! l = Some st) as Hlook by by rewrite lookup_singleton_eq.
      rewrite Hl' in Hlook. apply lookup_singleton_Some in Hlook as [-> ->]. done. }
    rewrite Hfifo, Hrec, Hqueue, !app_nil_r in Hp. apply elem_commits in Hp as (e & ((e' & a) & -> & He)%list_elem_of_fmap & Ht).
    exists a. apply Hans. by exists e'.
Qed.

(** ** Runs *)

Inductive action :=
  | Publish (p : N) (e : Event) (wait : bool) | Reserve (p : N) | Send (p : N) | Resume (p : N) | Cancel (p : N)
  | Take (l : N) | Acknowledge (l : N) (answer : commit) | Recv (l : N) | Pop (l : N) | DropBegin (l : N) | DropEnd (l : N).
Definition act (s : lane) (a : action) : option lane :=
  match a with
  | Publish p e wait =>
      if decide (publishers s !! p = None ∧ p ∉ commits (sent s)) then Some (publish p e wait None s) else None
  | Reserve p => reserve p s
  | Send p => send p s
  | Resume p => resume p s
  | Cancel p => cancel p s
  | Take l => if decide (listeners s !! l = None) then take_durable_receiver l s else None
  | Acknowledge l answer => acknowledge l answer s
  | Recv l => recv l s
  | Pop l => pop l s
  | DropBegin l => drop_begin l s
  | DropEnd l => drop_end l s
  end.
Fixpoint run (actions : list action) (s : lane) : option lane :=
  match actions with [] => Some s | a :: actions => s' ← act s a; run actions s' end.
Lemma act_step s a s' : act s a = Some s' → step s s'.
Proof.
  destruct a; cbn; intros Ha.
  - case_decide as Hd; [|done]. injection Ha as <-. apply step_publish; [tauto|]. intros e' He Ht. apply Hd, elem_commits. eauto.
  - by eapply step_reserve.
  - by eapply step_send.
  - by eapply step_resume.
  - by eapply step_cancel.
  - case_decide; [|done]. by eapply step_consumer, step_take.
  - by eapply step_consumer, step_acknowledge.
  - by eapply step_consumer, step_recv.
  - by eapply step_consumer, step_pop.
  - by eapply step_consumer, step_drop_begin.
  - by eapply step_consumer, step_drop_end.
Qed.
Lemma lane_run_reachable capacity actions s : run actions (with_capacity capacity) = Some s → reachable capacity s.
Proof.
  unfold reachable. generalize (with_capacity capacity). induction actions as [|a actions IH]; intros t; cbn; [by intros [= ->]|].
  destruct (act t a) as [t'|] eqn:Ha; [|done]. intros Hr. eapply rtc_l; [by eapply act_step|]. by apply IH.
Qed.
End lane.
Arguments DurableEventEnvelope : clear implicits.
Arguments publisher : clear implicits.
Arguments listener : clear implicits.
Arguments lane : clear implicits.
Arguments action : clear implicits.

Module SampleLane.
Definition start : lane string () := with_capacity 1.
Definition confirmed : commit := Ok ().
(** A publisher waits; its listener dies with the envelope and another takes over. *)
Definition takeover : list (action string) :=
  [Publish 0 "turn completed"%string true; Reserve 0; Publish 1 "turn started"%string true; Send 0; Take 7; Recv 7; Pop 7; Reserve 1; Send 1;
   DropBegin 7; Resume 0; DropEnd 7; Take 8; Recv 8; Pop 8; Acknowledge 8 confirmed; Publish 2 "late"%string true; Reserve 2; Send 2].
Definition after_takeover : lane string () := default start (run takeover start).
Lemma takeover_reachable : reachable 1 after_takeover.
Proof. apply (lane_run_reachable 1 takeover). vm_compute. reflexivity. Defined.
Example takeover_outcomes :
  ((λ '(e, r), (event e, r)) <$> outcomes after_takeover, event <$> queue after_takeover, publishers after_takeover !! 0) =
  ([("turn completed"%string, consumer_dropped); ("turn started"%string, confirmed)], ["late"%string],
   Some (Returned (commit_result consumer_dropped))).
Proof. vm_compute. reflexivity. Qed.

Lemma durable_lane_exactly_once_witness :
  ∃ pending, leased after_takeover pending ∧ sent after_takeover = (outcomes after_takeover).*1 ++ pending ++ queue after_takeover ∧
    (∀ p r, publishers after_takeover !! p = Some (Returned r) → p ∈ commits (sent after_takeover) →
       ∃ e answer, (e, answer) ∈ outcomes after_takeover ∧ committed_tx e = Some p ∧ r = commit_result answer) ∧
    (∀ p e1 e2 a1 a2, (e1, a1) ∈ outcomes after_takeover → (e2, a2) ∈ outcomes after_takeover →
       committed_tx e1 = Some p → committed_tx e2 = Some p → a1 = a2) ∧
    (∀ p, publishers after_takeover !! p = Some AwaitingCommit → p ∈ commits (sent after_takeover)) ∧
    NoDup (commits (sent after_takeover)).
Proof. apply (durable_lane_exactly_once 1), takeover_reachable. Defined.
Lemma durable_lane_bounded_witness :
  available after_takeover + N.of_nat (permits_held after_takeover) + N.of_nat (length (queue after_takeover)) = 1 `max` 1 ∧
  depth after_takeover = N.of_nat (length (queue after_takeover)) ∧
  (∀ l s', pop l after_takeover = Some s' → 0 < depth after_takeover).
Proof. apply (durable_lane_bounded 1), takeover_reachable. Defined.
Lemma durable_lane_drains_witness :
  ∃ s' rest, rtc consumer_step after_takeover s' ∧ publishers s' = publishers after_takeover ∧ sent s' = sent after_takeover ∧
    outcomes s' = outcomes after_takeover ++ ((λ e, (e, confirmed)) <$> rest) ∧ sent s' = (outcomes s').*1 ∧
    (∀ p, publishers after_takeover !! p = Some AwaitingCommit → is_Some (answers s' !! p)).
Proof. apply (durable_lane_drains 1), takeover_reachable. Defined.
End SampleLane.
