(* ===== verification/SnapshotLane.v ===== *)
(** * The snapshot lane of the event hub

    Models [crates/runtime-events/src/snapshot.rs]: updates of items that replace
    each other until the one receiver takes them. A step relation interleaves
    offers, closing and the receiver at every atomic operation: the closed flag,
    the map under its mutex and the notification. [tokio::sync::Notify] is a
    stored permit ([notify_one], for one waiter) and the number of [notify_waiters]
    calls, which a [Notified] future compares with that of its creation. *)
From S2P Require Import Prelude.
Local Open Scope N_scope.

Section snapshot.
Context {Item : Type}.

Record ItemUpdatedNotification := {
  workspace_id : string; thread_id : string; turn_id : string; item_id : string; item : Item;
}.
Abbreviation SnapshotCoalescingKey := (string * string * string * string)%type.
Definition key (e : ItemUpdatedNotification) : SnapshotCoalescingKey := (workspace_id e, thread_id e, turn_id e, item_id e).
Definition belongs_to_turn (thread turn : string) (e : ItemUpdatedNotification) : bool :=
  bool_decide (thread_id e = thread) && bool_decide (turn_id e = turn).

(** An offer between its atomic operations, and the receiver inside [recv]. *)
Inductive offer :=
  | Checked (e : ItemUpdatedNotification)   (* found the coalescer open *)
  | Inserted.                               (* about to notify *)
Inductive receiver :=
  | Idle
  | Looking (generation : N)                (* has created its [Notified] *)
  | FoundNothing (generation : N)           (* has released the mutex *)
  | Sleeping (generation : N)               (* awaits the [Notified] *)
  | Ended.                                  (* returned [None] *)

Record coalescer := {
  pending : gmap SnapshotCoalescingKey ItemUpdatedNotification;
  closed : bool;
  permit : bool;
  generation : N;
  closing : N;                              (* calls of [close] about to notify *)
  offers : gmap N offer;
  recv_state : receiver;
  (* the history: what offers put into the map and what [recv] returned *)
  accepted : list ItemUpdatedNotification;
  delivered : list ItemUpdatedNotification;
}.
#[export] Instance coalescer_fields : Fields coalescer := λ s,
  {| pending := pending s; closed := closed s; permit := permit s; generation := generation s; closing := closing s;
     offers := offers s; recv_state := recv_state s; accepted := accepted s; delivered := delivered s |}.
Definition new : coalescer :=
  {| pending := ∅; closed := false; permit := false; generation := 0; closing := 0; offers := ∅; recv_state := Idle;
     accepted := []; delivered := [] |}.

(** ** Operations *)

(** [offer]: refused once closed; otherwise the value replaces the one pending
    under its key and the receiver is notified. *)
Definition offer_check (o : N) (e : ItemUpdatedNotification) (s : coalescer) : coalescer :=
  if closed s then s else s <| offers := <[o := Checked e]> (offers s) |>.
Definition offer_insert (o : N) (s : coalescer) : option coalescer :=
  match offers s !! o with
  | Some (Checked e) =>
      Some (((s <| pending := <[key e := e]> (pending s) |>) <| accepted := accepted s ++ [e] |>) <| offers := <[o := Inserted]> (offers s) |>)
  | _ => None
  end.
Definition offer_notify (o : N) (s : coalescer) : option coalescer :=
  match offers s !! o with
  | Some Inserted => Some ((s <| permit := true |>) <| offers := delete o (offers s) |>)
  | _ => None
  end.
Definition notify_turn (thread turn : string) (s : coalescer) : coalescer :=
  if existsb (belongs_to_turn thread turn) (map_to_list (pending s)).*2 then s <| permit := true |> else s.
Definition close_store (s : coalescer) : coalescer := (s <| closed := true |>) <| closing := closing s + 1 |>.
Definition close_notify (s : coalescer) : option coalescer :=
  if decide (closing s = 0) then None
  else Some ((s <| generation := generation s + 1 |>) <| closing := closing s - 1 |>).

(** [recv]: the loop from the creation of its [Notified] to its await. *)
Definition recv_begin (s : coalescer) : option coalescer :=
  match recv_state s with Idle => Some (s <| recv_state := Looking (generation s) |>) | _ => None end.
(** The map is iterated in an unspecified order: [k] is its first key. *)
Definition recv_pop (k : SnapshotCoalescingKey) (s : coalescer) : option coalescer :=
  match recv_state s, pending s !! k with
  | Looking _, Some e =>
      Some (((s <| pending := delete k (pending s) |>) <| delivered := delivered s ++ [e] |>) <| recv_state := Idle |>)
  | _, _ => None
  end.
Definition recv_nothing (s : coalescer) : option coalescer :=
  match recv_state s with
  | Looking g => if decide (pending s = ∅) then Some (s <| recv_state := FoundNothing g |>) else None
  | _ => None
  end.
Definition recv_check_closed (s : coalescer) : option coalescer :=
  match recv_state s with
  | FoundNothing g => Some (s <| recv_state := if closed s then Ended else Sleeping g |>)
  | _ => None
  end.
Definition recv_wake (s : coalescer) : option coalescer :=
  match recv_state s with
  | Sleeping g =>
      if decide (generation s ≠ g) then Some (s <| recv_state := Looking (generation s) |>)
      else if permit s then Some ((s <| permit := false |>) <| recv_state := Looking (generation s) |>)
      else None
  | _ => None
  end.
(** The future of [recv] dropped while it sleeps. *)
Definition recv_cancel (s : coalescer) : option coalescer :=
  match recv_state s with Sleeping _ => Some (s <| recv_state := Idle |>) | _ => None end.

Inductive action :=
  | OfferCheck (o : N) (e : ItemUpdatedNotification) | OfferInsert (o : N) | OfferNotify (o : N)
  | NotifyTurn (thread turn : string) | CloseStore | CloseNotify
  | RecvBegin | RecvPop (k : SnapshotCoalescingKey) | RecvNothing | RecvCheckClosed | RecvWake | RecvCancel.
Definition act (s : coalescer) (a : action) : option coalescer :=
  match a with
  | OfferCheck o e => if decide (offers s !! o = None) then Some (offer_check o e s) else None
  | OfferInsert o => offer_insert o s
  | OfferNotify o => offer_notify o s
  | NotifyTurn thread turn => Some (notify_turn thread turn s)
  | CloseStore => Some (close_store s)
  | CloseNotify => close_notify s
  | RecvBegin => recv_begin s
  | RecvPop k => recv_pop k s
  | RecvNothing => recv_nothing s
  | RecvCheckClosed => recv_check_closed s
  | RecvWake => recv_wake s
  | RecvCancel => recv_cancel s
  end.
Definition step (s s' : coalescer) : Prop := ∃ a, act s a = Some s'.
Definition reachable (s : coalescer) : Prop := rtc step new s.
Fixpoint run (actions : list action) (s : coalescer) : option coalescer :=
  match actions with [] => Some s | a :: actions => s' ← act s a; run actions s' end.
Lemma snapshot_run_reachable actions s : run actions new = Some s → reachable s.
Proof.
  unfold reachable. generalize new. induction actions as [|a actions IH]; intros t; cbn; [by intros [= ->]|].
  destruct (act t a) as [t'|] eqn:Ha; [|done]. intros Hr. eapply rtc_l; [by exists a|]. by apply IH.
Qed.

(** ** The latest value wins *)

(** The values of one item in a history. *)
Definition of_key (k : SnapshotCoalescingKey) (l : list ItemUpdatedNotification) : list ItemUpdatedNotification :=
  filter (λ e, key e = k) l.
(** Of the accepted values of an item, some were delivered, in order; the last one
    is pending or was the last delivered. *)
Definition key_ok (s : coalescer) (k : SnapshotCoalescingKey) : Prop :=
  match pending s !! k with
  | Some e => ∃ earlier, of_key k (accepted s) = earlier ++ [e] ∧ of_key k (delivered s) `sublist_of` earlier
  | None => of_key k (delivered s) `sublist_of` of_key k (accepted s) ∧ last (of_key k (delivered s)) = last (of_key k (accepted s))
  end.
Lemma of_key_snoc k l e : of_key k (l ++ [e]) = of_key k l ++ if decide (key e = k) then [e] else [].
Proof. unfold of_key. by rewrite filter_app. Qed.
Lemma key_ok_sublist s k : key_ok s k → of_key k (delivered s) `sublist_of` of_key k (accepted s).
Proof.
  unfold key_ok. destruct (pending s !! k) as [e|].
  - intros (earlier & -> & Hs). by apply sublist_inserts_r.
  - by intros [Hs _].
Qed.
Lemma key_ok_key s k e : key_ok s k → pending s !! k = Some e → key e = k.
Proof.
  unfold key_ok. intros Hok Hp. rewrite Hp in Hok. destruct Hok as (earlier & Hl & _).
  assert (e ∈ of_key k (accepted s)) as [Hk _]%list_elem_of_filter; [|done]. rewrite Hl. apply elem_of_app. right. left.
Qed.
Lemma keys_step s a s' : (∀ k, key_ok s k) → act s a = Some s' → ∀ k, key_ok s' k.
Proof.
  intros Hall Ha k. pose proof (Hall k) as Hok. destruct a; cbn in Ha.
  - case_decide; [|done]. injection Ha as <-. unfold offer_check. by case_match.
  - unfold offer_insert in Ha. destruct (offers s !! o) as [[e|]|]; try done. injection Ha as <-.
    unfold key_ok. cbn [pending accepted delivered update]. rewrite of_key_snoc. destruct (decide (key e = k)) as [<-|Hne].
    + rewrite lookup_insert_eq. exists (of_key (key e) (accepted s)). split; [done|]. by apply key_ok_sublist.
    + rewrite lookup_insert_ne by done. by rewrite app_nil_r.
  - unfold offer_notify in Ha. destruct (offers s !! o) as [[e|]|]; try done. by injection Ha as <-.
  - injection Ha as <-. unfold notify_turn. by case_match.
  - by injection Ha as <-.
  - unfold close_notify in Ha. case_decide; [done|]. by injection Ha as <-.
  - unfold recv_begin in Ha. destruct (recv_state s); try done. by injection Ha as <-.
  - unfold recv_pop in Ha. destruct (recv_state s); try done. destruct (pending s !! k0) as [e|] eqn:Hp; [|done]. injection Ha as <-.
    unfold key_ok. cbn [pending accepted delivered update]. rewrite of_key_snoc. pose proof (key_ok_key _ _ _ (Hall k0) Hp) as Hk0.
    destruct (decide (key e = k)) as [Hk|Hne].
    + assert (k0 = k) as -> by congruence. rewrite lookup_delete_eq. unfold key_ok in Hok. rewrite Hp in Hok.
      destruct Hok as (earlier & -> & Hs). rewrite !last_snoc. split; [|done]. by apply sublist_app.
    + rewrite lookup_delete_ne by congruence. by rewrite app_nil_r.
  - unfold recv_nothing in Ha. destruct (recv_state s); try done. case_decide; [|done]. by injection Ha as <-.
  - unfold recv_check_closed in Ha. destruct (recv_state s); try done. by injection Ha as <-.
  - unfold recv_wake in Ha. destruct (recv_state s); try done. case_decide; [by injection Ha as <-|]. case_match; [by injection Ha as <-|done].
  - unfold recv_cancel in Ha. destruct (recv_state s); try done. by injection Ha as <-.
Qed.

(** C31: the snapshot lane is lossless up to replacement. In every reachable state
    and for every item, what was delivered is an ordered part of what was
    accepted, and the last accepted value is the pending one or, when nothing is
    pending, the last one delivered: an outdated value is never what remains. *)
Theorem snapshot_latest_wins s k :
  reachable s →
  of_key k (delivered s) `sublist_of` of_key k (accepted s) ∧
  last (of_key k (accepted s)) = match pending s !! k with Some e => Some e | None => last (of_key k (delivered s)) end.
Proof.
  intros Hr. assert (∀ k, key_ok s k) as Hok.
  { eapply (invariant_rtc step (λ s, ∀ k, key_ok s k)); [|exact Hr|intros j; unfold key_ok; cbn; by rewrite lookup_empty]. intros t t' Ht [a Ha]. by eapply keys_step. }
  specialize (Hok k). split; [by apply key_ok_sublist|]. unfold key_ok in Hok. destruct (pending s !! k); [|by destruct Hok].
  destruct Hok as (earlier & -> & _). apply last_snoc.
Qed.

(** ** No lost wake-up *)

(** A notification is stored or about to be made. *)
Definition notified (s : coalescer) : Prop := permit s = true ∨ ∃ o, offers s !! o = Some Inserted.
Definition wake_ok (s : coalescer) : Prop :=
  match recv_state s with
  | Idle => True
  | Looking g => g ≤ generation s
  | FoundNothing g => g ≤ generation s ∧ (pending s ≠ ∅ → notified s)
  | Sleeping g => g ≤ generation s ∧ (pending s ≠ ∅ → notified s ∨ g ≠ generation s) ∧ (closed s = true → closing s ≠ 0 ∨ g ≠ generation s)
  | Ended => closed s = true
  end.
Lemma wake_step s a s' : wake_ok s → act s a = Some s' → wake_ok s'.
Proof.
  intros Hok Ha. unfold wake_ok in *. destruct a; cbn in Ha.
  - case_decide as Ho; [|done]. injection Ha as <-. unfold offer_check. destruct (closed s) eqn:Hc; [by rewrite Hc|]. rewrite <-Hc in Hok.
    assert (∀ g, recv_state s = g → notified s → notified (s <| offers := <[o:=Checked e]> (offers s) |>)) as Hn.
    { intros _ _ [Hp|(o' & Ho')]; [by left|right]. exists o'. cbn. rewrite lookup_insert_ne; [done|congruence]. }
    cbn. destruct (recv_state s) eqn:Hr; naive_solver.
  - unfold offer_insert in Ha. destruct (offers s !! o) as [[e|]|] eqn:Ho; try done. injection Ha as <-.
    assert (notified (((s <| pending := <[key e := e]> (pending s) |>) <| accepted := accepted s ++ [e] |>) <| offers := <[o := Inserted]> (offers s) |>)) as Hn.
    { right. exists o. cbn. apply lookup_insert_eq. }
    cbn in *. destruct (recv_state s); naive_solver.
  - unfold offer_notify in Ha. destruct (offers s !! o) as [[e|]|] eqn:Ho; try done. injection Ha as <-.
    assert (notified ((s <| permit := true |>) <| offers := delete o (offers s) |>)) as Hn by by left.
    cbn in *. destruct (recv_state s); naive_solver.
  - injection Ha as <-. unfold notify_turn. destruct (existsb _ _); [|done].
    assert (notified (s <| permit := true |>)) as Hn by by left. cbn in *. destruct (recv_state s); naive_solver.
  - injection Ha as <-. cbn. unfold notified in *. cbn. destruct (recv_state s); try done. destruct Hok as (? & ? & ?).
    split_and!; [done|done|]. intros _. left. lia.
  - unfold close_notify in Ha. case_decide; [done|]. injection Ha as <-. unfold notified in *. cbn.
    destruct (recv_state s); try done; [lia|split; [lia|naive_solver]|]. split_and!; [lia|intros _; right; lia|intros _; right; lia].
  - unfold recv_begin in Ha. destruct (recv_state s); try done. injection Ha as <-. cbn. lia.
  - unfold recv_pop in Ha. destruct (recv_state s); try done. destruct (pending s !! k); [|done]. by injection Ha as <-.
  - unfold recv_nothing in Ha. destruct (recv_state s); try done. case_decide; [|done]. by injection Ha as <-.
  - unfold recv_check_closed in Ha. destruct (recv_state s) as [| |g| |]; try done. injection Ha as <-. cbn.
    destruct Hok as [? Hp]. destruct (closed s) eqn:Hc; [done|]. unfold notified in *. cbn. split_and!; [done|auto|done].
  - unfold recv_wake in Ha. destruct (recv_state s); try done. case_decide; [injection Ha as <-; cbn; lia|].
    case_match; [|done]. injection Ha as <-. cbn. lia.
  - unfold recv_cancel in Ha. destruct (recv_state s); try done. by injection Ha as <-.
Qed.

(** the receiver never sleeps past something to do. In every reachable state
    where it sleeps although a value is pending or the lane is closed, it can
    wake at once, or an offer or a close in progress is about to notify it. *)
Theorem snapshot_wakes s generation_seen :
  reachable s → recv_state s = Sleeping generation_seen → pending s ≠ ∅ ∨ closed s = true →
  is_Some (recv_wake s) ∨ (∃ o, offers s !! o = Some Inserted) ∨ closing s ≠ 0.
Proof.
  intros Hr Hs Hdo. assert (wake_ok s) as Hok.
  { eapply (invariant_rtc step wake_ok); [|exact Hr|done]. intros t t' Ht [a Ha]. by eapply wake_step. }
  unfold wake_ok in Hok. rewrite Hs in Hok. destruct Hok as (_ & Hp & Hc). unfold recv_wake. rewrite Hs.
  destruct (decide (generation s ≠ generation_seen)) as [|Hg%dec_stable]; [by left|].
  destruct Hdo as [Hpend|Hclosed]; [|destruct (Hc Hclosed); [auto|congruence]].
  destruct (Hp Hpend) as [[Hperm|Ho]|]; [|auto|congruence]. left. by rewrite Hperm.
Qed.

(** a defect: a value may be lost at the end. The receiver looks for pending
    values before it looks whether the lane is closed and does not look again: a
    snapshot whose offer was accepted and is complete before the lane is closed
    stays pending when the receiver ends, and no earlier value of the item was
    delivered either. *)
Theorem accepted_snapshot_lost e :
  ∃ before after,
    run [RecvBegin; RecvNothing; OfferCheck 0 e; OfferInsert 0; OfferNotify 0] new = Some before ∧
    closed before = false ∧ accepted before = [e] ∧ offers before = ∅ ∧
    run [CloseStore; CloseNotify; RecvCheckClosed] before = Some after ∧
    recv_state after = Ended ∧ pending after !! key e = Some e ∧ delivered after = [].
Proof.
  eexists _, _. split.
  - cbn. unfold offer_insert, offer_notify. cbn. reflexivity.
  - split_and!; try reflexivity. cbn. apply lookup_insert_eq.
Qed.
End snapshot.
Arguments ItemUpdatedNotification : clear implicits.
Arguments coalescer : clear implicits.
Arguments action : clear implicits.

Module SampleSnapshots.
Definition update_of (item text : string) : ItemUpdatedNotification string :=
  {| workspace_id := "w"; thread_id := "t"; turn_id := "u"; item_id := item; item := text |}.
(** Two values of an item and one of another; the receiver takes one and sleeps. *)
Definition replaced : list (action string) :=
  [OfferCheck 0 (update_of "a" "1"); OfferInsert 0; OfferCheck 1 (update_of "a" "2"); OfferInsert 1; OfferNotify 1; OfferNotify 0;
   RecvBegin; RecvPop (key (update_of "a" "")); RecvBegin; RecvNothing; RecvCheckClosed; OfferCheck 2 (update_of "b" "3"); OfferInsert 2].
Definition after_replaced : coalescer string := default new (run replaced new).
Lemma replaced_reachable : reachable after_replaced.
Proof. apply (snapshot_run_reachable replaced). vm_compute. reflexivity. Defined.
Example replaced_delivery : item <$> delivered after_replaced = ["2"%string].
Proof. vm_compute. reflexivity. Qed.
Lemma snapshot_latest_wins_witness :
  let k := key (update_of "a" "") in
  of_key k (delivered after_replaced) `sublist_of` of_key k (accepted after_replaced) ∧
  last (of_key k (accepted after_replaced)) =
    match pending after_replaced !! k with Some e => Some e | None => last (of_key k (delivered after_replaced)) end.
Proof. cbn zeta. apply snapshot_latest_wins, replaced_reachable. Defined.
Lemma snapshot_wakes_witness :
  is_Some (recv_wake after_replaced) ∨ (∃ o, offers after_replaced !! o = Some Inserted) ∨ closing after_replaced ≠ 0.
Proof.
  apply (snapshot_wakes after_replaced 0).
  - apply replaced_reachable.
  - vm_compute. reflexivity.
  - left. intros Heq. apply (f_equal (λ m, m !! key (update_of "b" ""))) in Heq. vm_compute in Heq. discriminate.
Defined.
End SampleSnapshots.
