(* ===== verification/WriterAdmission.v ===== *)
(** * Admission to the database writer

    Models [crates/sqlite/src/writer.rs]: the one physical writer connection is
    reserved by waiters of three classes, queued per class and granted by priority
    with limits on how long a class may be passed over. The operations under the
    mutex are functions that may panic; a step relation interleaves them with the
    one-shot channel that carries a reservation to its waiter, the futures that are
    dropped while they wait, and the clones of a permit.

    A waiter is named by its number, and so is the channel it waits on. Times are
    readings of one monotone clock. The snapshots and durations handed to the
    observer are left out, the order of its events is kept. *)
From S2P Require Import Prelude.
Local Open Scope N_scope.

Definition DEFAULT_MAX_CRITICAL_BURST : N := 8.
Definition DEFAULT_MAX_NON_MAINTENANCE_BURST : N := 16.
Definition DEFAULT_MAX_MAINTENANCE_WAIT_MS : N := 2000.

Inductive SqliteWriteClass := Critical | Interactive | Maintenance.
#[export] Instance SqliteWriteClass_eq_dec : EqDecision SqliteWriteClass.
Proof. solve_decision. Defined.
Inductive SqliteWriteGrantReason := Uncontended | OnlyClass | Priority | InteractiveFairness | MaintenanceFairness.
#[export] Instance SqliteWriteGrantReason_eq_dec : EqDecision SqliteWriteGrantReason.
Proof. solve_decision. Defined.
Inductive SqliteWriteEvent := Enqueued | Acquired (reason : SqliteWriteGrantReason) | Released | Cancelled.
#[export] Instance SqliteWriteEvent_eq_dec : EqDecision SqliteWriteEvent.
Proof. solve_decision. Defined.

Record SqliteWritePolicy := { max_critical_burst : N; max_non_maintenance_burst : N; max_maintenance_wait : N }.
(** [SqliteWritePolicy::default], with the wait in milliseconds. *)
Definition default_policy : SqliteWritePolicy :=
  {| max_critical_burst := DEFAULT_MAX_CRITICAL_BURST; max_non_maintenance_burst := DEFAULT_MAX_NON_MAINTENANCE_BURST;
     max_maintenance_wait := DEFAULT_MAX_MAINTENANCE_WAIT_MS |}.

Record Waiter := { id : N; enqueued_at : N }.
#[export] Instance Waiter_eq_dec : EqDecision Waiter.
Proof. solve_decision. Defined.
Record AdmissionState := {
  active : bool;
  critical : list Waiter; interactive : list Waiter; maintenance : list Waiter;
  consecutive_critical : N; consecutive_non_maintenance : N;
}.
#[export] Instance AdmissionState_fields : Fields AdmissionState := λ s,
  {| active := active s; critical := critical s; interactive := interactive s; maintenance := maintenance s;
     consecutive_critical := consecutive_critical s; consecutive_non_maintenance := consecutive_non_maintenance s |}.
Definition idle : AdmissionState :=
  {| active := false; critical := []; interactive := []; maintenance := []; consecutive_critical := 0;
     consecutive_non_maintenance := 0 |}.
Definition queue (class : SqliteWriteClass) (s : AdmissionState) : list Waiter :=
  match class with Critical => critical s | Interactive => interactive s | Maintenance => maintenance s end.
Definition set_queue (class : SqliteWriteClass) (q : list Waiter) (s : AdmissionState) : AdmissionState :=
  match class with
  | Critical => s <| critical := q |> | Interactive => s <| interactive := q |> | Maintenance => s <| maintenance := q |>
  end.

(** A reservation on its way to the waiter whose channel it is sent on. *)
Record Reservation := { class : SqliteWriteClass; reason : SqliteWriteGrantReason; reserved_enqueued_at : N }.
Abbreviation Dispatch := (N * Reservation)%type.

(** ** Operations under the mutex *)

Definition waits (class : SqliteWriteClass) (s : AdmissionState) : bool := negb (bool_decide (queue class s = [])).
Definition class_count (s : AdmissionState) : N :=
  let from b : N := if b : bool then 1 else 0 in
  from (waits Critical s) + from (waits Interactive s) + from (waits Maintenance s).
Definition maintenance_due (policy : SqliteWritePolicy) (now : N) (s : AdmissionState) : bool :=
  let maintenance_aged :=
    match maintenance s with
    | waiter :: _ => bool_decide (max_maintenance_wait policy ≤ now - enqueued_at waiter)
    | [] => false
    end in
  waits Maintenance s &&
  (maintenance_aged || bool_decide (N.max (max_non_maintenance_burst policy) 1 ≤ consecutive_non_maintenance s)).
Definition interactive_due (policy : SqliteWritePolicy) (s : AdmissionState) : bool :=
  waits Interactive s && waits Critical s && bool_decide (N.max (max_critical_burst policy) 1 ≤ consecutive_critical s).
Definition first_waiting (s : AdmissionState) : SqliteWriteClass :=
  if waits Critical s then Critical else if waits Interactive s then Interactive else Maintenance.
Definition choose (policy : SqliteWritePolicy) (now : N) (newly_uncontended : bool) (s : AdmissionState)
    : SqliteWriteClass * SqliteWriteGrantReason :=
  if newly_uncontended then (first_waiting s, Uncontended)
  else if decide (class_count s = 1) then (first_waiting s, OnlyClass)
  else if maintenance_due policy now s then (Maintenance, MaintenanceFairness)
  else if interactive_due policy s then (Interactive, InteractiveFairness)
  else (first_waiting s, Priority).
Definition count_grant (class : SqliteWriteClass) (reason : SqliteWriteGrantReason) (s : AdmissionState) : AdmissionState :=
  match reason with
  | Uncontended | OnlyClass => (s <| consecutive_critical := 0 |>) <| consecutive_non_maintenance := 0 |>
  | Priority | InteractiveFairness | MaintenanceFairness =>
      match class with
      | Critical =>
          (s <| consecutive_critical := consecutive_critical s +₆₄ 1 |>)
            <| consecutive_non_maintenance := consecutive_non_maintenance s +₆₄ 1 |>
      | Interactive =>
          (s <| consecutive_critical := 0 |>) <| consecutive_non_maintenance := consecutive_non_maintenance s +₆₄ 1 |>
      | Maintenance => (s <| consecutive_critical := 0 |>) <| consecutive_non_maintenance := 0 |>
      end
  end.
Definition grant_next_locked (policy : SqliteWritePolicy) (now : N) (newly_uncontended : bool) (s : AdmissionState)
    : result failure (AdmissionState * option Dispatch) :=
  _ ← ensure (negb (active s)) (Panic "assertion failed: !state.active");
  if decide (class_count s = 0) then Ok (s, None)
  else
    _ ← ensure (negb newly_uncontended || bool_decide (class_count s = 1)) (Panic "assertion failed: class_count == 1");
    let '(class, reason) := choose policy now newly_uncontended s in
    let s := count_grant class reason s in
    match queue class s with
    | [] => Err (Panic "selected SQLite writer queue must contain a waiter")
    | waiter :: rest =>
        Ok ((set_queue class rest s) <| active := true |>,
            Some (id waiter, {| class := class; reason := reason; reserved_enqueued_at := enqueued_at waiter |}))
    end.
Definition grant_if_free (policy : SqliteWritePolicy) (now : N) (newly_uncontended : bool) (s : AdmissionState)
    : result failure (AdmissionState * option Dispatch) :=
  if active s then Ok (s, None) else grant_next_locked policy now newly_uncontended s.
Definition enqueue (policy : SqliteWritePolicy) (now : N) (class : SqliteWriteClass) (waiter : Waiter) (s : AdmissionState)
    : result failure (AdmissionState * option Dispatch) :=
  grant_if_free policy now true (set_queue class (queue class s ++ [waiter]) s).
(** [None] when the waiter is no longer in its queue. *)
Definition cancel (policy : SqliteWritePolicy) (now : N) (class : SqliteWriteClass) (waiter_id : N) (s : AdmissionState)
    : result failure (option (AdmissionState * option Dispatch)) :=
  match list_find (λ waiter, id waiter = waiter_id) (queue class s) with
  | None => Ok None
  | Some (position, _) =>
      granted ← grant_if_free policy now false (set_queue class (delete position (queue class s)) s);
      Ok (Some granted)
  end.
Definition release (policy : SqliteWritePolicy) (now : N) (s : AdmissionState)
    : result failure (AdmissionState * option Dispatch) :=
  _ ← ensure (active s) (Panic "SQLite writer released without an owner");
  grant_next_locked policy now false (s <| active := false |>).

(** ** The executor and its waiters *)

(** The future of [acquire]: waiting on its channel, or dropped with its
    [WaitRegistration] still to go. *)
Inductive request := Awaiting | Dropping.
#[export] Instance request_eq_dec : EqDecision request.
Proof. solve_decision. Defined.
(** Where a reservation is. [Leaving] is inside [Drop for Reservation]. *)
Inductive stage :=
  | Dispatching                            (* about to be sent *)
  | Sent                                   (* in the channel *)
  | Owned (owners : N)                     (* in a permit and its clones *)
  | Leaving (started : bool).
Record system := {
  state : AdmissionState;
  clock : N;
  requests : gmap N (SqliteWriteClass * request);
  reservations : gmap N (Reservation * stage);
  (* the history: who entered a queue, was granted, left a queue unserved; events *)
  entered : list (N * SqliteWriteClass);
  granted : list (N * SqliteWriteClass);
  withdrawn : list (N * SqliteWriteClass);
  events : list (N * SqliteWriteEvent);
}.
#[export] Instance system_fields : Fields system := λ s,
  {| state := state s; clock := clock s; requests := requests s; reservations := reservations s; entered := entered s;
     granted := granted s; withdrawn := withdrawn s; events := events s |}.
Definition new : system :=
  {| state := idle; clock := 0; requests := ∅; reservations := ∅; entered := []; granted := []; withdrawn := []; events := [] |}.

(** The state after an operation under the mutex, its [Dispatch] on its way. *)
Definition granting (outcome : AdmissionState * option Dispatch) (s : system) : system :=
  let s := s <| state := outcome.1 |> in
  match outcome.2 with
  | None => s
  | Some (waiter, reservation) =>
      (s <| reservations := <[waiter := (reservation, Dispatching)]> (reservations s) |>)
        <| granted := granted s ++ [(waiter, class reservation)] |>
  end.
Definition observe (waiter : N) (event : SqliteWriteEvent) (s : system) : system :=
  s <| events := events s ++ [(waiter, event)] |>.
Definition move (waiter : N) (reservation : Reservation) (to : stage) (s : system) : system :=
  s <| reservations := <[waiter := (reservation, to)]> (reservations s) |>.

(** [None]: the operation is not possible. A waiter reads the clock before it enters. *)
Definition enqueue_waiter (policy : SqliteWritePolicy) (waiter : N) (class : SqliteWriteClass) (enqueued_at : N) (s : system)
    : option (result failure system) :=
  if decide ((waiter ∉ (entered s).*1) ∧ enqueued_at ≤ clock s) then
    Some (outcome ← enqueue policy (clock s) class {| id := waiter; enqueued_at := enqueued_at |} (state s);
          Ok (observe waiter Enqueued
                ((granting outcome (s <| requests := <[waiter := (class, Awaiting)]> (requests s) |>))
                   <| entered := entered s ++ [(waiter, class)] |>)))
  else None.
(** [dispatch]: a channel without its receiver gives the reservation back. *)
Definition dispatch (waiter : N) (s : system) : option (result failure system) :=
  match reservations s !! waiter with
  | Some (r, Dispatching) =>
      let to := match requests s !! waiter with Some (_, Awaiting) => Sent | _ => Leaving false end in
      Some (Ok (move waiter r to s))
  | _ => None
  end.
(** [acquire] after its await. *)
Definition receive (waiter : N) (s : system) : option (result failure system) :=
  match requests s !! waiter, reservations s !! waiter with
  | Some (_, Awaiting), Some (r, Sent) =>
      Some (Ok (observe waiter (Acquired (reason r))
                  ((move waiter r (Owned 1) s) <| requests := delete waiter (requests s) |>)))
  | _, _ => None
  end.
(** The future of [acquire] dropped: first its receiver, with what it holds, *)
Definition close_receiver (waiter : N) (s : system) : option (result failure system) :=
  match requests s !! waiter with
  | Some (class, Awaiting) =>
      let s' := s <| requests := <[waiter := (class, Dropping)]> (requests s) |> in
      Some (Ok match reservations s !! waiter with Some (r, Sent) => move waiter r (Leaving false) s' | _ => s' end)
  | _ => None
  end.
(** then its registration: [Drop for WaitRegistration]. *)
Definition drop_registration (policy : SqliteWritePolicy) (waiter : N) (s : system) : option (result failure system) :=
  match requests s !! waiter with
  | Some (class, Dropping) =>
      Some (outcome ← cancel policy (clock s) class waiter (state s);
            let s := s <| requests := delete waiter (requests s) |> in
            Ok match outcome with
               | None => s
               | Some outcome =>
                   observe waiter Cancelled ((granting outcome s) <| withdrawn := withdrawn s ++ [(waiter, class)] |>)
               end)
  | _ => None
  end.
Definition clone_permit (waiter : N) (s : system) : option (result failure system) :=
  match reservations s !! waiter with
  | Some (r, Owned owners) => Some (Ok (move waiter r (Owned (owners + 1)) s))
  | _ => None
  end.
Definition drop_permit (waiter : N) (s : system) : option (result failure system) :=
  match reservations s !! waiter with
  | Some (r, Owned owners) =>
      Some (Ok (move waiter r (if decide (owners ≤ 1) then Leaving true else Owned (owners - 1)) s))
  | _ => None
  end.
(** [Drop for Reservation]: the event follows the release. *)
Definition drop_reservation (policy : SqliteWritePolicy) (waiter : N) (s : system) : option (result failure system) :=
  match reservations s !! waiter with
  | Some (r, Leaving started) =>
      Some (outcome ← release policy (clock s) (state s);
            Ok (observe waiter (if started then Released else Cancelled)
                  (granting outcome (s <| reservations := delete waiter (reservations s) |>))))
  | _ => None
  end.

Inductive action :=
  | Enqueue (waiter : N) (class : SqliteWriteClass) (enqueued_at : N)
  | DispatchSend (waiter : N) | Receive (waiter : N)
  | CloseReceiver (waiter : N) | CancelWait (waiter : N)
  | ClonePermit (waiter : N) | DropPermit (waiter : N) | Release (waiter : N)
  | Tick (elapsed : N).
Definition act (policy : SqliteWritePolicy) (s : system) (a : action) : option (result failure system) :=
  match a with
  | Enqueue waiter class enqueued_at => enqueue_waiter policy waiter class enqueued_at s
  | DispatchSend waiter => dispatch waiter s
  | Receive waiter => receive waiter s
  | CloseReceiver waiter => close_receiver waiter s
  | CancelWait waiter => drop_registration policy waiter s
  | ClonePermit waiter => clone_permit waiter s
  | DropPermit waiter => drop_permit waiter s
  | Release waiter => drop_reservation policy waiter s
  | Tick elapsed => Some (Ok (s <| clock := clock s + elapsed |>))
  end.
Ltac unfold_act :=
  unfold act, enqueue_waiter, dispatch, receive, close_receiver, drop_registration, clone_permit, drop_permit, drop_reservation in *.
Definition step (policy : SqliteWritePolicy) (s s' : system) : Prop := ∃ a, act policy s a = Some (Ok s').
Definition reachable (policy : SqliteWritePolicy) (s : system) : Prop := rtc (step policy) new s.
Fixpoint run (policy : SqliteWritePolicy) (actions : list action) (s : system) : option (result failure system) :=
  match actions with
  | [] => Some (Ok s)
  | a :: actions => match act policy s a with Some (Ok s') => run policy actions s' | other => other end
  end.
Lemma run_steps policy actions s s' : run policy actions s = Some (Ok s') → rtc (step policy) s s'.
Proof.
  revert s. induction actions as [|a actions IH]; intros t; cbn; [by intros [= ->]|].
  destruct (act policy t a) as [[t'|e]|] eqn:Ha; [|done..]. intros Hr. eapply rtc_l; [by exists a|]. by apply IH.
Qed.

(** ** What a grant does *)

Lemma queue_set c c' q s : queue c (set_queue c' q s) = if decide (c = c') then q else queue c s.
Proof. by destruct c, c'. Qed.
Lemma active_set c q s : active (set_queue c q s) = active s.
Proof. by destruct c. Qed.
Lemma queue_count c class reason s : queue c (count_grant class reason s) = queue c s.
Proof. by destruct c, class, reason. Qed.
Lemma active_count class reason s : active (count_grant class reason s) = active s.
Proof. by destruct class, reason. Qed.
Lemma waits_true c s : waits c s = true ↔ queue c s ≠ [].
Proof. unfold waits. by rewrite negb_true_iff, bool_decide_eq_false. Qed.
Lemma waits_false c s : waits c s = false ↔ queue c s = [].
Proof. unfold waits. by rewrite negb_false_iff, bool_decide_eq_true. Qed.
Lemma class_count_0 s : class_count s = 0 ↔ ∀ c, queue c s = [].
Proof.
  setoid_rewrite <-waits_false. unfold class_count. split.
  - intros H c. destruct (waits Critical s) eqn:?, (waits Interactive s) eqn:?, (waits Maintenance s) eqn:?; cbn in H; try lia. by destruct c.
  - intros H. by rewrite !H.
Qed.
Lemma first_waiting_waits s : class_count s ≠ 0 → waits (first_waiting s) s = true.
Proof.
  unfold class_count, first_waiting.
  destruct (waits Critical s) eqn:?, (waits Interactive s) eqn:?, (waits Maintenance s) eqn:?; cbn; first [congruence|by intros []].
Qed.
Lemma choose_waits policy now newly s : class_count s ≠ 0 → waits (choose policy now newly s).1 s = true.
Proof.
  intros Hn. unfold choose. repeat case_match; cbn; try by apply first_waiting_waits.
  - match goal with H : maintenance_due _ _ _ = true |- _ => by apply andb_true_iff in H as [H _] end.
  - match goal with H : interactive_due _ _ = true |- _ => unfold interactive_due in H; rewrite !andb_true_iff in H; tauto end.
Qed.
Lemma first_waiting_only s c : class_count s = 1 → waits c s = true → first_waiting s = c.
Proof.
  unfold class_count, first_waiting.
  destruct c, (waits Critical s), (waits Interactive s), (waits Maintenance s); cbv; congruence.
Qed.
Lemma first_waiting_order s c : waits c s = true → first_waiting s = c ∨ first_waiting s = Critical ∨
  c = Maintenance ∧ first_waiting s = Interactive.
Proof. unfold first_waiting. destruct c, (waits Critical s), (waits Interactive s); naive_solver. Qed.

(** The bursts, and why a class is passed over. *)
Definition non_maintenance_burst (policy : SqliteWritePolicy) : N := N.max (max_non_maintenance_burst policy) 1.
Definition critical_burst (policy : SqliteWritePolicy) : N := N.max (max_critical_burst policy) 1.
(** The bursts are values of [usize]. *)
Definition policy_ok (policy : SqliteWritePolicy) : Prop :=
  max_critical_burst policy ≤ U64_MAX ∧ max_non_maintenance_burst policy ≤ U64_MAX.
Definition passes_over (policy : SqliteWritePolicy) (s : AdmissionState) (c : SqliteWriteClass) (s' : AdmissionState) : Prop :=
  (waits Maintenance s = true → c ≠ Maintenance →
     consecutive_non_maintenance s < non_maintenance_burst policy ∧
     consecutive_non_maintenance s' = consecutive_non_maintenance s + 1) ∧
  (waits Interactive s = true → c = Critical →
     consecutive_critical s < critical_burst policy ∧ consecutive_critical s' = consecutive_critical s + 1) ∧
  (waits Interactive s = true → c ≠ Critical → consecutive_critical s' = 0) ∧
  (waits Maintenance s = true → c = Maintenance → consecutive_non_maintenance s' = 0).
Lemma choose_passes_over policy now newly s c why :
  policy_ok policy → (newly = true → class_count s = 1) → class_count s ≠ 0 → choose policy now newly s = (c, why) →
  passes_over policy s c (count_grant c why s).
Proof.
  intros [Hpc Hpn] Hnew Hcount Hch. assert (1 ≤ U64_MAX) by done. unfold passes_over, non_maintenance_burst, critical_burst.
  assert (class_count s = 1 → ∀ c', waits c' s = true → first_waiting s = c') as Honly by (intros; by apply first_waiting_only).
  pose proof (first_waiting_order s) as Hord. unfold choose, maintenance_due, interactive_due in Hch.
  destruct newly.
  { injection Hch as <- <-. specialize (Honly (Hnew eq_refl)). split_and!; intros Hw ?; by rewrite (Honly _ Hw) in *. }
  destruct (decide (class_count s = 1)) as [H1|_].
  { injection Hch as <- <-. specialize (Honly H1). split_and!; intros Hw ?; by rewrite (Honly _ Hw) in *. }
  destruct (waits Maintenance s) eqn:Hwm; cbn [andb] in Hch.
  - match type of Hch with (if ?b || ?b' then _ else _) = _ => destruct b eqn:?, (b') eqn:Hb end; cbn [orb] in Hch;
      try (injection Hch as <- <-; cbn; by split_and!).
    apply bool_decide_eq_false in Hb.
    destruct (waits Interactive s) eqn:Hwi, (waits Critical s) eqn:Hwc; cbn [andb] in Hch;
      try (case_bool_decide); injection Hch as <- <-; unfold first_waiting; rewrite ?Hwi, ?Hwc; cbn;
      split_and!; intros; try done; split_and?; word.
  - destruct (waits Interactive s) eqn:Hwi, (waits Critical s) eqn:Hwc; cbn [andb] in Hch;
      try (case_bool_decide); injection Hch as <- <-; unfold first_waiting; rewrite ?Hwi, ?Hwc; cbn;
      split_and!; intros; try done; split_and?; word.
Qed.

(** The outcome of a grant: nobody waits, or the first of a class gets the writer. *)
Definition grants_to (policy : SqliteWritePolicy) (s : AdmissionState) (c : SqliteWriteClass) (waiter : Waiter) (rest : list Waiter)
    (s' : AdmissionState) : Prop :=
  queue c s = waiter :: rest ∧ active s' = true ∧ (∀ c', queue c' s' = if decide (c' = c) then rest else queue c' s) ∧
  (policy_ok policy → passes_over policy s c s').
Definition grant_outcome (policy : SqliteWritePolicy) (s : AdmissionState) (outcome : AdmissionState * option Dispatch) : Prop :=
  (∀ c, queue c s = []) ∧ outcome = (s, None) ∨
  ∃ waiter rest s' r, grants_to policy s (class r) waiter rest s' ∧ outcome = (s', Some (id waiter, r)).
Lemma grant_spec policy now newly s :
  active s = false → (newly = true → class_count s ≤ 1) →
  ∃ outcome, grant_next_locked policy now newly s = Ok outcome ∧ grant_outcome policy s outcome.
Proof.
  intros Ha Hnew. unfold grant_next_locked. rewrite Ha. cbn. case_decide as Hn.
  { eexists. split; [done|]. left. by rewrite <-class_count_0. }
  assert (newly = true → class_count s = 1) as Hone by (intros Ht; specialize (Hnew Ht); lia).
  replace (negb newly || bool_decide (class_count s = 1)) with true
    by (destruct newly; [by rewrite bool_decide_true by auto|done]). cbn.
  pose proof (choose_waits policy now newly s Hn) as Hw. destruct (choose policy now newly s) as [c why] eqn:Hch.
  rewrite queue_count. apply waits_true in Hw. cbn in Hw. destruct (queue c s) as [|w rest] eqn:Hq; [done|].
  eexists. split; [done|]. right. eexists w, rest, _, _. split; [|done]. split_and!; cbn; [done..| |].
  - intros c'. change (queue c' (set_queue c rest (count_grant c why s)) = if decide (c' = c) then rest else queue c' s).
    by rewrite queue_set, queue_count.
  - intros Hok. pose proof (choose_passes_over _ _ _ _ _ _ Hok Hone Hn Hch) as Hp. unfold passes_over in *.
    by destruct c.
Qed.
Lemma grant_if_free_spec policy now newly s :
  (active s = false → newly = true → class_count s ≤ 1) →
  ∃ outcome, grant_if_free policy now newly s = Ok outcome ∧
    (active s = true ∧ outcome = (s, None) ∨ active s = false ∧ grant_outcome policy s outcome).
Proof.
  intros Hnew. unfold grant_if_free. destruct (active s) eqn:Ha; [eexists; split; [done|]; by left|].
  destruct (grant_spec policy now newly s Ha (Hnew eq_refl)) as (o & -> & Ho). exists o. split; [done|]. by right.
Qed.

(** ** The invariant *)

Definition listed (c : SqliteWriteClass) (s : AdmissionState) : list (N * SqliteWriteClass) := (λ w, (id w, c)) <$> queue c s.
Definition waiting (s : AdmissionState) : list (N * SqliteWriteClass) :=
  listed Critical s ++ listed Interactive s ++ listed Maintenance s.
Definition of_class (c : SqliteWriteClass) (l : list (N * SqliteWriteClass)) : list N := (filter (λ x, x.2 = c) l).*1.
Definition events_of (waiter : N) (l : list (N * SqliteWriteEvent)) : list SqliteWriteEvent := (filter (λ x, x.1 = waiter) l).*2.
#[local] Arguments of_class : simpl never.
#[local] Arguments events_of : simpl never.
#[local] Arguments waiting : simpl never.

Definition closed (l : list SqliteWriteEvent) : Prop :=
  l = [Enqueued; Cancelled] ∨ ∃ why, l = [Enqueued; Acquired why; Released].
(** What the observer has seen of a waiter. *)
Definition lifecycle (s : system) (waiter : N) : Prop :=
  let seen := events_of waiter (events s) in
  match reservations s !! waiter with
  | Some (r, Owned _) | Some (r, Leaving true) => seen = [Enqueued; Acquired (reason r)]
  | Some _ => seen = [Enqueued]
  | None =>
      (waiter ∈ (waiting (state s)).*1 → seen = [Enqueued]) ∧
      (waiter ∈ (granted s).*1 ∨ waiter ∈ (withdrawn s).*1 → closed seen) ∧
      (waiter ∉ (entered s).*1 → seen = [])
  end.
Definition stage_ok (s : system) (waiter : N) (r : Reservation) (at_ : stage) : Prop :=
  match at_ with
  | Dispatching | Leaving false => True
  | Sent => requests s !! waiter = Some (class r, Awaiting)
  | Owned owners => 1 ≤ owners ∧ requests s !! waiter = None
  | Leaving true => requests s !! waiter = None
  end.
Definition underway (s : system) (waiter : N) (c : SqliteWriteClass) : Prop :=
  ∃ r, class r = c ∧ (reservations s !! waiter = Some (r, Dispatching) ∨ reservations s !! waiter = Some (r, Sent)).
Record core_ok (s : system) : Prop := {
  ok_active : active (state s) = false ∧ reservations s = ∅ ∨
              active (state s) = true ∧ ∃ waiter x, reservations s = {[waiter := x]};
  ok_nodup : NoDup (entered s).*1;
  ok_entered : entered s ≡ₚ granted s ++ withdrawn s ++ waiting (state s);
  ok_fifo c : of_class c (granted s) ++ (id <$> queue c (state s)) `sublist_of` of_class c (entered s);
  ok_listed waiter c : (waiter, c) ∈ waiting (state s) → ∃ q, requests s !! waiter = Some (c, q);
  ok_awaiting waiter c : requests s !! waiter = Some (c, Awaiting) → (waiter, c) ∈ waiting (state s) ∨ underway s waiter c;
  ok_requests waiter c q : requests s !! waiter = Some (c, q) → (waiter, c) ∈ entered s;
  ok_reservation waiter r at_ : reservations s !! waiter = Some (r, at_) → (waiter, class r) ∈ granted s ∧ stage_ok s waiter r at_;
  ok_events waiter : lifecycle s waiter;
}.
Definition nobody_waits (s : AdmissionState) : Prop := ∀ c, queue c s = [].
Definition writer_ok (s : system) : Prop := core_ok s ∧ (active (state s) = false → nobody_waits (state s)).

Lemma elem_waiting waiter c s : (waiter, c) ∈ waiting s ↔ ∃ w, w ∈ queue c s ∧ id w = waiter.
Proof.
  unfold waiting, listed. rewrite !elem_of_app, !list_elem_of_fmap. split.
  - intros [(w & [= -> ->] & ?)|[(w & [= -> ->] & ?)|(w & [= -> ->] & ?)]]; eauto.
  - intros (w & Hw & <-). destruct c; eauto 6.
Qed.
Lemma waiting_queue c s s' w q :
  queue c s ≡ₚ w :: q → (∀ c', queue c' s' = if decide (c' = c) then q else queue c' s) → waiting s ≡ₚ (id w, c) :: waiting s'.
Proof.
  intros Hq Hs'. unfold waiting, listed. rewrite !Hs'. destruct c; repeat case_decide; try done; rewrite Hq; cbn [fmap list_fmap].
  - done.
  - by rewrite Permutation_middle.
  - rewrite <-!Permutation_middle. done.
Qed.
Lemma of_class_app c l1 l2 : of_class c (l1 ++ l2) = of_class c l1 ++ of_class c l2.
Proof. unfold of_class. by rewrite filter_app, fmap_app. Qed.
Lemma of_class_one c i c' : of_class c [(i, c')] = if decide (c' = c) then [i] else [].
Proof. unfold of_class. rewrite filter_cons. cbn. by case_decide. Qed.
Lemma events_of_snoc i l j e : events_of i (l ++ [(j, e)]) = events_of i l ++ if decide (j = i) then [e] else [].
Proof. unfold events_of. rewrite filter_app, fmap_app, filter_cons. cbn. by case_decide. Qed.

Lemma granting_ok policy t outcome :
  core_ok t → active (state t) = false → grant_outcome policy (state t) outcome → writer_ok (granting outcome t).
Proof.
  intros [] Hfree [(Hnone & ->)|(w & rest & s' & r & (Hq & Ha & Hs' & _) & ->)].
  { by destruct t. }
  destruct ok_active0 as [[_ Hres]|[? _]]; [|congruence].
  pose proof (waiting_queue (class r) (state t) s' w rest ltac:(by rewrite Hq) Hs') as Hw.
  assert ((id w, class r) ∈ waiting (state t)) as Hin by (rewrite Hw; left).
  split; [|cbn; congruence]. split; cbn; try done.
  - right. split; [done|]. eexists _, _. by rewrite Hres.
  - rewrite ok_entered0, Hw. by rewrite <-!app_assoc, <-Permutation_middle.
  - intros c. specialize (ok_fifo0 c). rewrite of_class_app, of_class_one, Hs'. destruct (decide (c = class r)) as [->|Hne].
    + rewrite decide_True by done. rewrite Hq in ok_fifo0. by rewrite <-app_assoc.
    + by rewrite decide_False, app_nil_r by done.
  - intros i c Hi. apply (ok_listed0 i c). rewrite Hw. by right.
  - intros i c Hi. destruct (ok_awaiting0 i c Hi) as [Hl|(r' & _ & Hu)]; [|rewrite Hres, lookup_empty in Hu; naive_solver].
    rewrite Hw in Hl. apply elem_of_cons in Hl as [[= -> ->]|Hl]; [|by left].
    right. exists r. split; [done|]. left. cbn. apply lookup_insert_eq.
  - intros i r' at_. rewrite Hres, insert_empty, lookup_singleton_Some. intros (<- & [= <- <-]). split; [|done].
    apply elem_of_app. right. left.
  - intros i. specialize (ok_events0 i). unfold lifecycle in *. cbn. rewrite Hres, lookup_empty in ok_events0.
    rewrite Hres, insert_empty. destruct ok_events0 as (H1 & H2 & H3). destruct (decide (i = id w)) as [->|Hne].
    + rewrite lookup_singleton_eq. apply H1. apply list_elem_of_fmap. by exists (id w, class r).
    + rewrite lookup_singleton_ne by done. rewrite Hw in H1. split_and!; [|intros [Hg|Hg]; apply H2|done].
      * intros Hi. apply H1. by right.
      * rewrite fmap_app in Hg. apply elem_of_app in Hg as [Hg|Hg]; [by left|]. by apply list_elem_of_singleton in Hg.
      * by right.
Qed.
Lemma keeping_ok t outcome :
  writer_ok t → outcome = (state t, None) → writer_ok (granting outcome t).
Proof. intros Ht ->. by destruct t. Qed.
Lemma entered_distinct s i c c' : core_ok s → (i, c) ∈ entered s → (i, c') ∈ entered s → c = c'.
Proof.
  intros Hok H1 H2. pose proof (ok_nodup _ Hok) as Hnd. clear Hok. induction (entered s) as [|[j d] l IH]; [by apply not_elem_of_nil in H1|].
  cbn in Hnd. apply NoDup_cons in Hnd as [Hj Hnd].
  apply elem_of_cons in H1 as [?|H1]; apply elem_of_cons in H2 as [?|H2]; simplify_eq; auto;
    exfalso; apply Hj; apply list_elem_of_fmap; by eexists (_, _).
Qed.
(** Who is granted or withdrawn does not wait, and who waits is neither. *)
Lemma entered_apart s : core_ok s →
  NoDup ((granted s).*1 ++ (withdrawn s).*1 ++ (waiting (state s)).*1).
Proof. intros []. rewrite <-!fmap_app. by rewrite <-ok_entered0. Qed.
Lemma entered_ids s i : core_ok s →
  i ∈ (entered s).*1 ↔ i ∈ (granted s).*1 ∨ i ∈ (withdrawn s).*1 ∨ i ∈ (waiting (state s)).*1.
Proof. intros []. by rewrite ok_entered0, !fmap_app, !elem_of_app. Qed.
Lemma elem_fst {A B} (x : A) (y : B) l : (x, y) ∈ l → x ∈ l.*1.
Proof. intros H. apply list_elem_of_fmap. by exists (x, y). Qed.
Lemma reserved_granted s i x : core_ok s → reservations s !! i = Some x → i ∈ (granted s).*1.
Proof. intros [] Hx. destruct x as [r at_]. destruct (ok_reservation0 _ _ _ Hx) as [Hg _]. by eapply elem_fst. Qed.
Lemma waiting_unreserved s i : core_ok s → i ∈ (waiting (state s)).*1 → reservations s !! i = None.
Proof.
  intros Hok Hw. destruct (reservations s !! i) as [x|] eqn:Hx; [|done]. apply reserved_granted in Hx; [|done].
  pose proof (entered_apart s Hok) as Hnd. apply NoDup_app in Hnd as (_ & Hnd & _). destruct (Hnd i Hx).
  apply elem_of_app. by right.
Qed.
Lemma one_reservation s i j x y : core_ok s → reservations s !! i = Some x → reservations s !! j = Some y → i = j ∧ x = y.
Proof.
  intros [] Hx Hy. destruct ok_active0 as [[_ Hr]|[_ (k & z & Hr)]]; rewrite Hr in Hx, Hy; [by rewrite lookup_empty in Hx|].
  apply lookup_singleton_Some in Hx as [<- <-], Hy as [<- <-]. done.
Qed.

Lemma pushed_ok s i c q at_ :
  core_ok s → (i ∉ (entered s).*1) → q = {| id := i; enqueued_at := at_ |} →
  core_ok ((((s <| state := set_queue c (queue c (state s) ++ [q]) (state s) |>)
              <| requests := <[i := (c, Awaiting)]> (requests s) |>)
             <| entered := entered s ++ [(i, c)] |>) <| events := events s ++ [(i, Enqueued)] |>).
Proof.
  intros Hok Hi ->. set (w := {| id := i; enqueued_at := at_ |}). set (st := set_queue c (queue c (state s) ++ [w]) (state s)).
  assert (waiting st ≡ₚ (i, c) :: waiting (state s)) as Hw.
  { apply (waiting_queue c st (state s) w (queue c (state s))).
    - subst st. rewrite queue_set, decide_True by done. by rewrite Permutation_app_comm.
    - intros c'. subst st. rewrite queue_set. by repeat case_decide; subst. }
  pose proof (entered_ids s i Hok) as Hids.
  assert (∀ j x, reservations s !! j = Some x → j ≠ i) as Hres.
  { intros j x Hx ->. apply Hi. apply Hids. left. by eapply reserved_granted. }
  assert (∀ j d, (j, d) ∈ waiting (state s) → j ≠ i) as Hwait.
  { intros j d Hj ->. apply Hi. apply Hids. right. right. by eapply elem_fst. }
  destruct Hok. split; cbn; fold st.
  - subst st. by rewrite active_set.
  - rewrite fmap_app. apply NoDup_app. split_and!; [done| |apply NoDup_singleton].
    intros j Hj ->%list_elem_of_singleton. done.
  - rewrite Hw, ok_entered0. rewrite Permutation_app_comm. cbn. by rewrite !Permutation_middle.
  - intros d. specialize (ok_fifo0 d). rewrite of_class_app, of_class_one. subst st. rewrite queue_set.
    destruct (decide (d = c)) as [->|Hne].
    + rewrite decide_True by done. rewrite fmap_app, app_assoc. by apply sublist_app.
    + rewrite decide_False, app_nil_r by done. done.
  - intros j d Hj. rewrite Hw in Hj. apply elem_of_cons in Hj as [[= -> ->]|Hj].
    + eexists. apply lookup_insert_eq.
    + rewrite lookup_insert_ne by (symmetry; by eapply Hwait). by apply ok_listed0.
  - intros j d Hj. unfold underway. cbn. rewrite Hw. apply lookup_insert_Some in Hj as [[<- [= <-]]|[_ Hj]].
    + left. left.
    + destruct (ok_awaiting0 _ _ Hj); [left; by right|by right].
  - intros j d x Hj. apply elem_of_app. apply lookup_insert_Some in Hj as [[<- [= <- <-]]|[_ Hj]]; [right; left|left; by eapply ok_requests0].
  - intros j r a Hj. destruct (ok_reservation0 j r a Hj) as [Hg Hst]. split; [done|]. unfold stage_ok in *. cbn.
    by rewrite lookup_insert_ne by (symmetry; by eapply Hres).
  - intros j. specialize (ok_events0 j). unfold lifecycle in *. cbn. rewrite events_of_snoc. destruct (decide (i = j)) as [<-|Hne].
    + destruct (reservations s !! i) as [x|] eqn:Hx; [by destruct (Hres i x Hx)|]. destruct ok_events0 as (_ & _ & H3).
      rewrite (H3 Hi). split_and!; [done|intros Hg; tauto|]. rewrite fmap_app, elem_of_app. intros []. right. left.
    + rewrite app_nil_r. destruct (reservations s !! j) as [x|]; [done|]. destruct ok_events0 as (H1 & H2 & H3).
      split_and!; [|done|intros Hj; apply H3; rewrite fmap_app, elem_of_app in Hj; tauto].
      rewrite Hw. intros [->|Hj]%elem_of_cons; [done|by apply H1].
Qed.
Lemma push_alone s c w : nobody_waits s → class_count (set_queue c (queue c s ++ [w]) s) ≤ 1.
Proof.
  intros Hn. unfold class_count, waits. rewrite !queue_set, !Hn. by destruct c.
Qed.

Lemma withdrawn_ok s i c position w :
  core_ok s → requests s !! i = Some (c, Dropping) → queue c (state s) !! position = Some w → id w = i →
  core_ok ((((s <| requests := delete i (requests s) |>)
              <| state := set_queue c (delete position (queue c (state s))) (state s) |>)
             <| withdrawn := withdrawn s ++ [(i, c)] |>) <| events := events s ++ [(i, Cancelled)] |>).
Proof.
  intros Hok Hreq Hpos <-. set (q := delete position (queue c (state s))). set (st := set_queue c q (state s)).
  pose proof (delete_Permutation _ _ _ Hpos) as Hq. fold q in Hq.
  assert (∀ d, queue d st = if decide (d = c) then q else queue d (state s)) as Hst by (intros; apply queue_set).
  pose proof (waiting_queue c (state s) st w q Hq Hst) as Hw.
  assert (NoDup (waiting (state s)).*1) as Hnd.
  { pose proof (entered_apart s Hok) as Hnd. by apply NoDup_app in Hnd as (_ & _ & [_ [_ ?]]%NoDup_app). }
  rewrite Hw in Hnd. apply NoDup_cons in Hnd as [Hout _].
  assert (reservations s !! id w = None) as Hnone.
  { apply waiting_unreserved; [done|]. rewrite Hw. left. }
  assert (∀ j x, reservations s !! j = Some x → j ≠ id w) as Hres by (intros j x Hx ->; congruence).
  destruct Hok. split; cbn; fold q st.
  - subst st. by rewrite active_set.
  - done.
  - rewrite ok_entered0, Hw. by rewrite <-!app_assoc.
  - intros d. etrans; [|apply ok_fifo0]. rewrite Hst. case_decide as Hd; [subst d|done]. apply sublist_app; [done|].
    subst q. apply fmap_sublist, sublist_delete.
  - intros j d Hj. rewrite lookup_delete_ne; [apply ok_listed0; rewrite Hw; by right|].
    intros <-. apply Hout. by eapply elem_fst.
  - intros j d Hj. apply lookup_delete_Some in Hj as [Hne Hj]. destruct (ok_awaiting0 j d Hj) as [Hl|?]; [|by right].
    left. rewrite Hw in Hl. by apply elem_of_cons in Hl as [[= -> _]|Hl].
  - intros j d x Hj. apply lookup_delete_Some in Hj as [_ Hj]. by eapply ok_requests0.
  - intros j r a Hj. destruct (ok_reservation0 j r a Hj) as [Hg Hs]. split; [done|]. unfold stage_ok in *. cbn.
    by rewrite lookup_delete_ne by (symmetry; by eapply Hres).
  - intros j. pose proof (ok_events0 j) as Hev. unfold lifecycle in *. cbn. rewrite events_of_snoc.
    destruct (decide (id w = j)) as [<-|Hne].
    + rewrite Hnone in Hev |- *. destruct Hev as (H1 & _ & H3). rewrite H1 by (rewrite Hw; left). split_and!.
      * intros Hj. by destruct Hout.
      * intros _. by left.
      * intros []. apply (elem_fst _ c). by eapply ok_requests0.
    + rewrite app_nil_r. destruct (reservations s !! j) as [x|]; [done|]. destruct Hev as (H1 & H2 & H3). split_and!; [| |done].
      * intros Hj. apply H1. rewrite Hw. by right.
      * rewrite fmap_app, elem_of_app. intros [Hj|[Hj|Hj]]; [auto..|]. by apply list_elem_of_singleton in Hj.
Qed.
Lemma unlisted_ok s i c :
  core_ok s → requests s !! i = Some (c, Dropping) → list_find (λ w, id w = i) (queue c (state s)) = None →
  core_ok (s <| requests := delete i (requests s) |>).
Proof.
  intros Hok Hreq Hnone. rewrite list_find_None, Forall_forall in Hnone.
  pose proof (λ c', entered_distinct s i c c' Hok (ok_requests s Hok _ _ _ Hreq)) as Hsame.
  destruct Hok. split; cbn; try done.
  - intros j d Hj. destruct (decide (j = i)) as [->|Hne]; [|by rewrite lookup_delete_ne; auto].
    exfalso. rewrite <-(Hsame d) in Hj by (rewrite ok_entered0, !elem_of_app; auto).
    apply elem_waiting in Hj as (w & Hw & Hi). by eapply Hnone.
  - intros j d Hj. apply lookup_delete_Some in Hj as [_ Hj]. by apply ok_awaiting0.
  - intros j d x Hj. apply lookup_delete_Some in Hj as [_ Hj]. by eapply ok_requests0.
  - intros j r a Hj. destruct (ok_reservation0 j r a Hj) as [Hg Hs]. split; [done|]. unfold stage_ok in *. cbn.
    destruct (decide (j = i)) as [->|Hne]; [rewrite lookup_delete_eq; destruct a as [| | |[]]; naive_solver congruence|by rewrite lookup_delete_ne].
Qed.
Lemma left_ok s i r started :
  core_ok s → reservations s !! i = Some (r, Leaving started) →
  core_ok (((s <| reservations := delete i (reservations s) |>) <| state := (state s) <| active := false |> |>)
             <| events := events s ++ [(i, if started then Released else Cancelled)] |>).
Proof.
  intros Hok Hr. pose proof (λ j x, one_reservation s i j (r, Leaving started) x Hok Hr) as Hone.
  pose proof (reserved_granted s i _ Hok Hr) as Hgr. pose proof (entered_ids s i Hok) as Hids.
  assert (i ∉ (waiting (state s)).*1) as Hnw by (intros Hw; apply waiting_unreserved in Hw; [congruence|done]).
  assert (delete i (reservations s) = ∅) as Hempty.
  { apply map_empty. intros j. apply lookup_delete_None. destruct (reservations s !! j) as [x|] eqn:Hx; [|by right].
    left. by apply Hone in Hx as [-> _]. }
  destruct Hok. split; cbn; try done.
  - left. done.
  - intros j d Hj. destruct (ok_awaiting0 j d Hj) as [Hl|(r' & <- & [Hu|Hu])]; [by left|..]; by apply Hone in Hu as [_ ?].
  - intros j r' a. by rewrite Hempty, lookup_empty.
  - intros j. pose proof (ok_events0 j) as Hev. unfold lifecycle in *. cbn. rewrite events_of_snoc, Hempty, lookup_empty.
    destruct (decide (i = j)) as [<-|Hne].
    + rewrite Hr in Hev. split_and!; [done| |intros []; tauto]. intros _. destruct started; rewrite Hev; [right; by eexists|by left].
    + rewrite app_nil_r. destruct (reservations s !! j) as [x|] eqn:Hx; [by apply Hone in Hx as [? _]|]. done.
Qed.

(** A reservation moves on, its waiter's request and what was seen of it with it. *)
Lemma moved_ok s i r from to new_requests seen :
  core_ok s → reservations s !! i = Some (r, from) →
  (∀ j, j ≠ i → new_requests !! j = requests s !! j) →
  (∀ c q, new_requests !! i = Some (c, q) → c = class r) →
  (new_requests !! i = Some (class r, Awaiting) → to = Dispatching ∨ to = Sent) →
  stage_ok ((move i r to s) <| requests := new_requests |>) i r to →
  match to with
  | Owned _ | Leaving true => events_of i (events s) ++ seen = [Enqueued; Acquired (reason r)]
  | _ => events_of i (events s) ++ seen = [Enqueued]
  end →
  core_ok (((move i r to s) <| requests := new_requests |>) <| events := events s ++ ((λ e, (i, e)) <$> seen) |>).
Proof.
  intros Hok Hr Hother Hclass Hto Hstage Hseen.
  pose proof (λ j x, one_reservation s i j (r, from) x Hok Hr) as Hone.
  pose proof (reserved_granted s i _ Hok Hr) as Hgr. pose proof (entered_ids s i Hok) as Hids.
  assert (i ∉ (waiting (state s)).*1) as Hnw by (intros Hw; apply waiting_unreserved in Hw; [congruence|done]).
  destruct Hok. destruct (ok_reservation0 _ _ _ Hr) as [Hgi _]. split; cbn; try done.
  - destruct ok_active0 as [[_ He]|[Ha (j & x & He)]]; rewrite He in Hr; [by rewrite lookup_empty in Hr|].
    right. split; [done|]. apply lookup_singleton_Some in Hr as [-> ->]. exists i, (r, to). by rewrite He, insert_singleton_eq.
  - intros j d Hj. rewrite Hother; [by apply ok_listed0|]. intros ->. apply Hnw. by eapply elem_fst.
  - intros j d Hj. destruct (decide (j = i)) as [->|Hne].
    + pose proof (Hclass _ _ Hj) as ->. right. exists r. split; [done|]. cbn. rewrite lookup_insert_eq.
      destruct (Hto Hj) as [->| ->]; auto.
    + rewrite Hother in Hj by done. destruct (ok_awaiting0 j d Hj) as [Hl|(r' & _ & Hu)]; [by left|].
      destruct Hu as [Hu|Hu]; apply Hone in Hu as [? _]; congruence.
  - intros j d x Hj. destruct (decide (j = i)) as [->|Hne]; [|rewrite Hother in Hj by done; by eapply ok_requests0].
    rewrite (Hclass _ _ Hj), ok_entered0. apply elem_of_app. by left.
  - intros j r' a Hj. apply lookup_insert_Some in Hj as [[<- [= <- <-]]|[Hne Hj]]; [done|]. by apply Hone in Hj as [? _].
  - intros j. pose proof (ok_events0 j) as Hev. unfold lifecycle in *. cbn.
    assert (events_of j (events s ++ ((λ e, (i, e)) <$> seen)) = events_of j (events s) ++ if decide (i = j) then seen else []) as ->.
    { unfold events_of. rewrite filter_app, fmap_app. f_equal. clear. induction seen as [|e l IH]; [by case_decide|].
      rewrite fmap_cons, filter_cons. cbn [fst]. case_decide; [|done]. rewrite fmap_cons. by f_equal. }
    destruct (decide (i = j)) as [<-|Hne].
    + rewrite lookup_insert_eq. destruct to as [| | |[]]; done.
    + rewrite lookup_insert_ne, app_nil_r by done. done.
Qed.
Lemma reservation_events s i r at_ : core_ok s → reservations s !! i = Some (r, at_) →
  events_of i (events s) = match at_ with Owned _ | Leaving true => [Enqueued; Acquired (reason r)] | _ => [Enqueued] end.
Proof. intros [] Hr. specialize (ok_events0 i). unfold lifecycle in ok_events0. rewrite Hr in ok_events0. by destruct at_ as [| | |[]]. Qed.
Lemma reservation_request s i r at_ c q : core_ok s → reservations s !! i = Some (r, at_) → requests s !! i = Some (c, q) → c = class r.
Proof.
  intros Hok Hr Hq. eapply entered_distinct; [done|by eapply ok_requests|]. rewrite (ok_entered _ Hok). apply elem_of_app. left.
  by eapply ok_reservation in Hr as [? _].
Qed.
(** A request whose future is dropped before a reservation reached it. *)
Lemma dropping_ok s i c :
  core_ok s → requests s !! i = Some (c, Awaiting) → (∀ r, reservations s !! i ≠ Some (r, Sent)) →
  core_ok (s <| requests := <[i := (c, Dropping)]> (requests s) |>).
Proof.
  intros Hok Hreq Hns. pose proof (ok_requests s Hok _ _ _ Hreq) as Hent.
  pose proof (λ c', entered_distinct s i c c' Hok Hent) as Hsame.
  destruct Hok. split; cbn; try done.
  - intros j d Hj. destruct (decide (j = i)) as [->|Hne]; [|by rewrite lookup_insert_ne; auto].
    rewrite <-(Hsame d) by (rewrite ok_entered0, !elem_of_app; auto). eexists. apply lookup_insert_eq.
  - intros j d Hj. apply lookup_insert_Some in Hj as [[_ [=]]|[_ Hj]]. by apply ok_awaiting0.
  - intros j d x Hj. apply lookup_insert_Some in Hj as [[<- [= <- <-]]|[_ Hj]]; [done|by eapply ok_requests0].
  - intros j r a Hj. destruct (ok_reservation0 j r a Hj) as [Hg Hs]. split; [done|]. unfold stage_ok in *. cbn.
    destruct (decide (j = i)) as [->|Hne]; [|by rewrite lookup_insert_ne]. destruct a as [| | |[]]; naive_solver congruence.
Qed.

Definition seen_start (at_ : stage) : bool := match at_ with Owned _ | Leaving true => true | _ => false end.
Lemma moved_quiet s i r from to new_requests :
  core_ok s → reservations s !! i = Some (r, from) →
  (∀ j, j ≠ i → new_requests !! j = requests s !! j) →
  (∀ c q, new_requests !! i = Some (c, q) → c = class r) →
  (new_requests !! i = Some (class r, Awaiting) → to = Dispatching ∨ to = Sent) →
  stage_ok ((move i r to s) <| requests := new_requests |>) i r to → seen_start to = seen_start from →
  core_ok ((move i r to s) <| requests := new_requests |>).
Proof.
  intros Hok Hr Hother Hclass Hto Hstage Hseen. pose proof (reservation_events _ _ _ _ Hok Hr) as Hev.
  replace ((move i r to s) <| requests := new_requests |>)
    with (((move i r to s) <| requests := new_requests |>) <| events := events s ++ ((λ e, (i, e)) <$> []) |>)
    by (destruct s; cbn; by rewrite app_nil_r).
  eapply moved_ok; try done. rewrite app_nil_r, Hev. by destruct to as [| | |[]], from as [| | |[]].
Qed.
Lemma moved_plain s i r from to :
  core_ok s → reservations s !! i = Some (r, from) →
  (requests s !! i = Some (class r, Awaiting) → to = Dispatching ∨ to = Sent) → stage_ok s i r to →
  seen_start to = seen_start from → core_ok (move i r to s).
Proof.
  intros Hok Hr Hto Hstage Hseen. pose proof (moved_quiet s i r from to (requests s) Hok Hr) as Hm. destruct s.
  apply Hm; try done. intros c q Hq. by eapply reservation_request.
Qed.
Lemma act_ok policy s a outcome : writer_ok s → act policy s a = Some outcome → ∃ s', outcome = Ok s' ∧ writer_ok s'.
Proof.
  intros [Hok Hidle] Ha. destruct a as [i c at_|i|i|i|i|i|i|i|d]; unfold_act.
  - case_decide as Hi; [|done]. destruct Hi as [Hi _].
    pose proof (pushed_ok s i c _ at_ Hok Hi eq_refl) as Ht. unfold enqueue in Ha.
    destruct (grant_if_free_spec policy (clock s) true (set_queue c (queue c (state s) ++ [{| id := i; enqueued_at := at_ |}]) (state s)))
      as (o & Ho & Hcase).
    { rewrite active_set. intros Hf _. by apply push_alone, Hidle. }
    rewrite Ho in Ha. injection Ha as <-. eexists. split; [done|]. rewrite active_set in Hcase.
    destruct Hcase as [[Hact ->]|[Hact Hcase]].
    + split; [exact Ht|]. intros Hf. cbn in Hf. rewrite active_set in Hf. congruence.
    + pose proof (granting_ok policy _ o Ht ltac:(cbn; by rewrite active_set) Hcase) as Hgr.
      destruct o as [st [[w r]|]]; exact Hgr.
  - destruct (reservations s !! i) as [[r [| | |]]|] eqn:Hr; try done. injection Ha as <-. eexists. split; [done|]. split; [|done].
    destruct (requests s !! i) as [[c []]|] eqn:Hq; eapply moved_plain; try done.
    + auto.
    + pose proof (reservation_request _ _ _ _ _ _ Hok Hr Hq) as ->. done.
    + by rewrite Hq.
    + by rewrite Hq.
  - destruct (requests s !! i) as [[c []]|] eqn:Hq; try done. destruct (reservations s !! i) as [[r [| | |]]|] eqn:Hr; try done.
    injection Ha as <-. eexists. split; [done|]. split; [|done].
    pose proof (moved_ok s i r Sent (Owned 1) (delete i (requests s)) [Acquired (reason r)] Hok Hr) as Hm. apply Hm.
    + intros j Hj. by rewrite lookup_delete_ne.
    + intros c' q. by rewrite lookup_delete_eq.
    + by rewrite lookup_delete_eq.
    + split; [done|]. apply lookup_delete_eq.
    + by rewrite (reservation_events _ _ _ _ Hok Hr).
  - destruct (requests s !! i) as [[c []]|] eqn:Hq; try done. injection Ha as <-. eexists. split; [done|].
    destruct (reservations s !! i) as [[r [| | |]]|] eqn:Hr; try (split; [eapply dropping_ok; [done..|]; intros r'; congruence|done]).
    split; [|done]. pose proof (reservation_request _ _ _ _ _ _ Hok Hr Hq) as ->.
    apply (moved_quiet s i r Sent (Leaving false) (<[i := (class r, Dropping)]> (requests s)) Hok Hr); try done.
    + intros j Hj. by rewrite lookup_insert_ne.
    + intros c q. rewrite lookup_insert_eq. congruence.
    + by rewrite lookup_insert_eq.
  - destruct (requests s !! i) as [[c []]|] eqn:Hq; try done. unfold cancel in Ha.
    destruct (list_find _ _) as [[position w]|] eqn:Hf.
    + apply list_find_Some in Hf as (Hpos & Hw & _). pose proof (withdrawn_ok s i c position w Hok Hq Hpos Hw) as Ht.
      assert (active (state s) = true) as Hact.
      { destruct (active (state s)) eqn:Hact; [done|]. specialize (Hidle eq_refl c). rewrite Hidle in Hpos. by rewrite lookup_nil in Hpos. }
      unfold grant_if_free in Ha. rewrite active_set, Hact in Ha. injection Ha as <-. eexists. split; [done|].
      split; [exact Ht|]. cbn. rewrite active_set. congruence.
    + injection Ha as <-. eexists. split; [done|]. split; [by eapply unlisted_ok|done].
  - destruct (reservations s !! i) as [[r [| |n|]]|] eqn:Hr; try done. injection Ha as <-. eexists. split; [done|]. split; [|done].
    destruct (ok_reservation _ Hok _ _ _ Hr) as [_ [? Hnone]]. eapply moved_plain; try done; [by rewrite Hnone|]. split; [lia|done].
  - destruct (reservations s !! i) as [[r [| |n|]]|] eqn:Hr; try done. injection Ha as <-. eexists. split; [done|]. split; [|done].
    destruct (ok_reservation _ Hok _ _ _ Hr) as [_ [? Hnone]]. eapply moved_plain; try done; [by rewrite Hnone|..]; case_decide; try done.
    split; [lia|done].
  - destruct (reservations s !! i) as [[r [| | |started]]|] eqn:Hr; try done.
    pose proof (left_ok s i r started Hok Hr) as Ht. unfold release in Ha.
    assert (active (state s) = true) as Hact.
    { destruct (ok_active _ Hok) as [[_ He]|[? _]]; [|done]. by rewrite He, lookup_empty in Hr. }
    rewrite Hact in Ha. cbn in Ha.
    destruct (grant_spec policy (clock s) false ((state s) <| active := false |>)) as (o & Ho & Hcase); [done..|].
    cbn in Ho. rewrite Ho in Ha. injection Ha as <-. eexists. split; [done|].
    pose proof (granting_ok policy _ o Ht eq_refl Hcase) as Hgr. destruct o as [st [[w r']|]]; exact Hgr.
  - injection Ha as <-. eexists. split; [done|]. by split; [destruct Hok|].
Qed.

Lemma new_writer_ok : writer_ok new.
Proof.
  split; [|by intros _ []]. split; cbn; try done.
  - by left.
  - constructor.
  - intros []; constructor.
  - intros i c Hi. by apply not_elem_of_nil in Hi.
  - intros i. unfold lifecycle. cbn. rewrite lookup_empty. split_and!; [|intros [Hi|Hi]|done].
    1: intros Hi. all: by apply not_elem_of_nil in Hi.
Qed.
Lemma step_writer_ok policy s s' : writer_ok s → step policy s s' → writer_ok s'.
Proof. intros Hok [a Ha]. destruct (act_ok _ _ _ _ Hok Ha) as (t & [= ->] & Ht). done. Qed.
Lemma reachable_writer_ok policy s : reachable policy s → writer_ok s.
Proof. intros Hr. eapply (invariant_rtc (step policy) writer_ok); [apply step_writer_ok|exact Hr|apply new_writer_ok]. Qed.

(** ** What a step does to those who wait *)

Definition same_counters (s s' : AdmissionState) : Prop :=
  consecutive_critical s' = consecutive_critical s ∧ consecutive_non_maintenance s' = consecutive_non_maintenance s.
Inductive step_shape (policy : SqliteWritePolicy) (s s' : system) : Prop :=
  | shape_same : queue Critical (state s') = queue Critical (state s) → queue Interactive (state s') = queue Interactive (state s) →
      queue Maintenance (state s') = queue Maintenance (state s) → same_counters (state s) (state s') →
      granted s' = granted s → step_shape policy s s'
  | shape_push c w : id w ∉ (entered s).*1 → state s' = set_queue c (queue c (state s) ++ [w]) (state s) →
      granted s' = granted s → step_shape policy s s'
  | shape_first : nobody_waits (state s) → nobody_waits (state s') → step_shape policy s s'
  | shape_delete c k : state s' = set_queue c (delete k (queue c (state s))) (state s) →
      granted s' = granted s → step_shape policy s s'
  | shape_grant c w rest : grants_to policy (state s) c w rest (state s') →
      granted s' = granted s ++ [(id w, c)] → step_shape policy s s'.
Lemma step_has_shape policy s s' : writer_ok s → step policy s s' → step_shape policy s s'.
Proof.
  intros [Hok Hidle] [a Ha]. destruct a as [i c at_|i|i|i|i|i|i|i|d]; unfold_act.
  - case_decide as Hi; [|done]. destruct Hi as [Hi _]. set (w := {| id := i; enqueued_at := at_ |}) in *. unfold enqueue in Ha.
    destruct (grant_if_free_spec policy (clock s) true (set_queue c (queue c (state s) ++ [w]) (state s))) as (o & Ho & Hcase).
    { rewrite active_set. intros Hf _. by apply push_alone, Hidle. }
    rewrite Ho in Ha. injection Ha as <-. rewrite active_set in Hcase. destruct Hcase as [[Hact ->]|[Hact Hcase]].
    { by apply (shape_push _ _ _ c w). }
    specialize (Hidle Hact). apply shape_first; [done|].
    destruct Hcase as [[Hnone _]|(w' & rest & st & r & (Hq & _ & Hst & _) & ->)].
    + specialize (Hnone c). rewrite queue_set, decide_True in Hnone by done. by apply app_eq_nil in Hnone as [_ ?].
    + intros c'. cbn. rewrite Hst. rewrite !queue_set in Hq |- *. rewrite Hidle in Hq |- *.
      repeat case_decide; subst; cbn in *; congruence.
  - destruct (reservations s !! i) as [[r [| | |]]|]; try done. injection Ha as <-. by apply shape_same.
  - destruct (requests s !! i) as [[c []]|], (reservations s !! i) as [[r [| | |]]|]; try done. injection Ha as <-. by apply shape_same.
  - destruct (requests s !! i) as [[c []]|]; try done. injection Ha as <-.
    destruct (reservations s !! i) as [[r [| | |]]|]; by apply shape_same.
  - destruct (requests s !! i) as [[c []]|]; try done. unfold cancel in Ha. destruct (list_find _ _) as [[k w]|] eqn:Hf.
    + unfold grant_if_free in Ha. apply list_find_Some in Hf as (Hpos & _). rewrite active_set in Ha.
      destruct (active (state s)) eqn:Hact.
      * injection Ha as <-. by apply (shape_delete _ _ _ c k).
      * specialize (Hidle eq_refl c). rewrite Hidle in Hpos. by rewrite lookup_nil in Hpos.
    + injection Ha as <-. by apply shape_same.
  - destruct (reservations s !! i) as [[r [| |n|]]|]; try done. injection Ha as <-. by apply shape_same.
  - destruct (reservations s !! i) as [[r [| |n|]]|]; try done. injection Ha as <-. by apply shape_same.
  - destruct (reservations s !! i) as [[r [| | |started]]|] eqn:Hr; try done. unfold release in Ha.
    destruct (active (state s)) eqn:Hact; [|done]. cbn in Ha.
    destruct (grant_spec policy (clock s) false ((state s) <| active := false |>)) as (o & Ho & Hcase); [done..|].
    cbn in Ho. rewrite Ho in Ha. injection Ha as <-.
    destruct Hcase as [[_ ->]|(w & rest & st & r' & Hg & ->)]; [by apply shape_same|].
    by apply (shape_grant _ _ _ (class r') w rest).
  - injection Ha as <-. by apply shape_same.
Qed.

Lemma queue_ids_nodup s c : core_ok s → NoDup (id <$> queue c (state s)).
Proof.
  intros Hok. pose proof (entered_apart s Hok) as Hnd. apply NoDup_app in Hnd as (_ & _ & [_ [_ Hnd]]%NoDup_app).
  unfold waiting in Hnd. rewrite !fmap_app in Hnd. apply NoDup_app in Hnd as (H1 & _ & (H2 & _ & H3)%NoDup_app).
  assert (∀ c', id <$> queue c' (state s) = (listed c' (state s)).*1) as Heq.
  { intros c'. unfold listed. by rewrite <-list_fmap_compose. }
  rewrite Heq. by destruct c.
Qed.
Lemma lookup_unique (q : list Waiter) k n w w' : NoDup (id <$> q) → q !! k = Some w → q !! n = Some w' → id w = id w' → k = n.
Proof. intros Hnd Hk Hn Hid. eapply (NoDup_lookup _ _ _ (id w)); [exact Hnd|..]; rewrite list_lookup_fmap; [by rewrite Hk|rewrite Hn; cbn; congruence]. Qed.
Lemma came_from policy s s' c w :
  step_shape policy s s' → w ∈ queue c (state s') → id w ∈ (entered s).*1 → w ∈ queue c (state s).
Proof.
  intros [H1 H2 H3 _ _|c' x Hx -> _|_ Hn|c' k -> _|c' x rest (Hq & _ & Hs & _) _] Hw Hent.
  - destruct c; cbn in *; congruence.
  - rewrite queue_set in Hw. case_decide; [subst c'|done]. apply elem_of_app in Hw as [?|Hw]; [done|]. by apply list_elem_of_singleton in Hw as ->.
  - rewrite Hn in Hw. by apply not_elem_of_nil in Hw.
  - rewrite queue_set in Hw. case_decide; [subst c'|done]. eapply elem_of_sublist; [exact Hw|apply sublist_delete].
  - rewrite Hs in Hw. case_decide; [subst c'|done]. rewrite Hq. by right.
Qed.
(** The place of a waiter after a step: no later, and earlier by one after a grant of its class. *)
Lemma place_after policy s s' c n w :
  policy_ok policy → core_ok s → step_shape policy s s' → queue c (state s) !! n = Some w → w ∈ queue c (state s') →
  ∃ n', queue c (state s') !! n' = Some w ∧
    ((n' ≤ n)%nat ∧ granted s' = granted s ∧ same_counters (state s) (state s') ∨
     ∃ i c', n = (n' + if decide (c' = c) then 1 else 0)%nat ∧ granted s' = granted s ++ [(i, c')] ∧
       passes_over policy (state s) c' (state s')).
Proof.
  intros Hp Hok Hshape Hn Hw. pose proof (queue_ids_nodup s c Hok) as Hnd.
  destruct Hshape as [H1 H2 H3 Hc Hg|c' x Hx Hs Hg|Hnone _|c' k Hs Hg|c' x rest (Hq & _ & Hs & Hpass) Hg].
  - exists n. split; [destruct c; cbn in *; congruence|by left].
  - exists n. rewrite Hs, queue_set in Hw |- *. split; [|left; split; [done|]; split; [done|]; by destruct c'].
    case_decide; [subst c'|done]. by apply lookup_app_l_Some.
  - by rewrite Hnone, lookup_nil in Hn.
  - rewrite Hs, queue_set in Hw |- *. assert (same_counters (state s) (set_queue c' (delete k (queue c' (state s))) (state s))) as Hc by by destruct c'.
    case_decide; [subst c'|by exists n; eauto]. destruct (decide (n < k)%nat) as [Hlt|Hge].
    + exists n. rewrite list_lookup_delete_lt by done. eauto.
    + destruct (decide (n = k)) as [->|Hne].
      * exfalso. apply list_elem_of_lookup in Hw as [m Hm]. destruct (decide (m < k)%nat) as [Hmk|Hmk].
        -- rewrite list_lookup_delete_lt in Hm by done. pose proof (lookup_unique _ _ _ _ _ Hnd Hm Hn eq_refl). lia.
        -- rewrite list_lookup_delete_ge in Hm by lia. pose proof (lookup_unique _ _ _ _ _ Hnd Hm Hn eq_refl). lia.
      * exists (n - 1)%nat. rewrite list_lookup_delete_ge by lia. replace (S (n - 1)) with n by lia. split; [done|]. left. split; [lia|done].
  - specialize (Hpass Hp). rewrite Hs in Hw |- *. destruct (decide (c = c')) as [<-|Hne].
    + rewrite Hq in Hn, Hnd. destruct n as [|n].
      * exfalso. injection Hn as ->. apply NoDup_cons in Hnd as [Hnd _]. apply Hnd. by apply list_elem_of_fmap_2.
      * exists n. split; [done|]. right. exists (id x), c. rewrite decide_True by done. split; [lia|done].
    + exists n. split; [done|]. right. exists (id x), c'. rewrite decide_False by done. split; [lia|done].
Qed.

Definition count_class (c : SqliteWriteClass) (l : list (N * SqliteWriteClass)) : N := N.of_nat (length (of_class c l)).
Lemma count_class_snoc c l i c' : count_class c (l ++ [(i, c')]) = count_class c l + if decide (c' = c) then 1 else 0.
Proof. unfold count_class. rewrite of_class_app, of_class_one, length_app. case_decide; cbn; lia. Qed.
(** What the grants [l] used up of the patience of a waiter now at place [n], once at [n0]. *)
Record patience (policy : SqliteWritePolicy) (c : SqliteWriteClass) (st : AdmissionState) (n0 n : nat) (l : list (N * SqliteWriteClass)) : Prop := {
  own_class : count_class c l + N.of_nat n ≤ N.of_nat n0;
  for_maintenance : c = Maintenance →
    N.of_nat (length l) + N.of_nat n * (non_maintenance_burst policy + 1) + (non_maintenance_burst policy - consecutive_non_maintenance st)
    ≤ N.of_nat n0 * (non_maintenance_burst policy + 1) + non_maintenance_burst policy;
  for_interactive : c = Interactive →
    count_class Critical l + N.of_nat n * critical_burst policy + (critical_burst policy - consecutive_critical st)
    ≤ (N.of_nat n0 + 1 + count_class Maintenance l) * critical_burst policy;
}.
Ltac settle :=
  repeat first [rewrite decide_True in * by done|rewrite decide_False in * by done]; cbn [length] in *;
  rewrite ?Nat2N.inj_add, ?N.mul_add_distr_r in *; lia.
Lemma patience_grant policy c st st' n0 n l i c' :
  patience policy c st n0 (n + if decide (c' = c) then 1 else 0)%nat l → passes_over policy st c' st' → waits c st = true →
  patience policy c st' n0 n (l ++ [(i, c')]).
Proof.
  intros [Ho Hm Hi] (Hnm & Hcr & Hcr0 & Hnm0) Hw.
  split; [rewrite count_class_snoc; case_decide; lia|intros ->; specialize (Hm eq_refl); clear Hi|intros ->; specialize (Hi eq_refl); clear Hm];
    rewrite ?length_app, ?count_class_snoc; destruct c'.
  - destruct (Hnm Hw ltac:(done)) as [? ->]. settle.
  - destruct (Hnm Hw ltac:(done)) as [? ->]. settle.
  - rewrite Hnm0 by done. settle.
  - destruct (Hcr Hw eq_refl) as [? ->]. settle.
  - rewrite Hcr0 by done. settle.
  - rewrite Hcr0 by done. settle.
Qed.
Lemma patience_same policy c st st' n0 n n' l :
  patience policy c st n0 n l → (n' ≤ n)%nat → same_counters st st' → patience policy c st' n0 n' l.
Proof.
  intros [Ho Hm Hi] Hle [Hcr Hnm]. split; [lia|intros Hc; specialize (Hm Hc)|intros Hc; specialize (Hi Hc)].
  - rewrite Hnm. nia.
  - rewrite Hcr. nia.
Qed.
Lemma entered_grows policy s s' i : step policy s s' → i ∈ (entered s).*1 → i ∈ (entered s').*1.
Proof.
  assert (∀ o t, entered (granting o t) = entered t) as Hgr by (intros [st [[j r]|]] t; done).
  intros [a Ha] Hi. destruct a as [j c at_|j|j|j|j|j|j|j|d]; unfold_act; repeat (case_match; try done); simplify_result; try done.
  - cbn. rewrite fmap_app. apply elem_of_app. by left.
  - destruct r as [o|]; cbn; by rewrite ?Hgr.
  - cbn. by rewrite Hgr.
  - cbn. by rewrite Hgr.
Qed.

(** ** Progress: the owners of reservations move on, nobody arrives or gives up *)

Definition owner_step (policy : SqliteWritePolicy) (s s' : system) : Prop :=
  ∃ i a, a ∈ [DispatchSend i; Receive i; DropPermit i; Release i] ∧ act policy s a = Some (Ok s').
Lemma owner_is_step policy s s' : rtc (owner_step policy) s s' → rtc (step policy) s s'.
Proof. induction 1 as [|x y z (i & a & _ & Ha) _ IH]; [done|]. eapply rtc_l; [by exists a|done]. Qed.
Lemma owner_ok policy s s' : writer_ok s → rtc (owner_step policy) s s' → writer_ok s'.
Proof. intros Hok Hr%owner_is_step. eapply (invariant_rtc (step policy) writer_ok); [apply step_writer_ok|exact Hr|done]. Qed.
(** What the owners do until the writer is released leaves queues and grants alone. *)
Definition untouched (s s' : system) : Prop := state s' = state s ∧ granted s' = granted s.
Definition leaves (policy : SqliteWritePolicy) (s : system) : Prop :=
  ∃ s' i r started, rtc (owner_step policy) s s' ∧ untouched s s' ∧ reservations s' !! i = Some (r, Leaving started).
Lemma leaves_step policy s s1 i a :
  act policy s a = Some (Ok s1) → a ∈ [DispatchSend i; Receive i; DropPermit i; Release i] → untouched s s1 → leaves policy s1 → leaves policy s.
Proof.
  intros Ha Hin [Hs Hg] (s' & j & r & started & Hr & [Hs' Hg'] & Hj). exists s', j, r, started. split.
  - eapply rtc_l; [|done]. by exists i, a.
  - split; [|done]. split; congruence.
Qed.
Lemma leaves_owned policy s i r owners : reservations s !! i = Some (r, Owned owners) → leaves policy s.
Proof.
  revert s. induction owners as [owners IH] using (well_founded_induction N.lt_wf_0). intros s Hr.
  eapply (leaves_step policy s _ i (DropPermit i)); [unfold_act; by rewrite Hr|set_solver|done|].
  case_decide as Hn.
  - eexists _, i, r, true. split; [done|]. split; [done|]. cbn. apply lookup_insert_eq.
  - apply (IH (owners - 1)); [lia|]. cbn. apply lookup_insert_eq.
Qed.
Lemma writer_leaves policy s : writer_ok s → active (state s) = true → leaves policy s.
Proof.
  intros [Hok _] Hact. destruct (ok_active _ Hok) as [[? _]|[_ (i & [r at_] & Hres)]]; [congruence|].
  assert (reservations s !! i = Some (r, at_)) as Hr by (rewrite Hres; apply lookup_singleton_eq).
  assert (∀ t, reservations t !! i = Some (r, Sent) → requests t !! i = Some (class r, Awaiting) → leaves policy t) as Hsent.
  { intros t Ht Hq. eapply (leaves_step policy t _ i (Receive i)); [unfold_act; by rewrite Hq, Ht|set_solver|done|].
    apply (leaves_owned policy _ i r 1). cbn. apply lookup_insert_eq. }
  destruct at_ as [| |n|started].
  - destruct (decide (requests s !! i = Some (class r, Awaiting))) as [Hq|Hq].
    + eapply (leaves_step policy s _ i (DispatchSend i)); [unfold_act; rewrite Hr, Hq; done|set_solver|done|].
      apply Hsent; cbn; [apply lookup_insert_eq|done].
    + eapply (leaves_step policy s _ i (DispatchSend i)); [unfold_act; by rewrite Hr|set_solver|done|].
      eexists _, i, r, false. split; [done|]. split; [done|]. cbn. rewrite lookup_insert_eq.
      destruct (requests s !! i) as [[c []]|] eqn:Hreq; try done.
      pose proof (reservation_request _ _ _ _ _ _ Hok Hr Hreq) as ->. done.
  - apply Hsent; [done|]. by destruct (ok_reservation _ Hok _ _ _ Hr).
  - by eapply leaves_owned.
  - eexists s, i, r, started. done.
Qed.
(** A release hands the writer on. *)
Lemma handed_on policy s c w :
  writer_ok s → w ∈ queue c (state s) →
  ∃ s' x c', rtc (owner_step policy) s s' ∧ granted s' = granted s ++ [(id x, c')] ∧ waiting (state s) ≡ₚ (id x, c') :: waiting (state s') ∧
    ∀ d v, v ∈ queue d (state s) → v ∈ queue d (state s') ∨ v = x ∧ d = c'.
Proof.
  intros Hok Hw. assert (active (state s) = true) as Hact.
  { destruct (active (state s)) eqn:Ha; [done|]. destruct Hok as [_ Hidle]. rewrite (Hidle Ha) in Hw. by apply not_elem_of_nil in Hw. }
  destruct (writer_leaves policy s Hok Hact) as (s1 & i & r & started & Hr & [Hst Hg] & Hi). rewrite <-Hst in Hw, Hact |- *. rewrite <-Hg.
  destruct (grant_spec policy (clock s1) false ((state s1) <| active := false |>)) as (o & Ho & Hcase); [done..|].
  destruct Hcase as [[Hnone _]|(x & rest & st & r' & (Hq & _ & Hqs & _) & ->)];
    [|change (queue (class r') (state s1) = x :: rest) in Hq].
  { specialize (Hnone c). change (queue c (state s1) = []) in Hnone. rewrite Hnone in Hw. by apply not_elem_of_nil in Hw. }
  eexists _, x, (class r'). split; [eapply rtc_r; [exact Hr|]; exists i, (Release i); split; [set_solver|]|].
  { unfold_act. rewrite Hi. unfold release. rewrite Hact. cbn. cbn in Ho. rewrite Ho. cbn. reflexivity. }
  split; [done|]. split.
  - apply (waiting_queue (class r') (state s1) st x rest); [by rewrite Hq|exact Hqs].
  - intros d v Hv. cbn. rewrite Hqs. case_decide as Hd; [subst d|by left]. rewrite Hq in Hv. apply elem_of_cons in Hv as [->|Hv]; auto.
Qed.

(** ** Theorems *)

(** C5: the writer has one owner and never idles. However waiters arrive, give up
    and clone their permits, at most one reservation exists, the writer is marked
    active exactly while one does, nobody waits while it is free, and no operation
    panics or fails one of its debug assertions. *)
Theorem writer_exclusive policy s :
  reachable policy s →
  (∀ i j x y, reservations s !! i = Some x → reservations s !! j = Some y → i = j) ∧
  (active (state s) = true ↔ ∃ i x, reservations s !! i = Some x) ∧
  (∀ c w, w ∈ queue c (state s) → active (state s) = true) ∧
  (∀ a outcome, act policy s a = Some outcome → ∃ s', outcome = Ok s').
Proof.
  intros Hr. pose proof (reachable_writer_ok policy s Hr) as [Hok Hidle]. split_and!.
  - intros i j x y Hx Hy. by eapply one_reservation.
  - destruct (ok_active s Hok) as [[Ha He]|[Ha (i & x & He)]]; rewrite Ha, He; split; try done.
    + intros (i & x & Hx). by rewrite lookup_empty in Hx.
    + intros _. exists i, x. apply lookup_singleton_eq.
  - intros c w Hw. destruct (active (state s)) eqn:Ha; [done|]. rewrite (Hidle eq_refl) in Hw. by apply not_elem_of_nil in Hw.
  - intros a o Ha. destruct (act_ok policy s a o (conj Hok Hidle) Ha) as (s' & -> & _). by exists s'.
Qed.

(** every waiter is accounted for once and each class is first come, first
    served. Whoever entered a queue was granted the writer, withdrew or still
    waits, exactly one of these and once; those granted and those waiting of a
    class are in the order in which they entered its queue. *)
Theorem writer_serves_in_order policy s :
  reachable policy s →
  NoDup (entered s).*1 ∧ entered s ≡ₚ granted s ++ withdrawn s ++ waiting (state s) ∧
  ∀ c, of_class c (granted s) ++ (id <$> queue c (state s)) `sublist_of` of_class c (entered s).
Proof. intros Hr. destruct (reachable_writer_ok policy s Hr) as [[] _]. done. Qed.

(** the observer sees a whole life of every waiter, whatever the races between
    its cancellation and its grant: it is enqueued, and once it neither waits nor
    holds a reservation either a cancellation or an acquisition and a release
    followed, and nothing else. *)
Theorem writer_lifecycle_closes policy s i :
  reachable policy s → i ∈ (entered s).*1 →
  match reservations s !! i with
  | Some (r, Owned _) | Some (r, Leaving true) => events_of i (events s) = [Enqueued; Acquired (reason r)]
  | Some _ => events_of i (events s) = [Enqueued]
  | None => i ∈ (waiting (state s)).*1 ∧ events_of i (events s) = [Enqueued] ∨
            (i ∉ (waiting (state s)).*1) ∧ closed (events_of i (events s))
  end.
Proof.
  intros Hr Hi. destruct (reachable_writer_ok policy s Hr) as [Hok _]. pose proof (ok_events s Hok i) as Hev. unfold lifecycle in Hev.
  destruct (reservations s !! i) as [x|]; [done|]. destruct Hev as (H1 & H2 & _). apply entered_ids in Hi; [|done].
  destruct (decide (i ∈ (waiting (state s)).*1)) as [Hw|Hw]; [left; auto|right]. tauto.
Qed.

(** C23: nobody is passed over for ever. While a waiter keeps its place [n] in its
    queue or moves up, at most [n] others of its class are granted the writer; a
    maintenance waiter sees at most [n] maintenance grants with a burst of other
    grants before each and before its own; an interactive waiter sees at most a
    burst of critical grants per grant that is not critical. *)
Theorem writer_waits_bounded policy s s' c n w :
  policy_ok policy → reachable policy s → rtc (step policy) s s' →
  queue c (state s) !! n = Some w → w ∈ queue c (state s') →
  ∃ l, granted s' = granted s ++ l ∧ count_class c l ≤ N.of_nat n ∧
    (c = Maintenance → N.of_nat (length l) ≤ N.of_nat n * (non_maintenance_burst policy + 1) + non_maintenance_burst policy) ∧
    (c = Interactive → count_class Critical l ≤ (N.of_nat n + 1 + count_class Maintenance l) * critical_burst policy).
Proof.
  intros Hp Hr Hrun Hn Hin. pose proof (reachable_writer_ok policy s Hr) as Hok.
  assert (writer_ok s' ∧ id w ∈ (entered s').*1 ∧
    (w ∈ queue c (state s') → ∃ l m, granted s' = granted s ++ l ∧ queue c (state s') !! m = Some w ∧ patience policy c (state s') n m l))
    as (_ & _ & H).
  { clear Hin. revert s' Hrun. refine (rtc_ind_r _ s _ _); [|intros t t' Hrun Hstep (Hokt & Hent & IH)].
    - split; [done|]. split.
      + apply entered_ids; [by destruct Hok|]. right. right. apply (elem_fst _ c), elem_waiting. exists w.
        split; [by eapply list_elem_of_lookup_2|done].
      + intros _. exists [], n. rewrite app_nil_r. split; [done|]. split; [done|].
        split; change (count_class ?d []) with 0; [lia|intros _; cbn [length]; lia|intros _; lia].
    - pose proof (step_has_shape policy t t' Hokt Hstep) as Hshape. split; [by eapply step_writer_ok|].
      split; [by eapply entered_grows|]. intros Hw'.
      pose proof (came_from policy t t' c w Hshape Hw' Hent) as Hw. destruct (IH Hw) as (l & m & Hl & Hm & Hpat).
      destruct (place_after policy t t' c m w Hp (proj1 Hokt) Hshape Hm Hw') as (m' & Hm' & [(Hle & Hg & [Hc1 Hc2])|(i & c' & -> & Hg & Hpass)]).
      + exists l, m'. split; [congruence|]. split; [done|]. by eapply patience_same.
      + exists (l ++ [(i, c')]), m'. split; [by rewrite Hg, Hl, app_assoc|]. split; [done|]. eapply patience_grant; [done..|].
        apply waits_true. intros Hnil. rewrite Hnil in Hw. by apply not_elem_of_nil in Hw. }
  destruct (H Hin) as (l & m & Hl & _ & []). exists l. split; [done|]. split; [lia|].
  split; [intros Hc; specialize (for_maintenance0 Hc); lia|intros Hc; specialize (for_interactive0 Hc); lia].
Qed.

(** everybody is served. From every reachable state the owners of reservations
    alone, sending, receiving, dropping their permits and releasing, reach a state
    in which a given waiter has been granted the writer. *)
Theorem writer_reaches_everyone policy s c w :
  reachable policy s → w ∈ queue c (state s) → ∃ s', rtc (owner_step policy) s s' ∧ (id w, c) ∈ granted s'.
Proof.
  intros Hr. pose proof (reachable_writer_ok policy s Hr) as Hok. clear Hr.
  remember (length (waiting (state s))) as n eqn:Hlen. revert s Hok Hlen.
  induction n as [n IH] using lt_wf_ind. intros s Hok -> Hw.
  destruct (handed_on policy s c w Hok Hw) as (s1 & x & c' & Hrun & Hg & Hperm & Hstay).
  destruct (Hstay c w Hw) as [Hw1|[-> ->]].
  - destruct (IH (length (waiting (state s1)))) with s1 as (s' & Hrun' & Hin); try done.
    + rewrite Hperm. cbn. lia.
    + by eapply owner_ok.
    + exists s'. split; [by etrans|done].
  - exists s1. split; [done|]. rewrite Hg. apply elem_of_app. right. left.
Qed.

Module SampleWriter.
(** One waiter holds the writer while a maintenance and two critical ones arrive. *)
Definition arrivals : list action :=
  [Enqueue 1 Interactive 0; DispatchSend 1; Receive 1; Enqueue 2 Maintenance 0; Enqueue 3 Critical 0; Enqueue 4 Critical 0].
Definition hand_over (waiter next : N) : list action := [DropPermit waiter; Release waiter; DispatchSend next; Receive next].
Definition after (actions : list action) : system :=
  match run default_policy actions new with Some (Ok s) => s | _ => new end.
Definition contended : system := after arrivals.
Definition served : system := after (arrivals ++ hand_over 1 3).
Lemma contended_reachable : reachable default_policy contended.
Proof. apply (run_steps _ arrivals). vm_compute. reflexivity. Defined.
Example critical_first : granted served = [(1, Interactive); (3, Critical)].
Proof. vm_compute. reflexivity. Qed.
(** A maintenance waiter of two seconds comes before critical ones. *)
Example aged_maintenance_first : granted (after (arrivals ++ [Tick 2000] ++ hand_over 1 2)) = [(1, Interactive); (2, Maintenance)].
Proof. vm_compute. reflexivity. Qed.
(** A grant may meet a waiter that is giving up; the next one is served. *)
Example given_up :
  let s := after (arrivals ++ [CloseReceiver 3; DropPermit 1; Release 1; DispatchSend 3; Release 3; CancelWait 3]) in
  (granted s, events_of 3 (events s)) = ([(1, Interactive); (3, Critical); (4, Critical)], [Enqueued; Cancelled]).
Proof. vm_compute. reflexivity. Qed.

Lemma writer_exclusive_witness :
  (∀ i j x y, reservations served !! i = Some x → reservations served !! j = Some y → i = j) ∧
  (active (state served) = true ↔ ∃ i x, reservations served !! i = Some x) ∧
  (∀ c w, w ∈ queue c (state served) → active (state served) = true) ∧
  (∀ a outcome, act default_policy served a = Some outcome → ∃ s', outcome = Ok s').
Proof. apply (writer_exclusive default_policy), (run_steps _ (arrivals ++ hand_over 1 3)). vm_compute. reflexivity. Defined.
Lemma writer_serves_in_order_witness :
  NoDup (entered contended).*1 ∧ entered contended ≡ₚ granted contended ++ withdrawn contended ++ waiting (state contended) ∧
  ∀ c, of_class c (granted contended) ++ (id <$> queue c (state contended)) `sublist_of` of_class c (entered contended).
Proof. apply (writer_serves_in_order default_policy), contended_reachable. Defined.
Lemma writer_waits_bounded_witness :
  ∃ l, granted served = granted contended ++ l ∧ count_class Maintenance l ≤ N.of_nat 0 ∧
    (Maintenance = Maintenance → N.of_nat (length l) ≤
       N.of_nat 0 * (non_maintenance_burst default_policy + 1) + non_maintenance_burst default_policy) ∧
    (Maintenance = Interactive →
       count_class Critical l ≤ (N.of_nat 0 + 1 + count_class Maintenance l) * critical_burst default_policy).
Proof.
  apply (writer_waits_bounded default_policy contended served Maintenance 0 {| id := 2; enqueued_at := 0 |}).
  - by split.
  - apply contended_reachable.
  - apply (run_steps _ (hand_over 1 3)). vm_compute. reflexivity.
  - vm_compute. reflexivity.
  - apply (bool_decide_unpack _). vm_compute. exact I.
Defined.
Lemma writer_reaches_everyone_witness :
  ∃ s', rtc (owner_step default_policy) contended s' ∧ (2, Maintenance) ∈ granted s'.
Proof.
  apply (writer_reaches_everyone default_policy contended Maintenance {| id := 2; enqueued_at := 0 |}).
  - apply contended_reachable.
  - apply (bool_decide_unpack _). vm_compute. exact I.
Defined.
Lemma writer_lifecycle_closes_witness :
  match reservations served !! 1 with
  | Some (r, Owned _) | Some (r, Leaving true) => events_of 1 (events served) = [Enqueued; Acquired (reason r)]
  | Some _ => events_of 1 (events served) = [Enqueued]
  | None => 1 ∈ (waiting (state served)).*1 ∧ events_of 1 (events served) = [Enqueued] ∨
            (1 ∉ (waiting (state served)).*1) ∧ closed (events_of 1 (events served))
  end.
Proof.
  apply (writer_lifecycle_closes default_policy).
  - apply (run_steps _ (arrivals ++ hand_over 1 3)). vm_compute. reflexivity.
  - apply (bool_decide_unpack _). vm_compute. exact I.
Defined.
End SampleWriter.
