(* ===== verification/ToolFingerprint.v ===== *)
(** * Fingerprints of tool arguments

    Models [normalized_arguments_fingerprint] and [canonical_json_fingerprint]
    of [crates/tools/src/retry_controller.rs]: the text under which two
    invocations of a tool count as the same. Parsing JSON, printing a number
    and quoting a string are serde_json's, the interface [JsonText]. *)
From S2P Require Import Prelude Ordered Json.
Local Open Scope N_scope.

Class JsonText (Number : Type) := {
  from_str : text → option (Json Number);
  number_text : Number → text;
  quote : text → text;
}.

Definition comma : text := [44].
Definition intercalate (sep : text) (l : list text) : text :=
  match l with [] => [] | x :: l => x ++ mjoin ((λ y, sep ++ y) <$> l) end.

Section fingerprint.
Context `{JsonText Number}.

Fixpoint canonical_json_fingerprint (value : Json Number) : text :=
  match value with
  | JNull => lit "null"
  | JBool b => if b then lit "true" else lit "false"
  | JNumber n => number_text n
  | JString s => quote s
  | JArray items => lit "[" ++ intercalate comma (canonical_json_fingerprint <$> items) ++ lit "]"
  | JObject members =>
      let rendered := (λ m, (m.1, canonical_json_fingerprint m.2)) <$> members in
      lit "{" ++ intercalate comma ((λ m, quote m.1 ++ lit ":" ++ m.2) <$> sort_on fst rendered) ++ lit "}"
  end.

Definition normalized_arguments_fingerprint (arguments : text) : text :=
  match from_str arguments with
  | Some value => canonical_json_fingerprint value
  | None => trim arguments
  end.

(** ** Specification *)

(** The value with the members of every object in the order of their keys. *)
Fixpoint canon (value : Json Number) : Json Number :=
  match value with
  | JArray items => JArray (canon <$> items)
  | JObject members => JObject (sort_on fst ((λ m, (m.1, canon m.2)) <$> members))
  | v => v
  end.

(** The text of a value with its members as they come. *)
Fixpoint render (value : Json Number) : text :=
  match value with
  | JNull => lit "null"
  | JBool b => if b then lit "true" else lit "false"
  | JNumber n => number_text n
  | JString s => quote s
  | JArray items => lit "[" ++ intercalate comma (render <$> items) ++ lit "]"
  | JObject members => lit "{" ++ intercalate comma ((λ m, quote m.1 ++ lit ":" ++ render m.2) <$> members) ++ lit "}"
  end.

Definition number_char (c : N) : bool :=
  bool_decide ((48 ≤ c ∧ c ≤ 57) ∨ c = 43 ∨ c = 45 ∨ c = 46 ∨ c = 69 ∨ c = 101).
(** What may follow a value. *)
Definition ends (r : text) : Prop := match r with [] => True | c :: _ => number_char c = false end.
End fingerprint.

(** JSON strings are delimited by quotes and quoting is injective; a number
    prints as a nonempty text of number characters, different for different
    numbers. *)
Class JsonTextLaws Number `{JsonText Number} := {
  quote_delimits s s' r r' : quote s ++ r = quote s' ++ r' → s = s' ∧ r = r';
  quote_head s : head (quote s) = Some 34;
  number_nonempty n : number_text n ≠ [];
  number_chars n : Forall (λ c, number_char c = true) (number_text n);
  number_inj n n' : number_text n = number_text n' → n = n';
}.

(** ** The fingerprint is the text of the canonical value *)
Lemma sort_on_fmap {K A B} `{Ordered K} (f : A → B) (key : B → K) (l : list A) :
  sort_on key (f <$> l) = f <$> sort_on (key ∘ f) l.
Proof.
  assert (∀ e k, insert_on key (f e) (f <$> k) = f <$> insert_on (key ∘ f) e k) as Hins.
  { intros e k. induction k as [|d k IH]; [done|]. cbn [insert_on fmap list_fmap].
    destruct (decide (key_leq (key ∘ f) e d)) as [Hle|Hle]; [by rewrite decide_True|].
    rewrite decide_False by done. cbn [fmap list_fmap]. f_equal. exact IH. }
  induction l as [|e l IH]; [done|]. cbn [sort_on foldr fmap list_fmap].
  fold (sort_on key (f <$> l)). by rewrite IH, Hins.
Qed.
Lemma sort_on_ext {K A} `{Ordered K} (key key' : A → K) (l : list A) :
  (∀ x, key x = key' x) → sort_on key l = sort_on key' l.
Proof.
  intros Hext.
  assert (∀ e k, insert_on key e k = insert_on key' e k) as Hins.
  { intros e k. induction k as [|d k IH]; [done|]. cbn [insert_on]. rewrite IH.
    apply decide_ext. unfold key_leq. by rewrite (Hext e), (Hext d). }
  induction l as [|e l IH]; [done|]. cbn [sort_on foldr]. fold (sort_on key l). by rewrite IH, Hins.
Qed.

Section proofs.
Context `{JsonTextLaws Number}.

Lemma fingerprint_render v : canonical_json_fingerprint v = render (canon v).
Proof using Type.
  induction v as [|b|n|s|items IH|members IH] using json_induction; try done.
  - cbn [canonical_json_fingerprint render canon]. do 3 f_equal. rewrite <-list_fmap_compose.
    apply list_fmap_ext. intros i v Hv. by apply (Forall_lookup_1 _ _ i v IH).
  - cbn [canonical_json_fingerprint render canon]. do 3 f_equal. rewrite !sort_on_fmap.
    rewrite !(sort_on_ext (fst ∘ _) fst) by done. rewrite <-!list_fmap_compose.
    apply list_fmap_ext. intros i m Hm. unfold compose; cbn [fst snd]. do 2 f_equal.
    apply (Forall_lookup_1 (λ m, canonical_json_fingerprint m.2 = render (canon m.2)) (sort_on fst members) i m); [|done].
    by rewrite (sort_on_perm fst members).
Qed.

(** ** Rendering loses nothing *)

(** The kind of a value and the kind its first character tells. *)
Definition value_kind (v : Json Number) : nat :=
  match v with JNull => 0 | JBool true => 1 | JBool false => 2 | JNumber _ => 3 | JString _ => 4 | JArray _ => 5 | JObject _ => 6 end.
Definition char_kind (c : N) : nat :=
  if decide (c = 110) then 0 else if decide (c = 116) then 1 else if decide (c = 102) then 2
  else if decide (c = 34) then 4 else if decide (c = 91) then 5 else if decide (c = 123) then 6 else 3.

Lemma number_char_kind c : number_char c = true → char_kind c = 3%nat.
Proof. unfold number_char, char_kind. rewrite bool_decide_eq_true. intros. repeat case_decide; lia. Qed.
Lemma render_head v : ∃ c t, render v = c :: t ∧ char_kind c = value_kind v ∧ c ≠ 93 ∧ c ≠ 125.
Proof.
  destruct v as [|[]|n|s|items|members].
  1-3: by eexists _, _.
  - pose proof (number_nonempty n) as Hne. pose proof (number_chars n) as Hc. cbn [render].
    destruct (number_text n) as [|c t]; [done|]. exists c, t. apply Forall_cons in Hc as [Hc _].
    split; [done|]. split; [by apply number_char_kind|]. unfold number_char in Hc. rewrite bool_decide_eq_true in Hc. lia.
  - pose proof (quote_head s) as Hq. cbn [render]. destruct (quote s) as [|c t]; [done|]. injection Hq as ->. by eexists _, _.
  - by eexists _, _.
  - by eexists _, _.
Qed.
Lemma render_kind v w r r' : render v ++ r = render w ++ r' → value_kind v = value_kind w.
Proof.
  destruct (render_head v) as (c & t & -> & <- & _), (render_head w) as (d & u & -> & <- & _). by intros [= -> _].
Qed.

Lemma number_delimits n n' r r' :
  number_text n ++ r = number_text n' ++ r' → ends r → ends r' → n = n' ∧ r = r'.
Proof.
  intros Heq Hr Hr'. cut (number_text n = number_text n' ∧ r = r'); [intros [Hn ->]; split; [by apply number_inj|done]|].
  pose proof (number_chars n) as H1. pose proof (number_chars n') as H2.
  revert Heq H1 H2. generalize (number_text n) as l, (number_text n') as l'. clear n n'.
  induction l as [|c l IH]; intros [|c' l']; cbn [app]; intros Heq H1 H2; [done| | |].
  - subst r. apply Forall_cons in H2 as [H2 _]. cbn in Hr. congruence.
  - subst r'. apply Forall_cons in H1 as [H1 _]. cbn in Hr'. congruence.
  - injection Heq as -> Heq. apply Forall_cons in H1 as [_ H1], H2 as [_ H2].
    destruct (IH l' Heq H1 H2) as [-> ->]. done.
Qed.

(** A sequence of delimited pieces up to a closing character is read uniquely. *)
Lemma intercalate_inj {A} (f : A → text) (close : N) (l l' : list A) r r' :
  close ≠ 44 → number_char close = false → (∀ x, ∃ c t, f x = c :: t ∧ c ≠ close) →
  Forall (λ x, ∀ y s s', f x ++ s = f y ++ s' → ends s → ends s' → x = y ∧ s = s') l →
  intercalate comma (f <$> l) ++ close :: r = intercalate comma (f <$> l') ++ close :: r' → l = l' ∧ r = r'.
Proof.
  intros Hcomma Hclose Hhead HF.
  set (rest := λ k : list A, mjoin ((λ y, comma ++ y) <$> (f <$> k))).
  assert (∀ k (q : text), ends (rest k ++ close :: q)) as Hends.
  { intros [|x k] q; [done|]. cbn. done. }
  assert (∀ l, Forall (λ x, ∀ y s s', f x ++ s = f y ++ s' → ends s → ends s' → x = y ∧ s = s') l →
    ∀ l', rest l ++ close :: r = rest l' ++ close :: r' → l = l' ∧ r = r') as Hrest.
  { clear l l' HF. intros l HF. induction HF as [|x l Hx HF IH]; intros [|y l'] Heq.
    - by injection Heq as ->.
    - exfalso. apply Hcomma. by injection Heq.
    - exfalso. apply Hcomma. by injection Heq.
    - cbn [rest fmap list_fmap mjoin list_join comma app] in Heq. injection Heq as Heq. rewrite <-!app_assoc in Heq.
      apply Hx in Heq as [-> Heq]; [|apply Hends..]. destruct (IH l' Heq) as [-> ->]. done. }
  destruct HF as [|x l Hx HF], l' as [|y l']; cbn [fmap list_fmap intercalate]; intros Heq.
  - by injection Heq as ->.
  - exfalso. destruct (Hhead y) as (c & t & Hy & Hc). rewrite Hy in Heq. injection Heq as Heq _. congruence.
  - exfalso. destruct (Hhead x) as (c & t & Hy & Hc). rewrite Hy in Heq. injection Heq as Heq _. congruence.
  - rewrite <-!app_assoc in Heq. apply Hx in Heq as [-> Heq]; [|apply Hends..].
    destruct (Hrest l HF l' Heq) as [-> ->]. done.
Qed.

Lemma render_inj v : ∀ w r r', render v ++ r = render w ++ r' → ends r → ends r' → v = w ∧ r = r'.
Proof.
  induction v as [|b|n|s|items IH|members IH] using json_induction; intros w r r' Heq Hr Hr';
    pose proof (render_kind _ _ _ _ Heq) as Hk.
  - destruct w as [|[]| | | |]; try discriminate Hk. by injection Heq as ->.
  - destruct b, w as [|[]| | | |]; try discriminate Hk; by injection Heq as ->.
  - destruct w as [|[]| | | |]; try discriminate Hk. by destruct (number_delimits _ _ _ _ Heq Hr Hr') as [-> ->].
  - destruct w as [|[]| | | |]; try discriminate Hk. by destruct (quote_delimits _ _ _ _ Heq) as [-> ->].
  - destruct w as [|[]| | |items'|]; try discriminate Hk. cbn [render lit] in Heq.
    injection Heq as Heq. rewrite <-!app_assoc in Heq.
    apply (intercalate_inj render 93 items items') in Heq as [-> ->]; [done|done|done| |exact IH].
    intros x. destruct (render_head x) as (c & t & -> & _ & Hc & _). by exists c, t.
  - destruct w as [|[]| | | |members']; try discriminate Hk. cbn [render lit] in Heq.
    injection Heq as Heq. rewrite <-!app_assoc in Heq.
    apply (intercalate_inj (λ m, quote m.1 ++ lit ":" ++ render m.2) 125 members members') in Heq as [-> ->]; [done|done|done| |].
    + intros m. pose proof (quote_head m.1) as Hq. destruct (quote m.1) as [|c t]; [done|]. injection Hq as ->. by eexists _, _.
    + eapply Forall_impl; [exact IH|]. intros [k v] Hv [k' v'] s s' He Hs Hs'. cbn [fst snd] in *.
      rewrite <-!app_assoc in He. apply quote_delimits in He as [-> He]. injection He as He.
      destruct (Hv v' s s' He Hs Hs') as [-> ->]. done.
Qed.

Lemma fingerprint_canon v w : canonical_json_fingerprint v = canonical_json_fingerprint w ↔ canon v = canon w.
Proof.
  rewrite !fingerprint_render. split; [|by intros ->]. intros Heq.
  destruct (render_inj (canon v) (canon w) [] []) as [? _]; [by rewrite Heq|done|done|done].
Qed.

(** a fingerprint identifies the arguments up to the order of object members.
    Two texts that parse have the same fingerprint exactly when their values are
    the same once the members of every object are in the order of their keys;
    in particular the order in which an object's members arrive never matters. *)
Theorem fingerprint_identifies (a b : text) (v w : Json Number) :
  from_str a = Some v → from_str b = Some w →
  (normalized_arguments_fingerprint a = normalized_arguments_fingerprint b ↔ canon v = canon w) ∧
  (∀ l l' : list (text * Json Number), NoDup (fst <$> l) → l ≡ₚ l' → canon (JObject l) = canon (JObject l')).
Proof.
  intros Ha Hb. unfold normalized_arguments_fingerprint. rewrite Ha, Hb. split; [apply fingerprint_canon|].
  intros l l' Hnd Hp. cbn [canon]. f_equal. apply sort_on_unique; [|by rewrite Hp].
  rewrite <-list_fmap_compose. exact Hnd.
Qed.
End proofs.

(** ** A concrete text format: the numbers zero and one, and escaped strings *)
Module SampleText.
Definition escape (c : N) : text := if bool_decide (c = 34 ∨ c = 92) then [92; c] else [c].
Definition sample_quote (s : text) : text := 34 :: (s ≫= escape) ++ [34].
Definition sample_a : text := lit "{b: 1, a: 0}".
Definition sample_b : text := lit "{a: 0, b: 1}".
Definition sample_object (l : list (string * bool)) : Json bool := JObject ((λ m, (lit m.1, JNumber m.2)) <$> l).
#[export] Instance sample_text : JsonText bool := {
  from_str t :=
    if decide (t = sample_a) then Some (sample_object [("b", true); ("a", false)])
    else if decide (t = sample_b) then Some (sample_object [("a", false); ("b", true)]) else None;
  number_text b := if b then lit "1" else lit "0";
  quote := sample_quote;
}.
Lemma escape_delimits s s' r r' :
  (s ≫= escape) ++ 34 :: r = (s' ≫= escape) ++ 34 :: r' → s = s' ∧ r = r'.
Proof.
  assert (∀ c, escape c = [92; c] ∧ (c = 34 ∨ c = 92) ∨ escape c = [c] ∧ c ≠ 34 ∧ c ≠ 92) as Hescape.
  { intros c. unfold escape. case_bool_decide; [left|right]; split; tauto || done. }
  revert s'; induction s as [|c s IH]; intros [|d s']; cbn [mbind list_bind app].
  - by intros [= ->].
  - destruct (Hescape d) as [[-> _]|(-> & ? & ?)]; cbn; intros [= ? _]; lia.
  - destruct (Hescape c) as [[-> _]|(-> & ? & ?)]; cbn; intros [= ? _]; lia.
  - destruct (Hescape c) as [[-> _]|(-> & ? & ?)], (Hescape d) as [[-> _]|(-> & ? & ?)]; cbn; intros Heq; injection Heq as Heq1 Heq;
      try lia; subst; by apply IH in Heq as [-> ->].
Qed.
#[export] Instance sample_laws : JsonTextLaws bool.
Proof.
  split.
  - intros s s' r r' Heq. injection Heq as Heq. rewrite <-!app_assoc in Heq. by apply escape_delimits.
  - done.
  - by intros [].
  - intros []; repeat constructor.
  - by intros [] [].
Qed.
End SampleText.
Import SampleText.

Lemma fingerprint_identifies_witness :
  normalized_arguments_fingerprint sample_a = normalized_arguments_fingerprint sample_b.
Proof.
  destruct (fingerprint_identifies sample_a sample_b (sample_object [("b", true); ("a", false)])
    (sample_object [("a", false); ("b", true)])) as [H _]; [vm_compute; reflexivity..|].
  apply H. vm_compute. reflexivity.
Defined.
