(* ===== verification/ToolRetry.v ===== *)
(** * Retries of failed tools

    Models [crates/tools/src/retry_controller.rs]: one decision per batch of
    tool outcomes. Failures that may be retried are counted in an episode, per
    tool and per failure signature, until a budget is exhausted or no failure is
    left. A [HashMap] is a [gmap], a [u32] an [N] whose increments saturate. *)
From S2P Require Import Prelude Ordered Json ToolFingerprint.
Local Open Scope N_scope.

(** ** Outcomes ([context.rs], [output_policy.rs]) *)
Inductive ToolErrorClass :=
  | InvalidArguments | NotFound | ToolNotVisible | PermissionDenied | CommandNotFound | Timeout
  | Cancelled | ExecutionFailed | NeedsNarrowing | Internal | OutputTruncated | Unknown.
#[export] Instance ToolErrorClass_eq_dec : EqDecision ToolErrorClass.
Proof. solve_decision. Defined.
Definition error_class_code (c : ToolErrorClass) : string :=
  match c with
  | InvalidArguments => "invalid_arguments"
  | NotFound => "not_found"
  | ToolNotVisible => "tool_not_visible"
  | PermissionDenied => "permission_denied"
  | CommandNotFound => "command_not_found"
  | Timeout => "timeout"
  | Cancelled => "cancelled"
  | ExecutionFailed => "execution_failed"
  | NeedsNarrowing => "needs_narrowing"
  | Internal => "internal"
  | OutputTruncated => "output_truncated"
  | Unknown => "unknown"
  end.
Definition all_classes : list ToolErrorClass :=
  [InvalidArguments; NotFound; ToolNotVisible; PermissionDenied; CommandNotFound; Timeout;
   Cancelled; ExecutionFailed; NeedsNarrowing; Internal; OutputTruncated; Unknown].
Definition class_of_code (s : string) : option ToolErrorClass :=
  head (filter (λ c, error_class_code c = s) all_classes).
#[export] Instance ToolErrorClass_countable : Countable ToolErrorClass.
Proof. refine (inj_countable error_class_code class_of_code _). by intros []. Defined.

Inductive ToolOutcomeStatus := StatusOk | RecoverableError | FatalError | PartialSuccess.
#[export] Instance ToolOutcomeStatus_eq_dec : EqDecision ToolOutcomeStatus.
Proof. solve_decision. Defined.
Record ToolOutcome := {
  status : ToolOutcomeStatus; error_class : option ToolErrorClass; should_retry : bool;
  outcome_retry_hint : option text; incomplete : bool; incomplete_reason : option text;
}.
(** The field of [ToolRecoveryView] the controller reads. *)
Record ToolRecoveryView := { recovery_retry_hint : option text }.
Record ToolRetryObservation := {
  item_id : text; item_type : text; attempt_number : N; tool_name : text; arguments : text;
  success : bool; outcome : ToolOutcome; recovery_view : option ToolRecoveryView;
  model_visible_text : text;
}.

(** ** Budgets *)
Record ToolRetryBudgetConfig := {
  max_recoverable_retry_rounds_per_episode : N;
  max_same_tool_error_retries_per_episode : N;
  max_retries_per_tool_name_per_episode : N;
}.
Definition default_retry_budget : ToolRetryBudgetConfig :=
  {| max_recoverable_retry_rounds_per_episode := 32;
     max_same_tool_error_retries_per_episode := 3;
     max_retries_per_tool_name_per_episode := 16 |}.
Definition normalized_budget (b : ToolRetryBudgetConfig) : ToolRetryBudgetConfig :=
  {| max_recoverable_retry_rounds_per_episode := N.max (max_recoverable_retry_rounds_per_episode b) 1;
     max_same_tool_error_retries_per_episode := N.max (max_same_tool_error_retries_per_episode b) 1;
     max_retries_per_tool_name_per_episode := N.max (max_retries_per_tool_name_per_episode b) 1 |}.
Definition default_tool_retry_class_budgets : list (ToolErrorClass * N) :=
  [(InvalidArguments, 3); (NotFound, 2); (ToolNotVisible, 1); (CommandNotFound, 2); (Timeout, 2);
   (Cancelled, 1); (ExecutionFailed, 2); (NeedsNarrowing, 0); (Internal, 0); (OutputTruncated, 3); (Unknown, 1)].

Record ToolFailureSignature := {
  signature_tool : text; arguments_fingerprint : text; signature_class : ToolErrorClass;
}.
#[export] Instance ToolFailureSignature_eq_dec : EqDecision ToolFailureSignature.
Proof. solve_decision. Defined.
#[export] Instance ToolFailureSignature_countable : Countable ToolFailureSignature.
Proof.
  refine (inj_countable' (λ s, (signature_tool s, arguments_fingerprint s, signature_class s))
            (λ '(a, b, c), Build_ToolFailureSignature a b c) _); by intros [].
Defined.

(** ** Decisions *)
Record ToolRetryPromptEntry := {
  entry_item_id : text; entry_item_type : text; entry_attempt : N; entry_tool : text;
  entry_class : ToolErrorClass; entry_hint : text; entry_fingerprint : text;
  episode_retry_used : N; episode_retry_limit : N;
  class_retry_used : N; class_retry_limit : N;
  tool_retry_used : N; tool_retry_limit : N;
  signature_retry_used : N; signature_retry_limit : N;
}.
Inductive ToolRetryBudgetKind := KindEpisode | KindErrorClass | KindToolName | KindFailureSignature.
Record ToolRetryBudgetUsage := { usage_kind : ToolRetryBudgetKind; used : N; limit : N }.
Inductive ToolRetryExhaustionReason :=
  | TotalRetryRounds (used limit : N)
  | ErrorClass (class : ToolErrorClass) (used limit : N)
  | ToolName (tool : text) (used limit : N)
  | FailureSignature (signature : ToolFailureSignature) (used limit : N).
Definition reason_kind (r : ToolRetryExhaustionReason) : ToolRetryBudgetKind :=
  match r with
  | TotalRetryRounds _ _ => KindEpisode
  | ErrorClass _ _ _ => KindErrorClass
  | ToolName _ _ _ => KindToolName
  | FailureSignature _ _ _ => KindFailureSignature
  end.
Definition budget_usages (e : ToolRetryPromptEntry) : list ToolRetryBudgetUsage :=
  [{| usage_kind := KindEpisode; used := episode_retry_used e; limit := episode_retry_limit e |};
   {| usage_kind := KindErrorClass; used := class_retry_used e; limit := class_retry_limit e |};
   {| usage_kind := KindToolName; used := tool_retry_used e; limit := tool_retry_limit e |};
   {| usage_kind := KindFailureSignature; used := signature_retry_used e; limit := signature_retry_limit e |}].

Inductive ToolRetryResolution := Succeeded | NonRetryable.
Record ToolRetryResolvedEntry := {
  resolved_item_id : text; resolved_item_type : text; resolved_attempt : N; resolved_tool : text;
  resolution : ToolRetryResolution; budgets : list ToolRetryBudgetUsage; reason : string;
}.
Record ToolRetryEpisodeState := {
  total_retry_rounds : N;
  by_tool_name : gmap text N;
  by_failure_signature : gmap ToolFailureSignature N;
}.
Definition default_episode : ToolRetryEpisodeState :=
  {| total_retry_rounds := 0; by_tool_name := ∅; by_failure_signature := ∅ |}.
Inductive ToolRetryEventDraft :=
  | Scheduled (entries : list ToolRetryPromptEntry)
  | Resolved (episode : ToolRetryEpisodeState) (entries : list ToolRetryResolvedEntry)
  | ExhaustedDraft (entries : list ToolRetryPromptEntry) (reason : ToolRetryExhaustionReason).
Inductive ToolRetryDecision :=
  | NoRetry (drafts : list ToolRetryEventDraft)
  | Retry (entries : list ToolRetryPromptEntry) (drafts : list ToolRetryEventDraft)
  | Exhausted (entries : list ToolRetryPromptEntry) (reason : ToolRetryExhaustionReason)
      (drafts : list ToolRetryEventDraft).

Record ToolRetryController := {
  budget : ToolRetryBudgetConfig;
  class_limits : gmap ToolErrorClass N;
  active_episode : option ToolRetryEpisodeState;
}.
#[export] Instance ToolRetryController_fields : Fields ToolRetryController := λ c,
  {| budget := budget c; class_limits := class_limits c; active_episode := active_episode c |}.
Definition with_class_budgets (b : ToolRetryBudgetConfig) (class_budgets : list (ToolErrorClass * N))
    : ToolRetryController :=
  {| budget := normalized_budget b;
     class_limits := foldl (λ m cb, <[cb.1 := cb.2]> m) ∅ class_budgets;
     active_episode := None |}.
Definition new_controller (b : ToolRetryBudgetConfig) : ToolRetryController :=
  with_class_budgets b default_tool_retry_class_budgets.

(** ** Candidates *)
Record RetryCandidate := {
  candidate_item_id : text; candidate_item_type : text; candidate_attempt : N; candidate_tool : text;
  candidate_class : ToolErrorClass; retry_hint : text; signature : ToolFailureSignature;
}.

Section candidates.
Context `{JsonText Number}.

Definition from_arguments (tool arguments : text) (class : ToolErrorClass) : ToolFailureSignature :=
  {| signature_tool := tool; arguments_fingerprint := normalized_arguments_fingerprint arguments;
     signature_class := class |}.
Definition from_observation (o : ToolRetryObservation) : option RetryCandidate :=
  let class := default Unknown (error_class (outcome o)) in
  if success o || negb (should_retry (outcome o)) || bool_decide (class = PermissionDenied)
     || negb (bool_decide (status (outcome o) = RecoverableError ∨ status (outcome o) = PartialSuccess))
  then None
  else Some
    {| candidate_item_id := item_id o; candidate_item_type := item_type o;
       candidate_attempt := attempt_number o; candidate_tool := tool_name o; candidate_class := class;
       retry_hint :=
         match recovery_view o ≫= recovery_retry_hint with
         | Some hint => hint
         | None => default (lit "retry with corrected arguments") (outcome_retry_hint (outcome o))
         end;
       signature := from_arguments (tool_name o) (arguments o) class |}.
Definition sort_key (c : RetryCandidate) : text * (text * (string * (text * N))) :=
  (candidate_tool c, (arguments_fingerprint (signature c), (error_class_code (candidate_class c),
    (candidate_item_id c, candidate_attempt c)))).
Definition candidates_of (observations : list ToolRetryObservation) : list RetryCandidate :=
  omap from_observation observations.
End candidates.

(** ** The controller *)
Definition class_limit (c : ToolRetryController) (class : ToolErrorClass) : N :=
  default 1 (class_limits c !! class).
Definition count_of {K} `{Countable K} (m : gmap K N) (k : K) : N := default 0 (m !! k).
Definition tool_used (e : ToolRetryEpisodeState) (tool : text) : N := count_of (by_tool_name e) tool.
Definition signature_used (e : ToolRetryEpisodeState) (s : ToolFailureSignature) : N :=
  count_of (by_failure_signature e) s.

Definition prompt_entry (c : ToolRetryController) (e : ToolRetryEpisodeState) (d : RetryCandidate)
    : ToolRetryPromptEntry :=
  {| entry_item_id := candidate_item_id d; entry_item_type := candidate_item_type d;
     entry_attempt := candidate_attempt d; entry_tool := candidate_tool d; entry_class := candidate_class d;
     entry_hint := retry_hint d; entry_fingerprint := arguments_fingerprint (signature d);
     episode_retry_used := total_retry_rounds e;
     episode_retry_limit := max_recoverable_retry_rounds_per_episode (budget c);
     class_retry_used := signature_used e (signature d); class_retry_limit := class_limit c (candidate_class d);
     tool_retry_used := tool_used e (candidate_tool d);
     tool_retry_limit := max_retries_per_tool_name_per_episode (budget c);
     signature_retry_used := signature_used e (signature d);
     signature_retry_limit := max_same_tool_error_retries_per_episode (budget c) |}.

Definition resolved_entry (c : ToolRetryController) (e : ToolRetryEpisodeState) (r : ToolRetryResolution)
    (reason : string) (o : ToolRetryObservation) : ToolRetryResolvedEntry :=
  {| resolved_item_id := item_id o; resolved_item_type := item_type o; resolved_attempt := attempt_number o;
     resolved_tool := tool_name o; resolution := r;
     budgets :=
       [{| usage_kind := KindEpisode; used := total_retry_rounds e;
           limit := max_recoverable_retry_rounds_per_episode (budget c) |};
        {| usage_kind := KindToolName; used := tool_used e (tool_name o);
           limit := max_retries_per_tool_name_per_episode (budget c) |}];
     reason := reason |}.
Definition resolved_key (r : ToolRetryResolvedEntry) : text * (text * N) :=
  (resolved_tool r, (resolved_item_id r, resolved_attempt r)).
Definition resolved_entries (c : ToolRetryController) (observations : list ToolRetryObservation)
    (e : ToolRetryEpisodeState) (reason : string) : list ToolRetryResolvedEntry :=
  let r := if existsb success observations then Succeeded else NonRetryable in
  let concerned o := match r with Succeeded => success o | NonRetryable => negb (success o) end in
  sort_on resolved_key (resolved_entry c e r reason <$> filter (λ o, concerned o = true) observations).

Definition exhausted_and_close (c : ToolRetryController) (entries : list ToolRetryPromptEntry)
    (r : ToolRetryExhaustionReason) : ToolRetryDecision * ToolRetryController :=
  (Exhausted entries r [ExhaustedDraft entries r], c <| active_episode := None |>).

(** One candidate against the projected counters. *)
Definition project_candidate (c : ToolRetryController)
    (projected : gmap text N * gmap ToolFailureSignature N) (d : RetryCandidate)
    : result ToolRetryExhaustionReason (gmap text N * gmap ToolFailureSignature N) :=
  let signature_used := count_of projected.2 (signature d) in
  let class_limit := class_limit c (candidate_class d) in
  let class_next := signature_used +₃₂ 1 in
  ensure (bool_decide (class_next ≤ class_limit)) (ErrorClass (candidate_class d) (class_next - 1) class_limit);;
  let tool_limit := max_retries_per_tool_name_per_episode (budget c) in
  let tool_next := count_of projected.1 (candidate_tool d) +₃₂ 1 in
  ensure (bool_decide (tool_next ≤ tool_limit)) (ToolName (candidate_tool d) (tool_next - 1) tool_limit);;
  let same_limit := max_same_tool_error_retries_per_episode (budget c) in
  let signature_next := signature_used +₃₂ 1 in
  ensure (bool_decide (signature_next ≤ same_limit)) (FailureSignature (signature d) (signature_next - 1) same_limit);;
  Ok (<[candidate_tool d := tool_next]> projected.1, <[signature d := signature_next]> projected.2).

Definition increment {K} `{Countable K} (m : gmap K N) (k : K) : gmap K N := <[k := count_of m k +₃₂ 1]> m.
Definition consume (e : ToolRetryEpisodeState) (ds : list RetryCandidate) : ToolRetryEpisodeState :=
  {| total_retry_rounds := total_retry_rounds e +₃₂ 1;
     by_tool_name := foldl (λ m d, increment m (candidate_tool d)) (by_tool_name e) ds;
     by_failure_signature := foldl (λ m d, increment m (signature d)) (by_failure_signature e) ds |}.

Section decide.
Context `{JsonText Number}.

Definition decide_retry (c : ToolRetryController) (observations : list ToolRetryObservation)
    : ToolRetryDecision * ToolRetryController :=
  match candidates_of observations with
  | [] =>
      let drafts := match active_episode c with
        | Some e => [Resolved e (resolved_entries c observations e "retry_episode_resolved")]
        | None => []
        end in
      (NoRetry drafts, c <| active_episode := None |>)
  | candidates =>
      let candidates := sort_on sort_key candidates in
      let episode := default default_episode (active_episode c) in
      let entries := prompt_entry c episode <$> candidates in
      let rounds := max_recoverable_retry_rounds_per_episode (budget c) in
      if decide (rounds ≤ total_retry_rounds episode) then
        exhausted_and_close c entries (TotalRetryRounds (total_retry_rounds episode) rounds)
      else
        match foldlM (project_candidate c) (by_tool_name episode, by_failure_signature episode) candidates with
        | Err r => exhausted_and_close c entries r
        | Ok _ =>
            let episode := consume episode candidates in
            let entries := prompt_entry c episode <$> candidates in
            (Retry entries [Scheduled entries], c <| active_episode := Some episode |>)
        end
  end.

(** The decisions of a sequence of batches. *)
Fixpoint decide_all (c : ToolRetryController) (batches : list (list ToolRetryObservation))
    : list ToolRetryDecision :=
  match batches with
  | [] => []
  | b :: batches => let '(d, c) := decide_retry c b in d :: decide_all c batches
  end.
End decide.

(** ** Counting *)
Section counting.
Context {K A : Type} `{Countable K}.
Implicit Types (m : gmap K N) (f : A → K) (ds : list A).

Definition occurrences f (k : K) ds : N := N.of_nat (length (filter (λ d, f d = k) ds)).

Lemma occurrences_count_cons f k d ds :
  occurrences f k (d :: ds) = (if decide (f d = k) then 1 else 0) + occurrences f k ds.
Proof. unfold occurrences. rewrite filter_cons. case_decide; simpl; lia. Qed.
Lemma occurrences_perm f k ds ds' : ds ≡ₚ ds' → occurrences f k ds = occurrences f k ds'.
Proof. intros Hp. unfold occurrences. by rewrite Hp. Qed.
Lemma occurrences_elem f d ds : d ∈ ds → 1 ≤ occurrences f (f d) ds.
Proof.
  intros Hd. unfold occurrences. assert (d ∈ filter (λ e, f e = f d) ds) as Hin by (by apply list_elem_of_filter).
  destruct (filter _ ds); [by apply elem_of_nil in Hin|simpl; lia].
Qed.
Lemma occurrences_none f k ds : (∀ d, d ∈ ds → f d ≠ k) → occurrences f k ds = 0.
Proof.
  intros Hn. unfold occurrences. destruct (filter (λ d, f d = k) ds) as [|d l] eqn:Hf; [done|].
  assert (d ∈ filter (λ d, f d = k) ds) as [Hk Hd]%list_elem_of_filter by (rewrite Hf; left). by apply Hn in Hd.
Qed.

Lemma count_increment m k k' :
  count_of m k < U32_MAX → count_of (increment m k) k' = count_of m k' + (if decide (k = k') then 1 else 0).
Proof.
  intros Hlt. unfold increment, count_of at 1. case_decide as Hk.
  - subst k'. rewrite lookup_insert, decide_True by done. cbn. unfold saturating_add. lia.
  - rewrite lookup_insert_ne by done. unfold count_of. lia.
Qed.
Lemma increment_comm m a b : increment (increment m a) b = increment (increment m b) a.
Proof.
  destruct (decide (a = b)) as [->|Hne]; [done|]. unfold increment, count_of.
  rewrite !lookup_insert_ne by done. by apply insert_insert_ne.
Qed.
Lemma increments_perm m f ds ds' :
  ds ≡ₚ ds' → foldl (λ m d, increment m (f d)) m ds = foldl (λ m d, increment m (f d)) m ds'.
Proof.
  intros Hp. revert m. induction Hp as [|d ds ds' _ IH|a b ds|ds1 ds2 ds3 _ IH1 _ IH2]; intros m; cbn [foldl];
    [done|apply IH|by rewrite increment_comm|by rewrite IH1].
Qed.

(** The counters of every key that occurs stay within its limit. *)
Definition within (limit : K → N) m f ds : Prop :=
  ∀ d, d ∈ ds → count_of m (f d) + occurrences f (f d) ds ≤ limit (f d).

Lemma within_cons (limit : K → N) m f d ds :
  limit (f d) < U32_MAX →
  within limit m f (d :: ds) ↔
    count_of m (f d) + 1 ≤ limit (f d) ∧ within limit (increment m (f d)) f ds.
Proof.
  intros Hlim. unfold within. split.
  - intros Hw. pose proof (Hw d (list_elem_of_here d ds)) as Hd. rewrite occurrences_count_cons, decide_True in Hd by done.
    split; [lia|]. intros e He. specialize (Hw e (list_elem_of_further e d ds He)).
    rewrite occurrences_count_cons in Hw. rewrite count_increment by lia.
    destruct (decide (f d = f e)); lia.
  - intros [Hd Hw] e [->|He]%elem_of_cons; rewrite occurrences_count_cons.
    + rewrite decide_True by done. destruct (decide (Exists (λ e, f e = f d) ds)) as [Hex|Hn].
      * apply Exists_exists in Hex as (e & He & Heq). specialize (Hw e He).
        rewrite count_increment, Heq, decide_True in Hw by (done || lia). lia.
      * rewrite occurrences_none; [lia|]. intros e He Heq. apply Hn, Exists_exists. by exists e.
    + specialize (Hw e He). rewrite count_increment in Hw by lia. destruct (decide (f d = f e)); lia.
Qed.
Lemma within_perm (limit : K → N) m f ds ds' : ds ≡ₚ ds' → within limit m f ds ↔ within limit m f ds'.
Proof.
  intros Hp. unfold within. split; intros Hw d Hd;
    [rewrite <-(occurrences_perm _ _ _ _ Hp)|rewrite (occurrences_perm _ _ _ _ Hp)]; apply Hw; by rewrite Hp || rewrite <-Hp.
Qed.

(** Counting all of them adds up. *)
Lemma count_increments (limit : K → N) m f ds k :
  (∀ k, limit k < U32_MAX) → within limit m f ds →
  count_of (foldl (λ m d, increment m (f d)) m ds) k = count_of m k + occurrences f k ds.
Proof.
  intros Hlim. revert m; induction ds as [|d ds IH]; intros m Hw; cbn [foldl]; [unfold occurrences; simpl; lia|].
  apply within_cons in Hw as [Hd Hw]; [|done]. rewrite IH by done. pose proof (Hlim (f d)).
  rewrite count_increment, occurrences_count_cons by lia. lia.
Qed.
End counting.

Lemma occurrences_app {K A} `{Countable K} (f : A → K) k l1 l2 :
  occurrences f k (l1 ++ l2) = occurrences f k l1 + occurrences f k l2.
Proof. unfold occurrences. rewrite filter_app, length_app. lia. Qed.
Lemma occurrences_fmap {K A B} `{Countable K} (f : A → K) (g : B → K) (h : A → B) k l :
  (∀ x, x ∈ l → g (h x) = f x) → occurrences g k (h <$> l) = occurrences f k l.
Proof.
  induction l as [|x l IH]; intros Hgh; [done|]. cbn [fmap list_fmap]. rewrite !occurrences_count_cons, IH.
  - by rewrite Hgh by left.
  - intros y Hy. apply Hgh. by right.
Qed.

(** ** One batch *)
Definition signature_limit (c : ToolRetryController) (s : ToolFailureSignature) : N :=
  N.min (class_limit c (signature_class s)) (max_same_tool_error_retries_per_episode (budget c)).
Definition tool_limit (c : ToolRetryController) (_ : text) : N := max_retries_per_tool_name_per_episode (budget c).
Definition episode_of (c : ToolRetryController) : ToolRetryEpisodeState := default default_episode (active_episode c).

(** The limits can be reached before a [u32] counter saturates. *)
Record proper_limits (c : ToolRetryController) : Prop := {
  proper_rounds : max_recoverable_retry_rounds_per_episode (budget c) < U32_MAX;
  proper_same : max_same_tool_error_retries_per_episode (budget c) < U32_MAX;
  proper_tools : max_retries_per_tool_name_per_episode (budget c) < U32_MAX;
}.

(** Every candidate has room in the episode. *)
Record room (c : ToolRetryController) (ds : list RetryCandidate) : Prop := {
  room_rounds : total_retry_rounds (episode_of c) < max_recoverable_retry_rounds_per_episode (budget c);
  room_tools : within (tool_limit c) (by_tool_name (episode_of c)) candidate_tool ds;
  room_signatures : within (signature_limit c) (by_failure_signature (episode_of c)) signature ds;
}.
Definition coherent (d : RetryCandidate) : Prop :=
  signature_class (signature d) = candidate_class d ∧ signature_tool (signature d) = candidate_tool d.

Lemma project_spec c ds : ∀ m1 m2,
  proper_limits c → Forall coherent ds →
  match foldlM (project_candidate c) (m1, m2) ds with
  | Ok _ => within (tool_limit c) m1 candidate_tool ds ∧ within (signature_limit c) m2 signature ds
  | Err _ => ¬ (within (tool_limit c) m1 candidate_tool ds ∧ within (signature_limit c) m2 signature ds)
  end.
Proof.
  intros m1 m2 Hp HF. pose proof (proper_same _ Hp) as Hs. pose proof (proper_tools _ Hp) as Ht.
  revert m1 m2; induction HF as [|d ds Hd HF IH]; intros m1 m2; cbn [foldlM]; [by split; intros ? ?%elem_of_nil|].
  assert (tool_limit c (candidate_tool d) < U32_MAX) as Hlt by (unfold tool_limit; lia).
  assert (signature_limit c (signature d) < U32_MAX) as Hls by (unfold signature_limit; lia).
  pose proof (within_cons (tool_limit c) m1 candidate_tool d ds Hlt) as Wt.
  pose proof (within_cons (signature_limit c) m2 signature d ds Hls) as Ws.
  unfold project_candidate. unfold tool_limit at 2 in Wt. unfold signature_limit at 2 in Ws. rewrite (proj1 Hd) in Ws. cbn [fst snd].
  set (sc := count_of m2 (signature d)). set (tc := count_of m1 (candidate_tool d)).
  destruct (decide (sc +₃₂ 1 ≤ class_limit c (candidate_class d))) as [H1|H1];
    [rewrite (bool_decide_true _ H1)|rewrite (bool_decide_false _ H1)]; cbn [ensure mbind result_bind].
  2: { intros [_ [? _]%Ws]. apply H1. word. }
  destruct (decide (tc +₃₂ 1 ≤ max_retries_per_tool_name_per_episode (budget c))) as [H2|H2];
    [rewrite (bool_decide_true _ H2)|rewrite (bool_decide_false _ H2)]; cbn [ensure mbind result_bind].
  2: { intros [[? _]%Wt _]. apply H2. word. }
  destruct (decide (sc +₃₂ 1 ≤ max_same_tool_error_retries_per_episode (budget c))) as [H3|H3];
    [rewrite (bool_decide_true _ H3)|rewrite (bool_decide_false _ H3)]; cbn [ensure mbind result_bind].
  2: { intros [_ [? _]%Ws]. apply H3. word. }
  specialize (IH (increment m1 (candidate_tool d)) (increment m2 (signature d))).
  change (foldlM (project_candidate c) (<[candidate_tool d:=tc +₃₂ 1]> m1, <[signature d:=sc +₃₂ 1]> m2) ds)
    with (foldlM (project_candidate c) (increment m1 (candidate_tool d), increment m2 (signature d)) ds).
  assert (sc + 1 ≤ N.min (class_limit c (candidate_class d)) (max_same_tool_error_retries_per_episode (budget c)) ∧
    tc + 1 ≤ max_retries_per_tool_name_per_episode (budget c)) as [H4 H5] by word.
  destruct (foldlM _ _ ds); tauto.
Qed.

Section decisions.
Context `{JsonText Number}.

Lemma candidates_coherent observations : Forall coherent (candidates_of observations).
Proof.
  apply Forall_forall. intros d (o & _ & Ho)%list_elem_of_omap. unfold from_observation in Ho.
  case_match; [done|]. by injection Ho as <-.
Qed.

(** What one batch does. *)
Lemma decide_spec c observations :
  proper_limits c →
  let ds := candidates_of observations in
  match decide_retry c observations with
  | (NoRetry _, c') => ds = [] ∧ c' = c <| active_episode := None |>
  | (Retry entries _, c') =>
      let e := consume (episode_of c) (sort_on sort_key ds) in
      ds ≠ [] ∧ room c ds ∧ entries = prompt_entry c e <$> sort_on sort_key ds ∧
      c' = c <| active_episode := Some e |>
  | (Exhausted _ _ _, c') => ds ≠ [] ∧ ¬ room c ds ∧ c' = c <| active_episode := None |>
  end.
Proof.
  intros Hp ds. unfold decide_retry. subst ds. pose proof (candidates_coherent observations) as Hco.
  destruct (candidates_of observations) as [|d0 ds0] eqn:Hds; [done|]. rewrite <-Hds in *.
  assert (candidates_of observations ≠ []) as Hne by (by rewrite Hds). clear Hds.
  fold (episode_of c). set (ds := sort_on sort_key (candidates_of observations)).
  assert (ds ≡ₚ candidates_of observations) as Hperm by apply sort_on_perm.
  destruct (decide (max_recoverable_retry_rounds_per_episode (budget c) ≤ total_retry_rounds (episode_of c))) as [Hr|Hr].
  { cbn. split; [done|]. split; [|done]. intros [Hroom _ _]. lia. }
  pose proof (project_spec c ds (by_tool_name (episode_of c)) (by_failure_signature (episode_of c)) Hp) as Hproject.
  rewrite <-Hperm in Hco. specialize (Hproject Hco).
  pose proof (within_perm (tool_limit c) (by_tool_name (episode_of c)) candidate_tool _ _ Hperm) as Wt.
  pose proof (within_perm (signature_limit c) (by_failure_signature (episode_of c)) signature _ _ Hperm) as Ws.
  destruct (foldlM _ _ ds) as [m|r].
  - split; [done|]. split; [|done]. destruct Hproject. split; [lia|by apply Wt|by apply Ws].
  - cbn. split; [done|]. split; [|done]. intros [_ ?%Wt ?%Ws]. tauto.
Qed.

(** The counters after a granted batch. *)
Lemma consume_counts c ds :
  proper_limits c → room c ds →
  let e := consume (episode_of c) (sort_on sort_key ds) in
  total_retry_rounds e = total_retry_rounds (episode_of c) + 1 ∧
  (∀ t, tool_used e t = tool_used (episode_of c) t + occurrences candidate_tool t ds) ∧
  (∀ s, signature_used e s = signature_used (episode_of c) s + occurrences signature s ds).
Proof.
  intros [Hr Hs Ht] [Hrounds Htools Hsigs]. unfold consume, tool_used, signature_used.
  cbn [total_retry_rounds by_tool_name by_failure_signature]. split; [word|].
  pose proof (sort_on_perm sort_key ds) as Hp. split.
  - intros t. rewrite (count_increments (tool_limit c)), (occurrences_perm _ _ _ _ Hp); [done|unfold tool_limit; lia|].
    by rewrite (within_perm _ _ _ _ _ Hp).
  - intros s. rewrite (count_increments (signature_limit c)), (occurrences_perm _ _ _ _ Hp); [done|unfold signature_limit; lia|].
    by rewrite (within_perm _ _ _ _ _ Hp).
Qed.

Lemma retry_decision_spec (c : ToolRetryController) (observations : list ToolRetryObservation) :
  proper_limits c →
  let ds := candidates_of observations in
  let c' := snd (decide_retry c observations) in
  budget c' = budget c ∧ class_limits c' = class_limits c ∧
  match fst (decide_retry c observations) with
  | NoRetry _ => ds = [] ∧ active_episode c' = None
  | Retry entries _ =>
      ds ≠ [] ∧ room c ds ∧ length entries = length ds ∧
      ∃ e, active_episode c' = Some e ∧
        total_retry_rounds e = total_retry_rounds (episode_of c) + 1 ∧
        (∀ t, tool_used e t = tool_used (episode_of c) t + occurrences candidate_tool t ds) ∧
        (∀ s, signature_used e s = signature_used (episode_of c) s + occurrences signature s ds)
  | Exhausted _ _ _ => ds ≠ [] ∧ ¬ room c ds ∧ active_episode c' = None
  end.
Proof.
  intros Hp ds c'. subst c'. pose proof (decide_spec c observations Hp) as Hspec. fold ds in Hspec.
  destruct (decide_retry c observations) as [[drafts|entries drafts|entries r drafts] c']; cbn [fst snd].
  - by destruct Hspec as [-> ->].
  - destruct Hspec as (Hne & Hroom & -> & ->). do 2 (split; [done|]). split; [done|]. split; [done|].
    rewrite length_fmap, (sort_on_perm sort_key ds). split; [done|]. eexists. split; [done|]. by apply consume_counts.
  - by destruct Hspec as (? & ? & ->).
Qed.

(** C37: a batch is retried exactly when every failure has room. A batch without
    retryable failures ends the episode. Otherwise it is retried exactly when
    the episode has a round left and, counting this batch, every tool and every
    failure signature in it stays within its limit; the episode then counts one
    round and each failure once, and any other batch exhausts and closes it. *)
Theorem retry_decision_exact (c : ToolRetryController) (observations : list ToolRetryObservation) :
  proper_limits c →
  let ds := candidates_of observations in
  let c' := snd (decide_retry c observations) in
  budget c' = budget c ∧ class_limits c' = class_limits c ∧
  match fst (decide_retry c observations) with
  | NoRetry _ => ds = [] ∧ active_episode c' = None
  | Retry entries _ =>
      ds ≠ [] ∧ room c ds ∧ length entries = length ds ∧
      ∃ e, active_episode c' = Some e ∧
        total_retry_rounds e = total_retry_rounds (episode_of c) + 1 ∧
        (∀ t, tool_used e t = tool_used (episode_of c) t + occurrences candidate_tool t ds) ∧
        (∀ s, signature_used e s = signature_used (episode_of c) s + occurrences signature s ds)
  | Exhausted _ _ _ => ds ≠ [] ∧ ¬ room c ds ∧ active_episode c' = None
  end.
Proof. apply retry_decision_spec. Qed.

(** ** Sequences of batches *)
Definition after (c : ToolRetryController) (batches : list (list ToolRetryObservation)) : ToolRetryController :=
  foldl (λ c b, snd (decide_retry c b)) c batches.
Definition is_retry (d : ToolRetryDecision) : bool := match d with Retry _ _ => true | _ => false end.
Definition entries_of (d : ToolRetryDecision) : list ToolRetryPromptEntry :=
  match d with Retry entries _ => entries | _ => [] end.
Definition entry_signature (e : ToolRetryPromptEntry) : ToolFailureSignature :=
  {| signature_tool := entry_tool e; arguments_fingerprint := entry_fingerprint e; signature_class := entry_class e |}.

Lemma decide_all_app c b1 b2 : decide_all c (b1 ++ b2) = decide_all c b1 ++ decide_all (after c b1) b2.
Proof.
  revert c; induction b1 as [|b b1 IH]; intros c; cbn [app decide_all after foldl]; [done|].
  destruct (decide_retry c b) as [d c']. cbn [app snd]. f_equal. apply IH.
Qed.
Lemma decide_all_length c bs : length (decide_all c bs) = length bs.
Proof. revert c; induction bs as [|b bs IH]; intros c; [done|]. cbn [decide_all]. destruct (decide_retry c b). cbn. by rewrite IH. Qed.

Record in_budget (c : ToolRetryController) : Prop := {
  in_rounds : total_retry_rounds (episode_of c) ≤ max_recoverable_retry_rounds_per_episode (budget c);
  in_tools t : tool_used (episode_of c) t ≤ tool_limit c t;
  in_signatures s : signature_used (episode_of c) s ≤ signature_limit c s;
}.
Lemma in_budget_idle c : active_episode c = None → in_budget c.
Proof.
  intros Hn. assert (episode_of c = default_episode) as He by (unfold episode_of; by rewrite Hn).
  split; rewrite He; intros; [apply N.le_0_l|..]; unfold tool_used, signature_used, count_of;
    cbn [default_episode by_tool_name by_failure_signature]; rewrite lookup_empty; apply N.le_0_l.
Qed.

Lemma counts_within {K A} `{Countable K} (limit : K → N) (m : gmap K N) (f : A → K) ds k :
  count_of m k ≤ limit k → within limit m f ds → count_of m k + occurrences f k ds ≤ limit k.
Proof.
  intros Hk Hw. destruct (decide (Exists (λ d, f d = k) ds)) as [Hex|Hn].
  - apply Exists_exists in Hex as (d & Hd & <-). by apply Hw.
  - rewrite occurrences_none; [lia|]. intros d Hd Heq. apply Hn, Exists_exists. by exists d.
Qed.

Lemma decide_in_budget c observations :
  proper_limits c → in_budget c → in_budget (snd (decide_retry c observations)).
Proof.
  intros Hp [Hr Ht Hs]. pose proof (retry_decision_spec c observations Hp) as (Hb & Hl & Hd).
  destruct (fst (decide_retry c observations)).
  - apply in_budget_idle; tauto.
  - destruct Hd as (_ & [Hroom1 Hroom2 Hroom3] & _ & e & He & Hr' & Ht' & Hs').
    split; unfold tool_limit, signature_limit, class_limit, episode_of; rewrite Hb, ?Hl, He; cbn [default from_option].
    + unfold id. lia.
    + intros t. unfold id. rewrite Ht'. apply (counts_within (tool_limit c)); [apply Ht|done].
    + intros s. unfold id. rewrite Hs'. apply (counts_within (signature_limit c)); [apply Hs|done].
  - apply in_budget_idle; tauto.
Qed.
Lemma decide_proper c observations : proper_limits c → proper_limits (snd (decide_retry c observations)).
Proof.
  intros Hp. pose proof (retry_decision_spec c observations Hp) as (Hb & _ & _). destruct Hp. by split; rewrite Hb.
Qed.
Lemma after_ok c bs :
  proper_limits c → in_budget c → proper_limits (after c bs) ∧ in_budget (after c bs) ∧
  budget (after c bs) = budget c ∧ class_limits (after c bs) = class_limits c.
Proof.
  revert c; induction bs as [|b bs IH]; intros c Hp Hi; [done|]. cbn [after foldl]. fold (after (snd (decide_retry c b)) bs).
  pose proof (retry_decision_spec c b Hp) as (Hb & Hl & _). rewrite <-Hb, <-Hl.
  apply IH; [by apply decide_proper|by apply decide_in_budget].
Qed.

(** A run of retries adds up in one episode. *)
Lemma retries_add_up bs : ∀ c,
  proper_limits c → Forall (λ d, is_retry d = true) (decide_all c bs) →
  let entries := decide_all c bs ≫= entries_of in
  total_retry_rounds (episode_of (after c bs)) = total_retry_rounds (episode_of c) + N.of_nat (length bs) ∧
  (∀ t, tool_used (episode_of (after c bs)) t = tool_used (episode_of c) t + occurrences entry_tool t entries) ∧
  (∀ s, signature_used (episode_of (after c bs)) s =
     signature_used (episode_of c) s + occurrences entry_signature s entries).
Proof.
  induction bs as [|b bs IH]; intros c Hp Hall; cbn [decide_all after foldl length].
  { unfold occurrences. cbn. split; [lia|]. split; intros; lia. }
  fold (after (snd (decide_retry c b)) bs). cbn [decide_all] in Hall.
  pose proof (decide_proper c b Hp) as Hp'. pose proof (retry_decision_spec c b Hp) as (_ & _ & Hd).
  pose proof (decide_spec c b Hp) as Hspec.
  destruct (decide_retry c b) as [d c'] eqn:Hdec. cbn [fst snd] in *. apply Forall_cons in Hall as [Hd' Hall].
  destruct d as [|entries|]; try discriminate Hd'. destruct (IH c' Hp' Hall) as (Hr & Ht & Hs).
  destruct Hd as (_ & _ & _ & e & He & Hre & Hte & Hse). destruct Hspec as (_ & _ & Hentries & _).
  assert (episode_of c' = e) as Hep by (unfold episode_of; by rewrite He).
  rewrite Hep in Hr, Ht, Hs. rewrite Hr, bind_cons. cbn [entries_of].
  assert (∀ {K} `{Countable K} (f : RetryCandidate → K) (g : ToolRetryPromptEntry → K) k rest,
    (∀ d, d ∈ candidates_of b → g (prompt_entry c (consume (episode_of c) (sort_on sort_key (candidates_of b))) d) = f d) →
    occurrences g k (entries ++ rest) = occurrences f k (candidates_of b) + occurrences g k rest) as Hocc.
  { intros K ? ? f g k rest Hfg. rewrite occurrences_app, Hentries, (occurrences_fmap f g).
    - by rewrite (occurrences_perm _ _ _ _ (sort_on_perm sort_key (candidates_of b))).
    - intros d Hin. apply Hfg. by rewrite (sort_on_perm sort_key) in Hin. }
  pose proof (candidates_coherent b) as Hco. rewrite Forall_forall in Hco.
  split; [lia|]. split.
  - intros t. rewrite Ht, Hte, (Hocc _ _ _ candidate_tool entry_tool) by done. lia.
  - intros s. rewrite Hs, Hse, (Hocc _ _ _ signature entry_signature); [lia|].
    intros d Hin. destruct (Hco d Hin) as [H1 H2]. unfold entry_signature, prompt_entry. cbn.
    rewrite <-H1, <-H2. by destruct (signature d).
Qed.

(** retries are bounded. Between two decisions that are no retries, however
    the tools fail, there are at most as many retried batches as an episode has
    rounds; in them, no tool is retried more often than its limit, and no
    failure of one tool with one set of arguments more often than the limit of
    its class and the limit for equal failures. *)
Theorem retry_episode_bounded (b : ToolRetryBudgetConfig) (class_budgets : list (ToolErrorClass * N))
    (batches : list (list ToolRetryObservation)) (before block behind : list ToolRetryDecision) :
  let c := with_class_budgets b class_budgets in
  proper_limits c →
  decide_all c batches = before ++ block ++ behind → Forall (λ d, is_retry d = true) block →
  N.of_nat (length block) ≤ max_recoverable_retry_rounds_per_episode (budget c) ∧
  (∀ t, occurrences entry_tool t (block ≫= entries_of) ≤ max_retries_per_tool_name_per_episode (budget c)) ∧
  (∀ s, occurrences entry_signature s (block ≫= entries_of) ≤
     N.min (class_limit c (signature_class s)) (max_same_tool_error_retries_per_episode (budget c))).
Proof.
  intros c Hp Hall Hblock.
  set (b1 := take (length before) batches). set (b2 := take (length block) (drop (length before) batches)).
  assert (length batches = length before + length block + length behind)%nat as Hlen.
  { rewrite <-(decide_all_length c), Hall, !length_app. lia. }
  assert (batches = b1 ++ b2 ++ drop (length block) (drop (length before) batches)) as Hsplit
    by (subst b1 b2; by rewrite !take_drop).
  rewrite Hsplit, !decide_all_app in Hall.
  apply app_inj_1 in Hall as [_ Hall]; [|rewrite decide_all_length; subst b1; rewrite length_take; lia].
  apply app_inj_1 in Hall as [Hb2 _]; [|rewrite decide_all_length; subst b2; rewrite length_take, length_drop; lia].
  destruct (after_ok c b1 Hp (in_budget_idle c eq_refl)) as (Hp1 & Hi1 & Hb1 & Hl1).
  destruct (after_ok (after c b1) b2 Hp1 Hi1) as (_ & [Hr2 Ht2 Hs2] & Hbb & Hll).
  rewrite <-Hb2 in Hblock. destruct (retries_add_up b2 (after c b1) Hp1 Hblock) as (Hr & Ht & Hs).
  assert (length block = length b2) as -> by (by rewrite <-Hb2, decide_all_length).
  rewrite <-Hb2. unfold tool_limit, signature_limit, class_limit in Ht2, Hs2. rewrite Hbb, Hb1 in Hr2, Ht2, Hs2. rewrite Hll, Hl1 in Hs2.
  split; [lia|]. split.
  - intros t. specialize (Ht2 t). rewrite Ht in Ht2. lia.
  - intros s. specialize (Hs2 s). rewrite Hs in Hs2. unfold class_limit. lia.
Qed.

(** the order of the outcomes does not matter. If the retryable failures of a
    batch differ in the key they are sorted by, any order of the batch gives the
    same decision, with the same entries and reason, and the same episode. *)
Theorem retry_order_irrelevant (c : ToolRetryController) (observations observations' : list ToolRetryObservation) :
  candidates_of observations ≠ [] → NoDup (sort_key <$> candidates_of observations) →
  observations ≡ₚ observations' → decide_retry c observations = decide_retry c observations'.
Proof.
  intros Hne Hnd Hperm. unfold decide_retry.
  assert (candidates_of observations ≡ₚ candidates_of observations') as Hp by (unfold candidates_of; by rewrite Hperm).
  pose proof (sort_on_unique sort_key _ _ Hnd Hp) as Hsort.
  destruct (candidates_of observations) as [|d ds]; [done|].
  destruct (candidates_of observations') as [|d' ds']; [by apply Permutation_nil_r in Hp|]. by rewrite Hsort.
Qed.
End decisions.

(** ** Concrete runs *)
Import SampleText.
Definition failing (tool arguments : text) (class : ToolErrorClass) : ToolRetryObservation :=
  {| item_id := lit "item_" ++ tool; item_type := lit "command_execution"; attempt_number := 1; tool_name := tool;
     arguments := arguments; success := false;
     outcome := {| status := RecoverableError; error_class := Some class; should_retry := true;
                   outcome_retry_hint := None; incomplete := false; incomplete_reason := None |};
     recovery_view := None; model_visible_text := [] |}.
Definition sample_batch : list ToolRetryObservation :=
  [failing (lit "read") SampleText.sample_a NotFound; failing (lit "exec") [] ExecutionFailed].
Definition sample_controller : ToolRetryController := new_controller default_retry_budget.
Definition sample_batches : list (list ToolRetryObservation) := replicate 5 sample_batch.

Example sample_decisions :
  is_retry <$> decide_all sample_controller sample_batches = [true; true; false; true; true] ∧
  is_retry <$> decide_all sample_controller [[failing (lit "x") [] Internal]; [failing (lit "x") [] PermissionDenied]] = [false; false] ∧
  reason_kind (match fst (decide_retry (after sample_controller (replicate 2 sample_batch)) sample_batch) with
               | Exhausted _ r _ => r | _ => TotalRetryRounds 0 0 end) = KindErrorClass.
Proof. by vm_compute. Qed.

Lemma sample_proper : proper_limits sample_controller.
Proof. by split. Qed.

Lemma retry_decision_exact_witness :
  match fst (decide_retry sample_controller sample_batch) with Retry _ _ => room sample_controller (candidates_of sample_batch) | _ => False end.
Proof.
  pose proof (retry_decision_exact sample_controller sample_batch sample_proper) as (_ & _ & H).
  destruct (fst (decide_retry sample_controller sample_batch)) eqn:Hd.
  - vm_compute in Hd. discriminate Hd.
  - destruct H as (_ & Hroom & _). exact Hroom.
  - vm_compute in Hd. discriminate Hd.
Defined.

Lemma retry_episode_bounded_witness :
  N.of_nat (length (drop 3 (decide_all sample_controller sample_batches))) ≤ 32.
Proof.
  destruct (retry_episode_bounded default_retry_budget default_tool_retry_class_budgets sample_batches
    (take 3 (decide_all sample_controller sample_batches)) (drop 3 (decide_all sample_controller sample_batches)) [] sample_proper)
    as (H & _ & _).
  - vm_compute. reflexivity.
  - apply (bool_decide_unpack _). vm_compute. exact I.
  - exact H.
Defined.

Lemma retry_order_irrelevant_witness :
  decide_retry sample_controller sample_batch = decide_retry sample_controller (reverse sample_batch).
Proof.
  apply retry_order_irrelevant.
  - vm_compute. discriminate.
  - apply (bool_decide_unpack _). vm_compute. exact I.
  - symmetry. apply reverse_Permutation.
Defined.
