(* ===== verification/ToolNoProgress.v ===== *)
(** * The no-progress guard

    Models [crates/tools/src/no_progress_guard.rs]: timeouts are counted per
    strategy, a class of similar invocations of a tool; an invocation that timed
    out repeatedly is blocked. The texts of messages and facts are the values
    they show. Parameters: SHA-256 in hex, the number type of serde_json, the
    Unicode tables, and the length of the serialized checkpoint. *)
From S2P Require Import Prelude Ordered Decimal Json ToolFingerprint ToolRetry.
Local Open Scope N_scope.

Class GuardEnvironment (Number : Type) := {
  as_u64 : Number → option N;
  (** [short_hash]: the hex of the first 16 bytes of the SHA-256 of the bytes. *)
  short_hash : text → text;
  to_lowercase : text → text;
  is_alphanumeric : N → bool;
  is_numeric : N → bool;
}.
Class GuardEnvironmentLaws (Number : Type) `{GuardEnvironment Number} := {
  short_hash_length t : length (short_hash t) = 32%nat;
}.

(** ** Configuration *)
Definition CHECKPOINT_STATE_MAX_BYTES : N := 49152.
Definition CHECKPOINT_MAX_STRATEGIES : N := 16.
Definition CHECKPOINT_MAX_EXACT_VARIANTS_PER_STRATEGY : N := 8.
Definition CHECKPOINT_MAX_FEATURES_PER_STRATEGY : N := 32.
Definition CHECKPOINT_MAX_TOOL_NAME_CHARS : nat := 128.
Definition CHECKPOINT_MAX_EXECUTABLE_CHARS : nat := 256.
Definition CHECKPOINT_MAX_HASH_CHARS : nat := 64.
Definition CONTROL_ARGUMENT_KEYS : list text := [lit "timeout_ms"; lit "yield_time_ms"; lit "max_output_tokens"].

Record ToolNoProgressGuardConfig := {
  exact_timeout_limit : N;
  structural_timeout_limit : N;
  warning_timeout_count : N;
  structural_similarity_millis : N;
  max_strategies : N;
  max_exact_variants_per_strategy : N;
  max_features_per_strategy : N;
}.
Definition default_guard_config : ToolNoProgressGuardConfig :=
  {| exact_timeout_limit := 2; structural_timeout_limit := 3; warning_timeout_count := 2;
     structural_similarity_millis := 720; max_strategies := CHECKPOINT_MAX_STRATEGIES;
     max_exact_variants_per_strategy := CHECKPOINT_MAX_EXACT_VARIANTS_PER_STRATEGY;
     max_features_per_strategy := CHECKPOINT_MAX_FEATURES_PER_STRATEGY |}.
(** [Ord::clamp]. *)
Definition clamp_between (lo hi x : N) : N := N.min (N.max x lo) hi.
Definition normalized_guard_config (c : ToolNoProgressGuardConfig) : ToolNoProgressGuardConfig :=
  {| exact_timeout_limit := N.max (exact_timeout_limit c) 1;
     structural_timeout_limit := N.max (structural_timeout_limit c) 2;
     warning_timeout_count := N.max (warning_timeout_count c) 1;
     structural_similarity_millis := clamp_between 1 1000 (structural_similarity_millis c);
     max_strategies := clamp_between 1 CHECKPOINT_MAX_STRATEGIES (max_strategies c);
     max_exact_variants_per_strategy :=
       clamp_between 1 CHECKPOINT_MAX_EXACT_VARIANTS_PER_STRATEGY (max_exact_variants_per_strategy c);
     max_features_per_strategy := clamp_between 8 CHECKPOINT_MAX_FEATURES_PER_STRATEGY (max_features_per_strategy c) |}.

(** ** Checkpoint state *)
Record ExactVariant := { variant_fingerprint : text; variant_timeouts : N }.
Record Strategy := {
  strategy_id : text; strategy_tool : text; executable : option text; structural_fingerprint : text;
  structural_features : list text; exact_variants : list ExactVariant;
  timeout_count : N; cumulative_timeout_ms : N; warning_emitted : bool; exhausted : bool;
}.
#[export] Instance Strategy_fields : Fields Strategy := λ s,
  {| strategy_id := strategy_id s; strategy_tool := strategy_tool s; executable := executable s;
     structural_fingerprint := structural_fingerprint s; structural_features := structural_features s;
     exact_variants := exact_variants s; timeout_count := timeout_count s;
     cumulative_timeout_ms := cumulative_timeout_ms s; warning_emitted := warning_emitted s; exhausted := exhausted s |}.
Record NoProgressState := { strategies : list Strategy; truncated : bool }.
Definition default_state : NoProgressState := {| strategies := []; truncated := false |}.
Record ToolNoProgressGuard := { config : ToolNoProgressGuardConfig; state : NoProgressState }.

Definition truncate_chars (max_chars : nat) (value : text) : text * bool :=
  (take max_chars value, bool_decide (max_chars < length value)%nat).

(** ** Fingerprints *)
Record StrategyFingerprint := {
  fp_tool : text; fp_executable : option text; fp_exact : text; fp_structural : text; fp_features : list text;
}.

(** [Path::file_name] of a Unix path: the last component, unless it is [..]. *)
Fixpoint split_slash (s : text) : list text :=
  match s with
  | [] => [[]]
  | c :: s => if decide (c = 47) then [] :: split_slash s
              else match split_slash s with w :: ws => (c :: w) :: ws | [] => [[c]] end
  end.
Definition file_name (path : text) : option text :=
  match last (filter (λ w, w ≠ [] ∧ w ≠ lit ".") (split_slash path)) with
  | Some w => if decide (w = lit "..") then None else Some w
  | None => None
  end.
Definition length_bucket (n : N) : N :=
  if decide (n ≤ 3) then n else if decide (n ≤ 7) then 4 else if decide (n ≤ 15) then 8
  else if decide (n ≤ 31) then 16 else if decide (n ≤ 63) then 32 else if decide (n ≤ 127) then 64 else 128.

Section fingerprint.
Context `{JsonText Number, !GuardEnvironment Number}.

Fixpoint normalized_exact_arguments (value : Json Number) : Json Number :=
  match value with
  | JObject members =>
      let normalized := (λ m, (m.1, normalized_exact_arguments m.2)) <$> members in
      JObject (filter (λ m, m.1 ∉ CONTROL_ARGUMENT_KEYS) (sort_on fst normalized))
  | JArray items => JArray (normalized_exact_arguments <$> items)
  | other => other
  end.

Definition executable_identity (tool_name : text) (arguments : Json Number) : option text :=
  if decide (tool_name = lit "exec_command") then
    match json_get arguments (lit "command") with
    | Some (JArray command) =>
        value ← head command ≫= json_str;
        Some (truncate_chars CHECKPOINT_MAX_EXECUTABLE_CHARS (to_lowercase (default value (file_name value)))).1
    | _ => None
    end
  else None.

Definition push_token_feature (path : text) (index : N) (token : text) : list text :=
  match token with
  | [] => []
  | _ =>
      let normalized := if forallb is_numeric token then lit "$number" else to_lowercase token in
      [path ++ lit ":token:" ++ display_u64 index ++ lit ":" ++ normalized]
  end.
Record StringScan := { token : text; token_index : N; shape : text; prior_shape : option N; found : list text }.
Definition scan_char (path : text) (s : StringScan) (c : N) : StringScan :=
  if is_alphanumeric c then
    let class := if is_numeric c then 78 else 87 in
    {| token := token s ++ [c]; token_index := token_index s;
       shape := if decide (prior_shape s = Some class) then shape s else shape s ++ [class];
       prior_shape := Some class; found := found s |}
  else
    {| token := [];
       token_index := match token s with [] => token_index s | _ => token_index s +₆₄ 1 end;
       shape := if is_whitespace c then shape s else shape s ++ [c];
       prior_shape := if is_whitespace c then prior_shape s else None;
       found := found s ++ push_token_feature path (token_index s) (token s) |}.
Definition collect_string_features (path value : text) : list text :=
  let s := foldl (scan_char path) {| token := []; token_index := 0; shape := []; prior_shape := None; found := [] |} value in
  (path ++ lit ":string:len_bucket=" ++ display_u64 (length_bucket (N.of_nat (length value)))) ::
  found s ++ push_token_feature path (token_index s) (token s) ++ [path ++ lit ":shape:" ++ shape s].

(** The features inserted into the set, in order. *)
Fixpoint collect_structural_features (path : text) (value : Json Number) {struct value} : list text :=
  match value with
  | JNull => [path ++ lit ":null"]
  | JBool b => [path ++ lit ":bool:" ++ if b then lit "true" else lit "false"]
  | JNumber _ => [path ++ lit ":number"]
  | JString value => collect_string_features path value
  | JArray items =>
      (path ++ lit ":array:len_bucket=" ++ display_u64 (length_bucket (N.of_nat (length items)))) ::
      (fix go (index : N) (items : list (Json Number)) : list text :=
        match items with
        | [] => []
        | item :: items =>
            collect_structural_features (path ++ lit "[" ++ display_u64 index ++ lit "]") item ++ go (index + 1) items
        end) 0 items
  | JObject members =>
      let collected := (λ m, (m.1, collect_structural_features (path ++ lit "." ++ m.1) m.2)) <$> members in
      (path ++ lit ":object") :: mjoin (snd <$> sort_on fst collected)
  end.

Definition hash_value (value : Json Number) : text := short_hash (render value).
Definition parse_arguments (arguments : text) : Json Number :=
  match from_str arguments with Some v => v | None => JString arguments end.
Definition new_fingerprint (tool_name arguments : text) (max_features : N) : StrategyFingerprint :=
  let parsed := parse_arguments arguments in
  let normalized := normalized_exact_arguments parsed in
  let bounded_tool_name := (truncate_chars CHECKPOINT_MAX_TOOL_NAME_CHARS tool_name).1 in
  let executable := executable_identity tool_name parsed in
  let raw := (lit "tool:" ++ bounded_tool_name)
    :: match executable with Some e => [lit "executable:" ++ e] | None => [] end
    ++ collect_structural_features (lit "$") normalized in
  let features := take (N.to_nat max_features) (short_hash <$> ordered_elements id (list_to_set raw : gset text)) in
  {| fp_tool := bounded_tool_name; fp_executable := executable; fp_exact := hash_value normalized;
     fp_structural := short_hash (intercalate (lit "|") features); fp_features := features |}.

(** ** What a timeout shows *)
Fixpoint find_non_empty_string_field (value : Json Number) (field_name : text) : bool :=
  match value with
  | JObject members =>
      match json_get value field_name ≫= json_str with Some s => negb (bool_decide (trim s = [])) | None => false end
      || existsb (λ m, find_non_empty_string_field m.2 field_name) members
  | JArray items => existsb (λ v, find_non_empty_string_field v field_name) items
  | _ => false
  end.
Definition json_u64 (value : Json Number) : option N := match value with JNumber n => as_u64 n | _ => None end.
Fixpoint find_duration_ms (value : Json Number) : option N :=
  match value with
  | JObject members =>
      let direct := match json_get value (lit "duration_ms") with
        | Some v => Some v | None => json_get value (lit "durationMs") end in
      match direct ≫= json_u64 with
      | Some ms => Some ms
      | None => foldr (λ m rest, match find_duration_ms m.2 with Some ms => Some ms | None => rest end) None members
      end
  | JArray items => foldr (λ v rest, match find_duration_ms v with Some ms => Some ms | None => rest end) None items
  | _ => None
  end.
Definition observed_timeout_ms (o : ToolRetryObservation) : N :=
  match from_str (model_visible_text o) ≫= find_duration_ms with
  | Some ms => ms
  | None => default 60000 (from_str (arguments o) ≫= λ a, json_get a (lit "timeout_ms") ≫= json_u64)
  end.
Definition observation_has_stdout_progress (o : ToolRetryObservation) : bool :=
  match from_str (model_visible_text o) with
  | Some v => find_non_empty_string_field v (lit "stdout")
  | None => false
  end.
End fingerprint.

(** ** Matching *)
Definition jaccard_millis (left right : list text) : N :=
  match left, right with
  | [], [] => 1000
  | _, _ =>
      let l : gset text := list_to_set left in
      let r : gset text := list_to_set right in
      let union := N.of_nat (size (l ∪ r)) in
      if decide (union = 0) then 0
      else
        let q := N.min (N.of_nat (size (l ∩ r)) * 1000) U64_MAX `div` union in
        if decide (q ≤ U16_MAX) then q else 1000
  end.

Definition has_variant (fingerprint : text) (s : Strategy) : bool :=
  existsb (λ v, bool_decide (variant_fingerprint v = fingerprint)) (exact_variants s).
(** How well a strategy matches, in thousandths. *)
Definition similarity (c : ToolNoProgressGuardConfig) (candidate : StrategyFingerprint) (s : Strategy) : option N :=
  if bool_decide (strategy_tool s = fp_tool candidate) && bool_decide (executable s = fp_executable candidate) then
    if has_variant (fp_exact candidate) s then Some 1000
    else if decide (structural_fingerprint s = fp_structural candidate) then Some 1000
    else
      let similarity := jaccard_millis (structural_features s) (fp_features candidate) in
      if decide (structural_similarity_millis c ≤ similarity) then Some similarity else None
  else None.
(** [max_by_key] keeps the last of equal elements. *)
Definition better (best : option (nat * N)) (next : nat * option N) : option (nat * N) :=
  match next.2 with
  | Some k =>
      match best with
      | Some (i, k') => if decide (k' ≤ k) then Some (next.1, k) else best
      | None => Some (next.1, k)
      end
  | None => best
  end.
Definition best_matching_strategy (c : ToolNoProgressGuardConfig) (st : NoProgressState) (candidate : StrategyFingerprint)
    : option nat :=
  fst <$> foldl better None (imap (λ i s, (i, similarity c candidate s)) (strategies st)).

(** ** Preflight *)
Inductive BlockReason := SameInvocation | SimilarStrategy.
Inductive ToolNoProgressPreflightDecision :=
  | Allow
  | Block (strategy : text) (tool : text) (reason : BlockReason) (timeouts cumulative_ms : N).
Definition exact_exhausted (c : ToolNoProgressGuardConfig) (candidate : StrategyFingerprint) (s : Strategy) : bool :=
  existsb (λ v, bool_decide (variant_fingerprint v = fp_exact candidate)
    && bool_decide (exact_timeout_limit c ≤ variant_timeouts v)) (exact_variants s).

(** ** Observing *)
Inductive Fact :=
  | FactProgress (tool : text)
  | FactExhausted (strategy tool : text) (timeouts cumulative_ms : N)
  | FactWarning (strategy tool : text) (timeouts cumulative_ms : N).

Definition fresh_strategy (fp : StrategyFingerprint) : Strategy :=
  {| strategy_id := take 16 (fp_structural fp); strategy_tool := fp_tool fp; executable := fp_executable fp;
     structural_fingerprint := fp_structural fp; structural_features := fp_features fp; exact_variants := [];
     timeout_count := 0; cumulative_timeout_ms := 0; warning_emitted := false; exhausted := false |}.
Definition insert_strategy (c : ToolNoProgressGuardConfig) (st : NoProgressState) (fp : StrategyFingerprint)
    : nat * NoProgressState :=
  let full := bool_decide (max_strategies c ≤ N.of_nat (length (strategies st))) in
  let kept := if full then drop 1 (strategies st) else strategies st in
  (length kept,
   {| strategies := kept ++ [fresh_strategy fp]; truncated := truncated st || full |}).

(** The first variant with the fingerprint counts one more; a new one may push
    out the oldest. *)
Fixpoint bump_variant (fingerprint : text) (vs : list ExactVariant) : option (list ExactVariant * N) :=
  match vs with
  | [] => None
  | v :: vs =>
      if decide (variant_fingerprint v = fingerprint) then
        let n := variant_timeouts v +₃₂ 1 in
        Some ({| variant_fingerprint := fingerprint; variant_timeouts := n |} :: vs, n)
      else '(vs, n) ← bump_variant fingerprint vs; Some (v :: vs, n)
  end.
Definition count_variant (c : ToolNoProgressGuardConfig) (fingerprint : text) (vs : list ExactVariant)
    : list ExactVariant * N * bool :=
  match bump_variant fingerprint vs with
  | Some (vs, n) => (vs, n, false)
  | None =>
      let full := bool_decide (max_exact_variants_per_strategy c ≤ N.of_nat (length vs)) in
      ((if full then drop 1 vs else vs) ++ [{| variant_fingerprint := fingerprint; variant_timeouts := 1 |}], 1, full)
  end.
(** One more timeout of a strategy: the strategy, whether a variant was pushed
    out, and the facts to report. *)
Definition count_timeout (c : ToolNoProgressGuardConfig) (fp : StrategyFingerprint) (ms : N) (s : Strategy)
    : Strategy * bool * list Fact :=
  let timeouts := timeout_count s +₃₂ 1 in
  let cumulative := cumulative_timeout_ms s +₆₄ ms in
  let '(variants, exact_timeouts, dropped) := count_variant c (fp_exact fp) (exact_variants s) in
  let exact_exhausted := bool_decide (exact_timeout_limit c ≤ exact_timeouts) in
  let structural_exhausted := bool_decide (structural_timeout_limit c ≤ timeouts) in
  let s := s <| timeout_count := timeouts |> <| cumulative_timeout_ms := cumulative |>
             <| exact_variants := variants |> <| exhausted := exhausted s || structural_exhausted |> in
  if exact_exhausted || structural_exhausted then
    (s, dropped, [FactExhausted (strategy_id s) (strategy_tool s) timeouts cumulative])
  else if bool_decide (warning_timeout_count c ≤ timeouts) && negb (warning_emitted s) then
    (s <| warning_emitted := true |>, dropped, [FactWarning (strategy_id s) (strategy_tool s) timeouts cumulative])
  else (s, dropped, []).

Section guard.
Context `{JsonText Number, !GuardEnvironment Number}.
Context (serialized_checkpoint_state_len : NoProgressState → N).

Definition fingerprint_of (c : ToolNoProgressGuardConfig) (o : ToolRetryObservation) : StrategyFingerprint :=
  new_fingerprint (tool_name o) (arguments o) (max_features_per_strategy c).
Definition forget_matching (c : ToolNoProgressGuardConfig) (st : NoProgressState) (fp : StrategyFingerprint) : NoProgressState :=
  match best_matching_strategy c st fp with
  | Some i => {| strategies := delete i (strategies st); truncated := truncated st |}
  | None => st
  end.
Definition record_timeout (c : ToolNoProgressGuardConfig) (st : NoProgressState) (fp : StrategyFingerprint) (ms : N)
    : NoProgressState * list Fact :=
  let '(i, st) := match best_matching_strategy c st fp with Some i => (i, st) | None => insert_strategy c st fp end in
  match strategies st !! i with
  | Some s =>
      let '(s, dropped, facts) := count_timeout c fp ms s in
      ({| strategies := <[i := s]> (strategies st); truncated := truncated st || dropped |}, facts)
  | None => (st, [])
  end.
Definition observe_one (c : ToolNoProgressGuardConfig) (st : NoProgressState) (o : ToolRetryObservation)
    : NoProgressState * list Fact :=
  let fp := fingerprint_of c o in
  if success o || bool_decide (status (outcome o) = StatusOk ∨ status (outcome o) = PartialSuccess)
  then (forget_matching c st fp, [])
  else if bool_decide (error_class (outcome o) ≠ Some Timeout) then (st, [])
  else if observation_has_stdout_progress o then (forget_matching c st fp, [FactProgress (tool_name o)])
  else record_timeout c st fp (observed_timeout_ms o).
Definition observe_loop (c : ToolNoProgressGuardConfig) (st : NoProgressState) (os : list ToolRetryObservation)
    : NoProgressState * list Fact :=
  foldl (λ '(st, facts) o, let '(st, more) := observe_one c st o in (st, facts ++ more)) (st, []) os.

(** ** Bounding the checkpoint *)
Definition clip_strategy (c : ToolNoProgressGuardConfig) (s : Strategy) : Strategy * bool :=
  let '(id, t1) := truncate_chars CHECKPOINT_MAX_HASH_CHARS (strategy_id s) in
  let '(tool, t2) := truncate_chars CHECKPOINT_MAX_TOOL_NAME_CHARS (strategy_tool s) in
  let '(exe, t3) := match executable s with
    | Some e => let '(e, t) := truncate_chars CHECKPOINT_MAX_EXECUTABLE_CHARS e in (Some e, t)
    | None => (None, false)
    end in
  let '(structural, t4) := truncate_chars CHECKPOINT_MAX_HASH_CHARS (structural_fingerprint s) in
  let features := truncate_chars CHECKPOINT_MAX_HASH_CHARS <$> structural_features s in
  let variants := (λ v, let '(f, t) := truncate_chars CHECKPOINT_MAX_HASH_CHARS (variant_fingerprint v) in
    ({| variant_fingerprint := f; variant_timeouts := variant_timeouts v |}, t)) <$> exact_variants s in
  let max_features := N.to_nat (max_features_per_strategy c) in
  let max_variants := N.to_nat (max_exact_variants_per_strategy c) in
  ({| strategy_id := id; strategy_tool := tool; executable := exe; structural_fingerprint := structural;
      structural_features := take max_features features.*1;
      exact_variants := drop (length variants - max_variants) variants.*1;
      timeout_count := timeout_count s; cumulative_timeout_ms := cumulative_timeout_ms s;
      warning_emitted := warning_emitted s; exhausted := exhausted s |},
   t1 || t2 || t3 || t4 || existsb snd features || existsb snd variants
   || bool_decide (max_features < length features)%nat || bool_decide (max_variants < length variants)%nat).
(** The loop that drops the oldest strategy while the checkpoint is too long. *)
Fixpoint shrink (truncated : bool) (l : list Strategy) : NoProgressState :=
  match l with
  | [] => {| strategies := []; truncated := truncated |}
  | _ :: rest =>
      let st := {| strategies := l; truncated := truncated |} in
      if decide (CHECKPOINT_STATE_MAX_BYTES < serialized_checkpoint_state_len st) then shrink true rest else st
  end.
Definition bound_state (c : ToolNoProgressGuardConfig) (st : NoProgressState) : NoProgressState :=
  let n := length (strategies st) in
  let max := N.to_nat (max_strategies c) in
  let clipped := clip_strategy c <$> drop (n - max) (strategies st) in
  shrink (truncated st || bool_decide (max < n)%nat || existsb snd clipped) clipped.*1.

Definition observe (g : ToolNoProgressGuard) (os : list ToolRetryObservation) : ToolNoProgressGuard * list Fact :=
  let '(st, facts) := observe_loop (config g) (state g) os in
  ({| config := config g; state := bound_state (config g) st |}, facts).
Definition new_no_progress_guard (c : ToolNoProgressGuardConfig) : ToolNoProgressGuard :=
  {| config := normalized_guard_config c; state := default_state |}.
Definition from_checkpoint (c : ToolNoProgressGuardConfig) (st : NoProgressState) : ToolNoProgressGuard :=
  let c := normalized_guard_config c in {| config := c; state := bound_state c st |}.
Definition checkpoint_state (g : ToolNoProgressGuard) : NoProgressState := state g.

Definition preflight (g : ToolNoProgressGuard) (tool arguments : text) : ToolNoProgressPreflightDecision :=
  let c := config g in
  let candidate := new_fingerprint tool arguments (max_features_per_strategy c) in
  match i ← best_matching_strategy c (state g) candidate; strategies (state g) !! i with
  | None => Allow
  | Some s =>
      let exact := exact_exhausted c candidate s in
      if negb exact && negb (exhausted s) then Allow
      else Block (strategy_id s) tool (if exact then SameInvocation else SimilarStrategy)
             (timeout_count s) (cumulative_timeout_ms s)
  end.
End guard.

(** ** The best match *)
Lemma best_spec {A} (f : A → option N) (l : list A) :
  match foldl better None (imap (λ i s, (i, f s)) l) with
  | Some (i, k) => (∃ s, l !! i = Some s ∧ f s = Some k) ∧
      ∀ j s k', l !! j = Some s → f s = Some k' → k' ≤ k ∧ (k' = k → (j ≤ i)%nat)
  | None => ∀ j s, l !! j = Some s → f s = None
  end.
Proof.
  induction l as [|x l IH] using rev_ind; [done|]. rewrite imap_app, foldl_app. cbn [imap foldl].
  rewrite Nat.add_0_r. destruct (foldl better None (imap (λ i s, (i, f s)) l)) as [[i k]|]; unfold better; cbn [fst snd].
  - destruct IH as [(s & Hs & Hk) Hmax]. pose proof (lookup_lt_Some _ _ _ Hs) as Hlt.
    destruct (f x) as [kx|] eqn:Hx; [destruct (decide (k ≤ kx)) as [Hle|Hgt]|].
    + split; [exists x; split; [by apply list_lookup_middle|done]|]. intros j s' k' [Hj|[-> <-]]%lookup_snoc_Some Hk'.
      * pose proof (lookup_lt_Some _ _ _ (proj2 Hj)). destruct (Hmax j s' k' (proj2 Hj) Hk'). lia.
      * rewrite Hx in Hk'. injection Hk' as <-. lia.
    + split; [exists s; by rewrite lookup_app_l|]. intros j s' k' [Hj|[-> <-]]%lookup_snoc_Some Hk'.
      * by destruct (Hmax j s' k' (proj2 Hj) Hk').
      * rewrite Hx in Hk'. injection Hk' as <-. lia.
    + split; [exists s; by rewrite lookup_app_l|]. intros j s' k' [Hj|[-> <-]]%lookup_snoc_Some Hk'.
      * by destruct (Hmax j s' k' (proj2 Hj) Hk').
      * congruence.
  - destruct (f x) as [kx|] eqn:Hx.
    + split; [exists x; split; [by apply list_lookup_middle|done]|]. intros j s' k' [Hj|[-> <-]]%lookup_snoc_Some Hk'.
      * rewrite (IH j s' (proj2 Hj)) in Hk'. done.
      * rewrite Hx in Hk'. injection Hk' as <-. done.
    + intros j s' [Hj|[-> <-]]%lookup_snoc_Some; [by eapply IH, Hj|done].
Qed.

Lemma best_matching_Some c st fp i :
  best_matching_strategy c st fp = Some i →
  ∃ s k, strategies st !! i = Some s ∧ similarity c fp s = Some k ∧
    ∀ j s' k', strategies st !! j = Some s' → similarity c fp s' = Some k' → k' ≤ k ∧ (k' = k → (j ≤ i)%nat).
Proof.
  unfold best_matching_strategy. pose proof (best_spec (similarity c fp) (strategies st)) as Hbest.
  destruct (foldl better None _) as [[i' k]|]; [|done]. intros [= ->]. destruct Hbest as [(s & ? & ?) ?]. by exists s, k.
Qed.
Lemma best_matching_None c st fp :
  best_matching_strategy c st fp = None → ∀ j s, strategies st !! j = Some s → similarity c fp s = None.
Proof.
  unfold best_matching_strategy. pose proof (best_spec (similarity c fp) (strategies st)) as Hbest.
  by destruct (foldl better None _) as [[i' k]|].
Qed.
(** A best match is recognized by dominating all others. *)
Lemma best_matching_unique c st fp i s k :
  strategies st !! i = Some s → similarity c fp s = Some k →
  (∀ j s' k', strategies st !! j = Some s' → similarity c fp s' = Some k' → k' ≤ k ∧ (k' = k → (j ≤ i)%nat)) →
  best_matching_strategy c st fp = Some i.
Proof.
  intros Hs Hk Hmax. destruct (best_matching_strategy c st fp) as [i'|] eqn:Hb.
  - destruct (best_matching_Some _ _ _ _ Hb) as (s' & k' & Hs' & Hk' & Hmax').
    destruct (Hmax _ _ _ Hs' Hk'), (Hmax' _ _ _ Hs Hk). f_equal. assert (k = k') by lia. lia.
  - rewrite (best_matching_None _ _ _ Hb _ _ Hs) in Hk. done.
Qed.

Lemma jaccard_bound l r : jaccard_millis l r ≤ 1000.
Proof.
  assert (∀ (X Y : gset text), let u := N.of_nat (size (X ∪ Y)) in
    (if decide (u = 0) then 0 else
       let q := N.min (N.of_nat (size (X ∩ Y)) * 1000) U64_MAX `div` u in if decide (q ≤ U16_MAX) then q else 1000) ≤ 1000) as Hset.
  { intros X Y u. case_decide as Hu; [lia|]. cbn zeta.
    assert (N.of_nat (size (X ∩ Y)) ≤ u) as Hi by (assert (X ∩ Y ⊆ X ∪ Y) as Hsub%subseteq_size by set_solver; unfold u; lia).
    assert (N.min (N.of_nat (size (X ∩ Y)) * 1000) U64_MAX `div` u ≤ 1000).
    { apply N.Div0.div_le_upper_bound. lia. }
    case_decide; lia. }
  unfold jaccard_millis. destruct l, r; [done|apply Hset..].
Qed.
Lemma similarity_same c fp s k :
  similarity c fp s = Some k → strategy_tool s = fp_tool fp ∧ executable s = fp_executable fp ∧ k ≤ 1000.
Proof.
  unfold similarity. destruct (bool_decide _ && bool_decide _) eqn:Hb; [|done].
  apply andb_true_iff in Hb as [?%bool_decide_eq_true ?%bool_decide_eq_true]. intros Hk. split; [done|]. split; [done|].
  repeat case_match; simplify_eq; try lia; apply jaccard_bound.
Qed.

(** ** Limits of the state *)
Record strategy_ok (c : ToolNoProgressGuardConfig) (s : Strategy) : Prop := {
  ok_id : (length (strategy_id s) ≤ CHECKPOINT_MAX_HASH_CHARS)%nat;
  ok_tool : (length (strategy_tool s) ≤ CHECKPOINT_MAX_TOOL_NAME_CHARS)%nat;
  ok_executable e : executable s = Some e → (length e ≤ CHECKPOINT_MAX_EXECUTABLE_CHARS)%nat;
  ok_structural : (length (structural_fingerprint s) ≤ CHECKPOINT_MAX_HASH_CHARS)%nat;
  ok_feature : Forall (λ f, (length f ≤ CHECKPOINT_MAX_HASH_CHARS)%nat) (structural_features s);
  ok_features : N.of_nat (length (structural_features s)) ≤ max_features_per_strategy c;
  ok_variant : Forall (λ v, (length (variant_fingerprint v) ≤ CHECKPOINT_MAX_HASH_CHARS)%nat) (exact_variants s);
  ok_variants : N.of_nat (length (exact_variants s)) ≤ max_exact_variants_per_strategy c;
}.
Record within_limits (c : ToolNoProgressGuardConfig) (st : NoProgressState) : Prop := {
  limit_strategies : N.of_nat (length (strategies st)) ≤ max_strategies c;
  limit_each : Forall (strategy_ok c) (strategies st);
}.
Record fingerprint_ok (c : ToolNoProgressGuardConfig) (fp : StrategyFingerprint) : Prop := {
  fp_tool_ok : (length (fp_tool fp) ≤ CHECKPOINT_MAX_TOOL_NAME_CHARS)%nat;
  fp_executable_ok e : fp_executable fp = Some e → (length e ≤ CHECKPOINT_MAX_EXECUTABLE_CHARS)%nat;
  fp_exact_ok : length (fp_exact fp) = 32%nat;
  fp_structural_ok : length (fp_structural fp) = 32%nat;
  fp_feature_ok : Forall (λ f, length f = 32%nat) (fp_features fp);
  fp_features_ok : N.of_nat (length (fp_features fp)) ≤ max_features_per_strategy c;
}.
Lemma normalized_limits c :
  let c := normalized_guard_config c in
  1 ≤ max_strategies c ≤ 16 ∧ 1 ≤ max_exact_variants_per_strategy c ≤ 8 ∧ 8 ≤ max_features_per_strategy c ≤ 32 ∧
  1 ≤ exact_timeout_limit c ∧ 2 ≤ structural_timeout_limit c.
Proof.
  cbn. unfold clamp_between, CHECKPOINT_MAX_STRATEGIES, CHECKPOINT_MAX_EXACT_VARIANTS_PER_STRATEGY, CHECKPOINT_MAX_FEATURES_PER_STRATEGY. lia.
Qed.

Lemma truncate_chars_spec n t :
  (length (truncate_chars n t).1 ≤ n)%nat ∧ ((length t ≤ n)%nat → truncate_chars n t = (t, false)) ∧
  ((truncate_chars n t).2 = false → (length t ≤ n)%nat).
Proof.
  unfold truncate_chars. cbn [fst snd]. rewrite length_take. split; [lia|]. split.
  - intros Hle. rewrite take_ge by done. by rewrite bool_decide_false by lia.
  - rewrite bool_decide_eq_false. lia.
Qed.

Lemma truncate_chars_id n t : (length t ≤ n)%nat → truncate_chars n t = (t, false).
Proof. apply (truncate_chars_spec n t). Qed.
Lemma truncate_chars_bound n t : (length (truncate_chars n t).1 ≤ n)%nat.
Proof. apply (truncate_chars_spec n t). Qed.
Lemma truncate_chars_false n t : (truncate_chars n t).2 = false → (length t ≤ n)%nat.
Proof. apply (truncate_chars_spec n t). Qed.
Lemma existsb_false {A} (f : A → bool) l : existsb f l = false ↔ Forall (λ x, f x = false) l.
Proof.
  induction l as [|x l IH]; cbn; [done|]. rewrite orb_false_iff, IH, Forall_cons. done.
Qed.

Lemma clip_strategy_ok c s : strategy_ok c (clip_strategy c s).1.
Proof.
  unfold clip_strategy.
  assert (∀ n t v b, truncate_chars n t = (v, b) → (length v ≤ n)%nat) as Hb.
  { intros n t v b Heq. pose proof (truncate_chars_bound n t) as H. by rewrite Heq in H. }
  destruct (truncate_chars CHECKPOINT_MAX_HASH_CHARS (strategy_id s)) as [id t1] eqn:E1.
  destruct (truncate_chars _ (strategy_tool s)) as [tool t2] eqn:E2.
  destruct (truncate_chars _ (structural_fingerprint s)) as [structural t4] eqn:E4.
  destruct (match executable s with Some _ => _ | None => _ end) as [exe t3] eqn:E3. cbn [fst]. split; cbn.
  - by eapply Hb. - by eapply Hb.
  - intros e ->. destruct (executable s) as [e'|]; [|done]. destruct (truncate_chars CHECKPOINT_MAX_EXECUTABLE_CHARS e') as [e'' t] eqn:Ee.
    injection E3 as -> ->. by eapply Hb.
  - by eapply Hb.
  - apply Forall_take, Forall_fmap, Forall_fmap, Forall_forall. intros f _. apply truncate_chars_bound.
  - rewrite length_take. lia.
  - apply Forall_drop, Forall_fmap, Forall_fmap, Forall_forall. intros v _. cbn.
    destruct (truncate_chars CHECKPOINT_MAX_HASH_CHARS (variant_fingerprint v)) as [f t] eqn:Ev. cbn. by eapply Hb.
  - rewrite length_drop, !length_fmap. lia.
Qed.
Lemma clip_strategy_id c s : strategy_ok c s → clip_strategy c s = (s, false).
Proof.
  intros [H1 H2 H3 H4 H5 H6 H7 H8]. unfold clip_strategy. rewrite !truncate_chars_id by done.
  assert (truncate_chars CHECKPOINT_MAX_HASH_CHARS <$> structural_features s = (λ f, (f, false)) <$> structural_features s) as ->.
  { apply list_fmap_ext. intros i f Hf. apply truncate_chars_id. by eapply Forall_lookup_1 in H5. }
  assert ((λ v, let '(f, t) := truncate_chars CHECKPOINT_MAX_HASH_CHARS (variant_fingerprint v) in
    ({| variant_fingerprint := f; variant_timeouts := variant_timeouts v |}, t)) <$> exact_variants s
    = (λ v, (v, false)) <$> exact_variants s) as ->.
  { apply list_fmap_ext. intros i v Hv. eapply Forall_lookup_1 in H7; [|done]. rewrite truncate_chars_id by done. by destruct v. }
  rewrite !length_fmap, <-!list_fmap_compose. unfold compose; cbn [fst]. rewrite !list_fmap_id.
  rewrite (bool_decide_false (N.to_nat (max_features_per_strategy c) < _)%nat) by lia.
  rewrite (bool_decide_false (N.to_nat (max_exact_variants_per_strategy c) < _)%nat) by lia.
  rewrite take_ge by lia. replace (length (exact_variants s) - _)%nat with 0%nat by lia. rewrite drop_0.
  assert (∀ {A} (l : list A), existsb snd ((λ x, (x, false)) <$> l) = false) as Hf by (intros A l; induction l; [done|cbn; done]).
  rewrite !Hf. destruct (executable s) as [e|] eqn:He; [rewrite truncate_chars_id by by apply H3|]; by destruct s; cbn in *; subst.
Qed.
Lemma clip_strategy_honest c s : (clip_strategy c s).2 = false → strategy_ok c s.
Proof.
  unfold clip_strategy.
  pose proof (truncate_chars_false CHECKPOINT_MAX_HASH_CHARS (strategy_id s)) as H1.
  pose proof (truncate_chars_false CHECKPOINT_MAX_TOOL_NAME_CHARS (strategy_tool s)) as H2.
  pose proof (truncate_chars_false CHECKPOINT_MAX_HASH_CHARS (structural_fingerprint s)) as H4.
  destruct (truncate_chars _ (strategy_id s)) as [id t1], (truncate_chars _ (strategy_tool s)) as [tool t2],
    (truncate_chars _ (structural_fingerprint s)) as [structural t4].
  assert (∀ exe t3, match executable s with
    | Some e => let '(e, t) := truncate_chars CHECKPOINT_MAX_EXECUTABLE_CHARS e in (Some e, t) | None => (None, false) end = (exe, t3) →
    t3 = false → ∀ e, executable s = Some e → (length e ≤ CHECKPOINT_MAX_EXECUTABLE_CHARS)%nat) as H3.
  { intros exe t3 Heq -> e He. rewrite He in Heq. pose proof (truncate_chars_false CHECKPOINT_MAX_EXECUTABLE_CHARS e) as Hcut.
    destruct (truncate_chars CHECKPOINT_MAX_EXECUTABLE_CHARS e) as [e' t]. injection Heq as _ ->. by apply Hcut. }
  destruct (match executable s with Some _ => _ | None => _ end) as [exe t3]. specialize (H3 exe t3 eq_refl). cbn [snd] in *.
  rewrite !orb_false_iff, !existsb_false, !Forall_fmap, !bool_decide_eq_false, !length_fmap.
  intros (((((((T1 & T2) & T3) & T4) & T5) & T6) & T7) & T8).
  split; [auto|auto|auto|auto| |lia| |lia].
  - eapply Forall_impl; [exact T5|]. intros f. apply truncate_chars_false.
  - eapply Forall_impl; [exact T6|]. intros v Hv. apply truncate_chars_false. exact Hv.
Qed.

Section bounding.
Context (serialized_checkpoint_state_len : NoProgressState → N).
#[local] Abbreviation bound_state := (bound_state serialized_checkpoint_state_len).
#[local] Abbreviation shrink := (shrink serialized_checkpoint_state_len).

(** The serialized checkpoint fits, or nothing is left to drop. *)
Definition fits (st : NoProgressState) : Prop :=
  strategies st = [] ∨ serialized_checkpoint_state_len st ≤ CHECKPOINT_STATE_MAX_BYTES.

Lemma shrink_state_spec b l :
  fits (shrink b l) ∧ (∃ dropped, l = dropped ++ strategies (shrink b l)) ∧
  (truncated (shrink b l) = false → shrink b l = {| strategies := l; truncated := b |}) ∧
  (fits {| strategies := l; truncated := b |} → shrink b l = {| strategies := l; truncated := b |}).
Proof.
  revert b; induction l as [|s l IH]; intros b; cbn [ToolNoProgress.shrink].
  - split; [by left|]. split; [by exists []|done].
  - destruct (decide (CHECKPOINT_STATE_MAX_BYTES < _)) as [Hlt|Hle].
    + destruct (IH true) as (Hf & (d & Hd) & Hh & _). split; [done|]. split; [exists (s :: d); cbn; by f_equal|].
      split.
      * intros Ht. exfalso. specialize (Hh Ht). rewrite Hh in Ht. done.
      * intros [?|?]; [done|lia].
    + split; [right; lia|]. split; [by exists []|done].
Qed.
Lemma bound_state_ok c st : within_limits c (bound_state c st) ∧ fits (bound_state c st).
Proof.
  unfold ToolNoProgress.bound_state. match goal with |- context [shrink ?b ?l] => destruct (shrink_state_spec b l) as (Hf & (d & Hd) & _) end.
  split; [|exact Hf]. split.
  - apply (f_equal length) in Hd. rewrite length_app, !length_fmap, length_drop in Hd. lia.
  - assert (Forall (strategy_ok c) (clip_strategy c <$> drop (length (strategies st) - N.to_nat (max_strategies c)) (strategies st)).*1) as HF.
    { apply Forall_fmap, Forall_fmap, Forall_forall. intros s _. apply clip_strategy_ok. }
    rewrite Hd in HF. by apply Forall_app in HF as [_ HF].
Qed.
Lemma bound_state_id c st : within_limits c st → fits st → bound_state c st = st.
Proof.
  intros [Hn HF] Hfits. unfold ToolNoProgress.bound_state. replace (length (strategies st) - _)%nat with 0%nat by lia. rewrite drop_0.
  assert (clip_strategy c <$> strategies st = (λ s, (s, false)) <$> strategies st) as ->.
  { apply list_fmap_ext. intros i s Hs. eapply Forall_lookup_1 in HF; [|done]. by apply clip_strategy_id. }
  rewrite <-list_fmap_compose. unfold compose; cbn [fst]. rewrite list_fmap_id, bool_decide_false by lia.
  assert (existsb snd ((λ s : Strategy, (s, false)) <$> strategies st) = false) as ->
    by (generalize (strategies st) as l; induction l; [done|cbn; done]).
  rewrite !orb_false_r. destruct st. by apply shrink_state_spec.
Qed.
Lemma bound_state_suffix c st : within_limits c st → ∃ dropped, strategies st = dropped ++ strategies (bound_state c st).
Proof.
  intros [Hn HF]. unfold ToolNoProgress.bound_state.
  match goal with |- context [shrink ?b ?l] => destruct (shrink_state_spec b l) as (_ & (d & Hd) & _) end. exists d. rewrite <-Hd.
  replace (length (strategies st) - _)%nat with 0%nat by lia. rewrite drop_0, <-list_fmap_compose.
  rewrite <-(list_fmap_id (strategies st)) at 1. apply list_fmap_ext. intros i s Hs. eapply Forall_lookup_1 in HF; [|done].
  unfold compose. by rewrite clip_strategy_id.
Qed.
(** Without the truncation mark nothing was lost. *)
Lemma bound_state_honest c st : truncated (bound_state c st) = false → bound_state c st = st.
Proof.
  unfold ToolNoProgress.bound_state. match goal with |- context [shrink ?b ?l] => destruct (shrink_state_spec b l) as (Hf & _ & Hh & _) end.
  intros Ht. specialize (Hh Ht). rewrite Hh in Hf, Ht |- *. cbn in Ht. rewrite !orb_false_iff, bool_decide_eq_false, existsb_false, Forall_fmap in Ht.
  destruct Ht as [[Hb Hn] HF]. replace (length (strategies st) - _)%nat with 0%nat in * by lia. rewrite drop_0 in *.
  assert ((clip_strategy c <$> strategies st).*1 = strategies st) as Hid.
  { rewrite <-list_fmap_compose. rewrite <-(list_fmap_id (strategies st)) at 2. apply list_fmap_ext. intros i s Hs.
    eapply Forall_lookup_1 in HF; [|done]. apply clip_strategy_honest in HF. unfold compose. by rewrite clip_strategy_id. }
  rewrite Hid, bool_decide_false by lia.
  assert (existsb snd (clip_strategy c <$> strategies st) = false) as -> by (apply existsb_false, Forall_fmap; exact HF).
  rewrite !orb_false_r. by destruct st.
Qed.
End bounding.

(** ** Steps keep the limits *)

(** The first variant with a fingerprint. *)
Definition variant_of (fingerprint : text) (vs : list ExactVariant) : option ExactVariant :=
  head (filter (λ v, variant_fingerprint v = fingerprint) vs).
Lemma bump_variant_spec fingerprint vs :
  match bump_variant fingerprint vs with
  | Some (vs', n) => ∃ before v after, vs = before ++ v :: after ∧ variant_of fingerprint before = None ∧
      variant_fingerprint v = fingerprint ∧ n = variant_timeouts v +₃₂ 1 ∧
      vs' = before ++ {| variant_fingerprint := fingerprint; variant_timeouts := n |} :: after
  | None => variant_of fingerprint vs = None
  end.
Proof.
  induction vs as [|v vs IH]; cbn; [done|]. destruct (decide (variant_fingerprint v = fingerprint)) as [Hv|Hv].
  - by exists [], v, vs.
  - destruct (bump_variant fingerprint vs) as [[vs' n]|]; cbn.
    + destruct IH as (bef & w & aft & -> & Hbef & Hw & -> & ->). exists (v :: bef), w, aft.
      split; [done|]. split; [|done]. unfold variant_of. by rewrite filter_cons, decide_False.
    + unfold variant_of. by rewrite filter_cons, decide_False.
Qed.
Lemma variant_of_app fingerprint vs v ws :
  variant_of fingerprint vs = None → variant_fingerprint v = fingerprint → variant_of fingerprint (vs ++ v :: ws) = Some v.
Proof.
  unfold variant_of. intros Hn Hv. rewrite filter_app, filter_cons, decide_True by done.
  destruct (filter _ vs); [done|discriminate Hn].
Qed.
Lemma count_variant_spec c fingerprint vs :
  1 ≤ max_exact_variants_per_strategy c →
  let '(vs', n, dropped) := count_variant c fingerprint vs in
  (N.of_nat (length vs) ≤ max_exact_variants_per_strategy c → N.of_nat (length vs') ≤ max_exact_variants_per_strategy c) ∧
  variant_of fingerprint vs' = Some {| variant_fingerprint := fingerprint; variant_timeouts := n |} ∧
  n = default 0 (variant_timeouts <$> variant_of fingerprint vs) +₃₂ 1 ∧
  (∀ v, v ∈ vs' → v ∈ vs ∨ v = {| variant_fingerprint := fingerprint; variant_timeouts := n |}).
Proof.
  intros Hone. unfold count_variant. pose proof (bump_variant_spec fingerprint vs) as Hb.
  destruct (bump_variant fingerprint vs) as [[vs' n]|].
  - destruct Hb as (bef & v & aft & -> & Hbef & Hv & Hn & ->). rewrite !length_app. cbn [length].
    split; [done|]. rewrite !variant_of_app by done. split; [done|]. split; [done|].
    intros w [Hw|[->|Hw]%elem_of_cons]%elem_of_app; [left|by right|left]; apply elem_of_app; [by left|right; by right].
  - rewrite Hb. set (kept := if bool_decide _ then drop 1 vs else vs).
    assert (∀ v, v ∈ kept → v ∈ vs) as Hkept.
    { intros v. unfold kept. case_bool_decide; [|done]. intros Hv. by eapply elem_of_sublist, sublist_drop. }
    assert (variant_of fingerprint kept = None) as Hnone.
    { unfold variant_of in *. destruct (filter _ kept) as [|v l] eqn:Hf; [done|].
      assert (v ∈ filter (λ v, variant_fingerprint v = fingerprint) kept) as [Hv Hin]%list_elem_of_filter by (rewrite Hf; left).
      by destruct (head_filter_None _ _ Hb v (Hkept v Hin)). }
    split; [|split; [by apply variant_of_app|split; [done|]]].
    + intros Hle. rewrite length_app. cbn [length]. unfold kept. case_bool_decide; rewrite ?length_drop; lia.
    + intros v [Hv|Hv%list_elem_of_singleton]%elem_of_app; [left; by apply Hkept|by right].
Qed.

Section steps.
Context `{JsonText Number, GuardEnvironmentLaws Number}.

Lemma new_fingerprint_ok c tool args : fingerprint_ok c (new_fingerprint tool args (max_features_per_strategy c)).
Proof.
  unfold new_fingerprint. split; cbn [fp_tool fp_executable fp_exact fp_structural fp_features].
  - apply truncate_chars_bound.
  - intros e. unfold executable_identity. case_decide; [|done]. destruct (json_get _ _) as [[| | | |command|]|]; try done.
    destruct (head command ≫= json_str); [|done]. cbn [mbind option_bind]. intros [= <-]. apply truncate_chars_bound.
  - apply short_hash_length.
  - apply short_hash_length.
  - apply Forall_take, Forall_fmap, Forall_forall. intros f _. apply short_hash_length.
  - rewrite length_take. lia.
Qed.

Lemma insert_strategy_ok c st fp :
  1 ≤ max_strategies c → within_limits c st → fingerprint_ok c fp →
  within_limits c (insert_strategy c st fp).2.
Proof.
  intros Hone [Hn HF] [F1 F2 F3 F4 F5 F6]. unfold insert_strategy. cbn [snd]. split; cbn [strategies].
  - rewrite length_app. cbn [length]. case_bool_decide; rewrite ?length_drop; lia.
  - apply Forall_app. split.
    + case_bool_decide; [by apply Forall_drop|done].
    + constructor; [|done]. split; cbn; try done.
      * rewrite length_take, F4. unfold CHECKPOINT_MAX_HASH_CHARS. lia.
      * rewrite F4. unfold CHECKPOINT_MAX_HASH_CHARS. lia.
      * eapply Forall_impl; [exact F5|]. intros f ->. unfold CHECKPOINT_MAX_HASH_CHARS. lia.
      * lia.
Qed.
Lemma count_timeout_ok c fp ms s :
  1 ≤ max_exact_variants_per_strategy c → fingerprint_ok c fp → strategy_ok c s → strategy_ok c (count_timeout c fp ms s).1.1.
Proof.
  intros Hone Hfp [H1' H2 H3 H4 H5 H6 H7 H8]. unfold count_timeout.
  pose proof (count_variant_spec c (fp_exact fp) (exact_variants s) Hone) as Hv.
  destruct (count_variant c (fp_exact fp) (exact_variants s)) as [[vs n] dropped]. destruct Hv as (Hlen & _ & _ & Hin).
  assert (Forall (λ v, (length (variant_fingerprint v) ≤ CHECKPOINT_MAX_HASH_CHARS)%nat) vs) as HF.
  { rewrite Forall_forall in H7 |- *. intros v [Hv| ->]%Hin; [by apply H7|]. cbn. rewrite (fp_exact_ok _ _ Hfp).
    unfold CHECKPOINT_MAX_HASH_CHARS. lia. }
  specialize (Hlen H8). repeat case_match; by split.
Qed.
Lemma forget_matching_ok c st fp : within_limits c st → within_limits c (forget_matching c st fp).
Proof.
  intros [Hn HF]. unfold forget_matching. destruct (best_matching_strategy c st fp) as [i|]; [|done]. split; cbn.
  - pose proof (sublist_length _ _ (sublist_delete (strategies st) i)). lia.
  - by apply Forall_delete.
Qed.
Lemma record_timeout_ok c st fp ms :
  1 ≤ max_strategies c → 1 ≤ max_exact_variants_per_strategy c → within_limits c st → fingerprint_ok c fp →
  within_limits c (record_timeout c st fp ms).1.
Proof.
  intros Hs Hv Hw Hfp. unfold record_timeout. pose proof (insert_strategy_ok c st fp Hs Hw Hfp) as Hins.
  destruct (match best_matching_strategy c st fp with Some i => _ | None => _ end) as [i st'] eqn:Hst'.
  assert (within_limits c st') as [Hn HF].
  { destruct (best_matching_strategy c st fp); [by injection Hst' as _ <-|by rewrite Hst' in Hins]. }
  destruct (strategies st' !! i) as [s|] eqn:Hi; [|done].
  pose proof (count_timeout_ok c fp ms s Hv Hfp (Forall_lookup_1 _ _ _ _ HF Hi)) as Hok.
  destruct (count_timeout c fp ms s) as [[s' dropped] facts]. split; cbn; [by rewrite length_insert|by apply Forall_insert].
Qed.
Lemma observe_one_ok c st o :
  1 ≤ max_strategies c → 1 ≤ max_exact_variants_per_strategy c → within_limits c st → within_limits c (observe_one c st o).1.
Proof.
  intros Hs Hv Hw. unfold observe_one. pose proof (new_fingerprint_ok c (tool_name o) (arguments o)) as Hfp. fold (fingerprint_of c o) in Hfp.
  repeat case_match; cbn [fst]; [by apply forget_matching_ok|done|by apply forget_matching_ok|by apply record_timeout_ok].
Qed.
Lemma observe_loop_fst c st os : (observe_loop c st os).1 = foldl (λ st o, (observe_one c st o).1) st os.
Proof.
  unfold observe_loop. generalize (@nil Fact) as facts. revert st. induction os as [|o os IH]; intros st facts; [done|].
  cbn [foldl]. destruct (observe_one c st o) as [st' more]. apply IH.
Qed.
Lemma observe_loop_ok c st os :
  1 ≤ max_strategies c → 1 ≤ max_exact_variants_per_strategy c → within_limits c st → within_limits c (observe_loop c st os).1.
Proof.
  intros Hs Hv. rewrite observe_loop_fst. revert st; induction os as [|o os IH]; intros st Hw; [done|]. cbn. by apply IH, observe_one_ok.
Qed.
End steps.

(** ** Control arguments do not matter *)
Lemma filter_insert_on {K A} `{OrderedLaws K} (key : A → K) (P : A → Prop) `{!∀ x, Decision (P x)} k0 e l :
  (∀ x, P x → key x = k0) → filter P (insert_on key e l) = if decide (P e) then e :: filter P l else filter P l.
Proof.
  intros Hkey. induction l as [|d l IH]; cbn [insert_on]; [by rewrite filter_cons|].
  destruct (decide (key_leq key e d)) as [Hle|Hle]; [by rewrite !filter_cons|]. rewrite !filter_cons, IH. destruct (decide (P e)) as [He|He]; [|done].
  rewrite !(decide_False (P:=P d)); [done|..]; intros Hd; apply Hle; unfold key_leq; by rewrite (Hkey e He), (Hkey d Hd), cmp_refl.
Qed.
(** A stable sort keeps the order of elements with one key. *)
Lemma filter_sort_on {K A} `{OrderedLaws K} (key : A → K) (P : A → Prop) `{!∀ x, Decision (P x)} k0 l :
  (∀ x, P x → key x = k0) → filter P (sort_on key l) = filter P l.
Proof.
  intros Hkey. induction l as [|e l IH]; [done|]. cbn [sort_on foldr]. fold (sort_on key l).
  rewrite (filter_insert_on key P k0) by done. rewrite filter_cons, IH. done.
Qed.

Section equivalence.
Context `{JsonText Number, GuardEnvironmentLaws Number}.

Lemma json_get_normalized (v : Json Number) key :
  key ∉ CONTROL_ARGUMENT_KEYS → json_get (normalized_exact_arguments v) key = normalized_exact_arguments <$> json_get v key.
Proof.
  intros Hkey. destruct v as [| | | | |members]; try done. cbn [normalized_exact_arguments json_get].
  set (f := λ m : text * Json Number, (m.1, normalized_exact_arguments m.2)).
  rewrite list_filter_filter. rewrite (filter_ext _ (λ m, m.1 = key)).
  2: { intros m _. split; [tauto|]. intros Hm. rewrite Hm. tauto. }
  rewrite (filter_sort_on fst _ key) by done. clear Hkey. induction members as [|m members IH]; [done|].
  cbn [fmap list_fmap]. rewrite !filter_cons. unfold f at 1; cbn [fst]. by destruct (decide (m.1 = key)).
Qed.
Lemma executable_normalized tool (v : Json Number) :
  executable_identity tool (normalized_exact_arguments v) = executable_identity tool v.
Proof.
  unfold executable_identity. case_decide; [|done]. rewrite json_get_normalized by (apply (bool_decide_unpack _); vm_compute; exact I).
  destruct (json_get v _) as [[| | | |items|]|]; try done. cbn. destruct items as [|item items]; [done|]. by destruct item.
Qed.
Lemma new_fingerprint_same tool a b n :
  normalized_exact_arguments (parse_arguments a) = normalized_exact_arguments (parse_arguments b) →
  new_fingerprint tool a n = new_fingerprint tool b n.
Proof.
  intros Heq. unfold new_fingerprint. rewrite <-(executable_normalized tool (parse_arguments a)), Heq, executable_normalized. done.
Qed.
End equivalence.

(** ** Repeated timeouts *)
(** How often the strategy that matches has seen the very invocation time out. *)
Definition evidence (c : ToolNoProgressGuardConfig) (st : NoProgressState) (fp : StrategyFingerprint) : N :=
  match i ← best_matching_strategy c st fp; strategies st !! i with
  | Some s => default 0 (variant_timeouts <$> variant_of (fp_exact fp) (exact_variants s))
  | None => 0
  end.
Lemma count_timeout_spec c fp ms s :
  1 ≤ max_exact_variants_per_strategy c →
  let s' := (count_timeout c fp ms s).1.1 in
  strategy_tool s' = strategy_tool s ∧ executable s' = executable s ∧
  timeout_count s' = timeout_count s +₃₂ 1 ∧
  exhausted s' = exhausted s || bool_decide (structural_timeout_limit c ≤ timeout_count s +₃₂ 1) ∧
  (∃ n, n = default 0 (variant_timeouts <$> variant_of (fp_exact fp) (exact_variants s)) +₃₂ 1 ∧
     variant_of (fp_exact fp) (exact_variants s') = Some {| variant_fingerprint := fp_exact fp; variant_timeouts := n |} ∧
     ∀ v, v ∈ exact_variants s' → v ∈ exact_variants s ∨ v = {| variant_fingerprint := fp_exact fp; variant_timeouts := n |}).
Proof.
  intros Hone. unfold count_timeout. pose proof (count_variant_spec c (fp_exact fp) (exact_variants s) Hone) as Hv.
  destruct (count_variant c (fp_exact fp) (exact_variants s)) as [[vs n] dropped]. destruct Hv as (_ & Hof & Hn & Hin).
  cbn zeta. repeat case_match; (split; [done|]; split; [done|]; split; [done|]; split; [done|]; by exists n).
Qed.
Lemma variant_of_Some fingerprint vs v : variant_of fingerprint vs = Some v → v ∈ vs ∧ variant_fingerprint v = fingerprint.
Proof.
  unfold variant_of. intros (l1 & l2 & -> & Hv & _)%head_filter_Some. split; [|done]. apply elem_of_app. right. left.
Qed.
Lemma similarity_variant c fp s v :
  strategy_tool s = fp_tool fp → executable s = fp_executable fp → variant_of (fp_exact fp) (exact_variants s) = Some v →
  similarity c fp s = Some 1000.
Proof.
  intros Ht He (Hin & Hv)%variant_of_Some. unfold similarity. rewrite !bool_decide_true by done. cbn.
  assert (has_variant (fp_exact fp) s = true) as ->; [|done].
  apply existsb_elem. exists v. split; [done|]. by apply bool_decide_eq_true.
Qed.

(** The strategy that counts a timeout is the best match afterwards. *)
Lemma record_timeout_evidence c st fp ms :
  1 ≤ max_exact_variants_per_strategy c → evidence c (record_timeout c st fp ms).1 fp = evidence c st fp +₃₂ 1.
Proof.
  intros Hone. unfold record_timeout, evidence at 2.
  assert (∀ st' i s, strategies st' !! i = Some s → strategy_tool s = fp_tool fp → executable s = fp_executable fp →
    (∀ j s' k, strategies st' !! j = Some s' → similarity c fp s' = Some k → (j ≤ i)%nat ∨ k < 1000) →
    evidence c (let '(s, dropped, facts) := count_timeout c fp ms s in
      ({| strategies := <[i := s]> (strategies st'); truncated := truncated st' || dropped |}, facts)).1 fp
    = default 0 (variant_timeouts <$> variant_of (fp_exact fp) (exact_variants s)) +₃₂ 1) as Hcount.
  { intros st' i s Hs Htool Hexe Hlast. pose proof (count_timeout_spec c fp ms s Hone) as (Ht & He & _ & _ & n & Hn & Hof & _).
    destruct (count_timeout c fp ms s) as [[s' dropped] facts]. cbn [fst] in *.
    assert (best_matching_strategy c {| strategies := <[i:=s']> (strategies st'); truncated := truncated st' || dropped |} fp = Some i) as Hbest.
    { apply (best_matching_unique _ _ _ _ s' 1000); cbn.
      - apply list_lookup_insert_eq. by eapply lookup_lt_Some.
      - eapply similarity_variant; [by rewrite Ht|by rewrite He|exact Hof].
      - intros j t k Hj Hk. pose proof (similarity_same _ _ _ _ Hk) as (_ & _ & Hmax). split; [done|]. intros ->.
        destruct (decide (j = i)) as [->|Hne]; [done|]. rewrite list_lookup_insert_ne in Hj by done.
        destruct (Hlast j t 1000 Hj Hk); [done|lia]. }
    unfold evidence. rewrite Hbest. cbn. rewrite list_lookup_insert_eq by (by eapply lookup_lt_Some). by rewrite Hof, <-Hn. }
  destruct (best_matching_strategy c st fp) as [i|] eqn:Hb; cbn [mbind option_bind].
  - destruct (best_matching_Some _ _ _ _ Hb) as (s & k & Hs & Hk & Hmax). rewrite Hs.
    pose proof (similarity_same _ _ _ _ Hk) as (Htool & Hexe & Hk1000). apply Hcount; [done..|].
    intros j t kj Hj Hkj. destruct (Hmax j t kj Hj Hkj) as [Hle Heq].
    destruct (decide (kj = k)) as [->|]; [left; by apply Heq|right; lia].
  - unfold insert_strategy. cbn [strategies]. set (kept := if bool_decide _ then drop 1 _ else _).
    rewrite list_lookup_middle by done.
    apply (Hcount {| strategies := kept ++ [fresh_strategy fp]; truncated := _ |} (length kept) (fresh_strategy fp)); [by apply list_lookup_middle|done|done|].
    intros j t kj Hj _. left. apply lookup_lt_Some in Hj. cbn in Hj. rewrite length_app in Hj. cbn in Hj. lia.
Qed.

Section theorems.
Context `{JsonText Number, GuardEnvironmentLaws Number}.
Context (serialized_checkpoint_state_len : NoProgressState → N).
#[local] Abbreviation bound_state := (bound_state serialized_checkpoint_state_len).
#[local] Abbreviation from_checkpoint := (from_checkpoint serialized_checkpoint_state_len).
#[local] Abbreviation observe := (observe serialized_checkpoint_state_len).
#[local] Abbreviation fits := (fits serialized_checkpoint_state_len).

(** A guard after some batches. *)
Definition observed (g : ToolNoProgressGuard) (batches : list (list ToolRetryObservation)) : ToolNoProgressGuard :=
  foldl (λ g os, (observe g os).1) g batches.
Lemma observed_snoc g batches os : observed g (batches ++ [os]) = (observe (observed g batches) os).1.
Proof. unfold observed. by rewrite foldl_app. Qed.
Lemma observe_fst g os :
  (observe g os).1 = {| config := config g; state := bound_state (config g) (observe_loop (config g) (state g) os).1 |}.
Proof. unfold ToolNoProgress.observe. by destruct (observe_loop (config g) (state g) os). Qed.
Lemma observed_ok c st batches :
  let g := observed (from_checkpoint c st) batches in
  config g = normalized_guard_config c ∧ within_limits (config g) (state g) ∧ fits (state g).
Proof.
  induction batches as [|os batches IH] using rev_ind.
  - split; [done|]. apply bound_state_ok.
  - cbn zeta in *. rewrite observed_snoc, observe_fst. cbn [config state]. destruct IH as (Hc & _). split; [done|]. apply bound_state_ok.
Qed.

(** the evidence stays within the checkpoint's budget. A guard restored
    from any checkpoint, after any batches, keeps at most 16 strategies with at
    most 32 features and 8 variants each and texts of bounded length, and its
    serialized state is within 48 KiB or empty; restoring its own checkpoint
    gives the same guard; a restored state that is not marked as truncated is
    the stored one. *)
Theorem no_progress_state_bounded (c : ToolNoProgressGuardConfig) (st : NoProgressState)
    (batches : list (list ToolRetryObservation)) :
  let g := observed (from_checkpoint c st) batches in
  (length (strategies (state g)) ≤ 16)%nat ∧
  Forall (λ s, (length (structural_features s) ≤ 32)%nat ∧ (length (exact_variants s) ≤ 8)%nat ∧
    strategy_ok (normalized_guard_config c) s) (strategies (state g)) ∧
  (strategies (state g) = [] ∨ serialized_checkpoint_state_len (state g) ≤ CHECKPOINT_STATE_MAX_BYTES) ∧
  from_checkpoint c (checkpoint_state g) = g ∧
  (truncated (state (from_checkpoint c st)) = false → state (from_checkpoint c st) = st).
Proof.
  intros g. pose proof (observed_ok c st batches) as (Hc & [Hn HF] & Hf). fold g in Hc, Hn, HF, Hf. rewrite Hc in Hn, HF.
  pose proof (normalized_limits c) as (Hs & Hv & Hft & _). split; [lia|]. split.
  { eapply Forall_impl; [exact HF|]. intros s Hok. pose proof (ok_features _ _ Hok). pose proof (ok_variants _ _ Hok). split; [lia|]. split; [lia|done]. }
  split; [exact Hf|]. split.
  - unfold ToolNoProgress.from_checkpoint, checkpoint_state. rewrite bound_state_id; [|by split|done]. rewrite <-Hc. by destruct g.
  - apply bound_state_honest.
Qed.

(** A timeout that counts as no progress. *)
Definition no_progress_timeout (o : ToolRetryObservation) : Prop :=
  success o = false ∧ status (outcome o) ≠ StatusOk ∧ status (outcome o) ≠ PartialSuccess ∧
  error_class (outcome o) = Some Timeout ∧ observation_has_stdout_progress o = false.
#[local] Instance no_progress_timeout_dec o : Decision (no_progress_timeout o).
Proof. unfold no_progress_timeout. apply _. Defined.
Lemma observe_one_timeout c st o :
  no_progress_timeout o → observe_one c st o = record_timeout c st (fingerprint_of c o) (observed_timeout_ms o).
Proof.
  intros (Hs & Hok & Hpart & Hclass & Hout). unfold observe_one. rewrite Hs, Hclass, Hout.
  rewrite !bool_decide_false by naive_solver. done.
Qed.

(** an invocation that keeps timing out is blocked. When a batch brings as
    many timeouts of one invocation without progress as the limit allows, the
    guard blocks that invocation from then on, however its control arguments
    (timeouts and output limits) and the order of its arguments vary, unless
    the checkpoint budget forces old evidence out. *)
Theorem repeated_timeouts_blocked (c : ToolNoProgressGuardConfig) (st : NoProgressState)
    (batches : list (list ToolRetryObservation)) (os : list ToolRetryObservation) (tool args : text) :
  let g := observed (from_checkpoint c st) batches in
  exact_timeout_limit (config g) ≤ U32_MAX →
  exact_timeout_limit (config g) ≤ N.of_nat (length os) →
  Forall (λ o, no_progress_timeout o ∧ tool_name o = tool ∧
    normalized_exact_arguments (parse_arguments (arguments o)) = normalized_exact_arguments (parse_arguments args)) os →
  serialized_checkpoint_state_len (observe_loop (config g) (state g) os).1 ≤ CHECKPOINT_STATE_MAX_BYTES →
  ∃ strategy timeouts ms, preflight (observe g os).1 tool args = Block strategy tool SameInvocation timeouts ms.
Proof.
  intros g Hu Hlen HF Hsize. pose proof (observed_ok c st batches) as (Hc & Hw & _). fold g in Hc, Hw. set (cfg := config g) in *.
  pose proof (normalized_limits c) as (Hs & Hv & _ & He & _). rewrite <-Hc in Hs, Hv, He.
  set (fp := new_fingerprint tool args (max_features_per_strategy cfg)).
  assert (within_limits cfg (observe_loop cfg (state g) os).1) as Hw' by (by apply observe_loop_ok; [lia|lia|]).
  rewrite observe_fst. fold cfg. rewrite bound_state_id; [|done|by right].
  assert (N.min (N.of_nat (length os)) U32_MAX ≤ evidence cfg (observe_loop cfg (state g) os).1 fp) as Hev.
  { rewrite observe_loop_fst. clear Hlen Hsize Hw'. induction os as [|o os IH] using rev_ind; [cbn; lia|].
    apply Forall_app in HF as [HF Ho]. apply Forall_cons in Ho as [(Hno & Htool & Hargs) _]. specialize (IH HF).
    rewrite foldl_app. cbn [foldl]. rewrite observe_one_timeout by done.
    assert (fingerprint_of cfg o = fp) as -> by (unfold fingerprint_of, fp; rewrite Htool; by apply new_fingerprint_same).
    rewrite record_timeout_evidence by lia. rewrite length_app. cbn [length]. word. }
  unfold preflight. cbn [config state]. fold fp. unfold evidence in Hev.
  destruct (i ← best_matching_strategy cfg _ fp; strategies _ !! i) as [s|]; [|lia].
  destruct (variant_of (fp_exact fp) (exact_variants s)) as [v|] eqn:Hof; cbn in Hev; [|lia].
  assert (exact_exhausted cfg fp s = true) as ->.
  { apply variant_of_Some in Hof as [Hin Heq]. apply existsb_elem. exists v. split; [done|].
    rewrite !bool_decide_true by (done || lia). done. }
  cbn. by eexists _, _, _.
Qed.

(** ** Blocks are justified *)
Definition timed_out_like (c : ToolNoProgressGuardConfig) (tool : text) (exe : option text) (o : ToolRetryObservation) : Prop :=
  no_progress_timeout o ∧ fp_tool (fingerprint_of c o) = tool ∧ fp_executable (fingerprint_of c o) = exe.
Definition timed_out_exactly (c : ToolNoProgressGuardConfig) (fp : StrategyFingerprint) (o : ToolRetryObservation) : Prop :=
  timed_out_like c (fp_tool fp) (fp_executable fp) o ∧ fp_exact (fingerprint_of c o) = fp_exact fp.
#[local] Instance timed_out_like_dec c tool exe o : Decision (timed_out_like c tool exe o).
Proof. unfold timed_out_like. apply _. Defined.
#[local] Instance timed_out_exactly_dec c fp o : Decision (timed_out_exactly c fp o).
Proof. unfold timed_out_exactly. apply _. Defined.
Definition count {A} (P : A → Prop) `{!∀ x, Decision (P x)} (l : list A) : N := N.of_nat (length (filter P l)).
Lemma count_snoc {A} (P : A → Prop) `{!∀ x, Decision (P x)} (l : list A) x :
  count P (l ++ [x]) = count P l + if decide (P x) then 1 else 0.
Proof. unfold count. rewrite filter_app, length_app, filter_cons. case_decide; cbn; lia. Qed.

(** The timeouts of the history account for what a strategy counts. *)
Record accounted (c : ToolNoProgressGuardConfig) (hist : list ToolRetryObservation) (s : Strategy) : Prop := {
  accounted_timeouts : timeout_count s ≤ count (timed_out_like c (strategy_tool s) (executable s)) hist;
  accounted_variants v : v ∈ exact_variants s →
    variant_timeouts v ≤ count (λ o, timed_out_like c (strategy_tool s) (executable s) o ∧
      fp_exact (fingerprint_of c o) = variant_fingerprint v) hist;
  accounted_exhausted : exhausted s = true → structural_timeout_limit c ≤ timeout_count s;
  accounted_width : timeout_count s ≤ U32_MAX;
}.
Lemma accounted_more c hist o s : accounted c hist s → accounted c (hist ++ [o]) s.
Proof.
  intros [H1' H2 H3 H4]. split; [rewrite count_snoc; lia| |done|done]. intros v Hv. specialize (H2 v Hv). rewrite count_snoc. lia.
Qed.
Lemma count_timeout_accounted c hist o ms s :
  1 ≤ max_exact_variants_per_strategy c → no_progress_timeout o →
  strategy_tool s = fp_tool (fingerprint_of c o) → executable s = fp_executable (fingerprint_of c o) →
  accounted c hist s → accounted c (hist ++ [o]) (count_timeout c (fingerprint_of c o) ms s).1.1.
Proof.
  intros Hone Hno Htool Hexe Hacc. pose proof (count_timeout_spec c (fingerprint_of c o) ms s Hone) as (Ht & He & Hn & Hx & n & Hvn & _ & Hin).
  destruct Hacc as [H1' H2 H3 H4]. split; rewrite ?Ht, ?He.
  - rewrite Hn, count_snoc, decide_True by by split. word.
  - intros v [Hv| ->]%Hin.
    + specialize (H2 v Hv). rewrite count_snoc. lia.
    + cbn [variant_timeouts variant_fingerprint]. rewrite count_snoc, decide_True by (by split; [split|]). rewrite Hvn.
      clear Hx Hn Hin. destruct (variant_of _ (exact_variants s)) as [v|] eqn:Hof; cbn [default fmap option_fmap option_map from_option]; [|word].
      apply variant_of_Some in Hof as [Hv Hfp]. specialize (H2 v Hv). rewrite Hfp in H2. unfold id. word.
  - rewrite Hx, Hn. intros [Hex|Hle%bool_decide_eq_true]%orb_true_iff; [|done]. specialize (H3 Hex). unfold saturating_add. lia.
  - rewrite Hn. unfold saturating_add. lia.
Qed.
Lemma record_timeout_accounted c hist o ms st :
  1 ≤ max_exact_variants_per_strategy c → no_progress_timeout o → Forall (accounted c hist) (strategies st) →
  Forall (accounted c (hist ++ [o])) (strategies (record_timeout c st (fingerprint_of c o) ms).1).
Proof.
  intros Hone Hno HF. unfold record_timeout. set (fp := fingerprint_of c o).
  assert (∀ st' i s, strategies st' !! i = Some s → Forall (accounted c hist) (strategies st') →
    strategy_tool s = fp_tool fp → executable s = fp_executable fp →
    Forall (accounted c (hist ++ [o])) (strategies (let '(s, dropped, facts) := count_timeout c fp ms s in
      ({| strategies := <[i := s]> (strategies st'); truncated := truncated st' || dropped |}, facts)).1)) as Hcount.
  { intros st' i s Hs HF' Ht He. pose proof (count_timeout_accounted c hist o ms s Hone Hno Ht He (Forall_lookup_1 _ _ _ _ HF' Hs)) as Hacc.
    fold fp in Hacc. destruct (count_timeout c fp ms s) as [[s' dropped] facts]. cbn.
    apply Forall_insert; [|done]. eapply Forall_impl; [exact HF'|]. intros. by apply accounted_more. }
  destruct (best_matching_strategy c st fp) as [i|] eqn:Hb.
  - destruct (best_matching_Some _ _ _ _ Hb) as (s & k & Hs & Hk & _). rewrite Hs.
    destruct (similarity_same _ _ _ _ Hk) as (Ht & He & _). by apply Hcount.
  - unfold insert_strategy. cbn [strategies]. set (kept := if bool_decide _ then drop 1 _ else _).
    rewrite list_lookup_middle by done.
    apply (Hcount {| strategies := kept ++ [fresh_strategy fp]; truncated := _ |} (length kept) (fresh_strategy fp));
      [by apply list_lookup_middle| |done|done].
    apply Forall_app. split; [unfold kept; case_bool_decide; [by apply Forall_drop|done]|]. constructor; [|done].
    split; cbn; [lia| |done|lia]. by intros v ?%elem_of_nil.
Qed.
Lemma observe_one_accounted c hist o st :
  1 ≤ max_exact_variants_per_strategy c → Forall (accounted c hist) (strategies st) →
  Forall (accounted c (hist ++ [o])) (strategies (observe_one c st o).1).
Proof.
  intros Hone HF. assert (Forall (accounted c (hist ++ [o])) (strategies st)) as HF'.
  { eapply Forall_impl; [exact HF|]. intros. by apply accounted_more. }
  assert (Forall (accounted c (hist ++ [o])) (strategies (forget_matching c st (fingerprint_of c o)))) as Hforget.
  { unfold forget_matching. destruct (best_matching_strategy c st _); [by apply Forall_delete|done]. }
  destruct (decide (no_progress_timeout o)) as [Hno|Hno].
  - rewrite observe_one_timeout by done. by apply record_timeout_accounted.
  - unfold observe_one. destruct (success o || _) eqn:H1'; [done|]. destruct (bool_decide (error_class _ ≠ _)) eqn:H2; [done|].
    destruct (observation_has_stdout_progress o) eqn:H3; [done|]. exfalso. apply Hno.
    apply orb_false_iff in H1' as [? ?%bool_decide_eq_false]. apply bool_decide_eq_false in H2.
    split; [done|]. split; [tauto|]. split; [tauto|]. split; [|done]. by apply dec_stable.
Qed.
Lemma observed_accounted c batches :
  let g := observed (new_no_progress_guard c) batches in
  config g = normalized_guard_config c ∧ within_limits (config g) (state g) ∧
  Forall (accounted (config g) (concat batches)) (strategies (state g)).
Proof.
  pose proof (normalized_limits c) as (Hs & Hv & _).
  induction batches as [|os batches IH] using rev_ind; cbn zeta in *.
  { split; [done|]. split; [|done]. split; [cbn; lia|done]. }
  rewrite observed_snoc, observe_fst. cbn [config state]. destruct IH as (Hc & Hw & HF). split; [done|].
  set (g := observed (new_no_progress_guard c) batches) in *. rewrite Hc in *. split; [apply bound_state_ok|].
  assert (within_limits (normalized_guard_config c) (observe_loop (normalized_guard_config c) (state g) os).1) as Hw'
    by (by apply observe_loop_ok; [lia|lia|]).
  assert (Forall (accounted (normalized_guard_config c) (concat batches ++ os))
    (strategies (observe_loop (normalized_guard_config c) (state g) os).1)) as Hloop.
  { rewrite observe_loop_fst. clear Hw'. induction os as [|o os IH] using rev_ind; [by rewrite app_nil_r|].
    rewrite foldl_app, app_assoc. cbn [foldl]. apply observe_one_accounted; [lia|exact IH]. }
  destruct (bound_state_suffix serialized_checkpoint_state_len _ _ Hw') as (d & Hd). rewrite Hd in Hloop.
  apply Forall_app in Hloop as [_ Hloop]. rewrite concat_app. cbn [concat]. by rewrite app_nil_r.
Qed.

(** nothing is blocked without evidence. When a guard that started empty
    blocks an invocation as the same one, at least as many timeouts of exactly
    this invocation without progress were observed as the limit says; when it
    blocks it as a similar strategy, at least that many timeouts of the same
    tool and executable were. Other tools and executables are never blocked. *)
Theorem no_progress_block_justified (c : ToolNoProgressGuardConfig) (batches : list (list ToolRetryObservation))
    (tool args : text) strategy tool' reason timeouts ms :
  let g := observed (new_no_progress_guard c) batches in
  let fp := new_fingerprint tool args (max_features_per_strategy (config g)) in
  preflight g tool args = Block strategy tool' reason timeouts ms →
  tool' = tool ∧
  match reason with
  | SameInvocation => exact_timeout_limit (config g) ≤ count (timed_out_exactly (config g) fp) (concat batches)
  | SimilarStrategy =>
      structural_timeout_limit (config g) ≤ timeouts ∧
      timeouts ≤ count (timed_out_like (config g) (fp_tool fp) (fp_executable fp)) (concat batches)
  end.
Proof.
  intros g fp. pose proof (observed_accounted c batches) as (_ & _ & HF). fold g in HF.
  unfold preflight. fold fp. destruct (best_matching_strategy (config g) (state g) fp) as [i|] eqn:Hb; [|done]. cbn [mbind option_bind].
  destruct (best_matching_Some _ _ _ _ Hb) as (s & k & Hs & Hk & _). rewrite Hs.
  destruct (similarity_same _ _ _ _ Hk) as (Ht & He & _). pose proof (Forall_lookup_1 _ _ _ _ HF Hs) as [H1' H2 H3 _].
  destruct (exact_exhausted (config g) fp s) eqn:Hex; cbn [negb andb].
  - intros [= _ <- <- _ _]. split; [done|]. apply existsb_elem in Hex as (v & Hv & [Hfp%bool_decide_eq_true Hle%bool_decide_eq_true]%andb_true_iff).
    specialize (H2 v Hv). rewrite Hfp, Ht, He in H2. etrans; [exact Hle|]. etrans; [exact H2|]. unfold count, timed_out_exactly. done.
  - destruct (exhausted s) eqn:Hx; [|done]. cbn. intros [= _ <- <- <- _]. split; [done|]. rewrite Ht, He in H1'. split; [by apply H3|exact H1'].
Qed.
End theorems.

(** ** A concrete guard *)
Module SampleGuard.
Import SampleText.
(** A stand-in for the hash: the beginning of the text, padded. *)
#[export] Instance sample_environment : GuardEnvironment bool := {
  as_u64 b := Some (if b then 1 else 0);
  short_hash t := take 32 (t ++ replicate 32 48);
  to_lowercase := id;
  is_alphanumeric c := bool_decide (48 ≤ c ∧ c ≤ 57 ∨ 97 ≤ c ∧ c ≤ 122);
  is_numeric c := bool_decide (48 ≤ c ∧ c ≤ 57);
}.
#[export] Instance sample_environment_laws : GuardEnvironmentLaws bool.
Proof. split. intros t. change (length (take 32 (t ++ replicate 32 48)) = 32%nat). rewrite length_take, length_app, length_replicate. lia. Qed.
Definition sample_length (st : NoProgressState) : N := 100 * N.of_nat (length (strategies st)).
Definition tool : text := lit "query".
Definition timeouts : list ToolRetryObservation :=
  [failing tool SampleText.sample_a Timeout; failing tool SampleText.sample_b Timeout].
Definition guard : ToolNoProgressGuard := observed (Number := bool) sample_length (new_no_progress_guard default_guard_config) [timeouts].
End SampleGuard.
Import SampleText SampleGuard.

Example sample_guard_decisions :
  preflight (Number := bool) guard tool SampleText.sample_b ≠ Allow ∧ preflight (Number := bool) guard (lit "other") SampleText.sample_b = Allow ∧
  length_bucket 40 = 32 ∧ file_name (lit "/usr/bin/cargo/.") = Some (lit "cargo") ∧ file_name (lit "a/..") = None ∧
  jaccard_millis [lit "a"; lit "b"; lit "c"] [lit "b"; lit "c"; lit "d"] = 500.
Proof. vm_compute. repeat split; discriminate. Qed.

Lemma no_progress_state_bounded_witness :
  let g := observed (Number := bool) sample_length (from_checkpoint sample_length default_guard_config default_state) [timeouts] in
  (length (strategies (state g)) ≤ 16)%nat ∧ from_checkpoint sample_length default_guard_config (checkpoint_state g) = g.
Proof.
  destruct (no_progress_state_bounded (Number := bool) sample_length default_guard_config default_state [timeouts]) as (H1 & _ & _ & H2 & _).
  split; [exact H1|exact H2].
Defined.

Lemma repeated_timeouts_blocked_witness :
  ∃ strategy timeouts' ms,
    preflight (Number := bool) (observe (Number := bool) sample_length (from_checkpoint sample_length default_guard_config default_state) timeouts).1 tool
      SampleText.sample_b = Block strategy tool SameInvocation timeouts' ms.
Proof.
  apply (repeated_timeouts_blocked (Number := bool) sample_length default_guard_config default_state [] timeouts tool SampleText.sample_b).
  - vm_compute. discriminate.
  - vm_compute. discriminate.
  - repeat constructor; vm_compute; discriminate.
  - vm_compute. discriminate.
Defined.

Lemma no_progress_block_justified_witness :
  match preflight (Number := bool) guard tool SampleText.sample_a with
  | Block _ _ SameInvocation _ _ => 2 ≤ count (timed_out_exactly (Number := bool) (config guard)
      (new_fingerprint (Number := bool) tool SampleText.sample_a (max_features_per_strategy (config guard)))) (concat [timeouts])
  | _ => False
  end.
Proof.
  destruct (preflight (Number := bool) guard tool SampleText.sample_a) as [|strategy tool' reason n ms] eqn:Hp; [vm_compute in Hp; discriminate Hp|].
  destruct (no_progress_block_justified (Number := bool) sample_length default_guard_config [timeouts] tool SampleText.sample_a
    strategy tool' reason n ms Hp) as [_ H].
  destruct reason; [exact H|]. vm_compute in Hp. discriminate Hp.
Defined.
