(* ===== verification/ToolLoopGuard.v ===== *)
(** * The tool loop guard

    Models [crates/tools/src/loop_guard.rs]: the budgets of an execution window
    and of a turn, the decision to open another window, and the guard that is
    asked before and told after every provider round of a window. The monotonic
    clock is a number of milliseconds passed to every call. *)
From S2P Require Import Prelude.
Local Open Scope N_scope.

(** ** Budgets *)
Record ToolLoopBudgetConfig := {
  max_agent_rounds_per_turn : N;
  loop_max_tool_calls_per_turn : N;
}.
Definition default_loop_budget : ToolLoopBudgetConfig :=
  {| max_agent_rounds_per_turn := 32; loop_max_tool_calls_per_turn := 128 |}.
Definition normalized_loop_budget (b : ToolLoopBudgetConfig) : ToolLoopBudgetConfig :=
  {| max_agent_rounds_per_turn := N.max (max_agent_rounds_per_turn b) 1;
     loop_max_tool_calls_per_turn := N.max (loop_max_tool_calls_per_turn b) 1 |}.

Record ExecutionWindowBudgetConfig := {
  max_agent_rounds_per_window : N;
  max_tool_calls_per_window : N;
  max_wall_clock_ms_per_window : option N;
  max_provider_tokens_per_window : option N;
}.
Definition default_window_budget : ExecutionWindowBudgetConfig :=
  {| max_agent_rounds_per_window := 32; max_tool_calls_per_window := 128;
     max_wall_clock_ms_per_window := Some 1800000; max_provider_tokens_per_window := None |}.
Definition at_least_one (n : N) : N := N.max n 1.
Definition normalized_window_budget (b : ExecutionWindowBudgetConfig) : ExecutionWindowBudgetConfig :=
  {| max_agent_rounds_per_window := at_least_one (max_agent_rounds_per_window b);
     max_tool_calls_per_window := at_least_one (max_tool_calls_per_window b);
     max_wall_clock_ms_per_window := at_least_one <$> max_wall_clock_ms_per_window b;
     max_provider_tokens_per_window := at_least_one <$> max_provider_tokens_per_window b |}.
Definition window_budget_from (b : ToolLoopBudgetConfig) : ExecutionWindowBudgetConfig :=
  {| max_agent_rounds_per_window := max_agent_rounds_per_turn b;
     max_tool_calls_per_window := loop_max_tool_calls_per_turn b;
     max_wall_clock_ms_per_window := None; max_provider_tokens_per_window := None |}.

Record ExecutionWindowTotalBudgetConfig := {
  max_windows_per_turn : option N;
  max_tool_calls_per_turn : option N;
  max_wall_clock_ms_per_turn : option N;
  max_provider_tokens_per_turn : option N;
  max_consecutive_no_progress_windows : N;
}.
Definition default_total_budget : ExecutionWindowTotalBudgetConfig :=
  {| max_windows_per_turn := None; max_tool_calls_per_turn := None;
     max_wall_clock_ms_per_turn := None; max_provider_tokens_per_turn := None;
     max_consecutive_no_progress_windows := 3 |}.
Definition normalized_total_budget (b : ExecutionWindowTotalBudgetConfig)
    : ExecutionWindowTotalBudgetConfig :=
  {| max_windows_per_turn := at_least_one <$> max_windows_per_turn b;
     max_tool_calls_per_turn := at_least_one <$> max_tool_calls_per_turn b;
     max_wall_clock_ms_per_turn := at_least_one <$> max_wall_clock_ms_per_turn b;
     max_provider_tokens_per_turn := at_least_one <$> max_provider_tokens_per_turn b;
     max_consecutive_no_progress_windows := at_least_one (max_consecutive_no_progress_windows b) |}.

Record ExecutionWindowsConfig := {
  window : ExecutionWindowBudgetConfig;
  total : ExecutionWindowTotalBudgetConfig;
}.
Definition normalized_windows (c : ExecutionWindowsConfig) : ExecutionWindowsConfig :=
  {| window := normalized_window_budget (window c); total := normalized_total_budget (total c) |}.

(** ** Opening windows *)
Inductive ExecutionWindowAdmissionDecision :=
  | Open (window_index : N)
  | Block (total_windows max_windows : N).

Definition decide_execution_window_admission (latest_window_index max_windows_per_turn : option N)
    : ExecutionWindowAdmissionDecision :=
  let latest := default 0 latest_window_index in
  if decide (latest = 0) then Open 1
  else
    match at_least_one <$> max_windows_per_turn with
    | Some limit =>
        if decide (limit ≤ latest) then Block latest limit
        else if decide (latest = U32_MAX) then Block latest U32_MAX
        else Open (latest + 1)
    | None => if decide (latest = U32_MAX) then Block latest U32_MAX else Open (latest + 1)
    end.

(** ** The guard *)
Inductive ToolLoopBudgetReason :=
  | AgentRoundsExceeded
  | ToolCallsExceeded
  | WallClockExceeded
  | ProviderTokensExceeded
  | ProviderReturnedToolsAfterToolsDisabled.
#[export] Instance ToolLoopBudgetReason_eq_dec : EqDecision ToolLoopBudgetReason.
Proof. solve_decision. Defined.
Definition reason_code (r : ToolLoopBudgetReason) : string :=
  match r with
  | AgentRoundsExceeded => "max_agent_rounds_per_window"
  | ToolCallsExceeded => "max_tool_calls_per_window"
  | WallClockExceeded => "max_wall_clock_ms_per_window"
  | ProviderTokensExceeded => "max_provider_tokens_per_window"
  | ProviderReturnedToolsAfterToolsDisabled => "provider_returned_tools_after_tools_disabled"
  end.

Inductive ToolLoopRoundAction := StartProviderRound | RoundContinuation.
Inductive ToolLoopBudgetAction := ContinueInNextWindow.

Record ToolLoopBudgetExceeded := {
  reason : ToolLoopBudgetReason;
  limit : N;
  observed : N;
  budget_action : ToolLoopBudgetAction;
}.
Record ToolLoopRoundPlan := {
  action : ToolLoopRoundAction;
  tools_enabled : bool;
  final_instruction : option string;
  budget_exceeded : option ToolLoopBudgetExceeded;
}.
(** [RequestFinalAnswer] is declared by the code and never returned. *)
Inductive ToolLoopGuardDecision :=
  | Continue
  | RequestContinuation (exceeded : ToolLoopBudgetExceeded)
  | RequestFinalAnswer (instruction : string) (exceeded : ToolLoopBudgetExceeded).

Record ToolLoopGuard := {
  budget : ExecutionWindowBudgetConfig;
  tool_capable_rounds : N;
  total_tool_calls : N;
  provider_token_count : N;
  provider_token_usage_unknown : bool;
  started_at : N;
  final_no_tools_mode : bool;
  final_no_tools_instruction : string;
}.
#[export] Instance guard_fields : Fields ToolLoopGuard := λ g,
  {| budget := budget g; tool_capable_rounds := tool_capable_rounds g;
     total_tool_calls := total_tool_calls g; provider_token_count := provider_token_count g;
     provider_token_usage_unknown := provider_token_usage_unknown g; started_at := started_at g;
     final_no_tools_mode := final_no_tools_mode g;
     final_no_tools_instruction := final_no_tools_instruction g |}.

Definition new_execution_window (b : ExecutionWindowBudgetConfig) (instruction : string) (now : N)
    : ToolLoopGuard :=
  {| budget := normalized_window_budget b; tool_capable_rounds := 0; total_tool_calls := 0;
     provider_token_count := 0; provider_token_usage_unknown := false; started_at := now;
     final_no_tools_mode := false; final_no_tools_instruction := instruction |}.
Definition new_guard (b : ToolLoopBudgetConfig) (instruction : string) (now : N) : ToolLoopGuard :=
  new_execution_window (window_budget_from b) instruction now.

Definition exceeded (r : ToolLoopBudgetReason) (limit observed : N) : ToolLoopBudgetExceeded :=
  {| reason := r; limit := limit; observed := observed; budget_action := ContinueInNextWindow |}.

Definition wall_clock_exceeded (g : ToolLoopGuard) (elapsed_ms : N) : option ToolLoopBudgetExceeded :=
  match max_wall_clock_ms_per_window (budget g) with
  | Some limit =>
      if decide (limit ≤ elapsed_ms)
      then Some (exceeded WallClockExceeded (clamp U32_MAX limit) (clamp U32_MAX elapsed_ms)) else None
  | None => None
  end.
Definition tokens_exceeded (g : ToolLoopGuard) : option ToolLoopBudgetExceeded :=
  match max_provider_tokens_per_window (budget g) with
  | Some limit =>
      if negb (provider_token_usage_unknown g) && bool_decide (limit ≤ provider_token_count g)
      then Some (exceeded ProviderTokensExceeded (clamp U32_MAX limit)
                   (clamp U32_MAX (provider_token_count g)))
      else None
  | None => None
  end.
Definition periodic_budget_exceeded (g : ToolLoopGuard) (elapsed_ms : N)
    : option ToolLoopBudgetExceeded :=
  match wall_clock_exceeded g elapsed_ms with
  | Some e => Some e
  | None => tokens_exceeded g
  end.

Definition continuation (e : ToolLoopBudgetExceeded) : ToolLoopRoundPlan :=
  {| action := RoundContinuation; tools_enabled := false; final_instruction := None;
     budget_exceeded := Some e |}.

Definition begin_provider_round_at (g : ToolLoopGuard) (elapsed_ms : N)
    : ToolLoopGuard * ToolLoopRoundPlan :=
  if final_no_tools_mode g then
    (g, {| action := StartProviderRound; tools_enabled := false;
           final_instruction := Some (final_no_tools_instruction g); budget_exceeded := None |})
  else
    match periodic_budget_exceeded g elapsed_ms with
    | Some e => (g, continuation e)
    | None =>
        let max := max_agent_rounds_per_window (budget g) in
        if decide (max ≤ tool_capable_rounds g)
        then (g, continuation (exceeded AgentRoundsExceeded max (tool_capable_rounds g)))
        else (g <| tool_capable_rounds := tool_capable_rounds g +₃₂ 1 |>,
              {| action := StartProviderRound; tools_enabled := true; final_instruction := None;
                 budget_exceeded := None |})
    end.

Definition count_tokens (g : ToolLoopGuard) (provider_tokens : option N) : ToolLoopGuard :=
  match provider_tokens with
  | Some n =>
      if provider_token_usage_unknown g then g
      else g <| provider_token_count := provider_token_count g +₆₄ n |>
  | None => g <| provider_token_usage_unknown := true |>
  end.

Definition after_provider_round_at (g : ToolLoopGuard) (enabled : bool) (tool_call_count : N)
    (provider_tokens : option N) (elapsed_ms : N) : ToolLoopGuard * ToolLoopGuardDecision :=
  let g := count_tokens g provider_tokens in
  let calls := clamp U32_MAX tool_call_count in
  if enabled then
    let next_total := total_tool_calls g +₃₂ calls in
    let max := max_tool_calls_per_window (budget g) in
    if decide (max < next_total)
    then (g, RequestContinuation (exceeded ToolCallsExceeded max next_total))
    else
      let g := g <| total_tool_calls := next_total |> in
      match (if decide (0 < calls) then periodic_budget_exceeded g elapsed_ms else None) with
      | Some e => (g, RequestContinuation e)
      | None => (g, Continue)
      end
  else if decide (0 < tool_call_count)
  then (g, RequestContinuation (exceeded ProviderReturnedToolsAfterToolsDisabled 0 calls))
  else (g, Continue).

(** The public methods read the clock; milliseconds are clamped to 64 bits. *)
Definition elapsed_ms (g : ToolLoopGuard) (now : N) : N := clamp U64_MAX (now - started_at g).
Definition begin_provider_round (g : ToolLoopGuard) (now : N) : ToolLoopGuard * ToolLoopRoundPlan :=
  begin_provider_round_at g (elapsed_ms g now).
Definition after_provider_round_with_usage (g : ToolLoopGuard) (enabled : bool) (tool_call_count : N)
    (provider_tokens : option N) (now : N) : ToolLoopGuard * ToolLoopGuardDecision :=
  after_provider_round_at g enabled tool_call_count provider_tokens (elapsed_ms g now).
Definition after_provider_round (g : ToolLoopGuard) (enabled : bool) (tool_call_count now : N)
    : ToolLoopGuard * ToolLoopGuardDecision :=
  after_provider_round_with_usage g enabled tool_call_count None now.

Definition request_final_answer_override (g : ToolLoopGuard) (instruction : string) : ToolLoopGuard :=
  g <| final_no_tools_mode := true |> <| final_no_tools_instruction := instruction |>.

(** ** Runs of a window *)
Inductive guard_call :=
  | CBegin (now : N)
  | CAfter (enabled : bool) (tool_call_count : N) (provider_tokens : option N) (now : N)
  | CFinal (instruction : string).
Inductive guard_answer := APlan (p : ToolLoopRoundPlan) | ADecision (d : ToolLoopGuardDecision) | ADone.

Definition call_guard (g : ToolLoopGuard) (c : guard_call) : ToolLoopGuard * guard_answer :=
  match c with
  | CBegin now => let '(g, p) := begin_provider_round g now in (g, APlan p)
  | CAfter enabled count tokens now =>
      let '(g, d) := after_provider_round_with_usage g enabled count tokens now in (g, ADecision d)
  | CFinal instruction => (request_final_answer_override g instruction, ADone)
  end.
Fixpoint run_guard (g : ToolLoopGuard) (cs : list guard_call)
    : ToolLoopGuard * list (guard_call * guard_answer) :=
  match cs with
  | [] => (g, [])
  | c :: cs => let '(g, a) := call_guard g c in
               let '(g, trace) := run_guard g cs in (g, (c, a) :: trace)
  end.

(** What a run grants: rounds with tools, and tool calls of rounds that were not
    turned away for exceeding the calls. *)
Definition granted_rounds (t : guard_call * guard_answer) : N :=
  match t with (CBegin _, APlan p) => if tools_enabled p then 1 else 0 | _ => 0 end.
Definition granted_calls (t : guard_call * guard_answer) : N :=
  match t with
  | (CAfter true count _ _, ADecision (RequestContinuation e)) =>
      if decide (reason e = ToolCallsExceeded) then 0 else count
  | (CAfter true count _ _, ADecision _) => count
  | _ => 0
  end.
Definition reported_tokens (t : guard_call * guard_answer) : N :=
  match t with (CAfter _ _ (Some n) _, _) => n | _ => 0 end.
Definition unreported (t : guard_call * guard_answer) : bool :=
  match t with (CAfter _ _ None _, _) => true | _ => false end.
Definition asked_final (t : guard_call * guard_answer) : bool :=
  match t with (CFinal _, _) => true | _ => false end.

(** ** Invariants of a run *)
Lemma run_guard_ind (P : list (guard_call * guard_answer) → ToolLoopGuard → Prop) g0 :
  P [] g0 →
  (∀ trace g c, P trace g → P (trace ++ [(c, snd (call_guard g c))]) (fst (call_guard g c))) →
  ∀ cs, P (snd (run_guard g0 cs)) (fst (run_guard g0 cs)).
Proof.
  intros H0 Hstep cs.
  cut (∀ trace g, P trace g → P (trace ++ snd (run_guard g cs)) (fst (run_guard g cs))).
  { intros Hcut. by apply (Hcut []). }
  induction cs as [|c cs IH]; intros trace g Hg; simpl; [by rewrite app_nil_r|].
  specialize (Hstep trace g c Hg). destruct (call_guard g c) as [g1 a]. simpl in Hstep.
  specialize (IH _ _ Hstep). destruct (run_guard g1 cs) as [g2 rest]. simpl in *.
  by rewrite <-app_assoc in IH.
Qed.

Record within_budget (b : ExecutionWindowBudgetConfig) (trace : list (guard_call * guard_answer))
    (g : ToolLoopGuard) : Prop := {
  wb_budget : budget g = b;
  wb_rounds : tool_capable_rounds g = sum_N (granted_rounds <$> trace);
  wb_rounds_max : tool_capable_rounds g ≤ max_agent_rounds_per_window b;
  wb_calls : total_tool_calls g = N.min (sum_N (granted_calls <$> trace)) U32_MAX;
  wb_calls_max : total_tool_calls g ≤ max_tool_calls_per_window b;
  wb_unknown : provider_token_usage_unknown g = existsb unreported trace;
  wb_tokens : provider_token_usage_unknown g = false →
    provider_token_count g = N.min (sum_N (reported_tokens <$> trace)) U64_MAX;
  wb_final : final_no_tools_mode g = existsb asked_final trace;
}.

Lemma sum_snoc {A} (f : A → N) l a : sum_N (f <$> (l ++ [a])) = sum_N (f <$> l) + f a.
Proof. rewrite fmap_app, sum_N_app. unfold sum_N. simpl. lia. Qed.
Lemma existsb_snoc {A} (f : A → bool) l a : existsb f (l ++ [a]) = existsb f l || f a.
Proof. rewrite existsb_app. simpl. by rewrite orb_false_r. Qed.

Lemma periodic_not_calls g e x : periodic_budget_exceeded g e = Some x → reason x ≠ ToolCallsExceeded.
Proof.
  unfold periodic_budget_exceeded, wall_clock_exceeded, tokens_exceeded.
  destruct (max_wall_clock_ms_per_window _); [case_decide; [by intros [= <-]|]|];
    (destruct (max_provider_tokens_per_window _); [|done]);
    (destruct (negb _ && _); [by intros [= <-]|done]).
Qed.

Lemma count_tokens_fields g t :
  budget (count_tokens g t) = budget g ∧ tool_capable_rounds (count_tokens g t) = tool_capable_rounds g ∧
  total_tool_calls (count_tokens g t) = total_tool_calls g ∧
  final_no_tools_mode (count_tokens g t) = final_no_tools_mode g ∧
  provider_token_usage_unknown (count_tokens g t) =
    provider_token_usage_unknown g || (if t is Some _ then false else true) ∧
  (provider_token_usage_unknown (count_tokens g t) = false →
   provider_token_count (count_tokens g t) = provider_token_count g +₆₄ default 0 t).
Proof.
  unfold count_tokens. destruct t as [n|]; [destruct (provider_token_usage_unknown g) eqn:Hu|]; simpl;
    rewrite ?Hu, ?orb_true_r; done.
Qed.

Lemma count_tokens_within b trace g enabled count tokens now d :
  within_budget b trace g →
  let g1 := count_tokens g tokens in
  let entry := (CAfter enabled count tokens now, ADecision d) in
  provider_token_usage_unknown g1 = existsb unreported (trace ++ [entry]) ∧
  (provider_token_usage_unknown g1 = false →
   provider_token_count g1 = N.min (sum_N (reported_tokens <$> (trace ++ [entry]))) U64_MAX) ∧
  final_no_tools_mode g1 = existsb asked_final (trace ++ [entry]).
Proof.
  intros [_ _ _ _ _ Hu Ht Hf]. cbv zeta.
  destruct (count_tokens_fields g tokens) as (_ & _ & _ & Hf' & Hu' & Ht').
  rewrite !existsb_snoc, sum_snoc, Hf', Hf, orb_false_r. split; [|split; [|done]].
  - rewrite Hu', Hu. by destruct tokens.
  - intros Hk. rewrite (Ht' Hk). rewrite Hu' in Hk. apply orb_false_iff in Hk as [Hk _].
    rewrite (Ht Hk). unfold saturating_add. destruct tokens; simpl; lia.
Qed.

Lemma call_guard_within b trace g c :
  max_agent_rounds_per_window b ≤ U32_MAX →
  within_budget b trace g →
  within_budget b (trace ++ [(c, snd (call_guard g c))]) (fst (call_guard g c)).
Proof.
  intros Hb Hw. pose proof Hw as [Hbud Hr Hrm Hc Hcm Hu Ht Hf]. destruct c as [now|enabled count tokens now|i].
  - cbn [call_guard]. unfold begin_provider_round, begin_provider_round_at.
    assert (∀ p, tools_enabled p = false → within_budget b (trace ++ [(CBegin now, APlan p)]) g) as Hsame.
    { intros p Hp. split; rewrite ?sum_snoc, ?existsb_snoc, ?orb_false_r; simpl; rewrite ?Hp, ?N.add_0_r; done. }
    destruct (final_no_tools_mode g) eqn:Hfin; [by apply Hsame|].
    destruct (periodic_budget_exceeded _ _); [by apply Hsame|].
    case_decide as Hmax; [by apply Hsame|]. simpl. rewrite Hbud in Hmax.
    split; rewrite ?sum_snoc, ?existsb_snoc, ?orb_false_r; simpl; rewrite ?N.add_0_r; try done; try congruence.
    + unfold saturating_add. lia.
    + unfold saturating_add. lia.
  - cbn [call_guard]. unfold after_provider_round_with_usage, after_provider_round_at.
    destruct (count_tokens_fields g tokens) as (Hb' & Hr' & Hc' & _).
    pose proof (λ d, count_tokens_within b trace g enabled count tokens now d Hw) as Htok.
    set (g1 := count_tokens g tokens) in *.
    assert (∀ d, granted_calls (CAfter enabled count tokens now, ADecision d) = 0 →
      within_budget b (trace ++ [(CAfter enabled count tokens now, ADecision d)]) g1) as Hsame.
    { intros d Hd. destruct (Htok d) as (Hu1 & Ht1 & Hf1).
      split; try done; rewrite ?sum_snoc, ?Hd; simpl; rewrite ?N.add_0_r; congruence. }
    destruct enabled; [|destruct (decide (0 < count)); by apply Hsame].
    case_decide as Hmax; [by apply Hsame|].
    set (total := total_tool_calls g1 +₃₂ clamp U32_MAX count) in *.
    set (g2 := g1 <| total_tool_calls := total |>).
    assert (∀ d, granted_calls (CAfter true count tokens now, ADecision d) = count →
      within_budget b (trace ++ [(CAfter true count tokens now, ADecision d)]) g2) as Hgrant.
    { intros d Hd. destruct (Htok d) as (Hu1 & Ht1 & Hf1).
      split; try done; rewrite ?sum_snoc, ?Hd; simpl; rewrite ?N.add_0_r; try congruence.
      - unfold total. rewrite Hc', Hc. unfold saturating_add, clamp. lia.
      - rewrite Hb', Hbud in Hmax. lia. }
    case_decide; [|by apply Hgrant].
    destruct (periodic_budget_exceeded _ _) as [e|] eqn:Hp; [|by apply Hgrant].
    apply periodic_not_calls in Hp. apply Hgrant. simpl. by rewrite decide_False.
  - simpl. split; rewrite ?sum_snoc, ?existsb_snoc, ?orb_false_r, ?orb_true_r; simpl; rewrite ?N.add_0_r; try done.
Qed.

(** a window stays within its budget. Whatever calls are made on a new
    guard, in whatever order, the rounds it has granted with tools and the tool
    calls it has let pass are exactly what its counters say and never exceed the
    normalized budget; the token count is the exact saturated sum as long as
    every round reported its usage; and once a final answer is requested no
    round is granted tools any more. *)
Theorem guard_run_within_budget (b : ExecutionWindowBudgetConfig) (instruction : string) (now : N)
    (cs : list guard_call) :
  max_agent_rounds_per_window b ≤ U32_MAX → max_tool_calls_per_window b < U32_MAX →
  let '(g, trace) := run_guard (new_execution_window b instruction now) cs in
  sum_N (granted_rounds <$> trace) = tool_capable_rounds g ∧
  tool_capable_rounds g ≤ N.max (max_agent_rounds_per_window b) 1 ∧
  sum_N (granted_calls <$> trace) = total_tool_calls g ∧
  total_tool_calls g ≤ N.max (max_tool_calls_per_window b) 1 ∧
  (existsb unreported trace = false →
   provider_token_count g = N.min (sum_N (reported_tokens <$> trace)) U64_MAX) ∧
  (existsb asked_final trace = true →
   ∀ later, tools_enabled (snd (begin_provider_round g later)) = false ∧
     action (snd (begin_provider_round g later)) = StartProviderRound).
Proof.
  intros Hr Hc.
  assert (within_budget (normalized_window_budget b)
    (snd (run_guard (new_execution_window b instruction now) cs))
    (fst (run_guard (new_execution_window b instruction now) cs))) as Hw.
  { apply run_guard_ind.
    - split; simpl; try done; unfold at_least_one, sum_N; simpl; lia.
    - intros trace g c. apply call_guard_within. simpl. unfold at_least_one, U32_MAX in *. lia. }
  destruct (run_guard _ _) as [g trace]. destruct Hw as [_ Hwr Hwrm Hwc Hwcm Hu Ht Hf].
  simpl in *. unfold at_least_one in *. split; [done|]. split; [done|].
  split; [unfold U32_MAX in *; lia|]. split; [done|]. split; [intros Hk; apply Ht; congruence|].
  intros Hfin later. unfold begin_provider_round, begin_provider_round_at. rewrite Hf, Hfin. done.
Qed.

(** The periodic budgets are exactly the wall clock and the known tokens. *)
Lemma periodic_spec g e :
  match periodic_budget_exceeded g e with
  | Some x => limit x ≤ observed x ∧ ¬
      ((∀ l, max_wall_clock_ms_per_window (budget g) = Some l → e < l) ∧
       (∀ l, max_provider_tokens_per_window (budget g) = Some l →
          provider_token_usage_unknown g = true ∨ provider_token_count g < l))
  | None =>
      (∀ l, max_wall_clock_ms_per_window (budget g) = Some l → e < l) ∧
      (∀ l, max_provider_tokens_per_window (budget g) = Some l →
         provider_token_usage_unknown g = true ∨ provider_token_count g < l)
  end.
Proof.
  unfold periodic_budget_exceeded, wall_clock_exceeded, tokens_exceeded.
  destruct (max_wall_clock_ms_per_window (budget g)) as [w|]; [case_decide as Hw|].
  { simpl. unfold clamp. split; [lia|]. intros [Hall _]. specialize (Hall w eq_refl). lia. }
  all: destruct (max_provider_tokens_per_window (budget g)) as [t|];
    [|first [by split; [intros l [= <-]; lia|]|by split]].
  all: destruct (negb _ && _) eqn:Ht.
  1,3: apply andb_true_iff in Ht as [Hk%negb_true_iff Hle%bool_decide_eq_true];
    simpl; unfold clamp; (split; [lia|]); intros [_ Hall];
    (destruct (Hall t eq_refl); [congruence|lia]).
  all: apply andb_false_iff in Ht; rewrite negb_false_iff, bool_decide_eq_false in Ht.
  all: (split; intros l [= <-]; try lia); destruct Ht; [by left|right; lia].
Qed.

Lemma fresh_window_grants b i now :
  tools_enabled (snd (begin_provider_round (new_execution_window b i now) now)) = true.
Proof.
  unfold begin_provider_round, begin_provider_round_at. simpl.
  unfold periodic_budget_exceeded, wall_clock_exceeded, tokens_exceeded, elapsed_ms. simpl.
  unfold at_least_one, clamp. rewrite N.sub_diag.
  destruct (max_wall_clock_ms_per_window b); simpl; [rewrite decide_False by lia|];
    (destruct (max_provider_tokens_per_window b); simpl; [rewrite bool_decide_false by lia|]);
    by rewrite decide_False by lia.
Qed.

(** the decision before a round is exact. Tools are granted precisely when
    no final answer was requested, the wall clock and the (known) tokens are
    below their limits and a round is left, and only then does the guard change,
    by that round; a refusal of the window names a budget whose limit, clamped
    to 32 bits, is reached; and a window just opened always grants its first
    round, whatever its configuration. *)
Theorem begin_round_decision (g : ToolLoopGuard) (now : N) :
  let '(g', p) := begin_provider_round g now in
  (tools_enabled p = true ↔
     final_no_tools_mode g = false ∧
     ((∀ l, max_wall_clock_ms_per_window (budget g) = Some l → elapsed_ms g now < l) ∧
      (∀ l, max_provider_tokens_per_window (budget g) = Some l →
         provider_token_usage_unknown g = true ∨ provider_token_count g < l)) ∧
     tool_capable_rounds g < max_agent_rounds_per_window (budget g)) ∧
  g' = (if tools_enabled p then g <| tool_capable_rounds := tool_capable_rounds g +₃₂ 1 |> else g) ∧
  (action p = RoundContinuation ↔ tools_enabled p = false ∧ final_no_tools_mode g = false) ∧
  match budget_exceeded p with
  | Some e => action p = RoundContinuation ∧ limit e ≤ observed e
  | None => action p = StartProviderRound
  end ∧
  ∀ b i, tools_enabled (snd (begin_provider_round (new_execution_window b i now) now)) = true.
Proof.
  pose proof (λ b i, fresh_window_grants b i now) as Hfresh.
  unfold begin_provider_round at 1, begin_provider_round_at.
  pose proof (periodic_spec g (elapsed_ms g now)) as Hper.
  destruct (final_no_tools_mode g).
  { simpl. split; [by split; [|intros [? _]]|]. split; [done|]. split; [by split; [|intros [_ ?]]|]. done. }
  destruct (periodic_budget_exceeded g _) as [e|].
  { destruct Hper as [Hle Hnot]. simpl. split; [split; [done|]; intros (_ & ? & _); tauto|]. done. }
  case_decide as Hr; simpl.
  - split; [split; [done|]; intros (_ & _ & ?); lia|]. done.
  - split; [split; [intros _|done]|]; [split; [done|]; split; [done|lia]|].
    split; [done|]. split; [by split; [|intros [? _]]|]. done.
Qed.

(** ** The sequence of windows *)
(** The windows a turn opens when it is asked [n] times. *)
Fixpoint open_windows (n : nat) (latest max_windows : option N) : list N :=
  match n with
  | O => []
  | S n =>
      match decide_execution_window_admission latest max_windows with
      | Open i => i :: open_windows n (Some i) max_windows
      | Block _ _ => []
      end
  end.
Definition window_limit (max_windows : option N) : N :=
  N.min (default U32_MAX (at_least_one <$> max_windows)) U32_MAX.

Lemma decide_window_next latest max_windows :
  latest ≤ U32_MAX →
  decide_execution_window_admission (Some latest) max_windows =
    if decide (latest < window_limit max_windows) then Open (latest + 1)
    else Block latest (window_limit max_windows).
Proof.
  intros Hl. unfold decide_execution_window_admission, window_limit. simpl.
  destruct max_windows as [m|]; simpl; unfold at_least_one, U32_MAX in *;
    repeat case_decide; try lia; f_equal; lia.
Qed.

(** a turn opens consecutive windows up to its limit. Asked any number of
    times from the start, it opens the windows 1, 2, 3 and so on without a gap,
    exactly until the configured number (at least one, at most what a 32-bit
    index holds) is reached; then it blocks and reports that number. *)
Theorem windows_open_consecutively (n : nat) (max_windows : option N) :
  open_windows n None max_windows =
    N.of_nat <$> seq 1 (Nat.min n (N.to_nat (window_limit max_windows))) ∧
  decide_execution_window_admission (Some (window_limit max_windows)) max_windows =
    Block (window_limit max_windows) (window_limit max_windows).
Proof.
  assert (1 ≤ window_limit max_windows ≤ U32_MAX) as Hlim.
  { unfold window_limit, at_least_one, U32_MAX. destruct max_windows; simpl; lia. }
  assert (∀ m latest, latest ≤ window_limit max_windows →
    open_windows m (Some latest) max_windows =
      N.of_nat <$> seq (S (N.to_nat latest)) (Nat.min m (N.to_nat (window_limit max_windows - latest)))) as Hmore.
  { induction m as [|m IH]; intros latest Hle; [done|]. cbn [open_windows].
    rewrite decide_window_next by lia. case_decide as Hlt.
    - rewrite IH by lia. replace (N.to_nat (window_limit max_windows - latest))
        with (S (N.to_nat (window_limit max_windows - (latest + 1)))) by lia.
      cbn [Nat.min seq]. rewrite fmap_cons. f_equal; [lia|]. do 2 f_equal. lia.
    - replace (N.to_nat (window_limit max_windows - latest)) with O by lia. by rewrite Nat.min_0_r. }
  split.
  - destruct n as [|n]; [done|]. cbn [open_windows].
    change (decide_execution_window_admission None max_windows) with (Open 1). cbv iota.
    rewrite Hmore by lia.
    replace (N.to_nat (window_limit max_windows)) with (S (N.to_nat (window_limit max_windows - 1))) by lia.
    done.
  - rewrite decide_window_next by lia. by rewrite decide_False by lia.
Qed.

Definition two_rounds : ExecutionWindowBudgetConfig :=
  {| max_agent_rounds_per_window := 2; max_tool_calls_per_window := 5;
     max_wall_clock_ms_per_window := Some 1000; max_provider_tokens_per_window := Some 50 |}.
Definition busy_calls : list guard_call :=
  [CBegin 10; CAfter true 3 (Some 20) 20; CBegin 30; CAfter true 4 (Some 10) 40; CBegin 50;
   CFinal "done"; CBegin 60].
Example busy_run :
  (λ t, (granted_rounds t, granted_calls t)) <$> snd (run_guard (new_execution_window two_rounds "stop" 0) busy_calls)
  = [(1, 0); (0, 3); (1, 0); (0, 0); (0, 0); (0, 0); (0, 0)].
Proof. by vm_compute. Qed.
Lemma guard_run_within_budget_witness :
  let '(g, trace) := run_guard (new_execution_window two_rounds "stop" 0) busy_calls in
  sum_N (granted_rounds <$> trace) = tool_capable_rounds g ∧ tool_capable_rounds g = 2.
Proof.
  pose proof (guard_run_within_budget two_rounds "stop" 0 busy_calls) as H.
  destruct (run_guard _ _) as [g trace] eqn:Hr.
  destruct H as [H _]; [vm_compute; discriminate|vm_compute; reflexivity|].
  split; [exact H|]. vm_compute in Hr. injection Hr as <- _. reflexivity.
Defined.
