(* ===== verification/CronSchedule.v ===== *)
(** * Cron schedules

    Models [CronSpec], [CronField], [next_cron_fire] and [latest_cron_fire] of
    src/crates/tasks/src/trigger.rs. The calendar of a time zone belongs to
    chrono: [Chrono] gives the wall clock of an instant, and [ChronoLaws] says
    for which instants there is one. The searches step over the minutes of one
    year; [SEARCH_FUEL] minutes are more than a year has, so the searches
    always end ([next_cron_fire_exact], [latest_cron_fire_exact]). *)
From S2P Require Import Prelude Ordered TextSplit Decimal Int64.
Local Open Scope Z_scope.

#[export] Instance ordered_Z : Ordered Z := Z.compare.
#[export] Instance laws_Z : OrderedLaws Z.
Proof.
  unfold cmp, ordered_Z. split; intros *; unfold cmp.
  - apply Z.compare_eq_iff.
  - apply Z.compare_antisym.
  - rewrite !Z.compare_lt_iff. lia.
Qed.

Definition CRON_SEARCH_SECONDS : Z := 366 * 24 * 60 * 60.
Definition SEARCH_FUEL : nat := Z.to_nat (CRON_SEARCH_SECONDS `div` 60 + 2).

(** ** The calendar *)
Record LocalTime := {
  local_minute : Z;
  local_hour : Z;
  local_day : Z;
  local_month : Z;
  num_days_from_sunday : Z;
}.
Class Chrono := {
  Tz : Type;
  tz_from_str : text → option Tz;
  (** [Utc.timestamp_opt(t, 0).single()] read in the zone. *)
  with_timezone : Tz → Z → option LocalTime;
}.
(** The instants chrono represents. *)
Definition CHRONO_MIN : Z := -8334601228800.
Definition CHRONO_MAX : Z := 8210266876799.
Class ChronoLaws `{Chrono} := {
  with_timezone_range (tz : Tz) (t : Z) : is_Some (with_timezone tz t) ↔ CHRONO_MIN ≤ t ≤ CHRONO_MAX;
}.

(** ** Fields *)
Record CronField := { values : list Z }.
Record CronSpec := {
  minute : CronField;
  hour : CronField;
  day : CronField;
  month : CronField;
  weekday : CronField;
}.

Definition parse_cron_value (value : text) (min max : Z) : result failure Z :=
  parsed ← ok_or (parse_i64 value) (Bail "invalid cron value");
  ensure (negb (bool_decide (parsed < min ∨ max < parsed))) (Bail "cron value is outside");;
  Ok parsed.

(** The [while] loop of [parse_cron_part]: at most one turn for every value up
    to the end. *)
Fixpoint push_values (fuel : nat) (max value stop step : Z) (vs : list Z) : list Z :=
  match fuel with
  | O => vs
  | S fuel =>
      if decide (value ≤ stop) then
        push_values fuel max (sat_add value step) stop step
          (vs ++ [if bool_decide (max = 7 ∧ value = 0) then 7 else value])
      else vs
  end.

Definition parse_step (part : text) : result failure (text * Z) :=
  match split_once 47 part with
  | Some (range, step) =>
      step ← ok_or (parse_i64 step) (Bail "invalid cron step");
      ensure (negb (bool_decide (step ≤ 0))) (Bail "cron step must be positive");;
      Ok (range, step)
  | None => Ok (part, 1)
  end.
Definition parse_range (range : text) (min max : Z) : result failure (Z * Z) :=
  if decide (range = lit "*") then Ok (min, max)
  else match split_once 45 range with
  | Some (start, stop) =>
      start ← parse_cron_value start min max;
      stop ← parse_cron_value stop min max;
      Ok (start, stop)
  | None => value ← parse_cron_value range min max; Ok (value, value)
  end.
Definition parse_cron_part (min max : Z) (vs : list Z) (part : text) : result failure (list Z) :=
  '(range, step) ← parse_step part;
  '(start, stop) ← parse_range range min max;
  ensure (negb (bool_decide (stop < start))) (Bail "cron range start must not exceed end");;
  Ok (push_values (Z.to_nat (stop - start + 1)) max start stop step vs).

(** [Vec::dedup]. *)
Fixpoint dedup (l : list Z) : list Z :=
  match l with
  | x :: ((y :: _) as l') => if decide (x = y) then dedup l' else x :: dedup l'
  | l => l
  end.

Definition parse_field (input : text) (min max : Z) : result failure CronField :=
  vs ← foldlM (parse_cron_part min max) [] (split_on 44 input);
  let vs := dedup (sort_on id vs) in
  ensure (negb (bool_decide (vs = []))) (Bail "cron field has no values");;
  Ok {| values := vs |}.

(** [slice::binary_search]: halve the remaining [size] elements from [base]. *)
Fixpoint search_from (fuel : nat) (l : list Z) (x : Z) (base size : nat) : nat :=
  match fuel with
  | O => base
  | S fuel =>
      if decide (1 < size)%nat then
        let half := (size / 2)%nat in
        let mid := (base + half)%nat in
        search_from fuel l x (if decide (x < l !!! mid) then base else mid) (size - half)
      else base
  end.
Definition binary_search (l : list Z) (x : Z) : bool :=
  match l with
  | [] => false
  | _ => bool_decide (l !!! search_from (length l) l x 0 (length l) = x)
  end.
Definition field_matches (f : CronField) (value : Z) : bool := binary_search (values f) value.

(** ** Expressions *)
Definition parse_spec (expr : text) : result failure CronSpec :=
  match split_whitespace expr with
  | [p0; p1; p2; p3; p4] =>
      minute ← parse_field p0 0 59;
      hour ← parse_field p1 0 23;
      day ← parse_field p2 1 31;
      month ← parse_field p3 1 12;
      weekday ← parse_field p4 0 7;
      Ok {| minute := minute; hour := hour; day := day; month := month; weekday := weekday |}
  | _ => Err (Bail "cron expression must have five fields")
  end.

Definition spec_matches (s : CronSpec) (l : LocalTime) : bool :=
  field_matches (minute s) (local_minute l) && field_matches (hour s) (local_hour l) &&
  field_matches (day s) (local_day l) && field_matches (month s) (local_month l) &&
  field_matches (weekday s)
    (if decide (num_days_from_sunday l = 0) then 7 else num_days_from_sunday l).

(** ** The searches *)
Section searches.
Context `{Chrono}.

Definition validate_timezone (timezone : text) : result failure Tz :=
  ok_or (tz_from_str timezone) (Bail "invalid timezone").

(** One turn of either loop: the answer at the candidate, if it has one. *)
Definition probe (s : CronSpec) (tz : Tz) (candidate : Z) : option (result failure Z) :=
  match with_timezone tz candidate with
  | None => Some (Err (Bail "failed to build UTC timestamp"))
  | Some local => if spec_matches s local then Some (Ok candidate) else None
  end.

Fixpoint seek_forward (fuel : nat) (s : CronSpec) (tz : Tz) (candidate limit : Z) : option (result failure Z) :=
  match fuel with
  | O => None
  | S fuel =>
      if decide (candidate ≤ limit) then
        match probe s tz candidate with
        | Some answer => Some answer
        | None => seek_forward fuel s tz (sat_add candidate 60) limit
        end
      else Some (Err (Bail "cron expression did not produce a fire time within one year"))
  end.
Fixpoint seek_backward (fuel : nat) (s : CronSpec) (tz : Tz) (candidate limit : Z) : option (result failure Z) :=
  match fuel with
  | O => None
  | S fuel =>
      if decide (limit ≤ candidate) then
        match probe s tz candidate with
        | Some answer => Some answer
        | None => seek_backward fuel s tz (sat_sub candidate 60) limit
        end
      else Some (Err (Bail "cron expression did not produce a missed fire time within one year"))
  end.
(** A search that is still running when the fuel ends would be an endless loop. *)
Definition answer_of (o : option (result failure Z)) : result failure Z :=
  default (Err (Panic "search does not end")) o.

Definition next_cron_fire (expr timezone : text) (now : Z) : result failure Z :=
  s ← parse_spec expr;
  tz ← validate_timezone timezone;
  answer_of (seek_forward SEARCH_FUEL s tz (sat_add now (60 - now `mod` 60)) (sat_add now CRON_SEARCH_SECONDS)).

Definition latest_cron_fire (expr timezone : text) (first_due_at now : Z) : result failure Z :=
  s ← parse_spec expr;
  tz ← validate_timezone timezone;
  answer_of (seek_backward SEARCH_FUEL s tz (sat_sub now (now `mod` 60))
    (Z.max first_due_at (sat_sub now CRON_SEARCH_SECONDS))).
End searches.

(** ** Fields hold what their parts select *)
Definition weekday_alias (max value : Z) : Z := if bool_decide (max = 7 ∧ value = 0) then 7 else value.
(** The values [start], [start + step], … up to [stop]. *)
Definition stepped (start stop step w : Z) : Prop := start ≤ w ≤ stop ∧ (w - start) `mod` step = 0.

Lemma stepped_next start stop step w :
  0 < step → start ≤ stop → stepped start stop step w ↔ w = start ∨ stepped (start + step) stop step w.
Proof.
  intros Hs Hle. unfold stepped. replace (w - (start + step)) with (w - start + (-1) * step) by lia.
  rewrite Z.mod_add by lia. split.
  - intros [Hb Hm]. destruct (decide (w = start)) as [|Hne]; [by left|right]. split; [|done].
    apply Z.mod_divide in Hm as [k Hk]; [|lia].
    assert (1 ≤ k); nia.
  - intros [->|[Hb Hm]]; [|split; [lia|done]]. rewrite Z.sub_diag, Z.mod_0_l by lia. lia.
Qed.

Lemma push_values_spec fuel max value stop step vs v :
  0 < step → i64 value → stop < I64_MAX → (Z.to_nat (stop - value + 1) ≤ fuel)%nat →
  v ∈ push_values fuel max value stop step vs ↔
  v ∈ vs ∨ ∃ w, stepped value stop step w ∧ v = weekday_alias max w.
Proof.
  revert value vs; induction fuel as [|fuel IH]; intros value vs Hs Hv Hstop Hf; cbn [push_values].
  - split; [by left|]. intros [?|(w & [? _] & _)]; [done|lia].
  - destruct (decide (value ≤ stop)) as [Hle|].
    2:{ split; [by left|]. intros [?|(w & [? _] & _)]; [done|lia]. }
    rewrite IH; [|done|apply clamp_i64_bounds|done|int64].
    setoid_rewrite elem_of_app. rewrite list_elem_of_singleton.
    assert (∀ w, stepped value stop step w ↔ w = value ∨ stepped (sat_add value step) stop step w) as Hnext.
    { intros w. rewrite stepped_next by done. destruct (decide (value + step ≤ I64_MAX)).
      - rewrite sat_add_id by int64. done.
      - unfold stepped. assert (sat_add value step = I64_MAX) as -> by int64.
        split; (intros [->|[? _]]; [by left|lia]). }
    setoid_rewrite Hnext. fold (weekday_alias max value). naive_solver.
Qed.

Lemma dedup_cons x y l : dedup (x :: y :: l) = if decide (x = y) then dedup (y :: l) else x :: dedup (y :: l).
Proof. done. Qed.
Lemma dedup_elem x l : x ∈ dedup l ↔ x ∈ l.
Proof.
  induction l as [|y l IH]; [done|]. destruct l as [|z l]; [done|]. rewrite dedup_cons.
  case_decide as Hyz; [|by rewrite !elem_of_cons, IH, elem_of_cons].
  subst. rewrite IH, !elem_of_cons. tauto.
Qed.
Lemma dedup_sorted l : StronglySorted Z.le l → StronglySorted Z.lt (dedup l).
Proof.
  induction 1 as [|y l Hs IH Hy]; [constructor|]. destruct l as [|z l]; [repeat constructor|]. rewrite dedup_cons.
  case_decide as Hyz; [done|]. constructor; [done|]. apply Forall_forall. intros x Hx. rewrite dedup_elem in Hx.
  apply Forall_cons in Hy as [Hyz' _]. inversion_clear Hs as [|?? _ Hz]. rewrite Forall_forall in Hz.
  apply elem_of_cons in Hx as [->|Hx]; [lia|]. specialize (Hz x Hx). lia.
Qed.
Lemma sort_Z_sorted l : StronglySorted Z.le (sort_on id l).
Proof.
  induction (sort_on_sorted id l) as [|x l' Hs IH Hx]; constructor; [done|].
  eapply Forall_impl; [exact Hx|]. intros y Hy. by apply Z.compare_le_iff.
Qed.

(** Binary search finds exactly the elements of a sorted list. *)
Lemma sorted_lookup_lt l i j x y :
  StronglySorted Z.lt l → l !! i = Some x → l !! j = Some y → (i < j)%nat → x < y.
Proof.
  intros Hs. revert i j; induction Hs as [|z l Hs IH Hz]; intros i j Hi Hj Hij; [done|].
  rewrite Forall_forall in Hz. destruct i as [|i], j as [|j]; try lia; simpl in *.
  - injection Hi as ->. apply Hz. by eapply list_elem_of_lookup_2.
  - apply (IH i j); [done..|lia].
Qed.
Lemma half_bounds size : (1 < size)%nat → (0 < size / 2 ∧ size / 2 + size / 2 ≤ size)%nat.
Proof.
  intros Hs. split; [apply Nat.div_str_pos_iff; lia|]. pose proof (Nat.Div0.mul_div_le size 2). lia.
Qed.
Lemma search_from_spec fuel l x base size i :
  StronglySorted Z.lt l → l !! i = Some x → (size ≤ fuel)%nat → (base + size ≤ length l)%nat →
  (base ≤ i < base + size)%nat → search_from fuel l x base size = i.
Proof.
  intros Hs Hi. revert base size; induction fuel as [|fuel IH]; intros base size Hf Hl Hb; [lia|].
  cbn [search_from]. case_decide as Hsize; [|lia].
  destruct (lookup_lt_is_Some_2 l (base + size / 2)) as [m Hm].
  { pose proof (half_bounds size Hsize). lia. }
  pose proof (half_bounds size Hsize) as Hhalf.
  rewrite (list_lookup_total_correct _ _ _ Hm). case_decide as Hx; apply IH; try lia.
  - destruct (decide (i < base + size / 2)%nat); [lia|]. exfalso.
    destruct (decide (i = base + size / 2)%nat) as [->|]; [rewrite Hm in Hi; injection Hi; lia|].
    pose proof (sorted_lookup_lt l _ _ _ _ Hs Hm Hi). lia.
  - destruct (decide (base + size / 2 ≤ i)%nat); [lia|]. exfalso.
    pose proof (sorted_lookup_lt l _ _ _ _ Hs Hi Hm). lia.
Qed.
Lemma binary_search_spec l x : StronglySorted Z.lt l → binary_search l x = true ↔ x ∈ l.
Proof.
  intros Hs. unfold binary_search. destruct l as [|y l]; [split; [done|by intros ?%elem_of_nil]|].
  rewrite bool_decide_eq_true. split.
  - intros <-. set (i := search_from _ _ _ _ _). destruct (lookup_lt_is_Some_2 (y :: l) i) as [z Hz].
    + subst i. assert (∀ fuel base size, (0 < size)%nat → (base + size ≤ length (y :: l))%nat →
        (search_from fuel (y :: l) x base size < length (y :: l))%nat) as Hin; [|apply Hin; simpl; lia].
      induction fuel as [|fuel IH]; intros base size H0 Hl; cbn [search_from]; [lia|].
      case_decide as Hsize; [|lia].
      pose proof (half_bounds size Hsize).
      case_decide; apply IH; lia.
    + rewrite (list_lookup_total_correct _ _ _ Hz). by eapply list_elem_of_lookup_2.
  - intros [i Hi]%list_elem_of_lookup_1. pose proof (lookup_lt_Some _ _ _ Hi).
    rewrite (search_from_spec (length (y :: l)) (y :: l) x 0 (length (y :: l)) i); [|done..|lia].
    by apply list_lookup_total_correct.
Qed.

(** What is pushed stays; a parsed field is strictly sorted and holds what was pushed. *)
Definition pushed (min max : Z) (part : text) (v : Z) : Prop :=
  ∃ range step start stop, parse_step part = Ok (range, step) ∧ parse_range range min max = Ok (start, stop) ∧
    start ≤ stop ∧ ∃ w, stepped start stop step w ∧ v = weekday_alias max w.

Lemma parse_step_positive part range step : parse_step part = Ok (range, step) → 0 < step.
Proof.
  unfold parse_step. destruct (split_once 47 part) as [[r s]|]; intros; simplify_result; lia.
Qed.
Lemma parse_cron_value_bounds value min max v :
  parse_cron_value value min max = Ok v → min ≤ v ≤ max ∧ parse_i64 value = Some v.
Proof. unfold parse_cron_value. intros. simplify_result. split; [lia|done]. Qed.
Lemma parse_range_bounds range min max start stop :
  parse_range range min max = Ok (start, stop) → min ≤ max → min ≤ start ≤ max ∧ min ≤ stop ≤ max.
Proof.
  unfold parse_range. intros Hr Hm. case_decide; [simplify_result; lia|].
  destruct (split_once 45 range) as [[a b]|]; simplify_result;
    repeat match goal with H : parse_cron_value _ _ _ = Ok _ |- _ => apply parse_cron_value_bounds in H as [? _] end; lia.
Qed.

Section fields.
Context (min max : Z) (Hmin : I64_MIN ≤ min) (Hmm : min ≤ max) (Hmax : max < I64_MAX).

Lemma parse_part_spec vs part vs' :
  parse_cron_part min max vs part = Ok vs' → ∀ v, v ∈ vs' ↔ v ∈ vs ∨ pushed min max part v.
Proof.
  unfold parse_cron_part. intros H v. apply bind_Ok in H as ([range step] & Hstep & H).
  apply bind_Ok in H as ([start stop] & Hrange & H). apply bind_Ok in H as (u & Hle & H).
  simplify_result. pose proof (parse_step_positive _ _ _ Hstep). pose proof (parse_range_bounds _ _ _ _ _ Hrange Hmm).
  rewrite push_values_spec by (unfold i64; lia). unfold pushed. split; (intros [?|Hp]; [by left|right]).
  - exists range, step, start, stop. split_and!; [done|done|lia|done].
  - destruct Hp as (range' & step' & start' & stop' & Hs' & Hr' & _ & Hw).
    rewrite Hstep in Hs'. injection Hs' as <- <-. rewrite Hrange in Hr'. by injection Hr' as <- <-.
Qed.

Lemma parse_parts_spec parts vs :
  foldlM (parse_cron_part min max) [] parts = Ok vs → ∀ v, v ∈ vs ↔ ∃ part, part ∈ parts ∧ pushed min max part v.
Proof.
  intros H v. revert H. apply (foldlM_trace_ind (λ parts vs, v ∈ vs ↔ ∃ part, part ∈ parts ∧ pushed min max part v)).
  - split; [by intros ?%elem_of_nil|by intros (? & ?%elem_of_nil & _)].
  - intros l s part s' IH Hp. rewrite (parse_part_spec _ _ _ Hp), IH. setoid_rewrite elem_of_app.
    setoid_rewrite list_elem_of_singleton. naive_solver.
Qed.

Lemma parse_field_spec input f :
  parse_field input min max = Ok f →
  StronglySorted Z.lt (values f) ∧ values f ≠ [] ∧
  ∀ v, field_matches f v = true ↔ ∃ part, part ∈ split_on 44 input ∧ pushed min max part v.
Proof.
  unfold parse_field. intros H. apply bind_Ok in H as (vs & Hvs & H). simplify_result. cbn [values].
  assert (StronglySorted Z.lt (dedup (sort_on id vs))) as Hs by apply dedup_sorted, sort_Z_sorted.
  split; [done|]. split; [by intros Hn; rewrite Hn in *|]. intros v. unfold field_matches. cbn [values].
  rewrite binary_search_spec by done. rewrite dedup_elem, sort_on_perm. by apply parse_parts_spec.
Qed.
End fields.

(** ** Printed expressions are read back *)
Inductive CronRange := Every | Single (v : N) | Span (a b : N).
Record CronPart := { part_range : CronRange; part_step : option N }.

Definition print_range (r : CronRange) : text :=
  match r with
  | Every => lit "*"
  | Single v => display_u64 v
  | Span a b => display_u64 a ++ 45%N :: display_u64 b
  end.
Definition print_part (p : CronPart) : text :=
  print_range (part_range p) ++ match part_step p with Some s => 47%N :: display_u64 s | None => [] end.
Definition print_field (ps : list CronPart) : text := join_with 44 (print_part <$> ps).

Definition range_bounds (min max : Z) (r : CronRange) : Z * Z :=
  match r with
  | Every => (min, max)
  | Single v => (Z.of_N v, Z.of_N v)
  | Span a b => (Z.of_N a, Z.of_N b)
  end.
Definition step_of (p : CronPart) : Z := Z.of_N (default 1%N (part_step p)).
Definition selects (min max : Z) (p : CronPart) (v : Z) : Prop :=
  ∃ w, stepped (range_bounds min max (part_range p)).1 (range_bounds min max (part_range p)).2 (step_of p) w ∧
    v = weekday_alias max w.
Definition part_ok (min max : Z) (p : CronPart) : Prop :=
  min ≤ (range_bounds min max (part_range p)).1 ≤ (range_bounds min max (part_range p)).2 ∧
  (range_bounds min max (part_range p)).2 ≤ max ∧ 0 < step_of p ≤ I64_MAX.
Definition field_ok (min max : Z) (ps : list CronPart) : Prop := ps ≠ [] ∧ Forall (part_ok min max) ps.

Lemma digits_avoid n c : (Z.of_N n ≤ I64_MAX) → ¬ (48 ≤ c ≤ 57)%N → c ∉ display_u64 n.
Proof.
  intros Hn Hc Hin. destruct (display_u64_spec n) as (_ & Hd & _); [unfold I64_MAX, U64_MAX in *; lia|].
  rewrite Forall_forall in Hd. apply Hd, digit_bounds in Hin. done.
Qed.

Section print.
Context (min max : Z) (Hmin : 0 ≤ min) (Hmm : min ≤ max) (Hmax : max < I64_MAX).

Lemma parse_value_display v :
  min ≤ Z.of_N v ≤ max → parse_cron_value (display_u64 v) min max = Ok (Z.of_N v).
Proof.
  intros Hv. unfold parse_cron_value. rewrite parse_i64_display by lia. simpl.
  rewrite bool_decide_false by lia. done.
Qed.

Lemma print_range_avoids r c :
  min ≤ (range_bounds min max r).1 ≤ (range_bounds min max r).2 → (range_bounds min max r).2 ≤ max →
  ¬ (48 ≤ c ≤ 57)%N → c ≠ 42%N → c ≠ 45%N → c ∉ print_range r.
Proof.
  intros Hb Hb' Hd H42 H45. destruct r; simpl in *.
  - change (lit "*") with [42%N]. by rewrite list_elem_of_singleton.
  - apply digits_avoid; [lia|done].
  - rewrite elem_of_app, elem_of_cons. intros [Hin|[->|Hin]]; [|done|]; (eapply digits_avoid; [|done|exact Hin]); lia.
Qed.

Lemma print_part_avoids p c :
  part_ok min max p → ¬ (48 ≤ c ≤ 57)%N → c ≠ 42%N → c ≠ 45%N → c ≠ 47%N → c ∉ print_part p.
Proof.
  intros (Hb & Hb' & Hs) Hd H42 H45 H47. unfold print_part, step_of in *. rewrite elem_of_app.
  intros [Hin|Hin]; [by eapply print_range_avoids|]. destruct (part_step p) as [s|]; simpl in *; [|by apply elem_of_nil in Hin].
  apply elem_of_cons in Hin as [->|Hin]; [done|]. eapply digits_avoid; [|done|exact Hin]. lia.
Qed.

Lemma parse_print_range r :
  min ≤ (range_bounds min max r).1 ≤ (range_bounds min max r).2 → (range_bounds min max r).2 ≤ max →
  parse_range (print_range r) min max = Ok (range_bounds min max r).
Proof.
  intros Hb Hb'. unfold parse_range.
  assert (∀ n s, Z.of_N n ≤ I64_MAX → display_u64 n ++ s ≠ lit "*") as Hstar.
  { intros n s Hn Heq. assert (42%N ∈ display_u64 n) as Hin; [|by apply digits_avoid in Hin; [|done|lia]].
    destruct (display_u64_spec n) as (_ & _ & Hne & _); [unfold I64_MAX, U64_MAX in *; lia|].
    destruct (display_u64 n) as [|d ds]; [done|]. injection Heq as -> _. apply list_elem_of_here. }
  destruct r as [|v|a b]; cbn [print_range range_bounds fst snd] in *.
  - by rewrite decide_True.
  - rewrite decide_False by (rewrite <-(app_nil_r (display_u64 v)); apply Hstar; lia).
    rewrite (proj2 (split_once_None 45 _)) by (apply digits_avoid; lia).
    rewrite parse_value_display by lia. done.
  - rewrite decide_False by (apply Hstar; lia). rewrite split_once_app by (apply digits_avoid; lia).
    rewrite parse_value_display by lia. cbn [mbind result_bind]. rewrite parse_value_display by lia. done.
Qed.

Lemma parse_print_step p :
  part_ok min max p → parse_step (print_part p) = Ok (print_range (part_range p), step_of p).
Proof.
  intros (Hb & Hb' & Hs). unfold parse_step, print_part, step_of in *.
  assert (47%N ∉ print_range (part_range p)) as Hn by (apply print_range_avoids; [done|done|lia..]).
  destruct (part_step p) as [s|]; simpl in Hs |- *.
  - rewrite split_once_app by done. rewrite parse_i64_display by lia. simpl. rewrite bool_decide_false by lia. done.
  - rewrite app_nil_r, (proj2 (split_once_None 47 _)) by done. done.
Qed.

Lemma pushed_print_part p v : part_ok min max p → pushed min max (print_part p) v ↔ selects min max p v.
Proof.
  intros Hp. unfold pushed, selects. pose proof Hp as (Hb & Hb' & Hs). rewrite parse_print_step by done. split.
  - intros (r & s & a & b & [= <- <-] & Hr & _ & Hw). rewrite parse_print_range in Hr by done. by injection Hr as ->.
  - intros Hw. eexists _, _, _, _. split; [done|]. rewrite parse_print_range by done.
    split; [by rewrite <-surjective_pairing|]. split; [lia|done].
Qed.
Lemma parse_print_part vs p :
  part_ok min max p → ∃ vs', parse_cron_part min max vs (print_part p) = Ok vs'.
Proof.
  intros Hp. unfold parse_cron_part. rewrite parse_print_step by done. simpl.
  destruct Hp as (Hb & Hb' & Hs). rewrite parse_print_range by done.
  destruct (range_bounds min max (part_range p)) as [a b]. simpl in *. rewrite bool_decide_false by lia. simpl. eauto.
Qed.

Lemma parse_print_field ps :
  field_ok min max ps →
  ∃ f, parse_field (print_field ps) min max = Ok f ∧
    ∀ v, field_matches f v = true ↔ ∃ p, p ∈ ps ∧ selects min max p v.
Proof.
  intros [Hne Hps]. assert (split_on 44 (print_field ps) = print_part <$> ps) as Hsplit.
  { apply split_on_join; [by destruct ps|]. apply Forall_fmap. eapply Forall_impl; [exact Hps|].
    intros p Hp. apply print_part_avoids; [done|lia..]. }
  assert (∀ vs, ∃ vs', foldlM (parse_cron_part min max) vs (print_part <$> ps) = Ok vs') as Hparts.
  { clear Hsplit Hne. induction Hps as [|p ps Hp Hps IH]; intros vs; [by exists vs|]. csimpl.
    destruct (parse_print_part vs p Hp) as [vs1 ->]. simpl. apply IH. }
  assert (∀ v, (∃ part, part ∈ print_part <$> ps ∧ pushed min max part v) ↔ ∃ p, p ∈ ps ∧ selects min max p v) as Hsel.
  { intros v. rewrite Forall_forall in Hps. split.
    - intros (part & (p & -> & Hp)%list_elem_of_fmap & Hv). exists p. split; [done|]. apply pushed_print_part; auto.
    - intros (p & Hp & Hv). exists (print_part p). split; [by apply list_elem_of_fmap_2|]. apply pushed_print_part; auto. }
  destruct (Hparts []) as [vs Hvs]. assert (vs ≠ []) as Hvne.
  { destruct ps as [|p ps]; [done|]. apply Forall_cons in Hps as [Hp _]. pose proof Hp as (Hb & Hb' & Hs).
    intros ->. apply (not_elem_of_nil (weekday_alias max (range_bounds min max (part_range p)).1)).
    eapply parse_parts_spec; [..|exact Hvs|apply Hsel]; [unfold I64_MIN; lia|done|done|].
    exists p. split; [apply list_elem_of_here|]. eexists. split; [|done]. split; [lia|].
    by rewrite Z.sub_diag, Z.mod_0_l by lia. }
  exists {| values := dedup (sort_on id vs) |}.
  assert (parse_field (print_field ps) min max = Ok {| values := dedup (sort_on id vs) |}) as Hok.
  { unfold parse_field. rewrite Hsplit, Hvs. simpl. rewrite bool_decide_false; [done|]. intros Hd.
    destruct vs as [|v vs]; [done|]. apply (not_elem_of_nil v). rewrite <-Hd, dedup_elem, sort_on_perm. apply list_elem_of_here. }
  split; [done|]. intros v. destruct (parse_field_spec min max ltac:(unfold I64_MIN; lia) Hmm Hmax _ _ Hok) as (_ & _ & Hm).
  by rewrite Hm, Hsplit.
Qed.
End print.

Lemma display_chars n : (Z.of_N n ≤ I64_MAX) → display_u64 n ≠ [] ∧ Forall (λ c, 42 ≤ c ≤ 57)%N (display_u64 n).
Proof.
  intros Hn. destruct (display_u64_spec n) as (_ & Hd & Hne & _); [unfold I64_MAX, U64_MAX in *; lia|].
  split; [done|]. eapply Forall_impl; [exact Hd|]. intros c Hc%digit_bounds. lia.
Qed.
Lemma print_range_chars min max r :
  max ≤ I64_MAX → (range_bounds min max r).1 ≤ (range_bounds min max r).2 ≤ max →
  print_range r ≠ [] ∧ Forall (λ c, 42 ≤ c ≤ 57)%N (print_range r).
Proof.
  intros Hm Hr. destruct r as [|v|a b]; simpl in *; [split; [done|by repeat constructor]|apply display_chars; lia|].
  destruct (display_chars a) as [Ha Hca]; [lia|]. destruct (display_chars b) as [_ Hcb]; [lia|].
  split; [by destruct (display_u64 a)|]. apply Forall_app. split; [done|]. by constructor.
Qed.
Lemma print_part_chars min max p :
  max ≤ I64_MAX → part_ok min max p → print_part p ≠ [] ∧ Forall (λ c, 42 ≤ c ≤ 57)%N (print_part p).
Proof.
  intros Hm (Hb & Hb' & Hs). destruct (print_range_chars min max (part_range p)) as [Hne Hc]; [done|lia|].
  unfold print_part, step_of in *. split; [by destruct (print_range (part_range p))|]. apply Forall_app. split; [done|].
  destruct (part_step p) as [s|]; [|constructor]. constructor; [done|]. apply display_chars. simpl in Hs. lia.
Qed.
Lemma print_field_word min max ps :
  max ≤ I64_MAX → field_ok min max ps → print_field ps ≠ [] ∧ Forall (λ c, is_whitespace c = false) (print_field ps).
Proof.
  intros Hm [Hne Hps]. assert (print_field ps ≠ [] ∧ Forall (λ c, 42 ≤ c ≤ 57)%N (print_field ps)) as [Hn Hc].
  { unfold print_field. induction Hps as [|p ps Hp Hps IH]; [done|]. csimpl.
    destruct (print_part_chars min max p Hm Hp) as [Hpn Hpc]. destruct ps as [|q ps]; [done|].
    destruct IH as [_ IH]; [done|]. csimpl. split; [by destruct (print_part p)|]. apply Forall_app. split; [done|].
    by constructor. }
  split; [done|]. eapply Forall_impl; [exact Hc|]. intros c Hc'. apply bool_decide_eq_false. simpl in Hc'. lia.
Qed.

Record CronExpr := {
  at_minute : list CronPart;
  at_hour : list CronPart;
  at_day : list CronPart;
  at_month : list CronPart;
  at_weekday : list CronPart;
}.
Definition print_expr (e : CronExpr) : text :=
  join_with 32 (print_field <$> [at_minute e; at_hour e; at_day e; at_month e; at_weekday e]).
Definition expr_ok (e : CronExpr) : Prop :=
  field_ok 0 59 (at_minute e) ∧ field_ok 0 23 (at_hour e) ∧ field_ok 1 31 (at_day e) ∧
  field_ok 1 12 (at_month e) ∧ field_ok 0 7 (at_weekday e).
(** Some part of the field steps on a value with the property. *)
Definition chosen (min max : Z) (ps : list CronPart) (P : Z → Prop) : Prop :=
  ∃ p w, p ∈ ps ∧ stepped (range_bounds min max (part_range p)).1 (range_bounds min max (part_range p)).2 (step_of p) w ∧ P w.
(** The wall clocks the expression means: weekdays 0 and 7 are both Sunday. *)
Definition means (e : CronExpr) (l : LocalTime) : Prop :=
  chosen 0 59 (at_minute e) (.= local_minute l) ∧ chosen 0 23 (at_hour e) (.= local_hour l) ∧
  chosen 1 31 (at_day e) (.= local_day l) ∧ chosen 1 12 (at_month e) (.= local_month l) ∧
  chosen 0 7 (at_weekday e) (λ w, w `mod` 7 = num_days_from_sunday l).

Lemma selects_chosen min max ps v P :
  (∀ p w, p ∈ ps → stepped (range_bounds min max (part_range p)).1 (range_bounds min max (part_range p)).2 (step_of p) w →
    v = weekday_alias max w ↔ P w) →
  (∃ p, p ∈ ps ∧ selects min max p v) ↔ chosen min max ps P.
Proof.
  intros HP. unfold selects, chosen. split.
  - intros (p & Hp & w & Hw & Hv). exists p, w. split_and!; [done..|]. by apply (HP p w).
  - intros (p & w & Hp & Hw & Hv). exists p. split; [done|]. exists w. split; [done|]. by apply (HP p w).
Qed.
Lemma selects_plain min max ps v :
  max ≠ 7 → (∃ p, p ∈ ps ∧ selects min max p v) ↔ chosen min max ps (.= v).
Proof.
  intros Hm. apply selects_chosen. intros p w _ _. unfold weekday_alias. rewrite bool_decide_false by tauto. naive_solver.
Qed.
Lemma selects_weekday ps d :
  0 ≤ d ≤ 6 → field_ok 0 7 ps →
  (∃ p, p ∈ ps ∧ selects 0 7 p (if decide (d = 0) then 7 else d)) ↔ chosen 0 7 ps (λ w, w `mod` 7 = d).
Proof.
  intros Hd [_ Hps]. apply selects_chosen. intros p w Hp [Hw _]. rewrite Forall_forall in Hps.
  destruct (Hps p Hp) as (Hb & Hb' & _). unfold weekday_alias.
  destruct (decide (w = 7)) as [->|]; [|rewrite Z.mod_small by lia]; repeat case_bool_decide; case_decide; split;
    try (change (7 `mod` 7) with 0); lia.
Qed.

(** C34: every expression of the cron grammar — stars, values and ranges, each with
    an optional step, in comma-separated lists — is read as it is meant: the
    parsed specification accepts exactly the wall clocks whose minute, hour,
    day of month and month some part of the field steps on, and whose weekday
    does, 0 and 7 both being Sunday. *)
Theorem cron_expression_means e :
  expr_ok e → ∃ s, parse_spec (print_expr e) = Ok s ∧
    ∀ l, 0 ≤ num_days_from_sunday l ≤ 6 → spec_matches s l = true ↔ means e l.
Proof.
  intros (H0 & H1 & H2 & H3 & H4).
  destruct (parse_print_field 0 59 ltac:(done) ltac:(done) ltac:(done) _ H0) as (f0 & E0 & M0).
  destruct (parse_print_field 0 23 ltac:(done) ltac:(done) ltac:(done) _ H1) as (f1 & E1 & M1).
  destruct (parse_print_field 1 31 ltac:(done) ltac:(done) ltac:(done) _ H2) as (f2 & E2 & M2).
  destruct (parse_print_field 1 12 ltac:(done) ltac:(done) ltac:(done) _ H3) as (f3 & E3 & M3).
  destruct (parse_print_field 0 7 ltac:(done) ltac:(done) ltac:(done) _ H4) as (f4 & E4 & M4).
  exists {| minute := f0; hour := f1; day := f2; month := f3; weekday := f4 |}. split.
  - unfold parse_spec, print_expr. rewrite split_whitespace_join.
    + csimpl. by rewrite E0, E1, E2, E3, E4.
    + repeat constructor; [eapply (print_field_word 0 59)|eapply (print_field_word 0 59)|eapply (print_field_word 0 23)|
        eapply (print_field_word 0 23)|eapply (print_field_word 1 31)|eapply (print_field_word 1 31)|
        eapply (print_field_word 1 12)|eapply (print_field_word 1 12)|eapply (print_field_word 0 7)|eapply (print_field_word 0 7)]; done.
  - intros l Hl. unfold spec_matches, means. cbn [minute hour day month weekday]. rewrite !andb_true_iff, M0, M1, M2, M3, M4.
    rewrite !selects_plain by done. rewrite selects_weekday by done. tauto.
Qed.

(** ** The searches find the first and the last fire *)

(** The first and the last instant with a property. *)
Definition next_in (P : Z → Prop) (now t : Z) : Prop := now < t ∧ P t ∧ ∀ u, now < u < t → ¬ P u.
Definition last_in (P : Z → Prop) (lo hi t : Z) : Prop := lo ≤ t ≤ hi ∧ P t ∧ ∀ u, t < u ≤ hi → ¬ P u.

Lemma next_in_unique P now t u : next_in P now t → next_in P now u → t = u.
Proof.
  intros (Ht & HPt & Hft) (Hu & HPu & Hfu). destruct (Z.lt_trichotomy t u) as [|[|]]; [|done|].
  - by destruct (Hfu t).
  - by destruct (Hft u).
Qed.
(** The instant after the last one not behind [now] is the next one after [now]. *)
Lemma next_in_last P lo now l t : last_in P lo now l → next_in P l t ↔ next_in P now t.
Proof.
  intros (Hl & HPl & Hgap). split; intros (Ht & HPt & Hf); (split; [|split; [done|]]); try lia.
  - destruct (decide (t ≤ now)); [|lia]. by destruct (Hgap t).
  - intros u Hu. apply Hf. lia.
  - intros u Hu. destruct (decide (u ≤ now)); [apply Hgap; lia|apply Hf; lia].
Qed.

Section search_lemmas.
Context `{ChronoLaws}.

Definition fires (s : CronSpec) (tz : Tz) (t : Z) : Prop :=
  t `mod` 60 = 0 ∧ ∃ l, with_timezone tz t = Some l ∧ spec_matches s l = true.

Lemma fires_range s tz t : fires s tz t → CHRONO_MIN ≤ t ≤ CHRONO_MAX.
Proof. intros (_ & l & Hl & _). apply (with_timezone_range tz). eauto. Qed.

Lemma probe_spec s tz candidate :
  candidate `mod` 60 = 0 →
  match probe s tz candidate with
  | Some (Ok t) => t = candidate ∧ fires s tz candidate
  | Some (Err e) => (∃ m, e = Bail m) ∧ ¬ CHRONO_MIN ≤ candidate ≤ CHRONO_MAX
  | None => ¬ fires s tz candidate ∧ CHRONO_MIN ≤ candidate ≤ CHRONO_MAX
  end.
Proof.
  intros Hm. unfold probe, fires. pose proof (with_timezone_range tz candidate) as Hr.
  destruct (with_timezone tz candidate) as [l|].
  - destruct (spec_matches s l) eqn:Hs; [by eauto|]. split; [|by apply Hr].
    intros (_ & l' & [= <-] & ?). congruence.
  - split; [by eauto|]. rewrite <-Hr. by intros [? ?].
Qed.

Lemma not_minute s tz c u : c `mod` 60 = 0 → c < u < c + 60 → ¬ fires s tz u.
Proof. intros Hc Hu [Hm _]. lia. Qed.

Lemma no_wall_clock tz t : ¬ CHRONO_MIN ≤ t ≤ CHRONO_MAX → with_timezone tz t = None.
Proof. intros Hr. apply eq_None_not_Some. by rewrite with_timezone_range. Qed.

(** What a search over the instants from [lo] to [hi] has to answer. *)
Definition first_answer (P : Z → Prop) (lo hi : Z) (o : option (result failure Z)) : Prop :=
  match o with
  | Some (Ok t) => lo ≤ t ≤ hi ∧ P t ∧ ∀ u, lo ≤ u < t → ¬ P u
  | Some (Err e) => (∃ m, e = Bail m) ∧ ∀ u, lo ≤ u ≤ hi → ¬ P u
  | None => False
  end.
Definition last_answer (P : Z → Prop) (lo hi : Z) (o : option (result failure Z)) : Prop :=
  match o with
  | Some (Ok t) => last_in P lo hi t
  | Some (Err e) => (∃ m, e = Bail m) ∧ ∀ u, lo ≤ u ≤ hi → ¬ P u
  | None => False
  end.
Lemma first_answer_skip P lo lo' hi o :
  lo ≤ lo' → (∀ u, lo ≤ u < lo' → ¬ P u) → first_answer P lo' hi o → first_answer P lo hi o.
Proof.
  intros Hlo Hskip. destruct o as [[t|e]|]; [| |done].
  - intros (Ht & HP & Hf). split; [lia|]. split; [done|]. intros u Hu.
    destruct (decide (u < lo')); [apply Hskip|apply Hf]; lia.
  - intros [He Hf]. split; [done|]. intros u Hu. destruct (decide (u < lo')); [apply Hskip|apply Hf]; lia.
Qed.
Lemma last_answer_skip P lo hi hi' o :
  hi' ≤ hi → (∀ u, hi' < u ≤ hi → ¬ P u) → last_answer P lo hi' o → last_answer P lo hi o.
Proof.
  intros Hhi Hskip. destruct o as [[t|e]|]; [| |done].
  - intros (Ht & HP & Hf). split; [lia|]. split; [done|]. intros u Hu.
    destruct (decide (hi' < u)); [apply Hskip|apply Hf]; lia.
  - intros [He Hf]. split; [done|]. intros u Hu. destruct (decide (hi' < u)); [apply Hskip|apply Hf]; lia.
Qed.

Lemma seek_forward_spec fuel s tz c limit :
  c `mod` 60 = 0 → CHRONO_MIN ≤ c → limit - c < 60 * (Z.of_nat fuel - 1) → (0 < fuel)%nat →
  first_answer (fires s tz) c limit (seek_forward fuel s tz c limit).
Proof.
  revert c; induction fuel as [|fuel IH]; intros c Hc Hlow Hf Hpos; [lia|]. cbn [seek_forward].
  destruct (decide (c ≤ limit)) as [Hle|]; [|split; [by eauto|lia]].
  pose proof (probe_spec s tz c Hc) as Hp. destruct (probe s tz c) as [[t|e]|].
  - destruct Hp as [-> Hfire]. split; [lia|]. split; [done|]. intros u Hu. lia.
  - destruct Hp as [He Hr]. split; [done|]. intros u Hu Hfire%fires_range. lia.
  - destruct Hp as [Hno Hr]. rewrite sat_add_id by (unfold CHRONO_MIN, CHRONO_MAX in *; int64).
    apply (first_answer_skip _ _ (c + 60)); [lia| |apply IH; lia]. intros u Hu.
    destruct (decide (u = c)) as [->|]; [done|]. apply (not_minute _ _ c); lia.
Qed.
Lemma seek_backward_spec fuel s tz c limit :
  c `mod` 60 = 0 → c ≤ CHRONO_MAX → c - limit < 60 * (Z.of_nat fuel - 1) → (0 < fuel)%nat →
  last_answer (fires s tz) limit c (seek_backward fuel s tz c limit).
Proof.
  revert c; induction fuel as [|fuel IH]; intros c Hc Hhigh Hf Hpos; [lia|]. cbn [seek_backward].
  destruct (decide (limit ≤ c)) as [Hle|]; [|split; [by eauto|lia]].
  pose proof (probe_spec s tz c Hc) as Hp. destruct (probe s tz c) as [[t|e]|].
  - destruct Hp as [-> Hfire]. split; [lia|]. split; [done|]. intros u Hu. lia.
  - destruct Hp as [He Hr]. split; [done|]. intros u Hu Hfire%fires_range. lia.
  - destruct Hp as [Hno Hr]. rewrite sat_sub_id by (unfold CHRONO_MIN, CHRONO_MAX in *; int64).
    apply (last_answer_skip _ _ _ (c - 60)); [lia| |apply IH; lia]. intros u Hu.
    destruct (decide (u = c)) as [->|]; [done|]. apply (not_minute _ _ (c - 60)); lia.
Qed.
Lemma search_fuel_enough : Z.of_nat SEARCH_FUEL = CRON_SEARCH_SECONDS `div` 60 + 2.
Proof. unfold SEARCH_FUEL. rewrite Z2Nat.id; [done|]. unfold CRON_SEARCH_SECONDS. lia. Qed.
Opaque SEARCH_FUEL.

(** C28: the forward search always ends, with the first minute after [now] whose
    wall clock the expression accepts, or with an error exactly when no minute
    of the following 366 days is accepted. *)
Theorem next_cron_fire_exact expr timezone s tz now :
  parse_spec expr = Ok s → tz_from_str timezone = Some tz → CHRONO_MIN ≤ now → i64 now →
  match next_cron_fire expr timezone now with
  | Ok t => next_in (fires s tz) now t ∧ t ≤ now + CRON_SEARCH_SECONDS
  | Err e => (∃ m, e = Bail m) ∧ ∀ u, now < u ≤ now + CRON_SEARCH_SECONDS → ¬ fires s tz u
  end.
Proof.
  intros Hs Htz Hlow Hi. unfold next_cron_fire, validate_timezone. rewrite Hs, Htz. cbn [mbind result_bind ok_or].
  pose proof search_fuel_enough as Hfuel. change (CRON_SEARCH_SECONDS `div` 60 + 2) with 527042 in Hfuel.
  revert Hfuel. generalize SEARCH_FUEL as fuel. intros fuel Hfuel.
  change CRON_SEARCH_SECONDS with 31622400 in *. pose proof (Z.mod_pos_bound now 60 ltac:(done)) as Hmod.
  destruct (decide (now ≤ CHRONO_MAX)) as [Hhigh|Hhigh].
  - rewrite !sat_add_id by (unfold CHRONO_MIN, CHRONO_MAX in *; int64).
    pose proof (seek_forward_spec fuel s tz (now + (60 - now `mod` 60)) (now + 31622400)) as Ha.
    destruct (seek_forward _ _ _ _ _) as [[t|e]|]; cbn [answer_of default from_option id] in *; [| |by destruct Ha; lia].
    + destruct Ha as (Ht & Hfire & Hfirst); [lia..|]. split; [|lia]. split; [lia|]. split; [done|]. intros u Hu Hfu.
      destruct (decide (u < now + (60 - now `mod` 60))); [|by apply (Hfirst u); [lia|]]. destruct Hfu as [Hm _]. lia.
    + destruct Ha as (He & Hnone); [lia..|]. split; [done|]. intros u Hu Hfu.
      destruct (decide (u < now + (60 - now `mod` 60))); [|by apply (Hnone u); [lia|]]. destruct Hfu as [Hm _]. lia.
  - assert (∀ fuel' c limit, CHRONO_MAX < c → (0 < fuel')%nat → ∃ m, seek_forward fuel' s tz c limit = Some (Err (Bail m))) as Hbig.
    { intros [|fuel'] c limit Hc Hpos; [lia|]. cbn [seek_forward]. case_decide; [|by eauto].
      unfold probe. rewrite no_wall_clock by lia. eauto. }
    destruct (Hbig fuel (sat_add now (60 - now `mod` 60)) (sat_add now 31622400)) as [m ->];
      [unfold CHRONO_MIN, CHRONO_MAX in *; int64|lia|]. cbn. split; [by eauto|]. intros u Hu Hfu%fires_range. lia.
Qed.

Lemma latest_cron_fire_exact expr timezone s tz first_due_at now :
  parse_spec expr = Ok s → tz_from_str timezone = Some tz → CHRONO_MIN + CRON_SEARCH_SECONDS ≤ now ≤ CHRONO_MAX →
  match latest_cron_fire expr timezone first_due_at now with
  | Ok t => last_in (fires s tz) first_due_at now t ∧ now - CRON_SEARCH_SECONDS ≤ t
  | Err e => (∃ m, e = Bail m) ∧ ∀ u, Z.max first_due_at (now - CRON_SEARCH_SECONDS) ≤ u ≤ now → ¬ fires s tz u
  end.
Proof.
  intros Hs Htz Hnow. unfold latest_cron_fire, validate_timezone. rewrite Hs, Htz. cbn [mbind result_bind ok_or].
  pose proof search_fuel_enough as Hfuel. change (CRON_SEARCH_SECONDS `div` 60 + 2) with 527042 in Hfuel.
  revert Hfuel. generalize SEARCH_FUEL as fuel. intros fuel Hfuel.
  change CRON_SEARCH_SECONDS with 31622400 in *. pose proof (Z.mod_pos_bound now 60 ltac:(done)) as Hmod.
  rewrite !sat_sub_id by (unfold CHRONO_MIN, CHRONO_MAX in *; int64).
  pose proof (seek_backward_spec fuel s tz (now - now `mod` 60) (Z.max first_due_at (now - 31622400))) as Ha.
  specialize (Ha ltac:(lia) ltac:(lia) ltac:(lia) ltac:(lia)).
  apply (last_answer_skip _ _ now) in Ha; [|lia|intros u Hu [Hm _]; lia].
  clear Hfuel Hmod. destruct (seek_backward _ _ _ _ _) as [[t|e]|]; [| |by destruct Ha]; cbn [answer_of default from_option id].
  - destruct Ha as (Ht & HP & Hf). split; [|lia]. split; [lia|]. split; [exact HP|exact Hf].
  - exact Ha.
Qed.
End search_lemmas.

(** ** Recovery agrees with the schedule *)
Section recovery.
Context `{ChronoLaws}.

(** The schedule followed forwards from a fire. *)
Inductive scheduled (expr timezone : text) (first : Z) : Z → Prop :=
  | scheduled_first : scheduled expr timezone first first
  | scheduled_next l n :
      scheduled expr timezone first l → next_cron_fire expr timezone l = Ok n → scheduled expr timezone first n.

(** looking back from [now] for the latest missed fire gives the fire that
    following the schedule forwards reaches last, also when the time zone
    repeats or skips wall clocks and however long the outage was. *)
Theorem cron_recovery_agrees expr timezone s tz first l n now :
  parse_spec expr = Ok s → tz_from_str timezone = Some tz → fires s tz first →
  CHRONO_MIN + CRON_SEARCH_SECONDS ≤ now ≤ CHRONO_MAX →
  scheduled expr timezone first l → l ≤ now → next_cron_fire expr timezone l = Ok n → now < n →
  latest_cron_fire expr timezone first now = Ok l.
Proof.
  intros Hs Htz Hfirst Hnow Hl Hle Hn Hlt.
  assert (∀ a b, fires s tz a → next_cron_fire expr timezone a = Ok b →
    next_in (fires s tz) a b ∧ b ≤ a + CRON_SEARCH_SECONDS) as Hnext.
  { intros a b Ha Hab. apply fires_range in Ha. pose proof (next_cron_fire_exact expr timezone s tz a Hs Htz) as Hx.
    rewrite Hab in Hx. apply Hx; unfold CHRONO_MIN, CHRONO_MAX in *; int64. }
  assert (first ≤ l ∧ fires s tz l) as [Hfl Hfire].
  { clear Hn Hle. induction Hl as [|a b Ha [Hfa Hfire] Hab]; [done|]. destruct (Hnext a b Hfire Hab) as [(Hb & Hfb & _) _].
    split; [lia|done]. }
  destruct (Hnext l n Hfire Hn) as [(_ & _ & Hgap) Hwindow].
  pose proof (latest_cron_fire_exact expr timezone s tz first now Hs Htz Hnow) as Hx.
  destruct (latest_cron_fire expr timezone first now) as [t|e].
  - destruct Hx as [(Ht & Hft & Hlast) _]. f_equal. destruct (Z.lt_trichotomy t l) as [|[|]]; [|done|].
    + by destruct (Hlast l); [lia|].
    + by destruct (Hgap t); [lia|].
  - destruct Hx as [_ Hnone]. exfalso. apply (Hnone l); [lia|done].
Qed.
End recovery.

(** ** A concrete calendar

    Zones with a fixed offset and the proleptic Gregorian calendar. *)
Module SampleCalendar.
(** The civil date of a day counted from 1970-01-01. *)
Definition civil (days : Z) : Z * Z :=
  let z := days + 719468 in
  let doe := z `mod` 146097 in
  let yoe := (doe - doe / 1460 + doe / 36524 - doe / 146096) / 365 in
  let doy := doe - (365 * yoe + yoe / 4 - yoe / 100) in
  let mp := (5 * doy + 2) / 153 in
  (if decide (mp < 10) then mp + 3 else mp - 9, doy - (153 * mp + 2) / 5 + 1).
Definition wall_clock (offset t : Z) : LocalTime :=
  let l := t + offset in
  {| local_minute := (l / 60) `mod` 60; local_hour := (l / 3600) `mod` 24;
     local_day := (civil (l / 86400)).2; local_month := (civil (l / 86400)).1;
     num_days_from_sunday := (l / 86400 + 4) `mod` 7 |}.
Definition sample_zone (name : text) : option Z :=
  if decide (name = lit "UTC") then Some 0
  else if decide (name = lit "Etc/GMT-3") then Some 10800 else None.
#[local] Instance sample_chrono : Chrono :=
  {| Tz := Z; tz_from_str := sample_zone;
     with_timezone := λ offset t,
       if decide (CHRONO_MIN ≤ t ≤ CHRONO_MAX) then Some (wall_clock offset t) else None |}.
Definition utc : Tz := 0.
#[local] Instance sample_chrono_laws : ChronoLaws.
Proof.
  split. intros tz t. cbn. destruct (decide (CHRONO_MIN ≤ t ≤ CHRONO_MAX)); (split; [|done || eauto]); [done|].
  by intros [? ?].
Qed.

Definition weekday_mornings : CronExpr :=
  {| at_minute := [{| part_range := Single 0; part_step := None |}];
     at_hour := [{| part_range := Span 7 9; part_step := Some 2%N |}];
     at_day := [{| part_range := Every; part_step := None |}];
     at_month := [{| part_range := Every; part_step := None |}];
     at_weekday := [{| part_range := Span 1 5; part_step := None |}] |}.
Definition spec_of (expr : text) : CronSpec :=
  match parse_spec expr with
  | Ok s => s
  | Err _ => {| minute := {| values := [] |}; hour := {| values := [] |}; day := {| values := [] |};
                month := {| values := [] |}; weekday := {| values := [] |} |}
  end.

Example sample_print : print_expr weekday_mornings = lit "0 7-9/2 * * 1-5".
Proof. vm_compute. reflexivity. Qed.
(** Friday 2026-10-02 09:00 UTC is followed by Monday 07:00. *)
Example sample_next : next_cron_fire (lit "0 7-9/2 * * 1-5") (lit "UTC") 1790931600 = Ok 1791183600.
Proof. vm_compute. reflexivity. Qed.
Example sample_latest : latest_cron_fire (lit "0 7-9/2 * * 1-5") (lit "Etc/GMT-3") 1790900000 1791000000 = Ok 1790920800.
Proof. vm_compute. reflexivity. Qed.
Example sample_rejected :
  (λ e, parse_spec (lit e)) <$> ["* * * *"; "60 * * * *"; "5-1 * * * *"; "*/0 * * * *"; "x * * * *"] =
  [Err (Bail "cron expression must have five fields"); Err (Bail "cron value is outside");
   Err (Bail "cron range start must not exceed end"); Err (Bail "cron step must be positive");
   Err (Bail "invalid cron value")].
Proof. vm_compute. reflexivity. Qed.
End SampleCalendar.

(** ** The theorems at concrete inputs *)
Import SampleCalendar.
#[local] Existing Instance sample_chrono.
#[local] Existing Instance sample_chrono_laws.

Lemma weekday_mornings_ok : expr_ok weekday_mornings.
Proof. by repeat (split || constructor). Qed.

Lemma cron_expression_means_witness :
  expr_ok weekday_mornings ∧
  ∃ s, parse_spec (print_expr weekday_mornings) = Ok s ∧
    ∀ l, 0 ≤ num_days_from_sunday l ≤ 6 → spec_matches s l = true ↔ means weekday_mornings l.
Proof. split; [exact weekday_mornings_ok|]. apply cron_expression_means. exact weekday_mornings_ok. Defined.

Lemma next_cron_fire_exact_witness :
  next_in (fires (spec_of (lit "0 7-9/2 * * 1-5")) utc) 1790931600 1791183600.
Proof.
  pose proof (next_cron_fire_exact (lit "0 7-9/2 * * 1-5") (lit "UTC") (spec_of (lit "0 7-9/2 * * 1-5")) utc 1790931600
    ltac:(vm_compute; reflexivity) ltac:(vm_compute; reflexivity) ltac:(unfold CHRONO_MIN; lia)
    ltac:(unfold i64, I64_MIN, I64_MAX; lia)) as Hnext.
  rewrite sample_next in Hnext. exact (proj1 Hnext).
Defined.

Lemma sample_first_fires : fires (spec_of (lit "0 7-9/2 * * 1-5")) utc 1790931600.
Proof. split; [done|]. eexists. split; [reflexivity|]. vm_compute. reflexivity. Qed.

Lemma cron_recovery_agrees_witness :
  latest_cron_fire (lit "0 7-9/2 * * 1-5") (lit "UTC") 1790931600 1791000000 = Ok 1790931600.
Proof.
  apply (cron_recovery_agrees (lit "0 7-9/2 * * 1-5") (lit "UTC") (spec_of (lit "0 7-9/2 * * 1-5")) utc
    1790931600 1790931600 1791183600 1791000000).
  - vm_compute. reflexivity.
  - vm_compute. reflexivity.
  - exact sample_first_fires.
  - unfold CHRONO_MIN, CHRONO_MAX, CRON_SEARCH_SECONDS. lia.
  - apply scheduled_first.
  - lia.
  - exact sample_next.
  - lia.
Defined.
