(* ===== verification/TaskTrigger.v ===== *)
(** * Task triggers

    Models src/crates/tasks/src/trigger.rs above the cron searches of
    [CronSchedule]: the validation of a trigger specification, when it fires
    first and next, which fires an observation of the scheduler is due
    ([due_plan]) and how missed ones are caught up ([catch_up_plan]). The
    trigger types are those of src/crates/protocol/src/task.rs. Instants are
    Unix seconds in an [i64]; the loops over missed fires run at most as often
    as the scan limit, so the limit is their fuel. *)
From S2P Require Import Prelude Ordered TextSplit Decimal Int64 CronSchedule.
Local Open Scope Z_scope.
#[local] Set Warnings "-register-all".

Definition DEFAULT_RUN_ALL_MISSED_MAX_COUNT : N := 32.
Definition MAX_TASK_DEPENDENCIES : nat := 128.
Definition MIN_TASK_INTERVAL_SECONDS : Z := 10.

(** ** Data *)
Inductive TaskTriggerKind :=
  | KindImmediate | KindScheduledAt | KindInterval | KindCron | KindManual | KindExternal | KindDependency.
Inductive TaskTriggerStatus := Active | Paused | Exhausted | Cancelled.
Inductive TaskManualActor := Owner | WorkspaceMember | System | Any.
Inductive TaskDependencyTriggerMode := AllSucceeded | AnySucceeded | AllTerminal.
Inductive TaskTriggerCatchUpMode := RunOnceForLatestMissed | SkipMissed | RunAllMissed.
#[export] Instance kind_eq_dec : EqDecision TaskTriggerKind. Proof. solve_decision. Defined.
#[export] Instance trigger_status_eq_dec : EqDecision TaskTriggerStatus. Proof. solve_decision. Defined.
#[export] Instance actor_eq_dec : EqDecision TaskManualActor. Proof. solve_decision. Defined.
#[export] Instance dependency_mode_eq_dec : EqDecision TaskDependencyTriggerMode. Proof. solve_decision. Defined.
#[export] Instance mode_eq_dec : EqDecision TaskTriggerCatchUpMode. Proof. solve_decision. Defined.

Record TaskTriggerCatchUpPolicy := { mode : TaskTriggerCatchUpMode; max_count : option N }.
#[export] Instance policy_eq_dec : EqDecision TaskTriggerCatchUpPolicy. Proof. solve_decision. Defined.
Definition run_once_for_latest_missed : TaskTriggerCatchUpPolicy := {| mode := RunOnceForLatestMissed; max_count := None |}.
Definition skip_missed : TaskTriggerCatchUpPolicy := {| mode := SkipMissed; max_count := None |}.
Definition run_all_missed (count : N) : TaskTriggerCatchUpPolicy := {| mode := RunAllMissed; max_count := Some count |}.

Record TaskDependencyTriggerPolicy := {
  dependency_mode : TaskDependencyTriggerMode;
  depends_on_task_ids : list string;
}.
#[export] Instance dependency_policy_eq_dec : EqDecision TaskDependencyTriggerPolicy. Proof. solve_decision. Defined.

(** An [f64] is its 64 bits. *)
Inductive TaskValue :=
  | VNull
  | VBool (b : bool)
  | VInteger (n : Z)
  | VNumber (bits : N)
  | VString (s : string)
  | VList (items : list TaskValue)
  | VObject (members : list (string * TaskValue)).
Record TaskExternalTriggerFilter := {
  expression : option string;
  filter_fields : list (string * TaskValue);
}.

Inductive TaskTriggerSpec :=
  | Immediate
  | ScheduledAt (scheduled_at : Z) (timezone : option text) (catch_up_policy : option TaskTriggerCatchUpPolicy)
  | Interval (interval_seconds : Z) (interval_anchor_at : option Z) (catch_up_policy : option TaskTriggerCatchUpPolicy)
  | Cron (cron_expr timezone : text) (catch_up_policy : option TaskTriggerCatchUpPolicy)
  | Manual (allowed_actor : option TaskManualActor)
  | External (source : string) (event_type : option string) (filter : option TaskExternalTriggerFilter)
  | Dependency (policy : TaskDependencyTriggerPolicy).
Definition spec_kind (s : TaskTriggerSpec) : TaskTriggerKind :=
  match s with
  | Immediate => KindImmediate
  | ScheduledAt _ _ _ => KindScheduledAt
  | Interval _ _ _ => KindInterval
  | Cron _ _ _ => KindCron
  | Manual _ => KindManual
  | External _ _ _ => KindExternal
  | Dependency _ => KindDependency
  end.

Record TaskTrigger := {
  webhook_secret_ref : option string;
  trigger_id : string;
  task_id : string;
  trigger_status : TaskTriggerStatus;
  spec : TaskTriggerSpec;
  next_fire_at : option Z;
  last_fire_at : option Z;
  created_at : Z;
  updated_at : Z;
}.
#[export] Instance trigger_fields : Fields TaskTrigger := λ t,
  {| webhook_secret_ref := webhook_secret_ref t; trigger_id := trigger_id t; task_id := task_id t;
     trigger_status := trigger_status t; spec := spec t; next_fire_at := next_fire_at t;
     last_fire_at := last_fire_at t; created_at := created_at t; updated_at := updated_at t |}.
Definition trigger_kind (t : TaskTrigger) : TaskTriggerKind := spec_kind (spec t).

Record TaskTriggerCatchUpPlan := {
  fire_times : list Z;
  plan_last_fire_at : option Z;
  plan_next_fire_at : option Z;
  exhausted : bool;
}.

(** ** Policies *)
Definition catch_up_policy_for_trigger (t : TaskTrigger) : TaskTriggerCatchUpPolicy :=
  match spec t with
  | ScheduledAt _ _ p | Interval _ _ p | Cron _ _ p => default run_once_for_latest_missed p
  | _ => run_once_for_latest_missed
  end.
Definition run_all_limit (p : TaskTriggerCatchUpPolicy) : N :=
  N.max (default DEFAULT_RUN_ALL_MISSED_MAX_COUNT (max_count p)) 1.
Definition missed_scan_limit (p : TaskTriggerCatchUpPolicy) : nat :=
  match mode p with
  | RunAllMissed => N.to_nat (run_all_limit p)
  | RunOnceForLatestMissed | SkipMissed => 1
  end.
Definition is_recurring_trigger (t : TaskTrigger) : bool :=
  bool_decide (trigger_kind t = KindInterval) || bool_decide (trigger_kind t = KindCron).

Definition validate_catch_up_policy (p : option TaskTriggerCatchUpPolicy) : result failure () :=
  match p with
  | None => Ok ()
  | Some p =>
      ensure (negb (bool_decide (mode p = RunAllMissed) && bool_decide (max_count p = Some 0%N)))
        (Bail "catch_up_policy.max_count must be positive for run_all_missed")
  end.

(** ** The calculator *)
Definition next_interval_fire (anchor interval_seconds now : Z) : result failure Z :=
  if decide (now < anchor) then Ok anchor
  else
    q ← div_i64 (sat_sub now anchor) interval_seconds;
    intervals ← add_i64 q 1;
    Ok (sat_add anchor (sat_mul intervals interval_seconds)).

Section calculator.
Context `{Chrono}.

Definition validate (s : TaskTriggerSpec) : result failure () :=
  match s with
  | Immediate => Ok ()
  | ScheduledAt scheduled_at timezone p =>
      ensure (negb (bool_decide (scheduled_at ≤ 0))) (Bail "scheduled_at must be a positive unix timestamp");;
      match timezone with Some tz => _ ← validate_timezone tz; Ok () | None => Ok () end;;
      validate_catch_up_policy p
  | Interval interval_seconds anchor p =>
      ensure (negb (bool_decide (interval_seconds < MIN_TASK_INTERVAL_SECONDS))) (Bail "interval_seconds must be at least 10 seconds");;
      ensure (match anchor with Some a => negb (bool_decide (a ≤ 0)) | None => true end) (Bail "interval_anchor_at must be positive when present");;
      validate_catch_up_policy p
  | Dependency p =>
      ensure (negb (bool_decide (MAX_TASK_DEPENDENCIES < length (depends_on_task_ids p))%nat)) (Bail "dependency trigger has too many dependencies")
  | Cron cron_expr timezone p =>
      _ ← validate_timezone timezone;
      _ ← parse_spec cron_expr;
      validate_catch_up_policy p
  | External source event_type filter =>
      ensure (negb (bool_decide (source = "webhook"%string) && (bool_decide (is_Some event_type) || bool_decide (is_Some filter))))
        (Bail "webhook triggers do not accept eventType or filters")
  | Manual _ => Ok ()
  end.

Definition initial_next_fire_at (s : TaskTriggerSpec) (now : Z) : result failure (option Z) :=
  validate s;;
  match s with
  | Immediate => Ok (Some now)
  | ScheduledAt scheduled_at _ _ => Ok (Some scheduled_at)
  | Interval interval_seconds anchor _ => Some <$> next_interval_fire (default now anchor) interval_seconds now
  | Cron cron_expr timezone _ => Some <$> next_cron_fire cron_expr timezone now
  | Manual _ | External _ _ _ | Dependency _ => Ok None
  end.

Definition next_after_fire (t : TaskTrigger) (fired_at : Z) : result failure (option Z) :=
  match spec t with
  | Interval interval_seconds anchor _ => Some <$> next_interval_fire (default fired_at anchor) interval_seconds fired_at
  | Cron cron_expr timezone _ => Some <$> next_cron_fire cron_expr timezone fired_at
  | _ => Ok None
  end.
Definition next_after_missed (t : TaskTrigger) (missed_at : Z) : result failure (option Z) :=
  if is_recurring_trigger t then next_after_fire t missed_at else Ok None.

(** ** Missed fires *)
(** The loop of an interval with [RunAllMissed]; [room] is what the limit leaves. *)
Fixpoint missed_intervals (room : nat) (current interval_seconds now : Z) : list Z :=
  match room with
  | O => []
  | S room =>
      if decide (current ≤ now) then current :: missed_intervals room (sat_add current interval_seconds) interval_seconds now
      else []
  end.
(** The loop over any other schedule. *)
Fixpoint missed_schedule (room : nat) (t : TaskTrigger) (current now : Z) : result failure (list Z) :=
  match room with
  | O => Ok []
  | S room =>
      if decide (current ≤ now) then
        next ← next_after_fire t current;
        match next with
        | None => Ok [current]
        | Some next =>
            ensure (negb (bool_decide (next ≤ current))) (Bail "trigger did not advance after fire");;
            cons current <$> missed_schedule room t next now
        end
      else Ok []
  end.

Definition missed_fire_times (t : TaskTrigger) (first_due_at now : Z) (limit : nat) : result failure (list Z) :=
  if negb (is_recurring_trigger t) then Ok (if decide (first_due_at ≤ now) then [first_due_at] else [])
  else match spec t, mode (catch_up_policy_for_trigger t) with
  | Interval interval_seconds _ _, m =>
      ensure (negb (bool_decide (interval_seconds ≤ 0))) (Bail "interval_seconds must be positive");;
      match m with
      | RunAllMissed => Ok (missed_intervals limit first_due_at interval_seconds now)
      | RunOnceForLatestMissed | SkipMissed =>
          q ← div_i64 (sat_sub now first_due_at) interval_seconds;
          Ok [sat_add first_due_at (sat_mul q interval_seconds)]
      end
  | Cron cron_expr timezone _, (RunOnceForLatestMissed | SkipMissed) =>
      latest ← latest_cron_fire cron_expr timezone first_due_at now;
      Ok [latest]
  | _, _ => missed_schedule limit t first_due_at now
  end.

(** A plan without fires that leaves the cursor where it is. *)
Definition idle_plan (t : TaskTrigger) : TaskTriggerCatchUpPlan :=
  {| fire_times := []; plan_last_fire_at := last_fire_at t; plan_next_fire_at := next_fire_at t; exhausted := false |}.

Definition catch_up_plan (t : TaskTrigger) (now : Z) : result failure TaskTriggerCatchUpPlan :=
  match next_fire_at t with
  | None => Ok (idle_plan t)
  | Some first_due_at =>
      if decide (now < first_due_at) then Ok (idle_plan t)
      else
        let policy := catch_up_policy_for_trigger t in
        missed ← missed_fire_times t first_due_at now (missed_scan_limit policy);
        match last missed with
        | None => Ok (idle_plan t)
        | Some latest_missed =>
            match mode policy with
            | SkipMissed =>
                next ← next_after_missed t latest_missed;
                Ok {| fire_times := []; plan_last_fire_at := Some latest_missed; plan_next_fire_at := next;
                      exhausted := negb (is_recurring_trigger t) |}
            | RunOnceForLatestMissed =>
                next ← next_after_missed t latest_missed;
                Ok {| fire_times := [latest_missed]; plan_last_fire_at := Some latest_missed; plan_next_fire_at := next;
                      exhausted := negb (is_recurring_trigger t) |}
            | RunAllMissed =>
                let fires := take (N.to_nat (run_all_limit policy)) missed in
                last_emitted ← ok_or (last fires) (Panic "missed fire list should not be empty");
                next ← next_after_missed t last_emitted;
                Ok {| fire_times := fires; plan_last_fire_at := Some last_emitted; plan_next_fire_at := next;
                      exhausted := negb (is_recurring_trigger t) |}
            end
        end
  end.

Definition due_plan (t : TaskTrigger) (now : Z) (armed : bool) : result failure TaskTriggerCatchUpPlan :=
  validate (spec t);;
  match next_fire_at t with
  | Some first_due_at =>
      if decide (first_due_at ≤ now) then
        if armed || bool_decide (first_due_at = now) then
          next ← next_after_fire t first_due_at;
          if match next with Some next => bool_decide (now < next) | None => true end then
            Ok {| fire_times := [first_due_at]; plan_last_fire_at := Some first_due_at; plan_next_fire_at := next;
                  exhausted := negb (is_recurring_trigger t) |}
          else catch_up_plan t now
        else catch_up_plan t now
      else catch_up_plan t now
  | None => catch_up_plan t now
  end.
End calculator.

(** ** Schedules *)
Definition on_grid (anchor step u : Z) : Prop := anchor ≤ u ∧ (u - anchor) `mod` step = 0.

Lemma on_grid_multiple anchor step u : 0 < step → on_grid anchor step u ↔ ∃ k, 0 ≤ k ∧ u = anchor + k * step.
Proof.
  intros Hs. unfold on_grid. split.
  - intros [Hle Hm]. apply Z.mod_divide in Hm as [k Hk]; [|lia]. exists k. split; [nia|lia].
  - intros (k & Hk & ->). split; [nia|]. replace (anchor + k * step - anchor) with (k * step) by lia. apply Z.mod_mul. lia.
Qed.
(** The grid from one of its points. *)
Lemma on_grid_shift anchor step b u :
  0 < step → on_grid anchor step b → b ≤ u → on_grid anchor step u ↔ on_grid b step u.
Proof.
  intros Hs Hb Hle. apply on_grid_multiple in Hb as (k & Hk & ->); [|done]. rewrite !on_grid_multiple by done. split.
  - intros (j & Hj & ->). exists (j - k). nia.
  - intros (j & Hj & ->). exists (j + k). split; [lia|nia].
Qed.
(** The point [k] steps on, and its neighbours. *)
Lemma grid_next anchor step now :
  0 < step → anchor ≤ now →
  next_in (on_grid anchor step) now (anchor + ((now - anchor) `div` step + 1) * step).
Proof.
  intros Hs Hle. pose proof (Z.div_mod (now - anchor) step ltac:(lia)) as Hdm.
  pose proof (Z.mod_pos_bound (now - anchor) step Hs). pose proof (Z.div_pos (now - anchor) step ltac:(lia) Hs).
  set (q := (now - anchor) `div` step) in *. split; [nia|]. split.
  - apply on_grid_multiple; [done|]. exists (q + 1). split; [lia|done].
  - intros u Hu (k & Hk & ->)%on_grid_multiple; [|done]. assert (q < k) by nia. nia.
Qed.
Lemma grid_last anchor step now :
  0 < step → anchor ≤ now → last_in (on_grid anchor step) anchor now (anchor + (now - anchor) `div` step * step).
Proof.
  intros Hs Hle. pose proof (Z.div_mod (now - anchor) step ltac:(lia)) as Hdm.
  pose proof (Z.mod_pos_bound (now - anchor) step Hs). pose proof (Z.div_pos (now - anchor) step ltac:(lia) Hs).
  set (q := (now - anchor) `div` step) in *. split; [nia|]. split.
  - apply on_grid_multiple; [done|]. by exists q.
  - intros u Hu (k & Hk & ->)%on_grid_multiple; [|done]. assert (q < k) by nia. nia.
Qed.

Lemma next_interval_fire_exact anchor step now :
  0 < step → 0 ≤ anchor → i64 now → now + step ≤ I64_MAX →
  ∃ t, next_interval_fire anchor step now = Ok t ∧ next_in (on_grid anchor step) now t.
Proof.
  intros Hs Ha Hi Hmax. unfold next_interval_fire. destruct (decide (now < anchor)) as [Hlt|Hge].
  - exists anchor. split; [done|]. split; [done|]. split; [|by intros u Hu [? _]; lia].
    apply on_grid_multiple; [done|]. exists 0. lia.
  - rewrite sat_sub_id by int64. rewrite div_i64_pos by lia. cbn [mbind result_bind].
    pose proof (grid_next anchor step now Hs ltac:(lia)) as Hnext.
    pose proof (Z.div_mod (now - anchor) step ltac:(lia)). pose proof (Z.mod_pos_bound (now - anchor) step Hs).
    pose proof (Z.div_pos (now - anchor) step ltac:(lia) Hs). set (q := (now - anchor) `div` step) in *.
    assert (q ≤ q * step) by nia. assert ((q + 1) * step ≤ now - anchor + step) by nia. assert (0 ≤ (q + 1) * step) by nia.
    unfold add_i64. rewrite decide_True by int64. cbn [mbind result_bind].
    assert (sat_mul (q + 1) step = (q + 1) * step) as -> by (apply clamp_i64_id; int64).
    rewrite sat_add_id by int64. eauto.
Qed.

(** The [count] oldest instants of a window, in order. *)
Definition first_fires (P : Z → Prop) (lo hi : Z) (count : nat) (l : list Z) : Prop :=
  StronglySorted Z.lt l ∧ (length l ≤ count)%nat ∧ (∀ u, u ∈ l → lo ≤ u ≤ hi ∧ P u) ∧
  ∀ u, P u → lo ≤ u ≤ hi → u ∈ l ∨ (length l = count ∧ ∀ v, v ∈ l → v < u).
(** What the loops over missed fires collect: each fire follows the one before. *)
Inductive collected (P : Z → Prop) (now : Z) : nat → Z → list Z → Prop :=
  | collected_stop room c : room = O ∨ now < c → collected P now room c []
  | collected_more room c n l :
      c ≤ now → next_in P c n → collected P now room n l → collected P now (S room) c (c :: l).

Lemma collected_first_fires P now room c l : P c → collected P now room c l → first_fires P c now room l.
Proof.
  intros Hc Hl. induction Hl as [room c Hstop|room c n l Hle (Hcn & Hn & Hgap) Hl IH].
  - split; [constructor|]. split; [simpl; lia|]. split; [by intros u ?%elem_of_nil|]. intros u Hu Hr. right.
    split; [destruct Hstop; [by subst|lia]|]. by intros v ?%elem_of_nil.
  - destruct (IH Hn) as (Hs & Hlen & Hin & Hcover). split; [|split; [simpl; lia|split]].
    + constructor; [done|]. apply Forall_forall. intros u Hu. specialize (Hin u Hu). lia.
    + intros u [->|Hu]%elem_of_cons; [split; [lia|done]|]. specialize (Hin u Hu). split; [lia|apply Hin].
    + intros u Hu Hr. rewrite elem_of_cons. destruct (decide (u = c)) as [|Hne]; [by left; left|].
      destruct (decide (u < n)); [by destruct (Hgap u); [lia|]|].
      destruct (Hcover u Hu ltac:(lia)) as [|[Hlen' Hlt]]; [by left; right|right]. split; [simpl; lia|].
      intros v [->|Hv]%elem_of_cons; [lia|by apply Hlt].
Qed.
Lemma collected_head P now room c l : (0 < room)%nat → c ≤ now → collected P now room c l → ∃ l', l = c :: l'.
Proof. intros Hr Hc Hl. destruct Hl; [lia|by eauto]. Qed.

Section schedules.
Context `{ChronoLaws}.

(** The instants at which a trigger fires that is due at [base]: the grid of
    its interval, the accepted minutes of its cron expression. *)
Definition occurs (s : TaskTriggerSpec) (base u : Z) : Prop :=
  match s with
  | Interval step anchor _ => on_grid (default base anchor) step u
  | Cron expr timezone _ =>
      ∃ c tz, parse_spec expr = Ok c ∧ tz_from_str timezone = Some tz ∧ fires c tz u
  | _ => u = base
  end.
(** A specification that validation accepts, and whose interval leaves the
    instants of the calendar within an [i64]. *)
Definition schedule_ok (s : TaskTriggerSpec) : Prop :=
  validate s = Ok () ∧ match s with Interval step _ _ => step ≤ I64_MAX - CHRONO_MAX | _ => True end.

Lemma interval_ok step anchor p :
  schedule_ok (Interval step anchor p) → 0 < step ∧ step ≤ I64_MAX - CHRONO_MAX ∧ (∀ a, anchor = Some a → 0 < a).
Proof.
  intros [Hv Hs]. unfold validate, MIN_TASK_INTERVAL_SECONDS in Hv. simplify_result.
  split; [lia|]. split; [done|]. intros a ->. simplify_result. lia.
Qed.
Lemma cron_ok expr timezone p :
  schedule_ok (Cron expr timezone p) → ∃ c tz, parse_spec expr = Ok c ∧ tz_from_str timezone = Some tz.
Proof.
  intros [Hv _]. unfold validate, validate_timezone in Hv. simplify_result. eauto.
Qed.

Lemma occurs_shift s base n u :
  schedule_ok s → occurs s base n → n ≤ u → occurs s base u ↔ (match s with Interval _ _ _ | Cron _ _ _ => occurs s n u | _ => u = base end).
Proof.
  intros Hok Hn Hle. destruct s as [| |step [a|] p| | | |]; simpl in *; try done.
  destruct (interval_ok _ _ _ Hok) as (Hs & _). by apply on_grid_shift.
Qed.

(** The calculator's next fire is the next occurrence. *)
Lemma next_after_fire_next t base fired :
  is_recurring_trigger t = true → schedule_ok (spec t) → occurs (spec t) base fired → 0 ≤ fired ≤ CHRONO_MAX →
  match next_after_fire t fired with
  | Ok next => ∃ u, next = Some u ∧ next_in (occurs (spec t) base) fired u
  | Err e => (∃ m, e = Bail m) ∧ trigger_kind t = KindCron ∧
      ∀ u, fired < u ≤ fired + CRON_SEARCH_SECONDS → ¬ occurs (spec t) base u
  end.
Proof.
  unfold is_recurring_trigger, trigger_kind, next_after_fire. intros Hr Hok Hf Hb.
  destruct (spec t) as [| |step anchor p|expr timezone p| | |]; try done; simpl in *.
  - destruct (interval_ok _ _ _ Hok) as (Hs & Hmax & Ha).
    destruct (next_interval_fire_exact (default fired anchor) step fired) as (u & -> & Hu); [done| |int64|lia|].
    { destruct anchor as [a|]; simpl; [specialize (Ha a eq_refl); lia|lia]. }
    exists u. split; [done|]. destruct anchor as [a|]; simpl in *; [done|].
    destruct Hu as (Hlt & Hu & Hgap). split; [done|]. split.
    + apply (on_grid_shift base step fired u); [done..|lia|done].
    + intros v Hv Hg. apply (Hgap v Hv). apply (on_grid_shift base step fired v); [done..|lia|done].
  - destruct (cron_ok _ _ _ Hok) as (c & tz & Hc & Htz).
    pose proof (next_cron_fire_exact expr timezone c tz fired Hc Htz ltac:(unfold CHRONO_MIN; lia) ltac:(unfold CHRONO_MAX in *; int64)) as Hx.
    assert (∀ u, (∃ c tz, parse_spec expr = Ok c ∧ tz_from_str timezone = Some tz ∧ fires c tz u) ↔ fires c tz u) as Heq.
    { intros u. split; [|by eauto]. intros (c' & tz' & Hc' & Htz' & Hu). congruence. }
    destruct (next_cron_fire expr timezone fired) as [u|e]; simpl.
    + exists u. split; [done|]. destruct Hx as [(Hlt & Hu & Hgap) _]. split; [done|]. split; [by apply Heq|].
      intros v Hv Hov%Heq. by apply (Hgap v).
    + destruct Hx as [He Hnone]. split; [done|]. split; [done|]. intros u Hu Hou%Heq. by apply (Hnone u).
Qed.

Lemma grid_step anchor step c : 0 < step → on_grid anchor step c → next_in (on_grid anchor step) c (c + step).
Proof.
  intros Hs (k & Hk & ->)%on_grid_multiple; [|done]. split; [lia|]. split.
  - apply on_grid_multiple; [done|]. exists (k + 1). lia.
  - intros u Hu (j & Hj & ->)%on_grid_multiple; [|done]. assert (k < j) by nia. nia.
Qed.
Lemma missed_intervals_collected anchor step now room c :
  0 < step → now ≤ CHRONO_MAX → step ≤ I64_MAX - CHRONO_MAX → 0 ≤ c → on_grid anchor step c →
  collected (on_grid anchor step) now room c (missed_intervals room c step now).
Proof.
  intros Hs Hnow Hmax. revert c; induction room as [|room IH]; intros c H0' Hc; cbn [missed_intervals].
  - apply collected_stop. by left.
  - destruct (decide (c ≤ now)) as [Hle|]; [|apply collected_stop; right; lia].
    pose proof (grid_step anchor step c Hs Hc) as Hn. rewrite sat_add_id by int64.
    apply (collected_more _ _ _ _ (c + step)); [done..|]. apply IH; [lia|]. apply Hn.
Qed.
Lemma missed_schedule_collected t base now room c l :
  is_recurring_trigger t = true → schedule_ok (spec t) → now ≤ CHRONO_MAX → 0 ≤ c → occurs (spec t) base c →
  missed_schedule room t c now = Ok l → collected (occurs (spec t) base) now room c l.
Proof.
  intros Hr Hok Hnow. revert c l; induction room as [|room IH]; intros c l H0' Hc; cbn [missed_schedule].
  - intros [= <-]. apply collected_stop. by left.
  - destruct (decide (c ≤ now)) as [Hle|]; [|intros [= <-]; apply collected_stop; right; lia].
    intros (next & Hnext & Hl)%bind_Ok. pose proof (next_after_fire_next t base c Hr Hok Hc ltac:(lia)) as Hx.
    rewrite Hnext in Hx. destruct Hx as (u & -> & Hu). apply bind_Ok in Hl as ([] & _ & Hl).
    destruct (missed_schedule room t u now) as [l'|] eqn:Hrest; [|done]. injection Hl as <-.
    apply (collected_more _ _ _ _ u); [done..|]. destruct Hu as (Hlt & Hu & _). apply IH; [lia|done..].
Qed.

Definition missed_spec (P : Z → Prop) (n now : Z) (policy : TaskTriggerCatchUpPolicy) (l : list Z) : Prop :=
  match mode policy with
  | RunAllMissed => collected P now (missed_scan_limit policy) n l
  | RunOnceForLatestMissed | SkipMissed => ∃ m, l = [m] ∧ last_in P n now m
  end.
Lemma missed_fire_times_spec t base n now l :
  is_recurring_trigger t = true → schedule_ok (spec t) → occurs (spec t) base n → 0 ≤ n ≤ now → now ≤ CHRONO_MAX →
  missed_fire_times t n now (missed_scan_limit (catch_up_policy_for_trigger t)) = Ok l →
  missed_spec (occurs (spec t) base) n now (catch_up_policy_for_trigger t) l.
Proof.
  intros Hr Hok Hn Hb Hnow. unfold missed_fire_times, missed_spec. rewrite Hr. cbn [negb].
  set (policy := catch_up_policy_for_trigger t).
  destruct (spec t) as [| |step anchor p|expr timezone p| | |] eqn:Hspec;
    try (unfold is_recurring_trigger, trigger_kind in Hr; rewrite Hspec in Hr; done).
  - destruct (interval_ok _ _ _ Hok) as (Hs & Hmax & Ha). rewrite bool_decide_false by lia. cbn [ensure negb mbind result_bind].
    assert (last_in (occurs (Interval step anchor p) base) n now (n + (now - n) `div` step * step)) as Hlast.
    { destruct (grid_last n step now) as (Hl & Hg & Hgap); [lia..|]. split; [done|]. simpl in *. split.
      - eapply on_grid_shift; [done|exact Hn|lia|done].
      - intros u Hu Hg'. apply (Hgap u Hu). apply (on_grid_shift (default base anchor) step n u); [done|done|lia|done]. }
    destruct (mode policy); [| |intros [= <-]; by apply missed_intervals_collected; try lia].
    all: rewrite sat_sub_id by (unfold CHRONO_MAX in *; int64); rewrite div_i64_pos by lia; cbn [mbind result_bind];
      destruct Hlast as (Hl & Hrest); unfold sat_mul; rewrite clamp_i64_id by (unfold CHRONO_MAX in *; int64);
      rewrite sat_add_id by (unfold CHRONO_MAX in *; int64); intros [= <-]; eexists; done.
  - destruct (mode policy) eqn:Hmode.
    3:{ intros Hl. rewrite <-Hspec in *. by apply missed_schedule_collected; [..|lia|done|exact Hl]. }
    all: intros (latest & Hlatest & [= <-])%bind_Ok; exists latest; split; [done|];
      destruct (cron_ok _ _ _ Hok) as (c & tz & Hc & Htz);
      pose proof (latest_cron_fire_exact expr timezone c tz n now Hc Htz ltac:(unfold CHRONO_MIN, CRON_SEARCH_SECONDS, CHRONO_MAX in *; lia)) as Hx;
      rewrite Hlatest in Hx; destruct Hx as [(Hl & Hf & Hgap) _];
      (split; [done|]); (split; [by exists c, tz|]); intros u Hu (c' & tz' & ? & ? & Hfu); apply (Hgap u Hu); congruence.
Qed.

(** ** Errors: a cron expression that stays silent for a year *)
(** No fire in the 366 days after an instant between the due fire and now, which is
    a fire itself or the start of the year that ends now. *)
Definition silent_year (P : Z → Prop) (n now : Z) : Prop :=
  ∃ since, n ≤ since ≤ now ∧ (P since ∨ since = now - CRON_SEARCH_SECONDS) ∧
    ∀ u, since < u ≤ since + CRON_SEARCH_SECONDS → ¬ P u.
Definition silent_cron (t : TaskTrigger) (base n now : Z) (e : failure) : Prop :=
  (∃ m, e = Bail m) ∧ trigger_kind t = KindCron ∧ silent_year (occurs (spec t) base) n now.

Lemma next_after_fire_err t base n fired now e :
  is_recurring_trigger t = true → schedule_ok (spec t) → occurs (spec t) base fired →
  0 ≤ n ≤ fired → fired ≤ now → now ≤ CHRONO_MAX → next_after_fire t fired = Err e → silent_cron t base n now e.
Proof.
  intros Hr Hok Hf Hn Hle Hnow He. pose proof (next_after_fire_next t base fired Hr Hok Hf ltac:(lia)) as Hx. rewrite He in Hx.
  destruct Hx as (? & ? & ?). split; [done|]. split; [done|]. exists fired. split; [lia|]. auto.
Qed.
Lemma missed_schedule_err t base n now room c e :
  is_recurring_trigger t = true → schedule_ok (spec t) → now ≤ CHRONO_MAX → 0 ≤ n ≤ c → occurs (spec t) base c →
  missed_schedule room t c now = Err e → silent_cron t base n now e.
Proof.
  intros Hr Hok Hnow. revert c; induction room as [|room IH]; intros c H0' Hc; cbn [missed_schedule]; [done|].
  destruct (decide (c ≤ now)) as [Hle|]; [|done]. destruct (next_after_fire t c) as [next|e'] eqn:Hnext; simpl.
  2:{ intros [= <-]. apply (next_after_fire_err t base n c now); (done || lia). }
  pose proof (next_after_fire_next t base c Hr Hok Hc ltac:(lia)) as Hx. rewrite Hnext in Hx.
  destruct Hx as (u & -> & Hlt & Hu & _). rewrite bool_decide_false by lia. simpl.
  destruct (missed_schedule room t u now) as [l'|e'] eqn:Hrest; simpl; [done|]. intros [= <-].
  apply (IH u); [lia|done..].
Qed.
Lemma missed_fire_times_err t base n now e :
  is_recurring_trigger t = true → schedule_ok (spec t) → occurs (spec t) base n → 0 ≤ n ≤ now → now ≤ CHRONO_MAX →
  missed_fire_times t n now (missed_scan_limit (catch_up_policy_for_trigger t)) = Err e → silent_cron t base n now e.
Proof.
  intros Hr Hok Hn Hb Hnow. unfold missed_fire_times. rewrite Hr. cbn [negb]. set (policy := catch_up_policy_for_trigger t).
  destruct (spec t) as [| |step anchor p|expr timezone p| | |] eqn:Hspec;
    try (unfold is_recurring_trigger, trigger_kind in Hr; rewrite Hspec in Hr; done).
  - destruct (interval_ok _ _ _ Hok) as (Hs & Hmax & Ha). rewrite bool_decide_false by lia. cbn [ensure negb mbind result_bind].
    destruct (mode policy); [| |done]; rewrite sat_sub_id by (unfold CHRONO_MAX in *; int64); by rewrite div_i64_pos by lia.
  - rewrite <-Hspec in *. destruct (mode policy).
    3:{ intros He. by apply (missed_schedule_err t base n now _ n e Hr Hok Hnow ltac:(lia) Hn He). }
    all: rewrite Hspec in *; destruct (cron_ok _ _ _ Hok) as (c & tz & Hc & Htz);
      pose proof (latest_cron_fire_exact expr timezone c tz n now Hc Htz ltac:(unfold CHRONO_MIN, CRON_SEARCH_SECONDS, CHRONO_MAX in *; lia)) as Hx;
      destruct (latest_cron_fire expr timezone n now) as [l|e']; [done|]; intros [= <-]; destruct Hx as [He Hnone];
      (split; [done|]); (split; [unfold trigger_kind; by rewrite Hspec|]); rewrite Hspec; exists (now - CRON_SEARCH_SECONDS);
      (assert (n < now - CRON_SEARCH_SECONDS) as Hold by (apply Z.nle_gt; intros Hle; apply (Hnone n); [lia|];
        destruct Hn as (c'' & tz'' & ? & ? & ?); congruence));
      (split; [unfold CRON_SEARCH_SECONDS in *; lia|]); (split; [by right|]);
      intros u Hu (c' & tz' & ? & ? & Hfu); apply (Hnone u); [lia|congruence].
Qed.

(** ** Plans *)
Definition on_time (P : Z → Prop) (n now : Z) (p : TaskTriggerCatchUpPlan) : Prop :=
  ∃ x, next_in P n x ∧ now < x ∧
    p = {| fire_times := [n]; plan_last_fire_at := Some n; plan_next_fire_at := Some x; exhausted := false |}.
Definition caught_up (P : Z → Prop) (n now : Z) (policy : TaskTriggerCatchUpPolicy) (p : TaskTriggerCatchUpPlan) : Prop :=
  exhausted p = false ∧ ∃ l x, plan_last_fire_at p = Some l ∧ plan_next_fire_at p = Some x ∧
  match mode policy with
  | SkipMissed => fire_times p = [] ∧ last_in P n now l ∧ next_in P now x
  | RunOnceForLatestMissed => fire_times p = [l] ∧ last_in P n now l ∧ next_in P now x
  | RunAllMissed =>
      first_fires P n now (N.to_nat (run_all_limit policy)) (fire_times p) ∧ last (fire_times p) = Some l ∧ next_in P l x
  end.

Lemma last_collected P now room c l : P c → c ≤ now → (0 < room)%nat → collected P now room c l →
  ∃ m, last l = Some m ∧ c ≤ m ≤ now ∧ P m ∧ (length l ≤ room)%nat.
Proof.
  intros Hc Hle Hroom Hl. destruct (collected_head _ _ _ _ _ Hroom Hle Hl) as [l' ->].
  destruct (collected_first_fires _ _ _ _ _ Hc Hl) as (_ & Hlen & Hin & _).
  destruct (last (c :: l')) as [m|] eqn:Hlast; [|by apply last_None in Hlast].
  exists m. split; [done|]. apply last_Some in Hlast as [l0 Hl0]. rewrite Hl0 in Hin, Hlen.
  destruct (Hin m) as [Hm HPm]; [apply elem_of_app; right; apply list_elem_of_here|]. split; [lia|]. rewrite Hl0. done.
Qed.
Lemma run_all_limit_pos p : (0 < N.to_nat (run_all_limit p))%nat.
Proof. unfold run_all_limit. lia. Qed.

Lemma catch_up_plan_spec t base n now :
  is_recurring_trigger t = true → schedule_ok (spec t) → next_fire_at t = Some n → occurs (spec t) base n →
  0 ≤ n ≤ now → now ≤ CHRONO_MAX →
  match catch_up_plan t now with
  | Ok p => caught_up (occurs (spec t) base) n now (catch_up_policy_for_trigger t) p
  | Err e => silent_cron t base n now e
  end.
Proof.
  intros Hr Hok Hnext Hn Hb Hnow. unfold catch_up_plan. rewrite Hnext, decide_False by lia. set (P := occurs (spec t) base).
  set (policy := catch_up_policy_for_trigger t).
  destruct (missed_fire_times t n now (missed_scan_limit policy)) as [missed|e] eqn:Hmissed; simpl.
  2:{ by eapply missed_fire_times_err. }
  pose proof (missed_fire_times_spec t base n now missed Hr Hok Hn Hb Hnow Hmissed) as Hspec.
  unfold missed_spec, missed_scan_limit in Hspec. fold policy P in Hspec. unfold caught_up, next_after_missed. rewrite Hr.
  destruct (mode policy) eqn:Hmode.
  1,2: destruct Hspec as (m & -> & Hlast); cbn [last]; pose proof Hlast as (Hm & HPm & _);
    pose proof (next_after_fire_next t base m Hr Hok HPm ltac:(lia)) as Hx;
    destruct (next_after_fire t m) as [next|e] eqn:Hna; simpl; [|apply (next_after_fire_err t base n m now); (done || lia)];
    destruct Hx as (u & -> & Hu); (split; [done|]); exists m, u; split_and!; [done..|];
    by apply (next_in_last P n now m u).
  pose proof (last_collected P now _ n missed Hn ltac:(lia) (run_all_limit_pos policy) Hspec) as (m & Hlast & Hm & HPm & Hlen).
  rewrite Hlast, take_ge by done. rewrite Hlast. simpl.
  pose proof (next_after_fire_next t base m Hr Hok HPm ltac:(lia)) as Hx.
  destruct (next_after_fire t m) as [next|e] eqn:Hna; simpl; [|apply (next_after_fire_err t base n m now); (done || lia)].
  destruct Hx as (u & -> & Hu). split; [done|]. exists m, u. split_and!; [done..| |done|done]. by apply collected_first_fires.
Qed.

(** C22: the fires an observation of a recurring trigger is due, for a schedule
    that validation accepts, a cursor at one of its fires that is due, and times
    between 0 and the last of the calendar. When the trigger was armed (or is due
    this second) and no further fire has passed, exactly the due fire, whatever the
    policy. Otherwise the catch-up policy decides: nothing, only the latest of the
    passed fires, or the oldest of them in order up to the limit; and the cursor
    moves to the first fire not consumed. An error is given only for a cron
    expression without any fire in the 366 days after a fire that is due, or in the
    366 days that end now. *)
Theorem due_plan_exact t base n now armed :
  is_recurring_trigger t = true → schedule_ok (spec t) → next_fire_at t = Some n → occurs (spec t) base n →
  0 ≤ n ≤ now → now ≤ CHRONO_MAX →
  match due_plan t now armed with
  | Ok p =>
      ((armed = true ∨ n = now) ∧ (∀ u, n < u ≤ now → ¬ occurs (spec t) base u) ∧
       on_time (occurs (spec t) base) n now p) ∨
      (¬ ((armed = true ∨ n = now) ∧ (∀ u, n < u ≤ now → ¬ occurs (spec t) base u)) ∧
       caught_up (occurs (spec t) base) n now (catch_up_policy_for_trigger t) p)
  | Err e => silent_cron t base n now e
  end.
Proof.
  intros Hr Hok Hnext Hn Hb Hnow. pose proof (catch_up_plan_spec t base n now Hr Hok Hnext Hn Hb Hnow) as Hcatch.
  unfold due_plan. rewrite (proj1 Hok), Hnext. cbn [mbind result_bind]. rewrite decide_True by lia.
  destruct (armed || bool_decide (n = now)) eqn:Harmed.
  - assert (armed = true ∨ n = now) as Hcold.
    { apply orb_true_iff in Harmed as [?|?%bool_decide_eq_true]; [by left|by right]. }
    pose proof (next_after_fire_next t base n Hr Hok Hn ltac:(lia)) as Hx.
    destruct (next_after_fire t n) as [next|e] eqn:Hna; simpl; [|apply (next_after_fire_err t base n n now); (done || lia)].
    destruct Hx as (u & -> & Hu). pose proof Hu as (Hlt & HPu & Hgap).
    destruct (bool_decide_reflect (now < u)) as [Hlate|Hlate].
    + left. split; [done|]. split; [intros v Hv; apply Hgap; lia|]. exists u. split; [done|]. split; [done|]. by rewrite Hr.
    + destruct (catch_up_plan t now); [|done]. right. split; [|done]. intros [_ Hno]. apply (Hno u); [lia|done].
  - apply orb_false_iff in Harmed as [-> Hne%bool_decide_eq_false].
    destruct (catch_up_plan t now); [|done]. right. split; [|done]. by intros [[?|?] _].
Qed.
End schedules.

(** ** The theorem at a concrete input *)
Module SampleTrigger.
Import SampleCalendar.
#[local] Existing Instance sample_chrono.
#[local] Existing Instance sample_chrono_laws.

(** Weekday mornings at 7 and 9, due on Friday 2026-10-02 at 9. *)
Definition weekday_trigger (mode : TaskTriggerCatchUpMode) : TaskTrigger :=
  {| webhook_secret_ref := None; trigger_id := "trigger"; task_id := "task"; trigger_status := Active;
     spec := Cron (lit "0 7-9/2 * * 1-5") (lit "UTC") (Some {| mode := mode; max_count := None |});
     next_fire_at := Some 1790931600; last_fire_at := None; created_at := 1790900000; updated_at := 1790900000 |}.

(** A minute late while armed and while not, and on Monday at noon under the other policies. *)
Example sample_plans :
  (λ p : TaskTriggerCatchUpMode * Z * bool, fire_times <$> due_plan (weekday_trigger p.1.1) p.1.2 p.2) <$>
    [(SkipMissed, 1790931660, true); (SkipMissed, 1790931660, false); (RunOnceForLatestMissed, 1791201600, true);
     (RunAllMissed, 1791201600, true)] =
  [Ok [1790931600]; Ok []; Ok [1791190800]; Ok [1790931600; 1791183600; 1791190800]].
Proof. vm_compute. reflexivity. Qed.

Lemma due_plan_exact_witness :
  ∃ p, due_plan (weekday_trigger RunAllMissed) 1791201600 false = Ok p ∧
    caught_up (occurs (spec (weekday_trigger RunAllMissed)) 1790931600) 1790931600 1791201600
      (catch_up_policy_for_trigger (weekday_trigger RunAllMissed)) p.
Proof.
  pose proof (due_plan_exact (weekday_trigger RunAllMissed) 1790931600 1790931600 1791201600 false eq_refl
    ltac:(split; [vm_compute; reflexivity|done]) eq_refl
    ltac:(exists (spec_of (lit "0 7-9/2 * * 1-5")), utc; split; [vm_compute; reflexivity|split; [reflexivity|exact sample_first_fires]])
    ltac:(lia) ltac:(unfold CHRONO_MAX; lia)) as Hplan.
  destruct (due_plan (weekday_trigger RunAllMissed) 1791201600 false) as [p|e] eqn:He; [|vm_compute in He; discriminate He].
  exists p. split; [reflexivity|]. destruct Hplan as [([Harmed|Hnow] & _)|[_ Hplan]]; [discriminate Harmed|discriminate Hnow|exact Hplan].
Defined.
End SampleTrigger.
