(* ===== verification/TaskScheduler.v ===== *)
(** * The task scheduler

    Models how src/crates/tasks/src/scheduler.rs turns a due trigger into Runs
    and dispatches them, together with the transactions of
    src/crates/crud/src/lib.rs that decide: [append_due_trigger_task_events]
    ([commit]), [claim_task_run_for_dispatch] ([claim]), the start of a Run
    ([append_run_started]), the guarded changes of its status in
    repositories/task_run.rs, the resumption of a blocked Run
    ([resume_blocked_run]), and what tasks/src/service.rs and
    [reconcile_due_trigger] do to the trigger. [Db] is what they read of one
    Task: its status and limits, the trigger row and the Runs in the order of
    their numbers. A scheduler prepares a [WriteSet] from a snapshot outside the
    transaction; all these writes interleave in any order ([step]), Runs made by
    anyone else and changes of the Task's policy and status among them. Left out
    of the rows: the input, result and error of a Run, its inbox number and its
    [task_id] (the rows are those of one Task), agent specs, occurrence contracts with their
    generation numbers, and the execution rows reserved with a Run.
    [generate_id] is the argument [ids]. *)
From S2P Require Import Prelude Ordered TextSplit Decimal Int64 CronSchedule TaskTrigger.
Local Open Scope Z_scope.

Definition MAX_ATOMIC_TASK_EVENT_BATCH_SIZE : nat := 64.

(** ** Rows *)
Inductive TaskStatus :=
  | Draft | Scheduled | TaskQueued | TaskRunning | TaskWaiting | TaskWaitingReview
  | Completed | TaskFailed | TaskBlocked | TaskCancelled.
Inductive TaskRunStatus :=
  | Queued | Starting | Running | Waiting | WaitingReview
  | Succeeded | Failed | Blocked | RunCancelled | TimedOut.
#[export] Instance task_status_eq_dec : EqDecision TaskStatus. Proof. solve_decision. Defined.
#[export] Instance run_status_eq_dec : EqDecision TaskRunStatus. Proof. solve_decision. Defined.
Inductive TaskExecutorKind := ExecAgent | ExecTool | ExecWorkflow | ExecWebhook | ExecSystem.
#[export] Instance executor_kind_eq_dec : EqDecision TaskExecutorKind. Proof. solve_decision. Defined.
Definition is_terminal_task (s : TaskStatus) : bool :=
  match s with Completed | TaskFailed | TaskBlocked | TaskCancelled => true | _ => false end.
Definition is_terminal_run (s : TaskRunStatus) : bool :=
  match s with Succeeded | Failed | Blocked | RunCancelled | TimedOut => true | _ => false end.

Record TaskRun := {
  run_id : string;
  run_trigger_id : option string;
  parent_run_id : option string;
  run_group_id : string;
  attempt_number : N;
  retry_of_run_id : option string;
  ready_at : option Z;
  run_number : Z;
  run_status : TaskRunStatus;
  run_executor_kind : TaskExecutorKind;
  started_at : option Z;
  completed_at : option Z;
  heartbeat_at : option Z;
  locked_by : option string;
  lock_expires_at : option Z;
  run_created_at : Z;
  run_updated_at : Z;
}.
#[export] Instance run_fields : Fields TaskRun := λ r,
  {| run_id := run_id r; run_trigger_id := run_trigger_id r; parent_run_id := parent_run_id r;
     run_group_id := run_group_id r; attempt_number := attempt_number r; retry_of_run_id := retry_of_run_id r;
     ready_at := ready_at r; run_number := run_number r; run_status := run_status r;
     run_executor_kind := run_executor_kind r; started_at := started_at r; completed_at := completed_at r;
     heartbeat_at := heartbeat_at r; locked_by := locked_by r; lock_expires_at := lock_expires_at r;
     run_created_at := run_created_at r; run_updated_at := run_updated_at r |}.

Record Db := {
  db_task_status : TaskStatus;
  db_finish_requested : bool;
  db_max_parallel_runs : option N;
  db_executor_kind : TaskExecutorKind;
  db_trigger : TaskTrigger;
  db_runs : list TaskRun;
}.
#[export] Instance db_fields : Fields Db := λ d,
  {| db_task_status := db_task_status d; db_finish_requested := db_finish_requested d;
     db_max_parallel_runs := db_max_parallel_runs d; db_executor_kind := db_executor_kind d; db_trigger := db_trigger d; db_runs := db_runs d |}.

(** ** Capacity *)
Definition max_parallel_runs (d : Db) : nat := N.to_nat (N.max (default 1%N (db_max_parallel_runs d)) 1).
Definition is_ready (now : Z) (r : TaskRun) : bool :=
  match ready_at r with Some ready => bool_decide (ready ≤ now) | None => true end.
Definition occupies (r : TaskRun) : bool := negb (is_terminal_run (run_status r)) && negb (bool_decide (run_status r = Queued)).
Definition waits_before (now number : Z) (r : TaskRun) : bool :=
  bool_decide (run_status r = Queued) && bool_decide (run_number r < number) && is_ready now r.
Definition count (f : TaskRun → bool) (l : list TaskRun) : nat := length (filter (λ r, f r = true) l).

(** The scheduler's own check, on the response it has read. *)
Definition has_capacity_for_queued_run (d : Db) (now : Z) (queued_run_id : string) : bool :=
  match head (filter (λ r, run_id r = queued_run_id) (db_runs d)) with
  | None => false
  | Some candidate =>
      bool_decide (count occupies (db_runs d) + count (waits_before now (run_number candidate)) (db_runs d) < max_parallel_runs d)%nat
  end.

(** The check of the claiming transaction, by the columns of the rows. *)
Definition status_in (l : list TaskRunStatus) (r : TaskRun) : bool := bool_decide (run_status r ∈ l).
Definition has_dispatch_capacity (d : Db) (r : TaskRun) (now : Z) : bool :=
  let occupied := count (status_in [Starting; Running; Waiting; WaitingReview]) (db_runs d) in
  let earlier_ready := count (waits_before now (run_number r)) (db_runs d) in
  bool_decide (occupied + earlier_ready < max_parallel_runs d)%nat.

(** The row [claim_run_for_dispatch] writes. *)
Definition start_run (id : string) (claimed_at : Z) (r : TaskRun) : TaskRun :=
  if decide (run_id r = id)
  then r <| run_status := Starting |> <| heartbeat_at := Some claimed_at |> <| run_updated_at := claimed_at |>
  else r.
(** [claim_task_run_for_dispatch_once]: the Run's new row, or nothing. *)
Definition claim (d : Db) (id : string) (claimed_at : Z) : option Db :=
  current ← head (filter (λ r, run_id r = id) (db_runs d));
  if db_finish_requested d then None
  else if is_terminal_task (db_task_status d) then None
  else if negb (has_dispatch_capacity d current claimed_at) then None
  else if decide (run_status current = Queued) then
    Some (d <| db_runs := start_run id claimed_at <$> db_runs d |>)
  else None.

(** ** Preparing the Runs of a due trigger *)
Inductive TaskRescheduleReason :=
  | UnknownReason | UserRequested | TriggerFired | MissedFireSkipped | RunTerminalStatusRefresh | TaskWasCancelled.

(** What one pass wants to write: the Runs, the next state of the trigger, and
    the fires the Runs stand for. *)
Record WriteSet := {
  ws_snapshot : TaskTrigger;
  ws_now : Z;
  ws_runs : list TaskRun;
  ws_trigger : TaskTrigger;
  ws_reason : TaskRescheduleReason;
  ws_fires : list Z;
}.
Inductive Decision :=
  | Skip
  | Reconcile
  | Write (ws : WriteSet).
(** A failed schedule calculation blocks the Task; other failures are retried. *)
Inductive SchedulerError :=
  | TriggerScheduleError (e : failure)
  | OtherError (e : failure).

Definition schedule_error {A} (r : result failure A) : result SchedulerError A :=
  match r with Ok a => Ok a | Err e => Err (TriggerScheduleError e) end.
Definition next_number (n : Z) : result SchedulerError Z :=
  if decide (i64 (n + 1)) then Ok (n + 1) else Err (OtherError (Bail "Task run number overflow")).
Definition first_number (d : Db) : result SchedulerError Z :=
  match last (db_runs d) with Some r => next_number (run_number r) | None => Ok 1 end.

Section scheduler.
Context `{Chrono}.

Definition new_run (ids : nat → string) (i : nat) (kind : TaskExecutorKind) (t : TaskTrigger) (parent : option string) (number now : Z) : TaskRun :=
  {| run_id := ids (2 * i)%nat; run_trigger_id := Some (trigger_id t); parent_run_id := parent;
     run_group_id := ids (2 * i + 1)%nat; attempt_number := 1; retry_of_run_id := None; ready_at := Some now;
     run_number := number; run_status := Queued; run_executor_kind := kind; started_at := None; completed_at := None;
     heartbeat_at := None; locked_by := None; lock_expires_at := None; run_created_at := now; run_updated_at := now |}.
(** The loop over the fire times. *)
Fixpoint create_runs (ids : nat → string) (i : nat) (kind : TaskExecutorKind) (t : TaskTrigger) (parent : option string) (number now : Z)
    (fires : list Z) : result SchedulerError (list TaskRun) :=
  match fires with
  | [] => Ok []
  | _ :: fires =>
      let run := new_run ids i kind t parent number now in
      number' ← next_number number;
      runs ← create_runs ids (S i) kind t (Some (run_id run)) number' now fires;
      Ok (run :: runs)
  end.

(** A queued and ready Run of the trigger already stands for the occurrence. *)
Definition already_queued (d : Db) (t : TaskTrigger) (now : Z) : bool :=
  is_recurring_trigger t &&
  existsb (λ r, bool_decide (run_trigger_id r = Some (trigger_id t)) && bool_decide (run_status r = Queued) && is_ready now r) (db_runs d).

Definition enqueue_saturated_occurrence (ids : nat → string) (d : Db) (t : TaskTrigger) (plan : TaskTriggerCatchUpPlan) (now : Z) :
    result SchedulerError WriteSet :=
  if already_queued d t now then
    Ok {| ws_snapshot := t; ws_now := now; ws_runs := []; ws_reason := MissedFireSkipped; ws_fires := [];
          ws_trigger := t <| last_fire_at := plan_last_fire_at plan |> <| updated_at := now |>
                          <| next_fire_at := plan_next_fire_at plan |>
                          <| trigger_status := if exhausted plan then Exhausted else Active |> |}
  else
    number ← first_number d;
    fire_at ← ok_or (head (fire_times plan)) (OtherError (Panic "index out of bounds"));
    let truncated := bool_decide (1 < length (fire_times plan))%nat in
    let t' := t <| last_fire_at := if truncated then Some fire_at else plan_last_fire_at plan |> <| updated_at := now |> in
    t' ← (if truncated then
            next ← schedule_error (next_after_fire t fire_at);
            Ok (t' <| next_fire_at := next |> <| trigger_status := Active |>)
          else if negb (exhausted plan) then
            Ok (t' <| next_fire_at := plan_next_fire_at plan |> <| trigger_status := Active |>)
          else Ok (t' <| next_fire_at := None |> <| trigger_status := Exhausted |>));
    Ok {| ws_snapshot := t; ws_now := now; ws_trigger := t'; ws_reason := TriggerFired; ws_fires := [fire_at];
          ws_runs := [new_run ids 0 (db_executor_kind d) t (run_id <$> last (db_runs d)) number now] |}.

Definition consume_plan (ids : nat → string) (d : Db) (t : TaskTrigger) (plan : TaskTriggerCatchUpPlan) (slots : nat) (now : Z) :
    result SchedulerError WriteSet :=
  let fires := take slots (fire_times plan) in
  let t' := t <| last_fire_at := match last fires with Some f => Some f | None => plan_last_fire_at plan end |> <| updated_at := now |> in
  t' ← (if decide (length fires < length (fire_times plan))%nat then
          next ← match last fires with
                 | Some fire_at => schedule_error (next_after_fire t fire_at)
                 | None => Ok (plan_next_fire_at plan)
                 end;
          Ok (t' <| next_fire_at := next |> <| trigger_status := Active |>)
        else if exhausted plan then Ok (t' <| next_fire_at := None |> <| trigger_status := Exhausted |>)
        else if is_recurring_trigger t then
          Ok (t' <| next_fire_at := plan_next_fire_at plan |> <| trigger_status := Active |>)
        else Ok (t' <| next_fire_at := None |> <| trigger_status := Exhausted |>));
  number ← first_number d;
  runs ← create_runs ids 0 (db_executor_kind d) t (run_id <$> last (db_runs d)) number now fires;
  Ok {| ws_snapshot := t; ws_now := now; ws_trigger := t'; ws_runs := runs; ws_fires := fires;
        ws_reason := if decide (runs = []) then MissedFireSkipped else TriggerFired |}.

(** [process_trigger] up to the write; [contract] says that the Task's actor
    contract can be loaded. *)
Definition process_trigger (ids : nat → string) (task : option Db) (contract : bool) (t : TaskTrigger) (now : Z) (armed : bool) :
    result SchedulerError Decision :=
  if negb (bool_decide (trigger_status t = Active)) then Ok Skip
  else if negb (bool_decide (is_Some (next_fire_at t))) then Ok Skip
  else match task with
  | None => Ok Reconcile
  | Some d =>
      if is_terminal_task (db_task_status d) then Ok Reconcile
      else if negb (is_recurring_trigger t) && bool_decide (is_Some (last_fire_at t)) then Ok Skip
      else if negb contract then Ok Skip
      else
        let active := count (λ r, negb (is_terminal_run (run_status r))) (db_runs d) in
        let max := max_parallel_runs d in
        plan ← schedule_error (due_plan t now armed);
        if bool_decide (max ≤ active)%nat && negb (bool_decide (fire_times plan = [])) then
          Write <$> enqueue_saturated_occurrence ids d t plan now
        else Write <$> consume_plan ids d t plan (Nat.max (max - active) 1) now
  end.
End scheduler.

(** ** Committing *)
(** [serde_json::to_string(&trigger.spec)], which the transaction compares. *)
Class SpecJson := spec_json : TaskTriggerSpec → text.
(** It tells the specification of a recurring trigger from every other. *)
Class SpecJsonLaws `{SpecJson} : Prop :=
  spec_json_recurring : ∀ s s', spec_kind s = KindInterval ∨ spec_kind s = KindCron → spec_json s = spec_json s' → s = s'.

Definition events_of (ws : WriteSet) : nat := (2 * length (ws_runs ws) + 1)%nat.
(** [next_run_number]: one more than the largest number of the Task's Runs. *)
Definition max_run_number (l : list TaskRun) : Z :=
  match l with [] => 0 | r :: l => foldr (λ r m, Z.max (run_number r) m) (run_number r) l end.
Definition next_run_number (l : list TaskRun) : result failure Z :=
  if decide (i64 (max_run_number l + 1)) then Ok (max_run_number l + 1) else Err (Bail "task run number is exhausted").

Section commit.
Context `{SpecJson}.

(** The columns of the current trigger row that have to be those of the snapshot. *)
Definition same_trigger (row expected : TaskTrigger) : bool :=
  bool_decide (task_id row = task_id expected) && bool_decide (spec_json (spec row) = spec_json (spec expected)) &&
  bool_decide (last_fire_at row = last_fire_at expected) && bool_decide (created_at row = created_at expected) &&
  bool_decide (updated_at row = updated_at expected).

(** [append_due_trigger_task_events]: the new rows, or nothing when the plan is
    stale. A failure leaves the rows unchanged. *)
Definition commit (d : Db) (ws : WriteSet) : result failure (option Db) :=
  let snapshot := ws_snapshot ws in
  if negb (bool_decide (trigger_status snapshot = Active)) then Ok None
  else match next_fire_at snapshot with
  | None => Ok None
  | Some expected_next_fire_at =>
      ensure (negb (bool_decide (MAX_ATOMIC_TASK_EVENT_BATCH_SIZE < events_of ws)%nat)) (Bail "atomic Task event batch exceeds 64 events");;
      let row := db_trigger d in
      if negb (bool_decide (trigger_id row = trigger_id snapshot)) then Ok None
      else if negb (bool_decide (trigger_status row = Active)) || negb (bool_decide (next_fire_at row = Some expected_next_fire_at))
              || bool_decide (ws_now ws < expected_next_fire_at) || negb (same_trigger row snapshot) then Ok None
      else
        fresh ← match head (ws_runs ws) with
                | Some r => n ← next_run_number (db_runs d); Ok (bool_decide (n = run_number r))
                | None => Ok true
                end;
        if negb fresh then Ok None
        else if db_finish_requested d then Ok None
        else Ok (Some (d <| db_trigger := ws_trigger ws |> <| db_runs := db_runs d ++ ws_runs ws |>))
  end.
End commit.

(** ** Other writes of the rows *)

(** What the projection of an event does to a Run ([task_run.rs]). The reason of a
    violation is left out. *)
Inductive ProjectionWriteOutcome :=
  | Applied | NoopAlreadyStarted | NoopAlreadyTerminal | NoopDuplicateTerminal | InvariantViolation.
Definition find_run (d : Db) (id : string) : option TaskRun := head (filter (λ r, run_id r = id) (db_runs d)).
Definition set_run (id : string) (f : TaskRun → TaskRun) (d : Db) : Db :=
  d <| db_runs := (λ r, if decide (run_id r = id) then f r else r) <$> db_runs d |>.
Definition terminal_run_transition_guard (current next : TaskRunStatus) : option ProjectionWriteOutcome :=
  if negb (is_terminal_run current) then None
  else if decide (current = next) then Some NoopDuplicateTerminal
  else if negb (is_terminal_run next) then Some NoopAlreadyTerminal
  else Some InvariantViolation.
Definition guarded_update (d : Db) (id : string) (status : TaskRunStatus) (f : TaskRun → TaskRun) : Db * ProjectionWriteOutcome :=
  match find_run d id with
  | None => (d, InvariantViolation)
  | Some r =>
      match terminal_run_transition_guard (run_status r) status with
      | Some outcome => (d, outcome)
      | None => (set_run id (λ r, (f r) <| run_status := status |>) d, Applied)
      end
  end.
Definition update_run_status (d : Db) (id : string) (status : TaskRunStatus) (at_ : Z) : Db * ProjectionWriteOutcome :=
  guarded_update d id status (λ r, r <| run_updated_at := at_ |>).
(** Also [update_run_error_json]: the result and the error are left out of the rows. *)
Definition update_run_result (d : Db) (id : string) (status : TaskRunStatus) (at_ : Z) : Db * ProjectionWriteOutcome :=
  guarded_update d id status (λ r, r <| completed_at := Some at_ |> <| run_updated_at := at_ |>).
Definition update_run_started (d : Db) (id : string) (at_ : Z) : Db * ProjectionWriteOutcome :=
  match find_run d id with
  | Some r =>
      if decide (run_status r = Running) then (d, NoopAlreadyStarted)
      else guarded_update d id Running
             (λ r, r <| started_at := Some at_ |> <| heartbeat_at := Some at_ |> <| run_updated_at := at_ |>)
  | None => (d, InvariantViolation)
  end.
(** [append_task_run_started_once_inner] up to the status of the Task, which
    [step_task] may change at any time. *)
Definition append_run_started (d : Db) (id : string) (at_ : Z) : option Db :=
  r ← find_run d id;
  if bool_decide (run_status r = Running) || is_terminal_run (run_status r) then None
  else if negb (bool_decide (run_status r = Queued) || bool_decide (run_status r = Starting)) then None
  else if bool_decide (run_status r = Queued) && db_finish_requested d then None
  else Some (fst (update_run_started d id at_)).
(** Resuming a blocked Run, which no other Run may have replaced. *)
Definition find_conflicting_successor_run (d : Db) (r : TaskRun) : option TaskRun :=
  head (filter (λ o, run_id o ≠ run_id r ∧ (run_number r < run_number o ∨ is_terminal_run (run_status o) = false)) (db_runs d)).
Definition resume_blocked_run (d : Db) (id : string) (now : Z) : option Db :=
  r ← find_run d id;
  match find_conflicting_successor_run d r with
  | Some _ => None
  | None =>
      if decide (run_status r = Blocked) then
        Some (set_run id (λ r, r <| run_status := Running |> <| completed_at := None |> <| heartbeat_at := Some now |>
                                 <| locked_by := None |> <| lock_expires_at := None |> <| run_updated_at := now |>) d)
      else None
  end.

(** What users do to a trigger ([service.rs]); they write the whole row they read. *)
Definition is_webhook_spec (s : TaskTriggerSpec) : bool :=
  match s with External source None None => bool_decide (source = "webhook"%string) | _ => false end.
Section edits.
Context `{Chrono}.
(** [reschedule_task]; [update_task] writes the same row when it changes the trigger. *)
Definition reschedule_trigger (t : TaskTrigger) (s : TaskTriggerSpec) (now : Z) : result failure TaskTrigger :=
  validate s;;
  ensure (negb (is_webhook_spec s) || is_webhook_spec (spec t) && bool_decide (is_Some (webhook_secret_ref t)))
    (Bail "a webhook endpoint must be provisioned by task_create");;
  next ← initial_next_fire_at s now;
  Ok {| webhook_secret_ref := if is_webhook_spec s then webhook_secret_ref t else None; trigger_id := trigger_id t;
        task_id := task_id t; trigger_status := Active; spec := s; next_fire_at := next; last_fire_at := None;
        created_at := created_at t; updated_at := now |}.
Definition pause_trigger (t : TaskTrigger) (now : Z) : TaskTrigger :=
  if decide (trigger_status t = Active) then t <| trigger_status := Paused |> <| updated_at := now |> else t.
Definition resume_next_fire_at (t : TaskTrigger) (now : Z) : result failure (option Z) :=
  match spec t with
  | ScheduledAt scheduled_at _ _ =>
      ensure (negb (bool_decide (scheduled_at ≤ now))) (Bail "scheduled task missed its one-shot fire time; reschedule before resume");;
      Ok (Some scheduled_at)
  | Interval _ _ _ | Cron _ _ _ => initial_next_fire_at (spec t) now
  | Immediate => Ok (Some now)
  | Manual _ | External _ _ _ | Dependency _ => Ok None
  end.
Definition resume_trigger (t : TaskTrigger) (now : Z) : result failure TaskTrigger :=
  if decide (trigger_status t = Paused) then
    next ← resume_next_fire_at t now;
    Ok (t <| trigger_status := Active |> <| next_fire_at := next |> <| updated_at := now |>)
  else Ok t.
End edits.
(** Blocking, cancelling and finishing a Task, and [reconcile_due_trigger]. *)
Definition stop_trigger (t : TaskTrigger) (status : TaskTriggerStatus) (now : Z) : TaskTrigger :=
  t <| trigger_status := status |> <| next_fire_at := None |> <| updated_at := now |>.

(** ** The interleaved system *)

(** A pass of the scheduler: what it read of the Task and what it wants to write. *)
Record Pass := { pass_db : Db; pass_write : WriteSet }.
(** Beside the rows: every row the trigger had and every pass prepared, for a
    writer may have read long before it writes. The rest is a record of what
    happened. A user's write of the trigger starts a new history of it, with
    [since] its first fire; [fired] are the fires of this history for which Runs
    were committed, with the identifiers of the Runs; [skipped] its committed
    passes without a Run; [made] the Runs made by anyone else or in earlier
    histories. [overdraft] counts, since a Run was last claimed or resumed, the
    Runs started without a claim and the places a lowered limit took away. *)
Record System := {
  db : Db; seen : list TaskTrigger; pending : list Pass;
  since : option Z; fired : list (Z * string); skipped : list Pass; made : list string; overdraft : nat;
}.
#[export] Instance system_fields : Fields System := λ s,
  {| db := db s; seen := seen s; pending := pending s; since := since s; fired := fired s; skipped := skipped s; made := made s;
     overdraft := overdraft s |}.

(** A user writes the trigger. *)
Definition rewrite_trigger (t : TaskTrigger) (s : System) : System :=
  {| db := (db s) <| db_trigger := t |>; seen := t :: seen s; pending := pending s; since := next_fire_at t; fired := []; skipped := [];
     made := made s ++ (fired s).*2; overdraft := overdraft s |}.
(** A pass is committed. *)
Definition committed_pass (p : Pass) (d' : Db) (s : System) : System :=
  let ws := pass_write p in
  {| db := d'; seen := db_trigger d' :: seen s; pending := pending s; since := since s;
     fired := fired s ++ zip (ws_fires ws) (run_id <$> ws_runs ws);
     skipped := (if decide (ws_runs ws = []) then p :: skipped s else skipped s); made := made s; overdraft := overdraft s |}.
(** A Run that was queued is executed without a claim. *)
Definition unclaimed (d : Db) (id : string) (status : TaskRunStatus) : nat :=
  match find_run d id with
  | Some r => if bool_decide (run_status r = Queued) && negb (is_terminal_run status) && negb (bool_decide (status = Queued)) then 1 else 0
  | None => 0
  end.
Definition update_db (d : Db) (s : System) : System := s <| db := d |>.

Section system.
Context `{Chrono, SpecJson}.

(** Everything that writes these rows once the Task and its trigger have been
    created, in any order. The identifier is the primary key of the Runs; those of
    new Runs are fresh. *)
Inductive step : relation System :=
  | step_prepare s ids contract t now armed ws :
      t ∈ seen s → 0 ≤ now ≤ CHRONO_MAX → process_trigger ids (Some (db s)) contract t now armed = Ok (Write ws) →
      step s (s <| pending := {| pass_db := db s; pass_write := ws |} :: pending s |>)
  | step_commit s p d' :
      p ∈ pending s → commit (db s) (pass_write p) = Ok (Some d') → NoDup (run_id <$> db_runs d') → step s (committed_pass p d' s)
  | step_claim s id now d' : claim (db s) id now = Some d' → step s ((update_db d' s) <| overdraft := 0%nat |>)
  | step_start s id now d' :
      append_run_started (db s) id now = Some d' →
      step s ((update_db d' s) <| overdraft := (overdraft s + unclaimed (db s) id Running)%nat |>)
  | step_status s id status now :
      step s ((update_db (fst (update_run_status (db s) id status now)) s) <| overdraft := (overdraft s + unclaimed (db s) id status)%nat |>)
  | step_result s id status now :
      step s ((update_db (fst (update_run_result (db s) id status now)) s) <| overdraft := (overdraft s + unclaimed (db s) id status)%nat |>)
  | step_resume s id now d' : resume_blocked_run (db s) id now = Some d' → step s ((update_db d' s) <| overdraft := 0%nat |>)
  | step_create s r :
      run_status r = Queued → run_id r ∉ run_id <$> db_runs (db s) →
      step s ((update_db ((db s) <| db_runs := db_runs (db s) ++ [r] |>) s) <| made := made s ++ [run_id r] |>)
  | step_reschedule s t spec now t' :
      t ∈ seen s → 0 ≤ now ≤ CHRONO_MAX → reschedule_trigger t spec now = Ok t' → step s (rewrite_trigger t' s)
  | step_pause s t now : t ∈ seen s → step s (rewrite_trigger (pause_trigger t now) s)
  | step_resume_trigger s t now t' :
      t ∈ seen s → 0 ≤ now ≤ CHRONO_MAX → resume_trigger t now = Ok t' → step s (rewrite_trigger t' s)
  | step_stop s t status now : t ∈ seen s → status ≠ Active → step s (rewrite_trigger (stop_trigger t status now) s)
  | step_refresh s now :
      let t := (db_trigger (db s)) <| updated_at := now |> in
      step s ((update_db ((db s) <| db_trigger := t |>) s) <| seen := t :: seen s |>)
  | step_limit s limit :
      let d' := (db s) <| db_max_parallel_runs := limit |> in
      step s ((update_db d' s) <| overdraft := (overdraft s + (max_parallel_runs (db s) - max_parallel_runs d'))%nat |>)
  | step_task s status finish :
      step s (update_db ((db s) <| db_task_status := status |> <| db_finish_requested := finish |>) s).
End system.

(** ** Plans are sound *)
Section plans.
Context `{ChronoLaws}.

(** What a write of a trigger due at [n] consumes: some fires before the new
    cursor [x], all of them when nothing may be skipped. *)
Definition consumes (P : Z → Prop) (complete : Prop) (n x : Z) (fires : list Z) : Prop :=
  P x ∧ n < x ∧ StronglySorted Z.lt fires ∧ (∀ u, u ∈ fires → P u ∧ n ≤ u < x) ∧
  (complete → ∀ u, P u → n ≤ u < x → u ∈ fires).

Lemma elem_last_le (l : list Z) m u : StronglySorted Z.lt l → last l = Some m → u ∈ l → u ≤ m.
Proof.
  intros Hs [l' ->]%last_Some Hu. apply elem_of_app in Hu as [Hu|Hu%list_elem_of_singleton]; [|lia].
  induction l' as [|v l' IH]; [by apply elem_of_nil in Hu|]. inversion_clear Hs as [|?? Hs' Hv].
  apply elem_of_cons in Hu as [->|Hu]; [|by apply IH]. rewrite Forall_forall in Hv.
  assert (v < m); [|lia]. apply Hv, elem_of_app. right. apply list_elem_of_here.
Qed.
Lemma sorted_take (l : list Z) k : StronglySorted Z.lt l → StronglySorted Z.lt (take k l).
Proof.
  intros Hs. revert k; induction Hs as [|x l Hs IH Hx]; intros [|k]; simpl; constructor; [done|]. by apply Forall_take.
Qed.
Lemma sorted_take_below (l : list Z) k m u :
  StronglySorted Z.lt l → last (take k l) = Some m → u ∈ l → u ≤ m → u ∈ take k l.
Proof.
  intros Hs Hm Hu Hle. rewrite <-(take_drop k l) in Hu. apply elem_of_app in Hu as [|Hu]; [done|]. exfalso.
  apply last_Some in Hm as [l' Hl']. apply list_elem_of_lookup_1 in Hu as [j Hj]. rewrite lookup_drop in Hj.
  assert (l !! length l' = Some m) as Hi.
  { rewrite <-(lookup_take_lt _ k); [rewrite Hl'; by apply list_lookup_middle|].
    assert (length (take k l) = S (length l')) as Hlen by (rewrite Hl', length_app; simpl; lia). rewrite length_take in Hlen. lia. }
  assert (length (take k l) = S (length l')) as Hlen by (rewrite Hl', length_app; simpl; lia). rewrite length_take in Hlen.
  pose proof (sorted_lookup_lt l _ _ _ _ Hs Hi Hj). lia.
Qed.

Lemma take_elem (l : list Z) k u : u ∈ take k l → u ∈ l.
Proof. intros Hu. rewrite <-(take_drop k l). apply elem_of_app. by left. Qed.
Lemma last_elem (l : list Z) m : last l = Some m → m ∈ l.
Proof. intros [l' ->]%last_Some. apply elem_of_app. right. apply list_elem_of_here. Qed.

Lemma on_time_consumes P n now p :
  P n → on_time P n now p → exhausted p = false ∧ ∃ x, plan_next_fire_at p = Some x ∧ fire_times p ≠ [] ∧ consumes P True n x (fire_times p).
Proof.
  intros Hn (x & (Hlt & Hx & Hgap) & Hnow & ->). simpl. split; [done|]. exists x. split_and!; [done..|].
  split; [done|]. split; [done|]. split; [repeat constructor|]. split.
  - intros u ->%list_elem_of_singleton. split; [done|lia].
  - intros _ u Hu Hr. destruct (decide (u = n)) as [->|]; [apply list_elem_of_here|]. by destruct (Hgap u); [lia|].
Qed.
Lemma caught_up_consumes P n now policy p :
  P n → n ≤ now → caught_up P n now policy p →
  exhausted p = false ∧ ∃ x, plan_next_fire_at p = Some x ∧ (mode policy = RunAllMissed → fire_times p ≠ []) ∧
    consumes P (mode policy = RunAllMissed) n x (fire_times p).
Proof.
  intros Hn Hle (Hex & l & x & _ & Hx & Hmode). split; [done|]. exists x. split; [done|]. destruct (mode policy).
  - destruct Hmode as (-> & (Hl & HPl & _) & Hlt & HPx & _). split; [done|]. split; [done|]. split; [lia|].
    split; [repeat constructor|]. split; [|done]. intros u ->%list_elem_of_singleton. split; [done|lia].
  - destruct Hmode as (-> & (Hl & HPl & _) & Hlt & HPx & _). split; [done|]. split; [done|]. split; [lia|].
    split; [constructor|]. split; [|done]. by intros u ?%elem_of_nil.
  - destruct Hmode as ((Hs & _ & Hin & Hcover) & Hlast & Hlt & HPx & Hgap).
    assert (l ∈ fire_times p) as Hlin by (by apply last_elem).
    destruct (Hin l Hlin) as [Hl HPl]. split; [intros _ He; rewrite He in Hlin; by apply elem_of_nil in Hlin|]. split; [done|]. split; [lia|]. split; [done|]. split.
    + intros u Hu. destruct (Hin u Hu) as [Hb HPu]. pose proof (elem_last_le _ _ _ Hs Hlast Hu). split; [done|lia].
    + intros _ u HPu Hu. assert (u ≤ l) as Hul. { destruct (decide (u ≤ l)); [done|]. by destruct (Hgap u); [lia|]. }
      destruct (Hcover u HPu ltac:(lia)) as [|[_ Hall]]; [done|]. specialize (Hall l Hlin). lia.
Qed.
(** Keeping only the first fires moves the cursor behind the last one kept. *)
Lemma consumes_take P (complete : Prop) n x fires k m y :
  consumes P complete n x fires → last (take k fires) = Some m → next_in P m y → consumes P complete n y (take k fires).
Proof.
  intros (HPx & Hlt & Hs & Hin & Hall) Hlast (Hmy & HPy & Hgap).
  assert (m ∈ fires) as Hm.
  { by eapply take_elem, last_elem. }
  destruct (Hin m Hm) as [HPm Hbm]. split; [done|]. split; [lia|]. split; [by apply sorted_take|]. split.
  - intros u Hu. pose proof (elem_last_le _ _ _ (sorted_take _ _ Hs) Hlast Hu). assert (u ∈ fires) as Hu' by (by eapply take_elem).
    destruct (Hin u Hu') as [? ?]. split; [done|lia].
  - intros Hc u HPu Hu. assert (u ≤ m) as Hum. { destruct (decide (u ≤ m)); [done|]. by destruct (Hgap u); [lia|]. }
    apply (sorted_take_below _ _ m); [done..| |done]. apply Hall; [done..|lia].
Qed.
End plans.

(** ** Writes are sound *)
Section writes.
Context `{ChronoLaws}.

Lemma schedule_error_Ok {A} (r : result failure A) a : schedule_error r = Ok a ↔ r = Ok a.
Proof. destruct r; simpl; split; congruence. Qed.
Lemma create_runs_length ids i kind t parent number now fires runs :
  create_runs ids i kind t parent number now fires = Ok runs → length runs = length fires.
Proof.
  revert i parent number runs; induction fires as [|f fires IH]; intros i parent number runs; cbn [create_runs]; [by intros [= <-]|].
  intros (number' & _ & Hr)%bind_Ok. apply bind_Ok in Hr as (runs' & Hr & [= <-]). simpl. by rewrite (IH _ _ _ _ Hr).
Qed.

(** The write of a trigger with the schedule [P]: unless the trigger was not due,
    it consumes fires and creates one Run for each. Under [RunAllMissed] it
    consumes all of them, unless it has seen a queued Run of the trigger and
    creates none. *)
Definition sound (d : Db) (P : Z → Prop) (s : TaskTriggerSpec) (ws : WriteSet) : Prop :=
  length (ws_runs ws) = length (ws_fires ws) ∧ spec (ws_snapshot ws) = s ∧ spec (ws_trigger ws) = s ∧
  trigger_status (ws_trigger ws) = Active ∧
  ∃ n, next_fire_at (ws_snapshot ws) = Some n ∧
    (n ≤ ws_now ws → ∃ x, next_fire_at (ws_trigger ws) = Some x ∧
      let run_all := mode (catch_up_policy_for_trigger (ws_snapshot ws)) = RunAllMissed in
      consumes P (run_all ∧ ws_reason ws = TriggerFired) n x (ws_fires ws) ∧
      (run_all → ws_reason ws = TriggerFired ∨
                 ws_runs ws = [] ∧ already_queued d (ws_snapshot ws) (ws_now ws) = true)).

Lemma consumes_weaken P (c c' : Prop) n x fires : (c' → c) → consumes P c n x fires → consumes P c' n x fires.
Proof. intros Hc (? & ? & ? & ? & Hall). do 4 (split; [done|]). intros ?%Hc. by apply Hall. Qed.

Section one.
Context (t : TaskTrigger) (base n now : Z) (Hr : is_recurring_trigger t = true) (Hok : schedule_ok (spec t)).
Context (Hnext : next_fire_at t = Some n) (Hocc : occurs (spec t) base n) (H0n : 0 ≤ n) (Hclock : now ≤ CHRONO_MAX).
Local Abbreviation P := (occurs (spec t) base).
Local Abbreviation run_all := (mode (catch_up_policy_for_trigger t) = RunAllMissed).

Lemma due_plan_idle armed p : now < n → due_plan t now armed = Ok p → p = idle_plan t.
Proof.
  intros Hlt. unfold due_plan, catch_up_plan. rewrite (proj1 Hok), Hnext. simpl. rewrite decide_False by lia.
  rewrite decide_True by lia. by intros [= <-].
Qed.
Lemma due_plan_consumes armed p :
  n ≤ now → due_plan t now armed = Ok p →
  exhausted p = false ∧ ∃ x, plan_next_fire_at p = Some x ∧ (run_all → fire_times p ≠ []) ∧ consumes P run_all n x (fire_times p).
Proof.
  intros Hle Hp. pose proof (due_plan_exact t base n now armed Hr Hok Hnext Hocc ltac:(lia) Hclock) as Hx. rewrite Hp in Hx.
  destruct Hx as [(_ & _ & Ht)|[_ Hc]].
  - destruct (on_time_consumes _ _ _ _ Hocc Ht) as (He & x & Hx & Hne & Hc). split; [done|]. exists x. split_and!; [done..|].
    by apply (consumes_weaken _ True).
  - by eapply caught_up_consumes.
Qed.

(** The next fire behind a kept one. *)
Lemma next_behind armed p k m next :
  n ≤ now → due_plan t now armed = Ok p → last (take k (fire_times p)) = Some m → next_after_fire t m = Ok next →
  ∃ y, next = Some y ∧ consumes P run_all n y (take k (fire_times p)).
Proof.
  intros Hle Hp Hlast Hm. destruct (due_plan_consumes armed p Hle Hp) as (_ & x & _ & _ & Hc).
  pose proof Hc as (_ & _ & _ & Hin & _). destruct (Hin m) as [HPm Hb]; [by eapply take_elem, last_elem|].
  assert (m ≤ CHRONO_MAX) as Hmax.
  { assert (m ∈ fire_times p) as Hmem by (by eapply take_elem, last_elem).
    pose proof (due_plan_exact t base n now armed Hr Hok Hnext Hocc ltac:(lia) Hclock) as Hx. rewrite Hp in Hx.
    destruct Hx as [(_ & _ & y & _ & _ & ->)|(_ & _ & l & y & _ & _ & Hmode)]; cbn [fire_times] in *.
    - apply list_elem_of_singleton in Hmem. lia.
    - destruct (mode _); [destruct Hmode as (Hf & [? _] & _)|destruct Hmode as (Hf & _)|destruct Hmode as ((_ & _ & Hf & _) & _)].
      + rewrite Hf in Hmem. apply list_elem_of_singleton in Hmem. lia.
      + rewrite Hf in Hmem. by apply elem_of_nil in Hmem.
      + apply Hf in Hmem. lia. }
  pose proof (next_after_fire_next t base m Hr Hok HPm ltac:(lia)) as Hx. rewrite Hm in Hx. destruct Hx as (y & -> & Hy).
  exists y. split; [done|]. by eapply consumes_take.
Qed.

Lemma consume_plan_sound ids d armed p slots ws :
  (0 < slots)%nat → due_plan t now armed = Ok p → consume_plan ids d t p slots now = Ok ws →
  ws_snapshot ws = t ∧ ws_now ws = now ∧ sound d P (spec t) ws.
Proof.
  intros Hslots Hp. unfold consume_plan. set (fires := take slots (fire_times p)).
  intros (t' & Ht' & H')%bind_Ok. apply bind_Ok in H' as (number & _ & H'). apply bind_Ok in H' as (runs & Hruns & [= <-]).
  split; [done|]. split; [done|]. unfold sound. cbn [ws_runs ws_fires ws_snapshot ws_trigger ws_now ws_reason].
  split; [by eapply create_runs_length|]. split; [done|].
  destruct (decide (n ≤ now)) as [Hle|Hlt].
  - destruct (due_plan_consumes armed p Hle Hp) as (He & x & Hx & Hne & Hc).
    assert (spec t' = spec t ∧ trigger_status t' = Active ∧ ∃ y, next_fire_at t' = Some y ∧ consumes P run_all n y fires) as (Hs & Ha & y & Hy & Hcy).
    { destruct (decide (length fires < length (fire_times p))%nat) as [Htrunc|Hall].
      - apply bind_Ok in Ht' as (next & Hn' & [= <-]). split; [done|]. split; [done|]. cbn.
        destruct (last fires) as [m|] eqn:Hlast.
        + apply schedule_error_Ok in Hn'. by eapply next_behind.
        + exfalso. apply last_None in Hlast. subst fires. destruct (fire_times p); simpl in *; [lia|]. by destruct slots; [lia|].
      - assert (fires = fire_times p) as ->.
        { subst fires. rewrite length_take in Hall. apply take_ge. lia. }
        rewrite He, Hr in Ht'. injection Ht' as <-. split; [done|]. split; [done|]. cbn. exists x. done. }
    split; [done|]. split; [done|]. exists n. split; [done|]. intros _. exists y. split; [done|].
    split; [eapply consumes_weaken; [|done]; by intros [? _]|]. intros Hra. left. rewrite decide_False; [done|]. intros ->.
    apply create_runs_length in Hruns. subst fires. specialize (Hne Hra). destruct (fire_times p), slots; simpl in *; (done || lia).
  - assert (p = idle_plan t) as -> by (apply (due_plan_idle armed); [lia|done]). subst fires.
    cbn [idle_plan fire_times] in Ht'. rewrite take_nil in Ht'. simpl in Ht'. rewrite Hr in Ht'.
    injection Ht' as <-. split; [done|]. split; [done|]. exists n. split; [done|]. lia.
Qed.

Lemma enqueue_sound ids d armed p ws :
  fire_times p ≠ [] → due_plan t now armed = Ok p → enqueue_saturated_occurrence ids d t p now = Ok ws →
  ws_snapshot ws = t ∧ ws_now ws = now ∧ sound d P (spec t) ws.
Proof.
  intros Hne Hp. assert (n ≤ now) as Hle.
  { destruct (decide (n ≤ now)); [done|]. by rewrite (due_plan_idle armed p ltac:(lia) Hp) in Hne. }
  destruct (due_plan_consumes armed p Hle Hp) as (He & x & Hx & _ & Hc). unfold enqueue_saturated_occurrence.
  destruct (already_queued d t now) eqn:Hqueued.
  - intros [= <-]. split; [done|]. split; [done|]. unfold sound. cbn. rewrite He. split_and!; [done..|]. exists n. split; [done|].
    intros _. exists x. split; [done|]. destruct Hc as (HPx & Hlt & _).
    split; [|by right]. split; [done|]. split; [done|]. split; [constructor|].
    split; [by intros u ?%elem_of_nil|]. by intros [_ ?].
  - intros (number & _ & H')%bind_Ok. apply bind_Ok in H' as (f & Hf%ok_or_Ok & H').
    apply bind_Ok in H' as (t' & Ht' & [= <-]). split; [done|]. split; [done|]. unfold sound.
    cbn [ws_runs ws_fires ws_snapshot ws_trigger ws_now ws_reason]. split; [done|]. split; [done|].
    assert (take 1 (fire_times p) = [f]) as Htake by (destruct (fire_times p) as [|f' l]; [done|injection Hf as ->; by destruct l]).
    assert (spec t' = spec t ∧ trigger_status t' = Active ∧ ∃ y, next_fire_at t' = Some y ∧ consumes P run_all n y [f]) as (Hs & Ha & y & Hy & Hcy).
    { destruct (bool_decide_reflect (1 < length (fire_times p))%nat) as [Hmany|Hone].
      - apply bind_Ok in Ht' as (next & Hn'%schedule_error_Ok & [= <-]). split; [done|]. split; [done|]. cbn. rewrite <-Htake.
        eapply next_behind; [done|done|by rewrite Htake|done].
      - rewrite He in Ht'. injection Ht' as <-. split; [done|]. split; [done|]. cbn. exists x. split; [done|].
        assert (fire_times p = [f]) as <-; [|done]. rewrite <-Htake. symmetry. apply take_ge. lia. }
    split; [done|]. split; [done|]. exists n. split; [done|]. intros _. exists y. split; [done|].
    split; [eapply consumes_weaken; [|done]; by intros [? _]|by left].
Qed.

Lemma process_trigger_sound ids d contract armed ws :
  process_trigger ids (Some d) contract t now armed = Ok (Write ws) →
  ws_snapshot ws = t ∧ ws_now ws = now ∧ sound d P (spec t) ws.
Proof.
  unfold process_trigger. repeat (case_match; [done|]). intros (p & Hp%schedule_error_Ok & H')%bind_Ok.
  destruct (bool_decide _ && negb _) eqn:Hfull.
  - apply andb_true_iff in Hfull as [_ Hne%negb_true_iff%bool_decide_eq_false].
    destruct (enqueue_saturated_occurrence ids d t p now) as [ws'|] eqn:Hw; [|done]. injection H' as <-. by eapply enqueue_sound.
  - destruct (consume_plan ids d t p _ now) as [ws'|] eqn:Hw; [|done]. injection H' as <-. eapply consume_plan_sound; [|done..]. lia.
Qed.
End one.

(** What is written of any trigger: queued Runs of it, one for each fire. *)
Record shaped (t : TaskTrigger) (ws : WriteSet) : Prop := {
  sh_snapshot : ws_snapshot ws = t;
  sh_active : trigger_status t = Active;
  sh_id : trigger_id (ws_trigger ws) = trigger_id t;
  sh_spec : spec (ws_trigger ws) = spec t;
  sh_length : length (ws_runs ws) = length (ws_fires ws);
  sh_runs : ∀ r, r ∈ ws_runs ws → run_status r = Queued ∧ run_trigger_id r = Some (trigger_id t);
}.
Lemma create_runs_new ids i kind t parent number now fires runs :
  create_runs ids i kind t parent number now fires = Ok runs →
  ∀ r, r ∈ runs → run_status r = Queued ∧ run_trigger_id r = Some (trigger_id t).
Proof.
  revert i parent number runs; induction fires as [|f fires IH]; intros i parent number runs; cbn [create_runs];
    [by intros [= <-] r ?%elem_of_nil|].
  intros (number' & _ & Hr)%bind_Ok. apply bind_Ok in Hr as (runs' & Hr & [= <-]). intros r [->|Hin]%elem_of_cons; [done|]. by eapply IH.
Qed.
Lemma enqueue_shaped ids d t p now ws :
  trigger_status t = Active → enqueue_saturated_occurrence ids d t p now = Ok ws → shaped t ws.
Proof.
  intros Ha. unfold enqueue_saturated_occurrence. case_match; [intros [= <-]; split; cbn; try done; by intros r ?%elem_of_nil|].
  intros (number & _ & H')%bind_Ok. apply bind_Ok in H' as (f & _ & H'). apply bind_Ok in H' as (t' & Ht' & [= <-]).
  assert (trigger_id t' = trigger_id t ∧ spec t' = spec t) as [Hid Hs].
  { case_match; [apply bind_Ok in Ht' as (next & _ & [= <-]); done|]. case_match; by injection Ht' as <-. }
  split; cbn; try done. by intros r ->%list_elem_of_singleton.
Qed.
Lemma consume_plan_shaped ids d t p slots now ws :
  trigger_status t = Active → consume_plan ids d t p slots now = Ok ws → shaped t ws.
Proof.
  intros Ha. unfold consume_plan. intros (t' & Ht' & H')%bind_Ok. apply bind_Ok in H' as (number & _ & H').
  apply bind_Ok in H' as (runs & Hruns & [= <-]).
  assert (trigger_id t' = trigger_id t ∧ spec t' = spec t) as [Hid Hs].
  { case_decide; [apply bind_Ok in Ht' as (next & _ & [= <-]); done|]. repeat case_match; by injection Ht' as <-. }
  split; cbn; try done; [by eapply create_runs_length|by eapply create_runs_new].
Qed.
Lemma process_trigger_shaped ids d contract t now armed ws :
  process_trigger ids (Some d) contract t now armed = Ok (Write ws) → shaped t ws.
Proof.
  unfold process_trigger. case_match eqn:Ha; [done|]. apply negb_false_iff, bool_decide_eq_true in Ha.
  repeat (case_match; [done|]). intros (p & _ & H')%bind_Ok. case_match.
  - destruct (enqueue_saturated_occurrence ids d t p now) as [ws'|] eqn:Hw; [|done]. injection H' as <-. by eapply enqueue_shaped.
  - destruct (consume_plan ids d t p _ now) as [ws'|] eqn:Hw; [|done]. injection H' as <-. by eapply consume_plan_shaped.
Qed.
End writes.

(** ** Every fire once *)
Section exactly_once.
Context `{ChronoLaws, SpecJson, !SpecJsonLaws}.

Lemma same_spec_policy t t' : spec t = spec t' → catch_up_policy_for_trigger t = catch_up_policy_for_trigger t'.
Proof. unfold catch_up_policy_for_trigger. by intros ->. Qed.
Lemma same_spec_recurring t t' : spec t = spec t' → is_recurring_trigger t = is_recurring_trigger t'.
Proof. unfold is_recurring_trigger, trigger_kind. by intros ->. Qed.
Lemma recurring_kind t : is_recurring_trigger t = true ↔ spec_kind (spec t) = KindInterval ∨ spec_kind (spec t) = KindCron.
Proof. unfold is_recurring_trigger, trigger_kind. by rewrite orb_true_iff, !bool_decide_eq_true. Qed.

(** The occurrences from one of them on. *)
Lemma occurs_rebase t base n u :
  is_recurring_trigger t = true → schedule_ok (spec t) → occurs (spec t) base n → n ≤ u →
  occurs (spec t) base u ↔ occurs (spec t) n u.
Proof.
  intros Hr Hok Hn Hu. rewrite (occurs_shift _ base n u Hok Hn Hu). apply recurring_kind in Hr.
  destruct (spec t); simpl in Hr; naive_solver.
Qed.
Lemma consumes_rebase P P' c n x fires :
  (∀ u, n ≤ u → P u ↔ P' u) → consumes P c n x fires → consumes P' c n x fires.
Proof.
  intros HP (Hx & Hlt & Hs & Hin & Hall). split; [apply HP; [lia|done]|]. split; [done|]. split; [done|]. split.
  - intros u Hu. destruct (Hin u Hu) as [? ?]. split; [apply HP; [lia|done]|done].
  - intros Hc u Hu ?. apply Hall; [done|apply HP; [lia|done]|done].
Qed.
(** The first fire of a schedule is one of its occurrences. *)
Lemma initial_fire t now next :
  is_recurring_trigger t = true → schedule_ok (spec t) → 0 ≤ now ≤ CHRONO_MAX → initial_next_fire_at (spec t) now = Ok next →
  ∃ n, next = Some n ∧ occurs (spec t) n n ∧ 0 ≤ n.
Proof.
  intros Hr Hok Hnow. unfold initial_next_fire_at. rewrite (proj1 Hok). cbn [mbind result_bind]. apply recurring_kind in Hr.
  destruct (spec t) as [| |step anchor p|expr timezone p| | |] eqn:Hspec; try (by destruct Hr).
  - destruct (interval_ok _ _ _ Hok) as (Hs & Hmax & Ha).
    destruct (next_interval_fire_exact (default now anchor) step now) as (n & -> & Hn & Hg & _);
      [done| |int64|lia|intros [= <-]; exists n].
    { destruct anchor as [a|]; simpl; [specialize (Ha a eq_refl); lia|lia]. }
    split; [done|]. split; [|lia]. destruct anchor as [a|]; simpl in *; [done|]. apply on_grid_multiple; [done|]. exists 0. lia.
  - destruct (cron_ok _ _ _ Hok) as (c & tz & Hc & Htz).
    pose proof (next_cron_fire_exact expr timezone c tz now Hc Htz ltac:(unfold CHRONO_MIN; lia) ltac:(unfold CHRONO_MAX in *; int64)) as Hx.
    destruct (next_cron_fire expr timezone now) as [n|e]; [|done]. intros [= <-]. destruct Hx as [(Hlt & Hf & _) _].
    exists n. split; [done|]. split; [by exists c, tz|lia].
Qed.

(** *** Rows of the trigger *)
Definition due_schedule (t : TaskTrigger) : Prop :=
  trigger_status t = Active ∧ is_recurring_trigger t = true ∧ schedule_ok (spec t).
(** The cursor of an active recurring trigger is one of its fires. *)
Definition row_ok (id : string) (t : TaskTrigger) : Prop :=
  trigger_id t = id ∧ (due_schedule t → ∃ n, next_fire_at t = Some n ∧ occurs (spec t) n n ∧ 0 ≤ n).
Lemma reschedule_row id t s now t' :
  row_ok id t → 0 ≤ now ≤ CHRONO_MAX → reschedule_trigger t s now = Ok t' → row_ok id t'.
Proof.
  intros [Hid _] Hnow. unfold reschedule_trigger. intros ([] & _ & Hr)%bind_Ok. apply bind_Ok in Hr as ([] & _ & Hr).
  apply bind_Ok in Hr as (next & Hnext & Ht'). split; [by injection Ht' as <-|]. intros (_ & Hrec & Hok).
  assert (spec t' = s ∧ next_fire_at t' = next) as [Hs Hn] by (by injection Ht' as <-). rewrite Hn. apply (initial_fire t' now); [done..|by rewrite Hs].
Qed.
Lemma pause_row id t now : row_ok id t → row_ok id (pause_trigger t now).
Proof. intros [Hid Ht]. unfold pause_trigger. case_decide; [|done]. split; [done|]. by intros [? _]. Qed.
Lemma stop_row id t status now : row_ok id t → status ≠ Active → row_ok id (stop_trigger t status now).
Proof. intros [Hid Ht] Hs. split; [done|]. by intros [? _]. Qed.
Lemma resume_row id t now t' : row_ok id t → 0 ≤ now ≤ CHRONO_MAX → resume_trigger t now = Ok t' → row_ok id t'.
Proof.
  intros Ht Hnow. unfold resume_trigger. case_decide; [|by intros [= <-]]. intros (next & Hnext & Ht')%bind_Ok.
  split; [injection Ht' as <-; apply Ht|]. intros (_ & Hrec & Hok).
  assert (spec t' = spec t ∧ next_fire_at t' = next) as [Hs Hn] by (by injection Ht' as <-). rewrite Hn.
  apply (initial_fire t' now); [done..|]. rewrite Hs. apply recurring_kind in Hrec. rewrite Hs in Hrec. unfold resume_next_fire_at in Hnext.
  destruct (spec t); try (by destruct Hrec); done.
Qed.

(** *** Passes *)
Definition pass_ok (id : string) (p : Pass) : Prop :=
  let ws := pass_write p in let t := ws_snapshot ws in
  shaped t ws ∧ trigger_id t = id ∧
  (is_recurring_trigger t = true → schedule_ok (spec t) → ∃ n, next_fire_at t = Some n ∧ occurs (spec t) n n ∧ 0 ≤ n ∧
     sound (pass_db p) (occurs (spec t) n) (spec t) ws).
Lemma prepare_ok id ids d contract t now armed ws :
  row_ok id t → 0 ≤ now ≤ CHRONO_MAX → process_trigger ids (Some d) contract t now armed = Ok (Write ws) →
  pass_ok id {| pass_db := d; pass_write := ws |}.
Proof.
  intros [Hid Ht] Hnow Hws. pose proof (process_trigger_shaped _ _ _ _ _ _ _ Hws) as Hsh.
  pose proof (sh_snapshot _ _ Hsh) as Hsnap. unfold pass_ok. cbn [pass_write pass_db]. rewrite Hsnap. split; [done|]. split; [done|].
  intros Hrec Hok. destruct Ht as (n & Hn & Hocc & H0n); [split; [by apply (sh_active _ _ Hsh)|done]|]. exists n. split_and!; [done..|].
  by destruct (process_trigger_sound t n n now Hrec Hok Hn Hocc H0n ltac:(lia) ids d contract armed ws Hws) as (_ & _ & ?).
Qed.
(** What a commit that changed something has checked. *)
Lemma commit_spec d ws d' :
  commit d ws = Ok (Some d') →
  d' = d <| db_trigger := ws_trigger ws |> <| db_runs := db_runs d ++ ws_runs ws |> ∧
  ∃ n, next_fire_at (ws_snapshot ws) = Some n ∧ next_fire_at (db_trigger d) = Some n ∧ n ≤ ws_now ws ∧
    trigger_status (db_trigger d) = Active ∧ spec_json (spec (db_trigger d)) = spec_json (spec (ws_snapshot ws)).
Proof.
  unfold commit. case_match; [done|]. case_match eqn:Hn; [|done]. intros ([] & _ & Hc)%bind_Ok.
  case_match; [done|]. case_match eqn:Hsame; [done|]. apply bind_Ok in Hc as (fresh & _ & Hc).
  do 2 (case_match; [done|]). injection Hc as <-. split; [done|].
  rewrite !orb_false_iff, !negb_false_iff, !bool_decide_eq_true, bool_decide_eq_false in Hsame.
  destruct Hsame as [[[Hact Hrow] Hdue] Hsame]. unfold same_trigger in Hsame. rewrite !andb_true_iff, !bool_decide_eq_true in Hsame.
  eexists. split; [done|]. split; [done|]. split; [lia|]. tauto.
Qed.

(** *** The current history of the trigger *)
Lemma sorted_app (l1 l2 : list Z) c :
  StronglySorted Z.lt l1 → StronglySorted Z.lt l2 → (∀ u, u ∈ l1 → u < c) → (∀ u, u ∈ l2 → c ≤ u) →
  StronglySorted Z.lt (l1 ++ l2).
Proof.
  intros Hs1 Hs2 Hlow Hhigh. induction Hs1 as [|x l1 Hs1 IH Hx]; [done|]. simpl. constructor.
  - apply IH. intros u Hu. by apply Hlow, list_elem_of_further.
  - apply Forall_app. split; [done|]. apply Forall_forall. intros u Hu.
    specialize (Hlow x (list_elem_of_here x l1)). specialize (Hhigh u Hu). lia.
Qed.

(** A committed pass without a Run moved the cursor past the fire, and it had seen
    a queued Run of the trigger that was ready and stood for it. *)
Definition passed_over (s : System) (u : Z) : Prop :=
  ∃ p n x, p ∈ skipped s ∧ let ws := pass_write p in
    next_fire_at (ws_snapshot ws) = Some n ∧ next_fire_at (ws_trigger ws) = Some x ∧ n ≤ u < x ∧
    already_queued (pass_db p) (ws_snapshot ws) (ws_now ws) = true.
Definition history (s : System) (base cursor : Z) : Prop :=
  let t := db_trigger (db s) in
  since s = Some base ∧ next_fire_at t = Some cursor ∧ occurs (spec t) base cursor ∧ 0 ≤ base ≤ cursor ∧
  StronglySorted Z.lt (fired s).*1 ∧ (∀ u, u ∈ (fired s).*1 → occurs (spec t) base u ∧ base ≤ u < cursor) ∧
  (mode (catch_up_policy_for_trigger t) = RunAllMissed →
   ∀ u, occurs (spec t) base u → base ≤ u < cursor → u ∈ (fired s).*1 ∨ passed_over s u).
Record system_ok (id : string) (s : System) : Prop := {
  ok_seen : ∀ t, t ∈ seen s → row_ok id t;
  ok_row : db_trigger (db s) ∈ seen s;
  ok_pending : ∀ p, p ∈ pending s → pass_ok id p;
  ok_nodup : NoDup (run_id <$> db_runs (db s));
  ok_made : run_id <$> db_runs (db s) ≡ₚ made s ++ (fired s).*2;
  ok_fired : ∀ u i, (u, i) ∈ fired s → (i, Some id) ∈ (λ r, (run_id r, run_trigger_id r)) <$> db_runs (db s);
  ok_history : due_schedule (db_trigger (db s)) → ∃ base cursor, history s base cursor;
}.

(** Steps that leave the trigger and the names of Runs alone. *)
Record same_history (s s' : System) : Prop := {
  sm_trigger : db_trigger (db s') = db_trigger (db s);
  sm_runs : (λ r, (run_id r, run_trigger_id r)) <$> db_runs (db s') = (λ r, (run_id r, run_trigger_id r)) <$> db_runs (db s);
  sm_seen : seen s' = seen s;
  sm_pending : pending s' = pending s;
  sm_since : since s' = since s;
  sm_fired : fired s' = fired s;
  sm_skipped : skipped s' = skipped s;
  sm_made : made s' = made s;
}.
Lemma run_ids_pairs (l : list TaskRun) : run_id <$> l = ((λ r, (run_id r, run_trigger_id r)) <$> l).*1.
Proof. by rewrite <-list_fmap_compose. Qed.
Lemma same_history_ok id s s' : system_ok id s → same_history s s' → system_ok id s'.
Proof.
  intros [Kseen Krow Kpend Knd Kmade Kfired Khist] [K1 K2 K3 K4 K5 K6 K7 K8].
  assert (run_id <$> db_runs (db s') = run_id <$> db_runs (db s)) as Hids by (by rewrite !run_ids_pairs, K2).
  split; rewrite ?K1, ?K3, ?K4, ?K6, ?K8, ?Hids, ?K2; [done..|].
  intros (base & cursor & Hh)%Khist. exists base, cursor. unfold history, passed_over in *. by rewrite K1, K5, K6, K7.
Qed.

Lemma set_run_pairs id f d :
  (∀ r, run_id (f r) = run_id r ∧ run_trigger_id (f r) = run_trigger_id r) →
  (λ r, (run_id r, run_trigger_id r)) <$> db_runs (set_run id f d) = (λ r, (run_id r, run_trigger_id r)) <$> db_runs d.
Proof.
  intros Hf. unfold set_run. cbn. rewrite <-list_fmap_compose. apply list_fmap_ext. intros i r _. simpl.
  case_decide; [|done]. destruct (Hf r). congruence.
Qed.
(** A change of the status of one Run. *)
Definition run_change (d d' : Db) : Prop := d' = d ∨ ∃ id f, d' = set_run id f d ∧
  ∀ r, run_id (f r) = run_id r ∧ run_trigger_id (f r) = run_trigger_id r.
Lemma guarded_update_change d id status f :
  (∀ r, run_id (f r) = run_id r ∧ run_trigger_id (f r) = run_trigger_id r) → run_change d (fst (guarded_update d id status f)).
Proof.
  intros Hf. unfold guarded_update. destruct (find_run d id) as [r|]; [|by left]. destruct (terminal_run_transition_guard _ _); [by left|].
  right. eexists _, _. split; [reflexivity|]. intros r'. exact (Hf r').
Qed.
Lemma update_run_started_change d id now : run_change d (fst (update_run_started d id now)).
Proof.
  unfold update_run_started. destruct (find_run d id); [|by left]. case_decide; [by left|]. by apply guarded_update_change.
Qed.
Lemma append_run_started_change d id now d' : append_run_started d id now = Some d' → run_change d d'.
Proof.
  unfold append_run_started. destruct (find_run d id); [|done]. simpl. repeat (case_match; [done|]). intros [= <-]. apply update_run_started_change.
Qed.
Lemma resume_blocked_run_change d id now d' : resume_blocked_run d id now = Some d' → run_change d d'.
Proof.
  unfold resume_blocked_run. destruct (find_run d id); [|done]. simpl. case_match; [done|]. case_decide; [|done].
  intros [= <-]. right. by eexists _, _.
Qed.
Lemma claim_spec d id now d' :
  claim d id now = Some d' →
  ∃ r, r ∈ db_runs d ∧ run_id r = id ∧ run_status r = Queued ∧ has_dispatch_capacity d r now = true ∧
    d' = d <| db_runs := start_run id now <$> db_runs d |>.
Proof.
  unfold claim. destruct (head _) as [r|] eqn:Hhead; [|done]. simpl. repeat (case_match; try done). intros [= <-].
  apply head_filter_Some in Hhead as (l1 & l2 & Hl & Hid & _). exists r. split_and!; [|done|done| |done].
  - rewrite Hl. apply elem_of_app. right. apply list_elem_of_here.
  - by destruct (has_dispatch_capacity d r now).
Qed.
Lemma claim_change d id now d' : claim d id now = Some d' → run_change d d'.
Proof.
  intros (r & _ & _ & _ & _ & ->)%claim_spec. right.
  by exists id, (λ r, r <| run_status := Starting |> <| heartbeat_at := Some now |> <| run_updated_at := now |>).
Qed.
Lemma run_change_ok id s d' o :
  system_ok id s → run_change (db s) d' → system_ok id ((update_db d' s) <| overdraft := o |>).
Proof.
  intros Hok Hd. apply (same_history_ok id s); [done|]. destruct Hd as [->|(i & f & -> & Hf)]; split; try done. by apply set_run_pairs.
Qed.

(** A user's write starts a new history. *)
Lemma rewrite_trigger_ok id s t : system_ok id s → row_ok id t → system_ok id (rewrite_trigger t s).
Proof.
  intros [Kseen Krow Kpend Knd Kmade Kfired Khist] Ht. split; cbn; [|left|done|done| | |].
  - intros t' [->|Ht']%elem_of_cons; auto.
  - by rewrite app_nil_r.
  - by intros u i ?%elem_of_nil.
  - intros (n & Hn & Hocc & H0n)%(proj2 Ht). exists n, n. split_and!; cbn; try done; [constructor|by intros u ?%elem_of_nil|lia].
Qed.
(** A commit extends the history it finds. *)
Lemma commit_ok id s p d' :
  system_ok id s → p ∈ pending s → commit (db s) (pass_write p) = Ok (Some d') → NoDup (run_id <$> db_runs d') →
  system_ok id (committed_pass p d' s).
Proof.
  intros [Kseen Krow Kpend Knd Kmade Kfired Khist] Hp Hcommit Hnd. destruct (Kpend p Hp) as (Hsh & Hid & Hsound). set (ws := pass_write p) in *.
  apply commit_spec in Hcommit as (-> & n & Hn & Hrow & Hdue & Hact & Hjson). pose proof (sh_spec _ _ Hsh) as Hst.
  assert ((zip (ws_fires ws) (run_id <$> ws_runs ws)).*1 = ws_fires ws) as Hfst.
  { apply fst_zip. rewrite length_fmap, (sh_length _ _ Hsh). done. }
  assert ((zip (ws_fires ws) (run_id <$> ws_runs ws)).*2 = run_id <$> ws_runs ws) as Hsnd.
  { apply snd_zip. rewrite length_fmap, (sh_length _ _ Hsh). done. }
  assert (due_schedule (ws_trigger ws) → ∃ base cursor x, history s base cursor ∧ next_fire_at (ws_snapshot ws) = Some cursor ∧
    spec (db_trigger (db s)) = spec (ws_trigger ws) ∧ next_fire_at (ws_trigger ws) = Some x ∧
    consumes (occurs (spec (ws_trigger ws)) base)
      (mode (catch_up_policy_for_trigger (ws_trigger ws)) = RunAllMissed ∧ ws_reason ws = TriggerFired) cursor x (ws_fires ws) ∧
    (mode (catch_up_policy_for_trigger (ws_trigger ws)) = RunAllMissed → ws_reason ws = TriggerFired ∨
       ws_runs ws = [] ∧ already_queued (pass_db p) (ws_snapshot ws) (ws_now ws) = true)) as Hnew.
  { intros (_ & Hrec & Hok). rewrite (same_spec_recurring _ _ Hst) in Hrec. rewrite Hst in Hok.
    destruct (Hsound Hrec Hok) as (n' & Hn' & Hocc & H0n & Hs). assert (n' = n) as -> by congruence.
    assert (spec (ws_snapshot ws) = spec (db_trigger (db s))) as Hspec.
    { apply spec_json_recurring; [by apply recurring_kind|done]. }
    destruct Khist as (base & c & Hh).
    { split; [done|]. by rewrite <-(same_spec_recurring _ _ Hspec), <-Hspec. }
    pose proof Hh as (_ & Hc & HPc & Hb & _). assert (c = n) as -> by congruence.
    destruct Hs as (_ & _ & _ & _ & n2 & Hn2 & Hcons). assert (n2 = n) as -> by congruence.
    destruct (Hcons Hdue) as (x & Hx & Hcx & Hskip). exists base, n, x. rewrite Hst, (same_spec_policy _ _ Hst). split_and!; try done.
    eapply consumes_rebase; [|exact Hcx]. intros u Hu. rewrite <-Hspec in HPc. symmetry. by apply occurs_rebase. }
  split; cbn [db seen pending db_trigger db_runs fired made committed_pass].
  - intros t [->|Ht]%elem_of_cons; [|by apply Kseen]. cbn. split; [by rewrite (sh_id _ _ Hsh)|]. intros Hds.
    destruct (Hnew Hds) as (base & c & x & (_ & _ & HPc & Hb & _) & _ & Hspec & Hx & (HPx & Hlt & _) & _). exists x. split; [done|].
    destruct Hds as (_ & Hrec & Hok). rewrite Hspec in HPc. split; [|lia]. by apply (occurs_rebase _ base).
  - left.
  - done.
  - done.
  - cbn. fold ws. rewrite !fmap_app, Hsnd, Kmade. by rewrite (assoc_L (++)).
  - cbn. fold ws. intros u i. rewrite elem_of_app, fmap_app, elem_of_app. intros [Hin|Hin]; [left; by eapply Kfired|right].
    apply elem_of_zip_r in Hin. apply list_elem_of_fmap in Hin as (r & -> & Hr). apply list_elem_of_fmap. exists r.
    by rewrite (proj2 (sh_runs _ _ Hsh r Hr)), Hid.
  - cbn. intros Hds. destruct (Hnew Hds) as (base & c & x & (Hsince & Hcur & HPc & Hb & Hsort & Hin & Hall) & Hsnap & Hspec & Hx & (HPx & Hlt & Hsf & Hinf & Hallf) & Hskip).
    rewrite Hspec in HPc, Hin, Hall. exists base, x. unfold history. cbn [db db_trigger since fired committed_pass].
    cbn. fold ws. rewrite fmap_app, Hfst. split_and!; try done; [lia|lia| | |].
    + apply (sorted_app _ _ c); [done|done|intros u Hu; by apply Hin|intros u Hu; by apply Hinf].
    + intros u [Hu|Hu]%elem_of_app; [destruct (Hin u Hu)|destruct (Hinf u Hu)]; (split; [done|lia]).
    + rewrite (same_spec_policy _ _ Hspec) in Hall. intros Hra u HPu Hu. rewrite elem_of_app. destruct (decide (u < c)) as [Hlow|Hhigh].
      * destruct (Hall Hra u HPu ltac:(lia)) as [|(q & a & b & Hq & Hrest)]; [by left; left|right]. exists q, a, b. split; [|done].
        cbn. case_decide; [by right|done].
      * destruct (Hskip Hra) as [Hfired|[Hnone Hqueued]]; [left; right; apply Hallf; [done|done|lia]|right].
        exists p, c, x. cbn. fold ws. rewrite decide_True by done. split; [left|]. split_and!; (done || lia).
Qed.

(** A Run made by anyone else. *)
Lemma create_ok id s r :
  system_ok id s → run_id r ∉ run_id <$> db_runs (db s) →
  system_ok id ((update_db ((db s) <| db_runs := db_runs (db s) ++ [r] |>) s) <| made := made s ++ [run_id r] |>).
Proof.
  intros [Kseen Krow Kpend Knd Kmade Kfired Khist] Hfresh. split; cbn; [done|done|done| | | |done].
  - rewrite fmap_app. apply NoDup_app. split; [done|]. split; [|apply NoDup_singleton].
    intros i Hi ->%list_elem_of_singleton. done.
  - rewrite fmap_app, Kmade, <-!(assoc_L (++)). by rewrite (comm (++) (fired s).*2).
  - intros u i Hu. rewrite fmap_app, elem_of_app. left. by eapply Kfired.
Qed.
Lemma scheduler_step_ok id s s' : system_ok id s → step s s' → system_ok id s'.
Proof.
  intros Hok Hstep. pose proof Hok as [Kseen Krow Kpend Knd Kmade Kfired Khist]. destruct Hstep as
    [s ids contract t now armed ws Ht Hnow Hws|s p d' Hp Hcommit Hnd'|s rid now d' Hclaim|s rid now d' Hrun|s rid status now|s rid status now
    |s rid now d' Hrun|s r _ Hfresh|s t new now t' Ht Hnow Hedit|s t now Ht|s t now t' Ht Hnow Hedit|s t status now Ht Hst|s now t|s limit d'|s status finish].
  - split; cbn; [done|done| |done..]. intros p [->|Hp]%elem_of_cons; [|auto]. by apply (prepare_ok id ids (db s) contract t now armed); [apply Kseen|..].
  - by apply commit_ok.
  - eapply run_change_ok, claim_change; done.
  - eapply run_change_ok, append_run_started_change; done.
  - apply run_change_ok; [done|]. by apply guarded_update_change.
  - apply run_change_ok; [done|]. by apply guarded_update_change.
  - eapply run_change_ok, resume_blocked_run_change; done.
  - by apply create_ok.
  - apply rewrite_trigger_ok; [done|]. by apply (reschedule_row id t new now); [apply Kseen|..].
  - apply rewrite_trigger_ok; [done|]. by apply pause_row, Kseen.
  - apply rewrite_trigger_ok; [done|]. by apply (resume_row id t now); [apply Kseen|..].
  - by apply rewrite_trigger_ok, stop_row; [|apply Kseen|].
  - split; cbn; [|left|done..]. intros t' [->|Ht']%elem_of_cons; [|auto]. exact (Kseen _ Krow).
  - by apply (same_history_ok id s).
  - by apply (same_history_ok id s).
Qed.

(** Nothing has happened yet. *)
Definition initial (d : Db) : System :=
  {| db := d; seen := [db_trigger d]; pending := []; since := next_fire_at (db_trigger d); fired := []; skipped := [];
     made := run_id <$> db_runs d; overdraft := 0 |}.
Lemma scheduler_initial_ok d : row_ok (trigger_id (db_trigger d)) (db_trigger d) → NoDup (run_id <$> db_runs d) → system_ok (trigger_id (db_trigger d)) (initial d).
Proof.
  intros Hrow Hnd. split; cbn; [by intros t ->%list_elem_of_singleton|left|by intros p ?%elem_of_nil|done|by rewrite app_nil_r|by intros u i ?%elem_of_nil|].
  intros (n & Hn & Hocc & H0n)%(proj2 Hrow). exists n, n. split_and!; cbn; try done; [constructor|by intros u ?%elem_of_nil|lia].
Qed.

(** C3: however passes of the scheduler, their retried commits, dispatches and
    changes of Runs, Runs made by anyone else, and edits, pauses, resumptions and
    stops of the trigger interleave: the Runs of the Task are those made by
    others or in earlier histories and one Run of the trigger for each fire of its
    current history, which began with the last such write of a user. While the
    trigger is active and recurring with a validated schedule, the fires that ran
    are strictly increasing occurrences of it between the first fire of the history
    and the cursor, so none runs twice. Under [RunAllMissed] an occurrence in between
    that did not run was passed over by a committed pass that had seen a queued
    and ready Run of the trigger; no other is lost. *)
Theorem scheduled_fires_exactly_once d s :
  row_ok (trigger_id (db_trigger d)) (db_trigger d) → NoDup (run_id <$> db_runs d) → rtc step (initial d) s →
  let t := db_trigger (db s) in
  NoDup (run_id <$> db_runs (db s)) ∧ run_id <$> db_runs (db s) ≡ₚ made s ++ (fired s).*2 ∧
  (∀ u i, (u, i) ∈ fired s → ∃ r, r ∈ db_runs (db s) ∧ run_id r = i ∧ run_trigger_id r = Some (trigger_id (db_trigger d))) ∧
  (due_schedule t → ∃ base cursor,
    since s = Some base ∧ next_fire_at t = Some cursor ∧ occurs (spec t) base cursor ∧ base ≤ cursor ∧
    StronglySorted Z.lt (fired s).*1 ∧ (∀ u, u ∈ (fired s).*1 → occurs (spec t) base u ∧ base ≤ u < cursor) ∧
    (mode (catch_up_policy_for_trigger t) = RunAllMissed →
     ∀ u, occurs (spec t) base u → base ≤ u < cursor → u ∈ (fired s).*1 ∨ passed_over s u)).
Proof.
  intros Hrow Hnd Hs. destruct (invariant_rtc step (system_ok _) (scheduler_step_ok _) _ _ Hs (scheduler_initial_ok d Hrow Hnd))
    as [_ _ _ Knd Kmade Kfired Khist].
  split; [done|]. split; [done|]. split.
  - intros u i (r & [= -> Hr] & Hin)%Kfired%list_elem_of_fmap. by exists r.
  - intros (base & cursor & Hh)%Khist. exists base, cursor. unfold history in Hh. tauto.
Qed.
End exactly_once.


(** ** Capacity *)
Section capacity.
Context `{ChronoLaws, SpecJson}.

Lemma count_app f l1 l2 : count f (l1 ++ l2) = (count f l1 + count f l2)%nat.
Proof. unfold count. by rewrite filter_app, length_app. Qed.
Lemma count_cons f r l : count f (r :: l) = ((if f r then 1 else 0) + count f l)%nat.
Proof. unfold count. rewrite filter_cons. destruct (f r); simpl; done. Qed.
Lemma count_ext f g l : (∀ r, r ∈ l → f r = g r) → count f l = count g l.
Proof. intros Hfg. unfold count. f_equal. apply filter_ext. intros r Hr. by rewrite Hfg. Qed.
Lemma count_mono f g l : (∀ r, r ∈ l → f r = true → g r = true) → (count f l ≤ count g l)%nat.
Proof.
  induction l as [|r l IH]; intros Hfg; [done|]. rewrite !count_cons. specialize (IH (λ x Hx, Hfg x (list_elem_of_further x r l Hx))).
  pose proof (Hfg r (list_elem_of_here r l)). destruct (f r), (g r); (lia || naive_solver).
Qed.
Lemma count_none f l : (∀ r, r ∈ l → f r = false) → count f l = 0%nat.
Proof.
  induction l as [|r l IH]; intros Hf; [done|]. rewrite count_cons, Hf by apply list_elem_of_here.
  apply IH. intros x Hx. by apply Hf, list_elem_of_further.
Qed.
Lemma count_fmap_le f g l : (∀ r, r ∈ l → f (g r) = true → f r = true) → (count f (g <$> l) ≤ count f l)%nat.
Proof.
  induction l as [|r l IH]; intros Hfg; [done|]. csimpl. rewrite !count_cons. specialize (IH (λ x Hx, Hfg x (list_elem_of_further x r l Hx))).
  pose proof (Hfg r (list_elem_of_here r l)). destruct (f (g r)), (f r); (lia || naive_solver).
Qed.
Lemma count_strict f g l e :
  (∀ r, r ∈ l → f r = true → g r = true) → e ∈ l → f e = false → g e = true → (count f l < count g l)%nat.
Proof.
  intros Hfg [l1 [l2 ->]]%list_elem_of_split Hf Hg. rewrite !count_app, !count_cons, Hf, Hg.
  assert (count f l1 ≤ count g l1)%nat by (apply count_mono; intros r Hr; apply Hfg; set_solver).
  assert (count f l2 ≤ count g l2)%nat by (apply count_mono; intros r Hr; apply Hfg; set_solver). lia.
Qed.

(** The scheduler and the transaction count the same Runs. *)
Lemma occupied_agree l : count (status_in [Starting; Running; Waiting; WaitingReview]) l = count occupies l.
Proof. apply count_ext. intros r _. unfold status_in, occupies. by destruct (run_status r). Qed.

(** The check before a dispatch agrees with the one of the transaction. *)
Lemma capacity_checks_agree d now r :
  NoDup (run_id <$> db_runs d) → r ∈ db_runs d → has_capacity_for_queued_run d now (run_id r) = has_dispatch_capacity d r now.
Proof.
  intros Hnd Hr. unfold has_capacity_for_queued_run, has_dispatch_capacity. rewrite occupied_agree.
  destruct (head (filter _ _)) as [c|] eqn:Hhead.
  - apply head_filter_Some in Hhead as (l1 & l2 & Hl & Hid & _). assert (c = r) as ->; [|done].
    assert (c ∈ db_runs d) as Hc by (rewrite Hl; apply elem_of_app; right; apply list_elem_of_here).
    apply list_elem_of_lookup_1 in Hr as [i Hi]. apply list_elem_of_lookup_1 in Hc as [j Hj].
    assert (i = j) as ->; [|congruence]. eapply (NoDup_lookup _ i j (run_id r) Hnd); rewrite list_lookup_fmap, ?Hi, ?Hj; simpl; congruence.
  - exfalso. by apply (head_filter_None _ _ Hhead r).
Qed.

Lemma set_other id g (l : list TaskRun) : id ∉ (run_id <$> l) → (λ r, if decide (run_id r = id) then g r else r) <$> l = l.
Proof.
  induction l as [|r l IH]; csimpl; [done|]. intros [Hne Hl]%not_elem_of_cons. rewrite IH by done. f_equal.
  by rewrite decide_False by congruence.
Qed.
Lemma count_set f id g (l : list TaskRun) r :
  NoDup (run_id <$> l) → r ∈ l → run_id r = id →
  (count f ((λ r, if decide (run_id r = id) then g r else r) <$> l) + (if f r then 1 else 0) = count f l + (if f (g r) then 1 else 0))%nat.
Proof.
  intros Hnd [l1 [l2 ->]]%list_elem_of_split Hid. rewrite fmap_app in Hnd. csimpl in *. rewrite fmap_app. csimpl.
  apply NoDup_app in Hnd as (_ & Hdis & [Hl2 _]%NoDup_cons).
  rewrite !set_other; [|by rewrite <-Hid|intros Hl1; apply (Hdis _ Hl1); rewrite Hid; apply list_elem_of_here].
  rewrite decide_True by done. rewrite !count_app, !count_cons. lia.
Qed.
Lemma count_start f id now (l : list TaskRun) r :
  NoDup (run_id <$> l) → r ∈ l → run_id r = id →
  (count f (start_run id now <$> l) + (if f r then 1 else 0) = count f l + (if f (start_run id now r) then 1 else 0))%nat.
Proof.
  intros Hnd Hr Hid. unfold start_run at 2. rewrite decide_True by done.
  exact (count_set f id (λ r, r <| run_status := Starting |> <| heartbeat_at := Some now |> <| run_updated_at := now |>) l r Hnd Hr Hid).
Qed.
Lemma find_run_Some d id r : find_run d id = Some r → r ∈ db_runs d ∧ run_id r = id.
Proof.
  intros (l1 & l2 & Hl & Hid & _)%head_filter_Some. split; [|done]. rewrite Hl. apply elem_of_app. right. apply list_elem_of_here.
Qed.
Lemma count_set_run f id g d r :
  NoDup (run_id <$> db_runs d) → r ∈ db_runs d → run_id r = id →
  (count f (db_runs (set_run id g d)) + (if f r then 1 else 0) = count f (db_runs d) + (if f (g r) then 1 else 0))%nat.
Proof. apply count_set. Qed.
Lemma run_change_ids d d' : run_change d d' → run_id <$> db_runs d' = run_id <$> db_runs d.
Proof. intros [->|(id & f & -> & Hf)]; [done|]. by rewrite !run_ids_pairs, set_run_pairs. Qed.
Lemma run_change_max d d' : run_change d d' → max_parallel_runs d' = max_parallel_runs d.
Proof. by intros [->|(id & f & -> & Hf)]. Qed.

(** A change of status puts no Run into execution that was not there, unless it
    was queued. *)
Lemma guarded_update_occupies d id status f :
  NoDup (run_id <$> db_runs d) →
  (count occupies (db_runs (fst (guarded_update d id status f))) ≤ count occupies (db_runs d) + unclaimed d id status)%nat.
Proof.
  intros Hnd. unfold guarded_update, unclaimed. destruct (find_run d id) as [r|] eqn:Hfind; [|cbn [fst]; lia].
  destruct (terminal_run_transition_guard _ _) as [o|] eqn:Hguard; cbn [fst]; [lia|].
  apply find_run_Some in Hfind as [Hr Hid]. pose proof (count_set_run occupies id (λ r, (f r) <| run_status := status |>) _ r Hnd Hr Hid) as Hc.
  assert (occupies ((f r) <| run_status := status |>) = negb (is_terminal_run status) && negb (bool_decide (status = Queued))) as Hnew by done.
  assert (is_terminal_run (run_status r) = false) as Hold.
  { revert Hguard. unfold terminal_run_transition_guard. destruct (is_terminal_run (run_status r)); [|done]. simpl. by repeat case_match. }
  assert (occupies r = negb (bool_decide (run_status r = Queued))) as Hocc by (unfold occupies; by rewrite Hold).
  cbv beta in Hc. rewrite Hnew, Hocc in Hc.
  destruct (bool_decide (run_status r = Queued)), (negb (is_terminal_run status)), (negb (bool_decide (status = Queued))); simpl in *; lia.
Qed.
Lemma append_run_started_occupies d id now d' :
  NoDup (run_id <$> db_runs d) → append_run_started d id now = Some d' →
  (count occupies (db_runs d') ≤ count occupies (db_runs d) + unclaimed d id Running)%nat.
Proof.
  intros Hnd. unfold append_run_started. destruct (find_run d id) as [r|] eqn:Hfind; [|done]. simpl.
  do 3 (match goal with |- (if ?b then _ else _) = _ → _ => destruct b; [done|] end). intros [= <-]. unfold update_run_started. rewrite Hfind.
  destruct (decide (run_status r = Running)); [cbn [fst]; lia|]. by apply guarded_update_occupies.
Qed.
(** A resumed Run is the only one in execution. *)
Lemma resume_alone d id now d' :
  NoDup (run_id <$> db_runs d) → resume_blocked_run d id now = Some d' → count occupies (db_runs d') = 1%nat.
Proof.
  intros Hnd. unfold resume_blocked_run. destruct (find_run d id) as [r|] eqn:Hfind; [|done]. simpl.
  destruct (find_conflicting_successor_run d r) eqn:Hother; [done|]. case_decide as Hblocked; [|done]. intros [= <-].
  apply find_run_Some in Hfind as [Hr Hid].
  assert (count occupies (db_runs d) = 0%nat) as Hzero.
  { apply count_none. intros o Ho. unfold occupies. destruct (decide (run_id o = run_id r)) as [He|Hne].
    - assert (o = r) as ->; [|by rewrite Hblocked].
      apply list_elem_of_lookup_1 in Ho as [i Hi]. apply list_elem_of_lookup_1 in Hr as [j Hj].
      assert (i = j) as ->; [|congruence]. eapply (NoDup_lookup _ i j (run_id r) Hnd); rewrite list_lookup_fmap, ?Hi, ?Hj; simpl; congruence.
    - destruct (is_terminal_run (run_status o)) eqn:Ht; [done|]. exfalso. apply (head_filter_None _ _ Hother o Ho). split; [done|by right]. }
  match goal with |- count _ (db_runs (set_run _ ?g _)) = _ =>
    pose proof (count_set_run occupies id g _ r Hnd Hr Hid) as Hc; change (occupies (g r)) with true in Hc end.
  assert (occupies r = false) as Hr' by (unfold occupies; by rewrite Hblocked). rewrite Hr', Hzero in Hc. lia.
Qed.

Lemma claim_occupies d id now d' :
  NoDup (run_id <$> db_runs d) → claim d id now = Some d' →
  ∃ r, r ∈ db_runs d ∧ run_id r = id ∧ run_status r = Queued ∧
    count occupies (db_runs d') = S (count occupies (db_runs d)) ∧ max_parallel_runs d' = max_parallel_runs d ∧
    (count occupies (db_runs d) + count (waits_before now (run_number r)) (db_runs d) < max_parallel_runs d)%nat.
Proof.
  intros Hnd (r & Hr & Hid & Hq & Hcap & ->)%claim_spec. exists r. split_and!; [done..| |done|].
  - cbn [db_runs]. pose proof (count_start occupies id now (db_runs d) r Hnd Hr Hid) as Hc.
    assert (occupies r = false) as Hor by (unfold occupies; rewrite Hq; done). rewrite Hor in Hc.
    assert (occupies (start_run id now r) = true) as Hos by (unfold start_run, occupies; rewrite decide_True by done; done).
    rewrite Hos in Hc. simpl in *. lia.
  - unfold has_dispatch_capacity in Hcap. rewrite occupied_agree in Hcap. by apply bool_decide_eq_true in Hcap.
Qed.

(** A claim leaves room for every ready Run that was queued earlier. *)
Lemma claim_is_fair d id now d' r e :
  NoDup (run_id <$> db_runs d) → claim d id now = Some d' → r ∈ db_runs d → run_id r = id → e ∈ db_runs d →
  waits_before now (run_number r) e = true → has_dispatch_capacity d' e now = true.
Proof.
  intros Hnd Hclaim Hr Hid He Hw. destruct (claim_occupies _ _ _ _ Hnd Hclaim) as (r' & Hr' & Hid' & Hq & Hocc & Hmax & Hcap).
  assert (r' = r) as ->.
  { apply list_elem_of_lookup_1 in Hr as [i Hi]. apply list_elem_of_lookup_1 in Hr' as [j Hj].
    assert (i = j) as ->; [|congruence]. eapply (NoDup_lookup _ i j id Hnd); rewrite list_lookup_fmap, ?Hi, ?Hj; simpl; congruence. }
  unfold has_dispatch_capacity. rewrite occupied_agree, Hocc, Hmax. apply bool_decide_eq_true.
  assert (db_runs d' = start_run id now <$> db_runs d) as -> by (by apply claim_spec in Hclaim as (_ & _ & _ & _ & _ & ->)).
  unfold waits_before in Hw. rewrite !andb_true_iff, !bool_decide_eq_true in Hw. destruct Hw as [[Hqe Hlt] Hready].
  pose proof (count_start (waits_before now (run_number e)) id now (db_runs d) r Hnd Hr Hid) as Hset.
  assert (waits_before now (run_number e) r = false) as Hwr.
  { unfold waits_before. rewrite (bool_decide_false (run_number r < run_number e)) by lia. by rewrite andb_false_r. }
  assert (waits_before now (run_number e) (start_run id now r) = false) as Hws.
  { unfold start_run. rewrite decide_True by done. done. }
  rewrite Hwr, Hws in Hset.
  assert (count (waits_before now (run_number e)) (db_runs d) < count (waits_before now (run_number r)) (db_runs d))%nat; [|lia].
  apply (count_strict _ _ _ e); [|done| |].
  - intros q Hq'. unfold waits_before. rewrite !andb_true_iff, !bool_decide_eq_true. intros [[? ?] ?]. split; [split; [done|lia]|done].
  - unfold waits_before. rewrite (bool_decide_false (run_number e < run_number e)) by lia. by rewrite andb_false_r.
  - unfold waits_before. rewrite !andb_true_iff, !bool_decide_eq_true. done.
Qed.

(** The limit is kept up to the Runs started without a claim and the places a
    lowered limit took away. *)
Record capacity_ok (s : System) : Prop := {
  cap_ids : NoDup (run_id <$> db_runs (db s));
  cap_pending : ∀ p r, p ∈ pending s → r ∈ ws_runs (pass_write p) → run_status r = Queued;
  cap_occupied : (count occupies (db_runs (db s)) ≤ max_parallel_runs (db s) + overdraft s)%nat;
}.
Lemma capacity_run_change s d' o :
  capacity_ok s → run_change (db s) d' → (count occupies (db_runs d') ≤ max_parallel_runs (db s) + o)%nat →
  capacity_ok ((update_db d' s) <| overdraft := o |>).
Proof.
  intros [Hnd Hpend _] Hd Ho. split; cbn; [by rewrite (run_change_ids _ _ Hd)|done|by rewrite (run_change_max _ _ Hd)].
Qed.
Lemma max_positive d : (1 ≤ max_parallel_runs d)%nat.
Proof. unfold max_parallel_runs. lia. Qed.
Lemma capacity_step s s' : capacity_ok s → step s s' → capacity_ok s'.
Proof.
  intros Hok Hstep. pose proof Hok as [Hnd Hpend Hocc]. destruct Hstep as
    [s ids contract t now armed ws Ht Hnow Hws|s p d' Hp Hcommit Hnd'|s rid now d' Hclaim|s rid now d' Hrun|s rid status now|s rid status now
    |s rid now d' Hrun|s r Hqueued Hfresh|s t new now t' _ _ _|s t now _|s t now t' _ _ _|s t status now _ _|s now t|s limit d'|s status finish];
    try by split.
  - split; cbn; [done| |done]. intros p r [->|Hp]%elem_of_cons; [|by apply Hpend]. by apply (sh_runs _ _ (process_trigger_shaped _ _ _ _ _ _ _ Hws)).
  - split; cbn; [done|done|]. apply commit_spec in Hcommit as (-> & _).
    change (count occupies (db_runs (db s) ++ ws_runs (pass_write p)) ≤ max_parallel_runs (db s) + overdraft s)%nat.
    rewrite count_app, (count_none _ (ws_runs _)); [lia|]. intros r Hr. unfold occupies. by rewrite (Hpend p r Hp Hr).
  - apply capacity_run_change; [done|by eapply claim_change|]. destruct (claim_occupies _ _ _ _ Hnd Hclaim) as (r & _ & _ & _ & -> & _ & Hcap). lia.
  - apply capacity_run_change; [done|by eapply append_run_started_change|]. pose proof (append_run_started_occupies _ _ _ _ Hnd Hrun). lia.
  - apply capacity_run_change; [done|by apply guarded_update_change|]. pose proof (guarded_update_occupies (db s) rid status (λ r, r <| run_updated_at := now |>) Hnd).
    unfold update_run_status. lia.
  - apply capacity_run_change; [done|by apply guarded_update_change|].
    pose proof (guarded_update_occupies (db s) rid status (λ r, r <| completed_at := Some now |> <| run_updated_at := now |>) Hnd). unfold update_run_result. lia.
  - apply capacity_run_change; [done|by eapply resume_blocked_run_change|]. rewrite (resume_alone _ _ _ _ Hnd Hrun). pose proof (max_positive (db s)). lia.
  - split; cbn; [|done|].
    + rewrite fmap_app. apply NoDup_app. split; [done|]. split; [|apply NoDup_singleton]. by intros i Hi ->%list_elem_of_singleton.
    + change (count occupies (db_runs (db s) ++ [r]) ≤ max_parallel_runs (db s) + overdraft s)%nat.
      rewrite count_app, (count_none _ [r]); [lia|]. intros q ->%list_elem_of_singleton. unfold occupies. by rewrite Hqueued.
  - split; cbn; [done|done|]. unfold count in Hocc. lia.
Qed.

(** C14: however passes, commits, claims, starts, changes of Runs, resumptions and
    changes of the policy interleave, a Task has no more Runs in execution than
    its limit allows, apart from the Runs that were started while queued,
    without a claim, and the places a lowered limit took away since a Run was
    last claimed or resumed. A claim brings the Task back within its limit and
    never takes the place of a ready Run queued earlier, which can still be
    claimed; a resumed Run is the only one in execution. *)
Theorem dispatch_within_capacity d s :
  NoDup (run_id <$> db_runs d) → (count occupies (db_runs d) ≤ max_parallel_runs d)%nat → rtc step (initial d) s →
  (count occupies (db_runs (db s)) ≤ max_parallel_runs (db s) + overdraft s)%nat ∧
  (∀ id now d', claim (db s) id now = Some d' →
    (count occupies (db_runs d') ≤ max_parallel_runs d')%nat ∧
    ∀ r e, r ∈ db_runs (db s) → run_id r = id → e ∈ db_runs (db s) → waits_before now (run_number r) e = true → has_dispatch_capacity d' e now = true) ∧
  (∀ id now d', resume_blocked_run (db s) id now = Some d' → count occupies (db_runs d') = 1%nat).
Proof.
  intros Hnd Hocc Hs. destruct (invariant_rtc step capacity_ok capacity_step _ _ Hs) as [Hnd' _ Hocc'].
  { split; cbn; [done|by intros p r ?%elem_of_nil|lia]. }
  split; [done|]. split.
  - intros id now d' Hclaim. split; [|intros r e; by apply claim_is_fair].
    destruct (claim_occupies _ _ _ _ Hnd' Hclaim) as (r & _ & _ & _ & -> & -> & Hcap). lia.
  - intros id now d'. by apply resume_alone.
Qed.
End capacity.

(** ** A catch-up that can never be written *)
Section refused.
Context `{ChronoLaws, SpecJson}.

(** The first 32 points of a grid. *)
Lemma grid_points n step : 0 < step → NoDup ((λ k, n + Z.of_nat k * step) <$> seq 0 32).
Proof. intros Hs. apply NoDup_fmap_2_strong; [|apply NoDup_seq]. intros j k _ _ Hjk. nia. Qed.
Lemma many_fires P n now step limit l :
  0 < step → (∀ k, 0 ≤ k → P (n + k * step)) → n + 31 * step ≤ now → (32 ≤ limit)%nat →
  first_fires P n now limit l → (32 ≤ length l)%nat.
Proof.
  intros Hs HP Hnow Hlimit (_ & _ & _ & Hcover). destruct (decide (32 ≤ length l)%nat) as [|Hlt]; [done|].
  change 32%nat with (length ((λ k, n + Z.of_nat k * step) <$> seq 0 32)).
  apply submseteq_length, NoDup_submseteq; [by apply grid_points|].
  intros u (k & -> & Hk%elem_of_seq)%list_elem_of_fmap.
  destruct (Hcover (n + Z.of_nat k * step)) as [|[Hfull _]]; [apply HP; lia|nia|done|lia].
Qed.

(** an interval trigger that runs all missed fires cannot catch up 32 of them
    at once, although 32 is the default limit: two events for each Run and one
    for the trigger exceed the 64 events of an atomic batch, so every commit of
    such a pass is refused and the trigger keeps its cursor. *)
Theorem full_catch_up_refused ids d contract t now armed base anchor step p n ws :
  spec t = Interval step anchor p → schedule_ok (spec t) → next_fire_at t = Some n → occurs (spec t) base n → 0 ≤ n →
  mode (catch_up_policy_for_trigger t) = RunAllMissed → (32 ≤ run_all_limit (catch_up_policy_for_trigger t))%N →
  n + 31 * step ≤ now ≤ CHRONO_MAX →
  (count (λ r, negb (is_terminal_run (run_status r))) (db_runs d) + 32 ≤ max_parallel_runs d)%nat →
  process_trigger ids (Some d) contract t now armed = Ok (Write ws) →
  ∀ d', commit d' ws = Err (Bail "atomic Task event batch exceeds 64 events").
Proof.
  intros Hspec Hok Hnext Hocc Hn Hmode Hlimit Hnow Hfree Hprocess d'.
  assert (is_recurring_trigger t = true) as Hr by (unfold is_recurring_trigger, trigger_kind; by rewrite Hspec).
  pose proof Hok as Hok'. rewrite Hspec in Hok'. destruct (interval_ok _ _ _ Hok') as (Hstep & Hmax & _).
  pose proof (process_trigger_sound t base n now Hr Hok Hnext Hocc Hn ltac:(lia) ids d contract armed ws Hprocess) as (Hsnap & _ & Hlen & _).
  revert Hprocess. unfold process_trigger. case_match eqn:Hactive; [done|]. repeat (case_match; [done|]).
  apply negb_false_iff, bool_decide_eq_true in Hactive.
  intros (plan & Hplan%schedule_error_Ok & H')%bind_Ok.
  rewrite (bool_decide_false (max_parallel_runs d ≤ _)%nat) in H' by lia. cbn [andb] in H'.
  destruct (consume_plan ids d t plan _ now) as [ws'|] eqn:Hw; [|done]. injection H' as <-.
  assert (32 ≤ length (fire_times plan))%nat as Hfires.
  { pose proof (due_plan_exact t base n now armed Hr Hok Hnext Hocc ltac:(lia) ltac:(lia)) as Hx. rewrite Hplan in Hx.
    destruct Hx as [(_ & Hno & _)|(_ & _ & l & x & _ & _ & Hx)].
    - exfalso. apply (Hno (n + step)); [lia|]. rewrite Hspec in *. simpl in *.
      by apply (grid_step (default base anchor) step n).
    - rewrite Hmode in Hx. destruct Hx as (Hx & _). revert Hx. apply (many_fires _ n now step); [done| |lia|lia].
      intros k Hk. rewrite Hspec in *. simpl in *. apply (on_grid_shift (default base anchor) step n); [done|done|nia|].
      apply on_grid_multiple; [done|]. by exists k. }
  assert (32 ≤ length (ws_runs ws'))%nat as Hruns.
  { rewrite Hlen. revert Hw. unfold consume_plan. intros (t' & _ & H')%bind_Ok.
    apply bind_Ok in H' as (number & _ & H'). apply bind_Ok in H' as (runs & _ & [= <-]). cbn [ws_fires]. rewrite length_take. lia. }
  unfold commit, events_of, MAX_ATOMIC_TASK_EVENT_BATCH_SIZE. rewrite Hsnap, Hnext, bool_decide_true by done. cbn [negb].
  rewrite (bool_decide_true (64 < 2 * length (ws_runs ws') + 1)%nat) by lia. done.
Qed.
End refused.

(** ** The theorems at concrete inputs *)
Module Sample.
Import SampleCalendar.
#[local] Existing Instance sample_chrono.
#[local] Existing Instance sample_chrono_laws.
(** A code of a specification: its kind, and the fields of a recurring one. *)
Definition mode_code (m : TaskTriggerCatchUpMode) : N :=
  match m with RunOnceForLatestMissed => 0 | SkipMissed => 1 | RunAllMissed => 2 end.
Definition policy_code (p : option TaskTriggerCatchUpPolicy) : option (N * option N) := (λ p, (mode_code (mode p), max_count p)) <$> p.
#[local] Instance sample_spec_json : SpecJson := λ s,
  match s with
  | Interval step anchor p => [1; Npos (encode (step, anchor, policy_code p))]%N
  | Cron expr timezone p => [2; Npos (encode (expr, timezone, policy_code p))]%N
  | _ => [0%N]
  end.
Lemma policy_code_inj p q : policy_code p = policy_code q → p = q.
Proof.
  destruct p as [[[] ?]|], q as [[[] ?]|]; simpl; try done; unfold policy_code; simpl; intros [=]; by subst.
Qed.
#[local] Instance sample_spec_json_laws : SpecJsonLaws.
Proof.
  intros [] [] Hs Heq; try (by destruct Hs); try done; unfold spec_json, sample_spec_json in Heq;
    injection Heq as Heq; apply (inj encode) in Heq; injection Heq as -> -> ->%policy_code_inj; done.
Qed.

Definition every_minute (max_count : option N) : TaskTrigger :=
  {| webhook_secret_ref := None; trigger_id := "trigger"; task_id := "task"; trigger_status := Active;
     spec := Interval 60 None (Some {| mode := RunAllMissed; max_count := max_count |});
     next_fire_at := Some 1790931600; last_fire_at := None; created_at := 1790931540; updated_at := 1790931540 |}.
Definition sample_db (parallel : N) : Db :=
  {| db_task_status := Scheduled; db_finish_requested := false; db_max_parallel_runs := Some parallel; db_executor_kind := ExecAgent;
     db_trigger := every_minute None; db_runs := [] |}.
Definition sample_ids (i : nat) : string := String (Ascii.ascii_of_nat (65 + i)) "".
Definition written (r : result SchedulerError Decision) : WriteSet :=
  match r with
  | Ok (Write ws) => ws
  | _ => {| ws_snapshot := every_minute None; ws_now := 0; ws_runs := []; ws_trigger := every_minute None; ws_reason := TriggerFired; ws_fires := [] |}
  end.
(** Two minutes late with room for two Runs, two of the three passed fires run. *)
Definition first_write : WriteSet :=
  written (process_trigger sample_ids (Some (sample_db 2)) true (every_minute None) 1790931720 false).
Example first_write_fires : ws_fires first_write = [1790931600; 1790931660] ∧ next_fire_at (ws_trigger first_write) = Some 1790931720.
Proof. split; vm_compute; reflexivity. Qed.
Definition after_commit : Db :=
  (sample_db 2) <| db_trigger := ws_trigger first_write |> <| db_runs := ws_runs first_write |>.
Definition first_pass : Pass := {| pass_db := sample_db 2; pass_write := first_write |}.
Definition prepared : System := (initial (sample_db 2)) <| pending := [first_pass] |>.
Definition committed : System := committed_pass first_pass after_commit prepared.

Lemma sample_system_reachable : rtc step (initial (sample_db 2)) committed.
Proof.
  eapply rtc_l. { apply (step_prepare (initial (sample_db 2)) sample_ids true (every_minute None) 1790931720 false first_write);
    [by apply list_elem_of_singleton|unfold CHRONO_MAX; lia|vm_compute; reflexivity]. }
  eapply rtc_l; [|apply rtc_refl].
  apply (step_commit prepared first_pass after_commit).
  - by apply list_elem_of_singleton.
  - vm_compute. reflexivity.
  - apply (bool_decide_unpack _). vm_compute. exact I.
Qed.
Lemma every_minute_ok count : count ≠ Some 0%N → schedule_ok (spec (every_minute count)).
Proof.
  intros Hc. split; [|unfold CHRONO_MAX, I64_MAX; simpl; lia]. unfold validate. simpl. by rewrite bool_decide_false by done.
Qed.

(** With both Runs still queued, the next pass writes none and the trigger passes
    over the fires that are due. *)
Definition second_write : WriteSet :=
  written (process_trigger sample_ids (Some after_commit) true (db_trigger after_commit) 1790931780 false).
Example second_write_passes_over :
  ws_runs second_write = [] ∧ ws_reason second_write = MissedFireSkipped ∧ next_fire_at (ws_trigger second_write) = Some 1790931840.
Proof. split_and!; vm_compute; reflexivity. Qed.
(** A Run that is started without a claim is not checked against the limit. *)
Definition started_twice : option Db :=
  d ← append_run_started (after_commit <| db_max_parallel_runs := Some 1%N |>) "A" 1790931720; append_run_started d "C" 1790931720.
Example starts_exceed_the_limit : option_map (λ d, (count occupies (db_runs d), max_parallel_runs d)) started_twice = Some (2%nat, 1%nat).
Proof. vm_compute. reflexivity. Qed.

Lemma scheduled_fires_exactly_once_witness :
  fired committed = [(1790931600, "A"); (1790931660, "C")] ∧
  ∀ u, occurs (spec (every_minute None)) 1790931600 u → 1790931600 ≤ u < 1790931720 → u ∈ (fired committed).*1.
Proof.
  split; [vm_compute; reflexivity|]. intros u Hu Hr.
  pose proof (scheduled_fires_exactly_once (sample_db 2) committed
    ltac:(split; [done|intros _; exists 1790931600; split_and!; [done|by split|lia]]) ltac:(constructor) sample_system_reachable)
    as (_ & _ & _ & Hh).
  destruct Hh as (base & c & Hb & Hc & _ & _ & _ & _ & Hall).
  { split; [done|]. split; [done|]. by apply (every_minute_ok None). }
  injection Hb as <-. injection Hc as <-. destruct (Hall eq_refl u Hu Hr) as [|(p & n & x & Hp & _)]; [done|].
  exfalso. revert Hp. apply not_elem_of_nil.
Defined.

Lemma dispatch_within_capacity_witness :
  (count occupies (db_runs (db committed)) ≤ max_parallel_runs (db committed))%nat ∧
  claim (db committed) "C" 1790931720 ≠ None.
Proof.
  split; [|vm_compute; done].
  destruct (dispatch_within_capacity (sample_db 2) committed ltac:(constructor) ltac:(vm_compute; lia) sample_system_reachable) as [Hlimit _].
  by rewrite Nat.add_0_r in Hlimit.
Defined.

Definition crowded_write : WriteSet :=
  written (process_trigger sample_ids (Some (sample_db 40)) true (every_minute None) 1790933460 false).
Lemma full_catch_up_refused_witness :
  commit (sample_db 40) crowded_write = Err (Bail "atomic Task event batch exceeds 64 events").
Proof.
  apply (full_catch_up_refused sample_ids (sample_db 40) true (every_minute None) 1790933460 false 1790931600 None 60
    (Some {| mode := RunAllMissed; max_count := None |}) 1790931600).
  - reflexivity.
  - by apply every_minute_ok.
  - reflexivity.
  - split; [done|reflexivity].
  - lia.
  - reflexivity.
  - vm_compute. done.
  - unfold CHRONO_MAX. lia.
  - vm_compute. lia.
  - vm_compute. reflexivity.
Defined.
End Sample.
