(* ===== verification/SkillPaths.v ===== *)
(** * The path rules of skills

    Models [crates/skills/src/path_match.rs]: a pattern and a path are cut into
    segments, a star in a segment stands for any text of that segment, and a
    segment of two stars for any number of segments. The reference the matcher
    is compared with is the usual meaning of such a pattern, an inductive
    relation without any search. *)
From S2P Require Import Prelude TextSplit.
Local Open Scope N_scope.

Definition SLASH : N := 47.
Definition BACKSLASH : N := 92.
Definition STAR : N := 42.

(** [normalize]: [str::replace], [split], [filter]. *)
Definition normalize (input : text) : list text :=
  filter (λ segment, segment ≠ [] ∧ segment ≠ lit ".")
    (split_on SLASH ((λ c, if decide (c = BACKSLASH) then SLASH else c) <$> input)).

(** [str::find(part)], then the slice that follows what was found. *)
Fixpoint after (part s : text) : option text :=
  match strip_prefix part s, s with
  | Some rest, _ => Some rest
  | None, _ :: s => after part s
  | None, [] => None
  end.

(** The loop over the parts of a pattern, with its variables [rest] and [first];
    [anchored] is the negation of [pattern.starts_with('*')]. *)
Fixpoint match_parts (anchored first : bool) (parts : list text) (rest : text) : bool :=
  match parts with
  | [] => true
  | [] :: parts => match_parts anchored first parts rest
  | part :: parts =>
      if first && anchored then
        match strip_prefix part rest with
        | Some rest => match_parts anchored false parts rest
        | None => false
        end
      else
        match after part rest with
        | Some rest => match_parts anchored false parts rest
        | None => false
        end
  end.
Definition segment_matches (pattern value : text) : bool :=
  if decide (pattern = lit "*") then true
  else if decide (STAR ∉ pattern) then bool_decide (pattern = value)
  else
    match_parts (negb (starts_with [STAR] pattern)) true (split_on STAR pattern) value &&
    (if ends_with [STAR] pattern then true
     else match last (split_on STAR pattern) with
          | Some part => ends_with part value
          | None => true
          end).

Fixpoint matches_recursive (pattern path : list text) : bool :=
  match pattern with
  | [] => bool_decide (path = [])
  | segment :: pattern =>
      if decide (segment = lit "**") then
        if decide (pattern = []) then true
        else existsb (λ consumed, matches_recursive pattern (drop consumed path)) (seq 0 (S (length path)))
      else
        match path with
        | [] => false
        | value :: path => if segment_matches segment value then matches_recursive pattern path else false
        end
  end.

Definition path_matches_pattern (pattern path : text) : bool :=
  matches_recursive (normalize pattern) (normalize path).
Definition path_matches_any_pattern (patterns : list text) (path : text) : bool :=
  existsb (λ pattern, path_matches_pattern pattern path) patterns.

(** ** What a pattern means *)

(** A segment: a star is any text, every other character itself. *)
Inductive glob : text → text → Prop :=
  | glob_end : glob [] []
  | glob_char c p v : c ≠ STAR → glob p v → glob (c :: p) (c :: v)
  | glob_star p u v : glob p v → glob (STAR :: p) (u ++ v).
(** The segments of a pattern. *)
Inductive path_glob : list text → list text → Prop :=
  | path_end : path_glob [] []
  | path_segment p v ps vs : p ≠ lit "**" → glob p v → path_glob ps vs → path_glob (p :: ps) (v :: vs)
  | path_any ps us vs : path_glob ps vs → path_glob (lit "**" :: ps) (us ++ vs).

(** The segments a text spells: both slashes separate, an empty segment and a
    single point say nothing. *)
Definition separator (c : N) : Prop := c = SLASH ∨ c = BACKSLASH.
#[export] Instance separator_dec c : Decision (separator c).
Proof. unfold separator. apply _. Defined.
Definition kept (s : text) : list text := if decide (s = [] ∨ s = lit ".") then [] else [s].
Inductive spells : text → list text → Prop :=
  | spells_last s : Forall (λ c, ¬ separator c) s → spells s (kept s)
  | spells_more s c t l :
      Forall (λ c, ¬ separator c) s → separator c → spells t l → spells (s ++ c :: t) (kept s ++ l).

(** ** The segments *)

Lemma after_step part s :
  after part s = match strip_prefix part s with
                 | Some rest => Some rest
                 | None => match s with [] => None | _ :: s => after part s end
                 end.
Proof. destruct s; cbn [after]; by destruct (strip_prefix _ _). Qed.
Lemma after_sound part s r : after part s = Some r → ∃ u, s = u ++ part ++ r.
Proof.
  induction s as [|c s IH]; simpl; destruct (strip_prefix part _) as [r'|] eqn:Hp; try done.
  - intros [= <-]. apply strip_prefix_Some in Hp. by exists [].
  - intros [= <-]. apply strip_prefix_Some in Hp. by exists [].
  - intros (u & ->)%IH. by exists (c :: u).
Qed.
(** [find] finds the leftmost occurrence: whatever follows another occurrence is
    at the end of what follows this one. *)
Lemma after_leftmost part u r : ∃ x, after part (u ++ part ++ r) = Some (x ++ r).
Proof.
  induction u as [|c u [x IH]]; cbn [app].
  - exists []. by rewrite after_step, strip_prefix_app.
  - cbn [after]. destruct (strip_prefix part _) as [r'|] eqn:Hp; [|eauto].
    apply strip_prefix_Some in Hp. exists (take (S (length u)) r').
    enough (r = drop (S (length u)) r') as Hr by by rewrite Hr at 1; rewrite take_drop.
    change (c :: u ++ part ++ r) with ((c :: u) ++ part ++ r) in Hp. rewrite (assoc_L (++)) in Hp.
    apply (f_equal (drop (length part + S (length u)))) in Hp.
    rewrite (drop_app_length' (_ ++ _)) in Hp by (rewrite length_app; simpl; lia).
    rewrite Hp, drop_app_ge by lia. f_equal. lia.
Qed.

(** The parts between the stars, in order, with any text before each. *)
Fixpoint stars (parts : list text) (v : text) : Prop :=
  match parts with
  | [] => v = []
  | part :: parts => ∃ u w, v = u ++ part ++ w ∧ stars parts w
  end.
Definition parts_glob (parts : list text) (v : text) : Prop :=
  match parts with
  | [] => False
  | part :: parts => ∃ w, v = part ++ w ∧ stars parts w
  end.

Lemma stars_prepend part parts u w : stars (part :: parts) w → stars (part :: parts) (u ++ w).
Proof. intros (u' & w' & -> & Hw). exists (u ++ u'), w'. by rewrite (assoc_L (++)). Qed.
Lemma glob_parts p v : glob p v ↔ parts_glob (split_on STAR p) v.
Proof.
  revert v; induction p as [|c p IH]; intros v.
  - simpl. split; [inversion 1; eauto|]. intros (w & -> & ->). constructor.
  - cbn [split_on]. destruct (split_on_cons STAR p) as (part & parts & Hs). rewrite Hs in *.
    destruct (decide (c = STAR)) as [->|Hc].
    + split.
      * inversion 1 as [| |? u v' Hg]; subst; [done|]. apply IH in Hg as (w & -> & Hw).
        exists (u ++ part ++ w). split; [done|]. by exists u, w.
      * intros (w & -> & u & w' & -> & Hw). cbn [app]. apply glob_star, IH. by exists w'.
    + split.
      * inversion 1 as [|? ? ? ? Hg|]; subst; [|done]. apply IH in Hg as (w & -> & Hw). by exists w.
      * intros (w & -> & Hw). cbn [app]. apply glob_char; [done|]. apply IH. by exists w.
Qed.

(** The search of the loop without the anchor. *)
Fixpoint search_parts (parts : list text) (s : text) : bool :=
  match parts with
  | [] => true
  | part :: parts => match after part s with Some rest => search_parts parts rest | None => false end
  end.
Lemma after_nil s : after [] s = Some s.
Proof. by destruct s. Qed.
Lemma match_parts_search anchored first parts s :
  first && anchored = false → match_parts anchored first parts s = search_parts parts s.
Proof.
  revert first s; induction parts as [|[|c part] parts IH]; intros first s Hf; cbn [match_parts search_parts]; [done| |].
  - rewrite after_nil. by apply IH.
  - rewrite Hf. destruct (after (c :: part) s); [|done]. by apply IH.
Qed.

Lemma match_parts_anchored c q parts s :
  match_parts true true ((c :: q) :: parts) s =
  match strip_prefix (c :: q) s with Some rest => search_parts parts rest | None => false end.
Proof. cbn [match_parts andb]. destruct (strip_prefix _ s); [|done]. by apply match_parts_search. Qed.

(** The leftmost search and the check of the end find a way through the parts
    whenever there is one. *)
Lemma search_complete parts pre s part :
  last parts = Some part →
  (search_parts parts s = true ∧ ∃ u, pre ++ s = u ++ part) ↔ stars parts s.
Proof.
  revert pre s; induction parts as [|q parts IH]; intros pre s Hl; [done|]. cbn [search_parts].
  destruct parts as [|q' parts].
  - injection Hl as ->. split.
    + intros [Hs [u Hu]]. destruct (after part s) as [r|] eqn:Ha; [|done].
      apply after_sound in Ha as [u' Hs']. exists (take (length s - length part) s), [].
      split; [|done]. rewrite app_nil_r. rewrite <-(take_drop (length s - length part) s) at 1. f_equal.
      assert (length part ≤ length s)%nat as Hp by (rewrite Hs', !length_app; lia).
      pose proof (f_equal length Hu) as Hlen. rewrite !length_app in Hlen.
      apply (f_equal (drop (length u))) in Hu. rewrite drop_app_length in Hu.
      transitivity (drop (length u) (pre ++ s)); [rewrite drop_app_ge by lia; f_equal; lia|done].
    + intros (u & w & -> & Hw). cbn [stars] in Hw. subst w. rewrite app_nil_r. destruct (after_leftmost part u []) as [x Hx].
      rewrite app_nil_r in Hx. rewrite Hx. split; [done|]. exists (pre ++ u). apply (assoc_L (++)).
  - split.
    + intros [Hs Hu]. destruct (after q s) as [r|] eqn:Ha; [|done].
      apply after_sound in Ha as [u' ->]. exists u', r. split; [done|].
      apply (IH (pre ++ u' ++ q)); [done|]. split; [done|]. by rewrite <-!(assoc_L (++)).
    + intros (u & w & -> & Hw). destruct (after_leftmost q u w) as [x Hx]. rewrite Hx.
      apply (stars_prepend _ _ x) in Hw.
      apply after_sound in Hx as [u' Hx]. rewrite Hx. rewrite !(assoc_L (++)).
      apply (IH ((pre ++ u') ++ q)) in Hw; [|done]. by rewrite !(assoc_L (++)) in Hw.
Qed.

Lemma join_with_last sep q parts part :
  last parts = Some part → ∃ u, join_with sep (q :: parts) = u ++ sep :: part.
Proof.
  revert q; induction parts as [|q' parts IH]; intros q Hl; [done|]. destruct parts as [|q'' parts].
  - injection Hl as ->. by exists q.
  - destruct (IH q' Hl) as [u Hu]. exists (q ++ sep :: u). cbn [join_with] in *. rewrite Hu.
    by rewrite <-(assoc_L (++)).
Qed.
Lemma starts_with_star q s : STAR ∉ q → starts_with [STAR] (q ++ STAR :: s) = bool_decide (q = []).
Proof.
  intros Hq. apply eq_bool_prop_intro. rewrite !Is_true_true, starts_with_spec, bool_decide_eq_true. split.
  - intros [r Hr]. destruct q as [|c q]; [done|]. injection Hr as -> _. by apply not_elem_of_cons in Hq as [? _].
  - intros ->. by exists s.
Qed.
Lemma ends_with_star u q : STAR ∉ q → ends_with [STAR] (u ++ STAR :: q) = bool_decide (q = []).
Proof.
  intros Hq. apply eq_bool_prop_intro. rewrite !Is_true_true, ends_with_spec, bool_decide_eq_true. split.
  - intros [r Hr]. destruct q as [|c q _] using rev_ind; [done|].
    change (STAR :: q ++ [c]) with ((STAR :: q) ++ [c]) in Hr. rewrite (assoc_L (++)) in Hr.
    apply app_inj_tail in Hr as [_ ->]. rewrite elem_of_app, list_elem_of_singleton in Hq. naive_solver.
  - intros ->. by exists u.
Qed.

(** The matcher of a segment decides the meaning of a pattern. *)
Lemma segment_matches_glob p v : segment_matches p v = true ↔ glob p v.
Proof.
  unfold segment_matches. case_decide as Hstar.
  { subst p. split; [intros _|done]. rewrite <-(app_nil_r v). apply glob_star, glob_end. }
  rewrite glob_parts. destruct (split_on_pieces STAR p) as [Hpieces Hjoin].
  destruct (split_on_cons STAR p) as (q & parts & Hs). case_decide as Hin.
  { rewrite split_on_single, bool_decide_eq_true by done. cbn [parts_glob stars]. split.
    - intros ->. exists []. by rewrite app_nil_r.
    - intros (w & -> & ->). by rewrite app_nil_r. }
  rewrite Hs in *. apply Forall_cons in Hpieces as [Hq Hparts].
  destruct parts as [|q' parts]; [by subst p|].
  destruct (last (q' :: parts)) as [l|] eqn:Hl; [|by apply last_None in Hl].
  assert (STAR ∉ l) as Hnl by (apply (proj1 (Forall_forall _ _) Hparts), last_Some_elem_of, Hl).
  assert (starts_with [STAR] p = bool_decide (q = [])) as Hsw by (rewrite <-Hjoin; by apply starts_with_star).
  destruct (join_with_last STAR q (q' :: parts) l Hl) as [u Hu].
  assert (ends_with [STAR] p = bool_decide (l = [])) as Hew by (rewrite <-Hjoin, Hu; by apply ends_with_star).
  change (last (q :: q' :: parts)) with (last (q' :: parts)). rewrite Hsw, Hew, Hl, andb_true_iff.
  assert (match_parts (negb (bool_decide (q = []))) true (q :: q' :: parts) v = true ↔
          ∃ w, v = q ++ w ∧ search_parts (q' :: parts) w = true) as ->.
  { destruct q as [|c q].
    - rewrite bool_decide_true, match_parts_search by done.
      change (search_parts ([] :: ?ps) v) with (match after [] v with Some r => search_parts ps r | None => false end).
      rewrite after_nil. naive_solver.
    - rewrite bool_decide_false by done. cbn [negb]. rewrite match_parts_anchored.
      destruct (strip_prefix (c :: q) v) as [w|] eqn:Hp.
      + apply strip_prefix_Some in Hp as ->. split; [eauto|].
        intros (w' & Hw%app_inv_head & ?). by subst.
      + split; [done|]. intros (w & -> & _). by rewrite strip_prefix_app in Hp. }
  assert ((if bool_decide (l = []) then true else ends_with l v) = true ↔ ∃ u, v = u ++ l) as ->.
  { case_bool_decide as Hnil; [|apply ends_with_spec]. subst l. split; [|done]. exists v. by rewrite app_nil_r. }
  cbn [parts_glob]. setoid_rewrite <-(search_complete (q' :: parts) q _ l Hl). naive_solver.
Qed.

Lemma matches_recursive_glob pattern path : matches_recursive pattern path = true ↔ path_glob pattern path.
Proof.
  revert path; induction pattern as [|p ps IH]; intros path; cbn [matches_recursive].
  { rewrite bool_decide_eq_true. split; [intros ->; constructor|by inversion 1]. }
  case_decide as Hany; [subst p|].
  - assert (path_glob (lit "**" :: ps) path ↔ ∃ n, (n ≤ length path)%nat ∧ path_glob ps (drop n path)) as ->.
    { split.
      - inversion 1 as [| |? us vs Hg]; subst; [done|]. exists (length us). rewrite length_app, drop_app_length.
        split; [lia|done].
      - intros (n & _ & Hg). rewrite <-(take_drop n path). by apply path_any. }
    case_decide as Hps.
    + subst ps. split; [intros _|done]. exists (length path). rewrite drop_all. split; [done|constructor].
    + rewrite existsb_elem. setoid_rewrite list_elem_of_In. setoid_rewrite in_seq. setoid_rewrite IH.
      split; intros (n & ? & ?); exists n; split; auto; lia.
  - destruct path as [|v vs].
    + split; [done|]. by inversion 1; subst.
    + destruct (segment_matches p v) eqn:Hm.
      * rewrite IH. apply segment_matches_glob in Hm. split; [by constructor|]. by inversion 1; subst.
      * split; [done|]. inversion 1 as [|? ? ? ? ? Hg|]; subst; [|done].
        apply segment_matches_glob in Hg. congruence.
Qed.

(** ** Reading a text as segments *)

Definition to_slash (c : N) : N := if decide (c = BACKSLASH) then SLASH else c.
Lemma to_slash_piece s : Forall (λ c, ¬ separator c) s → to_slash <$> s = s ∧ SLASH ∉ s.
Proof.
  induction 1 as [|c s Hc Hs [IH Hin]]; [split; [done|apply not_elem_of_nil]|]. unfold separator in Hc. split.
  - cbn. rewrite IH. unfold to_slash. rewrite decide_False by tauto. done.
  - apply not_elem_of_cons. split; [intros <-; tauto|done].
Qed.
Lemma normalize_more s c t :
  Forall (λ c, ¬ separator c) s → separator c → normalize (s ++ c :: t) = kept s ++ normalize t.
Proof.
  intros [Hs Hin]%to_slash_piece Hc. unfold normalize. fold to_slash. rewrite fmap_app, Hs. cbn.
  assert (to_slash c = SLASH) as -> by (destruct Hc as [-> | ->]; reflexivity).
  rewrite split_on_app by done. rewrite filter_cons. unfold kept.
  repeat case_decide; naive_solver.
Qed.
Lemma normalize_last s : Forall (λ c, ¬ separator c) s → normalize s = kept s.
Proof.
  intros [Hs Hin]%to_slash_piece. unfold normalize. fold to_slash. rewrite Hs, split_on_single by done.
  rewrite filter_cons. unfold kept. repeat case_decide; naive_solver.
Qed.
Lemma first_separator t :
  Forall (λ c, ¬ separator c) t ∨
  ∃ s c t', t = s ++ c :: t' ∧ Forall (λ c, ¬ separator c) s ∧ separator c.
Proof.
  induction t as [|c t IH]; [left; constructor|].
  destruct (decide (separator c)) as [Hc|Hc]; [right; exists [], c, t; split_and!; [done|constructor|done]|].
  destruct IH as [IH|(s & d & t' & -> & ? & ?)]; [left; by constructor|].
  right. exists (c :: s), d, t'. split_and!; [done|by constructor|done].
Qed.
Lemma normalize_spells t l : spells t l ↔ normalize t = l.
Proof.
  split.
  - induction 1 as [s Hs|s c t l Hs Hc Ht IH]; [by apply normalize_last|]. by rewrite normalize_more, IH.
  - intros <-. induction t as [t IH] using (induction_ltof1 _ (@length N)). unfold ltof in IH.
    destruct (first_separator t) as [Hs|(s & c & t' & -> & Hs & Hc)].
    + rewrite normalize_last by done. by constructor.
    + rewrite normalize_more by done. constructor; [done..|]. apply IH. rewrite length_app. simpl. lia.
Qed.

Lemma path_matches_any_spec patterns path :
  path_matches_any_pattern patterns path = true ↔ ∃ pattern, pattern ∈ patterns ∧ path_matches_pattern pattern path = true.
Proof. apply existsb_elem. Qed.

(** the path rules mean what patterns mean: a path is matched exactly when
    one of the patterns, both read as segments between slashes of either kind,
    is the path with each star in a segment standing for some text of that
    segment and each segment of two stars for some number of segments. In
    particular the leftmost search for the parts between the stars, followed by
    a check of the end, never misses a way to match and never invents one. *)
Theorem path_rules_exact patterns path :
  path_matches_any_pattern patterns path = true ↔
  ∃ pattern segments values, pattern ∈ patterns ∧ spells pattern segments ∧ spells path values ∧ path_glob segments values.
Proof.
  rewrite path_matches_any_spec. unfold path_matches_pattern.
  setoid_rewrite matches_recursive_glob. setoid_rewrite normalize_spells. naive_solver.
Qed.

(** The tests of [path_match.rs]. *)
Example literal_and_wildcard_segments :
  (path_matches_pattern (lit "src/*.rs") (lit "src/lib.rs"),
   path_matches_pattern (lit "src/*.rs") (lit "src/lib.ts")) = (true, false).
Proof. reflexivity. Qed.
Example double_star :
  (path_matches_pattern (lit "src/**/mod.rs") (lit "src/a/b/mod.rs"),
   path_matches_pattern (lit "**") (lit "any/path/here"),
   path_matches_any_pattern [lit "a/*"; lit "b/**"] (lit "b/c/d"),
   path_matches_any_pattern [lit "a/*"; lit "b/**"] (lit "c/d")) = (true, true, true, false).
Proof. reflexivity. Qed.
