(* ===== verification/SkillScan.v ===== *)
(** * The security scan of a skill's directory

    Models [crates/skills/src/security.rs]: a walk of the package of a skill in
    quanta of directory entries, with what it finds wrong. The file system is
    what its calls return: an [Entry] is one item of [fs::read_dir] together with
    the answers of [symlink_metadata], [canonicalize] and [read_dir] about it, so
    a directory is a finite tree that does not change during the scan. Paths are
    Unix paths of Unicode characters. *)
From S2P Require Import Prelude TextSplit Decimal UnixPath.
Local Open Scope N_scope.

(** ** Paths *)

Definition is_within (root candidate : text) : bool :=
  let root_components := components root in
  let candidate_components := components candidate in
  if decide (length candidate_components < length root_components)%nat then false
  else forallb (λ '(l, r), bool_decide (l = r)) (zip root_components candidate_components).

Definition has_suspicious_executable_suffix (path : text) : bool :=
  match extension path with
  | None => false
  | Some ext => bool_decide (to_ascii_lowercase ext ∈
      lit <$> ["sh"; "bash"; "zsh"; "fish"; "ps1"; "cmd"; "bat"; "exe"])
  end.

(** ** Findings *)

Inductive SecurityDecision := Allow | Warn | Block.
#[export] Instance SecurityDecision_eq_dec : EqDecision SecurityDecision.
Proof. solve_decision. Defined.
Record SecurityFinding := { rule_id : string; severity : string; message : text; path : option text }.
#[export] Instance SecurityFinding_eq_dec : EqDecision SecurityFinding.
Proof. solve_decision. Defined.
Record SecurityScanReport := { report_decision : SecurityDecision; report_findings : list SecurityFinding }.

Definition block_finding (rule : string) (message : text) (path : option text) : SecurityFinding :=
  {| rule_id := rule; severity := "block"; message := message; path := path |}.
Definition warn_finding (rule : string) (message : text) (path : option text) : SecurityFinding :=
  {| rule_id := rule; severity := "warn"; message := message; path := path |}.
Definition summarize_decision (findings : list SecurityFinding) : SecurityDecision :=
  if existsb (λ f, bool_decide (severity f = "block")) findings then Block
  else if existsb (λ f, bool_decide (severity f = "warn")) findings then Warn
  else Allow.

(** ** The file system *)

Inductive Entry :=
  | Unreadable                                             (* [entries.next()] is an error *)
  | NoMetadata (path : text)                               (* [symlink_metadata] fails *)
  | Symlink (path : text) (target : option text)           (* [fs::canonicalize(path).ok()] *)
  | Directory (path : text) (entries : option (list Entry)) (* [fs::read_dir(path).ok()] *)
  | File (path : text) (len : N)
  | Special (path : text).
Record Disk := {
  canonicalize : text → option text;
  read_dir : text → option (list Entry);
  exists_ : text → bool;
}.

(** ** The scan *)

Record SkillDirectoryScan := {
  root : option text;
  directories : list (list Entry);     (* a stack: the head is [directories.last_mut()] *)
  findings : list SecurityFinding;
  decision : SecurityDecision;
  max_file_bytes : N;
  largest_file_bytes : N;
}.
#[local] Instance scan_fields : Fields SkillDirectoryScan := λ s,
  {| root := root s; directories := directories s; findings := findings s; decision := decision s;
     max_file_bytes := max_file_bytes s; largest_file_bytes := largest_file_bytes s |}.

Definition record (finding : SecurityFinding) (s : SkillDirectoryScan) : SkillDirectoryScan :=
  let s :=
    if decide (severity finding = "block") then s <| decision := Block |>
    else if decide (severity finding = "warn" ∧ decision s = Allow) then s <| decision := Warn |> else s in
  s <| findings := findings s ++ [finding] |>.

Definition scan_new (disk : Disk) (source_root skill_dir : text) (max : N) : SkillDirectoryScan :=
  let root := canonicalize disk source_root in
  let skill := canonicalize disk skill_dir in
  let scan := {| root := root; directories := []; findings := []; decision := Allow; max_file_bytes := max;
                 largest_file_bytes := 0 |} in
  match root, skill with
  | None, _ => record (block_finding "path.root_missing" (lit "source root cannot be canonicalized") (Some source_root)) scan
  | _, None => record (block_finding "path.skill_missing" (lit "skill directory cannot be canonicalized") (Some skill_dir)) scan
  | Some root, Some skill =>
      if negb (is_within root skill)
      then record (block_finding "path.containment" (lit "skill directory is outside configured source root") (Some skill_dir)) scan
      else match read_dir disk skill with
           | Some entries => scan <| directories := [entries] |>
           | None => scan
           end
  end.

Definition symlink_finding (root : option text) (path : text) (target : option text) : SecurityFinding :=
  match target with
  | Some target =>
      if match root with Some root => is_within root target | None => false end
      then warn_finding "path.symlink_present" (lit "skill contains symlink; kept under root containment") (Some path)
      else block_finding "path.symlink_escape" (lit "symlink resolves outside configured source root") (Some path)
  | None => block_finding "path.symlink_broken" (lit "symlink target cannot be resolved") (Some path)
  end.
Definition visit (entry : Entry) (s : SkillDirectoryScan) : SkillDirectoryScan :=
  match entry with
  | Unreadable | NoMetadata _ | Special _ => s
  | Symlink path target => record (symlink_finding (root s) path target) s
  | Directory path entries =>
      match entries with Some entries => s <| directories := entries :: directories s |> | None => s end
  | File path len =>
      let s := s <| largest_file_bytes := N.max (largest_file_bytes s) len |> in
      let s :=
        if decide (max_file_bytes s < len)
        then record (block_finding "file.size_limit"
               (lit "file exceeds max size of " ++ display_u64 (max_file_bytes s) ++ lit " bytes") (Some path)) s
        else s in
      if has_suspicious_executable_suffix path
      then record (warn_finding "file.suspicious_executable"
             (lit "skill contains executable/script-like file extension") (Some path)) s
      else s
  end.

(** [step]: at most [entries_budget] entries; [true] when nothing is left. *)
Fixpoint step (entries_budget : nat) (s : SkillDirectoryScan) : bool * SkillDirectoryScan :=
  match entries_budget with
  | O => (bool_decide (directories s = []), s)
  | S budget =>
      match directories s with
      | [] => (true, s)
      | [] :: rest => step budget (s <| directories := rest |>)
      | (entry :: entries) :: rest => step budget (visit entry (s <| directories := entries :: rest |>))
      end
  end.
Definition report (s : SkillDirectoryScan) : SecurityScanReport :=
  {| report_decision := decision s; report_findings := findings s |}.

(** [while !scan.step(64) {}]. *)
Fixpoint scan_all (fuel quantum : nat) (s : SkillDirectoryScan) : option SkillDirectoryScan :=
  match fuel with
  | O => None
  | S fuel => let '(done, s) := step quantum s in if done then Some s else scan_all fuel quantum s
  end.
Definition scan_skill_directory (fuel : nat) (disk : Disk) (source_root skill_dir : text) (max : N)
    : option SecurityScanReport :=
  report <$> scan_all fuel 64 (scan_new disk source_root skill_dir max).

(** ** What the scan is meant to find *)

(** The entries of a directory and of the directories below it; symbolic links
    are not followed. *)
Inductive found_in : list Entry → Entry → Prop :=
  | found_here es e : e ∈ es → found_in es e
  | found_below es p sub e : Directory p (Some sub) ∈ es → found_in sub e → found_in es e.
(** What must not be in a package, below the root, with files of at most [max]
    bytes. *)
Definition offends (root : text) (max : N) (e : Entry) : Prop :=
  match e with
  | Symlink _ None => True
  | Symlink _ (Some target) => is_within root target = false
  | File _ len => max < len
  | _ => False
  end.
(** The walk has a package to look at. *)
Definition scannable (disk : Disk) (source_root skill_dir : text) (root : text) (entries : list Entry) : Prop :=
  canonicalize disk source_root = Some root ∧
  ∃ skill, canonicalize disk skill_dir = Some skill ∧ is_within root skill = true ∧ read_dir disk skill = Some entries.
Definition escapes (disk : Disk) (source_root skill_dir : text) : Prop :=
  ∀ root skill, canonicalize disk source_root = Some root → canonicalize disk skill_dir = Some skill →
    is_within root skill = false.

(** All entries in the order of the walk, and what each contributes. *)
Fixpoint subentries (e : Entry) : list Entry :=
  e :: match e with Directory _ (Some es) => flat_map subentries es | _ => [] end.
Definition everything (es : list Entry) : list Entry := flat_map subentries es.
Definition entry_findings (root : option text) (max : N) (e : Entry) : list SecurityFinding :=
  match e with
  | Symlink path target => [symlink_finding root path target]
  | File path len =>
      (if decide (max < len)
       then [block_finding "file.size_limit" (lit "file exceeds max size of " ++ display_u64 max ++ lit " bytes") (Some path)]
       else []) ++
      (if has_suspicious_executable_suffix path
       then [warn_finding "file.suspicious_executable" (lit "skill contains executable/script-like file extension") (Some path)]
       else [])
  | _ => []
  end.
Definition entry_len (e : Entry) : N := match e with File _ len => len | _ => 0 end.
Definition largest (es : list Entry) : N := foldr N.max 0 (entry_len <$> es).

(** ** Trees *)

Section Entry_induction.
Variable P : Entry → Prop.
Hypothesis Hdirectory : ∀ p es, Forall P es → P (Directory p (Some es)).
Hypothesis Hother : ∀ e, (∀ p es, e ≠ Directory p (Some es)) → P e.
Fixpoint Entry_tree_ind (e : Entry) : P e.
Proof.
  destruct e as [|p|p t|p [es|]|p n|p]; try (by apply Hother).
  apply Hdirectory. induction es as [|e es IH]; constructor; [apply Entry_tree_ind|exact IH].
Defined.
End Entry_induction.

Definition below (e : Entry) : list Entry := match e with Directory _ (Some es) => everything es | _ => [] end.
Lemma subentries_below e : subentries e = e :: below e.
Proof. by destruct e. Qed.
Lemma elem_everything es e : e ∈ everything es ↔ ∃ d, d ∈ es ∧ e ∈ subentries d.
Proof. unfold everything. rewrite list_elem_of_In, in_flat_map. by setoid_rewrite <-list_elem_of_In. Qed.
Lemma everything_found es e : e ∈ everything es ↔ found_in es e.
Proof.
  split.
  - intros (d & Hd & He)%elem_everything. revert es Hd.
    induction d as [p sub IH|d Hd'] using Entry_tree_ind; intros es Hd; rewrite subentries_below in He;
      (apply elem_of_cons in He as [->|He]; [by constructor|]).
    + cbn [below] in He. apply elem_everything in He as (d & Hin & He). eapply found_below; [exact Hd|].
      rewrite Forall_forall in IH. by apply (IH d).
    + destruct d as [| | |p' [es'|]| |]; try by apply elem_of_nil in He. by destruct (Hd' p' es').
  - induction 1 as [es e He|es p sub e Hd _ IH]; apply elem_everything.
    + exists e. split; [done|]. rewrite subentries_below. left.
    + exists (Directory p (Some sub)). split; [done|]. rewrite subentries_below. by right.
Qed.

(** ** The walk *)

(** A stack stands for the entries still to be visited, and costs a turn of the
    loop for each entry and each directory. *)
Definition remaining (stack : list (list Entry)) : list Entry := flat_map everything stack.
Fixpoint entry_turns (e : Entry) : nat :=
  S (match e with Directory _ (Some es) => S (list_sum (map entry_turns es)) | _ => 0 end).
Definition turns (stack : list (list Entry)) : nat := list_sum (map (λ es, S (list_sum (map entry_turns es))) stack).

(** The walk so far: what was found, decided and measured is what the visited
    entries contribute. *)
Record walked (visited : list Entry) (s : SkillDirectoryScan) : Prop := {
  walked_findings : findings s = flat_map (entry_findings (root s) (max_file_bytes s)) visited;
  walked_decision : decision s = summarize_decision (findings s);
  walked_largest : largest_file_bytes s = largest visited;
}.

Lemma record_summary f s :
  severity f = "block" ∨ severity f = "warn" → decision s = summarize_decision (findings s) →
  decision (record f s) = summarize_decision (findings s ++ [f]).
Proof.
  unfold record, summarize_decision. intros Hf Hd. rewrite !existsb_app. cbn [existsb]. rewrite !orb_false_r, Hd.
  revert Hd. destruct (existsb (λ f, bool_decide (severity f = "block")) _),
    (existsb (λ f, bool_decide (severity f = "warn")) _);
    intros Hd; destruct Hf as [-> | ->]; repeat case_decide; cbn; naive_solver.
Qed.

(** [s'] is [s] with the findings [fs] recorded. *)
Record recorded (fs : list SecurityFinding) (s s' : SkillDirectoryScan) : Prop := {
  recorded_findings : findings s' = findings s ++ fs;
  recorded_decision : decision s = summarize_decision (findings s) → decision s' = summarize_decision (findings s');
  recorded_root : root s' = root s;
  recorded_max : max_file_bytes s' = max_file_bytes s;
  recorded_directories : directories s' = directories s;
  recorded_largest : largest_file_bytes s' = largest_file_bytes s;
}.
Lemma recorded_nil s : recorded [] s s.
Proof. split; [by rewrite app_nil_r|done..]. Qed.
Lemma recorded_one f s : severity f = "block" ∨ severity f = "warn" → recorded [f] s (record f s).
Proof.
  intros Hf. split; try (unfold record; by repeat case_decide).
  intros Hd. rewrite (record_summary f s Hf Hd). f_equal. unfold record. by repeat case_decide.
Qed.
Lemma recorded_trans fs gs s1 s2 s3 : recorded fs s1 s2 → recorded gs s2 s3 → recorded (fs ++ gs) s1 s3.
Proof. intros [] []. split; [rewrite (assoc_L (++))|..]; naive_solver congruence. Qed.


(** Visiting an entry records its findings, pushes what is in it and measures it. *)
Definition children (e : Entry) : list (list Entry) := match e with Directory _ (Some es) => [es] | _ => [] end.
Lemma visit_recorded e s :
  recorded (entry_findings (root s) (max_file_bytes s) e)
    (s <| directories := children e ++ directories s |> <| largest_file_bytes := N.max (largest_file_bytes s) (entry_len e) |>)
    (visit e s).
Proof.
  destruct e as [|p|p t|p [es|]|p n|p]; cbn [visit entry_findings children entry_len app];
    rewrite ?N.max_0_r; try (destruct s; apply recorded_nil).
  - destruct s; apply recorded_one. unfold symlink_finding. repeat case_match; auto.
  - set (s' := s <| largest_file_bytes := _ |>).
    eapply (recorded_trans _ _ _ (if decide (max_file_bytes s < n) then record _ s' else s')).
    + change (max_file_bytes s') with (max_file_bytes s). case_decide; [by apply recorded_one; left|].
      destruct s; apply recorded_nil.
    + change (max_file_bytes s') with (max_file_bytes s).
      destruct (has_suspicious_executable_suffix p); [apply recorded_one; by right|apply recorded_nil].
Qed.

Lemma largest_app l k : largest (l ++ k) = N.max (largest l) (largest k).
Proof. unfold largest. induction l as [|e l IH]; cbn in *; lia. Qed.
Lemma visit_walked visited e s : walked visited s → walked (visited ++ [e]) (visit e s).
Proof.
  intros [Hf Hd Hl]. destruct (visit_recorded e s) as [Hfs Hds Hr Hm _ Hls]. cbn in *. split.
  - rewrite Hfs, Hr, Hm, flat_map_app, Hf. cbn [flat_map]. by rewrite app_nil_r.
  - by apply Hds.
  - rewrite Hls, Hl, largest_app. unfold largest. cbn. lia.
Qed.

Lemma remaining_cons e es stack : remaining ((e :: es) :: stack) = e :: remaining (children e ++ es :: stack).
Proof.
  unfold remaining. cbn [flat_map]. unfold everything at 1. cbn [flat_map]. fold (everything es).
  rewrite subentries_below. destruct e as [| | |p [sub|]| |]; cbn; try done. by rewrite (assoc_L (++)).
Qed.
Lemma turns_cons e es stack : turns ((e :: es) :: stack) = S (turns (children e ++ es :: stack)).
Proof.
  destruct e as [| | |p [sub|]| |]; try done. unfold turns. cbn [children app map].
  change (entry_turns (Directory p (Some sub))) with (S (S (list_sum (map entry_turns sub)))).
  unfold list_sum. cbn [fold_right]. lia.
Qed.

(** Some turns of the loop go on with the walk of [all]. *)
Definition walking (all : list Entry) (s : SkillDirectoryScan) : Prop :=
  ∃ visited, walked visited s ∧ visited ++ remaining (directories s) = all.
Lemma step_spec all n s done s' :
  walking all s → step n s = (done, s') →
  walking all s' ∧ root s' = root s ∧ max_file_bytes s' = max_file_bytes s ∧
  (if done then directories s' = [] else turns (directories s') + n = turns (directories s))%nat.
Proof.
  revert s; induction n as [|n IH]; intros s Hw Hstep; cbn [step] in Hstep.
  { injection Hstep as <- <-. split_and!; try done. case_bool_decide; [done|lia]. }
  destruct (directories s) as [|[|e es] stack] eqn:Hdirs.
  - injection Hstep as <- <-. by split_and!.
  - apply IH in Hstep as (? & -> & -> & Hdone).
    2: { destruct Hw as (visited & [] & Hall). exists visited. rewrite Hdirs in Hall. by split. }
    split_and!; try done. destruct done; [done|]. change (directories (s <| directories := stack |>)) with stack in Hdone.
    change (turns ([] :: stack)) with (S (turns stack)). lia.
  - assert (root (visit e (s <| directories := es :: stack |>)) = root s ∧
      max_file_bytes (visit e (s <| directories := es :: stack |>)) = max_file_bytes s ∧
      directories (visit e (s <| directories := es :: stack |>)) = children e ++ es :: stack) as (Hr & Hm & Hds).
    { by destruct (visit_recorded e (s <| directories := es :: stack |>)). }
    apply IH in Hstep as (? & -> & -> & Hdone).
    + split_and!; try done. destruct done; [done|]. rewrite Hds in Hdone. rewrite turns_cons. lia.
    + destruct Hw as (visited & [] & Hall). exists (visited ++ [e]). split; [by apply visit_walked|].
      rewrite Hds, <-Hall, Hdirs, remaining_cons, <-(assoc_L (++)). done.
Qed.

(** The walk ends, whatever its quantum, having visited everything. *)
Lemma scan_all_spec all quantum fuel s :
  (1 ≤ quantum)%nat → (turns (directories s) < fuel)%nat → walking all s →
  ∃ s', scan_all fuel quantum s = Some s' ∧ walked all s' ∧ root s' = root s ∧ max_file_bytes s' = max_file_bytes s.
Proof.
  intros Hq. revert s; induction fuel as [|fuel IH]; intros s Hfuel Hw; [lia|]. cbn [scan_all].
  destruct (step quantum s) as [done s'] eqn:Hstep.
  destruct (step_spec _ _ _ _ _ Hw Hstep) as (Hw' & Hr & Hm & Hdone). destruct done.
  - exists s'. split; [done|]. destruct Hw' as (visited & Hv & Hall). rewrite Hdone in Hall.
    cbn in Hall. rewrite app_nil_r in Hall. by subst visited.
  - destruct (IH s') as (s'' & Hs'' & ? & Hr' & Hm'); [lia|done|]. exists s''. split_and!; congruence || done.
Qed.

Lemma summarize_block fs : summarize_decision fs = Block ↔ ∃ f, f ∈ fs ∧ severity f = "block".
Proof.
  unfold summarize_decision.
  assert (existsb (λ f, bool_decide (severity f = "block")) fs = true ↔ ∃ f, f ∈ fs ∧ severity f = "block") as <-.
  { rewrite existsb_elem. by setoid_rewrite bool_decide_eq_true. }
  repeat case_match; naive_solver.
Qed.
Lemma entry_offends root max e :
  (∃ f, f ∈ entry_findings (Some root) max e ∧ severity f = "block") ↔ offends root max e.
Proof.
  destruct e as [|p|p [t|]|p es|p n|p]; cbn [entry_findings offends]; try (setoid_rewrite elem_of_nil; naive_solver).
  - setoid_rewrite list_elem_of_singleton. unfold symlink_finding. split.
    + intros (f & -> & Hf). by destruct (is_within root t).
    + intros Ht. exists (block_finding "path.symlink_escape" (lit "symlink resolves outside configured source root") (Some p)).
      by rewrite Ht.
  - split; [done|intros _]. eexists. split; [by apply list_elem_of_singleton|done].
  - split.
    + intros (f & [Hf|Hf]%elem_of_app & Hs); case_match; try by apply elem_of_nil in Hf.
      * done.
      * apply list_elem_of_singleton in Hf. by subst f.
    + intros Hn. rewrite decide_True by done. eexists. split; [by left|done].
Qed.

Lemma scan_idle fuel quantum s : directories s = [] → scan_all (S fuel) (S quantum) s = Some s.
Proof. intros Hs. cbn [scan_all step]. by rewrite Hs. Qed.
(** How a scan starts. *)
Lemma scan_new_cases disk source_root skill_dir max (s := scan_new disk source_root skill_dir max) :
  (escapes disk source_root skill_dir ∧ directories s = [] ∧ decision s = Block ∧
   ∃ f, severity f = "block" ∧ findings s = [f]) ∨
  (¬ escapes disk source_root skill_dir ∧ (∀ root entries, ¬ scannable disk source_root skill_dir root entries) ∧
   directories s = [] ∧ findings s = [] ∧ decision s = Allow) ∨
  (¬ escapes disk source_root skill_dir ∧ ∃ r entries, scannable disk source_root skill_dir r entries ∧
   root s = Some r ∧ max_file_bytes s = max ∧ walking (everything entries) s ∧ directories s = [entries]).
Proof.
  unfold escapes, scannable, s, scan_new.
  destruct (canonicalize disk source_root) as [r|]; [|left; split_and!; first [done|(eexists (block_finding _ _ _); split; reflexivity)|by intros; simplify_eq]].
  destruct (canonicalize disk skill_dir) as [k|]; [|left; split_and!; first [done|(eexists (block_finding _ _ _); split; reflexivity)|by intros; simplify_eq]].
  destruct (is_within r k) eqn:Hin; [|left; split_and!; first [done|(eexists (block_finding _ _ _); split; reflexivity)|by intros; simplify_eq]]. right. cbn [negb].
  assert (¬ ∀ root skill, Some r = Some root → Some k = Some skill → is_within root skill = false) as Hne.
  { intros H. specialize (H r k eq_refl eq_refl). congruence. }
  destruct (read_dir disk k) as [entries|] eqn:Hread; [right|left; split_and!; naive_solver].
  split; [done|]. exists r, entries. split_and!; try done; [by exists k|].
  exists []. split; [by split|]. unfold remaining. cbn. by rewrite app_nil_r.
Qed.

(** Turns of the loop that are always enough. *)
Definition scan_fuel (disk : Disk) (source_root skill_dir : text) (max : N) : nat :=
  S (turns (directories (scan_new disk source_root skill_dir max))).
Lemma scan_decides disk source_root skill_dir max :
  ∃ r, (∀ fuel quantum, (scan_fuel disk source_root skill_dir max ≤ fuel)%nat →
          report <$> scan_all fuel (S quantum) (scan_new disk source_root skill_dir max) = Some r) ∧
    report_decision r = summarize_decision (report_findings r) ∧
    (report_decision r = Block ↔
       escapes disk source_root skill_dir ∨
       ∃ root entries e, scannable disk source_root skill_dir root entries ∧ found_in entries e ∧ offends root max e).
Proof.
  unfold scan_fuel.
  destruct (scan_new_cases disk source_root skill_dir max)
    as [(Hesc & Hdirs & Hd & f & Hf & Hfs)|[(Hesc & Hnone & Hdirs & Hfs & Hd)|
        (Hesc & r & entries & Hscan & Hr & Hm & Hw & Hdirs)]]; rewrite Hdirs.
  - exists (report (scan_new disk source_root skill_dir max)).
    split; [intros [|fuel] quantum Hfuel; [lia|by rewrite scan_idle]|].
    cbn. rewrite Hd, Hfs. split; [symmetry; apply summarize_block; exists f; by rewrite list_elem_of_singleton|].
    split; auto.
  - exists (report (scan_new disk source_root skill_dir max)).
    split; [intros [|fuel] quantum Hfuel; [lia|by rewrite scan_idle]|].
    cbn. rewrite Hd, Hfs. split; [done|]. naive_solver.
  - set (fs := flat_map (entry_findings (Some r) max) (everything entries)).
    exists {| report_decision := summarize_decision fs; report_findings := fs |}. split.
    { intros fuel quantum Hfuel.
      destruct (scan_all_spec (everything entries) (S quantum) fuel (scan_new disk source_root skill_dir max))
        as (s' & -> & [Hf Hd _] & Hr' & Hm'); [lia|by rewrite Hdirs|done|].
      rewrite Hr', Hm', Hr, Hm in Hf. cbn. unfold report. by rewrite Hd, Hf. }
    cbn. split; [done|]. rewrite summarize_block. unfold fs. setoid_rewrite list_elem_of_In.
    setoid_rewrite in_flat_map. setoid_rewrite <-list_elem_of_In. split.
    + intros (f & (e & He%everything_found & Hf) & Hs). right. exists r, entries, e. split_and!; [done..|].
      apply entry_offends. by exists f.
    + intros [?|(r' & entries' & e & Hscan' & He & Ho)]; [done|].
      assert (r' = r ∧ entries' = entries) as [-> ->].
      { destruct Hscan as (? & ? & ? & ? & ?), Hscan' as (? & ? & ? & ? & ?). naive_solver congruence. }
      apply entry_offends in Ho as (f & Hf & Hs). exists f. split; [|done]. exists e. by rewrite everything_found.
Qed.

(** The report, for the callers: the walk with enough turns. *)
Definition scan_report (disk : Disk) (source_root skill_dir : text) (max : N) : SecurityScanReport :=
  default {| report_decision := Block; report_findings := [] |}
    (scan_skill_directory (scan_fuel disk source_root skill_dir max) disk source_root skill_dir max).
Lemma scan_report_spec disk source_root skill_dir max (r := scan_report disk source_root skill_dir max) :
  scan_skill_directory (scan_fuel disk source_root skill_dir max) disk source_root skill_dir max = Some r ∧
  report_decision r = summarize_decision (report_findings r) ∧
  (report_decision r = Block ↔
     escapes disk source_root skill_dir ∨
     ∃ root entries e, scannable disk source_root skill_dir root entries ∧ found_in entries e ∧ offends root max e).
Proof.
  destruct (scan_decides disk source_root skill_dir max) as (r' & Hr & Hspec).
  assert (scan_skill_directory (scan_fuel disk source_root skill_dir max) disk source_root skill_dir max = Some r') as Hs
    by (apply (Hr _ 63%nat); lia).
  assert (r = r') as -> by (unfold r, scan_report; by rewrite Hs). done.
Qed.

(** C35: the scan of a package always ends, with the same report whatever the
    number of entries visited per quantum, and decides exactly: its decision is
    the one its findings call for, and it blocks the package just when the
    directory is not inside its source root (or one of them does not exist), or
    when somewhere below it, symbolic links not followed, there is a link that
    leads out of the root or nowhere, or a file above the limit. *)
Theorem scan_exact disk source_root skill_dir max :
  ∃ r enough,
    (∀ fuel quantum, (enough ≤ fuel)%nat →
       report <$> scan_all fuel (S quantum) (scan_new disk source_root skill_dir max) = Some r) ∧
    (∀ fuel, (enough ≤ fuel)%nat → scan_skill_directory fuel disk source_root skill_dir max = Some r) ∧
    report_decision r = summarize_decision (report_findings r) ∧
    (report_decision r = Block ↔
       escapes disk source_root skill_dir ∨
       ∃ root entries e, scannable disk source_root skill_dir root entries ∧ found_in entries e ∧ offends root max e).
Proof.
  destruct (scan_decides disk source_root skill_dir max) as (r & Hr & Hspec).
  exists r, (scan_fuel disk source_root skill_dir max). split_and!; [done| |apply Hspec..].
  intros fuel Hfuel. by apply Hr.
Qed.

(** A package with a script and a link out of its root. *)
Example scan_sample :
  let disk := {| canonicalize := Some;
                 read_dir := λ _, Some [File (lit "/r/s/SKILL.md") 10;
                   Directory (lit "/r/s/bin") (Some [File (lit "/r/s/bin/run.SH") 20; Symlink (lit "/r/s/bin/x") (Some (lit "/etc"))]);
                   File (lit "/r/s/big") 2000];
                 exists_ := λ _, true |} in
  (λ r, (report_decision r, rule_id <$> report_findings r)) <$>
    scan_skill_directory 2 disk (lit "/r") (lit "/r/./s") 1000 =
  Some (Block, ["file.suspicious_executable"; "path.symlink_escape"; "file.size_limit"]).
Proof. vm_compute. reflexivity. Qed.
