(* ===== verification/SkillResolver.v ===== *)
(** * Which skills are active

    Models [crates/skills/src/resolver.rs], with the policies of [policy.rs], the
    dependency checks of [dependencies.rs] and the data of [compile.rs] they read:
    a catalog of skills, what the user asked for and which paths were touched are
    turned into the active skills and a reason for every other. The environment
    and the file system are a [Host]: what [std::env::var] and [Path::is_file]
    return, next to the [Disk] of the security scan. *)
From S2P Require Import Prelude Ordered TextSplit Json SkillPaths SkillScan.
Local Open Scope N_scope.

(** ** Skills *)

Inductive SkillSourceKind := System | User | Registry.
Inductive SkillTrustLevel := Internal | Verified | Community | Untrusted.
#[export] Instance SkillTrustLevel_eq_dec : EqDecision SkillTrustLevel.
Proof. solve_decision. Defined.
Inductive SkillImplicitInvocationPolicy := UserControlled | Required.
Inductive SkillUnavailableReason := ImportPending | MissingPackage | InvalidPackage.
Inductive SkillAvailability := Available | Unavailable_ (reason : SkillUnavailableReason).
Definition source_db_value (kind : SkillSourceKind) : string :=
  match kind with System => "system" | User => "user" | Registry => "registry" end.

Record SkillIdentity := {
  skill_id : string; owner : option text; slug : text; name : text; display_name : text;
  source_kind : SkillSourceKind; source_root : text; skill_dir : text; skill_file : text;
  version_hint : option text; fingerprint : text;
}.
Record SkillInstructions := { description : text; body : text; license : option text; compatibility : option text }.
Record SkillDependencySet := {
  env : list text; bins : list text; commands : list text; config : list text; mcp : list text; api_keys : list text;
}.
Record SkillPolicyHints := {
  implicit_invocation : SkillImplicitInvocationPolicy; catalog_hidden : bool; activation_blocked : bool;
  block_issue_codes : list text;
}.
Record OpenClawMetadata := {
  os : list text; openclaw_bins : list text; openclaw_config : list text; skill_key : option text;
  openclaw_homepage : option text;
}.
Record ClawdbotMetadata := {
  emoji : option text; clawdbot_homepage : option text; clawdbot_commands : list text; clawdbot_bins : list text;
}.
Record SkillKnownMetadata := { openclaw : option OpenClawMetadata; clawdbot : option ClawdbotMetadata }.
Inductive IssueLevel := Error | Warning.
Record SkillValidationIssue := { code : text; level : IssueLevel; issue_message : text; field_path : option text }.
Record ConformanceResult := { compliant : bool; issues : list SkillValidationIssue }.
Record SkillConformanceReport := { agentskills_strict : ConformanceResult; openclaw_compat : ConformanceResult }.

(** ** Policies *)

Record SkillPolicy := { policy_enabled : option bool; policy_allow_implicit : option bool }.
Record EffectiveSkillPolicy := { enabled : bool; allow_implicit_invocation : bool }.
Record SkillPolicySet := { global_by_key : gmap string SkillPolicy; workspace_by_key : gmap string SkillPolicy }.

Definition apply_policy (base : EffectiveSkillPolicy) (patch : SkillPolicy) : EffectiveSkillPolicy :=
  {| enabled := default (enabled base) (policy_enabled patch);
     allow_implicit_invocation := default (allow_implicit_invocation base) (policy_allow_implicit patch) |}.
Definition merge_policy (id : string) (set : SkillPolicySet) : EffectiveSkillPolicy :=
  let effective := {| enabled := true; allow_implicit_invocation := false |} in
  let effective := match global_by_key set !! id with Some global => apply_policy effective global | None => effective end in
  match workspace_by_key set !! id with Some workspace => apply_policy effective workspace | None => effective end.

(** ** Dependencies *)

Inductive DependencyKind := Env | Bin | Command | Mcp | ApiKey.
#[export] Instance DependencyKind_eq_dec : EqDecision DependencyKind.
Proof. solve_decision. Defined.
Inductive DependencyStatus := Satisfied | Missing | Blocked.
#[export] Instance DependencyStatus_eq_dec : EqDecision DependencyStatus.
Proof. solve_decision. Defined.
Definition kind_rank (k : DependencyKind) : N :=
  match k with Env => 0 | Bin => 1 | Command => 2 | Mcp => 3 | ApiKey => 4 end.
Definition status_rank (s : DependencyStatus) : N := match s with Satisfied => 0 | Missing => 1 | Blocked => 2 end.
Record DependencyDiagnostic := {
  kind : DependencyKind; dependency_name : text; status : DependencyStatus; hint : text;
}.
Record DependencyCheckInput := {
  available_mcp : list text; blocked_env : list text; blocked_bins : list text; blocked_commands : list text;
  blocked_api_keys : list text; blocked_mcp : list text; path_override : option text;
}.

(** What the host answers: the variables of the environment and the plain files. *)
Record Host := { env_var : text → option text; is_file : text → bool }.

Definition normalize_set (values : list text) : list text :=
  ordered_elements (λ v, v) (list_to_set (filter (λ v, v ≠ []) (trim <$> values)) : gset text).
Definition dependency_status (blocked satisfied : bool) : DependencyStatus :=
  if blocked then Blocked else if satisfied then Satisfied else Missing.
Definition env_var_satisfied (host : Host) (name : text) : bool :=
  match env_var host name with Some value => negb (bool_decide (trim value = [])) | None => false end.
(** [Path::join] and [std::env::split_paths] of Unix. *)
Definition join_path (base binary : text) : text :=
  if starts_with [SLASH] binary then binary
  else if decide (base = [] ∨ last base = Some SLASH) then base ++ binary
  else base ++ SLASH :: binary.
Definition split_paths (raw : text) : list text := split_on 58 raw.
Definition binary_in_directory (host : Host) (base binary : text) : bool := is_file host (join_path base binary).
Definition binary_in_path (host : Host) (binary : text) (path_override : option text) : bool :=
  match match path_override with Some path => Some path | None => env_var host (lit "PATH") end with
  | None => false
  | Some raw_path => existsb (λ base, binary_in_directory host base binary) (split_paths raw_path)
  end.

Definition elem (name : text) (names : list text) : bool := bool_decide (name ∈ names).
Definition diagnose (kind : DependencyKind) (names blocked : list text) (satisfied : text → bool) (hint : text → text)
    : list DependencyDiagnostic :=
  (λ name, {| kind := kind; dependency_name := name; status := dependency_status (elem name blocked) (satisfied name);
              hint := hint name |}) <$> names.
Definition quoted (before name after : text) : text := before ++ lit "`" ++ name ++ lit "`" ++ after.
Definition diagnostic_key (d : DependencyDiagnostic) : N * (text * N) :=
  (kind_rank (kind d), (dependency_name d, status_rank (status d))).
Definition evaluate_dependency_set (host : Host) (dependencies : SkillDependencySet) (input : DependencyCheckInput)
    : list DependencyDiagnostic :=
  sort_on diagnostic_key
    (diagnose Env (normalize_set (env dependencies)) (normalize_set (blocked_env input)) (env_var_satisfied host)
       (λ name, quoted (lit "Set environment variable ") name (lit " with a non-empty value.")) ++
     diagnose ApiKey (normalize_set (api_keys dependencies)) (normalize_set (blocked_api_keys input)) (env_var_satisfied host)
       (λ name, quoted (lit "Provide API key in environment variable ") name (lit ".")) ++
     diagnose Bin (normalize_set (bins dependencies)) (normalize_set (blocked_bins input))
       (λ name, binary_in_path host name (path_override input))
       (λ name, quoted (lit "Install ") name (lit " and ensure it is available in PATH.")) ++
     diagnose Command (normalize_set (commands dependencies)) (normalize_set (blocked_commands input))
       (λ name, binary_in_path host name (path_override input))
       (λ name, quoted (lit "Install ") name (lit " command and ensure it is available in PATH.")) ++
     diagnose Mcp (normalize_set (mcp dependencies)) (normalize_set (blocked_mcp input))
       (λ name, elem name (normalize_set (available_mcp input)))
       (λ name, quoted (lit "Register MCP server ") name (lit " in gateway configuration."))).
Definition failing_diagnostics (diagnostics : list DependencyDiagnostic) : list DependencyDiagnostic :=
  filter (λ d, status d = Missing ∨ status d = Blocked) diagnostics.

(** ** Resolution *)

Record SkillValidationPolicy := {
  strict_agentskills : bool; accept_openclaw_profile : bool; preflight_on_resolve : bool;
  allow_untrusted_install : bool; security_scan_on_resolve : bool; max_security_scan_file_bytes : N;
}.
Definition default_validation_policy : SkillValidationPolicy :=
  {| strict_agentskills := true; accept_openclaw_profile := true; preflight_on_resolve := true;
     allow_untrusted_install := true; security_scan_on_resolve := true; max_security_scan_file_bytes := 1024 * 1024 |}.
Inductive SkillResolvedReason := ExplicitCapability | PathMatch | Implicit.
#[export] Instance SkillResolvedReason_eq_dec : EqDecision SkillResolvedReason.
Proof. solve_decision. Defined.
Definition rank (r : SkillResolvedReason) : N := match r with ExplicitCapability => 0 | PathMatch => 1 | Implicit => 2 end.
Inductive SkillExcludedReason :=
  | Unavailable | NotFound | DisabledByPolicy | DisabledModelInvocation | ValidationRejected | InvalidMetadata
  | TrustBlocked | SecurityBlocked | DependencyMissing | NotMatched.
#[export] Instance SkillExcludedReason_eq_dec : EqDecision SkillExcludedReason.
Proof. solve_decision. Defined.

Record SkillExplicitRef := { ref_skill_id : string; label : option text }.
Record ExcludedSkill := {
  excluded_id : string; excluded_owner : option text; excluded_slug : text; excluded_source : string;
  excluded_reason : SkillExcludedReason; dependency_diagnostics : list DependencyDiagnostic;
  security_findings : list SecurityFinding;
}.

Section resolver.
(** The tools a skill declares and the numbers of its metadata are not looked at. *)
Context {RuntimeTool Number : Type}.

Record SkillRuntime := {
  user_invocable : bool; disable_model_invocation : bool; paths : list text; allowed_tools : list text;
  runtime_tools : list RuntimeTool; trust_level : SkillTrustLevel;
}.
Record SkillDefinition := {
  identity : SkillIdentity; instructions : SkillInstructions; runtime : SkillRuntime;
  dependencies : SkillDependencySet; policy_hints : SkillPolicyHints; metadata_known : SkillKnownMetadata;
  metadata_raw : Json Number; conformance : SkillConformanceReport; availability : SkillAvailability;
}.
Definition id_of (skill : SkillDefinition) : string := skill_id (identity skill).
Record ResolvedSkill := {
  resolved_id : string; resolved_slug : text; resolved_reason : SkillResolvedReason; definition : SkillDefinition;
}.
Record SkillResolutionInput := {
  explicit_refs : list SkillExplicitRef; touched_paths : list text; catalog : list SkillDefinition;
  policy_set : SkillPolicySet; validation_policy : SkillValidationPolicy; dependency_input : DependencyCheckInput;
}.

Definition is_available (skill : SkillDefinition) : bool :=
  match availability skill with Available => true | Unavailable_ _ => false end.
Definition skill_implicit_invocation_editable (skill : SkillDefinition) : bool :=
  negb (match source_kind (identity skill), implicit_invocation (policy_hints skill) with
        | System, Required => true | _, _ => false end).
Definition apply_skill_policy_constraints (skill : SkillDefinition) (effective : EffectiveSkillPolicy) : EffectiveSkillPolicy :=
  if negb (skill_implicit_invocation_editable skill)
  then {| enabled := enabled effective; allow_implicit_invocation := true |} else effective.
Definition effective_policy_for_skill (skill : SkillDefinition) (set : SkillPolicySet) : EffectiveSkillPolicy :=
  apply_skill_policy_constraints skill (merge_policy (id_of skill) set).

Definition explicit_ref_matches_skill (r : SkillExplicitRef) (skill : SkillDefinition) : bool :=
  bool_decide (ref_skill_id r = id_of skill).
Definition slashes (path : text) : text := (λ c, if decide (c = BACKSLASH) then SLASH else c) <$> path.
Definition resolve_reason (skill : SkillDefinition) (refs : list SkillExplicitRef) (touched : list text) (implicit : bool)
    : option SkillResolvedReason :=
  if existsb (λ r, explicit_ref_matches_skill r skill) refs then Some ExplicitCapability
  else if negb (bool_decide (paths (runtime skill) = [])) &&
          existsb (λ path, path_matches_any_pattern (paths (runtime skill)) (slashes path)) touched then Some PathMatch
  else if implicit && user_invocable (runtime skill) then Some Implicit
  else None.
Definition passes_validation_policy (skill : SkillDefinition) (policy : SkillValidationPolicy) : bool :=
  if compliant (agentskills_strict (conformance skill)) then true
  else if strict_agentskills policy then false
  else if accept_openclaw_profile policy && compliant (openclaw_compat (conformance skill)) then true
  else false.
Definition has_critical_metadata_issues (skill : SkillDefinition) : bool := activation_blocked (policy_hints skill).
Definition trust_blocked (skill : SkillDefinition) (policy : SkillValidationPolicy) : bool :=
  negb (allow_untrusted_install policy) && bool_decide (trust_level (runtime skill) = Untrusted).
Definition security_blocking_findings (disk : Disk) (skill : SkillDefinition) (policy : SkillValidationPolicy)
    : list SecurityFinding :=
  if negb (security_scan_on_resolve policy) then []
  else
    let root := source_root (identity skill) in
    let dir := skill_dir (identity skill) in
    if negb (exists_ disk root) || negb (exists_ disk dir) then []
    else
      let report := scan_report disk root dir (N.max (max_security_scan_file_bytes policy) 1) in
      match report_decision report with Block => report_findings report | _ => [] end.
Definition dependency_failures (host : Host) (skill : SkillDefinition) (policy : SkillValidationPolicy)
    (input : DependencyCheckInput) : list DependencyDiagnostic :=
  if negb (preflight_on_resolve policy) then []
  else failing_diagnostics (evaluate_dependency_set host (dependencies skill) input).

Definition exclude (skill : SkillDefinition) (reason : SkillExcludedReason) (diagnostics : list DependencyDiagnostic)
    (findings : list SecurityFinding) : ExcludedSkill :=
  {| excluded_id := id_of skill; excluded_owner := owner (identity skill); excluded_slug := slug (identity skill);
     excluded_source := source_db_value (source_kind (identity skill)); excluded_reason := reason;
     dependency_diagnostics := diagnostics; security_findings := findings |}.

(** One turn of the loop over the catalog: the skill is active or excluded. *)
Definition judge (host : Host) (disk : Disk) (input : SkillResolutionInput) (skill : SkillDefinition)
    : ResolvedSkill + ExcludedSkill :=
  let effective_policy := effective_policy_for_skill skill (policy_set input) in
  if negb (is_available skill) then inr (exclude skill Unavailable [] [])
  else if negb (enabled effective_policy) then inr (exclude skill DisabledByPolicy [] [])
  else
    match resolve_reason skill (explicit_refs input) (touched_paths input) (allow_implicit_invocation effective_policy) with
    | None => inr (exclude skill NotMatched [] [])
    | Some reason =>
        if negb (bool_decide (reason = ExplicitCapability)) && disable_model_invocation (runtime skill)
        then inr (exclude skill DisabledModelInvocation [] [])
        else if negb (passes_validation_policy skill (validation_policy input))
        then inr (exclude skill ValidationRejected [] [])
        else if has_critical_metadata_issues skill then inr (exclude skill InvalidMetadata [] [])
        else if trust_blocked skill (validation_policy input) then inr (exclude skill TrustBlocked [] [])
        else
          match security_blocking_findings disk skill (validation_policy input) with
          | (_ :: _) as findings => inr (exclude skill SecurityBlocked [] findings)
          | [] =>
              match dependency_failures host skill (validation_policy input) (dependency_input input) with
              | (_ :: _) as diagnostics => inr (exclude skill DependencyMissing diagnostics [])
              | [] => inl {| resolved_id := id_of skill; resolved_slug := slug (identity skill);
                             resolved_reason := reason; definition := skill |}
              end
          end
    end.

Record loop_state := { active : list ResolvedSkill; excluded : list ExcludedSkill; processed_ids : gset string }.
Definition resolve_one (host : Host) (disk : Disk) (input : SkillResolutionInput) (s : loop_state) (skill : SkillDefinition)
    : loop_state :=
  if decide (id_of skill ∈ processed_ids s) then s
  else
    match judge host disk input skill with
    | inl resolved => {| active := active s ++ [resolved]; excluded := excluded s; processed_ids := {[id_of skill]} ∪ processed_ids s |}
    | inr ex => {| active := active s; excluded := excluded s ++ [ex]; processed_ids := {[id_of skill]} ∪ processed_ids s |}
    end.
Definition not_found (id : string) : ExcludedSkill :=
  {| excluded_id := id; excluded_owner := None; excluded_slug := []; excluded_source := ""; excluded_reason := NotFound;
     dependency_diagnostics := []; security_findings := [] |}.
Definition resolve_ref (catalog_ids : gset string) (excluded : list ExcludedSkill) (r : SkillExplicitRef) : list ExcludedSkill :=
  if decide (ref_skill_id r ∉ catalog_ids) then
    if existsb (λ ex, bool_decide (excluded_id ex = ref_skill_id r)) excluded then excluded
    else excluded ++ [not_found (ref_skill_id r)]
  else excluded.

Record SkillResolutionResult := { result_active : list ResolvedSkill; result_excluded : list ExcludedSkill }.
Definition resolve_skills (host : Host) (disk : Disk) (input : SkillResolutionInput) : SkillResolutionResult :=
  let catalog_ids : gset string := list_to_set (id_of <$> catalog input) in
  let s := foldl (resolve_one host disk input) {| active := []; excluded := []; processed_ids := ∅ |} (catalog input) in
  let excluded := foldl (resolve_ref catalog_ids) (excluded s) (explicit_refs input) in
  {| result_active := sort_on (λ a, (rank (resolved_reason a), resolved_id a)) (active s);
     result_excluded := sort_on excluded_id excluded |}.

(** ** What makes a skill active *)

(** A dependency: the trimmed names a list gives, and when one is met. *)
Definition gives (values : list text) (name : text) : Prop := name ≠ [] ∧ ∃ v, v ∈ values ∧ trim v = name.
Definition required (deps : SkillDependencySet) (k : DependencyKind) : list text :=
  match k with Env => env deps | ApiKey => api_keys deps | Bin => bins deps | Command => commands deps | Mcp => mcp deps end.
Definition blocked_names (input : DependencyCheckInput) (k : DependencyKind) : list text :=
  match k with Env => blocked_env input | ApiKey => blocked_api_keys input | Bin => blocked_bins input
  | Command => blocked_commands input | Mcp => blocked_mcp input end.
Definition on_path (host : Host) (input : DependencyCheckInput) (name : text) : Prop :=
  ∃ raw base, (path_override input = Some raw ∨ path_override input = None ∧ env_var host (lit "PATH") = Some raw) ∧
    base ∈ split_paths raw ∧ is_file host (join_path base name) = true.
Definition met (host : Host) (input : DependencyCheckInput) (k : DependencyKind) (name : text) : Prop :=
  ¬ gives (blocked_names input k) name ∧
  match k with
  | Env | ApiKey => ∃ v, env_var host name = Some v ∧ trim v ≠ []
  | Bin | Command => on_path host input name
  | Mcp => gives (available_mcp input) name
  end.

(** A setting: of the workspace, else global, else the default. *)
Definition setting (f : SkillPolicy → option bool) (set : SkillPolicySet) (id : string) (dflt : bool) : bool :=
  default (default dflt (global_by_key set !! id ≫= f)) (workspace_by_key set !! id ≫= f).

Section specification.
Context (host : Host) (disk : Disk) (input : SkillResolutionInput).

Definition asked (skill : SkillDefinition) : Prop := ∃ r, r ∈ explicit_refs input ∧ ref_skill_id r = id_of skill.
Definition touched (skill : SkillDefinition) : Prop :=
  ∃ path pattern segments values, path ∈ touched_paths input ∧ pattern ∈ paths (runtime skill) ∧
    spells pattern segments ∧ spells path values ∧ path_glob segments values.
Definition implicit (skill : SkillDefinition) : Prop :=
  user_invocable (runtime skill) = true ∧
  (source_kind (identity skill) = System ∧ implicit_invocation (policy_hints skill) = Required ∨
   setting policy_allow_implicit (policy_set input) (id_of skill) false = true).
Definition invoked (skill : SkillDefinition) (reason : SkillResolvedReason) : Prop :=
  match reason with
  | ExplicitCapability => asked skill
  | PathMatch => ¬ asked skill ∧ touched skill
  | Implicit => ¬ asked skill ∧ ¬ touched skill ∧ implicit skill
  end.
(** The package is on disk and the scan has something to object to. *)
Definition insecure (skill : SkillDefinition) : Prop :=
  let root := source_root (identity skill) in
  let dir := skill_dir (identity skill) in
  let max := N.max (max_security_scan_file_bytes (validation_policy input)) 1 in
  exists_ disk root = true ∧ exists_ disk dir = true ∧
  (escapes disk root dir ∨ ∃ r entries e, scannable disk root dir r entries ∧ found_in entries e ∧ offends r max e).

(** What each reason for an exclusion denies. *)
Definition passes (skill : SkillDefinition) (reason : SkillExcludedReason) : Prop :=
  let policy := validation_policy input in
  match reason with
  | Unavailable => availability skill = Available
  | DisabledByPolicy => setting policy_enabled (policy_set input) (id_of skill) true = true
  | NotMatched => ∃ r, invoked skill r
  | DisabledModelInvocation => disable_model_invocation (runtime skill) = true → asked skill
  | ValidationRejected =>
      compliant (agentskills_strict (conformance skill)) = true ∨
      strict_agentskills policy = false ∧ accept_openclaw_profile policy = true ∧
      compliant (openclaw_compat (conformance skill)) = true
  | InvalidMetadata => activation_blocked (policy_hints skill) = false
  | TrustBlocked => allow_untrusted_install policy = true ∨ trust_level (runtime skill) ≠ Untrusted
  | SecurityBlocked => security_scan_on_resolve policy = true → ¬ insecure skill
  | DependencyMissing => preflight_on_resolve policy = true →
      ∀ k name, gives (required (dependencies skill) k) name → met host (dependency_input input) k name
  | NotFound => True
  end.
Definition gates : list SkillExcludedReason :=
  [Unavailable; DisabledByPolicy; NotMatched; DisabledModelInvocation; ValidationRejected; InvalidMetadata;
   TrustBlocked; SecurityBlocked; DependencyMissing].
Definition first_failing (skill : SkillDefinition) (reason : SkillExcludedReason) : Prop :=
  ∃ before later, gates = before ++ reason :: later ∧ Forall (passes skill) before ∧ ¬ passes skill reason.
(** Of several entries with an identifier, the first counts. *)
Definition listed (skill : SkillDefinition) : Prop :=
  ∃ l1 l2, catalog input = l1 ++ skill :: l2 ∧ id_of skill ∉ id_of <$> l1.

(** ** The gates decide what they mean *)

Lemma elem_normalize_set values name : name ∈ normalize_set values ↔ gives values name.
Proof using Type.
  unfold normalize_set, gives. rewrite elem_ordered_elements by apply _.
  rewrite elem_of_list_to_set, list_elem_of_filter, list_elem_of_fmap. naive_solver.
Qed.
Lemma dependency_status_satisfied b s : dependency_status b s = Satisfied ↔ b = false ∧ s = true.
Proof using Type. destruct b, s; naive_solver. Qed.
Lemma binary_in_path_spec name : binary_in_path host name (path_override (dependency_input input)) = true ↔
  on_path host (dependency_input input) name.
Proof using Type.
  unfold binary_in_path, on_path, binary_in_directory.
  assert (∀ raw, existsb (λ base, is_file host (join_path base name)) (split_paths raw) = true ↔
    ∃ base, base ∈ split_paths raw ∧ is_file host (join_path base name) = true) as Hex by (intros; apply existsb_elem).
  destruct (path_override _) as [raw|]; [|destruct (env_var host _) as [raw|]]; rewrite ?Hex; naive_solver.
Qed.
Lemma env_var_satisfied_spec name : env_var_satisfied host name = true ↔ ∃ v, env_var host name = Some v ∧ trim v ≠ [].
Proof using Type.
  unfold env_var_satisfied. destruct (env_var host name) as [v|]; [|naive_solver].
  rewrite negb_true_iff, bool_decide_eq_false. naive_solver.
Qed.
Lemma diagnose_satisfied k names blocked satisfied hint :
  Forall (λ d, status d = Satisfied) (diagnose k (normalize_set names) (normalize_set blocked) satisfied hint) ↔
  ∀ name, gives names name → ¬ gives blocked name ∧ satisfied name = true.
Proof using Type.
  unfold diagnose, elem. rewrite Forall_fmap, Forall_forall.
  split; intros H name Hn; specialize (H name); rewrite elem_normalize_set in *; specialize (H Hn); revert H; cbn;
    by rewrite dependency_status_satisfied, bool_decide_eq_false, elem_normalize_set.
Qed.
Lemma failing_none diagnostics : failing_diagnostics diagnostics = [] ↔ Forall (λ d, status d = Satisfied) diagnostics.
Proof using Type.
  unfold failing_diagnostics. induction diagnostics as [|d l IH]; [by split|].
  rewrite filter_cons, Forall_cons, <-IH. destruct (status d) eqn:Hs; (destruct (decide _) as [Hd|Hd]; [|naive_solver]).
  - by destruct Hd.
  - by split; [|intros []].
  - by split; [|intros []].
Qed.
Lemma dependency_failures_spec skill :
  dependency_failures host skill (validation_policy input) (dependency_input input) = [] ↔ passes skill DependencyMissing.
Proof using Type.
  unfold dependency_failures, passes. destruct (preflight_on_resolve _); [|naive_solver]. cbn [negb].
  rewrite failing_none. unfold evaluate_dependency_set. rewrite sort_on_perm, !Forall_app, !diagnose_satisfied.
  unfold elem. setoid_rewrite env_var_satisfied_spec. setoid_rewrite binary_in_path_spec.
  setoid_rewrite bool_decide_eq_true. setoid_rewrite elem_normalize_set. split.
  - intros (? & ? & ? & ? & ?) _ []; cbn; auto.
  - intros H. split_and!; [apply (H eq_refl Env)|apply (H eq_refl ApiKey)|apply (H eq_refl Bin)
                          |apply (H eq_refl Command)|apply (H eq_refl Mcp)].
Qed.

Lemma merge_policy_setting id :
  merge_policy id (policy_set input) =
  {| enabled := setting policy_enabled (policy_set input) id true;
     allow_implicit_invocation := setting policy_allow_implicit (policy_set input) id false |}.
Proof using Type.
  unfold merge_policy, setting, apply_policy.
  destruct (global_by_key _ !! id) as [[g1 g2]|], (workspace_by_key _ !! id) as [[w1 w2]|]; reflexivity.
Qed.
Lemma effective_enabled skill :
  enabled (effective_policy_for_skill skill (policy_set input)) = true ↔ passes skill DisabledByPolicy.
Proof using Type.
  unfold effective_policy_for_skill, apply_skill_policy_constraints. rewrite merge_policy_setting. by case_match.
Qed.
Lemma effective_implicit skill :
  allow_implicit_invocation (effective_policy_for_skill skill (policy_set input)) && user_invocable (runtime skill) = true ↔
  implicit skill.
Proof using Type.
  unfold effective_policy_for_skill, apply_skill_policy_constraints, skill_implicit_invocation_editable, implicit.
  rewrite merge_policy_setting, andb_true_iff.
  destruct (source_kind (identity skill)), (implicit_invocation (policy_hints skill)); cbn; naive_solver.
Qed.
Lemma asked_spec skill : existsb (λ r, explicit_ref_matches_skill r skill) (explicit_refs input) = true ↔ asked skill.
Proof using Type.
  rewrite existsb_elem. unfold asked, explicit_ref_matches_skill. by setoid_rewrite bool_decide_eq_true.
Qed.
Lemma normalize_slashes path : normalize (slashes path) = normalize path.
Proof using Type.
  unfold normalize, slashes. do 2 f_equal. induction path as [|c path IH]; [done|]. cbn. f_equal; [|exact IH].
  by repeat case_decide.
Qed.
Lemma touched_spec skill :
  negb (bool_decide (paths (runtime skill) = [])) &&
  existsb (λ path, path_matches_any_pattern (paths (runtime skill)) (slashes path)) (touched_paths input) = true ↔
  touched skill.
Proof using Type.
  rewrite andb_true_iff, negb_true_iff, bool_decide_eq_false, existsb_elem. unfold touched.
  setoid_rewrite path_matches_any_spec. unfold path_matches_pattern. setoid_rewrite normalize_slashes.
  setoid_rewrite normalize_spells. split.
  - intros (_ & path & Hpath & pattern & Hpattern & H). exists path, pattern, (normalize pattern), (normalize path).
    split_and!; try done. by apply matches_recursive_glob.
  - intros (path & pattern & ? & ? & Hpath & Hpattern & <- & <- & H). split.
    { intros Hnil. rewrite Hnil in Hpattern. by apply elem_of_nil in Hpattern. }
    exists path. split; [done|]. exists pattern. split; [done|]. by apply matches_recursive_glob.
Qed.
Lemma resolve_reason_spec skill :
  match resolve_reason skill (explicit_refs input) (touched_paths input)
          (allow_implicit_invocation (effective_policy_for_skill skill (policy_set input))) with
  | Some reason => ∀ r, invoked skill r ↔ r = reason
  | None => ∀ r, ¬ invoked skill r
  end.
Proof using Type.
  pose proof (asked_spec skill) as Ha. pose proof (touched_spec skill) as Ht. pose proof (effective_implicit skill) as Hi.
  unfold resolve_reason.
  destruct (existsb (λ r, explicit_ref_matches_skill r skill) _); [|destruct (negb _ && _); [|destruct (_ && user_invocable _)]];
    intros []; cbn; naive_solver.
Qed.
Lemma validation_spec skill : passes_validation_policy skill (validation_policy input) = true ↔ passes skill ValidationRejected.
Proof using Type.
  unfold passes_validation_policy, passes.
  destruct (compliant (agentskills_strict _)), (strict_agentskills _), (accept_openclaw_profile _), (compliant (openclaw_compat _));
    naive_solver.
Qed.
Lemma trust_spec skill : trust_blocked skill (validation_policy input) = false ↔ passes skill TrustBlocked.
Proof using Type.
  unfold trust_blocked, passes. rewrite andb_false_iff, negb_false_iff, bool_decide_eq_false. done.
Qed.
Lemma security_spec skill :
  security_blocking_findings disk skill (validation_policy input) = [] ↔ passes skill SecurityBlocked.
Proof using Type.
  unfold security_blocking_findings, passes, insecure. destruct (security_scan_on_resolve _); [|naive_solver]. cbn [negb].
  destruct (exists_ disk (source_root _)); [|naive_solver]. destruct (exists_ disk (skill_dir _)); [|naive_solver]. cbn [negb orb].
  destruct (scan_report_spec disk (source_root (identity skill)) (skill_dir (identity skill))
    (N.max (max_security_scan_file_bytes (validation_policy input)) 1)) as (_ & Hd & Hb).
  split.
  - intros Hnil _ (_ & _ & Hbad). apply Hb in Hbad. rewrite Hbad in Hnil, Hd. by rewrite Hnil in Hd.
  - intros H. destruct (report_decision _); [done..|]. exfalso. apply H; [done|]. split_and!; [done..|]. by apply Hb.
Qed.

Lemma first_failing_take n skill reason :
  gates !! n = Some reason → Forall (passes skill) (take n gates) → ¬ passes skill reason → first_failing skill reason.
Proof using Type. intros Hn ? ?. exists (take n gates), (drop (S n) gates). by rewrite take_drop_middle. Qed.
Ltac refused_at n :=
  split_and!; [done|apply (first_failing_take n); [done|repeat (constructor; [intuition discriminate|]); constructor
                                            |intuition discriminate]|done].
(** One turn of the loop: the gates in order. *)
Lemma judge_spec skill :
  match judge host disk input skill with
  | inl a => definition a = skill ∧ resolved_id a = id_of skill ∧ (∀ r, invoked skill r ↔ r = resolved_reason a) ∧
      ∀ g, passes skill g
  | inr x => excluded_id x = id_of skill ∧ first_failing skill (excluded_reason x) ∧ excluded_reason x ≠ NotFound
  end.
Proof using Type.
  unfold judge.
  assert (is_available skill = true ↔ passes skill Unavailable) as H1.
  { unfold is_available, passes. destruct (availability skill); naive_solver. }
  pose proof (effective_enabled skill) as H2. pose proof (resolve_reason_spec skill) as H3.
  pose proof (validation_spec skill) as H5. pose proof (trust_spec skill) as H7.
  pose proof (security_spec skill) as H8. pose proof (dependency_failures_spec skill) as H9.
  assert (has_critical_metadata_issues skill = false ↔ passes skill InvalidMetadata) as H6 by done.
  rewrite <-not_true_iff_false in H6, H7.
  destruct (is_available skill); cbn [negb]; [|refused_at 0%nat].
  destruct (enabled _); cbn [negb]; [|refused_at 1%nat].
  destruct (resolve_reason _ _ _ _) as [reason|].
  2: { assert (¬ passes skill NotMatched) as H3' by (intros [r Hr]; by apply (H3 r)). refused_at 2%nat. }
  assert (passes skill NotMatched) as H3' by (exists reason; by apply H3).
  assert (negb (bool_decide (reason = ExplicitCapability)) && disable_model_invocation (runtime skill) = false ↔
          passes skill DisabledModelInvocation) as H4.
  { unfold passes. change (asked skill) with (invoked skill ExplicitCapability). rewrite (H3 ExplicitCapability).
    rewrite andb_false_iff, negb_false_iff, bool_decide_eq_true. destruct (disable_model_invocation _); naive_solver. }
  rewrite <-not_true_iff_false in H4.
  destruct (negb (bool_decide _) && _); cbn [negb]; [refused_at 3%nat|].
  destruct (passes_validation_policy _ _); cbn [negb]; [|refused_at 4%nat].
  destruct (has_critical_metadata_issues skill); [refused_at 5%nat|].
  destruct (trust_blocked _ _); [refused_at 6%nat|].
  destruct (security_blocking_findings _ _ _) as [|f fs]; [|refused_at 7%nat].
  destruct (dependency_failures _ _ _ _) as [|d ds]; [|refused_at 8%nat].
  split_and!; [done..|]. intros []; try done; intuition discriminate.
Qed.
Lemma judge_inl skill a : judge host disk input skill = inl a →
  definition a = skill ∧ resolved_id a = id_of skill ∧ (∀ r, invoked skill r ↔ r = resolved_reason a) ∧ ∀ g, passes skill g.
Proof using Type. intros Hj. pose proof (judge_spec skill) as H. by rewrite Hj in H. Qed.
Lemma judge_inr skill x : judge host disk input skill = inr x →
  excluded_id x = id_of skill ∧ first_failing skill (excluded_reason x) ∧ excluded_reason x ≠ NotFound.
Proof using Type. intros Hj. pose proof (judge_spec skill) as H. by rewrite Hj in H. Qed.

(** ** The loops *)

(** The first entry with each identifier. *)
Fixpoint firsts (seen : gset string) (l : list SkillDefinition) : list SkillDefinition :=
  match l with
  | [] => []
  | skill :: l => if decide (id_of skill ∈ seen) then firsts seen l else skill :: firsts ({[id_of skill]} ∪ seen) l
  end.
Definition lefts {A B} (l : list (A + B)) : list A := omap (λ x, match x with inl a => Some a | inr _ => None end) l.
Definition rights {A B} (l : list (A + B)) : list B := omap (λ x, match x with inl _ => None | inr b => Some b end) l.
Lemma resolve_loop s l :
  let s' := foldl (resolve_one host disk input) s l in
  active s' = active s ++ lefts (judge host disk input <$> firsts (processed_ids s) l) ∧
  excluded s' = excluded s ++ rights (judge host disk input <$> firsts (processed_ids s) l).
Proof using Type.
  revert s; induction l as [|skill l IH]; intros s; cbn [foldl firsts]; [by rewrite !app_nil_r|].
  destruct (IH (resolve_one host disk input s skill)) as [-> ->]. unfold resolve_one. case_decide as Hin; [done|].
  rewrite fmap_cons. destruct (judge host disk input skill) as [a|x]; cbn; by rewrite <-?(assoc_L (++)).
Qed.
Lemma elem_firsts seen l skill : skill ∈ firsts seen l ↔
  id_of skill ∉ seen ∧ ∃ l1 l2, l = l1 ++ skill :: l2 ∧ id_of skill ∉ id_of <$> l1.
Proof using Type.
  revert seen; induction l as [|s l IH]; intros seen; cbn [firsts].
  { split; [by intros ?%elem_of_nil|]. intros (_ & [] & ? & ? & _); done. }
  assert ((∃ l1 l2, s :: l = l1 ++ skill :: l2 ∧ id_of skill ∉ id_of <$> l1) ↔
    s = skill ∨ id_of skill ≠ id_of s ∧ ∃ l1 l2, l = l1 ++ skill :: l2 ∧ id_of skill ∉ id_of <$> l1) as ->.
  { split.
    - intros ([|s' l1] & l2 & Heq & Hn); [injection Heq; auto|]. injection Heq as -> ->.
      cbn in Hn. apply not_elem_of_cons in Hn as [? ?]. right. eauto.
    - intros [->|(Hne & l1 & l2 & -> & Hn)]; [exists [], l; split; [done|apply not_elem_of_nil]|].
      exists (s :: l1), l2. split; [done|]. cbn. by apply not_elem_of_cons. }
  case_decide as Hin; rewrite ?elem_of_cons, IH.
  - split.
    + intros [Hn HE]. split; [done|]. right. split; [|done]. intros He. by rewrite He in Hn.
    + by intros [Hn [->|[_ HE]]].
  - rewrite not_elem_of_union, not_elem_of_singleton. split.
    + intros [->|[[Hne Hn] HE]]; [auto|]. by split; [|right].
    + intros [Hn [->|[Hne HE]]]; [auto|]. by right.
Qed.
Lemma firsts_NoDup seen l : NoDup (id_of <$> firsts seen l).
Proof using Type.
  revert seen; induction l as [|s l IH]; intros seen; cbn [firsts]; [constructor|]. case_decide; [apply IH|].
  cbn. constructor; [|apply IH]. intros (s' & Heq & (Hn & _)%elem_firsts)%list_elem_of_fmap. set_solver.
Qed.
Lemma firsts_ids seen l id : id ∈ id_of <$> firsts seen l ↔ id ∈ id_of <$> l ∧ id ∉ seen.
Proof using Type.
  revert seen; induction l as [|s l IH]; intros seen; cbn [firsts fmap list_fmap]; [set_solver|].
  case_decide; cbn; rewrite ?elem_of_cons, IH; [set_solver|].
  rewrite not_elem_of_union, not_elem_of_singleton. destruct (decide (id = id_of s)); set_solver.
Qed.

Lemma resolve_refs ids ex refs :
  ∃ new, foldl (resolve_ref ids) ex refs = ex ++ (not_found <$> new) ∧ NoDup new ∧
    ∀ id, id ∈ new ↔ id ∈ ref_skill_id <$> refs ∧ id ∉ ids ∧ id ∉ excluded_id <$> ex.
Proof using Type.
  revert ex; induction refs as [|r refs IH]; intros ex; cbn [foldl].
  { exists []. split_and!; [by rewrite app_nil_r|constructor|set_solver]. }
  assert (existsb (λ x, bool_decide (excluded_id x = ref_skill_id r)) ex = true ↔ ref_skill_id r ∈ excluded_id <$> ex) as Hex.
  { rewrite existsb_elem, list_elem_of_fmap. setoid_rewrite bool_decide_eq_true. naive_solver. }
  unfold resolve_ref at 2. case_decide as Hin; [destruct (existsb _ ex)|].
  - destruct (IH ex) as (new & Hnew & Hnd & Helem). exists new. split_and!; [done..|]. intros id. rewrite Helem. cbn.
    rewrite elem_of_cons. split; [naive_solver|]. intros ([->|?] & ? & ?); naive_solver.
  - destruct (IH (ex ++ [not_found (ref_skill_id r)])) as (new & Hnew & Hnd & Helem).
    assert (ref_skill_id r ∉ excluded_id <$> ex) as Hex' by naive_solver.
    exists (ref_skill_id r :: new).
    assert (∀ id, id ∈ excluded_id <$> ex ++ [not_found (ref_skill_id r)] ↔ id ∈ excluded_id <$> ex ∨ id = ref_skill_id r) as Happ.
    { intros id. rewrite fmap_app, elem_of_app. cbn. by rewrite list_elem_of_singleton. }
    setoid_rewrite Happ in Helem. split_and!.
    + rewrite Hnew. by rewrite <-(assoc_L (++)).
    + constructor; [|done]. rewrite Helem. tauto.
    + intros id. rewrite elem_of_cons, Helem, fmap_cons, elem_of_cons.
      destruct (decide (id = ref_skill_id r)) as [->|]; naive_solver.
  - destruct (IH ex) as (new & Hnew & Hnd & Helem). exists new. split_and!; [done..|]. intros id. rewrite Helem. cbn.
    rewrite elem_of_cons. split; [naive_solver|]. intros ([->|?] & ? & ?); naive_solver.
Qed.

Lemma elem_lefts {A B} (l : list (A + B)) a : a ∈ lefts l ↔ inl a ∈ l.
Proof using Type. unfold lefts. rewrite list_elem_of_omap. split; [intros ([] & ? & ?); naive_solver|]. intros. by exists (inl a). Qed.
Lemma elem_rights {A B} (l : list (A + B)) b : b ∈ rights l ↔ inr b ∈ l.
Proof using Type. unfold rights. rewrite list_elem_of_omap. split; [intros ([] & ? & ?); naive_solver|]. intros. by exists (inr b). Qed.
(** The identifiers of both lists together are those judged. *)
Lemma judged_ids l :
  (resolved_id <$> lefts (judge host disk input <$> l)) ++ (excluded_id <$> rights (judge host disk input <$> l)) ≡ₚ id_of <$> l.
Proof using Type.
  induction l as [|skill l IH]; [done|]. rewrite !fmap_cons. cbn.
  destruct (judge host disk input skill) as [a|x] eqn:Hj; cbn.
  - apply judge_inl in Hj as (_ & -> & _). by rewrite IH.
  - apply judge_inr in Hj as (-> & _). by rewrite <-Permutation_middle, IH.
Qed.

(** The two lists before they are sorted. *)
Definition judged : list (ResolvedSkill + ExcludedSkill) := judge host disk input <$> firsts ∅ (catalog input).
Lemma resolve_skills_lists :
  ∃ new, result_active (resolve_skills host disk input) ≡ₚ lefts judged ∧
    result_excluded (resolve_skills host disk input) ≡ₚ rights judged ++ (not_found <$> new) ∧ NoDup new ∧
    ∀ id, id ∈ new ↔ id ∈ ref_skill_id <$> explicit_refs input ∧ id ∉ id_of <$> catalog input.
Proof using Type.
  unfold resolve_skills. cbn.
  destruct (resolve_loop {| active := []; excluded := []; processed_ids := ∅ |} (catalog input)) as [Ha He].
  cbn in Ha, He. fold judged in Ha, He. rewrite Ha, He.
  destruct (resolve_refs (list_to_set (id_of <$> catalog input)) (rights judged) (explicit_refs input)) as (new & -> & Hnd & Helem).
  exists new. split_and!; [apply sort_on_perm|apply sort_on_perm|done|]. intros id. rewrite Helem, elem_of_list_to_set.
  split; [naive_solver|]. intros [? Hn]. split_and!; [done..|]. intros Hx. apply Hn.
  assert (id ∈ id_of <$> firsts ∅ (catalog input)) as Hf by (rewrite <-judged_ids; apply elem_of_app; by right).
  by apply firsts_ids in Hf as [? _].
Qed.
Lemma listed_firsts skill : listed skill ↔ skill ∈ firsts ∅ (catalog input).
Proof using Type. rewrite elem_firsts. unfold listed. set_solver. Qed.
Lemma listed_unique s1 s2 : listed s1 → listed s2 → id_of s1 = id_of s2 → s1 = s2.
Proof using Type.
  rewrite !listed_firsts. intros H1 H2 Hid. pose proof (firsts_NoDup ∅ (catalog input)) as Hnd.
  apply list_elem_of_lookup_1 in H1 as [i Hi], H2 as [j Hj].
  assert (i = j) as ->; [|congruence]. eapply NoDup_lookup; [exact Hnd|..]; rewrite list_lookup_fmap_Some; eauto.
Qed.
Lemma first_failing_unique skill r1 r2 : first_failing skill r1 → first_failing skill r2 → r1 = r2.
Proof using Type.
  assert (∀ b1 a1 b2 a2, gates = b1 ++ r1 :: a1 → gates = b2 ++ r2 :: a2 → (length b1 < length b2)%nat → r1 ∈ b2) as Hlt.
  { intros b1 a1 b2 a2 H1 H2 Hl. assert (gates !! length b1 = Some r1) as Hr by (rewrite H1; by apply list_lookup_middle).
    rewrite H2, lookup_app_l in Hr by done. by eapply list_elem_of_lookup_2. }
  intros (b1 & a1 & H1 & Hp1 & Hn1) (b2 & a2 & H2 & Hp2 & Hn2).
  destruct (Nat.lt_trichotomy (length b1) (length b2)) as [Hl|[Hl|Hl]].
  - rewrite Forall_forall in Hp2. destruct Hn1. by eapply Hp2, Hlt.
  - rewrite H1 in H2. by apply app_inj_1 in H2 as [_ [= ->]].
  - rewrite Forall_forall in Hp1. destruct Hn2. apply Hp1.
    assert (gates !! length b2 = Some r2) as Hr by (rewrite H2; by apply list_lookup_middle).
    rewrite H1, lookup_app_l in Hr by done. by eapply list_elem_of_lookup_2.
Qed.

Lemma result_ids :
  let r := resolve_skills host disk input in
  let ids := (resolved_id <$> result_active r) ++ (excluded_id <$> result_excluded r) in
  NoDup ids ∧
  (∀ id, id ∈ ids ↔ id ∈ (id_of <$> catalog input) ∨ id ∈ (ref_skill_id <$> explicit_refs input)).
Proof using Type.
  destruct resolve_skills_lists as (new & Ha & Hx & Hnd & Hnew). cbn zeta.
  assert ((resolved_id <$> result_active (resolve_skills host disk input)) ++
    (excluded_id <$> result_excluded (resolve_skills host disk input)) ≡ₚ (id_of <$> firsts ∅ (catalog input)) ++ new) as Hperm.
  { rewrite Ha, Hx, fmap_app, (assoc_L (++)). unfold judged. rewrite judged_ids. rewrite <-list_fmap_compose.
    by rewrite list_fmap_id. }
  split.
  - rewrite Hperm. apply NoDup_app. split_and!; [apply firsts_NoDup| |done]. intros id [? _]%firsts_ids [_ Hn]%Hnew. done.
  - intros id. rewrite Hperm, elem_of_app, firsts_ids, Hnew. destruct (decide (id ∈ (id_of <$> catalog input))); set_solver.
Qed.

Lemma judged_active skill a : listed skill → (inl a ∈ judged ∧ definition a = skill ↔ judge host disk input skill = inl a).
Proof using Type.
  intros Hl%listed_firsts. unfold judged. rewrite list_elem_of_fmap. split.
  - intros [(s & Hj & Hs) <-]. by destruct (judge_inl s a (eq_sym Hj)) as (-> & _).
  - intros Hj. split; [by exists skill|]. by apply judge_inl in Hj as [? _].
Qed.
Lemma judged_excluded skill x : listed skill → (inr x ∈ judged ∧ excluded_id x = id_of skill ↔ judge host disk input skill = inr x).
Proof using Type.
  intros Hl. unfold judged. rewrite list_elem_of_fmap. split.
  - intros [(s & Hj & Hs%listed_firsts) Hid]. pose proof (judge_inr s x (eq_sym Hj)) as [Hid' _].
    rewrite (listed_unique skill s); [done..|congruence].
  - intros Hj. split; [exists skill; split; [done|by apply listed_firsts]|]. by apply judge_inr in Hj as [? _].
Qed.

(** C21: the skills that are active are exactly those whose first entry in the
    catalog was invoked and passes every gate, with the reason they were invoked
    for; and every other entry is excluded with the first gate it fails. What
    the gates mean is said without the code: a setting of the workspace overrides
    the global one, a path matches as a pattern means, every declared dependency
    is met, and the package on disk has nothing the security scan objects to. *)
Theorem skills_resolved_exactly :
  let r := resolve_skills host disk input in
  (∀ a, a ∈ result_active r → listed (definition a)) ∧
  (∀ skill reason, listed skill →
     ((∃ a, a ∈ result_active r ∧ definition a = skill ∧ resolved_reason a = reason) ↔
      invoked skill reason ∧ ∀ g, passes skill g)) ∧
  (∀ skill reason, listed skill →
     ((∃ x, x ∈ result_excluded r ∧ excluded_id x = id_of skill ∧ excluded_reason x = reason) ↔
      first_failing skill reason)).
Proof using Type.
  destruct resolve_skills_lists as (new & Ha & Hx & _ & Hnew). cbn zeta.
  setoid_rewrite Ha. setoid_rewrite Hx. setoid_rewrite elem_of_app. setoid_rewrite elem_lefts. setoid_rewrite elem_rights.
  split_and!.
  - intros a (s & Hj & Hs)%list_elem_of_fmap. destruct (judge_inl s a (eq_sym Hj)) as (-> & _). by apply listed_firsts.
  - intros skill reason Hl. pose proof (judge_spec skill) as Hspec. split.
    + intros (a & Hin & Hd & <-). assert (judge host disk input skill = inl a) as Hj by (by apply judged_active).
      rewrite Hj in Hspec. destruct Hspec as (_ & _ & Hr & Hp). split; [by apply Hr|done].
    + intros [Hr Hp]. destruct (judge host disk input skill) as [a|x] eqn:Hj.
      * exists a. destruct Hspec as (? & _ & Hr' & _). apply judged_active in Hj; [|done].
        split_and!; [apply Hj|done|symmetry; by apply Hr'].
      * destruct Hspec as (_ & (b & l & _ & _ & Hn) & _). by destruct Hn.
  - intros skill reason Hl. pose proof (judge_spec skill) as Hspec. split.
    + intros (x & [Hin|Hin] & Hid & <-).
      * assert (judge host disk input skill = inr x) as Hj by (by apply judged_excluded). rewrite Hj in Hspec. apply Hspec.
      * apply list_elem_of_fmap in Hin as (id & -> & [_ Hn]%Hnew). cbn in Hid. subst id.
        destruct Hn. destruct Hl as (l1 & l2 & -> & _). rewrite fmap_app, fmap_cons, elem_of_app. right. left.
    + intros Hf. destruct (judge host disk input skill) as [a|x] eqn:Hj.
      * destruct Hspec as (_ & _ & _ & Hp). destruct Hf as (b & l & _ & _ & Hn). by destruct Hn.
      * exists x. destruct Hspec as (_ & Hf' & _). apply judged_excluded in Hj as [Hin Hid]; [|done].
        split_and!; [by left|done|by eapply first_failing_unique].
Qed.

(** the result accounts for everything once: every identifier of the catalog
    or asked for is in exactly one of the two lists, one time, nothing else is;
    an identifier is reported as not found just when the catalog has no such
    skill; and the active skills are ordered by the kind of invocation and the
    identifier, the excluded ones by the identifier. *)
Theorem skills_accounted_for :
  let r := resolve_skills host disk input in
  let ids := (resolved_id <$> result_active r) ++ (excluded_id <$> result_excluded r) in
  NoDup ids ∧
  (∀ id, id ∈ ids ↔ id ∈ id_of <$> catalog input ∨ id ∈ ref_skill_id <$> explicit_refs input) ∧
  (∀ x, x ∈ result_excluded r → (excluded_reason x = NotFound ↔ excluded_id x ∉ id_of <$> catalog input)) ∧
  StronglySorted (key_lt (λ a, (rank (resolved_reason a), resolved_id a))) (result_active r) ∧
  StronglySorted (key_lt excluded_id) (result_excluded r).
Proof using Type.
  destruct result_ids as [Hnd Hids]. cbn zeta in *. split_and!; [done|done|..].
  - intros x Hx. destruct resolve_skills_lists as (new & _ & Hp & _ & Hnew). rewrite Hp, elem_of_app, elem_rights in Hx.
    destruct Hx as [(s & Hj & Hs)%list_elem_of_fmap|(id & -> & [_ Hn]%Hnew)%list_elem_of_fmap]; [|done].
    destruct (judge_inr s x (eq_sym Hj)) as (-> & _ & Hr). split; [done|]. intros []. apply firsts_ids with ∅.
    by apply list_elem_of_fmap_2.
  - apply NoDup_app in Hnd as (Hnd & _ & _). unfold resolve_skills in *. cbn in *. apply sort_on_strict.
    rewrite sort_on_perm in Hnd. apply (NoDup_fmap_1 snd). by rewrite <-list_fmap_compose.
  - apply NoDup_app in Hnd as (_ & _ & Hnd). unfold resolve_skills in *. cbn in *. apply sort_on_strict.
    by rewrite sort_on_perm in Hnd.
Qed.
End specification.

(** ** The order of the input *)

Lemma existsb_same {A} (f g : A → bool) l l' : (∀ x, f x = g x) → (∀ x, x ∈ l ↔ x ∈ l') → existsb f l = existsb g l'.
Proof using Type.
  intros Hfg Hl. apply eq_bool_prop_intro. rewrite !Is_true_true, !existsb_elem. setoid_rewrite Hfg. by setoid_rewrite Hl.
Qed.
Lemma judge_same host disk i1 i2 skill :
  (∀ r, r ∈ explicit_refs i1 ↔ r ∈ explicit_refs i2) → (∀ p, p ∈ touched_paths i1 ↔ p ∈ touched_paths i2) →
  policy_set i1 = policy_set i2 → validation_policy i1 = validation_policy i2 → dependency_input i1 = dependency_input i2 →
  judge host disk i1 skill = judge host disk i2 skill.
Proof using Type.
  intros Hr Hp Hset Hval Hdep. unfold judge. rewrite Hset, Hval, Hdep.
  assert (∀ b, resolve_reason skill (explicit_refs i1) (touched_paths i1) b =
               resolve_reason skill (explicit_refs i2) (touched_paths i2) b) as Hreason; [|by rewrite Hreason].
  intros b. unfold resolve_reason.
  rewrite (existsb_same _ _ (explicit_refs i1) (explicit_refs i2) (λ _, eq_refl) Hr).
  by rewrite (existsb_same _ _ (touched_paths i1) (touched_paths i2) (λ _, eq_refl) Hp).
Qed.
Lemma firsts_all seen l : NoDup (id_of <$> l) → (∀ skill, skill ∈ l → id_of skill ∉ seen) → firsts seen l = l.
Proof using Type.
  revert seen; induction l as [|s l IH]; intros seen Hnd Hseen; cbn [firsts]; [done|].
  apply NoDup_cons in Hnd as [Hn Hnd]. rewrite decide_False by (apply Hseen; left). f_equal. apply IH; [done|].
  intros skill Hs. rewrite not_elem_of_union, not_elem_of_singleton. split; [|apply Hseen; by right].
  intros He. apply Hn. rewrite <-He. by apply list_elem_of_fmap_2.
Qed.

(** for a catalog without repeated identifiers the result does not depend on
    the order of the catalog, nor on the order and repetition of what the user
    asked for and of the touched paths. *)
Theorem skills_order_irrelevant host disk i1 i2 :
  NoDup (id_of <$> catalog i1) → catalog i1 ≡ₚ catalog i2 →
  (∀ r, r ∈ explicit_refs i1 ↔ r ∈ explicit_refs i2) → (∀ p, p ∈ touched_paths i1 ↔ p ∈ touched_paths i2) →
  policy_set i1 = policy_set i2 → validation_policy i1 = validation_policy i2 → dependency_input i1 = dependency_input i2 →
  resolve_skills host disk i1 = resolve_skills host disk i2.
Proof using Type.
  intros Hnd Hcat Hr Hp Hset Hval Hdep.
  destruct (result_ids host disk i1) as [Hids _]. cbn zeta in Hids. apply NoDup_app in Hids as (Hactive & _ & Hexcluded).
  assert (judged host disk i1 ≡ₚ judged host disk i2) as Hj.
  { unfold judged. rewrite !firsts_all; [| |set_solver| |set_solver]; [|by rewrite <-Hcat|done].
    rewrite (list_fmap_ext (judge host disk i1) (judge host disk i2)); [by rewrite Hcat|]. intros. by apply judge_same. }
  assert (∀ A B (l l' : list (A + B)), l ≡ₚ l' → lefts l ≡ₚ lefts l' ∧ rights l ≡ₚ rights l') as Hsplit.
  { intros A B l l' Hl. unfold lefts, rights. by rewrite Hl. }
  apply Hsplit in Hj as [Hj1 Hj2].
  destruct (resolve_skills_lists host disk i1) as (n1 & Ha1 & Hx1 & Hn1 & He1).
  destruct (resolve_skills_lists host disk i2) as (n2 & Ha2 & Hx2 & Hn2 & He2).
  assert (n1 ≡ₚ n2) as Hn.
  { apply NoDup_Permutation; [done..|]. intros id. rewrite He1, He2, Hcat, !list_elem_of_fmap. by setoid_rewrite Hr. }
  rewrite Hj1, <-Ha2 in Ha1. rewrite Hj2, Hn, <-Hx2 in Hx1.
  unfold resolve_skills in *. cbn in *. rewrite !sort_on_perm in *. f_equal.
  - apply sort_on_unique; [|done]. apply (NoDup_fmap_1 snd). by rewrite <-list_fmap_compose.
  - by apply sort_on_unique.
Qed.
End resolver.

(** ** Two skills of the tests of [resolver.rs] *)
Module SampleSkills.
Definition clean : ConformanceResult := {| compliant := true; issues := [] |}.
Definition skill (id : string) (paths : list text) : SkillDefinition (RuntimeTool := unit) (Number := N) :=
  {| identity := {| skill_id := id; owner := Some (lit "workspace"); slug := lit id; name := lit id; display_name := lit id;
       source_kind := User; source_root := lit "/tmp"; skill_dir := lit "/tmp/" ++ lit id;
       skill_file := lit "/tmp/" ++ lit id ++ lit "/SKILL.md"; version_hint := None; fingerprint := lit "abc" |};
     instructions := {| description := lit "desc"; body := lit "body"; license := None; compatibility := None |};
     runtime := {| user_invocable := true; disable_model_invocation := false; paths := paths; allowed_tools := [];
       runtime_tools := []; trust_level := Community |};
     dependencies := {| env := []; bins := []; commands := []; config := []; mcp := []; api_keys := [] |};
     policy_hints := {| implicit_invocation := UserControlled; catalog_hidden := false; activation_blocked := false;
       block_issue_codes := [] |};
     metadata_known := {| openclaw := None; clawdbot := None |}; metadata_raw := JNull;
     conformance := {| agentskills_strict := clean; openclaw_compat := clean |}; availability := Available |}.
Definition no_host : Host := {| env_var := λ _, None; is_file := λ _, false |}.
Definition no_disk : Disk := {| canonicalize := λ _, None; read_dir := λ _, None; exists_ := λ _, false |}.
Definition baseline : DependencyCheckInput :=
  {| available_mcp := []; blocked_env := []; blocked_bins := []; blocked_commands := []; blocked_api_keys := [];
     blocked_mcp := []; path_override := None |}.
Definition sample_input (catalog : list SkillDefinition) : SkillResolutionInput (RuntimeTool := unit) (Number := N) :=
  {| explicit_refs := [{| ref_skill_id := "explicit"; label := None |}; {| ref_skill_id := "missing"; label := None |}];
     touched_paths := [lit "src/main.rs"]; catalog := catalog;
     policy_set := {| global_by_key := ∅; workspace_by_key := ∅ |};
     validation_policy := default_validation_policy; dependency_input := baseline |}.
Definition path_skill := skill "path" [lit "src/**"].
Definition explicit_skill := skill "explicit" [].
Definition summary (r : SkillResolutionResult (RuntimeTool := unit) (Number := N)) :=
  ((λ a, (resolved_id a, resolved_reason a)) <$> result_active r, (λ x, (excluded_id x, excluded_reason x)) <$> result_excluded r).

Example explicit_capabilities_rank_first :
  summary (resolve_skills no_host no_disk (sample_input [path_skill; explicit_skill; skill "other" []])) =
  ([("explicit", ExplicitCapability); ("path", PathMatch)], [("missing", NotFound); ("other", NotMatched)]).
Proof. vm_compute. reflexivity. Qed.
Lemma skills_order_irrelevant_witness :
  resolve_skills no_host no_disk (sample_input [path_skill; explicit_skill]) =
  resolve_skills no_host no_disk (sample_input [explicit_skill; path_skill]).
Proof.
  apply skills_order_irrelevant; try done.
  - apply (bool_decide_unpack _). vm_compute. exact I.
  - apply Permutation_swap.
Defined.
End SampleSkills.
