(* ===== verification/NetworkPolicy.v ===== *)
(** * Which addresses a turn may reach

    Models [crates/tools/src/network_policy.rs], the check of a URL against the
    network policy of a turn, and the functions of
    [crates/tools/src/orchestrator.rs] that widen the policy by approved grants
    and keep them within the authority of the turn. The url crate is a class: the
    parts of a parsed URL and how it parses are its own; the parser of IP
    addresses is the one of the standard library. *)
From S2P Require Import Prelude TextSplit.
Local Open Scope N_scope.

(** ** Parsing IP addresses ([core::net::parser])

    A parser that fails consumes nothing. *)
Module Ip.
Definition digit_of (radix c : N) : option N :=
  let d := if decide (48 ≤ c ∧ c ≤ 57) then Some (c - 48)
           else if decide (97 ≤ c ∧ c ≤ 122) then Some (c - 87)
           else if decide (65 ≤ c ∧ c ≤ 90) then Some (c - 55) else None in
  d ← d; if decide (d < radix) then Some d else None.
(** [read_number]: the value must fit [max], the digits [max_digits]. *)
Fixpoint read_digits (radix max : N) (max_digits count : nat) (value : N) (s : text) : option (N * nat * text) :=
  match s with
  | [] => Some (value, count, s)
  | c :: rest =>
      match digit_of radix c with
      | None => Some (value, count, s)
      | Some d =>
          if decide (max < value * radix) then None
          else if decide (max < value * radix + d) then None
          else if decide (max_digits < S count)%nat then None
          else read_digits radix max max_digits (S count) (value * radix + d) rest
      end
  end.
Definition read_number (radix max : N) (max_digits : nat) (allow_zero_prefix : bool) (s : text) : option (N * text) :=
  let has_leading_zero := bool_decide (head s = Some 48) in
  '(value, count, rest) ← read_digits radix max max_digits 0 0 s;
  if decide (count = 0)%nat then None
  else if negb allow_zero_prefix && has_leading_zero && bool_decide (1 < count)%nat then None
  else Some (value, rest).
Definition read_given (c : N) (s : text) : option text :=
  match s with d :: s => if decide (c = d) then Some s else None | [] => None end.
(** [read_separator]: a separator in front of every item but the first. *)
Definition read_separator {A} (sep : N) (index : nat) (inner : text → option (A * text)) (s : text) : option (A * text) :=
  match index with O => inner s | S _ => s ← read_given sep s; inner s end.

Fixpoint read_octets (n index : nat) (s : text) : option (list N * text) :=
  match n with
  | O => Some ([], s)
  | S n =>
      '(o, s) ← read_separator 46 index (read_number 10 255 3 false) s;
      '(os, s) ← read_octets n (S index) s; Some (o :: os, s)
  end.
Definition read_ipv4_addr (s : text) : option (list N * text) := read_octets 4 0 s.

(** [read_groups]: up to [limit] groups, the last two of which may be an IPv4
    address; with whether they were. *)
Fixpoint read_groups (fuel limit index : nat) (s : text) : list N * bool * text :=
  match fuel with
  | O => ([], false, s)
  | S fuel =>
      let ipv4 := if decide (S index < limit)%nat then read_separator 58 index read_ipv4_addr s else None in
      match ipv4 with
      | Some ([a; b; c; d], s) => ([a * 256 + b; c * 256 + d], true, s)
      | _ =>
          match read_separator 58 index (read_number 16 65535 4 true) s with
          | Some (g, s) => let '(gs, v4, s) := read_groups fuel limit (S index) s in (g :: gs, v4, s)
          | None => ([], false, s)
          end
      end
  end.
Definition read_ipv6_addr (s : text) : option (list N * text) :=
  let '(groups, head_ipv4, s) := read_groups 8 8 0 s in
  if decide (length groups = 8)%nat then Some (groups, s)
  else if (head_ipv4 : bool) then None
  else
    s ← read_given 58 s; s ← read_given 58 s;
    let limit := (8 - (length groups + 1))%nat in
    let '(tail, _, s) := read_groups limit limit 0 s in
    Some (groups ++ replicate (8 - length groups - length tail) 0 ++ tail, s).

Inductive IpAddr := V4 (octets : list N) | V6 (segments : list N).
(** [str::parse::<IpAddr>]: the whole text. *)
Definition parse (s : text) : option IpAddr :=
  let address :=
    match read_ipv4_addr s with
    | Some (octets, s) => Some (V4 octets, s)
    | None => '(segments, s) ← read_ipv6_addr s; Some (V6 segments, s)
    end in
  '(a, rest) ← address; if decide (rest = []) then Some a else None.
Definition is_loopback (a : IpAddr) : bool :=
  match a with
  | V4 octets => bool_decide (head octets = Some 127)
  | V6 segments => bool_decide (segments = [0; 0; 0; 0; 0; 0; 0; 1])
  end.

Example loopbacks :
  (λ s, is_loopback <$> parse (lit s)) <$> ["127.0.0.1"; "127.1"; "::1"; "[::1]"; "0:0::0:1"; "::ffff:127.0.0.1"; "10.0.0.1"; "127.0.0.01"] =
  [Some true; None; Some true; None; Some true; Some false; Some false; None].
Proof. vm_compute. reflexivity. Qed.
End Ip.

(** ** The url crate *)
Class UrlApi := {
  Url : Type;
  url_parse : text → result text Url;          (* [Url::parse], with the error's display *)
  scheme : Url → text;
  host_str : Url → option text;
  port_or_known_default : Url → option N;
}.

(** ** Policies and decisions *)

Inductive TurnNetworkMode := Disabled | Restricted | Enabled.
#[export] Instance TurnNetworkMode_eq_dec : EqDecision TurnNetworkMode.
Proof. solve_decision. Defined.
Record TurnNetworkPolicySnapshot := {
  mode : TurnNetworkMode; allowed_domains : list text; denied_domains : list text;
  allow_localhost : bool; allow_unix_sockets : bool;
}.
#[export] Instance policy_fields : Fields TurnNetworkPolicySnapshot := λ p,
  {| mode := mode p; allowed_domains := allowed_domains p; denied_domains := denied_domains p;
     allow_localhost := allow_localhost p; allow_unix_sockets := allow_unix_sockets p |}.
Definition enabled_policy : TurnNetworkPolicySnapshot :=
  {| mode := Enabled; allowed_domains := []; denied_domains := []; allow_localhost := true; allow_unix_sockets := true |}.
Definition disabled_policy : TurnNetworkPolicySnapshot :=
  {| mode := Disabled; allowed_domains := []; denied_domains := []; allow_localhost := false; allow_unix_sockets := false |}.

(** The parts of a security snapshot that concern the network. *)
Record TurnExecutionSecuritySnapshot := {
  network : TurnNetworkPolicySnapshot; sandbox_network : TurnNetworkPolicySnapshot; cap_network : TurnNetworkPolicySnapshot;
}.
#[export] Instance snapshot_fields : Fields TurnExecutionSecuritySnapshot := λ s,
  {| network := network s; sandbox_network := sandbox_network s; cap_network := cap_network s |}.

Inductive NetworkPolicyDenyReason := InvalidUrl | UnsupportedScheme | MissingHost | NetworkDisabled | HostDenied | HostNotAllowed.
#[export] Instance NetworkPolicyDenyReason_eq_dec : EqDecision NetworkPolicyDenyReason.
Proof. solve_decision. Defined.
Record NetworkPolicyGrant := { grant_operation : text; grant_url : text; grant_host : text; grant_mode : TurnNetworkMode }.
Record NetworkPolicyDeny := {
  deny_operation : text; deny_url : text; deny_host : option text; deny_reason : NetworkPolicyDenyReason; deny_message : text;
}.
Inductive NetworkPolicyDecision := Allowed (grant : NetworkPolicyGrant) | Denied (d : NetworkPolicyDeny).
Definition is_allowed (d : NetworkPolicyDecision) : bool := match d with Allowed _ => true | Denied _ => false end.
Inductive ToolError :=
  | InvalidArguments (m : text) | ToolNotFound (m : text) | NotVisible (m : text) | Rejected (m : text)
  | Cancelled (m : text) | ExecutionFailed (m : text) | Internal (m : text).

(** ** Hosts *)

(** [trim_end_matches], [trim_start_matches]. *)
Fixpoint drop_leading (c : N) (s : text) : text :=
  match s with d :: r => if decide (d = c) then drop_leading c r else s | [] => [] end.
Definition drop_trailing (c : N) (s : text) : text := reverse (drop_leading c (reverse s)).
Fixpoint drop_prefixes (p : text) (fuel : nat) (s : text) : text :=
  match fuel with
  | O => s
  | S fuel => match strip_prefix p s with Some r => drop_prefixes p fuel r | None => s end
  end.
Definition DOT : N := 46.
Definition normalize_host (host : text) : text := to_ascii_lowercase (drop_trailing DOT (trim host)).
Definition normalize_domain_rule (domain : text) : text :=
  let s := trim domain in
  to_ascii_lowercase (drop_trailing DOT (drop_leading DOT (drop_prefixes (lit "*.") (length s) s))).
Definition domain_matches (host domain : text) : bool := bool_decide (host = domain) || ends_with (DOT :: domain) host.
Definition is_localhost (host : text) : bool :=
  bool_decide (host = lit "localhost") || ends_with (lit ".localhost") host ||
  match Ip.parse host with Some address => Ip.is_loopback address | None => false end.
Definition eq_ignore_ascii_case (a b : text) : bool := bool_decide (to_ascii_lowercase a = to_ascii_lowercase b).

Section network_policy.
Context `{UrlApi}.

Definition is_http (s : text) : bool := bool_decide (s = lit "http" ∨ s = lit "https").
Definition rule_matches (url : Url) (host rule : text) : bool :=
  match strip_prefix [61] (trim rule) with
  | Some exact =>
      match url_parse exact with
      | Ok exact_url =>
          match is_http (scheme exact_url), host_str exact_url with
          | true, Some exact_host =>
              eq_ignore_ascii_case (scheme exact_url) (scheme url) && bool_decide (normalize_host exact_host = host) &&
              bool_decide (port_or_known_default exact_url = port_or_known_default url)
          | _, _ => bool_decide (normalize_host exact = host)
          end
      | Err _ => bool_decide (normalize_host exact = host)
      end
  | None =>
      let domain := normalize_domain_rule rule in
      negb (bool_decide (domain = [])) && domain_matches host domain
  end.
Definition network_rule_list_matches (rules : list text) (url : Url) (host : text) : bool :=
  existsb (rule_matches url host) rules.

Definition deny (operation url : text) (host : option text) (reason : NetworkPolicyDenyReason) (message : text)
    : NetworkPolicyDecision :=
  Denied {| deny_operation := operation; deny_url := url; deny_host := host; deny_reason := reason; deny_message := message |}.
Definition check_url (snapshot : TurnExecutionSecuritySnapshot) (url operation : text) : NetworkPolicyDecision :=
  match url_parse url with
  | Err error => deny operation url None InvalidUrl (lit "invalid url `" ++ url ++ lit "`: " ++ error)
  | Ok parsed =>
      if negb (is_http (scheme parsed))
      then deny operation url (host_str parsed) UnsupportedScheme
             (lit "unsupported url scheme `" ++ scheme parsed ++ lit "` (expected http or https)")
      else
        match host_str parsed with
        | None => deny operation url None MissingHost (lit "network policy requires a host for HTTP access")
        | Some raw =>
            let host := normalize_host raw in
            if decide (host = [])
            then deny operation url None MissingHost (lit "network policy requires a host for HTTP access")
            else
              let policy := network snapshot in
              let allowed := Allowed {| grant_operation := operation; grant_url := url; grant_host := host; grant_mode := mode policy |} in
              if network_rule_list_matches (denied_domains policy) parsed host
              then deny operation url (Some host) HostDenied (lit "network access denied by turn security policy")
              else
                match mode policy with
                | Enabled => allowed
                | Disabled => deny operation url (Some host) NetworkDisabled (lit "network access is disabled for this turn")
                | Restricted =>
                    if allow_localhost policy && is_localhost host && bool_decide (allowed_domains policy = []) then allowed
                    else if network_rule_list_matches (allowed_domains policy) parsed host then allowed
                    else deny operation url (Some host) HostNotAllowed (lit "network host is not in the turn security allowlist")
                end
        end
  end.
Definition enforce_network_url (snapshot : option TurnExecutionSecuritySnapshot) (url operation : text) : result ToolError () :=
  match snapshot with
  | None => Err (Rejected (lit "missing turn execution security snapshot; refusing " ++ operation ++
                           lit " network access without resolved sandbox policy"))
  | Some snapshot =>
      match check_url snapshot url operation with
      | Allowed _ => Ok ()
      | Denied d =>
          match deny_reason d with
          | InvalidUrl | UnsupportedScheme | MissingHost => Err (InvalidArguments (deny_message d))
          | NetworkDisabled | HostDenied | HostNotAllowed => Err (Rejected (deny_message d))
          end
      end
  end.

(** ** Grants ([orchestrator.rs]) *)

Inductive NetworkAccessRequirement := RequireEnabled | RequireOrigin (url origin host : text).
Inductive NetworkAccessGrant := GrantEnabled | GrantOrigin (origin host : text).
Definition is_enabled_grant (g : NetworkAccessGrant) : bool := match g with GrantEnabled => true | GrantOrigin _ _ => false end.

Definition merge_origin (policy : TurnNetworkPolicySnapshot) (grant : NetworkAccessGrant) : TurnNetworkPolicySnapshot :=
  match grant with
  | GrantEnabled => policy
  | GrantOrigin origin host =>
      let policy := if is_localhost host then policy <| allow_localhost := true |> else policy in
      let exact_origin := 61 :: origin in
      if existsb (λ existing, eq_ignore_ascii_case existing exact_origin) (allowed_domains policy) then policy
      else policy <| allowed_domains := allowed_domains policy ++ [exact_origin] |>
  end.
Definition merge_network_policy_grants (policy : TurnNetworkPolicySnapshot) (grants : list NetworkAccessGrant)
    : TurnNetworkPolicySnapshot :=
  if existsb is_enabled_grant grants then enabled_policy
  else
    let policy := if decide (mode policy = Disabled) then policy <| mode := Restricted |> else policy in
    if decide (mode policy ≠ Restricted) then policy
    else foldl merge_origin policy grants.
Definition merge_grant (existing : list NetworkAccessGrant) (grant : NetworkAccessGrant) : list NetworkAccessGrant :=
  match grant with
  | GrantEnabled => existing
  | GrantOrigin origin host =>
      if existsb (λ e, match e with GrantOrigin o _ => eq_ignore_ascii_case o origin | GrantEnabled => true end) existing
      then existing else existing ++ [GrantOrigin origin host]
  end.
Definition merge_network_grants (existing incoming : list NetworkAccessGrant) : list NetworkAccessGrant :=
  if existsb is_enabled_grant existing then existing
  else if existsb is_enabled_grant incoming then [GrantEnabled]
  else foldl merge_grant existing incoming.

Definition within_cap (snapshot : TurnExecutionSecuritySnapshot) (grant : NetworkAccessGrant) : bool :=
  let cap := cap_network snapshot in
  match grant with
  | GrantEnabled => bool_decide (mode cap = Enabled)
  | GrantOrigin origin host =>
      if is_localhost host && negb (bool_decide (mode cap = Enabled)) && negb (allow_localhost cap) then false
      else is_allowed (check_url ((snapshot <| network := cap |>) <| sandbox_network := cap |>) origin (lit "authority cap"))
  end.
Definition network_grants_within_authority_cap (snapshot : option TurnExecutionSecuritySnapshot)
    (grants : list NetworkAccessGrant) : bool :=
  match snapshot with
  | None => bool_decide (grants = [])
  | Some snapshot => forallb (within_cap snapshot) grants
  end.
Definition missing_for (snapshot : TurnExecutionSecuritySnapshot) (requirement : NetworkAccessRequirement) : list NetworkAccessGrant :=
  match requirement with
  | RequireEnabled => if decide (mode (network snapshot) ≠ Enabled) then [GrantEnabled] else []
  | RequireOrigin url origin host =>
      match check_url snapshot url (lit "network grant") with
      | Allowed _ => []
      | Denied d =>
          match deny_reason d with
          | NetworkDisabled | HostNotAllowed => [GrantOrigin origin host]
          | _ => []
          end
      end
  end.
Definition missing_network_access_grants (snapshot : option TurnExecutionSecuritySnapshot)
    (requirements : list NetworkAccessRequirement) : list NetworkAccessGrant :=
  match snapshot with
  | None => []
  | Some snapshot => merge_network_grants [] (flat_map (missing_for snapshot) requirements)
  end.
Definition apply_network_grants_to_invocation (snapshot : option TurnExecutionSecuritySnapshot)
    (grants : list NetworkAccessGrant) : option TurnExecutionSecuritySnapshot :=
  match snapshot with
  | None => None
  | Some snapshot =>
      if decide (grants = [] ∨ mode (network snapshot) = Enabled) then Some snapshot
      else
        let grants := filter (λ grant, network_grants_within_authority_cap (Some snapshot) [grant] = true) grants in
        let merged := merge_network_policy_grants (network snapshot) grants in
        Some ((snapshot <| network := merged |>) <| sandbox_network := merged |>)
  end.

(** ** What the rules mean *)

(** A host is in a domain when its labels end with those of the domain. *)
Definition in_domain (host domain : text) : Prop := ∃ labels, split_on DOT host = labels ++ split_on DOT domain.
(** What a rule covers: [=origin] the scheme, host and port of the origin, [=host]
    that host alone, a domain the hosts in it. *)
Inductive covers (u : Url) (host rule : text) : Prop :=
  | covers_origin exact e h :
      trim rule = 61 :: exact → url_parse exact = Ok e → is_http (scheme e) = true → host_str e = Some h →
      to_ascii_lowercase (scheme e) = to_ascii_lowercase (scheme u) → normalize_host h = host →
      port_or_known_default e = port_or_known_default u → covers u host rule
  | covers_host exact :
      trim rule = 61 :: exact → (∀ e, url_parse exact = Ok e → is_http (scheme e) = true → host_str e = None) →
      normalize_host exact = host → covers u host rule
  | covers_domain domain :
      (∀ exact, trim rule ≠ 61 :: exact) → normalize_domain_rule rule = domain → domain ≠ [] → in_domain host domain →
      covers u host rule.

(** The request a URL stands for. *)
Definition requests (url : text) (u : Url) (host : text) : Prop :=
  url_parse url = Ok u ∧ is_http (scheme u) = true ∧ ∃ raw, host_str u = Some raw ∧ normalize_host raw = host ∧ host ≠ [].
(** What a policy permits. *)
Definition permits (p : TurnNetworkPolicySnapshot) (u : Url) (host : text) : Prop :=
  (∀ rule, rule ∈ denied_domains p → ¬ covers u host rule) ∧
  match mode p with
  | Enabled => True
  | Disabled => False
  | Restricted =>
      (∃ rule, rule ∈ allowed_domains p ∧ covers u host rule) ∨
      allowed_domains p = [] ∧ allow_localhost p = true ∧ is_localhost host = true
  end.

Lemma domain_matches_labels host domain : domain_matches host domain = true ↔ in_domain host domain.
Proof.
  unfold domain_matches, in_domain. rewrite orb_true_iff, bool_decide_eq_true, ends_with_spec. split.
  - intros [->|[u ->]]; [by exists []|]. exists (split_on DOT u). apply split_on_app_sep.
  - intros [labels Hl]. destruct (decide (labels = [])) as [->|Hne]; [left; by apply (split_on_inj DOT)|].
    right. exists (join_with DOT labels). rewrite <-(proj2 (split_on_pieces DOT host)), Hl.
    rewrite join_with_app by (done || destruct (split_on_cons DOT domain) as (? & ? & ->); done).
    by rewrite (proj2 (split_on_pieces DOT domain)).
Qed.
Lemma rule_matches_covers u host rule : rule_matches u host rule = true ↔ covers u host rule.
Proof.
  unfold rule_matches. destruct (strip_prefix [61] (trim rule)) as [exact|] eqn:Hstrip.
  - apply strip_prefix_Some in Hstrip. cbn [app] in Hstrip.
    assert (∀ exact', trim rule = 61 :: exact' → exact' = exact) as Hinj by (intros ? Hr; congruence).
    assert ((∀ e, url_parse exact = Ok e → is_http (scheme e) = true → host_str e = None) →
      bool_decide (normalize_host exact = host) = true ↔ covers u host rule) as Hhost.
    { intros Hno. rewrite bool_decide_eq_true. split; [intros; by eapply covers_host|].
      intros [? e h Hr Hp Hs Hh|? Hr ? ?|? Hr]; [|by apply Hinj in Hr as ->|by apply Hr in Hstrip].
      apply Hinj in Hr as ->. by rewrite (Hno e Hp Hs) in Hh. }
    destruct (url_parse exact) as [e|err] eqn:Hparse; [|apply Hhost; naive_solver].
    destruct (is_http (scheme e)) eqn:Hs, (host_str e) as [h|] eqn:Hh; try (apply Hhost; naive_solver congruence).
    unfold eq_ignore_ascii_case. rewrite !andb_true_iff, !bool_decide_eq_true. split.
    + intros [[? ?] ?]. by eapply covers_origin.
    + intros [? e' h' Hr Hp Hs' Hh'|? Hr Hno|? Hr]; [|apply Hinj in Hr as ->; naive_solver congruence|by apply Hr in Hstrip].
      apply Hinj in Hr as ->. naive_solver congruence.
  - assert (∀ exact, trim rule ≠ 61 :: exact) as Hno.
    { intros exact Hr. by rewrite Hr in Hstrip. }
    rewrite andb_true_iff, negb_true_iff, bool_decide_eq_false, domain_matches_labels. split.
    + intros [? ?]. by eapply covers_domain.
    + intros [? ? ? Hr|? Hr|? ? <-]; [by apply Hno in Hr..|done].
Qed.
Lemma rule_list_covers rules u host :
  network_rule_list_matches rules u host = true ↔ ∃ rule, rule ∈ rules ∧ covers u host rule.
Proof. unfold network_rule_list_matches. rewrite existsb_elem. by setoid_rewrite rule_matches_covers. Qed.

Lemma requests_only url u raw :
  url_parse url = Ok u → is_http (scheme u) = true → host_str u = Some raw → normalize_host raw ≠ [] →
  ∀ P : Url → text → Prop, (∃ u' host, requests url u' host ∧ P u' host) ↔ P u (normalize_host raw).
Proof.
  intros Hp Hs Hr Hn P. unfold requests.
  split; [|intros HP; exists u, (normalize_host raw); split; [split_and!; [done|done|by exists raw]|done]].
  intros (u' & host & (Hp' & _ & raw' & Hr' & <- & _) & HP).
  assert (u' = u) as -> by congruence. by assert (raw' = raw) as -> by congruence.
Qed.
Ltac refused := cbn; split; [done|]; intros (? & ? & (? & ? & ? & ? & ? & ?) & _); congruence.
Lemma check_url_permits snapshot url operation :
  is_allowed (check_url snapshot url operation) = true ↔
  ∃ u host, requests url u host ∧ permits (network snapshot) u host.
Proof.
  unfold check_url. destruct (url_parse url) as [u|e] eqn:Hp; [|by refused].
  destruct (is_http (scheme u)) eqn:Hs; cbn [negb]; [|by refused].
  destruct (host_str u) as [raw|] eqn:Hraw; [|by refused].
  case_decide as Hnil; [by refused|].
  rewrite (requests_only url u raw Hp Hs Hraw Hnil). unfold permits.
  destruct (network_rule_list_matches (denied_domains _) _ _) eqn:Hden.
  { apply rule_list_covers in Hden. naive_solver. }
  rewrite <-not_true_iff_false, rule_list_covers in Hden.
  assert (∀ rule, rule ∈ denied_domains (network snapshot) → ¬ covers u (normalize_host raw) rule) as Hden' by naive_solver.
  destruct (mode (network snapshot)); [naive_solver| |naive_solver].
  rewrite <-rule_list_covers.
  destruct (allow_localhost _ && is_localhost _ && bool_decide _) eqn:Hlocal.
  - rewrite !andb_true_iff, bool_decide_eq_true in Hlocal. naive_solver.
  - rewrite !andb_false_iff, bool_decide_eq_false in Hlocal. destruct (network_rule_list_matches _ _ _); naive_solver.
Qed.

Ltac blamed :=
  cbn; split; [intros _; split; [by eexists|]; intros ? ? (? & ? & ? & ? & ? & ?); congruence|intros _; by eexists].

(** C27: a request is let through exactly when the policy permits it: the URL is
    http or https with a host, no denied rule covers it, whatever the mode and
    the allowed rules say, and the network is enabled, or it is restricted and
    an allowed rule covers the request or, without any allowed rule, it goes to
    a loopback name or address and these are allowed. Without a snapshot nothing
    is let through, and a refusal is blamed on the arguments exactly when the URL
    is not a request at all. *)
Theorem network_access_exact snapshot url operation :
  (enforce_network_url snapshot url operation = Ok () ↔
   ∃ s u host, snapshot = Some s ∧ requests url u host ∧ permits (network s) u host) ∧
  ((∃ m, enforce_network_url snapshot url operation = Err (InvalidArguments m)) ↔
   is_Some snapshot ∧ ∀ u host, ¬ requests url u host).
Proof.
  unfold enforce_network_url. destruct snapshot as [s|]; [|split; [naive_solver|]; unfold is_Some; naive_solver].
  pose proof (check_url_permits s url operation) as Hok. split.
  - destruct (check_url s url operation) as [g|d]; cbn in Hok.
    + split; [|done]. intros _. destruct Hok as [Hok _]. destruct (Hok eq_refl) as (u & host & ? & ?). by exists s, u, host.
    + split; [by destruct (deny_reason d)|]. intros (s' & u & host & [= <-] & ? & ?). exfalso. naive_solver.
  - clear Hok. unfold check_url.
    destruct (url_parse url) as [u|e] eqn:Hp; [|by blamed].
    destruct (is_http (scheme u)) eqn:Hs; cbn [negb]; [|by blamed].
    destruct (host_str u) as [raw|] eqn:Hraw; [|by blamed].
    case_decide as Hnil; [by blamed|].
    split; [|intros [_ Hno]; destruct (Hno u (normalize_host raw)); split_and!; [done|done|by exists raw]].
    intros [m Hm]. exfalso. revert Hm.
    destruct (network_rule_list_matches (denied_domains _) _ _); [done|]. destruct (mode _); [done| |done].
    destruct (allow_localhost _ && _ && _); [done|]. by destruct (network_rule_list_matches _ _ _).
Qed.

(** ** Grants *)

(** The url crate reads a URL without regard to the case of its letters, as far
    as its scheme, host and port go. *)
Definition case_blind : Prop := ∀ a b, to_ascii_lowercase a = to_ascii_lowercase b →
  match url_parse a, url_parse b with
  | Ok u, Ok v => scheme u = scheme v ∧ (normalize_host <$> host_str u) = (normalize_host <$> host_str v) ∧
      port_or_known_default u = port_or_known_default v
  | Err _, Err _ => True
  | _, _ => False
  end.

Definition lower (c : N) : N := if decide (65 ≤ c ∧ c ≤ 90) then c + 32 else c.
Lemma lower_whitespace c : is_whitespace (lower c) = is_whitespace c.
Proof.
  unfold lower. case_decide; [|done]. unfold is_whitespace. by rewrite !bool_decide_eq_false_2 by lia.
Qed.
Lemma lower_DOT c : lower c = DOT ↔ c = DOT.
Proof. unfold lower, DOT. case_decide; lia. Qed.
Lemma trim_start_lower s : trim_start (lower <$> s) = lower <$> trim_start s.
Proof. induction s as [|c s IH]; cbn; [done|]. rewrite lower_whitespace. by destruct (is_whitespace c). Qed.
Lemma fmap_reverse_lower s : lower <$> reverse s = reverse (lower <$> s).
Proof. apply fmap_reverse. Qed.
Lemma trim_end_lower s : trim_end (lower <$> s) = lower <$> trim_end s.
Proof. unfold trim_end. by rewrite <-fmap_reverse, trim_start_lower, fmap_reverse. Qed.
Lemma drop_trailing_lower s : drop_trailing DOT (lower <$> s) = lower <$> drop_trailing DOT s.
Proof.
  unfold drop_trailing. rewrite <-fmap_reverse. assert (∀ t, drop_leading DOT (lower <$> t) = lower <$> drop_leading DOT t) as ->.
  { intros t. induction t as [|c t IH]; cbn; [done|]. pose proof (lower_DOT c). repeat case_decide; tauto || done. }
  apply eq_sym, fmap_reverse.
Qed.
Lemma normalize_host_lower a b : to_ascii_lowercase a = to_ascii_lowercase b → normalize_host a = normalize_host b.
Proof.
  unfold normalize_host, to_ascii_lowercase, trim. fold lower. change (λ c, if decide (65 ≤ c ∧ c ≤ 90) then c + 32 else c) with lower.
  intros Hab. by rewrite <-!drop_trailing_lower, <-!trim_end_lower, <-!trim_start_lower, Hab.
Qed.
Lemma trim_origin a : trim (61 :: a) = 61 :: trim_end a.
Proof.
  unfold trim. cbn [trim_start]. change (is_whitespace 61) with false. cbn iota. unfold trim_end. rewrite reverse_cons.
  assert (∀ t, trim_start (t ++ [61]) = trim_start t ++ [61]) as ->; [|by rewrite reverse_app].
  induction t as [|c t IH]; [done|]. cbn [app trim_start]. by destruct (is_whitespace c).
Qed.

Lemma covers_case u host a b :
  case_blind → to_ascii_lowercase a = to_ascii_lowercase b → covers u host (61 :: a) → covers u host (61 :: b).
Proof.
  intros Hblind Hab Hc.
  assert (to_ascii_lowercase (trim_end a) = to_ascii_lowercase (trim_end b)) as Hend.
  { unfold to_ascii_lowercase in *. change (λ c, if decide (65 ≤ c ∧ c ≤ 90) then c + 32 else c) with lower in *.
    by rewrite <-!trim_end_lower, Hab. }
  pose proof (Hblind _ _ Hend) as Hp. pose proof (normalize_host_lower _ _ Hend) as Hh.
  destruct Hc as [exact e h Ht Hpa Hs Hhost Hscheme Hnorm Hport|exact Ht Hno Hnorm|domain Hno];
    [rewrite trim_origin in Ht; injection Ht as <-..|by destruct (Hno (trim_end a)); apply trim_origin].
  - rewrite Hpa in Hp. destruct (url_parse (trim_end b)) as [v|] eqn:Hpb; [|done]. destruct Hp as (Hsv & Hhv & Hpv).
    rewrite Hhost in Hhv. destruct (host_str v) as [h'|] eqn:Hhb; [|done]. injection Hhv as Hhv.
    eapply covers_origin; [apply trim_origin|exact Hpb|by rewrite <-Hsv|exact Hhb|by rewrite <-Hsv|congruence|congruence].
  - eapply covers_host; [apply trim_origin| |congruence]. intros v Hpb Hs. rewrite Hpb in Hp.
    destruct (url_parse (trim_end a)) as [e|] eqn:Hpa; [|done]. destruct Hp as (Hsv & Hhv & _).
    rewrite (Hno e eq_refl) in Hhv by (by rewrite Hsv). by destruct (host_str v).
Qed.

Lemma lower_equals a o : to_ascii_lowercase a = to_ascii_lowercase (61 :: o) → ∃ a', a = 61 :: a' ∧ to_ascii_lowercase a' = to_ascii_lowercase o.
Proof.
  destruct a as [|c a]; [done|]. unfold to_ascii_lowercase. cbn. intros [= Hc Ha]. exists a. split; [|done]. f_equal.
  revert Hc. case_decide; [lia|]. by intros ->.
Qed.
(** One grant adds its origin, or the list already covers it. *)
Lemma merge_origin_one policy origin h (q := merge_origin policy (GrantOrigin origin h)) :
  case_blind →
  mode q = mode policy ∧ denied_domains q = denied_domains policy ∧ allowed_domains q ≠ [] ∧
  ∀ u host, (∃ rule, rule ∈ allowed_domains q ∧ covers u host rule) ↔
    (∃ rule, rule ∈ allowed_domains policy ∧ covers u host rule) ∨ covers u host (61 :: origin).
Proof.
  intros Hblind. unfold q, merge_origin. set (p := if is_localhost h then _ else policy).
  assert (mode p = mode policy ∧ denied_domains p = denied_domains policy ∧ allowed_domains p = allowed_domains policy) as (<- & <- & <-).
  { unfold p. by case_match. }
  destruct (existsb _ (allowed_domains p)) eqn:Hex.
  - apply existsb_elem in Hex as (e & He & Heq). unfold eq_ignore_ascii_case in Heq. apply bool_decide_eq_true in Heq.
    split_and!; [done|done|intros Hnil; rewrite Hnil in He; by apply elem_of_nil in He|].
    intros u host. split; [auto|]. intros [?|Hc]; [done|]. exists e. split; [done|].
    destruct (lower_equals _ _ Heq) as (a & -> & Ha). by eapply covers_case; [..|exact Hc].
  - cbn. split_and!; [done|done|by destruct (allowed_domains p)|]. intros u host.
    setoid_rewrite elem_of_app. setoid_rewrite list_elem_of_singleton. naive_solver.
Qed.
Lemma merge_origin_spec policy grants (q := foldl merge_origin policy grants) :
  case_blind → existsb is_enabled_grant grants = false →
  mode q = mode policy ∧ denied_domains q = denied_domains policy ∧
  (grants ≠ [] → allowed_domains q ≠ []) ∧
  ∀ u host, (∃ rule, rule ∈ allowed_domains q ∧ covers u host rule) ↔
    (∃ rule, rule ∈ allowed_domains policy ∧ covers u host rule) ∨
    (∃ origin h, GrantOrigin origin h ∈ grants ∧ covers u host (61 :: origin)).
Proof.
  intros Hblind. unfold q. clear q. induction grants as [|g grants IH] using rev_ind; intros Hg.
  { split_and!; [done..|]. intros u host. cbn. setoid_rewrite elem_of_nil. naive_solver. }
  rewrite existsb_app, orb_false_iff in Hg. destruct Hg as [Hg Hlast]. destruct g as [|origin h]; [done|].
  rewrite foldl_app. cbn [foldl]. destruct (IH Hg) as (Hm & Hd & _ & Hc).
  destruct (merge_origin_one (foldl merge_origin policy grants) origin h Hblind) as (Hm' & Hd' & Hn' & Hc').
  split_and!; [congruence|congruence|done|]. intros u host. rewrite Hc', Hc.
  setoid_rewrite elem_of_app. setoid_rewrite list_elem_of_singleton. naive_solver.
Qed.

(** A policy to which origins can be added without changing what else it means. *)
Definition grantable (p : TurnNetworkPolicySnapshot) : Prop :=
  mode p = Restricted ∧ (allow_localhost p = false ∨ allowed_domains p ≠ []) ∨
  mode p = Disabled ∧ allow_localhost p = false ∧ allowed_domains p = [].
Definition granted (policy : TurnNetworkPolicySnapshot) (grants : list NetworkAccessGrant) (u : Url) (host : text) : Prop :=
  (∀ rule, rule ∈ denied_domains policy → ¬ covers u host rule) ∧
  ∃ origin h, GrantOrigin origin h ∈ grants ∧ covers u host (61 :: origin).
Lemma merged_permits policy grants u host :
  case_blind → existsb is_enabled_grant grants = false → grantable policy →
  (permits (merge_network_policy_grants policy grants) u host ↔ permits policy u host ∨ granted policy grants u host).
Proof.
  intros Hblind Hg Hok. unfold merge_network_policy_grants. rewrite Hg.
  set (p := if decide (mode policy = Disabled) then policy <| mode := Restricted |> else policy).
  assert (mode p = Restricted ∧ denied_domains p = denied_domains policy ∧ allowed_domains p = allowed_domains policy ∧
          allow_localhost p = allow_localhost policy) as (Hm & Hd & Ha & Hl).
  { unfold p. destruct Hok as [[Hm _]|[Hm _]]; rewrite Hm; by case_decide. }
  rewrite decide_False by (by rewrite Hm; intros []).
  destruct (merge_origin_spec p grants Hblind Hg) as (Hm' & Hd' & Hn' & Hc).
  unfold permits, granted. rewrite Hm', Hm, Hd', Hd, Hc, Ha.
  assert (allowed_domains (foldl merge_origin p grants) = [] ∧ allow_localhost (foldl merge_origin p grants) = true ∧
          is_localhost host = true → False) as Hnolocal.
  { intros (Hnil & Hloc & _). destruct grants as [|g grants]; [|by destruct Hn']. cbn in *. rewrite Ha in Hnil.
    rewrite Hl in Hloc. destruct Hok as [[_ []]|(_ & ? & _)]; congruence. }
  destruct Hok as [[Hmode Hok]|(Hmode & _ & Hnil)]; rewrite Hmode.
  - assert (allowed_domains policy = [] ∧ allow_localhost policy = true ∧ is_localhost host = true → False).
    { intros (? & ? & _). destruct Hok; congruence. }
    tauto.
  - assert (¬ ∃ rule, rule ∈ allowed_domains policy ∧ covers u host rule).
    { rewrite Hnil. by intros (? & ?%elem_of_nil & _). }
    tauto.
Qed.

(** Rules look at the scheme, host and port of a request only. *)
Lemma permits_same_origin p u v host :
  to_ascii_lowercase (scheme u) = to_ascii_lowercase (scheme v) → port_or_known_default u = port_or_known_default v →
  permits p u host → permits p v host.
Proof.
  intros Hs Hp. assert (∀ rule, covers u host rule ↔ covers v host rule) as Hc.
  { intros rule. split; (intros [e ex h ? ? ? ? Hse ? Hpe| |]; [eapply (covers_origin _ _ _ e ex h)|by eapply covers_host|by eapply covers_domain]);
    congruence. }
  intros [Hd Hm]. split; [intros r Hr Hx; by apply (Hd r Hr), Hc|]. destruct (mode p); [done| |done].
  destruct Hm as [(r & ? & ?)|?]; [left; exists r; by rewrite <-Hc|by right].
Qed.
Lemma within_cap_permits s origin h u host :
  trim_end origin = origin → within_cap s (GrantOrigin origin h) = true → covers u host (61 :: origin) →
  permits (cap_network s) u host.
Proof.
  intros Htrim Hcap Hc. unfold within_cap in Hcap. destruct (is_localhost h && _ && _); [done|].
  apply check_url_permits in Hcap as (uo & ho & (Hparse & Hs & raw & Hraw & Hnorm & Hne) & Hperm). cbn in Hperm.
  destruct Hc as [exact e h' Ht Hpa Hse Hh Hsch Hn Hport|exact Ht Hno _|domain Hno];
    [rewrite trim_origin, Htrim in Ht; injection Ht as <-..|by destruct (Hno origin); rewrite trim_origin, Htrim].
  - assert (e = uo) as -> by congruence. assert (host = ho) as -> by congruence. by eapply permits_same_origin.
  - by rewrite (Hno uo Hparse Hs) in Hraw.
Qed.

(** granting origins to a policy lets through exactly what it let through
    before and the requests to a granted scheme, host and port, unless a rule
    denies them: no other origin, and no localhost service, becomes reachable. *)
Theorem grants_authorize_exactly s grants url operation :
  case_blind → existsb is_enabled_grant grants = false → grantable (network s) →
  (is_allowed (check_url (s <| network := merge_network_policy_grants (network s) grants |>) url operation) = true ↔
   is_allowed (check_url s url operation) = true ∨
   ∃ u host, requests url u host ∧ granted (network s) grants u host).
Proof.
  intros Hblind Hg Hok. rewrite !check_url_permits. cbn. setoid_rewrite merged_permits; [|done..]. naive_solver.
Qed.

(** applying grants to an invocation never takes it beyond its authority:
    whatever is let through afterwards was let through before or is within the
    network authority of the turn, though some of the grants may not be. *)
Theorem grants_within_authority s grants s' url operation :
  case_blind → existsb is_enabled_grant grants = false → grantable (network s) →
  (∀ origin h, GrantOrigin origin h ∈ grants → trim_end origin = origin) →
  apply_network_grants_to_invocation (Some s) grants = Some s' →
  is_allowed (check_url s' url operation) = true →
  is_allowed (check_url s url operation) = true ∨
  is_allowed (check_url (s <| network := cap_network s |>) url operation) = true.
Proof.
  intros Hblind Hg Hok Htrim. unfold apply_network_grants_to_invocation. case_decide as Hskip; [intros [= <-]; auto|].
  intros [= <-]. rewrite !check_url_permits. cbn. intros (u & host & Hreq & Hperm).
  apply merged_permits in Hperm as [Hperm|(_ & origin & h & Hin & Hc)]; [left; eauto| |done| |done].
  - right. exists u, host. split; [done|]. apply list_elem_of_filter in Hin as [Hcap Hin]. cbn in Hcap.
    rewrite andb_true_r in Hcap. by eapply within_cap_permits, Hc; [eapply Htrim|].
  - apply not_true_iff_false. intros (g & Hin & Hen)%existsb_elem. apply list_elem_of_filter in Hin as [_ Hin].
    apply not_true_iff_false in Hg. apply Hg, existsb_elem. eauto.
Qed.

(** a defect: denied domains override every other rule, and access to one is
    never offered for approval, but the grant of general network access, which a
    tool may be given, replaces the whole policy and with it the denials: the
    denied host is then reachable. *)
Theorem enabled_grant_forgets_denials s url u host rule operation :
  requests url u host → rule ∈ denied_domains (network s) → covers u host rule →
  mode (network s) ≠ Enabled → mode (cap_network s) = Enabled →
  is_allowed (check_url s url operation) = false ∧
  missing_network_access_grants (Some s) [RequireOrigin url url host] = [] ∧
  ∃ s', apply_network_grants_to_invocation (Some s) (missing_network_access_grants (Some s) [RequireEnabled]) = Some s' ∧
    is_allowed (check_url s' url operation) = true.
Proof.
  intros Hreq Hin Hc Hmode Hcap.
  assert (∀ op, is_allowed (check_url s url op) = false) as Hno.
  { intros op. apply not_true_iff_false. rewrite check_url_permits. intros (u' & host' & Hreq' & Hd & _).
    destruct Hreq as (Hp & _ & raw & Hr & Hn & _), Hreq' as (Hp' & _ & raw' & Hr' & Hn' & _).
    assert (u' = u) as -> by congruence. assert (host' = host) as -> by congruence. by apply (Hd rule). }
  split; [done|]. split.
  - unfold missing_network_access_grants, missing_for. cbn. rewrite app_nil_r.
    unfold check_url. destruct Hreq as (Hp & Hs & raw & Hr & Hn & Hne). rewrite Hp, Hs, Hr, Hn. cbn [negb].
    rewrite decide_False by done. rewrite (proj2 (rule_list_covers _ _ _)) by eauto. done.
  - unfold missing_network_access_grants, missing_for. cbn [flat_map]. rewrite decide_True by done. cbn [app].
    change (merge_network_grants [] [GrantEnabled]) with [GrantEnabled].
    unfold apply_network_grants_to_invocation. rewrite decide_False by naive_solver. eexists. split; [done|].
    rewrite filter_cons, decide_True by (cbn; rewrite bool_decide_true by done; done). cbn [filter list_filter].
    apply check_url_permits. exists u, host. split; [done|]. cbn. split; [intros ? ?%elem_of_nil|]; done.
Qed.
End network_policy.

(** ** Sample policies, with a url crate that reads [http(s)://host[:port]/...] *)
Module SampleNetwork.
Record SimpleUrl := { u_scheme : text; u_host : text; u_port : N }.
Definition decimal (s : text) : N := foldl (λ n c, 10 * n + (c - 48)) 0 s.
(** Brackets keep the colons of an IPv6 host together. *)
Definition host_and_port (s : text) : text * option text :=
  match s with
  | 91 :: r => match split_once 93 r with
               | Some (a, 58 :: p) => (91 :: a ++ [93], Some p)
               | Some (a, _) => (91 :: a ++ [93], None)
               | None => (s, None)
               end
  | _ => match split_once 58 s with Some (a, p) => (a, Some p) | None => (s, None) end
  end.
Definition parse_lower (s : text) : result text SimpleUrl :=
  let read (name : string) (port : N) rest :=
    let authority := match split_once 47 rest with Some (a, _) => a | None => rest end in
    let '(host, p) := host_and_port authority in
    Ok {| u_scheme := lit name; u_host := host; u_port := default port (decimal <$> p) |} in
  match strip_prefix (lit "https://") s, strip_prefix (lit "http://") s with
  | Some rest, _ => read "https"%string 443 rest
  | None, Some rest => read "http"%string 80 rest
  | None, None => Err (lit "relative URL without a base")
  end.
#[local] Instance simple_url : UrlApi :=
  {| Url := SimpleUrl; url_parse := λ s, parse_lower (to_ascii_lowercase (trim s)); scheme := u_scheme;
     host_str := λ u, Some (u_host u); port_or_known_default := λ u, Some (u_port u) |}.
Lemma simple_case_blind : case_blind.
Proof.
  intros a b Hab. cbn. assert (to_ascii_lowercase (trim a) = to_ascii_lowercase (trim b)) as ->.
  { unfold trim. change (to_ascii_lowercase ?s) with (lower <$> s) in *. by rewrite <-!trim_end_lower, <-!trim_start_lower, Hab. }
  by destruct (parse_lower _).
Qed.

Definition restricted (allowed denied : list string) (localhost : bool) : TurnNetworkPolicySnapshot :=
  {| mode := Restricted; allowed_domains := lit <$> allowed; denied_domains := lit <$> denied; allow_localhost := localhost;
     allow_unix_sockets := false |}.
Definition with_policy (p : TurnNetworkPolicySnapshot) : TurnExecutionSecuritySnapshot :=
  {| network := p; sandbox_network := p; cap_network := enabled_policy |}.
Definition decide_url (p : TurnNetworkPolicySnapshot) (url : string) : option NetworkPolicyDenyReason :=
  match check_url (with_policy p) (lit url) (lit "web_fetch") with Allowed _ => None | Denied d => Some (deny_reason d) end.

(** The matrix of the tests of [network_policy.rs]. *)
Example decision_matrix :
  (decide_url (restricted ["allowed.example"] [] false) <$> ["https://blocked.example"],
   decide_url (restricted ["example.com"] [] false) <$> ["https://api.example.com"; "https://badexample.com"],
   decide_url (restricted ["=example.com"] [] false) <$> ["https://example.com"; "https://redirect.example.com"],
   decide_url (restricted ["=https://example.com:8443"] [] false) <$>
     ["https://example.com:8443/allowed"; "https://example.com:9443/blocked"; "http://example.com:8443/blocked"],
   decide_url (restricted ["=http://localhost:4321"] [] true) <$> ["http://localhost:4321/allowed"; "http://localhost:4322/blocked"],
   decide_url (restricted ["example.com"] ["api.example.com"] false) <$> ["https://api.example.com"]) =
  ([Some HostNotAllowed], [None; Some HostNotAllowed], [None; Some HostNotAllowed],
   [None; Some HostNotAllowed; Some HostNotAllowed], [None; Some HostNotAllowed], [Some HostDenied]).
Proof. vm_compute. reflexivity. Qed.
(** The host of a URL with an IPv6 address is in brackets, which the parser of
    addresses does not accept: the loopback address of IPv6 never counts as
    localhost. *)
Example ipv6_loopback_refused :
  (decide_url (restricted [] [] true) <$> ["http://127.0.0.1:3000/"; "http://localhost:3000/"; "http://[::1]:3000/"],
   Ip.is_loopback <$> Ip.parse (lit "::1")) =
  ([None; None; Some HostNotAllowed], Some true).
Proof. vm_compute. reflexivity. Qed.

Definition sample : TurnExecutionSecuritySnapshot := with_policy (restricted ["example.com"] ["evil.example"] false).
Definition sample_grants : list NetworkAccessGrant := [GrantOrigin (lit "https://other.example:8443") (lit "other.example")].
Lemma sample_grantable : grantable (network sample).
Proof. left. split; [done|by left]. Qed.
Lemma grants_authorize_exactly_witness :
  is_allowed (check_url (sample <| network := merge_network_policy_grants (network sample) sample_grants |>)
    (lit "https://OTHER.example:8443/x") []) = true ↔
  is_allowed (check_url sample (lit "https://OTHER.example:8443/x") []) = true ∨
  ∃ u host, requests (lit "https://OTHER.example:8443/x") u host ∧ granted (network sample) sample_grants u host.
Proof. apply grants_authorize_exactly; [exact simple_case_blind|done|exact sample_grantable]. Defined.

Definition sample_after : TurnExecutionSecuritySnapshot :=
  default sample (apply_network_grants_to_invocation (Some sample) sample_grants).
Lemma grants_within_authority_witness :
  is_allowed (check_url sample (lit "https://other.example:8443/x") []) = true ∨
  is_allowed (check_url (sample <| network := cap_network sample |>) (lit "https://other.example:8443/x") []) = true.
Proof.
  apply (grants_within_authority sample sample_grants sample_after); [exact simple_case_blind|done|exact sample_grantable|..].
  - intros origin h [= -> ->]%list_elem_of_singleton. vm_compute. reflexivity.
  - vm_compute. reflexivity.
  - vm_compute. reflexivity.
Defined.

Definition evil_url : Url := {| u_scheme := lit "https"; u_host := lit "evil.example"; u_port := 443 |}.
Lemma enabled_grant_forgets_denials_witness :
  is_allowed (check_url sample (lit "https://evil.example/") []) = false ∧
  missing_network_access_grants (Some sample) [RequireOrigin (lit "https://evil.example/") (lit "https://evil.example/") (lit "evil.example")] = [] ∧
  ∃ s', apply_network_grants_to_invocation (Some sample) (missing_network_access_grants (Some sample) [RequireEnabled]) = Some s' ∧
    is_allowed (check_url s' (lit "https://evil.example/") []) = true.
Proof.
  apply (enabled_grant_forgets_denials sample _ evil_url
    (lit "evil.example") (lit "evil.example")).
  - split; [reflexivity|]. split; [reflexivity|]. exists (lit "evil.example"). split; [reflexivity|]. split; [reflexivity|done].
  - apply list_elem_of_singleton. reflexivity.
  - apply rule_matches_covers. vm_compute. reflexivity.
  - done.
  - reflexivity.
Defined.
End SampleNetwork.
