(* ===== verification/ToolPermissions.v ===== *)
(** * Permission profiles of a turn

    Models [crates/protocol/src/turn_permissions.rs], which compiles permission
    modes into policies and intersects the policies of a delegation, and the
    evaluator of [crates/tools/src/permissions/mod.rs] that decides tool
    invocations by them. JSON and the digest of a request are parameters; paths
    are the Unix paths of [UnixPath]. *)
From S2P Require Import Prelude Ordered TextSplit UnixPath.
Local Open Scope N_scope.

(** ** Policies *)

Inductive PermissionBehavior := Allow | Ask | Deny.
#[export] Instance PermissionBehavior_eq_dec : EqDecision PermissionBehavior.
Proof. solve_decision. Defined.
Inductive TurnPermissionMode := FullAccess | AutoAcceptEdits | Supervised.
#[export] Instance TurnPermissionMode_eq_dec : EqDecision TurnPermissionMode.
Proof. solve_decision. Defined.
Record ToolPermissionPolicySnapshot := {
  default_behavior : PermissionBehavior; file_read : PermissionBehavior; file_write : PermissionBehavior;
  shell_command : PermissionBehavior; network : PermissionBehavior; mcp_read : PermissionBehavior;
  mcp_write_or_unknown : PermissionBehavior; dynamic_skill_tool : PermissionBehavior; computer_use : PermissionBehavior;
  task_subagent : PermissionBehavior; memory_write : PermissionBehavior; agent_action : PermissionBehavior;
  allowed_tools_restricted : bool; allowed_tools : list text; denied_tools : list text;
  allowed_paths_restricted : bool; allowed_paths : list text;
}.
Inductive TurnPermissionProfileSource := Composer | Defaulted | InheritedFromParentTurn | TaskPermissionCap | FromSystem.
Record TurnPermissionProfileSnapshot := {
  profile_mode : TurnPermissionMode; profile_source : TurnPermissionProfileSource;
  effective_policy : ToolPermissionPolicySnapshot;
}.
Record TurnPermissionProfileCap := { cap_mode : TurnPermissionMode; cap_policy : ToolPermissionPolicySnapshot }.

Definition all (behavior : PermissionBehavior) : ToolPermissionPolicySnapshot :=
  {| default_behavior := behavior; file_read := behavior; file_write := behavior; shell_command := behavior;
     network := behavior; mcp_read := behavior; mcp_write_or_unknown := behavior; dynamic_skill_tool := behavior;
     computer_use := behavior; task_subagent := behavior; memory_write := behavior; agent_action := behavior;
     allowed_tools_restricted := false; allowed_tools := []; denied_tools := [];
     allowed_paths_restricted := false; allowed_paths := [] |}.
Definition permission_policy_for_mode (mode : TurnPermissionMode) : ToolPermissionPolicySnapshot :=
  match mode with
  | FullAccess => all Allow
  | AutoAcceptEdits =>
      {| default_behavior := Ask; file_read := Allow; file_write := Allow; shell_command := Ask; network := Ask;
         mcp_read := Allow; mcp_write_or_unknown := Ask; dynamic_skill_tool := Ask; computer_use := Ask;
         task_subagent := Ask; memory_write := Ask; agent_action := Ask;
         allowed_tools_restricted := false; allowed_tools := []; denied_tools := [];
         allowed_paths_restricted := false; allowed_paths := [] |}
  | Supervised =>
      {| default_behavior := Ask; file_read := Allow; file_write := Ask; shell_command := Ask; network := Ask;
         mcp_read := Allow; mcp_write_or_unknown := Ask; dynamic_skill_tool := Ask; computer_use := Ask;
         task_subagent := Ask; memory_write := Ask; agent_action := Ask;
         allowed_tools_restricted := false; allowed_tools := []; denied_tools := [];
         allowed_paths_restricted := false; allowed_paths := [] |}
  end.
Definition compile_turn_permission_profile (mode : TurnPermissionMode) (source : TurnPermissionProfileSource)
    : TurnPermissionProfileSnapshot :=
  {| profile_mode := mode; profile_source := source; effective_policy := permission_policy_for_mode mode |}.
Definition resolve_turn_permission_profile (selection : option TurnPermissionMode) : TurnPermissionProfileSnapshot :=
  match selection with
  | Some mode => compile_turn_permission_profile mode Composer
  | None => compile_turn_permission_profile FullAccess Defaulted
  end.
Definition task_permission_cap_from_snapshot (profile : TurnPermissionProfileSnapshot) : TurnPermissionProfileCap :=
  {| cap_mode := profile_mode profile; cap_policy := effective_policy profile |}.
Definition task_permission_cap_snapshot (cap : TurnPermissionProfileCap) : TurnPermissionProfileSnapshot :=
  {| profile_mode := cap_mode cap; profile_source := TaskPermissionCap; effective_policy := cap_policy cap |}.
Definition inherited_turn_permission_profile_from_snapshot (profile : TurnPermissionProfileSnapshot)
    : TurnPermissionProfileSnapshot :=
  {| profile_mode := profile_mode profile; profile_source := InheritedFromParentTurn;
     effective_policy := effective_policy profile |}.

(** ** Intersection *)

Definition most_restrictive_permission_behavior (left right : PermissionBehavior) : PermissionBehavior :=
  match left, right with
  | Deny, _ | _, Deny => Deny
  | Ask, _ | _, Ask => Ask
  | Allow, Allow => Allow
  end.
Definition most_restrictive_turn_permission_mode (left right : TurnPermissionMode) : TurnPermissionMode :=
  match left, right with
  | Supervised, _ | _, Supervised => Supervised
  | AutoAcceptEdits, _ | _, AutoAcceptEdits => AutoAcceptEdits
  | FullAccess, FullAccess => FullAccess
  end.

(** Pushing what is not there yet, and the loops that normalize a list. *)
Definition push_new (values : list text) (value : text) : list text :=
  if decide (value ∈ values) then values else values ++ [value].
Definition push_normalized (normalize : text → text) (values : list text) (value : text) : list text :=
  let value := normalize value in
  if decide (value = []) then values else push_new values value.
Definition normalize_unique (values : list text) : list text := foldl (push_normalized trim) [] values.
Definition union_unique (left right : list text) : list text :=
  foldl push_new (normalize_unique left) (normalize_unique right).
Definition intersect_exact_allow_list (left : list text) (left_restricted : bool) (right : list text)
    (right_restricted : bool) : list text * bool :=
  let left_restricted := left_restricted || negb (bool_decide (left = [])) in
  let right_restricted := right_restricted || negb (bool_decide (right = [])) in
  match left_restricted, right_restricted with
  | false, false => ([], false)
  | true, false => (normalize_unique left, true)
  | false, true => (normalize_unique right, true)
  | true, true => (filter (λ value, value ∈ normalize_unique right) (normalize_unique left), true)
  end.

Definition normalize_policy_path (value : text) : text := display (normalize_lexically (trim value)).
Definition normalize_unique_paths (values : list text) : list text :=
  foldl (push_normalized normalize_policy_path) [] values.
Definition path_within (path allowed : text) : bool :=
  bool_decide (components path = components allowed) || path_starts_with (components path) (components allowed).
Definition narrower (left right : text) : option text :=
  if path_within left right then Some left else if path_within right left then Some right else None.
Definition push_narrower (left : text) (intersection : list text) (right : text) : list text :=
  match narrower left right with Some path => push_new intersection path | None => intersection end.
Definition intersect_path_allow_list (left : list text) (left_restricted : bool) (right : list text)
    (right_restricted : bool) : list text * bool :=
  let left_restricted := left_restricted || negb (bool_decide (left = [])) in
  let right_restricted := right_restricted || negb (bool_decide (right = [])) in
  match left_restricted, right_restricted with
  | false, false => ([], false)
  | true, false => (normalize_unique_paths left, true)
  | false, true => (normalize_unique_paths right, true)
  | true, true =>
      let left := normalize_unique_paths left in
      let right := normalize_unique_paths right in
      (foldl (λ intersection left_path, foldl (push_narrower left_path) intersection right) [] left, true)
  end.
Definition intersect_tool_permission_policies (left right : ToolPermissionPolicySnapshot) : ToolPermissionPolicySnapshot :=
  let '(tools, tools_restricted) :=
    intersect_exact_allow_list (allowed_tools left) (allowed_tools_restricted left)
      (allowed_tools right) (allowed_tools_restricted right) in
  let '(paths, paths_restricted) :=
    intersect_path_allow_list (allowed_paths left) (allowed_paths_restricted left)
      (allowed_paths right) (allowed_paths_restricted right) in
  let most_restrictive (field : ToolPermissionPolicySnapshot → PermissionBehavior) :=
    most_restrictive_permission_behavior (field left) (field right) in
  {| default_behavior := most_restrictive default_behavior; file_read := most_restrictive file_read;
     file_write := most_restrictive file_write; shell_command := most_restrictive shell_command;
     network := most_restrictive network; mcp_read := most_restrictive mcp_read;
     mcp_write_or_unknown := most_restrictive mcp_write_or_unknown;
     dynamic_skill_tool := most_restrictive dynamic_skill_tool; computer_use := most_restrictive computer_use;
     task_subagent := most_restrictive task_subagent; memory_write := most_restrictive memory_write;
     agent_action := most_restrictive agent_action;
     allowed_tools_restricted := tools_restricted; allowed_tools := tools;
     denied_tools := union_unique (denied_tools left) (denied_tools right);
     allowed_paths_restricted := paths_restricted; allowed_paths := paths |}.
Definition intersect_turn_permission_profiles (left right : TurnPermissionProfileSnapshot)
    (source : TurnPermissionProfileSource) : TurnPermissionProfileSnapshot :=
  {| profile_mode := most_restrictive_turn_permission_mode (profile_mode left) (profile_mode right);
     profile_source := source;
     effective_policy := intersect_tool_permission_policies (effective_policy left) (effective_policy right) |}.

(** ** Decisions *)

Inductive PermissionActionKind :=
  | FileRead | FileWrite | ShellCommand | Network | McpRead | McpWriteOrUnknown | DynamicSkillTool | ComputerUse
  | TaskSubagent | MemoryWrite | AgentAction | Internal | Unknown.
#[export] Instance PermissionActionKind_eq_dec : EqDecision PermissionActionKind.
Proof. solve_decision. Defined.
Inductive PermissionDecisionReason :=
  | FullAccessReason | PolicyAllowsAction | PolicyRequiresApproval | PolicyDeniesAction | CachedApproval | UserApproved
  | UserDenied | CancelledReason | Expired | UnknownActionDefault | SandboxDenied.
Inductive DynamicSkillPermissionKind := Http | Shell | FunctionProxy.
#[export] Instance DynamicSkillPermissionKind_eq_dec : EqDecision DynamicSkillPermissionKind.
Proof. solve_decision. Defined.
Record PermissionIntent := { action : PermissionActionKind; entries : gmap text text; summary : option text }.
Record PermissionEvaluationContext := {
  workspace_id : option text; thread_id : option text; turn_id : option text;
  permission_profile : TurnPermissionProfileSnapshot;
}.
(** What a decision looks at of a [ToolInvocation]: its tool and the kinds of the
    dynamic skills in its metadata. *)
Record Invocation := {
  tool_name : text; dynamic_skill : option DynamicSkillPermissionKind;
  nested_dynamic_skills : list DynamicSkillPermissionKind;
}.
Record PermissionRequestKey := {
  key_mode : TurnPermissionMode; key_tool : text; key_action : PermissionActionKind; normalized_scope_hash : text;
  key_turn : text;
}.
Inductive PermissionDecision :=
  | DecideAllow (reason : PermissionDecisionReason)
  | DecideAsk (key : PermissionRequestKey) (reason : PermissionDecisionReason)
  | DecideDeny (reason : PermissionDecisionReason) (message : text).

(** The list of strings [serde_json] reads, and the digest of the entries of a
    scope as JSON. *)
Class ScopeCodec := { decode_strings : text → option (list text); normalized_hash : gmap text text → text }.

Definition behavior_for_action (policy : ToolPermissionPolicySnapshot) (action : PermissionActionKind) : PermissionBehavior :=
  match action with
  | FileRead => file_read policy
  | FileWrite => file_write policy
  | ShellCommand => shell_command policy
  | Network => network policy
  | McpRead => mcp_read policy
  | McpWriteOrUnknown => mcp_write_or_unknown policy
  | DynamicSkillTool => dynamic_skill_tool policy
  | ComputerUse => computer_use policy
  | TaskSubagent => task_subagent policy
  | MemoryWrite => memory_write policy
  | AgentAction => agent_action policy
  | Internal => Allow
  | Unknown => default_behavior policy
  end.
Definition normalize_policy_value (value : text) : text := to_ascii_lowercase (trim value).
Definition names_tool (values : list text) (name : text) : bool :=
  existsb (λ value, bool_decide (value = name)) (normalize_policy_value <$> values).
Definition policy_denies_tool_name (policy : ToolPermissionPolicySnapshot) (tool_name : text) : option text :=
  let normalized_tool_name := normalize_policy_value tool_name in
  if names_tool (denied_tools policy) normalized_tool_name
  then Some (lit "tool `" ++ tool_name ++ lit "` denied by turn permission profile")
  else if (allowed_tools_restricted policy || negb (bool_decide (allowed_tools policy = [])))
            && negb (names_tool (allowed_tools policy) normalized_tool_name)
  then Some (lit "tool `" ++ tool_name ++ lit "` is not allowed by turn permission profile")
  else None.

(** The evaluator's own normalization keeps an empty path as [.]. *)
Definition normalize_path_lexically (path : text) : list text :=
  let normalized := normalize_lexically path in
  if decide (normalized = []) then [CURRENT] else normalized.
Definition evaluator_policy_path (value : text) : text := display (normalize_path_lexically (trim value)).

Section evaluator.
Context `{ScopeCodec}.

(** The paths named by the entries, sorted and without repetition. *)
Definition intent_paths (intent : PermissionIntent) : list text :=
  let path := match entries intent !! lit "path" with Some path => [path] | None => [] end in
  let indexed := snd <$> filter (λ entry, starts_with (lit "path.") entry.1 = true) (map_to_list (entries intent)) in
  let changed :=
    match entries intent !! lit "changed_paths" with
    | Some changed_paths => default [] (decode_strings changed_paths)
    | None => []
    end in
  ordered_elements (λ path, path) (list_to_set (path ++ indexed ++ changed) : gset text).
Definition policy_denies_intent_paths (policy : ToolPermissionPolicySnapshot) (intent : PermissionIntent) : option text :=
  if (negb (allowed_paths_restricted policy) && bool_decide (allowed_paths policy = []))
       || negb (bool_decide (action intent = FileRead ∨ action intent = FileWrite))
  then None
  else
    let requested_paths := intent_paths intent in
    if decide (requested_paths = []) then Some (lit "file action denied because path scope is unavailable")
    else
      let allowed := filter (λ value, value ≠ []) (evaluator_policy_path <$> allowed_paths policy) in
      if decide (allowed = []) then Some (lit "file action denied because the allowed path set is empty")
      else if forallb (λ path, existsb (λ allowed, path_within (evaluator_policy_path path) allowed) allowed) requested_paths
      then None
      else Some (lit "file path denied by turn permission profile").
Definition is_unknown_capability (intent : PermissionIntent) : bool :=
  bool_decide (entries intent !! lit "unknown_capability" = Some (lit "true")).
Definition request_key (context : PermissionEvaluationContext) (invocation : Invocation) (intent : PermissionIntent)
    : PermissionRequestKey :=
  {| key_mode := profile_mode (permission_profile context); key_tool := tool_name invocation; key_action := action intent;
     normalized_scope_hash := normalized_hash (entries intent); key_turn := default [] (turn_id context) |}.
Definition decision_from_behavior (behavior : PermissionBehavior) (context : PermissionEvaluationContext)
    (invocation : Invocation) (intent : PermissionIntent) : PermissionDecision :=
  let unknown_capability := is_unknown_capability intent in
  match behavior with
  | Allow => DecideAllow PolicyAllowsAction
  | Ask => DecideAsk (request_key context invocation intent)
             (if unknown_capability then UnknownActionDefault else PolicyRequiresApproval)
  | Deny => DecideDeny (if unknown_capability then UnknownActionDefault else PolicyDeniesAction)
              (if unknown_capability then lit "unknown tool capability denied by turn permission profile"
               else lit "tool action denied by turn permission profile")
  end.
Definition evaluate (context : PermissionEvaluationContext) (invocation : Invocation) (intent : PermissionIntent)
    : PermissionDecision :=
  let policy := effective_policy (permission_profile context) in
  match policy_denies_tool_name policy (tool_name invocation) with
  | Some message => DecideDeny PolicyDeniesAction message
  | None =>
      match policy_denies_intent_paths policy intent with
      | Some message => DecideDeny PolicyDeniesAction message
      | None =>
          let behavior := behavior_for_action policy (action intent) in
          let defers_to_nested_target :=
            bool_decide (action intent = Internal) &&
            match dynamic_skill invocation with
            | Some kind => bool_decide (kind = Shell ∨ kind = FunctionProxy)
            | None => false
            end in
          let behavior :=
            if negb (bool_decide (nested_dynamic_skills invocation = [])) && negb defers_to_nested_target
            then most_restrictive_permission_behavior behavior (dynamic_skill_tool policy)
            else behavior in
          decision_from_behavior behavior context invocation intent
      end
  end.

(** What a decision amounts to. *)
Definition outcome (d : PermissionDecision) : PermissionBehavior :=
  match d with DecideAllow _ => Allow | DecideAsk _ _ => Ask | DecideDeny _ _ => Deny end.
End evaluator.

(** ** Lists *)

Lemma elem_push_new l x y : y ∈ push_new l x ↔ y ∈ l ∨ y = x.
Proof. unfold push_new. case_decide; rewrite ?elem_of_app, ?list_elem_of_singleton; naive_solver. Qed.
Lemma elem_foldl_push_new k l y : y ∈ foldl push_new l k ↔ y ∈ l ∨ y ∈ k.
Proof.
  revert l. induction k as [|x k IH]; intros l; cbn; [by rewrite elem_of_nil; tauto|].
  rewrite IH, elem_push_new, elem_of_cons. tauto.
Qed.
Lemma elem_push_normalized f values l y :
  y ∈ foldl (push_normalized f) l values ↔ y ∈ l ∨ y ≠ [] ∧ ∃ v, v ∈ values ∧ y = f v.
Proof.
  revert l. induction values as [|x values IH]; intros l; cbn; [by setoid_rewrite elem_of_nil; naive_solver|].
  rewrite IH. unfold push_normalized. setoid_rewrite elem_of_cons. case_decide; rewrite ?elem_push_new; naive_solver.
Qed.
Lemma elem_normalize_unique l y : y ∈ normalize_unique l ↔ y ≠ [] ∧ ∃ v, v ∈ l ∧ y = trim v.
Proof. unfold normalize_unique. rewrite elem_push_normalized, elem_of_nil. tauto. Qed.
Lemma elem_normalize_paths l y : y ∈ normalize_unique_paths l ↔ y ≠ [] ∧ ∃ v, v ∈ l ∧ y = normalize_policy_path v.
Proof. unfold normalize_unique_paths. rewrite elem_push_normalized, elem_of_nil. tauto. Qed.
Lemma elem_union_unique l r y : y ∈ union_unique l r ↔ y ≠ [] ∧ ∃ v, (v ∈ l ∨ v ∈ r) ∧ y = trim v.
Proof. unfold union_unique. rewrite elem_foldl_push_new, !elem_normalize_unique. naive_solver. Qed.

(** ** Tool names *)

Definition key (value : text) : text := normalize_policy_value value.
Lemma key_trim v : key (trim v) = key v.
Proof. unfold key, normalize_policy_value. by rewrite trim_idemp. Qed.
Lemma key_nil v : key v = [] ↔ trim v = [].
Proof. unfold key, normalize_policy_value, to_ascii_lowercase. by destruct (trim v). Qed.
Lemma names_tool_spec l name : names_tool l name = true ↔ ∃ v, v ∈ l ∧ key v = name.
Proof.
  unfold names_tool. rewrite existsb_elem. setoid_rewrite list_elem_of_fmap. setoid_rewrite bool_decide_eq_true.
  unfold key. naive_solver.
Qed.
Definition restricted_tools (p : ToolPermissionPolicySnapshot) : bool :=
  allowed_tools_restricted p || negb (bool_decide (allowed_tools p = [])).
Definition tool_permitted (p : ToolPermissionPolicySnapshot) (name : text) : Prop :=
  (¬ ∃ v, v ∈ denied_tools p ∧ key v = key name) ∧
  (restricted_tools p = true → ∃ v, v ∈ allowed_tools p ∧ key v = key name).
Lemma denies_tool_name_spec p name : policy_denies_tool_name p name = None ↔ tool_permitted p name.
Proof.
  unfold policy_denies_tool_name, tool_permitted. fold (restricted_tools p) (key name). rewrite <-!names_tool_spec.
  destruct (names_tool (denied_tools p) (key name)), (restricted_tools p), (names_tool (allowed_tools p) (key name)); cbn; naive_solver.
Qed.
(** Names of allowed tools in lower case. *)
Definition lower_case_tools (p : ToolPermissionPolicySnapshot) : Prop := ∀ v, v ∈ allowed_tools p → key v = trim v.

Lemma intersect_exact_spec l lr r rr name :
  name ≠ [] →
  let '(tools, restricted) := intersect_exact_allow_list l lr r rr in
  let rl := lr || negb (bool_decide (l = [])) in let rr := rr || negb (bool_decide (r = [])) in
  restricted = rl || rr ∧ (restricted = false → tools = []) ∧
  ((∃ v, v ∈ tools ∧ key v = name) →
     (rl = true → ∃ v, v ∈ l ∧ key v = name) ∧ (rr = true → ∃ v, v ∈ r ∧ key v = name)) ∧
  ((∀ v, v ∈ l ∨ v ∈ r → key v = trim v) → restricted = true →
     (rl = true → ∃ v, v ∈ l ∧ key v = name) → (rr = true → ∃ v, v ∈ r ∧ key v = name) → ∃ v, v ∈ tools ∧ key v = name).
Proof.
  intros Hname. unfold intersect_exact_allow_list.
  assert (∀ k, (∃ v, v ∈ normalize_unique k ∧ key v = name) ↔ ∃ v, v ∈ k ∧ key v = name) as Huniq.
  { intros k. setoid_rewrite elem_normalize_unique. split.
    - intros (v & (_ & w & Hw & ->) & Hk). exists w. by rewrite <-key_trim.
    - intros (v & Hv & Hk). exists (trim v). rewrite key_trim. split; [|done]. split; [|eauto].
      intros Ht%key_nil. congruence. }
  destruct (lr || negb (bool_decide (l = []))), (rr || negb (bool_decide (r = []))); cbn; (split; [done|]); (split; [done|]); split.
  - intros (v & [Hr Hl]%list_elem_of_filter & Hk). split; intros _; apply Huniq; eauto.
  - intros Hlow _ (v & Hv & Hkv)%(λ H, H eq_refl) (w & Hw & Hkw)%(λ H, H eq_refl).
    assert (trim v = name) as Htv by (rewrite <-Hlow; auto). assert (trim w = name) as Htw by (rewrite <-Hlow; auto).
    exists name. rewrite <-Htv at 2. rewrite key_trim. split; [|done]. apply list_elem_of_filter.
    rewrite !elem_normalize_unique. split; (split; [done|]); [exists w|exists v]; done.
  - rewrite Huniq. naive_solver.
  - rewrite Huniq. naive_solver.
  - rewrite Huniq. naive_solver.
  - rewrite Huniq. naive_solver.
  - setoid_rewrite elem_of_nil. naive_solver.
  - naive_solver.
Qed.

(** ** Paths *)

(** A path as the evaluator reads it, and the paths within those of a list. *)
Definition place (value : text) : list text := normalize_path_lexically (trim value).
Definition in_scope (paths : list text) (requested : text) : Prop := ∃ v, v ∈ paths ∧ place v `prefix_of` place requested.
(** The text of the normalized path has no whitespace at its ends. *)
Definition settled_path (v : text) : Prop := trim (normalize_policy_path v) = normalize_policy_path v.
Definition somewhere (v : text) : Prop := normalize_lexically (trim v) ≠ [].

Lemma components_place v : components (evaluator_policy_path v) = place v.
Proof.
  unfold evaluator_policy_path, place, normalize_path_lexically. case_decide as Hd; [reflexivity|].
  apply components_display, normalize_lexically_normal.
Qed.
Lemma path_within_spec a b : path_within a b = true ↔ components b `prefix_of` components a.
Proof.
  unfold path_within, path_starts_with. rewrite orb_true_iff, !bool_decide_eq_true. split; [|auto].
  intros [->|?]; done.
Qed.
Lemma evaluator_path_ne v : evaluator_policy_path v ≠ [].
Proof.
  intros Heq. pose proof (components_place v) as Hc. rewrite Heq in Hc. change (components []) with (@nil text) in Hc.
  revert Hc. unfold place, normalize_path_lexically. case_decide as Hd; [discriminate|congruence].
Qed.
Lemma policy_path_ne v : normalize_policy_path v ≠ [] ↔ somewhere v.
Proof.
  unfold normalize_policy_path, somewhere. split; intros H Heq; apply H; [by rewrite Heq|].
  by apply display_nil; [apply normalize_lexically_normal|].
Qed.
Lemma place_policy_path v : settled_path v → place (normalize_policy_path v) = place v.
Proof.
  intros Hs. unfold place, normalize_path_lexically. rewrite Hs. unfold normalize_policy_path.
  by rewrite normalize_lexically_display by apply normalize_lexically_normal.
Qed.
Lemma components_policy_path v : somewhere v → components (normalize_policy_path v) = place v.
Proof.
  intros Hs. unfold place, normalize_path_lexically, normalize_policy_path. rewrite decide_False by done.
  apply components_display, normalize_lexically_normal.
Qed.

(** What scopes an intersection of lists leaves. *)
Lemma scope_normalized l requested :
  (∀ v, v ∈ l → settled_path v) →
  in_scope (normalize_unique_paths l) requested ↔ ∃ v, v ∈ l ∧ somewhere v ∧ place v `prefix_of` place requested.
Proof.
  intros Hs. unfold in_scope. setoid_rewrite elem_normalize_paths. split.
  - intros (y & (Hne & v & Hv & ->) & Hp). exists v. rewrite policy_path_ne in Hne. rewrite place_policy_path in Hp by auto. done.
  - intros (v & Hv & Hsome & Hp). exists (normalize_policy_path v). rewrite place_policy_path by auto.
    split; [|done]. split; [by apply policy_path_ne|eauto].
Qed.
Lemma elem_narrower l r y acc :
  y ∈ foldl (λ intersection left_path, foldl (push_narrower left_path) intersection r) acc l ↔
  y ∈ acc ∨ ∃ a b, a ∈ l ∧ b ∈ r ∧ narrower a b = Some y.
Proof.
  assert (∀ a k acc, y ∈ foldl (push_narrower a) acc k ↔ y ∈ acc ∨ ∃ b, b ∈ k ∧ narrower a b = Some y) as Hin.
  { intros a k. induction k as [|b k IH]; intros acc'; cbn; [setoid_rewrite elem_of_nil; naive_solver|].
    rewrite IH. unfold push_narrower. setoid_rewrite elem_of_cons. destruct (narrower a b) eqn:Hn; rewrite ?elem_push_new; naive_solver. }
  revert acc. induction l as [|a l IH]; intros acc; cbn; [setoid_rewrite elem_of_nil; naive_solver|].
  rewrite IH, Hin. setoid_rewrite elem_of_cons. naive_solver.
Qed.
Lemma scope_narrower l r requested :
  (∀ v, v ∈ l ∨ v ∈ r → settled_path v) →
  in_scope (foldl (λ intersection left_path, foldl (push_narrower left_path) intersection (normalize_unique_paths r)) []
              (normalize_unique_paths l)) requested ↔
  in_scope (normalize_unique_paths l) requested ∧ in_scope (normalize_unique_paths r) requested.
Proof.
  intros Hs. unfold in_scope at 1. setoid_rewrite elem_narrower. setoid_rewrite elem_of_nil.
  rewrite !scope_normalized by auto. unfold narrower. split.
  - intros (y & [[]|(a & b & Ha & Hb & Hy)] & Hp). apply elem_normalize_paths in Ha as (Hane & v & Hv & ->), Hb as (Hbne & w & Hw & ->).
    rewrite policy_path_ne in Hane, Hbne.
    destruct (path_within _ _) eqn:Hin in Hy; [|destruct (path_within _ _) eqn:Hin' in Hy; [|done]]; injection Hy as <-.
    + apply path_within_spec in Hin. rewrite !components_policy_path in Hin by done.
      rewrite place_policy_path in Hp by auto. split; [by exists v|exists w]. split_and!; [done|done|by etrans].
    + apply path_within_spec in Hin'. rewrite !components_policy_path in Hin' by done.
      rewrite place_policy_path in Hp by auto. split; [exists v|by exists w]. split_and!; [done|done|by etrans].
  - intros [(v & Hv & Hsv & Hpv) (w & Hw & Hsw & Hpw)].
    assert (normalize_policy_path v ∈ normalize_unique_paths l) as Hin by (apply elem_normalize_paths; rewrite policy_path_ne; eauto).
    assert (normalize_policy_path w ∈ normalize_unique_paths r) as Hin' by (apply elem_normalize_paths; rewrite policy_path_ne; eauto).
    destruct (path_within (normalize_policy_path v) (normalize_policy_path w)) eqn:Hvw.
    + exists (normalize_policy_path v). rewrite place_policy_path by auto. split; [|done]. right.
      exists (normalize_policy_path v), (normalize_policy_path w). by rewrite Hvw.
    + exists (normalize_policy_path w). rewrite place_policy_path by auto. split; [|done]. right.
      exists (normalize_policy_path v), (normalize_policy_path w). rewrite Hvw. split_and!; [done|done|].
      assert (path_within (normalize_policy_path w) (normalize_policy_path v) = true) as ->; [|done].
      apply path_within_spec. apply not_true_iff_false in Hvw. rewrite path_within_spec in Hvw.
      rewrite !components_policy_path in * by done. by destruct (prefix_weak_total _ _ _ Hpv Hpw).
Qed.

Definition restricted_paths (p : ToolPermissionPolicySnapshot) : bool :=
  allowed_paths_restricted p || negb (bool_decide (allowed_paths p = [])).
Definition settled_paths (p : ToolPermissionPolicySnapshot) : Prop := ∀ v, v ∈ allowed_paths p → settled_path v.

Lemma intersect_path_spec l lr r rr :
  (∀ v, v ∈ l ∨ v ∈ r → settled_path v) →
  let '(paths, restricted) := intersect_path_allow_list l lr r rr in
  let rl := lr || negb (bool_decide (l = [])) in let rr := rr || negb (bool_decide (r = [])) in
  restricted = rl || rr ∧ (restricted = false → paths = []) ∧
  ∀ requested,
    (in_scope paths requested → (rl = true → in_scope l requested) ∧ (rr = true → in_scope r requested)) ∧
    ((∀ v, v ∈ l ∨ v ∈ r → somewhere v) → restricted = true →
     (rl = true → in_scope l requested) → (rr = true → in_scope r requested) → in_scope paths requested).
Proof.
  intros Hs. unfold intersect_path_allow_list.
  assert (∀ k requested, (∀ v, v ∈ k → settled_path v) →
    (in_scope (normalize_unique_paths k) requested → in_scope k requested) ∧
    ((∀ v, v ∈ k → somewhere v) → in_scope k requested → in_scope (normalize_unique_paths k) requested)) as Hk.
  { intros k requested Hset. rewrite scope_normalized by done. unfold in_scope. naive_solver. }
  destruct (lr || negb (bool_decide (l = []))), (rr || negb (bool_decide (r = []))); cbn;
    (split; [done|]); (split; [done|]); intros requested;
    destruct (Hk l requested ltac:(auto)) as [Hl1 Hl2], (Hk r requested ltac:(auto)) as [Hr1 Hr2].
  - rewrite scope_narrower by done. split; [intros []; auto|]. intros Hsome _ Hl Hr. split; auto.
  - split; [by split; auto|]. intros Hsome _ Hl _. auto.
  - split; [by split; auto|]. intros Hsome _ _ Hr. auto.
  - split; [|done]. intros (v & Hv & _). by apply not_elem_of_nil in Hv.
Qed.

Section decisions.
Context `{ScopeCodec}.
Implicit Types (p l r : ToolPermissionPolicySnapshot) (i : PermissionIntent).

Definition paths_permitted p i : Prop :=
  restricted_paths p = true → action i = FileRead ∨ action i = FileWrite →
  intent_paths i ≠ [] ∧ ∀ requested, requested ∈ intent_paths i → in_scope (allowed_paths p) requested.
Lemma evaluator_paths_kept (k : list text) : filter (λ value, value ≠ []) (evaluator_policy_path <$> k) = evaluator_policy_path <$> k.
Proof.
  induction k as [|v k IH]; [done|]. rewrite fmap_cons, filter_cons, decide_True by apply evaluator_path_ne. by rewrite IH.
Qed.
Lemma denies_intent_paths_spec p i : policy_denies_intent_paths p i = None ↔ paths_permitted p i.
Proof.
  unfold policy_denies_intent_paths, paths_permitted, restricted_paths.
  destruct (decide (action i = FileRead ∨ action i = FileWrite)) as [Hfile|Hfile];
    [rewrite (bool_decide_eq_true_2 _ Hfile)|rewrite (bool_decide_eq_false_2 _ Hfile), orb_true_r; naive_solver].
  destruct (allowed_paths_restricted p || negb (bool_decide (allowed_paths p = []))) eqn:Hr.
  2: { apply orb_false_iff in Hr as [-> Hr%negb_false_iff]. rewrite Hr. naive_solver. }
  assert (negb (allowed_paths_restricted p) && bool_decide (allowed_paths p = []) = false) as ->.
  { destruct (allowed_paths_restricted p), (bool_decide (allowed_paths p = [])); done. }
  cbn. case_decide as Hnil; [split; [done|naive_solver]|].
  rewrite evaluator_paths_kept.
  assert (∀ requested, existsb (λ allowed, path_within (evaluator_policy_path requested) allowed)
      (evaluator_policy_path <$> allowed_paths p) = true ↔ in_scope (allowed_paths p) requested) as Hscope.
  { intros requested. rewrite existsb_elem. unfold in_scope. setoid_rewrite list_elem_of_fmap. setoid_rewrite path_within_spec. split.
    - intros (e & (v & -> & Hv) & Hp). rewrite !components_place in Hp. eauto.
    - intros (v & Hv & Hp). exists (evaluator_policy_path v). rewrite !components_place. eauto. }
  case_decide as Hempty.
  { split; [done|]. intros [_ Hall]%(λ H, H eq_refl Hfile). destruct (intent_paths i) as [|q k]; [done|].
    apply fmap_nil_inv in Hempty. destruct (Hall q ltac:(left)) as (v & Hv & _). rewrite Hempty in Hv. by apply not_elem_of_nil in Hv. }
  destruct (forallb _ (intent_paths i)) eqn:Hall; split; try done.
  - intros _ _ _. split; [done|]. intros q Hq. apply Hscope. rewrite forallb_forall in Hall. apply Hall. by apply list_elem_of_In.
  - intros Hp. apply not_true_iff_false in Hall. destruct Hall. apply forallb_forall. intros q Hq.
    apply Hscope, (Hp eq_refl Hfile). by apply list_elem_of_In.
Qed.

(** The behavior of a policy when nothing is denied by name or path. *)
Definition behavior_of p (invocation : Invocation) i : PermissionBehavior :=
  let behavior := behavior_for_action p (action i) in
  if negb (bool_decide (nested_dynamic_skills invocation = [])) &&
     negb (bool_decide (action i = Internal) &&
           match dynamic_skill invocation with
           | Some kind => bool_decide (kind = Shell ∨ kind = FunctionProxy)
           | None => false
           end)
  then most_restrictive_permission_behavior behavior (dynamic_skill_tool p) else behavior.
Definition permitted p (invocation : Invocation) i : Prop := tool_permitted p (tool_name invocation) ∧ paths_permitted p i.
Lemma evaluate_permitted c invocation i :
  let p := effective_policy (permission_profile c) in
  (permitted p invocation i → outcome (evaluate c invocation i) = behavior_of p invocation i) ∧
  (¬ permitted p invocation i → outcome (evaluate c invocation i) = Deny).
Proof.
  cbn zeta. unfold permitted. rewrite <-denies_tool_name_spec, <-denies_intent_paths_spec. unfold evaluate, behavior_of.
  destruct (policy_denies_tool_name _ _); [split; [by intros [[=] _]|done]|].
  destruct (policy_denies_intent_paths _ _); [split; [by intros [_ [=]]|done]|].
  split; [intros _|by intros []]. cbn zeta. case_match; unfold decision_from_behavior; repeat case_match; cbn; congruence.
Qed.

Abbreviation strictest := most_restrictive_permission_behavior.
Lemma strictest_swap a b c d : strictest (strictest a b) (strictest c d) = strictest (strictest a c) (strictest b d).
Proof. by destruct a, b, c, d. Qed.
Lemma strictest_idemp a : strictest a a = a.
Proof. by destruct a. Qed.
Lemma strictest_deny a : strictest a Deny = Deny.
Proof. by destruct a. Qed.
Lemma action_intersection l r a :
  behavior_for_action (intersect_tool_permission_policies l r) a = strictest (behavior_for_action l a) (behavior_for_action r a).
Proof.
  unfold intersect_tool_permission_policies.
  destruct (intersect_exact_allow_list _ _ _ _) as [tools rt], (intersect_path_allow_list _ _ _ _) as [paths rp]. by destruct a.
Qed.
Lemma behavior_intersection l r invocation i :
  behavior_of (intersect_tool_permission_policies l r) invocation i = strictest (behavior_of l invocation i) (behavior_of r invocation i).
Proof.
  unfold behavior_of. rewrite action_intersection. destruct (negb _ && negb _); [|done].
  change (dynamic_skill_tool (intersect_tool_permission_policies l r))
    with (behavior_for_action (intersect_tool_permission_policies l r) DynamicSkillTool).
  rewrite action_intersection. apply strictest_swap.
Qed.

Lemma tool_permitted_intersection l r name :
  trim name ≠ [] →
  (tool_permitted (intersect_tool_permission_policies l r) name → tool_permitted l name ∧ tool_permitted r name) ∧
  (lower_case_tools l → lower_case_tools r → tool_permitted l name → tool_permitted r name →
   tool_permitted (intersect_tool_permission_policies l r) name).
Proof.
  intros Hname. assert (key name ≠ []) as Hkey by (by rewrite key_nil).
  assert ((∃ v, v ∈ union_unique (denied_tools l) (denied_tools r) ∧ key v = key name) ↔
          (∃ v, v ∈ denied_tools l ∧ key v = key name) ∨ ∃ v, v ∈ denied_tools r ∧ key v = key name) as Hdenied.
  { setoid_rewrite elem_union_unique. split.
    - intros (v & (_ & w & [Hw|Hw] & ->) & Hk); rewrite key_trim in Hk; eauto.
    - intros [(v & Hv & Hk)|(v & Hv & Hk)]; exists (trim v); (rewrite key_trim; split; [|done]; split; [|eauto]);
        intros Ht%key_nil; congruence. }
  pose proof (intersect_exact_spec (allowed_tools l) (allowed_tools_restricted l) (allowed_tools r) (allowed_tools_restricted r) _ Hkey) as Hspec.
  unfold tool_permitted, restricted_tools, intersect_tool_permission_policies, lower_case_tools.
  destruct (intersect_exact_allow_list _ _ _ _) as [tools rt], (intersect_path_allow_list _ _ _ _) as [paths rp].
  cbn [denied_tools allowed_tools_restricted allowed_tools]. cbn zeta in Hspec. destruct Hspec as (-> & Hempty & Hdown & Hup). rewrite Hdenied.
  set (rl := allowed_tools_restricted l || _) in *. set (rr := allowed_tools_restricted r || _) in *.
  assert ((rl || rr) || negb (bool_decide (tools = [])) = rl || rr) as ->.
  { destruct (rl || rr) eqn:Hr; [done|]. by rewrite (Hempty eq_refl). }
  rewrite orb_true_iff in *. split.
  - intros [Hd Ha]. split; (split; [tauto|]); intros Hr; apply Hdown; auto.
  - intros Hl1 Hr1 [Hd1 Ha1] [Hd2 Ha2]. split; [tauto|]. intros Hr. apply Hup; [|done|done|done]. intros v [?|?]; auto.
Qed.
(** What is asked of the allowed paths of two policies, for file operations only. *)
Definition scopes_settled l r i : Prop :=
  action i = FileRead ∨ action i = FileWrite → settled_paths l ∧ settled_paths r.
Lemma paths_permitted_intersection l r i :
  scopes_settled l r i →
  (paths_permitted (intersect_tool_permission_policies l r) i → paths_permitted l i ∧ paths_permitted r i) ∧
  ((∀ v, v ∈ allowed_paths l ∨ v ∈ allowed_paths r → somewhere v) → paths_permitted l i → paths_permitted r i →
   paths_permitted (intersect_tool_permission_policies l r) i).
Proof.
  intros Hsettled. destruct (decide (action i = FileRead ∨ action i = FileWrite)) as [Hfile|Hfile]; [|unfold paths_permitted; naive_solver].
  destruct (Hsettled Hfile) as [Hsl Hsr].
  pose proof (intersect_path_spec (allowed_paths l) (allowed_paths_restricted l) (allowed_paths r) (allowed_paths_restricted r)
    (λ v H, match H with or_introl H => Hsl v H | or_intror H => Hsr v H end)) as Hspec.
  unfold paths_permitted, restricted_paths, intersect_tool_permission_policies.
  destruct (intersect_exact_allow_list _ _ _ _) as [tools rt], (intersect_path_allow_list _ _ _ _) as [paths rp].
  cbn [allowed_paths_restricted allowed_paths]. cbn zeta in Hspec. destruct Hspec as (-> & Hempty & Hscope).
  set (rl := allowed_paths_restricted l || _) in *. set (rr := allowed_paths_restricted r || _) in *.
  assert ((rl || rr) || negb (bool_decide (paths = [])) = rl || rr) as ->.
  { destruct (rl || rr) eqn:Hr; [done|]. by rewrite (Hempty eq_refl). }
  rewrite orb_true_iff in *. split.
  - intros Hp. split; intros Hr _; destruct (Hp ltac:(auto) Hfile) as [Hne Hall]; (split; [done|]);
      intros q Hq; destruct (proj1 (Hscope q) (Hall q Hq)); auto.
  - intros Hsome Hl Hr Hor _. split; [destruct Hor as [Ho|Ho]; [exact (proj1 (Hl Ho Hfile))|exact (proj1 (Hr Ho Hfile))]|].
    intros q Hq. apply Hscope; [done|by apply orb_true_iff|intros Ho; exact (proj2 (Hl Ho Hfile) q Hq)|intros Ho; exact (proj2 (Hr Ho Hfile) q Hq)].
Qed.
Lemma outcome_permitted c invocation i :
  let p := effective_policy (permission_profile c) in
  outcome (evaluate c invocation i) = Deny ∨ permitted p invocation i ∧ outcome (evaluate c invocation i) = behavior_of p invocation i.
Proof.
  cbn zeta. destruct (evaluate_permitted c invocation i) as [Hyes Hno].
  destruct (policy_denies_tool_name (effective_policy (permission_profile c)) (tool_name invocation)) eqn:Hn.
  { left. apply Hno. intros [Ht _]. apply denies_tool_name_spec in Ht. congruence. }
  destruct (policy_denies_intent_paths (effective_policy (permission_profile c)) i) eqn:Hp.
  { left. apply Hno. intros [_ Ht]. apply denies_intent_paths_spec in Ht. congruence. }
  right. rewrite denies_tool_name_spec in Hn. rewrite denies_intent_paths_spec in Hp. assert (permitted _ invocation i) as Hperm by by split. auto.
Qed.

Definition with_profile (c : PermissionEvaluationContext) (profile : TurnPermissionProfileSnapshot) : PermissionEvaluationContext :=
  {| workspace_id := workspace_id c; thread_id := thread_id c; turn_id := turn_id c; permission_profile := profile |}.

(** C20: a delegated turn works under the intersection of two permission profiles.
    For an invocation of a named tool that reads or writes no file, and for one that
    does provided the allowed paths of both profiles are settled (their normalized
    text neither begins nor ends with whitespace), the intersection is at least as
    strict as the stricter of the two decisions; it decides just that when tool
    names are given in lower case and no allowed path is the working directory
    itself. An unsettled path can widen: see [retrimmed_scope_widens]. *)
Theorem profile_intersection_exact left right source c invocation i :
  scopes_settled (effective_policy left) (effective_policy right) i → trim (tool_name invocation) ≠ [] →
  let decide_with profile := outcome (evaluate (with_profile c profile) invocation i) in
  let both := most_restrictive_permission_behavior (decide_with left) (decide_with right) in
  let after := decide_with (intersect_turn_permission_profiles left right source) in
  most_restrictive_permission_behavior both after = after ∧
  (lower_case_tools (effective_policy left) → lower_case_tools (effective_policy right) →
   (∀ v, v ∈ allowed_paths (effective_policy left) ∨ v ∈ allowed_paths (effective_policy right) → somewhere v) →
   after = both).
Proof.
  intros Hsettled Hname. cbn zeta.
  destruct (tool_permitted_intersection (effective_policy left) (effective_policy right) _ Hname) as [Ht1 Ht2].
  destruct (paths_permitted_intersection (effective_policy left) (effective_policy right) i Hsettled) as [Hp1 Hp2].
  pose proof (behavior_intersection (effective_policy left) (effective_policy right) invocation i) as Hb.
  destruct (evaluate_permitted (with_profile c left) invocation i) as [Hl _].
  destruct (evaluate_permitted (with_profile c right) invocation i) as [Hr _].
  destruct (evaluate_permitted (with_profile c (intersect_turn_permission_profiles left right source)) invocation i) as [Ha _].
  cbn [permission_profile with_profile effective_policy intersect_turn_permission_profiles] in *. unfold permitted in *. split.
  - destruct (outcome_permitted (with_profile c (intersect_turn_permission_profiles left right source)) invocation i) as [->|[[Ht Hp] ->]].
    { by destruct (outcome _), (outcome _). }
    cbn [permission_profile with_profile effective_policy intersect_turn_permission_profiles] in *.
    rewrite Hl, Hr, Hb by tauto. apply strictest_idemp.
  - intros Hlow1 Hlow2 Hsome.
    destruct (outcome_permitted (with_profile c (intersect_turn_permission_profiles left right source)) invocation i) as [Hd|[[Ht Hp] Hd]];
      cbn [permission_profile with_profile effective_policy intersect_turn_permission_profiles] in *.
    2: { rewrite Hd, Hb, Hl, Hr by tauto. done. }
    destruct (outcome_permitted (with_profile c left) invocation i) as [->|[[Htl Hpl] ->]]; [by rewrite Hd|].
    destruct (outcome_permitted (with_profile c right) invocation i) as [->|[[Htr Hpr] ->]]; [rewrite Hd; symmetry; apply strictest_deny|].
    rewrite Ha; [done|]. split; auto.
Qed.
End decisions.

(** The mode of an intersection compiles to the intersection of the policies. *)
Lemma mode_policies_intersect a b :
  intersect_tool_permission_policies (permission_policy_for_mode a) (permission_policy_for_mode b) =
  permission_policy_for_mode (most_restrictive_turn_permission_mode a b).
Proof. by destruct a, b. Qed.

Module SamplePermissions.
#[export] Instance sample_codec : ScopeCodec := {| decode_strings := λ _, None; normalized_hash := λ _, [] |}.
Definition restricted_to (paths tools : list string) : TurnPermissionProfileSnapshot :=
  {| profile_mode := FullAccess; profile_source := Composer;
     effective_policy := {|
       default_behavior := Allow; file_read := Allow; file_write := Ask; shell_command := Allow; network := Allow;
       mcp_read := Allow; mcp_write_or_unknown := Allow; dynamic_skill_tool := Allow; computer_use := Allow;
       task_subagent := Allow; memory_write := Allow; agent_action := Allow;
       allowed_tools_restricted := negb (bool_decide (tools = [])); allowed_tools := lit <$> tools; denied_tools := [];
       allowed_paths_restricted := negb (bool_decide (paths = [])); allowed_paths := lit <$> paths |} |}.
Definition sample_context : PermissionEvaluationContext :=
  {| workspace_id := None; thread_id := None; turn_id := None;
     permission_profile := compile_turn_permission_profile FullAccess Defaulted |}.
Definition use (tool : string) : Invocation := {| tool_name := lit tool; dynamic_skill := None; nested_dynamic_skills := [] |}.
Definition reads (path : string) : PermissionIntent :=
  {| action := FileRead; entries := {[lit "path" := lit path]}; summary := None |}.
Definition decided (profile : TurnPermissionProfileSnapshot) (tool path : string) : PermissionBehavior :=
  outcome (evaluate (with_profile sample_context profile) (use tool) (reads path)).

(** The cases of the tests of [turn_permissions.rs]. *)
Example scopes_intersect :
  let meet paths := allowed_paths (intersect_tool_permission_policies (effective_policy (restricted_to ["/workspace/src"] []))
                                     (effective_policy (restricted_to paths []))) in
  meet ["/workspace/src/./generated/../lib"] = [lit "/workspace/src/lib"] ∧ meet ["/workspace/tests"] = [].
Proof. split; vm_compute; reflexivity. Qed.

Lemma profile_intersection_exact_witness :
  let left := restricted_to ["/workspace/src"] ["read_file"; "list_dir"] in
  let right := restricted_to ["/workspace/src/./generated/../lib"; "/etc"] ["read_file"] in
  let decide_with profile := outcome (evaluate (with_profile sample_context profile) (use "Read_File") (reads "/workspace/src/lib/a.rs")) in
  let both := most_restrictive_permission_behavior (decide_with left) (decide_with right) in
  let after := decide_with (intersect_turn_permission_profiles left right TaskPermissionCap) in
  most_restrictive_permission_behavior both after = after ∧
  (lower_case_tools (effective_policy left) → lower_case_tools (effective_policy right) →
   (∀ v, v ∈ allowed_paths (effective_policy left) ∨ v ∈ allowed_paths (effective_policy right) → somewhere v) →
   after = both).
Proof.
  cbn zeta. apply (profile_intersection_exact (restricted_to ["/workspace/src"] ["read_file"; "list_dir"])
    (restricted_to ["/workspace/src/./generated/../lib"; "/etc"] ["read_file"])).
  - intros _. unfold settled_paths, settled_path. split; rewrite <-Forall_forall; apply (bool_decide_unpack _); vm_compute; exact I.
  - vm_compute. discriminate.
Defined.
Example both_scopes_allow : decided (intersect_turn_permission_profiles (restricted_to ["/workspace/src"] ["read_file"; "list_dir"])
    (restricted_to ["/workspace/src/./generated/../lib"; "/etc"] ["read_file"]) TaskPermissionCap) "Read_File" "/workspace/src/lib/a.rs" = Allow.
Proof. vm_compute. reflexivity. Qed.

(** Without [settled_path] delegating can widen a scope: the normalized text of
    this path ends with a space, which the evaluator trims when it reads the
    intersection. *)
Example retrimmed_scope_widens :
  let scoped := restricted_to ["/x/a /b/.."] [] in
  decided scoped "read_file" "/x/a/secret" = Deny ∧
  decided (intersect_turn_permission_profiles scoped (compile_turn_permission_profile FullAccess Composer) TaskPermissionCap)
    "read_file" "/x/a/secret" = Allow.
Proof. split; vm_compute; reflexivity. Qed.
End SamplePermissions.
