(* ===== verification/ProcessPolicy.v ===== *)
(** * What a spawned process may be and see

    Models the rules of [crates/tools/src/process_policy.rs]: which commands a turn
    may run, which variables its process may see and the cap on its duration.
    ProcessSpawn.v builds the plan of a process from them. *)
From S2P Require Import Prelude TextSplit UnixPath NetworkPolicy ToolPermissions.
Local Open Scope N_scope.

Record TurnShellPolicy := { shell_enabled : bool; allow_stdin : bool; allow_session_inheritance : bool }.
#[export] Instance TurnShellPolicy_eq_dec : EqDecision TurnShellPolicy.
Proof. solve_decision. Defined.
Record TurnEnvironmentPolicy := { inherit : bool; allowed_vars : list text; denied_patterns : list text }.
#[export] Instance TurnEnvironmentPolicy_eq_dec : EqDecision TurnEnvironmentPolicy.
Proof. solve_decision. Defined.
Record TurnCommandRiskPolicy := { denied_commands : list text; allowed_command_families : list text }.
#[export] Instance TurnCommandRiskPolicy_eq_dec : EqDecision TurnCommandRiskPolicy.
Proof. solve_decision. Defined.
Record TurnProcessPolicySnapshot := {
  shell : TurnShellPolicy; environment : TurnEnvironmentPolicy; max_duration_ms : N; command_risk : TurnCommandRiskPolicy;
}.
#[export] Instance TurnProcessPolicySnapshot_eq_dec : EqDecision TurnProcessPolicySnapshot.
Proof. solve_decision. Defined.

Definition enabled_shell : TurnShellPolicy := {| shell_enabled := true; allow_stdin := true; allow_session_inheritance := true |}.
Definition unrestricted_environment : TurnEnvironmentPolicy := {| inherit := true; allowed_vars := []; denied_patterns := [] |}.
Definition RESTRICTED_ALLOWED_VARS : list text := lit <$>
  ["PATH"; "HOME"; "USER"; "LOGNAME"; "SHELL"; "TMPDIR"; "TEMP"; "TMP"; "LANG"; "LANGUAGE"; "LC_ALL"; "LC_CTYPE"; "TERM";
   "COLORTERM"; "TERM_PROGRAM"; "NO_COLOR"; "FORCE_COLOR"; "XDG_CACHE_HOME"; "XDG_CONFIG_HOME"; "XDG_DATA_HOME";
   "XDG_STATE_HOME"; "CARGO_HOME"; "RUSTUP_HOME"; "GOPATH"; "GOROOT"; "JAVA_HOME"; "MAVEN_HOME"; "GRADLE_HOME"; "NODE_PATH";
   "NVM_BIN"; "NVM_DIR"; "PNPM_HOME"; "BUN_INSTALL"; "VOLTA_HOME"; "PYENV_ROOT"; "VIRTUAL_ENV"; "CONDA_PREFIX"; "SDKROOT";
   "DEVELOPER_DIR"; "PIONEER_ARTIFACT_OUTPUT_DIR"]%string.
Definition restricted_environment : TurnEnvironmentPolicy :=
  {| inherit := false; allowed_vars := RESTRICTED_ALLOWED_VARS;
     denied_patterns := lit <$> [".*TOKEN.*"; ".*SECRET.*"; ".*PASSWORD.*"; ".*API_KEY.*"; ".*ACCESS_KEY.*"; ".*CREDENTIAL.*";
                                 ".*DATABASE_URL.*"; ".*AUTH.*"; ".*COOKIE.*"]%string |}.
Definition default_max_duration_ms : N := 30 * 60 * 1000.
Definition default_command_risk : TurnCommandRiskPolicy := {| denied_commands := []; allowed_command_families := [] |}.
Definition unrestricted_process : TurnProcessPolicySnapshot :=
  {| shell := enabled_shell; environment := unrestricted_environment; max_duration_ms := default_max_duration_ms;
     command_risk := default_command_risk |}.
Definition restricted_process : TurnProcessPolicySnapshot :=
  {| shell := enabled_shell; environment := restricted_environment; max_duration_ms := default_max_duration_ms;
     command_risk := default_command_risk |}.

(** ** Patterns *)

Definition to_ascii_uppercase (s : text) : text := (λ c, if decide (97 ≤ c ∧ c ≤ 122) then c - 32 else c) <$> s.
(** [str::contains] of a text. *)
Fixpoint contains (pattern s : text) : bool :=
  starts_with pattern s || match s with [] => false | _ :: s => contains pattern s end.
Definition drop_suffixes (p s : text) : text := reverse (drop_prefixes (reverse p) (length s) (reverse s)).
Definition pattern_core (pattern : text) : text :=
  let pattern := trim pattern in
  drop_suffixes (lit ".*") (drop_prefixes (lit ".*") (length pattern) pattern).
Definition policy_pattern_matches (pattern value : text) : bool :=
  if decide (trim pattern = []) then false
  else
    let normalized_pattern := to_ascii_uppercase (pattern_core pattern) in
    let normalized_value := to_ascii_uppercase value in
    if decide (normalized_pattern = []) then false
    else bool_decide (normalized_value = normalized_pattern) || contains normalized_pattern normalized_value.
Definition command_matches (pattern command : text) : bool :=
  let command_name := default command (file_name command) in
  policy_pattern_matches pattern command || policy_pattern_matches pattern command_name.
Definition command_matches_any (command : text) (patterns : list text) : bool :=
  existsb (λ pattern, command_matches pattern command) patterns.
Definition env_denied (policy : TurnEnvironmentPolicy) (name : text) : bool :=
  existsb (λ pattern, policy_pattern_matches pattern name) (denied_patterns policy).

(** ** Decisions *)

Definition enforce_process_policy (process : TurnProcessPolicySnapshot) (policy : ToolPermissionPolicySnapshot)
    (command : list text) : result ToolError () :=
  if negb (shell_enabled (shell process))
  then Err (Rejected (lit "process policy denied shell command: shell execution is disabled"))
  else if decide (shell_command policy = Deny)
  then Err (Rejected (lit "process policy denied shell command by turn permission profile"))
  else
    let executable := default [] (head command) in
    if command_matches_any executable (denied_commands (command_risk process))
    then Err (Rejected (lit "process policy denied command `" ++ executable ++ lit "`"))
    else if negb (bool_decide (allowed_command_families (command_risk process) = [])) &&
            negb (command_matches_any executable (allowed_command_families (command_risk process)))
    then Err (Rejected (lit "process policy denied command `" ++ executable ++ lit "` outside allowed command families"))
    else Ok ().

Abbreviation env_map := (gmap text text).
Definition listed (policy : TurnEnvironmentPolicy) (name : text) : bool :=
  bool_decide (to_ascii_uppercase name ∈ to_ascii_uppercase <$> allowed_vars policy).
Definition sanitize_environment (policy : TurnEnvironmentPolicy) (invocation_environment host_environment : env_map)
    : bool * env_map * list text :=
  let allow_list_active := negb (inherit policy) || negb (bool_decide (allowed_vars policy = [])) in
  let host_environment := invocation_environment ∪ host_environment in
  if allow_list_active then
    (false,
     filter (λ '(name, _), listed policy name = true ∧ env_denied policy name = false) host_environment,
     filter (λ name, listed policy name = false ∨ env_denied policy name = true) (map_to_list host_environment).*1)
  else
    (inherit policy,
     filter (λ '(name, _), env_denied policy name = false) invocation_environment,
     filter (λ name, env_denied policy name = true) (map_to_list host_environment).*1).

Definition capped_timeout (requested : option N) (default_timeout_ms : N) (process : TurnProcessPolicySnapshot) : N :=
  default default_timeout_ms requested `min` max_duration_ms process.

(** ** What patterns cover *)

Lemma contains_spec p s : contains p s = true ↔ ∃ a b, s = a ++ p ++ b.
Proof.
  induction s as [|c s IH]; cbn [contains]; rewrite orb_true_iff, starts_with_spec.
  - split; [intros [[r Hr]|[=]]; by exists [], r|]. intros (a & b & Hs). left. exists b. by destruct a.
  - rewrite IH. split.
    + intros [[r ->]|(a & b & ->)]; [by exists [], r|by exists (c :: a), b].
    + intros (a & b & Hs). destruct a as [|d a]; [left; by exists b|]. injection Hs as <- ->. right. by exists a, b.
Qed.
Lemma upper_nil s : to_ascii_uppercase s = [] ↔ s = [].
Proof. by destruct s. Qed.
(** A pattern covers the texts that contain it, up to the case of ASCII letters. *)
Definition covers_text (pattern value : text) : Prop :=
  pattern_core pattern ≠ [] ∧
  ∃ before after, to_ascii_uppercase value = before ++ to_ascii_uppercase (pattern_core pattern) ++ after.
Lemma pattern_matches_spec pattern value : policy_pattern_matches pattern value = true ↔ covers_text pattern value.
Proof.
  unfold policy_pattern_matches, covers_text. case_decide as Htrim.
  { assert (pattern_core pattern = []) as -> by (unfold pattern_core; by rewrite Htrim). naive_solver. }
  case_decide as Hcore; rewrite upper_nil in Hcore; [naive_solver|]. rewrite orb_true_iff, bool_decide_eq_true, contains_spec. split.
  - intros [Heq|?]; [|done]. split; [done|]. exists [], []. by rewrite app_nil_r.
  - intros [_ ?]. by right.
Qed.
Definition commands_cover (patterns : list text) (executable : text) : Prop :=
  ∃ pattern, pattern ∈ patterns ∧
    (covers_text pattern executable ∨ covers_text pattern (default executable (file_name executable))).
Lemma command_matches_any_spec executable patterns :
  command_matches_any executable patterns = true ↔ commands_cover patterns executable.
Proof.
  unfold command_matches_any, commands_cover. rewrite existsb_elem.
  assert (∀ p, command_matches p executable = true ↔
    covers_text p executable ∨ covers_text p (default executable (file_name executable))) as Hm; [|by setoid_rewrite Hm].
  intros p. unfold command_matches. by rewrite orb_true_iff, !pattern_matches_spec.
Qed.
Definition denies_name (policy : TurnEnvironmentPolicy) (name : text) : Prop :=
  ∃ pattern, pattern ∈ denied_patterns policy ∧ covers_text pattern name.
Lemma env_denied_spec policy name : env_denied policy name = true ↔ denies_name policy name.
Proof. unfold env_denied, denies_name. rewrite existsb_elem. by setoid_rewrite pattern_matches_spec. Qed.

(** ** What is admitted *)

Definition runs (process : TurnProcessPolicySnapshot) (policy : ToolPermissionPolicySnapshot) (executable : text) : Prop :=
  shell_enabled (shell process) = true ∧ shell_command policy ≠ Deny ∧
  ¬ commands_cover (denied_commands (command_risk process)) executable ∧
  (allowed_command_families (command_risk process) ≠ [] →
   commands_cover (allowed_command_families (command_risk process)) executable).
Lemma enforce_process_policy_spec process policy command :
  enforce_process_policy process policy command = Ok () ↔ runs process policy (default [] (head command)).
Proof.
  unfold enforce_process_policy, runs. rewrite <-!command_matches_any_spec.
  destruct (shell_enabled (shell process)); cbn; [|by naive_solver]. case_decide; [naive_solver|].
  destruct (command_matches_any _ (denied_commands _)); [naive_solver|].
  destruct (decide (allowed_command_families (command_risk process) = [])) as [Hn|Hn].
  - rewrite (bool_decide_eq_true_2 _ Hn). naive_solver.
  - rewrite (bool_decide_eq_false_2 _ Hn). cbn. destruct (command_matches_any _ _); naive_solver.
Qed.

(** The variables a policy lets through. *)
Definition sees (policy : TurnEnvironmentPolicy) (name : text) : Prop :=
  (inherit policy = true ∧ allowed_vars policy = [] ∨
   ∃ v, v ∈ allowed_vars policy ∧ to_ascii_uppercase v = to_ascii_uppercase name) ∧
  ¬ denies_name policy name.
Lemma listed_spec policy name :
  listed policy name = true ↔ ∃ v, v ∈ allowed_vars policy ∧ to_ascii_uppercase v = to_ascii_uppercase name.
Proof. unfold listed. rewrite bool_decide_eq_true, list_elem_of_fmap. naive_solver. Qed.
