(* ===== verification/DelegatedSecurity.v ===== *)
(** * The security of a delegated turn

    Models the derivation in [crates/gateway/src/turn_security.rs] of what the
    child of a task may do from the snapshot of its parent and the cap of the
    task: the intersections of file system, network and process policies and the
    validation of the cap. [orchestrator.rs] says which file system grants such an
    authority admits. A [SecuritySnapshot] is the part of a
    [TurnExecutionSecuritySnapshot] that grants something; the capabilities of the
    execution backend, approvals and provenance of the snapshot are left out. *)
From S2P Require Import Prelude Ordered TextSplit UnixPath NetworkPolicy ToolPermissions ProcessPolicy.
Local Open Scope N_scope.

(** ** Data *)

Inductive TurnFilesystemSandboxKind := RestrictedFiles | UnrestrictedFiles.
#[export] Instance TurnFilesystemSandboxKind_eq_dec : EqDecision TurnFilesystemSandboxKind.
Proof. solve_decision. Defined.
Inductive TurnFilesystemAccess := NoAccess | ReadAccess | WriteAccess.
#[export] Instance TurnFilesystemAccess_eq_dec : EqDecision TurnFilesystemAccess.
Proof. solve_decision. Defined.
Inductive TurnFilesystemSandboxPath :=
  | Root | CurrentWorkingDirectory | WorkspaceRoot | ProjectRoot (id : text) (subpath : option text) | SlashTmp | Tmpdir
  | RuntimeHome | ExplicitPath (path : text).
#[export] Instance TurnFilesystemSandboxPath_eq_dec : EqDecision TurnFilesystemSandboxPath.
Proof. solve_decision. Defined.
Inductive TurnSecurityRuleProvenance := ComposerSelection | Workspace | Project | Runtime | TaskCap | SystemRule.
#[export] Instance TurnSecurityRuleProvenance_eq_dec : EqDecision TurnSecurityRuleProvenance.
Proof. solve_decision. Defined.
Record TurnFilesystemSandboxEntry := {
  entry_path : TurnFilesystemSandboxPath; access : TurnFilesystemAccess; provenance : TurnSecurityRuleProvenance;
  resolved_path : option text;
}.
#[export] Instance entry_fields : Fields TurnFilesystemSandboxEntry := λ e,
  {| entry_path := entry_path e; access := access e; provenance := provenance e; resolved_path := resolved_path e |}.
Record TurnFilesystemSandboxPolicy := { kind : TurnFilesystemSandboxKind; fs_entries : list TurnFilesystemSandboxEntry }.
Definition unrestricted_files : TurnFilesystemSandboxPolicy := {| kind := UnrestrictedFiles; fs_entries := [] |}.
Inductive TurnSandboxMode := Unrestricted | ReadOnly | WorkspaceWrite.
#[export] Instance TurnSandboxMode_eq_dec : EqDecision TurnSandboxMode.
Proof. solve_decision. Defined.
Record SecuritySnapshot := {
  permission_profile : TurnPermissionProfileSnapshot; sandbox_mode : TurnSandboxMode; cwd : text;
  sandbox_files : TurnFilesystemSandboxPolicy; network : TurnNetworkPolicySnapshot; process : TurnProcessPolicySnapshot;
  cap_files : TurnFilesystemSandboxPolicy; cap_network : TurnNetworkPolicySnapshot; cap_process : TurnProcessPolicySnapshot;
}.
Record TaskAgentSecurityCap := {
  max_permission_profile : TurnPermissionProfileCap; max_filesystem_kind : option TurnFilesystemSandboxKind;
  max_filesystem_entries : list TurnFilesystemSandboxEntry; max_network_policy : TurnNetworkPolicySnapshot;
  max_sandbox_mode : TurnSandboxMode; max_process_policy : TurnProcessPolicySnapshot;
}.
#[export] Instance network_policy_eq_dec : EqDecision TurnNetworkPolicySnapshot.
Proof. solve_decision. Defined.

(** ** Lattices *)

Definition most_restrictive_sandbox_mode (left right : TurnSandboxMode) : TurnSandboxMode :=
  match left, right with
  | ReadOnly, _ | _, ReadOnly => ReadOnly
  | WorkspaceWrite, _ | _, WorkspaceWrite => WorkspaceWrite
  | Unrestricted, Unrestricted => Unrestricted
  end.
Definition most_restrictive_network_mode (left right : TurnNetworkMode) : TurnNetworkMode :=
  match left, right with
  | Disabled, _ | _, Disabled => Disabled
  | Restricted, _ | _, Restricted => Restricted
  | Enabled, Enabled => Enabled
  end.
Definition most_restrictive_filesystem_access (left right : TurnFilesystemAccess) : TurnFilesystemAccess :=
  match left, right with
  | NoAccess, _ | _, NoAccess => NoAccess
  | ReadAccess, _ | _, ReadAccess => ReadAccess
  | WriteAccess, WriteAccess => WriteAccess
  end.
Definition sandbox_mode_for_permission_mode (mode : TurnPermissionMode) : TurnSandboxMode :=
  match mode with FullAccess => Unrestricted | AutoAcceptEdits => WorkspaceWrite | Supervised => ReadOnly end.
Definition network_policy_for_permission_mode (mode : TurnPermissionMode) : TurnNetworkPolicySnapshot :=
  match mode with FullAccess => enabled_policy | AutoAcceptEdits | Supervised => disabled_policy end.
Definition process_policy_for_permission_mode (mode : TurnPermissionMode) : TurnProcessPolicySnapshot :=
  match mode with FullAccess => unrestricted_process | AutoAcceptEdits | Supervised => restricted_process end.

(** ** Lists: a [BTreeSet] collected from a list *)

Definition sorted_unique (values : list text) : list text := ordered_elements (λ value, value) (list_to_set values : gset text).
Definition union_sorted (left right : list text) : list text := sorted_unique (left ++ right).
Definition intersect_optional_allow_lists (left right : list text) : list text :=
  if decide (left = []) then sorted_unique right
  else if decide (right = []) then sorted_unique left
  else sorted_unique (filter (λ value, value ∈ right) left).

(** ** File system *)

Definition filesystem_entry_resolved_path (entry : TurnFilesystemSandboxEntry) : option (list text) :=
  normalize_lexically <$>
    match resolved_path entry with
    | Some path => Some path
    | None => match entry_path entry with ExplicitPath path => Some path | _ => None end
    end.
Definition intersect_filesystem_entry_roots (left right : TurnFilesystemSandboxEntry) : option TurnFilesystemSandboxEntry :=
  match filesystem_entry_resolved_path left, filesystem_entry_resolved_path right with
  | Some left_path, Some right_path =>
      if path_starts_with left_path right_path then Some left
      else if path_starts_with right_path left_path then Some right
      else None
  | None, None => if decide (entry_path left = entry_path right) then Some left else None
  | _, _ => None
  end.
Definition narrowed_filesystem_entries (entries : list TurnFilesystemSandboxEntry) (requested_access : TurnFilesystemAccess)
    : list TurnFilesystemSandboxEntry :=
  omap (λ entry,
    let narrowed := (entry <| provenance := TaskCap |>)
                      <| access := most_restrictive_filesystem_access (access entry) requested_access |> in
    if decide (access narrowed ≠ NoAccess) then Some narrowed else None) entries.
Definition intersect_entries (requested_access : TurnFilesystemAccess) (left right : TurnFilesystemSandboxEntry)
    : option TurnFilesystemSandboxEntry :=
  narrower ← intersect_filesystem_entry_roots left right;
  let narrower := (narrower <| provenance := TaskCap |>)
    <| access := most_restrictive_filesystem_access
                   (most_restrictive_filesystem_access (access left) (access right)) requested_access |> in
  if decide (access narrower ≠ NoAccess) then Some narrower else None.
Definition intersect_filesystem_policies (left right : TurnFilesystemSandboxPolicy) (requested_access : TurnFilesystemAccess)
    : TurnFilesystemSandboxPolicy :=
  match kind left, kind right with
  | UnrestrictedFiles, UnrestrictedFiles => unrestricted_files
  | UnrestrictedFiles, RestrictedFiles =>
      {| kind := RestrictedFiles; fs_entries := narrowed_filesystem_entries (fs_entries right) requested_access |}
  | RestrictedFiles, UnrestrictedFiles =>
      {| kind := RestrictedFiles; fs_entries := narrowed_filesystem_entries (fs_entries left) requested_access |}
  | RestrictedFiles, RestrictedFiles =>
      {| kind := RestrictedFiles;
         fs_entries := flat_map (λ left_entry, omap (intersect_entries requested_access left_entry) (fs_entries right))
                         (fs_entries left) |}
  end.
Definition matching_parent_filesystem_entry (cap_entry : TurnFilesystemSandboxEntry)
    (parent_entries : list TurnFilesystemSandboxEntry) : option TurnFilesystemSandboxEntry :=
  find (λ parent,
    match filesystem_entry_resolved_path parent, filesystem_entry_resolved_path cap_entry with
    | Some parent_path, Some cap_path => path_starts_with cap_path parent_path
    | _, _ => false
    end) parent_entries.
Definition filesystem_entry_allowed_by_parent (cap_entry : TurnFilesystemSandboxEntry)
    (parent_entries : list TurnFilesystemSandboxEntry) : bool :=
  match matching_parent_filesystem_entry cap_entry parent_entries with
  | Some parent => bool_decide (most_restrictive_filesystem_access (access parent) (access cap_entry) = access cap_entry)
  | None => false
  end.


(** ** Network and processes *)

Definition intersect_network_policies (left right : TurnNetworkPolicySnapshot) : TurnNetworkPolicySnapshot :=
  let mode := most_restrictive_network_mode (mode left) (mode right) in
  if decide (mode = Disabled) then disabled_policy
  else if decide (mode = Enabled) then enabled_policy
  else
    {| mode := mode;
       allowed_domains := intersect_optional_allow_lists (allowed_domains left) (allowed_domains right);
       denied_domains := union_sorted (denied_domains left) (denied_domains right);
       allow_localhost := allow_localhost left && allow_localhost right;
       allow_unix_sockets := allow_unix_sockets left && allow_unix_sockets right |}.
Definition intersect_environments (left right : TurnEnvironmentPolicy) : TurnEnvironmentPolicy :=
  {| inherit := inherit left && inherit right;
     allowed_vars := intersect_optional_allow_lists (allowed_vars left) (allowed_vars right);
     denied_patterns := union_sorted (denied_patterns left) (denied_patterns right) |}.
Definition intersect_process_policies (left right : TurnProcessPolicySnapshot) : TurnProcessPolicySnapshot :=
  {| shell :=
       {| shell_enabled := shell_enabled (shell left) && shell_enabled (shell right);
          allow_stdin := allow_stdin (shell left) && allow_stdin (shell right);
          allow_session_inheritance := allow_session_inheritance (shell left) && allow_session_inheritance (shell right) |};
     environment := intersect_environments (environment left) (environment right);
     max_duration_ms := max_duration_ms left `min` max_duration_ms right;
     command_risk :=
       {| denied_commands := union_sorted (denied_commands (command_risk left)) (denied_commands (command_risk right));
          allowed_command_families := intersect_optional_allow_lists (allowed_command_families (command_risk left))
                                        (allowed_command_families (command_risk right)) |} |}.
Definition process_policy_within (child parent : TurnProcessPolicySnapshot) : bool :=
  (negb (shell_enabled (shell child)) || shell_enabled (shell parent)) &&
  (negb (allow_stdin (shell child)) || allow_stdin (shell parent)) &&
  (negb (allow_session_inheritance (shell child)) || allow_session_inheritance (shell parent)) &&
  (negb (inherit (environment child)) || inherit (environment parent)) &&
  bool_decide (max_duration_ms child ≤ max_duration_ms parent).

(** ** The cap of a task *)

Definition task_cap_filesystem_entries (snapshot : SecuritySnapshot) : list TurnFilesystemSandboxEntry :=
  if decide (kind (cap_files snapshot) = UnrestrictedFiles) then [] else fs_entries (cap_files snapshot).
Definition task_security_cap_from_snapshot (snapshot : SecuritySnapshot) : TaskAgentSecurityCap :=
  {| max_permission_profile := task_permission_cap_from_snapshot (permission_profile snapshot);
     max_filesystem_kind := Some (kind (cap_files snapshot));
     max_filesystem_entries := task_cap_filesystem_entries snapshot;
     max_network_policy := cap_network snapshot;
     max_sandbox_mode := sandbox_mode snapshot;
     max_process_policy := cap_process snapshot |}.
Definition legacy_task_cap_has_unrestricted_filesystem (task_cap : TaskAgentSecurityCap) : bool :=
  match max_filesystem_entries task_cap with [] => true | _ :: _ => false end &&
  bool_decide (cap_mode (max_permission_profile task_cap) = FullAccess) &&
  bool_decide (max_sandbox_mode task_cap = Unrestricted) &&
  bool_decide (mode (max_network_policy task_cap) = Enabled) &&
  bool_decide (max_process_policy task_cap = unrestricted_process).
Definition task_cap_filesystem_policy (task_cap : TaskAgentSecurityCap) : result text TurnFilesystemSandboxPolicy :=
  let kind :=
    match max_filesystem_kind task_cap with
    | Some kind => kind
    | None => if legacy_task_cap_has_unrestricted_filesystem task_cap then UnrestrictedFiles else RestrictedFiles
    end in
  match kind with
  | UnrestrictedFiles =>
      match max_filesystem_entries task_cap with
      | [] => Ok unrestricted_files
      | _ :: _ => Err (lit "unrestricted task filesystem cap must not contain bounded roots")
      end
  | RestrictedFiles => Ok {| kind := kind; fs_entries := max_filesystem_entries task_cap |}
  end.
Definition validate_task_security_cap_within_parent (parent : SecuritySnapshot) (task_cap : TaskAgentSecurityCap)
    : result text () :=
  let cap_profile := cap_mode (max_permission_profile task_cap) in
  ensure (bool_decide (most_restrictive_turn_permission_mode (profile_mode (permission_profile parent)) cap_profile = cap_profile))
    (lit "task security cap permission profile exceeds parent turn");;
  ensure (bool_decide (most_restrictive_sandbox_mode (sandbox_mode parent) (max_sandbox_mode task_cap) = max_sandbox_mode task_cap))
    (lit "task security cap sandbox mode exceeds parent turn");;
  ensure (bool_decide (most_restrictive_network_mode (mode (cap_network parent)) (mode (max_network_policy task_cap)) =
                       mode (max_network_policy task_cap)))
    (lit "task security cap network policy exceeds parent turn");;
  ensure (process_policy_within (max_process_policy task_cap) (cap_process parent))
    (lit "task security cap process policy exceeds parent turn");;
  task_filesystem ← task_cap_filesystem_policy task_cap;
  ensure (negb (bool_decide (kind task_filesystem = UnrestrictedFiles) && negb (bool_decide (kind (cap_files parent) = UnrestrictedFiles))))
    (lit "task security cap filesystem roots exceed parent turn");;
  ensure (bool_decide (kind (cap_files parent) = UnrestrictedFiles) ||
          forallb (λ entry, filesystem_entry_allowed_by_parent entry (fs_entries (cap_files parent))) (max_filesystem_entries task_cap))
    (lit "task security cap filesystem roots exceed parent turn").

(** ** The child *)

(** What a turn leaves to its children of its own sandbox: not the explicit roots
    made for it alone. *)
Definition delegable (entry : TurnFilesystemSandboxEntry) : bool :=
  negb (bool_decide (provenance entry = Runtime) && match entry_path entry with ExplicitPath _ => true | _ => false end).
Definition parent_initial_policy (parent : SecuritySnapshot) : TurnFilesystemSandboxPolicy :=
  let policy := sandbox_files parent in
  if decide (kind policy = RestrictedFiles)
  then {| kind := RestrictedFiles; fs_entries := filter (λ entry, delegable entry = true) (fs_entries policy) |}
  else policy.
Definition working_directory_entry (requested_access : TurnFilesystemAccess) (cwd : text) : TurnFilesystemSandboxEntry :=
  {| entry_path := CurrentWorkingDirectory; access := requested_access; provenance := Runtime; resolved_path := Some cwd |}.
Definition intersect_filesystem_entries (parent : SecuritySnapshot) (task_cap : TaskAgentSecurityCap)
    (requested_access : TurnFilesystemAccess) : result text (list TurnFilesystemSandboxEntry) :=
  task_policy ← task_cap_filesystem_policy task_cap;
  let policy := intersect_filesystem_policies (parent_initial_policy parent) task_policy requested_access in
  Ok (if decide (kind policy = UnrestrictedFiles) then [working_directory_entry requested_access (cwd parent)]
      else fs_entries policy).
Definition resolve_task_child_execution_security (parent : SecuritySnapshot) (task_cap : TaskAgentSecurityCap)
    (child_permission_profile : TurnPermissionProfileSnapshot) : result text SecuritySnapshot :=
  validate_task_security_cap_within_parent parent task_cap;;
  let cap_profile := task_permission_cap_snapshot (max_permission_profile task_cap) in
  let parent_profile := inherited_turn_permission_profile_from_snapshot (permission_profile parent) in
  let profile := intersect_turn_permission_profiles child_permission_profile cap_profile TaskPermissionCap in
  let profile := intersect_turn_permission_profiles profile parent_profile TaskPermissionCap in
  let mode := most_restrictive_sandbox_mode (most_restrictive_sandbox_mode (sandbox_mode parent) (max_sandbox_mode task_cap))
                (sandbox_mode_for_permission_mode (profile_mode profile)) in
  let network := intersect_network_policies (intersect_network_policies (network parent) (max_network_policy task_cap))
                   (network_policy_for_permission_mode (profile_mode profile)) in
  let process := intersect_process_policies (intersect_process_policies (process parent) (max_process_policy task_cap))
                   (process_policy_for_permission_mode (profile_mode profile)) in
  files ← match mode with
          | Unrestricted => Ok unrestricted_files
          | WorkspaceWrite =>
              entries ← intersect_filesystem_entries parent task_cap WriteAccess;
              Ok {| kind := RestrictedFiles; fs_entries := entries |}
          | ReadOnly =>
              entries ← intersect_filesystem_entries parent task_cap ReadAccess;
              Ok {| kind := RestrictedFiles; fs_entries := entries |}
          end;
  task_policy ← task_cap_filesystem_policy task_cap;
  Ok {| permission_profile := profile; sandbox_mode := mode; cwd := cwd parent;
        sandbox_files := files; network := network; process := process;
        cap_files := intersect_filesystem_policies (cap_files parent) task_policy WriteAccess;
        cap_network := intersect_network_policies (cap_network parent) (max_network_policy task_cap);
        cap_process := intersect_process_policies (cap_process parent) (max_process_policy task_cap) |}.

(** ** File system authority *)






(** ** Lists of names *)

Lemma elem_sorted_unique l x : x ∈ sorted_unique l ↔ x ∈ l.
Proof. unfold sorted_unique. by rewrite elem_ordered_elements, elem_of_list_to_set. Qed.
Lemma elem_union_sorted l r x : x ∈ union_sorted l r ↔ x ∈ l ∨ x ∈ r.
Proof. unfold union_sorted. by rewrite elem_sorted_unique, elem_of_app. Qed.
Lemma elem_intersect_lists l r x :
  x ∈ intersect_optional_allow_lists l r ↔ l = [] ∧ x ∈ r ∨ r = [] ∧ x ∈ l ∨ x ∈ l ∧ x ∈ r.
Proof.
  unfold intersect_optional_allow_lists. case_decide as Hl; [|case_decide as Hr]; rewrite elem_sorted_unique, ?list_elem_of_filter; subst;
    rewrite ?elem_of_nil; naive_solver.
Qed.
(** Both lists are empty, or both name something and agree on some of it. *)
Definition meet (l r : list text) : Prop := l ≠ [] → r ≠ [] → ∃ x, x ∈ l ∧ x ∈ r.
Lemma intersect_lists_nil l r : meet l r → intersect_optional_allow_lists l r = [] → l = [] ∧ r = [].
Proof.
  intros Hmeet Hnil. assert (∀ x, x ∉ intersect_optional_allow_lists l r) as Hno by (rewrite Hnil; intros x; apply not_elem_of_nil).
  setoid_rewrite elem_intersect_lists in Hno.
  destruct l as [|x l]; [destruct r as [|y r]; [done|]|destruct r as [|y r]].
  - exfalso. apply (Hno y). left. split; [done|left].
  - exfalso. apply (Hno x). right. left. split; [done|left].
  - destruct Hmeet as (z & ? & ?); [done..|]. exfalso. apply (Hno z). auto.
Qed.
Lemma intersect_lists_disjoint l r : l ≠ [] → r ≠ [] → (∀ x, x ∈ l → x ∉ r) → intersect_optional_allow_lists l r = [].
Proof.
  intros Hl Hr Hd. destruct (intersect_optional_allow_lists l r) as [|x k] eqn:Hk; [done|].
  assert (x ∈ intersect_optional_allow_lists l r) as Hx by (rewrite Hk; left). apply elem_intersect_lists in Hx. naive_solver.
Qed.

(** ** Network *)

Section network.
Context `{UrlApi}.
Implicit Types (l r : TurnNetworkPolicySnapshot).

(** Lists that an intersection reads as they are meant: a restricted policy names
    its domains, or neither side names any, and two lists share a rule. An enabled
    policy denies nothing. *)
Definition network_compatible l r : Prop :=
  (mode l = Enabled → mode r = Enabled → denied_domains l = [] ∧ denied_domains r = []) ∧
  meet (allowed_domains l) (allowed_domains r) ∧
  ((mode l = Restricted → allowed_domains l = [] → allowed_domains r = []) ∧
   (mode r = Restricted → allowed_domains r = [] → allowed_domains l = [])).
Lemma permits_list (p : TurnNetworkPolicySnapshot) u host :
  (∀ rule, rule ∈ denied_domains p → ¬ covers u host rule) → mode p ≠ Disabled →
  (mode p = Restricted → (∃ rule, rule ∈ allowed_domains p ∧ covers u host rule) ∨
                         allowed_domains p = [] ∧ allow_localhost p = true ∧ is_localhost host = true) →
  permits p u host.
Proof. intros Hd Hm Hr. split; [done|]. destruct (mode p); auto. Qed.
Lemma network_narrow l r u host :
  network_compatible l r → permits (intersect_network_policies l r) u host → permits l u host ∧ permits r u host.
Proof.
  intros (Hdenied & Hmeet & Hl & Hr). unfold intersect_network_policies. case_decide as Hdis; [by intros [_ []]|].
  assert (mode l ≠ Disabled ∧ mode r ≠ Disabled) as [Hml Hmr] by by (destruct (mode l), (mode r)).
  case_decide as Hen.
  { intros _. assert (mode l = Enabled ∧ mode r = Enabled) as [Hel Her] by by (destruct (mode l), (mode r)).
    destruct (Hdenied Hel Her) as [Hdl Hdr]. unfold permits. rewrite Hdl, Hdr, Hel, Her.
    split; split; try done; intros rule Hin; by apply not_elem_of_nil in Hin. }
  intros [Hd Hp]. cbn [denied_domains mode allowed_domains allow_localhost] in Hd, Hp.
  assert (most_restrictive_network_mode (mode l) (mode r) = Restricted) as Hm by by (destruct (mode l), (mode r)).
  rewrite Hm in Hp. setoid_rewrite elem_union_sorted in Hd. destruct Hp as [(rule & Hin & Hc)|(Hnil & Hloc & Hhost)].
  - apply elem_intersect_lists in Hin. split; apply permits_list; auto; intros Hmode; left; exists rule; (split; [|done]).
    + destruct Hin as [[Hn Hin]|[[_ ?]|[? _]]]; [|done..]. rewrite (Hl Hmode Hn) in Hin. by apply not_elem_of_nil in Hin.
    + destruct Hin as [[_ ?]|[[Hn Hin]|[_ ?]]]; [done| |done]. rewrite (Hr Hmode Hn) in Hin. by apply not_elem_of_nil in Hin.
  - apply intersect_lists_nil in Hnil as [Hnl Hnr]; [|done]. apply andb_true_iff in Hloc as [Hll Hlr].
    split; apply permits_list; auto.
Qed.
(** Narrowing to a permission mode. *)
Lemma network_requested l md u host :
  (mode l = Enabled → denied_domains l = []) →
  permits (intersect_network_policies l (network_policy_for_permission_mode md)) u host → permits l u host.
Proof.
  intros Hden Hp. destruct md; cbn [network_policy_for_permission_mode] in Hp.
  - refine (proj1 (network_narrow l enabled_policy u host _ Hp)). split_and!; [auto|by intros _ []|by intros|done].
  - unfold intersect_network_policies in Hp. rewrite decide_True in Hp by by destruct (mode l). by destruct Hp as [_ []].
  - unfold intersect_network_policies in Hp. rewrite decide_True in Hp by by destruct (mode l). by destruct Hp as [_ []].
Qed.
Lemma intersect_enabled_denies_nothing l r :
  mode (intersect_network_policies l r) = Enabled → denied_domains (intersect_network_policies l r) = [].
Proof. unfold intersect_network_policies. case_decide; [done|]. case_decide; [done|]. cbn. congruence. Qed.
End network.

(** ** Processes *)

Section processes.
Implicit Types (l r : TurnProcessPolicySnapshot).

Lemma commands_cover_mono patterns patterns' executable :
  (∀ p, p ∈ patterns → p ∈ patterns') → commands_cover patterns executable → commands_cover patterns' executable.
Proof. unfold commands_cover. naive_solver. Qed.
Definition families_compatible l r : Prop :=
  meet (allowed_command_families (command_risk l)) (allowed_command_families (command_risk r)).
Lemma runs_narrow l r policy executable :
  families_compatible l r → runs (intersect_process_policies l r) policy executable →
  runs l policy executable ∧ runs r policy executable.
Proof.
  unfold families_compatible, runs. cbn. intros Hmeet ([Hel Her]%andb_true_iff & Hpol & Hden & Hfam).
  assert (∀ a b : list text, meet a b → (intersect_optional_allow_lists a b ≠ [] → commands_cover (intersect_optional_allow_lists a b) executable) →
    (a ≠ [] → commands_cover a executable) ∧ (b ≠ [] → commands_cover b executable)) as Hlists.
  { intros a b Hab Hc. split; intros Hne.
    - eapply commands_cover_mono, Hc; [|by intros [? _]%intersect_lists_nil]. intros p Hp%elem_intersect_lists. naive_solver.
    - eapply commands_cover_mono, Hc; [|by intros [_ ?]%intersect_lists_nil]. intros p Hp%elem_intersect_lists. naive_solver. }
  destruct (Hlists _ _ Hmeet Hfam) as [Hfl Hfr].
  split; split_and!; try done; intros Hc; apply Hden; eapply commands_cover_mono, Hc; intros p Hp; apply elem_union_sorted; auto.
Qed.

(** The same for the variables of the environment: an environment that is not
    inherited lists its variables. *)
Definition environment_compatible (l r : TurnEnvironmentPolicy) : Prop :=
  (inherit l = false → allowed_vars l ≠ []) ∧ (inherit r = false → allowed_vars r ≠ []) ∧
  (inherit l = true → inherit r = true → meet (allowed_vars l) (allowed_vars r)).
Lemma sees_narrow (l r : TurnEnvironmentPolicy) name :
  environment_compatible l r → sees (intersect_environments l r) name → sees l name ∧ sees r name.
Proof.
  unfold environment_compatible, sees, denies_name. cbn. intros (Hl & Hr & Hmeet) [Hsee Hden].
  setoid_rewrite elem_union_sorted in Hden. setoid_rewrite elem_intersect_lists in Hsee.
  split; (split; [|naive_solver]).
  - destruct Hsee as [[[Hil Hir]%andb_true_iff Hnil]|(v & [[Hn Hv]|[[Hn Hv]|[Hv Hv']]] & Hu)]; [|left|right; eauto..].
    + apply intersect_lists_nil in Hnil as [? ?]; auto.
    + split; [|done]. destruct (inherit l); [done|]. by destruct Hl.
  - destruct Hsee as [[[Hil Hir]%andb_true_iff Hnil]|(v & [[Hn Hv]|[[Hn Hv]|[Hv Hv']]] & Hu)]; [|right; eauto|left|right; eauto].
    + apply intersect_lists_nil in Hnil as [? ?]; auto.
    + split; [|done]. destruct (inherit r); [done|]. by destruct Hr.
Qed.
End processes.

(** ** The derivation *)

Lemma resolve_fields parent task_cap profile child :
  resolve_task_child_execution_security parent task_cap profile = Ok child →
  let restricted_profile :=
    intersect_turn_permission_profiles
      (intersect_turn_permission_profiles profile (task_permission_cap_snapshot (max_permission_profile task_cap)) TaskPermissionCap)
      (inherited_turn_permission_profile_from_snapshot (permission_profile parent)) TaskPermissionCap in
  permission_profile child = restricted_profile ∧
  network child = intersect_network_policies (intersect_network_policies (network parent) (max_network_policy task_cap))
                    (network_policy_for_permission_mode (profile_mode restricted_profile)) ∧
  process child = intersect_process_policies (intersect_process_policies (process parent) (max_process_policy task_cap))
                    (process_policy_for_permission_mode (profile_mode restricted_profile)) ∧
  cap_network child = intersect_network_policies (cap_network parent) (max_network_policy task_cap).
Proof.
  unfold resolve_task_child_execution_security. intros ([] & _ & Hc)%bind_Ok. cbn zeta in *.
  apply bind_Ok in Hc as (files & _ & Hc). apply bind_Ok in Hc as (task_policy & _ & Hc). by injection Hc as <-.
Qed.
(** The policies of a parent and the cap of a task whose intersections mean what
    they are for. *)
Definition environments_delegable (l r : TurnEnvironmentPolicy) : Prop :=
  (inherit l = false → allowed_vars l ≠ []) ∧ (inherit r = false → allowed_vars r ≠ []) ∧ meet (allowed_vars l) (allowed_vars r).
Definition processes_delegable (l r : TurnProcessPolicySnapshot) : Prop :=
  families_compatible l r ∧ environments_delegable (environment l) (environment r).
Lemma environments_compatible l r md name :
  environments_delegable l r →
  sees (intersect_environments (intersect_environments l r) (environment (process_policy_for_permission_mode md))) name →
  sees l name ∧ sees r name.
Proof.
  intros (Hl & Hr & Hmeet) Hsee. apply sees_narrow in Hsee as [Hsee _].
  { apply sees_narrow in Hsee; [done|]. by split_and!. }
  split_and!.
  - cbn. intros Hi Hn. apply intersect_lists_nil in Hn as [? ?]; [|done]. apply andb_false_iff in Hi as [?|?]; naive_solver.
  - by destruct md.
  - destruct md; [intros _ _ _ []; done|done|done].
Qed.
Lemma shell_intersection l r :
  shell_command (intersect_tool_permission_policies l r) ≠ Deny → shell_command l ≠ Deny ∧ shell_command r ≠ Deny.
Proof.
  change (shell_command (intersect_tool_permission_policies l r))
    with (behavior_for_action (intersect_tool_permission_policies l r) ShellCommand).
  rewrite action_intersection. cbn. by destruct (shell_command l), (shell_command r).
Qed.

(** when a task is delegated, what its child may do the parent may do and the
    cap allows: every request the child's network lets through, initially or with
    approvals up to its authority, every command it may run and every variable
    its processes see, for no longer. This is for policies whose lists the
    intersection reads as meant; the next theorem is about the others. *)
Theorem delegation_narrows `{UrlApi} parent task_cap profile child :
  resolve_task_child_execution_security parent task_cap profile = Ok child →
  (network_compatible (network parent) (max_network_policy task_cap) → ∀ u host,
     permits (network child) u host → permits (network parent) u host ∧ permits (max_network_policy task_cap) u host) ∧
  (network_compatible (cap_network parent) (max_network_policy task_cap) → ∀ u host,
     permits (cap_network child) u host → permits (cap_network parent) u host ∧ permits (max_network_policy task_cap) u host) ∧
  (processes_delegable (process parent) (max_process_policy task_cap) → ∀ executable,
     runs (process child) (effective_policy (permission_profile child)) executable →
     runs (process parent) (effective_policy (permission_profile parent)) executable ∧
     runs (max_process_policy task_cap) (cap_policy (max_permission_profile task_cap)) executable) ∧
  (processes_delegable (process parent) (max_process_policy task_cap) → ∀ name,
     sees (environment (process child)) name →
     sees (environment (process parent)) name ∧ sees (environment (max_process_policy task_cap)) name) ∧
  max_duration_ms (process child) ≤ max_duration_ms (process parent) `min` max_duration_ms (max_process_policy task_cap).
Proof.
  intros (Hprofile & Hnet & Hproc & Hcap)%resolve_fields. split_and!.
  - intros Hcompat u host. rewrite Hnet. intros Hp%network_requested; [|apply intersect_enabled_denies_nothing].
    by apply network_narrow in Hp.
  - intros Hcompat u host. rewrite Hcap. by apply network_narrow.
  - intros [Hfam _] executable. rewrite Hproc, Hprofile. cbn [effective_policy intersect_turn_permission_profiles].
    intros Hrun. assert (families_compatible
      (intersect_process_policies (process parent) (max_process_policy task_cap))
      (process_policy_for_permission_mode (profile_mode (permission_profile child)))) as Hfam'.
    { intros _ Hne. by destruct (profile_mode (permission_profile child)). }
    rewrite Hprofile in Hfam'. destruct (runs_narrow _ _ _ _ Hfam' Hrun) as [Hrun' _].
    destruct (runs_narrow _ _ _ _ Hfam Hrun') as [(Hp1 & Hp2 & Hp3 & Hp4) (Hc1 & _ & Hc3 & Hc4)].
    apply shell_intersection in Hp2 as [Hp2%shell_intersection Hp2']. destruct Hp2 as [_ Hp2]. by split.
  - intros [_ Henv] name. rewrite Hproc. by apply environments_compatible.
  - rewrite Hproc. cbn. lia.
Qed.

(** a defect: in an intersection an empty list stands for no restriction,
    which is neither what the policies mean by it nor what is left of lists without
    a common element. So delegation can widen: two lists of command families
    without a common one admit every command; a restricted network that allows no
    domain admits those of the other side; and an environment that passes nothing
    on passes the variables the other side lists. *)
Theorem empty_lists_reopen `{UrlApi} :
  (∀ l r policy executable,
     let families p := allowed_command_families (command_risk p) in
     families l ≠ [] → families r ≠ [] → (∀ f, f ∈ families l → f ∉ families r) →
     shell_enabled (shell l) = true → shell_enabled (shell r) = true → shell_command policy ≠ Deny →
     ¬ commands_cover (denied_commands (command_risk l)) executable →
     ¬ commands_cover (denied_commands (command_risk r)) executable →
     ¬ commands_cover (families l) executable →
     ¬ runs l policy executable ∧ runs (intersect_process_policies l r) policy executable) ∧
  (∀ l r u host,
     mode l = Restricted → allowed_domains l = [] → is_localhost host = false → permits r u host → mode r = Restricted →
     (∀ rule, rule ∈ denied_domains l → ¬ covers u host rule) →
     ¬ permits l u host ∧ permits (intersect_network_policies l r) u host) ∧
  (∀ l r name v,
     inherit l = false → allowed_vars l = [] → v ∈ allowed_vars r → to_ascii_uppercase v = to_ascii_uppercase name →
     ¬ denies_name l name → ¬ denies_name r name →
     ¬ sees l name ∧ sees (intersect_environments l r) name).
Proof.
  split_and!.
  - cbn zeta. intros l r policy executable Hl Hr Hdis Hel Her Hpol Hdl Hdr Hno. split; [intros (_ & _ & _ & Hc); auto|].
    unfold runs. cbn. rewrite Hel, Her, intersect_lists_disjoint by done. split_and!; [done|done| |done].
    intros (p & [Hp|Hp]%elem_union_sorted & Hc); [apply Hdl|apply Hdr]; by exists p.
  - intros l r u host Hml Hnil Hhost [Hdr Hpr] Hmr Hdl. rewrite Hmr in Hpr. split.
    { intros [_ Hp]. rewrite Hml in Hp. destruct Hp as [(rule & Hin & _)|(_ & _ & ?)]; [|congruence].
      rewrite Hnil in Hin. by apply not_elem_of_nil in Hin. }
    unfold intersect_network_policies. rewrite Hml, Hmr. cbn. split; cbn.
    { intros rule [Hin|Hin]%elem_union_sorted; auto. }
    left. destruct Hpr as [(rule & Hin & Hc)|(_ & _ & ?)]; [|congruence]. exists rule. split; [|done].
    apply elem_intersect_lists. auto.
  - intros l r name v Hi Hn Hv Hu Hdl Hdr. split.
    { intros [[[Hi' _]|(w & Hw & _)] _]; [congruence|]. rewrite Hn in Hw. by apply not_elem_of_nil in Hw. }
    split; [right; exists v; split; [apply elem_intersect_lists; auto|done]|].
    intros (p & [Hp|Hp]%elem_union_sorted & Hc); [apply Hdl|apply Hdr]; by exists p.
Qed.

Module SampleDelegation.
#[local] Existing Instance SampleNetwork.simple_url.
Definition at_root (path : string) (a : TurnFilesystemAccess) : TurnFilesystemSandboxEntry :=
  {| entry_path := ExplicitPath (lit path); access := a; provenance := Workspace; resolved_path := Some (lit path) |}.
Definition files (entries : list TurnFilesystemSandboxEntry) : TurnFilesystemSandboxPolicy :=
  {| kind := RestrictedFiles; fs_entries := entries |}.
Definition sample_network : TurnNetworkPolicySnapshot := SampleNetwork.restricted ["example.com"; "docs.example"] ["evil.example"] false.
Definition families (names : list string) : TurnProcessPolicySnapshot :=
  {| shell := enabled_shell; environment := restricted_environment; max_duration_ms := 60000;
     command_risk := {| denied_commands := []; allowed_command_families := lit <$> names |} |}.
Definition sample_parent : SecuritySnapshot :=
  {| permission_profile := compile_turn_permission_profile AutoAcceptEdits Composer; sandbox_mode := WorkspaceWrite; cwd := lit "/ws";
     sandbox_files := files [at_root "/ws" WriteAccess]; network := sample_network; process := families ["git"; "cargo"];
     cap_files := files [at_root "/ws" WriteAccess; at_root "/docs" ReadAccess]; cap_network := sample_network;
     cap_process := families ["git"; "cargo"] |}.
Definition sample_cap : TaskAgentSecurityCap :=
  {| max_permission_profile := task_permission_cap_from_snapshot (permission_profile sample_parent);
     max_filesystem_kind := Some RestrictedFiles; max_filesystem_entries := [at_root "/ws/src/../lib" ReadAccess];
     max_network_policy := SampleNetwork.restricted ["docs.example"] [] false; max_sandbox_mode := ReadOnly;
     max_process_policy := families ["git"] |}.
Definition supervised := compile_turn_permission_profile Supervised Composer.
Definition sample_child : SecuritySnapshot :=
  match resolve_task_child_execution_security sample_parent sample_cap supervised with Ok child => child | Err _ => sample_parent end.
Lemma sample_child_ok : resolve_task_child_execution_security sample_parent sample_cap supervised = Ok sample_child.
Proof. vm_compute. reflexivity. Defined.
Example sample_child_files :
  (λ e, (display <$> filesystem_entry_resolved_path e, access e)) <$> fs_entries (cap_files sample_child) =
  [(Some (lit "/ws/lib"), ReadAccess)].
Proof. vm_compute. reflexivity. Qed.


(** A cap that bounds files but not the sandbox mode does not bound what a child of
    a turn with full access reads and writes without approval. *)
Example entries_without_sandbox :
  let parent := {| permission_profile := compile_turn_permission_profile FullAccess Composer; sandbox_mode := Unrestricted; cwd := lit "/ws";
                   sandbox_files := unrestricted_files; network := enabled_policy; process := unrestricted_process;
                   cap_files := unrestricted_files; cap_network := enabled_policy; cap_process := unrestricted_process |} in
  let cap := {| max_permission_profile := task_permission_cap_from_snapshot (permission_profile parent);
                max_filesystem_kind := Some RestrictedFiles; max_filesystem_entries := [at_root "/ws" WriteAccess];
                max_network_policy := enabled_policy; max_sandbox_mode := Unrestricted; max_process_policy := unrestricted_process |} in
  match resolve_task_child_execution_security parent cap (permission_profile parent) with
  | Ok child => kind (sandbox_files child) = UnrestrictedFiles ∧ kind (cap_files child) = RestrictedFiles
  | Err _ => False
  end.
Proof. vm_compute. done. Qed.

Lemma delegation_narrows_witness :
  processes_delegable (process sample_parent) (max_process_policy sample_cap) ∧
  (network_compatible (network sample_parent) (max_network_policy sample_cap) → ∀ u host,
     permits (network sample_child) u host → permits (network sample_parent) u host ∧ permits (max_network_policy sample_cap) u host) ∧
  (network_compatible (cap_network sample_parent) (max_network_policy sample_cap) → ∀ u host,
     permits (cap_network sample_child) u host → permits (cap_network sample_parent) u host ∧ permits (max_network_policy sample_cap) u host) ∧
  (processes_delegable (process sample_parent) (max_process_policy sample_cap) → ∀ executable,
     runs (process sample_child) (effective_policy (permission_profile sample_child)) executable →
     runs (process sample_parent) (effective_policy (permission_profile sample_parent)) executable ∧
     runs (max_process_policy sample_cap) (cap_policy (max_permission_profile sample_cap)) executable) ∧
  (processes_delegable (process sample_parent) (max_process_policy sample_cap) → ∀ name,
     sees (environment (process sample_child)) name →
     sees (environment (process sample_parent)) name ∧ sees (environment (max_process_policy sample_cap)) name) ∧
  max_duration_ms (process sample_child) ≤ max_duration_ms (process sample_parent) `min` max_duration_ms (max_process_policy sample_cap).
Proof.
  split; [|apply (delegation_narrows sample_parent sample_cap supervised), sample_child_ok].
  split; [intros _ _; exists (lit "git"); split; [left|left]|].
  split_and!; [done|done|]. intros _ _. exists (lit "PATH"). split; left.
Defined.

(** A cap made from a turn itself may be refused: the entries of the parent are
    searched for the first that contains a root, not for one that grants it. *)
Example own_cap_refused :
  let s := {| permission_profile := permission_profile sample_parent; sandbox_mode := WorkspaceWrite; cwd := lit "/ws";
              sandbox_files := files []; network := sample_network; process := families [];
              cap_files := files [at_root "/" ReadAccess; at_root "/ws" WriteAccess]; cap_network := sample_network;
              cap_process := families [] |} in
  validate_task_security_cap_within_parent s (task_security_cap_from_snapshot s) =
  Err (lit "task security cap filesystem roots exceed parent turn").
Proof. vm_compute. reflexivity. Qed.
End SampleDelegation.
