(* ===== verification/FileSystem.v ===== *)
(** * A Unix file system as the policies see it

    What [std::fs] answers on Linux to the questions that the file policy and the
    patch targets ask, and the openers of
    [crates/tools/src/apply_patch/file_mutation/snapshot.rs], which walk along
    descriptors and follow no link. The file system does not change between two
    calls; an object is named by its location, the list of names that leads to it
    from the root. Hard links, mounts and the limit on the length of whole paths are
    left out. A path is the list of its components (UnixPath.v). *)
From S2P Require Import Prelude TextSplit UnixPath.
Local Open Scope N_scope.

Inductive ErrorKind := NotFound | NotADirectory | PermissionDenied | FilesystemLoop | InvalidFilename | InvalidInput.
#[export] Instance ErrorKind_eq_dec : EqDecision ErrorKind.
Proof. solve_decision. Defined.
Abbreviation io := (result ErrorKind).
Abbreviation location := (list text).

(** What the user of the process may do: look names up in a directory and list it,
    read a file, open what is neither. *)
Inductive node :=
  | Directory (search read : bool) | Regular (read : bool) | Link (target : text) | Special (opens : bool).
#[export] Instance node_eq_dec : EqDecision node.
Proof. solve_decision. Defined.
Record machine := {
  nodes : gmap location node;
  process_cwd : location;
  too_long : text → bool;             (* names the file system refuses *)
  temp_dir : text;                    (* [std::env::temp_dir] *)
}.
Definition is_dir (n : node) : bool := match n with Directory _ _ => true | _ => false end.
Definition is_file (n : node) : bool := match n with Regular _ => true | _ => false end.
Definition is_symlink (n : node) : bool := match n with Link _ => true | _ => false end.

(** The links followed along one path before [ELOOP]. *)
Definition MAX_LINKS : nat := 40.
Definition nul (c : text) : bool := bool_decide (0 ∈ c).

Section lookup.
Context (m : machine).

(** Looking a name up in a directory. *)
Definition search (here : location) : io () :=
  match nodes m !! here with
  | Some (Directory true _) => Ok ()
  | Some (Directory false _) => Err PermissionDenied
  | Some _ => Err NotADirectory
  | None => Err NotFound
  end.
(** What a link spells: a slash at the end asks for a directory. *)
Definition link_pieces (target : text) : list text :=
  (if starts_with ROOT target then [ROOT] else []) ++ filter (λ piece, piece ≠ []) (split_on 47 target) ++
  (if ends_with ROOT target then [CURRENT] else []).
(** Path resolution; [follow] says whether a link at the very end is followed. *)
Fixpoint walk (follow : bool) (links : nat) : location → list text → io location :=
  fix go (here : location) (todo : list text) : io location :=
    match todo with
    | [] => Ok here
    | c :: rest =>
        if decide (c = ROOT) then go [] rest
        else
          _ ← search here;
          if decide (c = CURRENT) then go here rest
          else if decide (c = PARENT) then go (pop here) rest
          else if too_long m c then Err InvalidFilename
          else
            match nodes m !! (here ++ [c]) with
            | None => Err NotFound
            | Some (Link target) =>
                if decide (rest = [] ∧ follow = false) then Ok (here ++ [c])
                else if decide (target = []) then Err NotFound
                else match links with
                     | O => Err FilesystemLoop
                     | S links => walk follow links here (link_pieces target ++ rest)
                     end
            | Some _ => go (here ++ [c]) rest
            end
    end.
Definition resolve_path (follow : bool) (path : list text) : io location :=
  _ ← ensure (forallb (λ c, negb (nul c)) path) InvalidInput;
  _ ← ensure (negb (bool_decide (path = []))) NotFound;
  walk follow MAX_LINKS (process_cwd m) path.
(** [std::fs::canonicalize] *)
Definition canonicalize (path : list text) : io (list text) :=
  here ← resolve_path true path; Ok (ROOT :: here).
(** [std::fs::symlink_metadata]: which object it is, and of what kind. *)
Definition symlink_metadata (path : list text) : io (location * node) :=
  here ← resolve_path false path;
  n ← ok_or (nodes m !! here) NotFound;
  Ok (here, n).

(** [libc::openat] for reading, [O_NOFOLLOW], with [O_DIRECTORY] or not. *)
Definition openat (directory_only : bool) (here : location) (name : text) : io location :=
  _ ← ensure (negb (nul name)) InvalidInput;
  _ ← search here;
  if too_long m name then Err InvalidFilename
  else
    match nodes m !! (here ++ [name]) with
    | None => Err NotFound
    | Some (Link _) => Err FilesystemLoop
    | Some (Directory _ read) => _ ← ensure read PermissionDenied; Ok (here ++ [name])
    | Some (Regular read) =>
        _ ← ensure (negb directory_only) NotADirectory; _ ← ensure read PermissionDenied; Ok (here ++ [name])
    | Some (Special opens) =>
        _ ← ensure (negb directory_only) NotADirectory; _ ← ensure opens PermissionDenied; Ok (here ++ [name])
    end.
(** [File::open] of the root or of the current directory. *)
Definition open_start (absolute : bool) : io location :=
  let here := if absolute then [] else process_cwd m in
  match nodes m !! here with
  | Some (Directory _ read) => _ ← ensure read PermissionDenied; Ok here
  | _ => Err NotFound
  end.
Definition is_kind (kind : node → bool) (here : location) : bool :=
  match nodes m !! here with Some n => kind n | None => false end.

(** ** The openers of [snapshot.rs] *)

Definition normal_component (c : text) : bool := negb (bool_decide (c = CURRENT ∨ c = ROOT)).
Definition open_directories (names : list text) (here : location) : io location := foldlM (openat true) here names.
Definition open_regular_file_unix (path : list text) : io location :=
  directory ← open_start (bool_decide (head path = Some ROOT));
  _ ← ensure (negb (bool_decide (PARENT ∈ path))) InvalidInput;
  let normal_components := filter (λ c, normal_component c = true) path in
  final_component ← ok_or (last normal_components) InvalidInput;
  directory ← open_directories (removelast normal_components) directory;
  openat false directory final_component.
Definition open_component (directory : location) (component : text) : io location :=
  if decide (component = PARENT) then Err InvalidInput
  else if normal_component component then openat true directory component
  else Ok directory.
Definition open_directory_unix (path : list text) : io location :=
  directory ← open_start (bool_decide (head path = Some ROOT));
  foldlM open_component directory path.
Definition relative_components (path : list text) : io (list text) :=
  _ ← ensure (negb (bool_decide (head path = Some ROOT))) InvalidInput;
  _ ← ensure (negb (bool_decide (PARENT ∈ path))) InvalidInput;
  Ok (filter (λ c, c ≠ CURRENT) path).
Definition open_regular_file_at_unix (parent : location) (relative : list text) : io location :=
  components ← relative_components relative;
  final_component ← ok_or (last components) InvalidInput;
  directory ← open_directories (removelast components) parent;
  openat false directory final_component.
Definition open_directory_at_unix (parent : location) (relative : list text) : io location :=
  components ← relative_components relative;
  open_directories components parent.

(** [open_regular_file] and its siblings: the object opened has the kind asked for.
    Only macOS has platform aliases to resolve first. *)
Definition checked (kind : node → bool) (opened : io location) : io location :=
  file ← opened; _ ← ensure (is_kind kind file) InvalidInput; Ok file.
Definition open_regular_file (path : list text) : io location := checked is_file (open_regular_file_unix path).
Definition open_directory (path : list text) : io location := checked is_dir (open_directory_unix path).
Definition open_regular_file_at (parent : location) (relative : list text) : io location :=
  checked is_file (open_regular_file_at_unix parent relative).
Definition open_directory_at (parent : location) (relative : list text) : io location :=
  checked is_dir (open_directory_at_unix parent relative).
End lookup.

(** ** Well-formed machines and canonical locations *)

Definition file_name_ok (m : machine) (c : text) : Prop := plain c ∧ (0 ∉ c) ∧ too_long m c = false.
Definition dirs_to (m : machine) (here : location) : Prop :=
  ∀ l, l `prefix_of` here → l ≠ here → ∃ read, nodes m !! l = Some (Directory true read).
Definition canonical (m : machine) (here : location) : Prop :=
  dirs_to m here ∧ ∃ n, nodes m !! here = Some n ∧ is_symlink n = false.
Record machine_ok (m : machine) : Prop := {
  ok_root : is_kind m is_dir [] = true;
  ok_names : ∀ l n, nodes m !! l = Some n → Forall (file_name_ok m) l;
  ok_cwd : canonical m (process_cwd m);
}.

(** ** Lemmas *)

Lemma prefix_snoc {A} (l k : list A) x : l `prefix_of` k ++ [x] → l `prefix_of` k ∨ l = k ++ [x].
Proof.
  intros [r Hr]. destruct r as [|y r _] using rev_ind; [right; by rewrite app_nil_r in Hr|left].
  rewrite app_assoc in Hr. apply app_inj_tail in Hr as [-> _]. by exists r.
Qed.
Lemma last_ne_nil {A} (l : list A) : l ≠ [] → ∃ l' x, l = l' ++ [x].
Proof. destruct l as [|x l _] using rev_ind; [done|by exists l, x]. Qed.
Lemma removelast_snoc {A} (l : list A) x : removelast (l ++ [x]) = l.
Proof. by rewrite removelast_app, app_nil_r. Qed.

Lemma plain_not_root' c : plain c → c ≠ ROOT.
Proof. intros Hp ->. by apply plain_root in Hp. Qed.

Section file_system.
Context (m : machine).
Implicit Types (here l : location) (todo : list text) (n : node).

Lemma search_Ok here u : search m here = Ok u ↔ ∃ read, nodes m !! here = Some (Directory true read).
Proof.
  unfold search. destruct u. destruct (nodes m !! here) as [[[] r| | |]|]; split; try done; try (by intros [? ?]); eauto.
Qed.
Lemma dirs_to_nil : dirs_to m [].
Proof. intros l Hl Hne. by apply prefix_nil_inv in Hl. Qed.
Lemma dirs_to_snoc here c : dirs_to m (here ++ [c]) ↔ dirs_to m here ∧ search m here = Ok ().
Proof.
  rewrite search_Ok. split.
  - intros H. split.
    + intros l Hl Hne. apply H; [by apply prefix_app_r|]. intros ->. apply prefix_length in Hl. rewrite length_app in Hl. cbn in Hl. lia.
    + apply H; [by exists [c]|]. intros Heq. apply (f_equal length) in Heq. rewrite length_app in Heq. cbn in Heq. lia.
  - intros [H Hs] l [Hl| ->]%prefix_snoc Hne; [|done]. destruct (decide (l = here)) as [->|Hne']; [done|by apply H].
Qed.
Lemma dirs_to_prefix l here : l `prefix_of` here → dirs_to m here → dirs_to m l.
Proof.
  intros Hp H k Hk Hne. apply H; [by etrans|]. intros ->. apply Hne. by apply prefix_length_eq; [|apply prefix_length].
Qed.
Lemma canonical_root : machine_ok m → canonical m [].
Proof.
  intros Hm. split; [apply dirs_to_nil|]. pose proof (ok_root m Hm) as H. unfold is_kind in H.
  destruct (nodes m !! []) as [[]|]; try done. eauto.
Qed.
Lemma canonical_pop here : machine_ok m → canonical m here → canonical m (pop here).
Proof.
  intros Hm [Hd Hn]. destruct here as [|c here _] using rev_ind; [by apply canonical_root|]. rewrite pop_snoc.
  apply dirs_to_snoc in Hd as [Hd [r Hr]%search_Ok]. split; [done|]. eauto.
Qed.

(** A path that follows links ends at a place no link leads to. *)
Lemma walk_sound follow links here todo l :
  machine_ok m → canonical m here → walk m follow links here todo = Ok l →
  dirs_to m l ∧ ∃ n, nodes m !! l = Some n ∧ (follow = true → is_symlink n = false).
Proof.
  intros Hm. revert here todo l. induction links as [links IHl] using lt_wf_ind. intros here todo. revert here.
  induction todo as [|c rest IH]; intros here l Hh Hw.
  { destruct links; injection Hw as <-; destruct Hh as [Hd (n & Hn & Hs)]; eauto. }
  assert (canonical m (here ++ [c]) → walk m follow links (here ++ [c]) rest = Ok l → dirs_to m l ∧ ∃ n, nodes m !! l = Some n ∧ (follow = true → is_symlink n = false)) as Hdown by apply IH.
  assert ((if decide (c = ROOT) then walk m follow links [] rest
    else _ ← search m here;
      if decide (c = CURRENT) then walk m follow links here rest
      else if decide (c = PARENT) then walk m follow links (pop here) rest
      else if too_long m c then Err InvalidFilename
      else match nodes m !! (here ++ [c]) with
           | None => Err NotFound
           | Some (Link target) =>
               if decide (rest = [] ∧ follow = false) then Ok (here ++ [c])
               else if decide (target = []) then Err NotFound
               else match links with O => Err FilesystemLoop | S links => walk m follow links here (link_pieces target ++ rest) end
           | Some _ => walk m follow links (here ++ [c]) rest
           end) = Ok l) as Hw' by (rewrite <-Hw; by destruct links).
  clear Hw. case_decide; [apply (IH []); [by apply canonical_root|done]|]. apply bind_Ok in Hw' as ([] & Hs & Hw).
  case_decide; [by apply (IH here)|]. case_decide; [apply (IH (pop here)); [by apply canonical_pop|done]|].
  destruct (too_long m c); [done|]. destruct (nodes m !! (here ++ [c])) as [n|] eqn:Hn; [|done].
  assert (dirs_to m (here ++ [c])) as Hd by (apply dirs_to_snoc; split; [apply Hh|done]).
  destruct n as [| |target|]; [by apply Hdown; [split; [done|eauto]|]..| |by apply Hdown; [split; [done|eauto]|]].
  case_decide as Hstop; [|].
  - injection Hw as <-. destruct Hstop as [_ ->]. eauto.
  - case_decide; [done|]. destruct links as [|links]; [done|]. apply (IHl links ltac:(lia) here (link_pieces target ++ rest)); done.
Qed.
(** A path along directories leads where it says. *)
Lemma walk_along follow links here rest :
  dirs_to m (here ++ rest) → Forall (file_name_ok m) rest →
  (∃ n, nodes m !! (here ++ rest) = Some n ∧ (rest = [] ∨ is_symlink n = false ∨ follow = false)) →
  walk m follow links here rest = Ok (here ++ rest).
Proof.
  revert here. induction rest as [|c rest IH]; intros here Hd Hall Hn; [rewrite app_nil_r; by destruct links|].
  apply Forall_cons in Hall as [(Hplain & Hnul & Hlong) Hall]. rewrite (cons_middle c here rest), app_assoc in *.
  assert (search m here = Ok ()) as Hs.
  { apply (dirs_to_snoc here c). eapply dirs_to_prefix; [|exact Hd]. by exists rest. }
  assert (c ≠ ROOT) as Hroot by (intros ->; by apply plain_root in Hplain). destruct Hplain as (? & ? & ? & ?).
  assert (walk m follow links here (c :: rest) = 
    match nodes m !! (here ++ [c]) with
    | None => Err NotFound
    | Some (Link target) =>
        if decide (rest = [] ∧ follow = false) then Ok (here ++ [c])
        else if decide (target = []) then Err NotFound
        else match links with O => Err FilesystemLoop | S links => walk m follow links here (link_pieces target ++ rest) end
    | Some _ => walk m follow links (here ++ [c]) rest
    end) as ->.
  { destruct links; cbn; rewrite decide_False by done; rewrite Hs; cbn; rewrite !decide_False by done; by rewrite Hlong. }
  destruct rest as [|c' rest].
  - rewrite app_nil_r in *. destruct Hn as (n & -> & Hn). destruct n as [| |target|]; [by destruct links..| |by destruct links].
    destruct Hn as [?|[?|Hf]]; [done..|]. by rewrite decide_True.
  - assert (∃ read, nodes m !! (here ++ [c]) = Some (Directory true read)) as [read Hread].
    { apply Hd; [by exists (c' :: rest)|]. intros Heq. apply (f_equal length) in Heq. rewrite !length_app in Heq. cbn in Heq. lia. }
    rewrite Hread. apply IH; [done..|]. destruct Hn as (n & Hn & Hk). exists n. split; [done|]. right. destruct Hk as [?|?]; [done|done].
Qed.
(** Walking on from where a path leads. *)
Lemma walk_app links here p l :
  walk m true links here p = Ok l →
  ∃ links', ∀ follow rest, rest ≠ [] → walk m follow links here (p ++ rest) = walk m follow links' l rest.
Proof.
  revert here p l. induction links as [links IHl] using lt_wf_ind. intros here p. revert here.
  induction p as [|c p IH]; intros here l Hw.
  { exists links. intros follow rest _. by destruct links; injection Hw as <-. }
  assert (∀ follow todo, walk m follow links here (c :: todo) =
    if decide (c = ROOT) then walk m follow links [] todo
    else _ ← search m here;
      if decide (c = CURRENT) then walk m follow links here todo
      else if decide (c = PARENT) then walk m follow links (pop here) todo
      else if too_long m c then Err InvalidFilename
      else match nodes m !! (here ++ [c]) with
           | None => Err NotFound
           | Some (Link target) =>
               if decide (todo = [] ∧ follow = false) then Ok (here ++ [c])
               else if decide (target = []) then Err NotFound
               else match links with O => Err FilesystemLoop | S links => walk m follow links here (link_pieces target ++ todo) end
           | Some _ => walk m follow links (here ++ [c]) todo
           end) as Hstep by (by destruct links).
  rewrite Hstep in Hw. setoid_rewrite <-app_comm_cons. setoid_rewrite Hstep. clear Hstep.
  destruct (decide (c = ROOT)); [by apply (IH [])|].
  destruct (search m here) as [[]|]; [|done]. cbn [mbind result_bind] in *.
  destruct (decide (c = CURRENT)); [by apply (IH here)|]. destruct (decide (c = PARENT)); [by apply (IH (pop here))|].
  destruct (too_long m c); [done|]. destruct (nodes m !! (here ++ [c])) as [nd|] eqn:Hn; [|done].
  destruct nd as [| |target|]; try by apply (IH (here ++ [c])).
  rewrite decide_False in Hw by (intros [_ ?]; done). destruct (decide (target = [])); [done|]. destruct links as [|links]; [done|].
  destruct (IHl links ltac:(lia) here (link_pieces target ++ p) l Hw) as [links' H]. exists links'. intros follow rest Hne.
  rewrite decide_False by (intros [Hnil _]; by apply app_eq_nil in Hnil as [_ ?]). rewrite <-H by done. by rewrite app_assoc.
Qed.

(** ** Canonical paths *)

Lemma names_at l : machine_ok m → is_Some (nodes m !! l) → Forall (file_name_ok m) l.
Proof. intros Hm [n Hn]. by eapply ok_names. Qed.
Lemma no_nul_names l : Forall (file_name_ok m) l → forallb (λ c, negb (nul c)) (ROOT :: l) = true.
Proof.
  intros H. apply forallb_forall. intros c [<-|Hc%list_elem_of_In]; [done|]. rewrite Forall_forall in H.
  destruct (H c Hc) as (_ & Hn & _). unfold nul. by rewrite bool_decide_false.
Qed.
Lemma resolve_path_absolute follow l :
  Forall (file_name_ok m) l → resolve_path m follow (ROOT :: l) = walk m follow MAX_LINKS [] l.
Proof. intros H. unfold resolve_path. rewrite no_nul_names by done. done. Qed.
(** What [canonicalize] answers is canonical, and canonical paths are their own answer. *)
Lemma canonicalize_sound path r :
  machine_ok m → canonicalize m path = Ok r → ∃ l, r = ROOT :: l ∧ canonical m l ∧ Forall (file_name_ok m) l.
Proof.
  intros Hm. unfold canonicalize, resolve_path. intros (l & Hr & [= <-])%bind_Ok. simplify_result. exists l. split; [done|].
  destruct (walk_sound true MAX_LINKS (process_cwd m) path l Hm (ok_cwd m Hm)) as (Hd & n & Hn & Hs); [done|].
  split; [split; [done|]; exists n; auto|]. apply names_at; eauto.
Qed.
Lemma canonicalize_canonical l : machine_ok m → canonical m l → canonicalize m (ROOT :: l) = Ok (ROOT :: l).
Proof.
  intros Hm [Hd (n & Hn & Hs)]. assert (Forall (file_name_ok m) l) as Hall by (apply names_at; eauto).
  unfold canonicalize. rewrite resolve_path_absolute by done. rewrite (walk_along true MAX_LINKS [] l); [done..|]. exists n. auto.
Qed.
Lemma symlink_metadata_canonical l :
  machine_ok m → canonical m l → ∃ n, nodes m !! l = Some n ∧ is_symlink n = false ∧ symlink_metadata m (ROOT :: l) = Ok (l, n).
Proof.
  intros Hm [Hd (n & Hn & Hs)]. assert (Forall (file_name_ok m) l) as Hall by (apply names_at; eauto).
  exists n. split; [done|]. split; [done|]. unfold symlink_metadata. rewrite resolve_path_absolute by done.
  rewrite (walk_along false MAX_LINKS [] l); [cbn; by rewrite Hn|done..|]. exists n. auto.
Qed.
Lemma symlink_metadata_sound path l n :
  machine_ok m → symlink_metadata m path = Ok (l, n) → dirs_to m l ∧ nodes m !! l = Some n.
Proof.
  intros Hm. unfold symlink_metadata, resolve_path. intros Hr. simplify_result.
  by destruct (walk_sound false MAX_LINKS (process_cwd m) path l Hm (ok_cwd m Hm)) as (Hd & _).
Qed.

(** What is not a link is where following links leads. *)
Lemma walk_follow links here p l n :
  walk m false links here p = Ok l → nodes m !! l = Some n → is_symlink n = false → walk m true links here p = Ok l.
Proof.
  revert here p. induction links as [links IHl] using lt_wf_ind. intros here p. revert here.
  induction p as [|c p IH]; intros here Hw Hn Hsym; [by destruct links|].
  assert (∀ follow, walk m follow links here (c :: p) =
    if decide (c = ROOT) then walk m follow links [] p
    else _ ← search m here;
      if decide (c = CURRENT) then walk m follow links here p
      else if decide (c = PARENT) then walk m follow links (pop here) p
      else if too_long m c then Err InvalidFilename
      else match nodes m !! (here ++ [c]) with
           | None => Err NotFound
           | Some (Link target) =>
               if decide (p = [] ∧ follow = false) then Ok (here ++ [c])
               else if decide (target = []) then Err NotFound
               else match links with O => Err FilesystemLoop | S links => walk m follow links here (link_pieces target ++ p) end
           | Some _ => walk m follow links (here ++ [c]) p
           end) as Hstep by (by destruct links).
  rewrite Hstep in Hw |- *. clear Hstep. destruct (decide (c = ROOT)); [by apply IH|].
  destruct (search m here) as [[]|]; [|done]. cbn [mbind result_bind] in *.
  destruct (decide (c = CURRENT)); [by apply IH|]. destruct (decide (c = PARENT)); [by apply IH|].
  destruct (too_long m c); [done|]. destruct (nodes m !! (here ++ [c])) as [nd|] eqn:Hnd; [|done].
  destruct nd as [| |target|]; try by apply IH.
  rewrite (decide_False (P := p = [] ∧ true = false)) by (intros [_ ?]; done).
  destruct (decide (p = [] ∧ false = false)).
  - injection Hw as <-. rewrite Hnd in Hn. by injection Hn as <-.
  - destruct (decide (target = [])); [done|]. destruct links as [|links]; [done|]. apply (IHl links); [lia|done..].
Qed.
Lemma canonicalize_metadata path l here n :
  canonicalize m path = Ok (ROOT :: l) → symlink_metadata m path = Ok (here, n) → is_symlink n = false → here = l ∧ nodes m !! l = Some n.
Proof.
  unfold canonicalize, symlink_metadata, resolve_path. intros Hcan Hmeta Hsym.
  apply bind_Ok in Hcan as (l' & (u & _ & ([] & _ & Hwalk)%bind_Ok)%bind_Ok & [= ->]).
  apply bind_Ok in Hmeta as (here' & (v & _ & ([] & _ & Hwalk')%bind_Ok)%bind_Ok & (n' & Hn%ok_or_Ok & [= -> ->])%bind_Ok).
  rewrite (walk_follow _ _ _ _ n Hwalk' Hn Hsym) in Hwalk. injection Hwalk as ->. done.
Qed.
(** A name that is not there, and everything below it. *)
Lemma symlink_metadata_missing l c rest :
  machine_ok m → canonical m l → search m l = Ok () → plain c → too_long m c = false → nodes m !! (l ++ [c]) = None →
  Forall (λ c, 0 ∉ c) (c :: rest) → symlink_metadata m (ROOT :: l ++ c :: rest) = Err NotFound.
Proof.
  intros Hm Hl Hs Hc Hlong Hn Hnul. pose proof (plain_not_root' c Hc) as Hr. destruct Hl as [Hd (n & Hn' & Hsym)].
  assert (Forall (file_name_ok m) l) as Hok by (apply names_at; eauto).
  unfold symlink_metadata, resolve_path. assert (forallb (λ c, negb (nul c)) (ROOT :: l ++ c :: rest) = true) as ->.
  { rewrite app_comm_cons, forallb_app, no_nul_names by done. apply forallb_forall. intros x Hx%list_elem_of_In.
    rewrite Forall_forall in Hnul. unfold nul. by rewrite bool_decide_false by auto. }
  cbn [ensure mbind result_bind]. rewrite bool_decide_false by done. cbn [negb ensure mbind result_bind].
  destruct (walk_app MAX_LINKS [] l l) as [links' Hw]; [by apply walk_along; [..|exists n; auto]|].
  change (walk m false MAX_LINKS (process_cwd m) (ROOT :: l ++ c :: rest)) with (walk m false MAX_LINKS [] (l ++ c :: rest)).
  rewrite Hw by done. destruct Hc as (_ & ? & ? & _).
  destruct links'; cbn [walk]; rewrite !decide_False, Hs by done; cbn [mbind result_bind]; rewrite Hlong, Hn; done.
Qed.
(** What it takes for a name below a path that leads somewhere to be missing. *)
Lemma symlink_metadata_below path l c :
  path ≠ [] → canonicalize m path = Ok (ROOT :: l) → plain c → 0 ∉ c → is_kind m is_dir l = true →
  symlink_metadata m (path ++ [c]) = Err NotFound →
  search m l = Ok () ∧ too_long m c = false ∧ nodes m !! (l ++ [c]) = None.
Proof.
  unfold canonicalize, symlink_metadata, resolve_path. intros Hne Hcan Hc H0 Hdir.
  apply bind_Ok in Hcan as (l' & (u & Hnul & ([] & _ & Hwalk)%bind_Ok)%bind_Ok & [= ->]). apply ensure_Ok in Hnul.
  rewrite forallb_app, Hnul. cbn [forallb].
  unfold nul at 1. rewrite (bool_decide_false (0 ∈ c)) by done. cbn [negb andb ensure mbind result_bind].
  rewrite bool_decide_false by (by destruct path). cbn [negb ensure mbind result_bind].
  destruct (walk_app MAX_LINKS (process_cwd m) path l) as [links' Hw]; [done|]. rewrite Hw by done.
  pose proof (plain_not_root' c Hc) as Hroot. destruct Hc as (_ & ? & ? & _). unfold is_kind in Hdir.
  assert (walk m false links' l [c] = 
    _ ← search m l; if too_long m c then Err InvalidFilename
      else match nodes m !! (l ++ [c]) with None => Err NotFound | Some _ => Ok (l ++ [c]) end) as ->.
  { destruct links'; cbn [walk]; rewrite (decide_False (P := c = ROOT)) by done; destruct (search m l); cbn [mbind result_bind]; try done;
      rewrite (decide_False (P := c = CURRENT)), (decide_False (P := c = PARENT)) by done; destruct (too_long m c); try done;
      destruct (nodes m !! (l ++ [c])) as [[]|]; try done; by rewrite decide_True. }
  unfold search. destruct (nodes m !! l) as [[[] r| | |]|]; try done. cbn [mbind result_bind].
  destruct (too_long m c); [done|]. destruct (nodes m !! (l ++ [c])) as [n|] eqn:Hn; [|done]. cbn [mbind result_bind]. by rewrite Hn.
Qed.

(** ** What the openers open *)

(** A directory that can be listed, and everything above it too. *)
Definition listable here : Prop := ∃ search, nodes m !! here = Some (Directory search true).
Definition listable_to here : Prop := ∀ l, l `prefix_of` here → listable l.

Lemma openat_Ok directory_only here name l :
  openat m directory_only here name = Ok l ↔
  l = here ++ [name] ∧ (0 ∉ name) ∧ too_long m name = false ∧ search m here = Ok () ∧
  ((∃ search, nodes m !! l = Some (Directory search true)) ∨
   directory_only = false ∧ (nodes m !! l = Some (Regular true) ∨ nodes m !! l = Some (Special true))).
Proof.
  unfold openat, nul. split.
  - intros H. simplify_result. destruct (search m here) as [u|] eqn:Hs; [|done]. destruct u. cbn in H.
    destruct (too_long m name) eqn:Hl; [done|]. destruct (nodes m !! (here ++ [name])) as [[]|] eqn:Hn; simplify_result; rewrite Hn; eauto 10.
  - intros (-> & Hnul & Hl & Hs & Hn). rewrite bool_decide_false by done. cbn. rewrite Hs. cbn. rewrite Hl.
    destruct Hn as [[search ->]|(-> & [-> | ->])]; done.
Qed.
Lemma open_directories_Ok names here l :
  open_directories m names here = Ok l ↔
  l = here ++ names ∧ Forall (λ c, (0 ∉ c) ∧ too_long m c = false) names ∧
  (∀ k, k `prefix_of` names → k ≠ [] → listable (here ++ k)) ∧
  (∀ k, k `prefix_of` names → k ≠ names → search m (here ++ k) = Ok ()).
Proof.
  unfold open_directories. revert here l. induction names as [|c names IH]; intros here l; cbn.
  - split; [|by intros (-> & _); rewrite app_nil_r]. intros [= <-]. rewrite app_nil_r. split_and!; try done.
    + by intros k ->%prefix_nil_inv.
    + by intros k ->%prefix_nil_inv.
  - rewrite bind_Ok. split.
    + intros (d & (-> & Hnul & Hl & Hs & Hn)%openat_Ok & H). apply IH in H as (-> & Hall & Hlist & Hsearch). rewrite <-app_assoc.
      split_and!; [done|by constructor|..].
      * intros [|c' k] Hk Hne; [done|]. apply prefix_cons_inv_1 in Hk as Heq. apply prefix_cons_inv_2 in Hk. subst c'.
        destruct k as [|c' k]; [destruct Hn as [Hn|[? _]]; [exact Hn|done]|]. specialize (Hlist (c' :: k) Hk ltac:(done)).
        by rewrite <-app_assoc in Hlist.
      * intros [|c' k] Hk Hne; [by rewrite app_nil_r|]. apply prefix_cons_inv_1 in Hk as Heq. apply prefix_cons_inv_2 in Hk. subst c'.
        specialize (Hsearch k Hk ltac:(congruence)). by rewrite <-app_assoc in Hsearch.
    + intros (-> & [[Hnul Hlong] Hall]%Forall_cons & Hlist & Hsearch). exists (here ++ [c]). split.
      * apply openat_Ok. split_and!; try done.
        -- rewrite <-(app_nil_r here). apply Hsearch; [apply prefix_nil|done].
        -- left. apply (Hlist [c]); [|done]. by exists names.
      * apply IH. rewrite <-app_assoc. split_and!; [done|done|..].
        -- intros k Hk Hne. rewrite <-app_assoc. apply Hlist; [by apply prefix_cons|done].
        -- intros k Hk Hne. rewrite <-app_assoc. apply Hsearch; [by apply prefix_cons|by intros [= ->]].
Qed.

Lemma checked_Ok kind opened l : checked m kind opened = Ok l ↔ opened = Ok l ∧ is_kind m kind l = true.
Proof.
  unfold checked. split.
  - intros H. simplify_result. done.
  - intros [-> H]. cbn. by rewrite H.
Qed.
Lemma names_normal l :
  Forall (file_name_ok m) l →
  Forall (λ c, (0 ∉ c) ∧ too_long m c = false) l ∧ (PARENT ∉ l) ∧ (ROOT ∉ l) ∧ (CURRENT ∉ l).
Proof.
  rewrite !Forall_forall. intros H. split_and!.
  - intros c Hc. by destruct (H c Hc) as (_ & ? & ?).
  - intros Hc. by destruct (H _ Hc) as ((_ & _ & ? & _) & _).
  - intros Hc. destruct (H _ Hc) as (Hp & _). by apply plain_root in Hp.
  - intros Hc. by destruct (H _ Hc) as ((_ & ? & _) & _).
Qed.
Lemma open_directory_unix_names l :
  Forall (file_name_ok m) l → open_directory_unix m (ROOT :: l) = directory ← open_start m true; open_directories m l directory.
Proof.
  intros Hl. destruct (names_normal l Hl) as (_ & Hp & Hr & Hc). unfold open_directory_unix, open_directories.
  cbn [head]. rewrite bool_decide_true by done. destruct (open_start m true) as [start|]; [|done]. cbn [mbind result_bind foldlM].
  assert (open_component m start ROOT = Ok start) as -> by done. cbn [mbind result_bind]. clear Hl. revert start.
  induction l as [|c l IH]; intros start; [done|]. apply not_elem_of_cons in Hp as [? ?], Hr as [? ?], Hc as [? ?].
  assert (open_component m start c = openat m true start c) as Hopen.
  { unfold open_component, normal_component. rewrite decide_False by done. by rewrite bool_decide_false by (intros [?|?]; congruence). }
  cbn [foldlM]. rewrite Hopen. destruct (openat m true start c); [|done]. cbn [mbind result_bind]. by apply IH.
Qed.
Lemma open_start_Ok h : open_start m true = Ok h ↔ h = [] ∧ listable [].
Proof.
  unfold open_start, listable. destruct (nodes m !! []) as [[s [|]| | |]|]; cbn; split; try done; try (by intros (_ & ? & [=])).
  - intros [= <-]. eauto.
  - by intros [-> _].
Qed.
(** The directory at a path of names, all of which can be listed down to it. *)
Lemma open_directory_Ok l h :
  Forall (file_name_ok m) l → open_directory m (ROOT :: l) = Ok h ↔ h = l ∧ dirs_to m l ∧ listable_to l.
Proof.
  intros Hl. destruct (names_normal l Hl) as (Hall & _). unfold open_directory. rewrite checked_Ok, open_directory_unix_names by done.
  rewrite bind_Ok. split.
  - intros [(d & [-> Hroot]%open_start_Ok & (-> & _ & Hlist & Hsearch)%open_directories_Ok) _]. cbn in *. split; [done|]. split.
    + intros k Hk Hne. by apply (search_Ok k ()), Hsearch.
    + intros k Hk. destruct k as [|c k]; [done|]. by apply Hlist.
  - intros (-> & Hd & Hlist). split.
    + exists []. split; [apply open_start_Ok; split; [done|apply Hlist, prefix_nil]|]. apply open_directories_Ok. cbn.
      split_and!; [done|done|by intros; apply Hlist|]. intros k Hk Hne. by apply search_Ok, Hd.
    + destruct (Hlist l) as [s Hs]; [done|]. unfold is_kind. by rewrite Hs.
Qed.
(** The regular file at a path of names. *)
Lemma open_regular_file_Ok l h :
  Forall (file_name_ok m) l →
  open_regular_file m (ROOT :: l) = Ok h ↔
  h = l ∧ l ≠ [] ∧ dirs_to m l ∧ (∀ k, k `prefix_of` l → k ≠ l → listable k) ∧ nodes m !! l = Some (Regular true).
Proof.
  intros Hl. destruct (names_normal l Hl) as (Hall & Hp & Hr & Hc). unfold open_regular_file, open_regular_file_unix.
  rewrite checked_Ok. assert (bool_decide (head (ROOT :: l) = Some ROOT) = true) as -> by (by apply bool_decide_true). rewrite bind_Ok.
  assert (filter (λ c, normal_component c = true) (ROOT :: l) = l) as ->.
  { rewrite filter_cons, decide_False by (by unfold normal_component; rewrite bool_decide_true by auto). apply filter_all. intros c Hin. unfold normal_component.
    rewrite bool_decide_false; [done|]. intros [->| ->]; done. }
  assert (ensure (negb (bool_decide (PARENT ∈ ROOT :: l))) InvalidInput = Ok ()) as ->.
  { rewrite bool_decide_false; [done|]. by apply not_elem_of_cons. }
  cbn [mbind result_bind]. destruct l as [|c l _] using rev_ind.
  { split; [|by intros (_ & ? & _)]. intros [(d & _ & H) _]. by cbn in H. }
  clear Hl. rewrite last_snoc, removelast_snoc. cbn. setoid_rewrite bind_Ok. apply Forall_app in Hall as [Hall [[Hcn Hcl] _]%Forall_cons].
  split.
  - intros [(d & [-> Hroot]%open_start_Ok & d' & (-> & _ & Hlist & Hsearch)%open_directories_Ok & (-> & _ & _ & Hs & Hn)%openat_Ok) Hk].
    cbn in *. unfold is_kind in Hk. split_and!; try done.
    + by destruct l.
    + apply dirs_to_snoc. split; [|done]. intros k Hk' Hne. by apply (search_Ok k ()), Hsearch.
    + intros k [Hk'| ->]%prefix_snoc Hne; [|done]. destruct k as [|x k]; [done|]. by apply Hlist.
    + destruct Hn as [[s Hn]|[_ [Hn|Hn]]]; [by rewrite Hn in Hk|done|by rewrite Hn in Hk].
  - intros (-> & _ & [Hd Hs]%dirs_to_snoc & Hlist & Hn). split; [|unfold is_kind; by rewrite Hn].
    assert (∀ k, k `prefix_of` l → k ≠ l ++ [c]) as Hne.
    { intros k Hk ->. apply prefix_length in Hk. rewrite length_app in Hk. cbn in Hk. lia. }
    exists []. split; [apply open_start_Ok; split; [done|apply Hlist; [apply prefix_nil|by destruct l]]|].
    exists l. split.
    + apply open_directories_Ok. cbn. split_and!; [done|done|intros k Hk _; apply Hlist; [by apply prefix_app_r|by apply Hne]|].
      intros k Hk Hk'. by apply search_Ok, Hd.
    + apply openat_Ok. split_and!; try done. auto.
Qed.
End file_system.
