(* ===== verification/FileTarget.v ===== *)
(** * Targets of file mutations

    Models [crates/tools/src/apply_patch/file_mutation/target.rs]: a name in a patch
    becomes a path below the root of the workspace that crosses no link, with an
    identity for the locks, and the targets of a patch become a manifest. The file
    system is the [machine] of FileSystem.v; an object is identified by its location.
    A Linux machine: no aliases of the platform are trusted. Lower case is that of
    Unicode, a parameter. *)
From S2P Require Import Prelude Ordered TextSplit UnixPath FileSystem.
Local Open Scope N_scope.

Inductive TargetRole := Source | Destination | Parent.
#[export] Instance TargetRole_eq_dec : EqDecision TargetRole.
Proof. solve_decision. Defined.
Inductive TargetExpectation := ExistingRegular | MissingTarget | ExistingOrMissing | ParentDirectory.
#[export] Instance TargetExpectation_eq_dec : EqDecision TargetExpectation.
Proof. solve_decision. Defined.
Inductive TargetKind := KindMissing | KindRegularFile | KindDirectory | KindSymlink | KindSpecial.
#[export] Instance TargetKind_eq_dec : EqDecision TargetKind.
Proof. solve_decision. Defined.
(** The identity of an object is its location, [None] of what is missing. *)
Record TargetMetadataFingerprint := { fingerprint_kind : TargetKind; fingerprint_identity : option location }.
Record CanonicalTarget := {
  relative : list text; absolute : list text; identity : text; role : TargetRole; expectation : TargetExpectation;
}.
#[export] Instance CanonicalTarget_eq_dec : EqDecision CanonicalTarget.
Proof. solve_decision. Defined.
Inductive TargetResolutionErrorCode :=
  | InvalidPath | RootMustBeAbsolute | AbsolutePathDenied | EscapesRoot | RootTargetDenied | SymlinkDenied
  | IdentityCollision | MetadataUnavailable | ExpectationMismatch.
#[export] Instance TargetResolutionErrorCode_eq_dec : EqDecision TargetResolutionErrorCode.
Proof. solve_decision. Defined.
Record TargetResolutionError := {
  code : TargetResolutionErrorCode; actual : option TargetKind; expected : option TargetExpectation;
}.
Definition error_new (code : TargetResolutionErrorCode) : TargetResolutionError := {| code := code; actual := None; expected := None |}.
Definition for_kind (actual : TargetKind) (expected : TargetExpectation) : TargetResolutionError :=
  {| code := ExpectationMismatch; actual := Some actual; expected := Some expected |}.

(** ** Paths *)

(** The components of a path, pushed one after the other. *)
Definition normalize_absolute_path (path : list text) : result TargetResolutionError (list text) :=
  output ← foldlM (λ output component,
    if decide (component = ROOT) then Ok [ROOT]
    else if decide (component = CURRENT) then Ok output
    else if decide (component = PARENT) then ok_or (parent output) (error_new EscapesRoot)
    else Ok (output ++ [component])) [] path;
  _ ← ensure (bool_decide (head output = Some ROOT)) (error_new InvalidPath);
  Ok output.
Definition normalize_absolute_root (root : list text) : result TargetResolutionError (list text) :=
  _ ← ensure (bool_decide (head root = Some ROOT)) (error_new RootMustBeAbsolute);
  normalize_absolute_path root.
Definition join_component (root output : list text) (component : text) : result TargetResolutionError (list text) :=
  if decide (component = CURRENT) then Ok output
  else if decide (component = PARENT) then
    match parent output with
    | Some output => _ ← ensure (path_starts_with output root) (error_new EscapesRoot); Ok output
    | None => Err (error_new EscapesRoot)
    end
  else if decide (component = ROOT) then Err (error_new InvalidPath)
  else Ok (output ++ [component]).
Definition join_relative (root : list text) (relative : list text) : result TargetResolutionError (list text) :=
  foldlM (join_component root) root relative.
Definition flip_ascii_case (value : text) : text :=
  (λ c, if decide (97 ≤ c ∧ c ≤ 122) then c - 32 else if decide (65 ≤ c ∧ c ≤ 90) then c + 32 else c) <$> value.

Section target.
Context (to_lowercase : text → text) (m : machine).

Definition identity_for (path : list text) (case_sensitive : bool) : text :=
  let value := (λ c, if decide (c = 92) then 47 else c) <$> display path in
  if case_sensitive then value else to_lowercase value.
Fixpoint detect_from (current rest : list text) : bool :=
  match rest with
  | [] => true
  | component :: rest =>
      let alternate := flip_ascii_case component in
      if decide (alternate = component) then detect_from (current ++ [component]) rest
      else
        match canonicalize m (current ++ [component]) with
        | Err _ => detect_from (current ++ [component]) rest
        | Ok canonical_current =>
            match canonicalize m (current ++ [alternate]) with
            | Ok canonical_alternate => negb (bool_decide (canonical_current = canonical_alternate))
            | Err NotFound => true
            | Err _ => detect_from (current ++ [component]) rest
            end
        end
  end.
Definition detect_case_sensitivity (root : list text) : bool := detect_from [] root.
Definition is_link_at (path : list text) : bool :=
  match symlink_metadata m path with Ok (_, n) => is_symlink n | Err _ => false end.
Fixpoint symlink_from (current rest : list text) : bool :=
  match rest with
  | [] => false
  | component :: rest =>
      if decide (component = CURRENT) then symlink_from current rest
      else
        let current := if decide (component = ROOT) then [ROOT] else current ++ [component] in
        is_link_at current || symlink_from current rest
  end.
Definition has_symlink_component (root relative : list text) : bool := symlink_from [] (root ++ relative).

(** ** Targets *)

Definition kind_of (n : node) : TargetKind :=
  match n with Link _ => KindSymlink | Regular _ => KindRegularFile | Directory _ _ => KindDirectory | Special _ => KindSpecial end.
Definition inspect_kind (target : CanonicalTarget) : result TargetResolutionError TargetKind :=
  match symlink_metadata m (absolute target) with
  | Ok (_, n) => Ok (kind_of n)
  | Err NotFound => Ok KindMissing
  | Err _ => Err (error_new MetadataUnavailable)
  end.
Definition metadata_fingerprint_for_path (path : list text) : result TargetResolutionError TargetMetadataFingerprint :=
  match symlink_metadata m path with
  | Ok (here, n) => Ok {| fingerprint_kind := kind_of n; fingerprint_identity := Some here |}
  | Err NotFound => Ok {| fingerprint_kind := KindMissing; fingerprint_identity := None |}
  | Err _ => Err (error_new MetadataUnavailable)
  end.
Definition validate_expectation (target : CanonicalTarget) : result TargetResolutionError TargetKind :=
  kind ← inspect_kind target;
  let valid :=
    match expectation target with
    | ExistingRegular => bool_decide (kind = KindRegularFile)
    | MissingTarget => bool_decide (kind = KindMissing)
    | ExistingOrMissing => bool_decide (kind = KindMissing ∨ kind = KindRegularFile)
    | ParentDirectory => bool_decide (kind = KindDirectory)
    end in
  _ ← ensure valid (for_kind kind (expectation target)); Ok kind.
Definition from_authorized_path (root absolute : list text) (role : TargetRole) (expectation : TargetExpectation)
    : result TargetResolutionError CanonicalTarget :=
  root ← normalize_absolute_root root;
  absolute ← normalize_absolute_path absolute;
  relative ← ok_or (path_strip_prefix root absolute) (error_new EscapesRoot);
  Ok {| relative := relative; absolute := absolute; identity := identity_for absolute (detect_case_sensitivity root);
        role := role; expectation := expectation |}.

Record TargetResolver := { root : list text; allow_absolute : bool; case_sensitive : bool; deny_symlinks : bool }.
Definition resolver_new (root : list text) : result TargetResolutionError TargetResolver :=
  root ← normalize_absolute_root root;
  Ok {| root := root; allow_absolute := false; case_sensitive := detect_case_sensitivity root; deny_symlinks := true |}.
Definition root_parent_target (r : TargetResolver) : CanonicalTarget :=
  {| relative := [CURRENT]; absolute := root r; identity := identity_for (root r) (case_sensitive r); role := Parent;
     expectation := ParentDirectory |}.
Definition resolve (r : TargetResolver) (input : text) (role : TargetRole) (expectation : TargetExpectation)
    : result TargetResolutionError CanonicalTarget :=
  _ ← ensure (negb (bool_decide (input = [] ∨ 0 ∈ input))) (error_new InvalidPath);
  let path := components input in
  _ ← ensure (negb (is_absolute input && negb (allow_absolute r))) (error_new AbsolutePathDenied);
  absolute ← (if is_absolute input then normalize_absolute_path path else join_relative (root r) path);
  relative ← ok_or (path_strip_prefix (root r) absolute) (error_new EscapesRoot);
  _ ← ensure (negb (bool_decide (relative = []))) (error_new RootTargetDenied);
  _ ← ensure (negb (deny_symlinks r && has_symlink_component (root r) relative)) (error_new SymlinkDenied);
  Ok {| relative := relative; absolute := absolute; identity := identity_for absolute (case_sensitive r);
        role := role; expectation := expectation |}.
End target.

(** ** Manifests *)

Definition role_order (role : TargetRole) : N := match role with Source => 0 | Destination => 1 | Parent => 2 end.
Definition sort_key (target : CanonicalTarget) : text * N := (identity target, role_order (role target)).
(** [deduped], the last one first. *)
Definition dedup_step (deduped : list CanonicalTarget) (target : CanonicalTarget) : result TargetResolutionError (list CanonicalTarget) :=
  match deduped with
  | previous :: _ =>
      if decide (identity previous = identity target) then
        _ ← ensure (bool_decide (absolute previous = absolute target)) (error_new IdentityCollision);
        Ok deduped
      else Ok (target :: deduped)
  | [] => Ok [target]
  end.
Definition manifest_new (targets : list CanonicalTarget) : result TargetResolutionError (list CanonicalTarget) :=
  deduped ← foldlM dedup_step [] (sort_on sort_key targets); Ok (reverse deduped).
Definition manifest (to_lowercase : text → text) (m : machine) (r : TargetResolver)
    (inputs : list (text * TargetRole * TargetExpectation)) : result TargetResolutionError (list CanonicalTarget) :=
  targets ← mapM (λ '(path, role, expectation), resolve to_lowercase m r path role expectation) inputs;
  manifest_new targets.

(** ** Lemmas *)

(** A component that [Path::components] yields. *)
Definition piece (c : text) : Prop := c = ROOT ∨ c = CURRENT ∨ c ≠ [] ∧ c ≠ CURRENT ∧ 47 ∉ c.
(** An absolute path without points. *)
Definition absolute_normal (path : list text) : Prop := ∃ names, path = ROOT :: names ∧ Forall plain names.

Lemma piece_plain c : piece c → c ≠ ROOT → c ≠ CURRENT → c ≠ PARENT → plain c.
Proof. unfold piece, plain. naive_solver. Qed.
Lemma plain_not_root c : plain c → c ≠ ROOT.
Proof. intros Hp ->. by apply plain_root in Hp. Qed.
Lemma parent_Some path out : parent path = Some out → ∃ c, path = out ++ [c] ∧ c ≠ ROOT.
Proof.
  unfold parent. destruct path as [|c path _] using rev_ind; [done|]. rewrite last_snoc. case_decide as H; [done|].
  intros [= <-]. rewrite pop_snoc. exists c. split; [done|]. intros ->. apply H. by right.
Qed.
Lemma normalize_absolute_path_Ok path out :
  Forall piece path → normalize_absolute_path path = Ok out → absolute_normal out.
Proof.
  intros Hp Hr. unfold normalize_absolute_path in Hr. simplify_result.
  assert (Forall plain out ∨ absolute_normal out) as [Hall|Hn]; [| |done].
  - revert Hr0. apply (foldlM_ind (λ out, Forall plain out ∨ absolute_normal out)); [|left; constructor].
    intros s c s' Hc Hs Hstep. rewrite Forall_forall in Hp. specialize (Hp c Hc).
    case_decide; [injection Hstep as <-; right; by exists []|]. case_decide; [by injection Hstep as <-|]. case_decide.
    + apply ok_or_Ok, parent_Some in Hstep as (d & -> & Hd). destruct Hs as [[Hs _]%Forall_app|(names & Heq & Hnames)]; [by left|].
      destruct names as [|x names _] using rev_ind.
      { destruct s' as [|x s']; [by injection Heq|by destruct s']. }
      right. exists names. rewrite app_comm_cons in Heq. apply app_inj_tail in Heq as [-> _]. by apply Forall_app in Hnames as [? _].
    + injection Hstep as <-. pose proof (piece_plain c Hp ltac:(done) ltac:(done) ltac:(done)) as Hplain.
      destruct Hs as [Hs|(names & -> & Hnames)]; [left|right; exists (names ++ [c]); split; [done|]]; (apply Forall_app; split; [done|by constructor]).
  - destruct out as [|c out]; [done|]. apply Forall_cons in Hall as [Hc _]. cbn in *. simplify_eq. by apply plain_root in Hc.
Qed.

(** How often a path goes up and down. *)
Definition ups (path : list text) : nat := length (filter (λ c, c = PARENT) path).
Definition downs (path : list text) : nat := length (filter (λ c, c ≠ PARENT ∧ c ≠ CURRENT) path).
(** It never climbs above where it started. *)
Definition stays_below (start : nat) (path : list text) : Prop := ∀ k, k `prefix_of` path → (ups k ≤ start + downs k)%nat.
Lemma stays_below_cons start c path :
  stays_below start (c :: path) ↔
  if decide (c = PARENT) then (∃ n, start = S n ∧ stays_below n path)
  else if decide (c = CURRENT) then stays_below start path else stays_below (S start) path.
Proof.
  assert (∀ P : list text → Prop, (∀ k, k `prefix_of` c :: path → P k) ↔ P [] ∧ ∀ k, k `prefix_of` path → P (c :: k)) as Hsplit.
  { intros P. split.
    - intros H. split; [apply H, prefix_nil|]. intros k Hk. by apply H, prefix_cons.
    - intros [H0 H] [|x k] Hk; [done|]. apply prefix_cons_inv_1 in Hk as Heq. apply prefix_cons_inv_2 in Hk. subst x. by apply H. }
  unfold stays_below. rewrite Hsplit. clear Hsplit. unfold ups, downs.
  destruct (decide (c = PARENT)) as [Hp|Hp]; [|destruct (decide (c = CURRENT)) as [Hc|Hc]].
  - assert (∀ k, length (filter (λ c, c = PARENT) (c :: k)) = S (length (filter (λ c, c = PARENT) k))) as Hu.
    { intros k. by rewrite filter_cons, decide_True. }
    assert (∀ k, filter (λ c, c ≠ PARENT ∧ c ≠ CURRENT) (c :: k) = filter (λ c, c ≠ PARENT ∧ c ≠ CURRENT) k) as Hd.
    { intros k. rewrite filter_cons, decide_False by tauto. done. }
    split.
    + intros [_ H]. destruct start as [|n]; [specialize (H [] ltac:(apply prefix_nil)); rewrite Hu, Hd in H; cbn in H; lia|].
      exists n. split; [done|]. intros k Hk. specialize (H k Hk). rewrite Hu, Hd in H. lia.
    + intros (n & -> & H). split; [cbn; lia|]. intros k Hk. specialize (H k Hk). rewrite Hu, Hd. lia.
  - assert (∀ k, filter (λ c, c = PARENT) (c :: k) = filter (λ c, c = PARENT) k) as Hu.
    { intros k. by rewrite filter_cons, decide_False. }
    assert (∀ k, filter (λ c, c ≠ PARENT ∧ c ≠ CURRENT) (c :: k) = filter (λ c, c ≠ PARENT ∧ c ≠ CURRENT) k) as Hd.
    { intros k. rewrite filter_cons, decide_False by tauto. done. }
    split; [intros [_ H]|intros H; split; [cbn; lia|]]; intros k Hk; specialize (H k Hk); rewrite Hu, Hd in *; done.
  - assert (∀ k, filter (λ c, c = PARENT) (c :: k) = filter (λ c, c = PARENT) k) as Hu.
    { intros k. by rewrite filter_cons, decide_False. }
    assert (∀ k, length (filter (λ c, c ≠ PARENT ∧ c ≠ CURRENT) (c :: k)) = S (length (filter (λ c, c ≠ PARENT ∧ c ≠ CURRENT) k))) as Hd.
    { intros k. by rewrite filter_cons, decide_True. }
    split; [intros [_ H]|intros H; split; [cbn; lia|]]; intros k Hk; specialize (H k Hk); rewrite Hu, Hd in *; lia.
Qed.
#[export] Instance stays_below_dec start path : Decision (stays_below start path).
Proof.
  revert start. induction path as [|c path IH]; intros start.
  - left. intros k Hk. apply prefix_nil_inv in Hk as ->. cbn. lia.
  - destruct (decide (c = PARENT)) as [Hp|Hp]; [destruct start as [|n]|destruct (decide (c = CURRENT)) as [Hc|Hc]].
    + right. rewrite stays_below_cons, decide_True by done. by intros (n & ? & _).
    + destruct (IH n) as [H|H]; [left|right]; rewrite stays_below_cons, decide_True by done; [eauto|by intros (n' & [= <-] & ?)].
    + destruct (IH start) as [H|H]; [left|right]; by rewrite stays_below_cons, decide_False, decide_True by done.
    + destruct (IH (S start)) as [H|H]; [left|right]; by rewrite stays_below_cons, decide_False, decide_False by done.
Defined.
Lemma starts_with_pop root rest c :
  absolute_normal root → plain c → (∃ names, rest = names ++ [c] ∧ Forall plain names) ∨ rest = [] →
  match parent (root ++ rest) with
  | Some output => if path_starts_with output root then Some output else None
  | None => None
  end = match rest with [] => None | _ => Some (root ++ pop rest) end.
Proof.
  intros (names & -> & Hnames) Hc [(rest' & -> & Hrest)| ->].
  - rewrite app_assoc, parent_snoc by (by apply plain_not_root). rewrite (proj2 (path_starts_with_spec _ _)) by (by exists rest').
    rewrite pop_snoc. by destruct rest'.
  - rewrite app_nil_r. destruct names as [|x names _] using rev_ind; [done|].
    apply Forall_app in Hnames as [_ [Hx _]%Forall_cons]. rewrite app_comm_cons, parent_snoc by (by apply plain_not_root).
    destruct (path_starts_with _ _) eqn:Hp; [|done]. apply path_starts_with_spec, prefix_length in Hp. rewrite length_app in Hp. cbn in Hp. lia.
Qed.
(** Joining reads the path as it is normalized lexically, below the root. *)
Lemma join_relative_spec root acc path :
  absolute_normal root → Forall plain acc → Forall piece path → ROOT ∉ path →
  Forall plain (foldl normalize_component acc path) ∧
  (stays_below (length acc) path → foldlM (join_component root) (root ++ acc) path = Ok (root ++ foldl normalize_component acc path)) ∧
  (¬ stays_below (length acc) path → foldlM (join_component root) (root ++ acc) path = Err (error_new EscapesRoot)).
Proof.
  intros Hroot Hacc Hpath. revert acc Hacc. induction Hpath as [|c path Hc Hpath IH]; intros acc Hacc Hno.
  { split; [done|]. split; [done|]. intros H. destruct H. intros k Hk. apply prefix_nil_inv in Hk as ->. cbn. lia. }
  apply not_elem_of_cons in Hno as [Hr Hno]. rewrite stays_below_cons. cbn [foldlM foldl]. unfold normalize_component at 2 4.
  unfold join_component at 2 4.
  destruct (decide (c = CURRENT)) as [Hcur|Hcur].
  { rewrite (decide_False (P := c = PARENT)) by (by rewrite Hcur). by apply IH. }
  destruct (decide (c = PARENT)) as [Hpar|Hpar].
  - assert (last acc ≠ Some ROOT) as Hlast.
    { intros (l & ->)%last_Some. apply Forall_app in Hacc as [_ [Hp _]%Forall_cons]. by apply plain_root in Hp. }
    rewrite decide_False by done. destruct acc as [|x acc _] using rev_ind.
    + pose proof (starts_with_pop root [] [97] Hroot ltac:(by repeat split; try done; intros ?%list_elem_of_singleton) (or_intror eq_refl)) as Hpop.
      split; [by apply IH|]. split; [intros (n & ? & _); done|]. intros _.
      destruct (parent (root ++ [])) as [out|]; [|done]. by destruct (path_starts_with out root).
    + apply Forall_app in Hacc as [Hacc [Hx _]%Forall_cons]. rewrite pop_snoc.
      pose proof (starts_with_pop root (acc ++ [x]) x Hroot Hx (or_introl (ex_intro _ acc (conj eq_refl Hacc)))) as Hpop.
      rewrite pop_snoc in Hpop. destruct (IH acc Hacc Hno) as (IH1 & IH2 & IH3). split; [done|].
      assert (match parent (root ++ acc ++ [x]) with
              | Some output => _ ← ensure (path_starts_with output root) (error_new EscapesRoot); Ok output
              | None => Err (error_new EscapesRoot) end = Ok (root ++ acc)) as ->.
      { destruct (parent _) as [out|]; [|by destruct acc]. destruct (path_starts_with out root); [|by destruct acc].
        destruct acc; injection Hpop as ->; done. }
      cbn [mbind result_bind]. rewrite length_app, Nat.add_comm. split.
      * intros (n & [= <-] & H). by apply IH2.
      * intros H. apply IH3. intros H'. apply H. eauto.
  - rewrite decide_False by done. cbn [mbind result_bind]. rewrite <-app_assoc.
    destruct (IH (acc ++ [c])) as (IH1 & IH2 & IH3); [|done|].
    { apply Forall_app. split; [done|]. constructor; [by apply piece_plain|done]. }
    rewrite length_app, Nat.add_comm in IH2, IH3. rewrite (decide_False (P := c = ROOT)) by done. auto.
Qed.

(** No link along a path, as the resolver asks. *)
Lemma symlink_from_false m current rest :
  Forall (λ c, c ≠ ROOT ∧ c ≠ CURRENT) rest → symlink_from m current rest = false →
  ∀ k, k `prefix_of` rest → k ≠ [] → is_link_at m (current ++ k) = false.
Proof.
  intros Hall. revert current. induction Hall as [|c rest [Hr Hc] Hall IH]; intros current; [by intros _ k ->%prefix_nil_inv|].
  cbn. rewrite !decide_False by done. intros [Hl Hrest]%orb_false_iff [|x k] Hk Hne; [done|].
  apply prefix_cons_inv_1 in Hk as Heq. apply prefix_cons_inv_2 in Hk. subst x. destruct k as [|y k]; [done|].
  specialize (IH (current ++ [c]) Hrest (y :: k) Hk ltac:(done)). by rewrite <-app_assoc in IH.
Qed.
Lemma plain_pushed l : Forall plain l → Forall (λ c, c ≠ ROOT ∧ c ≠ CURRENT) l.
Proof. intros Hl. eapply Forall_impl; [exact Hl|]. intros c Hc. split; [by apply plain_not_root|by destruct Hc as (_ & ? & _)]. Qed.
Lemma has_symlink_component_false m names relative :
  Forall plain (names ++ relative) → has_symlink_component m (ROOT :: names) relative = false →
  ∀ k, k `prefix_of` names ++ relative → k ≠ [] → is_link_at m (ROOT :: k) = false.
Proof.
  intros Hall H k Hk Hne. unfold has_symlink_component in H. cbn in H. rewrite decide_False, decide_True in H by done.
  apply orb_false_iff in H as [_ H]. by apply (symlink_from_false m [ROOT] (names ++ relative) (plain_pushed _ Hall) H k).
Qed.
(** A path without links leads where it says. *)
Lemma walk_literal m links here rest l :
  machine_ok m → canonical m here → Forall plain rest → Forall (λ c, 0 ∉ c) rest →
  (∀ k, k `prefix_of` rest → k ≠ [] → is_link_at m (ROOT :: here ++ k) = false) →
  walk m true links here rest = Ok l → l = here ++ rest.
Proof.
  intros Hm. revert here. induction rest as [|c rest IH]; intros here Hh Hall Hnul Hlink Hw.
  { rewrite app_nil_r. by destruct links; injection Hw as <-. }
  apply Forall_cons in Hall as [Hp Hall]. apply Forall_cons in Hnul as [Hn0 Hnul].
  pose proof (plain_not_root c Hp) as Hroot. destruct Hp as (_ & Hcur & Hpar & _).
  assert ((_ ← search m here;
      if too_long m c then Err InvalidFilename
      else match nodes m !! (here ++ [c]) with
           | None => Err NotFound
           | Some (Link target) =>
               if decide (target = []) then Err NotFound
               else match links with O => Err FilesystemLoop | S links => walk m true links here (link_pieces target ++ rest) end
           | Some _ => walk m true links (here ++ [c]) rest
           end) = Ok l) as Hw'.
  { rewrite <-Hw. destruct links; cbn; rewrite (decide_False (P := c = ROOT)) by done; destruct (search m here); cbn; try done;
      rewrite (decide_False (P := c = CURRENT)), (decide_False (P := c = PARENT)) by done; destruct (too_long m c); try done;
      destruct (nodes m !! (here ++ [c])) as [[]|]; try done; rewrite (decide_False (P := rest = [] ∧ _)) by naive_solver; done. }
  clear Hw. apply bind_Ok in Hw' as ([] & Hs & Hw). destruct (too_long m c); [done|].
  destruct (nodes m !! (here ++ [c])) as [n|] eqn:Hn; [|done].
  assert (dirs_to m (here ++ [c])) as Hd by (apply dirs_to_snoc; split; [apply Hh|done]).
  destruct (is_symlink n) eqn:Hsym.
  - assert (is_link_at m (ROOT :: here ++ [c]) = false) as Hf by (apply Hlink; [by exists rest|done]).
    assert (Forall (file_name_ok m) (here ++ [c])) as Hok by (by eapply ok_names).
    unfold is_link_at, symlink_metadata in Hf. rewrite resolve_path_absolute in Hf by done.
    rewrite (walk_along m false MAX_LINKS [] (here ++ [c])) in Hf; [|done|done|exists n; auto]. cbn in Hf. rewrite Hn in Hf. cbn in Hf. congruence.
  - assert (walk m true links (here ++ [c]) rest = Ok l) as Hw' by (destruct n; done). rewrite (cons_middle c here rest), app_assoc.
    apply IH; try done; [split; [done|eauto]|]. intros k Hk Hne. rewrite <-app_assoc. apply Hlink; [by apply prefix_cons|done].
Qed.
Lemma canonicalize_literal m names c :
  machine_ok m → Forall plain names → (∀ k, k `prefix_of` names → k ≠ [] → is_link_at m (ROOT :: k) = false) →
  canonicalize m (ROOT :: names) = Ok c → c = ROOT :: names.
Proof.
  intros Hm Hall Hlink. unfold canonicalize, resolve_path. intros (l & Hr & [= <-])%bind_Ok. f_equal.
  apply bind_Ok in Hr as ([] & Hnul & Hr). apply bind_Ok in Hr as ([] & _ & Hr). change l with ([] ++ l).
  apply (walk_literal m MAX_LINKS [] names l Hm); [by apply canonical_root|done| |done|done].
  apply ensure_Ok in Hnul. cbn [forallb] in Hnul. apply andb_true_iff in Hnul as [_ Hnul].
  rewrite forallb_forall in Hnul. apply Forall_forall. intros x Hx%list_elem_of_In. specialize (Hnul x Hx). unfold nul in Hnul.
  by apply negb_true_iff, bool_decide_eq_false in Hnul.
Qed.

(** ** Resolving one name *)

Lemma resolver_new_root m p r : resolver_new m (components p) = Ok r → absolute_normal (root r).
Proof.
  unfold resolver_new. intros (rt & Hrt & [= <-])%bind_Ok. cbn. unfold normalize_absolute_root in Hrt. simplify_result.
  eapply normalize_absolute_path_Ok; [|done]. apply components_pieces.
Qed.
Lemma components_relative p : is_absolute p = false → Forall piece (components p) ∧ ROOT ∉ components p.
Proof.
  intros Ha. split; [apply components_pieces|]. unfold components. unfold is_absolute in Ha. rewrite Ha.
  intros [Hin|[_ Hin]%list_elem_of_filter]%elem_of_app.
  - case_decide; [|by apply elem_of_nil in Hin]. by apply list_elem_of_singleton in Hin.
  - destruct (split_on_pieces 47 p) as [Hp _]. rewrite Forall_forall in Hp. apply (Hp ROOT Hin). left.
Qed.
Lemma absolute_normal_prefix root rest :
  absolute_normal root → absolute_normal (root ++ rest) → Forall plain rest.
Proof.
  intros (names & -> & _) (all & Heq & Hall). cbn in Heq. injection Heq as <-. by apply Forall_app in Hall as [_ ?].
Qed.
Lemma absolute_normal_app root rest : absolute_normal root → Forall plain rest → absolute_normal (root ++ rest).
Proof. intros (names & -> & Hn) Hr. exists (names ++ rest). split; [done|]. by apply Forall_app. Qed.

Lemma resolve_below to_lowercase m r input role expectation t :
  absolute_normal (root r) → resolve to_lowercase m r input role expectation = Ok t →
  absolute t = root r ++ relative t ∧ relative t ≠ [] ∧ Forall plain (relative t).
Proof.
  intros Hn Hr. unfold resolve in Hr. simplify_result. cbn. rename r3 into rel, r2 into abs. apply path_strip_prefix_Some in Hr3 as ->.
  split; [done|]. split; [done|]. destruct (is_absolute input) eqn:Ha.
  - apply normalize_absolute_path_Ok in Hr2; [|apply components_pieces]. exact (absolute_normal_prefix _ _ Hn Hr2).
  - destruct (components_relative input Ha) as [Hp Hno]. unfold join_relative in Hr2.
    destruct (join_relative_spec (root r) [] (components input) Hn) as (Hplain & Hok & Herr); [done..|].
    rewrite app_nil_r in Hok, Herr. destruct (stays_below_dec 0 (components input)) as [Hs|Hs].
    + rewrite Hok in Hr2 by done. injection Hr2 as Hr2. apply app_inv_head in Hr2 as <-. done.
    + rewrite Herr in Hr2 by done. done.
Qed.

(** C15: a resolved target stays below the root, whatever the name spells. It is the
    root and a relative path without points; where links are denied the file system
    leads the path nowhere else, so that what is opened is below the root too. *)
Theorem target_confined to_lowercase m p r0 r input role expectation t :
  machine_ok m → resolver_new m (components p) = Ok r0 → root r = root r0 →
  resolve to_lowercase m r input role expectation = Ok t →
  absolute t = root r ++ relative t ∧ relative t ≠ [] ∧ Forall plain (relative t) ∧
  (deny_symlinks r = true → ∀ c, canonicalize m (absolute t) = Ok c → c = absolute t).
Proof.
  intros Hm Hnew Hroot Hr. pose proof (resolver_new_root m p r0 Hnew) as Hn. rewrite <-Hroot in Hn.
  destruct (resolve_below to_lowercase m r input role expectation t Hn Hr) as (Habs & Hne & Hall).
  split; [done|]. split; [done|]. split; [done|]. intros Hdeny c Hc. rewrite Habs in *.
  unfold resolve in Hr. simplify_result. cbn in *. rename r4 into rel. rewrite Hdeny in Hr5. cbn in Hr5.
  destruct Hn as (names & Heq & Hnames). rewrite Heq in *. cbn in Hc |- *.
  apply (canonicalize_literal m (names ++ rel)); [done|by apply Forall_app| |done].
  apply (has_symlink_component_false m names rel); [by apply Forall_app|]. exact Hr5.
Qed.

(** a relative name is resolved as it is read lexically. It is refused exactly
    when reading it climbs above the root somewhere, when it names the root itself
    or, where links are denied, crosses one; otherwise it is the root and the
    normalized name. An absolute name needs a resolver that allows it. *)
Theorem target_exact to_lowercase m p r0 r input role expectation :
  resolver_new m (components p) = Ok r0 → root r = root r0 → input ≠ [] → 0 ∉ input →
  let rel := normalize_lexically input in
  let answer := resolve to_lowercase m r input role expectation in
  (is_absolute input = true → allow_absolute r = false → answer = Err (error_new AbsolutePathDenied)) ∧
  (is_absolute input = false →
   if decide (stays_below 0 (components input)) then
     answer =
     if decide (rel = []) then Err (error_new RootTargetDenied)
     else if deny_symlinks r && has_symlink_component m (root r) rel then Err (error_new SymlinkDenied)
     else Ok {| relative := rel; absolute := root r ++ rel; identity := identity_for to_lowercase (root r ++ rel) (case_sensitive r);
                role := role; expectation := expectation |}
   else answer = Err (error_new EscapesRoot)).
Proof.
  intros Hnew Hroot Hne Hnul rel answer. pose proof (resolver_new_root m p r0 Hnew) as Hn. rewrite <-Hroot in Hn.
  unfold answer, resolve. rewrite bool_decide_false by tauto. cbn [negb ensure mbind result_bind]. split; intros Ha; rewrite Ha.
  { by intros ->. }
  cbn [andb negb ensure mbind result_bind]. destruct (components_relative input Ha) as [Hp Hno].
  destruct (join_relative_spec (root r) [] (components input) Hn) as (Hplain & Hok & Herr); [done..|].
  rewrite app_nil_r in Hok, Herr. unfold join_relative. change (length []) with O in *. case_decide as Hs.
  - rewrite Hok by done. cbn [mbind result_bind]. fold (normalize_lexically input). fold rel.
    rewrite (proj2 (path_strip_prefix_Some (root r) (root r ++ rel) rel)) by done. cbn [ok_or mbind result_bind].
    destruct (decide (rel = [])) as [->|Hrel]; [by rewrite bool_decide_true|]. rewrite bool_decide_false by done. cbn [negb ensure mbind result_bind].
    by destruct (deny_symlinks r && has_symlink_component m (root r) rel).
  - by rewrite Herr.
Qed.

(** ** Manifests *)

Definition collide (targets : list CanonicalTarget) : Prop :=
  ∃ t t', t ∈ targets ∧ t' ∈ targets ∧ identity t = identity t' ∧ absolute t ≠ absolute t'.
(** What has been kept of a sorted list read so far. *)
Record kept_of (read kept : list CanonicalTarget) : Prop := {
  kept_read : ∀ d, d ∈ kept → d ∈ read;
  kept_order : StronglySorted (λ d d', cmp (identity d') (identity d) = Lt) kept;
  kept_all : ∀ t, t ∈ read → ∃ d, d ∈ kept ∧ identity d = identity t ∧ absolute d = absolute t ∧ key_leq sort_key d t;
}.
Lemma key_leq_identity t t' : key_leq sort_key t t' → cmp (identity t) (identity t') ≠ Gt.
Proof.
  unfold key_leq, sort_key. intros H Hgt. apply H. change (match cmp (identity t) (identity t') with
    | Eq => cmp (role_order (role t)) (role_order (role t')) | c => c end = Gt). by rewrite Hgt.
Qed.
Lemma dedup_sorted_spec targets :
  StronglySorted (key_leq sort_key) targets →
  (∃ kept, foldlM dedup_step [] targets = Ok kept ∧ kept_of targets kept) ∧ ¬ collide targets ∨
  foldlM dedup_step [] targets = Err (error_new IdentityCollision) ∧ collide targets.
Proof.
  induction targets as [|t read IH] using rev_ind; intros Hs.
  { left. split; [exists []|by intros (t & _ & Ht%elem_of_nil & _)]. split; [done|]. split; [done|constructor|by intros t Ht%elem_of_nil]. }
  assert (StronglySorted (key_leq sort_key) read ∧ ∀ x, x ∈ read → key_leq sort_key x t) as [Hread Hlast].
  { clear IH. induction read as [|x read IH]; [split; [constructor|by intros x Hx%elem_of_nil]|]. cbn in Hs.
    apply StronglySorted_inv in Hs as [Hs Hx]. destruct (IH Hs) as [H1 H2]. apply Forall_app in Hx as [Hx [Ht _]%Forall_cons].
    split; [by constructor|]. intros y [->|Hy]%elem_of_cons; [done|by apply H2]. }
  rewrite foldlM_app. destruct (IH Hread) as [[(kept & -> & [Hk1 Hk2 Hk3]) Hno]|[-> (u & v & Hu & Hv & Hc)]].
  2: { right. split; [done|]. exists u, v. rewrite !elem_of_app. auto. }
  cbn [mbind result_bind foldlM]. unfold dedup_step at 1 2. destruct kept as [|previous kept].
  { destruct read as [|x read]; [|destruct (Hk3 x) as (d & Hd%elem_of_nil & _); [left|done]].
    left. split; [exists [t]; split; [done|]|].
    - split; [done|by repeat constructor|]. intros u Hu. exists t. apply list_elem_of_singleton in Hu as ->.
      split; [left|]. split; [done|]. split; [done|]. apply key_leq_spec. by right.
    - intros (u & v & ->%list_elem_of_singleton & ->%list_elem_of_singleton & _ & Hne). done. }
  assert (previous ∈ read) as Hprev by (apply Hk1; left). case_decide as Hid.
  - destruct (decide (absolute previous = absolute t)) as [Habs|Habs].
    + rewrite bool_decide_true by done. left. split.
      * exists (previous :: kept). split; [done|]. split; [intros d Hd; apply elem_of_app; left; by apply Hk1|done|].
        intros u [Hu| ->%list_elem_of_singleton]%elem_of_app; [by apply Hk3|]. exists previous. split; [left|]. auto.
      * intros (u & v & Hu & Hv & Heq & Hne). apply Hno. destruct (decide (u = v)) as [->|]; [done|].
        assert (∀ x, x ∈ read ++ [t] → ∃ y, y ∈ read ∧ identity y = identity x ∧ absolute y = absolute x) as Hin.
        { intros x [Hx| ->%list_elem_of_singleton]%elem_of_app; [by exists x|by exists previous]. }
        destruct (Hin u Hu) as (u' & Hu' & Hiu & Hau), (Hin v Hv) as (v' & Hv' & Hiv & Hav).
        exists u', v'. split; [done|]. split; [done|]. split; congruence.
    + rewrite bool_decide_false by done. right. split; [done|]. exists previous, t. rewrite !elem_of_app, !list_elem_of_singleton. auto.
  - left. apply StronglySorted_inv in Hk2 as Hk2'. destruct Hk2' as [_ Hbelow]. rewrite Forall_forall in Hbelow.
    assert (∀ x, x ∈ read → cmp (identity x) (identity t) = Lt) as Hlt.
    { assert (cmp (identity previous) (identity t) = Lt) as Hpt.
      { pose proof (key_leq_identity previous t (Hlast previous Hprev)) as H. destruct (cmp _ _) eqn:Hc; [|done|done]. by apply cmp_eq in Hc. }
      intros x Hx. destruct (Hk3 x Hx) as (d & [->|Hd]%elem_of_cons & <- & _); [done|].
      apply (cmp_trans _ (identity previous)); [by apply Hbelow|done]. }
    split.
    + exists (t :: previous :: kept). split; [done|]. split.
      * intros d [->|Hd]%elem_of_cons; apply elem_of_app; [right; left|left; by apply Hk1].
      * constructor; [done|]. apply Forall_forall. intros d Hd. by apply Hlt, Hk1.
      * intros u [Hu| ->%list_elem_of_singleton]%elem_of_app.
        -- destruct (Hk3 u Hu) as (d & Hd & H). exists d. split; [by right|done].
        -- exists t. split; [left|]. split; [done|]. split; [done|]. apply key_leq_spec. by right.
    + intros (u & v & [Hu| ->%list_elem_of_singleton]%elem_of_app & [Hv| ->%list_elem_of_singleton]%elem_of_app & Heq & Hne).
      * apply Hno. by exists u, v.
      * specialize (Hlt u Hu). rewrite Heq, cmp_refl in Hlt. done.
      * specialize (Hlt v Hv). rewrite <-Heq, cmp_refl in Hlt. done.
      * done.
Qed.
Lemma StronglySorted_reverse {A} (R : A → A → Prop) l : StronglySorted R l → StronglySorted (λ x y, R y x) (reverse l).
Proof.
  induction 1 as [|x l Hl IH Hx]; [constructor|]. rewrite reverse_cons. rewrite Forall_forall in Hx.
  assert (∀ y, y ∈ reverse l → R x y) as Hx' by (intros y Hy; rewrite elem_of_reverse in Hy; exact (Hx y Hy)).
  clear Hx. revert IH Hx'. generalize (reverse l). clear. intros l IH Hx.
  induction IH as [|y l Hl IH Hy]; [by repeat constructor|]. cbn. constructor.
  - apply IH. intros z Hz. apply Hx. by right.
  - apply Forall_app. split; [done|]. constructor; [|done]. apply Hx. left.
Qed.

Lemma manifest_new_Ok targets ds : manifest_new targets = Ok ds →
  (∀ d, d ∈ ds → d ∈ targets) ∧ ∀ t, t ∈ targets → ∃ d, d ∈ ds ∧ absolute d = absolute t ∧ identity d = identity t.
Proof.
  unfold manifest_new. destruct (dedup_sorted_spec _ (sort_on_sorted sort_key targets)) as [[(kept & -> & [Hk1 Hk2 Hk3]) _]|[-> _]]; [|done].
  assert (∀ t, t ∈ sort_on sort_key targets ↔ t ∈ targets) as Hin by (intros t; by rewrite (sort_on_perm sort_key targets)).
  intros [= <-]. split; [intros d Hd; rewrite elem_of_reverse in Hd; by apply Hin, Hk1|].
  intros t Ht. destruct (Hk3 t) as (d & Hd & Hid & Habs & _); [by apply Hin|]. exists d. by rewrite elem_of_reverse.
Qed.

(** a manifest names every file once. It fails exactly when two different paths
    share an identity; otherwise its targets are some of the given ones, strictly
    ordered by identity, and for each given one there is the target of its path that
    comes first among the roles. *)
Theorem manifest_exact targets :
  (collide targets → manifest_new targets = Err (error_new IdentityCollision)) ∧
  (¬ collide targets → ∃ ds, manifest_new targets = Ok ds ∧
     StronglySorted (λ d d', cmp (identity d) (identity d') = Lt) ds ∧ (∀ d, d ∈ ds → d ∈ targets) ∧
     ∀ t, t ∈ targets → ∃ d, d ∈ ds ∧ absolute d = absolute t ∧ identity d = identity t ∧ role_order (role d) ≤ role_order (role t)).
Proof.
  pose proof (sort_on_perm sort_key targets) as Hperm.
  assert (∀ t, t ∈ sort_on sort_key targets ↔ t ∈ targets) as Hin by (intros t; by rewrite Hperm).
  assert (collide (sort_on sort_key targets) ↔ collide targets) as Hcol by (unfold collide; by setoid_rewrite Hin).
  unfold manifest_new. destruct (dedup_sorted_spec _ (sort_on_sorted sort_key targets)) as [[(kept & -> & [Hk1 Hk2 Hk3]) Hno]|[-> Hc]].
  - split; [by intros ?%Hcol|]. intros _. exists (reverse kept). split; [done|]. split; [|split].
    + by apply (StronglySorted_reverse (λ d d', cmp (identity d') (identity d) = Lt)).
    + intros d Hd. rewrite elem_of_reverse in Hd. by apply Hin, Hk1.
    + intros t Ht. destruct (Hk3 t) as (d & Hd & Hid & Habs & Hleq); [by apply Hin|]. exists d. split; [by apply elem_of_reverse|].
      split; [done|]. split; [done|]. unfold key_leq, sort_key in Hleq. rewrite Hid in Hleq. revert Hleq.
      change (cmp (identity t, role_order (role d)) (identity t, role_order (role t))) with
        (match cmp (identity t) (identity t) with Eq => cmp (role_order (role d)) (role_order (role t)) | c => c end).
      rewrite cmp_refl. unfold cmp, ordered_N. rewrite N.compare_gt_iff. lia.
  - split; [done|]. intros H. by apply Hcol in Hc.
Qed.

Lemma display_no_backslash names : Forall (λ c, 92 ∉ c) names → 92 ∉ display (ROOT :: names).
Proof.
  intros H. change (display (ROOT :: names)) with (47 :: join_with 47 names). apply not_elem_of_cons. split; [done|].
  induction H as [|c names Hc Hn IH]; [apply not_elem_of_nil|]. destruct names as [|c' names]; [done|].
  cbn [join_with]. apply not_elem_of_app. split; [done|]. by apply not_elem_of_cons.
Qed.
Lemma identity_no_backslash to_lowercase path : 92 ∉ display path → identity_for to_lowercase path true = display path.
Proof.
  unfold identity_for. generalize (display path) as l. induction l as [|c l IH]; intros Hc; [done|].
  apply not_elem_of_cons in Hc as [? ?]. rewrite fmap_cons, decide_False by congruence. f_equal. by apply IH.
Qed.
(** identities tell paths apart. Where case matters, paths without backslashes have
    the same identity, and so the same lock, exactly when they are the same. *)
Theorem identity_exact to_lowercase path path' :
  absolute_normal path → absolute_normal path' → Forall (λ c, 92 ∉ c) path → Forall (λ c, 92 ∉ c) path' →
  identity_for to_lowercase path true = identity_for to_lowercase path' true ↔ path = path'.
Proof.
  intros (names & -> & Hn) (names' & -> & Hn') [_ Hb]%Forall_cons [_ Hb']%Forall_cons.
  rewrite !identity_no_backslash by (by apply display_no_backslash). split; [|by intros ->]. intros Heq.
  rewrite <-(components_display (ROOT :: names)), <-(components_display (ROOT :: names')); [by rewrite Heq|..];
    eexists; (split; [by left|done]).
Qed.

Module SampleTarget.
(** A workspace with a file, a directory, a link out of it and a link back in. *)
Definition ws : location := [lit "home"; lit "ws"].
Definition sample_nodes : list (location * node) :=
  [([], Directory true true); ([lit "home"], Directory true true); (ws, Directory true true);
   (ws ++ [lit "a"], Directory true true); (ws ++ [lit "a"; lit "file"], Regular true);
   (ws ++ [lit "out"], Link (lit "/etc")); (ws ++ [lit "in"], Link (lit "a/")); ([lit "etc"], Directory true true);
   ([lit "etc"; lit "secret"], Regular true)].
Definition sample : machine :=
  {| nodes := list_to_map sample_nodes; process_cwd := []; too_long := λ c, bool_decide (255 < byte_len c); temp_dir := lit "/tmp" |}.
Lemma canonical_here here n :
  nodes sample !! here = Some n → is_symlink n = false →
  forallb (λ k, match nodes sample !! take k here with Some (Directory true _) => true | _ => false end) (seq 0 (length here)) = true →
  canonical sample here.
Proof.
  intros Hn Hs Hall. split; [|eauto]. intros l [r ->] Hne. rewrite forallb_forall in Hall. specialize (Hall (length l)).
  rewrite take_app_length, length_app in Hall. rewrite in_seq in Hall.
  assert (length r ≠ 0%nat) by (destruct r; [by rewrite app_nil_r in Hne|done]). specialize (Hall ltac:(lia)).
  destruct (nodes sample !! l) as [[[] r'| | |]|]; try done. by exists r'.
Defined.
Lemma sample_ok : machine_ok sample.
Proof.
  split.
  - vm_compute. reflexivity.
  - intros l n Hl%elem_of_list_to_map_2. assert (Forall (λ x, Forall (file_name_ok sample) x.1) sample_nodes) as Hall.
    { unfold sample_nodes, file_name_ok, plain. repeat apply Forall_cons_2; try apply Forall_nil; cbn [fst ws app];
        repeat apply Forall_cons_2; try apply Forall_nil; apply (bool_decide_unpack _); vm_compute; exact I. }
    rewrite Forall_forall in Hall. apply (Hall (l, n) Hl).
  - apply (canonical_here [] (Directory true true)); reflexivity.
Defined.
Definition r : TargetResolver := {| root := ROOT :: ws; allow_absolute := false; case_sensitive := true; deny_symlinks := true |}.
Definition answer (input : text) : result TargetResolutionError (list text) :=
  t ← resolve id sample r input Source ExistingOrMissing; Ok (absolute t).
Example resolved : answer (lit "./a/../a/file") = Ok (ROOT :: ws ++ [lit "a"; lit "file"]).
Proof. vm_compute. reflexivity. Qed.
Example refused :
  (answer (lit "a/../../ws/a"), answer (lit "out/secret"), answer (lit "in/file"), answer (lit "a/.."), answer (lit "/etc")) =
  (Err (error_new EscapesRoot), Err (error_new SymlinkDenied), Err (error_new SymlinkDenied), Err (error_new RootTargetDenied),
   Err (error_new AbsolutePathDenied)).
Proof. vm_compute. reflexivity. Qed.
(** Two files of Unix that the identity does not tell apart. *)
Example backslash_collides :
  manifest id sample r [(lit "a/b", Source, ExistingRegular); (lit "a\b", Source, ExistingRegular)] = Err (error_new IdentityCollision).
Proof. vm_compute. reflexivity. Qed.

Definition file_target : CanonicalTarget :=
  {| relative := [lit "a"; lit "file"]; absolute := ROOT :: ws ++ [lit "a"; lit "file"]; identity := lit "/home/ws/a/file";
     role := Source; expectation := ExistingRegular |}.
Lemma target_confined_witness :
  absolute file_target = root r ++ relative file_target ∧ relative file_target ≠ [] ∧ Forall plain (relative file_target) ∧
  (deny_symlinks r = true → ∀ c, canonicalize sample (absolute file_target) = Ok c → c = absolute file_target).
Proof.
  apply (target_confined id sample (lit "/home/x/../ws") r r (lit "a/file") Source ExistingRegular);
    [apply sample_ok|vm_compute; reflexivity|reflexivity|vm_compute; reflexivity].
Defined.
Lemma target_exact_witness :
  let rel := normalize_lexically (lit "a/../a/file") in
  let answer := resolve id sample r (lit "a/../a/file") Source ExistingRegular in
  (is_absolute (lit "a/../a/file") = true → allow_absolute r = false → answer = Err (error_new AbsolutePathDenied)) ∧
  (is_absolute (lit "a/../a/file") = false →
   if decide (stays_below 0 (components (lit "a/../a/file"))) then
     answer =
     if decide (rel = []) then Err (error_new RootTargetDenied)
     else if deny_symlinks r && has_symlink_component sample (root r) rel then Err (error_new SymlinkDenied)
     else Ok {| relative := rel; absolute := root r ++ rel; identity := identity_for id (root r ++ rel) (case_sensitive r);
                role := Source; expectation := ExistingRegular |}
   else answer = Err (error_new EscapesRoot)).
Proof.
  apply (target_exact id sample (lit "/home/ws") r r (lit "a/../a/file") Source ExistingRegular);
    [vm_compute; reflexivity|reflexivity|discriminate|apply (bool_decide_unpack _); vm_compute; exact I].
Defined.
Lemma identity_exact_witness :
  identity_for id (ROOT :: ws) true = identity_for id [ROOT; lit "home"] true ↔ ROOT :: ws = [ROOT; lit "home"].
Proof.
  apply identity_exact; [exists ws; split; [reflexivity|]|exists [lit "home"]; split; [reflexivity|]|..];
    unfold plain, ws; repeat apply Forall_cons_2; try apply Forall_nil; apply (bool_decide_unpack _); vm_compute; exact I.
Defined.
End SampleTarget.
