(* ===== verification/FilePolicy.v ===== *)
(** * The file policy of a turn

    Models [crates/tools/src/file_policy.rs]: whether the sandbox of a turn lets a tool
    read or write a path, and the capability a grant carries. The file system is the
    [machine] of FileSystem.v, which does not change during a check; the snapshot of
    the turn is that of DelegatedSecurity.v. A handle is the location it was opened
    at. *)
From S2P Require Import Prelude Ordered TextSplit UnixPath FileSystem FileTarget DelegatedSecurity.
Local Open Scope N_scope.

Inductive FilePolicyOperation := Read | Write.
#[export] Instance FilePolicyOperation_eq_dec : EqDecision FilePolicyOperation.
Proof. solve_decision. Defined.
Inductive FilePolicyDenyReason :=
  | EmptyPath | MissingPath | OutsideAllowedRoots | SymlinkEscape | WriteRequiresWritableRoot | NoUsableRoots | InvalidRoot.
#[export] Instance FilePolicyDenyReason_eq_dec : EqDecision FilePolicyDenyReason.
Proof. solve_decision. Defined.
Record FilePolicyCapability := {
  target : option location; canonical_target : option CanonicalTarget; anchor : location; anchor_path : list text;
  relative_path : list text;
}.
Record FilePolicyGrant := {
  operation : FilePolicyOperation; requested_path : list text; granted_path : list text; matched_root : option (list text);
  granted_access : TurnFilesystemAccess; capability : FilePolicyCapability;
}.
Record FilePolicyDeny := {
  denied_operation : FilePolicyOperation; denied_path : list text; denied_resolved : option (list text);
  reason : FilePolicyDenyReason; message : text;
}.
Inductive FilePolicyDecision := Allowed (grant : FilePolicyGrant) | Denied (deny : FilePolicyDeny).

Definition deny_message (reason : FilePolicyDenyReason) : text :=
  lit match reason with
  | EmptyPath => "filesystem path is empty"
  | MissingPath => "filesystem path does not exist"
  | OutsideAllowedRoots => "filesystem path is outside the allowed sandbox roots"
  | SymlinkEscape => "filesystem path resolves outside an allowed root through a symlink"
  | WriteRequiresWritableRoot => "filesystem path is only covered by a read-only sandbox root"
  | NoUsableRoots => "filesystem sandbox has no usable roots for this path"
  | InvalidRoot => "filesystem sandbox roots could not be resolved"
  end.
Definition deny_for (operation : FilePolicyOperation) (requested : list text) (resolved : option (list text))
    (reason : FilePolicyDenyReason) : FilePolicyDecision :=
  Denied {| denied_operation := operation; denied_path := requested; denied_resolved := resolved; reason := reason;
            message := deny_message reason |}.
Definition with_root (decision : FilePolicyDecision) : FilePolicyDecision :=
  match decision with
  | Denied deny =>
      Denied {| denied_operation := denied_operation deny; denied_path := denied_path deny; denied_resolved := denied_resolved deny;
                reason := reason deny; message := message deny ++ lit "; matched read-only root" |}
  | Allowed grant => Allowed grant
  end.
Definition access_allows (access : TurnFilesystemAccess) (operation : FilePolicyOperation) : bool :=
  match access, operation with
  | WriteAccess, Read | WriteAccess, Write | ReadAccess, Read => true
  | _, _ => false
  end.

Section policy.
Context (to_lowercase : text → text) (m : machine).

(** ** Capabilities *)

Definition same_filesystem_object (expected actual : location * node) : bool :=
  bool_decide (is_dir expected.2 = is_dir actual.2 ∧ is_file expected.2 = is_file actual.2) && bool_decide (expected.1 = actual.1).
(** [File::metadata] *)
Definition handle_metadata (file : location) : io (location * node) :=
  n ← ok_or (nodes m !! file) NotFound; Ok (file, n).
Definition capture_read (path : list text) : io FilePolicyCapability :=
  metadata ← symlink_metadata m path;
  target ←
    (if is_dir metadata.2 then open_directory m path
     else if is_file metadata.2 then open_regular_file m path
     else Err InvalidInput);
  actual ← handle_metadata target;
  _ ← ensure (same_filesystem_object metadata actual) PermissionDenied;
  anchor_path ← (if is_dir metadata.2 then Ok path else ok_or (parent path) InvalidInput);
  anchor ← open_directory m anchor_path;
  let relative_path := default [CURRENT] (path_strip_prefix anchor_path path) in
  canonical_target ← map_err (λ _, InvalidInput)
    (from_authorized_path to_lowercase m anchor_path path Source (if is_dir metadata.2 then ParentDirectory else ExistingRegular));
  Ok {| target := Some target; canonical_target := Some canonical_target; anchor := anchor; anchor_path := anchor_path;
        relative_path := relative_path |}.

(** The loops over the ancestors of a path take the path from its end. *)
Fixpoint missing_write_loop (current_rev missing_components : list text) : result FilePolicyDenyReason (list text) :=
  let current := reverse current_rev in
  match symlink_metadata m current with
  | Ok (_, n) =>
      if is_symlink n then Err SymlinkEscape
      else if negb (is_dir n) then Err MissingPath
      else
        canonical ← map_err (λ _, MissingPath) (canonicalize m current);
        Ok (canonical ++ missing_components)
  | Err NotFound =>
      match current_rev with
      | name :: above =>
          if decide (name = ROOT ∨ name = CURRENT ∨ name = PARENT) then Err MissingPath
          else missing_write_loop above (name :: missing_components)
      | [] => Err MissingPath
      end
  | Err _ => Err MissingPath
  end.
Definition resolve_missing_write_path (absolute_path : list text) : result FilePolicyDenyReason (list text) :=
  missing_write_loop (reverse absolute_path) [].
Fixpoint write_anchor_loop (current_rev : list text) (is_destination : bool) : result FilePolicyDenyReason (list text) :=
  let current := reverse current_rev in
  let up :=
    match current_rev with
    | name :: above => if decide (name = ROOT) then Err MissingPath else write_anchor_loop above false
    | [] => Err MissingPath
    end in
  match symlink_metadata m current with
  | Ok (_, n) =>
      if is_symlink n then Err SymlinkEscape
      else if is_dir n then map_err (λ _, InvalidRoot) (canonicalize m current)
      else if negb is_destination then Err MissingPath
      else up
  | Err NotFound => up
  | Err _ => Err MissingPath
  end.
Definition resolve_existing_write_anchor (resolved_destination : list text) : result FilePolicyDenyReason (list text) :=
  write_anchor_loop (reverse resolved_destination) true.
Definition capture_write (path : list text) : result FilePolicyDenyReason FilePolicyCapability :=
  anchor_path ← resolve_existing_write_anchor path;
  anchor_metadata ← map_err (λ _, InvalidRoot) (symlink_metadata m anchor_path);
  anchor ← map_err (λ _, InvalidRoot) (open_directory m anchor_path);
  actual ← map_err (λ _, InvalidRoot) (handle_metadata anchor);
  _ ← ensure (same_filesystem_object anchor_metadata actual) InvalidRoot;
  relative_path ← ok_or (path_strip_prefix anchor_path path) InvalidRoot;
  Ok {| target := None; canonical_target := None; anchor := anchor; anchor_path := anchor_path; relative_path := relative_path |}.
Definition capture_unchecked (operation : FilePolicyOperation) (path : list text) : result FilePolicyDenyReason FilePolicyCapability :=
  match operation with
  | Read => map_err (λ _, InvalidRoot) (capture_read path)
  | Write => capture_write path
  end.
Definition capability_open_regular_file (c : FilePolicyCapability) : io location :=
  match target c with
  | Some target => Ok target
  | None => open_regular_file_at m (anchor c) (relative_path c)
  end.
Definition capability_open_directory (c : FilePolicyCapability) : io location :=
  match target c with
  | Some target => metadata ← handle_metadata target; _ ← ensure (is_dir metadata.2) InvalidInput; Ok target
  | None => open_directory_at m (anchor c) (relative_path c)
  end.
Definition write_anchor (grant : FilePolicyGrant) : result FilePolicyDenyReason (list text) :=
  _ ← ensure (bool_decide (operation grant = Write)) InvalidRoot; Ok (anchor_path (capability grant)).

(** ** Checks *)

Definition absolute_requested_path (snapshot : SecuritySnapshot) (requested : text) : result FilePolicyDenyReason (list text) :=
  _ ← ensure (negb (bool_decide (requested = []))) EmptyPath;
  Ok (normalize_lexically (join (cwd snapshot) requested)).
Definition resolve_requested_path (operation : FilePolicyOperation) (absolute_path : list text) : result FilePolicyDenyReason (list text) :=
  match canonicalize m absolute_path with
  | Ok path => Ok path
  | Err NotFound =>
      match operation with Write => resolve_missing_write_path absolute_path | Read => Err MissingPath end
  | Err _ => Err MissingPath
  end.
Definition resolve_policy_root (operation : FilePolicyOperation) (absolute_root : list text) : result FilePolicyDenyReason (list text) :=
  match canonicalize m absolute_root with
  | Ok path => Ok path
  | Err error =>
      if decide (error = NotFound ∧ operation = Write) then resolve_missing_write_path absolute_root else Err InvalidRoot
  end.
Definition entry_root_path (snapshot : SecuritySnapshot) (entry : TurnFilesystemSandboxEntry) : option text :=
  match resolved_path entry with
  | Some path => Some path
  | None =>
      match entry_path entry with
      | Root => Some ROOT
      | CurrentWorkingDirectory | WorkspaceRoot => Some (cwd snapshot)
      | ExplicitPath path => Some path
      | SlashTmp | Tmpdir => Some (temp_dir m)
      | ProjectRoot _ _ | RuntimeHome => None
      end
  end.
Definition lexical_root (snapshot : SecuritySnapshot) (path : text) : list text := normalize_lexically (join (cwd snapshot) path).
Definition allowed_grant (operation : FilePolicyOperation) (requested resolved : list text) (matched_root : option (list text))
    (access : TurnFilesystemAccess) : FilePolicyDecision :=
  match capture_unchecked operation resolved with
  | Ok capability =>
      Allowed {| operation := operation; requested_path := requested; granted_path := resolved; matched_root := matched_root;
                 granted_access := access; capability := capability |}
  | Err reason => deny_for operation requested (Some resolved) reason
  end.
(** The variables of the loop over the entries. *)
Record scan := { usable_roots : N; literal_under_root : bool; read_only_match : option (list text); invalid_root : bool }.
#[export] Instance scan_fields : Fields scan := λ s,
  {| usable_roots := usable_roots s; literal_under_root := literal_under_root s; read_only_match := read_only_match s;
     invalid_root := invalid_root s |}.
(** The root and access that grant the operation, or what was seen. *)
Fixpoint check_entries (snapshot : SecuritySnapshot) (operation : FilePolicyOperation) (absolute_path resolved : list text)
    (entries : list TurnFilesystemSandboxEntry) (s : scan) : (list text * TurnFilesystemAccess) + scan :=
  match entries with
  | [] => inr s
  | entry :: entries =>
      let continue := check_entries snapshot operation absolute_path resolved entries in
      match entry_root_path snapshot entry with
      | None => continue (s <| invalid_root := true |>)
      | Some path =>
          let lexical_root_path := lexical_root snapshot path in
          match resolve_policy_root operation lexical_root_path with
          | Err _ => continue (s <| invalid_root := true |>)
          | Ok root_path =>
              let s := s <| usable_roots := usable_roots s + 1 |> in
              let s := if path_starts_with absolute_path lexical_root_path || path_starts_with absolute_path root_path
                       then s <| literal_under_root := true |> else s in
              if negb (path_starts_with resolved root_path) then continue s
              else if access_allows (access entry) operation then inl (root_path, access entry)
              else if decide (operation = Write ∧ access entry = ReadAccess) then continue (s <| read_only_match := Some root_path |>)
              else continue s
          end
      end
  end.
Definition check (snapshot : SecuritySnapshot) (operation : FilePolicyOperation) (requested : text) : FilePolicyDecision :=
  match absolute_requested_path snapshot requested with
  | Err reason => deny_for operation (components requested) None reason
  | Ok absolute_path =>
      match resolve_requested_path operation absolute_path with
      | Err reason => deny_for operation absolute_path None reason
      | Ok resolved =>
          if decide (kind (sandbox_files snapshot) = UnrestrictedFiles) then
            allowed_grant operation absolute_path resolved None WriteAccess
          else
            match check_entries snapshot operation absolute_path resolved (fs_entries (sandbox_files snapshot))
                    {| usable_roots := 0; literal_under_root := false; read_only_match := None; invalid_root := false |} with
            | inl (root, access) => allowed_grant operation absolute_path resolved (Some root) access
            | inr s =>
                let deny := deny_for operation absolute_path (Some resolved) in
                match read_only_match s with
                | Some _ => with_root (deny WriteRequiresWritableRoot)
                | None =>
                    if literal_under_root s then deny SymlinkEscape
                    else if decide (usable_roots s = 0) then deny (if invalid_root s then InvalidRoot else NoUsableRoots)
                    else deny OutsideAllowedRoots
                end
            end
      end
  end.
(** A [BTreeSet] of roots. *)
Definition allowed_roots (snapshot : SecuritySnapshot) (operation : FilePolicyOperation) : list (list text) :=
  if decide (kind (sandbox_files snapshot) = UnrestrictedFiles) then [normalize_lexically (cwd snapshot)]
  else
    ordered_elements id (list_to_set (omap (λ entry,
      if access_allows (access entry) operation then
        path ← entry_root_path snapshot entry;
        match resolve_policy_root operation (lexical_root snapshot path) with Ok root => Some root | Err _ => None end
      else None) (fs_entries (sandbox_files snapshot)))).
End policy.

(** ** What an entry covers *)

Section entries.
Context (m : machine) (snapshot : SecuritySnapshot) (operation : FilePolicyOperation).

(** The root of an entry as it is written and as it is resolved. *)
Definition entry_roots (entry : TurnFilesystemSandboxEntry) : option (list text * list text) :=
  path ← entry_root_path m snapshot entry;
  match resolve_policy_root m operation (lexical_root snapshot path) with
  | Ok root => Some (lexical_root snapshot path, root)
  | Err _ => None
  end.
Definition usable (entry : TurnFilesystemSandboxEntry) : bool := bool_decide (is_Some (entry_roots entry)).
(** The resolved path lies below the resolved root, *)
Definition covers (resolved : list text) (entry : TurnFilesystemSandboxEntry) : bool :=
  match entry_roots entry with Some (_, root) => path_starts_with resolved root | None => false end.
(** the path as requested below the root as written or as resolved. *)
Definition names (absolute_path : list text) (entry : TurnFilesystemSandboxEntry) : bool :=
  match entry_roots entry with
  | Some (lexical, root) => path_starts_with absolute_path lexical || path_starts_with absolute_path root
  | None => false
  end.
Definition grants (resolved : list text) (entry : TurnFilesystemSandboxEntry) : bool :=
  covers resolved entry && access_allows (access entry) operation.
Definition read_only (resolved : list text) (entry : TurnFilesystemSandboxEntry) : bool :=
  covers resolved entry && bool_decide (operation = Write ∧ access entry = ReadAccess).

Lemma check_entries_cons absolute_path resolved e entries s :
  check_entries m snapshot operation absolute_path resolved (e :: entries) s =
  match entry_roots e with
  | None => check_entries m snapshot operation absolute_path resolved entries (s <| invalid_root := true |>)
  | Some (_, root) =>
      if grants resolved e then inl (root, access e)
      else
        check_entries m snapshot operation absolute_path resolved entries
          {| usable_roots := usable_roots s + 1; literal_under_root := literal_under_root s || names absolute_path e;
             read_only_match := if read_only resolved e then Some root else read_only_match s; invalid_root := invalid_root s |}
  end.
Proof.
  unfold grants, read_only, covers, names, entry_roots. cbn [check_entries].
  destruct (entry_root_path m snapshot e) as [path|]; [|done]. cbn [mbind option_bind].
  destruct (resolve_policy_root m operation (lexical_root snapshot path)) as [root|err]; [|done].
  destruct (path_starts_with absolute_path (lexical_root snapshot path) || path_starts_with absolute_path root);
    destruct (path_starts_with resolved root); cbn [negb andb]; rewrite ?orb_true_r, ?orb_false_r; try done;
    destruct (access_allows (access e) operation); try done;
    (case_decide as H; [rewrite bool_decide_true by done|rewrite bool_decide_false by done]); done.
Qed.
(** The loop grants the first entry it may, and otherwise has seen all of them. *)
Lemma check_entries_spec absolute_path resolved entries s :
  match check_entries m snapshot operation absolute_path resolved entries s with
  | inl (root, a) =>
      ∃ e lexical, e ∈ entries ∧ access e = a ∧ access_allows a operation = true ∧ entry_roots e = Some (lexical, root) ∧
        root `prefix_of` resolved
  | inr s' =>
      existsb (grants resolved) entries = false ∧
      usable_roots s' = usable_roots s + N.of_nat (length (filter (λ e, usable e = true) entries)) ∧
      literal_under_root s' = literal_under_root s || existsb (names absolute_path) entries ∧
      bool_decide (is_Some (read_only_match s')) = bool_decide (is_Some (read_only_match s)) || existsb (read_only resolved) entries ∧
      invalid_root s' = invalid_root s || existsb (λ e, negb (usable e)) entries
  end.
Proof.
  revert s. induction entries as [|e entries IH]; intros s; [cbn; rewrite !orb_false_r; split_and!; try done; lia|].
  rewrite check_entries_cons. cbn [existsb]. rewrite filter_cons.
  assert (usable e = bool_decide (is_Some (entry_roots e))) as Hu by done.
  destruct (entry_roots e) as [[lexical root]|] eqn:He.
  - rewrite bool_decide_true in Hu by eauto. destruct (grants resolved e) eqn:Hg.
    + unfold grants, covers in Hg. rewrite He in Hg. apply andb_true_iff in Hg as [Hp Ha]. apply path_starts_with_spec in Hp.
      exists e, lexical. split; [left|]. auto.
    + match goal with |- context [check_entries _ _ _ _ _ _ ?s1] => specialize (IH s1); destruct (check_entries m snapshot operation absolute_path resolved entries s1) as [[r a]|s'] end.
      * destruct IH as (e' & l' & Hin & H). exists e', l'. split; [by right|done].
      * destruct IH as (H1 & H2 & H3 & H4 & H5). cbn in *. rewrite Hu, H3, H5, <-orb_assoc. split_and!; [done| |done| |done].
        -- rewrite decide_True by done. cbn. lia.
        -- rewrite H4. destruct (read_only resolved e); [|done]. rewrite bool_decide_true by eauto. by rewrite orb_true_r.
  - rewrite bool_decide_false in Hu by (by intros [? ?]).
    assert (grants resolved e = false ∧ names absolute_path e = false ∧ read_only resolved e = false) as (-> & -> & ->).
    { unfold grants, names, read_only, covers. by rewrite He. }
    specialize (IH (s <| invalid_root := true |>)). destruct (check_entries _ _ _ _ _ _ _) as [[r a]|s'].
    + destruct IH as (e' & l' & Hin & H). exists e', l'. split; [by right|done].
    + destruct IH as (H1 & H2 & H3 & H4 & H5). cbn in *. rewrite Hu, H5, orb_true_r. rewrite decide_False by done. split_and!; done.
Qed.
Lemma grants_true resolved e :
  grants resolved e = true ↔
  access_allows (access e) operation = true ∧ ∃ lexical root, entry_roots e = Some (lexical, root) ∧ root `prefix_of` resolved.
Proof.
  unfold grants, covers. rewrite andb_true_iff. destruct (entry_roots e) as [[lexical root]|]; [rewrite path_starts_with_spec|]; naive_solver.
Qed.
End entries.

(** ** What a capability holds *)

Section captures.
Context (to_lowercase : text → text) (m : machine) (Hm : machine_ok m).

Lemma normalize_absolute_plain l : Forall plain l → normalize_absolute_path (ROOT :: l) = Ok (ROOT :: l).
Proof.
  intros Hl. unfold normalize_absolute_path.
  match goal with |- context [foldlM ?f [] _] => set (push := f) end.
  assert (∀ acc, foldlM push acc l = Ok (acc ++ l)) as Hpush.
  { induction Hl as [|c l Hc Hl IH]; intros acc; cbn [foldlM]; [by rewrite app_nil_r|].
    assert (push acc c = Ok (acc ++ [c])) as ->.
    { unfold push. pose proof (plain_not_root c Hc) as Hr. destruct Hc as (_ & ? & ? & _). by rewrite !decide_False by done. }
    cbn [mbind result_bind]. by rewrite IH, <-app_assoc. }
  cbn [foldlM]. assert (push [] ROOT = Ok [ROOT]) as -> by done. cbn [mbind result_bind]. rewrite Hpush. done.
Qed.
Lemma from_authorized_ok l rel role expectation :
  Forall plain (l ++ rel) → ∃ t, from_authorized_path to_lowercase m (ROOT :: l) (ROOT :: l ++ rel) role expectation = Ok t.
Proof.
  intros Hall. pose proof Hall as [Hl Hrel]%Forall_app. unfold from_authorized_path, normalize_absolute_root.
  rewrite bool_decide_true by done. cbn [ensure mbind result_bind]. rewrite !normalize_absolute_plain by done. cbn [mbind result_bind].
  rewrite (proj2 (path_strip_prefix_Some (ROOT :: l) (ROOT :: l ++ rel) rel)) by done. eexists. done.
Qed.
Lemma names_plain l : Forall (file_name_ok m) l → Forall plain l.
Proof. intros H. eapply Forall_impl; [exact H|]. by intros c [? _]. Qed.
Lemma same_object x : same_filesystem_object x x = true.
Proof. unfold same_filesystem_object. by rewrite !bool_decide_true. Qed.
(** The process may read the object at a location, and reach it by listing. *)
Definition readable (l : location) : Prop :=
  is_kind m is_dir l = true ∧ listable_to m l ∨
  nodes m !! l = Some (Regular true) ∧ ∀ k, k `prefix_of` l → k ≠ l → listable m k.
Lemma parent_names l c : plain c → parent (ROOT :: l ++ [c]) = Some (ROOT :: l).
Proof. intros Hc. rewrite app_comm_cons. apply parent_snoc. by apply plain_not_root. Qed.
Lemma snoc_prefix_ne (k l : location) c : k `prefix_of` l → k ≠ l ++ [c].
Proof. intros Hk ->. apply prefix_length in Hk. rewrite length_app in Hk. cbn in Hk. lia. Qed.

(** Capturing a canonical location for reading opens that very object. *)
Lemma capture_read_sound l c :
  canonical m l → capture_read to_lowercase m (ROOT :: l) = Ok c →
  readable l ∧ target c = Some l ∧ ROOT :: l = anchor_path c ++ relative_path c ∧ anchor_path c = ROOT :: anchor c ∧
  canonical m (anchor c).
Proof.
  intros Hl. destruct (symlink_metadata_canonical m l Hm Hl) as (n & Hn & Hsym & Hmeta).
  assert (Forall (file_name_ok m) l) as Hok by (apply names_at; eauto).
  unfold capture_read. rewrite Hmeta. cbn [mbind result_bind fst snd]. intros Hc.
  destruct (is_dir n) eqn:Hd; [|destruct (is_file n) eqn:Hf].
  - simplify_result. cbn. apply open_directory_Ok in Hr as (-> & Hdirs & Hlist); [|done].
    apply open_directory_Ok in Hr2 as (-> & _); [|done].
    rewrite (proj2 (path_strip_prefix_Some (ROOT :: l) (ROOT :: l) [])) by (by rewrite app_nil_r). cbn. rewrite app_nil_r.
    split; [|done]. left. split; [|done]. unfold is_kind. by rewrite Hn.
  - simplify_result. cbn. apply open_regular_file_Ok in Hr as (-> & Hne & Hdirs & Hlist & Hreg); [|done].
    destruct (last_ne_nil l Hne) as (l' & x & ->). apply Forall_app in Hok as [Hl' [Hx _]%Forall_cons].
    rewrite parent_names in Hr2 by apply Hx. injection Hr2 as <-. apply open_directory_Ok in Hr3 as (-> & Hd' & _); [|done].
    rewrite (proj2 (path_strip_prefix_Some (ROOT :: l') (ROOT :: l' ++ [x]) [x])) by done. cbn.
    split; [by right|]. split_and!; try done. apply dirs_to_snoc in Hdirs as [Hd'' [r Hr]%search_Ok]. split; [done|]. eauto.
  - simplify_result.
Qed.
Lemma capture_read_complete l :
  canonical m l → readable l → ∃ c, capture_read to_lowercase m (ROOT :: l) = Ok c.
Proof.
  intros Hl Hread. destruct (symlink_metadata_canonical m l Hm Hl) as (n & Hn & Hsym & Hmeta).
  assert (Forall (file_name_ok m) l) as Hok by (apply names_at; eauto). pose proof (names_plain l Hok) as Hplain.
  unfold capture_read, handle_metadata. rewrite Hmeta. cbn [mbind result_bind fst snd]. destruct Hread as [[Hd Hlist]|[Hreg Hlist]].
  - unfold is_kind in Hd. rewrite Hn in Hd. rewrite Hd.
    rewrite (proj2 (open_directory_Ok m l l Hok)) by (split_and!; [done|apply Hl|done]). cbn [mbind result_bind].
    rewrite Hn. cbn [ok_or mbind result_bind]. rewrite same_object. cbn [ensure mbind result_bind].
    rewrite (proj2 (open_directory_Ok m l l Hok)) by (split_and!; [done|apply Hl|done]). cbn [mbind result_bind].
    destruct (from_authorized_ok l [] Source ParentDirectory) as [t Ht]; [by rewrite app_nil_r|]. rewrite app_nil_r in Ht. rewrite Ht. eauto.
  - assert (l ≠ []) as Hne.
    { intros ->. pose proof (ok_root m Hm) as H. unfold is_kind in H. by rewrite Hreg in H. }
    rewrite Hreg in Hn. injection Hn as <-. cbn [is_dir is_file].
    rewrite (proj2 (open_regular_file_Ok m l l Hok)) by (split_and!; [done|done|apply Hl|done|done]). cbn [mbind result_bind].
    rewrite Hreg. cbn [ok_or mbind result_bind]. rewrite same_object. cbn [ensure mbind result_bind].
    destruct (last_ne_nil l Hne) as (l' & x & ->). pose proof Hok as [Hl' [Hx _]%Forall_cons]%Forall_app.
    rewrite parent_names by apply Hx. cbn [ok_or mbind result_bind]. destruct Hl as [[Hd Hs]%dirs_to_snoc _].
    rewrite (proj2 (open_directory_Ok m l' l' Hl')).
    + cbn [mbind result_bind]. destruct (from_authorized_ok l' [x] Source ExistingRegular) as [t Ht]; [done|]. rewrite Ht. eauto.
    + split_and!; [done|done|]. intros k Hk. apply Hlist; [by apply prefix_app_r|by apply snoc_prefix_ne].
Qed.

(** A canonical location and names below it that are not there yet. *)
Record future (l : location) (missing : list text) : Prop := {
  future_canonical : canonical m l;
  future_plain : Forall plain missing;
  future_nul : Forall (λ c, 0 ∉ c) missing;
  future_missing : ∀ c rest, missing = c :: rest →
    is_kind m is_dir l = true ∧ search m l = Ok () ∧ too_long m c = false ∧ nodes m !! (l ++ [c]) = None;
}.
Lemma future_nil l : canonical m l → future l [].
Proof. intros Hl. by split. Qed.

(** The loop over the ancestors of a missing path ends at a directory below which
    nothing of the rest exists. *)
Lemma missing_write_loop_sound current_rev missing r :
  Forall (λ c, c = ROOT ∨ plain c) current_rev → Forall (λ c, 0 ∉ c) current_rev → Forall plain missing → Forall (λ c, 0 ∉ c) missing →
  (∀ c rest, missing = c :: rest → symlink_metadata m (reverse current_rev ++ [c]) = Err NotFound) →
  missing_write_loop m current_rev missing = Ok r → ∃ l missing', r = ROOT :: l ++ missing' ∧ future l missing'.
Proof.
  revert missing. induction current_rev as [|name above IH]; intros missing Hcur Hnul Hmiss Hmnul Hlast; cbn [missing_write_loop];
    destruct (symlink_metadata m _) as [[here n]|e] eqn:Hmeta; try done.
  1: by destruct e.
  - destruct (is_symlink n) eqn:Hsym; [done|]. destruct (is_dir n) eqn:Hdir; [|done]. cbn [negb].
    destruct (canonicalize m (reverse (name :: above))) as [can|] eqn:Hcan; [|done]. intros [= <-].
    destruct (canonicalize_sound m _ _ Hm Hcan) as (l & -> & Hl & Hok). exists l, missing. split; [done|]. split; [done..|].
    intros c rest ->. apply Forall_cons in Hmiss as [Hc _]. apply Forall_cons in Hmnul as [H0 _].
    assert (is_kind m is_dir l = true) as Hk.
    { destruct (canonicalize_metadata m _ l here n Hcan Hmeta Hsym) as [-> Hn]. unfold is_kind. by rewrite Hn. }
    split; [done|]. apply (symlink_metadata_below m (reverse (name :: above))); try done.
    + intros Hnil. apply (f_equal length) in Hnil. by rewrite length_reverse in Hnil.
    + by apply (Hlast c rest).
  - destruct e; try done. case_decide as Hname; [done|]. intros Hr.
    apply Forall_cons in Hcur as [[->|Hplain] Hcur]; [by destruct Hname; left|]. apply Forall_cons in Hnul as [H0 Hnul].
    apply (IH (name :: missing)); try done; [by constructor..|]. intros c rest [= <- <-]. by rewrite <-reverse_cons.
Qed.
Lemma normal_pieces path : normal path → Forall (λ c, c = ROOT ∨ plain c) path.
Proof.
  intros (rest & [->| ->] & Hrest); [constructor; [by left|]|]; (eapply Forall_impl; [exact Hrest|]); by right.
Qed.
Lemma not_found_no_nul path : canonicalize m path = Err NotFound → Forall (λ c, 0 ∉ c) path.
Proof.
  unfold canonicalize, resolve_path. destruct (forallb (λ c, negb (nul c)) path) eqn:Hnul; [|done]. intros _.
  rewrite forallb_forall in Hnul. apply Forall_forall. intros c Hc%list_elem_of_In. specialize (Hnul c Hc).
  unfold nul in Hnul. by apply negb_true_iff, bool_decide_eq_false in Hnul.
Qed.
Lemma resolve_missing_sound path r :
  normal path → canonicalize m path = Err NotFound → resolve_missing_write_path m path = Ok r →
  ∃ l missing, r = ROOT :: l ++ missing ∧ future l missing.
Proof.
  intros Hn Hcan Hr. apply (missing_write_loop_sound (reverse path) [] r); try done.
  - apply Forall_reverse, normal_pieces, Hn.
  - apply Forall_reverse, not_found_no_nul, Hcan.
Qed.
(** What a request or a root resolves to. *)
Lemma resolve_requested_sound operation path r :
  normal path → resolve_requested_path m operation path = Ok r →
  ∃ l missing, r = ROOT :: l ++ missing ∧ future l missing ∧ (operation = Read → missing = [] ∧ canonicalize m path = Ok r).
Proof.
  intros Hn. unfold resolve_requested_path. destruct (canonicalize m path) as [p|e] eqn:Hcan.
  - intros [= <-]. destruct (canonicalize_sound m _ _ Hm Hcan) as (l & -> & Hl & _). exists l, [].
    split; [by rewrite app_nil_r|]. split; [by apply future_nil|done].
  - destruct e; try done. destruct operation; [done|]. intros Hr.
    destruct (resolve_missing_sound path r Hn Hcan Hr) as (l & missing & -> & Hf). by exists l, missing.
Qed.

(** The directory from which a destination is written: itself or the one above. *)
Definition anchor_of (l : location) : location := if is_kind m is_dir l then l else pop l.
Lemma future_metadata l missing k :
  future l missing → k `prefix_of` missing → k ≠ [] → symlink_metadata m (ROOT :: l ++ k) = Err NotFound.
Proof.
  intros [Hl Hp Hnul Hmiss] Hk Hne. destruct k as [|c k]; [done|]. destruct Hk as [rest ->]. destruct (Hmiss c (k ++ rest) eq_refl) as (_ & Hs & Hlong & Hn).
  apply Forall_cons in Hp as [Hc _]. apply symlink_metadata_missing; try done.
  by apply Forall_app in Hnul as [? _].
Qed.
Lemma anchor_of_canonical l : canonical m l → canonical m (anchor_of l) ∧ is_kind m is_dir (anchor_of l) = true ∧ anchor_of l `prefix_of` l.
Proof.
  intros Hl. unfold anchor_of. destruct (is_kind m is_dir l) eqn:Hk; [by split_and!|]. split; [by apply canonical_pop|].
  destruct l as [|c l _] using rev_ind.
  - pose proof (ok_root m Hm). congruence.
  - rewrite pop_snoc. destruct Hl as [[_ [r Hr]%search_Ok]%dirs_to_snoc _]. split; [unfold is_kind; by rewrite Hr|by exists [c]].
Qed.
Lemma write_anchor_canonical l is_destination :
  canonical m l → is_destination = true ∨ is_kind m is_dir l = true →
  write_anchor_loop m (reverse (ROOT :: l)) is_destination = Ok (ROOT :: anchor_of l).
Proof.
  intros Hl Hd. destruct (symlink_metadata_canonical m l Hm Hl) as (n & Hn & Hsym & Hmeta).
  assert (∀ l b, canonical m l → is_kind m is_dir l = true → write_anchor_loop m (reverse (ROOT :: l)) b = Ok (ROOT :: l)) as Hdir.
  { clear -Hm. intros l b Hl Hk. destruct (symlink_metadata_canonical m l Hm Hl) as (n & Hn & Hsym & Hmeta).
    unfold is_kind in Hk. rewrite Hn in Hk. rewrite reverse_cons. destruct (reverse l ++ [ROOT]) as [|x above] eqn:Hrev; [by apply app_nil in Hrev as [_ ?]|].
    cbn [write_anchor_loop]. rewrite <-Hrev, reverse_app, reverse_involutive. change (reverse [ROOT] ++ l) with (ROOT :: l).
    rewrite Hmeta, Hsym, Hk. by rewrite canonicalize_canonical. }
  destruct (is_kind m is_dir l) eqn:Hk; [unfold anchor_of; rewrite Hk; by apply Hdir|].
  destruct Hd as [->|?]; [|done]. destruct (anchor_of_canonical l Hl) as (Ha & Hak & _). unfold anchor_of in *. rewrite Hk in *.
  destruct l as [|c l _] using rev_ind; [pose proof (ok_root m Hm); congruence|]. rewrite pop_snoc in *.
  assert (Forall (file_name_ok m) (l ++ [c])) as [_ [[Hplain _] _]%Forall_cons]%Forall_app by (apply names_at; eauto).
  rewrite app_comm_cons, reverse_snoc. cbn [write_anchor_loop]. rewrite <-reverse_snoc, reverse_involutive, <-app_comm_cons.
  unfold is_kind in Hk. rewrite Hn in Hk. rewrite Hmeta, Hsym, Hk. cbn [negb]. rewrite decide_False by (by apply plain_not_root).
  by apply Hdir.
Qed.
Lemma write_anchor_spec l missing :
  future l missing → resolve_existing_write_anchor m (ROOT :: l ++ missing) = Ok (ROOT :: anchor_of l).
Proof.
  intros Hf. unfold resolve_existing_write_anchor.
  assert (∀ k b, k `prefix_of` missing → k ≠ [] → write_anchor_loop m (reverse (ROOT :: l ++ k)) b = write_anchor_loop m (reverse (ROOT :: l)) false) as Hup.
  { induction k as [|c k IH] using rev_ind; [done|]. intros b Hk _. pose proof (future_metadata l missing _ Hf Hk ltac:(by destruct k)) as Hmeta.
    rewrite app_assoc, app_comm_cons, reverse_snoc. cbn [write_anchor_loop]. rewrite <-reverse_snoc, reverse_involutive, <-app_comm_cons, <-app_assoc, Hmeta.
    assert (plain c) as Hc.
    { destruct Hk as [rest ->]. destruct Hf as [_ Hp _ _]. by apply Forall_app in Hp as [[_ [Hc _]%Forall_cons]%Forall_app _]. }
    rewrite decide_False by (by apply plain_not_root). destruct k as [|x k]; [by rewrite app_nil_r|].
    apply IH; [|done]. etrans; [|exact Hk]. by exists [c]. }
  destruct missing as [|c missing].
  - rewrite app_nil_r. apply write_anchor_canonical; [apply Hf|by left].
  - rewrite Hup by done. destruct (future_missing l _ Hf c missing eq_refl) as (Hk & _). apply write_anchor_canonical; [apply Hf|by right].
Qed.
(** A destination is captured exactly when its anchor can be opened. *)
Lemma capture_write_spec l missing c :
  future l missing →
  capture_write m (ROOT :: l ++ missing) = Ok c ↔
  listable_to m (anchor_of l) ∧
  c = {| target := None; canonical_target := None; anchor := anchor_of l; anchor_path := ROOT :: anchor_of l;
         relative_path := drop (length (anchor_of l)) (l ++ missing) |}.
Proof.
  intros Hf. destruct (anchor_of_canonical l (future_canonical l _ Hf)) as (Ha & _ & [rest Hrest]).
  unfold capture_write. rewrite write_anchor_spec by done. cbn [mbind result_bind].
  destruct (symlink_metadata_canonical m _ Hm Ha) as (n & Hn & _ & Hmeta). rewrite Hmeta. cbn [map_err mbind result_bind].
  assert (Forall (file_name_ok m) (anchor_of l)) as Hok by (apply names_at; eauto).
  assert (l ++ missing = anchor_of l ++ rest ++ missing) as Heq by (by rewrite app_assoc, <-Hrest).
  rewrite Heq, drop_app_length. unfold handle_metadata. rewrite bind_Ok. setoid_rewrite map_err_Ok. setoid_rewrite (open_directory_Ok m _ _ Hok). split.
  - intros (h & (-> & _ & Hlist) & H). rewrite Hn in H. cbn [ok_or mbind result_bind map_err] in H. rewrite same_object in H. cbn [ensure mbind result_bind] in H.
    rewrite (proj2 (path_strip_prefix_Some (ROOT :: anchor_of l) (ROOT :: anchor_of l ++ rest ++ missing) (rest ++ missing))) in H by done.
    cbn [ok_or mbind result_bind] in H. by injection H as <-.
  - intros [Hlist ->]. exists (anchor_of l). split; [split_and!; [done|apply Ha|done]|]. rewrite Hn. cbn [ok_or mbind result_bind map_err].
    rewrite same_object. cbn [ensure mbind result_bind].
    by rewrite (proj2 (path_strip_prefix_Some (ROOT :: anchor_of l) (ROOT :: anchor_of l ++ rest ++ missing) (rest ++ missing))).
Qed.
End captures.

(** ** Properties *)

Section properties.
Context (to_lowercase : text → text) (m : machine) (snapshot : SecuritySnapshot).
Implicit Types (requested : text) (operation : FilePolicyOperation) (g : FilePolicyGrant) (e : TurnFilesystemSandboxEntry).
Let entries := fs_entries (sandbox_files snapshot).

(** What [check] answers once the path is resolved. *)
Lemma check_resolved operation requested resolved :
  kind (sandbox_files snapshot) = RestrictedFiles → requested ≠ [] →
  resolve_requested_path m operation (lexical_root snapshot requested) = Ok resolved →
  (∃ e lexical root, e ∈ entries ∧ access_allows (access e) operation = true ∧ entry_roots m snapshot operation e = Some (lexical, root) ∧
     root `prefix_of` resolved ∧
     check to_lowercase m snapshot operation requested =
     allowed_grant to_lowercase m operation (lexical_root snapshot requested) resolved (Some root) (access e)) ∨
  existsb (grants m snapshot operation resolved) entries = false ∧
  ∃ d, check to_lowercase m snapshot operation requested = Denied d ∧ denied_resolved d = Some resolved ∧
    reason d =
    if existsb (read_only m snapshot operation resolved) entries then WriteRequiresWritableRoot
    else if existsb (names m snapshot operation (lexical_root snapshot requested)) entries then SymlinkEscape
    else if existsb (usable m snapshot operation) entries then OutsideAllowedRoots
    else if decide (entries = []) then NoUsableRoots else InvalidRoot.
Proof.
  intros Hkind Hne Hres. unfold check, absolute_requested_path. rewrite bool_decide_false by done. cbn [negb ensure mbind result_bind].
  fold (lexical_root snapshot requested). rewrite Hres, Hkind. rewrite decide_False by done. fold entries.
  match goal with |- context [check_entries _ _ _ _ _ _ ?s0] =>
    pose proof (check_entries_spec m snapshot operation (lexical_root snapshot requested) resolved entries s0) as Hspec;
    destruct (check_entries m snapshot operation (lexical_root snapshot requested) resolved entries s0) as [[root a]|s'] end.
  - left. destruct Hspec as (e & lexical & He & <- & Ha & Hroots & Hp). exists e, lexical, root. auto.
  - right. destruct Hspec as (Hg & Hu & Hl & Hr & Hi). split; [done|]. cbn in Hu, Hl, Hi.
    assert (bool_decide (is_Some (read_only_match s')) = existsb (read_only m snapshot operation resolved) entries) as Hro by (rewrite Hr; by rewrite bool_decide_false by (by intros [? ?])).
    rewrite <-Hro, <-Hl. destruct (read_only_match s') as [r|]; [rewrite bool_decide_true by eauto|rewrite bool_decide_false by (by intros [? ?])].
    + eexists. split; [reflexivity|done].
    + destruct (literal_under_root s'); [eexists; split; [reflexivity|done]|]. rewrite Hu.
      destruct (existsb (usable m snapshot operation) entries) eqn:Hus.
      * rewrite decide_False; [eexists; split; [reflexivity|done]|]. apply existsb_elem in Hus as (e & He & Hus). intros H0.
        assert (e ∈ filter (λ e, usable m snapshot operation e = true) entries) as Hin by (by apply list_elem_of_filter).
        destruct (filter _ entries); [by apply elem_of_nil in Hin|cbn in H0; lia].
      * assert (filter (λ e, usable m snapshot operation e = true) entries = []) as Hnone.
        { destruct (filter _ entries) as [|e rest] eqn:Hf; [done|]. assert (e ∈ e :: rest) as Hin by left. rewrite <-Hf in Hin.
          apply list_elem_of_filter in Hin as [Hue He]. apply not_true_iff_false in Hus. destruct Hus. apply existsb_elem. by exists e. }
        rewrite Hnone, decide_True by done. rewrite Hi. eexists. split; [reflexivity|]. split; [done|]. cbn. clear -Hus.
        destruct entries as [|e rest]; [done|]. cbn in Hus |- *. apply orb_false_iff in Hus as [-> _]. done.
Qed.

(** C6: a grant is confined. It comes from an entry of the sandbox that allows the
    operation and whose resolved root contains the granted path. What is read was
    opened at the granted path, to which no link leads; what is written lies, along
    plain names of which none leads through a link, below a directory that was
    opened at its own canonical path. *)
Theorem file_grant_confined operation requested g :
  machine_ok m → kind (sandbox_files snapshot) = RestrictedFiles →
  check to_lowercase m snapshot operation requested = Allowed g →
  (∃ e lexical root, e ∈ entries ∧ granted_access g = access e ∧ access_allows (access e) operation = true ∧
     entry_roots m snapshot operation e = Some (lexical, root) ∧ matched_root g = Some root ∧ root `prefix_of` granted_path g) ∧
  let c := capability g in
  match operation with
  | Read => ∃ l, granted_path g = ROOT :: l ∧ target c = Some l ∧ canonical m l ∧ readable m l
  | Write =>
      granted_path g = ROOT :: anchor c ++ relative_path c ∧ canonical m (anchor c) ∧ is_kind m is_dir (anchor c) = true ∧
      Forall plain (relative_path c) ∧
      ∀ name rest, relative_path c = name :: rest →
        nodes m !! (anchor c ++ [name]) = None ∨
        rest = [] ∧ ∃ n, nodes m !! (anchor c ++ [name]) = Some n ∧ is_symlink n = false ∧ is_dir n = false
  end.
Proof.
  intros Hm Hkind Hcheck. assert (requested ≠ []) as Hne by (by intros ->).
  destruct (resolve_requested_path m operation (lexical_root snapshot requested)) as [resolved|err] eqn:Hres.
  2: { unfold check, absolute_requested_path in Hcheck. rewrite bool_decide_false in Hcheck by done. cbn [negb ensure mbind result_bind] in Hcheck.
       fold (lexical_root snapshot requested) in Hcheck. by rewrite Hres in Hcheck. }
  destruct (check_resolved operation requested resolved Hkind Hne Hres) as [(e & lexical & root & He & Ha & Hroots & Hp & Heq)|(_ & d & Heq & _)];
    rewrite Heq in Hcheck; [|done].
  unfold allowed_grant in Hcheck. destruct (capture_unchecked to_lowercase m operation resolved) as [c|] eqn:Hc; [|done]. injection Hcheck as <-. cbn.
  split; [by exists e, lexical, root|].
  destruct (resolve_requested_sound m Hm operation _ resolved (normalize_lexically_normal _) Hres) as (l & missing & -> & Hf & Hread).
  destruct operation; cbn in Hc.
  - destruct (Hread eq_refl) as [-> _]. rewrite app_nil_r in *. apply map_err_Ok in Hc.
    destruct (capture_read_sound to_lowercase m Hm l c (future_canonical m l _ Hf) Hc) as (Hr & Ht & _). exists l. by split_and!; [..|apply Hf|].
  - apply (capture_write_spec m Hm l missing c Hf) in Hc as [_ ->]. cbn. pose proof (future_canonical m l _ Hf) as Hl.
    destruct (anchor_of_canonical m Hm l Hl) as (Hac & Hak & _). unfold anchor_of in *.
    destruct (is_kind m is_dir l) eqn:Hk.
    + rewrite drop_app_length. split_and!; [done..|apply Hf|]. intros name rest ->. left. by destruct (future_missing m l _ Hf name rest eq_refl) as (_ & _ & _ & ?).
    + assert (missing = []) as -> by (destruct missing as [|c rest]; [done|]; destruct (future_missing m l _ Hf c rest eq_refl) as (? & _); congruence).
      rewrite app_nil_r in *. destruct l as [|x l _] using rev_ind; [pose proof (ok_root m Hm); congruence|]. rewrite pop_snoc in *. rewrite drop_app_length.
      destruct Hl as [_ (n & Hn & Hsym)]. pose proof (ok_names m Hm _ n Hn) as [_ [[Hx _] _]%Forall_cons]%Forall_app.
      split_and!; [done..|by constructor|]. intros name rest [= <- <-]. right. split; [done|]. exists n. split_and!; [done..|].
      unfold is_kind in Hk. by rewrite Hn in Hk.
Qed.

(** reading is granted exactly when the sandbox and the file system allow it:
    the requested path leads somewhere, the process can reach and read the regular
    file or directory there, and some entry with access has a root that contains it. *)
Theorem file_read_exact requested :
  machine_ok m → kind (sandbox_files snapshot) = RestrictedFiles →
  (∃ g, check to_lowercase m snapshot Read requested = Allowed g) ↔
  requested ≠ [] ∧ ∃ l, canonicalize m (lexical_root snapshot requested) = Ok (ROOT :: l) ∧ readable m l ∧
    ∃ e lexical root, e ∈ entries ∧ access e ≠ NoAccess ∧ entry_roots m snapshot Read e = Some (lexical, root) ∧ root `prefix_of` ROOT :: l.
Proof.
  intros Hm Hkind. assert (∀ e, access_allows (access e) Read = true ↔ access e ≠ NoAccess) as Hallow by (intros e; by destruct (access e)). split.
  - intros [g Hg]. destruct (file_grant_confined Read requested g Hm Hkind Hg) as [(e & lexical & root & He & _ & Ha & Hroots & _ & Hp) (l & Hpath & _ & Hl & Hr)].
    split; [by intros ->|]. exists l. rewrite Hpath in Hp. split; [|split; [done|]; exists e, lexical, root; by rewrite <-Hallow].
    assert (requested ≠ []) as Hne by (by intros ->). unfold check, absolute_requested_path in Hg. rewrite bool_decide_false in Hg by done.
    cbn [negb ensure mbind result_bind] in Hg. fold (lexical_root snapshot requested) in Hg. unfold resolve_requested_path in Hg.
    destruct (canonicalize m (lexical_root snapshot requested)) as [p|err]; [|by destruct err]. rewrite Hkind in Hg. cbn [decide] in Hg.
    rewrite decide_False in Hg by done. destruct (check_entries _ _ _ _ _ _ _) as [[root' a]|s'].
    + unfold allowed_grant in Hg. destruct (capture_unchecked _ _ _ _); [|done]. injection Hg as <-. by rewrite <-Hpath.
    + repeat case_match; done.
  - intros (Hne & l & Hcan & Hr & e & lexical & root & He & Ha & Hroots & Hp).
    assert (resolve_requested_path m Read (lexical_root snapshot requested) = Ok (ROOT :: l)) as Hres by (unfold resolve_requested_path; by rewrite Hcan).
    destruct (check_resolved Read requested (ROOT :: l) Hkind Hne Hres) as [(e' & lexical' & root' & _ & _ & _ & _ & ->)|(Hno & _)].
    + destruct (canonicalize_sound m _ _ Hm Hcan) as (l' & [= <-] & Hl & _).
      destruct (capture_read_complete to_lowercase m Hm l Hl Hr) as [c Hc]. unfold allowed_grant. cbn. rewrite Hc. cbn. eauto.
    + exfalso. apply not_true_iff_false in Hno. apply Hno, existsb_elem. exists e. split; [done|]. apply grants_true. split; [by apply Hallow|eauto].
Qed.

(** C17: writing is granted exactly when an entry with write access has a root that
    contains what the requested path resolves to, existing or not, and the process
    can open the directory from which it is written. *)
Theorem file_write_exact requested :
  machine_ok m → kind (sandbox_files snapshot) = RestrictedFiles →
  (∃ g, check to_lowercase m snapshot Write requested = Allowed g) ↔
  requested ≠ [] ∧ ∃ l missing, resolve_requested_path m Write (lexical_root snapshot requested) = Ok (ROOT :: l ++ missing) ∧
    future m l missing ∧ listable_to m (anchor_of m l) ∧
    ∃ e lexical root, e ∈ entries ∧ access e = WriteAccess ∧ entry_roots m snapshot Write e = Some (lexical, root) ∧
      root `prefix_of` ROOT :: l ++ missing.
Proof.
  intros Hm Hkind. assert (∀ e, access_allows (access e) Write = true ↔ access e = WriteAccess) as Hallow by (intros e; by destruct (access e)). split.
  - intros [g Hg]. assert (requested ≠ []) as Hne by (by intros ->). split; [done|].
    destruct (resolve_requested_path m Write (lexical_root snapshot requested)) as [resolved|err] eqn:Hres.
    2: { unfold check, absolute_requested_path in Hg. rewrite bool_decide_false in Hg by done. cbn [negb ensure mbind result_bind] in Hg.
         fold (lexical_root snapshot requested) in Hg. by rewrite Hres in Hg. }
    destruct (resolve_requested_sound m Hm Write _ resolved (normalize_lexically_normal _) Hres) as (l & missing & -> & Hf & _).
    destruct (check_resolved Write requested _ Hkind Hne Hres) as [(e & lexical & root & He & Ha & Hroots & Hp & Heq)|(_ & d & Heq & _)];
      rewrite Heq in Hg; [|done]. unfold allowed_grant, capture_unchecked in Hg.
    destruct (capture_write m (ROOT :: l ++ missing)) as [c|] eqn:Hc; [|done]. apply (capture_write_spec m Hm l missing c Hf) in Hc as [Hlist _].
    exists l, missing. split; [done|]. split; [done|]. split; [done|]. exists e, lexical, root. by rewrite <-Hallow.
  - intros (Hne & l & missing & Hres & Hf & Hlist & e & lexical & root & He & Ha & Hroots & Hp).
    destruct (check_resolved Write requested _ Hkind Hne Hres) as [(e' & lexical' & root' & _ & _ & _ & _ & ->)|(Hno & _)].
    + unfold allowed_grant, capture_unchecked. rewrite (proj2 (capture_write_spec m Hm l missing _ Hf) (conj Hlist eq_refl)). eauto.
    + exfalso. apply not_true_iff_false in Hno. apply Hno, existsb_elem. exists e. split; [done|]. apply grants_true. split; [by apply Hallow|eauto].
Qed.

(** a denial says why. A path that resolves but that no entry grants is refused
    as covered by a read-only root only if a read-only entry contains what it
    resolves to, as an escape if the path as requested lies below some root, as
    outside if there are other roots, and otherwise for the lack of roots. *)
Theorem file_deny_exact operation requested resolved :
  kind (sandbox_files snapshot) = RestrictedFiles → requested ≠ [] →
  resolve_requested_path m operation (lexical_root snapshot requested) = Ok resolved →
  (∀ e, e ∈ entries → grants m snapshot operation resolved e = false) →
  ∃ d, check to_lowercase m snapshot operation requested = Denied d ∧ denied_resolved d = Some resolved ∧
    reason d =
    if existsb (read_only m snapshot operation resolved) entries then WriteRequiresWritableRoot
    else if existsb (names m snapshot operation (lexical_root snapshot requested)) entries then SymlinkEscape
    else if existsb (usable m snapshot operation) entries then OutsideAllowedRoots
    else if decide (entries = []) then NoUsableRoots else InvalidRoot.
Proof.
  intros Hkind Hne Hres Hno. destruct (check_resolved operation requested resolved Hkind Hne Hres) as [(e & lexical & root & He & Ha & Hroots & Hp & _)|(_ & H)]; [|done].
  exfalso. specialize (Hno e He). apply not_true_iff_false in Hno. apply Hno, grants_true. split; [done|eauto].
Qed.
End properties.

Module SamplePolicy.
Import SampleTarget.
(** The workspace of [SampleTarget] may be read, its directory [a] written, and
    [/etc] neither. *)
Definition turn : SecuritySnapshot :=
  let parent := SampleDelegation.sample_parent in
  {| permission_profile := permission_profile parent; sandbox_mode := sandbox_mode parent; cwd := lit "/home/ws";
     sandbox_files := SampleDelegation.files
       [{| entry_path := CurrentWorkingDirectory; access := ReadAccess; provenance := Workspace; resolved_path := None |};
        SampleDelegation.at_root "/home/ws/a" WriteAccess; SampleDelegation.at_root "/etc" NoAccess];
     network := network parent; process := process parent; cap_files := cap_files parent; cap_network := cap_network parent;
     cap_process := cap_process parent |}.
Definition no_grant : FilePolicyGrant :=
  {| operation := Read; requested_path := []; granted_path := []; matched_root := None; granted_access := NoAccess;
     capability := {| target := None; canonical_target := None; anchor := []; anchor_path := []; relative_path := [] |} |}.
Definition grant_of (operation : FilePolicyOperation) (requested : string) : FilePolicyGrant :=
  match check id sample turn operation (lit requested) with Allowed g => g | Denied _ => no_grant end.
Definition outcome (operation : FilePolicyOperation) (requested : string) : text + FilePolicyDenyReason :=
  match check id sample turn operation (lit requested) with Allowed g => inl (display (granted_path g)) | Denied d => inr (reason d) end.
Example outcomes :
  (outcome Read "in/file", outcome Read "out/secret", outcome Write "a/new/deep", outcome Write "b", outcome Write "out/x", outcome Read "gone") =
  (inl (lit "/home/ws/a/file"), inr SymlinkEscape, inl (lit "/home/ws/a/new/deep"), inr WriteRequiresWritableRoot, inr SymlinkEscape, inr MissingPath).
Proof. vm_compute. reflexivity. Qed.
(** No link is crossed here: an entry without access is reported as an escape. *)
Example no_access_reported_as_escape : outcome Read "/etc/secret" = inr SymlinkEscape.
Proof. vm_compute. reflexivity. Qed.
Example anchored :
  let c := capability (grant_of Write "a/new/deep") in
  (display (anchor_path c), relative_path c, capability_open_regular_file sample (capability (grant_of Read "in/file"))) =
  (lit "/home/ws/a", [lit "new"; lit "deep"], Ok (ws ++ [lit "a"; lit "file"])).
Proof. vm_compute. reflexivity. Qed.
Example roots : display <$> allowed_roots sample turn Read = [lit "/home/ws"; lit "/home/ws/a"].
Proof. vm_compute. reflexivity. Qed.

Lemma file_grant_confined_witness :
  let g := grant_of Write "a/new/deep" in
  let c := capability g in
  (∃ e lexical root, e ∈ fs_entries (sandbox_files turn) ∧ granted_access g = access e ∧ access_allows (access e) Write = true ∧
     entry_roots sample turn Write e = Some (lexical, root) ∧ matched_root g = Some root ∧ root `prefix_of` granted_path g) ∧
  granted_path g = ROOT :: anchor c ++ relative_path c ∧ canonical sample (anchor c) ∧ is_kind sample is_dir (anchor c) = true ∧
  Forall plain (relative_path c) ∧
  ∀ name rest, relative_path c = name :: rest →
    nodes sample !! (anchor c ++ [name]) = None ∨
    rest = [] ∧ ∃ n, nodes sample !! (anchor c ++ [name]) = Some n ∧ is_symlink n = false ∧ is_dir n = false.
Proof.
  intros g c. apply (file_grant_confined id sample turn Write (lit "a/new/deep") g);
    [apply sample_ok|reflexivity|vm_compute; reflexivity].
Defined.
Lemma file_read_exact_witness :
  (∃ g, check id sample turn Read (lit "in/file") = Allowed g) ↔
  lit "in/file" ≠ [] ∧ ∃ l, canonicalize sample (lexical_root turn (lit "in/file")) = Ok (ROOT :: l) ∧ readable sample l ∧
    ∃ e lexical root, e ∈ fs_entries (sandbox_files turn) ∧ access e ≠ NoAccess ∧
      entry_roots sample turn Read e = Some (lexical, root) ∧ root `prefix_of` ROOT :: l.
Proof. apply (file_read_exact id sample turn (lit "in/file")); [apply sample_ok|reflexivity]. Defined.
Lemma file_write_exact_witness :
  (∃ g, check id sample turn Write (lit "a/new/deep") = Allowed g) ↔
  lit "a/new/deep" ≠ [] ∧ ∃ l missing, resolve_requested_path sample Write (lexical_root turn (lit "a/new/deep")) = Ok (ROOT :: l ++ missing) ∧
    future sample l missing ∧ listable_to sample (anchor_of sample l) ∧
    ∃ e lexical root, e ∈ fs_entries (sandbox_files turn) ∧ access e = WriteAccess ∧
      entry_roots sample turn Write e = Some (lexical, root) ∧ root `prefix_of` ROOT :: l ++ missing.
Proof. apply (file_write_exact id sample turn (lit "a/new/deep")); [apply sample_ok|reflexivity]. Defined.
Definition outside : list text := [ROOT; lit "etc"; lit "secret"].
Lemma file_deny_exact_witness :
  ∃ d, check id sample turn Read (lit "out/secret") = Denied d ∧ denied_resolved d = Some outside ∧
    reason d =
    if existsb (read_only sample turn Read outside) (fs_entries (sandbox_files turn)) then WriteRequiresWritableRoot
    else if existsb (names sample turn Read (lexical_root turn (lit "out/secret"))) (fs_entries (sandbox_files turn)) then SymlinkEscape
    else if existsb (usable sample turn Read) (fs_entries (sandbox_files turn)) then OutsideAllowedRoots
    else if decide (fs_entries (sandbox_files turn) = []) then NoUsableRoots else InvalidRoot.
Proof.
  apply (file_deny_exact id sample turn Read (lit "out/secret") outside); [reflexivity|discriminate|vm_compute; reflexivity|].
  apply Forall_forall. repeat apply Forall_cons_2; try apply Forall_nil; vm_compute; reflexivity.
Defined.
End SamplePolicy.
