(* ===== verification/ProcessSpawn.v ===== *)
(** * The plan a process is spawned with

    Models [build_process_spawn_plan] of [crates/tools/src/process_policy.rs], as it
    is built on Linux, from the rules of ProcessPolicy.v and the file policy, and
    [apply_process_spawn_plan_environment] of [handlers/shell.rs], which puts the
    environment of the plan to use. The creation of the private temporary directory
    (the [tempfile] library) is a parameter, as is the machine the check of the
    working directory looks at. The developer tools of macOS, which its plan adds to
    the environment, are left out. *)
From S2P Require Import Prelude TextSplit UnixPath NetworkPolicy ToolPermissions ProcessPolicy FileSystem FileTarget DelegatedSecurity FilePolicy.
Local Open Scope N_scope.

Inductive TurnTmpMode := Host | Isolated.
#[export] Instance TurnTmpMode_eq_dec : EqDecision TurnTmpMode.
Proof. solve_decision. Defined.
Record TurnTmpPolicy := { tmp_mode : TurnTmpMode; writable_roots : list text }.
(** The snapshot of a turn with the part of its sandbox on temporary files. *)
Record SandboxedTurn := { authority : SecuritySnapshot; tmp : TurnTmpPolicy }.
Record ExecCommandArgs := { command : option (list text); workdir : option text; timeout_request : option N }.
Record ProcessSpawnPlan := {
  plan_cwd : text; timeout_ms : N; inherit_environment : bool; plan_environment : env_map; removed_environment : list text;
  runtime_temp_dir : option text;
}.

Definition command_argv (args : ExecCommandArgs) : result ToolError (list text) :=
  command ← ok_or (command args) (InvalidArguments (lit "`command` argv is required"));
  _ ← ensure (negb (bool_decide (command = []))) (InvalidArguments (lit "`command` argv is required"));
  Ok command.
(** The paths of this file keep the leading [..] of a relative path. *)
Definition normalize_process_component (normalized : list text) (component : text) : list text :=
  if decide (component = CURRENT) then normalized
  else if decide (component = PARENT) then
    if decide (last normalized = Some ROOT) then normalized
    else if decide (normalized = []) then [PARENT] else pop normalized
  else if decide (component = ROOT) then [ROOT]
  else normalized ++ [component].
Definition normalize_process_path (path : text) : list text := foldl normalize_process_component [] (components path).
Definition resolve_process_cwd (base_dir : text) (requested : option text) : text :=
  match requested with
  | None => base_dir
  | Some requested => display (normalize_process_path (join base_dir requested))
  end.
Definition TEMP_VARS : list text := lit <$> ["TMPDIR"; "TEMP"; "TMP"]%string.
Definition rebind_temp (runtime_temp : text) (environment : env_map) : env_map :=
  foldl (λ environment key, <[key := runtime_temp]> environment) environment TEMP_VARS.
#[global] Arguments rebind_temp : simpl never.

(** [tempfile]: the directory made in a root or in the default place, or the
    error, as shown. *)
Section spawn.
Context (to_lowercase : text → text) (m : machine) (tempdir : option text → result text text).

Definition enforce_process_cwd (turn : SecuritySnapshot) (cwd : text) : result ToolError () :=
  match check to_lowercase m turn Read cwd with
  | Allowed _ => Ok ()
  | Denied deny =>
      Err (Rejected (lit "process policy denied cwd `" ++ display (denied_path deny) ++ lit "`: " ++ message deny))
  end.
Definition create_runtime_temp_dir (policy : TurnTmpPolicy) : result ToolError text :=
  map_err (λ error, ExecutionFailed (lit "failed to create isolated process temp directory: " ++ error))
    (tempdir (head (writable_roots policy))).
Definition build_process_spawn_plan (snapshot : option SandboxedTurn) (base_dir : text) (args : ExecCommandArgs)
    (invocation_environment host_environment : env_map) (default_timeout_ms : N) : result ToolError ProcessSpawnPlan :=
  command ← command_argv args;
  let cwd := resolve_process_cwd base_dir (workdir args) in
  snapshot ← ok_or snapshot (Rejected
    (lit "missing turn execution security snapshot; refusing to spawn process without resolved sandbox policy"));
  let turn := authority snapshot in
  _ ← enforce_process_policy (process turn) (effective_policy (permission_profile turn)) command;
  _ ← enforce_process_cwd turn cwd;
  let '(inherit_environment, environment, removed_environment) :=
    sanitize_environment (environment (process turn)) invocation_environment host_environment in
  '(environment, runtime_temp_dir) ←
    (if decide (tmp_mode (tmp snapshot) = Isolated) then
       runtime_temp ← create_runtime_temp_dir (tmp snapshot);
       Ok (rebind_temp runtime_temp environment, Some runtime_temp)
     else Ok (environment, None));
  Ok {| plan_cwd := cwd; timeout_ms := capped_timeout (timeout_request args) default_timeout_ms (process turn);
        inherit_environment := inherit_environment; plan_environment := environment;
        removed_environment := removed_environment; runtime_temp_dir := runtime_temp_dir |}.
End spawn.
(** [apply_process_spawn_plan_environment]: the environment of the process
    spawned from that of the host. *)
Definition spawned_environment (plan : ProcessSpawnPlan) (host : env_map) : env_map :=
  let base := if inherit_environment plan then host else ∅ in
  plan_environment plan ∪ foldl (λ env name, delete name env) base (removed_environment plan).

(** ** The environment *)




Section spec.
Context (to_lowercase : text → text) (m : machine) (tempdir : option text → result text text).
Abbreviation build := (build_process_spawn_plan to_lowercase m tempdir).



End spec.

Module SampleSpawn.
Import SamplePolicy SampleTarget.
Definition isolated : SandboxedTurn :=
  let full := unrestricted_process in
  let p := {| shell := shell full; environment := restricted_environment; max_duration_ms := 5000; command_risk := command_risk full |} in
  {| authority :=
       {| permission_profile := permission_profile turn; sandbox_mode := sandbox_mode turn; cwd := cwd turn; sandbox_files := sandbox_files turn;
          network := network turn; process := p; cap_files := cap_files turn; cap_network := cap_network turn;
          cap_process := cap_process turn |};
     tmp := {| tmp_mode := Isolated; writable_roots := [lit "/private"] |} |}.
Definition host : env_map :=
  {[lit "PATH" := lit "/bin"; lit "TMPDIR" := lit "/tmp"; lit "API_TOKEN" := lit "secret"; lit "EDITOR" := lit "vi"]}.
Definition call (workdir : option string) : ExecCommandArgs :=
  {| command := Some [lit "sh"; lit "-c"; lit "true"]; workdir := lit <$> workdir; timeout_request := Some 30000 |}.
Definition spawned (workdir : option string) :=
  build_process_spawn_plan id sample (λ root, Ok (default (lit "/tmp") root ++ lit "/pioneer-exec-1")) (Some isolated) (lit "/home/ws")
    (call workdir) ∅ host 60000.
(** The private directory replaces that of the host; the token and the editor do
    not reach the process; a directory outside the sandbox is refused. *)
Example isolated_process :
  (plan ← spawned (Some "a"%string);
   let seen := spawned_environment plan host in
   Ok (plan_cwd plan, timeout_ms plan, (λ name, seen !! lit name) <$> ["PATH"; "TMPDIR"; "TMP"; "API_TOKEN"; "EDITOR"]%string)) =
  Ok (lit "/home/ws/a", 5000,
      [Some (lit "/bin"); Some (lit "/private/pioneer-exec-1"); Some (lit "/private/pioneer-exec-1"); None; None]).
Proof. vm_compute. reflexivity. Qed.
Example outside_refused :
  (plan ← spawned (Some "../../etc"%string); Ok (plan_cwd plan)) =
  Err (Rejected (lit "process policy denied cwd `/etc`: filesystem path resolves outside an allowed root through a symlink")).
Proof. vm_compute. reflexivity. Qed.
End SampleSpawn.
