(* ===== verification/TextSnapshot.v ===== *)
(** * Snapshots of text files

    Models [TextSnapshot] of
    [crates/tools/src/apply_patch/file_mutation/snapshot.rs]: bytes held in
    memory and bytes streamed from a reader, chunk by chunk, become the same
    snapshot. SHA-256 is third-party code and a parameter; what the reader and
    the temporary file answer is an argument. [Utf8Error] is that of the
    standard library. *)
From S2P Require Import Prelude Utf8 PatchDocument PatchMatcher PatchGuards PatchPlanner.
Local Open Scope N_scope.

Record SnapshotLimits := { max_file_bytes : N; inline_threshold : N }.
Inductive SnapshotErrorCode :=
  | InvalidLimits | TooLarge | BinaryContent | SnapshotInvalidUtf8 | Io | SpoolUnavailable | SpoolCorrupt.
#[export] Instance SnapshotErrorCode_eq_dec : EqDecision SnapshotErrorCode.
Proof. solve_decision. Defined.

Definition validate (l : SnapshotLimits) : result SnapshotErrorCode () :=
  ensure (negb (bool_decide (max_file_bytes l = 0) || bool_decide (max_file_bytes l < inline_threshold l))) InvalidLimits.

Inductive SnapshotEncoding := Utf8Plain | Utf8Bom.
Inductive SnapshotLineEnding := EndLf | EndCrlf | EndMixed | EndNone.
Record SnapshotLineEndings := { dominant : SnapshotLineEnding; mixed : bool; final_newline : bool }.

(** ** Validation of UTF-8, as [core::str::from_utf8] reports it *)
Record Utf8Error := { valid_up_to : nat; error_len : option nat }.

Definition second_ok (b b1 : N) : bool :=
  if decide (b = 224) then bool_decide (160 ≤ b1 < 192)
  else if decide (b = 237) then bool_decide (128 ≤ b1 < 160)
  else if decide (b = 240) then bool_decide (144 ≤ b1 < 192)
  else if decide (b = 244) then bool_decide (128 ≤ b1 < 144)
  else continuation b1.

Definition cut (i : nat) : result Utf8Error () := Err {| valid_up_to := i; error_len := None |}.
Definition wrong (i n : nat) : result Utf8Error () := Err {| valid_up_to := i; error_len := Some n |}.

Fixpoint str_from_utf8 (i : nat) (bytes : list N) : result Utf8Error () :=
  match bytes with
  | [] => Ok ()
  | b :: r =>
      if decide (b < 128) then str_from_utf8 (S i) r
      else if decide (194 ≤ b < 224) then
        match r with
        | [] => cut i
        | b1 :: r => if continuation b1 then str_from_utf8 (S (S i)) r else wrong i 1
        end
      else if decide (224 ≤ b < 240) then
        match r with
        | [] => cut i
        | b1 :: r =>
            if second_ok b b1 then
              match r with
              | [] => cut i
              | b2 :: r => if continuation b2 then str_from_utf8 (S (S (S i))) r else wrong i 2
              end
            else wrong i 1
        end
      else if decide (240 ≤ b < 245) then
        match r with
        | [] => cut i
        | b1 :: r =>
            if second_ok b b1 then
              match r with
              | [] => cut i
              | b2 :: r =>
                  if continuation b2 then
                    match r with
                    | [] => cut i
                    | b3 :: r => if continuation b3 then str_from_utf8 (S (S (S (S i)))) r else wrong i 3
                    end
                  else wrong i 2
              end
            else wrong i 1
        end
      else wrong i 1
  end.

(** ** Reading into a snapshot *)
Inductive SnapshotStorage := Inline (bytes : list N) | Spooled (contents : result () (list N)).
Record TextSnapshot := {
  version : FileVersionToken;
  encoding : SnapshotEncoding;
  line_endings : SnapshotLineEndings;
  storage : SnapshotStorage;
}.

(** The temporary file: whether it can be created, takes the n-th chunk and is
    flushed, and what reading it back answers when these bytes were written. *)
Record spool := {
  spool_new : bool;
  spool_write : nat → bool;
  spool_sync : bool;
  spool_read : list N → result () (list N);
}.
(** What the reads of a reader answer, up to its end. *)
Abbreviation reader := (list (result () (list N))).

Definition strip_bom (bytes : list N) : list N := default bytes (strip_prefix bom_bytes bytes).

(** The loop of [inspect_text] over the bytes after a byte-order mark. *)
Fixpoint raw_endings (raw : list N) (lf crlf lone_cr : N) : N * N * N :=
  match raw with
  | [] => (lf, crlf, lone_cr)
  | c :: rest =>
      if decide (c = CR) then
        match rest with
        | d :: rest' => if decide (d = LF) then raw_endings rest' lf (crlf + 1) lone_cr else raw_endings rest lf crlf (lone_cr + 1)
        | [] => raw_endings rest lf crlf (lone_cr + 1)
        end
      else if decide (c = LF) then raw_endings rest (lf + 1) crlf lone_cr
      else raw_endings rest lf crlf lone_cr
  end.
Definition present (n : N) : N := if decide (0 < n) then 1 else 0.
Definition kinds (lf crlf lone_cr : N) : N := present lf + present crlf + present lone_cr.
Definition dominant_of (lf crlf lone_cr : N) : SnapshotLineEnding :=
  if decide (kinds lf crlf lone_cr = 0) then EndNone
  else if decide (lf ≤ crlf ∧ lone_cr ≤ crlf) then EndCrlf
  else if decide (lone_cr ≤ lf) then EndLf
  else EndMixed.
Definition ends_line (last_byte : option N) : bool := bool_decide (last_byte = Some LF ∨ last_byte = Some CR).

Record TextMetadata := { meta_encoding : SnapshotEncoding; meta_line_endings : SnapshotLineEndings }.
Definition inspect_text (bytes : list N) : result SnapshotErrorCode TextMetadata :=
  ensure (negb (bool_decide (0 ∈ bytes))) BinaryContent;;
  let raw := strip_bom bytes in
  match str_from_utf8 0 raw with
  | Err _ => Err SnapshotInvalidUtf8
  | Ok _ =>
      let '(lf, crlf, lone_cr) := raw_endings raw 0 0 0 in
      Ok {| meta_encoding := if has_bom bytes then Utf8Bom else Utf8Plain;
            meta_line_endings := {| dominant := dominant_of lf crlf lone_cr; mixed := bool_decide (1 < kinds lf crlf lone_cr);
                                    final_newline := ends_line (last raw) |} |}
  end.

Section snapshots.
(** The digest of the bytes a hasher was fed. *)
Context (digest : list N → list N) (file : spool).

Definition token_of (bytes : list N) : FileVersionToken :=
  {| token_digest := digest bytes; token_byte_len := N.of_nat (length bytes) |}.

Definition storage_for (bytes : list N) (threshold : N) : result SnapshotErrorCode SnapshotStorage :=
  if decide (N.of_nat (length bytes) ≤ threshold) then Ok (Inline bytes)
  else
    ensure (spool_new file) SpoolUnavailable;;
    ensure (spool_write file 0 && spool_sync file) Io;;
    Ok (Spooled (spool_read file bytes)).

Definition from_bytes (bytes : list N) (limits : SnapshotLimits) : result SnapshotErrorCode TextSnapshot :=
  validate limits;;
  ensure (bool_decide (N.of_nat (length bytes) ≤ max_file_bytes limits)) TooLarge;;
  metadata ← inspect_text bytes;
  stored ← storage_for bytes (inline_threshold limits);
  Ok {| version := token_of bytes; encoding := meta_encoding metadata; line_endings := meta_line_endings metadata;
        storage := stored |}.

(** What [from_reader] knows of the bytes it has read. *)
Record stream := {
  hashed : list N;
  stream_len : N;
  prefix : list N;
  last_byte : option N;
  previous_cr : bool;
  lf_count : N; crlf_count : N; lone_cr_count : N;
  utf8_tail : list N;
  has_nul : bool;
}.
Definition stream_start : stream :=
  {| hashed := []; stream_len := 0; prefix := []; last_byte := None; previous_cr := false;
     lf_count := 0; crlf_count := 0; lone_cr_count := 0; utf8_tail := []; has_nul := false |}.

Definition update_line_ending (s : bool * (N * N * N)) (byte : N) : bool * (N * N * N) :=
  let '(previous, (lf, crlf, lone_cr)) := s in
  if previous && bool_decide (byte = LF) then (false, (lf, crlf +₆₄ 1, lone_cr))
  else
    let lone_cr := if previous then lone_cr +₆₄ 1 else lone_cr in
    if decide (byte = CR) then (true, (lf, crlf, lone_cr))
    else if decide (byte = LF) then (false, (lf +₆₄ 1, crlf, lone_cr))
    else (false, (lf, crlf, lone_cr)).
Definition update_line_endings (chunk : list N) (s : bool * (N * N * N)) : bool * (N * N * N) :=
  foldl update_line_ending s chunk.

(** The new tail. *)
Definition validate_utf8_chunk (chunk tail : list N) : result SnapshotErrorCode (list N) :=
  let combined := tail ++ chunk in
  match str_from_utf8 0 combined with
  | Ok _ => Ok []
  | Err e => match error_len e with None => Ok (drop (valid_up_to e) combined) | Some _ => Err SnapshotInvalidUtf8 end
  end.

(** One turn of the loop, on the n-th chunk. *)
Definition read_chunk (limits : SnapshotLimits) (n : nat) (s : stream) (chunk : list N) : result SnapshotErrorCode stream :=
  let next_len := stream_len s +₆₄ N.of_nat (length chunk) in
  ensure (bool_decide (next_len ≤ max_file_bytes limits)) TooLarge;;
  ensure (spool_write file n) Io;;
  let '(previous, (lf, crlf, lone_cr)) :=
    update_line_endings chunk (previous_cr s, (lf_count s, crlf_count s, lone_cr_count s)) in
  tail ← validate_utf8_chunk chunk (utf8_tail s);
  Ok {| hashed := hashed s ++ chunk;
        stream_len := next_len;
        prefix := if decide (length (prefix s) < 3)%nat then prefix s ++ take (3 - length (prefix s)) chunk else prefix s;
        last_byte := match last chunk with Some b => Some b | None => last_byte s end;
        previous_cr := previous; lf_count := lf; crlf_count := crlf; lone_cr_count := lone_cr;
        utf8_tail := tail;
        has_nul := has_nul s || bool_decide (0 ∈ chunk) |}.

Fixpoint read_all (limits : SnapshotLimits) (n : nat) (s : stream) (r : reader) : result SnapshotErrorCode stream :=
  match r with
  | [] => Ok s
  | Err _ :: _ => Err Io
  | Ok [] :: _ => Ok s
  | Ok chunk :: r => s ← read_chunk limits n s chunk; read_all limits (S n) s r
  end.

Definition finish (limits : SnapshotLimits) (s : stream) : result SnapshotErrorCode TextSnapshot :=
  let lone_cr := if previous_cr s then lone_cr_count s +₆₄ 1 else lone_cr_count s in
  ensure (bool_decide (utf8_tail s = [])) SnapshotInvalidUtf8;;
  ensure (negb (has_nul s)) BinaryContent;;
  ensure (spool_sync file) Io;;
  stored ← (if decide (stream_len s ≤ inline_threshold limits) then
              match spool_read file (hashed s) with Ok bytes => Ok (Inline bytes) | Err _ => Err Io end
            else Ok (Spooled (spool_read file (hashed s))));
  Ok {| version := {| token_digest := digest (hashed s); token_byte_len := stream_len s |};
        encoding := if decide (prefix s = bom_bytes) then Utf8Bom else Utf8Plain;
        line_endings := {| dominant := dominant_of (lf_count s) (crlf_count s) lone_cr;
                           mixed := bool_decide (1 < kinds (lf_count s) (crlf_count s) lone_cr);
                           final_newline := ends_line (last_byte s) |};
        storage := stored |}.

Definition from_reader (r : reader) (limits : SnapshotLimits) : result SnapshotErrorCode TextSnapshot :=
  validate limits;;
  ensure (spool_new file) SpoolUnavailable;;
  s ← read_all limits 0 stream_start r;
  finish limits s.

Definition read_bytes (stored : SnapshotStorage) : result SnapshotErrorCode (list N) :=
  match stored with Inline bytes => Ok bytes | Spooled (Ok bytes) => Ok bytes | Spooled (Err _) => Err Io end.
Definition bytes_of (s : TextSnapshot) : result SnapshotErrorCode (list N) :=
  bytes ← read_bytes (storage s);
  ensure (bool_decide (token_of bytes = version s)) SpoolCorrupt;;
  Ok bytes.
Definition text_of (s : TextSnapshot) : result SnapshotErrorCode text :=
  bytes ← bytes_of s;
  ok_or (from_utf8 (strip_bom bytes)) SnapshotInvalidUtf8.
End snapshots.

(** ** Validating a text in pieces *)
Definition shift (i : nat) (v : result Utf8Error ()) : result Utf8Error () :=
  match v with Ok u => Ok u | Err e => Err {| valid_up_to := i + valid_up_to e; error_len := error_len e |} end.

(** The width of the character that starts with [b], or the [error_len]. *)
Definition next_char (b : N) (r : list N) : result (option nat) nat :=
  let follow (ok : N → bool) (n : nat) (r : list N) (k : list N → result (option nat) nat) :=
    match r with [] => Err None | c :: r => if ok c then k r else Err (Some n) end in
  if decide (b < 128) then Ok 1%nat
  else if decide (194 ≤ b < 224) then follow continuation 1%nat r (λ _, Ok 2%nat)
  else if decide (224 ≤ b < 240) then
    follow (second_ok b) 1%nat r (λ r, follow continuation 2%nat r (λ _, Ok 3%nat))
  else if decide (240 ≤ b < 245) then
    follow (second_ok b) 1%nat r (λ r, follow continuation 2%nat r (λ r, follow continuation 3%nat r (λ _, Ok 4%nat)))
  else Err (Some 1%nat).

Ltac by_chars := repeat first [case_decide | case_match; subst]; simpl in *.

Lemma str_from_utf8_cons i b r :
  str_from_utf8 i (b :: r) =
    match next_char b r with
    | Ok w => str_from_utf8 (i + w) (drop w (b :: r))
    | Err e => Err {| valid_up_to := i; error_len := e |}
    end.
Proof.
  cbn [str_from_utf8]. unfold next_char, cut, wrong. cbv zeta.
  by_chars; simplify_eq/=; try done; rewrite ?drop_0; do 2 f_equal; lia.
Qed.

Lemma next_char_width b r w : next_char b r = Ok w → (1 ≤ w ≤ S (length r))%nat.
Proof. unfold next_char. cbv zeta. by_chars; intros [= <-]; lia. Qed.

Lemma next_char_app b r c v : next_char b r = v → v ≠ Err None → next_char b (r ++ c) = v.
Proof. unfold next_char. cbv zeta. by_chars; intros <- ?; try done; simplify_eq/=; by_chars; congruence. Qed.

Lemma shift_shift i k v : shift i (shift k v) = shift (i + k) v.
Proof. destruct v; simpl; do 2 f_equal; lia. Qed.
Lemma shift_0 v : shift 0 v = v.
Proof. by destruct v as [|[]]. Qed.

Lemma shorter_ind (P : list N → Prop) :
  (∀ l, (∀ l', (length l' < length l)%nat → P l') → P l) → ∀ l, P l.
Proof.
  intros H l. remember (length l) as n eqn:Hn. revert l Hn.
  induction (lt_wf n) as [n _ IH]. intros l ->. apply H. intros l' Hl. by apply (IH _ Hl l').
Qed.

Lemma str_from_utf8_shift bytes i : str_from_utf8 i bytes = shift i (str_from_utf8 0 bytes).
Proof.
  revert i. induction bytes as [[|b r] IH] using shorter_ind; intros i; [done|].
  rewrite !str_from_utf8_cons. destruct (next_char b r) as [w|e] eqn:Hw; [|simpl; by rewrite Nat.add_0_r].
  apply next_char_width in Hw. assert (length (drop w (b :: r)) < length (b :: r))%nat as Hlt by (rewrite length_drop; simpl; lia).
  by rewrite (IH _ Hlt (i + w)%nat), (IH _ Hlt (0 + w)%nat), shift_shift.
Qed.

(** What scanning a beginning says about the whole. *)
Definition extends (a c : list N) : Prop :=
  match str_from_utf8 0 a with
  | Ok _ => str_from_utf8 0 (a ++ c) = shift (length a) (str_from_utf8 0 c)
  | Err e =>
      match error_len e with
      | None => (valid_up_to e < length a)%nat ∧
                str_from_utf8 0 (a ++ c) = shift (valid_up_to e) (str_from_utf8 0 (drop (valid_up_to e) a ++ c))
      | Some _ => str_from_utf8 0 (a ++ c) = Err e
      end
  end.
Lemma str_from_utf8_app a c : extends a c.
Proof.
  induction a as [[|b r] IH] using shorter_ind; unfold extends; [simpl; by rewrite shift_0|].
  destruct (next_char b r) as [w|[n|]] eqn:Hw.
  - pose proof (next_char_width _ _ _ Hw) as Hlen.
    assert (length (drop w (b :: r)) < length (b :: r))%nat as Hlt by (rewrite length_drop; simpl; lia).
    assert (str_from_utf8 0 (b :: r) = shift w (str_from_utf8 0 (drop w (b :: r)))) as ->
      by (rewrite str_from_utf8_cons, Hw; apply str_from_utf8_shift).
    assert (str_from_utf8 0 ((b :: r) ++ c) = shift w (str_from_utf8 0 (drop w (b :: r) ++ c))) as ->.
    { cbn [app]. rewrite str_from_utf8_cons, (next_char_app _ _ _ _ Hw) by done.
      rewrite str_from_utf8_shift. f_equal. change (b :: r ++ c) with ((b :: r) ++ c).
      by rewrite drop_app_le by (simpl; lia). }
    specialize (IH _ Hlt). unfold extends in IH. destruct (str_from_utf8 0 (drop w (b :: r))) as [u|[v [m|]]] eqn:Hv; simpl in IH |- *.
    + rewrite IH, shift_shift. f_equal. rewrite length_drop. simpl; lia.
    + by rewrite IH.
    + destruct IH as [Hvl ->]. rewrite length_drop in Hvl. simpl in Hvl. split; [lia|].
      rewrite shift_shift, drop_drop. done.
  - rewrite str_from_utf8_cons, Hw. cbn [error_len app]. by rewrite str_from_utf8_cons, (next_char_app _ _ _ _ Hw).
  - rewrite str_from_utf8_cons, Hw. simpl. split; [lia|]. by rewrite shift_0.
Qed.

(** Both scans accept the same texts. *)
Lemma continuation_true b : continuation b = true ↔ 128 ≤ b < 192.
Proof. apply bool_decide_eq_true. Qed.

Lemma second_ok_true b b1 :
  second_ok b b1 = true ↔
    (128 ≤ b1 < 192) ∧ (b = 224 → 160 ≤ b1) ∧ (b = 237 → b1 < 160) ∧ (b = 240 → 144 ≤ b1) ∧ (b = 244 → b1 < 144).
Proof. unfold second_ok. repeat case_decide; rewrite ?bool_decide_eq_true, ?continuation_true; lia. Qed.

Lemma guard_three b b1 b2 : 224 ≤ b < 240 →
  let c := (b - 224) * 4096 + (b1 - 128) * 64 + (b2 - 128) in
  continuation b1 && continuation b2 && bool_decide (2048 ≤ c) && bool_decide (is_scalar c) = second_ok b b1 && continuation b2.
Proof.
  intros Hb c. apply eq_true_iff_eq. rewrite !andb_true_iff, !bool_decide_eq_true, second_ok_true, !continuation_true.
  unfold is_scalar, c. lia.
Qed.

Lemma guard_four b b1 b2 b3 : 240 ≤ b < 245 →
  let c := (b - 240) * 262144 + (b1 - 128) * 4096 + (b2 - 128) * 64 + (b3 - 128) in
  continuation b1 && continuation b2 && continuation b3 && bool_decide (65536 ≤ c) && bool_decide (is_scalar c) =
    second_ok b b1 && continuation b2 && continuation b3.
Proof.
  intros Hb c. apply eq_true_iff_eq. rewrite !andb_true_iff, !bool_decide_eq_true, second_ok_true, !continuation_true.
  unfold is_scalar, c. lia.
Qed.

Lemma next_char_decodes b r :
  match next_char b r with
  | Ok w => ∃ c, from_utf8 (b :: r) = cons c <$> from_utf8 (drop w (b :: r))
  | Err _ => from_utf8 (b :: r) = None
  end.
Proof.
  cbn [from_utf8]. unfold next_char. cbv zeta.
  destruct (decide (b < 128)); [simpl; by eexists|].
  destruct (decide (194 ≤ b < 224)); [destruct r as [|b1 r]; [done|]; destruct (continuation b1); [simpl; by eexists|done]|].
  destruct (decide (224 ≤ b < 240)); [|destruct (decide (240 ≤ b < 245)); [|done]].
  - destruct r as [|b1 [|b2 r]]; [done|by destruct (second_ok b b1)|]. rewrite guard_three by done.
    destruct (second_ok b b1); [|done]. destruct (continuation b2); [|done]. simpl. by eexists.
  - destruct r as [|b1 [|b2 [|b3 r]]]; [done|by destruct (second_ok b b1)|by destruct (second_ok b b1); [destruct (continuation b2)|]|]. rewrite guard_four by done.
    destruct (second_ok b b1); [|done]. destruct (continuation b2); [|done]. destruct (continuation b3); [|done].
    simpl. by eexists.
Qed.

Lemma str_from_utf8_ok bytes : str_from_utf8 0 bytes = Ok () ↔ is_Some (from_utf8 bytes).
Proof.
  induction bytes as [[|b r] IH] using shorter_ind; [simpl; split; [by eexists|done]|].
  pose proof (next_char_decodes b r) as Hd. rewrite str_from_utf8_cons. destruct (next_char b r) as [w|e] eqn:Hw.
  - destruct Hd as [c ->]. apply next_char_width in Hw. rewrite fmap_is_Some, <-IH by (rewrite length_drop; simpl; lia).
    rewrite str_from_utf8_shift. by destruct (str_from_utf8 0 (drop w (b :: r))) as [[]|].
  - rewrite Hd. split; [done|by intros [? ?]].
Qed.

(** ** Line endings in pieces *)
Definition endings_of (s : bool * (N * N * N)) : N * N * N :=
  let '(previous, (lf, crlf, lone_cr)) := s in (lf, crlf, if previous then lone_cr + 1 else lone_cr).

Lemma present_total raw lf crlf lone_cr :
  lf + crlf + lone_cr + 1 + N.of_nat (length raw) ≤ U64_MAX →
  endings_of (update_line_endings raw (false, (lf, crlf, lone_cr))) = raw_endings raw lf crlf lone_cr ∧
  endings_of (update_line_endings raw (true, (lf, crlf, lone_cr))) = raw_endings (CR :: raw) lf crlf lone_cr.
Proof.
  assert (∀ a, a + 1 ≤ U64_MAX → a +₆₄ 1 = a + 1) as Hsat by (intros a ?; unfold saturating_add; lia).
  revert lf crlf lone_cr. induction raw as [|c raw IH]; intros lf crlf lone_cr Hb; [done|]. simpl length in Hb.
  unfold update_line_endings in *. cbn [foldl update_line_ending andb]. split.
  - cbn [raw_endings]. destruct (decide (c = CR)) as [->|Hcr].
    + destruct (IH lf crlf lone_cr ltac:(lia)) as [_ ->]. cbn [raw_endings]. rewrite decide_True by done. done.
    + case_decide as Hlf; [rewrite Hsat by lia|]; apply IH; lia.
  - cbn [raw_endings]. rewrite (decide_True (P:=CR = CR)) by done. destruct (decide (c = LF)) as [->|Hlf].
    + rewrite bool_decide_eq_true_2 by done. rewrite Hsat by lia. apply IH; lia.
    + rewrite bool_decide_eq_false_2 by done. rewrite Hsat by lia. case_decide as Hcr.
      * subst c. destruct (IH lf crlf (lone_cr + 1) ltac:(lia)) as [_ ->]. cbn [raw_endings]. by rewrite decide_True by done.
      * apply IH; lia.
Qed.

Lemma line_endings_bound raw previous lf crlf lone_cr :
  let '(_, (lf', crlf', lone_cr')) := update_line_endings raw (previous, (lf, crlf, lone_cr)) in
  lf' + crlf' + lone_cr' ≤ lf + crlf + lone_cr + N.of_nat (length raw).
Proof.
  revert previous lf crlf lone_cr. induction raw as [|c raw IH]; intros previous lf crlf lone_cr; [simpl; lia|].
  unfold update_line_endings in *. cbn [foldl update_line_ending].
  assert (∀ a, a +₆₄ 1 ≤ a + 1) as Hsat by (intros; unfold saturating_add; lia).
  pose proof (Hsat lf). pose proof (Hsat crlf). pose proof (Hsat lone_cr).
  destruct previous; simpl; repeat case_decide; repeat case_bool_decide;
    match goal with |- context [foldl _ (?p, (?a, ?b, ?c)) raw] => specialize (IH p a b c);
      destruct (foldl update_line_ending (p, (a, b, c)) raw) as [? [[? ?] ?]]; simpl; lia end.
Qed.

Lemma strip_bom_app bytes :
  has_bom bytes = true ∧ bytes = bom_bytes ++ strip_bom bytes ∨ has_bom bytes = false ∧ strip_bom bytes = bytes.
Proof.
  unfold has_bom, strip_bom. destruct (strip_prefix bom_bytes bytes) as [r|] eqn:Hs; simpl; [left|by right].
  split; [done|]. exact (proj1 (strip_prefix_Some _ _ _) Hs).
Qed.

(** ** The stream knows what was read *)
Definition utf8_state (read tail : list N) : Prop :=
  match str_from_utf8 0 read with Ok _ => tail = [] | Err e => error_len e = None ∧ tail = drop (valid_up_to e) read end.
Definition refused (read : list N) : Prop :=
  match str_from_utf8 0 read with Ok _ => False | Err e => error_len e ≠ None end.

Lemma utf8_state_split read tail chunk : utf8_state read tail →
  ∃ k, (k ≤ length read)%nat ∧ tail = drop k read ∧ str_from_utf8 0 (read ++ chunk) = shift k (str_from_utf8 0 (tail ++ chunk)).
Proof.
  unfold utf8_state. pose proof (str_from_utf8_app read chunk) as Hx. unfold extends in Hx.
  destruct (str_from_utf8 0 read) as [u|e].
  - intros ->. exists (length read). by rewrite drop_all.
  - intros [He ->]. rewrite He in Hx. destruct Hx as [Hv ->]. exists (valid_up_to e). split; [lia|done].
Qed.

Lemma validate_chunk_spec read tail chunk : utf8_state read tail →
  match validate_utf8_chunk chunk tail with
  | Ok tail' => utf8_state (read ++ chunk) tail'
  | Err e => e = SnapshotInvalidUtf8 ∧ refused (read ++ chunk)
  end.
Proof.
  intros (k & Hk & -> & Hx)%(utf8_state_split _ _ chunk). unfold validate_utf8_chunk, utf8_state, refused. cbv zeta. rewrite Hx.
  clear Hx. destruct (str_from_utf8 0 (drop k read ++ chunk)) as [u|[v [n|]]]; simpl.
  { done. }
  { done. }
  split; [done|].
  by rewrite <-drop_drop, (drop_app_le read) by done.
Qed.

Lemma refused_app read chunk : refused read → refused (read ++ chunk).
Proof.
  unfold refused. pose proof (str_from_utf8_app read chunk) as Hx. unfold extends in Hx.
  destruct (str_from_utf8 0 read) as [|e]; [done|]. intros He. destruct (error_len e) eqn:Hn; [|done]. by rewrite Hx, Hn.
Qed.

Record stream_ok (read : list N) (s : stream) : Prop := {
  so_hashed : hashed s = read;
  so_len : stream_len s = N.of_nat (length read);
  so_prefix : prefix s = take 3 read;
  so_last : last_byte s = last read;
  so_endings : (previous_cr s, (lf_count s, crlf_count s, lone_cr_count s)) = update_line_endings read (false, (0, 0, 0));
  so_utf8 : utf8_state read (utf8_tail s);
  so_nul : has_nul s = bool_decide (0 ∈ read);
}.

Lemma stream_start_ok : stream_ok [] stream_start.
Proof. by split. Qed.

Section streaming.
Context (file : spool) (limits : SnapshotLimits).
(** The temporary file works. *)
Definition spool_ok : Prop :=
  spool_new file = true ∧ (∀ n, spool_write file n = true) ∧ spool_sync file = true ∧
  ∀ bytes, spool_read file bytes = Ok bytes.

(** [bytes] is what the reader delivers before its end, without an error. *)
Inductive delivers : reader → list N → Prop :=
  | delivers_nil : delivers [] []
  | delivers_end r : delivers (Ok [] :: r) []
  | delivers_chunk chunk r rest : chunk ≠ [] → delivers r rest → delivers (Ok chunk :: r) (chunk ++ rest).

Definition too_large (bytes : list N) : Prop := max_file_bytes limits < N.of_nat (length bytes).

Lemma take_three (read chunk : list N) :
  (if decide (length (take 3 read) < 3)%nat then take 3 read ++ take (3 - length (take 3 read)) chunk else take 3 read) = take 3 (read ++ chunk).
Proof.
  rewrite length_take, take_app. case_decide.
  - do 2 f_equal. lia.
  - replace (3 - length read)%nat with 0%nat by lia. by rewrite take_0, app_nil_r.
Qed.

Lemma read_chunk_spec n read s chunk :
  spool_ok → max_file_bytes limits ≤ U64_MAX → N.of_nat (length (read ++ chunk)) ≤ U64_MAX → stream_ok read s →
  match read_chunk file limits n s chunk with
  | Ok s' => stream_ok (read ++ chunk) s' ∧ ¬ too_large (read ++ chunk)
  | Err e => e = TooLarge ∧ too_large (read ++ chunk) ∨ e = SnapshotInvalidUtf8 ∧ refused (read ++ chunk)
  end.
Proof.
  intros (_ & Hw & _ & _) Hmax Hlen [Hh Hl Hp Hla He Hu Hn]. unfold read_chunk. cbv zeta. unfold too_large.
  rewrite Hl. rewrite length_app, Nat2N.inj_add in *.
  assert (N.of_nat (length read) +₆₄ N.of_nat (length chunk) = N.of_nat (length read) + N.of_nat (length chunk)) as ->
    by (unfold saturating_add; lia).
  destruct (bool_decide_reflect (N.of_nat (length read) + N.of_nat (length chunk) ≤ max_file_bytes limits)) as [Hle|Hle]; simpl.
  2: { left; split; [done|lia]. }
  rewrite Hw. simpl. rewrite He.
  unfold update_line_endings. rewrite <-foldl_app.
  destruct (foldl update_line_ending (false, (0, 0, 0)) (read ++ chunk)) as [previous [[lf crlf] lone_cr]] eqn:Hf.
  pose proof (validate_chunk_spec read (utf8_tail s) chunk Hu) as Hv.
  destruct (validate_utf8_chunk chunk (utf8_tail s)) as [tail|e]; simpl; [|right; exact Hv].
  split; [|lia]. constructor; simpl; [by rewrite Hh|by rewrite length_app, Nat2N.inj_add| | |done|exact Hv|].
  - rewrite Hp. apply take_three.
  - rewrite last_app, Hla. by destruct (last chunk).
  - rewrite Hn, <-bool_decide_or. apply bool_decide_ext. by rewrite elem_of_app.
Qed.

Lemma read_all_spec r bytes : delivers r bytes → ∀ n read s,
  spool_ok → max_file_bytes limits ≤ U64_MAX → N.of_nat (length (read ++ bytes)) ≤ U64_MAX →
  stream_ok read s → ¬ too_large read →
  match read_all file limits n s r with
  | Ok s' => stream_ok (read ++ bytes) s' ∧ ¬ too_large (read ++ bytes)
  | Err e => e = TooLarge ∧ too_large (read ++ bytes) ∨ e = SnapshotInvalidUtf8 ∧ refused (read ++ bytes)
  end.
Proof.
  induction 1 as [|r|chunk r rest Hne Hd IH]; intros n read s Hok Hmax Hlen Hs Hbig; simpl; [by rewrite app_nil_r..|].
  destruct chunk as [|c chunk]; [done|]. rewrite (app_assoc read) in *.
  pose proof (read_chunk_spec n read s (c :: chunk) Hok Hmax) as Hc.
  assert (N.of_nat (length (read ++ c :: chunk)) ≤ U64_MAX) as Hlen' by (rewrite !length_app in *; lia).
  specialize (Hc Hlen' Hs). destruct (read_chunk file limits n s (c :: chunk)) as [s'|e]; simpl.
  - destruct Hc as [Hs' Hb']. by apply IH.
  - destruct Hc as [[-> Hb]|[-> Hb]]; [left|right; split; [done|by apply refused_app]].
    split; [done|]. unfold too_large in *. rewrite length_app. lia.
Qed.
End streaming.

(** ** Memory and stream *)
Lemma scan_strip_bom bytes : str_from_utf8 0 (strip_bom bytes) = Ok () ↔ str_from_utf8 0 bytes = Ok ().
Proof.
  destruct (strip_bom_app bytes) as [[_ Hb]|[_ ->]]; [|done]. rewrite Hb at 2.
  change (bom_bytes ++ strip_bom bytes) with ([239; 187; 191] ++ strip_bom bytes). cbn [app].
  rewrite str_from_utf8_cons. change (next_char 239 (187 :: 191 :: strip_bom bytes)) with (@Ok (option nat) nat 3%nat).
  cbn [drop]. rewrite drop_0, (str_from_utf8_shift _ (0 + 3)). destruct (str_from_utf8 0 (strip_bom bytes)) as [[]|]; simpl; split; congruence.
Qed.

Lemma endings_strip_bom bytes s : endings_of (update_line_endings (strip_bom bytes) (false, s)) = endings_of (update_line_endings bytes (false, s)).
Proof.
  destruct (strip_bom_app bytes) as [[_ Hb]|[_ ->]]; [|done]. rewrite Hb at 2. unfold update_line_endings.
  rewrite foldl_app. by destruct s as [[lf crlf] lone_cr].
Qed.

Lemma last_strip_bom bytes : ends_line (last (strip_bom bytes)) = ends_line (last bytes).
Proof.
  destruct (strip_bom_app bytes) as [[_ Hb]|[_ ->]]; [|done]. rewrite Hb at 2. rewrite last_app.
  by destruct (last (strip_bom bytes)).
Qed.

Lemma has_bom_prefix bytes : has_bom bytes = bool_decide (take 3 bytes = bom_bytes).
Proof.
  destruct (strip_bom_app bytes) as [[-> Hb]|[Hn _]]; symmetry; [by rewrite Hb; apply bool_decide_eq_true_2|].
  rewrite Hn. apply bool_decide_eq_false_2. intros Ht. rewrite <-(take_drop 3 bytes), Ht in Hn.
  unfold has_bom in Hn. rewrite (proj2 (strip_prefix_Some bom_bytes _ _) eq_refl) in Hn. done.
Qed.

Lemma inspect_text_spec bytes :
  N.of_nat (length bytes) < U64_MAX →
  match inspect_text bytes with
  | Ok m =>
      (0 ∉ bytes) ∧ str_from_utf8 0 bytes = Ok () ∧
      meta_encoding m = (if decide (take 3 bytes = bom_bytes) then Utf8Bom else Utf8Plain) ∧
      let '(lf, crlf, lone_cr) := endings_of (update_line_endings bytes (false, (0, 0, 0))) in
      meta_line_endings m = {| dominant := dominant_of lf crlf lone_cr; mixed := bool_decide (1 < kinds lf crlf lone_cr);
                               final_newline := ends_line (last bytes) |}
  | Err e => e = BinaryContent ∧ 0 ∈ bytes ∨ e = SnapshotInvalidUtf8 ∧ str_from_utf8 0 bytes ≠ Ok ()
  end.
Proof.
  intros Hlen. unfold inspect_text. destruct (bool_decide_reflect (0 ∈ bytes)) as [H0|H0]; simpl; [by left|].
  rewrite <-endings_strip_bom. pose proof (scan_strip_bom bytes) as Hs.
  destruct (str_from_utf8 0 (strip_bom bytes)) as [[]|e] eqn:Hb; [|right; split; [done|]; by intros ?%Hs].
  assert (length (strip_bom bytes) ≤ length bytes)%nat.
  { destruct (strip_bom_app bytes) as [[_ Hx]|[_ ->]]; [|done]. rewrite Hx at 2. rewrite length_app. lia. }
  destruct (present_total (strip_bom bytes) 0 0 0 ltac:(lia)) as [-> _].
  destruct (raw_endings (strip_bom bytes) 0 0 0) as [[lf crlf] lone_cr]. simpl.
  split; [done|]. split; [by apply Hs|]. split; [|by rewrite last_strip_bom]. rewrite has_bom_prefix. by case_bool_decide; case_decide.
Qed.

Lemma refused_not_ok bytes : refused bytes → str_from_utf8 0 bytes ≠ Ok ().
Proof. unfold refused. by intros H Hok; rewrite Hok in H. Qed.

Lemma utf8_tail_nil bytes tail : utf8_state bytes tail → tail = [] ↔ str_from_utf8 0 bytes = Ok ().
Proof.
  unfold utf8_state. pose proof (str_from_utf8_app bytes []) as Hx. unfold extends in Hx.
  destruct (str_from_utf8 0 bytes) as [[]|e]; [done|]. intros [He ->]. rewrite He in Hx. destruct Hx as [Hv _].
  split; [|done]. intros Hd%(f_equal length). rewrite length_drop in Hd. simpl in Hd. lia.
Qed.

Definition content_error (e : SnapshotErrorCode) : Prop := e = TooLarge ∨ e = BinaryContent ∨ e = SnapshotInvalidUtf8.

(** What both ways build from an accepted text. *)
Definition snapshot_of (digest : list N → list N) (bytes : list N) (m : TextMetadata) (threshold : N) : TextSnapshot :=
  {| version := token_of digest bytes; encoding := meta_encoding m; line_endings := meta_line_endings m;
     storage := if decide (N.of_nat (length bytes) ≤ threshold) then Inline bytes else Spooled (Ok bytes) |}.

Lemma finish_snapshot digest file limits bytes s :
  spool_ok file → N.of_nat (length bytes) < U64_MAX → stream_ok bytes s →
  match inspect_text bytes with
  | Ok m => finish digest file limits s = Ok (snapshot_of digest bytes m (inline_threshold limits))
  | Err _ => ∃ e, finish digest file limits s = Err e ∧ content_error e
  end.
Proof.
  intros (_ & _ & Hy & Hr) Hlen [Hh Hl Hp Hla He Hu Hn]. pose proof (inspect_text_spec bytes Hlen) as Hi.
  pose proof (utf8_tail_nil _ _ Hu) as Ht. unfold finish. rewrite Hn, Hy, Hh, Hl, Hr, Hp, Hla.
  destruct (inspect_text bytes) as [m|e]; simpl.
  - destruct Hi as (H0 & Hs & Henc & Hend). rewrite (bool_decide_eq_true_2 (utf8_tail s = [])) by (by apply Ht).
    rewrite (bool_decide_eq_false_2 (0 ∈ bytes)) by done. simpl. unfold snapshot_of. rewrite Henc.
    pose proof (line_endings_bound bytes false 0 0 0) as Hbound. rewrite <-He in Hend, Hbound. simpl in Hend.
    assert ((if previous_cr s then lone_cr_count s +₆₄ 1 else lone_cr_count s) =
            (if previous_cr s then lone_cr_count s + 1 else lone_cr_count s)) as ->
      by (unfold saturating_add; destruct (previous_cr s); lia).
    rewrite Hend. by destruct (decide (N.of_nat (length bytes) ≤ inline_threshold limits)).
  - destruct (bool_decide_reflect (utf8_tail s = [])) as [Hnil|_]; simpl; [|exists SnapshotInvalidUtf8; by unfold content_error; auto].
    destruct Hi as [[_ H0]|[_ Hno]]; [|by destruct Hno; apply Ht].
    rewrite (bool_decide_eq_true_2 (0 ∈ bytes)) by done. simpl. exists BinaryContent. by unfold content_error; auto.
Qed.

Lemma from_bytes_spec digest file limits bytes :
  spool_ok file →
  from_bytes digest file bytes limits =
    (validate limits;;
     ensure (bool_decide (N.of_nat (length bytes) ≤ max_file_bytes limits)) TooLarge;;
     m ← inspect_text bytes;
     Ok (snapshot_of digest bytes m (inline_threshold limits))).
Proof.
  intros (Hnew & Hw & Hy & Hr). unfold from_bytes, snapshot_of, storage_for. rewrite Hnew, Hw, Hy, Hr. simpl.
  destruct (validate limits); [simpl|done]. destruct (ensure _ _); [simpl|done]. destruct (inspect_text bytes); [simpl|done].
  by case_decide.
Qed.

Lemma snapshot_bytes digest bytes m threshold : bytes_of digest (snapshot_of digest bytes m threshold) = Ok bytes.
Proof. unfold bytes_of, snapshot_of. simpl. case_decide; simpl; by rewrite bool_decide_eq_true_2. Qed.

Lemma snapshot_text digest bytes m threshold : str_from_utf8 0 bytes = Ok () →
  ∃ t, text_of digest (snapshot_of digest bytes m threshold) = Ok t ∧ into_bytes t = strip_bom bytes.
Proof.
  intros [t Ht]%scan_strip_bom%str_from_utf8_ok. exists t. unfold text_of. rewrite snapshot_bytes. simpl.
  rewrite Ht. simpl. split; [done|]. by destruct (into_bytes_from_utf8 _ _ _ (le_n _) Ht).
Qed.

(** C16: Streaming makes no difference: however the reader cuts the bytes into
    chunks, the snapshot is the one of the bytes in memory - version, encoding,
    line endings and storage - and holds exactly these bytes, which are a text;
    and the stream is refused for its content exactly when the bytes are (the
    first fault met names the error, so the codes may differ). *)
Theorem snapshot_streams_exact digest file limits r bytes :
  spool_ok file → max_file_bytes limits ≤ U64_MAX → N.of_nat (length bytes) < U64_MAX → delivers r bytes →
  match from_bytes digest file bytes limits with
  | Ok s =>
      from_reader digest file r limits = Ok s ∧ version s = token_of digest bytes ∧
      bytes_of digest s = Ok bytes ∧
      ∃ t, text_of digest s = Ok t ∧ into_bytes t = strip_bom bytes
  | Err e =>
      e = InvalidLimits ∧ from_reader digest file r limits = Err InvalidLimits ∨
      content_error e ∧ ∃ e', from_reader digest file r limits = Err e' ∧ content_error e'
  end.
Proof.
  intros Hok Hmax Hlen Hd. rewrite from_bytes_spec by done. unfold from_reader. pose proof Hok as (-> & _).
  destruct (validate limits) as [[]|e] eqn:Hv; simpl.
  2: { unfold validate in Hv. apply ensure_Err in Hv as [_ ->]. by left. }
  pose proof (read_all_spec file limits r bytes Hd 0 [] stream_start Hok Hmax ltac:(simpl; lia) stream_start_ok
    ltac:(unfold too_large; simpl; lia)) as Hall. simpl in Hall.
  destruct (read_all file limits 0 stream_start r) as [s|e]; simpl.
  - destruct Hall as [Hs Hsmall]. rewrite bool_decide_eq_true_2 by (unfold too_large in Hsmall; lia). simpl.
    pose proof (finish_snapshot digest file limits bytes s Hok Hlen Hs) as Hf. pose proof (inspect_text_spec bytes Hlen) as Hi.
    destruct (inspect_text bytes) as [m|e]; simpl.
    + split; [done|]. split; [done|]. split; [apply snapshot_bytes|]. by apply snapshot_text, Hi.
    + right. split; [|done]. unfold content_error. naive_solver.
  - assert (content_error e) as He by (unfold content_error; naive_solver).
    destruct (bool_decide_reflect (N.of_nat (length bytes) ≤ max_file_bytes limits)) as [Hle|_]; simpl.
    2: { right. split; [by left|by exists e]. }
    destruct Hall as [[_ Hb]|[-> Href]]; [by unfold too_large in Hb; lia|]. pose proof (inspect_text_spec bytes Hlen) as Hi.
    destruct (inspect_text bytes) as [m|e]; simpl.
    + destruct Hi as (_ & Hs & _). by apply refused_not_ok in Href.
    + right. split; [unfold content_error; naive_solver|by eexists].
Qed.

(** ** A snapshot at work *)
Module SampleSnapshot.
Definition file : spool := {| spool_new := true; spool_write := λ _, true; spool_sync := true; spool_read := Ok |}.
Definition limits : SnapshotLimits := {| max_file_bytes := 64; inline_threshold := 8 |}.
Definition digest (bytes : list N) : list N := [N.of_nat (length bytes)].
(** A byte-order mark, "é", a line ending and a letter, cut inside the mark,
    the letter and the ending. *)
Definition pieces : reader := [Ok [239; 187]; Ok [191; 195]; Ok [169; 13]; Ok [10; 97]].

Lemma file_ok : spool_ok file.
Proof. by repeat split. Qed.
Lemma pieces_deliver : delivers pieces [239; 187; 191; 195; 169; 13; 10; 97].
Proof. repeat (apply (delivers_chunk [_; _]); [done|]). constructor. Qed.

Lemma snapshot_streams_exact_witness :
  from_reader digest file pieces limits = from_bytes digest file [239; 187; 191; 195; 169; 13; 10; 97] limits ∧
  from_reader digest file pieces limits =
    Ok {| version := {| token_digest := [8]; token_byte_len := 8 |}; encoding := Utf8Bom;
          line_endings := {| dominant := EndCrlf; mixed := false; final_newline := false |};
          storage := Inline [239; 187; 191; 195; 169; 13; 10; 97] |}.
Proof.
  pose proof (snapshot_streams_exact digest file limits pieces [239; 187; 191; 195; 169; 13; 10; 97] file_ok ltac:(vm_compute; discriminate)
    ltac:(vm_compute; reflexivity) pieces_deliver) as H.
  assert (from_bytes digest file [239; 187; 191; 195; 169; 13; 10; 97] limits =
    Ok {| version := {| token_digest := [8]; token_byte_len := 8 |}; encoding := Utf8Bom;
          line_endings := {| dominant := EndCrlf; mixed := false; final_newline := false |};
          storage := Inline [239; 187; 191; 195; 169; 13; 10; 97] |}) as Hb by (vm_compute; reflexivity).
  rewrite Hb in H. destruct H as [H _]. rewrite Hb. split; exact H.
Defined.

(** The codes of the two ways differ on a text with two faults. *)
Example codes_differ :
  from_bytes digest file [0; 255] limits = Err BinaryContent ∧ from_reader digest file [Ok [0; 255]] limits = Err SnapshotInvalidUtf8.
Proof. by vm_compute. Qed.
End SampleSnapshot.
