(* ===== verification/PatchHistory.v ===== *)
(** * Reports of patches

    The vocabulary of [crates/tools/src/apply_patch/history/mod.rs] and of the
    reports of [executor.rs]: what a patch committed, in which order, with which
    side effects. Messages of diagnostics are not modelled. *)
From S2P Require Import Prelude Ordered PatchGuards.
Local Open Scope N_scope.

Inductive ChangeKind := KindAdd | KindReplace | KindUpdate | KindDelete | KindMove.
Inductive TextEncoding := EncUtf8 | EncUtf8Bom.
Inductive LineEnding := HistLf | HistCrlf | HistMixed | HistNone.
Record LineEndingMetadata := { hist_dominant : LineEnding; hist_mixed : bool; hist_final_newline : bool }.
Record CommittedTextSnapshot := {
  cs_version : FileVersionToken; cs_bytes : list N; cs_encoding : TextEncoding; cs_line_endings : LineEndingMetadata;
}.

Record PatchSideEffects := {
  pe_created : list string; pe_residual : list string; pe_warnings : list string; pe_exact : bool;
}.
Definition no_patch_effects : PatchSideEffects := {| pe_created := []; pe_residual := []; pe_warnings := []; pe_exact := true |}.
(** [Vec::dedup] by equality. *)
Fixpoint dedup {A} `{EqDecision A} (l : list A) : list A :=
  match l with
  | x :: ((y :: _) as l') => if decide (x = y) then dedup l' else x :: dedup l'
  | l => l
  end.
Definition merge_patch_effects (a b : PatchSideEffects) : PatchSideEffects :=
  {| pe_created := dedup (sort_on id (pe_created a ++ pe_created b));
     pe_residual := dedup (sort_on id (pe_residual a ++ pe_residual b));
     pe_warnings := dedup (sort_on id (pe_warnings a ++ pe_warnings b));
     pe_exact := pe_exact a && pe_exact b |}.
Definition has_durable_effects (e : PatchSideEffects) : bool :=
  negb (bool_decide (pe_residual e = [])) || bool_decide ("temporary_file_cleanup_failed"%string ∈ pe_warnings e).

Record CommittedPatchChange := {
  cp_operation_index : N; cp_commit_step : N; cp_sequence : N; cp_kind : ChangeKind;
  cp_source : text; cp_destination : option text;
  cp_before : option CommittedTextSnapshot; cp_after : option CommittedTextSnapshot;
  cp_overwritten : option CommittedTextSnapshot; cp_effects : PatchSideEffects;
}.
Record AppliedPatchDelta := { delta_changes : list CommittedPatchChange; delta_exact : bool; delta_effects : PatchSideEffects }.
Definition empty_delta : AppliedPatchDelta := {| delta_changes := []; delta_exact := true; delta_effects := no_patch_effects |}.
Definition with_exactness (ex : bool) (d : AppliedPatchDelta) : AppliedPatchDelta :=
  {| delta_changes := delta_changes d; delta_exact := ex;
     delta_effects := {| pe_created := pe_created (delta_effects d); pe_residual := pe_residual (delta_effects d);
                         pe_warnings := pe_warnings (delta_effects d); pe_exact := pe_exact (delta_effects d) && ex |} |}.
Definition delta_is_empty (d : AppliedPatchDelta) : bool :=
  bool_decide (length (delta_changes d) = 0%nat) && negb (has_durable_effects (delta_effects d)).

Inductive PatchStage := StNormalize | StParse | StResolve | StAuthorize | StPrepare | StLock | StStage | StCommit | StRecord | StRecover.
Inductive PatchErrorCode :=
  | PcInvalidLimits | PcInvalidPayload | PcPatchSyntaxError | PcPatchEmpty | PcInputTooLarge | PcInvalidVersionToken | PcInvalidRequest
  | PcTooManyOperations | PcTooManyFiles | PcTooManyHunks | PcInvalidPath | PcPathOutsideAllowedRoot | PcUnauthorizedPath
  | PcPermissionDenied | PcContextNotFound | PcAmbiguousContext | PcPreconditionRequired | PcSourceMissing | PcDestinationExists
  | PcDestinationMissing | PcStaleFile | PcCrossDeviceMove | PcUnsupportedFileType | PcInvalidUtf8 | PcFileTooLarge
  | PcUnsupportedContent | PcLockTimeout | PcIoCreateFailed | PcIoWriteFailed | PcIoSyncFailed | PcIoRenameFailed | PcIoDeleteFailed
  | PcIo | PcPartialCommit | PcCommitStateUncertain | PcTrackerPublishFailed | PcHistoryCapacity.
#[export] Instance PatchErrorCode_eq_dec : EqDecision PatchErrorCode.
Proof. solve_decision. Defined.
Inductive Retryability := Never | RetryAfterRead | RetryAfterDelay | RecoverOnly.
Inductive GuardHorizon := HorizonObserved | HorizonPrepared | HorizonCommit.
Record PatchDiagnostic := {
  diag_code : PatchErrorCode; diag_stage : PatchStage; diag_retryability : Retryability;
  diag_operation_index : option N; diag_horizon : option GuardHorizon;
}.

Inductive ExecutionStatus := StatusApplied | StatusPartial | StatusRejected | StatusFailed | StatusUncertain.
#[export] Instance ExecutionStatus_eq_dec : EqDecision ExecutionStatus.
Proof. solve_decision. Defined.
Record ExecutionReport := { report_status : ExecutionStatus; report_delta : AppliedPatchDelta; report_failure : option PatchDiagnostic }.

(** ** What a client is told ([into_outcome]) *)
Inductive ApplyPatchOutcome :=
  | OutcomeApplied (delta : AppliedPatchDelta)
  | OutcomePartial (delta : AppliedPatchDelta) (failure : PatchDiagnostic)
  | OutcomeRejected (failure : PatchDiagnostic)
  | OutcomeFailed (delta : AppliedPatchDelta) (failure : PatchDiagnostic)
  | OutcomeUncertain (delta : AppliedPatchDelta) (reason : PatchDiagnostic).

Definition diagnostic_at (stage : PatchStage) (code : PatchErrorCode) (index : option N) (horizon : option GuardHorizon) : PatchDiagnostic :=
  {| diag_code := code; diag_stage := stage;
     diag_retryability := match code with
                          | PcStaleFile => RetryAfterRead | PcLockTimeout => RetryAfterDelay
                          | PcCommitStateUncertain => RecoverOnly | _ => Never end;
     diag_operation_index := index; diag_horizon := horizon |}.
Definition diagnostic (stage : PatchStage) (code : PatchErrorCode) : PatchDiagnostic := diagnostic_at stage code None None.

Definition into_outcome (r : ExecutionReport) : ApplyPatchOutcome :=
  match report_status r, report_failure r with
  | StatusApplied, _ => OutcomeApplied (report_delta r)
  | StatusPartial, Some failure => OutcomePartial (report_delta r) failure
  | StatusFailed, Some failure => OutcomeFailed (report_delta r) failure
  | StatusUncertain, Some reason => OutcomeUncertain (report_delta r) reason
  | StatusRejected, Some failure => OutcomeRejected failure
  | StatusPartial, None | StatusFailed, None => OutcomeFailed (report_delta r) (diagnostic StCommit PcIo)
  | StatusUncertain, None => OutcomeUncertain (report_delta r) (diagnostic StCommit PcCommitStateUncertain)
  | StatusRejected, None => OutcomeRejected (diagnostic StAuthorize PcInvalidRequest)
  end.
