(* ===== verification/SystemCalls.v ===== *)
(** * Programs that call the system

    The mutations of [crates/tools/src/apply_patch/file_mutation/] are sequences
    of system calls whose answers decide how they go on. A program is a finite
    tree of calls ([prog], a free monad); the system may answer anything
    ([possible] is all it promises), so other processes may interfere between
    any two calls. What a program did is the log of its calls and their
    answers, from which the effects on names are read off. An open file or
    directory is its identity, a device and an inode. *)
From S2P Require Import Prelude UnixPath FileTarget TextSnapshot PatchHistory.
Local Open Scope N_scope.

Abbreviation inode := (N * N)%type.
(** The kinds of [io::Error] the code tells apart. *)
Inductive SysError := SysNotFound | SysAlreadyExists | SysOther.
#[export] Instance SysError_eq_dec : EqDecision SysError.
Proof. solve_decision. Defined.
Abbreviation sys A := (result SysError A).

(** What [symlink_metadata] and [fstatat] say of a name. *)
Record Metadata := { meta_kind : TargetKind; meta_inode : inode; meta_mode : N }.

Inductive call :=
  | OpenRoot | OpenCurrent
  | OpenDirectoryAt (parent : inode) (name : text)
  | CreateAt (parent : inode) (name : text)
  | MakeDirectoryAt (parent : inode) (name : text)
  | RemoveDirectoryAt (parent : inode) (name : text)
  | RenameAt (parent : inode) (old new : text)
  | LinkAt (parent : inode) (old new : text)
  | UnlinkAt (parent : inode) (name : text)
  | Status (file : inode)
  | StatusAt (parent : inode) (name : text)
  | Duplicate (file : inode)
  | Write (file : inode) (bytes : list N)
  | Sync (file : inode)
  | Mode (file : inode)
  | SetMode (file : inode) (mode : N)
  | PathMetadata (path : list text)
  | ReadFile (path : list text)
  | ListAttributes (path : list text)
  | NewSpool
  | NextStage
  | NextAttempt
  | IsCancelled
  | AcquireLocks
  | ReleaseLocks
  | ObserverCheck
  | ObserverAdmit
  | ObserverCommitted (change : CommittedPatchChange)
  | ObserverTerminal (report : ExecutionReport).

(** [ReadFile] opens a regular file: its reads, and the temporary file they are
    copied to. [NextStage] and [NextAttempt] are counters shared by the
    threads of the process. The last calls are those of the executor of patches:
    the locks of its targets (TargetLocks.v), and its observer, which may answer
    with the report of an earlier run. *)
Definition answer (c : call) : Type :=
  match c with
  | OpenRoot | OpenCurrent | OpenDirectoryAt _ _ | CreateAt _ _ => sys inode
  | MakeDirectoryAt _ _ | RemoveDirectoryAt _ _ | RenameAt _ _ _ | LinkAt _ _ _ | UnlinkAt _ _
  | Status _ | Duplicate _ | Write _ _ | Sync _ | SetMode _ _ => sys ()
  | StatusAt _ _ | PathMetadata _ => sys Metadata
  | Mode _ => sys N
  | ReadFile _ => sys (reader * spool)
  | ListAttributes _ => sys (list (list N))
  | NewSpool => spool
  | NextStage | NextAttempt => N
  | IsCancelled => bool
  | AcquireLocks | ObserverCommitted _ | ObserverTerminal _ => sys ()
  | ReleaseLocks => ()
  | ObserverCheck | ObserverAdmit => sys (option ExecutionReport)
  end.

Inductive event := Event (c : call) (r : answer c).
Abbreviation log := (list event).

Inductive prog (A : Type) :=
  | Done (a : A)
  | Next (c : call) (k : answer c → prog A).
Arguments Done {A} a.
Arguments Next {A} c k.

#[export] Instance prog_ret : MRet prog := λ A a, Done a.
#[export] Instance prog_bind : MBind prog := λ A B f,
  fix bind p := match p with Done a => f a | Next c k => Next c (λ r, bind (k r)) end.
Definition ask (c : call) : prog (answer c) := Next c Done.

(** The [?] of a function that calls the system. *)
Definition try {E A B} (p : prog (result E A)) (f : A → prog (result E B)) : prog (result E B) :=
  p ≫= λ r, match r with Ok a => f a | Err e => Done (Err e) end.
Notation "x ←? p ; f" := (try p (λ x, f)) (at level 20, p at level 100, f at level 200, only parsing).
Notation "' x ←? p ; f" := (try p (λ x, f)) (at level 20, x pattern, p at level 100, f at level 200, only parsing).

(** ** What the system promises

    A shared counter is never read twice at the same value; anything else may
    be answered. *)
Definition stage_numbers (l : log) : list N :=
  omap (λ e, match e with Event c r => match c return answer c → option N with NextStage => Some | _ => λ _, None end r end) l.
Definition possible (l : log) (c : call) : answer c → Prop :=
  match c return answer c → Prop with NextStage => λ n, n ≤ U64_MAX ∧ n ∉ stage_numbers l | _ => λ _, True end.

(** ** Every run ends with a result that satisfies [Q] *)
Fixpoint wp {A} (p : prog A) (l : log) (Q : log → A → Prop) : Prop :=
  match p with
  | Done a => Q l a
  | Next c k => ∀ r, possible l c r → wp (k r) (l ++ [Event c r]) Q
  end.

Lemma wp_mono {A} (p : prog A) l (Q Q' : log → A → Prop) : wp p l Q → (∀ l' a, Q l' a → Q' l' a) → wp p l Q'.
Proof. intros H HQ. revert l H. induction p as [a|c k IH]; intros l H; simpl in *; [by apply HQ|]. intros r Hr. by apply IH, H. Qed.

Lemma wp_bind {A B} (p : prog A) (f : A → prog B) l Q : wp (p ≫= f) l Q ↔ wp p l (λ l' a, wp (f a) l' Q).
Proof.
  revert l. induction p as [a|c k IH]; intros l; [done|]. simpl.
  split; intros H r Hr; apply (IH r), H, Hr.
Qed.

Lemma wp_and {A} (p : prog A) l Q Q' : wp p l Q → wp p l Q' → wp p l (λ l' a, Q l' a ∧ Q' l' a).
Proof. intros H H'. revert l H H'. induction p as [a|c k IH]; intros l H H'; simpl in *; [done|]. intros r Hr. by apply IH; [apply H|apply H']. Qed.

(** The rule of [?]: the error leaves, the value goes on. *)
Lemma wp_try {E A B} (p : prog (result E A)) (f : A → prog (result E B)) l Q :
  wp p l (λ l' r, match r with Ok a => wp (f a) l' Q | Err e => Q l' (Err e) end) → wp (try p f) l Q.
Proof. intros H. apply wp_bind. eapply wp_mono; [exact H|]. by intros l' [a|e]. Qed.

(** A log only grows. *)
Lemma wp_prefix {A} (p : prog A) l : wp p l (λ l' _, l `prefix_of` l').
Proof.
  revert l. induction p as [a|c k IH]; intros l; simpl; [done|]. intros r _. eapply wp_mono; [apply IH|].
  intros l' a H. etrans; [|exact H]. by apply prefix_app_r.
Qed.

(** ** One run

    An oracle answers each call from the log so far. *)
Fixpoint run {A} (oracle : log → ∀ c, answer c) (p : prog A) (l : log) : log * A :=
  match p with
  | Done a => (l, a)
  | Next c k => run oracle (k (oracle l c)) (l ++ [Event c (oracle l c)])
  end.
#[export] Instance possible_dec l c r : Decision (possible l c r).
Proof. unfold possible. destruct c; apply _. Defined.
(** The oracle answers what the system may answer. *)
Fixpoint fair {A} (oracle : log → ∀ c, answer c) (p : prog A) (l : log) : bool :=
  match p with
  | Done _ => true
  | Next c k => bool_decide (possible l c (oracle l c)) && fair oracle (k (oracle l c)) (l ++ [Event c (oracle l c)])
  end.
Lemma wp_run {A} oracle (p : prog A) l Q :
  fair oracle p l = true → wp p l Q → Q (run oracle p l).1 (run oracle p l).2.
Proof.
  revert l. induction p as [a|c k IH]; intros l Hf H; simpl in *; [done|].
  apply andb_true_iff in Hf as [Hc Hf]. apply bool_decide_eq_true in Hc. by apply IH, H.
Qed.

(** ** Effects on names

    A change of the tree: a private file put under a name, by a call that
    replaces what is there or by one that never does, or a name removed; with
    the file last read before it. *)
Inductive change :=
  | Put (dir : inode) (name private : text) (over : bool) (checked : option (list text * (reader * spool)))
  | Gone (dir : inode) (name : text) (checked : option (list text * (reader * spool))).

Definition PRIVATE_PREFIX : text := lit ".pioneer-patch-".
Definition is_private (name : text) : bool := starts_with PRIVATE_PREFIX name.

(** The private files that have a name, the changes so far and the file read
    last. *)
Record view := {
  privates : gset (inode * text);
  changes : list change;
  last_read : option (list text * (reader * spool));
}.
Definition no_effects : view := {| privates := ∅; changes := []; last_read := None |}.

Definition view_step (v : view) (e : event) : view :=
  let put parent old new keep :=
    {| privates := if keep : bool then privates v else privates v ∖ {[(parent, old)]};
       changes := changes v ++ [Put parent new old (negb keep) (last_read v)]; last_read := last_read v |} in
  match e with
  | Event c r =>
      match c return answer c → view with
      | CreateAt parent name => λ r,
          match r with
          | Ok _ => {| privates := {[(parent, name)]} ∪ privates v; changes := changes v; last_read := last_read v |}
          | Err _ => v
          end
      | RenameAt parent old new => λ r, match r with Ok _ => put parent old new false | Err _ => v end
      | LinkAt parent old new => λ r, match r with Ok _ => put parent old new true | Err _ => v end
      | UnlinkAt parent name => λ r,
          match r with
          | Ok _ =>
              if is_private name
              then {| privates := privates v ∖ {[(parent, name)]}; changes := changes v; last_read := last_read v |}
              else {| privates := privates v; changes := changes v ++ [Gone parent name (last_read v)]; last_read := last_read v |}
          | Err _ => v
          end
      | ReadFile path => λ r,
          match r with
          | Ok file => {| privates := privates v; changes := changes v; last_read := Some (path, file) |}
          | Err _ => v
          end
      | _ => λ _, v
      end r
  end.
Definition view_of (l : log) : view := foldl view_step no_effects l.

Lemma view_of_snoc l e : view_of (l ++ [e]) = view_step (view_of l) e.
Proof. apply foldl_snoc. Qed.

(** ** Programs that keep something

    [keeps R p]: every run of [p] leads from a log to one that [R] relates. *)
Definition keeps (R : relation log) {A} (p : prog A) : Prop := ∀ l, wp p l (λ l' _, R l l').
Create HintDb keeps.

Section keeps.
Context (R : relation log) `{!PreOrder R}.

Lemma keeps_done {A} (a : A) : keeps R (Done a).
Proof. intros l. simpl. reflexivity. Qed.
Lemma keeps_bind {A B} (p : prog A) (f : A → prog B) : keeps R p → (∀ a, keeps R (f a)) → keeps R (p ≫= f).
Proof.
  intros Hp Hf l. apply wp_bind. eapply wp_mono; [apply Hp|]. intros l' a H. eapply wp_mono; [apply Hf|].
  intros l'' b H'. by etrans; [exact H|exact H'].
Qed.
Lemma keeps_try {E A B} (p : prog (result E A)) (f : A → prog (result E B)) :
  keeps R p → (∀ a, keeps R (f a)) → keeps R (try p f).
Proof. intros Hp Hf. apply keeps_bind; [done|]. intros [a|e]; [apply Hf|apply keeps_done]. Qed.
Lemma keeps_ask c : (∀ l r, R l (l ++ [Event c r])) → keeps R (ask c).
Proof. intros Hc l. simpl. intros r ?. apply Hc. Qed.

(** A program that keeps [R] can be run before a goal that holds for what is
    [R]-related. *)
Lemma wp_keeps {A} (p : prog A) l Q : keeps R p → (∀ l' a, R l l' → Q l' a) → wp p l Q.
Proof. intros Hp HQ. eapply wp_mono; [apply Hp|]. intros l' a. apply HQ. Qed.
Lemma wp_keeps_bind {A B} (p : prog A) (f : A → prog B) l Q :
  keeps R p → (∀ l' a, R l l' → wp (f a) l' Q) → wp (p ≫= f) l Q.
Proof. intros Hp HQ. apply wp_bind. by apply wp_keeps. Qed.
End keeps.

(** The calls that put, remove or create a name, and those that read a file. *)
Definition touches (c : call) : bool :=
  match c with CreateAt _ _ | RenameAt _ _ _ | LinkAt _ _ _ | UnlinkAt _ _ => true | _ => false end.
Definition reads (c : call) : bool := match c with ReadFile _ => true | _ => false end.

(** The view is the same; or only another file was read last. *)
Definition same_view (l l' : log) : Prop := view_of l' = view_of l.
Definition same_effects (l l' : log) : Prop :=
  privates (view_of l') = privates (view_of l) ∧ changes (view_of l') = changes (view_of l).
#[export] Instance same_view_preorder : PreOrder same_view.
Proof. split; [done|]. unfold same_view. congruence. Qed.
#[export] Instance same_effects_preorder : PreOrder same_effects.
Proof. split; [done|]. intros l1 l2 l3 [H1 H2] [H3 H4]. split; congruence. Qed.
Lemma same_view_effects l l' : same_view l l' → same_effects l l'.
Proof. unfold same_view, same_effects. by intros ->. Qed.

Lemma ask_same_view c : touches c || reads c = false → keeps same_view (ask c).
Proof.
  intros Hc. apply keeps_ask. intros l r. unfold same_view. rewrite view_of_snoc. by destruct c.
Qed.
Lemma ask_same_effects c : touches c = false → keeps same_effects (ask c).
Proof.
  intros Hc. apply keeps_ask. intros l r. unfold same_effects. rewrite view_of_snoc.
  destruct c; try done; simpl in r |- *; by destruct r.
Qed.
Lemma keeps_view_effects {A} (p : prog A) : keeps same_view p → keeps same_effects p.
Proof. intros Hp l. eapply wp_mono; [apply Hp|]. intros l' a. apply same_view_effects. Qed.

(** Walks through a program; the functions it calls have lemmas in [keeps]. *)
Ltac keeps_step :=
  lazymatch goal with
  | |- keeps _ (Done _) => apply keeps_done; apply _
  | |- keeps _ (mbind _ _) => apply keeps_bind; [apply _| |intros ?]
  | |- keeps _ (try _ _) => apply keeps_try; [apply _| |intros ?]
  | |- keeps _ (ask _) => first [apply ask_same_view; reflexivity|apply ask_same_effects; reflexivity]
  | |- keeps ?R (Next ?c ?k) => change (keeps R (mbind k (ask c)))
  | |- keeps _ (match ?x with _ => _ end) => destruct x
  | |- keeps _ _ => solve [auto with keeps|apply keeps_view_effects; auto with keeps]
  end.
Ltac keeps := cbv zeta beta; repeat (keeps_step; cbv beta).
