(* ===== verification/SecureFs.v ===== *)
(** * Mutations anchored to open directories

    Models [crates/tools/src/apply_patch/file_mutation/secure_fs.rs] on Linux:
    every visible mutation is relative to a directory that was opened component
    by component without following links. The functions are programs of
    SystemCalls.v. Closing a descriptor has no effect and is left out. *)
From S2P Require Import Prelude Decimal UnixPath FileSystem FileTarget TextSnapshot SystemCalls.
Local Open Scope N_scope.

(** ** Paths and directories *)
Definition os_name (value : text) : sys text := if nul value then Err SysOther else Ok value.
Definition is_normal (component : text) : bool :=
  negb (bool_decide (component = ROOT ∨ component = CURRENT ∨ component = PARENT)).
Definition path_join (base path : list text) : list text := if decide (head path = Some ROOT) then path else base ++ path.

Definition open_directory_at (parent : inode) (component : text) : prog (sys inode) :=
  match os_name component with Ok name => ask (OpenDirectoryAt parent name) | Err e => Done (Err e) end.

Fixpoint open_components (directory : inode) (path : list text) : prog (sys inode) :=
  match path with
  | [] => Done (Ok directory)
  | component :: path =>
      if decide (component = ROOT ∨ component = CURRENT) then open_components directory path
      else if decide (component = PARENT) then Done (Err SysOther)
      else next ←? open_directory_at directory component; open_components next path
  end.
Definition open_directory_path (path : list text) : prog (sys inode) :=
  directory ←? (if decide (head path = Some ROOT) then ask OpenRoot else ask OpenCurrent);
  open_components directory path.

Fixpoint pop_times (n : nat) (path : list text) : sys (list text) :=
  match n with
  | O => Ok path
  | S n => match parent path with Some path => pop_times n path | None => Err SysOther end
  end.
Definition workspace_root (target : CanonicalTarget) : sys (list text) :=
  root ← pop_times (length (filter (λ c, is_normal c = true) (relative target))) (absolute target);
  _ ← ensure (bool_decide (path_join root (relative target) = absolute target)) SysOther;
  Ok root.
(** The root, the directories below it and the name of the file. *)
Definition target_parts (target : CanonicalTarget) : sys (list text * list text * text) :=
  root ← workspace_root target;
  final ← ok_or (last (relative target)) SysOther;
  _ ← ensure (is_normal final) SysOther;
  _ ← ensure (forallb is_normal (pop (relative target))) SysOther;
  Ok (root, pop (relative target), final).

Fixpoint open_parents (directory : inode) (parents : list text) : prog (sys inode) :=
  match parents with
  | [] => Done (Ok directory)
  | component :: parents => next ←? open_directory_at directory component; open_parents next parents
  end.
Definition open_target_parent (target : CanonicalTarget) : prog (sys (inode * text)) :=
  match target_parts target with
  | Err e => Done (Err e)
  | Ok (root, parents, final) =>
      directory ←? open_directory_path root;
      directory ←? open_parents directory parents;
      match os_name final with Ok name => Done (Ok (directory, name)) | Err e => Done (Err e) end
  end.

(** ** Directories created for a file *)
Record CreatedDirectory := { created_parent : inode; created_name : text; created_path : list text; created_inode : inode }.
Record ParentCreationFailure := { creation_source : SysError; creation_created : list CreatedDirectory }.

(** [CreatedDirectories::cleanup], last created first: what could not be
    removed. *)
Fixpoint remove_created (entries : list CreatedDirectory) (residual : list (list text)) : prog (list (list text)) :=
  match entries with
  | [] => Done residual
  | entry :: entries =>
      status ← ask (StatusAt (created_parent entry) (created_name entry)) : prog (sys Metadata);
      let remove_it (unchanged : bool) : prog (list (list text)) :=
        (if unchanged then
           removed ← ask (RemoveDirectoryAt (created_parent entry) (created_name entry)) : prog (sys ());
           Done (match removed with Ok _ => true | Err _ => false end)
         else Done false) ≫= λ ok : bool,
        remove_created entries (if ok then residual else residual ++ [created_path entry]) in
      match status with
      | Ok status => remove_it (bool_decide (meta_inode status = created_inode entry ∧ meta_kind status = KindDirectory))
      | Err SysNotFound => remove_created entries residual
      | Err _ => remove_it false
      end
  end.
Definition created_paths (entries : list CreatedDirectory) : list (list text) := created_path <$> entries.
Definition cleanup_directories (entries : list CreatedDirectory) : prog (list (list text) * list (list text)) :=
  residual ← remove_created (reverse entries) [];
  Done (created_paths entries, residual).

Section ensure_parents.
Context (target : CanonicalTarget).

Fixpoint ensure_loop (current : inode) (reported : list text) (created : list CreatedDirectory) (parents : list text)
    : prog (result ParentCreationFailure (list CreatedDirectory)) :=
  match parents with
  | [] => Done (Ok created)
  | component :: parents =>
      let reported := reported ++ [component] in
      let fail source := Done (Err {| creation_source := source; creation_created := created |}) in
      match os_name component with
      | Err source => fail source
      | Ok name =>
          opened ← ask (OpenDirectoryAt current name) : prog (sys inode);
          match opened with
          | Ok next => ensure_loop next reported created parents
          | Err SysNotFound =>
              made ← ask (MakeDirectoryAt current name) : prog (sys ());
              let go_on :=
                opened ← ask (OpenDirectoryAt current name) : prog (sys inode);
                match opened with
                | Err source => fail source
                | Ok next =>
                    status ← ask (Status next) : prog (sys ());
                    match status with
                    | Err source => fail source
                    | Ok _ =>
                        parent ← ask (Duplicate current) : prog (sys ());
                        match parent with
                        | Err source => fail source
                        | Ok _ =>
                            ensure_loop next reported
                              (created ++ [{| created_parent := current; created_name := name; created_path := reported;
                                              created_inode := next |}]) parents
                        end
                    end
                end in
              match made with
              | Ok _ | Err SysAlreadyExists => go_on
              | Err source => fail source
              end
          | Err source => fail source
          end
      end
  end.

Definition ensure_parent_directories : prog (result ParentCreationFailure (list CreatedDirectory)) :=
  match target_parts target with
  | Err source => Done (Err {| creation_source := source; creation_created := [] |})
  | Ok (root, parents, _) =>
      current ← open_directory_path root;
      match current with
      | Err source => Done (Err {| creation_source := source; creation_created := [] |})
      | Ok current => ensure_loop current (match workspace_root target with Ok path => path | Err _ => root end) [] parents
      end
  end.
End ensure_parents.

(** ** Private files *)
Record StagedFile := {
  staged_file : inode;
  staged_parent : inode;
  parent_identity : inode;
  temporary_name : text;
  destination_name : text;
  staged_target : option CanonicalTarget;
  active_name : bool;
}.
Record PublishError := { publish_source : SysError; publish_cleanup_failed : bool; published : bool }.
Record PublishedParent := { published_parent : inode; parent_cleanup_failed : bool }.

Section staging.
Context (process_id : N).

Definition private_name (sequence : N) : text :=
  PRIVATE_PREFIX ++ display_u64 process_id ++ lit "-" ++ display_u64 sequence.

Fixpoint stage_loop (attempts : nat) (parent : inode) (destination : text) (target : option CanonicalTarget)
    : prog (sys StagedFile) :=
  match attempts with
  | O => Done (Err SysAlreadyExists)
  | S attempts =>
      sequence ← ask NextStage : prog N;
      opened ← ask (CreateAt parent (private_name sequence)) : prog (sys inode);
      match opened with
      | Ok file =>
          Done (Ok {| staged_file := file; staged_parent := parent; parent_identity := parent;
                      temporary_name := private_name sequence; destination_name := destination;
                      staged_target := target; active_name := true |})
      | Err SysAlreadyExists => stage_loop attempts parent destination target
      | Err e => Done (Err e)
      end
  end.
Definition stage_in_parent (parent : inode) (destination : text) (target : option CanonicalTarget) : prog (sys StagedFile) :=
  _ ←? ask (Status parent) : prog (sys ());
  stage_loop 128 parent destination target.
(** [StagedFile::create]. *)
Definition create_staged (target : CanonicalTarget) : prog (sys StagedFile) :=
  opened ←? open_target_parent target;
  stage_in_parent (fst opened) (snd opened) (Some target).
End staging.

Definition unlink_temporary (s : StagedFile) : prog (sys ()) :=
  if active_name s then ask (UnlinkAt (staged_parent s) (temporary_name s)) : prog (sys ()) else Done (Ok ()).
(** Whether the private name is gone. *)
Definition cleanup (s : StagedFile) (inject_failure : bool) : prog bool :=
  if inject_failure then Done false
  else
    removed ← unlink_temporary s;
    Done (match removed with Ok _ => true | Err _ => false end).

Definition verify_parent_binding (s : StagedFile) : prog (sys ()) :=
  match staged_target s with
  | None => Done (Ok ())
  | Some target =>
      current ←? open_target_parent target;
      _ ←? ask (Status (staged_parent s)) : prog (sys ());
      if negb (bool_decide (staged_parent s = parent_identity s)) || negb (bool_decide (snd current = destination_name s))
      then Done (Err SysOther)
      else
        status ← ask (Status (fst current)) : prog (sys ());
        match status with
        | Ok _ => if decide (fst current = parent_identity s) then Done (Ok ()) else Done (Err SysOther)
        | Err _ => Done (Err SysOther)
        end
  end.

Definition publish_failed (s : StagedFile) (inject_cleanup_failure published : bool) (source : SysError)
    : prog (result PublishError PublishedParent) :=
  cleaned ← cleanup s inject_cleanup_failure;
  Done (Err {| publish_source := source; publish_cleanup_failed := negb cleaned; published := published |}).

Definition publish_replace (s : StagedFile) (inject_cleanup_failure : bool) : prog (result PublishError PublishedParent) :=
  bound ← verify_parent_binding s;
  match bound with
  | Err source => publish_failed s inject_cleanup_failure false source
  | Ok _ =>
      renamed ← ask (RenameAt (staged_parent s) (temporary_name s) (destination_name s)) : prog (sys ());
      match renamed with
      | Err source => publish_failed s inject_cleanup_failure false source
      | Ok _ => Done (Ok {| published_parent := staged_parent s; parent_cleanup_failed := false |})
      end
  end.

Definition publish_no_replace (s : StagedFile) (inject_cleanup_failure : bool) : prog (result PublishError PublishedParent) :=
  bound ← verify_parent_binding s;
  match bound with
  | Err source => publish_failed s inject_cleanup_failure false source
  | Ok _ =>
      linked ← ask (LinkAt (staged_parent s) (temporary_name s) (destination_name s)) : prog (sys ());
      match linked with
      | Err source => publish_failed s inject_cleanup_failure false source
      | Ok _ =>
          duplicated ← ask (Duplicate (staged_parent s)) : prog (sys ());
          match duplicated with
          | Err source => publish_failed s inject_cleanup_failure true source
          | Ok _ =>
              cleaned ← cleanup s inject_cleanup_failure;
              Done (Ok {| published_parent := staged_parent s; parent_cleanup_failed := negb cleaned |})
          end
      end
  end.

Definition remove_regular_file (target : CanonicalTarget) : prog (sys PublishedParent) :=
  opened ←? open_target_parent target;
  let '(parent, name) := opened in
  status ←? ask (StatusAt parent name) : prog (sys Metadata);
  if decide (meta_kind status = KindRegularFile) then
    _ ←? ask (UnlinkAt parent name) : prog (sys ());
    Done (Ok {| published_parent := parent; parent_cleanup_failed := false |})
  else Done (Err SysOther).

(** ** Opening keeps the view *)
Lemma open_directory_at_view parent component : keeps same_view (open_directory_at parent component).
Proof. unfold open_directory_at. keeps. Qed.
#[export] Hint Resolve open_directory_at_view : keeps.
Lemma open_components_view path directory : keeps same_view (open_components directory path).
Proof. revert directory. induction path as [|c path IH]; intros; simpl; keeps. Qed.
#[export] Hint Resolve open_components_view : keeps.
Lemma open_directory_path_view path : keeps same_view (open_directory_path path).
Proof. unfold open_directory_path. keeps. Qed.
#[export] Hint Resolve open_directory_path_view : keeps.
Lemma open_parents_view parents directory : keeps same_view (open_parents directory parents).
Proof. revert directory. induction parents as [|c path IH]; intros; simpl; keeps. Qed.
#[export] Hint Resolve open_parents_view : keeps.
Lemma open_target_parent_view target : keeps same_view (open_target_parent target).
Proof. unfold open_target_parent. keeps. Qed.
#[export] Hint Resolve open_target_parent_view : keeps.
Lemma verify_parent_binding_view s : keeps same_view (verify_parent_binding s).
Proof. unfold verify_parent_binding. keeps. Qed.
#[export] Hint Resolve verify_parent_binding_view : keeps.
Lemma remove_created_view entries residual : keeps same_view (remove_created entries residual).
Proof. revert residual. induction entries as [|e entries IH]; intros; simpl; keeps. Qed.
#[export] Hint Resolve remove_created_view : keeps.
Lemma cleanup_directories_view entries : keeps same_view (cleanup_directories entries).
Proof. unfold cleanup_directories. keeps. Qed.
#[export] Hint Resolve cleanup_directories_view : keeps.
Lemma ensure_loop_view parents current reported created : keeps same_view (ensure_loop current reported created parents).
Proof. revert current reported created. induction parents as [|c parents IH]; intros; simpl; keeps. Qed.
#[export] Hint Resolve ensure_loop_view : keeps.
Lemma ensure_parent_directories_view target : keeps same_view (ensure_parent_directories target).
Proof. unfold ensure_parent_directories. keeps. Qed.
#[export] Hint Resolve ensure_parent_directories_view : keeps.

(** ** Where an opened directory is

    [leads l path d]: in the log, [d] was reached from the root along the names
    of [path], none of them through a link. *)
Inductive leads (l : log) : list text → inode → Prop :=
  | leads_root d : Event OpenRoot (Ok d) ∈ l → leads l [ROOT] d
  | leads_name path d name d' : leads l path d → Event (OpenDirectoryAt d name) (Ok d') ∈ l → leads l (path ++ [name]) d'.

Lemma leads_prefix l l' path d : leads l path d → l `prefix_of` l' → leads l' path d.
Proof.
  intros Hl [k ->]. induction Hl as [d Hd|path d name d' _ IH Hd].
  - apply leads_root, elem_of_app. by left.
  - eapply leads_name; [exact IH|]. apply elem_of_app. by left.
Qed.

(** A target as the resolver builds it. *)
Record target_ok (t : CanonicalTarget) (root parents : list text) (final : text) : Prop := {
  to_absolute : absolute t = ROOT :: root ++ parents ++ [final];
  to_relative : relative t = parents ++ [final];
  to_plain : Forall plain (root ++ parents ++ [final]);
}.

Lemma plain_normal c : plain c → is_normal c = true.
Proof.
  intros (H1 & H2 & H3 & H4). unfold is_normal. rewrite bool_decide_eq_false_2; [done|].
  intros [-> |[-> | ->]]; [|done|done]. apply H4. unfold ROOT. set_solver.
Qed.

Lemma pop_times_app n path rest : length rest = n → Forall (λ c, c ≠ ROOT) rest → pop_times n (path ++ rest) = Ok path.
Proof.
  revert path rest. induction n as [|n IH]; intros path rest Hl Hr; [destruct rest; [by rewrite app_nil_r|done]|].
  destruct rest as [|c rest _] using rev_ind; [done|]. rewrite length_app in Hl. simpl in Hl.
  apply Forall_app in Hr as [Hr Hc]. rewrite app_assoc. cbn [pop_times]. rewrite parent_snoc by (by inv Hc).
  apply IH; [lia|done].
Qed.

Lemma target_parts_ok t root parents final : target_ok t root parents final →
  target_parts t = Ok (ROOT :: root, parents, final) ∧ workspace_root t = Ok (ROOT :: root).
Proof.
  intros [Ha Hr Hp]. apply Forall_app in Hp as [Hroot Hp].
  assert (workspace_root t = Ok (ROOT :: root)) as Hw.
  { unfold workspace_root. rewrite Ha, Hr.
    assert (filter (λ c, is_normal c = true) (parents ++ [final]) = parents ++ [final]) as ->.
    { apply filter_all. intros c Hc. rewrite Forall_forall in Hp. by apply plain_normal, Hp. }
    rewrite (pop_times_app _ (ROOT :: root) (parents ++ [final])); [|done|].
    - simpl. unfold path_join. rewrite decide_False.
      + by rewrite bool_decide_eq_true_2.
      + intros Hh. apply head_Some_elem_of in Hh. rewrite Forall_forall in Hp. by apply Hp, plain_root in Hh.
    - eapply Forall_impl; [exact Hp|]. intros c Hc ->. by apply plain_root in Hc. }
  split; [|done]. unfold target_parts. rewrite Hw, Hr. simpl. rewrite last_snoc. simpl. rewrite pop_snoc.
  apply Forall_app in Hp as [Hp Hf]. rewrite plain_normal by (by inv Hf). simpl.
  assert (forallb is_normal parents = true) as ->; [|done].
  apply forallb_forall. intros c Hc. apply plain_normal. rewrite Forall_forall in Hp. apply Hp. by apply list_elem_of_In.
Qed.

(** ** What the operations do *)
Lemma wp_ask c l Q : (∀ r, possible l c r → Q (l ++ [Event c r]) r) → wp (ask c) l Q.
Proof. done. Qed.
Lemma elem_of_snoc_event (l : log) e : e ∈ l ++ [e].
Proof. apply elem_of_app. right. by apply list_elem_of_here. Qed.

Lemma open_directory_at_leads path d component l :
  leads l path d →
  wp (open_directory_at d component) l (λ l' r, ∀ d', r = Ok d' → leads l' (path ++ [component]) d').
Proof.
  intros Hl. unfold open_directory_at, os_name. destruct (nul component); simpl; [done|].
  intros r _ d' ->. eapply leads_name; [eapply leads_prefix; [exact Hl|by eexists]|apply elem_of_snoc_event].
Qed.

Lemma open_parents_leads parents path d l :
  leads l path d → wp (open_parents d parents) l (λ l' r, ∀ d', r = Ok d' → leads l' (path ++ parents) d').
Proof.
  revert path d l. induction parents as [|c parents IH]; intros path d l Hl; simpl.
  - intros d' [= <-]. by rewrite app_nil_r.
  - apply wp_try. eapply wp_mono; [by apply (open_directory_at_leads path)|]. simpl.
    intros l' [d'|e] H; [|done]. specialize (H _ eq_refl). apply (IH (path ++ [c])) in H. by rewrite <-app_assoc in H.
Qed.

Lemma open_components_leads names path d l :
  Forall plain names → leads l path d →
  wp (open_components d names) l (λ l' r, ∀ d', r = Ok d' → leads l' (path ++ names) d').
Proof.
  intros Hn. revert path d l. induction Hn as [|c names Hc _ IH]; intros path d l Hl; simpl.
  - intros d' [= <-]. by rewrite app_nil_r.
  - assert (c ≠ ROOT) as Hroot by (intros ->; by apply plain_root in Hc). destruct Hc as (_ & Hcur & Hpar & _).
    rewrite decide_False by (intros [?|?]; done). rewrite decide_False by done.
    apply wp_try. eapply wp_mono; [by apply (open_directory_at_leads path)|]. simpl.
    intros l' [d'|e] H; [|done]. specialize (H _ eq_refl). apply (IH (path ++ [c])) in H. by rewrite <-app_assoc in H.
Qed.

Lemma open_directory_path_leads names l :
  Forall plain names → wp (open_directory_path (ROOT :: names)) l (λ l' r, ∀ d', r = Ok d' → leads l' (ROOT :: names) d').
Proof.
  intros Hn. unfold open_directory_path. simpl. intros r _. destruct r as [d|e]; [|done].
  apply (open_components_leads names [ROOT]); [done|].
  apply leads_root, elem_of_snoc_event.
Qed.

(** The directory of a target is reached from the root, through no link. *)
Lemma open_target_parent_leads t root parents final l :
  target_ok t root parents final →
  wp (open_target_parent t) l (λ l' r, ∀ d name, r = Ok (d, name) → name = final ∧ leads l' (ROOT :: root ++ parents) d).
Proof.
  intros Ht. unfold open_target_parent. destruct (target_parts_ok _ _ _ _ Ht) as [-> _].
  destruct Ht as [_ _ Hp]. apply Forall_app in Hp as [Hroot _].
  apply wp_try. eapply wp_mono; [by apply open_directory_path_leads|]. simpl. intros l' [d|e] H; [|done].
  specialize (H _ eq_refl). apply wp_try. eapply wp_mono; [by apply (open_parents_leads _ _ _ _ H)|]. simpl.
  intros l'' [d'|e] H'; [|done]. specialize (H' _ eq_refl). unfold os_name. destruct (nul final); simpl; [done|].
  by intros d'' name [= <- <-].
Qed.

Definition stage_key (s : StagedFile) : inode * text := (staged_parent s, temporary_name s).
(** A private file that has its name, in the directory it is meant for. *)
Record staged_ok (s : StagedFile) : Prop := {
  sk_active : active_name s = true;
  sk_parent : parent_identity s = staged_parent s;
  sk_private : is_private (temporary_name s) = true;
}.
(** From [v] to [v']: whether the private file was put under its name, and
    whether its private name stayed. *)
Definition put_of (s : StagedFile) (over : bool) (v : view) : change :=
  Put (staged_parent s) (destination_name s) (temporary_name s) over (last_read v).
Definition staged_step (s : StagedFile) (over put stays : bool) (v v' : view) : Prop :=
  changes v' = changes v ++ (if put then [put_of s over v] else []) ∧
  privates v' = (if stays then privates v else privates v ∖ {[stage_key s]}).

Lemma cleanup_spec s over inject l : staged_ok s →
  wp (cleanup s inject) l (λ l' ok, staged_step s over false (negb ok) (view_of l) (view_of l') ∧ last_read (view_of l') = last_read (view_of l)).
Proof.
  intros [Ha _ Hp]. unfold cleanup, staged_step. destruct inject; simpl; [by rewrite app_nil_r|].
  unfold unlink_temporary. rewrite Ha. simpl. intros r _. rewrite view_of_snoc. simpl.
  destruct r as [u|e]; simpl; [|by rewrite app_nil_r]. rewrite Hp. simpl. by rewrite app_nil_r.
Qed.

Lemma publish_failed_spec s over inject put source v l : staged_ok s →
  staged_step s over put true v (view_of l) →
  wp (publish_failed s inject put source) l (λ l' r,
    match r with Ok _ => False | Err e => published e = put ∧ staged_step s over put (publish_cleanup_failed e) v (view_of l') end).
Proof.
  intros Hs [Hc Hp]. unfold publish_failed. apply wp_bind. eapply wp_mono; [by apply (cleanup_spec _ over)|]. simpl.
  intros l' ok [[Hc' Hp'] _]. split; [done|]. rewrite app_nil_r in Hc'. split; [congruence|]. rewrite Hp', Hp. by destruct ok.
Qed.

Lemma staged_step_same s over v v' : v' = v → staged_step s over false true v v'.
Proof. intros ->. split; [by rewrite app_nil_r|done]. Qed.

Definition publishes (s : StagedFile) (over : bool) (l l' : log) (r : result PublishError PublishedParent) : Prop :=
  match r with
  | Ok p => published_parent p = staged_parent s ∧ staged_step s over true (parent_cleanup_failed p) (view_of l) (view_of l')
  | Err e => staged_step s over (published e) (publish_cleanup_failed e) (view_of l) (view_of l')
  end.

Lemma publish_replace_spec s inject l : staged_ok s → wp (publish_replace s inject) l (publishes s true l).
Proof.
  intros Hs. unfold publish_replace. eapply wp_keeps_bind; [apply verify_parent_binding_view|].
  intros l1 [u|e] Hl; unfold same_view in Hl.
  - simpl. intros [u'|e] _.
    + simpl. split; [done|]. rewrite view_of_snoc, Hl. simpl. by split.
    + eapply wp_mono; [apply (publish_failed_spec _ true _ _ _ (view_of l)); [done|]|].
      { apply staged_step_same. by rewrite view_of_snoc, Hl. }
      intros l' [?|e'] H; [done|]. simpl. by destruct H as [-> ?].
  - eapply wp_mono; [apply (publish_failed_spec _ true _ _ _ (view_of l)); [done|by apply staged_step_same]|].
    intros l' [?|e'] H; [done|]. simpl. by destruct H as [-> ?].
Qed.

Lemma publish_no_replace_spec s inject l : staged_ok s → wp (publish_no_replace s inject) l (publishes s false l).
Proof.
  intros Hs. unfold publish_no_replace. eapply wp_keeps_bind; [apply verify_parent_binding_view|].
  intros l1 [u|e] Hl; unfold same_view in Hl.
  - simpl. intros [u'|e] _.
    + assert (staged_step s false true true (view_of l) (view_of (l1 ++ [Event (LinkAt (staged_parent s) (temporary_name s) (destination_name s)) (Ok u')]))) as Hput
        by (rewrite view_of_snoc, Hl; by split).
      simpl. intros [u''|e] _.
      * apply wp_bind. eapply wp_mono; [by apply (cleanup_spec _ false)|]. simpl. intros l' ok [[Hc Hp] _].
        split; [done|]. rewrite view_of_snoc in Hc, Hp. destruct Hput as [Hc0 Hp0]. simpl in Hc, Hp. rewrite app_nil_r in Hc.
        split; [congruence|]. rewrite Hp. by destruct ok; simpl; rewrite Hp0.
      * eapply wp_mono; [apply (publish_failed_spec _ false _ _ _ (view_of l)); [done|]|].
        { rewrite view_of_snoc. exact Hput. }
        intros l' [?|e'] H; [done|]. simpl. by destruct H as [-> ?].
    + eapply wp_mono; [apply (publish_failed_spec _ false _ _ _ (view_of l)); [done|]|].
      { apply staged_step_same. by rewrite view_of_snoc, Hl. }
      intros l' [?|e'] H; [done|]. simpl. by destruct H as [-> ?].
  - eapply wp_mono; [apply (publish_failed_spec _ false _ _ _ (view_of l)); [done|by apply staged_step_same]|].
    intros l' [?|e'] H; [done|]. simpl. by destruct H as [-> ?].
Qed.

Lemma remove_regular_file_spec t root parents final l :
  target_ok t root parents final → is_private final = false →
  wp (remove_regular_file t) l (λ l' r,
    match r with
    | Ok p => leads l' (ROOT :: root ++ parents) (published_parent p) ∧
              changes (view_of l') = changes (view_of l) ++ [Gone (published_parent p) final (last_read (view_of l))] ∧
              privates (view_of l') = privates (view_of l)
    | Err _ => same_effects l l'
    end).
Proof.
  intros Ht Hf. unfold remove_regular_file. apply wp_try.
  eapply wp_mono; [apply wp_and; [by apply open_target_parent_leads|apply open_target_parent_view]|].
  simpl. intros l1 [[d name]|e] [Hl Hv]; [|by apply same_view_effects]. destruct (Hl _ _ eq_refl) as [-> Hd].
  unfold same_view in Hv. intros [m|e] _; simpl.
  2: { apply same_view_effects. unfold same_view. by rewrite view_of_snoc. }
  case_decide; simpl.
  - intros [u|e] _; simpl.
    + split; [|rewrite !view_of_snoc; simpl; by rewrite Hf, Hv].
      eapply leads_prefix; [exact Hd|]. rewrite <-app_assoc. by eexists.
    + apply same_view_effects. unfold same_view. by rewrite !view_of_snoc.
  - apply same_view_effects. unfold same_view. by rewrite view_of_snoc.
Qed.

(** ** Private names are never used twice *)
Section private_files.
Context (process_id : N).

Lemma private_name_inj a b : a ≤ U64_MAX → b ≤ U64_MAX → private_name process_id a = private_name process_id b → a = b.
Proof.
  intros Ha Hb Heq. unfold private_name in Heq. do 3 apply app_inv_head in Heq.
  destruct (display_u64_spec a Ha) as [<- _], (display_u64_spec b Hb) as [<- _]. by rewrite Heq.
Qed.
Lemma private_name_private n : is_private (private_name process_id n) = true.
Proof. apply bool_decide_eq_true_2. eexists. by apply strip_prefix_Some. Qed.

(** Every private file has the number of a stage. *)
Definition numbered (l : log) : Prop :=
  ∀ d name, (d, name) ∈ privates (view_of l) → ∃ n, n ∈ stage_numbers l ∧ n ≤ U64_MAX ∧ name = private_name process_id n.

Lemma stage_numbers_app l k : stage_numbers (l ++ k) = stage_numbers l ++ stage_numbers k.
Proof. apply omap_app. Qed.
Lemma numbered_le l l' : numbered l → l `prefix_of` l' → privates (view_of l') ⊆ privates (view_of l) → numbered l'.
Proof.
  intros Hn [k ->] Hp d name (n & Hin & Hle & ->)%Hp%Hn. exists n. split; [|done].
  rewrite stage_numbers_app. apply elem_of_app. by left.
Qed.

Record staged_for (t : CanonicalTarget) (l l' : log) (s : StagedFile) : Prop := {
  sf_ok : staged_ok s;
  sf_target : staged_target s = Some t;
  sf_fresh : stage_key s ∉ privates (view_of l);
  sf_privates : privates (view_of l') = {[stage_key s]} ∪ privates (view_of l);
  sf_changes : changes (view_of l') = changes (view_of l);
  sf_numbered : numbered l';
  sf_created : ∃ l0, l' = l0 ++ [Event (CreateAt (staged_parent s) (temporary_name s)) (Ok (staged_file s))];
}.

Lemma stage_loop_spec attempts parent destination t l : numbered l →
  wp (stage_loop process_id attempts parent destination (Some t)) l (λ l' r,
    match r with
    | Ok s => staged_for t l l' s ∧ staged_parent s = parent ∧ destination_name s = destination
    | Err _ => same_effects l l' ∧ numbered l'
    end).
Proof.
  revert l. induction attempts as [|attempts IH]; intros l Hn; simpl; [done|].
  intros n [Hle Hfresh] [file|e] _; simpl.
  - split; [|done].
    set (k := l ++ [Event NextStage n]). assert (view_of k = view_of l) as Hk by (unfold k; by rewrite view_of_snoc).
    split; [by split; [..|apply private_name_private]|done| | | | |].
    + intros (m & Hm & Hmle & Heq)%Hn. simpl in Heq. apply private_name_inj in Heq as ->; [|done..]. done.
    + rewrite view_of_snoc. simpl. by rewrite Hk.
    + rewrite view_of_snoc. simpl. by rewrite Hk.
    + intros d name. rewrite view_of_snoc. simpl. rewrite Hk. intros [Hin|Hin]%elem_of_union.
      * apply elem_of_singleton in Hin. injection Hin as -> ->. exists n. split; [|done].
        unfold k. rewrite !stage_numbers_app. simpl. set_solver.
      * destruct (Hn _ _ Hin) as (m & Hm & ? & ->). exists m. split; [|done]. unfold k. rewrite !stage_numbers_app. set_solver.
    + by eexists.
  - assert (same_effects l ((l ++ [Event NextStage n]) ++ [Event (CreateAt parent (private_name process_id n)) (Err e)])) as Hs
      by (apply same_view_effects; unfold same_view; by rewrite !view_of_snoc).
    assert (numbered ((l ++ [Event NextStage n]) ++ [Event (CreateAt parent (private_name process_id n)) (Err e)])) as Hn'.
    { eapply numbered_le; [exact Hn|rewrite <-app_assoc; by eexists|]. by destruct Hs as [-> _]. }
    destruct e; simpl; [done| |done].
    eapply wp_mono; [by apply IH|]. simpl. intros l' [s|e].
    + intros [[H1 H2 H3 H4 H5 H6 H7] Hrest]. destruct Hs as [Hsp Hsc]. split; [|done]. split; try done; congruence.
    + intros [H Hnum]. split; [by etrans|done].
Qed.

Lemma create_staged_spec t root parents final l :
  numbered l → target_ok t root parents final →
  wp (create_staged process_id t) l (λ l' r,
    match r with
    | Ok s => staged_for t l l' s ∧ destination_name s = final ∧ leads l' (ROOT :: root ++ parents) (staged_parent s)
    | Err _ => same_effects l l' ∧ numbered l'
    end).
Proof.
  intros Hn Ht. unfold create_staged. apply wp_try.
  eapply wp_mono; [apply wp_and; [by apply open_target_parent_leads|apply wp_and; [apply open_target_parent_view|apply wp_prefix]]|].
  intros l1 [[d name]|e] [Hl [Hv Hpre]].
  2: { split; [by apply same_view_effects|]. eapply numbered_le; [done|done|]. by rewrite Hv. }
  destruct (Hl _ _ eq_refl) as [-> Hd]. cbn [fst snd]. unfold stage_in_parent. apply wp_try, wp_ask. intros r _.
  assert (same_effects l (l1 ++ [Event (Status d) r])) as Hs
    by (apply same_view_effects; unfold same_view; by rewrite view_of_snoc).
  assert (numbered (l1 ++ [Event (Status d) r])) as Hn'.
  { eapply numbered_le; [exact Hn|etrans; [exact Hpre|by eexists]|]. by destruct Hs as [-> _]. }
  destruct r as [u|e]; [|done]. eapply wp_mono; [apply wp_and; [by apply stage_loop_spec|apply wp_prefix]|]. simpl.
  intros l' [s|e] [H Hpre'].
  - destruct H as ([H1 H2 H3 H4 H5 H6 H7] & Hp & Hdn). destruct Hs as [Hsp Hsc].
    split; [split; try done; congruence|]. split; [done|]. rewrite Hp. eapply leads_prefix; [exact Hd|].
    etrans; [by eexists|exact Hpre'].
  - destruct H as [H Hnum]. split; [by etrans|done].
Qed.
End private_files.
