(* ===== verification/FileMutation.v ===== *)
(** * The mutation engine of patches

    Models, on Linux, [cas.rs], [durability.rs] and [mutation.rs] of
    [crates/tools/src/apply_patch/file_mutation/]: the primitive changes of one
    file, each checked against the version it was planned for at the moment of
    its commit, staged privately and published by one system call. The guard of
    the lock that every operation takes is a token without content and is left
    out; SHA-256 is a parameter. *)
From S2P Require Import Prelude Ordered UnixPath FileSystem FileTarget PatchGuards TextSnapshot PatchHistory SystemCalls SecureFs.
Local Open Scope N_scope.

(** ** Compare and swap ([cas.rs]) *)
Inductive CasRole := RoleSource | RoleDestination | RoleMoveDestination.
Inductive CasExpectation := ExpectExact (token : FileVersionToken) | ExpectMissing.
#[export] Instance CasExpectation_eq_dec : EqDecision CasExpectation.
Proof. solve_decision. Defined.
Inductive CasState := StateMissing | StateExisting.
Inductive CasErrorCode := CasStaleSource | CasStaleDestination | CasDestinationExists | CasUnsupportedContent | CasReadFailed.
Record CasError := { cas_code : CasErrorCode; cas_role : CasRole; cas_state : CasState }.
Definition cas_error (code : CasErrorCode) (role : CasRole) (state : CasState) : CasError :=
  {| cas_code := code; cas_role := role; cas_state := state |}.

Definition stale_code (role : CasRole) : CasErrorCode :=
  match role with RoleSource => CasStaleSource | RoleDestination | RoleMoveDestination => CasStaleDestination end.
Definition validate_cas (expectation : CasExpectation) (current : option FileVersionToken) (role : CasRole) : result CasError () :=
  match expectation, current with
  | ExpectMissing, None => Ok ()
  | ExpectMissing, Some _ => Err (cas_error CasDestinationExists role StateExisting)
  | ExpectExact expected, Some actual =>
      if decide (expected = actual) then Ok () else Err (cas_error (stale_code role) role StateExisting)
  | ExpectExact _, None => Err (cas_error (stale_code role) role StateMissing)
  end.

(** ** Faults, durability and metadata ([durability.rs]) *)
Inductive FaultPoint :=
  | CrossDevicePoint | StageCreatePoint | StageWritePoint | FileSyncPoint | RenamePoint | ParentSyncPoint | DeletePoint
  | MetadataPoint | CleanupPoint.
#[export] Instance FaultPoint_eq_dec : EqDecision FaultPoint.
Proof. solve_decision. Defined.
Record FaultPlan := { fail_at : option FaultPoint; fail_stage_attempt : option N }.
Definition fault_none : FaultPlan := {| fail_at := None; fail_stage_attempt := None |}.
(** [FaultPlan::check]: whether the point works. *)
Definition fault_check (faults : FaultPlan) (point : FaultPoint) : sys () :=
  if decide (fail_at faults = Some point) then Err SysOther else Ok ().
Definition injected (faults : FaultPlan) (point : FaultPoint) : bool :=
  match fault_check faults point with Ok _ => false | Err _ => true end.

Inductive MetadataPolicy := PreserveMode | SafeAddModeOnly.
Record DurabilityOptions := { sync_file : bool; sync_parent : bool; metadata_policy : MetadataPolicy; faults : FaultPlan }.
(** [DurabilityOptions { faults, ..default() }]. *)
Definition durability_of (plan : FaultPlan) : DurabilityOptions :=
  {| sync_file := true; sync_parent := true; metadata_policy := PreserveMode; faults := plan |}.
Definition default_durability : DurabilityOptions := durability_of fault_none.

Inductive MetadataWarning :=
  | ExtendedAttributesNotPreserved | AclNotPreserved | WindowsAlternateStreamsNotPreserved | DirectoryDurabilityNotGuaranteed
  | TemporaryFileCleanupFailed.
#[export] Instance MetadataWarning_eq_dec : EqDecision MetadataWarning.
Proof. solve_decision. Defined.
Definition warning_str (w : MetadataWarning) : string :=
  match w with
  | ExtendedAttributesNotPreserved => "extended_attributes_not_preserved"
  | AclNotPreserved => "acl_not_preserved"
  | WindowsAlternateStreamsNotPreserved => "windows_alternate_streams_not_preserved"
  | DirectoryDurabilityNotGuaranteed => "directory_durability_not_guaranteed"
  | TemporaryFileCleanupFailed => "temporary_file_cleanup_failed"
  end.

Definition is_acl_xattr (name : list N) : bool :=
  bool_decide (name = lit "system.posix_acl_access" ∨ name = lit "system.posix_acl_default").
Definition metadata_warnings_for_source (path : list text) : prog (sys (list MetadataWarning)) :=
  names ←? ask (ListAttributes path) : prog (sys (list (list N)));
  let extended := existsb (λ name, negb (is_acl_xattr name)) names in
  let acl := existsb is_acl_xattr names in
  Done (Ok ((if extended then [ExtendedAttributesNotPreserved] else []) ++ (if acl then [AclNotPreserved] else []))).
Definition apply_safe_add_mode_to_file (file : inode) : prog (sys (list MetadataWarning)) :=
  current ←? ask (Mode file) : prog (sys N);
  _ ←? ask (SetMode file (N.land current 511)) : prog (sys ());
  Done (Ok []).
Definition supported_mode (path : list text) : prog (sys (option N)) :=
  metadata ←? ask (PathMetadata path) : prog (sys Metadata);
  if decide (meta_kind metadata = KindRegularFile) then Done (Ok (Some (meta_mode metadata))) else Done (Err SysOther).
Definition apply_supported_mode_to_file (file : inode) (mode : option N) : prog (sys ()) :=
  match mode with Some mode => ask (SetMode file mode) : prog (sys ()) | None => Done (Ok ()) end.
Definition directory_durability_warnings : list MetadataWarning := [].

(** ** Outcomes ([mutation.rs]) *)
Inductive MutationKind := MutAdd | MutReplace | MutDelete | MutMove.
Inductive StageMetadata := SafeAdd | PreserveSupportedMode (mode : option N) (source_path : option (list text)).
Record MutationSnapshot := {
  ms_version : FileVersionToken; ms_bytes : list N; ms_encoding : SnapshotEncoding; ms_line_endings : SnapshotLineEndings;
}.
Record MutationSideEffects := {
  created_directories : list (list text);
  residual_directories : list (list text);
  metadata_warnings : list MetadataWarning;
  exact : bool;
}.
Definition no_side_effects : MutationSideEffects :=
  {| created_directories := []; residual_directories := []; metadata_warnings := []; exact := true |}.
Record MutationChange := {
  mut_kind : MutationKind; mut_source : CanonicalTarget; mut_destination : option CanonicalTarget;
  mut_before : option MutationSnapshot; mut_after : option MutationSnapshot;
  mut_overwritten : option MutationSnapshot; mut_effects : MutationSideEffects;
}.
Inductive MutationErrorCode :=
  | MutLock | MutCas | TargetMissing | TargetExists | CrossDevice | NotRegularFile | ParentCreation | StageCreate | StageWrite
  | MutSync | MutRename | DeleteFailed | MetadataFailed | Uncertainty | SnapshotFailed.
#[export] Instance MutationErrorCode_eq_dec : EqDecision MutationErrorCode.
Proof. solve_decision. Defined.
Record MutationError := {
  error_code : MutationErrorCode; error_cas : option CasErrorCode; error_source : option SysError;
  error_effects : MutationSideEffects;
}.
Inductive MutationOutcome :=
  | Applied (change : MutationChange)
  | Failed (error : MutationError) (committed : option MutationChange)
  | Uncertain (error : MutationError) (committed : option MutationChange).

Definition merge_effects (a b : MutationSideEffects) : MutationSideEffects :=
  {| created_directories := dedup (sort_on id (created_directories a ++ created_directories b));
     residual_directories := dedup (sort_on id (residual_directories a ++ residual_directories b));
     metadata_warnings := dedup (sort_on warning_str (metadata_warnings a ++ metadata_warnings b));
     exact := exact a && exact b |}.

Definition error_of (code : MutationErrorCode) : MutationError :=
  {| error_code := code; error_cas := None; error_source := None; error_effects := no_side_effects |}.
Definition error_cas_of (e : CasError) : MutationError :=
  {| error_code := MutCas; error_cas := Some (cas_code e); error_source := None; error_effects := no_side_effects |}.
Definition error_io (code : MutationErrorCode) (source : SysError) : MutationError :=
  {| error_code := code; error_cas := None; error_source := Some source; error_effects := no_side_effects |}.
Definition error_snapshot (e : SnapshotErrorCode) : MutationError :=
  {| error_code := SnapshotFailed;
     error_cas := match e with BinaryContent | SnapshotInvalidUtf8 | TooLarge => Some CasUnsupportedContent | _ => None end;
     error_source := match e with Io => Some SysOther | _ => None end;
     error_effects := no_side_effects |}.
Definition with_side_effects (effects : MutationSideEffects) (e : MutationError) : MutationError :=
  {| error_code := error_code e; error_cas := error_cas e; error_source := error_source e; error_effects := effects |}.

Definition push_cleanup_warning (warnings : list MetadataWarning) : list MetadataWarning :=
  if decide (TemporaryFileCleanupFailed ∈ warnings) then warnings else warnings ++ [TemporaryFileCleanupFailed].
Definition side_effects_exact (warnings : list MetadataWarning) : bool :=
  negb (bool_decide (TemporaryFileCleanupFailed ∈ warnings)).
Definition side_effects_with_metadata (warnings : list MetadataWarning) : MutationSideEffects :=
  {| created_directories := []; residual_directories := []; metadata_warnings := warnings; exact := side_effects_exact warnings |}.
(** The number of components decides, the longest first, in a stable way. *)
Definition sort_deepest_first (paths : list (list text)) : list (list text) :=
  let deepest := foldr N.max 0 ((λ p : list text, N.of_nat (length p)) <$> paths) in
  sort_on (λ p : list text, deepest - N.of_nat (length p)) paths.
Definition attach_metadata_warnings (warnings : list MetadataWarning) (e : MutationError) : MutationError :=
  let effects := error_effects e in
  let all := dedup (sort_on warning_str (metadata_warnings effects ++ warnings)) in
  with_side_effects {| created_directories := created_directories effects; residual_directories := residual_directories effects;
                       metadata_warnings := all; exact := exact effects && side_effects_exact all |} e.
Definition failed (e : MutationError) : MutationOutcome := Failed e None.
(** An uncertain outcome is never exact. *)
Definition inexact (effects : MutationSideEffects) : MutationSideEffects :=
  {| created_directories := created_directories effects; residual_directories := residual_directories effects;
     metadata_warnings := metadata_warnings effects; exact := false |}.
Definition uncertain (e : MutationError) (c : MutationChange) : MutationOutcome :=
  Uncertain (with_side_effects (inexact (error_effects e)) e)
    (Some {| mut_kind := mut_kind c; mut_source := mut_source c; mut_destination := mut_destination c; mut_before := mut_before c;
             mut_after := mut_after c; mut_overwritten := mut_overwritten c; mut_effects := inexact (mut_effects c) |}).

Section engine.
Context (digest : list N → list N) (process_id : N).
(** [MutationOptions]: its limits and its durability. *)
Context (limits : SnapshotLimits) (durability : DurabilityOptions).

(** ** Reading a target *)
Definition from_text (s : TextSnapshot) : result MutationError MutationSnapshot :=
  match bytes_of digest s with
  | Ok bytes => Ok {| ms_version := version s; ms_bytes := bytes; ms_encoding := encoding s; ms_line_endings := line_endings s |}
  | Err e => Err (error_snapshot e)
  end.
Definition snapshot_from_bytes (bytes : list N) : prog (result MutationError MutationSnapshot) :=
  file ← ask NewSpool : prog spool;
  Done (match from_bytes digest file bytes limits with Ok s => from_text s | Err e => Err (error_snapshot e) end).
(** [TextSnapshot::from_file]. *)
Definition from_file (path : list text) : prog (result SnapshotErrorCode TextSnapshot) :=
  opened ← ask (ReadFile path) : prog (sys (reader * spool));
  Done (match opened with Ok (r, file) => from_reader digest file r limits | Err _ => Err Io end).

Definition version_on_disk (target : CanonicalTarget) : prog (result CasError (option FileVersionToken)) :=
  metadata ← ask (PathMetadata (absolute target)) : prog (sys Metadata);
  match metadata with
  | Err SysNotFound => Done (Ok None)
  | Err _ => Done (Err (cas_error CasReadFailed RoleSource StateExisting))
  | Ok metadata =>
      if decide (meta_kind metadata = KindRegularFile) then
        s ← from_file (absolute target);
        Done (match s with
              | Ok s => Ok (Some (version s))
              | Err (BinaryContent | SnapshotInvalidUtf8 | TooLarge) => Err (cas_error CasUnsupportedContent RoleSource StateExisting)
              | Err _ => Err (cas_error CasReadFailed RoleSource StateExisting)
              end)
      else Done (Err (cas_error CasUnsupportedContent RoleSource StateExisting))
  end.
Definition revalidate (target : CanonicalTarget) (expectation : CasExpectation) (role : CasRole) : prog (result MutationError ()) :=
  current ← version_on_disk target;
  Done (match current with
        | Err e => Err (error_cas_of e)
        | Ok current => match validate_cas expectation current role with Ok _ => Ok () | Err e => Err (error_cas_of e) end
        end).
Definition revalidate_exact (target : CanonicalTarget) (expected : FileVersionToken) : prog (result MutationError ()) :=
  revalidate target (ExpectExact expected) RoleSource.
Definition revalidate_destination (target : CanonicalTarget) (expectation : CasExpectation) : prog (result MutationError ()) :=
  revalidate target expectation RoleMoveDestination.
Definition read_existing (target : CanonicalTarget) : prog (result MutationError MutationSnapshot) :=
  metadata ← ask (PathMetadata (absolute target)) : prog (sys Metadata);
  match metadata with
  | Err _ => Done (Err (error_of TargetMissing))
  | Ok metadata =>
      if decide (meta_kind metadata = KindRegularFile) then
        s ← from_file (absolute target);
        Done (match s with Ok s => from_text s | Err e => Err (error_snapshot e) end)
      else Done (Err (error_of NotRegularFile))
  end.

Fixpoint nearest_existing_directory (fuel : nat) (path : list text) : prog (sys (list text)) :=
  metadata ← ask (PathMetadata path) : prog (sys Metadata);
  match metadata with
  | Ok metadata => Done (if decide (meta_kind metadata = KindDirectory) then Ok path else Err SysOther)
  | Err SysNotFound =>
      match fuel, parent path with
      | S fuel, Some path => nearest_existing_directory fuel path
      | _, _ => Done (Err SysNotFound)
      end
  | Err e => Done (Err e)
  end.
Definition same_filesystem (source destination : list text) : prog (sys bool) :=
  source ←? ask (PathMetadata source) : prog (sys Metadata);
  if decide (meta_kind source = KindRegularFile) then
    match parent destination with
    | None => Done (Err SysOther)
    | Some destination =>
        directory ←? nearest_existing_directory (length destination) destination;
        found ←? ask (PathMetadata directory) : prog (sys Metadata);
        Done (if decide (meta_kind found = KindDirectory)
              then Ok (bool_decide (fst (meta_inode source) = fst (meta_inode found))) else Err SysOther)
    end
  else Done (Err SysOther).

(** ** Errors that clean up *)
Definition cleanup_staged_error (plan : DurabilityOptions) (staged : StagedFile) (e : MutationError) : prog MutationError :=
  cleaned ← cleanup staged (injected (faults plan) CleanupPoint);
  let effects := error_effects e in
  Done (if cleaned : bool then e
        else with_side_effects
               {| created_directories := created_directories effects; residual_directories := residual_directories effects;
                  metadata_warnings := push_cleanup_warning (metadata_warnings effects); exact := false |} e).
Definition cleanup_error (parents : list CreatedDirectory) (e : MutationError) : prog MutationError :=
  removed ← cleanup_directories parents;
  let '(created, residual) := removed in
  let effects := error_effects e in
  Done (with_side_effects
          {| created_directories := sort_deepest_first created; residual_directories := sort_deepest_first residual;
             metadata_warnings := metadata_warnings effects; exact := exact effects && bool_decide (residual = []) |} e).
Definition parent_creation_error (created : list CreatedDirectory) : prog MutationSideEffects :=
  removed ← cleanup_directories created;
  let '(created, residual) := removed in
  Done {| created_directories := sort_deepest_first created; residual_directories := sort_deepest_first residual;
          metadata_warnings := []; exact := bool_decide (residual = []) |}.
Definition ensure_parents (target : CanonicalTarget) : prog (result MutationError (list CreatedDirectory)) :=
  created ← ensure_parent_directories target;
  match created with
  | Ok created => Done (Ok created)
  | Err failure =>
      effects ← parent_creation_error (creation_created failure);
      Done (Err (with_side_effects effects (error_io ParentCreation (creation_source failure))))
  end.

(** ** Staging *)
Definition stage_bytes (target : CanonicalTarget) (bytes : list N) : prog (result MutationError StagedFile) :=
  let plan := faults durability in
  match fault_check plan StageCreatePoint with
  | Err e => Done (Err (error_io StageCreate e))
  | Ok _ =>
      staged ← create_staged process_id target;
      match staged with
      | Err e => Done (Err (error_io StageCreate e))
      | Ok staged =>
          let fail code source :=
            e ← cleanup_staged_error (durability_of plan) staged (error_io code source); Done (Err e) in
          match fault_check plan StageWritePoint with
          | Err e => fail StageWrite e
          | Ok _ =>
              written ← ask (Write (staged_file staged) bytes) : prog (sys ());
              match written with
              | Err e => fail StageWrite e
              | Ok _ =>
                  if sync_file durability then
                    match fault_check plan FileSyncPoint with
                    | Err e => fail MutSync e
                    | Ok _ =>
                        synced ← ask (Sync (staged_file staged)) : prog (sys ());
                        match synced with Err e => fail MutSync e | Ok _ => Done (Ok staged) end
                    end
                  else Done (Ok staged)
              end
          end
      end
  end.

Definition apply_staged_metadata (staged : StagedFile) (source_path : option (list text)) (source_mode : option N)
    : prog (result MutationError (list MetadataWarning)) :=
  match fault_check (faults durability) MetadataPoint with
  | Err e => Done (Err (error_io MetadataFailed e))
  | Ok _ =>
      applied ←
        match metadata_policy durability, source_mode with
        | PreserveMode, Some mode =>
            _ ←? apply_supported_mode_to_file (staged_file staged) (Some mode);
            match source_path with Some path => metadata_warnings_for_source path | None => Done (Ok []) end
        | PreserveMode, None | SafeAddModeOnly, _ => apply_safe_add_mode_to_file (staged_file staged)
        end;
      Done (match applied with Ok warnings => Ok warnings | Err e => Err (error_io MetadataFailed e) end)
  end.

Record PreparedFileStage := {
  target_identity : text;
  stage_after : MutationSnapshot;
  stage_staged : StagedFile;
  stage_parents : list CreatedDirectory;
  stage_warnings : list MetadataWarning;
  resulting_mode : option N;
}.

Definition prepare_file_stage_locked (target : CanonicalTarget) (bytes : list N) (metadata : StageMetadata)
    : prog (result MutationError PreparedFileStage) :=
  attempts ← ask NextAttempt : prog N;
  if decide (fail_stage_attempt (faults durability) = Some (attempts + 1)) then Done (Err (error_io StageWrite SysOther))
  else
    after ←? snapshot_from_bytes bytes;
    parents ←? ensure_parents target;
    staged ← stage_bytes target (ms_bytes after);
    match staged with
    | Err e => e ← cleanup_error parents e; Done (Err e)
    | Ok staged =>
        let fail e := e ← cleanup_staged_error durability staged e; e ← cleanup_error parents e; Done (Err e) in
        let '(source_mode, source_path) :=
          match metadata with SafeAdd => (None, None) | PreserveSupportedMode mode source_path => (mode, source_path) end in
        warnings ← apply_staged_metadata staged source_path source_mode;
        match warnings with
        | Err e => fail e
        | Ok warnings =>
            synced ← (if sync_file durability then ask (Sync (staged_file staged)) else Done (Ok ())) : prog (sys ());
            match synced with
            | Err e => fail (error_io MutSync e)
            | Ok _ =>
                mode ← ask (Mode (staged_file staged)) : prog (sys N);
                match mode with
                | Err e => fail (error_io MetadataFailed e)
                | Ok mode =>
                    Done (Ok {| target_identity := identity target; stage_after := after; stage_staged := staged;
                                stage_parents := parents; stage_warnings := warnings; resulting_mode := Some mode |})
                end
            end
        end
    end.

(** [abort] and the drop of a stage. *)
Definition abort (stage : PreparedFileStage) : prog MutationSideEffects :=
  cleaned ← cleanup (stage_staged stage) (injected (faults durability) CleanupPoint);
  removed ← cleanup_directories (stage_parents stage);
  let '(created, residual) := removed in
  Done {| created_directories := sort_deepest_first created; residual_directories := sort_deepest_first residual;
          metadata_warnings := if cleaned : bool then [] else [TemporaryFileCleanupFailed];
          exact := (cleaned : bool) && bool_decide (residual = []) |}.
Definition failed_with_aborted_stage (stage : PreparedFileStage) (e : MutationError) : prog MutationOutcome :=
  effects ← abort stage;
  Done (failed (with_side_effects (merge_effects (error_effects e) effects) e)).
(** Whether the stage is one of the target; otherwise it is dropped. *)
Definition into_parts (stage : PreparedFileStage) (target : CanonicalTarget) : prog (result MutationError PreparedFileStage) :=
  if decide (target_identity stage = identity target) then Done (Ok stage)
  else effects ← abort stage; Done (Err (with_side_effects effects (error_of StageWrite))).

(** ** Publishing *)
Definition publish_error (e : PublishError) (pre_publish_code : MutationErrorCode) : MutationError :=
  let mutation := error_io (if published e then Uncertainty else pre_publish_code) (publish_source e) in
  if publish_cleanup_failed e then
    with_side_effects {| created_directories := []; residual_directories := [];
                         metadata_warnings := push_cleanup_warning []; exact := false |} mutation
  else mutation.
(** The end of both ways to publish: the warnings so far, and whether the
    directory was flushed. *)
Definition sync_published (p : PublishedParent) (warnings : list MetadataWarning)
    : prog (list MetadataWarning * result MutationError ()) :=
  let warnings := if parent_cleanup_failed p then push_cleanup_warning warnings else warnings in
  if sync_parent durability then
    match fault_check (faults durability) ParentSyncPoint with
    | Err e => Done (warnings, Err (attach_metadata_warnings warnings (error_io Uncertainty e)))
    | Ok _ =>
        synced ← ask (Sync (published_parent p)) : prog (sys ());
        Done (warnings, match synced with
                        | Ok _ => Ok ()
                        | Err e => Err (attach_metadata_warnings warnings (error_io Uncertainty e))
                        end)
    end
  else Done (warnings, Ok ()).
Definition persist_with (publish : StagedFile → bool → prog (result PublishError PublishedParent))
    (code : PublishError → MutationErrorCode) (staged : StagedFile) (warnings : list MetadataWarning)
    : prog (list MetadataWarning * result MutationError ()) :=
  match fault_check (faults durability) RenamePoint with
  | Err e => e ← cleanup_staged_error durability staged (error_io MutRename e); Done (warnings, Err e)
  | Ok _ =>
      done ← publish staged (injected (faults durability) CleanupPoint);
      match done with
      | Err e => Done (warnings, Err (publish_error e (code e)))
      | Ok p => sync_published p warnings
      end
  end.
Definition persist_stage := persist_with publish_replace (λ _, MutRename).
Definition persist_stage_no_replace := persist_with publish_no_replace (λ e,
  if negb (published e) && bool_decide (publish_source e = SysAlreadyExists) then TargetExists else MutRename).

Definition change_of (kind : MutationKind) (source : CanonicalTarget) (before after : option MutationSnapshot)
    (effects : MutationSideEffects) : MutationChange :=
  {| mut_kind := kind; mut_source := source; mut_destination := None; mut_before := before; mut_after := after;
     mut_overwritten := None; mut_effects := effects |}.
Definition effects_of (created : list (list text)) (warnings : list MetadataWarning) : MutationSideEffects :=
  {| created_directories := created; residual_directories := []; metadata_warnings := warnings;
     exact := side_effects_exact warnings |}.
(** [CreatedDirectories::into_paths]. *)
Definition into_paths (entries : list CreatedDirectory) : list (list text) := sort_deepest_first (created_paths entries).

Definition create_prepared_locked (target : CanonicalTarget) (stage : PreparedFileStage) : prog MutationOutcome :=
  current ← version_on_disk target;
  match match current with
        | Err e => Err e
        | Ok current => validate_cas ExpectMissing current RoleDestination
        end with
  | Err e => failed_with_aborted_stage stage (error_cas_of e)
  | Ok _ =>
      parts ← into_parts stage target;
      match parts with
      | Err e => Done (failed e)
      | Ok stage =>
          persisted ← persist_stage_no_replace (stage_staged stage) (stage_warnings stage);
          let '(warnings, persisted) := persisted in
          match persisted with
          | Err e =>
              cleaned ← cleanup_error (stage_parents stage) e;
              let cleaned := attach_metadata_warnings warnings cleaned in
              Done (if decide (error_code e = Uncertainty) then
                      uncertain cleaned (change_of MutAdd target None (Some (stage_after stage))
                        (effects_of (created_paths (stage_parents stage)) warnings))
                    else failed cleaned)
          | Ok _ =>
              Done (Applied (change_of MutAdd target None (Some (stage_after stage))
                (effects_of (into_paths (stage_parents stage)) warnings)))
          end
      end
  end.

Definition replace_prepared_locked (target : CanonicalTarget) (expected : FileVersionToken) (stage : PreparedFileStage)
    : prog MutationOutcome :=
  before ← read_existing target;
  match before with
  | Err e => failed_with_aborted_stage stage e
  | Ok before =>
      match validate_cas (ExpectExact expected) (Some (ms_version before)) RoleSource with
      | Err e => failed_with_aborted_stage stage (error_cas_of e)
      | Ok _ =>
          parts ← into_parts stage target;
          match parts with
          | Err e => Done (failed e)
          | Ok stage =>
              checked ← revalidate_exact target expected;
              match checked with
              | Err e =>
                  e ← cleanup_staged_error durability (stage_staged stage) e;
                  e ← cleanup_error (stage_parents stage) e;
                  Done (failed e)
              | Ok _ =>
                  persisted ← persist_stage (stage_staged stage) (stage_warnings stage);
                  let '(warnings, persisted) := persisted in
                  match persisted with
                  | Err e =>
                      cleaned ← cleanup_error (stage_parents stage) e;
                      let cleaned := attach_metadata_warnings warnings cleaned in
                      Done (if decide (error_code cleaned = Uncertainty) then
                              uncertain cleaned (change_of MutReplace target (Some before) (Some (stage_after stage))
                                (side_effects_with_metadata warnings))
                            else failed cleaned)
                  | Ok _ =>
                      Done (Applied (change_of MutReplace target (Some before) (Some (stage_after stage))
                        (effects_of (into_paths (stage_parents stage)) warnings)))
                  end
              end
          end
      end
  end.

Definition delete_locked (target : CanonicalTarget) (expected : FileVersionToken) : prog MutationOutcome :=
  let warnings := directory_durability_warnings in
  let effects := {| created_directories := []; residual_directories := []; metadata_warnings := warnings; exact := true |} in
  before ← read_existing target;
  match before with
  | Err e => Done (failed e)
  | Ok before =>
      match validate_cas (ExpectExact expected) (Some (ms_version before)) RoleSource with
      | Err e => Done (failed (error_cas_of e))
      | Ok _ =>
          match fault_check (faults durability) DeletePoint with
          | Err e => Done (failed (error_io DeleteFailed e))
          | Ok _ =>
              checked ← revalidate_exact target expected;
              match checked with
              | Err e => Done (failed e)
              | Ok _ =>
                  removed ← remove_regular_file target;
                  match removed with
                  | Err e => Done (failed (error_io DeleteFailed e))
                  | Ok parent =>
                      let change := change_of MutDelete target (Some before) None effects in
                      if sync_parent durability then
                        synced ← match fault_check (faults durability) ParentSyncPoint with
                                 | Err e => Done (Err e)
                                 | Ok _ => ask (Sync (published_parent parent))
                                 end : prog (sys ());
                        Done (match synced with
                              | Err e => uncertain (error_io DeleteFailed e) change
                              | Ok _ => Applied change
                              end)
                      else Done (Applied change)
                  end
              end
          end
      end
  end.

Definition published_move_destination_change (destination : CanonicalTarget) (overwritten : option MutationSnapshot)
    (after : MutationSnapshot) (created : list (list text)) (warnings : list MetadataWarning) : MutationChange :=
  change_of (match overwritten with Some _ => MutReplace | None => MutAdd end) destination overwritten (Some after)
    {| created_directories := created; residual_directories := []; metadata_warnings := warnings; exact := false |}.
Definition move_change (source destination : CanonicalTarget) (before : MutationSnapshot) (after : MutationSnapshot)
    (overwritten : option MutationSnapshot) (effects : MutationSideEffects) : MutationChange :=
  {| mut_kind := MutMove; mut_source := source; mut_destination := Some destination; mut_before := Some before;
     mut_after := Some after; mut_overwritten := overwritten; mut_effects := effects |}.
(** [error.side_effects.metadata_warnings = metadata_warnings.clone()]. *)
Definition set_warnings (warnings : list MetadataWarning) (e : MutationError) : MutationError :=
  let effects := error_effects e in
  with_side_effects {| created_directories := created_directories effects; residual_directories := residual_directories effects;
                       metadata_warnings := warnings; exact := exact effects |} e.

(** The checks of a move before its commit: what the source holds and what the
    destination held. *)
Definition read_destination (destination : CanonicalTarget) (expectation : CasExpectation)
    : prog (result MutationError (option MutationSnapshot)) :=
  metadata ← ask (PathMetadata (absolute destination)) : prog (sys Metadata);
  match metadata with
  | Err SysNotFound =>
      Done (match validate_cas expectation None RoleMoveDestination with Ok _ => Ok None | Err e => Err (error_cas_of e) end)
  | Err e => Done (Err (error_io MetadataFailed e))
  | Ok _ =>
      s ←? read_existing destination;
      Done (match validate_cas expectation (Some (ms_version s)) RoleMoveDestination with
            | Ok _ => Ok (Some s) | Err e => Err (error_cas_of e) end)
  end.
Definition check_move (source : CanonicalTarget) (expected_source : FileVersionToken) (destination : CanonicalTarget)
    (expectation : CasExpectation) : prog (result MutationError (MutationSnapshot * option MutationSnapshot)) :=
  if decide (identity source = identity destination) then Done (Err (error_of TargetExists))
  else
    before ←? read_existing source;
    if injected (faults durability) CrossDevicePoint then Done (Err (error_of CrossDevice))
    else
      same ← same_filesystem (absolute source) (absolute destination);
      match same with
      | Err e => Done (Err (error_io MetadataFailed e))
      | Ok false => Done (Err (error_of CrossDevice))
      | Ok true =>
          match validate_cas (ExpectExact expected_source) (Some (ms_version before)) RoleSource with
          | Err e => Done (Err (error_cas_of e))
          | Ok _ => overwritten ←? read_destination destination expectation; Done (Ok (before, overwritten))
          end
      end.

(** After the publication: the source is removed when it still is what was
    moved. *)
Definition finish_move (source : CanonicalTarget) (expected_source : FileVersionToken) (destination : CanonicalTarget)
    (before : MutationSnapshot) (overwritten : option MutationSnapshot) (stage : PreparedFileStage)
    (warnings : list MetadataWarning) : prog MutationOutcome :=
  let created := created_paths (stage_parents stage) in
  let destination_only e :=
    e ← cleanup_error (stage_parents stage) e;
    Done (uncertain (set_warnings warnings e)
      (published_move_destination_change destination overwritten (stage_after stage) created warnings)) in
  checked ← revalidate_exact source expected_source;
  match checked with
  | Err _ => destination_only (error_of Uncertainty)
  | Ok _ =>
      removed ← match fault_check (faults durability) DeletePoint with
                | Err e => Done (Err e)
                | Ok _ => remove_regular_file source
                end;
      match removed with
      | Err e => destination_only (error_io Uncertainty e)
      | Ok parent =>
          synced ← (if sync_parent durability then
                      match fault_check (faults durability) ParentSyncPoint with
                      | Err e => Done (Err e)
                      | Ok _ => ask (Sync (published_parent parent))
                      end
                    else Done (Ok ())) : prog (sys ());
          Done (match synced with
                | Err e =>
                    uncertain (set_warnings warnings (error_io Uncertainty e))
                      (move_change source destination before (stage_after stage) overwritten (effects_of created warnings))
                | Ok _ =>
                    Applied (move_change source destination before (stage_after stage) overwritten
                      (effects_of (into_paths (stage_parents stage)) warnings))
                end)
      end
  end.

Definition move_file_prepared_locked (source : CanonicalTarget) (expected_source : FileVersionToken)
    (destination : CanonicalTarget) (expectation : CasExpectation) (stage : PreparedFileStage) : prog MutationOutcome :=
  checked ← check_move source expected_source destination expectation;
  match checked with
  | Err e => failed_with_aborted_stage stage e
  | Ok (before, overwritten) =>
      parts ← into_parts stage destination;
      match parts with
      | Err e => Done (failed e)
      | Ok stage =>
          let fail e :=
            e ← cleanup_staged_error durability (stage_staged stage) e;
            e ← cleanup_error (stage_parents stage) e;
            Done (failed e) in
          checked ← revalidate_exact source expected_source;
          match checked with
          | Err e => fail e
          | Ok _ =>
              checked ← revalidate_destination destination expectation;
              match checked with
              | Err e => fail e
              | Ok _ =>
                  persisted ←
                    (if decide (expectation = ExpectMissing) then persist_stage_no_replace (stage_staged stage) (stage_warnings stage)
                     else persist_stage (stage_staged stage) (stage_warnings stage));
                  let '(warnings, persisted) := persisted in
                  match persisted with
                  | Err e =>
                      cleaned ← cleanup_error (stage_parents stage) e;
                      Done (if decide (error_code e = Uncertainty) then
                              uncertain (set_warnings warnings cleaned)
                                (published_move_destination_change destination overwritten (stage_after stage)
                                  (created_paths (stage_parents stage)) warnings)
                            else failed (attach_metadata_warnings warnings cleaned))
                  | Ok _ => finish_move source expected_source destination before overwritten stage warnings
                  end
              end
          end
      end
  end.

(** ** Whole operations: check, stage and publish *)
Definition create_locked (target : CanonicalTarget) (bytes : list N) : prog MutationOutcome :=
  current ← version_on_disk target;
  match match current with
        | Err e => Err e
        | Ok current => validate_cas ExpectMissing current RoleDestination
        end with
  | Err e => Done (failed (error_cas_of e))
  | Ok _ =>
      stage ← prepare_file_stage_locked target bytes SafeAdd;
      match stage with Err e => Done (failed e) | Ok stage => create_prepared_locked target stage end
  end.
Definition source_mode (path : list text) : prog (sys (option N)) :=
  match metadata_policy durability with PreserveMode => supported_mode path | SafeAddModeOnly => Done (Ok None) end.
Definition replace_locked (target : CanonicalTarget) (expected : FileVersionToken) (bytes : list N) : prog MutationOutcome :=
  before ← read_existing target;
  match before with
  | Err e => Done (failed e)
  | Ok before =>
      mode ← source_mode (absolute target);
      match mode with
      | Err e => Done (failed (error_io MetadataFailed e))
      | Ok mode =>
          match validate_cas (ExpectExact expected) (Some (ms_version before)) RoleSource with
          | Err e => Done (failed (error_cas_of e))
          | Ok _ =>
              stage ← prepare_file_stage_locked target bytes (PreserveSupportedMode mode (Some (absolute target)));
              match stage with Err e => Done (failed e) | Ok stage => replace_prepared_locked target expected stage end
          end
      end
  end.
(** [replacement_bytes.unwrap_or_else(|| before.bytes.clone())]. *)
Definition move_file_locked (source : CanonicalTarget) (expected_source : FileVersionToken) (destination : CanonicalTarget)
    (expectation : CasExpectation) (replacement_bytes : option (list N)) : prog MutationOutcome :=
  if decide (identity source = identity destination) then Done (failed (error_of TargetExists))
  else
    before ← read_existing source;
    match before with
    | Err e => Done (failed e)
    | Ok before =>
        if injected (faults durability) CrossDevicePoint then Done (failed (error_of CrossDevice))
        else
          same ← same_filesystem (absolute source) (absolute destination);
          match same with
          | Err e => Done (failed (error_io MetadataFailed e))
          | Ok false => Done (failed (error_of CrossDevice))
          | Ok true =>
              match validate_cas (ExpectExact expected_source) (Some (ms_version before)) RoleSource with
              | Err e => Done (failed (error_cas_of e))
              | Ok _ =>
                  current ← version_on_disk destination;
                  match match current with
                        | Err e => Err e
                        | Ok current => validate_cas expectation current RoleMoveDestination
                        end with
                  | Err e => Done (failed (error_cas_of e))
                  | Ok _ =>
                      mode ← source_mode (absolute source);
                      match mode with
                      | Err e => Done (failed (error_io MetadataFailed e))
                      | Ok mode =>
                          stage ← prepare_file_stage_locked destination (default (ms_bytes before) replacement_bytes)
                                    (PreserveSupportedMode mode (Some (absolute source)));
                          match stage with
                          | Err e => Done (failed e)
                          | Ok stage => move_file_prepared_locked source expected_source destination expectation stage
                          end
                      end
                  end
              end
          end
    end.

(** ** Operations that take the locks themselves *)
Definition with_locks (p : prog MutationOutcome) : prog MutationOutcome :=
  acquired ← ask AcquireLocks : prog (sys ());
  match acquired with
  | Err _ => Done (failed (error_of MutLock))
  | Ok _ => out ← p; _ ← ask ReleaseLocks : prog (); Done out
  end.
Definition create (target : CanonicalTarget) (bytes : list N) : prog MutationOutcome := with_locks (create_locked target bytes).
Definition replace (target : CanonicalTarget) (expected : FileVersionToken) (bytes : list N) : prog MutationOutcome :=
  with_locks (replace_locked target expected bytes).
Definition delete_file (target : CanonicalTarget) (expected : FileVersionToken) : prog MutationOutcome :=
  with_locks (delete_locked target expected).
Definition move_file (source : CanonicalTarget) (expected_source : FileVersionToken) (destination : CanonicalTarget)
    (expectation : CasExpectation) (replacement_bytes : option (list N)) : prog MutationOutcome :=
  match manifest_new [source; destination] with
  | Err _ => Done (failed (error_of TargetExists))
  | Ok _ => with_locks (move_file_locked source expected_source destination expectation replacement_bytes)
  end.
End engine.

(** ** What is only read *)
Section specs.
Context (digest : list N → list N) (process_id : N) (limits : SnapshotLimits) (durability : DurabilityOptions).

Lemma metadata_warnings_for_source_view path : keeps same_view (metadata_warnings_for_source path).
Proof. unfold metadata_warnings_for_source. keeps. Qed.
Lemma apply_safe_add_mode_view file : keeps same_view (apply_safe_add_mode_to_file file).
Proof. unfold apply_safe_add_mode_to_file. keeps. Qed.
Lemma apply_supported_mode_view file mode : keeps same_view (apply_supported_mode_to_file file mode).
Proof. unfold apply_supported_mode_to_file. keeps. Qed.
Hint Resolve metadata_warnings_for_source_view apply_safe_add_mode_view apply_supported_mode_view : keeps.
Lemma supported_mode_view path : keeps same_view (supported_mode path).
Proof. unfold supported_mode. keeps. Qed.
Lemma snapshot_from_bytes_view bytes : keeps same_view (snapshot_from_bytes digest limits bytes).
Proof. unfold snapshot_from_bytes. keeps. Qed.
Lemma from_file_effects path : keeps same_effects (from_file digest limits path).
Proof. unfold from_file. keeps. Qed.
Hint Resolve supported_mode_view snapshot_from_bytes_view from_file_effects : keeps.
Lemma version_on_disk_effects t : keeps same_effects (version_on_disk digest limits t).
Proof. unfold version_on_disk. keeps. Qed.
Hint Resolve version_on_disk_effects : keeps.
Lemma revalidate_effects t expectation role : keeps same_effects (revalidate digest limits t expectation role).
Proof. unfold revalidate. keeps. Qed.
Lemma read_existing_effects t : keeps same_effects (read_existing digest limits t).
Proof. unfold read_existing. keeps. Qed.
Lemma nearest_existing_directory_view fuel path : keeps same_view (nearest_existing_directory fuel path).
Proof. revert path. induction fuel as [|fuel IH]; intros; simpl; keeps. Qed.
Hint Resolve revalidate_effects read_existing_effects nearest_existing_directory_view : keeps.
Lemma same_filesystem_view source destination : keeps same_view (same_filesystem source destination).
Proof. unfold same_filesystem. keeps. Qed.
Lemma cleanup_error_view parents e : keeps same_view (cleanup_error parents e).
Proof. unfold cleanup_error. keeps. Qed.
Lemma ensure_parents_view t : keeps same_view (ensure_parents t).
Proof. unfold ensure_parents, parent_creation_error. keeps. Qed.
Lemma apply_staged_metadata_view staged path mode : keeps same_view (apply_staged_metadata durability staged path mode).
Proof. unfold apply_staged_metadata. keeps. Qed.
Lemma sync_published_view p warnings : keeps same_view (sync_published durability p warnings).
Proof. unfold sync_published. keeps. Qed.
Hint Resolve same_filesystem_view cleanup_error_view ensure_parents_view apply_staged_metadata_view sync_published_view : keeps.
Lemma read_destination_effects t expectation : keeps same_effects (read_destination digest limits t expectation).
Proof. unfold read_destination. keeps. Qed.
Hint Resolve read_destination_effects : keeps.
Lemma check_move_effects source expected destination expectation :
  keeps same_effects (check_move digest limits durability source expected destination expectation).
Proof. unfold check_move. keeps. Qed.

(** [read_as path token r]: what was read last is the file at [path], with this
    version. *)
Definition read_as (path : list text) (token : FileVersionToken) (r : option (list text * (reader * spool))) : Prop :=
  ∃ pieces file s, r = Some (path, (pieces, file)) ∧ from_reader digest file pieces limits = Ok s ∧ version s = token.

Lemma from_file_read path l :
  wp (from_file digest limits path) l (λ l' r, ∀ s, r = Ok s → read_as path (version s) (last_read (view_of l'))).
Proof.
  unfold from_file. simpl. intros [[pieces file]|e] _ s; simpl; [|done]. intros Hs. rewrite view_of_snoc. simpl.
  by exists pieces, file, s.
Qed.

Lemma version_on_disk_read t l :
  wp (version_on_disk digest limits t) l (λ l' r, ∀ v, r = Ok (Some v) → read_as (absolute t) v (last_read (view_of l'))).
Proof.
  unfold version_on_disk. apply wp_bind, wp_ask. intros [m|[]] _; try done. case_decide as Hkind; [|done].
  apply wp_bind. eapply wp_mono; [apply from_file_read|]. simpl. intros l' [s|e] H v.
  - intros [= <-]. by apply H.
  - by destruct e.
Qed.

Lemma validate_cas_exact expected current role u : validate_cas (ExpectExact expected) current role = Ok u → current = Some expected.
Proof. unfold validate_cas. destruct current; [|done]. case_decide; [by intros _; subst|done]. Qed.

Lemma revalidate_read t expectation role l :
  wp (revalidate digest limits t expectation role) l (λ l' r, ∀ u expected, r = Ok u → expectation = ExpectExact expected →
    read_as (absolute t) expected (last_read (view_of l'))).
Proof.
  unfold revalidate. apply wp_bind. eapply wp_mono; [apply version_on_disk_read|]. simpl.
  intros l' [current|e] H u expected; [|done]. destruct (validate_cas expectation current role) eqn:Hv; [|done].
  intros _ ->. apply validate_cas_exact in Hv as ->. by apply H.
Qed.

(** ** Private files are accounted for *)
Lemma cleanup_staged_error_spec plan s e l : staged_ok s →
  wp (cleanup_staged_error plan s e) l (λ l' e',
    changes (view_of l') = changes (view_of l) ∧ error_code e' = error_code e ∧
    (privates (view_of l') = privates (view_of l) ∖ {[stage_key s]} ∧ e' = e ∨
     privates (view_of l') = privates (view_of l) ∧ exact (error_effects e') = false)).
Proof.
  intros Hs. unfold cleanup_staged_error. apply wp_bind. eapply wp_mono; [by apply (cleanup_spec _ true)|].
  intros l' ok [[Hc Hp] _]. rewrite app_nil_r in Hc. destruct ok; simpl in *; auto.
Qed.

Lemma cleanup_error_spec parents e l :
  wp (cleanup_error parents e) l (λ l' e',
    same_view l l' ∧ error_code e' = error_code e ∧ metadata_warnings (error_effects e') = metadata_warnings (error_effects e) ∧
    (exact (error_effects e') = true → exact (error_effects e) = true)).
Proof.
  unfold cleanup_error. eapply wp_keeps_bind; [apply cleanup_directories_view|]. intros l' [created residual] H. simpl.
  split; [done|]. split; [done|]. split; [done|]. by intros [? _]%andb_true_iff.
Qed.

(** The private file [(d, temp)] was created and at once written with [bytes]. *)
Definition written (l : log) (d : inode) (temp : text) (bytes : list N) : Prop :=
  ∃ l0 file l2, l = l0 ++ Event (CreateAt d temp) (Ok file) :: Event (Write file bytes) (Ok ()) :: l2.
Lemma written_prefix l l' d temp bytes : written l d temp bytes → l `prefix_of` l' → written l' d temp bytes.
Proof. intros (l0 & f & l2 & ->) [k ->]. exists l0, f, (l2 ++ k). by rewrite <-app_assoc. Qed.

(** ** What a reported change says of the changes of the tree *)
Definition put_under (l : log) (t : CanonicalTarget) (bytes : list N) (x : CasExpectation) (c : change) : Prop :=
  ∃ root parents final d temp over r,
    target_ok t root parents final ∧ c = Put d final temp over r ∧ leads l (ROOT :: root ++ parents) d ∧ written l d temp bytes ∧
    match x with ExpectMissing => over = false | ExpectExact v => read_as (absolute t) v r end.
Definition gone_from (l : log) (t : CanonicalTarget) (v : FileVersionToken) (c : change) : Prop :=
  ∃ root parents final d r,
    target_ok t root parents final ∧ c = Gone d final r ∧ leads l (ROOT :: root ++ parents) d ∧ read_as (absolute t) v r.
(** What was asked for, and that a change is it. *)
Inductive request :=
  | AskCreate (t : CanonicalTarget) (after : MutationSnapshot)
  | AskReplace (t : CanonicalTarget) (expected : FileVersionToken) (after : MutationSnapshot)
  | AskDelete (t : CanonicalTarget) (expected : FileVersionToken)
  | AskMove (source : CanonicalTarget) (expected : FileVersionToken) (destination : CanonicalTarget) (x : CasExpectation)
      (after : MutationSnapshot).
Definition expectation_of (overwritten : option MutationSnapshot) : CasExpectation :=
  match overwritten with Some o => ExpectExact (ms_version o) | None => ExpectMissing end.
Definition fulfils (m : MutationChange) (q : request) : Prop :=
  match q with
  | AskCreate t after => mut_kind m = MutAdd ∧ mut_source m = t ∧ mut_after m = Some after
  | AskReplace t expected after =>
      mut_kind m = MutReplace ∧ mut_source m = t ∧ mut_after m = Some after ∧ ms_version <$> mut_before m = Some expected
  | AskDelete t expected => mut_kind m = MutDelete ∧ mut_source m = t ∧ ms_version <$> mut_before m = Some expected
  | AskMove source expected destination x after =>
      mut_kind m = MutMove ∧ mut_source m = source ∧ mut_destination m = Some destination ∧ mut_after m = Some after ∧
      ms_version <$> mut_before m = Some expected ∧ expectation_of (mut_overwritten m) = x
  end.

(** An added file was put by a call that never replaces; a replaced or removed
    one was last read at the version reported; in the directory of the target,
    reached through no link; with the bytes reported. *)
Definition change_told (l : log) (m : MutationChange) (cs : list change) : Prop :=
  match mut_kind m with
  | MutAdd => ∃ after c, mut_before m = None ∧ mut_after m = Some after ∧ cs = [c] ∧
      put_under l (mut_source m) (ms_bytes after) ExpectMissing c
  | MutReplace => ∃ before after c, mut_before m = Some before ∧ mut_after m = Some after ∧ cs = [c] ∧
      put_under l (mut_source m) (ms_bytes after) (ExpectExact (ms_version before)) c
  | MutDelete => ∃ before c, mut_before m = Some before ∧ mut_after m = None ∧ cs = [c] ∧
      gone_from l (mut_source m) (ms_version before) c
  | MutMove => ∃ before after dest c1 c2,
      mut_before m = Some before ∧ mut_after m = Some after ∧ mut_destination m = Some dest ∧ cs = [c1; c2] ∧
      put_under l dest (ms_bytes after)
        (expectation_of (mut_overwritten m)) c1 ∧
      gone_from l (mut_source m) (ms_version before) c2
  end.

Definition exact_of (out : MutationOutcome) : bool :=
  match out with Applied m => exact (mut_effects m) | Failed e _ | Uncertain e _ => exact (error_effects e) end.
Definition committed_of (out : MutationOutcome) : option MutationChange :=
  match out with Applied m => Some m | Failed _ c | Uncertain _ c => c end.
(** The outcome tells exactly what changed. *)
Definition outcome_told (l l' : log) (out : MutationOutcome) : Prop :=
  ∃ cs, changes (view_of l') = changes (view_of l) ++ cs ∧
    match committed_of out with Some m => change_told l' m cs | None => cs = [] end ∧
    match out with Applied _ => True | Failed _ c => c = None | Uncertain e c => is_Some c ∧ exact (error_effects e) = false end.
(** Nothing but the private file of the stage went, and it did when the outcome
    is exact. *)
Definition consumed (key : inode * text) (l l' : log) (ex : bool) : Prop :=
  privates (view_of l') ⊆ privates (view_of l) ∧ privates (view_of l) ∖ {[key]} ⊆ privates (view_of l') ∧
  (ex = true → privates (view_of l') = privates (view_of l) ∖ {[key]}).

Lemma consumed_gone key l l' ex : privates (view_of l') = privates (view_of l) ∖ {[key]} → consumed key l l' ex.
Proof. intros H. split; [rewrite H; by apply subseteq_difference_l|]. split; [by rewrite H|done]. Qed.
Lemma consumed_stays key l l' : privates (view_of l') = privates (view_of l) → consumed key l l' false.
Proof. intros H. split; [by rewrite H|]. split; [rewrite H; by apply subseteq_difference_l|done]. Qed.
Lemma consumed_weaken key l l' ex ex' : consumed key l l' ex → (ex' = true → ex = true) → consumed key l l' ex'.
Proof. intros (H1 & H2 & H3) He. split; [done|]. split; [done|]. intros ?. by apply H3, He. Qed.
Lemma consumed_effects key l0 l l1 l' ex :
  consumed key l l1 ex → privates (view_of l0) = privates (view_of l) → privates (view_of l') = privates (view_of l1) →
  consumed key l0 l' ex.
Proof. unfold consumed. by intros H -> ->. Qed.
Lemma consumed_step s over put stays l l' ex :
  staged_step s over put stays (view_of l) (view_of l') → (ex = true → stays = false) → consumed (stage_key s) l l' ex.
Proof.
  intros [_ Hp] He. destruct stays; [|by apply consumed_gone]. destruct ex; [by specialize (He eq_refl)|by apply consumed_stays].
Qed.

Context (t : CanonicalTarget) (root parents : list text) (final : text).

(** Between [l] and [l'] a private file was created for the target. *)
Record owned (l l' : log) (s : StagedFile) : Prop := {
  si_ok : staged_ok s;
  si_fresh : stage_key s ∉ privates (view_of l);
  si_privates : privates (view_of l') = {[stage_key s]} ∪ privates (view_of l);
  si_changes : changes (view_of l') = changes (view_of l);
  si_numbered : numbered process_id l';
  si_name : destination_name s = final;
  si_leads : leads l' (ROOT :: root ++ parents) (staged_parent s);
}.
Definition staged_in (l l' : log) (bytes : list N) (s : StagedFile) : Prop :=
  owned l l' s ∧ written l' (staged_parent s) (temporary_name s) bytes.
(** Staging failed: what is left behind is told. *)
Record unstaged (l l' : log) (e : MutationError) : Prop := {
  us_changes : changes (view_of l') = changes (view_of l);
  us_numbered : numbered process_id l';
  us_privates : privates (view_of l) ⊆ privates (view_of l');
  us_exact : exact (error_effects e) = true → privates (view_of l') = privates (view_of l);
}.

Lemma owned_view l l' l'' s : owned l l' s → same_view l' l'' → l' `prefix_of` l'' → owned l l'' s.
Proof.
  intros [H1 H2 H3 H4 H5 H6 H7] Hv Hp. unfold same_view in Hv. split; [done|done|by rewrite Hv|by rewrite Hv| |done|].
  - eapply numbered_le; [exact H5|exact Hp|by rewrite Hv].
  - by eapply leads_prefix.
Qed.
Lemma staged_in_view l l' l'' bytes s :
  staged_in l l' bytes s → same_view l' l'' → l' `prefix_of` l'' → staged_in l l'' bytes s.
Proof. intros [H Hw] Hv Hp. split; [by eapply owned_view|by eapply written_prefix]. Qed.
Lemma unstaged_view l l' l'' e : unstaged l l' e → same_view l' l'' → l' `prefix_of` l'' → unstaged l l'' e.
Proof.
  intros [H1 H2 H3 H4] Hv Hp. unfold same_view in Hv. split; rewrite ?Hv; [done| |done|done].
  eapply numbered_le; [exact H2|exact Hp|by rewrite Hv].
Qed.
Lemma unstaged_weaken l l' e e' :
  unstaged l l' e → (exact (error_effects e') = true → exact (error_effects e) = true) → unstaged l l' e'.
Proof. intros [H1 H2 H3 H4] He. split; auto. Qed.
Lemma unstaged_effects l l' e : numbered process_id l → l `prefix_of` l' → same_effects l l' → unstaged l l' e.
Proof. intros Hn Hp [H1 H2]. split; [done|by eapply numbered_le; [exact Hn|exact Hp|by rewrite H1]|by rewrite H1|done]. Qed.

Lemma difference_added (k : inode * text) (x : gset (inode * text)) : k ∉ x → ({[k]} ∪ x) ∖ {[k]} = x.
Proof. set_solver. Qed.

(** A staged file whose stage fails is cleaned up or told. *)
Lemma fail_staged plan l l1 s e :
  owned l l1 s → wp (cleanup_staged_error plan s e) l1 (λ l' e', unstaged l l' e').
Proof.
  intros [H1 H2 H3 H4 H5 H6 H7]. eapply wp_mono; [apply wp_and; [by apply cleanup_staged_error_spec|apply wp_prefix]|].
  intros l' e' [(Hc & _ & Hcase) Hpre].
  rewrite H3 in Hcase. destruct Hcase as [[Hp ->]|[Hp He]].
  - rewrite difference_added in Hp by done. split; [congruence| |by rewrite Hp|done].
    eapply numbered_le; [exact H5|exact Hpre|]. rewrite Hp, H3. apply union_subseteq_r.
  - split; [congruence| |rewrite Hp; apply union_subseteq_r|by rewrite He].
    eapply numbered_le; [exact H5|exact Hpre|]. by rewrite Hp, H3.
Qed.

Lemma wp_view_prefix {A} (p : prog A) l : keeps same_view p → wp p l (λ l' _, same_view l l' ∧ l `prefix_of` l').
Proof. intros Hp. apply wp_and; [apply Hp|apply wp_prefix]. Qed.
Lemma snoc_view l c r : touches c || reads c = false → same_view l (l ++ [Event c r]) ∧ l `prefix_of` l ++ [Event c r].
Proof. intros Hc. split; [|by eexists]. unfold same_view. rewrite view_of_snoc. by destruct c. Qed.

Hypothesis Ht : target_ok t root parents final.
Opaque create_staged.

Lemma stage_bytes_spec bytes l : numbered process_id l →
  wp (stage_bytes process_id durability t bytes) l (λ l' r,
    match r with Ok s => staged_in l l' bytes s | Err e => unstaged l l' e end).
Proof.
  intros Hn. unfold stage_bytes. cbv zeta. destruct (fault_check (faults durability) StageCreatePoint); [|by apply unstaged_effects].
  apply wp_bind. eapply wp_mono; [apply wp_and; [by apply create_staged_spec|apply wp_prefix]|].
  intros l1 [s|e] [Hs Hp1]; [|simpl; destruct Hs; by apply unstaged_effects].
  destruct Hs as ([H1 H2 H3 H4 H5 H6 [l0 H7]] & Hname & Hleads).
  assert (owned l l1 s) as Hown by by split.
  assert (∀ l2 plan e, same_view l1 l2 → l1 `prefix_of` l2 →
    wp (e ← cleanup_staged_error plan s e; Done (Err e)) l2 (λ l' r,
      match r with Ok s => staged_in l l' bytes s | Err e => unstaged l l' e end)) as Hfail.
  { intros l2 plan e Hv Hp. apply wp_bind. by apply fail_staged, (owned_view _ l1). }
  destruct (fault_check (faults durability) StageWritePoint); [|by apply Hfail].
  apply wp_bind, wp_ask. intros [u|e] _.
  2: { apply Hfail; by apply (snoc_view l1 (Write _ _)). }
  assert (staged_in l (l1 ++ [Event (Write (staged_file s) bytes) (Ok u)]) bytes s) as Hst.
  { split; [by eapply owned_view; [exact Hown|apply (snoc_view l1 (Write _ _))..]|].
    exists l0, (staged_file s), []. rewrite H7, <-app_assoc. by destruct u. }
  destruct (sync_file durability); [|done].
  destruct (fault_check (faults durability) FileSyncPoint); [|by apply Hfail; apply (snoc_view l1 (Write _ _))].
  apply wp_bind, wp_ask. intros [u'|e] _.
  - by eapply staged_in_view; [exact Hst|apply (snoc_view _ (Sync _))..].
  - apply Hfail; [|rewrite <-app_assoc; by eexists]. unfold same_view. by rewrite !view_of_snoc.
Qed.

(** The snapshot of bytes in memory has their version. *)
Definition snapshot_of_bytes (bytes : list N) (s : MutationSnapshot) : Prop :=
  ms_version s = token_of digest bytes ∧ token_of digest (ms_bytes s) = token_of digest bytes.
Lemma from_text_version s m : from_text digest s = Ok m → ms_version m = version s ∧ token_of digest (ms_bytes m) = version s.
Proof.
  unfold from_text, bytes_of. destruct (read_bytes (storage s)) as [b|e]; simpl; [|done].
  destruct (bool_decide_reflect (token_of digest b = version s)); simpl; [|done]. by intros [= <-].
Qed.
Lemma snapshot_from_bytes_spec bytes l :
  wp (snapshot_from_bytes digest limits bytes) l (λ l' r, ∀ s, r = Ok s → snapshot_of_bytes bytes s).
Proof.
  unfold snapshot_from_bytes. apply wp_bind, wp_ask. simpl. intros file _ s Hs.
  destruct (from_bytes digest file bytes limits) as [x|e] eqn:Hx; [|done]. apply from_text_version in Hs.
  unfold snapshot_of_bytes. assert (version x = token_of digest bytes) as <-; [|done].
  unfold from_bytes in Hx. destruct (validate limits); simpl in Hx; [|done].
  destruct (ensure _ _); simpl in Hx; [|done]. destruct (inspect_text bytes); simpl in Hx; [|done].
  destruct (storage_for _ _ _); simpl in Hx; [|done]. by injection Hx as <-.
Qed.

(** A stage ready to be published at the target. *)
Record prepared (l l' : log) (bytes : list N) (s : PreparedFileStage) : Prop := {
  pr_staged : staged_in l l' (ms_bytes (stage_after s)) (stage_staged s);
  pr_identity : target_identity s = identity t;
  pr_bytes : snapshot_of_bytes bytes (stage_after s);
}.

Opaque stage_bytes.
Lemma prepare_file_stage_locked_spec bytes metadata l : numbered process_id l →
  wp (prepare_file_stage_locked digest process_id limits durability t bytes metadata) l (λ l' r,
    match r with Ok s => prepared l l' bytes s | Err e => unstaged l l' e end).
Proof.
  intros Hn. unfold prepare_file_stage_locked. apply wp_bind, wp_ask. intros n _.
  assert (∀ l1 e, same_view l l1 → l `prefix_of` l1 → unstaged l l1 e) as Hearly
    by (intros; by apply unstaged_effects; [..|apply same_view_effects]).
  destruct (snoc_view l NextAttempt n eq_refl) as [Hv0 Hp0]. case_decide as Hattempt; [by apply Hearly|].
  apply wp_try. eapply wp_mono; [apply wp_and; [apply snapshot_from_bytes_spec|apply wp_view_prefix; auto with keeps]|].
  intros l1 [after|e] [Hafter [Hv1 Hp1]]; [|by apply Hearly; etrans].
  specialize (Hafter _ eq_refl). apply wp_try. eapply wp_mono; [apply wp_view_prefix, ensure_parents_view|].
  intros l2 [created|e] [Hv2 Hp2]; [|by apply Hearly; (etrans; [|done]); etrans].
  assert (same_view l l2) as Hv by (by (etrans; [|done]); etrans). assert (l `prefix_of` l2) as Hp by (by (etrans; [|done]); etrans).
  clear l1 Hv0 Hp0 Hv1 Hp1 Hv2 Hp2.
  assert (numbered process_id l2) as Hn2 by (eapply numbered_le; [exact Hn|exact Hp|by rewrite Hv]).
  assert (∀ l3 l4 e e', unstaged l2 l3 e → (same_view l3 l4 ∧ error_code e' = error_code e ∧
      metadata_warnings (error_effects e') = metadata_warnings (error_effects e) ∧
      (exact (error_effects e') = true → exact (error_effects e) = true)) ∧ l3 `prefix_of` l4 → unstaged l l4 e') as Hunst.
  { intros l3 l4 e e' Hu [(Hv' & _ & _ & He) Hp'].
    destruct (unstaged_weaken _ _ _ e' (unstaged_view _ _ _ _ Hu Hv' Hp') He) as [G1 G2 G3 G4].
    unfold same_view in Hv. rewrite Hv in *. by split. }
  apply wp_bind. eapply wp_mono; [by apply stage_bytes_spec|]. intros l3 [s|e] Hs.
  2: { apply wp_bind. eapply wp_mono; [apply wp_and; [apply cleanup_error_spec|apply wp_prefix]|]. intros l4 e' H. by eapply Hunst. }
  assert (∀ l4 e, same_view l3 l4 → l3 `prefix_of` l4 →
    wp (e ← cleanup_staged_error durability s e; e ← cleanup_error created e; Done (Err e)) l4 (λ l' r,
      match r with Ok s => prepared l l' bytes s | Err e => unstaged l l' e end)) as Hfail.
  { intros l4 e Hv4 Hp4. apply wp_bind. eapply wp_mono; [by apply fail_staged, (owned_view _ l3); [apply Hs|..]|].
    intros l5 e5 Hu. apply wp_bind. eapply wp_mono; [apply wp_and; [apply cleanup_error_spec|apply wp_prefix]|].
    intros l6 e6 H. by eapply Hunst. }
  cbv zeta. destruct (match metadata with SafeAdd => _ | PreserveSupportedMode _ _ => _ end) as [mode path].
  apply wp_bind. eapply wp_mono; [apply wp_view_prefix, apply_staged_metadata_view|].
  intros l4 [warnings|e] [Hv4 Hp4]; [|by apply Hfail].
  apply wp_bind. eapply wp_mono; [apply (wp_view_prefix (if sync_file durability then _ else _)); keeps|].
  intros l5 [u|e] [Hv5 Hp5]; [|by apply Hfail; etrans].
  apply wp_bind, wp_ask. intros r _. destruct (snoc_view l5 (Mode (staged_file s)) r eq_refl) as [Hv6 Hp6].
  assert (same_view l3 (l5 ++ [Event (Mode (staged_file s)) r])) as Hv36 by (by (etrans; [|done]); etrans).
  assert (l3 `prefix_of` l5 ++ [Event (Mode (staged_file s)) r]) as Hp36 by (by (etrans; [|done]); etrans).
  destruct r as [m|e]; [|by apply Hfail]. split; simpl; [|done|done].
  destruct (staged_in_view _ _ _ _ _ Hs Hv36 Hp36) as [[G1 G2 G3 G4 G5 G6 G7] Hw].
  unfold same_view in Hv. rewrite Hv in *. by split.
Qed.

(** ** Publishing *)
Lemma exact_with_metadata warnings : side_effects_exact (push_cleanup_warning warnings) = false.
Proof.
  unfold side_effects_exact, push_cleanup_warning. apply negb_false_iff, bool_decide_eq_true_2.
  case_decide; [done|]. apply elem_of_app. right. by apply list_elem_of_here.
Qed.
Lemma attach_exact warnings e : exact (error_effects (attach_metadata_warnings warnings e)) = true → exact (error_effects e) = true.
Proof. simpl. by intros [? _]%andb_true_iff. Qed.

Lemma sort_on_elem {A} `{Ordered K} (key : A → K) (l : list A) x : x ∈ sort_on key l ↔ x ∈ l.
Proof. split; apply elem_of_Permutation_proper; rewrite sort_on_perm; done. Qed.
Lemma dedup_in {A} `{EqDecision A} (l : list A) x : x ∈ dedup l ↔ x ∈ l.
Proof.
  induction l as [|y l IH]; [done|]. destruct l as [|z l]; [done|]. cbn [dedup].
  case_decide as Hyz; rewrite ?elem_of_cons, IH, ?elem_of_cons; subst; naive_solver.
Qed.
Lemma attach_inexact warnings e : side_effects_exact warnings = false → exact (error_effects (attach_metadata_warnings warnings e)) = false.
Proof.
  unfold side_effects_exact. rewrite negb_false_iff, bool_decide_eq_true. intros Hw. simpl.
  rewrite andb_false_iff. right. apply negb_false_iff, bool_decide_eq_true_2. rewrite dedup_in, sort_on_elem, elem_of_app. by right.
Qed.

(** A stage whose private file can be published at [t]. *)
Record usable (l : log) (s : PreparedFileStage) : Prop := {
  ub_ok : staged_ok (stage_staged s);
  ub_identity : target_identity s = identity t;
  ub_name : destination_name (stage_staged s) = final;
  ub_leads : leads l (ROOT :: root ++ parents) (staged_parent (stage_staged s));
  ub_written : written l (staged_parent (stage_staged s)) (temporary_name (stage_staged s)) (ms_bytes (stage_after s));
}.
Lemma usable_prefix l l' s : usable l s → l `prefix_of` l' → usable l' s.
Proof. intros [H1 H2 H3 H4 H5] Hp. split; [done..|by eapply leads_prefix|by eapply written_prefix]. Qed.
Lemma prepared_usable l l' bytes s : prepared l l' bytes s → usable l' s.
Proof. intros [[[H1 H2 H3 H4 H5 H6 H7] Hw] Hi Hb]. by split. Qed.

Definition key_of (s : PreparedFileStage) : inode * text := stage_key (stage_staged s).

Lemma put_under_step l0 l l' s over x :
  usable l s → l `prefix_of` l' →
  match x with ExpectMissing => over = false | ExpectExact v => read_as (absolute t) v (last_read (view_of l0)) end →
  put_under l' t (ms_bytes (stage_after s)) x (put_of (stage_staged s) over (view_of l0)).
Proof.
  intros Hu Hp Hx. apply (usable_prefix _ l') in Hu as [H1 H2 H3 H4 H5]; [|done].
  exists root, parents, final, (staged_parent (stage_staged s)), (temporary_name (stage_staged s)), over, (last_read (view_of l0)).
  unfold put_of. by rewrite H3.
Qed.

(** What [persist_stage] and its variant leave. *)
Definition persists (s : StagedFile) (over : bool) (l l' : log) (r : list MetadataWarning * result MutationError ()) : Prop :=
  match snd r with
  | Ok _ => changes (view_of l') = changes (view_of l) ++ [put_of s over (view_of l)] ∧
            consumed (stage_key s) l l' (side_effects_exact (fst r))
  | Err e => changes (view_of l') = changes (view_of l) ++ (if decide (error_code e = Uncertainty) then [put_of s over (view_of l)] else []) ∧
             consumed (stage_key s) l l' (exact (error_effects e))
  end.

Lemma sync_published_spec p warnings l :
  wp (sync_published durability p warnings) l (λ l' r,
    same_view l l' ∧
    (side_effects_exact (fst r) = true → parent_cleanup_failed p = false) ∧
    match snd r with
    | Ok _ => True
    | Err e => error_code e = Uncertainty ∧ (exact (error_effects e) = true → parent_cleanup_failed p = false)
    end).
Proof.
  apply wp_and; [apply sync_published_view|]. unfold sync_published. cbv zeta.
  set (ws := if parent_cleanup_failed p then push_cleanup_warning warnings else warnings).
  assert (side_effects_exact ws = true → parent_cleanup_failed p = false) as Hws.
  { unfold ws. destruct (parent_cleanup_failed p); [by rewrite exact_with_metadata|done]. }
  assert (∀ e, exact (error_effects (attach_metadata_warnings ws (error_io Uncertainty e))) = true → parent_cleanup_failed p = false) as Hat.
  { intros e He. apply Hws. destruct (side_effects_exact ws) eqn:Hx; [done|]. by rewrite attach_inexact in He. }
  destruct (sync_parent durability); [|done]. destruct (fault_check (faults durability) ParentSyncPoint) as [u|e].
  - apply wp_bind, wp_ask. intros [u'|e] _; (split; [done|]); [done|]. split; [done|apply (Hat e)].
  - split; [done|]. split; [done|apply (Hat e)].
Qed.

Lemma persist_with_spec publish code s over warnings l :
  staged_ok s → (∀ inject l, wp (publish s inject) l (publishes s over l)) → (∀ e, code e ≠ Uncertainty) →
  wp (persist_with durability publish code s warnings) l (persists s over l).
Proof.
  intros Hs Hpub Hcode. unfold persist_with. destruct (fault_check (faults durability) RenamePoint) as [u|e].
  - apply wp_bind. eapply wp_mono; [apply Hpub|]. intros l1 [p|e] H.
    + destruct H as [_ Hstep]. eapply wp_mono; [apply sync_published_spec|]. intros l2 [ws r] (Hv & Hws & Hr).
      unfold same_view in Hv. unfold persists. cbn [fst snd] in *. rewrite <-Hv in Hstep.
      destruct r as [u'|e].
      * split; [by destruct Hstep|]. eapply consumed_step; [exact Hstep|done].
      * destruct Hr as [-> Hr]. split; [by destruct Hstep|]. eapply consumed_step; [exact Hstep|done].
    + unfold persists. cbn [fst snd]. unfold publishes in H. unfold publish_error. destruct H as [Hc Hp]. split.
      * rewrite Hc. f_equal. destruct (published e), (publish_cleanup_failed e); simpl;
          [done|done|by rewrite decide_False by apply (Hcode e)|by rewrite decide_False by apply (Hcode e)].
      * apply (consumed_step s over (published e) (publish_cleanup_failed e)); [done|]. by destruct (publish_cleanup_failed e).
  - apply wp_bind. eapply wp_mono; [by apply cleanup_staged_error_spec|]. intros l1 e' (Hc & Hcode' & Hcase).
    cbn [wp]. unfold persists. cbn [fst snd]. rewrite Hcode', decide_False, app_nil_r by done. split; [done|].
    destruct Hcase as [[Hp ->]|[Hp He]]; [by apply consumed_gone|rewrite He; by apply consumed_stays].
Qed.

Lemma persist_stage_spec s warnings l : staged_ok s → wp (persist_stage durability s warnings) l (persists s true l).
Proof. intros Hs. apply persist_with_spec; [done|intros; by apply publish_replace_spec|done]. Qed.
Lemma persist_stage_no_replace_spec s warnings l : staged_ok s → wp (persist_stage_no_replace durability s warnings) l (persists s false l).
Proof. intros Hs. apply persist_with_spec; [done|intros; by apply publish_no_replace_spec|]. intros e. by case_match. Qed.

(** ** Aborting *)
Lemma abort_spec s l : staged_ok (stage_staged s) →
  wp (abort durability s) l (λ l' effects, changes (view_of l') = changes (view_of l) ∧ consumed (key_of s) l l' (exact effects)).
Proof.
  intros Hs. unfold abort. apply wp_bind. eapply wp_mono; [by apply (cleanup_spec _ true)|]. intros l1 ok [Hstep _].
  eapply wp_keeps_bind; [apply cleanup_directories_view|]. intros l2 [created residual] Hv. unfold same_view in Hv. simpl.
  rewrite <-Hv in Hstep. split; [by destruct Hstep as [-> _]; rewrite app_nil_r|].
  eapply consumed_step; [exact Hstep|]. by destruct ok.
Qed.

(** An operation that fails before its commit. *)
Lemma nothing_told l l' e : changes (view_of l') = changes (view_of l) → outcome_told l l' (failed e).
Proof. intros Hc. exists []. by rewrite app_nil_r. Qed.
Definition spent (s : PreparedFileStage) (l l' : log) (out : MutationOutcome) : Prop :=
  outcome_told l l' out ∧ consumed (key_of s) l l' (exact_of out).

Lemma failed_with_aborted_stage_spec s e l0 l : staged_ok (stage_staged s) → same_effects l0 l →
  wp (failed_with_aborted_stage durability s e) l (λ l' out, spent s l0 l' out ∧ ∃ e', out = failed e').
Proof.
  intros Hs [Hp Hc]. unfold failed_with_aborted_stage. apply wp_bind. eapply wp_mono; [by apply abort_spec|].
  intros l1 effects [Hc1 Hk]. simpl. split; [|by eexists]. split; [apply nothing_told; congruence|].
  eapply consumed_weaken; [eapply consumed_effects; [exact Hk|done|done]|]. simpl. by intros [_ ?]%andb_true_iff.
Qed.

Lemma into_parts_spec s x l0 l : staged_ok (stage_staged s) → same_effects l0 l →
  wp (into_parts durability s x) l (λ l' r,
    match r with Ok s' => s' = s ∧ l' = l | Err e => spent s l0 l' (failed e) end).
Proof.
  intros Hs [Hp Hc]. unfold into_parts. case_decide; [done|]. apply wp_bind. eapply wp_mono; [by apply abort_spec|].
  intros l1 effects [Hc1 Hk]. simpl. split; [apply nothing_told; congruence|]. by eapply consumed_effects.
Qed.

(** Cleaning up the private file, then the directories. *)
Lemma fail_both_spec s e l0 l : staged_ok (stage_staged s) → same_effects l0 l →
  wp (e ← cleanup_staged_error durability (stage_staged s) e; e ← cleanup_error (stage_parents s) e; Done (failed e)) l
    (λ l' out, spent s l0 l' out ∧ ∃ e', out = failed e').
Proof.
  intros Hs [Hp Hc]. apply wp_bind. eapply wp_mono; [by apply cleanup_staged_error_spec|]. intros l1 e1 (Hc1 & _ & Hcase).
  apply wp_bind. eapply wp_mono; [apply cleanup_error_spec|]. intros l2 e2 (Hv & _ & _ & He). unfold same_view in Hv. simpl.
  split; [|by eexists]. split; [apply nothing_told; congruence|]. unfold exact_of, failed.
  destruct Hcase as [[Hp1 _]|[Hp1 He1]].
  - apply consumed_gone. by rewrite Hv, Hp1, Hp.
  - destruct (exact (error_effects e2)); [by rewrite He1 in He; specialize (He eq_refl)|]. apply consumed_stays. congruence.
Qed.

(** ** The operations tell what they did *)
Definition does (q : request) (s : PreparedFileStage) (l l' : log) (out : MutationOutcome) : Prop :=
  spent s l l' out ∧ match out with Applied m => fulfils m q | _ => True end.
Lemma does_failed q s l l' out : spent s l l' out ∧ (∃ e, out = failed e) → does q s l l' out.
Proof. by intros [Hs [e ->]]. Qed.

(** The end of a publication that failed: the directories are cleaned up, and
    what was published is told. *)
Definition ends (publish_error : MutationError) (m : MutationChange) (told : MutationError → MutationError) (e' : MutationError)
    (out : MutationOutcome) : Prop :=
  if decide (error_code publish_error = Uncertainty) then out = uncertain (told e') m
  else ∃ e'', out = failed e'' ∧ (exact (error_effects e'') = true → exact (error_effects e') = true).

Lemma publication_failed s over x l0 l1 l3 e m told (k : MutationError → MutationOutcome) :
  usable l1 s → same_effects l0 l1 → l1 `prefix_of` l3 →
  match x with ExpectMissing => over = false | ExpectExact v => read_as (absolute t) v (last_read (view_of l1)) end →
  persists (stage_staged s) over l1 l3 ([], Err e) →
  (∀ l c, put_under l t (ms_bytes (stage_after s)) x c → change_told l m [c]) →
  (∀ e', error_code e' = error_code e → ends e m told e' (k e')) →
  wp (e' ← cleanup_error (stage_parents s) e; Done (k e')) l3 (λ l' out,
    spent s l0 l' out ∧ match out with Applied _ => False | _ => True end).
Proof.
  intros Hu [Hpr Hch] Hp Hx [Hc Hk] Hm Hends. cbn [fst snd] in Hc, Hk.
  apply wp_bind. eapply wp_mono; [apply wp_and; [apply cleanup_error_spec|apply wp_prefix]|].
  intros l4 e4 [(Hv & Hcode & _ & He) Hp4]. unfold same_view in Hv. simpl. specialize (Hends e4 Hcode). unfold ends in Hends.
  case_decide as Hunc.
  - rewrite Hends. split; [|done].
    assert (put_under l4 t (ms_bytes (stage_after s)) x (put_of (stage_staged s) over (view_of l1))) as Hput
      by (apply (put_under_step l1 l1); [done|by etrans|done]).
    split.
    + eexists. split; [rewrite Hv, Hc, Hch; done|]. split; [by apply Hm|]. split; [by eexists|done].
    + eapply consumed_weaken; [eapply consumed_effects; [exact Hk|done|by rewrite Hv]|]. done.
  - destruct Hends as (e'' & -> & He''). split; [|done]. rewrite app_nil_r in Hc.
    split; [apply nothing_told; congruence|].
    eapply consumed_weaken; [eapply consumed_effects; [exact Hk|done|by rewrite Hv]|]. simpl. auto.
Qed.

Lemma create_prepared_locked_spec s l : usable l s →
  wp (create_prepared_locked digest limits durability t s) l (does (AskCreate t (stage_after s)) s l).
Proof.
  intros Hu. unfold create_prepared_locked. pose proof (ub_ok _ _ Hu) as Hok.
  apply wp_bind. eapply wp_mono; [apply wp_and; [apply version_on_disk_effects|apply wp_prefix]|]. intros l1 current [He1 Hp1].
  destruct (match current with Ok c => _ | Err e => _ end) as [u|e].
  2: { eapply wp_mono; [by apply failed_with_aborted_stage_spec|]. intros. by apply does_failed. }
  apply wp_bind. eapply wp_mono; [by apply into_parts_spec|]. intros l2 [s'|e] Hs; [|by split].
  destruct Hs as [-> ->]. apply wp_bind. eapply wp_mono; [apply wp_and; [by apply persist_stage_no_replace_spec|apply wp_prefix]|].
  intros l3 [ws r] [H3 Hp3]. assert (usable l1 s) as Hu1 by by eapply usable_prefix.
  assert (∀ l c effects, put_under l t (ms_bytes (stage_after s)) ExpectMissing c →
    change_told l (change_of MutAdd t None (Some (stage_after s)) effects) [c]) as Htold by (intros; by eexists _, _).
  destruct r as [u'|e]; cbv zeta.
  - destruct H3 as [Hc Hk]. simpl. split; [|done]. destruct He1 as [Hpr1 Hch1]. split; [|by eapply consumed_effects].
    eexists. split; [rewrite Hc, Hch1; done|]. split; [|done]. by apply Htold, (put_under_step l1 l1).
  - eapply wp_mono; [eapply (publication_failed s false ExpectMissing l l1 l3 e _ (attach_metadata_warnings ws)); [done..| |]|].
    + intros l' c. apply Htold.
    + intros e' He'. unfold ends. case_decide; [done|]. eexists. split; [done|]. apply attach_exact.
    + intros l' out [? Ha]. split; [done|]. by destruct out.
Qed.

Lemma read_existing_version x l :
  wp (read_existing digest limits x) l (λ l' r, ∀ s, r = Ok s → read_as (absolute x) (ms_version s) (last_read (view_of l'))).
Proof.
  unfold read_existing. apply wp_bind, wp_ask. intros [m|e] _; [|done]. case_decide as Hkind; [|done].
  apply wp_bind. eapply wp_mono; [apply from_file_read|]. intros l' [s|e] H s' Hs'; [|done].
  apply from_text_version in Hs' as [-> _]. by apply H.
Qed.

Lemma replace_prepared_locked_spec expected s l : usable l s →
  wp (replace_prepared_locked digest limits durability t expected s) l (does (AskReplace t expected (stage_after s)) s l).
Proof.
  intros Hu. unfold replace_prepared_locked. pose proof (ub_ok _ _ Hu) as Hok.
  apply wp_bind. eapply wp_mono; [apply wp_and; [apply read_existing_effects|apply wp_prefix]|]. intros l1 before [He1 Hp1].
  assert (∀ e, wp (failed_with_aborted_stage durability s e) l1 (does (AskReplace t expected (stage_after s)) s l)) as Habort
    by (intros; eapply wp_mono; [by apply failed_with_aborted_stage_spec|]; intros; by apply does_failed).
  destruct before as [before|e]; [|apply Habort].
  destruct (validate_cas (ExpectExact expected) (Some (ms_version before)) RoleSource) as [u|e] eqn:Hcas; [|apply Habort].
  apply validate_cas_exact in Hcas as [= Hversion].
  apply wp_bind. eapply wp_mono; [by apply into_parts_spec|]. intros l2 [s'|e] Hs; [|by split]. destruct Hs as [-> ->].
  apply wp_bind. eapply wp_mono; [apply wp_and; [apply revalidate_read|apply wp_and; [apply revalidate_effects|apply wp_prefix]]|].
  intros l2 checked (Hread & He2 & Hp2). assert (same_effects l l2) as He by by etrans. assert (l `prefix_of` l2) as Hp by by etrans.
  destruct checked as [u'|e].
  2: { eapply wp_mono; [by apply (fail_both_spec s e l)|]. intros. by apply does_failed. }
  specialize (Hread _ _ eq_refl eq_refl).
  apply wp_bind. eapply wp_mono; [apply wp_and; [by apply persist_stage_spec|apply wp_prefix]|].
  intros l3 [ws r] [H3 Hp3]. assert (usable l2 s) as Hu2 by by eapply usable_prefix.
  assert (∀ l c effects, put_under l t (ms_bytes (stage_after s)) (ExpectExact expected) c →
    change_told l (change_of MutReplace t (Some before) (Some (stage_after s)) effects) [c]) as Htold
    by (rewrite <-Hversion; intros; by eexists _, _, _).
  destruct r as [u''|e]; cbv zeta.
  - destruct H3 as [Hc Hk]. simpl. split; [|by unfold fulfils; simpl; rewrite Hversion]. destruct He as [Hpr Hch]. split; [|by eapply consumed_effects].
    eexists. split; [rewrite Hc, Hch; done|]. split; [|done]. by apply Htold, (put_under_step l2 l2).
  - eapply wp_mono; [eapply (publication_failed s true (ExpectExact expected) l l2 l3 e _ (attach_metadata_warnings ws)); [done..| |]|].
    + intros l' c. apply Htold.
    + intros e' He'. unfold ends. simpl. rewrite He'. case_decide; [done|]. eexists. split; [done|]. apply attach_exact.
    + intros l' out [? Ha]. split; [done|]. by destruct out.
Qed.

Definition deletes (expected : FileVersionToken) (l l' : log) (out : MutationOutcome) : Prop :=
  outcome_told l l' out ∧ privates (view_of l') = privates (view_of l) ∧
  match out with Applied m => fulfils m (AskDelete t expected) | _ => True end.

Hypothesis Hfinal : is_private final = false.

Lemma delete_locked_spec expected l : wp (delete_locked digest limits durability t expected) l (deletes expected l).
Proof.
  unfold delete_locked. cbv zeta. apply wp_bind. eapply wp_mono; [apply wp_and; [apply read_existing_effects|apply wp_prefix]|].
  intros l1 before [He1 Hp1].
  assert (∀ l' e, same_effects l l' → deletes expected l l' (failed e)) as Hfail.
  { intros l' e [Hp Hc]. split; [by apply nothing_told|done]. }
  destruct before as [before|e]; [|by apply Hfail].
  destruct (validate_cas (ExpectExact expected) (Some (ms_version before)) RoleSource) as [u|e] eqn:Hcas; [|by apply Hfail].
  apply validate_cas_exact in Hcas as [= Hversion].
  destruct (fault_check (faults durability) DeletePoint); [|by apply Hfail].
  apply wp_bind. eapply wp_mono; [apply wp_and; [apply revalidate_read|apply revalidate_effects]|].
  intros l2 checked (Hread & He2). assert (same_effects l l2) as He by by etrans.
  destruct checked as [u'|e]; [|by apply Hfail]. specialize (Hread _ _ eq_refl eq_refl).
  apply wp_bind. eapply wp_mono; [by apply remove_regular_file_spec|]. intros l3 [p|e] H; [|by apply Hfail; etrans].
  destruct H as (Hleads & Hc & Hp). destruct He as [Hpr Hch].
  assert (∀ l4 effects, same_view l3 l4 → l3 `prefix_of` l4 →
    change_told l4 (change_of MutDelete t (Some before) None effects) [Gone (published_parent p) final (last_read (view_of l2))] ∧
    changes (view_of l4) = changes (view_of l) ++ [Gone (published_parent p) final (last_read (view_of l2))] ∧
    privates (view_of l4) = privates (view_of l)) as Hdone.
  { intros l4 effects Hv Hp4. unfold same_view in Hv. split; [|by rewrite Hv, Hc, Hch, Hp].
    eexists _, _. split; [done|]. split; [done|]. split; [done|].
    eexists _, _, _, _, _. split; [exact Ht|]. split; [done|]. split; [by eapply leads_prefix|by rewrite Hversion]. }
  assert (∀ l4 effects, same_view l3 l4 → l3 `prefix_of` l4 →
    deletes expected l l4 (Applied (change_of MutDelete t (Some before) None effects))) as Happ.
  { intros l4 effects Hv Hp4. destruct (Hdone l4 effects Hv Hp4) as (H1 & H2 & H3).
    split; [|split; [done|by unfold fulfils; simpl; rewrite Hversion]]. eexists. split; [exact H2|by split]. }
  assert (∀ l4 effects e, same_view l3 l4 → l3 `prefix_of` l4 →
    deletes expected l l4 (uncertain e (change_of MutDelete t (Some before) None effects))) as Hunc.
  { intros l4 effects e Hv Hp4. destruct (Hdone l4 (inexact effects) Hv Hp4) as (H1 & H2 & H3).
    split; [|by split]. eexists. split; [exact H2|]. split; [exact H1|]. split; [by eexists|done]. }
  destruct (sync_parent durability); [|by apply Happ]. apply wp_bind.
  destruct (fault_check (faults durability) ParentSyncPoint); [|by apply Hunc].
  apply wp_ask. intros r _. destruct (snoc_view l3 (Sync (published_parent p)) r eq_refl) as [Hv4 Hp4].
  destruct r; [by apply Happ|by apply Hunc].
Qed.

(** ** Moves to the target *)
Context (source : CanonicalTarget) (root' parents' : list text) (final' : text).
Hypothesis Hsource : target_ok source root' parents' final'.
Hypothesis Hfinal' : is_private final' = false.

Lemma put_under_prefix l l' x bytes e c : put_under l x bytes e c → l `prefix_of` l' → put_under l' x bytes e c.
Proof.
  intros (r & p & f & d & temp & over & read & H1 & H2 & H3 & H4 & H5) Hp. exists r, p, f, d, temp, over, read.
  split; [done|]. split; [done|]. split; [by eapply leads_prefix|]. split; [by eapply written_prefix|done].
Qed.

Lemma read_destination_spec x l :
  wp (read_destination digest limits t x) l (λ l' r, same_effects l l' ∧ ∀ overwritten, r = Ok overwritten → expectation_of overwritten = x).
Proof.
  apply wp_and; [apply read_destination_effects|]. unfold read_destination. apply wp_bind, wp_ask. intros [m|[]] _; try done.
  - apply wp_try. eapply wp_keeps; [apply read_existing_effects|]. intros l' [o|e] _; [|done]. intros overwritten.
    destruct (validate_cas x (Some (ms_version o)) RoleMoveDestination) eqn:Hv; [|done]. intros [= <-]. simpl.
    destruct x as [v|]; [|done]. by apply validate_cas_exact in Hv as [= ->].
  - simpl. intros overwritten. destruct x as [v|]; simpl; [done|]. by intros [= <-].
Qed.

Lemma check_move_spec expected x l :
  wp (check_move digest limits durability source expected t x) l (λ l' r, same_effects l l' ∧ l `prefix_of` l' ∧
    ∀ before overwritten, r = Ok (before, overwritten) → ms_version before = expected ∧ expectation_of overwritten = x).
Proof.
  apply wp_and; [apply check_move_effects|]. apply wp_and; [apply wp_prefix|]. unfold check_move. case_decide as Hid; [done|].
  apply wp_try. eapply wp_keeps; [apply read_existing_effects|]. intros l1 [b|e] _; [|done].
  destruct (injected (faults durability) CrossDevicePoint); [done|].
  eapply wp_keeps_bind; [apply same_filesystem_view|]. intros l2 [[]|e] _; try done.
  destruct (validate_cas (ExpectExact expected) (Some (ms_version b)) RoleSource) eqn:Hv; [|done].
  apply validate_cas_exact in Hv as [= Hversion]. apply wp_try. eapply wp_mono; [apply read_destination_spec|].
  intros l3 [o|e] [_ H]; [|done]. intros before overwritten [= <- <-]. split; [done|]. by apply H.
Qed.

Lemma finish_move_spec expected before overwritten s warnings l0 l c1 :
  ms_version before = expected → put_under l t (ms_bytes (stage_after s)) (expectation_of overwritten) c1 →
  changes (view_of l) = changes (view_of l0) ++ [c1] → consumed (key_of s) l0 l (side_effects_exact warnings) →
  wp (finish_move digest limits durability source expected t before overwritten s warnings) l
    (does (AskMove source expected t (expectation_of overwritten) (stage_after s)) s l0).
Proof.
  intros Hversion Hput Hc Hk. unfold finish_move. cbv zeta.
  assert (∀ l1 e, same_effects l l1 → l `prefix_of` l1 →
    wp (e ← cleanup_error (stage_parents s) e;
        Done (uncertain (set_warnings warnings e)
          (published_move_destination_change t overwritten (stage_after s) (created_paths (stage_parents s)) warnings))) l1
      (does (AskMove source expected t (expectation_of overwritten) (stage_after s)) s l0)) as Honly.
  { intros l1 e [Hp1 Hc1] Hp. apply wp_bind. eapply wp_mono; [apply wp_and; [apply cleanup_error_spec|apply wp_prefix]|].
    intros l2 e2 [(Hv & _) Hp2]. unfold same_view in Hv. split; [|done]. split.
    - eexists. split; [rewrite Hv, Hc1, Hc; done|]. split; [|split; [by eexists|done]].
      assert (put_under l2 t (ms_bytes (stage_after s)) (expectation_of overwritten) c1) as Hput2
        by (eapply put_under_prefix; [exact Hput|by etrans]).
      simpl. unfold change_told. destruct overwritten; simpl; [by eexists _, _, _|by eexists _, _].
    - eapply consumed_weaken; [eapply consumed_effects; [exact Hk|done|by rewrite Hv, Hp1]|done]. }
  apply wp_bind. eapply wp_mono; [apply wp_and; [apply revalidate_read|apply wp_and; [apply revalidate_effects|apply wp_prefix]]|].
  intros l1 checked (Hread & He1 & Hp1). destruct checked as [u|e]; [|by apply Honly]. specialize (Hread _ _ eq_refl eq_refl).
  apply wp_bind. destruct (fault_check (faults durability) DeletePoint); [|by apply Honly].
  eapply wp_mono; [apply wp_and; [by apply remove_regular_file_spec|apply wp_prefix]|]. intros l2 [p|e] [H Hp2].
  2: { apply Honly; [by etrans|by etrans]. }
  destruct H as (Hleads & Hc2 & Hpr2). destruct He1 as [Hpr1 Hc1].
  set (c2 := Gone (published_parent p) final' (last_read (view_of l1))).
  assert (∀ l3 effects, same_view l2 l3 → l2 `prefix_of` l3 →
    change_told l3 (move_change source t before (stage_after s) overwritten effects) [c1; c2] ∧
    changes (view_of l3) = changes (view_of l0) ++ [c1; c2] ∧ privates (view_of l3) = privates (view_of l)) as Hdone.
  { intros l3 effects Hv Hp3. unfold same_view in Hv. split.
    - exists before, (stage_after s), t, c1, c2. split; [done|]. split; [done|]. split; [done|]. split; [done|]. split.
      + eapply put_under_prefix; [exact Hput|]. by do 2 (etrans; [eassumption|]).
      + eexists _, _, _, _, _. split; [exact Hsource|]. split; [done|]. split; [by eapply leads_prefix|by rewrite Hversion].
    - split; [|by rewrite Hv, Hpr2]. rewrite Hv, Hc2, Hc1, Hc, <-app_assoc. done. }
  assert (∀ l3 created, same_view l2 l3 → l2 `prefix_of` l3 →
    does (AskMove source expected t (expectation_of overwritten) (stage_after s)) s l0 l3
      (Applied (move_change source t before (stage_after s) overwritten (effects_of created warnings)))) as Happ.
  { intros l3 created Hv Hp3. destruct (Hdone l3 (effects_of created warnings) Hv Hp3) as (H1 & H2 & H3).
    split; [|by unfold fulfils; simpl; rewrite Hversion]. split; [eexists; by split|]. by eapply consumed_effects. }
  assert (∀ l3 effects e, same_view l2 l3 → l2 `prefix_of` l3 →
    does (AskMove source expected t (expectation_of overwritten) (stage_after s)) s l0 l3
      (uncertain e (move_change source t before (stage_after s) overwritten effects))) as Hunc.
  { intros l3 effects e Hv Hp3. destruct (Hdone l3 (inexact effects) Hv Hp3) as (H1 & H2 & H3). split; [|done]. split.
    - eexists. split; [exact H2|]. split; [exact H1|]. split; [by eexists|done].
    - eapply consumed_weaken; [eapply consumed_effects; [exact Hk|done|done]|done]. }
  apply wp_bind. destruct (sync_parent durability); [|by apply Happ].
  destruct (fault_check (faults durability) ParentSyncPoint); [|by apply Hunc].
  apply wp_ask. intros r _. destruct (snoc_view l2 (Sync (published_parent p)) r eq_refl) as [Hv3 Hp3].
  destruct r; [by apply Happ|by apply Hunc].
Qed.

Lemma move_file_prepared_locked_spec expected x s l : usable l s →
  wp (move_file_prepared_locked digest limits durability source expected t x s) l (does (AskMove source expected t x (stage_after s)) s l).
Proof.
  intros Hu. unfold move_file_prepared_locked. cbv zeta. pose proof (ub_ok _ _ Hu) as Hok.
  apply wp_bind. eapply wp_mono; [apply check_move_spec|]. intros l1 [[before overwritten]|e] (He1 & Hp1 & Hchk).
  2: { eapply wp_mono; [by apply failed_with_aborted_stage_spec|]. intros. by apply does_failed. }
  destruct (Hchk _ _ eq_refl) as [Hversion Hx]. clear Hchk.
  apply wp_bind. eapply wp_mono; [by apply into_parts_spec|]. intros l2 [s'|e] Hs; [|by split]. destruct Hs as [-> ->].
  assert (∀ l' e, same_effects l l' →
    wp (e ← cleanup_staged_error durability (stage_staged s) e; e ← cleanup_error (stage_parents s) e; Done (failed e)) l'
      (does (AskMove source expected t x (stage_after s)) s l)) as Hfail.
  { intros l' e He. eapply wp_mono; [by apply (fail_both_spec s e l)|]. intros. by apply does_failed. }
  apply wp_bind. eapply wp_mono; [apply wp_and; [apply revalidate_effects|apply wp_prefix]|].
  intros l2 checked [He2 Hp2]. assert (same_effects l l2) as Hl2 by by etrans. destruct checked as [u|e]; [|by apply Hfail].
  apply wp_bind. eapply wp_mono; [apply wp_and; [apply revalidate_read|apply wp_and; [apply revalidate_effects|apply wp_prefix]]|].
  intros l3 checked (Hread & He3 & Hp3). assert (same_effects l l3) as Hl3 by by etrans.
  destruct checked as [u'|e]; [|by apply Hfail].
  assert (l `prefix_of` l3) as Hp by (by do 2 (etrans; [eassumption|])). assert (usable l3 s) as Hu3 by by eapply usable_prefix.
  set (over := negb (bool_decide (x = ExpectMissing))).
  assert (match x with ExpectMissing => over = false | ExpectExact v => read_as (absolute t) v (last_read (view_of l3)) end) as Hover
    by (destruct x as [v|]; [by eapply Hread|done]).
  apply wp_bind. eapply (wp_mono _ _ (λ l' r, persists (stage_staged s) over l3 l' r ∧ l3 `prefix_of` l')).
  { apply wp_and; [|apply wp_prefix]. unfold over. case_decide; subst; simpl.
    - rewrite bool_decide_eq_true_2 by done. by apply persist_stage_no_replace_spec.
    - rewrite bool_decide_eq_false_2 by done. by apply persist_stage_spec. }
  intros l4 [ws r] [H4 Hp4]. destruct r as [u''|e].
  - destruct H4 as [Hc Hk]. rewrite <-Hx. apply (finish_move_spec _ _ _ _ _ _ _ (put_of (stage_staged s) over (view_of l3))); [done| | |].
    + rewrite Hx. by apply (put_under_step l3 l3).
    + destruct Hl3 as [_ Hc3]. by rewrite Hc, Hc3.
    + destruct Hl3 as [Hpr3 _]. by eapply consumed_effects.
  - eapply wp_mono; [eapply (publication_failed s over x l l3 l4 e
      (published_move_destination_change t overwritten (stage_after s) (created_paths (stage_parents s)) ws) (set_warnings ws)); [done..| |]|].
    + intros l' c Hput. unfold published_move_destination_change, change_told.
      destruct overwritten; simpl in *; subst x; [by eexists _, _, _|by eexists _, _].
    + intros e' He'. unfold ends. case_decide; [done|]. eexists. split; [done|]. apply attach_exact.
    + intros l' out [? Ha]. split; [done|]. by destruct out.
Qed.
End specs.

(** What was told stays true. *)
Section told.
Context (digest : list N → list N) (limits : SnapshotLimits).

Lemma change_told_prefix l l' m cs : change_told digest limits l m cs → l `prefix_of` l' → change_told digest limits l' m cs.
Proof.
  assert (∀ t v c, gone_from digest limits l t v c → l `prefix_of` l' → gone_from digest limits l' t v c) as Hgone.
  { intros t v c (r & p & f & d & x & H1 & H2 & H3 & H4) Hp. exists r, p, f, d, x. split; [done|]. split; [done|]. split; [|done].
    by eapply leads_prefix. }
  pose proof (put_under_prefix digest limits l l') as Hput.
  unfold change_told. destruct (mut_kind m); intros H Hp.
  - destruct H as (a & c & H1 & H2 & H3 & H4). exists a, c. auto.
  - destruct H as (b & a & c & H1 & H2 & H3 & H4). exists b, a, c. auto.
  - destruct H as (b & c & H1 & H2 & H3 & H4). exists b, c. auto.
  - destruct H as (b & a & t & c1 & c2 & H1 & H2 & H3 & H4 & H5 & H6). exists b, a, t, c1, c2. auto 10.
Qed.
End told.
