(* ===== verification/FileEngine.v ===== *)
(** * The operations of the mutation engine

    The operations of [FileMutationEngine] that lock, check, stage and publish
    one file by themselves ([mutation.rs]), against their contract: the outcome
    tells what changed, and what was asked for. *)
From S2P Require Import Prelude Ordered UnixPath FileSystem FileTarget PatchGuards TextSnapshot PatchHistory SystemCalls SecureFs FileMutation.
Local Open Scope N_scope.

Inductive operation :=
  | DoCreate (t : CanonicalTarget) (bytes : list N)
  | DoReplace (t : CanonicalTarget) (expected : FileVersionToken) (bytes : list N)
  | DoDelete (t : CanonicalTarget) (expected : FileVersionToken)
  | DoMove (source : CanonicalTarget) (expected : FileVersionToken) (destination : CanonicalTarget) (x : CasExpectation)
      (bytes : option (list N)).

Section operations.
Context (digest : list N → list N) (process_id : N) (limits : SnapshotLimits) (durability : DurabilityOptions).

Definition perform (op : operation) : prog MutationOutcome :=
  match op with
  | DoCreate t bytes => create digest process_id limits durability t bytes
  | DoReplace t expected bytes => replace digest process_id limits durability t expected bytes
  | DoDelete t expected => delete_file digest limits durability t expected
  | DoMove source expected destination x bytes => move_file digest process_id limits durability source expected destination x bytes
  end.

(** A target as the resolver builds it, not named like a private file. *)
Definition good (t : CanonicalTarget) : Prop :=
  ∃ root parents final, target_ok t root parents final ∧ is_private final = false.
Definition good_targets (op : operation) : Prop :=
  match op with
  | DoCreate t _ | DoReplace t _ _ | DoDelete t _ => good t
  | DoMove source _ destination _ _ => good source ∧ good destination
  end.

(** What an operation asks for; a move without bytes keeps the content. *)
Definition requests (op : operation) (q : request) : Prop :=
  match op, q with
  | DoCreate t bytes, AskCreate t' after => t' = t ∧ snapshot_of_bytes digest bytes after
  | DoReplace t v bytes, AskReplace t' v' after => t' = t ∧ v' = v ∧ snapshot_of_bytes digest bytes after
  | DoDelete t v, AskDelete t' v' => t' = t ∧ v' = v
  | DoMove s v d x bytes, AskMove s' v' d' x' after =>
      s' = s ∧ v' = v ∧ d' = d ∧ x' = x ∧
      match bytes with Some bytes => snapshot_of_bytes digest bytes after | None => ms_version after = v end
  | _, _ => False
  end.

(** The outcome tells what changed, and which private files are left. *)
Definition operation_told (op : operation) (l l' : log) (out : MutationOutcome) : Prop :=
  outcome_told digest limits l l' out ∧ privates (view_of l) ⊆ privates (view_of l') ∧
  (exact_of out = true → privates (view_of l') = privates (view_of l)) ∧
  match out with Applied m => ∃ q, requests op q ∧ fulfils m q | _ => True end.

Lemma operation_failed op l l' e :
  changes (view_of l') = changes (view_of l) → privates (view_of l) ⊆ privates (view_of l') →
  (exact (error_effects e) = true → privates (view_of l') = privates (view_of l)) → operation_told op l l' (failed e).
Proof. intros Hc Hp He. split; [by apply nothing_told|]. by split. Qed.
Lemma operation_failed_same op l l' e : same_effects l l' → operation_told op l l' (failed e).
Proof. intros [Hp Hc]. apply operation_failed; [done|by rewrite Hp|done]. Qed.

(** Staging, then an operation on the stage. *)
Lemma staged_operation op q t root parents final bytes metadata l0 l (publish : PreparedFileStage → prog MutationOutcome) :
  target_ok t root parents final → numbered process_id l0 → same_effects l0 l → l0 `prefix_of` l →
  (∀ s l1, usable t root parents final l1 s → wp (publish s) l1 (does digest limits (q s) s l1)) →
  (∀ s, snapshot_of_bytes digest bytes (stage_after s) → requests op (q s)) →
  wp (stage ← prepare_file_stage_locked digest process_id limits durability t bytes metadata;
      match stage with Err e => Done (failed e) | Ok stage => publish stage end) l (operation_told op l0).
Proof.
  intros Ht Hn [Hp0 Hc0] Hpre Hpub Hq. apply wp_bind.
  assert (numbered process_id l) as Hn' by (eapply numbered_le; [exact Hn|exact Hpre|by rewrite Hp0]).
  eapply wp_mono; [by apply prepare_file_stage_locked_spec|]. intros l1 [s|e].
  - intros H. pose proof (prepared_usable _ _ _ _ _ _ _ _ _ _ H) as Hu. destruct H as [[[G1 G2 G3 G4 G5 G6 G7] Hw] Hid Hb].
    eapply wp_mono; [by apply Hpub|]. intros l2 out [[(cs & Hcs & Htold) (K1 & K2 & K3)] Hf].
    assert (({[stage_key (stage_staged s)]} ∪ privates (view_of l)) ∖ {[stage_key (stage_staged s)]} = privates (view_of l)) as Hkey
      by by apply difference_added.
    unfold key_of in *. rewrite G3, Hkey, Hp0 in K2. rewrite G3, Hkey, Hp0 in K3.
    split; [exists cs; split; [congruence|done]|]. split; [done|]. split; [done|]. destruct out; [|done..]. exists (q s). split; [by apply Hq|done].
  - intros [H1 H2 H3 H4]. apply operation_failed; [congruence|by rewrite <-Hp0|]. intros He. rewrite H4 by done. done.
Qed.

Lemma with_locks_spec op p l :
  numbered process_id l →
  (∀ l1, numbered process_id l1 → wp p l1 (operation_told op l1)) → wp (with_locks p) l (operation_told op l).
Proof.
  intros Hn Hp. unfold with_locks. apply wp_bind, wp_ask. intros acquired _.
  destruct (snoc_view l AcquireLocks acquired eq_refl) as [Hv Hpre]. destruct acquired.
  2: { by apply operation_failed_same, same_view_effects. }
  unfold same_view in Hv. apply wp_bind. eapply wp_mono; [apply Hp; eapply numbered_le; [exact Hn|exact Hpre|by rewrite Hv]|].
  intros l2 out (Ht & H1 & H2 & H3). apply wp_bind, wp_ask. intros u' _.
  destruct (snoc_view l2 ReleaseLocks u' eq_refl) as [Hv2 Hpre2]. unfold same_view in Hv2.
  rewrite Hv in H1, H2. change (operation_told op l (l2 ++ [Event ReleaseLocks u']) out). unfold operation_told. rewrite Hv2. split; [|done].
  destruct Ht as (cs & Hcs & Hm & Hr). exists cs. rewrite Hv2, <-Hv. split; [done|]. split; [|done].
  destruct (committed_of out); [by eapply change_told_prefix|done].
Qed.

(** What was read of a file has the version it is reported with. *)
Lemma read_existing_token t l :
  wp (read_existing digest limits t) l (λ _ r, ∀ s, r = Ok s → token_of digest (ms_bytes s) = ms_version s).
Proof.
  unfold read_existing. apply wp_bind, wp_ask. intros [m|e] _; [|done]. case_decide; [|done].
  apply wp_bind. eapply (wp_mono _ _ (λ _ _, True)); [apply wp_bind, wp_ask; by intros|].
  intros l1 [s|e] _; [|done]. intros m' Hm. by apply from_text_version in Hm as [-> ->].
Qed.

Lemma source_mode_view path : keeps same_view (source_mode durability path).
Proof. pose proof supported_mode_view. unfold source_mode. keeps. Qed.

Lemma create_locked_told t bytes l : good t → numbered process_id l →
  wp (create_locked digest process_id limits durability t bytes) l (operation_told (DoCreate t bytes) l).
Proof.
  intros (root & parents & final & Ht & _) Hn. unfold create_locked.
  apply wp_bind. eapply wp_mono; [apply wp_and; [apply version_on_disk_effects|apply wp_prefix]|]. intros l1 current [He Hp].
  destruct (match current with Ok c => _ | Err e => _ end); [|by apply operation_failed_same].
  eapply (staged_operation _ (λ s, AskCreate t (stage_after s))); [done..| |done]. intros. by apply (create_prepared_locked_spec _ _ _ _ root parents final).
Qed.

Lemma replace_locked_told t v bytes l : good t → numbered process_id l →
  wp (replace_locked digest process_id limits durability t v bytes) l (operation_told (DoReplace t v bytes) l).
Proof.
  intros (root & parents & final & Ht & _) Hn. unfold replace_locked.
  apply wp_bind. eapply wp_mono; [apply wp_and; [apply read_existing_effects|apply wp_prefix]|]. intros l1 [before|e] [He Hp]; [|by apply operation_failed_same].
  apply wp_bind. eapply wp_mono; [apply wp_view_prefix, source_mode_view|]. intros l2 [mode|e] [Hv2 Hp2];
    [|apply operation_failed_same; etrans; [exact He|by apply same_view_effects]].
  assert (same_effects l l2) as He2 by (etrans; [exact He|by apply same_view_effects]).
  destruct (validate_cas _ _ _); [|by apply operation_failed_same].
  eapply (staged_operation _ (λ s, AskReplace t v (stage_after s))); [done|done|done|by etrans| |done].
  intros. by apply (replace_prepared_locked_spec _ _ _ _ root parents final).
Qed.

Lemma delete_locked_told t v l : good t → wp (delete_locked digest limits durability t v) l (operation_told (DoDelete t v) l).
Proof.
  intros (root & parents & final & Ht & Hf). eapply wp_mono; [by apply (delete_locked_spec _ _ _ _ root parents final)|].
  intros l' out (Htold & Hp & Hful). split; [done|]. split; [by rewrite Hp|]. split; [done|]. destruct out; [|done..].
  by exists (AskDelete t v).
Qed.

Lemma move_file_locked_told s v d x bytes l : good s → good d → numbered process_id l →
  wp (move_file_locked digest process_id limits durability s v d x bytes) l (operation_told (DoMove s v d x bytes) l).
Proof.
  intros (root & parents & final & Hs & Hf) (root' & parents' & final' & Hd & _) Hn. unfold move_file_locked.
  case_decide as Hid; [by apply operation_failed_same|].
  apply wp_bind. eapply wp_mono; [apply wp_and; [apply read_existing_token|apply wp_and; [apply read_existing_effects|apply wp_prefix]]|].
  intros l1 [before|e] (Htok & He1 & Hp1); [|by apply operation_failed_same].
  destruct (injected (faults durability) CrossDevicePoint); [by apply operation_failed_same|].
  apply wp_bind. eapply wp_mono; [apply wp_view_prefix, same_filesystem_view|]. intros l2 same [Hv2 Hp2].
  assert (same_effects l l2) as He2 by (etrans; [exact He1|by apply same_view_effects]).
  destruct same as [[]|e]; [|by apply operation_failed_same..].
  destruct (validate_cas (ExpectExact v) _ _) eqn:Hcas; [|by apply operation_failed_same].
  apply validate_cas_exact in Hcas as [= Hversion].
  apply wp_bind. eapply wp_mono; [apply wp_and; [apply version_on_disk_effects|apply wp_prefix]|]. intros l3 current [He3 Hp3].
  assert (same_effects l l3) as He13 by by etrans.
  destruct (match current with Ok c => _ | Err e => _ end); [|by apply operation_failed_same].
  apply wp_bind. eapply wp_mono; [apply wp_view_prefix, source_mode_view|]. intros l4 [mode|e] [Hv4 Hp4];
    [|apply operation_failed_same; etrans; [exact He13|by apply same_view_effects]].
  assert (same_effects l l4) as He4 by (etrans; [exact He13|by apply same_view_effects]).
  eapply (staged_operation _ (λ stage, AskMove s v d x (stage_after stage))); [exact Hd|done|done|by do 3 (etrans; [eassumption|])| |].
  - intros. by apply (move_file_prepared_locked_spec _ _ _ _ root' parents' final' Hd s root parents final).
  - intros stage Hb. split; [done|]. split; [done|]. split; [done|]. split; [done|].
    destruct bytes as [b|]; [done|]. simpl in Hb. destruct Hb as [-> _]. rewrite <-Hversion. by apply Htok.
Qed.

(** C10: every operation of the mutation engine tells exactly what it changed,
    whatever the system answers and other processes do. It ends with an outcome.
    The changes of the tree are none when it failed before its commit, and
    otherwise the pieces of the change it reports, even when its state is
    uncertain: the bytes reported were put under the name of the target, in a
    directory reached through no link, by a call that never replaces when no file
    was expected and else after the file last read had the version reported; a
    file was removed only so. An applied outcome is what was asked for. Private
    files of others stay, and its own are gone when the outcome is exact. *)
Theorem engine_operations_told (op : operation) (l : log) :
  good_targets op → numbered process_id l → wp (perform op) l (operation_told op l).
Proof.
  intros Hgood Hn. destruct op as [t bytes|t v bytes|t v|s v d x bytes]; simpl in Hgood; cbn [perform]; unfold create, replace, delete_file, move_file.
  - apply with_locks_spec; [done|]. intros. by apply create_locked_told.
  - apply with_locks_spec; [done|]. intros. by apply replace_locked_told.
  - apply with_locks_spec; [done|]. intros. by apply delete_locked_told.
  - destruct Hgood. destruct (manifest_new _); [|by apply operation_failed_same].
    apply with_locks_spec; [done|]. intros. by apply move_file_locked_told.
Qed.
End operations.

(** ** A concrete operation

    A file is moved, keeping its content, over nothing; the directory could not
    be flushed after the source was removed, so the outcome is uncertain and
    still tells both changes. *)
Module SampleEngine.
Definition digest (bytes : list N) : list N := [sum_N bytes].
Definition snapshots : SnapshotLimits := {| TextSnapshot.max_file_bytes := 64; inline_threshold := 64 |}.
Definition target (name : string) : CanonicalTarget :=
  {| relative := [lit name]; absolute := [ROOT; lit "w"; lit name]; identity := lit name; role := Source;
     expectation := ExistingOrMissing |}.
Definition file : spool := {| spool_new := true; spool_write := λ _, true; spool_sync := true; spool_read := Ok |}.
Definition removed (l : log) : bool :=
  existsb (λ e, match e with Event c _ => match c with UnlinkAt _ name => bool_decide (name = lit "a") | _ => false end end) l.
Definition metadata (path : list text) : sys Metadata :=
  match path with
  | [_; _; name] =>
      if decide (name = lit "a") then Ok {| meta_kind := KindRegularFile; meta_inode := (1, 20); meta_mode := 420 |}
      else Err SysNotFound
  | _ => Ok {| meta_kind := KindDirectory; meta_inode := (1, 2); meta_mode := 493 |}
  end.
Definition oracle (l : log) (c : call) : answer c :=
  match c return answer c with
  | OpenRoot | OpenCurrent => Ok (1, 1)
  | OpenDirectoryAt _ _ => Ok (1, 2)
  | CreateAt _ _ => Ok (1, 30 + N.of_nat (length (stage_numbers l)))
  | MakeDirectoryAt _ _ | RemoveDirectoryAt _ _ | RenameAt _ _ _ | LinkAt _ _ _ | UnlinkAt _ _
  | Status _ | Duplicate _ | Write _ _ | SetMode _ _ => Ok ()
  | Sync _ => if removed l then Err SysOther else Ok ()
  | StatusAt _ _ => Ok {| meta_kind := KindRegularFile; meta_inode := (1, 20); meta_mode := 420 |}
  | PathMetadata path => metadata path
  | Mode _ => Ok 420
  | ReadFile _ => Ok ([Ok (lit "old")], file)
  | ListAttributes _ => Ok []
  | NewSpool => file
  | NextStage => N.of_nat (length (stage_numbers l))
  | NextAttempt => 0
  | IsCancelled => false
  | AcquireLocks | ObserverCommitted _ | ObserverTerminal _ => Ok ()
  | ReleaseLocks => ()
  | ObserverCheck | ObserverAdmit => Ok None
  end.
Definition move : operation := DoMove (target "a") (token_of digest (lit "old")) (target "b") ExpectMissing None.
Definition moved : log * MutationOutcome := run oracle (perform digest 5 snapshots default_durability move) [].

Lemma good_target name : name = "a"%string ∨ name = "b"%string → good (target name).
Proof.
  intros H. exists [lit "w"], [], (lit name). destruct H as [-> | ->]; (split; [|by vm_compute]);
    (split; [done|done|]); repeat constructor; try (by vm_compute); by apply (bool_decide_unpack _); vm_compute.
Qed.

Lemma engine_operations_told_witness :
  operation_told digest snapshots move [] moved.1 moved.2 ∧
  match moved.2 with Uncertain e (Some m) => Some (exact (error_effects e), mut_kind m) | _ => None end = Some (false, MutMove) ∧
  (λ c, match c with Put _ name _ over _ => (name, Some over) | Gone _ name _ => (name, None) end) <$> changes (view_of moved.1) =
    [(lit "b", Some false); (lit "a", None)].
Proof.
  split; [|by vm_compute]. assert (numbered 5 []) as Hn by (intros d name H; by apply elem_of_empty in H).
  pose proof (engine_operations_told digest 5 snapshots default_durability move []
    (conj (good_target "a" ltac:(by left)) (good_target "b" ltac:(by right))) Hn) as H.
  apply (wp_run oracle) in H; [exact H|by vm_compute].
Defined.
End SampleEngine.
