(* ===== verification/PatchExecutor.v ===== *)
(** * Executing a patch

    Models [crates/tools/src/apply_patch/executor.rs]: an authorized plan is
    checked again under the locks of its targets, staged completely, and
    committed change by change through the engine of FileMutation.v; the
    observer is told of every commit and of the end. Telemetry is left out, and
    so are the recovery facts given to the observer's admission; how the
    observer answers is up to the system. *)
From S2P Require Import Prelude Ordered UnixPath FileSystem FileTarget PatchDocument PatchGuards PatchPlanner TextSnapshot PatchHistory SystemCalls SecureFs FileMutation.
Local Open Scope N_scope.

(** ** Prepared patches ([prepare.rs]) *)
Record TargetMetadataFingerprint := { fingerprint_kind : TargetKind; fingerprint_identity : option inode }.
#[export] Instance TargetMetadataFingerprint_eq_dec : EqDecision TargetMetadataFingerprint.
Proof. solve_decision. Defined.
Record ObservedTarget := { observed_target : CanonicalTarget; observed_token : option FileVersionToken }.
Record ObservedDirectory := { directory_target : CanonicalTarget; directory_existed : bool; directory_fingerprint : TargetMetadataFingerprint }.
(** The maps are in the order of their keys. *)
Record PreparedPatch := {
  prepared_root : list text;
  prepared_schema_version : N;
  prepared_payload_hash : list N;
  prepared_payload_bytes : N;
  prepared_fingerprint : list N;
  prepared_document : ValidatedPatchDocument;
  prepared_plan : PlannedPatch;
  prepared_manifest : list CanonicalTarget;
  prepared_observed : list (text * ObservedTarget);
  prepared_parents : list (text * ObservedDirectory);
  prepared_versions : gmap text FileVersionToken;
  prepared_limits : SnapshotLimits;
  prepared_max_snapshot_bytes : N;
  prepared_max_output_bytes : N;
  prepared_max_candidate_matches : N;
  prepared_hunks : N;
  prepared_output_bytes : N;
  prepared_snapshot_bytes : N;
  prepared_parent_targets : N;
}.

(** ** Reports *)
Definition rejected_with (d : PatchDiagnostic) : ExecutionReport :=
  {| report_status := StatusRejected; report_delta := empty_delta; report_failure := Some d |}.
Definition rejected (stage : PatchStage) : ExecutionReport := rejected_with (diagnostic stage PcInvalidRequest).
Definition observer_rejection : ExecutionReport := rejected_with (diagnostic StRecord PcInvalidRequest).
Definition observer_failure (d : AppliedPatchDelta) : ExecutionReport :=
  if delta_is_empty d then
    {| report_status := StatusFailed; report_delta := d; report_failure := Some (diagnostic StRecord PcIo) |}
  else
    {| report_status := StatusUncertain; report_delta := with_exactness false d;
       report_failure := Some (diagnostic StRecord PcCommitStateUncertain) |}.
Definition partial_or_rejected (d : AppliedPatchDelta) (stage : PatchStage) : ExecutionReport :=
  {| report_status := if delta_is_empty d then StatusRejected else StatusPartial; report_delta := d;
     report_failure := Some (diagnostic stage PcInvalidRequest) |}.

(** [usize as u32] of an index. *)
Definition index_u32 (n : N) : N := n `mod` (U32_MAX + 1).
Definition clamp_u32 (n : N) : N := if decide (n ≤ U32_MAX) then n else U32_MAX.
Definition clamp_u16 (n : N) : N := if decide (n ≤ 65535) then n else 65535.

Definition mutation_code (code : MutationErrorCode) : PatchErrorCode :=
  match code with
  | MutCas | TargetMissing | TargetExists => PcStaleFile
  | MutLock => PcLockTimeout
  | SnapshotFailed | NotRegularFile => PcUnsupportedContent
  | Uncertainty => PcCommitStateUncertain
  | MetadataFailed | StageWrite => PcIoWriteFailed
  | CrossDevice => PcCrossDeviceMove
  | ParentCreation | StageCreate => PcIoCreateFailed
  | MutSync => PcIoSyncFailed
  | MutRename => PcIoRenameFailed
  | DeleteFailed => PcIoDeleteFailed
  end.
Definition mutation_diagnostic (stage : PatchStage) (planned : PlannedChange) (e : MutationError) : PatchDiagnostic :=
  let code := mutation_code (error_code e) in
  diagnostic_at stage code (Some (clamp_u32 (change_index planned)))
    (if decide (code = PcStaleFile) then Some HorizonCommit else None).

(** ** Committed changes *)
Definition history_snapshot (s : MutationSnapshot) : CommittedTextSnapshot :=
  {| cs_version := ms_version s; cs_bytes := ms_bytes s;
     cs_encoding := match ms_encoding s with Utf8Plain => EncUtf8 | Utf8Bom => EncUtf8Bom end;
     cs_line_endings :=
       {| hist_dominant := match dominant (ms_line_endings s) with
                           | EndLf => HistLf | EndCrlf => HistCrlf | EndMixed => HistMixed | EndNone => HistNone end;
          hist_mixed := mixed (ms_line_endings s); hist_final_newline := final_newline (ms_line_endings s) |} |}.
Definition patch_side_effects (e : MutationSideEffects) : PatchSideEffects :=
  {| pe_created := replicate (length (created_directories e)) "<created-parent>"%string;
     pe_residual := replicate (length (residual_directories e)) "<residual-parent>"%string;
     pe_warnings := warning_str <$> metadata_warnings e;
     pe_exact := exact e |}.
(** [to_string_lossy] of the relative path, with slashes. *)
Definition path_text (t : CanonicalTarget) : text :=
  (λ c : N, if decide (c = 92) then 47 else c) <$> display (relative t).
Definition same_content (m : MutationChange) : bool :=
  match mut_before m, mut_after m with
  | Some b, Some a => bool_decide (ms_version b = ms_version a)
  | _, _ => false
  end.
Definition committed_change (planned : PlannedChange) (m : MutationChange) : option CommittedPatchChange :=
  if same_content m && bool_decide (mut_destination m = None) && negb (bool_decide (is_Some (mut_overwritten m))) then None
  else
    Some {| cp_operation_index := index_u32 (change_index planned); cp_commit_step := 0; cp_sequence := 0;
            cp_kind := match mut_kind m with
                       | MutAdd => KindAdd
                       | MutReplace => if decide (change_kind planned = OpUpdate) then KindUpdate else KindReplace
                       | MutDelete => KindDelete
                       | MutMove => KindMove
                       end;
            cp_source := path_text (mut_source m);
            cp_destination := path_text <$> mut_destination m;
            cp_before := history_snapshot <$> mut_before m;
            cp_after := history_snapshot <$> mut_after m;
            cp_overwritten := history_snapshot <$> mut_overwritten m;
            cp_effects := patch_side_effects (mut_effects m) |}.
Definition assign_commit_position (committed_count : nat) (c : CommittedPatchChange) : CommittedPatchChange :=
  let sequence := clamp_u32 (N.of_nat committed_count) in
  {| cp_operation_index := cp_operation_index c; cp_commit_step := clamp_u16 sequence; cp_sequence := sequence;
     cp_kind := cp_kind c; cp_source := cp_source c; cp_destination := cp_destination c; cp_before := cp_before c;
     cp_after := cp_after c; cp_overwritten := cp_overwritten c; cp_effects := cp_effects c |}.
(** [committed.side_effects.merge(..)]. *)
Definition merge_into_change (effects : PatchSideEffects) (c : CommittedPatchChange) : CommittedPatchChange :=
  {| cp_operation_index := cp_operation_index c; cp_commit_step := cp_commit_step c; cp_sequence := cp_sequence c;
     cp_kind := cp_kind c; cp_source := cp_source c; cp_destination := cp_destination c; cp_before := cp_before c;
     cp_after := cp_after c; cp_overwritten := cp_overwritten c; cp_effects := merge_patch_effects (cp_effects c) effects |}.
Definition merge_delta (effects : PatchSideEffects) (d : AppliedPatchDelta) : AppliedPatchDelta :=
  {| delta_changes := delta_changes d; delta_exact := delta_exact d && pe_exact effects;
     delta_effects := merge_patch_effects (delta_effects d) effects |}.
Definition push_change (c : CommittedPatchChange) (d : AppliedPatchDelta) : AppliedPatchDelta :=
  {| delta_changes := delta_changes d ++ [c]; delta_exact := delta_exact d; delta_effects := delta_effects d |}.

Definition planned_is_noop (c : PlannedChange) : bool :=
  bool_decide (change_destination c = None) &&
  match before c, after c with Some b, Some a => bool_decide (snap_version b = snap_version a) | _, _ => false end.

Abbreviation stages := (list (option PreparedFileStage)).

Section executor.
Context (digest : list N → list N) (process_id : N).
(** The options of the engine. *)
Context (limits : SnapshotLimits) (durability : DurabilityOptions).

(** ** Aborting stages, the last first *)
Fixpoint abort_each (pending : list PreparedFileStage) (effects : MutationSideEffects) : prog MutationSideEffects :=
  match pending with
  | [] => Done effects
  | stage :: pending => aborted ← abort durability stage; abort_each pending (merge_effects effects aborted)
  end.
Definition abort_stages (s : stages) : prog MutationSideEffects := abort_each (reverse (omap id s)) no_side_effects.
Definition merge_aborted_stages (s : stages) (d : AppliedPatchDelta) : prog AppliedPatchDelta :=
  effects ← abort_stages s; Done (merge_delta (patch_side_effects effects) d).
Definition with_aborted (s : stages) (e : MutationError) : prog MutationError :=
  effects ← abort_stages s; Done (with_side_effects (merge_effects (error_effects e) effects) e).

(** ** Staging everything before the first commit *)
Definition targets_of (manifest : list CanonicalTarget) : gmap text CanonicalTarget :=
  foldl (λ m t, <[path_text t := t]> m) ∅ manifest.

Section staging_all.
Context (targets : gmap text CanonicalTarget).

Definition virtual_source_mode (modes : gmap text (option N)) (p : text) (t : CanonicalTarget)
    : prog (result MutationError (gmap text (option N) * option N)) :=
  match modes !! p with
  | Some mode => Done (Ok (modes, mode))
  | None =>
      mode ← supported_mode (absolute t);
      Done (match mode with Ok mode => Ok (<[p := mode]> modes, mode) | Err e => Err (error_io MetadataFailed e) end)
  end.

(** The arm of replacements and updates. *)
Definition stage_edit (modes : gmap text (option N)) (c : PlannedChange) (source : CanonicalTarget)
    : prog (result MutationError (gmap text (option N) * option PreparedFileStage)) :=
  let source_path := match modes !! change_source c with Some _ => None | None => Some (absolute source) end in
  found ←? virtual_source_mode modes (change_source c) source;
  match after c with
  | None => Done (Err (error_of SnapshotFailed))
  | Some after =>
      match match change_destination c with
            | Some d => match targets !! d with Some t => Some (t, d) | None => None end
            | None => Some (source, change_source c)
            end with
      | None => Done (Err (error_of TargetMissing))
      | Some (stage_target, next_path) =>
          stage ←? prepare_file_stage_locked digest process_id limits durability stage_target (snap_bytes after)
                     (PreserveSupportedMode (snd found) source_path);
          let modes := match change_destination c with Some _ => delete (change_source c) (fst found) | None => fst found end in
          Done (Ok (<[next_path := resulting_mode stage]> modes, Some stage))
      end
  end.
(** The stage of one change, and the modes files have after it. *)
Definition stage_change (modes : gmap text (option N)) (c : PlannedChange)
    : prog (result MutationError (gmap text (option N) * option PreparedFileStage)) :=
  match targets !! change_source c with
  | None => Done (Err (error_of TargetMissing))
  | Some source =>
      match change_kind c with
      | OpDelete => Done (Ok (delete (change_source c) modes, None))
      | OpAdd =>
          match after c with
          | None => Done (Err (error_of SnapshotFailed))
          | Some after =>
              stage ←? prepare_file_stage_locked digest process_id limits durability source (snap_bytes after) SafeAdd;
              Done (Ok (<[change_source c := resulting_mode stage]> modes, Some stage))
          end
      | OpReplace | OpUpdate => stage_edit modes c source
      end
  end.

(** The error comes with the change that could not be staged. *)
Fixpoint prepare_all_stages (ops : list PlannedChange) (done : stages) (modes : gmap text (option N))
    : prog (result (PlannedChange * MutationError) stages) :=
  match ops with
  | [] => Done (Ok done)
  | c :: ops =>
      if planned_is_noop c then prepare_all_stages ops (done ++ [None]) modes
      else
        staged ← stage_change modes c;
        match staged with
        | Ok (modes, stage) => prepare_all_stages ops (done ++ [stage]) modes
        | Err e => e ← with_aborted done e; Done (Err (c, e))
        end
  end.

(** ** One change *)
(** A stage that is not used is dropped, and cleans up on its own. *)
Definition drop_stage {A} (stage : option PreparedFileStage) (out : A) : prog A :=
  match stage with Some stage => _ ← abort durability stage; Done out | None => Done out end.
Definition required_version (c : PlannedChange) : option FileVersionToken := snap_version <$> before c.
Definition execute_change (c : PlannedChange) (stage : option PreparedFileStage) : prog MutationOutcome :=
  match targets !! change_source c with
  | None => drop_stage stage (failed (error_of TargetMissing))
  | Some source =>
      match change_kind c with
      | OpAdd =>
          match stage with
          | Some stage => create_prepared_locked digest limits durability source stage
          | None => Done (failed (error_of StageWrite))
          end
      | OpReplace =>
          match required_version c, stage with
          | Some version, Some stage => replace_prepared_locked digest limits durability source version stage
          | None, _ => drop_stage stage (failed (error_of TargetMissing))
          | Some _, None => Done (failed (error_of StageWrite))
          end
      | OpDelete =>
          match required_version c with
          | Some version => out ← delete_locked digest limits durability source version; drop_stage stage out
          | None => drop_stage stage (failed (error_of TargetMissing))
          end
      | OpUpdate =>
          match change_destination c with
          | Some d =>
              match targets !! d with
              | None => drop_stage stage (failed (error_of TargetMissing))
              | Some destination =>
                  let x := match overwritten_destination c with Some o => ExpectExact (snap_version o) | None => ExpectMissing end in
                  match required_version c, stage with
                  | Some version, Some stage => move_file_prepared_locked digest limits durability source version destination x stage
                  | None, _ => drop_stage stage (failed (error_of TargetMissing))
                  | Some _, None => Done (failed (error_of StageWrite))
                  end
              end
          | None =>
              match required_version c, stage with
              | Some version, Some stage => replace_prepared_locked digest limits durability source version stage
              | None, _ => drop_stage stage (failed (error_of TargetMissing))
              | Some _, None => Done (failed (error_of StageWrite))
              end
          end
      end
  end.

End staging_all.

(** ** Revalidation under the locks *)
Definition metadata_fingerprint (t : CanonicalTarget) : prog (result () TargetMetadataFingerprint) :=
  metadata ← ask (PathMetadata (absolute t)) : prog (sys Metadata);
  Done (match metadata with
        | Ok metadata => Ok {| fingerprint_kind := meta_kind metadata; fingerprint_identity := Some (meta_inode metadata) |}
        | Err SysNotFound => Ok {| fingerprint_kind := KindMissing; fingerprint_identity := None |}
        | Err _ => Err ()
        end).
Definition inspect_kind (t : CanonicalTarget) : prog (result () TargetKind) :=
  metadata ← ask (PathMetadata (absolute t)) : prog (sys Metadata);
  Done (match metadata with Ok metadata => Ok (meta_kind metadata) | Err SysNotFound => Ok KindMissing | Err _ => Err () end).

Fixpoint revalidate_parents (parents : list (text * ObservedDirectory)) : prog (result ExecutionReport ()) :=
  match parents with
  | [] => Done (Ok ())
  | (_, directory) :: parents =>
      current ← metadata_fingerprint (directory_target directory);
      match current with
      | Err _ => Done (Err (rejected StPrepare))
      | Ok current =>
          if decide (current = directory_fingerprint directory) then revalidate_parents parents
          else Done (Err (rejected_with (diagnostic_at StPrepare PcStaleFile None (Some HorizonPrepared))))
      end
  end.

Section revalidating.
Context (p : PreparedPatch).

Fixpoint find_changed (targets : list (text * ObservedTarget)) (changed : gset text) : prog (result ExecutionReport (gset text)) :=
  match targets with
  | [] => Done (Ok changed)
  | (path, o) :: targets =>
      current ← version_on_disk digest (prepared_limits p) (observed_target o);
      match current with
      | Err _ => Done (Err (rejected StPrepare))
      | Ok current => find_changed targets (if decide (current = observed_token o) then changed else {[path]} ∪ changed)
      end
  end.

(** A change that must not go over other bytes than it was planned for. *)
Definition destructive (changed : gset text) (c : PlannedChange) : bool :=
  bool_decide (change_source c ∈ changed) &&
  (bool_decide (change_kind c = OpDelete ∨ change_kind c = OpReplace) || bool_decide (is_Some (change_destination c)) ||
   match v_operations (prepared_document p) !! N.to_nat (change_index c) with
   | Some op => bool_decide (is_Some (v_source_guard op)) | None => false end).

Definition unreadable (e : SnapshotErrorCode) : ExecutionReport :=
  rejected_with (diagnostic StPrepare match e with BinaryContent | SnapshotInvalidUtf8 | TooLarge => PcUnsupportedContent | _ => PcIo end).
Definition unsupported : ExecutionReport := rejected_with (diagnostic StPrepare PcUnsupportedContent).

Fixpoint read_current (targets : list (text * ObservedTarget)) (total : N) (files : gmap text (list N))
    : prog (result ExecutionReport (gmap text (list N))) :=
  match targets with
  | [] => Done (Ok files)
  | (path, o) :: targets =>
      kind ← inspect_kind (observed_target o);
      match kind with
      | Ok KindMissing => read_current targets total files
      | Ok KindRegularFile =>
          s ← from_file digest (prepared_limits p) (absolute (observed_target o));
          match s with
          | Err e => Done (Err (unreadable e))
          | Ok s =>
              match checked_add U64_MAX total (token_byte_len (version s)) with
              | Some next =>
                  if decide (next ≤ prepared_max_snapshot_bytes p) then
                    match bytes_of digest s with
                    | Ok bytes => read_current targets next (<[path := bytes]> files)
                    | Err e => Done (Err (unreadable e))
                    end
                  else Done (Err unsupported)
              | None => Done (Err unsupported)
              end
          end
      | Ok _ => Done (Err unsupported)
      | Err _ => Done (Err (rejected StPrepare))
      end
  end.

Definition plan_rejection (e : PlanError) : ExecutionReport :=
  let code := match plan_code e with
              | PlanContextNotFound => PcContextNotFound
              | PlanAmbiguousContext => PcAmbiguousContext
              | UnsupportedContent => PcUnsupportedContent
              | MissingSourceGuard => PcPreconditionRequired
              | SourceMissing => PcSourceMissing
              | DestinationExists => PcDestinationExists
              | DestinationMissing => PcDestinationMissing
              | StaleSource | StaleDestination => PcStaleFile
              | _ => PcInvalidRequest
              end in
  rejected_with (diagnostic_at StPrepare code (Some (clamp_u32 (plan_index e)))
    (if decide (code = PcStaleFile) then Some HorizonPrepared else None)).

(** The planner always answers ([plan_always_answers]); [None] is the same
    rejection as an unknown error. *)
Definition replan (files : gmap text (list N)) : result ExecutionReport PlannedPatch :=
  match plan_with_limits (token_of digest) (prepared_document p) files (prepared_max_candidate_matches p)
          (prepared_max_output_bytes p) with
  | Some (Ok plan) => Ok plan
  | Some (Err e) => Err (plan_rejection e)
  | None => Err (rejected StPrepare)
  end.

Definition revalidate_and_plan : prog (result ExecutionReport PlannedPatch) :=
  _ ←? revalidate_parents (prepared_parents p);
  changed ←? find_changed (prepared_observed p) ∅;
  if decide (changed = ∅) then Done (Ok (prepared_plan p))
  else
    match find (destructive changed) (planned_operations (prepared_plan p)) with
    | Some c =>
        Done (Err (rejected_with (diagnostic_at StPrepare PcStaleFile (Some (clamp_u32 (change_index c))) (Some HorizonPrepared))))
    | None => files ←? read_current (prepared_observed p) 0 ∅; Done (replan files)
    end.
End revalidating.

(** ** Committing *)
Section committing.
Context (observed : bool) (targets : gmap text CanonicalTarget).

Definition notify_committed (c : CommittedPatchChange) : prog (sys ()) :=
  if observed then ask (ObserverCommitted c) else Done (Ok ()).

(** The end of a change that failed, or whose state is unsure. *)
Definition end_commit (c : PlannedChange) (rest : stages) (unsure : bool) (e : MutationError) (m : option MutationChange)
    (d : AppliedPatchDelta) : prog ExecutionReport :=
  e ← with_aborted rest e;
  let effects := patch_side_effects (error_effects e) in
  let report d :=
    let d := merge_delta effects d in
    let failure := Some (mutation_diagnostic StCommit c e) in
    if unsure : bool then {| report_status := StatusUncertain; report_delta := with_exactness false d; report_failure := failure |}
    else {| report_status := if delta_is_empty d then StatusFailed else StatusPartial; report_delta := d; report_failure := failure |} in
  match m ≫= committed_change c with
  | Some committed =>
      let committed := merge_into_change effects (assign_commit_position (length (delta_changes d)) committed) in
      let d := merge_delta effects d in
      told ← notify_committed committed;
      let d := push_change committed d in
      Done (match told with Ok _ => report d | Err _ => observer_failure d end)
  | None => Done (report d)
  end.

(** After one change: [go_on] is the rest of the loop. *)
Definition record_outcome (go_on : AppliedPatchDelta → prog (option ExecutionReport)) (c : PlannedChange) (rest : stages)
    (d : AppliedPatchDelta) (out : MutationOutcome) : prog (option ExecutionReport) :=
  match out with
  | Applied m =>
      let effects := patch_side_effects (mut_effects m) in
      match committed_change c m with
      | Some committed =>
          let committed := assign_commit_position (length (delta_changes d)) committed in
          told ← notify_committed committed;
          let d := push_change committed (merge_delta effects d) in
          match told with
          | Ok _ => go_on d
          | Err _ => d ← merge_aborted_stages rest d; Done (Some (observer_failure d))
          end
      | None => go_on (merge_delta effects d)
      end
  | Failed e m => report ← end_commit c rest false e m d; Done (Some report)
  | Uncertain e m => report ← end_commit c rest true e m d; Done (Some report)
  end.

(** [None] is the panic of [expect] when a change has no slot among the stages. *)
Fixpoint commit_all (ops : list PlannedChange) (s : stages) (d : AppliedPatchDelta) : prog (option ExecutionReport) :=
  match ops with
  | [] => Done (Some {| report_status := StatusApplied; report_delta := d; report_failure := None |})
  | c :: ops =>
      match s with
      | [] => Done None
      | stage :: s =>
          cancelled ← ask IsCancelled : prog bool;
          if cancelled : bool then
            d ← merge_aborted_stages (stage :: s) d; Done (Some (partial_or_rejected d StCommit))
          else if planned_is_noop c then drop_stage stage () ≫= λ _, commit_all ops s d
          else execute_change targets c stage ≫= record_outcome (commit_all ops s) c s d
      end
  end.

Definition commit_planned (ops : list PlannedChange) : prog (option ExecutionReport) :=
  staged ← prepare_all_stages targets ops [] ∅;
  match staged with
  | Err (c, e) =>
      let effects := patch_side_effects (error_effects e) in
      Done (Some {| report_status := StatusFailed; report_delta := merge_delta effects empty_delta;
                    report_failure := Some (mutation_diagnostic StStage c e) |})
  | Ok s => commit_all ops s empty_delta
  end.
End committing.

(** ** The whole execution *)
Section executing.
Context (observed : bool) (p : PreparedPatch).

(** What the observer's admission says: nothing to report, so go on. *)
Definition observer_admit : prog (result ExecutionReport ()) :=
  if observed then
    admitted ← ask ObserverAdmit : prog (sys (option ExecutionReport));
    Done (match admitted with Err _ => Err observer_rejection | Ok (Some report) => Err report | Ok None => Ok () end)
  else Done (Ok ()).
Definition finish (report : ExecutionReport) : prog ExecutionReport :=
  if observed then
    told ← ask (ObserverTerminal report) : prog (sys ());
    Done (match told with Ok _ => report | Err _ => observer_failure (report_delta report) end)
  else Done report.
(** The error is an early end. *)
Definition execute_locked : prog (option ExecutionReport) :=
  cancelled ← ask IsCancelled : prog bool;
  if cancelled : bool then Done (Some (rejected StLock))
  else
    planned ← revalidate_and_plan p;
    match planned with
    | Err report => Done (Some report)
    | Ok planned =>
        admitted ← observer_admit;
        match admitted with
        | Err report => Done (Some report)
        | Ok _ =>
            committed ← commit_planned observed (targets_of (prepared_manifest p)) (planned_operations planned);
            match committed with
            | Some report => report ← finish report; Done (Some report)
            | None => Done None
            end
        end
    end.
Definition execute_inner : prog (option ExecutionReport) :=
  cancelled ← ask IsCancelled : prog bool;
  if cancelled : bool then Done (Some (rejected StPrepare))
  else
    acquired ← ask AcquireLocks : prog (sys ());
    match acquired with
    | Err _ => Done (Some (rejected StLock))
    | Ok _ => report ← execute_locked; _ ← ask ReleaseLocks : prog (); Done report
    end.
End executing.

Definition execute (p : PreparedPatch) : prog (option ExecutionReport) := execute_inner false p.
Definition execute_with_observer_and_admission (p : PreparedPatch) (admission_fingerprint : list N) : prog (option ExecutionReport) :=
  if negb (bool_decide (admission_fingerprint = prepared_fingerprint p)) then Done (Some observer_rejection)
  else
    checked ← ask ObserverCheck : prog (sys (option ExecutionReport));
    match checked with
    | Ok (Some report) => Done (Some report)
    | Ok None => execute_inner true p
    | Err _ => Done (Some observer_rejection)
    end.
End executor.
