(* ===== verification/PatchExecution.v ===== *)
(** * What an executed patch reports

    The executor of PatchExecutor.v against its specification: whatever the
    system answers, the report tells every change of the tree, in order and as
    it was asked for, the observer is told of exactly those, and no private file
    is left behind when the report says it is exact. *)
From S2P Require Import Prelude Ordered UnixPath FileSystem FileTarget PatchDocument PatchGuards PatchPlanner TextSnapshot PatchHistory SystemCalls SecureFs FileMutation PatchExecutor.
Local Open Scope N_scope.

(** ** The observer is told by the executor only *)
Definition notified (l : log) : list CommittedPatchChange :=
  omap (λ e, match e with Event c _ => match c with ObserverCommitted change => Some change | _ => None end end) l.
Definition quiet (l l' : log) : Prop := notified l' = notified l.
#[export] Instance quiet_preorder : PreOrder quiet.
Proof. split; [done|]. unfold quiet. congruence. Qed.
Definition tells (c : call) : bool := match c with ObserverCommitted _ => true | _ => false end.
Lemma ask_quiet c : tells c = false → keeps quiet (ask c).
Proof. intros Hc. apply keeps_ask. intros l r. unfold quiet, notified. rewrite omap_app. simpl. destruct c; try done; by rewrite app_nil_r. Qed.

Create HintDb quiet.
Ltac quiet_step :=
  lazymatch goal with
  | |- keeps _ (Done _) => apply keeps_done; apply _
  | |- keeps _ (mbind _ _) => apply keeps_bind; [apply _| |intros ?]
  | |- keeps _ (try _ _) => apply keeps_try; [apply _| |intros ?]
  | |- keeps _ (ask _) => apply ask_quiet; reflexivity
  | |- keeps ?R (Next ?c ?k) => change (keeps R (mbind k (ask c)))
  | |- keeps _ (match ?x with _ => _ end) => destruct x
  | |- keeps _ _ => solve [auto with quiet]
  end.
Ltac quiet := cbv zeta beta; repeat (quiet_step; cbv beta).

Lemma open_directory_at_quiet parent component : keeps quiet (open_directory_at parent component).
Proof. unfold open_directory_at. quiet. Qed.
Hint Resolve open_directory_at_quiet : quiet.
Lemma open_components_quiet path directory : keeps quiet (open_components directory path).
Proof. revert directory. induction path as [|c path IH]; intros; simpl; quiet. Qed.
Hint Resolve open_components_quiet : quiet.
Lemma open_directory_path_quiet path : keeps quiet (open_directory_path path).
Proof. unfold open_directory_path. quiet. Qed.
Hint Resolve open_directory_path_quiet : quiet.
Lemma open_parents_quiet parents directory : keeps quiet (open_parents directory parents).
Proof. revert directory. induction parents as [|c path IH]; intros; simpl; quiet. Qed.
Hint Resolve open_parents_quiet : quiet.
Lemma open_target_parent_quiet target : keeps quiet (open_target_parent target).
Proof. unfold open_target_parent. quiet. Qed.
Hint Resolve open_target_parent_quiet : quiet.
Lemma verify_parent_binding_quiet s : keeps quiet (verify_parent_binding s).
Proof. unfold verify_parent_binding. quiet. Qed.
Hint Resolve verify_parent_binding_quiet : quiet.
Lemma remove_created_quiet entries residual : keeps quiet (remove_created entries residual).
Proof. revert residual. induction entries as [|e entries IH]; intros; simpl; quiet. Qed.
Hint Resolve remove_created_quiet : quiet.
Lemma cleanup_directories_quiet entries : keeps quiet (cleanup_directories entries).
Proof. unfold cleanup_directories. quiet. Qed.
Hint Resolve cleanup_directories_quiet : quiet.
Lemma ensure_loop_quiet parents current reported created : keeps quiet (ensure_loop current reported created parents).
Proof. revert current reported created. induction parents as [|c parents IH]; intros; simpl; quiet. Qed.
Hint Resolve ensure_loop_quiet : quiet.
Lemma ensure_parent_directories_quiet target : keeps quiet (ensure_parent_directories target).
Proof. unfold ensure_parent_directories. quiet. Qed.
Hint Resolve ensure_parent_directories_quiet : quiet.
Lemma stage_loop_quiet id attempts parent destination target : keeps quiet (stage_loop id attempts parent destination target).
Proof. induction attempts as [|attempts IH]; simpl; quiet. Qed.
Hint Resolve stage_loop_quiet : quiet.
Lemma create_staged_quiet id target : keeps quiet (create_staged id target).
Proof. unfold create_staged, stage_in_parent. quiet. Qed.
Lemma unlink_temporary_quiet s : keeps quiet (unlink_temporary s).
Proof. unfold unlink_temporary. quiet. Qed.
Hint Resolve create_staged_quiet unlink_temporary_quiet : quiet.
Lemma cleanup_quiet s inject : keeps quiet (cleanup s inject).
Proof. unfold cleanup. quiet. Qed.
Hint Resolve cleanup_quiet : quiet.
Lemma publish_failed_quiet s inject put e : keeps quiet (publish_failed s inject put e).
Proof. unfold publish_failed. quiet. Qed.
Hint Resolve publish_failed_quiet : quiet.
Lemma publish_replace_quiet s inject : keeps quiet (publish_replace s inject).
Proof. unfold publish_replace. quiet. Qed.
Lemma publish_no_replace_quiet s inject : keeps quiet (publish_no_replace s inject).
Proof. unfold publish_no_replace. quiet. Qed.
Lemma remove_regular_file_quiet t : keeps quiet (remove_regular_file t).
Proof. unfold remove_regular_file. quiet. Qed.
Hint Resolve publish_replace_quiet publish_no_replace_quiet remove_regular_file_quiet : quiet.

Section quiet_engine.
Context (digest : list N → list N) (process_id : N) (limits : SnapshotLimits) (durability : DurabilityOptions).

Lemma supported_mode_quiet path : keeps quiet (supported_mode path).
Proof. unfold supported_mode. quiet. Qed.
Lemma snapshot_from_bytes_quiet bytes : keeps quiet (snapshot_from_bytes digest limits bytes).
Proof. unfold snapshot_from_bytes. quiet. Qed.
Lemma from_file_quiet path : keeps quiet (from_file digest limits path).
Proof. unfold from_file. quiet. Qed.
Hint Resolve supported_mode_quiet snapshot_from_bytes_quiet from_file_quiet : quiet.
Lemma version_on_disk_quiet t : keeps quiet (version_on_disk digest limits t).
Proof. unfold version_on_disk. quiet. Qed.
Lemma read_existing_quiet t : keeps quiet (read_existing digest limits t).
Proof. unfold read_existing. quiet. Qed.
Lemma nearest_existing_directory_quiet fuel path : keeps quiet (nearest_existing_directory fuel path).
Proof. revert path. induction fuel as [|fuel IH]; intros; simpl; quiet. Qed.
Hint Resolve version_on_disk_quiet read_existing_quiet nearest_existing_directory_quiet : quiet.
Lemma revalidate_quiet t expectation role : keeps quiet (revalidate digest limits t expectation role).
Proof. unfold revalidate. quiet. Qed.
Lemma same_filesystem_quiet source destination : keeps quiet (same_filesystem source destination).
Proof. unfold same_filesystem. quiet. Qed.
Lemma cleanup_error_quiet parents e : keeps quiet (cleanup_error parents e).
Proof. unfold cleanup_error. quiet. Qed.
Lemma cleanup_staged_error_quiet plan s e : keeps quiet (cleanup_staged_error plan s e).
Proof. unfold cleanup_staged_error. quiet. Qed.
Lemma ensure_parents_quiet t : keeps quiet (ensure_parents t).
Proof. unfold ensure_parents, parent_creation_error. quiet. Qed.
Lemma apply_staged_metadata_quiet staged path mode : keeps quiet (apply_staged_metadata durability staged path mode).
Proof.
  unfold apply_staged_metadata, apply_supported_mode_to_file, metadata_warnings_for_source, apply_safe_add_mode_to_file. quiet.
Qed.
Hint Resolve revalidate_quiet same_filesystem_quiet cleanup_error_quiet cleanup_staged_error_quiet ensure_parents_quiet
  apply_staged_metadata_quiet : quiet.
Lemma stage_bytes_quiet t bytes : keeps quiet (stage_bytes process_id durability t bytes).
Proof. unfold stage_bytes. quiet. Qed.
Hint Resolve stage_bytes_quiet : quiet.
Lemma prepare_file_stage_locked_quiet t bytes metadata :
  keeps quiet (prepare_file_stage_locked digest process_id limits durability t bytes metadata).
Proof. unfold prepare_file_stage_locked. quiet. Qed.
Lemma abort_quiet stage : keeps quiet (abort durability stage).
Proof. unfold abort. quiet. Qed.
Hint Resolve prepare_file_stage_locked_quiet abort_quiet : quiet.
Lemma failed_with_aborted_stage_quiet stage e : keeps quiet (failed_with_aborted_stage durability stage e).
Proof. unfold failed_with_aborted_stage. quiet. Qed.
Lemma into_parts_quiet stage t : keeps quiet (into_parts durability stage t).
Proof. unfold into_parts. quiet. Qed.
Lemma persist_stage_quiet s warnings : keeps quiet (persist_stage durability s warnings).
Proof. unfold persist_stage, persist_with, sync_published. quiet. Qed.
Lemma persist_stage_no_replace_quiet s warnings : keeps quiet (persist_stage_no_replace durability s warnings).
Proof. unfold persist_stage_no_replace, persist_with, sync_published. quiet. Qed.
Hint Resolve failed_with_aborted_stage_quiet into_parts_quiet persist_stage_quiet persist_stage_no_replace_quiet : quiet.
Lemma create_prepared_locked_quiet t s : keeps quiet (create_prepared_locked digest limits durability t s).
Proof. unfold create_prepared_locked. quiet. Qed.
Lemma replace_prepared_locked_quiet t v s : keeps quiet (replace_prepared_locked digest limits durability t v s).
Proof. unfold replace_prepared_locked, revalidate_exact. quiet. Qed.
Lemma delete_locked_quiet t v : keeps quiet (delete_locked digest limits durability t v).
Proof. unfold delete_locked, revalidate_exact. quiet. Qed.
Lemma finish_move_quiet source v t before overwritten s warnings :
  keeps quiet (finish_move digest limits durability source v t before overwritten s warnings).
Proof. unfold finish_move, revalidate_exact. quiet. Qed.
Lemma read_destination_quiet t x : keeps quiet (read_destination digest limits t x).
Proof. unfold read_destination. quiet. Qed.
Hint Resolve finish_move_quiet read_destination_quiet : quiet.
Lemma check_move_quiet source v t x : keeps quiet (check_move digest limits durability source v t x).
Proof. unfold check_move. quiet. Qed.
Hint Resolve check_move_quiet : quiet.
Lemma move_file_prepared_locked_quiet source v t x s :
  keeps quiet (move_file_prepared_locked digest limits durability source v t x s).
Proof. unfold move_file_prepared_locked, revalidate_exact, revalidate_destination. quiet. Qed.
End quiet_engine.
Hint Resolve supported_mode_quiet from_file_quiet version_on_disk_quiet prepare_file_stage_locked_quiet abort_quiet
  create_prepared_locked_quiet replace_prepared_locked_quiet delete_locked_quiet move_file_prepared_locked_quiet : quiet.

(** ** Private files of several stages *)
Definition keys (s : stages) : list (inode * text) := key_of <$> omap id s.

(** The private files are those of [base] and of [ks], and no others when
    exact. *)
Record accounted (base : gset (inode * text)) (ks : list (inode * text)) (l : log) (ex : bool) : Prop := {
  ac_nodup : NoDup ks;
  ac_fresh : ∀ k, k ∈ ks → k ∉ base;
  ac_kept : base ∪ list_to_set ks ⊆ privates (view_of l);
  ac_exact : ex = true → privates (view_of l) = base ∪ list_to_set ks;
}.

Lemma accounted_weaken base ks l ex ex' : accounted base ks l ex → (ex' = true → ex = true) → accounted base ks l ex'.
Proof. intros [H1 H2 H3 H4] He. split; auto. Qed.
Lemma accounted_effects base ks l l' ex :
  accounted base ks l ex → privates (view_of l') = privates (view_of l) → accounted base ks l' ex.
Proof. intros [H1 H2 H3 H4] Hp. split; [done|done|by rewrite Hp|by rewrite Hp]. Qed.
Lemma accounted_perm base ks ks' l ex : accounted base ks l ex → ks ≡ₚ ks' → accounted base ks' l ex.
Proof.
  intros [H1 H2 H3 H4] Hp. assert (list_to_set ks' =@{gset (inode * text)} list_to_set ks) as Hs
    by (apply set_eq; intros k; rewrite !elem_of_list_to_set; by rewrite Hp).
  split; [by rewrite <-Hp|intros k; rewrite <-Hp; apply H2|by rewrite Hs|by rewrite Hs].
Qed.
Lemma accounted_consume base k ks l l' ex ex' :
  accounted base (k :: ks) l ex → consumed k l l' ex' → accounted base ks l' (ex && ex').
Proof.
  intros [[Hk H1]%NoDup_cons H2 H3 H4] (C1 & C2 & C3). pose proof (H2 k (list_elem_of_here _ _)) as Hb.
  split; [done|intros k' ?; apply H2; by right|..].
  - etrans; [|exact C2]. intros x Hx. apply elem_of_difference. split; [apply H3; set_solver|].
    intros ->%elem_of_singleton. apply elem_of_union in Hx as [?|?%elem_of_list_to_set]; done.
  - intros [He He']%andb_true_iff. rewrite C3, H4 by done. apply set_eq. intros x. simpl.
    destruct (decide (x = k)) as [->|]; [|set_solver]. rewrite elem_of_union, elem_of_list_to_set. set_solver.
Qed.
Lemma accounted_stage base k ks l l' :
  accounted base ks l true → k ∉ privates (view_of l) → privates (view_of l') = {[k]} ∪ privates (view_of l) →
  accounted base (k :: ks) l' true.
Proof.
  intros [H1 H2 H3 H4] Hk Hp. specialize (H4 eq_refl).
  split; [apply NoDup_cons; split; [|done]| | |].
  - intros Hin. apply Hk. rewrite H4. apply elem_of_union_r. by apply elem_of_list_to_set.
  - intros k' [->|Hin]%elem_of_cons; [|by apply H2]. intros Hb. apply Hk. rewrite H4. set_solver.
  - rewrite Hp, H4. set_solver.
  - intros _. rewrite Hp, H4. set_solver.
Qed.

Section execution.
Context (digest : list N → list N) (process_id : N) (limits : SnapshotLimits) (durability : DurabilityOptions).

(** ** Aborting *)
Abbreviation staged_oks s := (Forall (λ stage, staged_ok (stage_staged stage)) (omap id s)).

Lemma abort_each_spec base pending : ∀ effects l ex,
  Forall (λ stage, staged_ok (stage_staged stage)) pending → accounted base (key_of <$> pending) l ex →
  wp (abort_each durability pending effects) l (λ l' e,
    changes (view_of l') = changes (view_of l) ∧ accounted base [] l' (ex && exact e) ∧ (exact e = true → exact effects = true)).
Proof.
  induction pending as [|stage pending IH]; intros effects l ex Hok Ha; simpl.
  - split; [done|]. split; [|done]. eapply accounted_weaken; [exact Ha|]. by intros [? _]%andb_true_iff.
  - inv Hok. apply wp_bind. eapply wp_mono; [by apply abort_spec|]. intros l1 e1 [Hc1 Hk].
    eapply wp_mono; [apply IH; [done|by eapply accounted_consume]|]. intros l2 e2 (Hc2 & Ha2 & He2). split; [congruence|].
    simpl in He2. split; [|intros H; by apply He2, andb_true_iff in H as [? _]].
    eapply accounted_weaken; [exact Ha2|]. intros [-> H]%andb_true_iff. rewrite H. by apply He2, andb_true_iff in H as [_ ->].
Qed.

Lemma abort_stages_spec base s l ex :
  staged_oks s → accounted base (keys s) l ex →
  wp (abort_stages durability s) l (λ l' e, changes (view_of l') = changes (view_of l) ∧ accounted base [] l' (ex && exact e)).
Proof.
  intros Hok Ha. eapply wp_mono; [eapply abort_each_spec; [by apply Forall_reverse|]|by intros l' e (? & ? & _)].
  eapply accounted_perm; [exact Ha|]. unfold keys. by rewrite reverse_Permutation.
Qed.

Lemma with_aborted_spec base s e l ex :
  staged_oks s → accounted base (keys s) l ex →
  wp (with_aborted durability s e) l (λ l' e',
    changes (view_of l') = changes (view_of l) ∧ accounted base [] l' (ex && exact (error_effects e')) ∧
    error_code e' = error_code e ∧ (exact (error_effects e') = true → exact (error_effects e) = true)).
Proof.
  intros Hok Ha. unfold with_aborted. apply wp_bind. eapply wp_mono; [by eapply abort_stages_spec|]. intros l1 e1 [Hc H1].
  simpl. split; [done|]. split; [|split; [done|by intros [? _]%andb_true_iff]].
  eapply accounted_weaken; [exact H1|]. intros [-> [_ ->]%andb_true_iff]%andb_true_iff. done.
Qed.

Lemma abort_stages_quiet s : keeps quiet (abort_stages durability s).
Proof.
  unfold abort_stages. generalize (reverse (omap id s)) as pending, no_side_effects as effects. intros pending.
  induction pending as [|stage pending IH]; intros effects; simpl; quiet.
Qed.
Hint Resolve abort_stages_quiet : quiet.
Lemma with_aborted_quiet s e : keeps quiet (with_aborted durability s e).
Proof. unfold with_aborted. quiet. Qed.
Lemma merge_aborted_stages_quiet s d : keeps quiet (merge_aborted_stages durability s d).
Proof. unfold merge_aborted_stages. quiet. Qed.
Lemma drop_stage_quiet {A} stage (out : A) : keeps quiet (drop_stage durability stage out).
Proof. unfold drop_stage. quiet. Qed.
Hint Resolve with_aborted_quiet merge_aborted_stages_quiet drop_stage_quiet : quiet.

(** ** Planned changes *)
Section planned_changes.
Context (targets : gmap text CanonicalTarget).

(** A path that has a target as the resolver builds it. *)
Definition named (path : text) : Prop :=
  ∃ t root parents final, targets !! path = Some t ∧ target_ok t root parents final ∧ is_private final = false.
(** A change as the planner makes it. *)
Definition shaped (c : PlannedChange) : Prop :=
  (∀ a, after c = Some a → snap_version a = token_of digest (snap_bytes a)) ∧
  match change_kind c with
  | OpAdd => before c = None ∧ is_Some (after c) ∧ change_destination c = None
  | OpReplace => is_Some (before c) ∧ is_Some (after c) ∧ change_destination c = None
  | OpDelete => is_Some (before c) ∧ after c = None ∧ change_destination c = None
  | OpUpdate => is_Some (before c) ∧ is_Some (after c)
  end.
Record covered (c : PlannedChange) : Prop := {
  cv_source : named (change_source c);
  cv_destination : ∀ d, change_destination c = Some d → named d;
  cv_shaped : shaped c;
}.
Definition stage_path (c : PlannedChange) : text := default (change_source c) (change_destination c).
(** What is staged is what was planned. *)
Definition content (c : PlannedChange) (s : MutationSnapshot) : Prop :=
  ∃ a, after c = Some a ∧ snapshot_of_bytes digest (snap_bytes a) s.

(** What a planned change asks of the engine. *)
Definition asks (c : PlannedChange) (q : request) : Prop :=
  match q with
  | AskCreate t s => change_kind c = OpAdd ∧ targets !! change_source c = Some t ∧ content c s
  | AskReplace t v s =>
      (change_kind c = OpReplace ∨ change_kind c = OpUpdate) ∧ change_destination c = None ∧
      targets !! change_source c = Some t ∧ required_version c = Some v ∧ content c s
  | AskDelete t v => change_kind c = OpDelete ∧ targets !! change_source c = Some t ∧ required_version c = Some v
  | AskMove t v t' x s =>
      change_kind c = OpUpdate ∧ targets !! change_source c = Some t ∧ required_version c = Some v ∧
      (∃ d, change_destination c = Some d ∧ targets !! d = Some t') ∧
      x = match overwritten_destination c with Some o => ExpectExact (snap_version o) | None => ExpectMissing end ∧ content c s
  end.

(** The stage of a change, ready to be published. *)
Definition stage_for (l : log) (c : PlannedChange) (stage : option PreparedFileStage) : Prop :=
  match stage with
  | None => planned_is_noop c = true ∨ change_kind c = OpDelete
  | Some s =>
      planned_is_noop c = false ∧ change_kind c ≠ OpDelete ∧ content c (stage_after s) ∧
      ∃ t root parents final, targets !! stage_path c = Some t ∧ target_ok t root parents final ∧
        is_private final = false ∧ usable t root parents final l s
  end.
Lemma stage_for_prefix l l' c stage : stage_for l c stage → l `prefix_of` l' → stage_for l' c stage.
Proof.
  destruct stage as [s|]; [|done]. intros (H1 & H2 & H3 & t & root & parents & final & H4 & H5 & H6 & H7) Hp.
  split; [done|]. split; [done|]. split; [done|]. exists t, root, parents, final. split; [done|]. split; [done|]. split; [done|].
  by eapply usable_prefix.
Qed.
Lemma stages_ok l ops s : Forall2 (stage_for l) ops s → staged_oks s.
Proof.
  induction 1 as [|c [st|] ops s H _ IH]; simpl; [done|constructor; [|done]|done].
  destruct H as (_ & _ & _ & t & root & parents & final & _ & _ & _ & Hu). apply Hu.
Qed.

(** ** Staging *)
Lemma numbered_view l l' : numbered process_id l → same_view l l' → l `prefix_of` l' → numbered process_id l'.
Proof. intros Hn Hv Hp. eapply numbered_le; [exact Hn|exact Hp|by rewrite Hv]. Qed.

Definition staged_so_far (base : gset (inode * text)) (l0 : log) (ks : list (inode * text)) (l : log) : Prop :=
  numbered process_id l ∧ accounted base ks l true ∧ changes (view_of l) = changes (view_of l0).

Lemma staged_so_far_view base l0 ks l l' : staged_so_far base l0 ks l → same_view l l' → l `prefix_of` l' → staged_so_far base l0 ks l'.
Proof.
  intros (H1 & H2 & H3) Hv Hp. split; [by eapply numbered_view|]. unfold same_view in Hv.
  split; [eapply accounted_effects; [exact H2|]|]; by rewrite Hv.
Qed.

(** Staging bytes for a target, and what it leaves when it fails. *)
Lemma prepare_stage_spec base l0 ks c path t root parents final a metadata l :
  stage_path c = path → targets !! path = Some t → target_ok t root parents final → is_private final = false →
  planned_is_noop c = false → change_kind c ≠ OpDelete → after c = Some a → staged_so_far base l0 ks l →
  wp (prepare_file_stage_locked digest process_id limits durability t (snap_bytes a) metadata) l (λ l' r,
    match r with
    | Ok s => staged_so_far base l0 (key_of s :: ks) l' ∧ stage_for l' c (Some s)
    | Err e => accounted base ks l' (exact (error_effects e)) ∧ changes (view_of l') = changes (view_of l0)
    end).
Proof.
  intros Hpath Ht Hok Hpriv Hnoop Hkind Ha (Hn & Hacc & Hch).
  eapply wp_mono; [by eapply (prepare_file_stage_locked_spec digest process_id limits durability t root parents final)|].
  intros l' [s|e].
  - intros H. pose proof (prepared_usable _ _ _ _ _ _ _ _ _ _ H) as Hu. destruct H as [[[G1 G2 G3 G4 G5 G6 G7] Hw] Hid Hb].
    split; [split; [done|split; [by eapply accounted_stage|congruence]]|].
    split; [done|]. split; [done|]. split; [by exists a|]. subst path. by exists t, root, parents, final.
  - intros [H1 H2 H3 H4]. split; [|congruence]. destruct Hacc as [A1 A2 A3 A4]. specialize (A4 eq_refl). split; [done..| |].
    + by etrans.
    + intros He. by rewrite H4.
Qed.

Lemma virtual_source_mode_view modes path t : keeps same_view (virtual_source_mode modes path t).
Proof. pose proof supported_mode_view. unfold virtual_source_mode. keeps. Qed.

Lemma stage_target c t : covered c → targets !! change_source c = Some t →
  ∃ t' root parents final, target_ok t' root parents final ∧ is_private final = false ∧ targets !! stage_path c = Some t' ∧
    match change_destination c with
    | Some d => match targets !! d with Some t => Some (t, d) | None => None end
    | None => Some (t, change_source c)
    end = Some (t', stage_path c).
Proof.
  intros [(t0 & root & parents & final & Ht & Hok & Hpriv) Hdest _] Ht'. unfold stage_path.
  destruct (change_destination c) as [d|]; simpl.
  - destruct (Hdest d eq_refl) as (t1 & root1 & parents1 & final1 & Ht1 & ? & ?). rewrite Ht1. by exists t1, root1, parents1, final1.
  - rewrite Ht in Ht'. injection Ht' as <-. by exists t0, root, parents, final.
Qed.

Opaque prepare_file_stage_locked.
Definition stages_change (base : gset (inode * text)) (l0 : log) (ks : list (inode * text)) (c : PlannedChange) (l' : log)
    (r : result MutationError (gmap text (option N) * option PreparedFileStage)) : Prop :=
  match r with
  | Ok (_, stage) => staged_so_far base l0 (keys [stage] ++ ks) l' ∧ stage_for l' c stage
  | Err e => accounted base ks l' (exact (error_effects e)) ∧ changes (view_of l') = changes (view_of l0)
  end.

Lemma stage_edit_spec base l0 ks c t modes l :
  covered c → targets !! change_source c = Some t → planned_is_noop c = false → change_kind c ≠ OpDelete → is_Some (after c) →
  staged_so_far base l0 ks l →
  wp (stage_edit digest process_id limits durability targets modes c t) l (stages_change base l0 ks c).
Proof.
  intros Hc Ht Hnoop Hk [a Ha] Hs. destruct (stage_target c t Hc Ht) as (t' & root & parents & final & Hok & Hpriv & Ht' & Hst).
  unfold stage_edit. cbv zeta. rewrite Ha, Hst. apply wp_try.
  eapply wp_mono; [apply wp_view_prefix, virtual_source_mode_view|]. intros l1 [found|e] [Hv Hp].
  - apply wp_try. eapply wp_mono; [eapply prepare_stage_spec; [done|done|done|done|done|done|done|by eapply staged_so_far_view]|].
    by intros l' [s|e] H.
  - destruct (staged_so_far_view _ _ _ _ _ Hs Hv Hp) as (_ & H1 & H2). split; [by eapply accounted_weaken|done].
Qed.

Lemma stage_change_spec base l0 ks c modes l :
  covered c → planned_is_noop c = false → staged_so_far base l0 ks l →
  wp (stage_change digest process_id limits durability targets modes c) l (stages_change base l0 ks c).
Proof.
  intros Hc Hnoop Hs. pose proof Hc as [(t & root & parents & final & Ht & Hok & Hpriv) _ [_ Hshape]].
  unfold stage_change. rewrite Ht. destruct (change_kind c) eqn:Hk.
  - destruct Hshape as (_ & [a Ha] & Hd). rewrite Ha. apply wp_try.
    assert (stage_path c = change_source c) as Hpath by (unfold stage_path; by rewrite Hd).
    eapply wp_mono; [eapply (prepare_stage_spec base l0 ks c _ t); [done|done|done|done|done|congruence|done|done]|].
    by intros l' [s|e] H.
  - apply stage_edit_spec; [done..|congruence|naive_solver|done].
  - apply stage_edit_spec; [done..|congruence|naive_solver|done].
  - split; [done|by right].
Qed.

Lemma keys_app s s' : keys (s ++ s') = keys s ++ keys s'.
Proof. unfold keys. by rewrite omap_app, fmap_app. Qed.

Lemma prepare_all_stages_spec base l0 ops done_ops : ∀ done modes l,
  Forall covered ops → Forall2 (stage_for l) done_ops done → staged_so_far base l0 (keys done) l →
  wp (prepare_all_stages digest process_id limits durability targets ops done modes) l (λ l' r,
    changes (view_of l') = changes (view_of l0) ∧
    match r with
    | Ok s => Forall2 (stage_for l') (done_ops ++ ops) s ∧ accounted base (keys s) l' true
    | Err (_, e) => accounted base [] l' (exact (error_effects e))
    end).
Proof.
  revert done_ops. induction ops as [|c ops IH]; intros done_ops done modes l Hcov Hdone Hs; cbn [prepare_all_stages].
  - destruct Hs as (_ & ? & ?). rewrite app_nil_r. done.
  - inv Hcov. destruct (planned_is_noop c) eqn:Hnoop.
    + eapply wp_mono; [apply (IH (done_ops ++ [c]))|].
      * done.
      * apply Forall2_app; [done|]. constructor; [by left|done].
      * by rewrite keys_app, app_nil_r.
      * intros l' r. by rewrite <-app_assoc.
    + apply wp_bind. eapply wp_mono; [apply wp_and; [by apply stage_change_spec|apply wp_prefix]|].
      intros l1 [[modes1 stage]|e] [H Hp].
      * destruct H as [Hs1 Hst]. eapply wp_mono; [apply (IH (done_ops ++ [c]))|].
        -- done.
        -- apply Forall2_app; [|by constructor]. eapply Forall2_impl; [exact Hdone|]. intros. by eapply stage_for_prefix.
        -- destruct Hs1 as (? & ? & ?). split; [done|]. split; [|done]. eapply accounted_perm; [done|].
           rewrite keys_app. by rewrite Permutation_app_comm.
        -- intros l' r. by rewrite <-app_assoc.
      * destruct H as [Ha Hc]. apply wp_bind. eapply wp_mono; [eapply with_aborted_spec; [by eapply stages_ok|exact Ha]|].
        intros l2 e2 (Hc2 & Ha2 & _ & He). simpl. split; [congruence|]. eapply accounted_weaken; [exact Ha2|].
        intros Hx. by rewrite Hx, He.
Qed.

(** ** One change *)
Definition changes_one (base : gset (inode * text)) (ks : list (inode * text)) (ex : bool) (c : PlannedChange) (l l' : log)
    (out : MutationOutcome) : Prop :=
  outcome_told digest limits l l' out ∧ accounted base ks l' (ex && exact_of out) ∧
  match out with Applied m => ∃ q, asks c q ∧ fulfils m q | _ => True end.

Lemma does_changes base ks ex c q s l l' out :
  accounted base (keys [Some s] ++ ks) l ex → asks c q → does digest limits q s l l' out → changes_one base ks ex c l l' out.
Proof.
  intros Ha Hq [[Ht Hk] Hf]. split; [done|]. split; [exact (accounted_consume _ (key_of s) _ _ _ _ _ Ha Hk)|]. destruct out; [|done..]. by exists q.
Qed.

Lemma execute_change_spec base ks ex c stage l :
  covered c → planned_is_noop c = false → stage_for l c stage → accounted base (keys [stage] ++ ks) l ex →
  wp (execute_change digest limits durability targets c stage) l (changes_one base ks ex c l).
Proof.
  intros Hc Hnoop Hst Ha. pose proof Hc as [(t & root & parents & final & Ht & Hok & Hpriv) Hdest [_ Hshape]].
  assert (∀ b, before c = Some b → required_version c = Some (snap_version b)) as Hv
    by (intros b Hb; unfold required_version; by rewrite Hb).
  unfold execute_change. rewrite Ht. destruct stage as [s|].
  - destruct Hst as (_ & Hk & Hcont & t' & root' & parents' & final' & Ht' & Hok' & Hpriv' & Hu).
    assert (change_destination c = None → t' = t ∧ usable t root' parents' final' l s) as Hsame.
    { intros Hd. unfold stage_path in Ht'. rewrite Hd in Ht'. simpl in Ht'. rewrite Ht in Ht'. by injection Ht' as <-. }
    destruct (change_kind c) eqn:Hkind; [| | |done].
    + destruct Hshape as (_ & _ & Hd). destruct (Hsame Hd) as [-> Hu']. eapply wp_mono; [by apply (create_prepared_locked_spec _ _ _ _ root' parents' final')|].
      intros l' out. apply does_changes; [done|by split].
    + destruct Hshape as ([b Hb] & _ & Hd). destruct (Hsame Hd) as [-> Hu']. specialize (Hv b Hb). rewrite Hv.
      eapply wp_mono; [by apply (replace_prepared_locked_spec _ _ _ _ root' parents' final')|]. intros l' out. apply does_changes; [done|].
      split; [by left|]. split; [done|]. split; [done|]. by split.
    + destruct Hshape as ([b Hb] & _). specialize (Hv b Hb). rewrite Hv.
      destruct (change_destination c) as [d|] eqn:Hd.
      * unfold stage_path in Ht'. rewrite Hd in Ht'. simpl in Ht'. rewrite Ht'. cbv zeta.
        eapply wp_mono; [by apply (move_file_prepared_locked_spec digest limits durability t' root' parents' final' Hok' t root parents final)|].
        intros l' out. apply does_changes; [done|]. split; [done|]. split; [done|].
        split; [done|]. split; [by exists d|done].
      * destruct (Hsame eq_refl) as [-> Hu']. eapply wp_mono; [by apply (replace_prepared_locked_spec _ _ _ _ root' parents' final')|].
        intros l' out. apply does_changes; [done|]. split; [by right|]. split; [done|]. split; [done|].
        by split.
  - destruct Hst as [?|Hkind]; [congruence|]. rewrite Hkind in Hshape |- *. destruct Hshape as ([b Hb] & _).
    specialize (Hv b Hb). rewrite Hv. apply wp_bind. eapply wp_mono; [by apply (delete_locked_spec digest limits durability t root parents final)|].
    intros l' out (Htold & Hp & Hf). simpl. split; [done|]. split.
    + eapply accounted_weaken; [by eapply accounted_effects|]. by intros [? _]%andb_true_iff.
    + destruct out; [|done..]. exists (AskDelete t (snap_version b)). split; [|done]. split; [done|]. done.
Qed.

Lemma execute_change_quiet c stage : keeps quiet (execute_change digest limits durability targets c stage).
Proof. unfold execute_change. quiet. Qed.
Lemma stage_change_quiet modes c : keeps quiet (stage_change digest process_id limits durability targets modes c).
Proof. unfold stage_change, stage_edit, virtual_source_mode. quiet. Qed.
Hint Resolve stage_change_quiet : quiet.
Lemma prepare_all_stages_quiet ops : ∀ done modes,
  keeps quiet (prepare_all_stages digest process_id limits durability targets ops done modes).
Proof. induction ops as [|c ops IH]; intros done modes; simpl; quiet. Qed.

(** ** What a report tells *)
Definition without_effects (c : CommittedPatchChange) : CommittedPatchChange :=
  {| cp_operation_index := cp_operation_index c; cp_commit_step := cp_commit_step c; cp_sequence := cp_sequence c;
     cp_kind := cp_kind c; cp_source := cp_source c; cp_destination := cp_destination c; cp_before := cp_before c;
     cp_after := cp_after c; cp_overwritten := cp_overwritten c; cp_effects := no_patch_effects |}.
(** Changes with their positions in the commit. *)
Definition positions (cs : list CommittedPatchChange) : list CommittedPatchChange :=
  imap (λ i c, without_effects (assign_commit_position i c)) cs.
Lemma positions_snoc cs c : positions (cs ++ [c]) = positions cs ++ [without_effects (assign_commit_position (length cs) c)].
Proof. unfold positions. rewrite imap_app. simpl. by rewrite Nat.add_0_r. Qed.

Section telling.
Context (observed : bool) (l0 : log).
Definition committed_of_pair (cm : PlannedChange * MutationChange) : option CommittedPatchChange := committed_change cm.1 cm.2.

(** The changes of the tree since [l0] are those of [ms], one piece each; [d]
    lists them in order, and the observer was told of exactly that list. *)
Record carried (ms : list (PlannedChange * MutationChange)) (chunks : list (list change)) (l : log) (d : AppliedPatchDelta) : Prop := {
  ca_changes : changes (view_of l) = changes (view_of l0) ++ concat chunks;
  ca_told : Forall2 (λ cm cs, change_told digest limits l cm.2 cs) ms chunks;
  ca_delta : without_effects <$> delta_changes d = positions (omap committed_of_pair ms);
  ca_notified : notified l = notified l0 ++ (if observed then delta_changes d else []);
}.

Lemma all_told_prefix l l' (ms : list (PlannedChange * MutationChange)) chunks :
  Forall2 (λ cm cs, change_told digest limits l cm.2 cs) ms chunks → l `prefix_of` l' →
  Forall2 (λ cm cs, change_told digest limits l' cm.2 cs) ms chunks.
Proof. intros H Hp. eapply Forall2_impl; [exact H|]. intros cm cs Hc. exact (change_told_prefix _ _ _ _ _ _ Hc Hp). Qed.

Lemma carried_same ms chunks l l' d d' :
  carried ms chunks l d → changes (view_of l') = changes (view_of l) → quiet l l' → l `prefix_of` l' →
  delta_changes d' = delta_changes d → carried ms chunks l' d'.
Proof.
  intros [H1 H2 H3 H4] Hc Hq Hp Hd. split; [by rewrite Hc| |by rewrite Hd|by rewrite Hd, Hq].
  by eapply all_told_prefix.
Qed.

Lemma carried_none ms chunks l l' d d' c m cs :
  carried ms chunks l d → changes (view_of l') = changes (view_of l) ++ cs → change_told digest limits l' m cs →
  quiet l l' → l `prefix_of` l' → committed_change c m = None → delta_changes d' = delta_changes d →
  carried (ms ++ [(c, m)]) (chunks ++ [cs]) l' d'.
Proof.
  intros [H1 H2 H3 H4] Hc Ht Hq Hp Hm Hd. split.
  - by rewrite Hc, H1, concat_app, <-app_assoc; simpl; rewrite app_nil_r.
  - apply Forall2_app; [|by constructor]. by eapply all_told_prefix.
  - rewrite Hd, H3, omap_app. simpl. by rewrite (Hm : committed_of_pair (c, m) = None), app_nil_r.
  - by rewrite Hd, Hq.
Qed.

Lemma carried_some ms chunks l l' d d' c m cs x y :
  carried ms chunks l d → changes (view_of l') = changes (view_of l) ++ cs → change_told digest limits l' m cs →
  quiet l l' → l `prefix_of` l' → committed_change c m = Some x →
  without_effects y = without_effects (assign_commit_position (length (delta_changes d)) x) →
  delta_changes d' = delta_changes d ++ [y] →
  wp (notify_committed observed y) l' (λ l'' _, carried (ms ++ [(c, m)]) (chunks ++ [cs]) l'' d' ∧ same_view l' l'' ∧ l' `prefix_of` l'').
Proof.
  intros [H1 H2 H3 H4] Hc Ht Hq Hp Hm Hy Hd.
  assert (∀ l'', same_view l' l'' → l' `prefix_of` l'' → notified l'' = notified l' ++ (if observed then [y] else []) →
    carried (ms ++ [(c, m)]) (chunks ++ [cs]) l'' d') as Hdone.
  { intros l'' Hv Hp' Hn. unfold same_view in Hv. split.
    - by rewrite Hv, Hc, H1, concat_app, <-app_assoc; simpl; rewrite app_nil_r.
    - apply Forall2_app; [|constructor; [by eapply change_told_prefix|done]]. eapply all_told_prefix; [done|by etrans].
    - rewrite Hd, fmap_app, H3, omap_app. simpl. rewrite (Hm : committed_of_pair (c, m) = Some x), positions_snoc. f_equal.
      simpl. rewrite Hy. by rewrite <-(length_fmap without_effects (delta_changes d)), H3; unfold positions; rewrite length_imap.
    - rewrite Hn, Hq, H4, Hd. destruct observed; [by rewrite app_assoc|by rewrite app_nil_r]. }
  unfold notify_committed. destruct observed.
  - apply wp_ask. intros r _. destruct (snoc_view l' (ObserverCommitted y) r eq_refl) as [Hv Hp'].
    split; [|done]. apply Hdone; [done..|]. unfold notified. rewrite omap_app. done.
  - simpl. split; [|done]. apply Hdone; [done..|]. by rewrite app_nil_r.
Qed.

Definition fulfilled (cm : PlannedChange * MutationChange) : Prop := ∃ q, asks cm.1 q ∧ fulfils cm.2 q.
Definition changing (ops : list PlannedChange) : list PlannedChange := filter (λ c, planned_is_noop c = false) ops.

(** The changes of [ms] are those of a prefix of the plan; all were made as
    planned but the last, when the report says that it failed. *)
Record reported (ops : list PlannedChange) (ms : list (PlannedChange * MutationChange)) (chunks : list (list change)) (l : log)
    (r : ExecutionReport) : Prop := {
  rp_carried : carried ms chunks l (report_delta r);
  rp_prefix : ms.*1 `prefix_of` changing ops;
  rp_fulfilled : Forall fulfilled (removelast ms);
  rp_applied : report_status r = StatusApplied → ms.*1 = changing ops ∧ Forall fulfilled ms;
  rp_rejected : report_status r = StatusRejected → ms = [];
  rp_failed : report_status r = StatusFailed → delta_changes (report_delta r) = [];
  rp_kept : privates (view_of l0) ⊆ privates (view_of l);
  rp_exact : delta_exact (report_delta r) = true → privates (view_of l) = privates (view_of l0);
}.

Lemma changing_app ops ops' : changing (ops ++ ops') = changing ops ++ changing ops'.
Proof. apply filter_app. Qed.
Lemma changing_one c : changing [c] = if planned_is_noop c then [] else [c].
Proof. unfold changing. rewrite filter_cons. destruct (planned_is_noop c); simpl; by rewrite filter_nil. Qed.

Lemma delta_is_empty_changes d : delta_is_empty d = true → delta_changes d = [].
Proof. unfold delta_is_empty. intros [H%bool_decide_eq_true _]%andb_true_iff. by apply length_zero_iff_nil. Qed.

Lemma Forall_removelast {A} (P : A → Prop) (xs : list A) : Forall P xs → Forall P (removelast xs).
Proof. induction xs as [|x xs IH] using rev_ind; [done|]. rewrite removelast_last. by intros [? _]%Forall_app. Qed.

Lemma accounted_none l ex : accounted (privates (view_of l0)) [] l ex →
  privates (view_of l0) ⊆ privates (view_of l) ∧ (ex = true → privates (view_of l) = privates (view_of l0)).
Proof. intros [_ _ H3 H4]. simpl in *. rewrite union_empty_r_L in H3, H4. done. Qed.

Lemma report_end ops ms chunks l d r :
  carried ms chunks l d → accounted (privates (view_of l0)) [] l (delta_exact d) →
  ms.*1 `prefix_of` changing ops → Forall fulfilled (removelast ms) →
  delta_changes (report_delta r) = delta_changes d → (delta_exact (report_delta r) = true → delta_exact d = true) →
  match report_status r with
  | StatusApplied => ms.*1 = changing ops ∧ Forall fulfilled ms
  | StatusRejected => ms = []
  | StatusFailed => delta_changes d = []
  | _ => True
  end → reported ops ms chunks l r.
Proof.
  intros Hc [H1 H2]%accounted_none Hp Hf Hd He Hs. split; [by eapply carried_same|done|done|..|done|auto];
    intros Hr; rewrite Hr in Hs; [done|done|by rewrite Hd].
Qed.

Lemma observer_failure_reported ops ms chunks l d :
  carried ms chunks l d → accounted (privates (view_of l0)) [] l (delta_exact d) →
  ms.*1 `prefix_of` changing ops → Forall fulfilled (removelast ms) → reported ops ms chunks l (observer_failure d).
Proof.
  intros. unfold observer_failure. destruct (delta_is_empty d) eqn:Hd; eapply report_end; try done.
  by apply delta_is_empty_changes.
Qed.

(** The end of a change that failed before its commit, or after it. *)
Lemma end_commit_spec ops ms chunks c s unsure e m d l1 l :
  carried ms chunks l1 d → quiet l1 l → l1 `prefix_of` l → staged_oks s →
  accounted (privates (view_of l0)) (keys s) l (delta_exact d && exact (error_effects e)) →
  ms.*1 ++ [c] `prefix_of` changing ops → Forall fulfilled ms →
  match m with
  | None => unsure = false ∧ changes (view_of l) = changes (view_of l1)
  | Some m => unsure = true ∧ ∃ cs, changes (view_of l) = changes (view_of l1) ++ cs ∧ change_told digest limits l m cs
  end →
  wp (end_commit durability observed c s unsure e m d) l (λ l' r, ∃ ms chunks, reported ops ms chunks l' r).
Proof.
  intros Hcar Hq Hp Hok Hacc Hpre Hful Hm. unfold end_commit. apply wp_bind.
  eapply wp_mono; [apply wp_and; [by eapply with_aborted_spec|apply wp_and; [apply with_aborted_quiet|apply wp_prefix]]|].
  intros l2 e2 ((Hc2 & Ha2 & _ & He2) & Hq2 & Hp2). cbv zeta.
  assert (quiet l1 l2) as Hq12 by by etrans. assert (l1 `prefix_of` l2) as Hp12 by by etrans.
  assert (ms.*1 `prefix_of` changing ops) as Hpre' by (etrans; [|exact Hpre]; by apply prefix_app_r).
  assert (accounted (privates (view_of l0)) [] l2 (delta_exact d && exact (error_effects e2))) as Ha.
  { eapply accounted_weaken; [exact Ha2|]. intros [-> H]%andb_true_iff. by rewrite H, He2. }
  destruct m as [m|]; simpl.
  - destruct Hm as [-> (cs & Hcs & Htold)].
    assert (changes (view_of l2) = changes (view_of l1) ++ cs) as Hcs2 by congruence.
    assert (change_told digest limits l2 m cs) as Htold2 by by eapply change_told_prefix.
    assert ((ms ++ [(c, m)]).*1 `prefix_of` changing ops) as Hpre2 by by rewrite fmap_app.
    assert (Forall fulfilled (removelast (ms ++ [(c, m)]))) as Hful2 by by rewrite removelast_last.
    destruct (committed_change c m) as [x|] eqn:Hx.
    + apply wp_bind. eapply wp_mono; [eapply (carried_some _ _ _ _ _ (push_change _ (merge_delta (patch_side_effects (error_effects e2)) d)));
        [exact Hcar|exact Hcs2|exact Htold2|done|done|exact Hx|done|done]|].
      intros l3 told (Hcar3 & Hv3 & Hp3). unfold same_view in Hv3.
      assert (accounted (privates (view_of l0)) [] l3 (delta_exact d && exact (error_effects e2))) as Ha3
        by (eapply accounted_effects; [exact Ha|by rewrite Hv3]).
      simpl. exists (ms ++ [(c, m)]), (chunks ++ [cs]). destruct told as [u|u].
      * eapply report_end; [exact Hcar3|done..].
      * by apply observer_failure_reported.
    + simpl. exists (ms ++ [(c, m)]), (chunks ++ [cs]).
      eapply (report_end _ _ _ _ (merge_delta (patch_side_effects (error_effects e2)) d)); [|done..].
      eapply carried_none; [exact Hcar|done..].
  - destruct Hm as [-> Hcs]. exists ms, chunks. eapply (report_end _ _ _ _ (merge_delta (patch_side_effects (error_effects e2)) d));
      [|done|done|by apply Forall_removelast|done|done|].
    + eapply carried_same; [exact Hcar|congruence|done|done|done].
    + destruct (delta_is_empty _) eqn:Hd; [|done]. by apply delta_is_empty_changes in Hd.
Qed.

(** A change made as planned is never left out of the report. *)
Lemma fulfilled_committed l c m cs :
  shaped c → planned_is_noop c = false → fulfilled (c, m) → change_told digest limits l m cs → is_Some (committed_change c m).
Proof.
  intros [Hver Hshape] Hnoop (q & Hq & Hf) Ht. simpl in *. unfold committed_change, same_content, change_told in *.
  destruct q as [t s|t v s|t v|t v t' x s]; simpl in *.
  - destruct Hf as (Hk & _). rewrite Hk in Ht. destruct Ht as (a & ch & -> & _). by eexists.
  - destruct Hf as (Hk & _ & Ha & Hb). destruct Hq as (Hkind & Hd & _ & Hv & (a & Hca & Hs & _)). rewrite Ha.
    destruct (mut_before m) as [b|]; [|done]. injection Hb as Hb. rewrite bool_decide_eq_false_2; [by eexists|].
    rewrite Hs, Hb, <-(Hver _ Hca). unfold planned_is_noop in Hnoop. rewrite Hd, Hca in Hnoop. unfold required_version in Hv.
    destruct (before c) as [p|]; [|done]. injection Hv as <-. rewrite bool_decide_eq_true_2 in Hnoop by done. simpl in Hnoop.
    by apply bool_decide_eq_false in Hnoop.
  - destruct Hf as (Hk & _). rewrite Hk in Ht. destruct Ht as (b & ch & -> & -> & _). by eexists.
  - destruct Hf as (_ & _ & -> & _). rewrite (bool_decide_eq_false_2 (Some t' = None)) by done. rewrite andb_false_r. by eexists.
Qed.

Record progress (ms : list (PlannedChange * MutationChange)) (chunks : list (list change)) (s : stages) (l : log)
    (d : AppliedPatchDelta) : Prop := {
  pg_carried : carried ms chunks l d;
  pg_private : accounted (privates (view_of l0)) (keys s) l (delta_exact d);
  pg_fulfilled : Forall fulfilled ms;
  pg_listed : delta_changes d = [] → ms = [];
}.
Lemma progress_view ms chunks s l l' d :
  progress ms chunks s l d → same_effects l l' → quiet l l' → l `prefix_of` l' → progress ms chunks s l' d.
Proof.
  intros [H1 H2 H3 H4] [Hp Hc] Hq Hpre. split; [by eapply carried_same|by eapply accounted_effects|done|done].
Qed.

Lemma cancelled_spec ops ms chunks s l d :
  progress ms chunks s l d → staged_oks s → ms.*1 `prefix_of` changing ops →
  wp (merge_aborted_stages durability s d) l (λ l' d', reported ops ms chunks l' (partial_or_rejected d' StCommit) ∧
    reported ops ms chunks l' (observer_failure d')).
Proof.
  intros [H1 H2 H3 H4] Hok Hpre. unfold merge_aborted_stages. apply wp_bind.
  eapply wp_mono; [apply wp_and; [by eapply abort_stages_spec|apply wp_and; [apply abort_stages_quiet|apply wp_prefix]]|].
  intros l1 e ((Hc & Ha) & Hq & Hp). simpl.
  assert (carried ms chunks l1 (merge_delta (patch_side_effects e) d)) as Hcar by by eapply carried_same.
  split; [|by apply observer_failure_reported; [..|by apply Forall_removelast]].
  eapply report_end; [exact Hcar|done|done|by apply Forall_removelast|done|done|].
  unfold partial_or_rejected. simpl. destruct (delta_is_empty _) eqn:He; [|done]. by apply delta_is_empty_changes in He; apply H4.
Qed.

(** After one change, the loop goes on or ends with a report. *)
Lemma record_outcome_spec ops ms chunks c s d l l' out go_on :
  covered c → planned_is_noop c = false → carried ms chunks l d → Forall fulfilled ms → staged_oks s →
  changes_one (privates (view_of l0)) (keys s) (delta_exact d) c l l' out → quiet l l' → l `prefix_of` l' →
  ms.*1 ++ [c] `prefix_of` changing ops →
  (∀ ms' chunks' l'' d', ms'.*1 = ms.*1 ++ [c] → l' `prefix_of` l'' → progress ms' chunks' s l'' d' →
    wp (go_on d') l'' (λ l r, ∃ report ms chunks, r = Some report ∧ reported ops ms chunks l report)) →
  wp (record_outcome durability observed go_on c s d out) l' (λ l r, ∃ report ms chunks, r = Some report ∧ reported ops ms chunks l report).
Proof.
  intros Hc Hnoop Hcar Hful Hok ((cs & Hcs & Htold & Hout) & Ha & Hask) Hq Hp Hpre Hgo. destruct out as [m|e m|e m]; simpl in Htold.
  - assert (Forall fulfilled (ms ++ [(c, m)])) as Hful' by (apply Forall_app; split; [done|by constructor]).
    destruct (fulfilled_committed l' c m cs) as [x Hx]; [apply Hc|done|done|done|]. unfold record_outcome. cbv zeta. rewrite Hx.
    apply wp_bind. eapply wp_mono; [eapply (carried_some _ _ _ _ _ (push_change _ (merge_delta (patch_side_effects (mut_effects m)) d)));
      [exact Hcar|exact Hcs|exact Htold|done|done|exact Hx|done|done]|].
    intros l2 told (Hcar2 & Hv2 & Hp2). unfold same_view in Hv2. simpl in Ha.
    assert (progress (ms ++ [(c, m)]) (chunks ++ [cs]) s l2 (push_change (assign_commit_position (length (delta_changes d)) x)
      (merge_delta (patch_side_effects (mut_effects m)) d))) as Hpg.
    { split; [done|by eapply accounted_effects; [exact Ha|by rewrite Hv2]|done|]. simpl. by intros []%app_eq_nil. }
    assert ((ms ++ [(c, m)]).*1 = ms.*1 ++ [c]) as Hms by by rewrite fmap_app.
    destruct told as [u|u]; [by eapply Hgo|]. apply wp_bind.
    eapply wp_mono; [eapply (cancelled_spec ops); [exact Hpg|done|by rewrite Hms]|]. intros l3 d3 [_ H]. by eexists _, _, _.
  - subst m. simpl. apply wp_bind. eapply wp_mono; [eapply (end_commit_spec ops ms chunks c s false e None d l);
      [done..|split; [done|by rewrite Hcs, Htold, app_nil_r]]|].
    intros l2 r (ms' & chunks' & H). by eexists _, _, _.
  - destruct Hout as [[m' ->] _]. simpl. apply wp_bind.
    eapply wp_mono; [eapply (end_commit_spec ops ms chunks c s true e (Some m') d l);
      [done..|split; [done|by exists cs]]|].
    intros l2 r (ms' & chunks' & H). by eexists _, _, _.
Qed.

Lemma commit_all_spec ops : ∀ done_ops ms chunks s d l,
  Forall covered ops → Forall2 (stage_for l) ops s → ms.*1 = changing done_ops → progress ms chunks s l d →
  wp (commit_all digest limits durability observed targets ops s d) l (λ l' r,
    ∃ report ms chunks, r = Some report ∧ reported (done_ops ++ ops) ms chunks l' report).
Proof.
  induction ops as [|c ops IH]; intros done_ops ms chunks s d l Hcov Hst Hms Hpg.
  - inv Hst. simpl. eexists _, ms, chunks. split; [done|]. rewrite app_nil_r. destruct Hpg as [H1 H2 H3 H4].
    eapply report_end; [exact H1|done|by rewrite Hms|by apply Forall_removelast|done|done|done].
  - inv Hst as [|? stage ? s' Hstage Hst']. inv Hcov as [|? ? Hc Hcov']. cbn [commit_all]. apply wp_bind, wp_ask. intros cancelled _.
    destruct (snoc_view l IsCancelled cancelled eq_refl) as [Hv1 Hp1]. set (l1 := l ++ _) in *.
    assert (quiet l l1) as Hq1 by (unfold quiet, notified, l1; by rewrite omap_app, app_nil_r).
    apply (progress_view _ _ _ _ l1) in Hpg; [|by apply same_view_effects|done|done].
    assert (stage_for l1 c stage) as Hstage1 by by eapply stage_for_prefix.
    assert (Forall2 (stage_for l1) ops s') as Hst1 by (eapply Forall2_impl; [exact Hst'|]; intros; by eapply stage_for_prefix).
    assert (ms.*1 `prefix_of` changing (done_ops ++ c :: ops)) as Hpre
      by (rewrite changing_app, <-Hms; by apply prefix_app_r).
    destruct cancelled.
    { apply wp_bind. eapply wp_mono; [eapply cancelled_spec; [exact Hpg| |exact Hpre]|].
      - by eapply (stages_ok _ (c :: ops)); constructor.
      - intros l2 d2 [H _]. by eexists _, ms, chunks. }
    assert (∀ ms', ms'.*1 = changing (done_ops ++ [c]) → ∀ chunks' l' d', Forall2 (stage_for l') ops s' → progress ms' chunks' s' l' d' →
      wp (commit_all digest limits durability observed targets ops s' d') l' (λ l' r,
        ∃ report ms chunks, r = Some report ∧ reported (done_ops ++ c :: ops) ms chunks l' report)) as Hgo.
    { intros ms' Hms' chunks' l' d' Hf Hp. eapply wp_mono; [by eapply (IH (done_ops ++ [c]))|]. intros l2 r. by rewrite <-app_assoc. }
    destruct (planned_is_noop c) eqn:Hnoop.
    { destruct stage as [st|]; [by destruct Hstage1 as [? _]; congruence|]. simpl. eapply (Hgo ms); [|exact Hst1|].
      - by rewrite changing_app, changing_one, Hnoop, app_nil_r.
      - destruct Hpg. by split. }
    assert (changing (done_ops ++ [c]) = ms.*1 ++ [c]) as Hnext by by rewrite changing_app, changing_one, Hnoop, Hms.
    assert (ms.*1 ++ [c] `prefix_of` changing (done_ops ++ c :: ops)) as Hpre'.
    { rewrite <-Hnext. change (c :: ops) with ([c] ++ ops). rewrite app_assoc, (changing_app (done_ops ++ [c])). by eexists. }
    destruct Hpg as [P1 P2 P3 P4].
    assert (accounted (privates (view_of l0)) (keys [stage] ++ keys s') l1 (delta_exact d)) as Ha1 by by rewrite <-keys_app.
    apply wp_bind. eapply wp_mono; [apply wp_and; [by eapply execute_change_spec|apply wp_and; [apply execute_change_quiet|apply wp_prefix]]|].
    intros l2 out (Hone & Hq2 & Hp2). eapply record_outcome_spec; [done|done|exact P1|done|by eapply stages_ok|exact Hone|done|done|done|].
    intros ms' chunks' l3 d' Hms' Hp3 Hpg'. eapply Hgo; [by rewrite Hnext|..|exact Hpg'].
    eapply Forall2_impl; [exact Hst1|]. intros. eapply stage_for_prefix; [done|by etrans].
Qed.

Lemma commit_planned_spec ops : Forall covered ops → numbered process_id l0 →
  wp (commit_planned digest process_id limits durability observed targets ops) l0 (λ l r,
    ∃ report ms chunks, r = Some report ∧ reported ops ms chunks l report).
Proof.
  intros Hcov Hn. unfold commit_planned. apply wp_bind.
  assert (accounted (privates (view_of l0)) [] l0 true) as Ha
    by (split; [constructor|intros k ?%elem_of_nil; done|simpl; by rewrite union_empty_r_L|intros _; simpl; by rewrite union_empty_r_L]).
  eapply wp_mono; [apply wp_and; [by eapply (prepare_all_stages_spec (privates (view_of l0)) l0 ops [])|
    apply wp_and; [apply prepare_all_stages_quiet|apply wp_prefix]]|].
  intros l [s|[c e]] ((Hc & H) & Hq & Hp).
  - destruct H as [Hst Hacc].
    eapply wp_mono; [eapply (commit_all_spec ops [] [] []); [done|done|done|]|].
    { split; [|done|constructor|done]. split; [by rewrite app_nil_r|constructor|done|by rewrite Hq; destruct observed; rewrite app_nil_r]. }
    by intros l' r.
  - simpl. eexists _, [], []. split; [done|].
    eapply (report_end _ _ _ _ (merge_delta (patch_side_effects (error_effects e)) empty_delta)); [|done|apply prefix_nil|constructor|done..].
    split; [by rewrite app_nil_r|constructor|done|by rewrite Hq; destruct observed; rewrite app_nil_r].
Qed.

Lemma reported_finished ops ms chunks l l' r : reported ops ms chunks l r → same_view l l' → quiet l l' → l `prefix_of` l' →
  reported ops ms chunks l' r ∧ reported ops ms chunks l' (observer_failure (report_delta r)).
Proof.
  intros [H1 H2 H3 H4 H5 H6 H7 H8] Hv Hq Hp. unfold same_view in Hv.
  assert (carried ms chunks l' (report_delta r)) as Hc by (by eapply carried_same; [exact H1|rewrite Hv|..]).
  split; [split; [done..|by rewrite Hv|by rewrite Hv]|].
  unfold observer_failure. destruct (delta_is_empty _) eqn:He.
  - split; simpl; [done|done|done|done|done|intros _; by apply delta_is_empty_changes|by rewrite Hv|by rewrite Hv].
  - split; simpl; [by eapply carried_same|done|done|done|done|done|by rewrite Hv|done].
Qed.
End telling.

(** The log may start earlier, when nothing happened in between. *)
Lemma reported_earlier observed l1 l0 ops ms chunks l r :
  same_effects l1 l0 → quiet l1 l0 → reported observed l0 ops ms chunks l r → reported observed l1 ops ms chunks l r.
Proof.
  intros [Hp Hc] Hq [[C1 C2 C3 C4] H2 H3 H4 H5 H6 H7 H8]. rewrite Hc in C1. rewrite Hq in C4. rewrite Hp in H7, H8. by split.
Qed.
End planned_changes.

(** ** Plans cover what the document names *)
Lemma plan_covered targets doc files m maxo plan :
  plan_with_limits (token_of digest) doc files m maxo = Some (Ok plan) →
  (∀ op, op ∈ v_operations doc → named targets (path op) ∧ ∀ d, move_to (operation op) = Some d → named targets d) →
  Forall (covered targets) (planned_operations plan).
Proof.
  intros (st & _ & Hrun & _)%plan_with_limits_run Hnamed.
  assert (Forall2 (λ op c, shaped c ∧ change_source c = path op ∧ ∀ d, change_destination c = Some d → move_to (operation op) = Some d)
    (v_operations doc) (planned_operations plan)) as H.
  { eapply (planned_run_ind_inv _ (λ _, True)); [|exact Hrun|done]. intros index op st1 st2 c _ Hc. split; [done|].
    destruct Hc as [file Hk Hb Hnone f|k old bytes Hk Hor Hc f|old Hk Hc|old bytes dest o Hk Hd Hc Hne Hcy Hch f]; simpl.
    - split; [|done]. split; [by intros a [= <-]|by eauto].
    - split; [|done]. split; [by intros a [= <-]|]. simpl. destruct Hor as [->|[-> _]]; eauto.
    - split; [|done]. split; [done|]. simpl. eauto.
    - split; [|split; [done|by intros d [= <-]]]. split; [by intros a [= <-]|]. simpl. eauto. }
  revert Hnamed. generalize (v_operations doc) (planned_operations plan) H. clear. induction 1 as [|op c ops cs (H1 & H2 & H3) _ IH]; [constructor|].
  intros Hnamed. destruct (Hnamed op (list_elem_of_here _ _)) as [Hs Hd]. constructor; [|apply IH; intros; apply Hnamed; by right].
  split; [by rewrite H2|intros d Hcd; by apply Hd, H3|done].
Qed.

(** ** Revalidation changes nothing *)
Lemma metadata_fingerprint_view t : keeps same_view (metadata_fingerprint t).
Proof. unfold metadata_fingerprint. keeps. Qed.
Lemma metadata_fingerprint_quiet t : keeps quiet (metadata_fingerprint t).
Proof. unfold metadata_fingerprint. quiet. Qed.
Lemma inspect_kind_view t : keeps same_view (inspect_kind t).
Proof. unfold inspect_kind. keeps. Qed.
Lemma inspect_kind_quiet t : keeps quiet (inspect_kind t).
Proof. unfold inspect_kind. quiet. Qed.
Hint Resolve metadata_fingerprint_view inspect_kind_view version_on_disk_effects from_file_effects : keeps.
Hint Resolve metadata_fingerprint_quiet inspect_kind_quiet : quiet.
Lemma revalidate_parents_view ps : keeps same_view (revalidate_parents ps).
Proof. induction ps as [|[path d] ps IH]; simpl; keeps. Qed.
Lemma revalidate_parents_quiet ps : keeps quiet (revalidate_parents ps).
Proof. induction ps as [|[path d] ps IH]; simpl; quiet. Qed.
Lemma find_changed_effects p os changed : keeps same_effects (find_changed digest p os changed).
Proof. revert changed. induction os as [|[path o] os IH]; intros changed; cbn [find_changed]; keeps. Qed.
Lemma find_changed_quiet p os changed : keeps quiet (find_changed digest p os changed).
Proof. revert changed. induction os as [|[path o] os IH]; intros changed; cbn [find_changed]; quiet. Qed.
Lemma read_current_effects p os total files : keeps same_effects (read_current digest p os total files).
Proof. revert total files. induction os as [|[path o] os IH]; intros total files; cbn [read_current]; keeps. Qed.
Lemma read_current_quiet p os total files : keeps quiet (read_current digest p os total files).
Proof. revert total files. induction os as [|[path o] os IH]; intros total files; cbn [read_current]; quiet. Qed.
Hint Resolve revalidate_parents_view find_changed_effects read_current_effects : keeps.
Hint Resolve revalidate_parents_quiet find_changed_quiet read_current_quiet : quiet.
Lemma revalidate_and_plan_effects p : keeps same_effects (revalidate_and_plan digest p).
Proof. unfold revalidate_and_plan. keeps. Qed.
Lemma revalidate_and_plan_quiet p : keeps quiet (revalidate_and_plan digest p).
Proof. unfold revalidate_and_plan. quiet. Qed.

Definition is_rejection (r : ExecutionReport) : Prop := report_status r = StatusRejected ∧ report_delta r = empty_delta.
(** The plan that is carried out is a plan of the document, for some files. *)
Definition plan_of_document (p : PreparedPatch) (plan : PlannedPatch) : Prop :=
  ∃ files, plan_with_limits (token_of digest) (prepared_document p) files (prepared_max_candidate_matches p)
    (prepared_max_output_bytes p) = Some (Ok plan).

Lemma revalidate_parents_result ps l :
  wp (revalidate_parents ps) l (λ _ r, match r with Err report => is_rejection report | Ok _ => True end).
Proof.
  revert l. induction ps as [|[path d] ps IH]; intros l; cbn [revalidate_parents]; [done|]. apply wp_bind.
  eapply (wp_mono _ _ (λ _ _, True)); [apply wp_bind, wp_ask; by intros|]. intros l1 [f|e] _; [|done]. case_decide; [apply IH|done].
Qed.
Lemma find_changed_result p os changed l :
  wp (find_changed digest p os changed) l (λ _ r, match r with Err report => is_rejection report | Ok _ => True end).
Proof.
  revert changed l. induction os as [|[path o] os IH]; intros changed l; cbn [find_changed]; [done|].
  eapply wp_keeps_bind; [apply version_on_disk_effects|]. intros l1 [f|e] _; [apply IH|done].
Qed.
Lemma read_current_result p os total files l :
  wp (read_current digest p os total files) l (λ _ r, match r with Err report => is_rejection report | Ok _ => True end).
Proof.
  revert total files l. induction os as [|[path o] os IH]; intros total files l; cbn [read_current]; [done|].
  eapply wp_keeps_bind; [apply inspect_kind_view|]. intros l1 [[]|e] _; try done.
  eapply wp_keeps_bind; [apply from_file_effects|]. intros l2 [s|e] _; [|done].
  destruct (checked_add _ _ _) as [next|]; [|done]. case_decide; [|done]. destruct (bytes_of digest s); [apply IH|done].
Qed.

Lemma revalidate_and_plan_result p l : plan_of_document p (prepared_plan p) →
  wp (revalidate_and_plan digest p) l (λ _ r, match r with Err report => is_rejection report | Ok plan => plan_of_document p plan end).
Proof.
  intros Hp. unfold revalidate_and_plan. apply wp_try. eapply wp_mono; [apply revalidate_parents_result|]. intros l1 [u|e] H; [|done].
  apply wp_try. eapply wp_mono; [apply find_changed_result|]. intros l2 [changed|e] H'; [|done]. case_decide; [done|].
  destruct (find _ _); [done|]. apply wp_try. eapply wp_mono; [apply read_current_result|]. intros l3 [files|e] H''; [|done].
  simpl. unfold replan. destruct (plan_with_limits _ _ _ _ _) as [[plan|e]|] eqn:Hplan; [by exists files|done|done].
Qed.

(** ** The whole execution *)
Opaque revalidate_and_plan commit_planned.
Record executable (p : PreparedPatch) : Prop := {
  ex_plan : plan_of_document p (prepared_plan p);
  ex_named : ∀ op, op ∈ v_operations (prepared_document p) →
    named (targets_of (prepared_manifest p)) (path op) ∧
    ∀ d, move_to (operation op) = Some d → named (targets_of (prepared_manifest p)) d;
}.

(** What the observer says was reported before. *)
Definition earlier_report (l : log) (r : ExecutionReport) : Prop :=
  Event ObserverAdmit (Ok (Some r)) ∈ l ∨ Event ObserverCheck (Ok (Some r)) ∈ l.
(** Nothing was changed and nobody told: the patch was rejected, or reported
    before. *)
Definition nothing_done (l l' : log) (r : ExecutionReport) : Prop :=
  same_effects l l' ∧ notified l' = notified l ∧ (is_rejection r ∨ earlier_report l' r).
(** A plan of the document was carried out as far as reported. *)
Definition plan_done (observed : bool) (p : PreparedPatch) (l l' : log) (r : ExecutionReport) : Prop :=
  ∃ plan ms chunks, plan_of_document p plan ∧
    reported (targets_of (prepared_manifest p)) observed l (planned_operations plan) ms chunks l' r.
Definition execution_told (observed : bool) (p : PreparedPatch) (l l' : log) (r : option ExecutionReport) : Prop :=
  ∃ report, r = Some report ∧ (nothing_done l l' report ∨ plan_done observed p l l' report).

Lemma earlier_report_prefix l l' r : earlier_report l r → l `prefix_of` l' → earlier_report l' r.
Proof. intros [H|H] [k ->]; [left|right]; apply elem_of_app; by left. Qed.

Lemma execution_told_around observed p l1 l2 l3 l4 r :
  execution_told observed p l2 l3 r → same_effects l1 l2 → quiet l1 l2 → same_view l3 l4 → quiet l3 l4 → l3 `prefix_of` l4 →
  execution_told observed p l1 l4 r.
Proof.
  intros (report & -> & H) He Hq Hv Hq' Hp. exists report. split; [done|].
  destruct H as [(H1 & H2 & H3)|(plan & ms & chunks & Hplan & H)]; [left|right].
  - split; [|split].
    + etrans; [exact He|]. etrans; [exact H1|]. by apply same_view_effects.
    + by rewrite Hq', H2.
    + destruct H3 as [?|?]; [by left|right; by eapply earlier_report_prefix].
  - exists plan, ms, chunks. split; [done|]. eapply reported_earlier; [done|done|].
    by destruct (reported_finished _ _ _ _ _ _ _ l4 _ H Hv Hq' Hp).
Qed.

Lemma observer_admit_spec observed l : wp (observer_admit observed) l (λ l' r, same_view l l' ∧ quiet l l' ∧
  match r with Err report => is_rejection report ∨ earlier_report l' report | Ok _ => True end).
Proof.
  unfold observer_admit. destruct observed; [|done]. apply wp_bind, wp_ask. intros r _.
  destruct (snoc_view l ObserverAdmit r eq_refl) as [Hv _]. assert (quiet l (l ++ [Event ObserverAdmit r])) as Hq
    by (unfold quiet, notified; by rewrite omap_app, app_nil_r).
  destruct r as [[report|]|e]; (split; [done|]); (split; [done|]); [|done|by left]. right. left. apply elem_of_snoc_event.
Qed.

Lemma finish_reported observed targets l0 ops ms chunks r l :
  reported targets observed l0 ops ms chunks l r →
  wp (finish observed r) l (λ l' r', reported targets observed l0 ops ms chunks l' r').
Proof.
  intros H. unfold finish. destruct observed; [|done]. apply wp_bind, wp_ask. intros told _.
  destruct (snoc_view l (ObserverTerminal r) told eq_refl) as [Hv Hp].
  destruct (reported_finished _ _ _ _ _ _ _ _ _ H Hv) as [H1 H2]; [|done|by destruct told].
  unfold quiet, notified. by rewrite omap_app, app_nil_r.
Qed.

Lemma execute_locked_spec observed p l : executable p → numbered process_id l →
  wp (execute_locked digest process_id limits durability observed p) l (execution_told observed p l).
Proof.
  intros [Hplan Hnamed] Hn. unfold execute_locked. apply wp_bind, wp_ask. intros cancelled _.
  destruct (snoc_view l IsCancelled cancelled eq_refl) as [Hv Hp]. set (l1 := l ++ _) in *.
  assert (quiet l l1) as Hq by (unfold quiet, notified, l1; by rewrite omap_app, app_nil_r).
  assert (∀ l' r, same_effects l l' → quiet l l' → is_rejection r ∨ earlier_report l' r → execution_told observed p l l' (Some r)) as Hnothing
    by (intros l' r ???; exists r; split; [done|left; by split]).
  destruct cancelled; [apply Hnothing; [by apply same_view_effects|done|by left]|].
  apply wp_bind. eapply wp_mono; [apply wp_and; [by apply revalidate_and_plan_result|
    apply wp_and; [apply revalidate_and_plan_effects|apply wp_and; [apply revalidate_and_plan_quiet|apply wp_prefix]]]|].
  intros l2 [plan|report] (Hr & He2 & Hq2 & Hp2).
  2: { apply Hnothing; [etrans; [by apply same_view_effects|done]|by etrans|by left]. }
  apply wp_bind. eapply wp_mono; [apply wp_and; [apply observer_admit_spec|apply wp_prefix]|]. intros l3 admitted ((Hv3 & Hq3 & Ha) & Hp3).
  assert (same_effects l l3) as He by (etrans; [by apply same_view_effects|etrans; [exact He2|by apply same_view_effects]]).
  assert (quiet l l3) as Hq13 by (etrans; [exact Hq|by etrans]).
  destruct admitted as [u|report]; [|by apply Hnothing].
  assert (numbered process_id l3) as Hn3.
  { eapply numbered_le; [exact Hn|by etrans; [exact Hp|etrans]|]. by destruct He as [-> _]. }
  apply wp_bind. eapply wp_mono; [apply (commit_planned_spec (targets_of (prepared_manifest p)) observed l3);
    [destruct Hr as [files Hr]; by eapply plan_covered|done]|].
  intros l4 r (report & ms & chunks & -> & H). apply wp_bind. eapply wp_mono; [by apply finish_reported|].
  intros l5 report' H'. exists report'. split; [done|]. right. exists plan, ms, chunks. split; [done|]. by eapply reported_earlier.
Qed.

Lemma execute_inner_spec observed p l : executable p → numbered process_id l →
  wp (execute_inner digest process_id limits durability observed p) l (execution_told observed p l).
Proof.
  intros Hp Hn. unfold execute_inner. apply wp_bind, wp_ask. intros cancelled _.
  assert (∀ l c r, touches c || reads c = false → tells c = false → same_view l (l ++ [Event c r]) ∧ quiet l (l ++ [Event c r]) ∧
    l `prefix_of` l ++ [Event c r]) as Hstep.
  { intros l' c r Ht Hc. destruct (snoc_view l' c r Ht) as [Hv Hpre]. split; [done|]. split; [|done].
    unfold quiet, notified. rewrite omap_app. simpl. destruct c; try done; by rewrite app_nil_r. }
  destruct (Hstep l IsCancelled cancelled eq_refl eq_refl) as (Hv1 & Hq1 & Hp1).
  destruct cancelled.
  { eexists. split; [done|]. left. split; [by apply same_view_effects|]. split; [done|by left]. }
  apply wp_bind, wp_ask. intros acquired _. set (l1 := l ++ _) in *.
  destruct (Hstep l1 AcquireLocks acquired eq_refl eq_refl) as (Hv2 & Hq2 & Hp2).
  assert (same_view l (l1 ++ [Event AcquireLocks acquired])) as Hv by by etrans.
  assert (quiet l (l1 ++ [Event AcquireLocks acquired])) as Hq by by etrans.
  destruct acquired.
  2: { eexists. split; [done|]. left. split; [by apply same_view_effects|]. split; [done|by left]. }
  apply wp_bind. eapply wp_mono; [apply execute_locked_spec; [done|]|].
  { eapply numbered_view; [exact Hn|done|by etrans]. }
  intros l3 r H. apply wp_bind, wp_ask. intros u _.
  destruct (Hstep l3 ReleaseLocks u eq_refl eq_refl) as (Hv3 & Hq3 & Hp3).
  eapply execution_told_around; [exact H|by apply same_view_effects|done..].
Qed.

(** C1: an executed patch reports exactly what it did, whatever the system
    answers, other processes do and the observer says. Every run ends with a
    report, and never with the panic of a missing stage. Either nothing was
    changed, and the report is a rejection or one the observer gave; or a plan of
    the document was carried out, the prepared one or one made for the files
    found under the locks. Then the changes of the tree, in order, are those of
    a prefix of the plan: each put the bytes planned under the name of its target,
    in a directory reached through no link, by a call that never replaces a file
    when none was expected, and otherwise after the file read last had the version
    planned for; the report lists just these changes with their positions, and the
    observer was told of just this list. All changes but the last are as planned,
    and all of the plan is done when the report says applied; nothing is changed
    when it says rejected. No private file of others is removed, and none is left
    behind when the report is exact. *)
Theorem patch_execution_told (p : PreparedPatch) (admission : list N) (l : log) :
  executable p → numbered process_id l →
  wp (execute digest process_id limits durability p) l (execution_told false p l) ∧
  wp (execute_with_observer_and_admission digest process_id limits durability p admission) l (execution_told true p l).
Proof.
  intros Hp Hn. split; [by apply execute_inner_spec|]. unfold execute_with_observer_and_admission.
  assert (∀ l' r, same_effects l l' → quiet l l' → is_rejection r ∨ earlier_report l' r → execution_told true p l l' (Some r)) as Hnothing
    by (intros l' r ???; exists r; split; [done|left; by split]).
  destruct (bool_decide_reflect (admission = prepared_fingerprint p)) as [Heq|Hne]; simpl negb; cbv iota;
    [|apply Hnothing; [done|done|by left]].
  apply wp_bind, wp_ask. intros r _. destruct (snoc_view l ObserverCheck r eq_refl) as [Hv Hpre]. set (l1 := l ++ _) in *.
  assert (quiet l l1) as Hq by (unfold quiet, notified, l1; by rewrite omap_app, app_nil_r).
  destruct r as [[report|]|e].
  - apply Hnothing; [by apply same_view_effects|done|]. right. right. apply elem_of_snoc_event.
  - eapply wp_mono; [apply execute_inner_spec; [done|by eapply numbered_view]|]. intros l2 r H.
    eapply execution_told_around; [exact H|by apply same_view_effects|done..].
  - apply Hnothing; [by apply same_view_effects|done|by left].
Qed.
End execution.

(** ** A concrete execution

    The document of PatchPlanner.v: a file is moved over another one, a third is
    deleted, and a fourth is added at the vacated path. *)
Module SampleExecution.
Definition digest (bytes : list N) : list N := [sum_N bytes].
Definition snapshots : SnapshotLimits := {| TextSnapshot.max_file_bytes := 64; inline_threshold := 64 |}.
Definition target (name : string) : CanonicalTarget :=
  {| relative := [lit name]; absolute := [ROOT; lit "w"; lit name]; identity := lit name; role := Source;
     expectation := ExistingOrMissing |}.
Definition prepared_patch (plan : PlannedPatch) : PreparedPatch :=
  {| prepared_root := [ROOT; lit "w"]; prepared_schema_version := 1; prepared_payload_hash := []; prepared_payload_bytes := 0;
     prepared_fingerprint := [7]; prepared_document := sample_doc; prepared_plan := plan;
     prepared_manifest := target <$> ["a"; "b"; "c"]%string; prepared_observed := []; prepared_parents := [];
     prepared_versions := file_version <$> workspace plan; prepared_limits := snapshots; prepared_max_snapshot_bytes := 64; prepared_max_output_bytes := 100;
     prepared_max_candidate_matches := 128; prepared_hunks := 0; prepared_output_bytes := 0; prepared_snapshot_bytes := 0;
     prepared_parent_targets := 0 |}.

(** A quiet system: the files of the plan, of which [a] is gone after the move. *)
Definition moved_away (l : log) : bool :=
  existsb (λ e, match e with Event c _ => match c with UnlinkAt _ name => bool_decide (name = lit "a") | _ => false end end) l.
Definition file : spool := {| spool_new := true; spool_write := λ _, true; spool_sync := true; spool_read := Ok |}.
Definition metadata (l : log) (path : list text) : sys Metadata :=
  match path with
  | [_; _; name] =>
      if bool_decide (name = lit "a") && moved_away l then Err SysNotFound
      else Ok {| meta_kind := KindRegularFile; meta_inode := (1, 20); meta_mode := 420 |}
  | _ => Ok {| meta_kind := KindDirectory; meta_inode := (1, 2); meta_mode := 493 |}
  end.
Definition contents (path : list text) : list N :=
  match path with [_; _; name] => default [] (sample_files !! name) | _ => [] end.
Definition oracle (l : log) (c : call) : answer c :=
  match c return answer c with
  | OpenRoot | OpenCurrent => Ok (1, 1)
  | OpenDirectoryAt _ _ => Ok (1, 2)
  | CreateAt _ _ => Ok (1, 30 + N.of_nat (length (stage_numbers l)))
  | MakeDirectoryAt _ _ | RemoveDirectoryAt _ _ | RenameAt _ _ _ | LinkAt _ _ _ | UnlinkAt _ _
  | Status _ | Duplicate _ | Write _ _ | Sync _ | SetMode _ _ => Ok ()
  | StatusAt _ _ => Ok {| meta_kind := KindRegularFile; meta_inode := (1, 20); meta_mode := 420 |}
  | PathMetadata path => metadata l path
  | Mode _ => Ok 420
  | ReadFile path => Ok ([Ok (contents path)], file)
  | ListAttributes _ => Ok []
  | NewSpool => file
  | NextStage => N.of_nat (length (stage_numbers l))
  | NextAttempt => 0
  | IsCancelled => false
  | AcquireLocks | ObserverCommitted _ | ObserverTerminal _ => Ok ()
  | ReleaseLocks => ()
  | ObserverCheck | ObserverAdmit => Ok None
  end.

Definition plan : PlannedPatch := match sample_plan with Some (Ok plan) => plan | _ => {| planned_schema_version := 0;
  planned_input_bytes := 0; planned_payload_hash := []; planned_operations := []; workspace := ∅ |} end.
Definition patch : PreparedPatch := prepared_patch plan.
Definition execution : log * option ExecutionReport :=
  run oracle (execute_with_observer_and_admission digest 5 snapshots default_durability patch [7]) [].

Lemma executable_patch : executable digest patch.
Proof.
  split.
  - exists sample_files. unfold patch, plan. destruct sample_plan as [[pl|e]|] eqn:Hp; [exact Hp|vm_compute in Hp; discriminate..].
  - assert (∀ name, name = "a"%string ∨ name = "b"%string ∨ name = "c"%string →
      named (targets_of (prepared_manifest patch)) (lit name)) as Hn.
    { intros name H. exists (target name), [lit "w"], [], (lit name).
      destruct H as [-> |[-> | ->]]; (split; [by vm_compute|split; [|by vm_compute]]);
        (split; [done|done|]); repeat constructor; try (by vm_compute); by apply (bool_decide_unpack _); vm_compute. }
    intros op Hop. repeat (apply elem_of_cons in Hop as [-> |Hop]; [split; [apply Hn; auto|intros d [= <-]; apply Hn; auto]|]).
    by apply elem_of_nil in Hop.
Qed.

Lemma patch_execution_told_witness :
  execution_told digest snapshots true patch [] execution.1 execution.2 ∧
  (λ r, (report_status r, delta_exact (report_delta r), cp_kind <$> delta_changes (report_delta r))) <$> execution.2 =
    Some (StatusApplied, true, [KindMove; KindDelete; KindAdd]) ∧
  (λ c, match c with Put _ name _ over _ => (name, Some over) | Gone _ name _ => (name, None) end) <$> changes (view_of execution.1) =
    [(lit "b", Some true); (lit "a", None); (lit "c", None); (lit "a", Some false)].
Proof.
  split; [|by vm_compute]. assert (numbered 5 []) as Hn by (intros d name H; by apply elem_of_empty in H).
  destruct (patch_execution_told digest 5 snapshots default_durability patch [7] [] executable_patch Hn) as [_ H].
  apply (wp_run oracle) in H; [exact H|by vm_compute].
Defined.
End SampleExecution.
