(* ===== verification/PatchPrepare.v ===== *)
(** * Preparing and authorizing a patch

    Models [crates/tools/src/apply_patch/prepare.rs]: the names of a validated
    document become targets with their manifest, the files are read and the
    operations planned; and [authorize.rs]: the prepared patch is shown to the
    sandbox and to whoever approves it. Names are resolved against the [machine]
    of FileSystem.v, as FileTarget.v has it; the files are read by programs of
    SystemCalls.v, so they may change at any moment. The texts of errors are left
    out. *)
From S2P Require Import Prelude Ordered Utf8 UnixPath FileSystem FileTarget PatchDocument PatchGuards PatchPlanner TextSnapshot PatchHistory SystemCalls SecureFs FileMutation PatchExecutor PatchExecution.
Local Open Scope N_scope.

(** ** Options and errors *)
Record PrepareOptions := { patch_limits : PatchLimits; snapshot_limits : SnapshotLimits }.
Definition default_snapshot_limits : SnapshotLimits :=
  {| TextSnapshot.max_file_bytes := 16 * 1024 * 1024; inline_threshold := 64 * 1024 |}.
Definition default_options : PrepareOptions := {| patch_limits := default_limits; snapshot_limits := default_snapshot_limits |}.

Inductive PrepareErrorCode :=
  | PrepareInvalidLimits | PathTooLong | TargetResolution | TargetType | ParentType | PrepareRead | TooManyFiles
  | TooManyHunks | PrepareOutputTooLarge | SnapshotTooLarge | Planner.
Record PrepareError := {
  prepare_code : PrepareErrorCode;
  prepare_index : N;
  prepare_path : text;
  prepare_plan_code : option PlanErrorCode;
  prepare_snapshot_code : option SnapshotErrorCode;
  prepare_target_code : option TargetResolutionErrorCode;
}.
Definition prepare_error (c : PrepareErrorCode) (index : N) (path : text) : PrepareError :=
  {| prepare_code := c; prepare_index := index; prepare_path := path; prepare_plan_code := None;
     prepare_snapshot_code := None; prepare_target_code := None |}.
Definition with_snapshot_code (c : SnapshotErrorCode) (e : PrepareError) : PrepareError :=
  {| prepare_code := prepare_code e; prepare_index := prepare_index e; prepare_path := prepare_path e;
     prepare_plan_code := prepare_plan_code e; prepare_snapshot_code := Some c; prepare_target_code := prepare_target_code e |}.
Definition with_target_code (c : TargetResolutionErrorCode) (e : PrepareError) : PrepareError :=
  {| prepare_code := prepare_code e; prepare_index := prepare_index e; prepare_path := prepare_path e;
     prepare_plan_code := prepare_plan_code e; prepare_snapshot_code := prepare_snapshot_code e; prepare_target_code := Some c |}.
Definition plan_refused (e : PlanError) : PrepareError :=
  {| prepare_code := if decide (PatchPlanner.plan_code e = OutputTooLarge) then PrepareOutputTooLarge else Planner;
     prepare_index := plan_index e; prepare_path := plan_path e; prepare_plan_code := Some (PatchPlanner.plan_code e);
     prepare_snapshot_code := None; prepare_target_code := None |}.

Definition patch_limits_valid (l : PatchLimits) : bool :=
  bool_decide (limits_schema_version l = 1) && negb (bool_decide (0 ∈
    [max_patch_bytes l; PatchDocument.max_file_bytes l; max_total_output_bytes l; max_total_snapshot_bytes l; max_operations l;
     max_chunks_per_update l; max_total_hunks l; max_target_files l; max_path_bytes l; max_parent_targets l;
     max_candidate_matches l])).
Definition validate_options (o : PrepareOptions) : result PrepareError () :=
  let invalid := prepare_error PrepareInvalidLimits 0 [] in
  ensure (patch_limits_valid (patch_limits o)) invalid;;
  map_err (λ _, invalid) (validate (snapshot_limits o));;
  ensure (bool_decide (TextSnapshot.max_file_bytes (snapshot_limits o) ≤ PatchDocument.max_file_bytes (patch_limits o))) invalid.

(** ** Resolving the names of a document *)
Definition check_guard_limits (limits : SnapshotLimits) (index : N) (op : ValidatedOperation) : result PrepareError N :=
  let fits (token : FileVersionToken) : bool := bool_decide (token_byte_len token ≤ TextSnapshot.max_file_bytes limits) in
  let large := prepare_error SnapshotTooLarge index (path op) in
  ensure (match v_source_guard op with Some token => fits token | None => true end) large;;
  ensure (match v_destination_guard op with Some (Exact token) => fits token | _ => true end) large;;
  Ok (index + 1).
Definition validate_guard_limits (doc : ValidatedPatchDocument) (limits : SnapshotLimits) : result PrepareError () :=
  _ ← foldlM (check_guard_limits limits) 0 (v_operations doc); Ok ().
Definition check_path_limit (name : text) (index : N) (limits : PatchLimits) : result PrepareError () :=
  ensure (bool_decide (byte_len name ≤ max_path_bytes limits)) (prepare_error PathTooLong index name).

(** The targets met so far, in order, and by the text of their paths: those of
    operations, and the directories above them. *)
Record resolving := { met : list CanonicalTarget; by_path : gmap text CanonicalTarget; above : gmap text CanonicalTarget }.
Definition nothing_met : resolving := {| met := []; by_path := ∅; above := ∅ |}.
Definition add_target (t : CanonicalTarget) (s : resolving) : resolving :=
  match by_path s !! path_text t with
  | Some _ => s
  | None => {| met := met s ++ [t]; by_path := <[path_text t := t]> (by_path s); above := above s |}
  end.
Definition insert_parent (key : text) (t : CanonicalTarget) (s : resolving) : resolving :=
  {| met := match above s !! key with Some _ => met s | None => met s ++ [t] end; by_path := by_path s;
     above := <[key := t]> (above s) |}.

Record ResolvedPatch := {
  resolved_options : PrepareOptions;
  resolved_root : list text;
  resolved_document : ValidatedPatchDocument;
  resolved_manifest : list CanonicalTarget;
  resolved_sources : gmap text CanonicalTarget;
  resolved_parents : gmap text CanonicalTarget;
  resolved_hunks : N;
}.
Definition count_hunks (doc : ValidatedPatchDocument) : N :=
  sum_N (omap (λ op, match op_body (operation op) with BUpdate u => Some (N.of_nat (length (hunks u))) | _ => None end) (v_operations doc)).
(** An operation whose paths are written the way targets are. *)
Definition rename (op : ValidatedOperation) (source : text) (destination : option text) : ValidatedOperation :=
  let o := operation op in
  {| operation := {| op_kind := op_kind o; op_path := source; source_guard := source_guard o; destination_guard := destination_guard o;
                     source_guard_line := source_guard_line o; destination_guard_line := destination_guard_line o;
                     move_to := destination; op_body := op_body o; op_header_line := op_header_line o |};
     v_source_guard := v_source_guard op; v_destination_guard := v_destination_guard op |}.

Section resolving.
Context (to_lowercase : text → text) (m : machine) (r : TargetResolver) (options : PrepareOptions).

Definition resolve_target (name : text) (role : TargetRole) (x : TargetExpectation) (index : N) : result PrepareError CanonicalTarget :=
  map_err (λ e, with_target_code (FileTarget.code e) (prepare_error TargetResolution index name)) (resolve to_lowercase m r name role x).
(** The loop over the parents of a path, which get shorter: it ends within the
    length of the path. *)
Fixpoint add_parent (fuel : nat) (index : N) (parent : option (list text)) (s : resolving) : result PrepareError resolving :=
  match fuel, parent with
  | S fuel, Some (c :: rest) =>
      let key := display (c :: rest) in
      t ← resolve_target key Parent ParentDirectory index;
      add_parent fuel index (UnixPath.parent (c :: rest)) (insert_parent key t s)
  | _, _ => Ok s
  end.
(** What is done with the path of an operation, and with its destination. *)
Definition resolve_name (name : text) (role : TargetRole) (index : N) (s : resolving) : result PrepareError (resolving * text) :=
  check_path_limit name index (patch_limits options);;
  t ← resolve_target name role ExistingOrMissing index;
  s ← add_parent (length (relative t)) index (UnixPath.parent (relative t)) (add_target t s);
  Ok (s, path_text t).
Definition resolve_operation (index : N) (op : ValidatedOperation) (s : resolving) : result PrepareError (resolving * ValidatedOperation) :=
  '(s, source) ← resolve_name (path op) (if decide (kind op = OpAdd) then Destination else Source) index s;
  match move_to (operation op) with
  | None => Ok (s, rename op source None)
  | Some d => '(s, d) ← resolve_name d Destination index s; Ok (s, rename op source (Some d))
  end.
Fixpoint resolve_operations (index : N) (ops : list ValidatedOperation) (s : resolving)
    : result PrepareError (resolving * list ValidatedOperation) :=
  match ops with
  | [] => Ok (s, [])
  | op :: ops =>
      '(s, op) ← resolve_operation index op s;
      '(s, ops) ← resolve_operations (index + 1) ops s;
      Ok (s, op :: ops)
  end.
Definition resolve_patch (doc : ValidatedPatchDocument) : result PrepareError ResolvedPatch :=
  validate_options options;;
  validate_guard_limits doc (snapshot_limits options);;
  '(s, ops) ← resolve_operations 0 (v_operations doc) nothing_met;
  let normalized := {| v_schema_version := v_schema_version doc; v_input_bytes := v_input_bytes doc;
                       v_payload_hash := v_payload_hash doc; v_operations := ops |} in
  let root_parent := root_parent_target to_lowercase r in
  let s := insert_parent (path_text root_parent) root_parent s in
  let limits := patch_limits options in
  ensure (bool_decide (index_u32 (N.of_nat (size (above s))) ≤ max_parent_targets limits)) (prepare_error TooManyFiles 0 []);;
  manifest ← map_err (λ e, with_target_code (FileTarget.code e) (prepare_error TargetResolution 0 [])) (manifest_new (met s));
  ensure (bool_decide (index_u32 (N.of_nat (length manifest)) ≤ max_target_files limits)) (prepare_error TooManyFiles 0 []);;
  ensure (bool_decide (count_hunks normalized ≤ max_total_hunks limits)) (prepare_error TooManyHunks 0 []);;
  Ok {| resolved_options := options; resolved_root := root r; resolved_document := normalized; resolved_manifest := manifest;
        resolved_sources := by_path s; resolved_parents := above s; resolved_hunks := count_hunks normalized |}.
End resolving.

(** ** Reading and planning *)
(** A [BTreeMap] is iterated in the order of its keys. *)
Definition entries {A} (map : gmap text A) : list (text * A) := sort_on fst (map_to_list map).
(** [to_le_bytes], of a width in bytes. *)
Fixpoint le_bytes (width : nat) (n : N) : list N :=
  match width with O => [] | S width => n `mod` 256 :: le_bytes width (n / 256) end.
Definition operation_kind_tag (k : OperationKind) : N := match k with OpAdd => 1 | OpReplace => 2 | OpUpdate => 3 | OpDelete => 4 end.

Section preparing.
(** SHA-256. *)
Context (digest : list N → list N).

Definition patch_fingerprint (doc : ValidatedPatchDocument) (manifest : list CanonicalTarget) (plan : PlannedPatch)
    (l : PatchLimits) (snapshots : SnapshotLimits) : list N :=
  digest (
    le_bytes 2 (v_schema_version doc) ++ le_bytes 8 (v_input_bytes doc) ++ v_payload_hash doc ++ le_bytes 8 (planned_input_bytes plan) ++
    le_bytes 2 (limits_schema_version l) ++ le_bytes 8 (max_patch_bytes l) ++
    le_bytes 8 (PatchDocument.max_file_bytes l) ++ le_bytes 8 (max_total_output_bytes l) ++ le_bytes 8 (max_total_snapshot_bytes l) ++
    le_bytes 4 (max_operations l) ++ le_bytes 4 (max_chunks_per_update l) ++ le_bytes 4 (max_total_hunks l) ++
    le_bytes 4 (max_target_files l) ++ le_bytes 8 (max_path_bytes l) ++ le_bytes 4 (max_parent_targets l) ++
    le_bytes 4 (max_candidate_matches l) ++
    le_bytes 8 (TextSnapshot.max_file_bytes snapshots) ++ le_bytes 8 (inline_threshold snapshots) ++
    (manifest ≫= λ t, into_bytes (identity t) ++ [0]) ++
    (planned_operations plan ≫= λ c,
       le_bytes 8 (change_index c) ++ [operation_kind_tag (change_kind c)] ++ into_bytes (change_source c) ++ [0] ++
       match change_destination c with Some d => into_bytes d | None => [] end ++ [0])).

(** The loop over the files: what was observed, the bytes read, and their sum. *)
Fixpoint read_files (limits : SnapshotLimits) (max_total : N) (targets : list (text * CanonicalTarget))
    (observed : list (text * ObservedTarget)) (files : gmap text (list N)) (total : N)
    : prog (result PrepareError (list (text * ObservedTarget) * gmap text (list N) * N)) :=
  match targets with
  | [] => Done (Ok (observed, files, total))
  | (path, t) :: targets =>
      let seen token := observed ++ [(path, {| observed_target := t; observed_token := token |})] in
      kind ← inspect_kind t;
      match kind with
      | Err _ => Done (Err (with_target_code MetadataUnavailable (prepare_error TargetType 0 path)))
      | Ok KindMissing => read_files limits max_total targets (seen None) files total
      | Ok KindRegularFile =>
          s ← from_file digest limits (absolute t);
          match s with
          | Err e => Done (Err (with_snapshot_code e (prepare_error PrepareRead 0 path)))
          | Ok s =>
              match checked_add U64_MAX total (token_byte_len (version s)) with
              | None => Done (Err (prepare_error SnapshotTooLarge 0 path))
              | Some next =>
                  if decide (next ≤ max_total) then
                    match bytes_of digest s with
                    | Ok bytes => read_files limits max_total targets (seen (Some (version s))) (<[path := bytes]> files) next
                    | Err e => Done (Err (with_snapshot_code e (prepare_error PrepareRead 0 path)))
                    end
                  else Done (Err (prepare_error SnapshotTooLarge 0 path))
              end
          end
      | Ok _ => Done (Err (prepare_error TargetType 0 path))
      end
  end.
Fixpoint read_parents (targets : list (text * CanonicalTarget)) (observed : list (text * ObservedDirectory))
    : prog (result PrepareError (list (text * ObservedDirectory))) :=
  match targets with
  | [] => Done (Ok observed)
  | (path, t) :: targets =>
      kind ← inspect_kind t;
      match kind with
      | Err _ => Done (Err (with_target_code MetadataUnavailable (prepare_error ParentType 0 path)))
      | Ok kind =>
          if decide (kind = KindMissing ∨ kind = KindDirectory) then
            f ← metadata_fingerprint t;
            match f with
            | Err _ => Done (Err (with_target_code MetadataUnavailable (prepare_error ParentType 0 path)))
            | Ok f =>
                read_parents targets
                  (observed ++ [(path, {| directory_target := t; directory_existed := bool_decide (kind = KindDirectory);
                                          directory_fingerprint := f |})])
            end
          else Done (Err (prepare_error ParentType 0 path))
      end
  end.
Definition read_observed_targets (sources parents : gmap text CanonicalTarget) (limits : SnapshotLimits) (max_total : N)
    : prog (result PrepareError (list (text * ObservedTarget) * list (text * ObservedDirectory) * gmap text (list N) * N)) :=
  '(observed, files, total) ←? read_files limits max_total (entries sources) [] ∅ 0;
  directories ←? read_parents (entries parents) [];
  Done (Ok (observed, directories, files, total)).

Definition output_bytes (plan : PlannedPatch) : option N :=
  foldl (λ sum s, n ← sum; checked_add U64_MAX n (N.of_nat (length (snap_bytes s)))) (Some 0) (omap after (planned_operations plan)).
(** The rest of [prepare_resolved], which decides on what was read. *)
Definition plan_resolved (p : ResolvedPatch) (observed : list (text * ObservedTarget)) (parents : list (text * ObservedDirectory))
    (files : gmap text (list N)) (total : N) : result PrepareError PreparedPatch :=
  let limits := patch_limits (resolved_options p) in
  let doc := resolved_document p in
  match plan_with_limits (token_of digest) doc files (max_candidate_matches limits) (max_total_output_bytes limits) with
  | None => Err (prepare_error Planner 0 [])
  | Some (Err e) => Err (plan_refused e)
  | Some (Ok plan) =>
      output ← ok_or (output_bytes plan) (prepare_error PrepareOutputTooLarge 0 []);
      ensure (bool_decide (output ≤ max_total_output_bytes limits)) (prepare_error PrepareOutputTooLarge 0 []);;
      Ok {| prepared_root := resolved_root p; prepared_schema_version := v_schema_version doc;
            prepared_payload_hash := v_payload_hash doc; prepared_payload_bytes := v_input_bytes doc;
            prepared_fingerprint := patch_fingerprint doc (resolved_manifest p) plan limits (snapshot_limits (resolved_options p));
            prepared_document := doc; prepared_plan := plan; prepared_manifest := resolved_manifest p;
            prepared_observed := observed; prepared_parents := parents; prepared_versions := file_version <$> workspace plan;
            prepared_limits := snapshot_limits (resolved_options p);
            prepared_max_snapshot_bytes := max_total_snapshot_bytes limits;
            prepared_max_output_bytes := max_total_output_bytes limits;
            prepared_max_candidate_matches := max_candidate_matches limits;
            prepared_hunks := resolved_hunks p; prepared_output_bytes := output; prepared_snapshot_bytes := total;
            prepared_parent_targets := N.of_nat (size (resolved_parents p)) |}
  end.
(** The planner always answers ([plan_always_answers]), so [None] is no answer of
    the code. *)
Definition prepare_resolved (p : ResolvedPatch) : prog (result PrepareError PreparedPatch) :=
  '(observed, parents, files, total) ←?
    read_observed_targets (resolved_sources p) (resolved_parents p) (snapshot_limits (resolved_options p))
      (max_total_snapshot_bytes (patch_limits (resolved_options p)));
  Done (plan_resolved p observed parents files total).
Definition prepare (to_lowercase : text → text) (m : machine) (r : TargetResolver) (options : PrepareOptions)
    (doc : ValidatedPatchDocument) : prog (result PrepareError PreparedPatch) :=
  match resolve_patch to_lowercase m r options doc with Ok p => prepare_resolved p | Err e => Done (Err e) end.
End preparing.

(** ** Authorization ([authorize.rs]) *)
Inductive PermissionEffect := EffectRead | EffectMutate | EffectCreateParent.
#[export] Instance PermissionEffect_eq_dec : EqDecision PermissionEffect.
Proof. solve_decision. Defined.
Record PermissionTarget := { permission_path : text; permission_role : TargetRole; permission_effect : PermissionEffect }.
#[export] Instance PermissionTarget_eq_dec : EqDecision PermissionTarget.
Proof. solve_decision. Defined.
Record PermissionIntent := {
  intent_schema_version : N;
  intent_payload_hash : list N;
  plan_fingerprint : list N;
  intent_targets : list PermissionTarget;
  intent_fingerprint : list N;
}.
Definition has_write_effect (i : PermissionIntent) : bool :=
  existsb (λ t, negb (bool_decide (permission_effect t = EffectRead))) (intent_targets i).
Inductive PermissionMode := FullAccess | Supervised.
Record ApprovalReceipt := { receipt_mode : PermissionMode; receipt_intent : list N; receipt_approval : list N }.
Record AuthorizedPatch := { authorized_prepared : PreparedPatch; authorized_intent : PermissionIntent; authorized_receipt : ApprovalReceipt }.
Inductive PermissionErrorCode := SandboxDenied | ApprovalDenied | ApprovalBinding | InvalidIntent.
Record PermissionError := { permission_code : PermissionErrorCode; permission_error_path : option text }.
Definition permission_error (c : PermissionErrorCode) : PermissionError := {| permission_code := c; permission_error_path := None |}.

Definition permission_target (t : CanonicalTarget) : PermissionTarget :=
  {| permission_path := path_text t; permission_role := role t;
     permission_effect := match role t with Parent => EffectCreateParent | Source | Destination => EffectMutate end |}.
Definition permission_key (t : PermissionTarget) : text * N := (permission_path t, role_order (permission_role t)).
Definition permission_targets (manifest : list CanonicalTarget) : list PermissionTarget :=
  dedup (sort_on permission_key (permission_target <$> manifest)).
Definition effect_tag (e : PermissionEffect) : N := match e with EffectRead => 0 | EffectMutate => 1 | EffectCreateParent => 2 end.

Section authorizing.
Context (digest : list N → list N).

Definition fingerprint_intent (p : PreparedPatch) (targets : list PermissionTarget) : list N :=
  digest (le_bytes 2 (prepared_schema_version p) ++ prepared_payload_hash p ++ prepared_fingerprint p ++
    (targets ≫= λ t, into_bytes (permission_path t) ++ [0; role_order (permission_role t); effect_tag (permission_effect t)])).
Definition from_prepared (p : PreparedPatch) : PermissionIntent :=
  let targets := permission_targets (prepared_manifest p) in
  {| intent_schema_version := prepared_schema_version p; intent_payload_hash := prepared_payload_hash p;
     plan_fingerprint := prepared_fingerprint p; intent_targets := targets; intent_fingerprint := fingerprint_intent p targets |}.

(** A [SandboxPolicy] and a [PermissionAuthorizer] are what they answer. *)
Context (check : CanonicalTarget → result PermissionError ()) (approve : PermissionIntent → result PermissionError ApprovalReceipt).
Definition authorize (p : PreparedPatch) : result PermissionError AuthorizedPatch :=
  ensure (negb (bool_decide (prepared_fingerprint p = replicate 32 0))) (permission_error InvalidIntent);;
  foldlM (λ _ t, check t) () (prepared_manifest p);;
  let intent := from_prepared p in
  receipt ← approve intent;
  ensure (bool_decide (receipt_intent receipt = intent_fingerprint intent)) (permission_error ApprovalBinding);;
  ensure (bool_decide (receipt_approval receipt = intent_fingerprint intent)) (permission_error ApprovalBinding);;
  Ok {| authorized_prepared := p; authorized_intent := intent; authorized_receipt := receipt |}.
End authorizing.
Definition AllowAllSandbox (t : CanonicalTarget) : result PermissionError () := Ok ().
Definition FullAccessAuthorizer (i : PermissionIntent) : result PermissionError ApprovalReceipt :=
  Ok {| receipt_mode := FullAccess; receipt_intent := intent_fingerprint i; receipt_approval := intent_fingerprint i |}.
Definition DenyAuthorizer (i : PermissionIntent) : result PermissionError ApprovalReceipt := Err (permission_error ApprovalDenied).

(** ** What is resolved *)

(** A target below the root, as the resolver builds it. *)
Record below (r : TargetResolver) (t : CanonicalTarget) : Prop := {
  be_absolute : absolute t = root r ++ relative t;
  be_relative : relative t ≠ [];
  be_plain : Forall plain (relative t);
}.
Definition reaches (ts : list CanonicalTarget) (path : list text) : Prop := ∃ t, t ∈ ts ∧ absolute t = path.
(** Every directory on the way to a path below the root, and what it names. *)
Definition way_covered (r : TargetResolver) (ts : list CanonicalTarget) (rel : list text) : Prop :=
  ∀ k, k `prefix_of` rel → k ≠ [] → reaches ts (root r ++ k).

Section resolved.
Context (to_lowercase : text → text) (m : machine) (r : TargetResolver) (options : PrepareOptions).
Hypothesis root_normal : absolute_normal (root r).

(** A plain relative path is resolved to itself. *)
Lemma join_plain k : Forall plain k → join_relative (root r) k = Ok (root r ++ k).
Proof.
  unfold join_relative. intros Hk. assert (∀ acc, foldlM (join_component (root r)) acc k = Ok (acc ++ k)) as H; [|apply H].
  induction Hk as [|c k Hc Hk IH]; intros acc; cbn [foldlM]; [by rewrite app_nil_r|].
  assert (join_component (root r) acc c = Ok (acc ++ [c])) as ->.
  { unfold join_component. pose proof (plain_not_root c Hc). destruct Hc as (_ & ? & ? & _). by rewrite !decide_False. }
  cbn [mbind result_bind]. by rewrite IH, <-app_assoc.
Qed.
Lemma display_plain_relative c k : plain c → Forall plain k → is_absolute (display (c :: k)) = false.
Proof.
  intros Hc Hk. destruct (is_absolute (display (c :: k))) eqn:Ha; [|done].
  pose proof (components_display (c :: k) ltac:(exists (c :: k); split; [by right|by constructor])) as Hd.
  unfold components in Hd. unfold is_absolute in Ha. rewrite Ha in Hd. injection Hd as Hd _. subst c. by apply plain_root in Hc.
Qed.
Lemma resolve_display k role x t : k ≠ [] → Forall plain k → resolve to_lowercase m r (display k) role x = Ok t → relative t = k.
Proof.
  intros Hne Hk Hr. destruct k as [|c k]; [done|]. apply Forall_cons in Hk as Hck. destruct Hck as [Hc Hk'].
  unfold resolve in Hr. rewrite (display_plain_relative c k Hc Hk') in Hr.
  rewrite (components_display (c :: k)) in Hr by (exists (c :: k); split; [by right|done]).
  rewrite join_plain in Hr by done. simplify_result. cbn.
  match goal with H : path_strip_prefix _ _ = Some _ |- _ => by apply path_strip_prefix_Some, app_inv_head in H end.
Qed.
Lemma resolve_target_below name role x index t : resolve_target to_lowercase m r name role x index = Ok t → below r t.
Proof.
  unfold resolve_target. intros (H1 & H2 & H3)%map_err_Ok%resolve_below; [by split|done].
Qed.

(** What the resolution keeps: everything met is below the root, and every path
    that has a target has it among what was met. *)
Record resolving_ok (s : resolving) : Prop := {
  rs_below : ∀ t, t ∈ met s → below r t;
  rs_paths : ∀ key t, by_path s !! key = Some t → t ∈ met s ∧ path_text t = key;
  rs_above : ∀ key t, above s !! key = Some t →
    t ∈ met s ∧ (∃ k, key = display k ∧ Forall plain k ∧ k ≠ []) ∧ resolve to_lowercase m r key Parent ParentDirectory = Ok t;
}.
Record grows (s s' : resolving) : Prop := {
  gr_met : ∀ t, t ∈ met s → t ∈ met s';
  gr_paths : ∀ key t, by_path s !! key = Some t → by_path s' !! key = Some t;
}.
Lemma grows_refl s : grows s s.
Proof. by split. Qed.
Lemma grows_trans s1 s2 s3 : grows s1 s2 → grows s2 s3 → grows s1 s3.
Proof. intros [] []. split; eauto. Qed.

Lemma add_target_ok t s : resolving_ok s → below r t →
  resolving_ok (add_target t s) ∧ grows s (add_target t s) ∧
  is_Some (by_path (add_target t s) !! path_text t) ∧
  ∀ key t', by_path (add_target t s) !! key = Some t' → by_path s !! key = Some t' ∨ t' = t.
Proof.
  intros [H1 H2 H3] Ht. unfold add_target. destruct (by_path s !! path_text t) as [t'|] eqn:Hk.
  { split; [done|]. split; [apply grows_refl|]. split; [by exists t'|auto]. }
  split; [split; simpl|split; [split; simpl|]].
  - intros u [Hu| ->%list_elem_of_singleton]%elem_of_app; auto.
  - intros key u. rewrite lookup_insert_Some. intros [[<- <-]|[_ Hu]]; [split; [apply elem_of_app; right; left|done]|].
    apply H2 in Hu as [Hu ?]. split; [apply elem_of_app; by left|done].
  - intros key u Hu. apply H3 in Hu as [Hu ?]. split; [apply elem_of_app; by left|done].
  - intros u Hu. apply elem_of_app. by left.
  - intros key u Hu. rewrite lookup_insert_ne by congruence. done.
  - simpl. rewrite lookup_insert_eq. split; [by exists t|]. intros key u. rewrite lookup_insert_Some. naive_solver.
Qed.

Lemma insert_parent_ok k t s :
  k ≠ [] → Forall plain k → resolve to_lowercase m r (display k) Parent ParentDirectory = Ok t → resolving_ok s →
  resolving_ok (insert_parent (display k) t s) ∧ grows s (insert_parent (display k) t s) ∧
  reaches (met (insert_parent (display k) t s)) (root r ++ k).
Proof.
  intros Hne Hk Ht Hs. pose proof (resolve_display k _ _ t Hne Hk Ht) as Hrel.
  destruct (resolve_below _ _ _ _ _ _ _ root_normal Ht) as (Habs & Hne' & Hplain). rewrite Hrel in Habs.
  destruct Hs as [H1 H2 H3]. unfold insert_parent. destruct (above s !! display k) as [t'|] eqn:Hk'.
  - destruct (H3 _ _ Hk') as (Hin & _ & Hres). rewrite Ht in Hres. injection Hres as ->.
    split; [split; simpl; [done|done|]|split; [by split|by exists t']]. intros key u. rewrite lookup_insert_Some.
    intros [[<- <-]|[_ Hu]]; [|by apply H3]. split; [done|]. split; [by exists k|done].
  - split; [split; simpl|split; [split; simpl; [|done]|]].
    + intros u [Hu| ->%list_elem_of_singleton]%elem_of_app; [by apply H1|]. split; congruence.
    + intros key u Hu. apply H2 in Hu as [Hu ?]. split; [apply elem_of_app; by left|done].
    + intros key u. rewrite lookup_insert_Some.
      intros [[<- <-]|[_ Hu]]; [|apply H3 in Hu as [Hu ?]; split; [apply elem_of_app; by left|done]].
      split; [apply elem_of_app; right; left|]. split; [by exists k|done].
    + intros u Hu. apply elem_of_app. by left.
    + exists t. simpl. split; [apply elem_of_app; right; left|done].
Qed.

Lemma way_covered_grows s s' k : grows s s' → way_covered r (met s) k → way_covered r (met s') k.
Proof. intros [Hg _] H j Hj Hne. destruct (H j Hj Hne) as (t & Ht & Habs). exists t. auto. Qed.
Lemma add_parent_ok fuel index k s s' :
  (length k ≤ fuel)%nat → Forall plain k → resolving_ok s → add_parent to_lowercase m r fuel index (Some k) s = Ok s' →
  resolving_ok s' ∧ grows s s' ∧ way_covered r (met s') k.
Proof.
  revert k s. induction fuel as [|fuel IH]; intros k s Hlen Hk Hs Hr; destruct k as [|c rest];
    try (injection Hr as <-; split; [done|split; [apply grows_refl|by intros j ->%prefix_nil_inv]]); [simpl in Hlen; lia|].
  cbn [add_parent] in Hr. apply bind_Ok in Hr as (t & Ht & Hr). apply map_err_Ok in Ht.
  destruct (insert_parent_ok (c :: rest) t s ltac:(done) Hk Ht Hs) as (Hs1 & Hg1 & Hreach). set (s1 := insert_parent _ _ _) in *.
  clearbody s1. clear t Ht. assert (c :: rest ≠ []) as Hne by done. revert Hne Hlen Hk Hr Hreach.
  generalize (c :: rest) as k. clear c rest. intros k Hne Hlen Hk Hr Hreach. destruct k as [|x k _] using rev_ind; [done|]. clear Hne.
  apply Forall_app in Hk as [Hk [Hx _]%Forall_cons]. rewrite parent_snoc in Hr by (by apply plain_not_root).
  rewrite length_app in Hlen. simpl in Hlen. destruct (IH k s1 ltac:(lia) Hk Hs1 Hr) as (Hs' & Hg & Hway).
  split; [done|]. split; [by eapply grows_trans|]. intros j Hj Hne. apply prefix_snoc in Hj as [Hj| ->]; [by apply Hway|].
  destruct Hreach as (t & Ht & Habs). exists t. split; [by apply Hg|done].
Qed.

Lemma add_parent_paths fuel index k s s' : add_parent to_lowercase m r fuel index k s = Ok s' → by_path s' = by_path s.
Proof.
  revert k s. induction fuel as [|fuel IH]; intros [[|c k]|] s Hr; try (by injection Hr as <-).
  cbn [add_parent] in Hr. apply bind_Ok in Hr as (t & _ & Hr). by apply IH in Hr.
Qed.

(** Between two names: the way to every path is among what was met. *)
Record resolving_done (s : resolving) : Prop := {
  rd_ok : resolving_ok s;
  rd_way : ∀ key t, by_path s !! key = Some t → way_covered r (met s) (relative t);
}.
Lemma resolve_name_ok name role index s s' text :
  resolving_done s → resolve_name to_lowercase m r options name role index s = Ok (s', text) →
  resolving_done s' ∧ grows s s' ∧ is_Some (by_path s' !! text) ∧
  ∃ t, resolve to_lowercase m r name role ExistingOrMissing = Ok t ∧ text = path_text t.
Proof.
  intros [Hs Hway] Hr. unfold resolve_name in Hr. apply bind_Ok in Hr as ([] & _ & Hr). apply bind_Ok in Hr as (t & Hres & Hr).
  apply bind_Ok in Hr as (s2 & Hadd & Hr). injection Hr as -> <-. pose proof (resolve_target_below _ _ _ _ _ Hres) as Ht.
  apply map_err_Ok in Hres. destruct (add_target_ok t s Hs Ht) as (Hs1 & Hg1 & Hsome & Hold). set (s1 := add_target t s) in *.
  pose proof (add_parent_paths _ _ _ _ _ Hadd) as Hpaths. destruct Ht as [Habs Hne Hplain].
  assert (∃ k x, relative t = k ++ [x]) as (k & x & Hrel).
  { destruct (relative t) as [|x k _] using rev_ind; [done|eauto]. }
  rewrite Hrel in *. apply Forall_app in Hplain as [Hk [Hx _]%Forall_cons]. rewrite parent_snoc in Hadd by (by apply plain_not_root).
  destruct (add_parent_ok (length (k ++ [x])) index k s1 s' ltac:(rewrite length_app; lia) Hk Hs1 Hadd) as (Hs' & Hg' & Hk').
  split; [split; [done|]|split; [by eapply grows_trans|split; [by rewrite Hpaths|eauto]]]. rewrite Hpaths. intros key u Hu.
  destruct (Hold key u Hu) as [Hu'| ->]; [apply (way_covered_grows s); [by eapply grows_trans|by eapply Hway]|].
  rewrite Hrel. intros j Hj Hj'. apply prefix_snoc in Hj as [Hj| ->]; [by apply Hk'|]. exists t. split; [|done].
  apply Hg'. by eapply rs_paths.
Qed.

(** An operation with its names written as those of their targets. *)
Definition renamed (op op' : ValidatedOperation) : Prop :=
  ∃ t, resolve to_lowercase m r (path op) (if decide (kind op = OpAdd) then Destination else Source) ExistingOrMissing = Ok t ∧
  match move_to (operation op) with
  | None => op' = rename op (path_text t) None
  | Some d => ∃ t', resolve to_lowercase m r d Destination ExistingOrMissing = Ok t' ∧ op' = rename op (path_text t) (Some (path_text t'))
  end.
Definition names_of (op : ValidatedOperation) : list text := path op :: option_list (move_to (operation op)).
Definition has_targets (s : resolving) (op : ValidatedOperation) : Prop := ∀ name, name ∈ names_of op → is_Some (by_path s !! name).
Lemma has_targets_grows s s' op : grows s s' → has_targets s op → has_targets s' op.
Proof. intros [_ Hg] H name Hn. destruct (H name Hn) as [t Ht]. exists t. auto. Qed.
Lemma resolve_operation_ok index op s s' op' :
  resolving_done s → resolve_operation to_lowercase m r options index op s = Ok (s', op') →
  resolving_done s' ∧ grows s s' ∧ has_targets s' op' ∧ renamed op op'.
Proof.
  intros Hs Hr. unfold resolve_operation in Hr. apply bind_Ok in Hr as ([s1 source] & H1 & Hr).
  destruct (resolve_name_ok _ _ _ _ _ _ Hs H1) as (Hs1 & Hg1 & Hin1 & t & Ht & ->). unfold renamed, has_targets, names_of.
  destruct (move_to (operation op)) as [d|].
  - apply bind_Ok in Hr as ([s2 d'] & H2 & Hr). injection Hr as -> <-.
    destruct (resolve_name_ok _ _ _ _ _ _ Hs1 H2) as (Hs2 & Hg2 & Hin2 & t' & Ht' & ->).
    split; [done|]. split; [by eapply grows_trans|]. split; [|eauto]. simpl. intros name.
    intros [->|[-> |Hn%elem_of_nil]%elem_of_cons]%elem_of_cons; [|done|done]. destruct Hin1 as [u Hu]. exists u. by apply Hg2.
  - injection Hr as -> <-. split; [done|]. split; [done|]. split; [|eauto]. simpl.
    by intros name [->|Hn%elem_of_nil]%elem_of_cons.
Qed.
Lemma resolve_operations_ok ops index s s' ops' :
  resolving_done s → resolve_operations to_lowercase m r options index ops s = Ok (s', ops') →
  resolving_done s' ∧ grows s s' ∧ Forall (has_targets s') ops' ∧ Forall2 renamed ops ops'.
Proof.
  revert index s ops'. induction ops as [|op ops IH]; intros index s ops' Hs Hr; cbn [resolve_operations] in Hr.
  { injection Hr as -> <-. split; [done|]. split; [apply grows_refl|by split]. }
  apply bind_Ok in Hr as ([s1 op'] & H1 & Hr). apply bind_Ok in Hr as ([s2 ops2] & H2 & Hr). injection Hr as -> <-.
  destruct (resolve_operation_ok _ _ _ _ _ Hs H1) as (Hs1 & Hg1 & Hin1 & Hop).
  destruct (IH _ _ _ Hs1 H2) as (Hs2 & Hg2 & Hin2 & Hops). split; [done|]. split; [by eapply grows_trans|].
  split; [|by constructor]. constructor; [by eapply has_targets_grows|done].
Qed.

(** What the names of an operation mean. *)
Definition named_target (op : ValidatedOperation) (t : CanonicalTarget) : Prop :=
  resolve to_lowercase m r (path op) (if decide (kind op = OpAdd) then Destination else Source) ExistingOrMissing = Ok t ∨
  ∃ d, move_to (operation op) = Some d ∧ resolve to_lowercase m r d Destination ExistingOrMissing = Ok t.
Lemma resolve_name_met name role index s s' text :
  resolve_name to_lowercase m r options name role index s = Ok (s', text) →
  ∃ t, resolve to_lowercase m r name role ExistingOrMissing = Ok t ∧
    ∀ key u, by_path s' !! key = Some u → by_path s !! key = Some u ∨ u = t.
Proof.
  unfold resolve_name. intros ([] & _ & Hr)%bind_Ok. apply bind_Ok in Hr as (t & Hres%map_err_Ok & Hr).
  apply bind_Ok in Hr as (s2 & Hadd & [= <- _]). exists t. split; [done|]. rewrite (add_parent_paths _ _ _ _ _ Hadd). unfold add_target.
  destruct (by_path s !! path_text t); [by left|]. intros key u. simpl. rewrite lookup_insert_Some. naive_solver.
Qed.
Lemma resolve_operation_met index op s s' op' :
  resolve_operation to_lowercase m r options index op s = Ok (s', op') →
  ∀ key u, by_path s' !! key = Some u → by_path s !! key = Some u ∨ named_target op u.
Proof.
  unfold resolve_operation, named_target. intros ([s1 source] & (t & Ht & H1)%resolve_name_met & Hr)%bind_Ok key u.
  destruct (move_to (operation op)) as [d|].
  - apply bind_Ok in Hr as ([s2 d'] & (t' & Ht' & H2)%resolve_name_met & [= <- _]).
    intros [[Hu| ->]%H1| ->]%H2; [by left|by right; left|right; right; by exists d].
  - injection Hr as <- _. intros [Hu| ->]%H1; [by left|by right; left].
Qed.
Lemma resolve_operations_met ops index s s' ops' :
  resolve_operations to_lowercase m r options index ops s = Ok (s', ops') →
  ∀ key u, by_path s' !! key = Some u → by_path s !! key = Some u ∨ ∃ op, op ∈ ops ∧ named_target op u.
Proof.
  revert index s ops'. induction ops as [|op ops IH]; intros index s ops' Hr key u; cbn [resolve_operations] in Hr.
  { injection Hr as <- _. by left. }
  apply bind_Ok in Hr as ([s1 op'] & H1 & Hr). apply bind_Ok in Hr as ([s2 ops2] & H2 & [= <- _]).
  intros [Hu|(o & Ho & Hu)]%(IH _ _ _ H2); [|right; exists o; split; [by right|done]].
  apply (resolve_operation_met _ _ _ _ _ H1) in Hu as [?|?]; [by left|right; exists op; split; [left|done]].
Qed.
(** Its names are written as those of their targets. *)
Lemma renamed_names op op' t : renamed op op' → named_target op t → path_text t ∈ names_of op'.
Proof.
  intros (t1 & H1 & Hop) [Ht|(d & Hd & Ht)].
  - rewrite H1 in Ht. injection Ht as ->. destruct (move_to (operation op)); [destruct Hop as (t' & _ & ->)|rewrite Hop]; left.
  - rewrite Hd in Hop. destruct Hop as (t' & H2 & ->). rewrite H2 in Ht. injection Ht as ->. right. left.
Qed.
Lemma named_target_below op t : named_target op t → below r t.
Proof. intros [H|(d & _ & H)]; (apply resolve_below in H as (H1 & H2 & H3); [by split|by apply root_normal]). Qed.
(** Without a backslash the text of a path is the path. *)
Lemma path_text_inj t t' : below r t → below r t' → 92 ∉ display (relative t) → 92 ∉ display (relative t') →
  path_text t = path_text t' → absolute t = absolute t'.
Proof.
  intros [H1 _ Hp] [H2 _ Hp'] Hb Hb' Htext. rewrite H1, H2. f_equal. unfold path_text in Htext.
  assert (∀ s : text, 92 ∉ s → (λ c, if decide (c = 92) then 47 else c) <$> s = s) as Hid.
  { intros s Hs. rewrite <-(list_fmap_id s) at 2. apply list_fmap_ext. intros i c Hc. case_decide as H; [|done]. subst. destruct Hs. by eapply list_elem_of_lookup_2. }
  rewrite !Hid in Htext by done.
  rewrite <-(components_display (relative t)), <-(components_display (relative t')) by (eexists; eauto). by rewrite Htext.
Qed.

(** What a resolved patch promises. *)
Record resolution (doc : ValidatedPatchDocument) (p : ResolvedPatch) : Prop := {
  re_head : v_schema_version (resolved_document p) = v_schema_version doc ∧ v_input_bytes (resolved_document p) = v_input_bytes doc ∧
    v_payload_hash (resolved_document p) = v_payload_hash doc;
  re_operations : Forall2 renamed (v_operations doc) (v_operations (resolved_document p));
  re_below : ∀ d, d ∈ resolved_manifest p → below r d ∨ d = root_parent_target to_lowercase r;
  re_root : reaches (resolved_manifest p) (root r);
  re_named : ∀ op name, op ∈ v_operations (resolved_document p) → name ∈ names_of op →
    ∃ d, d ∈ resolved_manifest p ∧ below r d ∧ path_text d = name ∧ way_covered r (resolved_manifest p) (relative d);
  re_meant : ∀ op t, op ∈ v_operations doc → named_target op t →
    ∃ op' t', op' ∈ v_operations doc ∧ named_target op' t' ∧ path_text t' = path_text t ∧ reaches (resolved_manifest p) (absolute t');
  re_exact : (∀ op t, op ∈ v_operations doc → named_target op t → 92 ∉ display (relative t)) →
    ∀ op t, op ∈ v_operations doc → named_target op t → reaches (resolved_manifest p) (absolute t);
  re_sources : ∀ key t, resolved_sources p !! key = Some t → below r t ∧ path_text t = key ∧ reaches (resolved_manifest p) (absolute t);
}.

Lemma below_same t t' : below r t → below r t' → absolute t = absolute t' → path_text t = path_text t'.
Proof.
  intros [H1 _ _] [H2 _ _] H. rewrite H1, H2 in H. apply app_inv_head in H. unfold path_text. by rewrite H.
Qed.
Lemma below_not_root t : below r t → absolute t ≠ root r.
Proof.
  intros [H1 H2 _] H. rewrite H1 in H. apply H2. apply (app_inv_head (root r)). by rewrite app_nil_r.
Qed.
Lemma resolving_manifest s ds :
  resolving_done s → manifest_new (met s ++ [root_parent_target to_lowercase r]) = Ok ds →
  (∀ d, d ∈ ds → below r d ∨ d = root_parent_target to_lowercase r) ∧ reaches ds (root r) ∧
  ∀ key t, by_path s !! key = Some t → ∃ d, d ∈ ds ∧ below r d ∧ absolute d = absolute t ∧ path_text d = key ∧
    way_covered r ds (relative d).
Proof.
  intros [[H1 H2 H3] Hway] [Hin Hall]%manifest_new_Ok.
  assert (∀ d, d ∈ ds → below r d ∨ d = root_parent_target to_lowercase r) as Hbelow.
  { intros d Hd%Hin. apply elem_of_app in Hd as [Hd| ->%list_elem_of_singleton]; auto. }
  split; [done|]. split.
  { destruct (Hall (root_parent_target to_lowercase r)) as (d & Hd & Habs & _); [apply elem_of_app; right; left|by exists d]. }
  assert (∀ t, t ∈ met s → ∃ d, d ∈ ds ∧ absolute d = absolute t) as Hmet.
  { intros t Ht. destruct (Hall t) as (d & Hd & Habs & _); [apply elem_of_app; by left|eauto]. }
  intros key t Ht. destruct (H2 key t Ht) as [Hm Hkey]. destruct (Hmet t Hm) as (d & Hd & Habs).
  assert (below r d) as Hbd.
  { destruct (Hbelow d Hd) as [|Hroot]; [done|]. exfalso. apply (below_not_root t); [by apply H1|]. by rewrite <-Habs, Hroot. }
  exists d. split; [done|]. split; [done|]. split; [done|]. split; [rewrite <-Hkey; apply below_same; auto|].
  assert (relative d = relative t) as ->.
  { apply (app_inv_head (root r)). rewrite <-(be_absolute r d Hbd), <-(be_absolute r t (H1 t Hm)). done. }
  intros k Hk Hne. destruct (Hway key t Ht k Hk Hne) as (u & Hu & Hreach). destruct (Hmet u Hu) as (d' & Hd' & Habs').
  exists d'. split; [done|congruence].
Qed.

(** The key of the root is no path below it. *)
Lemma path_text_below t : below r t → path_text t ≠ CURRENT.
Proof.
  intros [_ Hne Hp] H. unfold path_text in H. pose proof (components_display (relative t) ltac:(exists (relative t); auto)) as Hd.
  destruct (display (relative t)) as [|x [|y l]]; [done| |done]. simpl in H. case_decide; [done|]. injection H as ->.
  change (components [46]) with [CURRENT] in Hd. rewrite <-Hd in Hp. apply Forall_cons in Hp as [(_ & Hc & _) _]. done.
Qed.

Lemma nothing_met_done : resolving_done nothing_met.
Proof. split; [split|]; simpl; intros *; first [by intros ?%elem_of_nil|by rewrite lookup_empty]. Qed.
Lemma insert_root s : resolving_done s →
  met (insert_parent (path_text (root_parent_target to_lowercase r)) (root_parent_target to_lowercase r) s) =
  met s ++ [root_parent_target to_lowercase r].
Proof.
  intros [[_ _ H3] _]. unfold insert_parent. simpl. change (path_text (root_parent_target to_lowercase r)) with CURRENT.
  destruct (above s !! CURRENT) as [t|] eqn:Hk; [|done]. exfalso. destruct (H3 _ _ Hk) as (_ & (k & Hkey & Hp & Hne) & Hres).
  rewrite Hkey in Hres. pose proof (resolve_display k _ _ t Hne Hp Hres) as Hrel. rewrite <-Hrel in *.
  pose proof (components_display (relative t) ltac:(exists (relative t); auto)) as Hd. rewrite <-Hkey in Hd.
  change (components CURRENT) with [CURRENT] in Hd. rewrite <-Hd in Hp. apply Forall_cons in Hp as [(_ & Hc & _) _]. done.
Qed.
Lemma resolve_patch_resolution doc p : resolve_patch to_lowercase m r options doc = Ok p → resolution doc p.
Proof.
  unfold resolve_patch. intros Hr. apply bind_Ok in Hr as ([] & _ & Hr). apply bind_Ok in Hr as ([] & _ & Hr).
  apply bind_Ok in Hr as ([s ops] & Hops & Hr). apply bind_Ok in Hr as ([] & _ & Hr). apply bind_Ok in Hr as (ds & Hds & Hr).
  apply bind_Ok in Hr as ([] & _ & Hr). apply bind_Ok in Hr as ([] & _ & Hr). injection Hr as <-. apply map_err_Ok in Hds.
  destruct (resolve_operations_ok _ _ _ _ _ nothing_met_done Hops) as (Hs & _ & Hin & Hren).
  rewrite insert_root in Hds by done. destruct (resolving_manifest s ds Hs Hds) as (Hbelow & Hroot & Hnamed).
  assert (∀ op t, op ∈ v_operations doc → named_target op t →
    ∃ op' t', op' ∈ v_operations doc ∧ named_target op' t' ∧ path_text t' = path_text t ∧ reaches ds (absolute t')) as Hmeant.
  { intros op t Hop Ht. apply list_elem_of_lookup in Hop as [i Hi].
    destruct (Forall2_lookup_l _ _ _ _ _ Hren Hi) as (op' & Hop' & Hrenamed).
    rewrite Forall_forall in Hin. destruct (Hin op' (list_elem_of_lookup_2 _ _ _ Hop') _ (renamed_names _ _ _ Hrenamed Ht)) as [u Hu].
    destruct (Hnamed _ u Hu) as (d & Hd & _ & Habs & _). destruct (resolve_operations_met _ _ _ _ _ Hops _ _ Hu) as [Hnone|(o & Ho & Hou)]; [done|].
    exists o, u. split; [done|]. split; [done|]. split; [by eapply rs_paths, Hu; apply Hs|by exists d]. }
  split; simpl; [done|done|done|done| |done| |].
  - intros op name Hop Hname. rewrite Forall_forall in Hin. destruct (Hin op Hop name Hname) as [t Ht].
    destruct (Hnamed name t Ht) as (d & Hd & Hb & _ & Htext & Hway). by exists d.
  - intros Hplain op t Hop Ht. destruct (Hmeant op t Hop Ht) as (op' & t' & Hop' & Ht' & Htext & Hreach).
    rewrite (path_text_inj t t'); [done|..|done]; eauto using named_target_below.
  - intros key t Ht. destruct (Hnamed key t Ht) as (d & Hd & _ & Habs & _). destruct Hs as [[H1 H2 _] _].
    destruct (H2 key t Ht) as [Hm Hkey]. split; [by apply H1|]. split; [done|]. by exists d.
Qed.
End resolved.

(** ** Targets of the executor *)
Lemma targets_of_snoc ts t : targets_of (ts ++ [t]) = <[path_text t := t]> (targets_of ts).
Proof. unfold targets_of. by rewrite foldl_app. Qed.
Lemma targets_of_Some ts key t : targets_of ts !! key = Some t → t ∈ ts ∧ path_text t = key.
Proof.
  induction ts as [|u ts IH] using rev_ind; [done|]. rewrite targets_of_snoc, lookup_insert_Some, elem_of_app.
  intros [[<- <-]|[_ Ht]]; [split; [right; left|done]|]. apply IH in Ht as [? ?]. auto.
Qed.
Lemma targets_of_is_Some ts t : t ∈ ts → is_Some (targets_of ts !! path_text t).
Proof.
  induction ts as [|u ts IH] using rev_ind; [by intros ?%elem_of_nil|]. rewrite targets_of_snoc, elem_of_app.
  destruct (decide (path_text u = path_text t)) as [->|Hne]; [intros _; rewrite lookup_insert_eq; by exists u|].
  rewrite lookup_insert_ne by done. intros [Ht| ->%list_elem_of_singleton]; [by apply IH|done].
Qed.

(** No file of a manifest is named like a private file. *)
Definition public (manifest : list CanonicalTarget) : Prop :=
  ∀ t c, t ∈ manifest → last (relative t) = Some c → is_private c = false.
Lemma resolution_named to_lowercase m r doc p op name :
  absolute_normal (root r) → resolution to_lowercase m r doc p → public (resolved_manifest p) →
  op ∈ v_operations (resolved_document p) → name ∈ names_of op → named (targets_of (resolved_manifest p)) name.
Proof.
  intros (names & Hroot & Hnames) Hp Hpub Hop Hname.
  destruct (re_named _ _ _ _ _ Hp op name Hop Hname) as (d & Hd & Hb & Htext & _).
  destruct (targets_of_is_Some _ d Hd) as [t Ht]. rewrite Htext in Ht. apply targets_of_Some in Ht as Hm. destruct Hm as [Hm Hkey].
  destruct (re_below _ _ _ _ _ Hp t Hm) as [Hbt| ->].
  2: { by destruct (path_text_below r d Hb); rewrite Htext, <-Hkey. }
  destruct Hbt as [Habs Hne Hplain]. assert (∃ k x, relative t = k ++ [x]) as (k & x & Hrel).
  { destruct (relative t) as [|x k _] using rev_ind; [done|eauto]. }
  exists t, names, k, x. split; [done|]. split.
  - split; [by rewrite Habs, Hroot, Hrel|done|]. rewrite <-Hrel. by apply Forall_app.
  - apply (Hpub t x Hm). by rewrite Hrel, last_snoc.
Qed.

(** ** What is read *)
Section reading.
Context (digest : list N → list N) (limits : SnapshotLimits).

(** A program read these bytes from a file. *)
Definition read_from (l : log) (path : list text) (bytes : list N) : Prop :=
  ∃ pieces file s, Event (ReadFile path) (Ok (pieces, file)) ∈ l ∧ from_reader digest file pieces limits = Ok s ∧
    bytes_of digest s = Ok bytes.
(** The version observed is that of the bytes planned for, which were read. *)
Definition observation (files : gmap text (list N)) (l : log) (o : text * ObservedTarget) : Prop :=
  match observed_token (snd o) with
  | None => files !! fst o = None
  | Some token =>
      ∃ bytes, files !! fst o = Some bytes ∧ token = token_of digest bytes ∧ read_from l (absolute (observed_target (snd o))) bytes
  end.
Definition observed_bytes (observed : list (text * ObservedTarget)) : N :=
  sum_N (omap (λ o, token_byte_len <$> observed_token (snd o)) observed).
Record read_exactly (ts : list (text * CanonicalTarget)) (mx : N) (files0 : gmap text (list N)) (total0 : N) (l : log)
    (new : list (text * ObservedTarget)) (files : gmap text (list N)) (total : N) : Prop := {
  rx_targets : (λ o, (fst o, observed_target (snd o))) <$> new = ts;
  rx_observed : Forall (observation files l) new;
  rx_others : ∀ key, key ∉ ts.*1 → files !! key = files0 !! key;
  rx_total : total = total0 + observed_bytes new;
  rx_limit : total0 ≤ mx → total ≤ mx;
}.

Lemma bytes_of_version s bytes : bytes_of digest s = Ok bytes → version s = token_of digest bytes.
Proof.
  unfold bytes_of. intros (b & _ & H)%bind_Ok. apply bind_Ok in H as ([] & Hb & [= ->]). apply ensure_Ok, bool_decide_eq_true in Hb. done.
Qed.
Lemma read_exactly_cons path t token bytes ts mx files0 next total0 l new files total :
  path ∉ ts.*1 →
  (match token with
   | None => bytes = None ∧ files0 !! path = None ∧ next = total0
   | Some token => ∃ b, bytes = Some b ∧ token = token_of digest b ∧ read_from l (absolute t) b ∧ next = total0 + token_byte_len token ∧ next ≤ mx
   end) →
  read_exactly ts mx (match bytes with Some b => <[path := b]> files0 | None => files0 end) next l new files total →
  read_exactly ((path, t) :: ts) mx files0 total0 l
    ((path, {| observed_target := t; observed_token := token |}) :: new) files total.
Proof.
  intros Hnew Hhead [H1 H2 H3 H4 H5]. split.
  - simpl. by f_equal.
  - constructor; [|done]. unfold observation. simpl. destruct token as [token|].
    + destruct Hhead as (b & -> & Htok & Hread & _). exists b. rewrite (H3 path Hnew), lookup_insert_eq. done.
    + destruct Hhead as (-> & Hnone & _). by rewrite (H3 path Hnew).
  - intros key Hkey. simpl in Hkey. apply not_elem_of_cons in Hkey as [Hne Hkey]. rewrite (H3 key Hkey).
    destruct bytes; [by rewrite lookup_insert_ne|done].
  - rewrite H4. unfold observed_bytes. simpl. destruct token as [token|]; simpl.
    + destruct Hhead as (b & _ & _ & _ & -> & _). by rewrite <-N.add_assoc.
    + by destruct Hhead as (_ & _ & ->).
  - intros Hle. apply H5. destruct token as [token|]; [by destruct Hhead as (? & _ & _ & _ & _ & ?)|by destruct Hhead as (_ & _ & ->)].
Qed.

Lemma observation_prefix files l l' o : l `prefix_of` l' → observation files l o → observation files l' o.
Proof.
  intros [k ->]. unfold observation. destruct (observed_token _); [|done]. intros (b & ? & ? & pieces & file & s & Hin & ?).
  exists b. split; [done|]. split; [done|]. exists pieces, file, s. split; [|done]. apply elem_of_app. by left.
Qed.
(** The loop either stops with an error or has read everything once. *)
Lemma read_files_ok mx ts observed files total l :
  NoDup ts.*1 → (∀ key, key ∈ ts.*1 → files !! key = None) →
  wp (read_files digest limits mx ts observed files total) l (λ l' answer, l `prefix_of` l' ∧
    match answer with
    | Ok (observed', files', total') => ∃ new, observed' = observed ++ new ∧ read_exactly ts mx files total l' new files' total'
    | Err _ => True
    end).
Proof.
  revert observed files total l. induction ts as [|[path t] ts IH]; intros observed files total l Hnd Hfresh; cbn [read_files].
  { simpl. split; [done|]. exists []. split; [by rewrite app_nil_r|]. split; [done|constructor|done| |done]. unfold observed_bytes. simpl. lia. }
  apply NoDup_cons in Hnd as [Hpath Hnd]. pose proof (Hfresh path (list_elem_of_here _ _)) as Hnone.
  assert (∀ token bytes next l1, l `prefix_of` l1 →
    (match token with
     | None => bytes = None ∧ files !! path = None ∧ next = total
     | Some token => ∃ b, bytes = Some b ∧ token = token_of digest b ∧ read_from l1 (absolute t) b ∧
                          next = total + token_byte_len token ∧ next ≤ mx
     end) →
    wp (read_files digest limits mx ts (observed ++ [(path, {| observed_target := t; observed_token := token |})])
          (match bytes with Some b => <[path := b]> files | None => files end) next) l1 (λ l' answer, l `prefix_of` l' ∧
      match answer with
      | Ok (observed', files', total') => ∃ new, observed' = observed ++ new ∧
          read_exactly ((path, t) :: ts) mx files total l' new files' total'
      | Err _ => True
      end)) as Hgo.
  { intros token bytes next l1 Hl1 Hhead. eapply wp_mono; [apply IH; [done|]|].
    - intros key Hkey. destruct bytes; [rewrite lookup_insert_ne by (by intros ->)|]; apply Hfresh; by right.
    - intros l' [[[observed' files'] total']|e]; intros [Hl' H]; (split; [by etrans|]); [|done]. destruct H as (new & -> & H).
      eexists. split; [by rewrite <-app_assoc|]. eapply read_exactly_cons; [done| |exact H].
      destruct token; [|done]. destruct Hhead as (b & ? & ? & (pieces & file & s & Hin & ?) & ?). exists b. split; [done|].
      split; [done|]. split; [|done]. exists pieces, file, s. split; [|done]. destruct Hl' as [k ->]. apply elem_of_app. by left. }
  unfold inspect_kind. apply wp_bind, wp_bind, wp_ask. intros metadata _.
  assert (l `prefix_of` l ++ [Event (PathMetadata (absolute t)) metadata]) as Hl1 by by apply prefix_app_r.
  set (l1 := l ++ _) in *. clearbody l1. simpl.
  destruct metadata as [metadata|[| |]]; [|by apply (Hgo None None)|done..].
  destruct (meta_kind metadata); [by apply (Hgo None None)| |done..].
  intros opened _. set (l2 := l1 ++ _).
  assert (l `prefix_of` l2) as Hl2 by (etrans; [exact Hl1|by apply prefix_app_r]).
  destruct opened as [[pieces file]|e]; [|done]. destruct (from_reader digest file pieces limits) as [s|e] eqn:Hs; [|done].
  destruct (checked_add U64_MAX total (token_byte_len (version s))) as [next|] eqn:Hnext; [|done].
  apply checked_add_Some in Hnext as [-> _]. case_decide as Hmx; [|done]. destruct (bytes_of digest s) as [b|e] eqn:Hb; [|done].
  apply (Hgo (Some (version s)) (Some b)); [done|]. exists b. split; [done|]. split; [by apply bytes_of_version|]. split; [|done].
  exists pieces, file, s. split; [apply elem_of_app; right; left|done].
Qed.
End reading.

Lemma entries_keys {A} (map : gmap text A) : NoDup (entries map).*1.
Proof. unfold entries. rewrite sort_on_perm. apply NoDup_fst_map_to_list. Qed.
Lemma elem_entries {A} (map : gmap text A) key a : (key, a) ∈ entries map ↔ map !! key = Some a.
Proof. unfold entries. rewrite sort_on_perm. apply elem_of_map_to_list. Qed.

Definition total_output (plan : PlannedPatch) : N :=
  sum_N ((λ s, N.of_nat (length (snap_bytes s))) <$> omap after (planned_operations plan)).
Lemma output_bytes_Some plan n : output_bytes plan = Some n → n = total_output plan.
Proof.
  unfold output_bytes, total_output. generalize (omap after (planned_operations plan)) as l. intros l.
  assert (∀ a, foldl (λ sum s, n ← sum; checked_add U64_MAX n (N.of_nat (length (snap_bytes s)))) a l = Some n →
    ∃ m, a = Some m ∧ n = m + sum_N ((λ s, N.of_nat (length (snap_bytes s))) <$> l)) as H.
  { induction l as [|s l IH]; intros a; cbn [foldl]; [intros ->; exists n; split; [done|unfold sum_N; simpl; lia]|].
    intros (m & Hm & ->)%IH. apply bind_Some in Hm as (k & -> & [-> _]%checked_add_Some). exists k. split; [done|].
    rewrite fmap_cons, sum_N_cons. lia. }
  intros (m & [= <-] & ->)%H. lia.
Qed.

(** ** Preparing *)
Section preparation.
Context (digest : list N → list N).

(** What is prepared is the resolved patch with a plan for the bytes read. *)
Record preparation (p : ResolvedPatch) (l : log) (q : PreparedPatch) : Prop := {
  pr_document : prepared_document q = resolved_document p;
  pr_manifest : prepared_manifest q = resolved_manifest p;
  pr_limits : prepared_limits q = snapshot_limits (resolved_options p);
  pr_plan : ∃ files,
    plan_with_limits (token_of digest) (prepared_document q) files (prepared_max_candidate_matches q) (prepared_max_output_bytes q) =
      Some (Ok (prepared_plan q)) ∧
    read_exactly digest (prepared_limits q) (entries (resolved_sources p)) (prepared_max_snapshot_bytes q) ∅ 0 l (prepared_observed q) files
      (prepared_snapshot_bytes q);
  pr_output : prepared_output_bytes q = total_output (prepared_plan q) ∧ prepared_output_bytes q ≤ prepared_max_output_bytes q;
  pr_parents : (λ o, (fst o, directory_target (snd o))) <$> prepared_parents q = entries (resolved_parents p);
}.

Lemma read_parents_ok ts observed l :
  wp (read_parents ts observed) l (λ _ answer, match answer with
    | Ok observed' => (λ o, (fst o, directory_target (snd o))) <$> observed' = ((λ o, (fst o, directory_target (snd o))) <$> observed) ++ ts
    | Err _ => True end).
Proof.
  revert observed l. induction ts as [|[path t] ts IH]; intros observed l; cbn [read_parents]; [by rewrite app_nil_r|].
  apply wp_bind. eapply (wp_mono _ _ (λ _ _, True)); [unfold inspect_kind; apply wp_bind, wp_ask; by intros|].
  intros l1 [k|e] _; [|done]. case_decide; [|done].
  apply wp_bind. eapply (wp_mono _ _ (λ _ _, True)); [unfold metadata_fingerprint; apply wp_bind, wp_ask; by intros|].
  intros l2 [f|e] _; [|done]. eapply wp_mono; [apply IH|]. intros l3 [os|e] Hos; [|done]. by rewrite Hos, fmap_app, <-app_assoc.
Qed.

Hint Resolve inspect_kind_view metadata_fingerprint_view from_file_effects : keeps.
Hint Resolve inspect_kind_quiet metadata_fingerprint_quiet from_file_quiet : quiet.
Lemma read_files_effects limits mx ts observed files total : keeps same_effects (read_files digest limits mx ts observed files total).
Proof. revert observed files total. induction ts as [|[path t] ts IH]; intros observed files total; cbn [read_files]; keeps. Qed.
Lemma read_files_quiet limits mx ts observed files total : keeps quiet (read_files digest limits mx ts observed files total).
Proof. revert observed files total. induction ts as [|[path t] ts IH]; intros observed files total; cbn [read_files]; quiet. Qed.
Lemma read_parents_view ts observed : keeps same_view (read_parents ts observed).
Proof. revert observed. induction ts as [|[path t] ts IH]; intros observed; cbn [read_parents]; keeps. Qed.
Lemma read_parents_quiet ts observed : keeps quiet (read_parents ts observed).
Proof. revert observed. induction ts as [|[path t] ts IH]; intros observed; cbn [read_parents]; quiet. Qed.
Hint Resolve read_files_effects read_parents_view : keeps.
Hint Resolve read_files_quiet read_parents_quiet : quiet.
Lemma prepare_resolved_effects p : keeps same_effects (prepare_resolved digest p).
Proof. unfold prepare_resolved, read_observed_targets. keeps. Qed.
Lemma prepare_resolved_quiet p : keeps quiet (prepare_resolved digest p).
Proof. unfold prepare_resolved, read_observed_targets. quiet. Qed.

Lemma plan_resolved_Ok p observed parents files total l q :
  read_exactly digest (snapshot_limits (resolved_options p)) (entries (resolved_sources p))
    (max_total_snapshot_bytes (patch_limits (resolved_options p))) ∅ 0 l observed files total →
  (λ o, (fst o, directory_target (snd o))) <$> parents = entries (resolved_parents p) →
  plan_resolved digest p observed parents files total = Ok q → preparation p l q.
Proof.
  intros Hread Hparents. unfold plan_resolved. destruct (plan_with_limits _ _ _ _ _) as [[plan|e]|] eqn:Hplan; [|done..].
  intros Hq. apply bind_Ok in Hq as (n & Hn & Hq). apply ok_or_Ok, output_bytes_Some in Hn as ->.
  apply bind_Ok in Hq as ([] & Hle%ensure_Ok%bool_decide_eq_true & Hq). injection Hq as <-. split; simpl; try done. by exists files.
Qed.
Lemma prepare_resolved_ok p l :
  wp (prepare_resolved digest p) l (λ l' answer, ∀ q, answer = Ok q → preparation p l' q).
Proof.
  unfold prepare_resolved, read_observed_targets. apply wp_try, wp_try.
  eapply wp_mono; [apply (read_files_ok digest _ _ _ [] ∅ 0); [apply entries_keys|by intros; apply lookup_empty]|].
  intros l1 [[[observed files] total]|e] [_ H1]; [|done]. destruct H1 as (new & -> & H1). apply wp_try.
  eapply wp_mono; [apply wp_and; [apply read_parents_ok|apply wp_prefix]|]. intros l2 [parents|e] [H2 Hpre]; [|done]. simpl. intros q Hq.
  destruct H1 as [X1 X2 X3 X4 X5]. eapply plan_resolved_Ok; [|exact H2|exact Hq]. split; [done| |done|done|done].
  eapply Forall_impl; [exact X2|]. intros o. by apply observation_prefix.
Qed.
End preparation.

(** C11: a patch is prepared as it was written, and read without being changed.
    The resolved document is the given one with its names written as those of their
    targets; the manifest holds a target for every name so written, every directory
    on the way to it and the root, and nothing outside the root. Where no name means
    a file with a backslash in its path the manifest holds the very file that each
    name of the given document means; otherwise it holds one whose path differs in
    slashes and backslashes only ([backslash_loses_a_target]). Preparing changes no
    name and tells nobody; the plan is one of this document for the bytes read from
    the targets, whose versions are those observed and whose sum is within the
    limit, as the output is. If no target has the name of a private file of the
    engine, what is prepared can be executed. *)
Theorem patch_prepared to_lowercase m p r0 r options doc resolved digest l :
  resolver_new m (components p) = Ok r0 → root r = root r0 →
  resolve_patch to_lowercase m r options doc = Ok resolved →
  resolution to_lowercase m r doc resolved ∧
  wp (prepare_resolved digest resolved) l (λ l' answer, same_effects l l' ∧ quiet l l' ∧
    ∀ q, answer = Ok q → preparation digest resolved l' q ∧ (public (resolved_manifest resolved) → executable digest q)).
Proof.
  intros Hnew Hroot Hr. pose proof (resolver_new_root m p r0 Hnew) as Hn. rewrite <-Hroot in Hn.
  pose proof (resolve_patch_resolution _ _ _ _ Hn _ _ Hr) as Hres. split; [done|].
  eapply wp_mono; [apply wp_and; [apply prepare_resolved_effects|apply wp_and; [apply prepare_resolved_quiet|apply prepare_resolved_ok]]|].
  intros l' answer (He & Hq & Hok). split; [done|]. split; [done|]. intros q Hanswer. specialize (Hok q Hanswer). split; [done|].
  intros Hpub. destruct Hok as [Hdoc Hman _ (files & Hplan & _) _ _]. split; [by exists files|]. rewrite Hdoc, Hman. intros op Hop.
  split; [|intros d Hd]; (eapply resolution_named; [exact Hn|done..| |]; [exact Hop|]); unfold names_of; [left|rewrite Hd; right; left].
Qed.

(** ** Authorizing *)
Lemma elem_of_dedup {A} `{EqDecision A} (l : list A) x : x ∈ dedup l ↔ x ∈ l.
Proof.
  induction l as [|y [|z l] IH]; [done|done|]. change (dedup (y :: z :: l)) with (if decide (y = z) then dedup (z :: l) else y :: dedup (z :: l)).
  rewrite (elem_of_cons (z :: l)), <-IH. case_decide as Hyz; [subst z|by rewrite elem_of_cons].
  split; [auto|]. intros [->|]; [|done]. apply IH. left.
Qed.
Lemma permission_key_inj t t' : permission_key (permission_target t) = permission_key (permission_target t') → permission_target t = permission_target t'.
Proof. unfold permission_key, permission_target. simpl. intros [= -> H]. by destruct (role t), (role t'). Qed.
(** Consecutive repetitions of a sorted list are all there are. *)
Lemma dedup_strict {A K} `{EqDecision A, OrderedLaws K} (key : A → K) l :
  (∀ x y, x ∈ l → y ∈ l → key x = key y → x = y) → StronglySorted (key_leq key) l → StronglySorted (key_lt key) (dedup l).
Proof.
  induction l as [|x [|y l] IH]; intros Hinj Hs; [constructor|by repeat constructor|].
  apply StronglySorted_inv in Hs as [Hs Hx]. assert (StronglySorted (key_lt key) (dedup (y :: l))) as Hd.
  { apply IH; [|done]. intros a b Ha Hb. apply Hinj; by right. }
  change (dedup (x :: y :: l)) with (if decide (x = y) then dedup (y :: l) else x :: dedup (y :: l)). case_decide as Hne; [done|].
  constructor; [done|]. apply Forall_forall. intros z Hz. rewrite elem_of_dedup in Hz.
  assert (key_lt key x y) as Hxy.
  { apply Forall_cons in Hx as [[|Heq]%key_leq_spec _]; [done|]. destruct Hne. apply Hinj; [left|right; left|done]. }
  apply elem_of_cons in Hz as [->|Hz]; [done|]. apply StronglySorted_inv in Hs as [_ Hy]. rewrite Forall_forall in Hy.
  specialize (Hy z Hz). apply key_leq_spec in Hy as [Hy|Hy]; [by eapply key_lt_trans|]. unfold key_lt in *. by rewrite <-Hy.
Qed.
Lemma permission_targets_exact ts :
  (∀ pt, pt ∈ permission_targets ts ↔ ∃ t, t ∈ ts ∧ pt = permission_target t) ∧
  StronglySorted (key_lt permission_key) (permission_targets ts).
Proof.
  assert (∀ pt, pt ∈ sort_on permission_key (permission_target <$> ts) ↔ ∃ t, t ∈ ts ∧ pt = permission_target t) as Hin.
  { intros pt. rewrite sort_on_perm, list_elem_of_fmap. naive_solver. }
  unfold permission_targets. split; [intros pt; by rewrite elem_of_dedup|]. apply dedup_strict; [|apply sort_on_sorted].
  intros x y (t & _ & ->)%Hin (t' & _ & ->)%Hin. apply permission_key_inj.
Qed.

Lemma checked_all {E A} (check : A → result E ()) l : foldlM (λ _ t, check t) () l = Ok () ↔ ∀ t, t ∈ l → check t = Ok ().
Proof.
  induction l as [|a l IH]; cbn [foldlM]; [split; [by intros _ t ?%elem_of_nil|done]|]. rewrite bind_Ok. split.
  - intros ([] & Ha & Hl) t [->|Ht]%elem_of_cons; [done|by apply IH].
  - intros H. exists (). split; [apply H; left|]. apply IH. intros t Ht. apply H. by right.
Qed.
(** a patch is authorized as a whole. It is exactly when it has a fingerprint,
    the sandbox lets every target of its manifest pass, and the approval was given
    for the intent of this very patch; what is returned is the patch as it was
    prepared. The intent lists the effect on every target of the manifest, each
    once, in order, and nothing else. *)
Theorem authorize_exact digest check approve p a :
  let intent := from_prepared digest p in
  (authorize digest check approve p = Ok a ↔
   prepared_fingerprint p ≠ replicate 32 0 ∧ (∀ t, t ∈ prepared_manifest p → check t = Ok ()) ∧
   ∃ receipt, approve intent = Ok receipt ∧ receipt_intent receipt = intent_fingerprint intent ∧
     receipt_approval receipt = intent_fingerprint intent ∧
     a = {| authorized_prepared := p; authorized_intent := intent; authorized_receipt := receipt |}) ∧
  (∀ pt, pt ∈ intent_targets intent ↔ ∃ t, t ∈ prepared_manifest p ∧ pt = permission_target t) ∧
  StronglySorted (key_lt permission_key) (intent_targets intent).
Proof.
  intros intent. split; [|apply permission_targets_exact]. unfold authorize. split.
  - intros Ha. apply bind_Ok in Ha as ([] & Hf%ensure_Ok%negb_true_iff%bool_decide_eq_false & Ha).
    apply bind_Ok in Ha as ([] & Hc & Ha). apply bind_Ok in Ha as (receipt & Hr & Ha).
    apply bind_Ok in Ha as ([] & Hi%ensure_Ok%bool_decide_eq_true & Ha). apply bind_Ok in Ha as ([] & Hap%ensure_Ok%bool_decide_eq_true & Ha).
    injection Ha as <-. split; [done|]. split; [by apply checked_all|]. by exists receipt.
  - intros (Hf & Hc & receipt & Hr & Hi & Hap & ->). rewrite bool_decide_false by done. simpl.
    rewrite (proj2 (checked_all check _) Hc). simpl. fold intent. rewrite Hr. simpl. by rewrite !bool_decide_true by done.
Qed.

(** ** A patch prepared *)
Module SamplePrepare.
Import SampleTarget.
Definition digest (bytes : list N) : list N := [sum_N bytes].
Definition options : PrepareOptions := {| patch_limits := default_limits; snapshot_limits := default_snapshot_limits |}.
(** An update that moves the file of the workspace into a new directory, and a
    new file beside the old one. *)
Definition doc : ValidatedPatchDocument :=
  {| v_schema_version := 1; v_input_bytes := 80; v_payload_hash := [9];
     v_operations :=
       [sample_op OpUpdate "a/./file" (Some "b/../b/new"%string) (BUpdate {| hunks := [sample_hunk] |}) None None;
        sample_op OpAdd "a/x" None (BAdd {| add_lines := [lit "x"] |}) None None] |}.
Definition resolved (doc : ValidatedPatchDocument) : result PrepareError ResolvedPatch := resolve_patch id sample r options doc.
Definition names (p : ResolvedPatch) : list (list text) * list (list text) :=
  (names_of <$> v_operations (resolved_document p), relative <$> resolved_manifest p).
Example sample_resolved :
  (p ← resolved doc; Ok (names p)) =
  Ok ([[lit "a/file"; lit "b/new"]; [lit "a/x"]],
      [[CURRENT]; [lit "a"]; [lit "a"; lit "file"]; [lit "a"; lit "x"]; [lit "b"]; [lit "b"; lit "new"]]).
Proof. by vm_compute. Qed.
(** Of two names with a backslash and a slash the second loses its target: both
    operations now name the file of the first, and the manifest has only that. *)
Definition two_names : ValidatedPatchDocument :=
  {| v_schema_version := 1; v_input_bytes := 80; v_payload_hash := [9];
     v_operations := [sample_op OpAdd "a\y" None (BAdd {| add_lines := [lit "x"] |}) None None;
                      sample_op OpUpdate "a/y" None (BUpdate {| hunks := [sample_hunk] |}) None None] |}.
Example backslash_loses_a_target :
  (p ← resolved two_names; Ok (names p)) =
  Ok ([[lit "a/y"]; [lit "a/y"]], [[CURRENT]; [lit "a"]; [lit "a\y"]]).
Proof. by vm_compute. Qed.

(** A quiet system with this workspace. *)
Definition metadata (path : list text) : sys Metadata :=
  match symlink_metadata sample path with
  | Ok (_, n) => Ok {| meta_kind := kind_of n; meta_inode := (1, N.of_nat (length path)); meta_mode := 420 |}
  | Err _ => Err SysNotFound
  end.
Definition oracle (l : log) (c : call) : SystemCalls.answer c :=
  match c return SystemCalls.answer c with
  | PathMetadata path => metadata path
  | ReadFile path => Ok ([Ok (PatchPlanner.bytes_of "old")], SampleExecution.file)
  | other => SampleExecution.oracle l other
  end.
Definition resolved_sample : ResolvedPatch := match resolved doc with Ok p => p | Err _ => {| resolved_options := options;
  resolved_root := []; resolved_document := doc; resolved_manifest := []; resolved_sources := ∅; resolved_parents := ∅; resolved_hunks := 0 |} end.
Lemma sample_is_resolved : resolve_patch id sample r options doc = Ok resolved_sample.
Proof. unfold resolved_sample, resolved. destruct (resolve_patch id sample r options doc) eqn:Hr; [done|vm_compute in Hr; discriminate]. Defined.
Definition prepared : log * result PrepareError PreparedPatch := run oracle (prepare_resolved digest resolved_sample) [].

Lemma patch_prepared_witness :
  resolution id sample r doc resolved_sample ∧
  (same_effects [] prepared.1 ∧ quiet [] prepared.1 ∧ ∀ q, prepared.2 = Ok q →
     preparation digest resolved_sample prepared.1 q ∧ (public (resolved_manifest resolved_sample) → executable digest q)) ∧
  match prepared.2 with
  | Ok q => (change_source <$> planned_operations (prepared_plan q), prepared_snapshot_bytes q, prepared_output_bytes q)
  | Err _ => ([], 0, 0)
  end = ([lit "a/file"; lit "a/x"], 3, 4).
Proof.
  destruct (patch_prepared id sample (lit "/home/ws") r r options doc resolved_sample digest [] ltac:(vm_compute; reflexivity) eq_refl
    sample_is_resolved) as [H1 H2].
  split; [exact H1|]. split; [|vm_compute; reflexivity]. apply (wp_run oracle) in H2; [exact H2|vm_compute; reflexivity].
Defined.
End SamplePrepare.
