(* ===== verification/TaskReview.v ===== *)
(** * Reviews of task results

    Models [crates/tasks/src/review.rs]: what the advice of reviewers allows under
    the policy of a task, and when a review event resolves a candidate; the
    operations of [crates/tasks/src/service.rs] that record such events; and how
    the database commits them, in [crates/crud/src/repositories/] and
    [task_projector.rs]. A step relation interleaves the operations between their
    queries and their transaction. Weights of reviewers are floats of 64 bits. *)
From Stdlib Require Import SpecFloat.
From S2P Require Import Prelude Ordered Utf8 Decimal PatchGuards.
Local Open Scope N_scope.

(** ** Floats of 64 bits

    [f64::max] answers the other argument of a NaN. The sign of a zero, which it and
    the start of a sum leave open, makes no difference to a comparison. *)
Abbreviation f64 := spec_float.
Definition f64_add : f64 → f64 → f64 := SFadd 53 1024.
Definition f64_div : f64 → f64 → f64 := SFdiv 53 1024.
Definition is_nan (a : f64) : bool := match a with S754_nan => true | _ => false end.
Definition f64_max (a b : f64) : f64 := if is_nan a then b else if is_nan b then a else if SFltb a b then b else a.
Definition f64_zero : f64 := S754_zero false.
Definition f64_one : f64 := S754_finite false 4503599627370496 (-52).
Definition f64_two : f64 := S754_finite false 4503599627370496 (-51).

(** ** Policies, events and candidates ([crates/protocol/src/task.rs]) *)
Inductive ReviewerKind := RuntimeAuto | ParentAgent | ReviewAgent | User | System.
#[export] Instance ReviewerKind_eq_dec : EqDecision ReviewerKind.
Proof. solve_decision. Defined.
Inductive ReviewerRef := Principal (id : text) | AgentExecution (id : text) | RuntimePolicy.
#[export] Instance ReviewerRef_eq_dec : EqDecision ReviewerRef.
Proof. solve_decision. Defined.
Inductive EventKind := Advisory | DecisionEvent | Override | SystemAuto.
#[export] Instance EventKind_eq_dec : EqDecision EventKind.
Proof. solve_decision. Defined.
Inductive ReviewDecision := Accept | RequestChanges | Reject | Abstain | Cancel.
#[export] Instance ReviewDecision_eq_dec : EqDecision ReviewDecision.
Proof. solve_decision. Defined.
Inductive CandidateStatus := PendingReview | Accepted | Rejected | Superseded | ExtractionFailed | Cancelled.
#[export] Instance CandidateStatus_eq_dec : EqDecision CandidateStatus.
Proof. solve_decision. Defined.
Inductive ReviewMode := ModeNone | ModeParentAgent | ModeParentAgentWithReviewers | ModeUserApproval.
#[export] Instance ReviewMode_eq_dec : EqDecision ReviewMode.
Proof. solve_decision. Defined.
Inductive ResolutionStrategy :=
  | ParentFinal | UserFinal | RequireAllRequiredReviewersThenParent | QuorumThenParent | AnyRequiredReviewerCanRequestChanges.
#[export] Instance ResolutionStrategy_eq_dec : EqDecision ResolutionStrategy.
Proof. solve_decision. Defined.

Record ReviewerSpec := {
  spec_kind : ReviewerKind;
  agent_nickname : option text;
  agent_role : option text;
  required : bool;
  weight : option f64;
}.
Record ReviewPolicy := {
  mode : ReviewMode;
  max_revision_rounds : N;
  require_explicit_acceptance : bool;
  reviewers : list ReviewerSpec;
  resolution_strategy : ResolutionStrategy;
}.
Definition is_enabled (p : ReviewPolicy) : bool := negb (bool_decide (mode p = ModeNone)).

(** The JSON of a feedback and the number of a confidence are stored and compared
    only. *)
Record ReviewEvent := {
  event_id : text;
  event_candidate : text;
  event_task : text;
  event_run : text;
  event_turn : text;
  reviewer_kind : ReviewerKind;
  reviewer : ReviewerRef;
  reviewer_thread_id : option text;
  reviewer_turn_id : option text;
  reviewer_user_id : option text;
  reviewer_agent_spec_id : option text;
  event_kind : EventKind;
  decision : ReviewDecision;
  feedback_text : option text;
  feedback : option string;
  confidence : option string;
  supersedes : option text;
  next_turn : option text;
  event_created_at : Z;
}.
#[export] Instance ReviewEvent_eq_dec : EqDecision ReviewEvent.
Proof. solve_decision. Defined.

(** [content] stands for the result, the error of its extraction, the summary and
    the diagnostics, which no review looks into. *)
Record Candidate := {
  candidate_id : text;
  candidate_task : text;
  candidate_run : text;
  candidate_turn : text;
  candidate_thread : text;
  candidate_thread_turn : text;
  candidate_round : N;
  candidate_status : CandidateStatus;
  content : string;
  final_event : option text;
  candidate_created_at : Z;
  candidate_updated_at : Z;
  candidate_resolved_at : option Z;
}.
#[export] Instance Candidate_eq_dec : EqDecision Candidate.
Proof. solve_decision. Defined.

(** ** Keys and identifiers *)
Record ReviewActor := {
  actor_kind : ReviewerKind;
  actor : ReviewerRef;
  actor_thread : option text;
  actor_turn : option text;
  actor_user : option text;
  actor_spec : option text;
}.
Definition policy_actor (kind : ReviewerKind) : ReviewActor :=
  {| actor_kind := kind; actor := RuntimePolicy; actor_thread := None; actor_turn := None; actor_user := None; actor_spec := None |}.
Definition runtime_auto : ReviewActor := policy_actor RuntimeAuto.
Definition system : ReviewActor := policy_actor System.

(** The name that [{:?}] prints. *)
Definition kind_name (k : ReviewerKind) : text :=
  lit match k with RuntimeAuto => "RuntimeAuto" | ParentAgent => "ParentAgent" | ReviewAgent => "ReviewAgent" | User => "User"
             | System => "System" end.
Definition review_actor_label (k : ReviewerKind) : text :=
  lit match k with RuntimeAuto => "runtime_auto" | ParentAgent => "parent_agent" | ReviewAgent => "review_agent" | User => "user"
             | System => "system" end.
Definition review_event_kind_label (k : EventKind) : text :=
  lit match k with Advisory => "advisory" | DecisionEvent => "decision" | Override => "override" | SystemAuto => "system_auto" end.
Definition review_decision_label (d : ReviewDecision) : text :=
  lit match d with Accept => "accept" | RequestChanges => "request_changes" | Reject => "reject" | Abstain => "abstain"
             | Cancel => "cancel" end.

Section reviews.
(** SHA-256. *)
Context (digest : list N → list N) `{Hex : HexCodec}.

Definition task_result_reviewer_spec_key (index : N) (spec : ReviewerSpec) : text :=
  let hashed := into_bytes (display_u64 index ++ lit ":" ++ kind_name (spec_kind spec) ++ lit ":" ++
                            default [] (agent_nickname spec) ++ lit ":" ++ default [] (agent_role spec)) in
  lit "reviewer_" ++ display_u64 index ++ lit "_" ++ take 16 (hex_encode (digest hashed)).
Definition stable_hash (parts : list text) (len : nat) : text :=
  take len (hex_encode (digest (parts ≫= λ part, into_bytes part ++ [0]))).
Definition stable_short_id (prefix : text) (parts : list text) : text := prefix ++ stable_hash parts 18.
Definition stable_review_thread_id (candidate key : text) : text := stable_short_id (lit "rvt") [candidate; key].
Definition stable_review_turn_id (candidate key : text) : text := stable_short_id (lit "rvu") [candidate; key].
Definition stable_review_event_id (c : Candidate) (a : ReviewActor) (k : EventKind) (d : ReviewDecision) : text :=
  lit "trre_" ++
  match actor_turn a with
  | Some turn => stable_hash [candidate_id c; turn] 24
  | None =>
      match actor_user a with
      | Some user => stable_hash [candidate_id c; lit "user"; user; review_event_kind_label k; review_decision_label d] 24
      | None => stable_hash [candidate_id c; review_actor_label (actor_kind a); review_event_kind_label k; review_decision_label d] 24
      end
  end.

(** ** Advice *)
Fixpoint keyed_from (index : N) (specs : list ReviewerSpec) : list (text * ReviewerSpec) :=
  match specs with
  | [] => []
  | spec :: specs => (task_result_reviewer_spec_key index spec, spec) :: keyed_from (index + 1) specs
  end.
(** [enumerate] over the reviewers, with their keys. *)
Definition keyed (p : ReviewPolicy) : list (text * ReviewerSpec) := keyed_from 0 (reviewers p).

Definition reviewer_event_key (p : ReviewPolicy) (e : ReviewEvent) : option text :=
  match reviewer_agent_spec_id e with
  | Some key => Some key
  | None => fst <$> find (λ '(_, spec), bool_decide (spec_kind spec = reviewer_kind e)) (keyed p)
  end.
Definition take_advice (p : ReviewPolicy) (latest : gmap text ReviewEvent) (e : ReviewEvent) : gmap text ReviewEvent :=
  if decide (event_kind e = Advisory) then
    match reviewer_event_key p e with
    | Some key => if decide (key ∈ (keyed p).*1) then <[key := e]> latest else latest
    | None => latest
    end
  else latest.
Definition latest_advisory_by_reviewer (p : ReviewPolicy) (events : list ReviewEvent) : gmap text ReviewEvent :=
  foldl (take_advice p) ∅ events.
Definition missing_required_reviewers (p : ReviewPolicy) (latest : gmap text ReviewEvent) : list text :=
  filter (λ key, latest !! key = None) (filter (λ r, required (snd r) = true) (keyed p)).*1.
Definition objects (d : ReviewDecision) : bool := bool_decide (d = RequestChanges ∨ d = Reject).
Definition required_reviewer_request_changes (p : ReviewPolicy) (latest : gmap text ReviewEvent) : bool :=
  existsb (λ '(key, spec), required spec && match latest !! key with Some e => objects (decision e) | None => false end) (keyed p).

Inductive AdvisoryClass := ClassAccept | ClassRequestChanges | ClassAbstain.
#[export] Instance AdvisoryClass_eq_dec : EqDecision AdvisoryClass.
Proof. solve_decision. Defined.
Definition advisory_class (d : ReviewDecision) : AdvisoryClass :=
  match d with Accept => ClassAccept | RequestChanges | Reject | Cancel => ClassRequestChanges | Abstain => ClassAbstain end.
Definition weight_of (spec : ReviewerSpec) : f64 := f64_max (default f64_one (weight spec)) f64_zero.
(** The weights of the reviewers whose last advice is of a class. *)
Definition add_weight (latest : gmap text ReviewEvent) (class : AdvisoryClass) (sum : f64) (r : text * ReviewerSpec) : f64 :=
  match latest !! fst r with
  | Some e => if decide (advisory_class (decision e) = class) then f64_add sum (weight_of (snd r)) else sum
  | None => sum
  end.
Definition weight_for (p : ReviewPolicy) (latest : gmap text ReviewEvent) (class : AdvisoryClass) : f64 :=
  foldl (add_weight latest class) f64_zero (keyed p).
Definition total_weight (p : ReviewPolicy) : f64 :=
  f64_max (foldl (λ sum spec, f64_add sum (weight_of spec)) f64_zero (reviewers p)) f64_one.
Definition quorum_state (p : ReviewPolicy) (latest : gmap text ReviewEvent) : bool * option ReviewDecision :=
  if decide (reviewers p = []) then (true, None)
  else
    let threshold := f64_div (total_weight p) f64_two in
    if SFltb threshold (weight_for p latest ClassAccept) then (true, Some Accept)
    else if SFltb threshold (weight_for p latest ClassRequestChanges) then (true, Some RequestChanges)
    else (false, None).

(** ** What the advice allows *)
Inductive BlockReason := MissingRequiredReviewers (keys : list text) | QuorumNotReached.
Record ResolutionState := {
  strategy : ResolutionStrategy;
  parent_final_allowed : bool;
  user_final_allowed : bool;
  advisory_can_resolve : bool;
  required_reviewers_satisfied : bool;
  quorum_satisfied : bool;
  recommended_advisory_decision : option ReviewDecision;
  blocking_reasons : list BlockReason;
}.
Definition evaluate_task_result_review_resolution (policy : option ReviewPolicy) (events : list ReviewEvent) : ResolutionState :=
  match policy with
  | None =>
      {| strategy := ParentFinal; parent_final_allowed := true; user_final_allowed := false; advisory_can_resolve := false;
         required_reviewers_satisfied := true; quorum_satisfied := true; recommended_advisory_decision := None;
         blocking_reasons := [] |}
  | Some p =>
      let latest := latest_advisory_by_reviewer p events in
      let missing := missing_required_reviewers p latest in
      let satisfied := bool_decide (missing = []) in
      let quorum := quorum_state p latest in
      let objection := required_reviewer_request_changes p latest in
      let s := resolution_strategy p in
      {| strategy := s;
         parent_final_allowed :=
           match s with
           | ParentFinal => true
           | UserFinal => false
           | RequireAllRequiredReviewersThenParent => satisfied
           | QuorumThenParent => fst quorum
           | AnyRequiredReviewerCanRequestChanges => satisfied || objection
           end;
         user_final_allowed := bool_decide (s = UserFinal) || bool_decide (mode p = ModeUserApproval);
         advisory_can_resolve := bool_decide (s = AnyRequiredReviewerCanRequestChanges) && objection;
         required_reviewers_satisfied := satisfied; quorum_satisfied := fst quorum;
         recommended_advisory_decision :=
           if bool_decide (s = AnyRequiredReviewerCanRequestChanges) && objection then Some RequestChanges else snd quorum;
         blocking_reasons :=
           (if satisfied then [] else [MissingRequiredReviewers missing]) ++
           (if bool_decide (s = QuorumThenParent) && negb (fst quorum) then [QuorumNotReached] else []) |}
  end.

Inductive FinalActor := ActorParentAgent | ActorUser | ActorRuntimeAuto | ActorSystem | ActorReviewAgent.
Definition final_actor_for_reviewer_kind (k : ReviewerKind) : FinalActor :=
  match k with ParentAgent => ActorParentAgent | User => ActorUser | RuntimeAuto => ActorRuntimeAuto | System => ActorSystem
          | ReviewAgent => ActorReviewAgent end.
Definition final_actor_allowed (a : FinalActor) (s : ResolutionState) : bool :=
  match a with
  | ActorParentAgent => parent_final_allowed s
  | ActorUser => user_final_allowed s
  | ActorRuntimeAuto | ActorSystem => true
  | ActorReviewAgent => advisory_can_resolve s
  end.
Definition review_event_can_resolve (e : ReviewEvent) (s : ResolutionState) : bool :=
  match event_kind e with
  | Advisory => advisory_can_resolve s && objects (decision e)
  | DecisionEvent | Override => final_actor_allowed (final_actor_for_reviewer_kind (reviewer_kind e)) s
  | SystemAuto => true
  end.

Record CandidateResolution := { resolution_status : CandidateStatus; resolution_event : text; resolved_at : Z }.
Definition status_of (d : ReviewDecision) : option CandidateStatus :=
  match d with Accept => Some Accepted | RequestChanges | Reject => Some Rejected | Cancel => Some Cancelled | Abstain => None end.
Definition with_event (prior : list ReviewEvent) (e : ReviewEvent) : list ReviewEvent :=
  if existsb (λ x, bool_decide (event_id x = event_id e)) prior then prior else prior ++ [e].
Definition review_event_candidate_resolution (c : Candidate) (e : ReviewEvent) (policy : option ReviewPolicy)
    (prior : list ReviewEvent) (at_time : Z) : option CandidateResolution :=
  if review_event_can_resolve e (evaluate_task_result_review_resolution policy (with_event prior e)) then
    status ← status_of (decision e);
    Some {| resolution_status := status; resolution_event := event_id e;
            resolved_at := Z.max at_time (candidate_created_at c) |}
  else None.

(** ** Recording a review ([service.rs]) *)
Record ReviewParams := {
  params_event_id : option text;
  params_actor : ReviewActor;
  params_kind : EventKind;
  params_decision : ReviewDecision;
  params_feedback_text : option text;
  params_feedback : option string;
  params_confidence : option string;
  params_supersedes : option text;
  params_next_turn : option text;
}.
Definition build_task_result_review_event (c : Candidate) (params : ReviewParams) (created_at : Z) : ReviewEvent :=
  let a := params_actor params in
  {| event_id := default (stable_review_event_id c a (params_kind params) (params_decision params)) (params_event_id params);
     event_candidate := candidate_id c; event_task := candidate_task c; event_run := candidate_run c; event_turn := candidate_turn c;
     reviewer_kind := actor_kind a; reviewer := actor a; reviewer_thread_id := actor_thread a; reviewer_turn_id := actor_turn a;
     reviewer_user_id := actor_user a; reviewer_agent_spec_id := actor_spec a; event_kind := params_kind params;
     decision := params_decision params; feedback_text := params_feedback_text params; feedback := params_feedback params;
     confidence := params_confidence params; supersedes := params_supersedes params; next_turn := params_next_turn params;
     event_created_at := created_at |}.

Definition reviewer_matches (e : ReviewEvent) : bool :=
  match reviewer_kind e, reviewer e with
  | (ParentAgent | ReviewAgent), AgentExecution _ => true
  | User, Principal id => bool_decide (reviewer_user_id e = Some id)
  | (RuntimeAuto | System), RuntimePolicy => true
  | _, _ => false
  end.
Definition validate_review_event_for_candidate (c : Candidate) (e : ReviewEvent) : bool :=
  bool_decide (event_candidate e = candidate_id c ∧ event_task e = candidate_task c ∧ event_run e = candidate_run c ∧
               event_turn e = candidate_turn c) &&
  negb (bool_decide (reviewer_thread_id e = Some (candidate_thread c))) && reviewer_matches e.
Definition is_resolved (s : CandidateStatus) : bool := bool_decide (s = Accepted ∨ s = Rejected ∨ s = Cancelled).
Definition validate_review_event_actor (policy : option ReviewPolicy) (prior : list ReviewEvent) (c : Candidate) (e : ReviewEvent) : bool :=
  let state := evaluate_task_result_review_resolution policy prior in
  negb (is_resolved (candidate_status c) && negb (bool_decide (event_kind e = Override))) &&
  match event_kind e with
  | Advisory | SystemAuto => true
  | DecisionEvent | Override =>
      final_actor_allowed (final_actor_for_reviewer_kind (reviewer_kind e)) state
      || bool_decide (reviewer_kind e = RuntimeAuto ∨ reviewer_kind e = System)
  end.
Definition supersede (id : option text) (e : ReviewEvent) : ReviewEvent :=
  {| event_id := event_id e; event_candidate := event_candidate e; event_task := event_task e; event_run := event_run e;
     event_turn := event_turn e; reviewer_kind := reviewer_kind e; reviewer := reviewer e; reviewer_thread_id := reviewer_thread_id e;
     reviewer_turn_id := reviewer_turn_id e; reviewer_user_id := reviewer_user_id e; reviewer_agent_spec_id := reviewer_agent_spec_id e;
     event_kind := event_kind e; decision := decision e; feedback_text := feedback_text e; feedback := feedback e;
     confidence := confidence e; supersedes := id; next_turn := next_turn e; event_created_at := event_created_at e |}.
Definition resolve_candidate (c : Candidate) (res : CandidateResolution) : Candidate :=
  {| candidate_id := candidate_id c; candidate_task := candidate_task c; candidate_run := candidate_run c;
     candidate_turn := candidate_turn c; candidate_thread := candidate_thread c; candidate_thread_turn := candidate_thread_turn c;
     candidate_round := candidate_round c; candidate_status := resolution_status res; content := content c;
     final_event := Some (resolution_event res); candidate_created_at := candidate_created_at c;
     candidate_updated_at := resolved_at res; candidate_resolved_at := Some (resolved_at res) |}.

(** The events that tell of a review, as the database gets them. *)
Inductive Payload :=
  | ReviewRecorded (e : ReviewEvent)
  | CandidateCreated (c : Candidate)
  | CandidateAccepted (c : Candidate) (review : text)
  | CandidateRejected (c : Candidate) (review : text)
  | CandidateCancelled (c : Candidate) (review : text).
#[export] Instance Payload_eq_dec : EqDecision Payload.
Proof. solve_decision. Defined.
Definition candidate_resolution_event (c : Candidate) (res : CandidateResolution) : Payload :=
  match resolution_status res with
  | Accepted => CandidateAccepted c (resolution_event res)
  | Rejected => CandidateRejected c (resolution_event res)
  | Cancelled => CandidateCancelled c (resolution_event res)
  | PendingReview | Superseded | ExtractionFailed => CandidateCreated c
  end.

(** [record_task_result_review_event], after its queries. *)
Definition record_review (policy : option ReviewPolicy) (params : ReviewParams) (now : Z) (c : Candidate) (prior : list ReviewEvent)
    : option (list Payload) :=
  let e := build_task_result_review_event c params now in
  if validate_review_event_for_candidate c e && validate_review_event_actor policy prior c e then
    let e := if bool_decide (supersedes e = None) && bool_decide (event_kind e = DecisionEvent ∨ event_kind e = Override)
             then supersede (final_event c) e else e in
    Some (ReviewRecorded e ::
      match review_event_candidate_resolution c e policy prior now with
      | Some res => [candidate_resolution_event (resolve_candidate c res) res]
      | None => []
      end)
  else None.
(** [resolve_task_result_candidate_from_review_event]. *)
Definition resolve_from_review_event (policy : option ReviewPolicy) (now : Z) (e : ReviewEvent) (c : Candidate) (prior : list ReviewEvent)
    : list Payload :=
  match review_event_candidate_resolution c e policy prior now with
  | None => []
  | Some res =>
      if decide (final_event c = Some (event_id e) ∧ candidate_status c = resolution_status res) then []
      else [candidate_resolution_event (resolve_candidate c res) res]
  end.
(** The rejection with which the parent agent asks for a revision. *)
Definition revise_params (a : ReviewActor) (feedback : text) (additional : option string) (turn : text) : ReviewParams :=
  {| params_event_id := None; params_actor := a; params_kind := DecisionEvent; params_decision := RequestChanges;
     params_feedback_text := Some feedback; params_feedback := additional; params_confidence := None; params_supersedes := None;
     params_next_turn := Some turn |}.
Definition revise (policy : option ReviewPolicy) (params : ReviewParams) (now : Z) (c : Candidate) (prior : list ReviewEvent)
    : option (list Payload) :=
  let e := build_task_result_review_event c params now in
  if validate_review_event_for_candidate c e && validate_review_event_actor policy prior c e then
    res ← review_event_candidate_resolution c e policy prior now;
    if decide (resolution_status res = Rejected) then
      Some [ReviewRecorded e; CandidateRejected (resolve_candidate c res) (event_id e)]
    else None
  else None.
Definition cancel_review_event_for_candidate (c : Candidate) (reason : text) (created_at : Z) : ReviewEvent :=
  {| event_id := lit "task_result_review_cancel_" ++ candidate_id c; event_candidate := candidate_id c; event_task := candidate_task c;
     event_run := candidate_run c; event_turn := candidate_turn c; reviewer_kind := System; reviewer := RuntimePolicy;
     reviewer_thread_id := None; reviewer_turn_id := None; reviewer_user_id := None; reviewer_agent_spec_id := None;
     event_kind := DecisionEvent; decision := Cancel; feedback_text := Some reason; feedback := None; confidence := None;
     supersedes := final_event c; next_turn := None; event_created_at := created_at |}.
Definition cancel_waiting_review (reason : text) (now : Z) (c : Candidate) : list Payload :=
  if decide (candidate_status c = PendingReview ∨ candidate_status c = ExtractionFailed) then
    let e := cancel_review_event_for_candidate c reason now in
    let res := {| resolution_status := Cancelled; resolution_event := event_id e; resolved_at := now |} in
    [ReviewRecorded e; CandidateCancelled (resolve_candidate c res) (event_id e)]
  else [].

(** ** Committing ([crates/crud/src/])

    The row of the candidate, the reviews stored by their identifiers, and the
    events of the task by their idempotency keys. *)
Record Db := { row : Candidate; reviews : gmap text ReviewEvent; journal : gmap (N * text) Payload }.

Definition idempotency_key (p : Payload) : N * text :=
  match p with
  | ReviewRecorded e => (0, event_id e)
  | CandidateCreated c => (1, candidate_thread_turn c)
  | CandidateAccepted _ review => (2, review)
  | CandidateRejected _ review => (3, review)
  | CandidateCancelled _ review => (4, review)
  end.
Definition upsert_review_event (d : Db) (e : ReviewEvent) : option Db :=
  match reviews d !! event_id e with
  | None => Some {| row := row d; reviews := <[event_id e := e]> (reviews d); journal := journal d |}
  | Some stored => if decide (stored = e) then Some d else None
  end.
Definition same_identity (c c' : Candidate) : bool :=
  bool_decide (candidate_id c = candidate_id c' ∧ candidate_task c = candidate_task c' ∧ candidate_run c = candidate_run c' ∧
    candidate_turn c = candidate_turn c' ∧ candidate_thread c = candidate_thread c' ∧ candidate_thread_turn c = candidate_thread_turn c' ∧
    candidate_round c = candidate_round c' ∧ candidate_created_at c = candidate_created_at c').
Definition is_terminal (s : CandidateStatus) : bool := bool_decide (s = Accepted ∨ s = Rejected ∨ s = Superseded ∨ s = Cancelled).
Definition authorized_override (d : Db) (expected : Candidate) : bool :=
  match final_event expected, candidate_resolved_at expected with
  | Some review, Some _ =>
      match reviews d !! review with
      | Some e => bool_decide (event_candidate e = candidate_id expected ∧ supersedes e = final_event (row d))
      | None => false
      end
  | _, _ => false
  end.
(** The row is there already. *)
Definition upsert_candidate (d : Db) (expected : Candidate) : option Db :=
  let current := row d in
  if same_identity current expected then
    let current_terminal := is_terminal (candidate_status current) in
    let expected_terminal := is_terminal (candidate_status expected) in
    if current_terminal && negb expected_terminal then Some d
    else if current_terminal && negb (bool_decide (candidate_status current = candidate_status expected)) &&
            negb (authorized_override d expected) then None
    else Some {| row := expected; reviews := reviews d; journal := journal d |}
  else None.
Definition update_candidate_resolution (d : Db) (status : CandidateStatus) (review : text) (at_time updated_at : Z) : option Db :=
  let current := row d in
  if decide (candidate_status current = PendingReview ∨ candidate_status current = ExtractionFailed) then
    Some {| row := {| candidate_id := candidate_id current; candidate_task := candidate_task current;
                      candidate_run := candidate_run current; candidate_turn := candidate_turn current;
                      candidate_thread := candidate_thread current; candidate_thread_turn := candidate_thread_turn current;
                      candidate_round := candidate_round current; candidate_status := status; content := content current;
                      final_event := Some review; candidate_created_at := candidate_created_at current;
                      candidate_updated_at := updated_at; candidate_resolved_at := Some at_time |};
            reviews := reviews d; journal := journal d |}
  else if decide (candidate_status current = status ∧ final_event current = Some review ∧ candidate_resolved_at current = Some at_time)
  then Some d
  else None.
Definition project_resolution (d : Db) (status : CandidateStatus) (c : Candidate) (review : text) (created_at : Z) : option Db :=
  d ← upsert_candidate d c;
  let at_time := default created_at (candidate_resolved_at c) in
  update_candidate_resolution d status review at_time (Z.max (candidate_updated_at c) at_time).
Definition project (d : Db) (p : Payload) (created_at : Z) : option Db :=
  match p with
  | ReviewRecorded e => upsert_review_event d e
  | CandidateCreated c => upsert_candidate d c
  | CandidateAccepted c review => project_resolution d Accepted c review created_at
  | CandidateRejected c review => project_resolution d Rejected c review created_at
  | CandidateCancelled c review => project_resolution d Cancelled c review created_at
  end.
(** An event that is there is not projected again, and must be the same. *)
Definition append_event (created_at : Z) (d : Db) (p : Payload) : option Db :=
  match journal d !! idempotency_key p with
  | Some existing => if decide (existing = p) then Some d else None
  | None =>
      d ← project d p created_at;
      Some {| row := row d; reviews := reviews d; journal := <[idempotency_key p := p]> (journal d) |}
  end.
(** One transaction: it fails as a whole. *)
Definition append_events (created_at : Z) (d : Db) (ps : list Payload) : option Db :=
  foldl (λ d p, d ← d; append_event created_at d p) (Some d) ps.
Definition listed (e : ReviewEvent) : Z * text := (event_created_at e, event_id e).

(** ** The operations, interleaved

    Every operation makes its queries one after the other and then commits; others
    may commit in between. The policy is that of the run, the clock may show
    anything. Left out are what only refuses an operation, such as the checks of
    the actor's threads and of the number of rounds, and the events of other kinds
    in the transaction: an operation they stop is one that never moves on. The
    transaction's own time matters to a candidate without a time of resolution
    only. *)
Context (policy : option ReviewPolicy).
Inductive operation :=
  | RecordReview (params : ReviewParams)
  | ResolveFromReviewEvent (id : text)
  | AskRevision (a : ReviewActor) (asked : text) (additional : option string) (turn : text)
  | CancelWaitingReview (reason : text)
  | SaveCandidate (extracted : bool) (saved : string).
Inductive phase :=
  | Started (op : operation)
  | SawEvent (op : operation) (e : ReviewEvent)
  | SawCandidate (op : operation) (found : option ReviewEvent) (c : Candidate)
  | Ready (ps : list Payload) (now : Z)
  | Ended (committed : bool).

(** The candidate a run saves: not yet reviewed. *)
Definition saved_candidate (c : Candidate) (extracted : bool) (saved : string) (now : Z) : Candidate :=
  {| candidate_id := candidate_id c; candidate_task := candidate_task c; candidate_run := candidate_run c;
     candidate_turn := candidate_turn c; candidate_thread := candidate_thread c; candidate_thread_turn := candidate_thread_turn c;
     candidate_round := candidate_round c; candidate_status := if extracted then PendingReview else ExtractionFailed; content := saved;
     final_event := None; candidate_created_at := candidate_created_at c; candidate_updated_at := now; candidate_resolved_at := None |}.
#[local] Instance ordered_Z : Ordered Z := Z.compare.
Definition stored_events (d : Db) : list ReviewEvent := sort_on listed (map_to_list (reviews d)).*2.
Definition prepare_payloads (op : operation) (found : option ReviewEvent) (c : Candidate) (prior : list ReviewEvent) (now : Z)
    : option (list Payload) :=
  match op with
  | RecordReview params => record_review policy params now c prior
  | ResolveFromReviewEvent _ => match found with Some e => Some (resolve_from_review_event policy now e c prior) | None => None end
  | AskRevision a asked additional turn => revise policy (revise_params a asked additional turn) now c prior
  | CancelWaitingReview reason => Some (cancel_waiting_review reason now c)
  | SaveCandidate extracted saved => Some [CandidateCreated (saved_candidate c extracted saved now)]
  end.
(** One query or the transaction. *)
Definition advance (d : Db) (now : Z) (ph : phase) : phase * Db :=
  match ph with
  | Started (ResolveFromReviewEvent id as op) =>
      match reviews d !! id with Some e => (SawEvent op e, d) | None => (Ended true, d) end
  | Started op => (SawCandidate op None (row d), d)
  | SawEvent op e => (SawCandidate op (Some e) (row d), d)
  | SawCandidate op found c =>
      match prepare_payloads op found c (stored_events d) now with Some ps => (Ready ps now, d) | None => (Ended false, d) end
  | Ready ps created_at =>
      match append_events created_at d ps with Some d' => (Ended true, d') | None => (Ended false, d) end
  | Ended ok => (Ended ok, d)
  end.

(** A batch goes to the database in transactions of at most 64 events. The
    cancellation of a task with many runs may be cut between the events of one
    candidate; what is shown holds wherever a batch is cut. *)
Definition commit_first (d : Db) (ph : phase) : phase * Db :=
  match ph with
  | Ready (p :: ps) created_at =>
      match append_event created_at d p with Some d' => (Ready ps created_at, d') | None => (Ended false, d) end
  | _ => (ph, d)
  end.

(** [finals] is the history of the final events of the candidate. *)
Record system_state := { db : Db; running : list phase; finals : list ReviewEvent }.
Definition final_change (d d' : Db) : list ReviewEvent :=
  if decide (final_event (row d) = final_event (row d')) then []
  else match final_event (row d') with Some id => option_list (reviews d' !! id) | None => [] end.
Definition settle (s : system_state) (i : nat) (next : phase * Db) : system_state :=
  {| db := snd next; running := <[i := fst next]> (running s); finals := finals s ++ final_change (db s) (snd next) |}.
Inductive step : system_state → system_state → Prop :=
  | step_start s op : step s {| db := db s; running := running s ++ [Started op]; finals := finals s |}
  | step_run s i ph now : running s !! i = Some ph → step s (settle s i (advance (db s) now ph))
  | step_cut s i ph : running s !! i = Some ph → step s (settle s i (commit_first (db s) ph)).
Definition initial (c : Candidate) : system_state :=
  let created := CandidateCreated c in
  {| db := {| row := c; reviews := ∅; journal := {[idempotency_key created := created]} |}; running := []; finals := [] |}.
End reviews.

(** ** What the advice means *)
Section advice.
Context (digest : list N → list N) `{Hex : HexCodec}.
Implicit Types (p : ReviewPolicy) (events : list ReviewEvent) (e : ReviewEvent).

Definition advises p key e : Prop := event_kind e = Advisory ∧ reviewer_event_key digest p e = Some key.
#[export] Instance advises_dec p key e : Decision (advises p key e).
Proof. unfold advises. apply _. Defined.
(** The last advice of a reviewer of the policy. *)
Definition opinion p events (key : text) : option ReviewEvent :=
  if decide (key ∈ (keyed digest p).*1) then last (filter (advises p key) events) else None.

Lemma take_advice_lookup p latest e key :
  take_advice digest p latest e !! key =
  if decide (advises p key e ∧ key ∈ (keyed digest p).*1) then Some e else latest !! key.
Proof.
  case_decide as Ha; unfold take_advice.
  - destruct Ha as [[Hadv ->] Hin]. rewrite !decide_True by done. apply lookup_insert_eq.
  - case_decide as Hadv; [|done]. destruct (reviewer_event_key digest p e) as [key'|] eqn:Hkey; [|done]. case_decide; [|done].
    rewrite lookup_insert_ne; [done|]. intros ->. apply Ha. by split.
Qed.
Lemma latest_opinion p events key : latest_advisory_by_reviewer digest p events !! key = opinion p events key.
Proof.
  unfold latest_advisory_by_reviewer, opinion. induction events as [|e events IH] using rev_ind; [by case_decide|].
  rewrite foldl_app, filter_app. cbn [foldl]. rewrite take_advice_lookup, IH, filter_cons, filter_nil.
  destruct (decide (advises p key e)) as [Ha|Ha].
  - rewrite last_snoc. case_decide as Hin; [by rewrite decide_True|]. by rewrite decide_False by tauto.
  - rewrite app_nil_r. by rewrite (decide_False (P := advises p key e ∧ _)) by tauto.
Qed.

Definition objecting e : Prop := decision e = RequestChanges ∨ decision e = Reject.
(** A required reviewer objects, and every required reviewer has said something. *)
Definition required_objection p events : Prop :=
  ∃ key spec e, (key, spec) ∈ keyed digest p ∧ required spec = true ∧ opinion p events key = Some e ∧ objecting e.
Definition all_required_advised p events : Prop :=
  ∀ key spec, (key, spec) ∈ keyed digest p → required spec = true → is_Some (opinion p events key).
(** The reviewers of a class have more than half of the weight. *)
Definition in_class p events (class : AdvisoryClass) (r : text * ReviewerSpec) : Prop :=
  (λ e, advisory_class (decision e)) <$> opinion p events (fst r) = Some class.
#[export] Instance in_class_dec p events class r : Decision (in_class p events class r).
Proof. unfold in_class. apply _. Defined.
Definition majority p events (class : AdvisoryClass) : Prop :=
  SFltb (f64_div (total_weight p) f64_two)
    (foldl f64_add f64_zero ((λ r, weight_of (snd r)) <$> filter (in_class p events class) (keyed digest p))) = true.
Definition quorum p events : Prop := reviewers p = [] ∨ majority p events ClassAccept ∨ majority p events ClassRequestChanges.

Lemma objects_true e : objects (decision e) = true ↔ objecting e.
Proof. apply bool_decide_eq_true. Qed.
Lemma objection_spec p events :
  required_reviewer_request_changes digest p (latest_advisory_by_reviewer digest p events) = true ↔ required_objection p events.
Proof.
  unfold required_reviewer_request_changes, required_objection. rewrite existsb_exists. split.
  - intros ([key spec] & Hin%list_elem_of_In & [Hr Ho]%andb_true_iff). rewrite latest_opinion in Ho.
    destruct (opinion p events key) as [e|] eqn:He; [|done]. exists key, spec, e. by rewrite <-objects_true.
  - intros (key & spec & e & Hin & Hr & He & Ho). exists (key, spec). split; [by apply list_elem_of_In|].
    rewrite latest_opinion, He, Hr. by apply objects_true.
Qed.
Lemma missing_spec p events :
  missing_required_reviewers digest p (latest_advisory_by_reviewer digest p events) = [] ↔ all_required_advised p events.
Proof.
  unfold missing_required_reviewers, all_required_advised. split.
  - intros Hm key spec Hin Hr. destruct (opinion p events key) as [e|] eqn:He; [by exists e|]. exfalso.
    assert (key ∈ @nil text) as []%elem_of_nil. rewrite <-Hm. apply list_elem_of_filter. rewrite latest_opinion. split; [done|].
    apply list_elem_of_fmap. exists (key, spec). split; [done|]. by apply list_elem_of_filter.
  - intros H. destruct (filter _ _) as [|key l] eqn:Hf; [done|]. exfalso.
    assert (key ∈ key :: l) as Hin by left. rewrite <-Hf in Hin. apply list_elem_of_filter in Hin as [Hnone Hin]. rewrite latest_opinion in Hnone.
    apply list_elem_of_fmap in Hin as ([key' spec] & -> & [Hr Hin]%list_elem_of_filter). destruct (H key' spec Hin Hr) as [e He]. simpl in *. congruence.
Qed.
Lemma weight_for_spec p events class :
  weight_for digest p (latest_advisory_by_reviewer digest p events) class =
  foldl f64_add f64_zero ((λ r, weight_of (snd r)) <$> filter (in_class p events class) (keyed digest p)).
Proof.
  unfold weight_for. generalize f64_zero as sum. generalize (keyed digest p) as rs.
  induction rs as [|r rs IH]; intros sum; [done|]. cbn [foldl]. rewrite IH. unfold add_weight. rewrite latest_opinion.
  rewrite filter_cons. case_decide as Hc; unfold in_class in Hc; destruct (opinion p events r.1) as [e|]; simpl in Hc; try done.
  - injection Hc as Hc. by rewrite decide_True.
  - by rewrite decide_False by congruence.
Qed.
Lemma quorum_spec p events : fst (quorum_state digest p (latest_advisory_by_reviewer digest p events)) = true ↔ quorum p events.
Proof.
  unfold quorum_state, quorum, majority. rewrite <-!weight_for_spec. case_decide as Hr; [naive_solver|].
  destruct (SFltb _ (weight_for _ _ _ ClassAccept)); [naive_solver|]. destruct (SFltb _ (weight_for _ _ _ ClassRequestChanges)); naive_solver.
Qed.

(** With no weights set, the reviewers of a class reach the quorum exactly when
    they are more than half. Sums of ones are exact as long as there are less than
    2^53; the bound here is what the comparisons below are computed for. *)
Definition ones (n : nat) : f64 := Nat.iter n (λ sum, f64_add sum f64_one) f64_zero.
Definition max_reviewers : nat := 64.
Definition more_than_half (total count : nat) : bool :=
  Bool.eqb (SFltb (f64_div (f64_max (ones total) f64_one) f64_two) (ones count)) (bool_decide (total < 2 * count)%nat).
Lemma more_than_half_computed :
  forallb (λ total, forallb (more_than_half total) (seq 0 (S total))) (seq 1 max_reviewers) = true.
Proof. vm_compute. reflexivity. Qed.
Lemma more_than_half_spec total count :
  (1 ≤ total ≤ max_reviewers)%nat → (count ≤ total)%nat →
  SFltb (f64_div (f64_max (ones total) f64_one) f64_two) (ones count) = bool_decide (total < 2 * count)%nat.
Proof.
  intros Ht Hc. pose proof more_than_half_computed as H. rewrite forallb_forall in H.
  specialize (H total). rewrite in_seq in H. specialize (H ltac:(lia)). rewrite forallb_forall in H.
  apply eqb_prop, (H count). apply in_seq. lia.
Qed.
Lemma sum_of_ones {A} (w : A → f64) (l : list A) : (∀ x, x ∈ l → w x = f64_one) → foldl f64_add f64_zero (w <$> l) = ones (length l).
Proof.
  induction l as [|x l IH] using rev_ind; [done|]. intros Hw. rewrite fmap_app, foldl_app, length_app, IH by (intros; apply Hw; set_solver).
  simpl. rewrite Nat.add_comm. simpl. rewrite Hw by set_solver. done.
Qed.
Lemma keyed_from_snd index specs : (keyed_from digest index specs).*2 = specs.
Proof. revert index. induction specs as [|spec specs IH]; intros index; [done|]. simpl. by rewrite IH. Qed.
Lemma majority_unweighted p events class :
  (∀ spec, spec ∈ reviewers p → weight spec = None) → (1 ≤ length (reviewers p) ≤ max_reviewers)%nat →
  majority p events class ↔ (length (reviewers p) < 2 * length (filter (in_class p events class) (keyed digest p)))%nat.
Proof.
  intros Hw Hlen. unfold majority, total_weight.
  assert (∀ spec, spec ∈ reviewers p → weight_of spec = f64_one) as Hone by (intros spec Hin; unfold weight_of; by rewrite Hw).
  pose proof (keyed_from_snd 0 (reviewers p)) as Hkeyed. fold (keyed digest p) in Hkeyed.
  pose proof (f_equal length Hkeyed) as Hlk. rewrite length_fmap in Hlk.
  replace (foldl (λ sum spec, f64_add sum (weight_of spec)) f64_zero (reviewers p)) with (ones (length (reviewers p))).
  2:{ symmetry. rewrite <-(sum_of_ones weight_of (reviewers p) Hone). by rewrite foldl_fmap. }
  rewrite (sum_of_ones (λ r, weight_of r.2)).
  - rewrite more_than_half_spec; [apply bool_decide_eq_true|done|]. rewrite <-Hlk. apply length_filter.
  - intros r [_ Hr]%list_elem_of_filter. apply Hone. rewrite <-Hkeyed. by apply list_elem_of_fmap_2.
Qed.

(** Who may resolve a candidate under a policy, on which advice. *)
Definition parent_may p events : Prop :=
  match resolution_strategy p with
  | ParentFinal => True
  | UserFinal => False
  | RequireAllRequiredReviewersThenParent => all_required_advised p events
  | QuorumThenParent => quorum p events
  | AnyRequiredReviewerCanRequestChanges => all_required_advised p events ∨ required_objection p events
  end.
Definition reviewers_may p events : Prop :=
  resolution_strategy p = AnyRequiredReviewerCanRequestChanges ∧ required_objection p events.
Definition may_resolve (policy : option ReviewPolicy) events e : Prop :=
  let by_policy (P : ReviewPolicy → Prop) (default : Prop) := match policy with Some p => P p | None => default end in
  match event_kind e with
  | SystemAuto => True
  | Advisory => by_policy (λ p, reviewers_may p events) False ∧ objecting e
  | DecisionEvent | Override =>
      match reviewer_kind e with
      | RuntimeAuto | System => True
      | ParentAgent => by_policy (λ p, parent_may p events) True
      | User => by_policy (λ p, resolution_strategy p = UserFinal ∨ mode p = ModeUserApproval) False
      | ReviewAgent => by_policy (λ p, reviewers_may p events) False
      end
  end.
Lemma can_resolve_spec policy events e :
  review_event_can_resolve e (evaluate_task_result_review_resolution digest policy events) = true ↔ may_resolve policy events e.
Proof.
  unfold review_event_can_resolve, may_resolve, final_actor_allowed, final_actor_for_reviewer_kind, evaluate_task_result_review_resolution.
  destruct policy as [p|]; cbn -[required_reviewer_request_changes missing_required_reviewers quorum_state].
  - assert (bool_decide (resolution_strategy p = AnyRequiredReviewerCanRequestChanges) &&
      required_reviewer_request_changes digest p (latest_advisory_by_reviewer digest p events) = true ↔ reviewers_may p events) as Hrev
      by (unfold reviewers_may; by rewrite andb_true_iff, bool_decide_eq_true, objection_spec).
    assert (match resolution_strategy p with
      | ParentFinal => true | UserFinal => false
      | RequireAllRequiredReviewersThenParent => bool_decide (missing_required_reviewers digest p (latest_advisory_by_reviewer digest p events) = [])
      | QuorumThenParent => fst (quorum_state digest p (latest_advisory_by_reviewer digest p events))
      | AnyRequiredReviewerCanRequestChanges =>
          bool_decide (missing_required_reviewers digest p (latest_advisory_by_reviewer digest p events) = [])
          || required_reviewer_request_changes digest p (latest_advisory_by_reviewer digest p events)
      end = true ↔ parent_may p events) as Hpar.
    { unfold parent_may. destruct (resolution_strategy p); [done|done| |apply quorum_spec|].
      - by rewrite bool_decide_eq_true, missing_spec.
      - by rewrite orb_true_iff, bool_decide_eq_true, missing_spec, objection_spec. }
    destruct (event_kind e), (reviewer_kind e); cbn -[required_reviewer_request_changes missing_required_reviewers quorum_state];
      rewrite ?andb_true_iff, ?objects_true, ?orb_true_iff, ?bool_decide_eq_true in *; try done; by rewrite ?Hrev, ?Hpar.
  - destruct (event_kind e), (reviewer_kind e); naive_solver.
Qed.

(** C19: a review event resolves a candidate exactly when it may: the runtime and the
    system always, an advice only to object once required reviewers may, a decision
    when the policy gives it to its author, for which the last advice of every
    reviewer counts. It then resolves it with the status that its decision means. *)
Theorem review_resolution_exact policy c e prior now res :
  review_event_candidate_resolution digest c e policy prior now = Some res ↔
  may_resolve policy (with_event prior e) e ∧ status_of (decision e) = Some (resolution_status res) ∧
  resolution_event res = event_id e ∧ resolved_at res = Z.max now (candidate_created_at c).
Proof.
  unfold review_event_candidate_resolution. rewrite <-can_resolve_spec. destruct (review_event_can_resolve _ _).
  - destruct (status_of (decision e)) as [st|]; simpl; [|naive_solver]. destruct res as [st' id at_time]. simpl. naive_solver.
  - split; [done|]. by intros [? _].
Qed.
End advice.

(** ** What the database keeps *)
Section invariant.
Context (digest : list N → list N) `{Hex : HexCodec} (policy : option ReviewPolicy) (origin : Candidate).
Implicit Types (d : Db) (e : ReviewEvent) (c : Candidate).

Definition unreviewed c : Prop :=
  (candidate_status c = PendingReview ∨ candidate_status c = ExtractionFailed) ∧ final_event c = None.
(** The decision of the event may resolve the candidate, on advice that is stored. *)
Definition justified d e : Prop :=
  event_candidate e = candidate_id origin ∧
  ∃ prior, Forall (λ x, reviews d !! event_id x = Some x) prior ∧ may_resolve digest policy (with_event prior e) e.
Definition decided c e : Prop :=
  final_event c = Some (event_id e) ∧ status_of (decision e) = Some (candidate_status c) ∧ is_Some (candidate_resolved_at c).
Definition resolves_with (p : Payload) c e : Prop :=
  match p with
  | CandidateAccepted c' id => c' = c ∧ id = event_id e ∧ candidate_status c = Accepted
  | CandidateRejected c' id => c' = c ∧ id = event_id e ∧ candidate_status c = Rejected
  | CandidateCancelled c' id => c' = c ∧ id = event_id e ∧ candidate_status c = Cancelled
  | _ => False
  end.
(** What an operation commits: a review, the resolution by a review of its own or
    by a stored one, or the candidate once more. *)
Inductive committable d : list Payload → Prop :=
  | CommitNothing : committable d []
  | CommitReview e : event_candidate e = candidate_id origin → committable d [ReviewRecorded e]
  | CommitResolving e p c :
      justified d e → same_identity origin c = true → decided c e → resolves_with p c e → committable d [ReviewRecorded e; p]
  | CommitResolution e p c :
      reviews d !! event_id e = Some e → justified d e → same_identity origin c = true → decided c e → resolves_with p c e →
      committable d [p]
  | CommitCandidate c : unreviewed c → committable d [CandidateCreated c].

Definition phase_ok d (ph : phase) : Prop :=
  match ph with
  | Started _ | Ended _ => True
  | SawEvent _ e => reviews d !! event_id e = Some e
  | SawCandidate _ found c => same_identity origin c = true ∧ match found with Some e => reviews d !! event_id e = Some e | None => True end
  | Ready ps _ => committable d ps
  end.
Definition reviews_ok d : Prop :=
  map_Forall (λ id e, event_id e = id ∧ event_candidate e = candidate_id origin) (reviews d) ∧
  (∀ id p, journal d !! (0, id) = Some p → ∃ e, p = ReviewRecorded e ∧ reviews d !! event_id e = Some e).
(** Each final event has the meaning of the one before or supersedes it. *)
Definition follows e e' : Prop := status_of (decision e) = status_of (decision e') ∨ supersedes e' = Some (event_id e).
Inductive chain : list ReviewEvent → Prop :=
  | chain_nil : chain []
  | chain_one e : chain [e]
  | chain_snoc l e e' : chain (l ++ [e]) → follows e e' → chain (l ++ [e; e']).
Definition row_ok d (l : list ReviewEvent) : Prop :=
  same_identity origin (row d) = true ∧
  match last l with Some e => decided (row d) e | None => unreviewed (row d) end.
Definition finals_ok d (l : list ReviewEvent) : Prop :=
  chain l ∧ Forall (λ e, reviews d !! event_id e = Some e ∧ justified d e) l.
Definition system_ok (s : system_state) : Prop :=
  reviews_ok (db s) ∧ row_ok (db s) (finals s) ∧ finals_ok (db s) (finals s) ∧ Forall (phase_ok (db s)) (running s).

(** Reviews are never dropped or changed. *)
Lemma justified_mono d d' e : reviews d ⊆ reviews d' → justified d e → justified d' e.
Proof.
  intros Hsub (Hid & prior & Hprior & Hmay). split; [done|]. exists prior. split; [|done].
  eapply Forall_impl; [exact Hprior|]. intros x Hx. exact (lookup_weaken _ _ _ _ Hx Hsub).
Qed.
Lemma committable_mono d d' ps : reviews d ⊆ reviews d' → committable d ps → committable d' ps.
Proof.
  intros Hsub. destruct 1; [constructor|by constructor| | |by constructor].
  - eapply CommitResolving; eauto using justified_mono.
  - eapply CommitResolution; eauto using justified_mono, lookup_weaken.
Qed.
Lemma phase_ok_mono d d' ph : reviews d ⊆ reviews d' → phase_ok d ph → phase_ok d' ph.
Proof.
  intros Hsub. destruct ph as [|op e|op found c|ps now|]; simpl; eauto using lookup_weaken, committable_mono.
  intros [? Hf]. split; [done|]. destruct found; eauto using lookup_weaken.
Qed.
Lemma finals_ok_mono d d' l : reviews d ⊆ reviews d' → finals_ok d l → finals_ok d' l.
Proof.
  intros Hsub [Hc Hall]. split; [done|]. eapply Forall_impl; [exact Hall|]. cbv beta. intros e [? ?]. split; eauto using lookup_weaken, justified_mono.
Qed.

(** What is saved or recorded for a candidate is about it. *)
Lemma same_identity_spec c c' :
  same_identity c c' = true ↔
  candidate_id c = candidate_id c' ∧ candidate_task c = candidate_task c' ∧ candidate_run c = candidate_run c' ∧
  candidate_turn c = candidate_turn c' ∧ candidate_thread c = candidate_thread c' ∧
  candidate_thread_turn c = candidate_thread_turn c' ∧ candidate_round c = candidate_round c' ∧
  candidate_created_at c = candidate_created_at c'.
Proof. apply bool_decide_eq_true. Qed.
Lemma same_identity_resolve c res : same_identity origin c = true → same_identity origin (resolve_candidate c res) = true.
Proof. by rewrite !same_identity_spec. Qed.
Lemma status_of_resolves k st : status_of k = Some st → st = Accepted ∨ st = Rejected ∨ st = Cancelled.
Proof. destruct k; naive_solver. Qed.
Lemma decided_resolve c e st at_time :
  status_of (decision e) = Some st →
  decided (resolve_candidate c {| resolution_status := st; resolution_event := event_id e; resolved_at := at_time |}) e.
Proof. intros Hs. split; [done|]. split; [done|]. by eexists. Qed.
Lemma resolves_with_resolution c res e :
  resolution_event res = event_id e → status_of (decision e) = Some (resolution_status res) →
  resolves_with (candidate_resolution_event (resolve_candidate c res) res) (resolve_candidate c res) e.
Proof.
  intros He Hs. destruct res as [st id at_time]. simpl in *. subst id.
  destruct (status_of_resolves _ _ Hs) as [->|[->| ->]]; done.
Qed.
Lemma stored_events_ok d : reviews_ok d → Forall (λ x, reviews d !! event_id x = Some x) (stored_events d).
Proof.
  intros [Hids _]. apply Forall_forall. intros x Hx. unfold stored_events in Hx. rewrite sort_on_perm in Hx.
  apply list_elem_of_fmap in Hx as ([id e] & -> & Hin%elem_of_map_to_list). simpl. by destruct (Hids id e Hin) as [-> _].
Qed.
Lemma resolution_sound d c e prior now res :
  review_event_candidate_resolution digest c e policy prior now = Some res →
  event_candidate e = candidate_id origin → same_identity origin c = true → Forall (λ x, reviews d !! event_id x = Some x) prior →
  justified d e ∧ same_identity origin (resolve_candidate c res) = true ∧ decided (resolve_candidate c res) e ∧
  resolves_with (candidate_resolution_event (resolve_candidate c res) res) (resolve_candidate c res) e.
Proof.
  unfold review_event_candidate_resolution. destruct (review_event_can_resolve _ _) eqn:Hcan; [|done]. apply can_resolve_spec in Hcan.
  destruct (status_of (decision e)) as [st|] eqn:Hst; [|done]. intros [= <-] Hid Hsame Hprior.
  split; [split; [done|by exists prior]|]. split; [by apply same_identity_resolve|].
  split; [by apply decided_resolve|by apply resolves_with_resolution].
Qed.
Lemma prepared_committable d op found c ps now :
  reviews_ok d → phase_ok d (SawCandidate op found c) →
  prepare_payloads digest policy op found c (stored_events d) now = Some ps → committable d ps.
Proof.
  intros Hrev [Hsame Hfound]. pose proof (stored_events_ok d Hrev) as Hst. pose proof Hsame as [Hid _]%same_identity_spec.
  destruct op as [params|id|a asked extra turn|reason|ex saved]; simpl.
  - unfold record_review. cbv zeta. destruct (validate_review_event_for_candidate _ _ && _); [|done]. intros [= <-].
    match goal with |- committable _ (ReviewRecorded ?x :: _) => set (e := x) end.
    assert (event_candidate e = candidate_id origin) as He by (subst e; by destruct (_ && _)).
    destruct (review_event_candidate_resolution _ _ _ _ _ _) as [res|] eqn:Hres; [|by constructor].
    eapply resolution_sound in Hres as (Hj & Hs & Hd & Hr); eauto using CommitResolving.
  - destruct found as [e|]; [|done]. intros [= <-]. unfold resolve_from_review_event.
    destruct (review_event_candidate_resolution _ _ _ _ _ _) as [res|] eqn:Hres; [|constructor]. case_decide; [constructor|].
    destruct (proj1 Hrev _ _ Hfound) as [_ He]. eapply resolution_sound in Hres as (Hj & Hs & Hd & Hr); eauto using CommitResolution.
  - unfold revise. cbv zeta. destruct (validate_review_event_for_candidate _ _ && _); [|done]. destruct (review_event_candidate_resolution _ _ _ _ _ _) as [res|] eqn:Hres; [|done].
    simpl. case_decide as Hrej; [|done]. intros [= <-]. eapply resolution_sound in Hres as (Hj & Hs & Hd & Hr); eauto.
    eapply CommitResolving; eauto. done.
  - unfold cancel_waiting_review. case_decide; intros [= <-]; [|constructor]. set (e := cancel_review_event_for_candidate _ _ _).
    eapply (CommitResolving _ e); [| |by apply decided_resolve|done]; [|by apply same_identity_resolve].
    split; [done|]. exists []. by split; [constructor|].
  - intros [= <-]. constructor. split; [|done]. destruct ex; auto.
Qed.

(** *** Committing *)
Lemma append_review d t e d' :
  reviews_ok d → event_candidate e = candidate_id origin → append_event t d (ReviewRecorded e) = Some d' →
  reviews_ok d' ∧ row d' = row d ∧ reviews d ⊆ reviews d' ∧ reviews d' !! event_id e = Some e.
Proof.
  intros [Hids Hj] He. unfold append_event. simpl. destruct (journal d !! (0, event_id e)) as [p|] eqn:Hjo.
  { case_decide as Hp; [|done]. intros [= <-]. destruct (Hj _ _ Hjo) as (e' & -> & Hst). injection Hp as ->. done. }
  unfold upsert_review_event. destruct (reviews d !! event_id e) as [stored|] eqn:Hst; [case_decide as Heq; [|done]|]; intros [= <-]; simpl.
  - subst stored. split; [split; [done|]|done]. intros id p. simpl. destruct (decide ((0, event_id e) = (0, id))) as [[= <-]|Hne].
    + rewrite lookup_insert_eq. intros [= <-]. by exists e.
    + rewrite lookup_insert_ne by done. apply Hj.
  - assert (reviews d ⊆ <[event_id e:=e]> (reviews d)) as Hsub by by apply insert_subseteq.
    split; [split|split; [done|split; [done|apply lookup_insert_eq]]].
    + by apply map_Forall_insert_2.
    + intros id p. simpl. destruct (decide ((0, event_id e) = (0, id))) as [[= <-]|Hne].
      * rewrite lookup_insert_eq. intros [= <-]. exists e. split; [done|apply lookup_insert_eq].
      * rewrite lookup_insert_ne by done. intros (e' & -> & Hst')%Hj. exists e'. split; [done|]. exact (lookup_weaken _ _ _ _ Hst' Hsub).
Qed.
(** An event other than a review changes the row only. *)
Lemma append_other d t p d' (P : Db → Prop) :
  reviews_ok d → fst (idempotency_key p) ≠ 0 →
  (∀ d', project d p t = Some d' → journal d' = journal d ∧ reviews d' = reviews d ∧ P d') →
  (∀ d' j, P d' → P {| row := row d'; reviews := reviews d'; journal := j |}) → P d →
  append_event t d p = Some d' → reviews_ok d' ∧ reviews d' = reviews d ∧ P d'.
Proof.
  intros [Hids Hj] Hkey Hproject HP Hd. unfold append_event. destruct (journal d !! idempotency_key p) as [p'|].
  { case_decide; [|done]. by intros [= <-]. }
  destruct (project d p t) as [d1|] eqn:Hp; [|done]. intros [= <-]. simpl. destruct (Hproject _ eq_refl) as (Hj1 & Hr1 & HP1).
  split; [|split; [done|by apply HP]]. split; simpl; [by rewrite Hr1|]. intros id p'. rewrite Hj1, Hr1, lookup_insert_ne; [apply Hj|].
  intros Heq. apply Hkey. by rewrite Heq.
Qed.
Lemma decided_terminal c e : decided c e → is_terminal (candidate_status c) = true.
Proof. intros (_ & Hs & _). apply bool_decide_eq_true. apply status_of_resolves in Hs. naive_solver. Qed.
Lemma unreviewed_open c : unreviewed c → is_terminal (candidate_status c) = false.
Proof. intros [[-> | ->] _]; done. Qed.
Lemma upsert_resolved d l c e d' :
  row_ok d l → decided c e → reviews d !! event_id e = Some e → upsert_candidate d c = Some d' →
  journal d' = journal d ∧ reviews d' = reviews d ∧ row d' = c ∧ ∀ e0, last l = Some e0 → follows e0 e.
Proof.
  intros [_ Hrow] Hdec Hst. unfold upsert_candidate. destruct (same_identity _ _); [|done]. rewrite (decided_terminal c e Hdec), andb_false_r.
  destruct Hdec as (Hfin & Hse & [at_time Hat]). destruct (is_terminal _ && _ && _) eqn:Hover; [done|]. intros [= <-].
  split; [done|]. split; [done|]. split; [done|]. intros e0 Hl. rewrite Hl in Hrow.
  rewrite (decided_terminal _ _ Hrow) in Hover. destruct Hrow as (Hfin0 & Hs0 & _).
  destruct (decide (candidate_status (row d) = candidate_status c)) as [Heq|Hne]; [left; by rewrite Hs0, Hse, Heq|].
  right. rewrite (bool_decide_eq_false_2 _ Hne) in Hover. cbn in Hover. apply negb_false_iff in Hover. revert Hover.
  unfold authorized_override. rewrite Hfin, Hat, Hst, Hfin0. by intros [_ ?]%bool_decide_eq_true.
Qed.
Lemma update_resolved d status review at_time updated_at d' :
  candidate_status (row d) = status → is_terminal status = true →
  update_candidate_resolution d status review at_time updated_at = Some d' → d' = d.
Proof.
  intros <- Hterm. unfold update_candidate_resolution. case_decide as Hopen; [by destruct Hopen as [Ho|Ho]; rewrite Ho in Hterm|].
  case_decide; [|done]. by intros [= <-].
Qed.
Lemma upsert_saved d l c d' :
  row_ok d l → unreviewed c → upsert_candidate d c = Some d' →
  journal d' = journal d ∧ reviews d' = reviews d ∧ row_ok d' l ∧ (row d' = row d ∨ unreviewed (row d')).
Proof.
  intros [Hsame Hrow] Hc. unfold upsert_candidate. destruct (same_identity (row d) c) eqn:Hid; [|done].
  rewrite (unreviewed_open c Hc). destruct (is_terminal (candidate_status (row d))) eqn:Hterm; simpl; intros [= <-].
  { split; [done|]. split; [done|]. split; [done|]. by left. }
  split; [done|]. split; [done|]. split; [|by right]. split; [|destruct (last l) as [e|]; [|done]].
  - apply same_identity_spec. apply same_identity_spec in Hid, Hsame. simpl. naive_solver congruence.
  - by rewrite (decided_terminal _ _ Hrow) in Hterm.
Qed.
Lemma project_resolved d l p c e t d' :
  row_ok d l → decided c e → reviews d !! event_id e = Some e → resolves_with p c e → project d p t = Some d' →
  journal d' = journal d ∧ reviews d' = reviews d ∧ row d' = c ∧ ∀ e0, last l = Some e0 → follows e0 e.
Proof.
  intros Hrow Hdec Hst Hp Hproject.
  assert (∃ d1, upsert_candidate d c = Some d1 ∧
    ∃ review at_time updated, update_candidate_resolution d1 (candidate_status c) review at_time updated = Some d') as (d1 & Hup & r & a & u & Hupd).
  { destruct p as [|c'|c' id|c' id|c' id]; [done|done|..]; destruct Hp as (-> & -> & ->); simpl in Hproject; unfold project_resolution in Hproject;
      destruct (upsert_candidate d c) as [d1|]; try done; exists d1; (split; [done|]); eauto. }
  destruct (upsert_resolved _ _ _ _ _ Hrow Hdec Hst Hup) as (Hj & Hr & Hc & Hf).
  apply update_resolved in Hupd as ->; [done|by rewrite Hc|by eapply decided_terminal].
Qed.

Definition kept d (l : list ReviewEvent) : Prop := reviews_ok d ∧ row_ok d l ∧ finals_ok d l.
Lemma final_change_same d d' : row d' = row d → final_change d d' = [].
Proof. unfold final_change. intros ->. by rewrite decide_True. Qed.
Lemma chain_add l e : chain l → (∀ e0, last l = Some e0 → follows e0 e) → chain (l ++ [e]).
Proof.
  intros Hc Hf. destruct l as [|e0 l _] using rev_ind; [constructor|]. rewrite <-app_assoc. constructor; [done|]. apply Hf. apply last_snoc.
Qed.
(** The row becomes decided by an event that is stored and follows the last one. *)
Lemma keep_resolved d d' l e :
  kept d l → reviews d ⊆ reviews d' → reviews_ok d' → reviews d' !! event_id e = Some e → justified d' e →
  same_identity origin (row d') = true → decided (row d') e → (∀ e0, last l = Some e0 → follows e0 e) →
  kept d' (l ++ final_change d d').
Proof.
  intros (_ & [Hsame Hrow] & Hfin) Hsub Hrev Hst Hj Hid Hdec Hf. split; [done|]. pose proof (finals_ok_mono _ _ _ Hsub Hfin) as [Hc Hall].
  pose proof Hdec as (Hfe & _ & _). unfold final_change. rewrite Hfe. case_decide as Heq.
  - rewrite app_nil_r. split; [|done]. split; [done|]. destruct (last l) as [e0|] eqn:Hl.
    + destruct Hrow as (Hfe0 & _ & _). assert (e0 = e) as ->; [|done]. rewrite Hfe0 in Heq. injection Heq as Heq.
      apply last_Some in Hl as [l' ->]. apply Forall_app in Hall as [_ [[Hst0 _] _]%Forall_cons]. rewrite Heq, Hst in Hst0. congruence.
    + destruct Hrow as [_ Hnone]. congruence.
  - rewrite Hst. split; [split; [done|]; simpl; by rewrite last_snoc|]. split; [by apply chain_add|].
    apply Forall_app. split; [done|]. by constructor.
Qed.
Lemma keep_same d d' l : kept d l → reviews d ⊆ reviews d' → reviews_ok d' → row d' = row d → kept d' (l ++ final_change d d').
Proof.
  intros (_ & Hrow & Hfin) Hsub Hrev Heq. rewrite final_change_same, app_nil_r by done. split; [done|].
  split; [unfold row_ok; by rewrite Heq|by eapply finals_ok_mono].
Qed.
Lemma commit_resolution d t p c e l d' :
  kept d l → reviews d !! event_id e = Some e → justified d e → same_identity origin c = true → decided c e → resolves_with p c e →
  append_event t d p = Some d' →
  reviews_ok d' ∧ reviews d' = reviews d ∧ (row d' = row d ∨ row d' = c ∧ ∀ e0, last l = Some e0 → follows e0 e).
Proof.
  intros (Hrev & Hrow & _) Hst Hj Hid Hdec Hp.
  apply (append_other d t p d' (λ x, row x = row d ∨ row x = c ∧ ∀ e0, last l = Some e0 → follows e0 e)); [done| | |done|by left].
  - by destruct p.
  - intros d1 Hproject. destruct (project_resolved _ _ _ _ _ _ _ Hrow Hdec Hst Hp Hproject) as (? & ? & ? & ?). naive_solver.
Qed.
Lemma commit_keeps d t ps l d' :
  kept d l → committable d ps → append_events t d ps = Some d' → reviews d ⊆ reviews d' ∧ kept d' (l ++ final_change d d').
Proof.
  intros Hk Hps. unfold append_events. destruct Hps as [|e He|e p c Hj Hid Hdec Hp|e p c Hst Hj Hid Hdec Hp|c Hc]; simpl.
  - intros [= <-]. split; [done|]. by apply keep_same; [|done|destruct Hk|].
  - intros Ha. destruct (append_review _ _ _ _ (proj1 Hk) He Ha) as (Hrev & Hrow & Hsub & _). split; [done|]. by apply keep_same.
  - destruct (append_event t d (ReviewRecorded e)) as [d1|] eqn:Ha; [|done]. simpl. intros Hb.
    destruct (append_review _ _ _ _ (proj1 Hk) (proj1 Hj) Ha) as (Hrev1 & Hrow1 & Hsub1 & Hst1).
    pose proof (keep_same d d1 l Hk Hsub1 Hrev1 Hrow1) as Hk1. rewrite final_change_same, app_nil_r in Hk1 by done.
    destruct (commit_resolution d1 t p c e l d' Hk1 Hst1 (justified_mono _ _ _ Hsub1 Hj) Hid Hdec Hp Hb) as (Hrev & Hr & Hrow).
    assert (reviews d ⊆ reviews d') as Hsub by (by rewrite Hr). split; [done|].
    destruct Hrow as [Hrow|[Hrow Hf]]; [by apply keep_same; [| | |congruence]|].
    apply (keep_resolved _ _ _ e); rewrite ?Hrow, ?Hr; eauto using justified_mono.
  - destruct (append_event t d p) as [d1|] eqn:Ha; [|done]. intros [= <-].
    destruct (commit_resolution d t p c e l d1 Hk Hst Hj Hid Hdec Hp Ha) as (Hrev & Hr & Hrow). split; [by rewrite Hr|].
    destruct Hrow as [Hrow|[Hrow Hf]]; [by apply keep_same; [|rewrite Hr| |]|].
    apply (keep_resolved _ _ _ e); rewrite ?Hrow, ?Hr; eauto using justified_mono. eapply justified_mono; [|exact Hj]. by rewrite Hr.
  - destruct (append_event t d (CandidateCreated c)) as [d1|] eqn:Ha; [|done]. intros [= <-]. destruct Hk as (Hrev & Hrow & Hfin).
    apply (append_other _ _ _ _ (λ d', row_ok d' l ∧ (row d' = row d ∨ unreviewed (row d')))) in Ha as (Hrev1 & Hr & Hrow1 & Hor);
      [|done|done| |done|by split; [|left]].
    + split; [by rewrite Hr|]. replace (final_change d d1) with (@nil ReviewEvent).
      * rewrite app_nil_r. split; [done|]. split; [done|]. eapply finals_ok_mono; [|done]. by rewrite Hr.
      * destruct Hor as [Heq|[_ Hnone]]; [by rewrite final_change_same|]. unfold final_change. rewrite Hnone. by case_decide.
    + intros d2 Hproject. by eapply upsert_saved.
Qed.
(** A batch may be cut. *)
Lemma commit_first_keeps d t p ps l d' :
  kept d l → committable d (p :: ps) → append_event t d p = Some d' →
  reviews d ⊆ reviews d' ∧ kept d' (l ++ final_change d d') ∧ committable d' ps.
Proof.
  intros Hk Hps Ha.
  assert (committable d [p] ∧ (reviews d ⊆ reviews d' → committable d' ps)) as [Hp Hrest].
  { inversion Hps as [|e He|e p' c Hj Hid Hdec Hres|e p' c Hst Hj Hid Hdec Hres|c Hc]; subst; try by split; [|constructor].
    destruct (append_review _ _ _ _ (proj1 Hk) (proj1 Hj) Ha) as (_ & _ & _ & Hst). split; [constructor; apply Hj|].
    intros Hsub. eapply CommitResolution; eauto using justified_mono. }
  destruct (commit_keeps d t [p] l d' Hk Hp Ha) as [Hsub Hk']. auto.
Qed.
(** One move of an operation. *)
Definition moved d l (next : phase * Db) : Prop :=
  reviews d ⊆ reviews (snd next) ∧ kept (snd next) (l ++ final_change d (snd next)) ∧ phase_ok (snd next) (fst next).
Lemma moved_same d l ph : kept d l → phase_ok d ph → moved d l (ph, d).
Proof. intros Hk Hok. split; [done|]. split; [|done]. by rewrite final_change_same, app_nil_r. Qed.
Lemma advance_moved d l now ph : kept d l → phase_ok d ph → moved d l (advance digest policy d now ph).
Proof.
  intros Hk Hok. pose proof Hk as (Hrev & Hrow & _). destruct ph as [op|op e|op found c|ps t|ok]; simpl.
  - destruct op; try (apply moved_same; [done|]; split; [by apply Hrow|done]).
    case_match eqn:He; apply moved_same; try done. simpl. by destruct (proj1 Hrev _ _ He) as [-> _].
  - apply moved_same; [done|]. split; [by apply Hrow|done].
  - destruct (prepare_payloads _ _ _ _ _ _ _) as [ps|] eqn:Hp; apply moved_same; try done. by eapply prepared_committable.
  - destruct (append_events t d ps) as [d1|] eqn:Ha; [|by apply moved_same].
    destruct (commit_keeps _ _ _ l _ Hk Hok Ha) as [? ?]. by split_and!.
  - by apply moved_same.
Qed.
Lemma commit_first_moved d l ph : kept d l → phase_ok d ph → moved d l (commit_first d ph).
Proof.
  intros Hk Hok. destruct ph as [| | |[|p ps] t|]; try by apply moved_same. simpl.
  destruct (append_event t d p) as [d1|] eqn:Ha; [|by apply moved_same]. by apply (commit_first_keeps _ t p).
Qed.
Lemma settle_ok s i next : system_ok s → moved (db s) (finals s) next → system_ok (settle s i next).
Proof.
  intros (_ & _ & _ & Hph) (Hsub & (? & ? & ?) & Hok). split; [done|]. split; [done|]. split; [done|]. apply Forall_insert; [|done].
  eapply Forall_impl; [exact Hph|]. intros. by eapply phase_ok_mono.
Qed.
Lemma system_ok_step s s' : system_ok s → step digest policy s s' → system_ok s'.
Proof.
  intros Hs Hstep. pose proof Hs as (Hrev & Hrow & Hfin & Hph). assert (kept (db s) (finals s)) as Hk by done.
  destruct Hstep as [s op|s i ph now Hi|s i ph Hi].
  { split; [done|]. split; [done|]. split; [done|]. apply Forall_app. split; [done|]. by constructor. }
  all: pose proof (Forall_lookup_1 _ _ _ _ Hph Hi) as Hok; apply settle_ok; auto using advance_moved, commit_first_moved.
Qed.

Lemma system_ok_initial : unreviewed origin → system_ok (initial origin).
Proof.
  intros Hc. split_and!; [split| |split; constructor|constructor].
  - by apply map_Forall_empty.
  - intros id p. simpl. by rewrite lookup_singleton_ne.
  - split; [by apply same_identity_spec|done].
Qed.
Lemma chain_lookup l i e e' : chain l → l !! i = Some e → l !! S i = Some e' → follows e e'.
Proof.
  intros Hc. revert i e e'. induction Hc as [|x|l x x' Hc IH Hf]; intros i e e' Hi HSi; [done|by destruct i|].
  change [x; x'] with ([x] ++ [x']) in *. rewrite (app_assoc l [x] [x']) in Hi, HSi. apply lookup_app_Some in HSi as [HSi|[Hlen HSi]].
  - rewrite lookup_app_l in Hi by (apply lookup_lt_Some in HSi; lia). eauto.
  - rewrite length_app in Hlen, HSi. simpl in Hlen, HSi. apply list_lookup_singleton_Some in HSi as [Hz <-].
    assert (i = length l) as -> by lia. rewrite lookup_app_l, lookup_app_r, Nat.sub_diag in Hi by (rewrite ?length_app; simpl; lia).
    by injection Hi as <-.
Qed.
Lemma finals_prefix s s' : rtc (step digest policy) s s' → finals s `prefix_of` finals s'.
Proof.
  induction 1 as [s|s s1 s' Hstep _ IH]; [done|]. etrans; [|exact IH]. destruct Hstep; [done|..]; by eexists.
Qed.

(** C7: however the operations on a candidate interleave, the final event of its row
    is a stored review whose decision means the status of the row; every final event
    was allowed by the policy on advice that is stored; each later one keeps the
    status or supersedes the one before; and a decided candidate is never undecided
    again. *)
Theorem review_decisions_chain s :
  unreviewed origin → rtc (step digest policy) (initial origin) s →
  same_identity origin (row (db s)) = true ∧
  match last (finals s) with Some e => decided (row (db s)) e | None => unreviewed (row (db s)) end ∧
  (∀ e, e ∈ finals s → reviews (db s) !! event_id e = Some e ∧ justified (db s) e) ∧
  (∀ i e e', finals s !! i = Some e → finals s !! S i = Some e' → follows e e') ∧
  (∀ s', rtc (step digest policy) s s' → finals s `prefix_of` finals s').
Proof.
  intros Hc Hreach. assert (system_ok s) as (_ & [Hsame Hrow] & [Hchain Hall] & _).
  { eapply (invariant_rtc _ system_ok); [apply system_ok_step|exact Hreach|by apply system_ok_initial]. }
  split; [done|]. split; [done|]. split; [by apply Forall_forall|]. split; [|apply finals_prefix].
  intros i e e'. by apply chain_lookup.
Qed.
End invariant.

(** ** Running *)
Section runs.
Context (digest : list N → list N) `{Hex : HexCodec} (policy : option ReviewPolicy).
Inductive action := Begin (op : operation) | Go (i : nat) (now : Z).
Definition act (s : system_state) (a : action) : system_state :=
  match a with
  | Begin op => {| db := db s; running := running s ++ [Started op]; finals := finals s |}
  | Go i now => match running s !! i with Some ph => settle s i (advance digest policy (db s) now ph) | None => s end
  end.
Lemma run_reachable l s : rtc (step digest policy) s (foldl act s l).
Proof.
  revert s. induction l as [|a l IH]; intros s; [done|]. simpl. etrans; [|apply IH].
  destruct a as [op|i now]; simpl; [apply rtc_once; constructor|]. destruct (running s !! i) eqn:Hi; [|done]. apply rtc_once. by constructor.
Qed.
End runs.

(** ** Samples *)
Module SampleReview.
Import SampleHex.
Definition digest (bytes : list N) : list N := bytes.
Definition candidate : Candidate :=
  {| candidate_id := lit "c"; candidate_task := lit "t"; candidate_run := lit "r"; candidate_turn := lit "u"; candidate_thread := lit "th";
     candidate_thread_turn := lit "tu"; candidate_round := 0; candidate_status := PendingReview; content := "";
     final_event := None; candidate_created_at := 5; candidate_updated_at := 5; candidate_resolved_at := None |}.
Definition agent (kind : ReviewerKind) (turn : text) : ReviewActor :=
  {| actor_kind := kind; actor := AgentExecution (lit "e"); actor_thread := Some (lit "other"); actor_turn := Some turn;
     actor_user := None; actor_spec := None |}.
Definition params (kind : ReviewerKind) (turn : text) (k : EventKind) (d : ReviewDecision) : ReviewParams :=
  {| params_event_id := None; params_actor := agent kind turn; params_kind := k; params_decision := d; params_feedback_text := None;
     params_feedback := None; params_confidence := None; params_supersedes := None; params_next_turn := None |}.
Definition spec (weight : option f64) : ReviewerSpec :=
  {| spec_kind := ReviewAgent; agent_nickname := None; agent_role := None; required := true; weight := weight |}.
Definition policy_with (s : ResolutionStrategy) (specs : list ReviewerSpec) : option ReviewPolicy :=
  Some {| mode := ModeParentAgentWithReviewers; max_revision_rounds := 3; require_explicit_acceptance := true; reviewers := specs;
          resolution_strategy := s |}.
Definition policy : option ReviewPolicy := policy_with AnyRequiredReviewerCanRequestChanges [spec None].
(** The three moves of an operation. *)
Definition moves (i : nat) (now : Z) : list action := [Go i now; Go i (now + 1); Go i (now + 1)].
Definition outcome (s : system_state) : CandidateStatus * list (ReviewDecision * option text) * list phase :=
  (candidate_status (row (db s)), (λ e, (decision e, supersedes e)) <$> finals s, running s).

(** A reviewer objects, which rejects; the parent overrides the rejection. *)
Definition overriding : list action :=
  [Begin (RecordReview (params ReviewAgent (lit "1") Advisory RequestChanges))] ++ moves 0 10 ++
  [Begin (RecordReview (params ParentAgent (lit "2") Override Accept))] ++ moves 1 20.
Definition overridden : system_state := foldl (act digest policy) (initial candidate) overriding.
Definition objection_id : text := stable_review_event_id digest candidate (agent ReviewAgent (lit "1")) Advisory RequestChanges.
Example overridden_outcome :
  outcome overridden = (Accepted, [(RequestChanges, None); (Accept, Some objection_id)], [Ended true; Ended true]).
Proof. vm_compute. reflexivity. Qed.
(** A decision that is no override is refused by then. *)
Example decided_twice :
  outcome (foldl (act digest policy) overridden
    ([Begin (RecordReview (params ParentAgent (lit "3") DecisionEvent Reject))] ++ moves 2 30)) =
  (Accepted, [(RequestChanges, None); (Accept, Some objection_id)], [Ended true; Ended true; Ended false]).
Proof. vm_compute. reflexivity. Qed.

Lemma review_decisions_chain_witness :
  unreviewed candidate ∧ rtc (step digest policy) (initial candidate) overridden ∧
  (∀ i e e', finals overridden !! i = Some e → finals overridden !! S i = Some e' → follows e e').
Proof.
  assert (unreviewed candidate) as Hc by (split; [by left|done]).
  assert (rtc (step digest policy) (initial candidate) overridden) as Hr by apply run_reachable.
  split; [exact Hc|]. split; [exact Hr|]. apply (review_decisions_chain digest policy candidate overridden Hc Hr).
Defined.

(** Two acceptances prepared on the open candidate: both are committed, and the
    second becomes the final event without superseding the first. *)
Definition racing : list action :=
  [Begin (RecordReview (params ParentAgent (lit "1") DecisionEvent Accept));
   Begin (RecordReview (params ParentAgent (lit "2") DecisionEvent Accept))] ++
  [Go 0 10; Go 1 10; Go 0 11; Go 1 11; Go 0 12; Go 1 12].
Example acceptances_race :
  outcome (foldl (act digest None) (initial candidate) racing) = (Accepted, [(Accept, None); (Accept, None)], [Ended true; Ended true]).
Proof. vm_compute. reflexivity. Qed.
(** Of an acceptance and a rejection that race, the second is refused. *)
Example rejection_races :
  outcome (foldl (act digest None) (initial candidate)
    ([Begin (RecordReview (params ParentAgent (lit "1") DecisionEvent Accept));
      Begin (RecordReview (params ParentAgent (lit "2") DecisionEvent Reject))] ++ [Go 0 10; Go 1 10; Go 0 11; Go 1 11; Go 0 12; Go 1 12])) =
  (Accepted, [(Accept, None)], [Ended true; Ended false]).
Proof. vm_compute. reflexivity. Qed.

(** Reviewers whose weights sum up to one half never reach the quorum, though all of
    them accept: the total counts as one at least. *)
Definition half : f64 := f64_div f64_one f64_two.
Definition quarter : f64 := f64_div half f64_two.
Definition advice (d : ReviewDecision) : ReviewEvent :=
  build_task_result_review_event digest candidate (params ReviewAgent (lit "1") Advisory d) 10.
Definition accepted_alone (w : option f64) : option bool :=
  p ← policy_with QuorumThenParent [spec w]; Some (fst (quorum_state digest p (latest_advisory_by_reviewer digest p [advice Accept]))).
Example light_reviewer_no_quorum :
  List.map accepted_alone [Some quarter; Some half; Some f64_one; None] = [Some false; Some false; Some true; Some true].
Proof. vm_compute. reflexivity. Qed.
End SampleReview.
